(* ===== verification/_CoqProject ===== *)
-Q . S2P
Prelude.v
Format.v
Varint.v
Writer.v
Reader.v
Instances.v
Scan.v
Container.v
Text.v
RecordLoop.v
Protocol.v
Source.v
BufferSpool.v
FileSpool.v
Segments.v
FileSpoolInv.v
FileAppend.v
FileReplay.v
FileConsume.v
FileOpen.v
Spool.v
FileSpoolTheorems.v
SegmentTools.v
ReplayServer.v
BridgeState.v
Otlp.v
Batcher.v
Collector.v
Bridge.v
BridgePipe.v
Policy.v
Ingest.v
Config.v
Drain.v
Tokens.v
Canon.v
FlatRecord.v
SampleCodec.v
Dedup.v
Groups.v
DedupStages.v
DedupTheorems.v
Emit.v
EmitTheorems.v
Cel.v
Predicate.v
DatasetIndex.v
IndexTheorems.v
ViewScan.v
ViewTheorems.v
MergeTheorems.v
ViewExport.v
Input.v
ViewFollow.v
Workers.v
Catalog.v
Dataset.v
LibRequest.v
LibEngine.v
LibHttp.v
LibApi.v
PluginHost.v
Syslog.v
Logcat.v
Discover.v
Exporter.v
Ndjson.v
PluginSearch.v
ViewText.v
ViewDetail.v
ViewApp.v
ViewAppInv.v
PerfettoRpc.v
PerfettoReader.v
PerfettoTime.v
Perfetto.v
PerfettoMaps.v
Parquet.v
Stress.v
PathReplay.v
