(* ===== verification/Prelude.v ===== *)
(** * A verification of logjet

    logjet stores OpenTelemetry data in an append-only container file.  The repository has
    a library for the container ([src/]), a daemon that receives telemetry, keeps it in a
    spool and hands it to clients and collectors ([logjetd/src/]), a command line tool that
    queries, deduplicates, shows and exports containers ([ljx/src/], with the query language in
    [ljcel/src/]), a library for C programs that send log records ([liblogjet/src/]), and
    plugins ([plugins/]).  This development models these parts as executable functions and
    proves what they promise.

    ** How the parts interact

    Producers send records over HTTP, gRPC, the wire protocol or a plugin; the daemon applies
    its intake policy, numbers the records and appends them to a spool, in memory or in
    container files.  Replay clients read the spool through cursors and, in drain mode,
    acknowledge what may be removed.  A bridge is such a client: it passes records on to
    collectors and commits its position to a state file.  The command line tool opens
    container files with the same reader the spool uses, and writes with the same writer.

    ** Which file models what

    Container, from [src/]:
    - [Format] ([error.rs], [codec.rs], [crc.rs], [record.rs], [format.rs]), [Varint],
      [Writer] ([writer.rs]), [Reader] ([reader.rs]);
    - [Instances]: concrete checksum and codecs; [Scan]: which bytes are blocks, and what the
      reader delivers; [Container]: what is written is read, around damage too;
    - [RecordLoop]: the loop over the records of a file that all clients of the reader use.

    Daemon, from [logjetd/src/]:
    - [Protocol] ([protocol.rs]); [BufferSpool], [FileSpool], [Spool], [SegmentTools]
      ([spool.rs]), with [Segments], [FileSpoolInv], [FileAppend], [FileReplay], [FileConsume],
      [FileOpen] and [FileSpoolTheorems] for the refinement of the segment files to an
      abstract log; [Source] is the interface between a spool and a replay client;
    - [ReplayServer], [Policy] and [Ingest] ([daemon.rs]); [Config] ([config.rs]);
    - [BridgeState], [Batcher], [Collector], [Bridge] and [BridgePipe] ([replay.rs]); [Otlp] has
      the requests they pass on; [PathReplay]: the replay of files ([replay.rs]) and their
      inspection ([spool.rs]);
    - [PluginSearch] and [PluginHost] ([plugin.rs]), and the plugins ([plugins/]) [Syslog], [Logcat] and
      [Stress];
    - the Perfetto plugin ([plugins/perfetto-ingest/src/]): [PerfettoRpc] ([rpc_client.rs]),
      [PerfettoReader] ([sqlite_reader.rs], [rpc_reader.rs]), [PerfettoTime] ([timestamp.rs]),
      [Perfetto] ([log_mapper.rs], [lib.rs]) and [PerfettoMaps] ([trace_mapper.rs], [metric_mapper.rs],
      [metrics_reader.rs]).

    Command line tool, from [ljx/src/] and [ljcel/src/]:
    - deduplication ([dedup/], [commands/dedup.rs]): [Tokens], [Canon] (canonical bodies),
      [Drain] (templates), [FlatRecord], [Dedup], [Emit], with [SampleCodec], [Groups], [DedupStages],
      [DedupTheorems] and [EmitTheorems];
    - queries: [Cel] ([ljcel/src/]), [Predicate] ([predicate.rs] and the commands [count] and
      [filter]), [DatasetIndex] and [IndexTheorems] ([dataset_index.rs]), [Dataset] ([dataset.rs]),
      [Input] ([input.rs]);
    - the viewer's worker ([commands/view/scan.rs]): [ViewScan], [ViewTheorems], [MergeTheorems],
      [ViewExport], [ViewFollow] and [Catalog]; [Workers] is the pool of threads that [Catalog] and
      [Discover] ([commands/discover.rs]) share;
    - the viewer itself ([commands/view/]): [ViewText] ([text.rs]), [ViewDetail] ([detail.rs]),
      [ViewApp] ([app.rs]), its invariant in [ViewAppInv];
    - export: [Exporter] ([exporter.rs] and the interface of [liblogjet/src/export.rs]), [Ndjson]
      ([commands/export.rs]) and [Parquet] ([plugins/parquet-exporter/src/lib.rs]).

    Library for C programs, from [liblogjet/src/lib.rs]: [LibRequest], [LibEngine], [LibHttp] and
    [LibApi].

    ** How code is modelled

    A [w]-bit integer is a [Z], with the checks and wrap-around of the code written out; bytes
    and strings are lists of [Z]; [Result] is [result]; a method with [&mut self] is a function in
    the state-and-error monad [M], which keeps what was changed before an early return.
    Maps are [gmap]s, or association lists where the order matters.  A file is its bytes, a directory a
    map.  A connection is the bytes or messages still to come.  Threads are steps
    of a transition relation or a schedule of turns ([ReplayServer], [BridgePipe], [Policy],
    [LibEngine], [Workers]); their theorems hold for every schedule.  Foreign code, that is
    the crates for compression, checksums, protobuf, JSON, regular expressions, CEL, hashing
    and calendars, the operating system, the clock and loaded plugins, is a class or a
    parameter; its laws are those its documentation gives, and each has an instance here on
    which the theorems are run.

    Loops whose length the code does not bound structurally take fuel.  For the reader it
    is the length of the data, and [Container] and [RecordLoop] prove that it suffices; elsewhere it
    is an argument, and the theorems say how much is enough (the records of a file, the
    directories of a tree, the rounds of an exchange).  [None] stands for exhausted fuel only.

    ** What is proved

    - Container: written records are read back; damage costs only the blocks it touches;
      reading any bytes ends.
    - Spools: a file spool refines a log of records; appending, replay, retention, consumption and
      restart; the memory spool keeps order and its bound.
    - Server and bridge: clients get every record once and in order, only acknowledged
      records are drained, a bridge commits only what collectors took, in order.
    - Intake: a request is stored exactly when it is answered with success; rates and
      connections stay within their limits; a configuration that loads is valid.
    - Deduplication: groups partition the records, by form or in maximal runs; templates cover
      their messages; the written file reads back as the groups.
    - Queries and viewing: filters, counts, scans with and without an index, merged scans, the
      live view, field catalogues and discovery agree with the selection on the records; the
      viewer never panics, shows the record selected and saves over no file.
    - Export: a plugin that reports success was given every record and its output is
      complete; JSON lines have a row for every entry, and so have the batches of the Parquet plugin.
    - C library: requests carry the records, calls report their errors, the
      asynchronous engine accounts for every send under every interleaving.
    - Plugins: every line becomes a record with the fields it parses to; a Perfetto trace is
      stored whole, and the same from the database as from the trace processor.

    The theorems that show where the code does not do what it says (records hidden after a restart,
    blocks an index leaves out, a failed write that is forgotten, and others) stand next to
    the definitions they are about.

    ** What is not modelled

    The drawing of the viewer ([render.rs] and [ui.rs] in [commands/view/]), through the
    [ratatui] crate: it reads the state of [ViewApp] and lays it out.  The argument
    parsers and [main] functions ([cli.rs], [main.rs]) and [tls.rs]: they configure crates.
    The parts of [perfetto_invoke.rs] that nothing calls (its server and the export of metrics);
    [arrow], [parquet], [rusqlite] and the trace processor are parameters of the plugins that
    use them.  Demos, examples and tests.  Of the modelled files, the printing of messages,
    checks for null pointers in the plugins and the start of threads and listeners are left out.

    ** This file

    Machine integers, little-endian bytes, results and the state-and-error monad that the
    component files use. *)

From stdpp Require Export base list list_numbers gmap strings pretty numbers.
From Stdlib Require Export ZArith Lia.

#[global] Open Scope Z_scope.

(** ** Results

    [result E A] is Rust's [Result<A, E>]. *)

Inductive result (E A : Type) : Type :=
| Ok (a : A)
| Err (e : E).
Arguments Ok {E A} a.
Arguments Err {E A} e.

Declare Scope rust_scope.
Delimit Scope rust_scope with rust.
#[global] Open Scope rust_scope.

(** The [?] operator on a pure result. *)
Notation "'let?' x ':=' c 'in' k" :=
  (match c with Ok x => k | Err e => Err e end)
  (at level 10, x pattern, c at level 200, k at level 200) : rust_scope.

Definition ok_or {E A} (o : option A) (e : E) : result E A :=
  match o with Some a => Ok a | None => Err e end.

Definition map_err {E F A} (f : E → F) (r : result E A) : result F A :=
  match r with Ok a => Ok a | Err e => Err (f e) end.

Definition is_ok {E A} (r : result E A) : bool :=
  match r with Ok _ => true | Err _ => false end.

(** ** State and errors

    A method with [&mut self] that returns [Result<A, E>] keeps the mutations it
    made before an early return, so the final state is returned in both cases. *)

Definition M (S E A : Type) : Type := S → result E A * S.

Definition ret {S E A} (a : A) : M S E A := λ s, (Ok a, s).
Definition throw {S E A} (e : E) : M S E A := λ s, (Err e, s).
Definition bind {S E A B} (c : M S E A) (k : A → M S E B) : M S E B :=
  λ s, match c s with
       | (Ok a, s') => k a s'
       | (Err e, s') => (Err e, s')
       end.
Definition gets {S E A} (f : S → A) : M S E A := λ s, (Ok (f s), s).
Definition modify {S E} (f : S → S) : M S E unit := λ s, (Ok tt, f s).
Definition lift {S E A} (r : result E A) : M S E A := λ s, (r, s).

Notation "'let!' x ':=' c 'in' k" :=
  (bind c (λ x, k))
  (at level 10, x pattern, c at level 200, k at level 200) : rust_scope.
Notation "c ';;!' k" := (bind c (λ _ : unit, k))
  (at level 190, right associativity) : rust_scope.

(** ** Machine integers

    A [w]-bit unsigned integer is a [Z] in [0, 2^w).  [usize] is 64 bits wide. *)

Definition MAX_U8 : Z := 255.
Definition MAX_U16 : Z := 65535.
Definition MAX_U32 : Z := 4294967295.
Definition MAX_U64 : Z := 18446744073709551615.

Definition in_width (max z : Z) : Prop := 0 ≤ z ≤ max.
Abbreviation is_u8 := (in_width MAX_U8).
Abbreviation is_u16 := (in_width MAX_U16).
Abbreviation is_u32 := (in_width MAX_U32).
Abbreviation is_u64 := (in_width MAX_U64).

#[export] Instance in_width_dec max z : Decision (in_width max z).
Proof. unfold in_width. apply _. Defined.

(** [a.checked_add(b)], [a.checked_sub(b)], [a.saturating_add(b)],
    [a.saturating_sub(b)] and [T::try_from] at the width given by [max]. *)
Definition checked_add (max a b : Z) : option Z :=
  if a + b <=? max then Some (a + b) else None.
Definition checked_sub (a b : Z) : option Z :=
  if b <=? a then Some (a - b) else None.
Definition saturating_add (max a b : Z) : Z := Z.min max (a + b).
Definition saturating_sub (a b : Z) : Z := Z.max 0 (a - b).
Definition try_from (max z : Z) : option Z :=
  if (0 <=? z) && (z <=? max) then Some z else None.

(** [xs.len()] *)
Definition len {A} (l : list A) : Z := Z.of_nat (length l).

Lemma len_nil {A} : len (@nil A) = 0.
Proof. reflexivity. Qed.
Lemma len_cons {A} (x : A) l : len (x :: l) = 1 + len l.
Proof. unfold len. simpl. lia. Qed.
Lemma len_app {A} (l k : list A) : len (l ++ k) = len l + len k.
Proof. unfold len. rewrite length_app. lia. Qed.
Lemma len_nonneg {A} (l : list A) : 0 ≤ len l.
Proof. unfold len. lia. Qed.
Lemma len_zero {A} (l : list A) : len l = 0 → l = [].
Proof. destruct l; [done|]. rewrite len_cons. pose proof (len_nonneg l). lia. Qed.
Lemma len_drop {A} n (l : list A) : (n ≤ length l)%nat → len (drop n l) = len l - Z.of_nat n.
Proof. unfold len. rewrite length_drop. lia. Qed.
Lemma len_take {A} n (l : list A) : (n ≤ length l)%nat → len (take n l) = Z.of_nat n.
Proof. unfold len. rewrite length_take. lia. Qed.

(** ** Bytes *)

Definition bytes (l : list Z) : Prop := Forall is_u8 l.

#[export] Instance bytes_dec l : Decision (bytes l).
Proof. unfold bytes. apply _. Defined.

(** The bytes of a string literal ([b"..."] or [str::as_bytes]). *)
Definition str (s : string) : list Z :=
  (λ c, Z.of_N (Ascii.N_of_ascii c)) <$> String.list_ascii_of_string s.

Lemma str_inj s t : str s = str t → s = t.
Proof.
  revert t. induction s as [|a s IH]; intros [|b t] E; try done. unfold str in E. simpl in E.
  injection E as Ea Es. f_equal; [|by apply IH].
  by rewrite <- (Ascii.ascii_N_embedding a), <- (Ascii.ascii_N_embedding b), (N2Z.inj _ _ Ea).
Qed.

(** [{z}] and [{z:#010x}] in a format string, for an unsigned [z]. *)
Definition show (z : Z) : string := pretty (Z.to_N z).

Definition hex_digit (d : Z) : Ascii.ascii :=
  Ascii.ascii_of_N (Z.to_N (if d <? 10 then 48 + d else 87 + d)).
Fixpoint show_hex_digits (n : nat) (z : Z) (acc : string) : string :=
  match n with
  | O => acc
  | S n => show_hex_digits n (z / 16) (String.String (hex_digit (z mod 16)) acc)
  end.
Definition show_hex8 (z : Z) : string := "0x" +:+ show_hex_digits 8 z "".

(** [x.to_le_bytes()] for an integer of [n] bytes, and [T::from_le_bytes]. *)
Fixpoint to_le (n : nat) (z : Z) : list Z :=
  match n with
  | O => []
  | S n => z mod 256 :: to_le n (z / 256)
  end.

Fixpoint from_le (l : list Z) : Z :=
  match l with
  | [] => 0
  | b :: l => b + 256 * from_le l
  end.

(** [&xs[a..b]], in range. *)
Definition slice {A} (a b : nat) (l : list A) : list A := take (b - a) (drop a l).

Lemma length_to_le n z : length (to_le n z) = n.
Proof. revert z. induction n as [|n IH]; intros z; simpl; [done|]. by rewrite IH. Qed.

Lemma bytes_app l k : bytes (l ++ k) ↔ bytes l ∧ bytes k.
Proof. apply Forall_app. Qed.

Lemma bytes_nil : bytes [].
Proof. constructor. Qed.

Lemma bytes_cons b l : bytes (b :: l) ↔ is_u8 b ∧ bytes l.
Proof. apply Forall_cons_iff. Qed.

Lemma bytes_to_le n z : bytes (to_le n z).
Proof.
  revert z. induction n as [|n IH]; intros z; simpl; constructor; [|apply IH].
  unfold in_width, MAX_U8. pose proof (Z.mod_pos_bound z 256). lia.
Qed.

Lemma from_le_to_le n z : 0 ≤ z < 256 ^ Z.of_nat n → from_le (to_le n z) = z.
Proof.
  revert z. induction n as [|n IH]; intros z Hz; simpl; [lia|].
  rewrite Nat2Z.inj_succ, Z.pow_succ_r in Hz by lia.
  rewrite IH; [pose proof (Z.div_mod z 256); lia|].
  split; [apply Z.div_pos; lia|apply Z.div_lt_upper_bound; lia].
Qed.

Lemma from_le_bound l : bytes l → 0 ≤ from_le l < 256 ^ len l.
Proof.
  induction 1 as [|b l Hb Hl IH]; [done|]. simpl from_le.
  rewrite len_cons, Z.pow_add_r by (pose proof (len_nonneg l); lia).
  unfold in_width, MAX_U8 in Hb. lia.
Qed.

Lemma to_le_from_le l : bytes l → to_le (length l) (from_le l) = l.
Proof.
  induction 1 as [|b l Hb Hl IH]; [done|]. simpl.
  unfold in_width, MAX_U8 in Hb.
  replace (b + 256 * from_le l) with (from_le l * 256 + b) by lia.
  rewrite Z.add_comm, Z.mod_add, Z.mod_small by lia.
  rewrite Z.div_add, Z.div_small, Z.add_0_l, IH by lia. done.
Qed.

Lemma from_le_to_le_u16 z : is_u16 z → from_le (to_le 2 z) = z.
Proof. intros H. apply from_le_to_le. unfold in_width, MAX_U16 in H. simpl. lia. Qed.
Lemma from_le_to_le_u32 z : is_u32 z → from_le (to_le 4 z) = z.
Proof. intros H. apply from_le_to_le. unfold in_width, MAX_U32 in H. simpl. lia. Qed.
Lemma from_le_to_le_u64 z : is_u64 z → from_le (to_le 8 z) = z.
Proof. intros H. apply from_le_to_le. unfold in_width, MAX_U64 in H. simpl. lia. Qed.

Lemma list_filter_true {A} (P : A → Prop) `{∀ x, Decision (P x)} (l : list A) :
  (∀ x, x ∈ l → P x) → filter P l = l.
Proof.
  induction l as [|a l IH]; intros Hp; [done|].
  rewrite filter_cons_True by (apply Hp; by left). f_equal. apply IH. intros x Hx. apply Hp. by right.
Qed.

Lemma list_filter_false {A} (P : A → Prop) `{∀ x, Decision (P x)} (l : list A) :
  (∀ x, x ∈ l → ¬ P x) → filter P l = [].
Proof.
  induction l as [|a l IH]; intros Hp; [done|].
  rewrite filter_cons_False by (apply Hp; by left). apply IH. intros x Hx. apply Hp. by right.
Qed.

(** ** Automation *)

Create HintDb ljbytes.
#[export] Hint Resolve bytes_to_le bytes_nil len_nonneg : ljbytes.
Create Rewrite HintDb len.
#[export] Hint Rewrite @len_app @len_cons @len_nil @length_app length_to_le
  @length_cons @length_nil @length_replicate : len.

Ltac unfold_widths :=
  unfold in_width, MAX_U8, MAX_U16, MAX_U32, MAX_U64 in *.

(** Integer goals about widths. *)
Ltac int_solve := unfold_widths; lia.

(** Case analysis on the scrutinee of a hypothesis that equates a pair or a
    result with a constructor form. *)
Ltac inv_res :=
  repeat (
    match goal with
    | H : (_, _) = (_, _) |- _ => injection H as ?; subst
    | H : Ok _ = Ok _ |- _ => injection H as ?; subst
    | H : Err _ = Err _ |- _ => injection H as ?; subst
    | H : Some _ = Some _ |- _ => injection H as ?; subst
    | H : Ok _ = Err _ |- _ => discriminate H
    | H : Err _ = Ok _ |- _ => discriminate H
    | H : None = Some _ |- _ => discriminate H
    | H : Some _ = None |- _ => discriminate H
    end).

Lemma checked_add_Some max a b c :
  checked_add max a b = Some c ↔ c = a + b ∧ a + b ≤ max.
Proof. unfold checked_add. case_match; split; intros; inv_res; try lia; destruct_and!; congruence || lia. Qed.

Lemma checked_sub_Some a b c : checked_sub a b = Some c ↔ c = a - b ∧ b ≤ a.
Proof. unfold checked_sub. case_match; split; intros; inv_res; try lia; destruct_and!; congruence || lia. Qed.

Lemma checked_sub_None a b : checked_sub a b = None ↔ a < b.
Proof. unfold checked_sub. case_match; split; intros; inv_res; done || lia. Qed.

Lemma try_from_Some max z c : try_from max z = Some c ↔ c = z ∧ in_width max z.
Proof.
  unfold try_from, in_width. destruct (Z.leb_spec 0 z), (Z.leb_spec z max); simpl;
    split; intros; inv_res; try lia; destruct_and!; congruence || lia.
Qed.

(** Inversion of a successful run of the monad. *)
Lemma bind_Ok {S E A B} (c : M S E A) (k : A → M S E B) s b s' :
  bind c k s = (Ok b, s') ↔ ∃ a s1, c s = (Ok a, s1) ∧ k a s1 = (Ok b, s').
Proof.
  unfold bind. destruct (c s) as [[a|e] s1]; split.
  - intros Hk. by exists a, s1.
  - intros (a' & s2 & Hc & Hk). by inv_res.
  - done.
  - intros (a' & s2 & Hc & Hk). by inv_res.
Qed.

Lemma bind_ext {S E A B} (c : M S E A) (k k' : A → M S E B) s :
  (∀ a s', c s = (Ok a, s') → k a s' = k' a s') → bind c k s = bind c k' s.
Proof. intros Hk. unfold bind. destruct (c s) as [[a|e] s'] eqn:Ec; [|done]. by apply Hk. Qed.

Lemma bind_assoc {S E A B C} (c : M S E A) (k : A → M S E B) (k' : B → M S E C) s :
  bind (bind c k) k' s = bind c (λ a, bind (k a) k') s.
Proof. unfold bind. by destruct (c s) as [[a|e] s']. Qed.

Lemma gets_Ok {S E A} (f : S → A) s a s' :
  gets (E:=E) f s = (Ok a, s') ↔ a = f s ∧ s' = s.
Proof. unfold gets. split; [intros; inv_res; done|intros [-> ->]; done]. Qed.
Lemma modify_Ok {S E} (f : S → S) s u s' : modify (E:=E) f s = (Ok u, s') ↔ s' = f s.
Proof. unfold modify. destruct u. split; [intros; inv_res; done|intros ->; done]. Qed.
Lemma ret_Ok {S E A} (a b : A) (s s' : S) : ret (E:=E) a s = (Ok b, s') ↔ b = a ∧ s' = s.
Proof. unfold ret. split; [intros; inv_res; done|intros [-> ->]; done]. Qed.
Lemma lift_Ok {S E A} (r : result E A) (b : A) (s s' : S) : lift r s = (Ok b, s') ↔ r = Ok b ∧ s' = s.
Proof. unfold lift. split; [intros; inv_res; done|intros [-> ->]; done]. Qed.
Lemma ok_or_Ok {E A} (o : option A) (e : E) a : ok_or o e = Ok a ↔ o = Some a.
Proof. destruct o; simpl; split; intros; inv_res; congruence. Qed.

(** Unfolds a hypothesis [H : c s = (Ok a, s')] into the steps of [c]. *)
Ltac mon_inv :=
  repeat match goal with
  | H : bind _ _ _ = (Ok _, _) |- _ => apply bind_Ok in H as (? & ? & ? & H)
  | H : gets _ _ = (Ok _, _) |- _ => apply gets_Ok in H as [? ?]; subst
  | H : modify _ _ = (Ok _, _) |- _ => apply modify_Ok in H; subst
  | H : ret _ _ = (Ok _, _) |- _ => apply ret_Ok in H as [? ?]; subst
  | H : lift _ _ = (Ok _, _) |- _ => apply lift_Ok in H as [? ?]; subst
  | H : ok_or _ _ = Ok _ |- _ => apply ok_or_Ok in H
  | H : try_from _ _ = Some _ |- _ => apply try_from_Some in H as [? ?]; subst
  | H : checked_sub _ _ = Some _ |- _ => apply checked_sub_Some in H as [? ?]; subst
  | H : checked_add _ _ _ = Some _ |- _ => apply checked_add_Some in H as [? ?]; subst
  end.

(** Unfolds a hypothesis [H : (let? x := r in k) = Ok a] into its steps. *)
Ltac let_inv H :=
  repeat match type of H with
  | match ?r with Ok _ => _ | Err _ => _ end = Ok _ =>
      let E := fresh "Hr" in destruct r eqn:E; [|discriminate H]
  | (if ?b then _ else _) = Ok _ => let E := fresh "Hb" in destruct b eqn:E; try discriminate H
  end.

(** A computation that relates its final state to its initial one by [R],
    whether it succeeds or fails. *)
Definition preserves {S E A} (R : S → S → Prop) (c : M S E A) : Prop := ∀ s, R s (c s).2.

Section Preserves.
Context {S E : Type} (R : S → S → Prop) `{!PreOrder R}.

Lemma preserves_bind {A B} (c : M S E A) (k : A → M S E B) :
  preserves R c → (∀ a, preserves R (k a)) → preserves R (bind c k).
Proof.
  intros Hc Hk s. unfold bind. specialize (Hc s). destruct (c s) as [[a|e] s1]; simpl in *; [|done].
  etransitivity; [done|apply Hk].
Qed.
Lemma preserves_ret {A} (a : A) : preserves R (ret (E:=E) a).
Proof. intros s. simpl. reflexivity. Qed.
Lemma preserves_throw {A} e : preserves R (throw (A:=A) (E:=E) e).
Proof. intros s. simpl. reflexivity. Qed.
Lemma preserves_lift {A} (r : result E A) : preserves R (lift r).
Proof. intros s. simpl. reflexivity. Qed.
Lemma preserves_gets {A} (f : S → A) : preserves R (gets (E:=E) f).
Proof. intros s. simpl. reflexivity. Qed.
Lemma preserves_if {A} (b : bool) (c d : M S E A) :
  preserves R c → preserves R d → preserves R (if b then c else d).
Proof. by destruct b. Qed.
End Preserves.

Create HintDb preserves.
#[export] Hint Resolve preserves_bind preserves_ret preserves_throw preserves_lift preserves_gets
  preserves_if : preserves.

(** *** Sums over a list that is updated in one place *)

Lemma sum_list_with_insert {A} (f : A → nat) (l : list A) i x y :
  l !! i = Some x → (sum_list_with f (<[i:=y]> l) + f x = sum_list_with f l + f y)%nat.
Proof.
  intros Hi. apply list_elem_of_split_length in Hi as (l1 & l2 & -> & ->).
  rewrite insert_app_r_alt, Nat.sub_diag by lia. change (<[0%nat:=y]> (x :: l2)) with (y :: l2).
  rewrite !sum_list_with_app. cbn [sum_list_with]. lia.
Qed.

Lemma elem_of_insert_cases {A} (x y : A) (l : list A) (i : nat) : x ∈ <[i := y]> l → x = y ∨ x ∈ l.
Proof.
  intros [j Hj]%list_elem_of_lookup. destruct (decide (i = j)) as [<-|Hij].
  - pose proof (lookup_lt_Some _ _ _ Hj) as Hl. rewrite length_insert in Hl. rewrite list_lookup_insert_eq in Hj by done.
    left. congruence.
  - rewrite list_lookup_insert_ne in Hj by done. right. by eapply list_elem_of_lookup_2.
Qed.

(** Every error a computation can end with satisfies [P]. *)
Definition raises {S E A} (P : E → Prop) (c : M S E A) : Prop :=
  ∀ s e s', c s = (Err e, s') → P e.
Definition fails {E A} (P : E → Prop) (r : result E A) : Prop := ∀ e, r = Err e → P e.

Section Raises.
Context {S E : Type} (P : E → Prop).

Lemma raises_bind {A B} (c : M S E A) (k : A → M S E B) :
  raises P c → (∀ a, raises P (k a)) → raises P (bind c k).
Proof.
  intros Hc Hk s e s'. unfold bind. destruct (c s) as [[a|e1] s1] eqn:E1; intros Hr.
  - by eapply Hk.
  - inv_res. by eapply Hc.
Qed.
Lemma raises_ret {A} (a : A) : raises P (ret (S:=S) a).
Proof. intros s e s' Hr. by inversion Hr. Qed.
Lemma raises_throw {A} e : P e → raises P (throw (S:=S) (A:=A) e).
Proof. intros HP s e' s' Hr. by injection Hr as <- <-. Qed.
Lemma raises_lift {A} (r : result E A) : fails P r → raises P (lift (S:=S) r).
Proof. intros Hr s e s' Hl. unfold lift in Hl. inv_res. by apply Hr. Qed.
Lemma raises_gets {A} (f : S → A) : raises P (gets (E:=E) f).
Proof. intros s e s' Hr. by inversion Hr. Qed.
Lemma raises_modify (f : S → S) : raises P (modify (E:=E) f).
Proof. intros s e s' Hr. by inversion Hr. Qed.
Lemma raises_if {A} (b : bool) (c d : M S E A) :
  raises P c → raises P d → raises P (if b then c else d).
Proof. by destruct b. Qed.
Lemma fails_ok_or {A} (o : option A) e : P e → fails P (ok_or o e).
Proof. destruct o; intros HP e' He; simpl in He; by inv_res. Qed.
End Raises.

Create HintDb raises.
#[export] Hint Resolve raises_bind raises_ret raises_throw raises_lift raises_gets raises_modify
  raises_if fails_ok_or : raises.
