(* ===== verification/Format.v ===== *)
(** * The container format: errors, codecs, record types, block headers

    Models [src/error.rs], [src/codec.rs], [src/crc.rs], [src/record.rs] and
    [src/format.rs].  The compression crates and the checksum crate are the class
    [Externals]; what the code relies on of them is [ExternalLaws]. *)

From S2P Require Import Prelude.

(** ** Errors ([src/error.rs]) *)

Inductive IoErrorKind : Type :=
| UnexpectedEof
| InvalidData
| InvalidInput
| AlreadyExists
| NotFound
| BrokenPipe
| TimedOut
| OtherKind.

#[export] Instance IoErrorKind_eq_dec : EqDecision IoErrorKind.
Proof. solve_decision. Defined.

(** [std::io::Error]: the kind and the message. *)
Record IoError : Type := io_error { io_kind : IoErrorKind; io_msg : string }.

Inductive Error : Type :=
| Io (err : IoError)
| InvalidRecordType (value : Z)
| UnknownCodec (value : Z)
| UnknownVersion (value : Z)
| HeaderTooShort (value : Z)
| HeaderCrcMismatch (expected actual : Z)
| BlockCrcMismatch (expected actual : Z)
| LengthTooLarge (field : string) (value limit : Z)
| InvalidHeader (msg : string)
| Truncated (msg : string)
| VarintTooLong
| NumericOverflow (field : string)
| RecordTooLarge (encoded_len block_target_size : Z)
| CodecError (msg : string).

(** [impl Display for Error] *)
Definition Error_fmt (e : Error) : string :=
  match e with
  | Io err => "io error: " +:+ io_msg err
  | InvalidRecordType value => "invalid record type: " +:+ show value
  | UnknownCodec value => "unknown codec: " +:+ show value
  | UnknownVersion value => "unknown version: " +:+ show value
  | HeaderTooShort value => "header too short: " +:+ show value
  | HeaderCrcMismatch expected actual =>
      "header crc mismatch: expected " +:+ show_hex8 expected +:+ ", got " +:+ show_hex8 actual
  | BlockCrcMismatch expected actual =>
      "block crc mismatch: expected " +:+ show_hex8 expected +:+ ", got " +:+ show_hex8 actual
  | LengthTooLarge field value limit => field +:+ " too large: " +:+ show value +:+ " > " +:+ show limit
  | InvalidHeader msg => "invalid header: " +:+ msg
  | Truncated msg => "truncated data: " +:+ msg
  | VarintTooLong => "varint too long"
  | NumericOverflow field => "numeric overflow: " +:+ field
  | RecordTooLarge encoded_len block_target_size =>
      "record too large for block target: " +:+ show encoded_len +:+ " > " +:+ show block_target_size
  | CodecError msg => "codec error: " +:+ msg
  end.

(** ** Code outside the repository *)

(** The [crc32c], [lz4_flex] and [zstd] crates.  Errors of the decompressors
    are their display text. *)
Class Externals : Type := {
  crc32c_crate : list Z → Z;
  lz4_block_compress : list Z → list Z;
  lz4_block_decompress : list Z → Z → result string (list Z);
  zstd_bulk_compress : list Z → Z → result string (list Z);
  zstd_bulk_decompress : list Z → Z → result string (list Z);
}.

(** What their documentation promises: [crc32c] is a [u32]; the compressors
    produce bytes, decompressing with the original length gives back the input,
    and [zstd] never returns more than the capacity it was given. *)
Class ExternalLaws `{Externals} : Prop := {
  crc32c_u32 : ∀ bs, is_u32 (crc32c_crate bs);
  lz4_bytes : ∀ bs, bytes bs → bytes (lz4_block_compress bs);
  lz4_roundtrip : ∀ bs, bytes bs →
    lz4_block_decompress (lz4_block_compress bs) (len bs) = Ok bs;
  zstd_bytes : ∀ bs lvl cs, bytes bs → zstd_bulk_compress bs lvl = Ok cs → bytes cs;
  zstd_roundtrip : ∀ bs lvl cs, bytes bs → zstd_bulk_compress bs lvl = Ok cs →
    zstd_bulk_decompress cs (len bs) = Ok bs;
  zstd_capacity : ∀ cs n bs, zstd_bulk_decompress cs n = Ok bs → len bs ≤ n;
}.

(** ** Codecs ([src/codec.rs]) *)

Inductive Codec : Type := CodecNone | Lz4 | Zstd.

#[export] Instance Codec_eq_dec : EqDecision Codec.
Proof. solve_decision. Defined.

(** [codec as u8] *)
Definition Codec_as_u8 (c : Codec) : Z :=
  match c with CodecNone => 0 | Lz4 => 1 | Zstd => 2 end.

Definition Codec_from_u8 (value : Z) : result Error Codec :=
  match value with
  | 0 => Ok CodecNone
  | 1 => Ok Lz4
  | 2 => Ok Zstd
  | other => Err (UnknownCodec other)
  end.

Section Codec.
Context `{Externals}.

(** [src/crc.rs] *)
Definition crc32c (bs : list Z) : Z := crc32c_crate bs.

(** The output buffer is cleared first; the result is its new content. *)
Definition compress (c : Codec) (input : list Z) : result Error (list Z) :=
  match c with
  | CodecNone => Ok input
  | Lz4 => Ok (lz4_block_compress input)
  | Zstd =>
      let? compressed := map_err CodecError (zstd_bulk_compress input 3) in
      Ok compressed
  end.

Definition decompress (c : Codec) (input : list Z) (expected_len : Z)
    : result Error (list Z) :=
  match c with
  | CodecNone =>
      if negb (len input =? expected_len)
      then Err (InvalidHeader "raw payload length mismatch")
      else Ok input
  | Lz4 =>
      let? decoded := map_err CodecError (lz4_block_decompress input expected_len) in
      if negb (len decoded =? expected_len)
      then Err (CodecError "LZ4 decompressed length mismatch")
      else Ok decoded
  | Zstd =>
      let? decoded := map_err CodecError (zstd_bulk_decompress input expected_len) in
      Ok decoded
  end.
End Codec.

(** ** Records ([src/record.rs]) *)

Inductive RecordType : Type := Logs | Metrics | Traces | Events.

#[export] Instance RecordType_eq_dec : EqDecision RecordType.
Proof. solve_decision. Defined.

(** [record_type as u8] *)
Definition RecordType_as_u8 (t : RecordType) : Z :=
  match t with Logs => 1 | Metrics => 2 | Traces => 3 | Events => 4 end.

Definition RecordType_from_u8 (value : Z) : result Error RecordType :=
  match value with
  | 1 => Ok Logs
  | 2 => Ok Metrics
  | 3 => Ok Traces
  | 4 => Ok Events
  | other => Err (InvalidRecordType other)
  end.

Record OwnedRecord : Type := mkRecord {
  record_type : RecordType;
  seq : Z;
  ts_unix_ns : Z;
  payload : list Z;
}.

#[export] Instance OwnedRecord_eq_dec : EqDecision OwnedRecord.
Proof. solve_decision. Defined.

(** ** Block headers ([src/format.rs]) *)

Definition FORMAT_VERSION : Z := 1.
Definition DEFAULT_SYNC_MARKER : list Z := Eval vm_compute in str "OTLPBLK!".
Definition DEFAULT_BLOCK_TARGET_SIZE : Z := 64 * 1024.
Definition DEFAULT_MAX_BLOCK_SIZE : Z := 16 * 1024 * 1024.
Definition BLOCK_HEADER_FIXED_LEN : Z := 24.
Definition BLOCK_HEADER_EXT_LEN : Z := 16.
Definition BLOCK_HEADER_TOTAL_LEN : Z := BLOCK_HEADER_FIXED_LEN + BLOCK_HEADER_EXT_LEN.

Record BlockHeader : Type := mkBlockHeader {
  bh_version : Z;
  bh_codec : Codec;
  bh_flags : Z;
  bh_header_len : Z;
  bh_reserved : Z;
  bh_uncompressed_len : Z;
  bh_compressed_len : Z;
  bh_record_count : Z;
  bh_header_crc32c : Z;
}.

Record BlockHeaderExt : Type := mkBlockHeaderExt {
  base_seq : Z;
  base_ts_unix_ns : Z;
}.

(** The bytes appended to the output buffer. *)
Definition encode_without_crc (h : BlockHeader) : list Z :=
  [bh_version h] ++ [Codec_as_u8 (bh_codec h)] ++
  to_le 2 (bh_flags h) ++
  to_le 2 (bh_header_len h) ++
  to_le 2 (bh_reserved h) ++
  to_le 4 (bh_uncompressed_len h) ++
  to_le 4 (bh_compressed_len h) ++
  to_le 4 (bh_record_count h).

Definition BlockHeader_encode (h : BlockHeader) : list Z :=
  encode_without_crc h ++ to_le 4 (bh_header_crc32c h).

(** [bytes[i]] with [i] in range. *)
Definition byte_at (l : list Z) (i : nat) : Z := nth i l 0.

Definition BlockHeader_decode (bs : list Z) : result Error BlockHeader :=
  if len bs <? BLOCK_HEADER_FIXED_LEN then Err (Truncated "block header") else
  let version := byte_at bs 0 in
  if negb (version =? FORMAT_VERSION) then Err (UnknownVersion version) else
  let? codec := Codec_from_u8 (byte_at bs 1) in
  let flags := from_le (slice 2 4 bs) in
  let header_len := from_le (slice 4 6 bs) in
  let reserved := from_le (slice 6 8 bs) in
  let uncompressed_len := from_le (slice 8 12 bs) in
  let compressed_len := from_le (slice 12 16 bs) in
  let record_count := from_le (slice 16 20 bs) in
  let header_crc32c := from_le (slice 20 24 bs) in
  Ok (mkBlockHeader version codec flags header_len reserved uncompressed_len
        compressed_len record_count header_crc32c).

Definition compute_header_crc `{Externals} (h : BlockHeader) (ext_bytes : list Z) : Z :=
  crc32c (encode_without_crc h ++ ext_bytes).

Definition BlockHeaderExt_encode (e : BlockHeaderExt) : list Z :=
  to_le 8 (base_seq e) ++ to_le 8 (base_ts_unix_ns e).

Definition BlockHeaderExt_decode (bs : list Z) : result Error BlockHeaderExt :=
  if len bs <? BLOCK_HEADER_EXT_LEN then Err (Truncated "block header extension") else
  Ok (mkBlockHeaderExt (from_le (slice 0 8 bs)) (from_le (slice 8 16 bs))).

#[global] Arguments encode_without_crc : simpl never.
#[global] Arguments BlockHeader_encode : simpl never.
#[global] Arguments BlockHeader_decode : simpl never.
#[global] Arguments BlockHeaderExt_encode : simpl never.
#[global] Arguments BlockHeaderExt_decode : simpl never.

(** ** Well-formed headers and the round trips *)

Definition wf_header (h : BlockHeader) : Prop :=
  bh_version h = FORMAT_VERSION ∧ is_u16 (bh_flags h) ∧ is_u16 (bh_header_len h) ∧
  is_u16 (bh_reserved h) ∧ is_u32 (bh_uncompressed_len h) ∧
  is_u32 (bh_compressed_len h) ∧ is_u32 (bh_record_count h) ∧
  is_u32 (bh_header_crc32c h).

Definition wf_ext (e : BlockHeaderExt) : Prop :=
  is_u64 (base_seq e) ∧ is_u64 (base_ts_unix_ns e).

Lemma Codec_u8_roundtrip c : Codec_from_u8 (Codec_as_u8 c) = Ok c.
Proof. by destruct c. Qed.

Lemma RecordType_u8_roundtrip t : RecordType_from_u8 (RecordType_as_u8 t) = Ok t.
Proof. by destruct t. Qed.

Lemma RecordType_as_u8_u8 t : is_u8 (RecordType_as_u8 t).
Proof. destruct t; simpl; int_solve. Qed.

Lemma RecordType_from_u8_Ok v t :
  RecordType_from_u8 v = Ok t → v = RecordType_as_u8 t.
Proof.
  unfold RecordType_from_u8. intros Hv. destruct v as [|p|p]; try discriminate.
  repeat (destruct p as [p|p|]; try discriminate); by inv_res.
Qed.

Lemma length_encode_without_crc h : length (encode_without_crc h) = 20%nat.
Proof. reflexivity. Qed.
Lemma length_BlockHeader_encode h : length (BlockHeader_encode h) = 24%nat.
Proof. reflexivity. Qed.
Lemma length_BlockHeaderExt_encode e : length (BlockHeaderExt_encode e) = 16%nat.
Proof. reflexivity. Qed.

Lemma BlockHeader_decode_encode h rest :
  wf_header h → BlockHeader_decode (BlockHeader_encode h ++ rest) = Ok h.
Proof.
  intros (Hv & Hf & Hl & Hr & Hu & Hc & Hn & Hh).
  unfold BlockHeader_decode.
  assert ((len (BlockHeader_encode h ++ rest) <? BLOCK_HEADER_FIXED_LEN) = false) as ->.
  { apply Z.ltb_ge. rewrite len_app. unfold len at 1.
    rewrite length_BlockHeader_encode. pose proof (len_nonneg rest).
    unfold BLOCK_HEADER_FIXED_LEN. lia. }
  destruct h as [v c f hl rs ul cl rc hc].
  cbn [bh_version bh_flags bh_header_len bh_reserved bh_uncompressed_len bh_compressed_len
    bh_record_count bh_header_crc32c] in Hv, Hf, Hl, Hr, Hu, Hc, Hn, Hh. subst v.
  change (byte_at _ 0) with FORMAT_VERSION. change (byte_at _ 1) with (Codec_as_u8 c).
  rewrite Z.eqb_refl, Codec_u8_roundtrip. simpl negb. cbv iota.
  change (slice 2 4 _) with (to_le 2 f). change (slice 4 6 _) with (to_le 2 hl).
  change (slice 6 8 _) with (to_le 2 rs). change (slice 8 12 _) with (to_le 4 ul).
  change (slice 12 16 _) with (to_le 4 cl). change (slice 16 20 _) with (to_le 4 rc).
  change (slice 20 24 _) with (to_le 4 hc).
  rewrite !from_le_to_le_u16, !from_le_to_le_u32 by done. done.
Qed.

Lemma Codec_from_u8_Ok v c : Codec_from_u8 v = Ok c → v = Codec_as_u8 c.
Proof.
  unfold Codec_from_u8. intros Hv. destruct v as [|p|p]; try discriminate.
  - by inv_res.
  - repeat (destruct p as [p|p|]; try discriminate); by inv_res.
Qed.

(** Decoding is exact: a header accepted from 24 bytes is the one whose encoding
    they are. *)
Lemma BlockHeader_encode_decode bs h :
  bytes bs → length bs = 24%nat → BlockHeader_decode bs = Ok h →
  wf_header h ∧ BlockHeader_encode h = bs.
Proof.
  intros Hb Hl Hd. unfold BlockHeader_decode in Hd.
  do 24 (destruct bs as [|? bs]; [discriminate Hl|]). destruct bs; [|discriminate Hl].
  change (len _ <? _) with false in Hd. cbv iota in Hd. unfold byte_at in Hd. simpl nth in Hd.
  destruct (Z.eqb_spec z FORMAT_VERSION) as [->|]; [|done]. simpl negb in Hd. cbv iota in Hd.
  destruct (Codec_from_u8 z0) as [c|] eqn:Hc; [|done]. apply Codec_from_u8_Ok in Hc as ->.
  injection Hd as <-. unfold bytes in Hb. rewrite !Forall_cons_iff in Hb. destruct_and!.
  split.
  - unfold wf_header. cbn [bh_version bh_flags bh_header_len bh_reserved bh_uncompressed_len
      bh_compressed_len bh_record_count bh_header_crc32c]. unfold slice; cbn [Nat.sub firstn skipn].
    split_and!; done || int_solve.
  - unfold BlockHeader_encode, encode_without_crc. cbn [bh_version bh_codec bh_flags bh_header_len
      bh_reserved bh_uncompressed_len bh_compressed_len bh_record_count bh_header_crc32c].
    unfold slice; cbn [Nat.sub firstn skipn].
    assert (∀ a b, is_u8 a → is_u8 b → to_le 2 (a + 256 * (b + 256 * 0)) = [a; b]) as E2.
    { intros a b ? ?. apply (to_le_from_le [a; b]).
      unfold bytes. rewrite !Forall_cons_iff. auto. }
    assert (∀ a b c d, is_u8 a → is_u8 b → is_u8 c → is_u8 d →
      to_le 4 (a + 256 * (b + 256 * (c + 256 * (d + 256 * 0)))) = [a; b; c; d]) as E4.
    { intros a b ? d ? ? ? ?. apply (to_le_from_le [a; b; _; d]).
      unfold bytes. rewrite !Forall_cons_iff. split_and!; auto. }
    cbn [from_le]. rewrite !E2, !E4 by done. done.
Qed.

Lemma BlockHeaderExt_decode_encode e rest :
  wf_ext e → BlockHeaderExt_decode (BlockHeaderExt_encode e ++ rest) = Ok e.
Proof.
  intros [Hs Ht]. unfold BlockHeaderExt_decode.
  assert ((len (BlockHeaderExt_encode e ++ rest) <? BLOCK_HEADER_EXT_LEN) = false) as ->.
  { apply Z.ltb_ge. rewrite len_app. unfold len at 1.
    rewrite length_BlockHeaderExt_encode. pose proof (len_nonneg rest).
    unfold BLOCK_HEADER_EXT_LEN. lia. }
  destruct e as [s t]; simpl in Hs, Ht.
  change (slice 0 8 _) with (to_le 8 s). change (slice 8 16 _) with (to_le 8 t).
  rewrite !from_le_to_le_u64 by done. done.
Qed.

Section Codec_facts.
Context `{ExternalLaws}.

Lemma compress_bytes c input out :
  bytes input → compress c input = Ok out → bytes out.
Proof.
  destruct c; simpl; intros Hb Hc; inv_res; [done|by apply lz4_bytes|].
  destruct (zstd_bulk_compress input 3) eqn:E; simpl in Hc; inv_res.
  by eapply zstd_bytes.
Qed.

(** Decompressing with the recorded length undoes compression, for each codec. *)
Lemma decompress_compress c input out :
  bytes input → compress c input = Ok out → decompress c out (len input) = Ok input.
Proof.
  destruct c; simpl; intros Hb Hc; inv_res.
  - by rewrite Z.eqb_refl.
  - rewrite lz4_roundtrip by done. simpl. by rewrite Z.eqb_refl.
  - destruct (zstd_bulk_compress input 3) eqn:E; simpl in Hc; inv_res.
    by erewrite zstd_roundtrip.
Qed.

Lemma decompress_len c input n out : decompress c input n = Ok out → len out ≤ n.
Proof.
  destruct c; simpl; intros Hd.
  - destruct (Z.eqb_spec (len input) n); simpl in Hd; inv_res; lia.
  - destruct (lz4_block_decompress input n) as [d|]; simpl in Hd; [|done].
    destruct (Z.eqb_spec (len d) n); simpl in Hd; inv_res; lia.
  - destruct (zstd_bulk_decompress input n) as [d|] eqn:E; simpl in Hd; inv_res.
    by eapply zstd_capacity.
Qed.
End Codec_facts.

(** ** The theorems *)

(** Block headers are exact.  Encoding a well-formed header gives 24 bytes that
    decode to it, and 24 bytes that decode to a header are its encoding: no two
    byte sequences are read as the same header. *)
Theorem header_decoding_exact h bs :
  (wf_header h → length (BlockHeader_encode h) = 24%nat ∧ BlockHeader_decode (BlockHeader_encode h) = Ok h) ∧
  (bytes bs → length bs = 24%nat → BlockHeader_decode bs = Ok h → BlockHeader_encode h = bs).
Proof.
  split.
  - intros Hwf. split; [apply length_BlockHeader_encode|].
    rewrite <- (app_nil_r (BlockHeader_encode h)). by apply BlockHeader_decode_encode.
  - intros Hb Hl Hd. by apply (BlockHeader_encode_decode bs h).
Qed.

Lemma header_decoding_exact_witness :
  let h := mkBlockHeader 1 Lz4 0 40 0 100 80 3 12345 in
  BlockHeader_decode (BlockHeader_encode h) = Ok h.
Proof.
  apply (proj1 (header_decoding_exact (mkBlockHeader 1 Lz4 0 40 0 100 80 3 12345) [])).
  repeat split; vm_compute; discriminate.
Defined.
