(* ===== verification/Varint.v ===== *)
(** * Unsigned varints

    Models [encode_varint] of [src/writer.rs] and [decode_varint] of
    [src/reader.rs], with the theorems that make them inverse to each other. *)

From S2P Require Import Prelude Format.

(** ** The code *)

(** The [while value >= 0x80] loop of the encoder and the push after it.  A
    [u64] leaves the loop after at most nine turns, so the fuel of
    [encode_varint] never runs out ([encode_varint_loop_fuel]). *)
Fixpoint encode_varint_loop (fuel : nat) (value : Z) (output : list Z)
    : result Error (list Z) :=
  match fuel, 0x80 <=? value with
  | S fuel, true =>
      let? low := ok_or (try_from MAX_U8 (Z.land value 0x7f)) (NumericOverflow "varint byte") in
      encode_varint_loop fuel (Z.shiftr value 7) (output ++ [Z.lor low 0x80])
  | _, _ =>
      let? last := ok_or (try_from MAX_U8 value) (NumericOverflow "varint final byte") in
      Ok (output ++ [last])
  end.

Definition encode_varint (value : Z) (output : list Z) : result Error (list Z) :=
  encode_varint_loop 10 value output.

(** [rest] is [bytes[cursor..]]; the result is the value and the new cursor. *)
Fixpoint decode_varint_loop (rest : list Z) (cursor : nat) (value shift : Z)
    : result Error (Z * nat) :=
  match rest with
  | [] => Err (Truncated "varint")
  | byte :: rest =>
      let cursor := S cursor in
      let value := Z.lor value (Z.shiftl (Z.land byte 0x7f) shift mod 2 ^ 64) in
      if Z.land byte 0x80 =? 0 then Ok (value, cursor) else
      let shift := shift + 7 in
      if 64 <=? shift then Err VarintTooLong else
      decode_varint_loop rest cursor value shift
  end.

Definition decode_varint (bs : list Z) (cursor : nat) : result Error (Z * nat) :=
  decode_varint_loop (drop cursor bs) cursor 0 0.

(** ** Reference encoding: base 128, least significant group first *)

Fixpoint uvarint_groups (n : nat) (z : Z) : list Z :=
  match n with
  | O => [z]
  | S n => if z <? 128 then [z] else (z mod 128 + 128) :: uvarint_groups n (z / 128)
  end.

Definition uvarint (z : Z) : list Z := uvarint_groups 10 z.

(** ** Bit-level facts *)

Lemma land_7f z : Z.land z 0x7f = z mod 128.
Proof. change 0x7f with (Z.ones 7). by rewrite Z.land_ones. Qed.

Lemma lor_disjoint a b n : 0 ≤ a < 2 ^ n → 0 ≤ n → Z.lor a (b * 2 ^ n) = a + b * 2 ^ n.
Proof.
  intros Ha Hn.
  assert (Z.land a (b * 2 ^ n) = 0) as Hl.
  { apply Z.bits_inj'. intros i Hi. rewrite Z.land_spec, Z.bits_0.
    destruct (Z.lt_ge_cases i n).
    - rewrite Z.mul_pow2_bits_low by lia. by rewrite andb_false_r.
    - assert (Z.testbit a i = false) as ->; [|done].
      rewrite <- (Z.mod_small a (2 ^ n)) by lia. by apply Z.mod_pow2_bits_high. }
  rewrite <- Z.lxor_lor by done. symmetry. by apply Z.add_nocarry_lxor.
Qed.

Lemma lor_80 a : 0 ≤ a < 128 → Z.lor a 0x80 = a + 128.
Proof. intros Ha. exact (lor_disjoint a 1 7 Ha ltac:(lia)). Qed.

Lemma land_80_low b : 0 ≤ b < 128 → Z.land b 0x80 = 0.
Proof.
  intros Hb. apply Z.bits_inj'. intros i Hi. rewrite Z.land_spec, Z.bits_0.
  destruct (Z.lt_ge_cases i 7).
  - change 0x80 with (2 ^ 7). rewrite Z.pow2_bits_false by lia. by rewrite andb_false_r.
  - assert (Z.testbit b i = false) as ->; [|done].
    rewrite <- (Z.mod_small b (2 ^ 7)) by lia. by apply Z.mod_pow2_bits_high.
Qed.

Lemma land_80_high b : 0 ≤ b < 128 → Z.land (b + 128) 0x80 = 0x80.
Proof.
  intros Hb. rewrite <- lor_80 by done. rewrite Z.land_lor_distr_l, land_80_low by done.
  reflexivity.
Qed.

(** ** The encoder computes the reference encoding *)

Lemma uvarint_groups_bytes n z : 0 ≤ z < 128 ^ (1 + Z.of_nat n) → bytes (uvarint_groups n z).
Proof.
  revert z. induction n as [|n IH]; intros z Hz; simpl.
  - constructor; [|constructor]. change (128 ^ (1 + Z.of_nat 0)) with 128 in Hz. int_solve.
  - destruct (Z.ltb_spec z 128).
    + constructor; [|constructor]. int_solve.
    + rewrite Nat2Z.inj_succ, Z.add_succ_r, Z.pow_succ_r in Hz by lia.
      constructor; [pose proof (Z.mod_pos_bound z 128); int_solve|].
      apply IH. split; [apply Z.div_pos; lia|apply Z.div_lt_upper_bound; lia].
Qed.

Lemma encode_varint_loop_eq n z out :
  0 ≤ z < 128 ^ (1 + Z.of_nat n) →
  encode_varint_loop n z out = Ok (out ++ uvarint_groups n z).
Proof.
  revert z out. induction n as [|n IH]; intros z out Hz.
  - change (128 ^ (1 + Z.of_nat 0)) with 128 in Hz. simpl.
    unfold try_from, MAX_U8.
    destruct (Z.leb_spec 0 z), (Z.leb_spec z 255); try lia. done.
  - simpl. rewrite Nat2Z.inj_succ, Z.add_succ_r, Z.pow_succ_r in Hz by lia.
    destruct (Z.leb_spec 128 z) as [Hge|Hlt].
    + rewrite land_7f. pose proof (Z.mod_pos_bound z 128).
      unfold try_from, MAX_U8.
      destruct (Z.leb_spec 0 (z mod 128)), (Z.leb_spec (z mod 128) 255); try lia. simpl.
      rewrite lor_80 by lia.
      destruct (Z.ltb_spec z 128); [lia|].
      rewrite Z.shiftr_div_pow2 by lia. change (2 ^ 7) with 128.
      rewrite IH by (split; [apply Z.div_pos; lia|apply Z.div_lt_upper_bound; lia]).
      by rewrite <- app_assoc.
    + unfold try_from, MAX_U8. destruct (Z.ltb_spec z 128); [|lia].
      destruct (Z.leb_spec 0 z), (Z.leb_spec z 255); try lia. done.
Qed.

(** The encoder never fails on a [u64] and appends the reference encoding. *)
Lemma encode_varint_uvarint z out :
  is_u64 z → encode_varint z out = Ok (out ++ uvarint z).
Proof. intros Hz. apply encode_varint_loop_eq. simpl. int_solve. Qed.

(** The fuel is never the reason the loop stops: one more unit changes nothing. *)
Lemma encode_varint_loop_fuel z out :
  is_u64 z → encode_varint_loop 11 z out = encode_varint z out.
Proof.
  intros Hz. unfold encode_varint.
  rewrite !encode_varint_loop_eq by (simpl; int_solve). f_equal. f_equal.
  assert (Hz' : 0 ≤ z < 128 ^ (1 + Z.of_nat 10)) by (simpl; int_solve).
  revert Hz'. generalize 10%nat as n. clear Hz. intros n. revert z.
  induction n as [|n IH]; intros z Hz.
  - simpl. change (128 ^ (1 + Z.of_nat 0)) with 128 in Hz. by destruct (Z.ltb_spec z 128); [|lia].
  - rewrite Nat2Z.inj_succ, Z.add_succ_r, Z.pow_succ_r in Hz by lia.
    change (uvarint_groups (S (S n)) z) with
      (if z <? 128 then [z] else (z mod 128 + 128) :: uvarint_groups (S n) (z / 128)).
    rewrite IH by (split; [apply Z.div_pos; lia|apply Z.div_lt_upper_bound; lia]). done.
Qed.

Lemma uvarint_bytes z : is_u64 z → bytes (uvarint z).
Proof. intros Hz. apply uvarint_groups_bytes. simpl. int_solve. Qed.

Lemma uvarint_groups_length n z : (1 ≤ length (uvarint_groups n z) ≤ S n)%nat.
Proof. revert z. induction n as [|n IH]; intros z; simpl; [lia|]. case_match; simpl; [lia|]. specialize (IH (z / 128)). lia. Qed.

Lemma uvarint_groups_short m n z :
  0 ≤ z < 128 ^ Z.of_nat n → (1 ≤ n)%nat → (length (uvarint_groups m z) ≤ n)%nat.
Proof.
  revert n z. induction m as [|m IH]; intros n z Hz Hn; simpl; [lia|].
  destruct (Z.ltb_spec z 128); simpl; [lia|]. destruct n as [|n]; [lia|].
  rewrite Nat2Z.inj_succ, Z.pow_succ_r in Hz by lia.
  destruct n as [|n]; [simpl in Hz; lia|].
  specialize (IH (S n) (z / 128)).
  assert (0 ≤ z / 128 < 128 ^ Z.of_nat (S n)); [|lia].
  split; [apply Z.div_pos; lia|apply Z.div_lt_upper_bound; lia].
Qed.

(** ** Decoding *)

(** Decoding the groups of [z] at bit offset [shift] adds [z * 2^shift] to what
    was decoded so far. *)
Lemma decode_groups n z shift acc cursor rest :
  0 ≤ z → 0 ≤ shift → shift < 64 → z * 2 ^ shift < 2 ^ 64 → 0 ≤ acc < 2 ^ shift →
  z < 128 ^ (1 + Z.of_nat n) →
  decode_varint_loop (uvarint_groups n z ++ rest) cursor acc shift
    = Ok (acc + z * 2 ^ shift, (cursor + length (uvarint_groups n z))%nat).
Proof.
  revert z shift acc cursor. induction n as [|n IH]; intros z shift acc cursor Hz Hs Hs' Hzs Ha Hn;
    assert (Hnn : 0 ≤ z * 2 ^ shift) by (apply Z.mul_nonneg_nonneg; lia).
  - change (128 ^ (1 + Z.of_nat 0)) with 128 in Hn. simpl.
    rewrite land_80_low, land_7f by lia. simpl.
    rewrite (Z.mod_small z), Z.shiftl_mul_pow2, Z.mod_small, lor_disjoint by lia.
    f_equal. f_equal. lia.
  - rewrite Nat2Z.inj_succ, Z.add_succ_r, Z.pow_succ_r in Hn by lia.
    cbn [uvarint_groups]. destruct (Z.ltb_spec z 128) as [Hlt|Hge].
    + simpl. rewrite land_80_low, land_7f by lia. simpl.
      rewrite (Z.mod_small z), Z.shiftl_mul_pow2, Z.mod_small, lor_disjoint by lia.
      f_equal. f_equal. lia.
    + assert (Hp : 0 < 2 ^ shift) by lia.
      pose proof (Z.mod_pos_bound z 128 ltac:(lia)) as Hm.
      pose proof (Z.div_mod z 128 ltac:(lia)) as Hdm.
      assert (Hmz : 0 ≤ z mod 128 * 2 ^ shift < 2 ^ 64) by nia.
      simpl app. cbn [decode_varint_loop].
      rewrite land_80_high, land_7f by lia. change (0x80 =? 0) with false. cbv iota.
      assert ((z mod 128 + 128) mod 128 = z mod 128) as ->.
      { rewrite <- (Z.mul_1_l 128) at 2. rewrite Z.mod_add, Z.mod_mod by lia. done. }
      rewrite Z.shiftl_mul_pow2, (Z.mod_small (_ * _)), lor_disjoint by lia.
      assert (2 ^ (shift + 7) = 2 ^ shift * 128) as Hp7 by (rewrite Z.pow_add_r by lia; done).
      assert (0 < z / 128) by (apply Z.div_str_pos; lia).
      assert (z / 128 * 2 ^ (shift + 7) < 2 ^ 64) by nia.
      destruct (Z.leb_spec 64 (shift + 7)) as [Hbad|].
      { exfalso. assert (2 ^ 64 ≤ 2 ^ (shift + 7)) by (apply Z.pow_le_mono_r; lia). nia. }
      rewrite IH; [| lia.. | | ].
      * f_equal. f_equal; [nia | simpl; lia].
      * nia.
      * apply Z.div_lt_upper_bound; lia.
Qed.

Lemma decode_uvarint z pre rest :
  is_u64 z →
  decode_varint (pre ++ uvarint z ++ rest) (length pre)
    = Ok (z, (length pre + length (uvarint z))%nat).
Proof.
  intros Hz. unfold decode_varint. rewrite drop_app_length. unfold uvarint.
  rewrite decode_groups; [|try (simpl; int_solve)..]. f_equal. f_equal. lia.
Qed.

(** Whatever the decoder accepts is a [u64], and it consumed between one and ten
    bytes of the input. *)
Lemma decode_varint_loop_bounds rest cursor acc shift v c :
  bytes rest → 0 ≤ shift → (shift mod 7 = 0) → is_u64 acc →
  decode_varint_loop rest cursor acc shift = Ok (v, c) →
  is_u64 v ∧ (cursor < c ≤ cursor + length rest)%nat ∧ 7 * (Z.of_nat c - Z.of_nat cursor) ≤ Z.max 7 (70 - shift).
Proof.
  intros Hb. revert cursor acc shift.
  induction Hb as [|b rest Hbb Hbr IH]; intros cursor acc shift Hs Hs7 Ha Hd; [done|].
  cbn [decode_varint_loop] in Hd.
  assert (is_u64 (Z.lor acc (Z.shiftl (Z.land b 0x7f) shift mod 2 ^ 64))) as Hv.
  { pose proof (Z.mod_pos_bound (Z.shiftl (Z.land b 0x7f) shift) (2 ^ 64) ltac:(lia)) as Hm.
    assert (0 ≤ Z.lor acc (Z.shiftl (Z.land b 0x7f) shift mod 2 ^ 64)) as H0.
    { apply Z.lor_nonneg. int_solve. }
    enough (Z.lor acc (Z.shiftl (Z.land b 0x7f) shift mod 2 ^ 64) < 2 ^ 64) by int_solve.
    destruct (Z.eq_dec (Z.lor acc (Z.shiftl (Z.land b 0x7f) shift mod 2 ^ 64)) 0) as [->|]; [done|].
    apply Z.log2_lt_pow2; [lia|]. rewrite Z.log2_lor by int_solve.
    apply Z.max_lub_lt.
    - destruct (Z.eq_dec acc 0) as [->|]; [done|]. apply Z.log2_lt_pow2; int_solve.
    - destruct (Z.eq_dec (Z.shiftl (Z.land b 0x7f) shift mod 2 ^ 64) 0) as [->|]; [done|].
      apply Z.log2_lt_pow2; lia. }
  destruct (Z.land b 0x80 =? 0); [inv_res; simpl; split_and!; try done; lia|].
  destruct (Z.leb_spec 64 (shift + 7)); [done|].
  apply IH in Hd as (? & ? & ?); [|lia|rewrite Z.add_mod, Hs7 by lia; done|done].
  simpl. split_and!; try done; lia.
Qed.

(** ** The theorems *)

(** Varints.  Encoding a [u64] never fails and takes at most ten bytes, and
    decoding at that position gives the number back and stops exactly behind it,
    whatever follows. *)
Theorem varint_roundtrip z out rest :
  is_u64 z →
  ∃ enc, encode_varint z out = Ok (out ++ enc) ∧ (1 ≤ length enc ≤ 10)%nat ∧
    decode_varint (out ++ enc ++ rest) (length out) = Ok (z, (length out + length enc)%nat).
Proof.
  intros Hz. exists (uvarint z). split_and!.
  - by apply encode_varint_uvarint.
  - apply (uvarint_groups_length 10 z).
  - apply uvarint_groups_short; [simpl; int_solve|lia].
  - by apply decode_uvarint.
Qed.

Lemma varint_roundtrip_witness :
  ∃ enc, encode_varint 300 [7] = Ok ([7] ++ enc) ∧ (1 ≤ length enc ≤ 10)%nat ∧
    decode_varint ([7] ++ enc ++ [9]) 1 = Ok (300, (1 + length enc)%nat).
Proof. apply (varint_roundtrip 300 [7] [9]). split; vm_compute; discriminate. Defined.
