(* ===== verification/Writer.v ===== *)
(** * The block writer

    Models [src/writer.rs]: [LogjetWriter] over any sink that implements
    [std::io::Write].  The sink is the class [Write]; its promise, that a
    successful [write_all] appends exactly the given bytes, is [WriteLaws]. *)

From stdpp Require Import sorting.
From S2P Require Import Prelude Format Varint.

(** ** Sinks *)

Class Write (W : Type) : Type := {
  write_all : list Z → M W IoError unit;
  written : W → list Z;
}.

Class WriteLaws (W : Type) `{Write W} : Prop := {
  write_all_appends : ∀ bs w w',
    write_all bs w = (Ok tt, w') → written w' = written w ++ bs;
}.

(** [Vec<u8>] as a sink: writes never fail. *)
#[export] Instance Vec_Write : Write (list Z) := {|
  write_all bs := modify (λ v, v ++ bs);
  written v := v;
|}.

#[export] Instance Vec_WriteLaws : WriteLaws (list Z).
Proof. constructor. intros bs w w' Hw. by injection Hw as <-. Qed.

(** ** State *)

Record WriterConfig : Type := mkWriterConfig {
  block_target_size : Z;
  wc_codec : Codec;
  wc_sync_marker : list Z;
  block_alignment : Z;
}.

Definition WriterConfig_default : WriterConfig :=
  mkWriterConfig DEFAULT_BLOCK_TARGET_SIZE Lz4 DEFAULT_SYNC_MARKER 0.

Record LogjetWriter (W : Type) : Type := mkWriter {
  inner : W;
  config : WriterConfig;
  payload_buf : list Z;
  encoded_record_buf : list Z;
  compressed_buf : list Z;
  block_buf : list Z;
  block_base_seq : option Z;
  block_base_ts_unix_ns : option Z;
  record_count : Z;
}.
Arguments mkWriter {W}.
Arguments inner {W}. Arguments config {W}. Arguments payload_buf {W}.
Arguments encoded_record_buf {W}. Arguments compressed_buf {W}. Arguments block_buf {W}.
Arguments block_base_seq {W}. Arguments block_base_ts_unix_ns {W}. Arguments record_count {W}.

Section Writer.
Context `{Externals} {W : Type} `{Write W}.
Local Abbreviation writer := (LogjetWriter W).

(** Field assignments. *)
Definition set_inner x (w : writer) : writer :=
  mkWriter x (config w) (payload_buf w) (encoded_record_buf w) (compressed_buf w)
    (block_buf w) (block_base_seq w) (block_base_ts_unix_ns w) (record_count w).
Definition set_payload_buf x (w : writer) : writer :=
  mkWriter (inner w) (config w) x (encoded_record_buf w) (compressed_buf w)
    (block_buf w) (block_base_seq w) (block_base_ts_unix_ns w) (record_count w).
Definition set_encoded_record_buf x (w : writer) : writer :=
  mkWriter (inner w) (config w) (payload_buf w) x (compressed_buf w)
    (block_buf w) (block_base_seq w) (block_base_ts_unix_ns w) (record_count w).
Definition set_compressed_buf x (w : writer) : writer :=
  mkWriter (inner w) (config w) (payload_buf w) (encoded_record_buf w) x
    (block_buf w) (block_base_seq w) (block_base_ts_unix_ns w) (record_count w).
Definition set_block_buf x (w : writer) : writer :=
  mkWriter (inner w) (config w) (payload_buf w) (encoded_record_buf w) (compressed_buf w)
    x (block_base_seq w) (block_base_ts_unix_ns w) (record_count w).
Definition set_bases x y (w : writer) : writer :=
  mkWriter (inner w) (config w) (payload_buf w) (encoded_record_buf w) (compressed_buf w)
    (block_buf w) x y (record_count w).
Definition set_record_count x (w : writer) : writer :=
  mkWriter (inner w) (config w) (payload_buf w) (encoded_record_buf w) (compressed_buf w)
    (block_buf w) (block_base_seq w) (block_base_ts_unix_ns w) x.

(** ** Operations *)

Definition with_config (sink : W) (cfg : WriterConfig) : writer :=
  mkWriter sink cfg [] [] [] [] None None 0.

Definition new (sink : W) : writer := with_config sink WriterConfig_default.

(** [self.inner.write_all(bs)?] *)
Definition write_inner (bs : list Z) : M writer Error unit :=
  λ w, match write_all bs (inner w) with
       | (Ok tt, sink) => (Ok tt, set_inner sink w)
       | (Err e, sink) => (Err (Io e), set_inner sink w)
       end.

Definition reset_block_state : M writer Error unit :=
  modify (set_payload_buf []) ;;!
  modify (set_encoded_record_buf []) ;;!
  modify (set_compressed_buf []) ;;!
  modify (set_bases None None) ;;!
  modify (set_record_count 0).

Definition flush_block : M writer Error unit :=
  let! buffered := gets payload_buf in
  if len buffered =? 0 then ret tt else
  let! o_seq := gets block_base_seq in
  let! bseq := lift (ok_or o_seq (InvalidHeader "missing block base seq")) in
  let! o_ts := gets block_base_ts_unix_ns in
  let! bts := lift (ok_or o_ts (InvalidHeader "missing block base ts")) in
  let! cfg := gets config in
  let! compressed := lift (compress (wc_codec cfg) buffered) in
  modify (set_compressed_buf compressed) ;;!
  let! ulen := lift (ok_or (try_from MAX_U32 (len buffered))
                      (LengthTooLarge "uncompressed_len" (len buffered) MAX_U32)) in
  let! clen := lift (ok_or (try_from MAX_U32 (len compressed))
                      (LengthTooLarge "compressed_len" (len compressed) MAX_U32)) in
  let ext_bytes := BlockHeaderExt_encode (mkBlockHeaderExt bseq bts) in
  let! hlen := lift (ok_or (try_from MAX_U16 BLOCK_HEADER_TOTAL_LEN)
                      (NumericOverflow "header_len")) in
  let! count := gets record_count in
  let header0 := mkBlockHeader FORMAT_VERSION (wc_codec cfg) 0 hlen 0 ulen clen count 0 in
  let header := mkBlockHeader FORMAT_VERSION (wc_codec cfg) 0 hlen 0 ulen clen count
                  (compute_header_crc header0 ext_bytes) in
  let block := wc_sync_marker cfg ++ BlockHeader_encode header ++ ext_bytes ++ compressed in
  let crc := crc32c (drop (length (wc_sync_marker cfg)) block) in
  let block := block ++ to_le 4 crc in
  modify (set_block_buf block) ;;!
  write_inner block ;;!
  (if 0 <? block_alignment cfg then
     let remainder := len block mod block_alignment cfg in
     if 0 <? remainder then
       write_inner (replicate (Z.to_nat (block_alignment cfg - remainder)) 0)
     else ret tt
   else ret tt) ;;!
  reset_block_state.

(** [encode_varint(v, &mut self.encoded_record_buf)?] *)
Definition encode_varint_into (v : Z) : M writer Error unit :=
  let! buf := gets encoded_record_buf in
  let! buf' := lift (encode_varint v buf) in
  modify (set_encoded_record_buf buf').

(** The record encoding, which [push] performs into [encoded_record_buf] once
    with the deltas to the current block and, after a flush, again with zeros. *)
Definition encode_record_into (rt : RecordType) (seq_delta ts_delta : Z) (pl : list Z)
    : M writer Error unit :=
  let! buf := gets encoded_record_buf in
  modify (set_encoded_record_buf (buf ++ [RecordType_as_u8 rt])) ;;!
  encode_varint_into seq_delta ;;!
  encode_varint_into ts_delta ;;!
  let! plen := lift (ok_or (try_from MAX_U64 (len pl)) (NumericOverflow "payload len")) in
  encode_varint_into plen ;;!
  let! buf := gets encoded_record_buf in
  modify (set_encoded_record_buf (buf ++ pl)).

(** The end of [push]: the encoded record joins the block, which is flushed when
    it has reached the target size. *)
Definition append_encoded : M writer Error unit :=
  let! buffered := gets payload_buf in
  let! encoded := gets encoded_record_buf in
  modify (set_payload_buf (buffered ++ encoded)) ;;!
  let! count := gets record_count in
  let! count' := lift (ok_or (checked_add MAX_U32 count 1) (NumericOverflow "record_count")) in
  modify (set_record_count count') ;;!
  let! buffered := gets payload_buf in
  let! cfg := gets config in
  if block_target_size cfg <=? len buffered then flush_block else ret tt.

Definition push (rt : RecordType) (sq ts : Z) (pl : list Z) : M writer Error unit :=
  modify (set_encoded_record_buf []) ;;!
  let! bases := gets (λ w, (block_base_seq w, block_base_ts_unix_ns w)) in
  let! (bseq, bts) :=
    match bases with
    | (Some bseq, Some bts) => ret (bseq, bts)
    | _ => modify (set_bases (Some sq) (Some ts)) ;;! ret (sq, ts)
    end in
  let! seq_delta := lift (ok_or (checked_sub sq bseq)
                           (InvalidHeader "sequence must be monotonic within block")) in
  let! ts_delta := lift (ok_or (checked_sub ts bts)
                          (InvalidHeader "timestamp must be monotonic within block")) in
  encode_record_into rt seq_delta ts_delta pl ;;!
  let! buffered := gets payload_buf in
  let! encoded := gets encoded_record_buf in
  let! projected := lift (ok_or (checked_add MAX_U64 (len buffered) (len encoded))
                           (NumericOverflow "payload buf growth")) in
  let! cfg := gets config in
  (if negb (len buffered =? 0) && (block_target_size cfg <? projected) then
     flush_block ;;!
     modify (set_bases (Some sq) (Some ts)) ;;!
     modify (set_encoded_record_buf []) ;;!
     encode_record_into rt 0 0 pl
   else ret tt) ;;!
  append_encoded.

Definition into_inner (w : writer) : result Error W :=
  match flush_block w with
  | (Ok tt, w') => Ok (inner w')
  | (Err e, _) => Err e
  end.

Definition pending_bytes (w : writer) : Z := len (payload_buf w).
End Writer.

(** ** Reference encoding of records and blocks *)

Definition encode_record (bseq bts : Z) (r : OwnedRecord) : list Z :=
  [RecordType_as_u8 (record_type r)] ++ uvarint (seq r - bseq) ++
  uvarint (ts_unix_ns r - bts) ++ uvarint (len (payload r)) ++ payload r.

(** The payload of a block: its first record is the base of the deltas. *)
Definition encode_payload (rs : list OwnedRecord) : list Z :=
  match rs with
  | [] => []
  | r0 :: _ => concat (encode_record (seq r0) (ts_unix_ns r0) <$> rs)
  end.

Definition valid_record (r : OwnedRecord) : Prop :=
  is_u64 (seq r) ∧ is_u64 (ts_unix_ns r) ∧ bytes (payload r) ∧ is_u64 (len (payload r)).

(** Records that may share a block: none is below the first in sequence or time. *)
Definition block_records (rs : list OwnedRecord) : Prop :=
  match rs with
  | [] => False
  | r0 :: _ => Forall (λ r, valid_record r ∧ seq r0 ≤ seq r ∧ ts_unix_ns r0 ≤ ts_unix_ns r) rs
  end.

Definition padding (alignment n : Z) : list Z :=
  if 0 <? alignment then
    if 0 <? n mod alignment then replicate (Z.to_nat (alignment - n mod alignment)) 0 else []
  else [].

Section Spec.
Context `{Externals}.

Definition block_header (cfg : WriterConfig) (rs : list OwnedRecord) (compressed : list Z)
    : BlockHeader * BlockHeaderExt :=
  let ext := match rs with
             | [] => mkBlockHeaderExt 0 0
             | r0 :: _ => mkBlockHeaderExt (seq r0) (ts_unix_ns r0)
             end in
  let h c := mkBlockHeader FORMAT_VERSION (wc_codec cfg) 0 BLOCK_HEADER_TOTAL_LEN 0
               (len (encode_payload rs)) (len compressed) (len rs) c in
  (h (compute_header_crc (h 0) (BlockHeaderExt_encode ext)), ext).

(** What follows the sync marker, without the block checksum. *)
Definition block_body (cfg : WriterConfig) (rs : list OwnedRecord) (compressed : list Z) : list Z :=
  let '(h, ext) := block_header cfg rs compressed in
  BlockHeader_encode h ++ BlockHeaderExt_encode ext ++ compressed.

Definition block_frame (cfg : WriterConfig) (rs : list OwnedRecord) (compressed : list Z) : list Z :=
  wc_sync_marker cfg ++ block_body cfg rs compressed ++
  to_le 4 (crc32c (block_body cfg rs compressed)).

(** [chunk] is what the writer emits for the block of records [rs]. *)
Definition is_block (cfg : WriterConfig) (rs : list OwnedRecord) (chunk : list Z) : Prop :=
  ∃ compressed,
    compress (wc_codec cfg) (encode_payload rs) = Ok compressed ∧
    is_u32 (len (encode_payload rs)) ∧ is_u32 (len compressed) ∧ is_u32 (len rs) ∧
    chunk = block_frame cfg rs compressed ++
            padding (block_alignment cfg) (len (block_frame cfg rs compressed)).

(** A block holds a single record or at most the target size. *)
Definition block_fits (cfg : WriterConfig) (rs : list OwnedRecord) : Prop :=
  length rs = 1%nat ∨ len (encode_payload rs) ≤ block_target_size cfg.

Definition base_of (rs : list OwnedRecord) : option Z * option Z :=
  match rs with [] => (None, None) | r0 :: _ => (Some (seq r0), Some (ts_unix_ns r0)) end.

(** The sink after the blocks [blocks] have been written to [sink0], each with
    one write for its frame and, where it needs padding, another one. *)
Inductive emitted {W} `{Write W} (cfg : WriterConfig) (sink0 : W) : list (list OwnedRecord) → W → Prop :=
| emitted_nil : emitted cfg sink0 [] sink0
| emitted_snoc blocks rs compressed sink mid sink' :
    emitted cfg sink0 blocks sink →
    compress (wc_codec cfg) (encode_payload rs) = Ok compressed →
    is_u32 (len (encode_payload rs)) → is_u32 (len compressed) → is_u32 (len rs) →
    block_records rs →
    write_all (block_frame cfg rs compressed) sink = (Ok tt, mid) →
    (let pad := padding (block_alignment cfg) (len (block_frame cfg rs compressed)) in
     pad = [] ∧ sink' = mid ∨ write_all pad mid = (Ok tt, sink')) →
    emitted cfg sink0 (blocks ++ [rs]) sink'.

(** The abstraction of a writer: [blocks] have been emitted to the initial sink
    [sink0] and [pending] is buffered. *)
Record writer_core {W} `{Write W} (cfg : WriterConfig) (sink0 : W)
    (blocks : list (list OwnedRecord)) (pending : list OwnedRecord) (w : LogjetWriter W) : Prop := {
  inv_config : config w = cfg;
  inv_emitted : emitted cfg sink0 blocks (inner w);
  inv_blocks : Forall (λ rs, block_records rs ∧ block_fits cfg rs) blocks;
  inv_payload : payload_buf w = encode_payload pending;
  inv_count : record_count w = len pending;
  inv_count_u32 : is_u32 (len pending);
}.

Record writer_inv {W} `{Write W} (cfg : WriterConfig) (sink0 : W)
    (blocks : list (list OwnedRecord)) (pending : list OwnedRecord) (w : LogjetWriter W) : Prop := {
  inv_core : writer_core cfg sink0 blocks pending w;
  inv_bases : (block_base_seq w, block_base_ts_unix_ns w) = base_of pending;
  inv_pending : pending = [] ∨
    (block_records pending ∧ len (encode_payload pending) < block_target_size cfg);
}.
End Spec.

#[global] Arguments encode_payload : simpl never.
#[global] Arguments encode_record : simpl never.

Section Writer_facts.
Context {EX : Externals} {EL : ExternalLaws} {W : Type} {WW : Write W} {WL : WriteLaws W}.
Implicit Types w : LogjetWriter W.

Lemma encode_varint_into_eq v w :
  is_u64 v →
  encode_varint_into v w =
    (Ok tt, set_encoded_record_buf (encoded_record_buf w ++ uvarint v) w).
Proof.
  intros Hv. unfold encode_varint_into, bind, gets, lift, modify.
  by rewrite encode_varint_uvarint.
Qed.

Lemma encode_record_into_eq rt d1 d2 pl w :
  is_u64 d1 → is_u64 d2 → is_u64 (len pl) →
  encode_record_into rt d1 d2 pl w =
    (Ok tt, set_encoded_record_buf (encoded_record_buf w ++ [RecordType_as_u8 rt] ++ uvarint d1 ++
              uvarint d2 ++ uvarint (len pl) ++ pl) w).
Proof.
  intros H1 H2 H3. unfold encode_record_into.
  assert (try_from MAX_U64 (len pl) = Some (len pl)) as Htry by by apply try_from_Some.
  unfold bind, gets, modify, lift. rewrite !encode_varint_into_eq by done.
  cbv iota beta. rewrite Htry. simpl ok_or. cbv iota beta.
  rewrite !encode_varint_into_eq by done. cbv iota beta.
  unfold set_encoded_record_buf; simpl. by rewrite <- !app_assoc.
Qed.

Lemma write_inner_Ok bs w w' :
  write_inner bs w = (Ok tt, w') →
  ∃ sink, w' = set_inner sink w ∧ write_all bs (inner w) = (Ok tt, sink).
Proof.
  unfold write_inner. destruct (write_all bs (inner w)) as [[[]|e] sink] eqn:Hw; intros; inv_res.
  by exists sink.
Qed.

Lemma write_padding_Ok al n w w' :
  (if 0 <? al then
     if 0 <? n mod al then write_inner (replicate (Z.to_nat (al - n mod al)) 0)
     else ret tt
   else ret tt) w = (Ok tt, w') →
  ∃ sink, w' = set_inner sink w ∧
    (padding al n = [] ∧ sink = inner w ∨ write_all (padding al n) (inner w) = (Ok tt, sink)).
Proof.
  unfold padding. intros Hw. destruct (0 <? al); [destruct (0 <? n mod al)|].
  - apply write_inner_Ok in Hw as (sink & -> & ?). exists sink. eauto.
  - mon_inv. exists (inner w). split; [by destruct w|by left].
  - mon_inv. exists (inner w). split; [by destruct w|by left].
Qed.

(** What a sink holds after blocks were emitted to it. *)
Lemma emitted_written cfg (sink0 sink : W) blocks :
  emitted cfg sink0 blocks sink →
  ∃ chunks, written sink = written sink0 ++ concat chunks ∧ Forall2 (is_block cfg) blocks chunks.
Proof.
  induction 1 as [|blocks rs c sink mid sink' He (chunks & IH1 & IH2) Hc Hu H32 Hn Hrec Hw Hp].
  { exists []. by rewrite app_nil_r. }
  apply write_all_appends in Hw.
  assert (written sink' = written mid ++ padding (block_alignment cfg) (len (block_frame cfg rs c))) as Hp'.
  { destruct Hp as [[-> ->]|Hp]; [by rewrite app_nil_r|by apply write_all_appends in Hp]. }
  exists (chunks ++ [block_frame cfg rs c ++ padding (block_alignment cfg) (len (block_frame cfg rs c))]).
  split.
  - rewrite Hp', Hw, IH1, concat_app. simpl. by rewrite app_nil_r, !app_assoc.
  - apply Forall2_app; [done|]. constructor; [|constructor]. by exists c.
Qed.

Lemma encode_payload_cons r rs :
  encode_payload (r :: rs) =
    encode_record (seq r) (ts_unix_ns r) r ++ concat (encode_record (seq r) (ts_unix_ns r) <$> rs).
Proof. reflexivity. Qed.

Lemma len_encode_record bseq bts r : 0 < len (encode_record bseq bts r).
Proof.
  unfold encode_record. rewrite len_app. change (len [_]) with 1.
  match goal with |- _ < 1 + len ?l => pose proof (len_nonneg l) end. lia.
Qed.

Lemma encode_payload_nonempty rs : rs ≠ [] → len (encode_payload rs) ≠ 0.
Proof.
  destruct rs as [|r rs]; [done|]. intros _. rewrite encode_payload_cons, len_app.
  pose proof (len_encode_record (seq r) (ts_unix_ns r) r).
  match goal with |- _ + len ?l ≠ _ => pose proof (len_nonneg l) end. lia.
Qed.

(** A successful flush emits the pending records as one block. *)
Lemma flush_block_Ok cfg sink0 blocks pending w w' :
  writer_core cfg sink0 blocks pending w →
  (block_base_seq w, block_base_ts_unix_ns w) = base_of pending →
  block_records pending → block_fits cfg pending →
  flush_block w = (Ok tt, w') →
  writer_inv cfg sink0 (blocks ++ [pending]) [] w'.
Proof.
  intros [Hcfg Hem Hbl Hpl Hcnt Hc32] Hbase Hrec Hfit Hf.
  assert (pending ≠ []) as Hne by by intros ->.
  unfold flush_block in Hf. mon_inv. rewrite Hpl in Hf.
  destruct (Z.eqb_spec (len (encode_payload pending)) 0) as [Hz|_];
    [by apply encode_payload_nonempty in Hne|].
  mon_inv.
  destruct pending as [|r0 pending']; [done|]. injection Hbase as Hbs Hbt.
  repeat match goal with Hx : _ = Some _ |- _ => rewrite Hx in * end.
  cbn [set_compressed_buf set_block_buf record_count config block_base_seq block_base_ts_unix_ns] in *.
  inv_res.
  rewrite Hcnt, drop_app_length, <- (app_assoc (wc_sync_marker (config w))) in *.
  match goal with Hx : write_inner ?b _ = (Ok ?u, _) |- _ =>
    change b with (block_frame (config w) (r0 :: pending') x9) in *; destruct u;
    apply write_inner_Ok in Hx as (sink1 & -> & Hs1) end.
  match goal with Hx : _ _ = (Ok ?u, ?w1), Hy : reset_block_state ?w1 = _ |- _ =>
    destruct u; apply write_padding_Ok in Hx as (sink2 & -> & Hs2) end.
  unfold reset_block_state in Hf. mon_inv. simpl in Hs1, Hs2.
  split; [split|..]; simpl; try done; [|by apply Forall_app_2; [|constructor]|by left].
  by eapply emitted_snoc.
Qed.

Lemma encode_payload_snoc r0 rs r :
  encode_payload ((r0 :: rs) ++ [r]) =
    encode_payload (r0 :: rs) ++ encode_record (seq r0) (ts_unix_ns r0) r.
Proof.
  rewrite <- app_comm_cons, !encode_payload_cons, fmap_app, concat_app. simpl.
  by rewrite app_nil_r, app_assoc.
Qed.

(** The bases of the block that [r] joins when [pending] is buffered. *)
Definition joined_base (pending : list OwnedRecord) (r : OwnedRecord) : Z * Z :=
  match pending with
  | [] => (seq r, ts_unix_ns r)
  | r0 :: _ => (seq r0, ts_unix_ns r0)
  end.

Lemma encode_payload_join pending r :
  encode_payload (pending ++ [r]) =
    encode_payload pending ++
    encode_record (joined_base pending r).1 (joined_base pending r).2 r.
Proof.
  destruct pending as [|r0 rs]; [|apply encode_payload_snoc].
  unfold encode_payload; simpl. by rewrite app_nil_r.
Qed.

Lemma append_encoded_Ok cfg sink0 blocks pending r w w' :
  writer_core cfg sink0 blocks pending w →
  (block_base_seq w, block_base_ts_unix_ns w) = base_of (pending ++ [r]) →
  encoded_record_buf w = encode_record (joined_base pending r).1 (joined_base pending r).2 r →
  block_records (pending ++ [r]) →
  pending = [] ∨ len (encode_payload (pending ++ [r])) ≤ block_target_size cfg →
  append_encoded w = (Ok tt, w') →
  ∃ blocks' pending', writer_inv cfg sink0 blocks' pending' w' ∧
    concat blocks' ++ pending' = concat blocks ++ pending ++ [r] ∧ pending' `suffix_of` pending ++ [r].
Proof.
  intros [Hcfg Hwr Hbl Hpl Hcnt Hc32] Hbase Henc Hrec Hfits Ha.
  unfold append_encoded in Ha. mon_inv.
  cbn [set_payload_buf set_record_count payload_buf record_count config] in *.
  rewrite Hpl, Henc, <- encode_payload_join in *. rewrite Hcnt in *.
  assert (writer_core (config w) sink0 blocks (pending ++ [r])
    (set_record_count (len pending + 1) (set_payload_buf (encode_payload (pending ++ [r])) w))) as Hcore.
  { split; simpl; try done; rewrite len_app; change (len [r]) with 1; [done|].
    pose proof (len_nonneg pending). int_solve. }
  destruct (Z.leb_spec (block_target_size (config w)) (len (encode_payload (pending ++ [r])))).
  - exists (blocks ++ [pending ++ [r]]), []. split.
    + eapply flush_block_Ok; [done..| |done].
      destruct Hfits as [->|?]; [by left|by right].
    + rewrite concat_app. simpl. rewrite !app_nil_r. split; [done|apply suffix_nil].
  - mon_inv. exists blocks, (pending ++ [r]). split; [|done].
    split; [done..|by right].
Qed.

Lemma writer_core_scratch cfg sink0 blocks pending w buf b1 b2 :
  writer_core cfg sink0 blocks pending w →
  writer_core cfg sink0 blocks pending (set_encoded_record_buf buf w) ∧
  writer_core cfg sink0 blocks pending (set_bases b1 b2 w).
Proof. intros []. split; by split. Qed.

Lemma block_records_snoc r0 rs r :
  block_records (r0 :: rs) → valid_record r → seq r0 ≤ seq r → ts_unix_ns r0 ≤ ts_unix_ns r →
  block_records ((r0 :: rs) ++ [r]).
Proof. intros Hb Hv Hs Ht. simpl. apply (Forall_app_2 _ (r0 :: rs)); [done|]. by constructor. Qed.

Lemma block_records_singleton r : valid_record r → block_records [r].
Proof. intros Hv. constructor; [|constructor]. split_and!; done || lia. Qed.

(** A record pushed on an empty block. *)
Lemma push_fresh_Ok cfg sink0 blocks r w w' :
  writer_core cfg sink0 blocks [] w → valid_record r →
  (block_base_seq w, block_base_ts_unix_ns w) = (Some (seq r), Some (ts_unix_ns r)) →
  (encode_record_into (record_type r) 0 0 (payload r) ;;! append_encoded)
    (set_encoded_record_buf [] w) = (Ok tt, w') →
  ∃ blocks' pending', writer_inv cfg sink0 blocks' pending' w' ∧
    concat blocks' ++ pending' = concat blocks ++ [r] ∧ pending' `suffix_of` [r].
Proof.
  intros Hc Hv Hb Hp. destruct (Hv) as (Hs & Ht & Hpb & Hl). unfold bind in Hp.
  rewrite encode_record_into_eq in Hp by (done || int_solve).
  eapply (append_encoded_Ok cfg sink0 blocks []); [..|done].
  - by do 2 apply (writer_core_scratch _ _ _ _ _ _ None None).
  - done.
  - simpl. unfold encode_record. by rewrite !Z.sub_diag.
  - by apply block_records_singleton.
  - by left.
Qed.

(** What is buffered after a push was buffered before or is the new record. *)
Lemma push_Ok_suffix cfg sink0 blocks pending r w w' :
  writer_inv cfg sink0 blocks pending w → valid_record r →
  push (record_type r) (seq r) (ts_unix_ns r) (payload r) w = (Ok tt, w') →
  ∃ blocks' pending', writer_inv cfg sink0 blocks' pending' w' ∧
    concat blocks' ++ pending' = concat blocks ++ pending ++ [r] ∧ pending' `suffix_of` pending ++ [r].
Proof.
  intros [Hc Hb Hpend] Hv Hp. destruct (Hv) as (Hs & Ht & Hpb & Hl).
  unfold push in Hp. apply bind_Ok in Hp as (? & ? & Hx & Hp). mon_inv. simpl in *.
  assert (Hpl := inv_payload _ _ _ _ _ Hc). assert (Hcfg := inv_config _ _ _ _ _ Hc).
  destruct pending as [|r0 rs]; injection Hb as Hb1 Hb2;
    repeat match goal with
    | Hx : match block_base_seq w with _ => _ end _ = _ |- _ => rewrite Hb1 in Hx
    | Hx : match block_base_ts_unix_ns w with _ => _ end _ = _ |- _ => rewrite Hb2 in Hx
    end; mon_inv; cbv beta iota in Hp; mon_inv.
  2: destruct Hpend as [?|[Hrec Hlt]]; [done|];
     destruct (Forall_inv Hrec) as [(Hs0 & Ht0 & _) _].
  all: match goal with Hx : encode_record_into _ _ _ _ _ = _ |- _ =>
    rewrite encode_record_into_eq in Hx by (done || int_solve);
    injection Hx as <- <- end.
  all: cbn [payload_buf encoded_record_buf config set_bases set_encoded_record_buf] in *.
  - rewrite Hpl in *. simpl in *. mon_inv.
    apply (push_fresh_Ok (config w) sink0 blocks r (set_bases (Some (seq r)) (Some (ts_unix_ns r)) w)); [|done|done|].
    { destruct Hc; by split. }
    unfold bind. rewrite encode_record_into_eq by (done || int_solve). by rewrite !Z.sub_diag in *.
  - rewrite Hpl in *.
    repeat match goal with Hx : context [RecordType_as_u8 ?a :: ?b] |- _ =>
      change (RecordType_as_u8 a :: b) with (encode_record (seq r0) (ts_unix_ns r0) r) in Hx end.
    rewrite <- len_app, <- encode_payload_snoc in *.
    match goal with Hx : (if ?b then _ else _) _ = (Ok ?u, _) |- _ =>
      destruct u; destruct b eqn:Hflush; rename Hx into Hmid end.
    + apply bind_Ok in Hmid as ([] & w1 & Hf & Hmid).
      eapply flush_block_Ok in Hf as [Hc1 _ _];
        [|by apply (writer_core_scratch _ _ _ _ _ _ None None);
           apply (writer_core_scratch _ _ _ _ _ _ None None)
         |simpl; by rewrite Hb1, Hb2|done|by right; lia].
      apply bind_Ok in Hmid as ([] & w2 & Hm1 & Hmid). mon_inv.
      replace (concat blocks ++ (r0 :: rs) ++ [r]) with (concat (blocks ++ [r0 :: rs]) ++ [r])
        by (rewrite concat_app; simpl; by rewrite app_nil_r, <- app_assoc).
      destruct (push_fresh_Ok (config w) sink0 (blocks ++ [r0 :: rs]) r (set_bases (Some (seq r)) (Some (ts_unix_ns r)) w1) w')
        as (bl & pe & Hw & Hcat & Hsuf); [|done|done| |].
      { destruct Hc1; by split. }
      { apply bind_Ok. eauto. }
      exists bl, pe. split_and!; [done|done|]. by apply suffix_app_r.
    + mon_inv. apply andb_false_iff in Hflush as [Hz|Hle].
      { apply negb_false_iff, Z.eqb_eq in Hz. by apply encode_payload_nonempty in Hz. }
      apply Z.ltb_ge in Hle.
      eapply append_encoded_Ok with (pending := r0 :: rs); [..|done].
      * by do 2 apply (writer_core_scratch _ _ _ _ _ _ None None).
      * simpl. by rewrite Hb1, Hb2.
      * done.
      * by apply block_records_snoc.
      * by right.
Qed.

Lemma push_Ok cfg sink0 blocks pending r w w' :
  writer_inv cfg sink0 blocks pending w → valid_record r →
  push (record_type r) (seq r) (ts_unix_ns r) (payload r) w = (Ok tt, w') →
  ∃ blocks' pending', writer_inv cfg sink0 blocks' pending' w' ∧
    concat blocks' ++ pending' = concat blocks ++ pending ++ [r].
Proof.
  intros Hinv Hv Hp. destruct (push_Ok_suffix cfg sink0 blocks pending r w w' Hinv Hv Hp) as (bl & pe & Hw & Hc & _). eauto.
Qed.
End Writer_facts.

(** ** Whole logs

    The way every client uses the writer: [push] for each record, then
    [into_inner]. *)

Section Write_log.
Context {EX : Externals} {W : Type} {WW : Write W}.

Fixpoint push_all (rs : list OwnedRecord) : M (LogjetWriter W) Error unit :=
  match rs with
  | [] => ret tt
  | r :: rs => push (record_type r) (seq r) (ts_unix_ns r) (payload r) ;;! push_all rs
  end.

Definition write_log (sink : W) (cfg : WriterConfig) (rs : list OwnedRecord) : result Error W :=
  match push_all rs (with_config sink cfg) with
  | (Ok tt, w) => into_inner w
  | (Err e, _) => Err e
  end.
End Write_log.

Section Write_log_facts.
Context {EX : Externals} {EL : ExternalLaws} {W : Type} {WW : Write W} {WL : WriteLaws W}.

Lemma writer_inv_new (sink : W) cfg : writer_inv cfg sink [] [] (with_config sink cfg).
Proof.
  split; [split|..]; simpl; try done.
  - constructor.
  - by left.
Qed.

Lemma push_all_Ok cfg sink0 rs blocks pending (w w' : LogjetWriter W) :
  writer_inv cfg sink0 blocks pending w → Forall valid_record rs →
  push_all rs w = (Ok tt, w') →
  ∃ blocks' pending', writer_inv cfg sink0 blocks' pending' w' ∧
    concat blocks' ++ pending' = concat blocks ++ pending ++ rs.
Proof.
  intros Hinv Hrs. revert blocks pending w Hinv.
  induction Hrs as [|r rs Hr Hrs IH]; intros blocks pending w Hinv Hp.
  - simpl in Hp. mon_inv. exists blocks, pending. by rewrite app_nil_r.
  - simpl in Hp. apply bind_Ok in Hp as ([] & w1 & H1 & H2).
    eapply push_Ok in H1 as (bl1 & pe1 & Hinv1 & E1); [|done..].
    eapply IH in H2 as (bl2 & pe2 & Hinv2 & E2); [|done].
    exists bl2, pe2. split; [done|]. rewrite E2, app_assoc, E1.
    by rewrite <- !app_assoc.
Qed.

Lemma into_inner_Ok cfg sink0 blocks pending (w : LogjetWriter W) sink :
  writer_inv cfg sink0 blocks pending w → into_inner w = Ok sink →
  ∃ blocks', concat blocks' = concat blocks ++ pending ∧
    Forall (λ rs, block_records rs ∧ block_fits cfg rs) blocks' ∧
    emitted cfg sink0 blocks' sink.
Proof.
  intros [Hc Hb Hp] Hi. unfold into_inner in Hi.
  destruct (flush_block w) as [[[]|e] w'] eqn:Hf; [|done]. injection Hi as <-.
  destruct Hp as [->|[Hrec Hlt]].
  - unfold flush_block in Hf. mon_inv.
    rewrite (inv_payload _ _ _ _ _ Hc) in Hf. simpl in Hf. mon_inv.
    exists blocks. rewrite app_nil_r. split; [done|].
    split; apply Hc.
  - eapply flush_block_Ok in Hf as [Hc' _ _]; [|done..|right; lia].
    exists (blocks ++ [pending]). split; [rewrite concat_app; simpl; by rewrite app_nil_r|].
    split; apply Hc'.
Qed.

(** What a completed write leaves in the sink: the records, partitioned into
    well-formed blocks in push order. *)
Lemma write_log_Ok (sink sink' : W) cfg rs :
  Forall valid_record rs → write_log sink cfg rs = Ok sink' →
  ∃ blocks chunks, concat blocks = rs ∧
    Forall (λ rs, block_records rs ∧ block_fits cfg rs) blocks ∧
    Forall2 (is_block cfg) blocks chunks ∧ written sink' = written sink ++ concat chunks.
Proof.
  intros Hrs Hw. unfold write_log in Hw.
  destruct (push_all rs (with_config sink cfg)) as [[[]|e] w] eqn:Hp; [|done].
  eapply push_all_Ok in Hp as (bl & pe & Hinv & E); [|apply writer_inv_new|done].
  eapply into_inner_Ok in Hw as (bl' & E' & Hf & Hem); [|done].
  apply emitted_written in Hem as (chunks & Hs & Hch). exists bl', chunks. split_and!; try done. by rewrite E', E.
Qed.

(** ** Error paths *)

(** A record below the base of the open block is refused and nothing but the
    scratch buffer changes. *)
Lemma push_below_base bseq bts rt sq ts pl (w : LogjetWriter W) :
  block_base_seq w = Some bseq → block_base_ts_unix_ns w = Some bts →
  sq < bseq ∨ ts < bts →
  ∃ msg, push rt sq ts pl w = (Err (InvalidHeader msg), set_encoded_record_buf [] w).
Proof.
  intros Hs Ht Hlt. unfold push, bind, modify, gets, lift, ret. simpl. rewrite Hs, Ht.
  destruct (checked_sub sq bseq) eqn:Es; simpl; [|by eexists].
  apply checked_sub_Some in Es as [_ ?].
  destruct (checked_sub ts bts) eqn:Et; simpl; [|by eexists].
  apply checked_sub_Some in Et as [_ ?]. lia.
Qed.
End Write_log_facts.

(** ** Writing succeeds

    The in-memory sink never fails, so a write fails only on a limit: records
    whose sequence numbers and timestamps do not decrease, and whose blocks stay
    within 32-bit lengths, are always accepted. *)

Definition no_earlier (a b : OwnedRecord) : Prop := seq a ≤ seq b ∧ ts_unix_ns a ≤ ts_unix_ns b.

Lemma bytes_encode_record bseq bts r :
  valid_record r → bseq ≤ seq r → bts ≤ ts_unix_ns r → is_u64 bseq → is_u64 bts →
  bytes (encode_record bseq bts r).
Proof.
  intros (Hs & Ht & Hp & Hl) Hles Hlet Hbs Hbt. unfold encode_record.
  rewrite !bytes_app. split_and!; try done; try (apply uvarint_bytes; int_solve).
  constructor; [apply RecordType_as_u8_u8|constructor].
Qed.

Lemma bytes_encode_payload rs : block_records rs → bytes (encode_payload rs).
Proof.
  destruct rs as [|r0 rs]; [done|]. intros Hb. unfold encode_payload.
  destruct (Forall_inv Hb) as [(Hs & Ht & _) _]. unfold block_records in Hb.
  apply Forall_concat, Forall_fmap. eapply Forall_impl; [|exact Hb].
  intros r (Hv & ? & ?). by apply bytes_encode_record.
Qed.

Lemma len_encode_record_bound bseq bts r : len (encode_record bseq bts r) ≤ 34 + len (payload r).
Proof.
  unfold encode_record, len. rewrite !length_app. simpl.
  pose proof (uvarint_groups_length 10 (seq r - bseq)).
  pose proof (uvarint_groups_length 10 (ts_unix_ns r - bts)).
  pose proof (uvarint_groups_length 10 (Z.of_nat (length (payload r)))). unfold uvarint. lia.
Qed.

(** A block holds at most as many records as bytes. *)
Lemma len_le_encode_payload rs : len rs ≤ len (encode_payload rs).
Proof.
  destruct rs as [|r0 rs]; [done|]. unfold encode_payload.
  generalize (seq r0), (ts_unix_ns r0). intros b t. induction (r0 :: rs) as [|r l IH]; [done|].
  rewrite fmap_cons. cbn [concat]. rewrite len_cons, len_app. pose proof (len_encode_record b t r). lia.
Qed.

(** A sink whose writes cannot fail. *)
Class InfallibleWrite (W : Type) `{Write W} : Prop :=
  write_all_total : ∀ bs w, ∃ w', write_all bs w = (Ok tt, w').

#[export] Instance Vec_Infallible : InfallibleWrite (list Z).
Proof. intros bs w. by eexists. Qed.

Section Write_total.
Context {EX : Externals} {EL : ExternalLaws} {W : Type} {WW : Write W} {WL : WriteLaws W}
  {WI : InfallibleWrite W}.

(** The codec accepts every block of at most [limit] bytes. *)
Definition codec_accepts (c : Codec) (limit : Z) : Prop :=
  ∀ bs, bytes bs → len bs ≤ limit → ∃ cs, compress c bs = Ok cs ∧ len cs ≤ MAX_U32.

Lemma write_inner_total bs (w : LogjetWriter W) : ∃ w', write_inner bs w = (Ok tt, w').
Proof. unfold write_inner. destruct (write_all_total bs (inner w)) as [sink ->]. by eexists. Qed.

Lemma flush_block_total cfg sink0 blocks pending (w : LogjetWriter W) :
  writer_core cfg sink0 blocks pending w →
  (block_base_seq w, block_base_ts_unix_ns w) = base_of pending →
  block_records pending → codec_accepts (wc_codec cfg) MAX_U32 →
  bytes (encode_payload pending) → len (encode_payload pending) ≤ MAX_U32 →
  ∃ w', flush_block w = (Ok tt, w').
Proof.
  intros [Hcfg _ _ Hpl Hcnt Hc32] Hbase Hrec Hacc Hb Hl. subst cfg.
  destruct (Hacc _ Hb Hl) as (cs & Hcs & Hlc). unfold flush_block, bind, gets, lift, modify, ret.
  rewrite Hpl. destruct (len (encode_payload pending) =? 0); [by eexists|].
  destruct pending as [|r0 rs]; [done|]. injection Hbase as -> ->. cbn [ok_or].
  rewrite Hcs. cbv iota beta.
  rewrite (proj2 (try_from_Some _ _ _) (conj eq_refl (conj (len_nonneg _) Hl))). cbn [ok_or].
  rewrite (proj2 (try_from_Some _ _ _) (conj eq_refl (conj (len_nonneg _) Hlc))). cbn [ok_or].
  change (try_from MAX_U16 BLOCK_HEADER_TOTAL_LEN) with (Some 40). cbn [ok_or].
  match goal with |- context [write_inner ?b ?x] => destruct (write_inner_total b x) as [w1 ->] end.
  destruct (0 <? _); [destruct (0 <? _)|]; [|by eexists..].
  match goal with |- context [write_inner ?b ?x] => destruct (write_inner_total b x) as [w2 ->] end.
  by eexists.
Qed.

Lemma append_encoded_total cfg sink0 blocks pending r (w : LogjetWriter W) :
  writer_core cfg sink0 blocks pending w →
  (block_base_seq w, block_base_ts_unix_ns w) = base_of (pending ++ [r]) →
  encoded_record_buf w = encode_record (joined_base pending r).1 (joined_base pending r).2 r →
  block_records (pending ++ [r]) → codec_accepts (wc_codec cfg) MAX_U32 →
  len (encode_payload (pending ++ [r])) ≤ MAX_U32 →
  ∃ w', append_encoded w = (Ok tt, w').
Proof.
  intros [Hcfg Hwr Hbl Hpl Hcnt Hc32] Hbase Henc Hrec Hacc Hl.
  pose proof (len_le_encode_payload (pending ++ [r])) as Hn. rewrite len_app in Hn.
  change (len [r]) with 1 in Hn.
  unfold append_encoded, bind, gets, modify, lift.
  cbn [set_payload_buf set_record_count payload_buf record_count config ok_or].
  rewrite Hpl, Henc, Hcnt, <- encode_payload_join. unfold checked_add.
  destruct (Z.leb_spec (len pending + 1) MAX_U32); [|lia]. cbn [ok_or].
  destruct (_ <=? _); [|by eexists].
  eapply (flush_block_total cfg sink0 blocks (pending ++ [r])); try done.
  - split; simpl; try done; rewrite len_app; change (len [r]) with 1; [done|].
    pose proof (len_nonneg pending). int_solve.
  - by apply bytes_encode_payload.
Qed.

(** A record as small as its length fields allow, that does not precede the
    first buffered one. *)
Definition acceptable (pending : list OwnedRecord) (r : OwnedRecord) : Prop :=
  valid_record r ∧ len (payload r) + 34 ≤ MAX_U32 ∧
  match pending with [] => True | r0 :: _ => no_earlier r0 r end.

Lemma push_fresh_total cfg sink0 blocks r (w : LogjetWriter W) :
  writer_core cfg sink0 blocks [] w → codec_accepts (wc_codec cfg) MAX_U32 →
  valid_record r → len (payload r) + 34 ≤ MAX_U32 →
  (block_base_seq w, block_base_ts_unix_ns w) = (Some (seq r), Some (ts_unix_ns r)) →
  encoded_record_buf w = encode_record (seq r) (ts_unix_ns r) r →
  ∃ w', append_encoded w = (Ok tt, w').
Proof.
  intros Hc Hacc Hv Hl Hb He. eapply (append_encoded_total cfg sink0 blocks [] r); try done.
  - by apply block_records_singleton.
  - simpl app. rewrite encode_payload_cons. simpl concat. rewrite app_nil_r.
    pose proof (len_encode_record_bound (seq r) (ts_unix_ns r) r). lia.
Qed.

Lemma push_total cfg sink0 blocks pending r (w : LogjetWriter W) :
  writer_inv cfg sink0 blocks pending w → acceptable pending r →
  block_target_size cfg ≤ MAX_U32 → codec_accepts (wc_codec cfg) MAX_U32 →
  ∃ w', push (record_type r) (seq r) (ts_unix_ns r) (payload r) w = (Ok tt, w').
Proof.
  intros [Hc Hb Hpend] (Hv & Hl & Hle) Ht Hacc. destruct (Hv) as (Hs & Hts & Hpb & Hpl).
  pose proof (inv_payload _ _ _ _ _ Hc) as Epl. pose proof (inv_config _ _ _ _ _ Hc) as Ecfg.
  destruct pending as [|r0 rs]; injection Hb as Hb1 Hb2; unfold push, bind, modify, gets, lift, ret;
    cbn [set_encoded_record_buf block_base_seq block_base_ts_unix_ns]; rewrite Hb1, ?Hb2.
  - unfold checked_sub. rewrite !Z.leb_refl, !Z.sub_diag. cbn [ok_or].
    rewrite encode_record_into_eq by (done || int_solve). cbv beta iota.
    cbn [set_bases set_encoded_record_buf payload_buf encoded_record_buf config].
    rewrite app_nil_l. pose proof (len_encode_record_bound (seq r) (ts_unix_ns r) r) as Hbd.
    assert ([RecordType_as_u8 (record_type r)] ++ uvarint 0 ++ uvarint 0 ++
      uvarint (len (payload r)) ++ payload r = encode_record (seq r) (ts_unix_ns r) r) as Ee
      by (unfold encode_record; by rewrite !Z.sub_diag).
    rewrite Ee, Epl. unfold checked_add.
    destruct (Z.leb_spec (len (encode_payload []) + len (encode_record (seq r) (ts_unix_ns r) r)) MAX_U64)
      as [_|Hbad]; [|unfold encode_payload in Hbad; rewrite len_nil in Hbad; int_solve].
    cbn [ok_or]. change (negb (len (encode_payload []) =? 0)) with false. cbn [andb].
    eapply (push_fresh_total cfg sink0 blocks r); try done.
    destruct Hc; by split.
  - destruct Hle as [Hles Hlet]. destruct Hpend as [?|[Hrec Hlt]]; [done|].
    destruct (Forall_inv Hrec) as [(Hs0 & Ht0 & _) _].
    unfold checked_sub. destruct (Z.leb_spec (seq r0) (seq r)); [|lia]. cbn [ok_or].
    destruct (Z.leb_spec (ts_unix_ns r0) (ts_unix_ns r)); [|lia]. cbn [ok_or].
    rewrite encode_record_into_eq by (done || int_solve). cbv beta iota.
    cbn [set_bases set_encoded_record_buf payload_buf encoded_record_buf config].
    rewrite app_nil_l. pose proof (len_encode_record_bound (seq r0) (ts_unix_ns r0) r) as Hbd.
    change ([RecordType_as_u8 (record_type r)] ++ uvarint (seq r - seq r0) ++
      uvarint (ts_unix_ns r - ts_unix_ns r0) ++ uvarint (len (payload r)) ++ payload r)
      with (encode_record (seq r0) (ts_unix_ns r0) r).
    rewrite Epl. unfold checked_add.
    destruct (Z.leb_spec (len (encode_payload (r0 :: rs)) + len (encode_record (seq r0) (ts_unix_ns r0) r))
      MAX_U64); [cbn [ok_or]|int_solve].
    rewrite <- len_app, <- encode_payload_snoc, Ecfg.
    destruct (_ && _) eqn:Hflush.
    + destruct (flush_block_total cfg sink0 blocks (r0 :: rs)
        (set_encoded_record_buf (encode_record (seq r0) (ts_unix_ns r0) r) w)) as [w1 Hf]; try done.
      { destruct Hc; by split. }
      { simpl. by rewrite Hb1, Hb2. }
      { by apply bytes_encode_payload. }
      { lia. }
      pose proof Hf as Hf'. 
      eapply flush_block_Ok in Hf' as [Hc1 _ _]; [|destruct Hc; by split|simpl; by rewrite Hb1, Hb2|done|by right; lia].
      match goal with |- context [flush_block ?s] => change (flush_block s) with
        (flush_block (set_encoded_record_buf (encode_record (seq r0) (ts_unix_ns r0) r) w)) end.
      rewrite Hf. rewrite encode_record_into_eq by (done || int_solve). cbv beta iota.
      eapply (push_fresh_total cfg sink0 (blocks ++ [r0 :: rs]) r); try done.
      { destruct Hc1; by split. }
      simpl. unfold encode_record. by rewrite !Z.sub_diag.
    + eapply (append_encoded_total cfg sink0 blocks (r0 :: rs) r); try done.
      { destruct Hc; by split. }
      { simpl. by rewrite Hb1, Hb2. }
      { by apply block_records_snoc. }
      apply andb_false_iff in Hflush as [Hz|Hge].
      { apply negb_false_iff, Z.eqb_eq in Hz. by apply encode_payload_nonempty in Hz. }
      apply Z.ltb_ge in Hge. lia.
Qed.

Lemma push_all_total cfg sink0 blocks pending rs (w : LogjetWriter W) :
  writer_inv cfg sink0 blocks pending w →
  StronglySorted no_earlier (concat blocks ++ pending ++ rs) → Forall valid_record rs →
  Forall (λ r, len (payload r) + 34 ≤ MAX_U32) rs →
  block_target_size cfg ≤ MAX_U32 → codec_accepts (wc_codec cfg) MAX_U32 →
  ∃ w', push_all rs w = (Ok tt, w').
Proof.
  intros Hinv Hs Hv Hl Ht Hacc. revert blocks pending w Hinv Hs.
  induction rs as [|r rs IH]; intros blocks pending w Hinv Hs; [by eexists|].
  apply Forall_cons_iff in Hv as [Hv1 Hv], Hl as [Hl1 Hl].
  destruct (push_total cfg sink0 blocks pending r w) as [w1 Hp]; try done.
  { split_and!; try done. destruct pending as [|r0 pending]; [done|].
    apply StronglySorted_app in Hs as (_ & _ & Hs). simpl in Hs.
    apply StronglySorted_inv in Hs as [_ Hs].
    rewrite Forall_app in Hs. by apply proj2, Forall_inv in Hs. }
  simpl. unfold bind. rewrite Hp.
  destruct (push_Ok cfg sink0 blocks pending r w w1 Hinv Hv1 Hp) as (bl & pe & Hinv1 & E).
  eapply IH; try done. by rewrite app_assoc, E, <- !app_assoc.
Qed.

Lemma write_log_total (sink : W) cfg rs :
  StronglySorted no_earlier rs → Forall valid_record rs →
  Forall (λ r, len (payload r) + 34 ≤ MAX_U32) rs →
  block_target_size cfg ≤ MAX_U32 → codec_accepts (wc_codec cfg) MAX_U32 →
  ∃ out, write_log sink cfg rs = Ok out.
Proof.
  intros Hs Hv Hl Ht Hacc. unfold write_log.
  pose proof (writer_inv_new sink cfg) as Hinv.
  destruct (push_all_total cfg sink [] [] rs _ Hinv Hs Hv Hl Ht Hacc) as [w Hw]. rewrite Hw.
  destruct (push_all_Ok _ _ _ _ _ _ _ Hinv Hv Hw) as (bl & pe & [Hc Hb Hp] & _).
  unfold into_inner. destruct Hp as [->|[Hrec Hlt]].
  - unfold flush_block, bind, gets. rewrite (inv_payload _ _ _ _ _ Hc). by eexists.
  - destruct (flush_block_total cfg sink bl pe w) as [w' ->]; try done; [|lia|by eexists].
    by apply bytes_encode_payload.
Qed.
End Write_total.

(** ** The theorems *)

Section Writer_theorems.
Context {EX : Externals} {EL : ExternalLaws} {W : Type} {WW : Write W} {WL : WriteLaws W}.

(** What the writer emits.  Pushing records and finishing leaves in any sink,
    after its previous content, a sequence of well-formed blocks that partition
    the records in push order; a block has one record or at most the target size,
    and the deltas of its records are relative to its first one. *)
Theorem writer_emits_blocks (sink sink' : W) cfg rs :
  Forall valid_record rs → write_log sink cfg rs = Ok sink' →
  ∃ blocks chunks, concat blocks = rs ∧
    Forall (λ rs, block_records rs ∧ block_fits cfg rs) blocks ∧
    Forall2 (is_block cfg) blocks chunks ∧ written sink' = written sink ++ concat chunks.
Proof. apply write_log_Ok. Qed.

(** Refusal.  A record whose sequence number or timestamp is below that of the
    first record of the open block is refused with an error, and the block under
    construction, the sink and the counters stay as they were. *)
Theorem push_refuses_earlier_record bseq bts r (w : LogjetWriter W) :
  block_base_seq w = Some bseq → block_base_ts_unix_ns w = Some bts →
  seq r < bseq ∨ ts_unix_ns r < bts →
  ∃ msg w', push (record_type r) (seq r) (ts_unix_ns r) (payload r) w = (Err (InvalidHeader msg), w') ∧
    inner w' = inner w ∧ payload_buf w' = payload_buf w ∧ record_count w' = record_count w ∧
    block_base_seq w' = block_base_seq w ∧ block_base_ts_unix_ns w' = block_base_ts_unix_ns w.
Proof.
  intros Hs Ht Hlt.
  destruct (push_below_base bseq bts (record_type r) (seq r) (ts_unix_ns r) (payload r) w Hs Ht Hlt)
    as [msg Hp]. by exists msg, (set_encoded_record_buf [] w).
Qed.
End Writer_theorems.
