(* ===== verification/Reader.v ===== *)
(** * The recovering block reader

    Models [src/reader.rs].  The underlying [Read + Seek] stream is a byte
    sequence with a position; the only I/O error such a stream has is
    [UnexpectedEof] from [read_exact]. *)

From S2P Require Import Prelude Format Varint.

(** ** State *)

Record ReaderConfig : Type := mkReaderConfig {
  rc_sync_marker : list Z;
  max_compressed_len : Z;
  max_uncompressed_len : Z;
}.

Definition ReaderConfig_default : ReaderConfig :=
  mkReaderConfig DEFAULT_SYNC_MARKER DEFAULT_MAX_BLOCK_SIZE DEFAULT_MAX_BLOCK_SIZE.

Record ReaderStats : Type := mkReaderStats {
  blocks_ok : Z;
  blocks_bad : Z;
  bytes_skipped : Z;
  records_ok : Z;
  total_compressed_bytes : Z;
  total_uncompressed_bytes : Z;
}.

Definition ReaderStats_default : ReaderStats := mkReaderStats 0 0 0 0 0 0.

Record LogjetReader : Type := mkReader {
  r_data : list Z;
  r_pos : nat;
  r_config : ReaderConfig;
  r_stats : ReaderStats;
  r_pending : list OwnedRecord;
}.

Definition set_pos (p : nat) (r : LogjetReader) : LogjetReader :=
  mkReader (r_data r) p (r_config r) (r_stats r) (r_pending r).
Definition set_stats (s : ReaderStats) (r : LogjetReader) : LogjetReader :=
  mkReader (r_data r) (r_pos r) (r_config r) s (r_pending r).
Definition set_pending (p : list OwnedRecord) (r : LogjetReader) : LogjetReader :=
  mkReader (r_data r) (r_pos r) (r_config r) (r_stats r) p.

Definition reader_with_config (data : list Z) (cfg : ReaderConfig) : LogjetReader :=
  mkReader data 0 cfg ReaderStats_default [].

Definition reader_new (data : list Z) : LogjetReader :=
  reader_with_config data ReaderConfig_default.

Local Abbreviation RM := (M LogjetReader Error).

(** ** Statistics: each counter is a [checked_add] on a [u64] *)

Definition bump (old delta : Z) (field : string) (upd : Z → ReaderStats → ReaderStats) : RM unit :=
  let! v := lift (ok_or (checked_add MAX_U64 old delta) (NumericOverflow field)) in
  modify (λ r, set_stats (upd v (r_stats r)) r).

Definition upd_blocks_ok v s := mkReaderStats v (blocks_bad s) (bytes_skipped s)
  (records_ok s) (total_compressed_bytes s) (total_uncompressed_bytes s).
Definition upd_blocks_bad v s := mkReaderStats (blocks_ok s) v (bytes_skipped s)
  (records_ok s) (total_compressed_bytes s) (total_uncompressed_bytes s).
Definition upd_bytes_skipped v s := mkReaderStats (blocks_ok s) (blocks_bad s) v
  (records_ok s) (total_compressed_bytes s) (total_uncompressed_bytes s).
Definition upd_records_ok v s := mkReaderStats (blocks_ok s) (blocks_bad s) (bytes_skipped s)
  v (total_compressed_bytes s) (total_uncompressed_bytes s).
Definition upd_total_compressed v s := mkReaderStats (blocks_ok s) (blocks_bad s) (bytes_skipped s)
  (records_ok s) v (total_uncompressed_bytes s).
Definition upd_total_uncompressed v s := mkReaderStats (blocks_ok s) (blocks_bad s) (bytes_skipped s)
  (records_ok s) (total_compressed_bytes s) v.

(** ** The stream *)

Definition seek (p : nat) : RM unit := modify (set_pos p).

(** [inner.read_exact(&mut [0u8; n])] *)
Definition read_exact (n : nat) : RM (list Z) :=
  λ r, if decide (r_pos r + n ≤ length (r_data r))%nat
       then (Ok (slice (r_pos r) (r_pos r + n) (r_data r)), set_pos (r_pos r + n) r)
       else (Err (Io (io_error UnexpectedEof "failed to fill whole buffer")),
             set_pos (Nat.max (r_pos r) (length (r_data r))) r).

(** ** Sync search *)

(** The byte loop of [find_next_sync]: [rest] is what the stream still holds,
    [matched] the length of the current partial match, [offset] the number of
    bytes consumed since [start]. *)
Fixpoint find_sync_loop (marker rest : list Z) (matched offset start : nat) : option nat :=
  match rest with
  | [] => None
  | candidate :: rest =>
      if candidate =? byte_at marker matched then
        if decide (S matched = length marker)
        then Some (start + offset + 1 - length marker)%nat
        else find_sync_loop marker rest (S matched) (S offset) start
      else
        find_sync_loop marker rest (if candidate =? byte_at marker 0 then 1%nat else 0%nat)
          (S offset) start
  end.

Definition find_next_sync : RM (option nat) :=
  let! start := gets r_pos in
  let! data := gets r_data in
  let! marker := gets (λ r, rc_sync_marker (r_config r)) in
  match find_sync_loop marker (drop start data) 0 0 start with
  | Some sync_start => seek sync_start ;;! ret (Some sync_start)
  | None => seek (Nat.max start (length data)) ;;! ret None
  end.

(** ** Blocks *)

Definition validate_length (field : string) (value limit : Z) : result Error unit :=
  if limit <? value then Err (LengthTooLarge field value limit) else Ok tt.

(** One turn of the loop of [parse_records]: the record at [cursor] and the
    cursor after it. *)
Definition parse_record (pl : list Z) (ext : BlockHeaderExt) (cursor : nat)
    : result Error (OwnedRecord * nat) :=
  if decide (length pl ≤ cursor)%nat then Err (Truncated "record_type") else
  let? rt := RecordType_from_u8 (byte_at pl cursor) in
  let? (seq_delta, cursor) := decode_varint pl (S cursor) in
  let? (ts_delta, cursor) := decode_varint pl cursor in
  let? (plen, cursor) := decode_varint pl cursor in
  let? plen := ok_or (try_from MAX_U64 plen) (NumericOverflow "payload_len") in
  let? stop := ok_or (checked_add MAX_U64 (Z.of_nat cursor) plen)
                 (NumericOverflow "record payload end") in
  if len pl <? stop then Err (Truncated "record payload") else
  let? sq := ok_or (checked_add MAX_U64 (base_seq ext) seq_delta) (NumericOverflow "record seq") in
  let? ts := ok_or (checked_add MAX_U64 (base_ts_unix_ns ext) ts_delta)
               (NumericOverflow "record ts") in
  Ok (mkRecord rt sq ts (slice cursor (Z.to_nat stop) pl), Z.to_nat stop).

(** [for _ in 0..record_count] *)
Fixpoint parse_loop (count : nat) (pl : list Z) (ext : BlockHeaderExt) (cursor : nat)
    : result Error (list OwnedRecord * nat) :=
  match count with
  | O => Ok ([], cursor)
  | S count =>
      let? (r, cursor) := parse_record pl ext cursor in
      let? (rs, cursor) := parse_loop count pl ext cursor in
      Ok (r :: rs, cursor)
  end.

Definition parse_records (pl : list Z) (count : Z) (ext : BlockHeaderExt)
    : result Error (list OwnedRecord) :=
  let? (rs, cursor) := parse_loop (Z.to_nat count) pl ext 0 in
  if decide (cursor = length pl) then Ok rs
  else Err (InvalidHeader "payload has trailing bytes").

Section Reader.
Context {EX : Externals}.

(** The first half of [try_read_block_at]: read and validate the frame of the
    block at [sync_start], up to the block checksum. *)
Definition read_frame (sync_start : nat) : RM (BlockHeader * BlockHeaderExt * list Z) :=
  seek sync_start ;;!
  let! sync := read_exact 8 in
  let! cfg := gets r_config in
  if negb (bool_decide (sync = rc_sync_marker cfg)) then throw (InvalidHeader "sync mismatch") else
  let! fixed := read_exact (Z.to_nat BLOCK_HEADER_FIXED_LEN) in
  let! header := lift (BlockHeader_decode fixed) in
  let hlen := bh_header_len header in
  if hlen <? BLOCK_HEADER_TOTAL_LEN then throw (HeaderTooShort hlen) else
  let! ext_len := lift (ok_or (checked_sub hlen BLOCK_HEADER_FIXED_LEN)
                         (InvalidHeader "header length underflow")) in
  if ext_len <? BLOCK_HEADER_EXT_LEN
  then throw (InvalidHeader "missing required header extension") else
  let! _ := lift (validate_length "compressed_len" (bh_compressed_len header)
                    (max_compressed_len cfg)) in
  let! _ := lift (validate_length "uncompressed_len" (bh_uncompressed_len header)
                    (max_uncompressed_len cfg)) in
  let! ext_bytes := read_exact (Z.to_nat ext_len) in
  let header_crc := compute_header_crc header ext_bytes in
  if negb (header_crc =? bh_header_crc32c header)
  then throw (HeaderCrcMismatch (bh_header_crc32c header) header_crc) else
  let! ext := lift (BlockHeaderExt_decode (take (Z.to_nat BLOCK_HEADER_EXT_LEN) ext_bytes)) in
  let! compressed := read_exact (Z.to_nat (bh_compressed_len header)) in
  let! crc_bytes := read_exact 4 in
  let expected := from_le crc_bytes in
  let actual := crc32c (fixed ++ ext_bytes ++ compressed) in
  if negb (expected =? actual) then throw (BlockCrcMismatch expected actual) else
  ret (header, ext, compressed).

(** The second half accounts for the block, decompresses and parses it. *)
Definition try_read_block_at (sync_start : nat) : RM (list OwnedRecord) :=
  let! (header, ext, compressed) := read_frame sync_start in
  let! st := gets r_stats in
  bump (total_compressed_bytes st) (bh_compressed_len header)
    "total_compressed_bytes" upd_total_compressed ;;!
  bump (total_uncompressed_bytes st) (bh_uncompressed_len header)
    "total_uncompressed_bytes" upd_total_uncompressed ;;!
  let! pl := lift (decompress (bh_codec header) compressed (bh_uncompressed_len header)) in
  lift (parse_records pl (bh_record_count header) ext).

(** ** Scanning *)

(** The loop of [scan_next_block].  A rejected candidate moves the stream past
    its first byte, so the length of the data bounds the number of turns; [None]
    is an exhausted fuel, which [scan_next_block_total] rules out. *)
Fixpoint scan_loop (fuel : nat) (scan_origin : nat) (r : LogjetReader)
    : option (result Error bool * LogjetReader) :=
  match fuel with
  | O => None
  | S fuel =>
      match find_next_sync r with
      | (Err e, r) => Some (Err e, r)
      | (Ok None, r) =>
          let eof := length (r_data r) in
          let r := set_pos eof r in
          Some ((bump (bytes_skipped (r_stats r))
                   (saturating_sub (Z.of_nat eof) (Z.of_nat scan_origin))
                   "bytes_skipped" upd_bytes_skipped ;;!
                 seek eof ;;! ret false) r)
      | (Ok (Some sync_start), r) =>
          match try_read_block_at sync_start r with
          | (Ok records, r) =>
              Some ((let! st := gets r_stats in
                     bump (blocks_ok st) 1 "blocks_ok" upd_blocks_ok ;;!
                     bump (bytes_skipped st)
                       (saturating_sub (Z.of_nat sync_start) (Z.of_nat scan_origin))
                       "bytes_skipped" upd_bytes_skipped ;;!
                     modify (λ r, set_pending (r_pending r ++ records) r) ;;!
                     ret true) r)
          | (Err (Io err), r) =>
              if decide (io_kind err = UnexpectedEof) then
                match (bump (blocks_bad (r_stats r)) 1 "blocks_bad" upd_blocks_bad ;;!
                       seek (sync_start + 1)) r with
                | (Ok _, r) => scan_loop fuel scan_origin r
                | (Err e, r) => Some (Err e, r)
                end
              else Some (Err (Io err), r)
          | (Err _, r) =>
              match (bump (blocks_bad (r_stats r)) 1 "blocks_bad" upd_blocks_bad ;;!
                     seek (sync_start + 1)) r with
              | (Ok _, r) => scan_loop fuel scan_origin r
              | (Err e, r) => Some (Err e, r)
              end
          end
      end
  end.

Definition scan_next_block (r : LogjetReader) : option (result Error bool * LogjetReader) :=
  scan_loop (2 + length (r_data r)) (r_pos r) r.

(** The loop of [next_record]: a scanned block moves the stream forward. *)
Fixpoint next_record_loop (fuel : nat) (r : LogjetReader)
    : option (result Error (option OwnedRecord) * LogjetReader) :=
  match fuel with
  | O => None
  | S fuel =>
      match r_pending r with
      | record :: rest =>
          let r := set_pending rest r in
          Some ((bump (records_ok (r_stats r)) 1 "records_ok" upd_records_ok ;;!
                 ret (Some record)) r)
      | [] =>
          match scan_next_block r with
          | Some (Ok true, r) => next_record_loop fuel r
          | Some (Ok false, r) => Some (Ok None, r)
          | Some (Err e, r) => Some (Err e, r)
          | None => None
          end
      end
  end.

Definition next_record (r : LogjetReader)
    : option (result Error (option OwnedRecord) * LogjetReader) :=
  next_record_loop (2 + length (r_data r)) r.

(** [while let Some(record) = reader.next_record()? { .. }], collecting the
    records; [fuel] bounds the number of records. *)
Fixpoint read_all (fuel : nat) (r : LogjetReader)
    : option (result Error (list OwnedRecord) * LogjetReader) :=
  match fuel with
  | O => None
  | S fuel =>
      match next_record r with
      | None => None
      | Some (Err e, r) => Some (Err e, r)
      | Some (Ok None, r) => Some (Ok [], r)
      | Some (Ok (Some record), r) =>
          match read_all fuel r with
          | Some (Ok rs, r) => Some (Ok (record :: rs), r)
          | other => other
          end
      end
  end.
End Reader.

(** ** Sync search finds the first occurrence

    Reference: the least position at which the marker is a prefix. *)

Definition has_prefix (marker l : list Z) : bool := bool_decide (take (length marker) l = marker).

Fixpoint first_occurrence (marker l : list Z) : option nat :=
  if has_prefix marker l then Some 0%nat else
  match l with
  | [] => None
  | _ :: l => S <$> first_occurrence marker l
  end.

(** The search restarts a failed match at the current byte only, which is sound
    when the first byte of the marker does not occur again inside it. *)
Definition self_avoiding (marker : list Z) : Prop :=
  marker ≠ [] ∧ ∀ i, (0 < i < length marker)%nat → byte_at marker i ≠ byte_at marker 0.

Lemma default_marker_self_avoiding : self_avoiding DEFAULT_SYNC_MARKER.
Proof.
  split; [done|]. intros i Hi. change (length DEFAULT_SYNC_MARKER) with 8%nat in Hi.
  do 8 (destruct i as [|i]; [first [lia | vm_compute; discriminate]|]). lia.
Qed.

Lemma has_prefix_true marker l :
  has_prefix marker l = true ↔ ∃ rest, l = marker ++ rest.
Proof.
  unfold has_prefix. rewrite bool_decide_eq_true. split.
  - intros Ht. exists (drop (length marker) l). rewrite <- Ht at 1. by rewrite take_drop.
  - intros [rest ->]. by rewrite take_app_length.
Qed.

Lemma first_occurrence_short marker l :
  (length l < length marker)%nat → first_occurrence marker l = None.
Proof.
  induction l as [|x l IH]; intros Hl; simpl;
    (destruct (has_prefix marker _) eqn:Hp;
     [apply has_prefix_true in Hp as [rest E]; apply (f_equal length) in E;
      rewrite length_app in E; simpl in *; lia|]); [done|].
  rewrite IH; [done|]. simpl in Hl. lia.
Qed.

Lemma first_occurrence_skip marker l k :
  (k ≤ length l)%nat →
  (∀ i, (i < k)%nat → has_prefix marker (drop i l) = false) →
  first_occurrence marker l = Nat.add k <$> first_occurrence marker (drop k l).
Proof.
  revert l. induction k as [|k IH]; intros l Hk Hno.
  - rewrite drop_0. by destruct (first_occurrence marker l).
  - destruct l as [|x l]; simpl in Hk; [lia|].
    cbn [first_occurrence drop]. rewrite (Hno 0%nat ltac:(lia)) || rewrite <- (drop_0 (x :: l)), (Hno 0%nat ltac:(lia)).
    rewrite IH by (try lia; intros i Hi; exact (Hno (S i) ltac:(lia))).
    by destruct (first_occurrence marker (drop k l)).
Qed.

Lemma first_occurrence_prefix marker l : has_prefix marker l = true → first_occurrence marker l = Some 0%nat.
Proof. intros Hp. destruct l; simpl; by rewrite Hp. Qed.

Lemma byte_at_app_l l k i : (i < length l)%nat → byte_at (l ++ k) i = byte_at l i.
Proof. intros Hi. unfold byte_at. by rewrite app_nth1. Qed.

Lemma byte_at_take l n i : (i < n)%nat → byte_at (take n l) i = byte_at l i.
Proof. unfold byte_at. revert l i. induction n; intros [|x l] [|i] Hi; simpl; try done; [lia|lia|]. apply IHn. lia. Qed.

Lemma take_S_byte_at (l : list Z) n :
  (n < length l)%nat → take (S n) l = take n l ++ [byte_at l n].
Proof.
  intros Hn. destruct (lookup_lt_is_Some_2 l n Hn) as [x Hx].
  rewrite (take_S_r _ _ _ Hx). f_equal. unfold byte_at.
  by rewrite (nth_lookup_Some l n 0 x Hx).
Qed.

Lemma has_prefix_byte_at marker l i :
  has_prefix marker l = true → (i < length marker)%nat → byte_at l i = byte_at marker i.
Proof. intros [rest ->]%has_prefix_true Hi. by apply byte_at_app_l. Qed.

Lemma byte_at_drop l n i : byte_at (drop n l) i = byte_at l (n + i).
Proof. unfold byte_at. revert l. induction n; intros [|x l]; simpl; try done; by destruct i. Qed.

(** No occurrence starts inside a partial match that the next byte breaks. *)
Lemma partial_match_no_prefix marker m c rest i :
  self_avoiding marker → (m < length marker)%nat → c ≠ byte_at marker m → (i < m)%nat ∨ i = 0%nat →
  has_prefix marker (drop i (take m marker ++ c :: rest)) = false.
Proof.
  intros [Hne Hsa] Hm Hc Hi. apply not_true_is_false. intros Hp.
  assert (length (take m marker) = m) as Hlt by (rewrite length_take; lia).
  destruct (decide (i = 0%nat)) as [->|Hi0].
  - rewrite drop_0 in Hp. apply (has_prefix_byte_at _ _ m) in Hp; [|done].
    rewrite <- Hp in Hc. apply Hc. unfold byte_at. rewrite app_nth2, Hlt, Nat.sub_diag by lia. done.
  - apply (has_prefix_byte_at _ _ 0) in Hp; [|lia].
    rewrite byte_at_drop, Nat.add_0_r, byte_at_app_l, byte_at_take in Hp by lia.
    apply (Hsa i); [lia|done].
Qed.

Lemma find_sync_loop_spec marker rest m offset start :
  self_avoiding marker → (m < length marker)%nat → (m ≤ offset)%nat →
  find_sync_loop marker rest m offset start =
    Nat.add (start + offset - m) <$> first_occurrence marker (take m marker ++ rest).
Proof.
  intros Hsa. pose proof Hsa as [Hne _]. revert m offset.
  induction rest as [|c rest IH]; intros m offset Hm Ho; simpl.
  - rewrite first_occurrence_short; [done|]. rewrite app_nil_r, length_take. lia.
  - destruct (Z.eqb_spec c (byte_at marker m)) as [->|Hc].
    + assert (take m marker ++ byte_at marker m :: rest = take (S m) marker ++ rest) as ->.
      { by rewrite take_S_byte_at, <- app_assoc by done. }
      case_decide as Hl.
      * rewrite first_occurrence_prefix; [simpl; f_equal; lia|].
        apply has_prefix_true. exists rest. by rewrite Hl, firstn_all.
      * rewrite IH by lia. by replace (start + S offset - S m)%nat with (start + offset - m)%nat by lia.
    + destruct (Z.eqb_spec c (byte_at marker 0)) as [->|Hc0].
      * assert (0 < m)%nat as Hm0 by (destruct m; [done|lia]).
        rewrite IH by lia.
        rewrite (first_occurrence_skip marker (take m marker ++ _) m).
        { replace (drop m _) with (byte_at marker 0 :: rest).
          2:{ rewrite drop_app_ge by (rewrite length_take; lia). rewrite length_take.
              by replace (m - m `min` length marker)%nat with 0%nat by lia. }
          replace (take 1 marker ++ rest) with (byte_at marker 0 :: rest)
            by (destruct marker; done).
          destruct (first_occurrence _ _); simpl; f_equal; lia. }
        { rewrite length_app, length_take. lia. }
        intros i Hi. apply partial_match_no_prefix; auto.
      * rewrite IH by lia.
        rewrite (first_occurrence_skip marker (take m marker ++ _) (S m)).
        { replace (drop (S m) _) with rest.
          2:{ rewrite drop_app_ge by (rewrite length_take; lia). rewrite length_take.
              by replace (S m - m `min` length marker)%nat with 1%nat by lia. }
          rewrite take_0. simpl. destruct (first_occurrence _ _); simpl; f_equal; lia. }
        { rewrite length_app, length_take. simpl. lia. }
        intros i Hi. destruct (decide (i = m)) as [->|].
        { destruct (decide (m = 0%nat)) as [->|]; [apply partial_match_no_prefix; auto|].
          apply not_true_is_false. intros Hp. apply (has_prefix_byte_at _ _ 0) in Hp; [|lia].
          rewrite byte_at_drop in Hp. unfold byte_at in Hp at 1.
          rewrite app_nth2, length_take in Hp by (rewrite length_take; lia).
          replace (m + 0 - m `min` length marker)%nat with 0%nat in Hp by lia. done. }
        apply partial_match_no_prefix; auto. left. lia.
Qed.

(** ** Frames *)

(** The reader moved and nothing else changed. *)
Definition moved (r r' : LogjetReader) : Prop := ∃ q, r' = set_pos q r.

#[export] Instance moved_preorder : PreOrder moved.
Proof.
  split.
  - intros r. exists (r_pos r). by destruct r.
  - intros r1 r2 r3 [q2 ->] [q3 ->]. by exists q3.
Qed.

Lemma preserves_seek p : preserves moved (seek p).
Proof. intros r. by exists p. Qed.
Lemma preserves_read_exact n : preserves moved (read_exact n).
Proof. intros r. unfold read_exact. case_decide; eexists; done. Qed.
#[export] Hint Resolve preserves_seek preserves_read_exact moved_preorder : preserves.

Lemma read_exact_Ok n r l r' :
  read_exact n r = (Ok l, r') →
  l = slice (r_pos r) (r_pos r + n) (r_data r) ∧ length l = n ∧
  r' = set_pos (r_pos r + n) r ∧ (r_pos r + n ≤ length (r_data r))%nat.
Proof.
  unfold read_exact. case_decide; intros; inv_res.
  split_and!; try done. unfold slice. rewrite length_take, length_drop. lia.
Qed.

Lemma slice_append (l : list Z) a b c :
  (a ≤ b ≤ c)%nat → slice a b l ++ slice b c l = slice a c l.
Proof.
  intros H. unfold slice. replace (drop b l) with (drop (b - a) (drop a l))
    by (rewrite drop_drop; f_equal; lia).
  rewrite take_take_drop. f_equal. lia.
Qed.

Lemma bytes_slice a b l : bytes l → bytes (slice a b l).
Proof. intros Hl. unfold slice. by apply Forall_take, Forall_drop. Qed.

Section Frame_facts.
Context {EX : Externals}.

Lemma read_frame_moves p : preserves moved (read_frame p).
Proof.
  unfold read_frame. auto 30 with preserves.
Qed.

(** The bytes of [data] between [p] and [q] are a frame with header [h], header
    extension bytes [x] that decode to [e], and compressed payload [c], whose
    checksums match and whose sizes respect the limits of [cfg]. *)
Record frame_at (cfg : ReaderConfig) (data : list Z) (p q : nat) (h : BlockHeader)
    (x : list Z) (e : BlockHeaderExt) (c : list Z) : Prop := {
  fa_range : (p < q ≤ length data)%nat;
  fa_bytes : slice p q data = rc_sync_marker cfg ++ BlockHeader_encode h ++ x ++ c ++
               to_le 4 (crc32c (BlockHeader_encode h ++ x ++ c));
  fa_header : wf_header h;
  fa_header_crc : bh_header_crc32c h = compute_header_crc h x;
  fa_ext : BlockHeaderExt_decode (take 16 x) = Ok e;
  fa_ext_len : len x = bh_header_len h - BLOCK_HEADER_FIXED_LEN;
  fa_compressed : len c = bh_compressed_len h;
  fa_limits : bh_compressed_len h ≤ max_compressed_len cfg ∧
              bh_uncompressed_len h ≤ max_uncompressed_len cfg;
}.

(** Only frames pass validation. *)
Lemma read_frame_Ok p r h e c r' :
  bytes (r_data r) → read_frame p r = (Ok (h, e, c), r') →
  ∃ x q, r' = set_pos q r ∧ frame_at (r_config r) (r_data r) p q h x e c.
Proof.
  intros Hb Hr. unfold read_frame in Hr. mon_inv.
  repeat match goal with
  | Hx : bind _ _ _ = (Ok _, _) |- _ => apply bind_Ok in Hx as (? & ? & ? & Hx)
  | Hx : (if negb ?b then _ else _) _ = (Ok _, _) |- _ => destruct b eqn:?; [cbn [negb] in Hx|done]
  | Hx : (if ?b then throw _ else _) _ = (Ok _, _) |- _ => destruct b eqn:?; [done|]
  | Hx : read_exact _ _ = (Ok _, _) |- _ =>
      apply read_exact_Ok in Hx as (? & ? & ? & ?); subst
  | Hx : seek _ _ = (Ok _, _) |- _ => unfold seek in Hx
  | _ => progress mon_inv
  | _ => progress cbn [set_pos r_pos r_data r_config] in *
  end.
  match goal with Hx : (h, e, c) = _ |- _ => injection Hx as -> -> -> end.
  unfold validate_length in *.
  repeat match goal with
  | Hx : (if ?b then _ else _) = Ok _ |- _ => destruct b eqn:?; [done|]
  | Hx : bool_decide _ = true |- _ => apply bool_decide_eq_true in Hx
  | Hx : (_ =? _) = true |- _ => apply Z.eqb_eq in Hx
  | Hx : (_ <? _) = false |- _ => apply Z.ltb_ge in Hx
  end.
  set (p1 := (p + 8)%nat) in *. set (p2 := (p1 + Z.to_nat BLOCK_HEADER_FIXED_LEN)%nat) in *.
  set (p3 := (p2 + Z.to_nat _)%nat) in *. set (p4 := (p3 + Z.to_nat _)%nat) in *.
  edestruct (BlockHeader_encode_decode (slice p1 p2 (r_data r))) as [Hwf Henc];
    [by apply bytes_slice|done|done|].
  exists (slice p2 p3 (r_data r)), (p4 + 4)%nat. split; [done|].
  assert (slice p4 (p4 + 4) (r_data r) = to_le 4 (crc32c (slice p1 p2 (r_data r) ++
    slice p2 p3 (r_data r) ++ slice p3 p4 (r_data r)))) as Hcrc.
  { match goal with Hx : from_le _ = crc32c _ |- _ => rewrite <- Hx end.
    pose proof (to_le_from_le (slice p4 (p4 + 4) (r_data r)) ltac:(by apply bytes_slice)) as Hle.
    match goal with Hx : length (slice p4 _ _) = _ |- _ => by rewrite Hx in Hle end. }
  pose proof Hwf as (_ & _ & _ & _ & _ & Hc32 & _).
  split; rewrite ?Henc; try done.
  - lia.
  - rewrite <- Hcrc. match goal with Hx : slice p p1 _ = _ |- _ => rewrite <- Hx end.
    rewrite !slice_append by lia. done.
  - unfold len. match goal with Hx : length (slice p2 p3 _) = _ |- _ => rewrite Hx end. lia.
  - unfold len. match goal with Hx : length (slice p3 p4 _) = _ |- _ => rewrite Hx end. int_solve.
Qed.
Lemma read_exact_at pre x post n r :
  r_data r = pre ++ x ++ post → r_pos r = length pre → n = length x →
  read_exact n r = (Ok x, set_pos (length (pre ++ x)) r).
Proof.
  intros Hd Hp ->. unfold read_exact. rewrite Hp, Hd.
  case_decide as Hlt; [|rewrite !length_app in Hlt; lia].
  unfold slice. rewrite drop_app_length, length_app.
  replace (length pre + length x - length pre)%nat with (length x) by lia.
  by rewrite take_app_length.
Qed.

(** Every frame passes validation. *)
Lemma read_frame_complete p q h x e c r :
  frame_at (r_config r) (r_data r) p q h x e c →
  length (rc_sync_marker (r_config r)) = 8%nat → BLOCK_HEADER_TOTAL_LEN ≤ bh_header_len h →
  is_u32 (crc32c (BlockHeader_encode h ++ x ++ c)) →
  read_frame p r = (Ok (h, e, c), set_pos q r).
Proof.
  intros [Hr Hb Hwf Hhc He Hx Hc [Hl1 Hl2]] Hm Hh Hcrc.
  set (m := rc_sync_marker (r_config r)) in *. set (k := to_le 4 _) in Hb.
  assert (r_data r = take p (r_data r) ++ m ++ BlockHeader_encode h ++ x ++ c ++ k ++
    drop q (r_data r)) as Hd.
  { rewrite <- (take_drop p (r_data r)) at 1. f_equal.
    rewrite <- (take_drop (q - p) (drop p (r_data r))), drop_drop.
    unfold slice in Hb. rewrite Hb, <- !app_assoc. do 5 f_equal. f_equal. lia. }
  assert (length (take p (r_data r)) = p) as Hp by (rewrite length_take; lia).
  assert (q = (p + 8 + 24 + length x + length c + 4)%nat) as Hq.
  { apply (f_equal length) in Hb. unfold slice in Hb.
    rewrite length_take, length_drop, !length_app, Hm, length_BlockHeader_encode in Hb.
    change (length k) with 4%nat in Hb. lia. }
  unfold read_frame, bind at 1, seek at 1, modify.
  unfold bind at 1. rewrite (read_exact_at (take p (r_data r)) m _ 8 (set_pos p r) Hd) by done.
  unfold bind at 1, gets. simpl r_config. rewrite bool_decide_eq_true_2 by done. cbn [negb].
  unfold bind at 1.
  erewrite (read_exact_at (take p (r_data r) ++ m) (BlockHeader_encode h));
    [|simpl; rewrite Hd at 1; by rewrite <- !app_assoc|done|done].
  unfold bind at 1, lift at 1.
  rewrite <- (app_nil_r (BlockHeader_encode h)) at 1. rewrite BlockHeader_decode_encode by done.
  cbv zeta.
  destruct (Z.ltb_spec (bh_header_len h) BLOCK_HEADER_TOTAL_LEN); [lia|].
  unfold bind at 1, lift at 1, checked_sub.
  destruct (Z.leb_spec BLOCK_HEADER_FIXED_LEN (bh_header_len h));
    [cbn [ok_or]|unfold BLOCK_HEADER_TOTAL_LEN, BLOCK_HEADER_EXT_LEN in *; lia].
  rewrite <- Hx. destruct (Z.ltb_spec (len x) BLOCK_HEADER_EXT_LEN) as [Hbad|_].
  { rewrite Hx in Hbad. unfold BLOCK_HEADER_TOTAL_LEN in *. lia. }
  change (r_config (set_pos _ (set_pos _ r))) with (r_config r).
  unfold bind at 1, lift at 1, validate_length.
  destruct (Z.ltb_spec (max_compressed_len (r_config r)) (bh_compressed_len h)); [lia|].
  unfold bind at 1, lift at 1, validate_length.
  destruct (Z.ltb_spec (max_uncompressed_len (r_config r)) (bh_uncompressed_len h)); [lia|].
  unfold bind at 1.
  erewrite (read_exact_at ((take p (r_data r) ++ m) ++ BlockHeader_encode h) x);
    [|simpl; rewrite Hd at 1; by rewrite <- !app_assoc|done|unfold len; lia].
  rewrite <- Hhc, Z.eqb_refl. cbn [negb].
  unfold bind at 1, lift at 1. change (Z.to_nat BLOCK_HEADER_EXT_LEN) with 16%nat. rewrite He.
  unfold bind at 1.
  erewrite (read_exact_at (((take p (r_data r) ++ m) ++ BlockHeader_encode h) ++ x) c);
    [|simpl; rewrite Hd at 1; by rewrite <- !app_assoc|done|unfold len in Hc; lia].
  unfold bind at 1.
  erewrite (read_exact_at ((((take p (r_data r) ++ m) ++ BlockHeader_encode h) ++ x) ++ c) k);
    [|simpl; rewrite Hd at 1; by rewrite <- !app_assoc|done|done].
  unfold k at 1. rewrite from_le_to_le_u32, Z.eqb_refl by done. cbn [negb].
  rewrite !length_app, Hp, Hm, length_BlockHeader_encode. change (length k) with 4%nat.
  rewrite Hq. reflexivity.
Qed.
End Frame_facts.

(** ** Parsing consumes input *)

Lemma decode_varint_loop_cursor rest cursor acc shift v c :
  decode_varint_loop rest cursor acc shift = Ok (v, c) → (cursor < c)%nat.
Proof.
  revert cursor acc shift. induction rest as [|b rest IH]; intros cursor acc shift Hd; [done|].
  cbn [decode_varint_loop] in Hd. destruct (_ =? 0); [inv_res; lia|].
  destruct (64 <=? _); [done|]. apply IH in Hd. lia.
Qed.

Lemma decode_varint_cursor bs cursor v c : decode_varint bs cursor = Ok (v, c) → (cursor < c)%nat.
Proof. apply decode_varint_loop_cursor. Qed.

Lemma parse_record_cursor pl ext cursor r c :
  parse_record pl ext cursor = Ok (r, c) → (cursor < c ≤ length pl)%nat.
Proof.
  unfold parse_record. case_decide; [done|]. intros Hp.
  destruct (RecordType_from_u8 _); [|done].
  destruct (decode_varint pl (S cursor)) as [[d1 c1]|] eqn:E1; [|done].
  destruct (decode_varint pl c1) as [[d2 c2]|] eqn:E2; [|done].
  destruct (decode_varint pl c2) as [[d3 c3]|] eqn:E3; [|done].
  apply decode_varint_cursor in E1, E2, E3.
  destruct (try_from MAX_U64 d3) as [n|] eqn:En; [|done]. simpl in Hp.
  apply try_from_Some in En as [-> Hn].
  destruct (checked_add MAX_U64 (Z.of_nat c3) d3) as [stop|] eqn:Es; [|done]. simpl in Hp.
  apply checked_add_Some in Es as [-> _].
  destruct (Z.ltb_spec (len pl) (Z.of_nat c3 + d3)); [done|].
  destruct (checked_add _ (base_seq ext) d1); [|done]. simpl in Hp.
  destruct (checked_add _ (base_ts_unix_ns ext) d2); [|done]. simpl in Hp. inv_res.
  unfold len in *. unfold in_width in Hn. lia.
Qed.

Lemma parse_loop_cursor n pl ext cursor rs c :
  parse_loop n pl ext cursor = Ok (rs, c) → (cursor + length rs ≤ c)%nat ∧ length rs = n.
Proof.
  revert cursor rs. induction n as [|n IH]; intros cursor rs Hp; simpl in Hp; [by inv_res; simpl; lia|].
  destruct (parse_record pl ext cursor) as [[r c1]|] eqn:E1; [|done].
  destruct (parse_loop n pl ext c1) as [[rs' c2]|] eqn:E2; [|done]. inv_res.
  apply parse_record_cursor in E1. apply IH in E2 as [? ?]. simpl. lia.
Qed.

(** A block cannot hold more records than its payload has bytes. *)
Lemma parse_records_len pl n e rs : parse_records pl n e = Ok rs → len rs ≤ len pl.
Proof.
  unfold parse_records. destruct (parse_loop _ _ _ _) as [[rs' c]|] eqn:E; [|done].
  case_decide; [|done]. intros. inv_res. apply parse_loop_cursor in E as [? _]. unfold len. lia.
Qed.
