(* ===== verification/Instances.v ===== *)
(** * Concrete instances of the external code

    The CRC-32C polynomial computed bit by bit, and stored (uncompressed)
    stand-ins for the compressors: they satisfy [ExternalLaws], so the theorems
    stated against the laws are not vacuous, and the definitions evaluate. *)

From S2P Require Import Prelude Format.

(** One bit of the reflected CRC-32C shift register. *)
Definition crc_bit (crc : Z) : Z :=
  if Z.testbit crc 0 then Z.lxor (Z.shiftr crc 1) 0x82F63B78 else Z.shiftr crc 1.

Definition crc_byte (crc b : Z) : Z :=
  Nat.iter 8 crc_bit (Z.lxor crc (Z.land b 0xff)).

Definition crc32c_bitwise (bs : list Z) : Z :=
  Z.lxor (foldl crc_byte 0xFFFFFFFF bs) 0xFFFFFFFF mod 2 ^ 32.

Definition stored_decompress (bs : list Z) (n : Z) : result string (list Z) :=
  if len bs <=? n then Ok bs else Err "output too small".

Definition stored_externals : Externals := {|
  crc32c_crate := crc32c_bitwise;
  lz4_block_compress bs := bs;
  lz4_block_decompress := stored_decompress;
  zstd_bulk_compress bs _ := Ok bs;
  zstd_bulk_decompress := stored_decompress;
|}.

Lemma stored_laws : @ExternalLaws stored_externals.
Proof.
  split; simpl.
  - intros bs. unfold crc32c_bitwise.
    pose proof (Z.mod_pos_bound (Z.lxor (foldl crc_byte 0xFFFFFFFF bs) 0xFFFFFFFF) (2 ^ 32)).
    int_solve.
  - done.
  - intros bs _. unfold stored_decompress. by rewrite Z.leb_refl.
  - intros. by inv_res.
  - intros bs _ cs _ Hc. inv_res. unfold stored_decompress. by rewrite Z.leb_refl.
  - intros cs n bs. unfold stored_decompress.
    destruct (Z.leb_spec (len cs) n); intros; by inv_res.
Qed.

(** The check value of the CRC catalogue: the nine bytes [123456789]. *)
Example crc32c_check_value : @crc32c stored_externals (str "123456789") = 0xE3069283.
Proof. vm_compute. reflexivity. Qed.

(** A codec that shrinks: an input of equal bytes is stored as one byte. *)
Definition rle_compress (bs : list Z) : list Z :=
  match bs with
  | b :: _ => if bool_decide (bs = replicate (length bs) b) then [1; b] else 0 :: bs
  | [] => [0]
  end.

Definition rle_decompress (bs : list Z) (n : Z) : result string (list Z) :=
  match bs with
  | [1; b] => Ok (replicate (Z.to_nat n) b)
  | 0 :: bs => if len bs <=? n then Ok bs else Err "output too small"
  | _ => Err "malformed"
  end.

Definition rle_externals : Externals := {|
  crc32c_crate := crc32c_bitwise;
  lz4_block_compress := rle_compress;
  lz4_block_decompress := rle_decompress;
  zstd_bulk_compress bs _ := Ok bs;
  zstd_bulk_decompress := stored_decompress;
|}.

Lemma rle_laws : @ExternalLaws rle_externals.
Proof.
  destruct stored_laws as [H1 _ _ H4 H5 H6]. split; [exact H1| | |exact H4|exact H5|exact H6].
  - intros [|b bs] Hb; simpl; [by constructor|].
    apply Forall_cons_iff in Hb as Hb'. case_bool_decide; repeat constructor; try apply Hb'; done.
  - intros [|b bs] Hb; simpl; [done|].
    case_bool_decide as E.
    + unfold rle_decompress, len. rewrite Nat2Z.id. by rewrite E at 2.
    + unfold rle_decompress. by rewrite Z.leb_refl.
Qed.
