(* ===== verification/Scan.v ===== *)
(** * What the reader delivers

    A declarative account of the reader: which positions of a byte sequence hold
    a valid block ([block_at]), which sequence of blocks a scan from a position
    delivers ([readable]), and the theorem that the reading loop delivers
    exactly those records, whatever garbage lies between the blocks. *)

From S2P Require Import Prelude Format Varint Reader.

Section Blocks.
Context {EX : Externals}.

(** A valid block with records [rs] lies between [p] and [q]. *)
Definition block_at (cfg : ReaderConfig) (data : list Z) (p q : nat) (rs : list OwnedRecord) : Prop :=
  ∃ h x e c pl,
    frame_at cfg data p q h x e c ∧ BLOCK_HEADER_TOTAL_LEN ≤ bh_header_len h ∧
    decompress (bh_codec h) c (bh_uncompressed_len h) = Ok pl ∧
    parse_records pl (bh_record_count h) e = Ok rs.

Definition rejected (cfg : ReaderConfig) (data : list Z) (p : nat) : Prop :=
  ∀ q rs, ¬ block_at cfg data p q rs.

Definition occurs (cfg : ReaderConfig) (data : list Z) (p : nat) : Prop :=
  has_prefix (rc_sync_marker cfg) (drop p data) = true.

(** Reading from [p], all sync candidates before the next valid block are
    rejected, and so on until no candidate is left. *)
Inductive readable (cfg : ReaderConfig) (data : list Z) : nat → list (list OwnedRecord) → Prop :=
| readable_end p :
    (∀ t, (p ≤ t)%nat → occurs cfg data t → rejected cfg data t) →
    readable cfg data p []
| readable_block p s q rs blocks :
    (p ≤ s)%nat →
    (∀ t, (p ≤ t < s)%nat → occurs cfg data t → rejected cfg data t) →
    block_at cfg data s q rs →
    readable cfg data q blocks →
    readable cfg data p (rs :: blocks).
End Blocks.

(** ** First occurrences and occurrences *)

Lemma first_occurrence_Some marker l k :
  marker ≠ [] → first_occurrence marker l = Some k →
  has_prefix marker (drop k l) = true ∧ ∀ i, (i < k)%nat → has_prefix marker (drop i l) = false.
Proof.
  intros Hne. revert k. induction l as [|x l IH]; intros k Hk; simpl in Hk.
  - destruct (has_prefix marker []) eqn:Hp; [|done]. injection Hk as <-.
    by split; [|lia].
  - destruct (has_prefix marker (x :: l)) eqn:Hp.
    + injection Hk as <-. by split; [|lia].
    + destruct (first_occurrence marker l) as [k'|] eqn:Hl; [|done]. injection Hk as <-.
      destruct (IH _ eq_refl) as [H1 H2]. split; [done|].
      intros [|i] Hi; [done|]. apply H2. lia.
Qed.

Lemma first_occurrence_None marker l i :
  marker ≠ [] → first_occurrence marker l = None → has_prefix marker (drop i l) = false.
Proof.
  intros Hne. revert i. induction l as [|x l IH]; intros i Hk; simpl in Hk.
  - rewrite drop_nil. destruct (has_prefix marker []) eqn:Hp; done.
  - destruct (has_prefix marker (x :: l)) eqn:Hp; [done|].
    destruct (first_occurrence marker l) eqn:Hl; [done|]. destruct i as [|i]; [done|]. by apply IH.
Qed.

(** ** Bookkeeping

    With fewer than 2^32 bytes of data none of the [u64] counters can overflow. *)

Record stats_ok (r : LogjetReader) : Prop := {
  so_nonneg : 0 ≤ blocks_ok (r_stats r) ∧ 0 ≤ blocks_bad (r_stats r) ∧
    0 ≤ bytes_skipped (r_stats r) ∧ 0 ≤ records_ok (r_stats r) ∧
    0 ≤ total_compressed_bytes (r_stats r) ∧ 0 ≤ total_uncompressed_bytes (r_stats r);
  so_attempts : blocks_ok (r_stats r) + blocks_bad (r_stats r) ≤ Z.of_nat (r_pos r);
  so_compressed : total_compressed_bytes (r_stats r) ≤
    MAX_U32 * (blocks_ok (r_stats r) + blocks_bad (r_stats r));
  so_uncompressed : total_uncompressed_bytes (r_stats r) ≤
    MAX_U32 * (blocks_ok (r_stats r) + blocks_bad (r_stats r));
  so_records : records_ok (r_stats r) + len (r_pending r) ≤ total_uncompressed_bytes (r_stats r);
  so_pos : (r_pos r ≤ length (r_data r))%nat;
  so_small : len (r_data r) < MAX_U32;
  so_bytes : bytes (r_data r);
  so_marker : self_avoiding (rc_sync_marker (r_config r)) ∧
    length (rc_sync_marker (r_config r)) = 8%nat;
}.

Lemma bump_eq old delta field upd r :
  old + delta ≤ MAX_U64 →
  bump old delta field upd r = (Ok tt, set_stats (upd (old + delta) (r_stats r)) r).
Proof.
  intros Hle. unfold bump, bind, lift, modify, checked_add.
  by destruct (Z.leb_spec (old + delta) MAX_U64); [|lia].
Qed.

Lemma stats_ok_new data cfg :
  len data < MAX_U32 → bytes data → self_avoiding (rc_sync_marker cfg) →
  length (rc_sync_marker cfg) = 8%nat → stats_ok (reader_with_config data cfg).
Proof. intros. split; simpl; try done; lia. Qed.

(** ** Errors of [try_read_block_at]: the only I/O error is the end of the stream *)

Definition recoverable (e : Error) : Prop :=
  match e with Io err => io_kind err = UnexpectedEof | _ => True end.

Lemma recoverable_decode_varint bs c : fails recoverable (decode_varint bs c).
Proof.
  unfold decode_varint. generalize (drop c bs) as rest. intros rest. generalize 0 at 1 as acc.
  generalize 0 as shift. revert c.
  induction rest as [|b rest IH]; intros c shift acc e He; cbn [decode_varint_loop] in He; [by inv_res|].
  destruct (_ =? 0); [by inv_res|]. destruct (64 <=? _); [by inv_res|]. by eapply IH.
Qed.

Lemma recoverable_parse_record pl ext c : fails recoverable (parse_record pl ext c).
Proof.
  intros e. unfold parse_record. case_decide; [by intros; inv_res|].
  destruct (RecordType_from_u8 _) as [rt|e1] eqn:E.
  2:{ intros He. inv_res. unfold RecordType_from_u8 in E.
      destruct (byte_at pl c) as [|z|z]; [by inv_res| |by inv_res].
      repeat (destruct z as [z|z|]; try by inv_res). }
  destruct (decode_varint pl (S c)) as [[d1 c1]|e1] eqn:E1;
    [|intros; inv_res; by eapply recoverable_decode_varint].
  destruct (decode_varint pl c1) as [[d2 c2]|e1] eqn:E2;
    [|intros; inv_res; by eapply recoverable_decode_varint].
  destruct (decode_varint pl c2) as [[d3 c3]|e1] eqn:E3;
    [|intros; inv_res; by eapply recoverable_decode_varint].
  destruct (try_from _ _); simpl; [|by intros; inv_res].
  destruct (checked_add _ _ _); simpl; [|by intros; inv_res].
  destruct (_ <? _); [by intros; inv_res|].
  do 2 (destruct (checked_add _ _ _); simpl; [|by intros; inv_res]). by intros.
Qed.

Lemma recoverable_parse_records pl n ext : fails recoverable (parse_records pl n ext).
Proof.
  intros e. unfold parse_records. destruct (parse_loop _ _ _ _) as [[rs c]|e1] eqn:E.
  - case_decide; intros; by inv_res.
  - intros. inv_res. revert E. generalize (Z.to_nat n) as k. intros k.
    generalize 0%nat as cur. induction k as [|k IH]; intros cur Hp; simpl in Hp; [done|].
    destruct (parse_record pl ext cur) as [[r c1]|e2] eqn:E1.
    + destruct (parse_loop k pl ext c1) as [[rs c2]|e2] eqn:E2; [done|]. inv_res. by eapply IH.
    + inv_res. by eapply recoverable_parse_record.
Qed.

Lemma recoverable_header bs : fails recoverable (BlockHeader_decode bs).
Proof.
  intros e. unfold BlockHeader_decode. destruct (_ <? _); [by intros; inv_res|].
  destruct (negb _); [by intros; inv_res|].
  destruct (Codec_from_u8 (byte_at bs 1)) as [c|e1] eqn:E; [done|]. intros. inv_res.
  unfold Codec_from_u8 in E. destruct (byte_at bs 1) as [|z|z]; [by inv_res| |by inv_res].
  repeat (destruct z as [z|z|]; try by inv_res).
Qed.

Lemma recoverable_ext bs : fails recoverable (BlockHeaderExt_decode bs).
Proof. intros e. unfold BlockHeaderExt_decode. destruct (_ <? _); intros; by inv_res. Qed.

Lemma recoverable_length f v l : fails recoverable (validate_length f v l).
Proof. intros e. unfold validate_length. destruct (_ <? _); intros; by inv_res. Qed.

Lemma recoverable_read_exact n : raises recoverable (read_exact n).
Proof. intros r e r'. unfold read_exact. case_decide; intros; by inv_res. Qed.

#[export] Hint Resolve recoverable_header recoverable_ext recoverable_length
  recoverable_read_exact recoverable_parse_records : raises.
#[export] Hint Extern 1 (recoverable _) => exact I : raises.

Section Try_read.
Context {EX : Externals} {EL : ExternalLaws}.

Lemma recoverable_decompress c input n : fails recoverable (decompress c input n).
Proof.
  intros e. destruct c; simpl.
  - destruct (negb _); intros; by inv_res.
  - destruct (lz4_block_decompress input n) as [d|]; simpl; [|by intros; inv_res].
    destruct (negb _); intros; by inv_res.
  - destruct (zstd_bulk_decompress input n) as [d|]; simpl; intros; by inv_res.
Qed.

Lemma read_frame_recoverable p : raises recoverable (read_frame p).
Proof. unfold read_frame, seek. auto 40 with raises. Qed.

(** The accounting of a block that passed validation. *)
Definition account (h : BlockHeader) (s : ReaderStats) : ReaderStats :=
  upd_total_uncompressed (total_uncompressed_bytes s + bh_uncompressed_len h)
    (upd_total_compressed (total_compressed_bytes s + bh_compressed_len h) s).

Lemma stats_room r :
  stats_ok r →
  blocks_ok (r_stats r) + 1 ≤ MAX_U64 ∧ blocks_bad (r_stats r) + 1 ≤ MAX_U64 ∧
  total_compressed_bytes (r_stats r) + MAX_U32 ≤ MAX_U64 ∧
  total_uncompressed_bytes (r_stats r) + MAX_U32 ≤ MAX_U64 ∧
  records_ok (r_stats r) + len (r_pending r) + MAX_U32 ≤ MAX_U64.
Proof.
  intros [Hn Ha Hc Hu Hr Hp Hs _ _]. unfold len in Hs. unfold MAX_U32, MAX_U64 in *. nia.
Qed.

Lemma try_read_eq p r h e c q :
  stats_ok r → wf_header h → read_frame p r = (Ok (h, e, c), set_pos q r) →
  try_read_block_at p r =
    (let? pl := decompress (bh_codec h) c (bh_uncompressed_len h) in
     parse_records pl (bh_record_count h) e,
     set_stats (account h (r_stats r)) (set_pos q r)).
Proof.
  intros Hok Hwf Hf. destruct (stats_room r Hok) as (_ & _ & H1 & H2 & _).
  destruct Hwf as (_ & _ & _ & _ & Hu & Hc & _).
  unfold try_read_block_at, bind at 1. rewrite Hf. unfold bind at 1, gets.
  unfold bind at 1. rewrite bump_eq by (simpl; int_solve).
  unfold bind at 1. rewrite bump_eq by (simpl; int_solve).
  unfold bind, lift. destruct (decompress _ _ _); done.
Qed.

(** Completeness: a valid block is accepted. *)
Lemma try_read_block p q rs r :
  stats_ok r → block_at (r_config r) (r_data r) p q rs →
  ∃ h, wf_header h ∧ len rs ≤ bh_uncompressed_len h ∧ (p < q ≤ length (r_data r))%nat ∧
    try_read_block_at p r = (Ok rs, set_stats (account h (r_stats r)) (set_pos q r)).
Proof.
  intros Hok (h & x & e & c & pl & Hf & Hh & Hd & Hp).
  destruct (so_marker _ Hok) as [_ Hm8].
  pose proof (read_frame_complete _ _ _ _ _ _ _ Hf Hm8 Hh (crc32c_u32 _)) as Hrf.
  exists h. split; [apply Hf|]. split.
  { apply parse_records_len in Hp. apply decompress_len in Hd. lia. }
  split; [apply Hf|]. erewrite try_read_eq; [|done|apply Hf|done]. by rewrite Hd, Hp.
Qed.

Lemma frame_header_len cfg data p q h x e c :
  frame_at cfg data p q h x e c → BLOCK_HEADER_TOTAL_LEN ≤ bh_header_len h.
Proof.
  intros Hfa. pose proof (fa_ext _ _ _ _ _ _ _ _ Hfa) as He. unfold BlockHeaderExt_decode in He.
  destruct (Z.ltb_spec (len (take 16 x)) BLOCK_HEADER_EXT_LEN); [done|].
  pose proof (fa_ext_len _ _ _ _ _ _ _ _ Hfa). unfold len in *. rewrite length_take in *.
  unfold BLOCK_HEADER_TOTAL_LEN, BLOCK_HEADER_EXT_LEN in *. lia.
Qed.

(** Soundness: what is accepted is a valid block; a rejected candidate leaves a
    recoverable error, the same data and pending records, and at most the size
    of one block added to the totals. *)
Lemma try_read_rejected p r :
  stats_ok r → rejected (r_config r) (r_data r) p →
  ∃ err q' s, try_read_block_at p r = (Err err, set_stats s (set_pos q' r)) ∧ recoverable err ∧
    (s = r_stats r ∨ ∃ h, wf_header h ∧ s = account h (r_stats r)).
Proof.
  intros Hok Hrej.
  destruct (read_frame p r) as [[[[h e] c]|err] r1] eqn:Hf.
  - destruct (read_frame_Ok _ _ _ _ _ _ (so_bytes _ Hok) Hf) as (x & q & -> & Hfa).
    pose proof (frame_header_len _ _ _ _ _ _ _ _ Hfa) as Hh.
    pose proof (fa_header _ _ _ _ _ _ _ _ Hfa) as Hwf.
    rewrite (try_read_eq _ _ _ _ _ _ Hok Hwf Hf).
    destruct (decompress (bh_codec h) c (bh_uncompressed_len h)) as [pl|err] eqn:Hd.
    + destruct (parse_records pl (bh_record_count h) e) as [rs|err] eqn:Hp.
      * exfalso. apply (Hrej q rs). by exists h, x, e, c, pl.
      * exists err, q, (account h (r_stats r)). split_and!; [done|by eapply recoverable_parse_records|eauto].
    + exists err, q, (account h (r_stats r)). split_and!; [done|by eapply recoverable_decompress|eauto].
  - pose proof (read_frame_moves p r) as [q' Hq']. rewrite Hf in Hq'. simpl in Hq'. subst r1.
    exists err, q', (r_stats r). split_and!; [|by eapply read_frame_recoverable|by left].
    unfold try_read_block_at, bind at 1. rewrite Hf. by destruct r.
Qed.

Lemma block_at_occurs cfg data p q rs : block_at cfg data p q rs → occurs cfg data p.
Proof.
  intros (h & x & e & c & pl & Hf & _). pose proof (fa_bytes _ _ _ _ _ _ _ _ Hf) as Hb.
  apply has_prefix_true. unfold slice in Hb.
  eexists. rewrite <- (take_drop (q - p) (drop p data)), Hb, <- !app_assoc. done.
Qed.

(** ** One turn of the scan *)

Lemma find_next_sync_eq r :
  stats_ok r →
  find_next_sync r =
    match first_occurrence (rc_sync_marker (r_config r)) (drop (r_pos r) (r_data r)) with
    | Some k => (Ok (Some (r_pos r + k)%nat), set_pos (r_pos r + k) r)
    | None => (Ok None, set_pos (length (r_data r)) r)
    end.
Proof.
  intros Hok. destruct (so_marker _ Hok) as [Hsa Hm8]. pose proof (so_pos _ Hok).
  unfold find_next_sync, bind, gets.
  rewrite find_sync_loop_spec by (done || lia). rewrite take_0, app_nil_l.
  destruct (first_occurrence _ _) as [k|]; simpl.
  - by rewrite Nat.add_0_r, Nat.sub_0_r.
  - by rewrite Nat.max_r by lia.
Qed.

Lemma stats_ok_set_pos r s :
  stats_ok r → (r_pos r ≤ s ≤ length (r_data r))%nat → stats_ok (set_pos s r).
Proof. intros [] Hs. split; simpl; try done; lia. Qed.

Lemma first_occurrence_bound marker l k :
  length marker = 8%nat → first_occurrence marker l = Some k → (k + 8 ≤ length l)%nat.
Proof.
  intros Hm Hf. apply first_occurrence_Some in Hf as [Hp _]; [|by destruct marker].
  apply has_prefix_true in Hp as [rest E]. apply (f_equal length) in E.
  rewrite length_drop, length_app in E. lia.
Qed.

(** The state after a rejected candidate at [s]: one more bad block, and the
    totals of that block if its frame was valid. *)
Lemma stats_ok_rejected r s st :
  stats_ok r → (r_pos r ≤ s)%nat → (s + 1 ≤ length (r_data r))%nat →
  (st = r_stats r ∨ ∃ h, wf_header h ∧ st = account h (r_stats r)) →
  stats_ok (set_pos (s + 1) (set_stats (upd_blocks_bad (blocks_bad st + 1) st) r)).
Proof.
  intros [Hn Ha Hc Hu Hr Hp Hs Hb Hm] H1 H2 Hst.
  assert (blocks_ok st = blocks_ok (r_stats r) ∧ blocks_bad st = blocks_bad (r_stats r) ∧
    bytes_skipped st = bytes_skipped (r_stats r) ∧ records_ok st = records_ok (r_stats r) ∧
    0 ≤ total_compressed_bytes st - total_compressed_bytes (r_stats r) ≤ MAX_U32 ∧
    0 ≤ total_uncompressed_bytes st - total_uncompressed_bytes (r_stats r) ≤ MAX_U32)
    as (E1 & E2 & E3 & E4 & E5 & E6).
  { destruct Hst as [->|(h & Hwf & ->)]; [split_and!; done || int_solve|].
    destruct Hwf as (_ & _ & _ & _ & Hwu & Hwc & _). simpl. split_and!; done || int_solve. }
  split; simpl; try done; rewrite ?E1, ?E2, ?E3, ?E4; unfold MAX_U32 in *; lia.
Qed.

(** The scan skips a rejected candidate. *)
Lemma scan_loop_reject fuel o r k :
  stats_ok r →
  first_occurrence (rc_sync_marker (r_config r)) (drop (r_pos r) (r_data r)) = Some k →
  rejected (r_config r) (r_data r) (r_pos r + k) →
  ∃ r', scan_loop (S fuel) o r = scan_loop fuel o r' ∧ stats_ok r' ∧
    r_data r' = r_data r ∧ r_config r' = r_config r ∧ r_pending r' = r_pending r ∧
    r_pos r' = (r_pos r + k + 1)%nat ∧ bytes_skipped (r_stats r') = bytes_skipped (r_stats r).
Proof.
  intros Hok Hfo Hrej. cbn [scan_loop]. rewrite find_next_sync_eq, Hfo by done.
  pose proof (first_occurrence_bound _ _ _ (proj2 (so_marker _ Hok)) Hfo) as Hk.
  rewrite length_drop in Hk. set (s := (r_pos r + k)%nat) in *.
  assert (stats_ok (set_pos s r)) as Hok1 by (apply stats_ok_set_pos; [done|lia]).
  destruct (try_read_rejected s (set_pos s r) Hok1 Hrej) as (err & q' & st & Ht & Hrec & Hst).
  rewrite Ht. destruct (stats_room r Hok) as (_ & Hroom & _).
  assert (blocks_bad st = blocks_bad (r_stats r) ∧ bytes_skipped st = bytes_skipped (r_stats r)) as [Ebb Esk].
  { by destruct Hst as [->|(h & _ & ->)]. }
  assert (∀ fk : LogjetReader → option (result Error bool * LogjetReader),
    match (bump (blocks_bad (r_stats (set_stats st (set_pos q' (set_pos s r))))) 1 "blocks_bad"
             upd_blocks_bad ;;! seek (s + 1)) (set_stats st (set_pos q' (set_pos s r))) with
    | (Ok _, r) => fk r
    | (Err e, r) => Some (Err e, r)
    end = fk (set_pos (s + 1) (set_stats (upd_blocks_bad (blocks_bad st + 1) st) r))) as Hstep.
  { intros fk. unfold bind. rewrite bump_eq; [done|]. simpl. lia. }
  exists (set_pos (s + 1) (set_stats (upd_blocks_bad (blocks_bad st + 1) st) r)).
  split; [|split; [apply stats_ok_rejected; [done|lia..|done]|simpl; by rewrite Esk]].
  destruct err; try apply Hstep. simpl in Hrec. rewrite decide_True by done. apply Hstep.
Qed.

(** The scan stops at a valid block. *)
Lemma scan_loop_hit fuel o r k q rs :
  stats_ok r → (o ≤ r_pos r)%nat → bytes_skipped (r_stats r) ≤ Z.of_nat o →
  first_occurrence (rc_sync_marker (r_config r)) (drop (r_pos r) (r_data r)) = Some k →
  block_at (r_config r) (r_data r) (r_pos r + k) q rs →
  ∃ r', scan_loop (S fuel) o r = Some (Ok true, r') ∧ stats_ok r' ∧
    r_data r' = r_data r ∧ r_config r' = r_config r ∧ r_pending r' = r_pending r ++ rs ∧
    r_pos r' = q ∧ bytes_skipped (r_stats r') ≤ Z.of_nat q.
Proof.
  intros Hok Ho Hsk Hfo Hblk. cbn [scan_loop]. rewrite find_next_sync_eq, Hfo by done.
  pose proof (first_occurrence_bound _ _ _ (proj2 (so_marker _ Hok)) Hfo) as Hk.
  rewrite length_drop in Hk. set (s := (r_pos r + k)%nat) in *.
  assert (stats_ok (set_pos s r)) as Hok1 by (apply stats_ok_set_pos; [done|lia]).
  destruct (try_read_block s q rs (set_pos s r) Hok1 Hblk) as (h & Hwf & Hlen & Hq & Ht).
  rewrite Ht. destruct (stats_room r Hok) as (Hr1 & _ & _).
  destruct Hwf as (_ & _ & _ & _ & Hwu & Hwc & _).
  destruct Hok as [Hn Ha Hc Hu Hr Hp Hs Hb Hm]. simpl in Hq.
  unfold bind, gets. rewrite bump_eq by (simpl; lia). unfold bind. rewrite bump_eq.
  2:{ simpl. unfold saturating_sub, len in *. int_solve. }
  eexists. split; [done|]. simpl. split_and!; try done.
  2:{ unfold saturating_sub. lia. }
  split; simpl; try done.
  - unfold saturating_sub. int_solve.
  - lia.
  - int_solve.
  - int_solve.
  - rewrite len_app. int_solve.
  - lia.
Qed.

Lemma scan_loop_none fuel o r :
  stats_ok r → (o ≤ r_pos r)%nat → bytes_skipped (r_stats r) ≤ Z.of_nat o →
  first_occurrence (rc_sync_marker (r_config r)) (drop (r_pos r) (r_data r)) = None →
  ∃ r', scan_loop (S fuel) o r = Some (Ok false, r') ∧ r_pending r' = r_pending r.
Proof.
  intros Hok Ho Hsk Hfo. cbn [scan_loop]. rewrite find_next_sync_eq, Hfo by done.
  destruct Hok as [Hn Ha Hc Hu Hr Hp Hs Hb Hm].
  unfold bind. rewrite bump_eq.
  2:{ simpl. unfold saturating_sub, len in *. int_solve. }
  by eexists.
Qed.

(** ** Whole scans *)

(** The invariant between two calls of [next_record]. *)
Definition reading_ok (r : LogjetReader) : Prop :=
  stats_ok r ∧ bytes_skipped (r_stats r) ≤ Z.of_nat (r_pos r).

Lemma first_occurrence_before marker l s :
  marker ≠ [] → has_prefix marker (drop s l) = true →
  ∃ k, first_occurrence marker l = Some k ∧ (k ≤ s)%nat ∧ has_prefix marker (drop k l) = true.
Proof.
  intros Hne Hs. destruct (first_occurrence marker l) as [k|] eqn:Hf.
  - pose proof (first_occurrence_Some _ _ _ Hne Hf) as [Hk Hlt]. exists k. split_and!; [done| |done].
    destruct (decide (k ≤ s)%nat); [done|]. rewrite Hlt in Hs by lia. done.
  - by rewrite (first_occurrence_None _ _ s Hne Hf) in Hs.
Qed.

Lemma marker_nonempty r : stats_ok r → rc_sync_marker (r_config r) ≠ [].
Proof. intros [_ _ _ _ _ _ _ _ [_ Hm]] E. by rewrite E in Hm. Qed.

(** The scan reaches the first candidate that is not rejected. *)
Lemma scan_to fuel o r s q rs :
  stats_ok r → (o ≤ r_pos r ≤ s)%nat → bytes_skipped (r_stats r) ≤ Z.of_nat o →
  (∀ t, (r_pos r ≤ t < s)%nat → occurs (r_config r) (r_data r) t → rejected (r_config r) (r_data r) t) →
  block_at (r_config r) (r_data r) s q rs → (s - r_pos r < fuel)%nat →
  ∃ r', scan_loop fuel o r = Some (Ok true, r') ∧ reading_ok r' ∧
    r_data r' = r_data r ∧ r_config r' = r_config r ∧ r_pending r' = r_pending r ++ rs ∧ r_pos r' = q.
Proof.
  revert r. induction fuel as [|fuel IH]; intros r Hok Ho Hsk Hrej Hblk Hfuel; [lia|].
  pose proof (block_at_occurs _ _ _ _ _ Hblk) as Hocc. unfold occurs in Hocc.
  replace s with (r_pos r + (s - r_pos r))%nat in Hocc by lia. rewrite <- drop_drop in Hocc.
  apply first_occurrence_before in Hocc as (k & Hfo & Hk & Hpk); [|by apply marker_nonempty].
  destruct (decide (r_pos r + k = s)%nat) as [<-|Hne].
  - destruct (scan_loop_hit fuel o r k q rs) as (r' & ? & Hok' & ? & ? & ? & Hq & ?);
      [done|lia|done..|].
    exists r'. split_and!; try done. split; [done|]. by rewrite Hq.
  - destruct (scan_loop_reject fuel o r k) as (r' & Hs & Hok' & Hd & Hc & Hp & Hpos & Hb); [done..| |].
    { apply Hrej; [lia|]. unfold occurs. by rewrite <- drop_drop. }
    rewrite Hs. destruct (IH r') as (r'' & H1 & H2 & H3 & H4 & H5 & H6);
      rewrite ?Hd, ?Hc, ?Hpos, ?Hb; try done; try lia; [intros t Ht; apply Hrej; lia|].
    exists r''. rewrite H3, H4, H5, Hd, Hc, Hp. done.
Qed.

(** Without a valid block ahead the scan reaches the end of the data. *)
Lemma scan_to_end fuel o r :
  stats_ok r → (o ≤ r_pos r)%nat → bytes_skipped (r_stats r) ≤ Z.of_nat o →
  (∀ t, (r_pos r ≤ t)%nat → occurs (r_config r) (r_data r) t → rejected (r_config r) (r_data r) t) →
  (length (r_data r) - r_pos r < fuel)%nat →
  ∃ r', scan_loop fuel o r = Some (Ok false, r') ∧ r_pending r' = r_pending r.
Proof.
  revert r. induction fuel as [|fuel IH]; intros r Hok Ho Hsk Hrej Hfuel; [lia|].
  destruct (first_occurrence (rc_sync_marker (r_config r)) (drop (r_pos r) (r_data r)))
    as [k|] eqn:Hfo; [|by apply scan_loop_none].
  pose proof (first_occurrence_bound _ _ _ (proj2 (so_marker _ Hok)) Hfo) as Hk.
  rewrite length_drop in Hk.
  destruct (scan_loop_reject fuel o r k) as (r' & Hs & Hok' & Hd & Hc & Hp & Hpos & Hb); [done..| |].
  { apply Hrej; [lia|]. apply first_occurrence_Some in Hfo as [Hfo _]; [|by apply marker_nonempty].
    unfold occurs. by rewrite <- drop_drop. }
  rewrite Hs, <- Hp.
  apply IH; rewrite ?Hd, ?Hc, ?Hpos, ?Hb; try done; try lia. intros t Ht. apply Hrej. lia.
Qed.

(** [delivers r rs]: the records still to come from [r]. *)
Definition delivers (r : LogjetReader) (rs : list OwnedRecord) : Prop :=
  reading_ok r ∧ ∃ blocks, readable (r_config r) (r_data r) (r_pos r) blocks ∧
    rs = r_pending r ++ concat blocks.

Lemma next_record_pending fuel r x rest :
  reading_ok r → r_pending r = x :: rest →
  ∃ r', next_record_loop (S fuel) r = Some (Ok (Some x), r') ∧ reading_ok r' ∧
    r_data r' = r_data r ∧ r_config r' = r_config r ∧ r_pos r' = r_pos r ∧ r_pending r' = rest.
Proof.
  intros [Hok Hsk] Hp. cbn [next_record_loop]. rewrite Hp.
  destruct (stats_room r Hok) as (_ & _ & _ & _ & Hroom).
  destruct Hok as [Hn Ha Hc Hu Hr Hpos Hs Hb Hm]. rewrite Hp in *. rewrite len_cons in *.
  pose proof (len_nonneg rest). unfold bind. rewrite bump_eq by (simpl; int_solve).
  eexists. split; [done|]. simpl. split_and!; try done.
  split; [|done]. split; simpl; try done; lia.
Qed.

Lemma block_at_range cfg data p q rs : block_at cfg data p q rs → (p < q ≤ length data)%nat.
Proof. intros (h & x & e & c & pl & Hf & _). apply Hf. Qed.

Lemma next_record_loop_delivers fuel r rs :
  delivers r rs → (length (r_data r) - r_pos r + 1 < fuel)%nat →
  ∃ r', next_record_loop fuel r = Some (Ok (head rs), r') ∧
    (rs ≠ [] → delivers r' (tail rs) ∧ r_data r' = r_data r).
Proof.
  intros [Hok (blocks & Hrd & ->)].
  remember (r_config r) as cfg eqn:Ecfg. remember (r_data r) as data eqn:Edata.
  remember (r_pos r) as p eqn:Ep.
  revert fuel r Ecfg Edata Ep Hok.
  induction Hrd as [p Hrej|p s q rs blocks Hps Hrej Hblk Hrd IH];
    intros fuel r -> -> -> Hok Hfuel; (destruct fuel as [|fuel]; [lia|]);
    destruct (r_pending r) as [|x rest] eqn:Hp.
  - cbn [next_record_loop concat app head]. rewrite Hp. unfold scan_next_block.
    destruct Hok as [Hok Hsk].
    destruct (scan_to_end (2 + length (r_data r)) (r_pos r) r) as (r' & -> & ?); try done; try lia.
    by eexists.
  - destruct (next_record_pending fuel r x rest Hok Hp) as (r' & Hn & Hok' & Hd & Hc & Hq & Hp').
    exists r'. rewrite Hn. split; [done|]. split; [|done]. split; [done|].
    exists []. rewrite Hd, Hc, Hq, Hp'. split; [by constructor|done].
  - cbn [next_record_loop]. rewrite Hp. unfold scan_next_block.
    pose proof (block_at_range _ _ _ _ _ Hblk) as Hq.
    destruct Hok as [Hok Hsk].
    destruct (scan_to (2 + length (r_data r)) (r_pos r) r s q rs)
      as (r' & -> & Hok' & Hd & Hc & Hp' & Hq'); try done; try lia.
    rewrite Hp, app_nil_l in Hp'.
    destruct (IH fuel r') as (r'' & H1 & H2); [done..|rewrite <- Hd in *; lia|].
    rewrite Hp' in *. exists r''. split; [done|]. intros Hne. by apply H2.
  - destruct (next_record_pending fuel r x rest Hok Hp) as (r' & Hn & Hok' & Hd & Hc & Hq & Hp').
    exists r'. rewrite Hn. split; [done|]. intros _. split; [|done]. split; [done|].
    exists (rs :: blocks). rewrite Hd, Hc, Hq, Hp'. split; [by econstructor|done].
Qed.

Lemma next_record_delivers r rs :
  delivers r rs →
  ∃ r', next_record r = Some (Ok (head rs), r') ∧
    (rs ≠ [] → delivers r' (tail rs) ∧ r_data r' = r_data r).
Proof. intros Hd. apply next_record_loop_delivers; [done|lia]. Qed.

Lemma read_all_delivers fuel r rs :
  delivers r rs → (length rs < fuel)%nat → ∃ r', read_all fuel r = Some (Ok rs, r').
Proof.
  revert r rs. induction fuel as [|fuel IH]; intros r rs Hd Hf; [lia|].
  cbn [read_all]. destruct (next_record_delivers r rs Hd) as (r' & -> & Hr').
  destruct rs as [|x rest]; simpl; [by eexists|].
  destruct Hr' as [Hd' _]; [done|]. simpl in Hf, Hd'.
  destruct (IH r' rest) as (r'' & ->); [done|lia|]. by eexists.
Qed.

(** ** Every byte sequence is readable *)

Lemma block_at_or_rejected r p :
  stats_ok r → (∃ q rs, block_at (r_config r) (r_data r) p q rs) ∨ rejected (r_config r) (r_data r) p.
Proof.
  intros Hok. destruct (try_read_block_at p r) as [[rs|e] r'] eqn:Ht.
  - left. destruct (read_frame p r) as [[[[h e] c]|err] r1] eqn:Hf.
    2:{ unfold try_read_block_at, bind at 1 in Ht. by rewrite Hf in Ht. }
    destruct (read_frame_Ok _ _ _ _ _ _ (so_bytes _ Hok) Hf) as (x & q & -> & Hfa).
    rewrite (try_read_eq _ _ _ _ _ _ Hok (fa_header _ _ _ _ _ _ _ _ Hfa) Hf) in Ht.
    destruct (decompress (bh_codec h) c (bh_uncompressed_len h)) as [pl|] eqn:Hd; [|done].
    injection Ht as Hp _. exists q, rs, h, x, e, c, pl. split_and!; try done.
    by eapply frame_header_len.
  - right. intros q rs Hb. destruct (try_read_block _ _ _ _ Hok Hb) as (h & _ & _ & _ & E).
    by rewrite E in Ht.
Qed.

Lemma readable_skip cfg data p blocks :
  (occurs cfg data p → rejected cfg data p) → readable cfg data (S p) blocks → readable cfg data p blocks.
Proof.
  intros Hp Hr. inversion Hr as [p' Hrej|p' s q rs bl Hs Hrej Hb Hrd]; subst.
  - constructor. intros t Ht. destruct (decide (t = p)) as [->|]; [done|]. apply Hrej. lia.
  - eapply readable_block; [|..|done|done]; [lia|].
    intros t Ht. destruct (decide (t = p)) as [->|]; [done|]. apply Hrej. lia.
Qed.

Lemma readable_total r p : stats_ok r → ∃ blocks, readable (r_config r) (r_data r) p blocks.
Proof.
  intros Hok. remember (length (r_data r) - p)%nat as n eqn:En. revert p En.
  induction (lt_wf n) as [n _ IH]; intros p ->.
  destruct (decide (length (r_data r) ≤ p)%nat) as [Hge|Hlt].
  { exists []. constructor. intros t Ht Ho. exfalso. unfold occurs in Ho.
    rewrite drop_ge in Ho by lia. by destruct (rc_sync_marker (r_config r)) eqn:E;
      [apply (marker_nonempty r)|]. }
  destruct (block_at_or_rejected r p Hok) as [(q & rs & Hb)|Hrej].
  - destruct (IH (length (r_data r) - q)%nat) with (p := q) as [bl Hbl]; [|done|].
    { apply block_at_range in Hb. lia. }
    exists (rs :: bl). eapply readable_block; [done| |done|done]. intros; lia.
  - destruct (IH (length (r_data r) - S p)%nat) with (p := S p) as [bl Hbl]; [lia|done|].
    exists bl. by apply readable_skip.
Qed.

Lemma delivers_new data cfg :
  len data < MAX_U32 → bytes data → self_avoiding (rc_sync_marker cfg) →
  length (rc_sync_marker cfg) = 8%nat →
  ∃ rs, delivers (reader_with_config data cfg) rs.
Proof.
  intros Hl Hb Hs Hm. pose proof (stats_ok_new data cfg Hl Hb Hs Hm) as Hok.
  destruct (readable_total _ 0 Hok) as [blocks Hr].
  exists (concat blocks). split; [by split|]. by exists blocks.
Qed.

End Try_read.

(** ** The theorems *)

(** The byte-by-byte search for the sync marker, which keeps only the length of
    the current partial match, finds exactly the first occurrence of a marker
    whose first byte does not occur in it again, as that of the default marker. *)
Theorem sync_search_finds_first r :
  self_avoiding (rc_sync_marker (r_config r)) → (r_pos r ≤ length (r_data r))%nat →
  (find_next_sync r).1 =
    Ok (Nat.add (r_pos r) <$> first_occurrence (rc_sync_marker (r_config r)) (drop (r_pos r) (r_data r))).
Proof.
  intros Hs Hp. unfold find_next_sync, bind, gets.
  rewrite find_sync_loop_spec; [|done|destruct (rc_sync_marker (r_config r)); [by destruct Hs|simpl; lia]|done].
  rewrite take_0, app_nil_l, Nat.add_0_r, Nat.sub_0_r. by destruct (first_occurrence _ _).
Qed.

Lemma sync_search_finds_first_witness :
  let r := reader_new (str "xxOTLPBOTLPBLK!yy") in
  (find_next_sync r).1 =
    Ok (Nat.add (r_pos r) <$> first_occurrence (rc_sync_marker (r_config r)) (drop (r_pos r) (r_data r))).
Proof.
  apply (sync_search_finds_first (reader_new (str "xxOTLPBOTLPBLK!yy"))).
  - apply default_marker_self_avoiding.
  - vm_compute. lia.
Defined.

(** The restriction matters.  With a marker that overlaps itself the search
    misses an occurrence: after a partial match it restarts at the current byte
    only. *)
Theorem sync_search_misses_overlapping_marker :
  let r := reader_with_config (str "AAAAAAAAB") (mkReaderConfig (str "AAAAAAAB") 100 100) in
  (find_next_sync r).1 = Ok None ∧
  first_occurrence (rc_sync_marker (r_config r)) (r_data r) = Some 1%nat.
Proof. vm_compute. done. Qed.
