(* ===== verification/Container.v ===== *)
(** * Writer and reader together

    The reader recovers exactly what the writer was given, in order, from an
    intact container, and resynchronises after damaged regions. *)

From stdpp Require Import sorting.
From S2P Require Import Prelude Format Varint Writer Reader Instances Scan.

(** ** Parsing a block payload *)

Lemma slice_app (pre x post : list Z) :
  slice (length pre) (length pre + length x) (pre ++ x ++ post) = x.
Proof.
  unfold slice. rewrite drop_app_length.
  replace (length pre + length x - length pre)%nat with (length x) by lia.
  apply take_app_length.
Qed.

Lemma slice_app' (pre x post : list Z) a b :
  a = length pre → b = (length pre + length x)%nat → slice a b (pre ++ x ++ post) = x.
Proof. intros -> ->. apply slice_app. Qed.

Lemma byte_at_app_r pre b post : byte_at (pre ++ b :: post) (length pre) = b.
Proof. unfold byte_at. rewrite app_nth2, Nat.sub_diag by lia. done. Qed.

(** Decoding at a position given as a length. *)
Lemma decode_uvarint_at z pre rest pos :
  is_u64 z → pos = length pre →
  decode_varint (pre ++ uvarint z ++ rest) pos = Ok (z, length (pre ++ uvarint z)).
Proof. intros Hz ->. rewrite decode_uvarint by done. by rewrite length_app. Qed.

Lemma parse_record_encode pre bseq bts r post :
  valid_record r → is_u64 bseq → is_u64 bts → bseq ≤ seq r → bts ≤ ts_unix_ns r →
  is_u64 (len (pre ++ encode_record bseq bts r)) →
  parse_record (pre ++ encode_record bseq bts r ++ post) (mkBlockHeaderExt bseq bts) (length pre)
    = Ok (r, length (pre ++ encode_record bseq bts r)).
Proof.
  intros (Hs & Ht & Hpb & Hpl) Hbs Hbt Hles Hlet Hfit.
  unfold parse_record. case_decide as Hcur.
  { exfalso. rewrite !length_app in Hcur. pose proof (len_encode_record bseq bts r). unfold len in *. lia. }
  clear Hcur. unfold encode_record in *.
  set (t := RecordType_as_u8 (record_type r)) in *. set (A := uvarint (seq r - bseq)) in *.
  set (B := uvarint (ts_unix_ns r - bts)) in *. set (C := uvarint (len (payload r))) in *.
  set (D := pre ++ ([t] ++ A ++ B ++ C ++ payload r) ++ post).
  assert (byte_at D (length pre) = t) as -> by apply byte_at_app_r.
  unfold t at 1. rewrite RecordType_u8_roundtrip.
  assert (D = (pre ++ [t]) ++ A ++ B ++ C ++ payload r ++ post) as E1
    by (subst D; by rewrite <- !app_assoc).
  assert (D = ((pre ++ [t]) ++ A) ++ B ++ C ++ payload r ++ post) as E2
    by (subst D; by rewrite <- !app_assoc).
  assert (D = (((pre ++ [t]) ++ A) ++ B) ++ C ++ payload r ++ post) as E3
    by (subst D; by rewrite <- !app_assoc).
  assert (D = ((((pre ++ [t]) ++ A) ++ B) ++ C) ++ payload r ++ post) as E4
    by (subst D; by rewrite <- !app_assoc).
  assert (D = (pre ++ [t] ++ A ++ B ++ C ++ payload r) ++ post) as E5
    by (subst D; by rewrite <- !app_assoc).
  assert (decode_varint D (S (length pre)) = Ok (seq r - bseq, length ((pre ++ [t]) ++ A))) as ->
    by (rewrite E1; apply decode_uvarint_at; [int_solve|rewrite length_app; simpl; lia]).
  assert (decode_varint D (length ((pre ++ [t]) ++ A)) =
    Ok (ts_unix_ns r - bts, length (((pre ++ [t]) ++ A) ++ B))) as ->
    by (rewrite E2; apply decode_uvarint_at; [int_solve|done]).
  assert (decode_varint D (length (((pre ++ [t]) ++ A) ++ B)) =
    Ok (len (payload r), length ((((pre ++ [t]) ++ A) ++ B) ++ C))) as ->
    by (rewrite E3; by apply decode_uvarint_at).
  assert (try_from MAX_U64 (len (payload r)) = Some (len (payload r))) as ->
    by by apply try_from_Some.
  cbn [ok_or].
  assert (Z.of_nat (length ((((pre ++ [t]) ++ A) ++ B) ++ C)) + len (payload r)
    = len (pre ++ [t] ++ A ++ B ++ C ++ payload r)) as Estop.
  { rewrite !app_assoc, (len_app _ (payload r)). done. }
  unfold checked_add. rewrite Estop.
  destruct (Z.leb_spec (len (pre ++ [t] ++ A ++ B ++ C ++ payload r)) MAX_U64); [|int_solve].
  cbn [ok_or].
  destruct (Z.ltb_spec (len D) (len (pre ++ [t] ++ A ++ B ++ C ++ payload r))) as [Hbad|_].
  { rewrite E5, (len_app _ post) in Hbad. pose proof (len_nonneg post). lia. }
  rewrite !Zplus_minus. cbn [base_seq base_ts_unix_ns].
  destruct (Z.leb_spec (seq r) MAX_U64), (Z.leb_spec (ts_unix_ns r) MAX_U64); try int_solve.
  cbn [ok_or]. unfold len. rewrite Nat2Z.id.
  rewrite E4, slice_app' by (done || rewrite <- length_app, <- !app_assoc; done).
  by destruct r.
Qed.

(** The parse loop over consecutive encoded records. *)
Lemma parse_loop_encode rs pre bseq bts post :
  Forall (λ r, valid_record r ∧ bseq ≤ seq r ∧ bts ≤ ts_unix_ns r) rs →
  is_u64 bseq → is_u64 bts →
  is_u64 (len (pre ++ concat (encode_record bseq bts <$> rs))) →
  parse_loop (length rs) (pre ++ concat (encode_record bseq bts <$> rs) ++ post)
      (mkBlockHeaderExt bseq bts) (length pre)
    = Ok (rs, length (pre ++ concat (encode_record bseq bts <$> rs))).
Proof.
  intros Hrs Hs Ht. revert pre.
  induction Hrs as [|r rs (Hv & Hles & Hlet) Hrs IH]; intros pre Hfit.
  - simpl. by rewrite app_nil_r.
  - rewrite fmap_cons in *. cbn [concat length parse_loop] in *.
    rewrite <- (app_assoc (encode_record bseq bts r)).
    rewrite parse_record_encode; [|done..|].
    + rewrite (app_assoc pre). rewrite IH.
      * by rewrite <- app_assoc.
      * by rewrite <- app_assoc.
    + rewrite app_assoc, (len_app (pre ++ _)) in Hfit.
      match type of Hfit with in_width _ (_ + len ?l) => pose proof (len_nonneg l) end.
      pose proof (len_nonneg (pre ++ encode_record bseq bts r)). int_solve.
Qed.

Lemma parse_records_encode rs :
  block_records rs → is_u64 (len (encode_payload rs)) →
  parse_records (encode_payload rs) (len rs)
    (match rs with [] => mkBlockHeaderExt 0 0 | r0 :: _ => mkBlockHeaderExt (seq r0) (ts_unix_ns r0) end)
    = Ok rs.
Proof.
  intros Hb Hl. destruct rs as [|r0 rs']; [done|].
  destruct (Forall_inv Hb) as [(Hs & Ht & _) _].
  unfold parse_records, len at 1. rewrite Nat2Z.id.
  pose proof (parse_loop_encode (r0 :: rs') [] (seq r0) (ts_unix_ns r0) [] Hb Hs Ht Hl) as Hp.
  rewrite app_nil_l, app_nil_r in Hp.
  change (concat (encode_record (seq r0) (ts_unix_ns r0) <$> r0 :: rs'))
    with (encode_payload (r0 :: rs')) in Hp. change (length []) with 0%nat in Hp. rewrite Hp.
  case_decide as Hd; [done|]. by destruct Hd.
Qed.

(** ** The blocks a writer emits are valid blocks *)

Section Container.
Context {EX : Externals} {EL : ExternalLaws}.

(** What the reader configuration must allow for the blocks of a writer whose
    payloads have at most [lim] bytes.  As a compressor may expand its input a
    little, [lim] can be below the reader's limit on the compressed size. *)
Record compatible (wc : WriterConfig) (rc : ReaderConfig) (lim : Z) : Prop := {
  co_marker : rc_sync_marker rc = wc_sync_marker wc;
  co_marker_bytes : bytes (wc_sync_marker wc);
  co_marker_len : length (wc_sync_marker wc) = 8%nat;
  co_marker_avoids : self_avoiding (wc_sync_marker wc);
  co_marker_nonzero : byte_at (wc_sync_marker wc) 0 ≠ 0;
  co_limit : lim ≤ max_uncompressed_len rc;
  co_target : block_target_size wc ≤ lim;
  co_codec : ∀ bs cs, bytes bs → len bs ≤ lim →
    compress (wc_codec wc) bs = Ok cs → len cs ≤ max_compressed_len rc;
}.

(** A record of which a block of its own respects the limit. *)
Definition fits_reader (lim : Z) (r : OwnedRecord) : Prop :=
  len (encode_record (seq r) (ts_unix_ns r) r) ≤ lim.

Lemma block_fits_reader wc rc lim rs :
  compatible wc rc lim → Forall (fits_reader lim) rs → block_records rs → block_fits wc rs →
  len (encode_payload rs) ≤ lim.
Proof.
  intros Hco Hr Hb [H1|Ht]; [|pose proof (co_target _ _ _ Hco); lia].
  destruct rs as [|r0 [|]]; try done. apply Forall_inv in Hr. unfold fits_reader in Hr.
  unfold encode_payload. simpl. by rewrite app_nil_r.
Qed.

Lemma wf_block_header wc rs compressed :
  block_records rs → is_u32 (len (encode_payload rs)) → is_u32 (len compressed) → is_u32 (len rs) →
  wf_header (block_header wc rs compressed).1 ∧ wf_ext (block_header wc rs compressed).2.
Proof.
  intros Hb Hu Hc Hn. destruct rs as [|r0 rs]; [done|].
  destruct (Forall_inv Hb) as [(Hs & Ht & _) _]. split; [|done].
  unfold wf_header. cbn -[compute_header_crc MAX_U16 MAX_U32 len].
  split_and!; try done; try int_solve. apply crc32c_u32.
Qed.

Lemma block_frame_at wc rc lim rs c pre post :
  compatible wc rc lim → block_records rs → compress (wc_codec wc) (encode_payload rs) = Ok c →
  is_u32 (len (encode_payload rs)) → is_u32 (len c) → is_u32 (len rs) →
  len (encode_payload rs) ≤ lim →
  block_at rc (pre ++ block_frame wc rs c ++ post) (length pre)
    (length pre + length (block_frame wc rs c)) rs.
Proof.
  intros Hco Hb Hcomp Hu Hc Hn Hfit.
  destruct (wf_block_header wc rs c Hb Hu Hc Hn) as [Hwf Hwe].
  pose proof (bytes_encode_payload rs Hb) as Hpb.
  destruct (block_header wc rs c) as [h e] eqn:Ehe.
  exists h, (BlockHeaderExt_encode e), e, c, (encode_payload rs).
  assert (h = (block_header wc rs c).1 ∧ e = (block_header wc rs c).2) as [Eh Ee] by by rewrite Ehe.
  assert (bh_uncompressed_len h = len (encode_payload rs) ∧ bh_compressed_len h = len c ∧
    bh_record_count h = len rs ∧ bh_codec h = wc_codec wc ∧ bh_header_len h = 40 ∧
    bh_header_crc32c h = compute_header_crc h (BlockHeaderExt_encode e)) as (E1 & E2 & E3 & E4 & E5 & E6)
    by by rewrite Eh, Ee.
  rewrite E1, E3, E4, E5. split_and!; [|done|by apply decompress_compress|].
  2:{ rewrite Ee. replace (block_header wc rs c).2 with
        (match rs with [] => mkBlockHeaderExt 0 0 | r0 :: _ => mkBlockHeaderExt (seq r0) (ts_unix_ns r0) end)
        by by destruct rs.
      apply parse_records_encode; [done|]. int_solve. }
  assert (block_body wc rs c = BlockHeader_encode h ++ BlockHeaderExt_encode e ++ c) as Ebody
    by (unfold block_body; by rewrite Ehe).
  split; rewrite ?E1, ?E2, ?E5; try done.
  - rewrite !length_app. unfold block_frame at 1. rewrite length_app, (co_marker_len _ _ _ Hco). lia.
  - rewrite slice_app. unfold block_frame.
    by rewrite (co_marker _ _ _ Hco), Ebody, <- !app_assoc.
  - rewrite firstn_all2 by by rewrite length_BlockHeaderExt_encode.
    rewrite <- (app_nil_r (BlockHeaderExt_encode e)). by apply BlockHeaderExt_decode_encode.
  - split; [by eapply (co_codec _ _ _ Hco)|]. pose proof (co_limit _ _ _ Hco). lia.
Qed.

Lemma is_block_at wc rc lim rs chunk pre post :
  compatible wc rc lim → is_block wc rs chunk → block_records rs →
  len (encode_payload rs) ≤ lim →
  ∃ frame pad, chunk = frame ++ replicate pad 0 ∧
    block_at rc (pre ++ chunk ++ post) (length pre) (length pre + length frame) rs.
Proof.
  intros Hco (c & Hcomp & Hu & Hc & Hn & ->) Hb Hfit.
  assert (∃ pad, padding (block_alignment wc) (len (block_frame wc rs c)) = replicate pad 0) as [pad ->].
  { unfold padding. destruct (0 <? _); [destruct (0 <? _)|]; [by eexists|by exists 0%nat..]. }
  exists (block_frame wc rs c), pad. split; [done|]. rewrite <- (app_assoc (block_frame wc rs c)).
  by eapply block_frame_at.
Qed.

(** ** Reading what was written *)

Lemma readable_skip_range rc data p n blocks :
  (∀ t, (p ≤ t < p + n)%nat → occurs rc data t → rejected rc data t) →
  readable rc data (p + n) blocks → readable rc data p blocks.
Proof.
  revert p. induction n as [|n IH]; intros p Hrej Hr; [by rewrite Nat.add_0_r in Hr|].
  apply readable_skip; [apply Hrej; lia|]. apply IH; [intros t Ht; apply Hrej; lia|].
  by replace (S p + n)%nat with (p + S n)%nat by lia.
Qed.

(** No block starts in alignment padding. *)
Lemma padding_no_marker rc pre pad post t :
  rc_sync_marker rc ≠ [] → byte_at (rc_sync_marker rc) 0 ≠ 0 →
  (length pre ≤ t < length pre + pad)%nat → ¬ occurs rc (pre ++ replicate pad 0 ++ post) t.
Proof.
  intros Hne H0 Ht Ho. apply (has_prefix_byte_at _ _ 0) in Ho; [|by destruct (rc_sync_marker rc); simpl; [|lia]].
  rewrite byte_at_drop, Nat.add_0_r in Ho. apply H0. rewrite <- Ho. unfold byte_at.
  rewrite app_nth2 by lia. rewrite app_nth1 by (rewrite length_replicate; lia).
  generalize (t - length pre)%nat as i. clear. induction pad; intros [|i]; simpl; auto.
Qed.

(** The blocks of a writer are read back, followed by whatever comes next. *)
Lemma readable_chunks wc rc lim blocks chunks pre post rest :
  compatible wc rc lim → Forall2 (is_block wc) blocks chunks →
  Forall (λ rs, block_records rs ∧ block_fits wc rs) blocks →
  Forall (Forall (fits_reader lim)) blocks →
  readable rc (pre ++ concat chunks ++ post) (length (pre ++ concat chunks)) rest →
  readable rc (pre ++ concat chunks ++ post) (length pre) (blocks ++ rest).
Proof.
  intros Hco Hch. revert pre.
  induction Hch as [|rs chunk blocks chunks Hblk Hch IH]; intros pre Hbl Hfr Hrest.
  - simpl in *. by rewrite app_nil_r in Hrest.
  - apply Forall_cons_iff in Hbl as [[Hb Hf] Hbl]. apply Forall_cons_iff in Hfr as [Hfr1 Hfr].
    assert (len (encode_payload rs) ≤ lim) as Hlim by by eapply block_fits_reader.
    cbn [concat app] in *. rewrite <- (app_assoc chunk) in *.
    destruct (is_block_at wc rc lim rs chunk pre (concat chunks ++ post) Hco Hblk Hb Hlim)
      as (frame & pad & Echunk & Hat).
    eapply readable_block; [reflexivity|intros; lia|exact Hat|].
    apply (readable_skip_range _ _ _ pad).
    { intros t Ht Ho. exfalso. rewrite Echunk in Ho. revert Ho.
      replace (pre ++ (frame ++ replicate pad 0) ++ concat chunks ++ post)
        with ((pre ++ frame) ++ replicate pad 0 ++ concat chunks ++ post) by by rewrite <- !app_assoc.
      pose proof (co_marker _ _ _ Hco) as Em. pose proof (co_marker_len _ _ _ Hco) as Hm.
      apply padding_no_marker; rewrite ?Em; [by intros E; rewrite E in Hm|apply Hco|].
      rewrite length_app. lia. }
    specialize (IH (pre ++ chunk) Hbl Hfr).
    rewrite <- !(app_assoc pre) in IH.
    replace (length pre + length frame + pad)%nat with (length (pre ++ chunk))
      by (rewrite Echunk, !length_app, length_replicate; lia).
    by apply IH.
Qed.
(** A log behind a readable region, in the middle of any data. *)
Lemma readable_log wc rc lim rs out pre post rest :
  compatible wc rc lim → Forall valid_record rs → Forall (fits_reader lim) rs →
  write_log [] wc rs = Ok out →
  readable rc (pre ++ out ++ post) (length (pre ++ out)) rest →
  ∃ blocks, concat blocks = rs ∧ readable rc (pre ++ out ++ post) (length pre) (blocks ++ rest).
Proof.
  intros Hco Hv Hf Hw Hr.
  destruct (write_log_Ok [] out wc rs Hv Hw) as (blocks & chunks & <- & Hbl & Hch & Hout).
  simpl in Hout. subst out. exists blocks. split; [done|].
  eapply readable_chunks; try done. by apply Forall_concat.
Qed.

Lemma delivers_readable rc data blocks :
  len data < MAX_U32 → bytes data → self_avoiding (rc_sync_marker rc) →
  length (rc_sync_marker rc) = 8%nat → readable rc data 0 blocks →
  delivers (reader_with_config data rc) (concat blocks).
Proof. intros. split; [split; [by apply stats_ok_new|done]|]. by exists blocks. Qed.

Lemma compatible_delivers wc rc lim data blocks :
  compatible wc rc lim → len data < MAX_U32 → bytes data → readable rc data 0 blocks →
  delivers (reader_with_config data rc) (concat blocks).
Proof.
  intros Hco Hl Hb Hr. pose proof (co_marker _ _ _ Hco) as Em.
  apply delivers_readable; rewrite ?Em; try apply Hco; done.
Qed.

(** Nothing is readable beyond the end of the data. *)
Lemma readable_at_end rc data : rc_sync_marker rc ≠ [] → readable rc data (length data) [].
Proof.
  intros Hne. constructor. intros t Ht Ho. exfalso. unfold occurs in Ho.
  rewrite drop_ge in Ho by done. by destruct (rc_sync_marker rc).
Qed.

Lemma compatible_marker_nonempty wc rc lim : compatible wc rc lim → rc_sync_marker rc ≠ [].
Proof.
  intros Hco E. rewrite (co_marker _ _ _ Hco) in E. pose proof (co_marker_len _ _ _ Hco) as Hm.
  by rewrite E in Hm.
Qed.

(** Everything a writer emits is a sequence of bytes. *)
Lemma bytes_BlockHeader_encode h : wf_header h → bytes (BlockHeader_encode h).
Proof.
  intros (Hv & _). unfold BlockHeader_encode, encode_without_crc.
  rewrite !bytes_app, !bytes_cons, Hv. split_and!; auto using bytes_to_le, bytes_nil; try int_solve.
  all: try (unfold FORMAT_VERSION; int_solve). destruct (bh_codec h); simpl; int_solve.
Qed.

Lemma bytes_is_block wc rc lim rs chunk :
  compatible wc rc lim → block_records rs → is_block wc rs chunk → bytes chunk.
Proof.
  intros Hco Hb (c & Hcomp & Hu & Hc & Hn & ->).
  destruct (wf_block_header wc rs c Hb Hu Hc Hn) as [Hwf _].
  unfold block_frame, block_body. destruct (block_header wc rs c) as [h e].
  rewrite !bytes_app. split_and!; auto using bytes_to_le, bytes_BlockHeader_encode.
  - apply Hco.
  - unfold BlockHeaderExt_encode. rewrite bytes_app. auto using bytes_to_le.
  - eapply compress_bytes; [by apply bytes_encode_payload|done].
  - unfold padding. repeat case_match; auto using bytes_nil.
    apply Forall_replicate. int_solve.
Qed.

Lemma bytes_write_log wc rc lim rs out :
  compatible wc rc lim → Forall valid_record rs → write_log [] wc rs = Ok out → bytes out.
Proof.
  intros Hco Hv Hw. destruct (write_log_Ok [] out wc rs Hv Hw) as (bl & ch & _ & Hbl & Hch & Hout).
  simpl in Hout. subst out. clear Hw. induction Hch as [|rs' chunk bl ch Hb Hch IH]; [constructor|].
  apply Forall_cons_iff in Hbl as [[Hr _] Hbl]. simpl. apply bytes_app.
  split; [by eapply bytes_is_block|by apply IH].
Qed.

(** Executable criteria for the absence of markers. *)
Lemma no_marker_after rc data p :
  rc_sync_marker rc ≠ [] → first_occurrence (rc_sync_marker rc) (drop p data) = None →
  ∀ t, (p ≤ t)%nat → ¬ occurs rc data t.
Proof.
  intros Hne Hf t Ht Ho. unfold occurs in Ho.
  pose proof (first_occurrence_None _ _ (t - p) Hne Hf) as Hn. rewrite drop_drop in Hn.
  replace (p + (t - p))%nat with t in Hn by lia. by rewrite Ho in Hn.
Qed.

Lemma no_marker_before rc data p q :
  rc_sync_marker rc ≠ [] → first_occurrence (rc_sync_marker rc) (drop p data) = Some q →
  ∀ t, (p ≤ t < p + q)%nat → ¬ occurs rc data t.
Proof.
  intros Hne Hf t Ht Ho. unfold occurs in Ho.
  destruct (first_occurrence_Some _ _ _ Hne Hf) as [_ Hn]. specialize (Hn (t - p)%nat ltac:(lia)).
  rewrite drop_drop in Hn. replace (p + (t - p))%nat with t in Hn by lia. by rewrite Ho in Hn.
Qed.

(** Two logs with a region between them in which no intact block starts. *)
Lemma delivers_around_damage wc rc lim rs1 rs2 out1 junk out2 :
  compatible wc rc lim →
  Forall valid_record (rs1 ++ rs2) → Forall (fits_reader lim) (rs1 ++ rs2) →
  write_log [] wc rs1 = Ok out1 → write_log [] wc rs2 = Ok out2 →
  bytes junk → len (out1 ++ junk ++ out2) < MAX_U32 →
  (∀ t, (length out1 ≤ t < length (out1 ++ junk))%nat →
    occurs rc (out1 ++ junk ++ out2) t → rejected rc (out1 ++ junk ++ out2) t) →
  delivers (reader_with_config (out1 ++ junk ++ out2) rc) (rs1 ++ rs2).
Proof.
  intros Hco [Hv1 Hv2]%Forall_app [Hf1 Hf2]%Forall_app Hw1 Hw2 Hb Hl Hrej.
  set (data := out1 ++ junk ++ out2) in *.
  assert (bytes data) as Hbytes.
  { unfold data. rewrite !bytes_app. split_and!; [by eapply (bytes_write_log wc rc lim rs1)|done|].
    by eapply (bytes_write_log wc rc lim rs2). }
  assert (data = (out1 ++ junk) ++ out2 ++ []) as E2 by by rewrite app_nil_r, <- app_assoc.
  destruct (readable_log wc rc lim rs2 out2 (out1 ++ junk) [] [] Hco Hv2 Hf2 Hw2) as (bl2 & <- & Hr2).
  { rewrite <- E2. replace (length ((out1 ++ junk) ++ out2)) with (length data)
      by by rewrite E2, app_nil_r. by eapply readable_at_end, compatible_marker_nonempty. }
  rewrite <- E2, app_nil_r in Hr2.
  destruct (readable_log wc rc lim rs1 out1 [] (junk ++ out2) bl2 Hco Hv1 Hf1 Hw1) as (bl1 & <- & Hr1).
  { apply (readable_skip_range _ _ _ (length junk)); rewrite <- length_app; [|done].
    exact Hrej. }
  rewrite <- concat_app. by eapply compatible_delivers.
Qed.

(** ** Torn writes *)

Lemma frame_at_length cfg data p q h x e c :
  frame_at cfg data p q h x e c → length (rc_sync_marker cfg) = 8%nat →
  BLOCK_HEADER_TOTAL_LEN ≤ bh_header_len h →
  Z.of_nat q = Z.of_nat p + 12 + bh_header_len h + bh_compressed_len h.
Proof.
  intros [Hr Hb Hwf _ _ Hx Hc _] Hm Hh. apply (f_equal length) in Hb. unfold slice in Hb.
  rewrite length_take, length_drop, !length_app, Hm, length_BlockHeader_encode, length_to_le in Hb.
  unfold len, BLOCK_HEADER_TOTAL_LEN, BLOCK_HEADER_FIXED_LEN, BLOCK_HEADER_EXT_LEN in *. lia.
Qed.

Lemma BlockHeader_encode_inj h h' :
  wf_header h → wf_header h' → BlockHeader_encode h = BlockHeader_encode h' → h = h'.
Proof.
  intros H1 H2 E. pose proof (BlockHeader_decode_encode h [] H1) as D1.
  pose proof (BlockHeader_decode_encode h' [] H2) as D2. rewrite E, D2 in D1. by inv_res.
Qed.

(** A strict prefix of a block is rejected. *)
Lemma torn_block_rejected wc rc lim rs c k pre :
  compatible wc rc lim → block_records rs → is_u32 (len (encode_payload rs)) → is_u32 (len c) →
  is_u32 (len rs) → (k < length (block_frame wc rs c))%nat →
  rejected rc (pre ++ take k (block_frame wc rs c)) (length pre).
Proof.
  intros Hco Hb Hu Hc Hn Hk q rs' (h' & x' & e' & c' & pl' & Hfa & Hh' & _).
  pose proof (co_marker_len _ _ _ Hco) as Hm. pose proof (co_marker _ _ _ Hco) as Em.
  pose proof (frame_at_length _ _ _ _ _ _ _ _ Hfa ltac:(by rewrite Em) Hh') as Hq.
  pose proof (fa_range _ _ _ _ _ _ _ _ Hfa) as Hr. rewrite length_app, length_take in Hr.
  pose proof (fa_compressed _ _ _ _ _ _ _ _ Hfa) as Hc'. pose proof (len_nonneg c').
  unfold BLOCK_HEADER_TOTAL_LEN, BLOCK_HEADER_FIXED_LEN, BLOCK_HEADER_EXT_LEN in Hh'.
  destruct (wf_block_header wc rs c Hb Hu Hc Hn) as [Hwf _].
  pose proof (fa_bytes _ _ _ _ _ _ _ _ Hfa) as Hs. unfold slice in Hs.
  rewrite drop_app_length, take_take in Hs. unfold block_frame, block_body in Hs, Hk, Hr.
  destruct (block_header wc rs c) as [h e] eqn:Ehe. rewrite Em in Hs.
  assert (bh_header_len h = 40 ∧ bh_compressed_len h = len c) as [E1 E2].
  { assert (h = (block_header wc rs c).1) as -> by by rewrite Ehe. done. }
  apply (f_equal (λ l, take 24 (drop 8 l))) in Hs.
  rewrite !(drop_app_ge (wc_sync_marker wc)), Hm, Nat.sub_diag, !drop_0 in Hs by lia.
  rewrite (take_app_length' (BlockHeader_encode h')) in Hs by done.
  rewrite !length_app, Hm, length_BlockHeader_encode, length_BlockHeaderExt_encode, length_to_le in *.
  unfold len in *.
  assert (h' = h) as ->; [|lia].
  apply BlockHeader_encode_inj; [apply Hfa|done|]. rewrite <- Hs.
  rewrite skipn_firstn_comm, drop_app_ge, Hm, Nat.sub_diag, drop_0 by lia.
  rewrite firstn_firstn, <- !app_assoc. apply take_app_length'.
  rewrite length_BlockHeader_encode. lia.
Qed.

(** ** The theorems *)

(** A written log is delivered. *)
Lemma write_log_delivers wc rc lim rs :
  compatible wc rc lim → codec_accepts (wc_codec wc) MAX_U32 → block_target_size wc ≤ MAX_U32 →
  StronglySorted no_earlier rs → Forall valid_record rs → Forall (fits_reader lim) rs →
  Forall (λ r, len (payload r) + 34 ≤ MAX_U32) rs →
  ∃ out, write_log [] wc rs = Ok out ∧ (len out < MAX_U32 → delivers (reader_with_config out rc) rs).
Proof.
  intros Hco Hacc Ht Hs Hv Hf Hl.
  destruct (write_log_total [] wc rs Hs Hv Hl Ht Hacc) as [out Hw]. exists out. split; [done|]. intros Hlen.
  pose proof (delivers_around_damage wc rc lim rs [] out [] [] Hco) as Hd.
  rewrite !app_nil_r in Hd. apply Hd; auto using bytes_nil. intros t Ht'. lia.
Qed.


(** C4: recovery.  When any bytes in which no intact block starts lie between
    two logs (a damaged block, a foreign file fragment), the reader delivers all
    records of both logs and nothing else. *)
Theorem read_recovers_around_damage wc rc lim rs1 rs2 out1 junk out2 fuel :
  compatible wc rc lim →
  Forall valid_record (rs1 ++ rs2) → Forall (fits_reader lim) (rs1 ++ rs2) →
  write_log [] wc rs1 = Ok out1 → write_log [] wc rs2 = Ok out2 →
  bytes junk → len (out1 ++ junk ++ out2) < MAX_U32 →
  (∀ t, (length out1 ≤ t < length (out1 ++ junk))%nat →
    occurs rc (out1 ++ junk ++ out2) t → rejected rc (out1 ++ junk ++ out2) t) →
  (length (rs1 ++ rs2) < fuel)%nat →
  ∃ r', read_all fuel (reader_with_config (out1 ++ junk ++ out2) rc) = Some (Ok (rs1 ++ rs2), r').
Proof. intros. apply read_all_delivers; [|done]. by eapply (delivers_around_damage wc rc lim). Qed.

(** Crash safety.  If the process dies while a block is being written, so
    that only its first [k] bytes reach the file, the reader still delivers every
    record of the blocks before it, and nothing of the torn block. *)
Theorem torn_write_keeps_earlier_records wc rc lim rs1 out1 rs c k fuel :
  compatible wc rc lim →
  Forall valid_record rs1 → Forall (fits_reader lim) rs1 → write_log [] wc rs1 = Ok out1 →
  block_records rs → compress (wc_codec wc) (encode_payload rs) = Ok c →
  is_u32 (len (encode_payload rs)) → is_u32 (len c) → is_u32 (len rs) →
  (k < length (block_frame wc rs c))%nat →
  len (out1 ++ take k (block_frame wc rs c)) < MAX_U32 →
  (∀ t, (length out1 < t)%nat → ¬ occurs rc (out1 ++ take k (block_frame wc rs c)) t) →
  (length rs1 < fuel)%nat →
  ∃ r', read_all fuel (reader_with_config (out1 ++ take k (block_frame wc rs c)) rc)
          = Some (Ok rs1, r').
Proof.
  intros Hco Hv Hf Hw Hb Hcomp Hu Hc Hn Hk Hl Hno Hfuel. apply read_all_delivers; [|done].
  pose proof (delivers_around_damage wc rc lim rs1 [] out1 (take k (block_frame wc rs c)) [] Hco) as Hd.
  rewrite !app_nil_r in Hd. apply Hd; try done.
  - apply Forall_take.
    eapply (proj1 (bytes_app _ (padding (block_alignment wc) (len (block_frame wc rs c))))).
    eapply bytes_is_block; [done|done|]. by exists c.
  - intros t Ht Ho. destruct (decide (t = length out1)) as [->|]; [by eapply torn_block_rejected|].
    exfalso. apply (Hno t); [lia|done].
Qed.

(** C9: totality and soundness of recovery.  Whatever the bytes are, reading
    terminates without an error and delivers exactly the records of the intact
    blocks that the left-to-right scan meets. *)
Theorem read_any_bytes rc data :
  len data < MAX_U32 → bytes data → self_avoiding (rc_sync_marker rc) →
  length (rc_sync_marker rc) = 8%nat →
  ∃ blocks, readable rc data 0 blocks ∧
    ∀ fuel, (length (concat blocks) < fuel)%nat →
      ∃ r', read_all fuel (reader_with_config data rc) = Some (Ok (concat blocks), r').
Proof.
  intros Hl Hb Hs Hm.
  destruct (readable_total _ 0 (stats_ok_new data rc Hl Hb Hs Hm)) as [blocks Hr].
  exists blocks. split; [done|]. intros fuel Hf.
  apply read_all_delivers; [|done]. by apply delivers_readable.
Qed.
End Container.

(** ** The theorems apply *)

Section Witnesses.
#[local] Existing Instance stored_externals.
#[local] Existing Instance stored_laws.

Definition sample (n : Z) : OwnedRecord := mkRecord Logs n (10 * n) [1; 2; n].
Definition sample_wc : WriterConfig := mkWriterConfig 16 Lz4 DEFAULT_SYNC_MARKER 64.

Lemma sample_compatible : compatible sample_wc ReaderConfig_default DEFAULT_MAX_BLOCK_SIZE.
Proof.
  split; try done; try (apply default_marker_self_avoiding).
  - by apply (bool_decide_unpack _); vm_compute.
  - intros bs cs _ Hl Hc. by injection Hc as <-.
Qed.

Lemma sample_accepts : codec_accepts Lz4 MAX_U32.
Proof. intros bs _ Hl. by exists bs. Qed.


(** The defaults of the writer and the reader fit together. *)
Lemma default_compatible : compatible WriterConfig_default ReaderConfig_default DEFAULT_MAX_BLOCK_SIZE.
Proof.
  split; try done; try (apply default_marker_self_avoiding).
  - by apply (bool_decide_unpack _); vm_compute.
  - intros bs cs _ Hl Hc. by injection Hc as <-.
Qed.
Definition sample_out (rs : list OwnedRecord) : list Z :=
  match write_log [] sample_wc rs with Ok out => out | Err _ => [] end.

Lemma read_recovers_around_damage_witness :
  ∃ r', read_all 3 (reader_with_config
      (sample_out [sample 1] ++ [79; 84; 76; 80; 66; 0; 9] ++ sample_out [sample 2])
      ReaderConfig_default) = Some (Ok [sample 1; sample 2], r').
Proof.
  apply (read_recovers_around_damage sample_wc ReaderConfig_default DEFAULT_MAX_BLOCK_SIZE [sample 1] [sample 2]
    (sample_out [sample 1]) [79; 84; 76; 80; 66; 0; 9] (sample_out [sample 2]) 3 sample_compatible).
  - repeat constructor; vm_compute; discriminate.
  - repeat constructor; vm_compute; discriminate.
  - vm_compute. reflexivity.
  - vm_compute. reflexivity.
  - repeat constructor; vm_compute; discriminate.
  - vm_compute. reflexivity.
  - intros t Ht Ho. exfalso. revert Ho.
    apply (no_marker_before _ _ (length (sample_out [sample 1])) 7);
      [done|vm_compute; reflexivity|rewrite length_app in Ht; exact Ht].
  - simpl. lia.
Defined.

Lemma torn_write_keeps_earlier_records_witness :
  ∃ r', read_all 2 (reader_with_config (sample_out [sample 1] ++
      take 45 (block_frame sample_wc [sample 2] (encode_payload [sample 2])))
      ReaderConfig_default) = Some (Ok [sample 1], r').
Proof.
  apply (torn_write_keeps_earlier_records sample_wc ReaderConfig_default DEFAULT_MAX_BLOCK_SIZE [sample 1]
    (sample_out [sample 1]) [sample 2] (encode_payload [sample 2]) 45 2 sample_compatible).
  - repeat constructor; vm_compute; discriminate.
  - repeat constructor; vm_compute; discriminate.
  - vm_compute. reflexivity.
  - repeat constructor; vm_compute; discriminate.
  - reflexivity.
  - split; vm_compute; discriminate.
  - split; vm_compute; discriminate.
  - split; vm_compute; discriminate.
  - vm_compute. lia.
  - vm_compute. reflexivity.
  - apply no_marker_after; [done|]. vm_compute. reflexivity.
  - simpl. lia.
Defined.

Lemma read_any_bytes_witness :
  ∃ blocks, readable ReaderConfig_default [1; 79; 84; 0] 0 blocks ∧
    ∀ fuel, (length (concat blocks) < fuel)%nat →
      ∃ r', read_all fuel (reader_with_config [1; 79; 84; 0] ReaderConfig_default)
        = Some (Ok (concat blocks), r').
Proof.
  apply (read_any_bytes ReaderConfig_default [1; 79; 84; 0]).
  - reflexivity.
  - repeat constructor; vm_compute; discriminate.
  - apply default_marker_self_avoiding.
  - reflexivity.
Defined.

Lemma writer_emits_blocks_witness :
  ∃ blocks chunks, concat blocks = [sample 1; sample 2] ∧
    Forall (λ rs, block_records rs ∧ block_fits sample_wc rs) blocks ∧
    Forall2 (is_block sample_wc) blocks chunks ∧
    written (sample_out [sample 1; sample 2]) = written [] ++ concat chunks.
Proof.
  apply (writer_emits_blocks [] (sample_out [sample 1; sample 2]) sample_wc [sample 1; sample 2]).
  - repeat constructor; vm_compute; discriminate.
  - vm_compute. reflexivity.
Defined.

Definition sample_writer : LogjetWriter (list Z) :=
  (push Logs 7 70 [1] (with_config [] (mkWriterConfig 4096 Lz4 DEFAULT_SYNC_MARKER 0))).2.

Lemma push_refuses_earlier_record_witness :
  ∃ msg w', push Logs 8 60 [1] sample_writer = (Err (InvalidHeader msg), w') ∧
    inner w' = inner sample_writer ∧ payload_buf w' = payload_buf sample_writer ∧
    record_count w' = record_count sample_writer ∧ block_base_seq w' = block_base_seq sample_writer ∧
    block_base_ts_unix_ns w' = block_base_ts_unix_ns sample_writer.
Proof.
  apply (push_refuses_earlier_record 7 70 (mkRecord Logs 8 60 [1]) sample_writer).
  - vm_compute. reflexivity.
  - vm_compute. reflexivity.
  - right. vm_compute. reflexivity.
Defined.
End Witnesses.
