(* ===== verification/Text.v ===== *)
(** * Text

    The string operations of the Rust standard library that the daemon uses on
    file names, state files and protocol text, on UTF-8 bytes: decimal printing
    and [str::parse::<u64>], [trim], [starts_with], [ends_with], [strip_suffix],
    [lines], [split_once] and UTF-8 validation. *)

From S2P Require Import Prelude.

(** ** Decimal numbers *)

(** [z.to_string()] for a [u64]: at most 20 digits. *)
Fixpoint dec_loop (fuel : nat) (z : Z) (acc : list Z) : list Z :=
  match fuel with
  | O => acc
  | S fuel =>
      let acc := (48 + z mod 10) :: acc in
      if z / 10 =? 0 then acc else dec_loop fuel (z / 10) acc
  end.
Definition u64_to_string (z : Z) : list Z := dec_loop 20 z [].
Definition i64_to_string (v : Z) : list Z := if v <? 0 then 45 :: u64_to_string (- v) else u64_to_string v.

Inductive IntErrorKind : Type := Empty | InvalidDigit | PosOverflow.

Definition to_digit (b : Z) : option Z := if (48 <=? b) && (b <=? 57) then Some (b - 48) else None.

Fixpoint parse_digits (acc : Z) (bs : list Z) : result IntErrorKind Z :=
  match bs with
  | [] => Ok acc
  | b :: bs =>
      let? x := ok_or (to_digit b) InvalidDigit in
      if MAX_U64 <? acc * 10 then Err PosOverflow else
      let? acc := ok_or (checked_add MAX_U64 (acc * 10) x) PosOverflow in
      parse_digits acc bs
  end.

(** [s.parse::<u64>()]: a leading plus sign is accepted, a minus sign is not. *)
Definition parse_u64 (bs : list Z) : result IntErrorKind Z :=
  match bs with
  | [] => Err Empty
  | [43] | [45] => Err InvalidDigit
  | 43 :: digits => parse_digits 0 digits
  | digits => parse_digits 0 digits
  end.

(** ** Affixes and whitespace *)

Definition starts_with (s prefix : list Z) : bool := bool_decide (take (length prefix) s = prefix).
Definition ends_with (s suffix : list Z) : bool :=
  bool_decide (length suffix ≤ length s)%nat &&
  bool_decide (drop (length s - length suffix) s = suffix).
Definition strip_suffix (s suffix : list Z) : option (list Z) :=
  if ends_with s suffix then Some (take (length s - length suffix) s) else None.

(** The UTF-8 encodings of the characters with [char::is_whitespace]. *)
Definition whitespace : list (list Z) :=
  [[9]; [10]; [11]; [12]; [13]; [32]; [194; 133]; [194; 160]; [225; 154; 128];
   [226; 128; 128]; [226; 128; 129]; [226; 128; 130]; [226; 128; 131]; [226; 128; 132];
   [226; 128; 133]; [226; 128; 134]; [226; 128; 135]; [226; 128; 136]; [226; 128; 137];
   [226; 128; 138]; [226; 128; 168]; [226; 128; 169]; [226; 128; 175]; [226; 129; 159];
   [227; 128; 128]].

(** Removes characters of [ws] from the front; each turn removes a byte or more. *)
Fixpoint trim_front (fuel : nat) (ws : list (list Z)) (s : list Z) : list Z :=
  match fuel with
  | O => s
  | S fuel =>
      match list_find (λ w, starts_with s w = true) ws with
      | Some (_, w) => trim_front fuel ws (drop (length w) s)
      | None => s
      end
  end.

Definition trim_start (s : list Z) : list Z := trim_front (length s) whitespace s.
Definition trim_end (s : list Z) : list Z :=
  reverse (trim_front (length s) (reverse <$> whitespace) (reverse s)).
Definition trim_text (s : list Z) : list Z := trim_end (trim_start s).

(** ** Lines and pairs *)

(** [s.lines()]: split at line feeds, a carriage return before one belongs to the
    line ending, and a final line feed does not start another line. *)
Definition strip_cr (line : list Z) : list Z :=
  match strip_suffix line [13] with Some l => l | None => line end.
Fixpoint split_lines (cur s : list Z) : list (list Z) :=
  match s with
  | [] => if decide (cur = []) then [] else [cur]
  | 10 :: s => strip_cr cur :: split_lines [] s
  | b :: s => split_lines (cur ++ [b]) s
  end.
Definition lines (s : list Z) : list (list Z) := split_lines [] s.

(** [s.split_once(c)] for a one-byte [c]. *)
Fixpoint split_once (c : Z) (s : list Z) : option (list Z * list Z) :=
  match s with
  | [] => None
  | b :: s =>
      if b =? c then Some ([], s) else
      match split_once c s with
      | Some (l, r) => Some (b :: l, r)
      | None => None
      end
  end.

(** ** UTF-8 *)

Definition in_range (lo hi b : Z) : bool := (lo <=? b) && (b <=? hi).
Definition continuation (b : Z) : bool := in_range 128 191 b.

Fixpoint utf8_valid_loop (fuel : nat) (s : list Z) : bool :=
  match fuel with
  | O => bool_decide (s = [])
  | S fuel =>
      match s with
      | [] => true
      | b1 :: s =>
          if in_range 0 127 b1 then utf8_valid_loop fuel s else
          if in_range 194 223 b1 then
            match s with b2 :: s => continuation b2 && utf8_valid_loop fuel s | _ => false end else
          if in_range 224 239 b1 then
            match s with
            | b2 :: b3 :: s =>
                in_range (if b1 =? 224 then 160 else 128) (if b1 =? 237 then 159 else 191) b2 &&
                continuation b3 && utf8_valid_loop fuel s
            | _ => false
            end else
          if in_range 240 244 b1 then
            match s with
            | b2 :: b3 :: b4 :: s =>
                in_range (if b1 =? 240 then 144 else 128) (if b1 =? 244 then 143 else 191) b2 &&
                continuation b3 && continuation b4 && utf8_valid_loop fuel s
            | _ => false
            end else false
      end
  end.
Definition utf8_valid (s : list Z) : bool := utf8_valid_loop (length s) s.

(** ** Decimal round trip *)

Definition digit_byte (b : Z) : Prop := 48 ≤ b ≤ 57.

(** The value of a digit string. *)
Definition dec_value (acc : Z) (bs : list Z) : Z := foldl (λ a b, a * 10 + (b - 48)) acc bs.

Lemma dec_value_app acc bs cs : dec_value acc (bs ++ cs) = dec_value (dec_value acc bs) cs.
Proof. apply foldl_app. Qed.

Lemma dec_value_le acc bs : 0 ≤ acc → Forall digit_byte bs → acc ≤ dec_value acc bs.
Proof.
  intros Ha Hd. revert acc Ha. induction Hd as [|b bs Hb Hd IH]; intros acc Ha; simpl; [lia|].
  unfold digit_byte in Hb. specialize (IH (acc * 10 + (b - 48))). simpl in IH. lia.
Qed.

Lemma parse_digits_value acc bs :
  0 ≤ acc → Forall digit_byte bs → dec_value acc bs ≤ MAX_U64 →
  parse_digits acc bs = Ok (dec_value acc bs).
Proof.
  intros Ha Hd. revert acc Ha. induction Hd as [|b bs Hb Hd IH]; intros acc Ha Hm; simpl in *; [done|].
  pose proof (dec_value_le (acc * 10 + (b - 48)) bs ltac:(unfold digit_byte in Hb; lia) Hd) as Hle.
  change (foldl (λ a b, a * 10 + (b - 48)) (acc * 10 + (b - 48)) bs)
    with (dec_value (acc * 10 + (b - 48)) bs) in *.
  unfold digit_byte in Hb. unfold to_digit.
  destruct (Z.leb_spec 48 b), (Z.leb_spec b 57); try lia. cbn [andb ok_or].
  destruct (Z.ltb_spec MAX_U64 (acc * 10)); [lia|]. unfold checked_add.
  destruct (Z.leb_spec (acc * 10 + (b - 48)) MAX_U64); [|lia]. cbn [ok_or]. apply IH; lia.
Qed.

Lemma dec_loop_spec fuel z acc :
  0 ≤ z < 10 ^ Z.of_nat fuel → (0 < fuel)%nat →
  ∃ ds, dec_loop fuel z acc = ds ++ acc ∧ ds ≠ [] ∧ Forall digit_byte ds ∧ dec_value 0 ds = z.
Proof.
  revert z acc. induction fuel as [|fuel IH]; intros z acc Hz Hf; [lia|]. cbn [dec_loop].
  assert (digit_byte (48 + z mod 10)) as Hd by (unfold digit_byte; pose proof (Z.mod_pos_bound z 10); lia).
  pose proof (Z.div_mod z 10 ltac:(lia)) as Hdm.
  destruct (Z.eqb_spec (z / 10) 0) as [E|E].
  - exists [48 + z mod 10]. split_and!; [done..|by apply Forall_singleton|simpl; lia].
  - rewrite Nat2Z.inj_succ, Z.pow_succ_r in Hz by lia.
    assert (0 ≤ z / 10 < 10 ^ Z.of_nat fuel) as Hz'.
    { split; [apply Z.div_pos; lia|apply Z.div_lt_upper_bound; lia]. }
    destruct (decide (fuel = 0%nat)) as [->|]; [simpl in Hz'; lia|].
    destruct (IH (z / 10) ((48 + z mod 10) :: acc) Hz' ltac:(lia)) as (ds & -> & Hne & Hall & Hv).
    exists (ds ++ [48 + z mod 10]). split_and!.
    + by rewrite <- app_assoc.
    + by destruct ds.
    + apply Forall_app. split; [done|by apply Forall_singleton].
    + rewrite dec_value_app, Hv. simpl. lia.
Qed.

Lemma u64_to_string_spec z :
  is_u64 z → u64_to_string z ≠ [] ∧ Forall digit_byte (u64_to_string z) ∧ dec_value 0 (u64_to_string z) = z.
Proof.
  intros Hz. unfold u64_to_string.
  destruct (dec_loop_spec 20 z []) as (ds & -> & ? & ? & ?); [int_solve|lia|]. by rewrite app_nil_r.
Qed.

Lemma length_dec_loop fuel z acc : (length (dec_loop fuel z acc) ≤ fuel + length acc)%nat.
Proof.
  revert z acc. induction fuel as [|fuel IH]; intros z acc; cbn [dec_loop]; [lia|].
  destruct (_ =? _); [simpl; lia|]. etransitivity; [apply IH|]. simpl. lia.
Qed.

Lemma len_u64_to_string z : len (u64_to_string z) ≤ 20.
Proof. unfold len, u64_to_string. pose proof (length_dec_loop 20 z []) as H. rewrite length_nil in H. lia. Qed.

Lemma utf8_valid_ascii bs : Forall (λ b, 0 ≤ b ≤ 127) bs → utf8_valid bs = true.
Proof.
  unfold utf8_valid. induction 1 as [|b bs Hb Hbs IH]; [done|]. cbn [length utf8_valid_loop].
  assert (in_range 0 127 b = true) as -> by (unfold in_range; apply andb_true_iff; lia). done.
Qed.

Lemma utf8_valid_digits bs : Forall digit_byte bs → utf8_valid bs = true.
Proof. intros Hd. apply utf8_valid_ascii. eapply Forall_impl; [|exact Hd]. unfold digit_byte. lia. Qed.

Lemma parse_u64_digits bs :
  bs ≠ [] → Forall digit_byte bs → parse_u64 bs = parse_digits 0 bs.
Proof.
  intros Hne Hd. destruct Hd as [|b bs Hb Hd]; [done|]. unfold digit_byte in Hb. unfold parse_u64.
  assert (b = 48 ∨ b = 49 ∨ b = 50 ∨ b = 51 ∨ b = 52 ∨ b = 53 ∨ b = 54 ∨ b = 55 ∨ b = 56 ∨ b = 57) as H
    by lia.
  by destruct H as [->|[->|[->|[->|[->|[->|[->|[->|[->| ->]]]]]]]]].
Qed.

Lemma parse_u64_to_string z : is_u64 z → parse_u64 (u64_to_string z) = Ok z.
Proof.
  intros Hz. destruct (u64_to_string_spec z Hz) as (Hne & Hd & Hv).
  rewrite parse_u64_digits by done. rewrite parse_digits_value; [by rewrite Hv|lia|done|].
  rewrite Hv. int_solve.
Qed.

(** A parsed number fits. *)
Lemma parse_digits_u64 acc bs z : is_u64 acc → parse_digits acc bs = Ok z → is_u64 z.
Proof.
  revert acc. induction bs as [|b bs IH]; intros acc Ha Hp; simpl in Hp; [by inv_res|].
  destruct (to_digit b) as [x|] eqn:Ex; [|done]. simpl in Hp.
  destruct (Z.ltb_spec MAX_U64 (acc * 10)); [done|].
  destruct (checked_add MAX_U64 (acc * 10) x) as [acc'|] eqn:Ec; [|done].
  apply checked_add_Some in Ec as [-> Hle]. simpl in Hp. apply IH in Hp; [done|].
  unfold to_digit in Ex. destruct (Z.leb_spec 48 b), (Z.leb_spec b 57); simpl in Ex; inv_res; try done.
  int_solve.
Qed.

Lemma parse_u64_u64 bs z : parse_u64 bs = Ok z → is_u64 z.
Proof.
  intros Hp. assert (∃ ds, parse_digits 0 ds = Ok z) as [ds Hd].
  { unfold parse_u64 in Hp. repeat case_match; try discriminate; eexists; exact Hp. }
  eapply parse_digits_u64; [|exact Hd]. int_solve.
Qed.

(** ** Digits are untouched by trimming *)

Lemma trim_front_no_ws fuel ws s :
  (∀ w, w ∈ ws → starts_with s w = false) → trim_front fuel ws s = s.
Proof.
  intros Hw. destruct fuel; [done|]. cbn [trim_front].
  destruct (list_find _ ws) as [[i w]|] eqn:Hf; [|done].
  apply list_find_Some in Hf as (Hl & Hs & _). apply list_elem_of_lookup_2 in Hl.
  by rewrite Hw in Hs.
Qed.

Lemma starts_with_head b s w : starts_with (b :: s) w = true → w = [] ∨ list.head w = Some b.
Proof.
  unfold starts_with. destruct w as [|x w]; [by left|]. intros H%bool_decide_eq_true.
  simpl in H. injection H as -> _. by right.
Qed.

Lemma trim_text_digits bs : Forall digit_byte bs → trim_text bs = bs.
Proof.
  intros Hd. unfold trim_text, trim_start.
  assert (∀ ws ds, Forall digit_byte ds → ds ≠ [] →
    Forall (λ w, ∃ b, list.head w = Some b ∧ ¬ digit_byte b) ws → ∀ fuel, trim_front fuel ws ds = ds) as Ht.
  { intros ws ds Hds Hne Hws fuel. apply trim_front_no_ws. intros w Hw.
    apply not_true_is_false. intros Hs. rewrite list.Forall_forall in Hws.
    destruct (Hws w Hw) as (b & Hb & Hnd). destruct Hds as [|d ds Hdd Hds]; [done|].
    apply starts_with_head in Hs as [->|Hh]; [done|]. rewrite Hb in Hh. by injection Hh as ->. }
  destruct (decide (bs = [])) as [->|Hne]; [by vm_compute|].
  rewrite Ht; [|done..|].
  - unfold trim_end. rewrite Ht; [by rewrite reverse_involutive| | |].
    + by apply Forall_reverse.
    + intros E. apply (f_equal reverse) in E. rewrite reverse_involutive in E. by subst.
    + repeat (apply Forall_cons_2; [eexists; split; [vm_compute; reflexivity|unfold digit_byte; lia]|]). constructor.
  - repeat (apply Forall_cons_2; [eexists; split; [reflexivity|unfold digit_byte; lia]|]). constructor.
Qed.

(** ** Affixes *)

Lemma starts_with_true s p : starts_with s p = true ↔ ∃ r, s = p ++ r.
Proof.
  unfold starts_with. rewrite bool_decide_eq_true. split.
  - intros E. exists (drop (length p) s). rewrite <- E at 1. by rewrite take_drop.
  - intros [r ->]. by rewrite take_app_length.
Qed.

Lemma ends_with_true s p : ends_with s p = true ↔ ∃ r, s = r ++ p.
Proof.
  unfold ends_with. rewrite andb_true_iff, !bool_decide_eq_true. split.
  - intros [Hl E]. exists (take (length s - length p) s). rewrite <- E at 2. by rewrite take_drop.
  - intros [r ->]. rewrite length_app. split; [lia|].
    replace (length r + length p - length p)%nat with (length r) by lia. by rewrite drop_app_length.
Qed.

Lemma strip_suffix_app s p : strip_suffix (s ++ p) p = Some s.
Proof.
  unfold strip_suffix. rewrite (proj2 (ends_with_true (s ++ p) p)) by by exists s.
  rewrite length_app. replace (length s + length p - length p)%nat with (length s) by lia.
  by rewrite take_app_length.
Qed.

(** ** Trimming, lines and pairs *)

Lemma trim_front_drop fuel ws s : ∃ k, trim_front fuel ws s = drop k s.
Proof.
  revert s. induction fuel as [|fuel IH]; intros s; cbn [trim_front]; [by exists 0%nat|].
  destruct (list_find _ ws) as [[i w]|]; [|by exists 0%nat].
  destruct (IH (drop (length w) s)) as [k ->]. exists (length w + k)%nat. by rewrite drop_drop.
Qed.

Lemma trim_end_take s : ∃ k, trim_end s = take k s.
Proof.
  unfold trim_end. destruct (trim_front_drop (length s) (reverse <$> whitespace) (reverse s)) as [k ->].
  exists (length s - k)%nat. by rewrite reverse_drop, length_reverse, reverse_involutive.
Qed.

Lemma trim_start_cons b s :
  Forall (λ w, list.head w ≠ Some b ∧ w ≠ []) whitespace → trim_start (b :: s) = b :: s.
Proof.
  intros Hw. unfold trim_start. apply trim_front_no_ws. intros w Hin.
  rewrite list.Forall_forall in Hw. destruct (Hw w Hin) as [H1 H2].
  destruct (starts_with (b :: s) w) eqn:E; [|done]. apply starts_with_head in E as [?|?]; done.
Qed.

(** Trimming keeps a first byte that is no white space, if it keeps anything. *)
Lemma trim_text_head b s :
  Forall (λ w, list.head w ≠ Some b ∧ w ≠ []) whitespace →
  trim_text (b :: s) = [] ∨ ∃ s', trim_text (b :: s) = b :: s'.
Proof.
  intros Hw. unfold trim_text. rewrite (trim_start_cons b s Hw).
  destruct (trim_end_take (b :: s)) as [[|k] ->]; [by left|right; simpl; eauto].
Qed.

Lemma split_lines_cons cur b s : b ≠ 10 → split_lines cur (b :: s) = split_lines (cur ++ [b]) s.
Proof. intros Hb. destruct b as [|p|p]; try done. do 4 (destruct p as [p|p|]; try done). Qed.

Lemma split_lines_line cur line s :
  10 ∉ line → split_lines cur (line ++ 10 :: s) = strip_cr (cur ++ line) :: split_lines [] s.
Proof.
  revert cur. induction line as [|b line IH]; intros cur Hn; [simpl; by rewrite app_nil_r|].
  rewrite <- app_comm_cons. apply not_elem_of_cons in Hn as [Hb Hn].
  assert (cur ++ b :: line = (cur ++ [b]) ++ line) as -> by by rewrite <- app_assoc.
  rewrite <- IH by done. by apply split_lines_cons.
Qed.

Lemma strip_cr_last line b : b ≠ 13 → strip_cr (line ++ [b]) = line ++ [b].
Proof.
  intros Hb. unfold strip_cr, strip_suffix. destruct (ends_with _ _) eqn:E; [|done].
  apply ends_with_true in E as [r E]. by apply app_inj_tail in E as [_ ->].
Qed.

Lemma split_once_at c l r : c ∉ l → split_once c (l ++ c :: r) = Some (l, r).
Proof.
  induction l as [|b l IH]; intros Hn; simpl; [by rewrite Z.eqb_refl|].
  apply not_elem_of_cons in Hn as [Hb Hn]. destruct (Z.eqb_spec b c); [congruence|]. by rewrite IH.
Qed.

(** ** More of the string operations *)

Definition strip_prefix (s prefix : list Z) : option (list Z) :=
  if starts_with s prefix then Some (drop (length prefix) s) else None.

Lemma strip_prefix_app p s : strip_prefix (p ++ s) p = Some s.
Proof.
  unfold strip_prefix. rewrite (proj2 (starts_with_true (p ++ s) p)) by by exists s.
  by rewrite drop_app_length.
Qed.

(** [String::from_utf8_lossy]: every maximal part that cannot belong to a
    character becomes U+FFFD. *)
Definition replacement : list Z := [239; 191; 189].

Fixpoint utf8_lossy_loop (fuel : nat) (s : list Z) : list Z :=
  match fuel with
  | O => []
  | S fuel =>
      match s with
      | [] => []
      | b1 :: s =>
          let next := utf8_lossy_loop fuel in
          if in_range 0 127 b1 then b1 :: next s else
          if in_range 194 223 b1 then
            match s with
            | b2 :: s' => if continuation b2 then b1 :: b2 :: next s' else replacement ++ next s
            | [] => replacement
            end else
          if in_range 224 239 b1 then
            match s with
            | b2 :: s' =>
                if in_range (if b1 =? 224 then 160 else 128) (if b1 =? 237 then 159 else 191) b2 then
                  match s' with
                  | b3 :: s'' => if continuation b3 then b1 :: b2 :: b3 :: next s'' else replacement ++ next s'
                  | [] => replacement
                  end
                else replacement ++ next s
            | [] => replacement
            end else
          if in_range 240 244 b1 then
            match s with
            | b2 :: s' =>
                if in_range (if b1 =? 240 then 144 else 128) (if b1 =? 244 then 143 else 191) b2 then
                  match s' with
                  | b3 :: s'' =>
                      if continuation b3 then
                        match s'' with
                        | b4 :: s''' =>
                            if continuation b4 then b1 :: b2 :: b3 :: b4 :: next s''' else replacement ++ next s''
                        | [] => replacement
                        end
                      else replacement ++ next s'
                  | [] => replacement
                  end
                else replacement ++ next s
            | [] => replacement
            end
          else replacement ++ next s
      end
  end.
Definition from_utf8_lossy (s : list Z) : list Z := utf8_lossy_loop (length s) s.

Lemma from_utf8_lossy_ascii s : Forall (λ b, 0 ≤ b ≤ 127) s → from_utf8_lossy s = s.
Proof.
  unfold from_utf8_lossy. induction 1 as [|b bs Hb Hbs IH]; [done|]. cbn [length utf8_lossy_loop].
  assert (in_range 0 127 b = true) as -> by (unfold in_range; apply andb_true_iff; lia). by rewrite IH.
Qed.

(** ** Trimming visible text *)

(** A printable ASCII character other than the space. *)
Definition solid (b : Z) : Prop := 33 ≤ b ≤ 126.

Lemma solid_no_whitespace b :
  solid b → Forall (λ w, w ≠ [] ∧ list.head w ≠ Some b ∧ list.head (reverse w) ≠ Some b) whitespace.
Proof.
  intros Hb. unfold solid in Hb.
  repeat (apply Forall_cons_2; [split_and!; [done|simpl; intros [=]; lia|vm_compute; intros [=]; lia]|]). constructor.
Qed.

Lemma trim_start_solid b s : solid b → trim_start (b :: s) = b :: s.
Proof.
  intros Hb%solid_no_whitespace. apply trim_start_cons.
  eapply Forall_impl; [|exact Hb]. intros w (? & ? & _). by split.
Qed.

Lemma trim_end_solid s b : solid b → trim_end (s ++ [b]) = s ++ [b].
Proof.
  intros Hb%solid_no_whitespace. unfold trim_end. rewrite reverse_snoc, trim_front_no_ws.
  - by rewrite reverse_cons, reverse_involutive.
  - intros w (w0 & -> & Hw)%list_elem_of_fmap. rewrite list.Forall_forall in Hb. destruct (Hb w0 Hw) as (H1 & _ & H3).
    apply not_true_is_false. intros [E|E]%starts_with_head; [|done].
    apply (f_equal reverse) in E. by rewrite reverse_involutive in E.
Qed.

Lemma trim_text_solid s b c :
  list.head s = Some b → list.last s = Some c → solid b → solid c → trim_text s = s.
Proof.
  intros Hh (s0 & Es)%last_Some Hb Hc. unfold trim_text. destruct s as [|x s]; [done|]. injection Hh as ->.
  rewrite (trim_start_solid b s Hb), Es. by apply trim_end_solid.
Qed.

Lemma trim_front_blank ws fuel s :
  Forall (λ w, (w = [] ∨ list.head w = Some 32) → w = [32]) ws → [32] ∈ ws →
  trim_front (S fuel) ws (32 :: s) = trim_front fuel ws s.
Proof.
  intros Ha Hin. cbn [trim_front]. destruct (list_find _ _) as [[i w]|] eqn:Hf.
  - apply list_find_Some in Hf as (Hl & Hs & _). apply starts_with_head in Hs.
    apply list_elem_of_lookup_2 in Hl. rewrite list.Forall_forall in Ha. by rewrite (Ha w Hl Hs).
  - exfalso. apply list_find_None in Hf. rewrite list.Forall_forall in Hf. apply (Hf [32] Hin).
    apply starts_with_true. by exists s.
Qed.

Lemma trim_front_space fuel s :
  trim_front (S fuel) (reverse <$> whitespace) (32 :: s) = trim_front fuel (reverse <$> whitespace) s.
Proof.
  apply trim_front_blank; [|apply (bool_decide_unpack _); vm_compute; exact I].
  repeat (apply Forall_cons_2; [vm_compute; intros [?|?]; congruence|]). constructor.
Qed.

Lemma trim_start_space s : trim_start (32 :: s) = trim_start s.
Proof.
  apply trim_front_blank; [|apply (bool_decide_unpack _); vm_compute; exact I].
  repeat (apply Forall_cons_2; [vm_compute; intros [?|?]; congruence|]). constructor.
Qed.

Lemma trim_end_spaces s n : trim_end (s ++ replicate n 32) = trim_end s.
Proof.
  unfold trim_end. f_equal. rewrite reverse_app, reverse_replicate, length_app, length_replicate.
  rewrite Nat.add_comm. induction n as [|n IH]; [done|]. cbn [replicate app Nat.add]. by rewrite trim_front_space.
Qed.

(** ** Words *)

(** The length of the white space character at the front. *)
Definition leading_whitespace (s : list Z) : option nat :=
  match list_find (λ w, starts_with s w = true) whitespace with
  | Some (_, w) => Some (length w)
  | None => None
  end.

Definition push_word (cur : list Z) (words : list (list Z)) : list (list Z) :=
  match cur with [] => words | _ => cur :: words end.

(** [s.split_whitespace()]; each turn takes at least one byte. *)
Fixpoint split_ws_loop (fuel : nat) (cur s : list Z) : list (list Z) :=
  match fuel with
  | O => push_word cur []
  | S fuel =>
      match s with
      | [] => push_word cur []
      | b :: rest =>
          match leading_whitespace s with
          | Some n => push_word cur (split_ws_loop fuel [] (drop n s))
          | None => split_ws_loop fuel (cur ++ [b]) rest
          end
      end
  end.
Definition split_whitespace (s : list Z) : list (list Z) := split_ws_loop (S (length s)) [] s.

(** [words.join(sep)] *)
Fixpoint join (sep : list Z) (words : list (list Z)) : list Z :=
  match words with
  | [] => []
  | [w] => w
  | w :: words => w ++ sep ++ join sep words
  end.

(** [s.replace(pat, with)]; an empty pattern matches at every character boundary. *)
Fixpoint replace_loop (fuel : nat) (pat with_ s : list Z) : list Z :=
  match fuel with
  | O => s
  | S fuel =>
      match s with
      | [] => []
      | b :: rest =>
          if starts_with s pat then with_ ++ replace_loop fuel pat with_ (drop (length pat) s)
          else b :: replace_loop fuel pat with_ rest
      end
  end.
Definition replace_text (pat with_ s : list Z) : list Z :=
  match pat with
  | [] => concat ((λ b, if continuation b then [b] else with_ ++ [b]) <$> s) ++ with_
  | _ => replace_loop (length s) pat with_ s
  end.

(** ** ASCII classes *)

Definition is_ascii_digit (b : Z) : bool := in_range 48 57 b.
Definition is_ascii_uppercase (b : Z) : bool := in_range 65 90 b.
Definition is_ascii_lowercase (b : Z) : bool := in_range 97 122 b.
Definition is_ascii_alphabetic (b : Z) : bool := is_ascii_uppercase b || is_ascii_lowercase b.
Definition is_ascii_alphanumeric (b : Z) : bool := is_ascii_alphabetic b || is_ascii_digit b.
Definition is_hex_alpha (b : Z) : bool := in_range 97 102 b || in_range 65 70 b.
Definition is_ascii_hexdigit (b : Z) : bool := is_ascii_digit b || is_hex_alpha b.

Definition ascii_lower (b : Z) : Z := if is_ascii_uppercase b then b + 32 else b.
Definition to_ascii_lowercase (s : list Z) : list Z := ascii_lower <$> s.

(** ** Searching and splitting *)

(** The longest prefix of bytes that satisfy [p]. *)
Fixpoint take_while (p : Z → bool) (s : list Z) : list Z :=
  match s with
  | [] => []
  | b :: s => if p b then b :: take_while p s else []
  end.

(** [s.contains(pat)] *)
Fixpoint contains_text (s pat : list Z) : bool :=
  starts_with s pat || match s with [] => false | _ :: s => contains_text s pat end.

(** [s.split(c)] for an ASCII character. *)
Fixpoint split_char (c : Z) (cur s : list Z) : list (list Z) :=
  match s with
  | [] => [cur]
  | b :: s => if b =? c then cur :: split_char c [] s else split_char c (cur ++ [b]) s
  end.
Definition split_on (c : Z) (s : list Z) : list (list Z) := split_char c [] s.

(** [s.trim_end_matches(p)] for ASCII characters. *)
Definition trim_end_matches (p : Z → bool) (s : list Z) : list Z :=
  let r := reverse s in reverse (drop (length (take_while p r)) r).

(** ** Characters *)

(** The length of a character from its first byte. *)
Definition char_len (b : Z) : nat := if b <? 128 then 1 else if b <? 224 then 2 else if b <? 240 then 3 else 4.
Definition char_of_bytes (ch : list Z) : Z :=
  match ch with
  | [a; b] => (a - 192) * 64 + (b - 128)
  | [a; b; c] => (a - 224) * 4096 + (b - 128) * 64 + (c - 128)
  | [a; b; c; d] => (a - 240) * 262144 + (b - 128) * 4096 + (c - 128) * 64 + (d - 128)
  | ch => default 0 (list.head ch)
  end.
(** [s.chars()] *)
Fixpoint chars_loop (fuel : nat) (s : list Z) : list Z :=
  match fuel, s with
  | S fuel, b :: _ => char_of_bytes (take (char_len b) s) :: chars_loop fuel (drop (char_len b) s)
  | _, _ => []
  end.
Definition chars_of (s : list Z) : list Z := chars_loop (length s) s.
(** UTF-8 of a character *)
Definition utf8_char (c : Z) : list Z :=
  if c <? 128 then [c] else
  if c <? 2048 then [192 + Z.shiftr c 6; 128 + Z.land c 63] else
  if c <? 65536 then [224 + Z.shiftr c 12; 128 + Z.land (Z.shiftr c 6) 63; 128 + Z.land c 63] else
  [240 + Z.shiftr c 18; 128 + Z.land (Z.shiftr c 12) 63; 128 + Z.land (Z.shiftr c 6) 63; 128 + Z.land c 63].
Definition string_of_chars (s : list Z) : list Z := concat (utf8_char <$> s).
