(* ===== verification/RecordLoop.v ===== *)
(** * Loops over the records of a file

    [while let Some(record) = reader.next_record()? { body }], as the daemon and
    the command line tool use the reader.  The loop of [next_record] is unfolded
    into the outer one: first the records that are pending, then the next block.
    A turn of the outer loop consumes a block, so the length of the data bounds
    the number of turns. *)

From S2P Require Import Prelude Format Reader Scan.

(** The body returns the new loop state and whether to go on. *)
Definition loop_body (A : Type) : Type := A → OwnedRecord → A * bool.

(** Reference: the loop on a list. *)
Fixpoint fold_until {A} (body : loop_body A) (a : A) (rs : list OwnedRecord) : A * bool :=
  match rs with
  | [] => (a, true)
  | r :: rs => let '(a', go_on) := body a r in
               if go_on then fold_until body a' rs else (a', false)
  end.

Section Loop.
Context {EX : Externals} {A : Type} (body : loop_body A).

Fixpoint drain_pending (a : A) (ps : list OwnedRecord) (r : LogjetReader)
    : result Error (A * bool) * LogjetReader :=
  match ps with
  | [] => (Ok (a, true), r)
  | record :: ps =>
      match bump (records_ok (r_stats r)) 1 "records_ok" upd_records_ok (set_pending ps r) with
      | (Err e, r) => (Err e, r)
      | (Ok _, r) =>
          let '(a', go_on) := body a record in
          if go_on then drain_pending a' ps r else (Ok (a', false), r)
      end
  end.

(** [None] is an exhausted fuel, which [while_records_delivers] rules out. *)
Fixpoint while_loop (fuel : nat) (a : A) (r : LogjetReader) : option (result Error A * LogjetReader) :=
  match fuel with
  | O => None
  | S fuel =>
      match drain_pending a (r_pending r) r with
      | (Err e, r) => Some (Err e, r)
      | (Ok (a, false), r) => Some (Ok a, r)
      | (Ok (a, true), r) =>
          match scan_next_block r with
          | Some (Ok true, r) => while_loop fuel a r
          | Some (Ok false, r) => Some (Ok a, r)
          | Some (Err e, r) => Some (Err e, r)
          | None => None
          end
      end
  end.

Definition while_records (a : A) (r : LogjetReader) : option (result Error A * LogjetReader) :=
  while_loop (2 + length (r_data r)) a r.
End Loop.

Section Loop_facts.
Context {EX : Externals} {EL : ExternalLaws} {A : Type} (body : loop_body A).

Lemma fold_until_app a xs ys :
  fold_until body a (xs ++ ys) =
    match fold_until body a xs with
    | (a', true) => fold_until body a' ys
    | (a', false) => (a', false)
    end.
Proof.
  revert a. induction xs as [|x xs IH]; intros a; simpl; [done|].
  destruct (body a x) as [a' []]; [apply IH|done].
Qed.

Lemma drain_pending_spec a ps r :
  reading_ok r → r_pending r = ps →
  ∃ r', drain_pending body a ps r = (Ok (fold_until body a ps), r') ∧
    ((fold_until body a ps).2 = true → reading_ok r' ∧ r_data r' = r_data r ∧
      r_config r' = r_config r ∧ r_pos r' = r_pos r ∧ r_pending r' = []).
Proof.
  revert a r. induction ps as [|x ps IH]; intros a r Hok Hp; cbn [drain_pending fold_until].
  { exists r. split; [done|]. intros _. done. }
  destruct (next_record_pending 0 r x ps Hok Hp) as (r1 & Hn & Hok1 & Hd & Hc & Hq & Hp1).
  cbn [next_record_loop] in Hn. rewrite Hp in Hn. unfold bind in Hn.
  change (r_stats (set_pending ps r)) with (r_stats r) in Hn.
  destruct (bump (records_ok (r_stats r)) 1 "records_ok" upd_records_ok (set_pending ps r))
    as [[u|e] r0] eqn:Hb; [|done]. injection Hn as ->.
  destruct (body a x) as [a' []]; [|by exists r1].
  destruct (IH a' r1 Hok1 Hp1) as (r' & -> & Hr'). exists r'. split; [done|].
  intros Ht. destruct (Hr' Ht) as (? & ? & ? & ? & ?). split_and!; congruence.
Qed.

Lemma while_loop_spec fuel a r blocks :
  reading_ok r → readable (r_config r) (r_data r) (r_pos r) blocks →
  (length (r_data r) - r_pos r < fuel)%nat →
  ∃ r', while_loop body fuel a r = Some (Ok (fold_until body a (r_pending r ++ concat blocks)).1, r').
Proof.
  intros Hok Hrd. remember (r_config r) as cfg eqn:Ecfg. remember (r_data r) as data eqn:Edata.
  remember (r_pos r) as p eqn:Ep. revert fuel a r Ecfg Edata Ep Hok.
  induction Hrd as [p Hrej|p s q rs blocks Hps Hrej Hblk Hrd IH];
    intros fuel a r -> -> -> Hok Hfuel; (destruct fuel as [|fuel]; [lia|]); cbn [while_loop];
    rewrite fold_until_app;
    destruct (drain_pending_spec a (r_pending r) r Hok eq_refl) as (r1 & -> & Hr1);
    (destruct (fold_until body a (r_pending r)) as [a1 []]; [|by eexists]);
    destruct (Hr1 eq_refl) as ([Hok1 Hsk1] & Hd & Hc & Hq & Hp1); unfold scan_next_block.
  - destruct (scan_to_end (2 + length (r_data r1)) (r_pos r1) r1) as (r' & -> & ?);
      rewrite ?Hd, ?Hc, ?Hq in *; try done; try lia. by eexists.
  - pose proof (block_at_range _ _ _ _ _ Hblk) as Hqr.
    destruct (scan_to (2 + length (r_data r1)) (r_pos r1) r1 s q rs)
      as (r' & -> & Hok' & Hd' & Hc' & Hp' & Hq'); rewrite ?Hd, ?Hc, ?Hq in *; try done; try lia.
    rewrite Hp1, app_nil_l in Hp'.
    destruct (IH fuel a1 r') as (r'' & ->); try congruence; try lia.
    exists r''. simpl. by rewrite Hp'.
Qed.

Lemma while_records_delivers a r rs :
  delivers r rs → ∃ r', while_records body a r = Some (Ok (fold_until body a rs).1, r').
Proof.
  intros [Hok (blocks & Hrd & ->)]. apply while_loop_spec; [done|done|]. destruct Hok as [[] _]. lia.
Qed.

(** *** Where a loop that breaks leaves the reader *)

Fixpoint rest_after (a : A) (rs : list OwnedRecord) : list OwnedRecord :=
  match rs with
  | [] => []
  | r :: rs => let '(a', go_on) := body a r in if go_on then rest_after a' rs else rs
  end.

Lemma rest_after_app a xs ys :
  rest_after a (xs ++ ys) =
    match fold_until body a xs with
    | (a', true) => rest_after a' ys
    | (_, false) => rest_after a xs ++ ys
    end.
Proof.
  revert a. induction xs as [|x xs IH]; intros a; simpl; [done|]. destruct (body a x) as [a' []]; [apply IH|done].
Qed.

Lemma drain_pending_rest a ps r :
  reading_ok r → r_pending r = ps → (fold_until body a ps).2 = false →
  ∃ r', drain_pending body a ps r = (Ok (fold_until body a ps), r') ∧ reading_ok r' ∧ r_data r' = r_data r ∧
    r_config r' = r_config r ∧ r_pos r' = r_pos r ∧ r_pending r' = rest_after a ps.
Proof.
  revert a r. induction ps as [|x ps IH]; intros a r Hok Hp; cbn [drain_pending fold_until rest_after]; [done|].
  destruct (next_record_pending 0 r x ps Hok Hp) as (r1 & Hn & Hok1 & Hd & Hc & Hq & Hp1).
  cbn [next_record_loop] in Hn. rewrite Hp in Hn. unfold bind in Hn.
  change (r_stats (set_pending ps r)) with (r_stats r) in Hn.
  destruct (bump (records_ok (r_stats r)) 1 "records_ok" upd_records_ok (set_pending ps r))
    as [[u|e] r0] eqn:Hb; [|done]. injection Hn as ->.
  destruct (body a x) as [a' []]; [|intros _; by exists r1].
  intros Hf. destruct (IH a' r1 Hok1 Hp1 Hf) as (r' & -> & Hok' & Hd' & Hc' & Hq' & Hp'). exists r'. split_and!; congruence || done.
Qed.

Lemma while_loop_rest fuel a r blocks :
  reading_ok r → readable (r_config r) (r_data r) (r_pos r) blocks →
  (length (r_data r) - r_pos r < fuel)%nat → (fold_until body a (r_pending r ++ concat blocks)).2 = false →
  ∃ r', while_loop body fuel a r = Some (Ok (fold_until body a (r_pending r ++ concat blocks)).1, r') ∧
    delivers r' (rest_after a (r_pending r ++ concat blocks)).
Proof.
  intros Hok Hrd. remember (r_config r) as cfg eqn:Ecfg. remember (r_data r) as data eqn:Edata.
  remember (r_pos r) as p eqn:Ep. revert fuel a r Ecfg Edata Ep Hok.
  induction Hrd as [p Hrej|p s q rs blocks Hps Hrej Hblk Hrd IH];
    intros fuel a r -> -> -> Hok Hfuel; (destruct fuel as [|fuel]; [lia|]); cbn [while_loop];
    rewrite fold_until_app, rest_after_app;
    (destruct (fold_until body a (r_pending r)) as [a1 []] eqn:Ef;
     [|intros _; destruct (drain_pending_rest a (r_pending r) r Hok eq_refl) as (r1 & Hdr & Hok1 & Hd & Hc & Hq & Hp1);
       [by rewrite Ef|]; rewrite Hdr, Ef; exists r1; split; [done|]; split; [done|]; eexists;
       split; [rewrite Hd, Hc, Hq; by econstructor|by rewrite Hp1]]).
  - by simpl.
  - intros Hf. destruct (drain_pending_spec a (r_pending r) r Hok eq_refl) as (r1 & -> & Hr1). rewrite Ef in *.
    destruct (Hr1 eq_refl) as ([Hok1 Hsk1] & Hd & Hc & Hq & Hp1). unfold scan_next_block.
    pose proof (block_at_range _ _ _ _ _ Hblk) as Hqr.
    destruct (scan_to (2 + length (r_data r1)) (r_pos r1) r1 s q rs)
      as (r' & -> & Hok' & Hd' & Hc' & Hp' & Hq'); rewrite ?Hd, ?Hc, ?Hq in *; try done; try lia.
    rewrite Hp1, app_nil_l in Hp'. cbn [concat] in *.
    destruct (IH fuel a1 r') as (r'' & -> & Hdel); try congruence; try lia. rewrite Hp' in *. by exists r''.
Qed.

Lemma while_records_rest a r rs :
  delivers r rs → (fold_until body a rs).2 = false →
  ∃ r', while_records body a r = Some (Ok (fold_until body a rs).1, r') ∧ delivers r' (rest_after a rs).
Proof.
  intros [Hok (blocks & Hrd & ->)] Hf. apply while_loop_rest; [done|done| |done]. destruct Hok as [[] _]. lia.
Qed.
End Loop_facts.
