(* ===== verification/Protocol.v ===== *)
(** * The wire and replay protocol

    Models [logjetd/src/protocol.rs]: the framed records that producers send to
    the daemon and the three fixed-size messages of the replay protocol.  A
    connection is the bytes that arrive on it and the way it ends. *)

From S2P Require Import Prelude Format Writer Instances.

(** ** Streams *)

(** The input side of a connection: what will arrive, and then an orderly end
    of stream ([None]) or an error such as a timeout. *)
Record Stream : Type := mkStream { input : list Z; ending : option IoError }.

Local Abbreviation SM := (M Stream IoError).

Definition end_error (s : Stream) : IoError :=
  match ending s with
  | None => io_error UnexpectedEof "failed to fill whole buffer"
  | Some err => err
  end.

(** [reader.read_exact(&mut [0u8; n])] *)
Definition stream_read (n : nat) : SM (list Z) :=
  λ s, if decide (n ≤ length (input s))%nat
       then (Ok (take n (input s)), mkStream (drop n (input s)) (ending s))
       else (Err (end_error s), mkStream [] (ending s)).

(** ** Messages *)

Definition WIRE_MAGIC : list Z := Eval vm_compute in str "LJNETV01".
Definition WIRE_VERSION : Z := 1.
Definition REPLAY_REQUEST_MAGIC : list Z := Eval vm_compute in str "LJRPL001".
Definition REPLAY_REQUEST_VERSION : Z := 1.
Definition REPLAY_HELLO_MAGIC : list Z := Eval vm_compute in str "LJRPH001".
Definition REPLAY_HELLO_VERSION : Z := 1.
Definition REPLAY_ACK_MAGIC : list Z := Eval vm_compute in str "LJRPA001".
Definition REPLAY_ACK_VERSION : Z := 1.

Record WireRecord : Type := mkWire {
  wire_type : RecordType;
  wire_seq : Z;
  wire_ts : Z;
  wire_payload : list Z;
}.

Record ReplayRequest : Type := mkReplayRequest { from_seq : Z; consume : bool }.
Record ReplayAck : Type := mkReplayAck { ack_seq : Z }.
Record ReplayHello : Type := mkReplayHello { stream_id : Z; first_seq : Z; last_seq : Z }.

#[export] Instance WireRecord_eq_dec : EqDecision WireRecord.
Proof. solve_decision. Defined.

Definition invalid_data (msg : string) : IoError := io_error InvalidData msg.

Section Wire.
Context {EX : Externals}.

(** [match codec { .. }] of [read_record_with_limit] *)
Definition decode_wire_payload (codec : Z) (wp : list Z) : result IoError (list Z) :=
  match codec with
  | 0 => Ok wp
  | 1 =>
      if len wp <? 4
      then Err (invalid_data "LZ4 wire payload too short for uncompressed length") else
      let uncompressed_len := from_le (take 4 wp) in
      map_err (λ err, invalid_data ("LZ4 decompress failed: " +:+ err))
        (lz4_block_decompress (drop 4 wp) uncompressed_len)
  | other => Err (invalid_data ("unknown wire codec: " +:+ show other))
  end.

(** The part of [read_record_with_limit] after the magic. *)
Definition read_record_body (max_payload_len : Z) : SM (option WireRecord) :=
  let! header := stream_read 24 in
  let version := byte_at header 0 in
  if negb (version =? WIRE_VERSION)
  then throw (invalid_data ("unsupported wire protocol version: " +:+ show version)) else
  let! record_type := lift (map_err (λ err, invalid_data ("invalid wire record type: " +:+ Error_fmt err))
                              (RecordType_from_u8 (byte_at header 1))) in
  let codec := byte_at header 2 in
  let payload_len := from_le (slice 20 24 header) in
  if max_payload_len <? payload_len
  then throw (invalid_data ("wire payload too large: " +:+ show payload_len +:+ " > " +:+
                            show max_payload_len)) else
  let! wp := stream_read (Z.to_nat payload_len) in
  let! crc_bytes := stream_read 4 in
  let expected_crc := from_le crc_bytes in
  let actual_crc := crc32c (header ++ wp) in
  if negb (actual_crc =? expected_crc)
  then throw (invalid_data ("wire record CRC32C mismatch: expected " +:+ show_hex8 expected_crc +:+
                            ", got " +:+ show_hex8 actual_crc)) else
  let! pl := lift (decode_wire_payload codec wp) in
  ret (Some (mkWire record_type (from_le (slice 4 12 header)) (from_le (slice 12 20 header)) pl)).

Definition read_record_with_limit (max_payload_len : Z) : SM (option WireRecord) :=
  λ s, match stream_read 8 s with
       | (Ok magic, s') =>
           if negb (bool_decide (magic = WIRE_MAGIC))
           then (Err (invalid_data "invalid wire protocol magic"), s')
           else read_record_body max_payload_len s'
       | (Err err, s') =>
           if decide (io_kind err = UnexpectedEof) then (Ok None, s') else (Err err, s')
       end.

Definition read_record : SM (option WireRecord) := read_record_with_limit MAX_U64.

(** The codec byte and the payload bytes that [write_record] puts on the wire. *)
Definition encode_wire_payload (pl : list Z) (compress : bool) : result IoError (Z * list Z) :=
  if compress then
    let compressed := lz4_block_compress pl in
    if len compressed <? len pl then
      let? uncompressed_len := ok_or (try_from MAX_U32 (len pl))
                                 (io_error InvalidInput "payload too large for wire protocol") in
      Ok (1, to_le 4 uncompressed_len ++ compressed)
    else Ok (0, pl)
  else Ok (0, pl).

(** The buffer that [write_record] builds. *)
Definition encode_wire_record (record : WireRecord) (compress : bool) : result IoError (list Z) :=
  let? (codec, wp) := encode_wire_payload (wire_payload record) compress in
  let? payload_len := ok_or (try_from MAX_U32 (len wp))
                        (io_error InvalidInput "payload too large for wire protocol") in
  let buf := WIRE_MAGIC ++ [WIRE_VERSION] ++ [RecordType_as_u8 (wire_type record)] ++ [codec] ++ [0] ++
             to_le 8 (wire_seq record) ++ to_le 8 (wire_ts record) ++ to_le 4 payload_len ++ wp in
  let crc := crc32c (drop (length WIRE_MAGIC) buf) in
  Ok (buf ++ to_le 4 crc).

Definition write_record {W} `{Write W} (record : WireRecord) (compress : bool) : M W IoError unit :=
  let! buf := lift (encode_wire_record record compress) in
  write_all buf.
End Wire.

Definition read_replay_request : SM ReplayRequest :=
  let! magic := stream_read 8 in
  if negb (bool_decide (magic = REPLAY_REQUEST_MAGIC))
  then throw (invalid_data "invalid replay request magic") else
  let! header := stream_read 16 in
  let version := byte_at header 0 in
  if negb (version =? REPLAY_REQUEST_VERSION)
  then throw (invalid_data ("unsupported replay request version: " +:+ show version)) else
  ret (mkReplayRequest (from_le (slice 8 16 header))
         (negb (Z.land (byte_at header 1) 1 =? 0))).

(** [buf] of [write_replay_request]: 24 zero bytes of which some are assigned. *)
Definition encode_replay_request (request : ReplayRequest) : list Z :=
  REPLAY_REQUEST_MAGIC ++ [REPLAY_REQUEST_VERSION; if consume request then 1 else 0] ++
  replicate 6 0 ++ to_le 8 (from_seq request).
Definition write_replay_request {W} `{Write W} (request : ReplayRequest) : M W IoError unit :=
  write_all (encode_replay_request request).

Definition read_replay_hello : SM ReplayHello :=
  let! magic := stream_read 8 in
  if negb (bool_decide (magic = REPLAY_HELLO_MAGIC))
  then throw (invalid_data "invalid replay hello magic") else
  let! header := stream_read 32 in
  let version := byte_at header 0 in
  if negb (version =? REPLAY_HELLO_VERSION)
  then throw (invalid_data ("unsupported replay hello version: " +:+ show version)) else
  ret (mkReplayHello (from_le (slice 8 16 header)) (from_le (slice 16 24 header))
         (from_le (slice 24 32 header))).

Definition encode_replay_hello (hello : ReplayHello) : list Z :=
  REPLAY_HELLO_MAGIC ++ [REPLAY_HELLO_VERSION] ++ replicate 7 0 ++
  to_le 8 (stream_id hello) ++ to_le 8 (first_seq hello) ++ to_le 8 (last_seq hello).
Definition write_replay_hello {W} `{Write W} (hello : ReplayHello) : M W IoError unit :=
  write_all (encode_replay_hello hello).

Definition read_replay_ack : SM ReplayAck :=
  let! magic := stream_read 8 in
  if negb (bool_decide (magic = REPLAY_ACK_MAGIC))
  then throw (invalid_data "invalid replay ack magic") else
  let! header := stream_read 16 in
  let version := byte_at header 0 in
  if negb (version =? REPLAY_ACK_VERSION)
  then throw (invalid_data ("unsupported replay ack version: " +:+ show version)) else
  ret (mkReplayAck (from_le (slice 8 16 header))).

Definition encode_replay_ack (ack : ReplayAck) : list Z :=
  REPLAY_ACK_MAGIC ++ [REPLAY_ACK_VERSION] ++ replicate 7 0 ++ to_le 8 (ack_seq ack).
Definition write_replay_ack {W} `{Write W} (ack : ReplayAck) : M W IoError unit :=
  write_all (encode_replay_ack ack).

#[global] Arguments stream_read : simpl never.

(** ** Reading from a stream *)

Lemma stream_read_app x rest e n :
  n = length x → stream_read n (mkStream (x ++ rest) e) = (Ok x, mkStream rest e).
Proof.
  intros ->. unfold stream_read. simpl. rewrite decide_True by (rewrite length_app; lia).
  by rewrite take_app_length, drop_app_length.
Qed.

Lemma stream_read_short l e n :
  (length l < n)%nat → stream_read n (mkStream l e) = (Err (end_error (mkStream l e)), mkStream [] e).
Proof. intros Hl. unfold stream_read. simpl. by rewrite decide_False by lia. Qed.

Lemma stream_read_Ok n s l s' :
  stream_read n s = (Ok l, s') → input s = l ++ input s' ∧ length l = n ∧ ending s' = ending s.
Proof.
  unfold stream_read. case_decide; intros; inv_res. simpl.
  split_and!; [by rewrite take_drop|rewrite length_take; lia|done].
Qed.

(** ** Fixed-size messages

    What a replay peer relies on: a message written to a stream is read back
    whole and nothing after it is consumed, and a connection that breaks inside a
    message gives an error, never a message. *)

Class Message (A : Type) : Type := {
  msg_encode : A → list Z;
  msg_read : SM A;
  msg_valid : A → Prop;
}.

Class MessageLaws (A : Type) `{Message A} : Prop := {
  msg_roundtrip : ∀ a rest e, msg_valid a →
    msg_read (mkStream (msg_encode a ++ rest) e) = (Ok a, mkStream rest e);
  msg_torn : ∀ a k e, msg_valid a → (k < length (msg_encode a))%nat →
    msg_read (mkStream (take k (msg_encode a)) e) =
      (Err (end_error (mkStream [] e)), mkStream [] e);
}.

#[export] Instance ReplayRequest_Message : Message ReplayRequest := {|
  msg_encode := encode_replay_request;
  msg_read := read_replay_request;
  msg_valid r := is_u64 (from_seq r);
|}.
#[export] Instance ReplayHello_Message : Message ReplayHello := {|
  msg_encode := encode_replay_hello;
  msg_read := read_replay_hello;
  msg_valid h := is_u64 (stream_id h) ∧ is_u64 (first_seq h) ∧ is_u64 (last_seq h);
|}.
#[export] Instance ReplayAck_Message : Message ReplayAck := {|
  msg_encode := encode_replay_ack;
  msg_read := read_replay_ack;
  msg_valid a := is_u64 (ack_seq a);
|}.

(** Reading a magic and a header that a stream may hold only in part. *)
Lemma read_two_torn {A} (magic header : list Z) (k : nat) e (f : list Z → SM A) (err : IoError) :
  (k < length (magic ++ header))%nat →
  (let! m := stream_read (length magic) in
   if negb (bool_decide (m = magic)) then throw err else
   let! h := stream_read (length header) in f h) (mkStream (take k (magic ++ header)) e)
  = (Err (end_error (mkStream [] e)), mkStream [] e).
Proof.
  intros Hk. rewrite length_app in Hk. unfold bind at 1.
  destruct (decide (k < length magic)%nat) as [Hlt|Hge].
  - rewrite stream_read_short; [done|]. rewrite length_take, length_app. lia.
  - rewrite take_app_ge by lia. rewrite stream_read_app by done.
    rewrite bool_decide_eq_true_2 by done. cbn [negb]. unfold bind.
    rewrite stream_read_short; [done|]. rewrite length_take. lia.
Qed.

#[export] Instance ReplayRequest_laws : MessageLaws ReplayRequest.
Proof.
  split.
  - intros [f c] rest e Hv. cbn [msg_valid msg_read msg_encode ReplayRequest_Message from_seq] in *.
    unfold read_replay_request, encode_replay_request. rewrite <- app_assoc.
    unfold bind. rewrite stream_read_app by done. cbv beta iota zeta.
    rewrite bool_decide_eq_true_2 by done. cbn [negb]. rewrite stream_read_app by done.
    cbn [from_seq consume]. change (slice 8 16 _) with (to_le 8 f).
    rewrite from_le_to_le_u64 by done. by destruct c.
  - intros r k e Hv Hk. apply (read_two_torn REPLAY_REQUEST_MAGIC _ k e _ _ Hk).
Qed.

#[export] Instance ReplayHello_laws : MessageLaws ReplayHello.
Proof.
  split.
  - intros [i f l] rest e (H1 & H2 & H3).
    cbn [msg_read msg_encode ReplayHello_Message stream_id first_seq last_seq] in *.
    unfold read_replay_hello, encode_replay_hello. rewrite <- app_assoc.
    unfold bind. rewrite stream_read_app by done. cbv beta iota zeta.
    rewrite bool_decide_eq_true_2 by done. cbn [negb]. rewrite stream_read_app by done.
    cbn [stream_id first_seq last_seq].
    change (slice 8 16 _) with (to_le 8 i). change (slice 16 24 _) with (to_le 8 f).
    change (slice 24 32 _) with (to_le 8 l). by rewrite !from_le_to_le_u64 by done.
  - intros r k e Hv Hk. apply (read_two_torn REPLAY_HELLO_MAGIC _ k e _ _ Hk).
Qed.

#[export] Instance ReplayAck_laws : MessageLaws ReplayAck.
Proof.
  split.
  - intros [a] rest e Hv. cbn [msg_valid msg_read msg_encode ReplayAck_Message ack_seq] in *.
    unfold read_replay_ack, encode_replay_ack. rewrite <- app_assoc.
    unfold bind. rewrite stream_read_app by done. cbv beta iota zeta.
    rewrite bool_decide_eq_true_2 by done. cbn [negb]. rewrite stream_read_app by done.
    cbn [ack_seq]. change (slice 8 16 _) with (to_le 8 a). by rewrite from_le_to_le_u64 by done.
  - intros r k e Hv Hk. apply (read_two_torn REPLAY_ACK_MAGIC _ k e _ _ Hk).
Qed.

(** ** Wire records *)

Definition valid_wire (r : WireRecord) : Prop :=
  is_u64 (wire_seq r) ∧ is_u64 (wire_ts r) ∧ bytes (wire_payload r).

(** The 24 bytes between the magic and the payload; the writer leaves the
    fourth one zero and the reader ignores it. *)
Definition wire_header (r : WireRecord) (codec reserved plen : Z) : list Z :=
  [WIRE_VERSION; RecordType_as_u8 (wire_type r); codec; reserved] ++
  to_le 8 (wire_seq r) ++ to_le 8 (wire_ts r) ++ to_le 4 plen.

Lemma from_le_header header :
  bytes header → length header = 24%nat →
  header = [byte_at header 0; byte_at header 1; byte_at header 2; byte_at header 3] ++
    to_le 8 (from_le (slice 4 12 header)) ++ to_le 8 (from_le (slice 12 20 header)) ++
    to_le 4 (from_le (slice 20 24 header)) ∧ 0 ≤ from_le (slice 20 24 header).
Proof.
  intros Hb Hl. do 24 (destruct header as [|? header]; [discriminate Hl|]).
  destruct header; [|discriminate Hl].
  assert (∀ i j, bytes (slice i j [z; z0; z1; z2; z3; z4; z5; z6; z7; z8; z9; z10; z11; z12; z13;
    z14; z15; z16; z17; z18; z19; z20; z21; z22])) as Hs.
  { intros i j. unfold slice. by apply Forall_take, Forall_drop. }
  pose proof (to_le_from_le _ (Hs 4 12)%nat) as H1. pose proof (to_le_from_le _ (Hs 12 20)%nat) as H2.
  pose proof (to_le_from_le _ (Hs 20 24)%nat) as H3. cbn [length] in H1, H2, H3.
  change (length (slice 4 12 _)) with 8%nat in H1. change (length (slice 12 20 _)) with 8%nat in H2.
  change (length (slice 20 24 _)) with 4%nat in H3. rewrite H1, H2, H3.
  split; [done|]. apply (from_le_bound _ (Hs 20 24)%nat).
Qed.

Section Wire_facts.
Context {EX : Externals} {EL : ExternalLaws}.

(** A complete frame. *)
Definition wire_frame (header wp : list Z) : list Z :=
  WIRE_MAGIC ++ header ++ wp ++ to_le 4 (crc32c (header ++ wp)).

Lemma encode_wire_record_Ok r compress buf :
  encode_wire_record r compress = Ok buf →
  ∃ codec wp, encode_wire_payload (wire_payload r) compress = Ok (codec, wp) ∧
    is_u32 (len wp) ∧ buf = wire_frame (wire_header r codec 0 (len wp)) wp.
Proof.
  unfold encode_wire_record. intros He.
  destruct (encode_wire_payload (wire_payload r) compress) as [[codec wp]|] eqn:Ep; [|done].
  destruct (try_from MAX_U32 (len wp)) as [n|] eqn:Et; [|done]. apply try_from_Some in Et as [-> Hn].
  cbn [ok_or] in He. injection He as <-. exists codec, wp. done.
Qed.

Lemma decode_encode_wire_payload pl compress codec wp :
  bytes pl → encode_wire_payload pl compress = Ok (codec, wp) → is_u32 (len wp) →
  decode_wire_payload codec wp = Ok pl.
Proof.
  intros Hb He Hw. unfold encode_wire_payload in He.
  destruct compress; [|by inv_res]. destruct (_ <? _) eqn:Elt; [|by inv_res].
  destruct (try_from MAX_U32 (len pl)) as [n|] eqn:Et; [|done]. apply try_from_Some in Et as [-> Hn].
  cbn [ok_or] in He.
  assert (codec = 1 ∧ wp = to_le 4 (len pl) ++ lz4_block_compress pl) as [-> ->] by (split; congruence).
  unfold decode_wire_payload.
  destruct (Z.ltb_spec (len (to_le 4 (len pl) ++ lz4_block_compress pl)) 4) as [Hlt|_].
  { rewrite len_app in Hlt. pose proof (len_nonneg (lz4_block_compress pl)). unfold len at 1 in Hlt.
    rewrite length_to_le in Hlt. lia. }
   rewrite (take_app_length' (to_le 4 (len pl))), (drop_app_length' (to_le 4 (len pl)))
    by by rewrite length_to_le.
  rewrite from_le_to_le_u32, lz4_roundtrip by done. done.
Qed.

Lemma encode_wire_payload_codec pl compress codec wp :
  encode_wire_payload pl compress = Ok (codec, wp) → codec = 0 ∨ codec = 1.
Proof.
  unfold encode_wire_payload. destruct compress; [|intros; inv_res; by left].
  destruct (_ <? _); [|intros; inv_res; by left].
  destruct (try_from MAX_U32 (len pl)); [|done]. cbn [ok_or]. intros. inv_res. by right.
Qed.

(** What the reader makes of a complete frame. *)
Lemma read_record_frame r codec rsv wp max rest e :
  valid_wire r → is_u32 (len wp) → len wp ≤ max →
  read_record_with_limit max (mkStream (wire_frame (wire_header r codec rsv (len wp)) wp ++ rest) e) =
    (let? pl := decode_wire_payload codec wp in
     Ok (Some (mkWire (wire_type r) (wire_seq r) (wire_ts r) pl)), mkStream rest e).
Proof.
  intros (Hs & Ht & _) Hw Hmax. unfold wire_frame, read_record_with_limit.
  rewrite <- !app_assoc, stream_read_app by done.
  rewrite bool_decide_eq_true_2 by done. cbn [negb]. unfold read_record_body, bind at 1.
  rewrite stream_read_app by done.
  set (header := wire_header r codec rsv (len wp)) in *.
  change (byte_at header 0 =? WIRE_VERSION) with true. cbn [negb].
  change (byte_at header 1) with (RecordType_as_u8 (wire_type r)).
  change (byte_at header 2) with codec.
  change (slice 20 24 header) with (to_le 4 (len wp)).
  change (slice 4 12 header) with (to_le 8 (wire_seq r)).
  change (slice 12 20 header) with (to_le 8 (wire_ts r)).
  rewrite RecordType_u8_roundtrip, from_le_to_le_u32, !from_le_to_le_u64 by done.
  unfold bind at 1, lift at 1. cbn [map_err].
  destruct (Z.ltb_spec max (len wp)) as [Hbad|_]; [lia|].
  unfold bind at 1. rewrite stream_read_app by (unfold len; lia).
  unfold bind at 1. rewrite stream_read_app by by rewrite length_to_le.
  rewrite from_le_to_le_u32 by apply crc32c_u32. rewrite Z.eqb_refl. cbn [negb].
  unfold bind, lift. by destruct (decode_wire_payload codec wp).
Qed.

Lemma wire_roundtrip_limit r compress buf max rest e :
  valid_wire r → encode_wire_record r compress = Ok buf → len buf ≤ max + 36 →
  read_record_with_limit max (mkStream (buf ++ rest) e) = (Ok (Some r), mkStream rest e).
Proof.
  intros Hv He Hmax. apply encode_wire_record_Ok in He as (codec & wp & Hp & Hw & ->).
  assert (len wp ≤ max).
  { unfold wire_frame in Hmax. rewrite !len_app in Hmax. unfold len in *.
    rewrite length_to_le in Hmax. change (length WIRE_MAGIC) with 8%nat in Hmax.
    change (length (wire_header _ _ _ _)) with 24%nat in Hmax. lia. }
  rewrite read_record_frame by done.
  rewrite (decode_encode_wire_payload _ _ _ _ ltac:(apply Hv) Hp Hw). by destruct r.
Qed.

(** Every accepted record was a complete frame with a matching checksum. *)
Lemma read_record_sound max s r s' :
  bytes (input s) → read_record_with_limit max s = (Ok (Some r), s') →
  ∃ codec rsv wp, input s = wire_frame (wire_header r codec rsv (len wp)) wp ++ input s' ∧
    len wp ≤ max ∧ decode_wire_payload codec wp = Ok (wire_payload r).
Proof.
  intros Hb Hr. unfold read_record_with_limit in Hr.
  destruct (stream_read 8 s) as [[magic|err] s1] eqn:E1; [|by case_decide].
  case_bool_decide as Hm; [|done]. cbn [negb] in Hr. unfold read_record_body in Hr.
  apply bind_Ok in Hr as (header & s2 & E2 & Hr).
  destruct (byte_at header 0 =? WIRE_VERSION) eqn:Ev; [cbn [negb] in Hr|done].
  mon_inv. destruct (_ <? _) eqn:Elim in Hr; [done|]. mon_inv.
  destruct (_ =? _) eqn:Ecrc in Hr; [cbn [negb] in Hr|done]. mon_inv.
  apply Z.eqb_eq in Ev, Ecrc. apply Z.ltb_ge in Elim.
  rename x into rt, x0 into wp, x1 into s3, x2 into crc, x3 into s4, x4 into pl.
  apply stream_read_Ok in E1 as (I1 & _ & _), E2 as (I2 & L2 & _), H0 as (I3 & L3 & _), H1 as (I4 & L4 & _).
  rewrite I1, I2, I3, I4, !bytes_app in Hb. destruct Hb as (_ & Hbh & Hbw & Hbc & _).
  assert (RecordType_as_u8 rt = byte_at header 1) as Ert.
  { destruct (RecordType_from_u8 (byte_at header 1)) eqn:E; [|done].
    apply RecordType_from_u8_Ok in E. simpl in H. by inv_res. }
  destruct (from_le_header header Hbh L2) as (Eh & Hplen).
  assert (len wp = from_le (slice 20 24 header)) as Elen by (unfold len; lia).
  exists (byte_at header 2), (byte_at header 3), wp. inv_res. split_and!; [|lia|done].
  unfold wire_frame, wire_header. cbn [wire_type wire_seq wire_ts].
  rewrite Ert, Elen, <- Ev, <- Eh, I1, I2, I3, I4, Ecrc.
  pose proof (to_le_from_le crc Hbc) as Hc. rewrite L4 in Hc. by rewrite Hc, <- !app_assoc.
Qed.

(** A connection that ends inside a frame gives no record: the orderly end within
    the magic is taken for the end of the stream, anything later is an error. *)
Lemma read_record_torn r compress buf k max e :
  valid_wire r → encode_wire_record r compress = Ok buf → (k < length buf)%nat →
  len buf ≤ max + 36 →
  read_record_with_limit max (mkStream (take k buf) e) =
    (if decide (k < 8)%nat
     then if decide (io_kind (end_error (mkStream [] e)) = UnexpectedEof)
          then Ok None else Err (end_error (mkStream [] e))
     else Err (end_error (mkStream [] e)), mkStream [] e).
Proof.
  intros Hv He Hk Hmax. apply encode_wire_record_Ok in He as (codec & wp & Hp & Hw & ->).
  unfold wire_frame in *. unfold read_record_with_limit.
  rewrite !length_app, length_to_le in Hk. change (length WIRE_MAGIC) with 8%nat in Hk.
  assert (length (wire_header r codec 0 (len wp)) = 24%nat) as Hh by done.
  assert (len wp ≤ max) as Hwmax.
  { rewrite !len_app in Hmax. change (len WIRE_MAGIC) with 8 in Hmax.
    change (len (wire_header _ _ _ _)) with 24 in Hmax. change (len (to_le 4 _)) with 4 in Hmax. lia. }
  rewrite Hh in *.
  case_decide as H8.
  { rewrite stream_read_short by (rewrite length_take; lia).
    change (end_error (mkStream (take k _) e)) with (end_error (mkStream [] e)). by case_decide. }
  rewrite take_app_ge by (simpl; lia). rewrite stream_read_app by done.
  rewrite bool_decide_eq_true_2 by done. cbn [negb]. change (length WIRE_MAGIC) with 8%nat.
  unfold read_record_body, bind at 1.
  destruct (decide (k - 8 < 24)%nat) as [H24|H24].
  { rewrite stream_read_short; [done|]. rewrite length_take. lia. }
  rewrite take_app_ge by lia. rewrite stream_read_app by done. rewrite Hh.
  set (header := wire_header r codec 0 (len wp)) in *.
  change (byte_at header 0 =? WIRE_VERSION) with true. cbn [negb].
  change (byte_at header 1) with (RecordType_as_u8 (wire_type r)).
  change (slice 20 24 header) with (to_le 4 (len wp)).
  rewrite RecordType_u8_roundtrip, from_le_to_le_u32 by done.
  unfold bind at 1, lift at 1. cbn [map_err].
  destruct (Z.ltb_spec max (len wp)) as [Hbad|_]; [lia|]. unfold bind at 1.
  destruct (decide (k - 8 - 24 < length wp)%nat) as [Hwp|Hwp].
  { rewrite stream_read_short; [done|]. rewrite length_take. unfold len. lia. }
  rewrite take_app_ge by lia. rewrite stream_read_app by (unfold len; lia).
  unfold bind. rewrite stream_read_short; [done|]. rewrite length_take, length_to_le. lia.
Qed.
End Wire_facts.

(** ** The theorems *)

Section Protocol_theorems.
Context {EX : Externals} {EL : ExternalLaws}.

(** C6: round trip on a connection.  A record written to a connection, with or
    without compression, is read back unchanged by a receiver whose payload limit
    it respects, and the receiver consumes exactly the bytes of that record, so
    records can follow each other on the stream. *)
Theorem wire_record_roundtrip r compress (sink sink' : list Z) :
  valid_wire r → write_record r compress sink = (Ok tt, sink') →
  ∃ buf, sink' = sink ++ buf ∧
    ∀ max rest e, len buf ≤ max + 36 →
      read_record_with_limit max (mkStream (buf ++ rest) e) = (Ok (Some r), mkStream rest e).
Proof.
  intros Hv Hw. unfold write_record in Hw. mon_inv.
  match goal with Hx : encode_wire_record r compress = Ok ?b |- _ =>
    exists b; split; [by injection Hw|intros; by eapply wire_roundtrip_limit] end.
Qed.

(** Integrity.  Whatever arrives, a record that the receiver accepts was a
    complete frame: the magic, a header that encodes exactly the record's type,
    sequence number, timestamp and payload length, the payload within the limit,
    and the matching checksum of both. *)
Theorem accepted_wire_record_is_intact max s r s' :
  bytes (input s) → read_record_with_limit max s = (Ok (Some r), s') →
  ∃ codec reserved wp,
    input s = WIRE_MAGIC ++ wire_header r codec reserved (len wp) ++ wp ++
      to_le 4 (crc32c (wire_header r codec reserved (len wp) ++ wp)) ++ input s' ∧
    len wp ≤ max ∧ decode_wire_payload codec wp = Ok (wire_payload r).
Proof.
  intros Hb Hr. destruct (read_record_sound max s r s' Hb Hr) as (codec & rsv & wp & E & Hl & Hd).
  exists codec, rsv, wp. split_and!; try done. rewrite E. unfold wire_frame. by rewrite <- !app_assoc.
Qed.

(** A connection that breaks inside a record never delivers it.  An orderly
    end before the ninth byte is indistinguishable from the end of the stream;
    any later break is reported as an error. *)
Theorem torn_wire_record_not_delivered r compress buf k max e :
  valid_wire r → encode_wire_record r compress = Ok buf → (k < length buf)%nat →
  len buf ≤ max + 36 →
  (read_record_with_limit max (mkStream (take k buf) e)).1 = Ok None ∧ (k < 8)%nat ∨
  (read_record_with_limit max (mkStream (take k buf) e)).1 = Err (end_error (mkStream [] e)).
Proof.
  intros Hv He Hk Hmax. rewrite (read_record_torn r compress buf k max e Hv He Hk Hmax). simpl.
  case_decide; [|by right]. case_decide; [by left|by right].
Qed.

(** The three replay messages.  Each is read back whole, leaving what follows
    it on the stream, and a stream that breaks inside one gives an error. *)
Theorem replay_messages_roundtrip :
  (∀ (req : ReplayRequest) rest e, is_u64 (from_seq req) →
    read_replay_request (mkStream (encode_replay_request req ++ rest) e) = (Ok req, mkStream rest e)) ∧
  (∀ (h : ReplayHello) rest e, is_u64 (stream_id h) ∧ is_u64 (first_seq h) ∧ is_u64 (last_seq h) →
    read_replay_hello (mkStream (encode_replay_hello h ++ rest) e) = (Ok h, mkStream rest e)) ∧
  (∀ (a : ReplayAck) rest e, is_u64 (ack_seq a) →
    read_replay_ack (mkStream (encode_replay_ack a ++ rest) e) = (Ok a, mkStream rest e)) ∧
  (∀ (a : ReplayAck) k e, is_u64 (ack_seq a) → (k < 24)%nat →
    (read_replay_ack (mkStream (take k (encode_replay_ack a)) e)).1 = Err (end_error (mkStream [] e))).
Proof.
  split_and!.
  - exact (@msg_roundtrip ReplayRequest _ _).
  - exact (@msg_roundtrip ReplayHello _ _).
  - exact (@msg_roundtrip ReplayAck _ _).
  - intros a k e Ha Hk. pose proof (@msg_torn ReplayAck ReplayAck_Message _ a k e Ha Hk) as Ht.
    cbn [msg_read msg_encode ReplayAck_Message] in Ht. by rewrite Ht.
Qed.
End Protocol_theorems.

(** The payload limit does not bound what a compressed record expands to.
    With a codec that satisfies every law of the interface, a receiver with a
    limit of 16 bytes accepts a record with a payload of 200 bytes. *)
Theorem wire_limit_ignores_expansion :
  ∃ (EX : Externals) (EL : ExternalLaws) r buf,
    valid_wire r ∧ encode_wire_record r true = Ok buf ∧ len (wire_payload r) = 200 ∧
    read_record_with_limit 16 (mkStream buf None) = (Ok (Some r), mkStream [] None).
Proof.
  exists rle_externals, rle_laws.
  pose (r := mkWire Logs 1 2 (replicate 200 7)). exists r.
  eexists. split_and!.
  - split_and!; try (split; vm_compute; discriminate). apply Forall_replicate. int_solve.
  - vm_compute. reflexivity.
  - reflexivity.
  - vm_compute. reflexivity.
Qed.

Section Protocol_witnesses.
#[local] Existing Instance stored_externals.
#[local] Existing Instance stored_laws.

Definition sample_wire : WireRecord := mkWire Metrics 5 77 [1; 2; 3].
Definition sample_wire_frame : list Z :=
  match encode_wire_record sample_wire true with Ok buf => buf | Err _ => [] end.

Lemma sample_wire_valid : valid_wire sample_wire.
Proof. split_and!; try (split; vm_compute; discriminate). repeat constructor; vm_compute; discriminate. Qed.

Lemma wire_record_roundtrip_witness :
  ∃ buf, sample_wire_frame = [] ++ buf ∧
    ∀ max rest e, len buf ≤ max + 36 →
      read_record_with_limit max (mkStream (buf ++ rest) e) = (Ok (Some sample_wire), mkStream rest e).
Proof.
  apply (wire_record_roundtrip sample_wire true [] sample_wire_frame sample_wire_valid).
  vm_compute. reflexivity.
Defined.

Lemma accepted_wire_record_is_intact_witness :
  ∃ codec reserved wp,
    input (mkStream sample_wire_frame None) = WIRE_MAGIC ++ wire_header sample_wire codec reserved (len wp) ++
      wp ++ to_le 4 (crc32c (wire_header sample_wire codec reserved (len wp) ++ wp)) ++
      input (mkStream [] None) ∧
    len wp ≤ 10 ∧ decode_wire_payload codec wp = Ok (wire_payload sample_wire).
Proof.
  apply (accepted_wire_record_is_intact 10 (mkStream sample_wire_frame None) sample_wire (mkStream [] None)).
  - apply (bool_decide_unpack _). vm_compute. exact I.
  - vm_compute. reflexivity.
Defined.

Lemma torn_wire_record_not_delivered_witness :
  (read_record_with_limit 10 (mkStream (take 20 sample_wire_frame) None)).1 = Ok None ∧ (20 < 8)%nat ∨
  (read_record_with_limit 10 (mkStream (take 20 sample_wire_frame) None)).1 =
    Err (end_error (mkStream [] None)).
Proof.
  apply (torn_wire_record_not_delivered sample_wire true sample_wire_frame 20 10 None sample_wire_valid).
  - vm_compute. reflexivity.
  - vm_compute. lia.
  - vm_compute. discriminate.
Defined.

Lemma replay_messages_roundtrip_witness :
  read_replay_request (mkStream (encode_replay_request (mkReplayRequest 7 true) ++ [1]) None)
    = (Ok (mkReplayRequest 7 true), mkStream [1] None).
Proof. apply (proj1 replay_messages_roundtrip (mkReplayRequest 7 true) [1] None). split; vm_compute; discriminate. Defined.
End Protocol_witnesses.
