(* ===== verification/Source.v ===== *)
(** * Replay sources

    What the replay server relies on of a spool, as an interface: the spool holds
    records in sequence order, and a cursor yields the first record after the
    last one it delivered.  Against this interface alone: a replay that
    interleaves arbitrarily with appends, consumption and retention delivers
    records in strictly increasing order, never twice, and skips none that is
    still in the spool. *)

From stdpp Require Import sorting.
From S2P Require Import Prelude Format Protocol.

Definition seq_lt (a b : WireRecord) : Prop := wire_seq a < wire_seq b.

#[export] Instance seq_lt_dec a b : Decision (seq_lt a b).
Proof. unfold seq_lt. apply _. Defined.

(** Reference: the first record after [last]. *)
Definition next_after (last : Z) (rs : list WireRecord) : option WireRecord :=
  list.head (filter (λ r, last < wire_seq r) rs).

Definition advance (last : Z) (o : option WireRecord) : Z :=
  match o with Some r => wire_seq r | None => last end.

Class ReplaySource (S C : Type) : Type := {
  src_records : S → list WireRecord;
  src_ok : S → Prop;
  src_start : S → Z → C;
  src_next : S → C → result IoError (option WireRecord) * C;
  src_last : C → Z;
  src_cursor_ok : S → C → Prop;
}.

Class ReplaySourceLaws (S C : Type) `{ReplaySource S C} : Prop := {
  src_sorted : ∀ s, src_ok s → StronglySorted seq_lt (src_records s);
  src_start_ok : ∀ s last, src_ok s →
    src_last (src_start s last) = last ∧ src_cursor_ok s (src_start s last);
  src_next_spec : ∀ s c, src_ok s → src_cursor_ok s c →
    ∃ c', src_next s c = (Ok (next_after (src_last c) (src_records s)), c') ∧
      src_last c' = advance (src_last c) (next_after (src_last c) (src_records s)) ∧
      src_cursor_ok s c';
}.

(** ** The first record after a sequence number *)

Lemma next_after_Some last rs r :
  StronglySorted seq_lt rs → next_after last rs = Some r →
  r ∈ rs ∧ last < wire_seq r ∧ ∀ x, x ∈ rs → last < wire_seq x → wire_seq r ≤ wire_seq x.
Proof.
  intros Hs. unfold next_after. induction Hs as [|a rs Hs IH Ha]; [done|].
  rewrite filter_cons. case_decide as Hd.
  - intros [= ->]. split_and!; [by left|done|].
    intros x [->|Hx]%elem_of_cons Hlt; [lia|].
    rewrite list.Forall_forall in Ha. specialize (Ha x Hx). unfold seq_lt in Ha. lia.
  - intros Hr. destruct (IH Hr) as (H1 & H2 & H3). split_and!; [by right|done|].
    intros x [->|Hx]%elem_of_cons Hlt; [lia|]. by apply H3.
Qed.

Lemma next_after_None last rs x :
  next_after last rs = None → x ∈ rs → wire_seq x ≤ last.
Proof.
  unfold next_after. induction rs as [|a rs IH]; [by intros _ ?%elem_of_nil|].
  rewrite filter_cons. case_decide as Hd; [done|].
  intros Hn [->|Hx]%elem_of_cons; [lia|by apply IH].
Qed.

Lemma next_after_first last rs k r :
  rs !! k = Some r → last < wire_seq r → (∀ j x, (j < k)%nat → rs !! j = Some x → wire_seq x ≤ last) →
  next_after last rs = Some r.
Proof.
  revert k. induction rs as [|a rs IH]; intros k Hk Hlt Hj; [done|].
  unfold next_after. rewrite filter_cons. destruct k as [|k].
  - injection Hk as ->. by case_decide.
  - pose proof (Hj 0%nat a ltac:(lia) eq_refl). case_decide; [lia|].
    apply (IH k); [done..|]. intros j x Hjk Hx. by apply (Hj (S j)); [lia|].
Qed.

Lemma next_after_all_le last rs : (∀ x, x ∈ rs → wire_seq x ≤ last) → next_after last rs = None.
Proof.
  intros Hx. unfold next_after. rewrite list_filter_false; [done|]. intros x Hin%Hx. lia.
Qed.

Lemma next_after_app last rs1 rs2 :
  (∀ x, x ∈ rs1 → wire_seq x ≤ last) → next_after last (rs1 ++ rs2) = next_after last rs2.
Proof.
  intros Hx. unfold next_after. rewrite list.filter_app.
  rewrite list_filter_false; [done|]. intros x Hin%Hx. lia.
Qed.

(** ** Replay interleaved with everything else *)

Section Interleaving.
Context {S C : Type} `{ReplaySourceLaws S C}.

(** A replay session: the spool, the client's cursor, what was delivered, and the
    highest sequence number ever stored. *)
Record session : Type := mkSession {
  se_spool : S;
  se_cursor : C;
  se_delivered : list WireRecord;
  se_high : Z;
}.

Inductive session_step : session → session → Prop :=
| step_deliver s c d hi r c' :
    src_next s c = (Ok (Some r), c') →
    session_step (mkSession s c d hi) (mkSession s c' (d ++ [r]) hi)
| step_idle s c d hi c' :
    src_next s c = (Ok None, c') →
    session_step (mkSession s c d hi) (mkSession s c' d hi)
| step_mutate s c d hi s' hi' :
    src_ok s' → src_cursor_ok s' c → hi ≤ hi' →
    (∀ r, r ∈ src_records s' → r ∈ src_records s ∨ hi < wire_seq r ≤ hi') →
    session_step (mkSession s c d hi) (mkSession s' c d hi').

Inductive session_reachable (start : Z) : session → Prop :=
| reach_init s hi :
    src_ok s → (∀ r, r ∈ src_records s → wire_seq r ≤ hi) →
    session_reachable start (mkSession s (src_start s start) [] hi)
| reach_step a b :
    session_reachable start a → session_step a b → session_reachable start b.

Record session_inv (start : Z) (a : session) : Prop := {
  sei_ok : src_ok (se_spool a);
  sei_cursor : src_cursor_ok (se_spool a) (se_cursor a);
  sei_start : start ≤ src_last (se_cursor a) ∧
    (start < src_last (se_cursor a) → src_last (se_cursor a) ≤ se_high a);
  sei_stored : ∀ r, r ∈ src_records (se_spool a) → wire_seq r ≤ se_high a;
  sei_sorted : StronglySorted seq_lt (se_delivered a);
  sei_bound : ∀ r, r ∈ se_delivered a → start < wire_seq r ≤ src_last (se_cursor a);
  sei_complete : ∀ r, r ∈ src_records (se_spool a) → start < wire_seq r ≤ src_last (se_cursor a) →
    r ∈ se_delivered a;
}.

Lemma sorted_snoc rs r :
  StronglySorted seq_lt rs → (∀ x, x ∈ rs → wire_seq x < wire_seq r) → StronglySorted seq_lt (rs ++ [r]).
Proof.
  intros Hs Hx. apply StronglySorted_app. split_and!; [|done|by repeat constructor].
  intros x y Hin ->%list_elem_of_singleton. by apply Hx.
Qed.

Lemma sorted_same_seq rs x y :
  StronglySorted seq_lt rs → x ∈ rs → y ∈ rs → wire_seq x = wire_seq y → x = y.
Proof.
  intros Hs. induction Hs as [|a rs Hs IH Ha]; [by intros ?%elem_of_nil|].
  rewrite list.Forall_forall in Ha. unfold seq_lt in Ha.
  intros [->|Hx]%elem_of_cons [->|Hy]%elem_of_cons E; try done.
  - specialize (Ha _ Hy). lia.
  - specialize (Ha _ Hx). lia.
  - by apply IH.
Qed.

Lemma session_step_inv start a b : session_inv start a → session_step a b → session_inv start b.
Proof.
  intros [Hok Hc Hst Hsto Hso Hb Hco] Hstep.
  destruct Hstep as [s c d hi r c' Hn|s c d hi c' Hn|s c d hi s' hi' Hok' Hc' Hhi Hsub]; simpl in *.
  - destruct (src_next_spec s c Hok Hc) as (c'' & Hn' & Hl & Hc''). rewrite Hn in Hn'. injection Hn' as Hr <-.
    destruct (next_after_Some _ _ _ (src_sorted s Hok) (eq_sym Hr)) as (Hin & Hgt & Hmin).
    rewrite <- Hr in Hl. simpl in Hl. split; simpl; try done.
    + specialize (Hsto _ Hin). lia.
    + apply sorted_snoc; [done|]. intros x Hx. specialize (Hb x Hx). lia.
    + intros x [Hx| ->%list_elem_of_singleton]%elem_of_app; [specialize (Hb x Hx); lia|lia].
    + intros x Hx Hsx. apply elem_of_app.
      destruct (decide (wire_seq x ≤ src_last c)) as [Hle|Hgt']; [left; apply Hco; [done|lia]|].
      right. apply list_elem_of_singleton. specialize (Hmin x Hx ltac:(lia)).
      apply (sorted_same_seq (src_records s)); auto using src_sorted. lia.
  - destruct (src_next_spec s c Hok Hc) as (c'' & Hn' & Hl & Hc''). rewrite Hn in Hn'. injection Hn' as Hr <-.
    rewrite <- Hr in Hl. simpl in Hl. split; simpl; rewrite ?Hl; done.
  - split; simpl; try done; [lia| |].
    + intros r Hr. destruct (Hsub r Hr) as [?%Hsto|]; lia.
    + intros r Hr Hsr. destruct (Hsub r Hr) as [Hin|]; [by apply Hco|lia].
Qed.

Lemma session_reachable_inv start a : session_reachable start a → session_inv start a.
Proof.
  induction 1 as [s hi Hok Hall|a b Ha IH Hstep]; [|by eapply session_step_inv].
  destruct (src_start_ok s start Hok) as [Hl Hc].
  split; simpl; rewrite ?Hl; try done; try lia; [constructor|by intros r ?%elem_of_nil].
Qed.
End Interleaving.
Arguments session : clear implicits.
