(* ===== verification/BufferSpool.v ===== *)
(** * The in-memory spool

    Models [BufferSpool] and [BufferReplayCursor] of [logjetd/src/spool.rs]: the
    first [keep_messages] records are kept, the rest (the tail) is bounded by
    bytes or by messages, and replay clients follow the records with a cursor
    that survives the removal of records under it. *)

From stdpp Require Import sorting.
From S2P Require Import Prelude Format Protocol Source.

Inductive BufferLimit : Type :=
| LimitBytes (max_bytes : Z)
| LimitMessages (max_messages : Z).

Record BufferConfig : Type := mkBufferConfig {
  bc_limit : BufferLimit;
  bc_keep_messages : nat;
}.

Record BufferSpool : Type := mkBufferSpool {
  bs_stream_id : Z;
  bs_limit : BufferLimit;
  keep_messages : nat;
  bs_records : list WireRecord;
  tail_bytes : Z;
}.

Record BufferReplayCursor : Type := mkBufferCursor {
  next_index : nat;
  bcur_last_seq : Z;
}.

(** ** Operations *)

Definition record_size (r : WireRecord) : Z :=
  saturating_add MAX_U64 (saturating_add MAX_U64 (saturating_add MAX_U64 (saturating_add MAX_U64 1 8) 8) 4)
    (len (wire_payload r)).

(** [stream_id] is the result of [generate_stream_id()]. *)
Definition BufferSpool_new (stream_id : Z) (config : BufferConfig) : BufferSpool :=
  mkBufferSpool stream_id (bc_limit config) (bc_keep_messages config) [] 0.

Definition set_records (rs : list WireRecord) (s : BufferSpool) : BufferSpool :=
  mkBufferSpool (bs_stream_id s) (bs_limit s) (keep_messages s) rs (tail_bytes s).
Definition set_tail_bytes (n : Z) (s : BufferSpool) : BufferSpool :=
  mkBufferSpool (bs_stream_id s) (bs_limit s) (keep_messages s) (bs_records s) n.

Definition tail_len (s : BufferSpool) : Z :=
  saturating_sub (len (bs_records s)) (Z.of_nat (keep_messages s)).

Definition over_limit (s : BufferSpool) : bool :=
  match bs_limit s with
  | LimitBytes max_bytes => max_bytes <? tail_bytes s
  | LimitMessages max_messages => max_messages <? tail_len s
  end.

(** The loop of [enforce_limits]; each turn removes a record, so the number of
    records is enough fuel. *)
Fixpoint enforce_limits_loop (fuel : nat) (s : BufferSpool) : BufferSpool :=
  match fuel with
  | O => s
  | S fuel =>
      if over_limit s && bool_decide (keep_messages s < length (bs_records s))%nat then
        match bs_records s !! keep_messages s with
        | None => s
        | Some record =>
            enforce_limits_loop fuel
              (set_tail_bytes (saturating_sub (tail_bytes s) (record_size record))
                (set_records (delete (keep_messages s) (bs_records s)) s))
        end
      else s
  end.

Definition enforce_limits (s : BufferSpool) : BufferSpool :=
  enforce_limits_loop (length (bs_records s)) s.

Definition BufferSpool_append (record : WireRecord) (s : BufferSpool) : BufferSpool :=
  let was_tail := bool_decide (keep_messages s ≤ length (bs_records s))%nat in
  let record_bytes := record_size record in
  let s := set_records (bs_records s ++ [record]) s in
  let s := if was_tail then set_tail_bytes (saturating_add MAX_U64 (tail_bytes s) record_bytes) s else s in
  enforce_limits s.

(** [iter().position(|record| record.seq > last_seq)] *)
Fixpoint position_after (last_seq : Z) (rs : list WireRecord) : option nat :=
  match rs with
  | [] => None
  | r :: rs => if last_seq <? wire_seq r then Some 0%nat else S <$> position_after last_seq rs
  end.

Definition BufferSpool_replay_cursor_after (s : BufferSpool) (last_seq : Z) : BufferReplayCursor :=
  mkBufferCursor (default (length (bs_records s)) (position_after last_seq (bs_records s))) last_seq.

Definition index_still_aligned (s : BufferSpool) (cursor : BufferReplayCursor) : bool :=
  match next_index cursor with
  | O => true
  | value => match bs_records s !! Nat.pred value with
             | Some record => wire_seq record <=? bcur_last_seq cursor
             | None => false
             end
  end.

Definition BufferSpool_next_for_cursor (s : BufferSpool) (cursor : BufferReplayCursor)
    : option WireRecord * BufferReplayCursor :=
  let search :=
    match position_after (bcur_last_seq cursor) (bs_records s) with
    | None => (None, cursor)
    | Some next_index =>
        match bs_records s !! next_index with
        | None => (None, cursor)
        | Some record => (Some record, mkBufferCursor (next_index + 1) (wire_seq record))
        end
    end in
  match bs_records s !! next_index cursor with
  | Some record =>
      if index_still_aligned s cursor && (bcur_last_seq cursor <? wire_seq record)
      then (Some record, mkBufferCursor (next_index cursor + 1) (wire_seq record))
      else search
  | None => search
  end.

Definition recalculate_tail_bytes (s : BufferSpool) : BufferSpool :=
  set_tail_bytes (foldr Z.add 0 (record_size <$> drop (keep_messages s) (bs_records s))) s.

(** [while matches!(self.records.front(), Some(record) if record.seq <= seq)] *)
Fixpoint pop_consumed (seq : Z) (rs : list WireRecord) : list WireRecord :=
  match rs with
  | [] => []
  | r :: rest => if wire_seq r <=? seq then pop_consumed seq rest else rs
  end.

Definition BufferSpool_consume_through (seq : Z) (s : BufferSpool) : BufferSpool :=
  recalculate_tail_bytes (set_records (pop_consumed seq (bs_records s)) s).

Definition BufferSpool_sequence_bounds (s : BufferSpool) : option (Z * Z) :=
  match list.head (bs_records s), list.last (bs_records s) with
  | Some first, Some last => Some (wire_seq first, wire_seq last)
  | _, _ => None
  end.

(** ** Invariant *)

Definition sizes (rs : list WireRecord) : Z := foldr Z.add 0 (record_size <$> rs).

(** [tail_bytes] is the exact size of the tail, which respects the limit. *)
Record buffer_inv (s : BufferSpool) : Prop := {
  bi_bytes : tail_bytes s = sizes (drop (keep_messages s) (bs_records s));
  bi_limit : over_limit s = true → (length (bs_records s) ≤ keep_messages s)%nat;
}.

(** ** Reference: the longest tail within the limit *)

Definition tail_over (limit : BufferLimit) (tail : list WireRecord) : bool :=
  match limit with
  | LimitBytes max_bytes => max_bytes <? sizes tail
  | LimitMessages max_messages => max_messages <? len tail
  end.

Fixpoint trim (limit : BufferLimit) (tail : list WireRecord) : list WireRecord :=
  match tail with
  | [] => []
  | r :: rest => if tail_over limit tail then trim limit rest else tail
  end.

Definition wf_limit (limit : BufferLimit) : Prop :=
  match limit with LimitBytes n | LimitMessages n => is_u64 n end.

Lemma record_size_pos r : 21 ≤ record_size r.
Proof.
  unfold record_size, saturating_add. pose proof (len_nonneg (wire_payload r)). int_solve.
Qed.

Lemma sizes_cons r rs : sizes (r :: rs) = record_size r + sizes rs.
Proof. done. Qed.
Lemma sizes_app rs rs' : sizes (rs ++ rs') = sizes rs + sizes rs'.
Proof. induction rs as [|r rs IH]; [done|]. rewrite <- app_comm_cons, !sizes_cons, IH. lia. Qed.
Lemma sizes_nonneg rs : 0 ≤ sizes rs.
Proof. induction rs as [|r rs IH]; [done|]. rewrite sizes_cons. pose proof (record_size_pos r). lia. Qed.

Lemma trim_suffix limit tail : ∃ dropped, tail = dropped ++ trim limit tail.
Proof.
  induction tail as [|r rest [d IH]]; [by exists []|]. cbn [trim].
  destruct (tail_over limit (r :: rest)); [exists (r :: d); simpl; by f_equal|by exists []].
Qed.

Lemma trim_within limit tail : wf_limit limit → tail_over limit (trim limit tail) = false.
Proof.
  intros Hw. induction tail as [|r rest IH]; cbn [trim].
  - destruct limit; simpl in *; apply Z.ltb_ge; [change (sizes []) with 0|change (len []) with 0]; int_solve.
  - by destruct (tail_over limit (r :: rest)) eqn:E.
Qed.

(** Nothing was dropped needlessly: any longer tail is over the limit. *)
Lemma trim_longest limit tail pre r suffix :
  tail = pre ++ r :: suffix → (length (trim limit tail) ≤ length suffix)%nat →
  tail_over limit (r :: suffix) = true.
Proof.
  revert pre. induction tail as [|x rest IH]; intros pre E Hl; [by destruct pre|].
  cbn [trim] in Hl. destruct pre as [|y pre]; simpl in E; injection E as -> E; subst rest.
  - destruct (tail_over limit (r :: suffix)); [done|simpl in Hl; lia].
  - destruct (tail_over limit (y :: pre ++ r :: suffix)) eqn:Eo; [by eapply IH|].
    simpl in Hl. rewrite length_app in Hl. simpl in Hl. lia.
Qed.

(** ** The loop computes the reference *)

Lemma over_limit_tail s kept tail :
  bs_records s = kept ++ tail → length kept = keep_messages s → tail_bytes s = sizes tail →
  over_limit s = tail_over (bs_limit s) tail.
Proof.
  intros Er Hk Ht. unfold over_limit, tail_over, tail_len. rewrite Ht, Er, len_app.
  unfold len at 1. rewrite Hk. destruct (bs_limit s); [done|].
  unfold saturating_sub. pose proof (len_nonneg tail). f_equal. lia.
Qed.

Lemma enforce_limits_loop_trim fuel s kept tail :
  bs_records s = kept ++ tail → length kept = keep_messages s → tail_bytes s = sizes tail →
  (length tail ≤ fuel)%nat →
  enforce_limits_loop fuel s =
    set_tail_bytes (sizes (trim (bs_limit s) tail)) (set_records (kept ++ trim (bs_limit s) tail) s).
Proof.
  revert s tail. induction fuel as [|fuel IH]; intros s tail Er Hk Ht Hf.
  { destruct tail; [|simpl in Hf; lia]. simpl. destruct s; simpl in *. by subst. }
  cbn [enforce_limits_loop]. rewrite (over_limit_tail s kept tail) by done.
  destruct tail as [|r rest].
  { rewrite bool_decide_eq_false_2, andb_false_r by (rewrite Er, app_nil_r; lia).
    destruct s; simpl in *. by subst. }
  rewrite bool_decide_eq_true_2, andb_true_r by (rewrite Er, length_app; simpl; lia).
  cbn [trim]. destruct (tail_over (bs_limit s) (r :: rest)).
  - rewrite Er, <- Hk, list_lookup_middle by done. simpl in Hf.
    rewrite (IH _ rest); simpl; try done.
    + rewrite delete_middle. done.
    + rewrite Ht, sizes_cons. unfold saturating_sub. pose proof (sizes_nonneg rest). lia.
    + lia.
  - destruct s; simpl in *. by subst.
Qed.

(** Appending, on every branch: the kept records stay, the tail is trimmed. *)
Lemma BufferSpool_append_eq r s :
  buffer_inv s → wf_limit (bs_limit s) → sizes (bs_records s ++ [r]) ≤ MAX_U64 →
  let all := bs_records s ++ [r] in
  BufferSpool_append r s =
    set_tail_bytes (sizes (trim (bs_limit s) (drop (keep_messages s) all)))
      (set_records (take (keep_messages s) all ++ trim (bs_limit s) (drop (keep_messages s) all)) s).
Proof.
  intros [Hb Hl] Hw Hs all. unfold BufferSpool_append. subst all.
  case_bool_decide as Hk; unfold enforce_limits; cbn [set_tail_bytes set_records bs_records].
  - assert (length (take (keep_messages s) (bs_records s)) = keep_messages s) as Hlen
      by (rewrite length_take; lia).
    rewrite (enforce_limits_loop_trim _ _ (take (keep_messages s) (bs_records s))
      (drop (keep_messages s) (bs_records s) ++ [r])); simpl; try done.
    + by rewrite (take_app_le (bs_records s)), (drop_app_le (bs_records s)) by done.
    + by rewrite app_assoc, take_drop.
    + rewrite sizes_app, Hb in *. unfold saturating_add.
      rewrite <- (take_drop (keep_messages s) (bs_records s)), sizes_app in Hs.
      pose proof (sizes_nonneg (take (keep_messages s) (bs_records s))).
      change (sizes [r]) with (record_size r + 0) in *. lia.
    + rewrite !length_app, length_drop. simpl. lia.
  - rewrite drop_ge in * by (rewrite ?length_app; simpl; lia).
    rewrite take_ge by (rewrite length_app; simpl; lia). simpl. rewrite app_nil_r.
    assert (∀ fuel t, (length (bs_records t) ≤ keep_messages t)%nat → enforce_limits_loop fuel t = t) as He.
    { intros [|fuel] t Ht; [done|]. cbn [enforce_limits_loop].
      by rewrite bool_decide_eq_false_2, andb_false_r by lia. }
    rewrite He by (simpl; rewrite length_app; simpl; lia).
    destruct s as [sid lim km rs tb]; simpl in *. by subst tb.
Qed.

(** ** The invariant is kept *)

Lemma tail_within s :
  wf_limit (bs_limit s) → tail_bytes s = sizes (drop (keep_messages s) (bs_records s)) →
  tail_over (bs_limit s) (drop (keep_messages s) (bs_records s)) = false → buffer_inv s.
Proof.
  intros Hw Hb Ho. split; [done|]. intros Hov.
  destruct (decide (length (bs_records s) ≤ keep_messages s)%nat); [done|].
  rewrite (over_limit_tail s (take (keep_messages s) (bs_records s))
    (drop (keep_messages s) (bs_records s))) in Hov; [by rewrite Ho in Hov| |..|done].
  - by rewrite take_drop.
  - rewrite length_take. lia.
Qed.

Lemma buffer_inv_new sid config :
  wf_limit (bc_limit config) → buffer_inv (BufferSpool_new sid config).
Proof. intros Hw. apply tail_within; simpl; [done|by rewrite drop_nil|]. rewrite drop_nil. by apply (trim_within _ []). Qed.

Lemma drop_kept_trim n limit all :
  drop n (take n all ++ trim limit (drop n all)) = trim limit (drop n all) ∨
  trim limit (drop n all) = [] ∧ drop n (take n all ++ trim limit (drop n all)) = [].
Proof.
  destruct (decide (n ≤ length all)%nat) as [Hle|Hgt].
  - left. rewrite drop_app_ge by (rewrite length_take; lia). rewrite length_take.
    by replace (n - n `min` length all)%nat with 0%nat by lia.
  - right. rewrite (drop_ge all) by lia. simpl. rewrite app_nil_r. split; [done|].
    apply drop_ge. rewrite length_take. lia.
Qed.

Lemma BufferSpool_append_inv r s :
  buffer_inv s → wf_limit (bs_limit s) → sizes (bs_records s ++ [r]) ≤ MAX_U64 →
  buffer_inv (BufferSpool_append r s).
Proof.
  intros Hi Hw Hs. rewrite (BufferSpool_append_eq r s Hi Hw Hs).
  set (all := bs_records s ++ [r]). apply tail_within; simpl; [done|..];
    destruct (drop_kept_trim (keep_messages s) (bs_limit s) all) as [->|[E ->]];
    rewrite ?E; try done; [by apply trim_within|].
  by apply (trim_within _ []).
Qed.

Lemma pop_consumed_suffix sq rs : ∃ popped, rs = popped ++ pop_consumed sq rs ∧
  Forall (λ r, wire_seq r ≤ sq) popped.
Proof.
  induction rs as [|r rs (p & IH & Hp)]; [by exists []|]. simpl.
  destruct (Z.leb_spec (wire_seq r) sq); [|by exists []].
  exists (r :: p). split; [by simpl; f_equal|by constructor].
Qed.

Lemma sizes_suffix pre rs : sizes rs ≤ sizes (pre ++ rs).
Proof. rewrite sizes_app. pose proof (sizes_nonneg pre). lia. Qed.

Lemma tail_over_suffix limit pre tail :
  tail_over limit (pre ++ tail) = false → tail_over limit tail = false.
Proof.
  destruct limit; simpl; rewrite !Z.ltb_ge.
  - pose proof (sizes_suffix pre tail). lia.
  - rewrite len_app. pose proof (len_nonneg pre). lia.
Qed.

Lemma BufferSpool_consume_inv sq s :
  buffer_inv s → wf_limit (bs_limit s) → buffer_inv (BufferSpool_consume_through sq s).
Proof.
  intros [Hb Hl] Hw. apply tail_within; [done|done|]. simpl.
  destruct (pop_consumed_suffix sq (bs_records s)) as (p & E & _).
  set (rs' := pop_consumed sq (bs_records s)) in *.
  destruct (decide (length (bs_records s) ≤ keep_messages s)%nat) as [Hle|Hgt].
  { rewrite drop_ge; [by apply (trim_within _ [])|]. rewrite E, length_app in Hle. lia. }
  destruct (over_limit s) eqn:Ho; [specialize (Hl eq_refl); lia|].
  rewrite (over_limit_tail s (take (keep_messages s) (bs_records s))
    (drop (keep_messages s) (bs_records s))) in Ho; [|by rewrite take_drop|rewrite length_take; lia|done].
  assert (∃ pre, drop (keep_messages s) (bs_records s) = pre ++ drop (keep_messages s) rs') as [pre Epre].
  { exists (take (length p) (drop (keep_messages s) (bs_records s))).
    assert (drop (keep_messages s) rs' = drop (length p) (drop (keep_messages s) (bs_records s))) as ->.
    { rewrite drop_drop, Nat.add_comm, <- drop_drop. by rewrite E, drop_app_length. }
    by rewrite take_drop. }
  rewrite Epre in Ho. by eapply tail_over_suffix.
Qed.

(** ** The cursor yields the first record after the last delivered one *)

Lemma position_after_spec last rs :
  match position_after last rs with
  | Some i => ∃ r, rs !! i = Some r ∧ last < wire_seq r ∧
                ∀ j x, (j < i)%nat → rs !! j = Some x → wire_seq x ≤ last
  | None => ∀ x, x ∈ rs → wire_seq x ≤ last
  end.
Proof.
  induction rs as [|r rs IH]; simpl; [by intros x ?%elem_of_nil|].
  destruct (Z.ltb_spec last (wire_seq r)).
  - exists r. split_and!; [done..|lia].
  - destruct (position_after last rs) as [i|]; simpl.
    + destruct IH as (r' & H1 & H2 & H3). exists r'. split_and!; try done.
      intros [|j] x Hj Hx; simpl in Hx; [by inv_res|]. apply (H3 j); [lia|done].
    + intros x [->|Hx]%elem_of_cons; [done|by apply IH].
Qed.

Lemma sorted_lookup_lt rs i j a b :
  StronglySorted seq_lt rs → (i < j)%nat → rs !! i = Some a → rs !! j = Some b →
  wire_seq a < wire_seq b.
Proof.
  intros Hs. revert i j. induction Hs as [|x rs Hs IH Hx]; intros i j Hij Ha Hb; [done|].
  destruct j as [|j]; [lia|]. simpl in Hb. destruct i as [|i]; simpl in Ha.
  - injection Ha as ->. rewrite list.Forall_forall in Hx. apply Hx. by eapply list_elem_of_lookup_2.
  - by apply (IH i j); [lia|..].
Qed.

(** An index that has become stale is detected or harmless. *)
Lemma BufferSpool_next_spec s c :
  StronglySorted seq_lt (bs_records s) →
  ∃ c', BufferSpool_next_for_cursor s c = (next_after (bcur_last_seq c) (bs_records s), c') ∧
    bcur_last_seq c' = advance (bcur_last_seq c) (next_after (bcur_last_seq c) (bs_records s)).
Proof.
  intros Hs. unfold BufferSpool_next_for_cursor.
  assert (∃ c', match position_after (bcur_last_seq c) (bs_records s) with
    | None => (None, c)
    | Some i => match bs_records s !! i with
                | None => (None, c)
                | Some record => (Some record, mkBufferCursor (i + 1) (wire_seq record))
                end
    end = (next_after (bcur_last_seq c) (bs_records s), c') ∧
    bcur_last_seq c' = advance (bcur_last_seq c) (next_after (bcur_last_seq c) (bs_records s))) as Hsearch.
  { pose proof (position_after_spec (bcur_last_seq c) (bs_records s)) as Hp.
    destruct (position_after _ _) as [i|].
    - destruct Hp as (r & Hi & Hlt & Hj). rewrite Hi, (next_after_first _ _ i r) by done. by eexists.
    - rewrite next_after_all_le by done. by eexists. }
  destruct (bs_records s !! next_index c) as [r|] eqn:Hr; [|done].
  destruct (index_still_aligned s c) eqn:Ha; simpl; [|done].
  destruct (Z.ltb_spec (bcur_last_seq c) (wire_seq r)) as [Hlt|]; [|done].
  rewrite (next_after_first _ _ (next_index c) r); [by eexists|done..|].
  intros j x Hj Hx. unfold index_still_aligned in Ha.
  destruct (next_index c) as [|i]; [lia|]. simpl in Ha.
  destruct (bs_records s !! i) as [y|] eqn:Hy; [|done]. apply Z.leb_le in Ha.
  destruct (decide (j = i)) as [->|]; [by simplify_eq|].
  pose proof (sorted_lookup_lt _ j i x y Hs ltac:(lia) Hx Hy). lia.
Qed.

(** [BufferSpool] as a replay source. *)
#[export] Instance BufferSpool_source : ReplaySource BufferSpool BufferReplayCursor := {|
  src_records := bs_records;
  src_ok s := StronglySorted seq_lt (bs_records s);
  src_start := BufferSpool_replay_cursor_after;
  src_next s c := let '(o, c') := BufferSpool_next_for_cursor s c in (Ok o, c');
  src_last := bcur_last_seq;
  src_cursor_ok _ _ := True;
|}.

#[export] Instance BufferSpool_source_laws : ReplaySourceLaws BufferSpool BufferReplayCursor.
Proof.
  split; simpl; [done|done|].
  intros s c Hs _. destruct (BufferSpool_next_spec s c Hs) as (c' & -> & Hl). by exists c'.
Qed.

(** ** The buffer under a live client

    Producers append, a draining client consumes, and a replay client follows, in
    any order. *)

Inductive buffer_event : Type :=
| EvAppend (r : WireRecord)
| EvConsume (sq : Z)
| EvNext.

Definition buffer_apply (e : buffer_event) (a : session BufferSpool BufferReplayCursor)
    : session BufferSpool BufferReplayCursor :=
  match e with
  | EvAppend r =>
      mkSession (BufferSpool_append r (se_spool a)) (se_cursor a) (se_delivered a)
        (Z.max (se_high a) (wire_seq r))
  | EvConsume sq =>
      mkSession (BufferSpool_consume_through sq (se_spool a)) (se_cursor a) (se_delivered a) (se_high a)
  | EvNext =>
      let '(o, c) := BufferSpool_next_for_cursor (se_spool a) (se_cursor a) in
      mkSession (se_spool a) c (se_delivered a ++ option_list o) (se_high a)
  end.

(** The sequence numbers of appended records increase, as the ingest path
    assigns them. *)
Fixpoint increasing_appends (hi : Z) (es : list buffer_event) : Prop :=
  match es with
  | [] => True
  | EvAppend r :: es => hi < wire_seq r ∧ increasing_appends (wire_seq r) es
  | _ :: es => increasing_appends hi es
  end.

Definition buffer_run (es : list buffer_event) (a : session BufferSpool BufferReplayCursor) :=
  foldl (λ a e, buffer_apply e a) a es.

Lemma enforce_limits_sublist fuel s : sublist (bs_records (enforce_limits_loop fuel s)) (bs_records s).
Proof.
  revert s. induction fuel as [|fuel IH]; intros s; cbn [enforce_limits_loop]; [done|].
  destruct (_ && _); [|done]. destruct (bs_records s !! keep_messages s); [|done].
  etransitivity; [apply IH|]. apply sublist_delete.
Qed.

Lemma BufferSpool_append_sublist r s :
  sublist (bs_records (BufferSpool_append r s)) (bs_records s ++ [r]).
Proof.
  unfold BufferSpool_append, enforce_limits. case_bool_decide; etransitivity;
    try apply enforce_limits_sublist; done.
Qed.

Lemma BufferSpool_consume_sublist sq s :
  sublist (bs_records (BufferSpool_consume_through sq s)) (bs_records s).
Proof.
  simpl. destruct (pop_consumed_suffix sq (bs_records s)) as (p & E & _).
  rewrite E at 2. by apply sublist_inserts_l.
Qed.

Lemma sublist_elem_of (l k : list WireRecord) x : sublist l k → x ∈ l → x ∈ k.
Proof.
  induction 1 as [|y l k Hs IH|y l k Hs IH]; [done|..]; rewrite ?elem_of_cons.
  - intros [->|Hx]; [by left|right; by apply IH].
  - intros Hx. right. by apply IH.
Qed.

Lemma sublist_sorted (l k : list WireRecord) :
  sublist l k → StronglySorted seq_lt k → StronglySorted seq_lt l.
Proof.
  induction 1 as [|x l k Hs IH|x l k Hs IH]; intros Hk; [done|..];
    apply StronglySorted_inv in Hk as [Hk Hx]; [|by apply IH].
  constructor; [by apply IH|]. rewrite list.Forall_forall in *. intros y Hy. apply Hx.
  by eapply sublist_elem_of.
Qed.

Lemma buffer_apply_reachable start e es a :
  session_reachable start a → increasing_appends (se_high a) (e :: es) →
  session_reachable start (buffer_apply e a) ∧ increasing_appends (se_high (buffer_apply e a)) es.
Proof.
  intros Hr Hinc. pose proof (session_reachable_inv _ _ Hr) as [Hok _ _ Hst _ _ _].
  destruct a as [s c d hi]; simpl in *. destruct e as [r|sq|]; simpl in *.
  - destruct Hinc as [Hlt Hinc]. rewrite Z.max_r by lia. split; [|done].
    eapply reach_step; [exact Hr|]. apply step_mutate; simpl; try done; [|lia|].
    + eapply sublist_sorted; [apply BufferSpool_append_sublist|]. apply sorted_snoc; [done|].
      intros x Hx%Hst. lia.
    + intros x Hx. eapply sublist_elem_of in Hx; [|apply BufferSpool_append_sublist].
      apply elem_of_app in Hx as [?| ->%list_elem_of_singleton]; [by left|right; lia].
  - split; [|done]. eapply reach_step; [exact Hr|]. apply step_mutate; simpl; try done.
    + eapply sublist_sorted; [apply (BufferSpool_consume_sublist sq)|done].
    + intros x Hx. left. eapply sublist_elem_of; [apply (BufferSpool_consume_sublist sq)|exact Hx].
  - destruct (BufferSpool_next_for_cursor s c) as [[r|] c'] eqn:En; (split; [|done]);
      (eapply reach_step; [exact Hr|]); simpl; rewrite ?app_nil_r.
    + apply step_deliver. simpl. by rewrite En.
    + apply step_idle. simpl. by rewrite En.
Qed.

Lemma buffer_run_reachable start es a :
  session_reachable start a → increasing_appends (se_high a) es → session_reachable start (buffer_run es a).
Proof.
  revert a. induction es as [|e es IH]; intros a Hr Hinc; [done|].
  destruct (buffer_apply_reachable start e es a Hr Hinc) as [Hr' Hinc']. by apply IH.
Qed.

(** ** The theorems *)

(** Bounded memory.  Appending keeps the first [keep_messages] records, keeps of
    the rest exactly the longest run of newest records within the configured
    limit, and accounts for its size exactly. *)
Theorem buffer_append_keeps_longest_tail r s :
  buffer_inv s → wf_limit (bs_limit s) → sizes (bs_records s ++ [r]) ≤ MAX_U64 →
  let s' := BufferSpool_append r s in
  let all := bs_records s ++ [r] in
  ∃ dropped tail,
    bs_records s' = take (keep_messages s) all ++ tail ∧
    drop (keep_messages s) all = dropped ++ tail ∧
    tail_over (bs_limit s) tail = false ∧
    (∀ pre x suffix, dropped ++ tail = pre ++ x :: suffix → (length tail ≤ length suffix)%nat →
      tail_over (bs_limit s) (x :: suffix) = true) ∧
    tail_bytes s' = sizes tail ∧ buffer_inv s'.
Proof.
  intros Hi Hw Hs s' all. pose proof (BufferSpool_append_inv r s Hi Hw Hs) as Hi'.
  subst s' all. rewrite (BufferSpool_append_eq r s Hi Hw Hs) in *. simpl in *.
  destruct (trim_suffix (bs_limit s) (drop (keep_messages s) (bs_records s ++ [r]))) as [d E].
  exists d, (trim (bs_limit s) (drop (keep_messages s) (bs_records s ++ [r]))).
  split_and!; try done; [by apply trim_within|].
  intros pre x suffix E2 Hlen. rewrite <- E in E2. by eapply trim_longest.
Qed.

(** C7: live replay.  However appends, consumption (with the removals they cause)
    and reads interleave, the client is handed records in strictly increasing
    sequence order, hence none twice, and every record that is still in the spool
    and not beyond the client's position has been handed to it. *)
Theorem buffer_replay_in_order_without_gaps s start hi es :
  StronglySorted seq_lt (bs_records s) → (∀ r, r ∈ bs_records s → wire_seq r ≤ hi) →
  increasing_appends hi es →
  let a := buffer_run es (mkSession s (BufferSpool_replay_cursor_after s start) [] hi) in
  StronglySorted seq_lt (se_delivered a) ∧
  (∀ r, r ∈ se_delivered a → start < wire_seq r) ∧
  (∀ r, r ∈ bs_records (se_spool a) → start < wire_seq r ≤ bcur_last_seq (se_cursor a) →
    r ∈ se_delivered a).
Proof.
  intros Hs Hall Hinc a.
  assert (session_reachable start a) as Hr.
  { apply buffer_run_reachable; [|done]. exact (reach_init start s hi Hs Hall). }
  destruct (session_reachable_inv _ _ Hr) as [_ _ _ _ Hso Hb Hco]. split_and!; [done| |done].
  intros r Hin%Hb. lia.
Qed.

Definition wire (n : Z) : WireRecord := mkWire Logs n 0 [n].

Lemma buffer_append_keeps_longest_tail_witness :
  let s := mkBufferSpool 9 (LimitMessages 2) 1 [wire 1; wire 2; wire 3] 44 in
  let s' := BufferSpool_append (wire 4) s in
  let all := bs_records s ++ [wire 4] in
  ∃ dropped tail,
    bs_records s' = take (keep_messages s) all ++ tail ∧
    drop (keep_messages s) all = dropped ++ tail ∧
    tail_over (bs_limit s) tail = false ∧
    (∀ pre x suffix, dropped ++ tail = pre ++ x :: suffix → (length tail ≤ length suffix)%nat →
      tail_over (bs_limit s) (x :: suffix) = true) ∧
    tail_bytes s' = sizes tail ∧ buffer_inv s'.
Proof.
  apply (buffer_append_keeps_longest_tail (wire 4)
    (mkBufferSpool 9 (LimitMessages 2) 1 [wire 1; wire 2; wire 3] 44)).
  - split; [reflexivity|]. vm_compute. discriminate.
  - split; vm_compute; discriminate.
  - vm_compute. discriminate.
Defined.

Lemma buffer_replay_in_order_without_gaps_witness :
  let s := mkBufferSpool 9 (LimitMessages 2) 1 [wire 1; wire 2] 22 in
  let a := buffer_run [EvNext; EvAppend (wire 5); EvAppend (wire 6); EvConsume 5; EvNext]
             (mkSession s (BufferSpool_replay_cursor_after s 0) [] 2) in
  StronglySorted seq_lt (se_delivered a) ∧
  (∀ r, r ∈ se_delivered a → 0 < wire_seq r) ∧
  (∀ r, r ∈ bs_records (se_spool a) → 0 < wire_seq r ≤ bcur_last_seq (se_cursor a) →
    r ∈ se_delivered a).
Proof.
  apply (buffer_replay_in_order_without_gaps
    (mkBufferSpool 9 (LimitMessages 2) 1 [wire 1; wire 2] 22) 0 2
    [EvNext; EvAppend (wire 5); EvAppend (wire 6); EvConsume 5; EvNext]).
  - repeat constructor.
  - intros r [->|[->|Hr%elem_of_nil]%elem_of_cons]%elem_of_cons; simpl; lia || done.
  - simpl. lia.
Defined.
