(* ===== verification/FileSpool.v ===== *)
(** * The file spool

    Models [FileSpool] of [logjetd/src/spool.rs]: records go through a
    [LogjetWriter] over a [BufWriter] into the active segment file, segments are
    rotated at a target size, removed by retention and after consumption, and
    replayed by reading the files.

    The spool directory is a finite map from file names to contents.  The active
    segment's content lives in the writer's file handle; [disk] is what the
    directory shows.  Reservation of disk blocks ([preallocate_file]) and
    [sync_all] change neither names nor contents. *)

From stdpp Require Import sorting.
From S2P Require Import Prelude Format Text Writer Reader RecordLoop Protocol Source.

(** ** [BufWriter<File>] over a file opened for appending *)

Record BufWriter : Type := mkBufWriter {
  bw_file : list Z;
  bw_buf : list Z;
}.

Definition BUF_CAPACITY : Z := 8192.

Definition spare_capacity (w : BufWriter) : Z := BUF_CAPACITY - len (bw_buf w).

Definition bufwriter_flush (w : BufWriter) : BufWriter := mkBufWriter (bw_file w ++ bw_buf w) [].

Definition bufwriter_write_all (bs : list Z) (w : BufWriter) : BufWriter :=
  if len bs <? spare_capacity w then mkBufWriter (bw_file w) (bw_buf w ++ bs) else
  let w := if spare_capacity w <? len bs then bufwriter_flush w else w in
  if BUF_CAPACITY <=? len bs then mkBufWriter (bw_file w ++ bs) (bw_buf w)
  else mkBufWriter (bw_file w) (bw_buf w ++ bs).

#[export] Instance BufWriter_Write : Write BufWriter := {|
  write_all bs := modify (bufwriter_write_all bs);
  written w := bw_file w ++ bw_buf w;
|}.

#[export] Instance BufWriter_WriteLaws : WriteLaws BufWriter.
Proof.
  constructor. intros bs w w' Hw. injection Hw as <-. simpl. unfold bufwriter_write_all, spare_capacity.
  destruct (Z.ltb_spec (len bs) (BUF_CAPACITY - len (bw_buf w))); [simpl; by rewrite app_assoc|].
  destruct (Z.ltb_spec (BUF_CAPACITY - len (bw_buf w)) (len bs)) as [Hlt|Hge];
    destruct (Z.leb_spec BUF_CAPACITY (len bs)) as [Hc|Hc]; simpl; rewrite ?app_nil_r, ?app_assoc; try done.
  assert (bw_buf w = []) as ->.
  { apply len_zero. pose proof (len_nonneg (bw_buf w)). lia. }
  by rewrite !app_nil_r.
Qed.

#[export] Instance BufWriter_Infallible : InfallibleWrite BufWriter.
Proof. intros bs w. by eexists. Qed.

(** ** Configuration and state *)

Inductive FsyncPolicy : Type := FsyncNone | FsyncBlock | FsyncInterval.

#[export] Instance FsyncPolicy_eq_dec : EqDecision FsyncPolicy.
Proof. solve_decision. Defined.

Record FileConfig : Type := mkFileConfig {
  fc_name : list Z;
  fc_segment_size_bytes : Z;
  fc_fsync : FsyncPolicy;
  fc_codec : Codec;
  fc_max_total_bytes : Z;
  fc_block_alignment : Z;
}.

Abbreviation files := (gmap (list Z) (list Z)).

Record SegmentInfo : Type := mkSegment { seg_id : Z; seg_path : list Z }.

Record FileReplayCursor : Type := mkFileCursor {
  next_segment_id_hint : Z;
  fcur_last_seq : Z;
}.

Record FileSpool : Type := mkFileSpool {
  others : files;
  base_stem : list Z;
  state_path : list Z;
  fs_stream_id : Z;
  active_segment_id : Z;
  active_segment_path : list Z;
  active_writer : LogjetWriter BufWriter;
  active_size_bytes : Z;
  segment_target_bytes : Z;
  fsync : FsyncPolicy;
  fs_codec : Codec;
  fs_block_alignment : Z;
  max_total_bytes : Z;
  consumed_through_seq : Z;
}.

(** The directory: the other files, and the active one as far as it has left the
    writer's buffers. *)
Definition disk (s : FileSpool) : files :=
  <[active_segment_path s := bw_file (inner (active_writer s))]> (others s).

(** ** Names *)

Definition derive_base_stem (file_name : list Z) : list Z :=
  default file_name (strip_suffix file_name (str ".logjet")).

Definition parse_segment_id (name base_stem : list Z) : option Z :=
  if bool_decide (name = base_stem ++ str ".logjet") then Some 0 else
  let prefix := base_stem ++ str "-" in
  let suffix := str ".logjet" in
  if negb (starts_with name prefix) || negb (ends_with name suffix) then None else
  let value := slice (length prefix) (length name - length suffix) name in
  match parse_u64 value with Ok id => Some id | Err _ => None end.

(** The file name of [segment_path(dir, base_stem, id)]. *)
Definition segment_path (base_stem : list Z) (id : Z) : list Z :=
  if id =? 0 then base_stem ++ str ".logjet"
  else base_stem ++ str "-" ++ u64_to_string id ++ str ".logjet".

Definition id_le (a b : SegmentInfo) : Prop := seg_id a ≤ seg_id b.
#[export] Instance id_le_dec a b : Decision (id_le a b).
Proof. unfold id_le. apply _. Defined.

Definition list_segments (d : files) (base_stem : list Z) : list SegmentInfo :=
  merge_sort id_le
    (omap (λ entry : list Z * list Z, (λ id, mkSegment id entry.1) <$> parse_segment_id entry.1 base_stem)
       (map_to_list d)).

(** ** Files *)

Definition not_found : IoError := io_error NotFound "No such file or directory (os error 2)".

(** [File::open(path)?] or [fs::metadata(path)?] *)
Definition read_file (d : files) (path : list Z) : result IoError (list Z) :=
  ok_or (d !! path) not_found.

Definition read_to_string (d : files) (path : list Z) : result IoError (list Z) :=
  let? content := read_file d path in
  if utf8_valid content then Ok content
  else Err (io_error InvalidData "stream did not contain valid UTF-8").

Definition to_io_error (err : Error) : IoError := io_error InvalidData (Error_fmt err).

Definition IntErrorKind_fmt (e : IntErrorKind) : string :=
  match e with
  | Empty => "cannot parse integer from empty string"
  | InvalidDigit => "invalid digit found in string"
  | PosOverflow => "number too large to fit in target type"
  end.

Definition read_consumed_state (d : files) (path : list Z) : result IoError Z :=
  match d !! path with
  | None => Ok 0
  | Some _ =>
      let? text := read_to_string d path in
      map_err (λ err, io_error InvalidData ("invalid consumed state: " +:+ IntErrorKind_fmt err))
        (parse_u64 (trim_text text))
  end.

(** [fs::write(path, seq.to_string())] *)
Definition write_consumed_state (path : list Z) (seq : Z) (d : files) : files :=
  <[path := u64_to_string seq]> d.

(** [fresh] is the result of [generate_stream_id()]. *)
Definition read_or_create_stream_id (path : list Z) (fresh : Z) : M files IoError Z :=
  let! d := gets (λ d, d) in
  match d !! path with
  | Some _ =>
      let! text := lift (read_to_string d path) in
      lift (map_err (λ err, io_error InvalidData ("invalid stream id: " +:+ IntErrorKind_fmt err))
              (parse_u64 (trim_text text)))
  | None => modify (insert path (u64_to_string fresh)) ;;! ret fresh
  end.

(** [file.set_len(n)] *)
Definition set_len (n : Z) (content : list Z) : list Z :=
  take (Z.to_nat n) content ++ replicate (Z.to_nat n - length content) 0.

(** ** State updates *)

Definition set_others (d : files) (s : FileSpool) : FileSpool :=
  mkFileSpool d (base_stem s) (state_path s) (fs_stream_id s) (active_segment_id s)
    (active_segment_path s) (active_writer s) (active_size_bytes s) (segment_target_bytes s) (fsync s)
    (fs_codec s) (fs_block_alignment s) (max_total_bytes s) (consumed_through_seq s).
Definition set_active (id : Z) (path : list Z) (w : LogjetWriter BufWriter) (size : Z) (s : FileSpool)
    : FileSpool :=
  mkFileSpool (others s) (base_stem s) (state_path s) (fs_stream_id s) id path w size
    (segment_target_bytes s) (fsync s) (fs_codec s) (fs_block_alignment s) (max_total_bytes s)
    (consumed_through_seq s).
Definition set_writer (w : LogjetWriter BufWriter) (s : FileSpool) : FileSpool :=
  set_active (active_segment_id s) (active_segment_path s) w (active_size_bytes s) s.
Definition set_size (n : Z) (s : FileSpool) : FileSpool :=
  set_active (active_segment_id s) (active_segment_path s) (active_writer s) n s.
Definition set_consumed (sq : Z) (s : FileSpool) : FileSpool :=
  mkFileSpool (others s) (base_stem s) (state_path s) (fs_stream_id s) (active_segment_id s)
    (active_segment_path s) (active_writer s) (active_size_bytes s) (segment_target_bytes s) (fsync s)
    (fs_codec s) (fs_block_alignment s) (max_total_bytes s) sq.

Local Abbreviation FM := (M FileSpool IoError).

Section FileSpool.
Context {EX : Externals}.

(** [self.active_writer.op().map_err(to_io_error)?] *)
Definition with_writer {A : Type} (op : M (LogjetWriter BufWriter) Error A) : FM A :=
  λ s, let '(r, w) := op (active_writer s) in (map_err to_io_error r, set_writer w s).

(** [self.active_writer.inner_mut().flush()?] *)
Definition flush_inner : FM unit :=
  modify (λ s, set_writer (set_inner (bufwriter_flush (inner (active_writer s))) (active_writer s)) s).

Definition refresh_active_size : FM unit :=
  let! d := gets disk in
  let! path := gets active_segment_path in
  let! content := lift (read_file d path) in
  modify (set_size (len content)).

(** [fs::remove_file(path)?] for a file that is not the active one. *)
Definition remove_file (path : list Z) : FM unit :=
  let! d := gets others in
  match d !! path with
  | None => throw not_found
  | Some _ => modify (set_others (delete path d))
  end.

Definition writer_config (s : FileSpool) : WriterConfig :=
  mkWriterConfig DEFAULT_BLOCK_TARGET_SIZE (fs_codec s) DEFAULT_SYNC_MARKER (fs_block_alignment s).

(** The part that [rotate] and [advance_empty_active_segment] share: the next
    segment is opened for appending and its writer replaces the old one, which on
    being dropped writes out what its [BufWriter] still holds. *)
Definition open_next_segment : FM unit :=
  let! id := gets active_segment_id in
  let! id := lift (ok_or (checked_add MAX_U64 id 1) (io_error InvalidData "segment id overflow")) in
  modify (λ s,
    let path := segment_path (base_stem s) id in
    let closed := <[active_segment_path s :=
                      written (inner (active_writer s))]> (others s) in
    let content := default [] (closed !! path) in
    set_active id path (with_config (mkBufWriter content []) (writer_config s)) 0
      (set_others (delete path closed) s)).

(** ** Retention *)

Fixpoint remove_oldest (excess : Z) (segments : list SegmentInfo) : FM unit :=
  match segments with
  | [] => ret tt
  | segment :: segments =>
      let! active := gets active_segment_id in
      if (excess =? 0) || (seg_id segment =? active) then ret tt else
      let! d := gets disk in
      let size := match d !! seg_path segment with Some content => len content | None => 0 end in
      remove_file (seg_path segment) ;;!
      remove_oldest (saturating_sub excess size) segments
  end.

Definition total_size (d : files) (segments : list SegmentInfo) : Z :=
  foldr Z.add 0 (omap (λ s, len <$> d !! seg_path s) segments).

Definition enforce_retention : FM unit :=
  let! s := gets (λ s, s) in
  if max_total_bytes s =? 0 then ret tt else
  let segments := list_segments (disk s) (base_stem s) in
  let total := total_size (disk s) segments in
  if total <=? max_total_bytes s then ret tt else
  remove_oldest (total - max_total_bytes s) segments.

Definition rotate : FM unit :=
  with_writer flush_block ;;!
  flush_inner ;;!
  refresh_active_size ;;!
  modify (λ s, let w := active_writer s in
               set_writer (set_inner (mkBufWriter (set_len (active_size_bytes s) (bw_file (inner w)))
                                        (bw_buf (inner w))) w) s) ;;!
  open_next_segment ;;!
  enforce_retention.

(** ** Appending and flushing *)

Definition FileSpool_append (record : WireRecord) : FM unit :=
  let! s := gets (λ s, s) in
  (if (segment_target_bytes s <=? active_size_bytes s) && (0 <? active_size_bytes s)
   then rotate else ret tt) ;;!
  with_writer (push (wire_type record) (wire_seq record) (wire_ts record) (wire_payload record)) ;;!
  refresh_active_size ;;!
  let! s := gets (λ s, s) in
  let effective_size := active_size_bytes s + pending_bytes (active_writer s) in
  if segment_target_bytes s <=? effective_size then rotate else ret tt.

Definition FileSpool_flush_pending : FM unit :=
  with_writer flush_block ;;!
  flush_inner ;;!
  refresh_active_size.

Definition FileSpool_fsync_if_interval : FM unit :=
  let! policy := gets fsync in
  if decide (policy = FsyncInterval) then flush_inner else ret tt.

(** ** Reading *)

(** [LogjetReader::with_config(BufReader::new(File::open(path)?), ReaderConfig::default())]
    and a loop over its records. *)
Definition for_records {A : Type} (d : files) (path : list Z) (body : loop_body A) (a : A) : result IoError A :=
  let? content := read_file d path in
  match while_records body a (reader_with_config content ReaderConfig_default) with
  | Some (Ok a, _) => Ok a
  | Some (Err e, _) => Err (to_io_error e)
  | None => Err (io_error OtherKind "unreachable: record loop")
  end.

Definition FileSpool_replay_cursor_after (last_seq : Z) : FileReplayCursor := mkFileCursor 0 last_seq.

Definition to_wire (r : OwnedRecord) : WireRecord :=
  mkWire (record_type r) (seq r) (ts_unix_ns r) (payload r).

(** Skips records up to the floor and stops at the first one beyond it. *)
Definition first_beyond (floor_seq : Z) : loop_body (option OwnedRecord) :=
  λ found record, if seq record <=? floor_seq then (found, true) else (Some record, false).

Fixpoint next_in_segments (d : files) (floor_seq : Z) (segments : list SegmentInfo) (cursor : FileReplayCursor)
    : result IoError (option WireRecord) * FileReplayCursor :=
  match segments with
  | [] => (Ok None, cursor)
  | segment :: segments =>
      if seg_id segment <? next_segment_id_hint cursor then next_in_segments d floor_seq segments cursor else
      match for_records d (seg_path segment) (first_beyond floor_seq) None with
      | Err e => (Err e, cursor)
      | Ok (Some record) => (Ok (Some (to_wire record)), mkFileCursor (seg_id segment) (seq record))
      | Ok None =>
          next_in_segments d floor_seq segments (mkFileCursor (seg_id segment) (fcur_last_seq cursor))
      end
  end.

Definition FileSpool_next_for_cursor (s : FileSpool) (cursor : FileReplayCursor)
    : result IoError (option WireRecord) * FileReplayCursor :=
  let floor_seq := Z.max (fcur_last_seq cursor) (consumed_through_seq s) in
  next_in_segments (disk s) floor_seq (list_segments (disk s) (base_stem s)) cursor.

Definition segment_max_seq (d : files) (path : list Z) : result IoError (option Z) :=
  for_records d path (λ _ record, (Some (seq record), true)) None.

Definition bounds_body (consumed : Z) : loop_body (option Z * option Z) :=
  λ '(first_seq, last_seq) record,
    if seq record <=? consumed then ((first_seq, last_seq), true) else
    ((match first_seq with None => Some (seq record) | Some _ => first_seq end, Some (seq record)), true).

Fixpoint bounds_in_segments (d : files) (consumed : Z) (segments : list SegmentInfo) (acc : option Z * option Z)
    : result IoError (option Z * option Z) :=
  match segments with
  | [] => Ok acc
  | segment :: segments =>
      let? acc := for_records d (seg_path segment) (bounds_body consumed) acc in
      bounds_in_segments d consumed segments acc
  end.

Definition FileSpool_sequence_bounds (s : FileSpool) : result IoError (option (Z * Z)) :=
  let? bounds := bounds_in_segments (disk s) (consumed_through_seq s)
                   (list_segments (disk s) (base_stem s)) (None, None) in
  Ok (match bounds with
      | (Some first_seq, Some last_seq) => Some (first_seq, last_seq)
      | _ => None
      end).

(** ** Consumption *)

Definition advance_empty_active_segment : FM unit :=
  with_writer flush_block ;;!
  let! old_path := gets active_segment_path in
  open_next_segment ;;!
  let! d := gets disk in
  match d !! old_path with
  | Some _ => remove_file old_path
  | None => ret tt
  end.

Fixpoint cleanup_loop (segments : list SegmentInfo) : FM unit :=
  match segments with
  | [] => ret tt
  | segment :: segments =>
      let! s := gets (λ s, s) in
      let! max_seq := lift (segment_max_seq (disk s) (seg_path segment)) in
      match max_seq with
      | None => cleanup_loop segments
      | Some max_seq =>
          if consumed_through_seq s <? max_seq then cleanup_loop segments else
          if seg_id segment =? active_segment_id s then
            advance_empty_active_segment ;;! cleanup_loop segments
          else
            remove_file (seg_path segment) ;;! cleanup_loop segments
      end
  end.

Definition cleanup_consumed_segments : FM unit :=
  let! s := gets (λ s, s) in
  cleanup_loop (list_segments (disk s) (base_stem s)).

Definition FileSpool_consume_through (sq : Z) : FM unit :=
  let! s := gets (λ s, s) in
  if sq <=? consumed_through_seq s then ret tt else
  modify (set_consumed sq) ;;!
  modify (λ s, set_others (write_consumed_state (state_path s) sq (others s)) s) ;;!
  cleanup_consumed_segments.

(** ** Opening and closing *)

Definition choose_active (d : files) (segments : list SegmentInfo) (stem : list Z) (segment_size : Z)
    : result IoError (Z * list Z * Z) :=
  match list.last segments with
  | Some segment =>
      let? content := read_file d (seg_path segment) in
      let size := len content in
      if size <? segment_size then Ok (seg_id segment, seg_path segment, size) else
      let? next_id := ok_or (checked_add MAX_U64 (seg_id segment) 1)
                        (io_error InvalidData "segment id overflow") in
      Ok (next_id, segment_path stem next_id, 0)
  | None => Ok (0, segment_path stem 0, 0)
  end.

(** [fresh] is the result of [generate_stream_id()]; on success the directory is
    that of the returned spool. *)
Definition FileSpool_open (config : FileConfig) (fresh : Z) (d : files) : result IoError FileSpool :=
  let stem := derive_base_stem (fc_name config) in
  let state := stem ++ str ".state" in
  let segments := list_segments d stem in
  let? consumed := read_consumed_state d state in
  let? (stream_id, d) :=
    match read_or_create_stream_id (stem ++ str ".stream-id") fresh d with
    | (Ok id, d) => Ok (id, d)
    | (Err e, _) => Err e
    end in
  let? (id, path, size) := choose_active d segments stem (fc_segment_size_bytes config) in
  let content := default [] (d !! path) in
  let wc := mkWriterConfig DEFAULT_BLOCK_TARGET_SIZE (fc_codec config) DEFAULT_SYNC_MARKER
              (fc_block_alignment config) in
  let spool := mkFileSpool (delete path d) stem state stream_id id path
                 (with_config (mkBufWriter content []) wc) size (fc_segment_size_bytes config)
                 (fc_fsync config) (fc_codec config) (fc_block_alignment config)
                 (fc_max_total_bytes config) consumed in
  match cleanup_consumed_segments spool with
  | (Ok _, spool) => Ok spool
  | (Err e, _) => Err e
  end.

(** [impl Drop for FileSpool]: the directory that is left behind.  Whether or not
    [flush_block] succeeds, dropping the [BufWriter] writes out its buffer. *)
Definition FileSpool_drop (s : FileSpool) : files :=
  let '(_, w) := flush_block (active_writer s) in
  <[active_segment_path s := written (inner w)]> (others s).
End FileSpool.
