(* ===== verification/Segments.v ===== *)
(** * Segment files

    Facts about the directory of a file spool: segment names are recognised
    exactly, [list_segments] lists the segments in increasing order of their ids,
    and a segment file that holds what a writer emitted delivers its records
    ([clean]), also while its last part is still in the writer's buffer. *)

From stdpp Require Import sorting.
From S2P Require Import Prelude Format Text Writer Reader Scan Container RecordLoop Protocol Source FileSpool.

(** ** Names *)

Lemma str_app a b : str (a +:+ b) = str a ++ str b.
Proof.
  unfold str. rewrite <- fmap_app. f_equal. induction a as [|c a IH]; simpl; [done|]. by f_equal.
Qed.

(** A segment name is recognised with its id. *)
Lemma parse_segment_path stem id : is_u64 id → parse_segment_id (segment_path stem id) stem = Some id.
Proof.
  intros Hid. unfold parse_segment_id, segment_path.
  destruct (Z.eqb_spec id 0) as [->|Hne]; [by rewrite bool_decide_eq_true_2|].
  rewrite bool_decide_eq_false_2.
  2:{ intros E. apply app_inv_head in E. done. }
  assert (starts_with (stem ++ str "-" ++ u64_to_string id ++ str ".logjet") (stem ++ str "-") = true) as ->.
  { apply starts_with_true. eexists. by rewrite app_assoc. }
  assert (ends_with (stem ++ str "-" ++ u64_to_string id ++ str ".logjet") (str ".logjet") = true) as ->.
  { apply ends_with_true. eexists. by rewrite !app_assoc. }
  cbn [negb orb].
  assert (slice (length (stem ++ str "-"))
    (length (stem ++ str "-" ++ u64_to_string id ++ str ".logjet") - length (str ".logjet"))
    (stem ++ str "-" ++ u64_to_string id ++ str ".logjet") = u64_to_string id) as ->.
  { rewrite app_assoc. apply slice_app'; [done|]. rewrite !length_app. lia. }
  by rewrite parse_u64_to_string.
Qed.

(** The two affixes that [parse_segment_id] cuts off never overlap, so its slice
    is always in range. *)
Lemma segment_name_slice_in_range stem name :
  starts_with name (stem ++ str "-") = true → ends_with name (str ".logjet") = true →
  (length (stem ++ str "-") ≤ length name - length (str ".logjet"))%nat.
Proof.
  intros [r1 E1]%starts_with_true [r2 E2]%ends_with_true.
  destruct (decide (length (stem ++ str "-") ≤ length name - length (str ".logjet"))%nat) as [|Hgt]; [done|].
  exfalso. rewrite E2, !length_app in Hgt. change (length (str ".logjet")) with 7%nat in Hgt.
  change (length (str "-")) with 1%nat in Hgt.
  (* the dash would be one of the seven bytes of the suffix *)
  assert (name !! length stem = Some 45) as Hdash.
  { rewrite E1, <- app_assoc. by rewrite lookup_app_r, Nat.sub_diag by lia. }
  rewrite E2, lookup_app_r in Hdash by lia.
  assert (length stem - length r2 < 7)%nat as Hlt.
  { apply lookup_lt_Some in Hdash. done. }
  destruct (length stem - length r2)%nat as [|[|[|[|[|[|[|]]]]]]]; (discriminate Hdash || lia).
Qed.

Lemma parse_segment_id_u64 name stem id : parse_segment_id name stem = Some id → is_u64 id.
Proof.
  unfold parse_segment_id. case_bool_decide; [intros; inv_res; int_solve|].
  destruct (_ || _); [done|]. destruct (parse_u64 _) as [z|] eqn:E; [|done]. intros. inv_res.
  by eapply parse_u64_u64.
Qed.

(** ** Listing *)

Definition id_lt (a b : SegmentInfo) : Prop := seg_id a < seg_id b.

Definition is_segment (d : files) (stem : list Z) (seg : SegmentInfo) : Prop :=
  is_Some (d !! seg_path seg) ∧ parse_segment_id (seg_path seg) stem = Some (seg_id seg).

(** [segs] are the segments of the directory, in strictly increasing order. *)
Definition segments_of (d : files) (stem : list Z) (segs : list SegmentInfo) : Prop :=
  StronglySorted id_lt segs ∧ ∀ seg, seg ∈ segs ↔ is_segment d stem seg.

Lemma elem_of_raw_segments d stem seg :
  seg ∈ omap (λ entry : list Z * list Z, (λ id, mkSegment id entry.1) <$> parse_segment_id entry.1 stem)
          (map_to_list d) ↔ is_segment d stem seg.
Proof.
  rewrite list_elem_of_omap. split.
  - intros ([name c] & Hin & E). apply elem_of_map_to_list in Hin. simpl in E.
    destruct (parse_segment_id name stem) as [id|] eqn:Ep; [|done]. injection E as <-.
    split; [by eexists|done].
  - intros [[c Hc] Hp]. exists (seg_path seg, c). rewrite elem_of_map_to_list. split; [done|].
    simpl. rewrite Hp. by destruct seg.
Qed.

Lemma NoDup_raw_segments d stem :
  NoDup (omap (λ entry : list Z * list Z, (λ id, mkSegment id entry.1) <$> parse_segment_id entry.1 stem)
           (map_to_list d)).
Proof.
  pose proof (NoDup_fst_map_to_list d) as Hnd.
  induction (map_to_list d) as [|[name c] l IH]; simpl; [constructor|].
  apply list.NoDup_cons in Hnd as [Hni Hnd]. specialize (IH Hnd).
  destruct (parse_segment_id name stem) as [id|]; simpl; [|done].
  constructor; [|done]. intros ([name' c'] & Hin & E)%list_elem_of_omap. simpl in *.
  destruct (parse_segment_id name' stem); [|done]. injection E as _ ->. apply Hni.
  apply list_elem_of_fmap. by exists (name, c').
Qed.

#[export] Instance id_le_total : Total id_le.
Proof. intros a b. unfold id_le. lia. Qed.
#[export] Instance id_le_trans : Transitive id_le.
Proof. intros a b c. unfold id_le. lia. Qed.

Lemma elem_of_list_segments d stem seg : seg ∈ list_segments d stem ↔ is_segment d stem seg.
Proof. unfold list_segments. rewrite merge_sort_Permutation. apply elem_of_raw_segments. Qed.

Lemma list_segments_sorted d stem : StronglySorted id_le (list_segments d stem).
Proof. unfold list_segments. apply (StronglySorted_merge_sort id_le). Qed.

Lemma id_lt_NoDup segs : StronglySorted id_lt segs → NoDup segs.
Proof.
  induction 1 as [|a segs Hs IH Ha]; constructor; [|done].
  intros Hin. rewrite list.Forall_forall in Ha. specialize (Ha a Hin). unfold id_lt in Ha. lia.
Qed.

Lemma id_lt_inj segs a b : StronglySorted id_lt segs → a ∈ segs → b ∈ segs → seg_id a = seg_id b → a = b.
Proof.
  induction 1 as [|x segs Hs IH Hx]; [by intros ?%elem_of_nil|].
  rewrite list.Forall_forall in Hx. unfold id_lt in Hx.
  intros [->|Ha]%elem_of_cons [->|Hb]%elem_of_cons E; try done.
  - specialize (Hx _ Hb). lia.
  - specialize (Hx _ Ha). lia.
  - by apply IH.
Qed.

Lemma list_segments_eq d stem segs : segments_of d stem segs → list_segments d stem = segs.
Proof.
  intros [Hs Hin].
  apply (StronglySorted_unique_strong id_le); [..| |].
  - intros a b Ha Hb H1 H2. apply (id_lt_inj segs); [done| |done|unfold id_le in *; lia].
    apply Hin, elem_of_list_segments, Ha.
  - apply list_segments_sorted.
  - clear Hin. induction Hs as [|a segs Hs IH Ha]; constructor; [done|].
    eapply Forall_impl; [|exact Ha]. unfold id_lt, id_le. lia.
  - apply list.NoDup_Permutation.
    + unfold list_segments. rewrite merge_sort_Permutation. apply NoDup_raw_segments.
    + by apply id_lt_NoDup.
    + intros x. rewrite elem_of_list_segments. symmetry. apply Hin.
Qed.

(** ** Changing the directory *)

Lemma segments_of_insert_same d stem segs path c :
  segments_of d stem segs → is_Some (d !! path) → segments_of (<[path := c]> d) stem segs.
Proof.
  intros [Hs Hin] [c0 Hp]. split; [done|]. intros seg. rewrite Hin. unfold is_segment.
  destruct (decide (seg_path seg = path)) as [E|Hne].
  - rewrite E, lookup_insert_eq, Hp. split; intros [_ ?]; (split; [by eexists|done]).
  - by rewrite lookup_insert_ne.
Qed.

(** A file that is no segment does not matter. *)
Lemma segments_of_insert_other d stem segs path c :
  segments_of d stem segs → parse_segment_id path stem = None → segments_of (<[path := c]> d) stem segs.
Proof.
  intros [Hs Hin] Hp. split; [done|]. intros seg. rewrite Hin. unfold is_segment.
  destruct (decide (seg_path seg = path)) as [E|Hne].
  - rewrite E, Hp. by split; intros [_ ?].
  - by rewrite lookup_insert_ne.
Qed.

(** A new segment with the highest id comes last. *)
Lemma segments_of_insert_new d stem segs id path c :
  segments_of d stem segs → parse_segment_id path stem = Some id →
  (∀ seg, seg ∈ segs → seg_id seg < id) →
  segments_of (<[path := c]> d) stem (segs ++ [mkSegment id path]).
Proof.
  intros [Hs Hin] Hp Hlt. split.
  - apply StronglySorted_app. split_and!; [|done|by repeat constructor].
    intros a b Ha ->%list_elem_of_singleton. unfold id_lt. by apply Hlt.
  - intros seg. rewrite elem_of_app, list_elem_of_singleton, Hin. unfold is_segment. split.
    + intros [[[x Hx] Hps]| ->]; simpl.
      * destruct (decide (seg_path seg = path)) as [<-|Hne]; [by rewrite lookup_insert_eq; eauto|].
        rewrite lookup_insert_ne by done. eauto.
      * rewrite lookup_insert_eq. eauto.
    + intros [Hx Hps]. destruct (decide (seg_path seg = path)) as [E|Hne].
      * right. rewrite E, Hp in Hps. destruct seg; simpl in *. congruence.
      * left. by rewrite lookup_insert_ne in Hx.
Qed.

(** Removing the file of a segment removes the segment. *)
Lemma segments_of_delete d stem segs1 seg segs2 :
  segments_of d stem (segs1 ++ seg :: segs2) → segments_of (delete (seg_path seg) d) stem (segs1 ++ segs2).
Proof.
  intros [Hs Hin]. pose proof (id_lt_NoDup _ Hs) as Hnd. split.
  - apply StronglySorted_app in Hs as (H12 & H1 & H2). apply StronglySorted_inv in H2 as [H2 _].
    apply StronglySorted_app. split_and!; [|done..]. intros a b Ha Hb. apply H12; [done|by right].
  - intros x. pose proof (Hin x) as Hx. rewrite elem_of_app, elem_of_cons in Hx.
    rewrite elem_of_app. unfold is_segment in *.
    assert ((seg ∉ segs1) ∧ (seg ∉ segs2)) as [Hn1 Hn2].
    { apply list.NoDup_app in Hnd as (_ & Hd & Hnd). apply list.NoDup_cons in Hnd as [? _].
      split; [|done]. intros Hc. apply (Hd seg Hc). by left. }
    destruct (decide (seg_path x = seg_path seg)) as [E|Hne].
    + rewrite E, lookup_delete_eq. split; [|by intros [[? ?] _]].
      intros Hor. exfalso. destruct (proj1 Hx ltac:(tauto)) as [_ Hp].
      destruct (proj1 (Hin seg)) as [_ Hps]; [apply elem_of_app; right; by left|].
      assert (x = seg) as ->; [|tauto]. rewrite E, Hps in Hp. destruct x, seg; simpl in *. congruence.
    + rewrite lookup_delete_ne by done. rewrite <- Hx. split; [tauto|].
      intros [?|[->|?]]; [by left|done|by right].
Qed.

(** ** Clean contents *)

Section Clean.
Context {EX : Externals} {EL : ExternalLaws}.

(** The bytes end at a block boundary: whatever follows is read after [rs]. *)
Definition clean (content : list Z) (rs : list OwnedRecord) : Prop :=
  bytes content ∧ ∃ blocks, concat blocks = rs ∧ ∀ post rest,
    readable ReaderConfig_default (content ++ post) (length content) rest →
    readable ReaderConfig_default (content ++ post) 0 (blocks ++ rest).

Lemma clean_nil : clean [] [].
Proof. split; [constructor|]. by exists []. Qed.

(** Reading the bytes yields [rs]. *)
Definition holds (content : list Z) (rs : list OwnedRecord) : Prop :=
  bytes content ∧ ∃ blocks, concat blocks = rs ∧ readable ReaderConfig_default content 0 blocks.

Lemma clean_holds content rs : clean content rs → holds content rs.
Proof.
  intros [Hb (blocks & <- & Hc)]. split; [done|]. exists blocks. split; [done|].
  specialize (Hc [] []). rewrite !app_nil_r in Hc. by apply Hc, readable_at_end.
Qed.

Lemma holds_delivers content rs :
  holds content rs → len content < MAX_U32 →
  delivers (reader_with_config content ReaderConfig_default) rs.
Proof.
  intros [Hb (blocks & <- & Hr)] Hl. apply delivers_readable; try done.
  apply default_marker_self_avoiding.
Qed.

Lemma clean_frame wc lim content rs new c :
  compatible wc ReaderConfig_default lim → clean content rs →
  block_records new → compress (wc_codec wc) (encode_payload new) = Ok c →
  is_u32 (len (encode_payload new)) → is_u32 (len c) → is_u32 (len new) →
  len (encode_payload new) ≤ lim →
  clean (content ++ block_frame wc new c) (rs ++ new).
Proof.
  intros Hco [Hb (blocks & <- & Hc)] Hr Hcomp Hu H32 Hn Hfit. split.
  { apply bytes_app. split; [done|].
    assert (bytes (block_frame wc new c ++ padding (block_alignment wc) (len (block_frame wc new c)))) as Hf
      by (eapply bytes_is_block; [done|done|by exists c]).
    by apply bytes_app in Hf as [Hf _]. }
  exists (blocks ++ [new]). split; [rewrite concat_app; simpl; by rewrite app_nil_r|].
  intros post rest Hrest. rewrite <- !app_assoc in *. apply Hc. simpl.
  eapply readable_block; [reflexivity|intros; lia|by eapply block_frame_at|].
  by rewrite <- length_app.
Qed.

Lemma clean_zeros content rs n : clean content rs → clean (content ++ replicate n 0) rs.
Proof.
  intros [Hb (blocks & <- & Hc)]. split.
  { apply bytes_app. split; [done|]. apply Forall_replicate. int_solve. }
  exists blocks. split; [done|]. intros post rest Hrest. rewrite <- app_assoc in *. apply Hc.
  apply (readable_skip_range _ _ _ n).
  - intros t Ht Ho. exfalso. revert Ho. by apply padding_no_marker.
  - by rewrite length_app, length_replicate in Hrest.
Qed.

(** What a write to the buffered file can leave in the file. *)
Lemma bufwriter_file_cases bs w :
  bw_file (bufwriter_write_all bs w) = bw_file w ∨
  bw_file (bufwriter_write_all bs w) = written w ∨
  bw_file (bufwriter_write_all bs w) = written w ++ bs.
Proof.
  unfold bufwriter_write_all, spare_capacity, written, BufWriter_Write.
  destruct (_ <? _); [by left|]. destruct (Z.ltb_spec (BUF_CAPACITY - len (bw_buf w)) (len bs)).
  - destruct (BUF_CAPACITY <=? len bs); simpl; [by right; right|by right; left].
  - destruct (Z.leb_spec BUF_CAPACITY (len bs)); simpl; [|by left].
    assert (bw_buf w = []) as ->; [|right; right; by rewrite app_nil_r].
    apply len_zero. pose proof (len_nonneg (bw_buf w)). lia.
Qed.

(** The file of a sink is clean and holds a prefix of the records of the sink. *)
Definition sink_holds (w : BufWriter) (rs : list OwnedRecord) : Prop :=
  clean (written w) rs ∧ ∃ rf rb, clean (bw_file w) rf ∧ rs = rf ++ rb.

Lemma sink_holds_write w rs new bs :
  sink_holds w rs → clean (written w ++ bs) (rs ++ new) → sink_holds (bufwriter_write_all bs w) (rs ++ new).
Proof.
  intros [Hw (rf & rb & Hf & ->)] Hn.
  assert (written (bufwriter_write_all bs w) = written w ++ bs) as Ew by by apply write_all_appends.
  split; [by rewrite Ew|].
  destruct (bufwriter_file_cases bs w) as [->|[->| ->]].
  - exists rf, (rb ++ new). by rewrite app_assoc.
  - by exists (rf ++ rb), new.
  - exists ((rf ++ rb) ++ new), []. by rewrite app_nil_r.
Qed.

Lemma emitted_sink_holds wc lim sink0 sink r0 blocks :
  compatible wc ReaderConfig_default lim → emitted wc sink0 blocks sink → sink_holds sink0 r0 →
  Forall (λ rs, len (encode_payload rs) ≤ lim) blocks →
  sink_holds sink (r0 ++ concat blocks).
Proof.
  intros Hco He H0. induction He as [|blocks rs c sink mid sink' He IH Hc Hu H32 Hn Hrec Hw Hp]; intros Hl.
  { by rewrite app_nil_r. }
  apply Forall_app in Hl as [Hl Hl1]. apply Forall_inv in Hl1. specialize (IH Hl).
  rewrite concat_app, app_assoc. simpl. rewrite app_nil_r.
  injection Hw as <-.
  assert (sink_holds (bufwriter_write_all (block_frame wc rs c) sink) ((r0 ++ concat blocks) ++ rs)) as Hm.
  { apply sink_holds_write; [done|]. eapply clean_frame; try done. apply IH. }
  destruct Hp as [[_ ->]|Hp]; [done|]. injection Hp as <-.
  rewrite <- (app_nil_r (_ ++ rs)). apply sink_holds_write; [done|]. rewrite app_nil_r.
  assert (∃ n, padding (block_alignment wc) (len (block_frame wc rs c)) = replicate n 0) as [n ->].
  { unfold padding. destruct (0 <? _); [destruct (0 <? _)|]; [by eexists|by exists 0%nat..]. }
  apply clean_zeros, Hm.
Qed.
End Clean.
