(* ===== verification/FileSpoolInv.v ===== *)
(** * The file spool as a log

    The refinement of [FileSpool] to an abstract log: the records of the closed
    segments, then those the active writer has been given, on disk or not yet.
    Appending extends the log, flushing makes all of it visible, rotation moves
    nothing, retention drops whole oldest segments and consumption removes only
    consumed records. *)

From stdpp Require Import sorting.
From S2P Require Import Prelude Format Text Writer Reader Scan Container RecordLoop Protocol Source FileSpool Segments.

Definition from_wire (r : WireRecord) : OwnedRecord :=
  mkRecord (wire_type r) (wire_seq r) (wire_ts r) (wire_payload r).

Lemma to_from_wire r : to_wire (from_wire r) = r.
Proof. by destruct r. Qed.

(** The files that are no segments (the consumed state, the stream id) and the
    names of the spool are the same. *)
Definition same_aux (s s' : FileSpool) : Prop :=
  base_stem s' = base_stem s ∧ state_path s' = state_path s ∧ fs_codec s' = fs_codec s ∧
  ∀ p, parse_segment_id p (base_stem s) = None → others s' !! p = others s !! p.

#[export] Instance same_aux_preorder : PreOrder same_aux.
Proof.
  split; [by intros s|]. intros a b c (E1 & E2 & E5 & H1) (E3 & E4 & E6 & H2). rewrite E1 in *.
  split_and!; [congruence..|]. intros p Hp. by rewrite H2, H1.
Qed.

Section Inv.
Context {EX : Externals} {EL : ExternalLaws} (lim : Z).

(** A closed segment with its records. *)
Definition closed_ok (d : files) (c : SegmentInfo * list OwnedRecord) : Prop :=
  ∃ content, d !! seg_path c.1 = Some content ∧ holds content c.2.

Definition active_segment (s : FileSpool) : SegmentInfo :=
  mkSegment (active_segment_id s) (active_segment_path s).

(** [closed] are the closed segments; the active file held [r0] when it was
    opened, since then [blocks] were emitted and [pending] is buffered. *)
Record spool_inv (s : FileSpool) (closed : list (SegmentInfo * list OwnedRecord))
    (r0 : list OwnedRecord) (blocks : list (list OwnedRecord)) (pending : list OwnedRecord) : Prop := {
  si_segments : segments_of (disk s) (base_stem s) (closed.*1 ++ [active_segment s]);
  si_closed : Forall (closed_ok (others s)) closed;
  si_active : others s !! active_segment_path s = None;
  si_ids : Forall (λ seg, 0 ≤ seg_id seg) (closed.*1 ++ [active_segment s]);
  si_compatible : compatible (writer_config s) ReaderConfig_default lim;
  si_writer : ∃ sink0, writer_inv (writer_config s) sink0 blocks pending (active_writer s) ∧
                sink_holds sink0 r0;
  si_fits : Forall (fits_reader lim) (concat blocks ++ pending);
  si_state : parse_segment_id (state_path s) (base_stem s) = None;
}.

(** The log of a spool. *)
Definition log_of (closed : list (SegmentInfo * list OwnedRecord)) (r0 : list OwnedRecord)
    (blocks : list (list OwnedRecord)) (pending : list OwnedRecord) : list OwnedRecord :=
  concat closed.*2 ++ r0 ++ concat blocks ++ pending.

(** The active file holds a prefix of the active records. *)
Lemma active_sink_holds s closed r0 blocks pending :
  spool_inv s closed r0 blocks pending → sink_holds (inner (active_writer s)) (r0 ++ concat blocks).
Proof.
  intros [_ _ _ _ Hco (sink0 & [Hc _ _] & Hs0) Hf _].
  eapply emitted_sink_holds; [done|apply Hc|done|].
  apply Forall_app in Hf as [Hf _]. apply Forall_concat in Hf.
  rewrite list.Forall_forall. intros rs Hrs.
  pose proof (inv_blocks _ _ _ _ _ Hc) as Hb. rewrite list.Forall_forall in Hb, Hf.
  destruct (Hb rs Hrs) as [H1 H2]. eapply block_fits_reader; try done. by apply Hf.
Qed.

Lemma read_active s closed r0 blocks pending :
  spool_inv s closed r0 blocks pending →
  disk s !! active_segment_path s = Some (bw_file (inner (active_writer s))).
Proof. intros _. unfold disk. by rewrite lookup_insert_eq. Qed.

Lemma state_not_active s closed r0 blocks pending :
  spool_inv s closed r0 blocks pending → state_path s ≠ active_segment_path s.
Proof.
  intros Hinv E. pose proof (si_state _ _ _ _ _ Hinv) as Hst. rewrite E in Hst.
  destruct (proj1 (proj2 (si_segments _ _ _ _ _ Hinv) (active_segment s))) as [_ Hp];
    [apply elem_of_app; right; by left|]. simpl in Hp. congruence.
Qed.

Lemma state_disk s closed r0 blocks pending :
  spool_inv s closed r0 blocks pending → disk s !! state_path s = others s !! state_path s.
Proof.
  intros Hinv. unfold disk. rewrite lookup_insert_ne; [done|]. symmetry. by eapply state_not_active.
Qed.

(** ** Steps that only touch the writer *)

(** The directory names do not change when only the active content does. *)
Lemma segments_of_writer s w segs :
  segments_of (disk s) (base_stem s) segs →
  segments_of (disk (set_writer w s)) (base_stem (set_writer w s)) segs.
Proof.
  intros Hs. unfold disk in *. simpl.
  apply (segments_of_insert_same _ _ _ (active_segment_path s) (bw_file (inner w))) in Hs;
    [|rewrite lookup_insert_eq; eauto].
  by rewrite insert_insert_eq in Hs.
Qed.

Lemma spool_inv_writer s closed r0 blocks pending blocks' pending' w sink0 :
  spool_inv s closed r0 blocks pending →
  writer_inv (writer_config s) sink0 blocks' pending' w → sink_holds sink0 r0 →
  Forall (fits_reader lim) (concat blocks' ++ pending') →
  spool_inv (set_writer w s) closed r0 blocks' pending'.
Proof.
  intros [H1 H2 H3 H4 H5 _ _ H8] Hw Hs Hf. split; try done.
  - by apply segments_of_writer.
  - by exists sink0.
Qed.

Lemma spool_inv_size s closed r0 blocks pending n :
  spool_inv s closed r0 blocks pending → spool_inv (set_size n s) closed r0 blocks pending.
Proof. intros []. by split. Qed.

Lemma refresh_active_size_eq s :
  refresh_active_size s = (Ok tt, set_size (len (bw_file (inner (active_writer s)))) s).
Proof.
  unfold refresh_active_size, bind, gets, lift, modify, read_file, disk. by rewrite lookup_insert_eq.
Qed.

(** [flush_block] through the spool. *)
Lemma with_writer_flush_Ok s closed r0 blocks pending s' :
  spool_inv s closed r0 blocks pending → with_writer flush_block s = (Ok tt, s') →
  ∃ blocks', spool_inv s' closed r0 blocks' [] ∧ concat blocks' = concat blocks ++ pending ∧
    s' = set_writer (active_writer s') s.
Proof.
  intros Hinv Hf. pose proof Hinv as [_ _ _ _ _ (sink0 & Hw & Hs0) Hfit _].
  unfold with_writer in Hf. destruct (flush_block (active_writer s)) as [[[]|e] w] eqn:Hfb; [|done].
  injection Hf as <-. destruct Hw as [Hc Hb Hp]. destruct Hp as [->|[Hrec Hlt]].
  - unfold flush_block in Hfb. mon_inv. rewrite (inv_payload _ _ _ _ _ Hc) in Hfb.
    simpl in Hfb. mon_inv. exists blocks. split_and!; [|by rewrite app_nil_r|done].
    apply (spool_inv_writer s closed r0 blocks [] blocks [] _ sink0); try done. by split; [..|left].
  - eapply flush_block_Ok in Hfb as Hw'; [|done..|right; lia].
    exists (blocks ++ [pending]). split_and!; [|rewrite concat_app; simpl; by rewrite app_nil_r|done].
    apply (spool_inv_writer s closed r0 blocks pending _ _ _ sink0); try done.
    rewrite concat_app. simpl. by rewrite app_nil_r, !app_nil_r.
Qed.

(** Flushing the [BufWriter] puts everything that was emitted into the file. *)
Lemma flush_inner_inv s closed r0 blocks pending s' :
  spool_inv s closed r0 blocks pending → flush_inner s = (Ok tt, s') →
  spool_inv s' closed (r0 ++ concat blocks) [] pending ∧
  bw_buf (inner (active_writer s')) = [] ∧ s' = set_writer (active_writer s') s.
Proof.
  intros Hinv Hf. pose proof (active_sink_holds _ _ _ _ _ Hinv) as [Hw _].
  pose proof Hinv as [_ _ _ _ _ (sink0 & [Hc Hb Hp] & Hs0) Hfit _].
  injection Hf as <-. split_and!; [|done|done].
  apply (spool_inv_writer s closed (r0 ++ concat blocks) [] pending _ _ _
    (bufwriter_flush (inner (active_writer s)))).
  - destruct Hinv. split; try done.
    + exists (inner (active_writer s)). split; [|by apply (active_sink_holds s closed r0 blocks pending); split].
      split; [|done|done]. destruct Hc. split; try done. constructor.
    + apply Forall_app in Hfit as [_ Hfit]. done.
  - split; [|done|done]. destruct Hc. split; try done. constructor.
  - unfold sink_holds. simpl in *. rewrite app_nil_r. split; [done|].
    exists (r0 ++ concat blocks), []. by rewrite app_nil_r.
  - apply Forall_app in Hfit as [_ Hfit]. done.
Qed.

(** Flushing makes the whole log visible in the active file. *)
Lemma flush_pending_inv s closed r0 blocks pending s' :
  spool_inv s closed r0 blocks pending → FileSpool_flush_pending s = (Ok tt, s') →
  spool_inv s' closed (r0 ++ concat blocks ++ pending) [] [] ∧
  holds (bw_file (inner (active_writer s'))) (r0 ++ concat blocks ++ pending) ∧
  bw_buf (inner (active_writer s')) = [] ∧ others s' = others s ∧
  consumed_through_seq s' = consumed_through_seq s.
Proof.
  intros Hinv Hf. unfold FileSpool_flush_pending in Hf.
  apply bind_Ok in Hf as ([] & s1 & H1 & Hf). apply bind_Ok in Hf as ([] & s2 & H2 & Hf).
  rewrite refresh_active_size_eq in Hf. injection Hf as <-.
  destruct (with_writer_flush_Ok _ _ _ _ _ _ Hinv H1) as (bl & Hinv1 & E & E1).
  destruct (flush_inner_inv _ _ _ _ _ _ Hinv1 H2) as (Hinv2 & Hbuf & E2). rewrite E in *.
  pose proof (active_sink_holds _ _ _ _ _ Hinv2) as [Hw _]. rewrite app_nil_r in Hw.
  split_and!; [by apply spool_inv_size| |done|by rewrite E2, E1|by rewrite E2, E1].
  simpl in *. rewrite Hbuf, app_nil_r in Hw. by apply clean_holds.
Qed.

(** ** Rotation *)

Lemma segments_below s closed r0 blocks pending seg :
  spool_inv s closed r0 blocks pending → seg ∈ closed.*1 ++ [active_segment s] →
  seg_id seg ≤ active_segment_id s.
Proof.
  intros [[Hs _] _ _ _ _ _ _ _] Hin. apply StronglySorted_app in Hs as (H12 & _ & _).
  apply elem_of_app in Hin as [Hin| ->%list_elem_of_singleton]; [|done].
  specialize (H12 seg (active_segment s) Hin ltac:(by left)). unfold id_lt in H12. simpl in H12. lia.
Qed.

Lemma closed_path_parses s closed r0 blocks pending c :
  spool_inv s closed r0 blocks pending → c ∈ closed →
  parse_segment_id (seg_path c.1) (base_stem s) = Some (seg_id c.1) ∧ seg_id c.1 < active_segment_id s.
Proof.
  intros [[Hs Hin] _ _ _ _ _ _ _] Hc.
  assert (c.1 ∈ closed.*1) as Hc1 by by apply list_elem_of_fmap_2.
  split; [apply Hin, elem_of_app; by left|].
  apply StronglySorted_app in Hs as (H12 & _ & _).
  apply (H12 c.1 (active_segment s) Hc1 ltac:(by left)).
Qed.

Lemma open_next_segment_inv s closed r0 blocks s' :
  spool_inv s closed r0 blocks [] → open_next_segment s = (Ok tt, s') →
  spool_inv s' (closed ++ [(active_segment s, r0 ++ concat blocks)]) [] [] [] ∧
  bw_buf (inner (active_writer s')) = [] ∧ consumed_through_seq s' = consumed_through_seq s ∧
  max_total_bytes s' = max_total_bytes s ∧
  others s' = <[active_segment_path s := written (inner (active_writer s))]> (others s) ∧
  state_path s' = state_path s ∧ base_stem s' = base_stem s ∧ fs_codec s' = fs_codec s.
Proof.
  intros Hinv Ho. pose proof (active_sink_holds _ _ _ _ _ Hinv) as [Hcl _].
  unfold open_next_segment in Ho. mon_inv.
  match goal with Hx : _ + 1 ≤ _ |- _ => rename Hx into Hid end.
  set (id := active_segment_id s + 1) in *. set (path := segment_path (base_stem s) id).
  set (closedmap := <[active_segment_path s := written (inner (active_writer s))]> (others s)).
  assert (0 ≤ active_segment_id s) as Hpos.
  { pose proof (si_ids _ _ _ _ _ Hinv) as Hids. apply Forall_app in Hids as [_ Hids]. by apply Forall_inv in Hids. }
  assert (parse_segment_id path (base_stem s) = Some id) as Hpath by (apply parse_segment_path; unfold id in *; int_solve).
  assert (segments_of closedmap (base_stem s) (closed.*1 ++ [active_segment s])) as Hseg.
  { pose proof (si_segments _ _ _ _ _ Hinv) as Hs. unfold disk in Hs. unfold closedmap.
    apply (segments_of_insert_same _ _ _ (active_segment_path s) (written (inner (active_writer s)))) in Hs;
      [|rewrite lookup_insert_eq; eauto]. by rewrite insert_insert_eq in Hs. }
  assert (closedmap !! path = None) as Hnone.
  { destruct (closedmap !! path) eqn:E; [|done]. exfalso.
    assert (mkSegment id path ∈ closed.*1 ++ [active_segment s]) as Hin.
    { apply Hseg. split; [by eexists|done]. }
    apply (segments_below _ _ _ _ _ _ Hinv) in Hin. simpl in Hin. unfold id in Hin. lia. }
  assert (delete path closedmap = closedmap) as Hdel by by apply delete_id.
  simpl. fold closedmap path. rewrite Hnone, Hdel. split; [|done].
  split; simpl; try done.
  - rewrite fmap_app. unfold disk. simpl. apply segments_of_insert_new; [done|done|].
    intros seg Hin%(segments_below _ _ _ _ _ _ Hinv). simpl. unfold id. lia.
  - apply Forall_app. split.
    + eapply Forall_impl; [|apply (si_closed _ _ _ _ _ Hinv)].
      intros c (content & Hl & Hd). exists content. split; [|done]. unfold closedmap.
      rewrite lookup_insert_ne; [done|]. intros E. rewrite <- E in Hl.
      by rewrite (si_active _ _ _ _ _ Hinv) in Hl.
    + constructor; [|constructor]. exists (written (inner (active_writer s))).
      split; [unfold closedmap; by rewrite lookup_insert_eq|by apply clean_holds].
  - rewrite fmap_app. apply Forall_app. split; [apply (si_ids _ _ _ _ _ Hinv)|].
    constructor; [simpl; unfold id; lia|constructor].
  - apply Hinv.
  - exists (mkBufWriter [] []). split; [apply writer_inv_new|]. split; [apply clean_nil|].
    exists [], []. split; [apply clean_nil|done].
  - apply Hinv.
Qed.

(** The next segment starts empty: no file has a higher id than the active one. *)
Lemma open_next_segment_fresh s closed r0 blocks pending s' :
  spool_inv s closed r0 blocks pending → open_next_segment s = (Ok tt, s') →
  bw_file (inner (active_writer s')) = [].
Proof.
  intros Hinv Ho. unfold open_next_segment in Ho. mon_inv. simpl.
  set (id := active_segment_id s + 1) in *.
  destruct (<[active_segment_path s:=bw_file (inner (active_writer s)) ++ bw_buf (inner (active_writer s))]>
    (others s) !! segment_path (base_stem s) id) as [c|] eqn:E; [|done]. exfalso.
  assert (0 ≤ active_segment_id s) as Hpos.
  { pose proof (si_ids _ _ _ _ _ Hinv) as Hids. apply Forall_app in Hids as [_ Hids]. by apply Forall_inv in Hids. }
  assert (mkSegment id (segment_path (base_stem s) id) ∈ closed.*1 ++ [active_segment s]) as Hin.
  { apply (si_segments _ _ _ _ _ Hinv). split; [|simpl; apply parse_segment_path; unfold id in *; int_solve].
    simpl. unfold disk. destruct (decide (segment_path (base_stem s) id = active_segment_path s)) as [->|Hne].
    - rewrite lookup_insert_eq. eauto.
    - rewrite lookup_insert_ne in E |- * by done. eauto. }
  apply (segments_below _ _ _ _ _ _ Hinv) in Hin. simpl in Hin. unfold id in Hin. lia.
Qed.

(** ** Removing closed segments *)

Lemma closed_path_not_active s closed r0 blocks pending c :
  spool_inv s closed r0 blocks pending → c ∈ closed → seg_path c.1 ≠ active_segment_path s.
Proof.
  intros Hinv Hc E. pose proof (si_closed _ _ _ _ _ Hinv) as Hcl. rewrite list.Forall_forall in Hcl.
  destruct (Hcl c Hc) as (content & Hl & _). rewrite E, (si_active _ _ _ _ _ Hinv) in Hl. done.
Qed.

Lemma remove_file_inv s c1 c c2 r0 blocks pending :
  spool_inv s (c1 ++ c :: c2) r0 blocks pending →
  remove_file (seg_path c.1) s = (Ok tt, set_others (delete (seg_path c.1) (others s)) s) ∧
  spool_inv (set_others (delete (seg_path c.1) (others s)) s) (c1 ++ c2) r0 blocks pending.
Proof.
  intros Hinv. assert (c ∈ c1 ++ c :: c2) as Hc by (apply elem_of_app; right; by left).
  pose proof (closed_path_not_active _ _ _ _ _ _ Hinv Hc) as Hne.
  pose proof Hinv as [Hseg Hcl Hact Hids Hco Hw Hf Hst].
  pose proof Hcl as Hcl'. rewrite list.Forall_forall in Hcl'.
  destruct (Hcl' c Hc) as (content & Hl & _). split.
  { unfold remove_file, bind, gets. by rewrite Hl. }
  rewrite fmap_app, fmap_cons, <- app_assoc in Hseg, Hids. split; simpl; try done.
  - unfold disk in *. simpl. rewrite <- delete_insert_ne by done. rewrite fmap_app, <- app_assoc.
    by apply segments_of_delete.
  - rewrite list.Forall_forall. intros x Hx.
    assert (x ∈ c1 ++ c :: c2) as Hx'.
    { apply elem_of_app in Hx as [?|?]; apply elem_of_app; [by left|right; by right]. }
    destruct (Hcl' x Hx') as (cx & Hlx & Hdx). exists cx. split; [|done].
    rewrite lookup_delete_ne; [done|]. intros E.
    assert (x.1 = c.1) as E1.
    { destruct (closed_path_parses _ _ _ _ _ _ Hinv Hx') as [P1 _].
      destruct (closed_path_parses _ _ _ _ _ _ Hinv Hc) as [P2 _].
      rewrite <- E, P2 in P1. destruct x as [[]], c as [[]]; simpl in *. congruence. }
    destruct Hseg as [Hs _]. apply id_lt_NoDup in Hs.
    apply list.NoDup_app in Hs as (_ & Hd & Hs). apply list.NoDup_cons in Hs as [Hn _].
    apply elem_of_app in Hx as [Hx|Hx].
    + apply (Hd c.1); [rewrite <- E1; by apply list_elem_of_fmap_2|by left].
    + apply Hn. rewrite <- E1. apply elem_of_app. left. by apply list_elem_of_fmap_2.
  - by rewrite delete_notin_lookup || rewrite lookup_delete_ne by done.
  - rewrite fmap_app, <- app_assoc. rewrite Forall_app in *. destruct Hids as [? Hids].
    simpl in Hids. by apply Forall_cons_iff in Hids as [_ ?].
Qed.

Lemma total_size_cons d seg segs :
  total_size d (seg :: segs) = from_option len 0 (d !! seg_path seg) + total_size d segs.
Proof. unfold total_size. simpl. by destruct (d !! seg_path seg). Qed.

Lemma total_size_ext d d' segs :
  (∀ seg, seg ∈ segs → d !! seg_path seg = d' !! seg_path seg) → total_size d segs = total_size d' segs.
Proof.
  induction segs as [|seg segs IH]; intros He; [done|]. rewrite !total_size_cons, (He seg), IH; [done|..].
  - intros x Hx. apply He. by right.
  - by left.
Qed.

(** What [enforce_retention] removes: a number of oldest segments, until the
    excess is covered or only the active segment is left. *)
Lemma remove_oldest_inv s closed r0 blocks pending excess :
  spool_inv s closed r0 blocks pending → 0 ≤ excess →
  ∃ dropped kept s', closed = dropped ++ kept ∧
    remove_oldest excess (closed.*1 ++ [active_segment s]) s = (Ok tt, s') ∧
    spool_inv s' kept r0 blocks pending ∧
    s' = set_others (others s') s ∧ same_aux s s' ∧
    (kept = [] ∨ excess ≤ total_size (disk s) dropped.*1).
Proof.
  revert s excess. induction closed as [|c closed IH]; intros s excess Hinv He.
  { exists [], [], s. split_and!; try done; try (by destruct s); try (by left).
    cbn [fmap list_fmap app remove_oldest]. unfold bind at 1, gets. simpl.
    by rewrite Z.eqb_refl, orb_true_r. }
  cbn [fmap list_fmap app remove_oldest]. unfold bind at 1, gets at 1.
  assert (seg_id c.1 < active_segment_id s) as Hlt.
  { eapply closed_path_parses; [done|by left]. }
  destruct (Z.eqb_spec (seg_id c.1) (active_segment_id s)) as [|_]; [lia|]. rewrite orb_false_r.
  destruct (Z.eqb_spec excess 0) as [->|Hne].
  { exists [], (c :: closed), s. split_and!; try done; try (by destruct s); by right. }
  unfold bind at 1, gets at 1. destruct (remove_file_inv s [] c closed _ _ _ Hinv) as [Hrm Hinv'].
  unfold bind at 1. rewrite Hrm.
  set (s1 := set_others (delete (seg_path c.1) (others s)) s) in *.
  assert (disk s !! seg_path c.1 = others s !! seg_path c.1) as Elk.
  { unfold disk. rewrite lookup_insert_ne; [done|]. intros E. symmetry in E. revert E.
    eapply closed_path_not_active; [done|by left]. }
  pose proof (Forall_inv (si_closed _ _ _ _ _ Hinv)) as (content & Hl & _). rewrite Elk, Hl.
  destruct (IH s1 (saturating_sub excess (len content)) Hinv') as (d & k & s' & -> & Hr & Hi & Es & Haux & Hex).
  { unfold saturating_sub. lia. }
  change (active_segment s1) with (active_segment s) in Hr. rewrite Hr.
  exists (c :: d), k, s'. split_and!; try done.
  { etransitivity; [|exact Haux]. split_and!; try done. intros p Hp. simpl. apply lookup_delete_ne.
    intros E. destruct (closed_path_parses _ _ _ _ _ c Hinv ltac:(by left)) as [P _]. congruence. }
  destruct Hex as [->|Hex]; [by left|right]. rewrite fmap_cons, total_size_cons, Elk, Hl.
  rewrite (total_size_ext (disk s1) (disk s)) in Hex.
  - simpl. unfold saturating_sub in Hex. lia.
  - intros seg Hseg. unfold disk, s1. simpl.
    apply list_elem_of_fmap in Hseg as (x & -> & Hx).
    destruct (decide (seg_path x.1 = active_segment_path s)) as [E|Hn]; [by rewrite E, !lookup_insert_eq|].
    rewrite !lookup_insert_ne by done. apply lookup_delete_ne. intros E.
    assert (x ∈ c :: d ++ k) as Hx' by (right; apply elem_of_app; by left).
    destruct (closed_path_parses _ _ _ _ _ _ Hinv Hx') as [P1 _].
    destruct (closed_path_parses _ _ _ _ _ c Hinv ltac:(by left)) as [P2 _].
    pose proof (si_segments _ _ _ _ _ Hinv) as [Hs _]. simpl in Hs.
    apply StronglySorted_inv in Hs as [_ Hs]. rewrite list.Forall_forall in Hs.
    specialize (Hs x.1). rewrite fmap_app in Hs. unfold id_lt in Hs.
    rewrite <- E, P2 in P1. injection P1 as P1. rewrite P1 in Hs.
    assert (seg_id x.1 < seg_id x.1); [|lia]. apply Hs. rewrite !elem_of_app. left. left.
    by apply list_elem_of_fmap_2.
Qed.

Lemma total_size_app d a b : total_size d (a ++ b) = total_size d a + total_size d b.
Proof. induction a as [|seg a IH]; [done|]. rewrite <- app_comm_cons, !total_size_cons, IH. lia. Qed.

Lemma disk_kept s s' closed r0 blocks pending seg :
  spool_inv s' closed r0 blocks pending → s' = set_others (others s') s →
  (∀ p c, others s' !! p = Some c → others s !! p = Some c) →
  seg ∈ closed.*1 ++ [active_segment s] → disk s !! seg_path seg = disk s' !! seg_path seg.
Proof.
  intros Hinv Es Hsub Hin. unfold disk.
  assert (active_segment_path s' = active_segment_path s ∧ active_writer s' = active_writer s) as [-> ->]
    by by rewrite Es.
  destruct (decide (seg_path seg = active_segment_path s)) as [E|Hne]; [by rewrite E, !lookup_insert_eq|].
  rewrite !lookup_insert_ne by done.
  apply elem_of_app in Hin as [(c & -> & Hc)%list_elem_of_fmap| ->%list_elem_of_singleton]; [|done].
  pose proof (si_closed _ _ _ _ _ Hinv) as Hcl. rewrite list.Forall_forall in Hcl.
  destruct (Hcl c Hc) as (content & Hl & _). rewrite Hl. by apply Hsub.
Qed.

Lemma remove_oldest_others excess segs s r s' :
  remove_oldest excess segs s = (r, s') → ∀ p c, others s' !! p = Some c → others s !! p = Some c.
Proof.
  revert excess s. induction segs as [|seg segs IH]; intros excess s Hr p c Hp; simpl in Hr.
  { by injection Hr as _ <-. }
  unfold bind at 1, gets at 1 in Hr. destruct (_ || _); [by injection Hr as _ <-|].
  unfold bind at 1, gets at 1 in Hr. unfold bind at 1, remove_file, bind at 1, gets at 1 in Hr.
  destruct (others s !! seg_path seg) eqn:E; [|by injection Hr as _ <-]. unfold modify in Hr.
  apply (IH _ _ Hr) in Hp. simpl in Hp. by apply lookup_delete_Some in Hp as [_ ?].
Qed.

Lemma enforce_retention_inv s closed r0 blocks pending :
  spool_inv s closed r0 blocks pending → 0 ≤ max_total_bytes s →
  ∃ dropped kept s', closed = dropped ++ kept ∧ enforce_retention s = (Ok tt, s') ∧
    spool_inv s' kept r0 blocks pending ∧ s' = set_others (others s') s ∧ same_aux s s' ∧
    (max_total_bytes s = 0 → dropped = []) ∧
    (max_total_bytes s ≠ 0 → kept = [] ∨
      total_size (disk s') (list_segments (disk s') (base_stem s')) ≤ max_total_bytes s).
Proof.
  intros Hinv Hmax. unfold enforce_retention, bind at 1, gets at 1.
  rewrite (list_segments_eq _ _ _ (si_segments _ _ _ _ _ Hinv)).
  destruct (Z.eqb_spec (max_total_bytes s) 0) as [E0|E0].
  { exists [], closed, s. split_and!; try done; by destruct s. }
  destruct (Z.leb_spec (total_size (disk s) (closed.*1 ++ [active_segment s])) (max_total_bytes s)) as [Hle|Hgt].
  { exists [], closed, s. split_and!; try done; [by destruct s|]. intros _. right.
    by rewrite (list_segments_eq _ _ _ (si_segments _ _ _ _ _ Hinv)). }
  assert (0 ≤ total_size (disk s) (closed.*1 ++ [active_segment s]) - max_total_bytes s) as Hpos by lia.
  destruct (remove_oldest_inv s closed r0 blocks pending _ Hinv Hpos) as (d & k & s' & -> & Hr & Hinv' & Es & Haux & Hex).
  exists d, k, s'. split_and!; try done. intros _. destruct Hex as [->|Hex]; [by left|right].
  rewrite (list_segments_eq _ _ _ (si_segments _ _ _ _ _ Hinv')).
  assert (active_segment s' = active_segment s) as -> by by rewrite Es.
  rewrite <- (total_size_ext (disk s) (disk s')).
  - rewrite fmap_app, <- app_assoc, !total_size_app in *. lia.
  - intros seg Hseg. eapply disk_kept; try done. by eapply remove_oldest_others.
Qed.

Lemma set_len_same content : set_len (len content) content = content.
Proof.
  unfold set_len, len. rewrite Nat2Z.id, take_ge, Nat.sub_diag by done. by rewrite app_nil_r.
Qed.

Lemma rotate_inv s closed r0 blocks pending s' :
  spool_inv s closed r0 blocks pending → 0 ≤ max_total_bytes s → rotate s = (Ok tt, s') →
  ∃ dropped kept,
    closed ++ [(active_segment s, r0 ++ concat blocks ++ pending)] = dropped ++ kept ∧
    spool_inv s' kept [] [] [] ∧ (max_total_bytes s = 0 → dropped = []) ∧ same_aux s s' ∧
    bw_buf (inner (active_writer s')) = [] ∧
    consumed_through_seq s' = consumed_through_seq s ∧ max_total_bytes s' = max_total_bytes s.
Proof.
  intros Hinv Hmax Hr. unfold rotate in Hr.
  apply bind_Ok in Hr as ([] & s1 & H1 & Hr). apply bind_Ok in Hr as ([] & s2 & H2 & Hr).
  apply bind_Ok in Hr as ([] & s3 & H3 & Hr). apply bind_Ok in Hr as ([] & s4 & H4 & Hr).
  apply bind_Ok in Hr as ([] & s5 & H5 & Hr).
  destruct (with_writer_flush_Ok _ _ _ _ _ _ Hinv H1) as (bl & Hinv1 & E & E1).
  destruct (flush_inner_inv _ _ _ _ _ _ Hinv1 H2) as (Hinv2 & Hbuf & E2). rewrite E in *.
  rewrite refresh_active_size_eq in H3. injection H3 as <-.
  apply spool_inv_size with (n := len (bw_file (inner (active_writer s2)))) in Hinv2.
  set (s3 := set_size _ s2) in *.
  assert (s4 = s3) as ->.
  { injection H4 as <-. unfold s3. simpl. rewrite set_len_same.
    unfold set_writer, set_size, set_active; simpl. f_equal.
    destruct (active_writer s2) as [i]; simpl. by destruct i. }
  assert (max_total_bytes s3 = max_total_bytes s ∧ consumed_through_seq s3 = consumed_through_seq s ∧
    active_segment s3 = active_segment s) as (Em & Ec & Eseg) by (unfold s3; by rewrite E2, E1).
  destruct (open_next_segment_inv _ _ _ _ _ Hinv2 H5) as (Hinv5 & Hb5 & Hc5 & Hm5 & Ho5 & Est5 & Ebs5 & Eco5).
  destruct (enforce_retention_inv _ _ _ _ _ Hinv5 ltac:(by rewrite Hm5, Em))
    as (d & k & s6 & Ed & Her & Hinv6 & Es6 & Haux6 & Hd0 & _).
  rewrite Hr in Her. injection Her as <-.
  exists d, k. rewrite app_nil_r, Eseg in Ed. split_and!; try done.
  - intros Hz. apply Hd0. by rewrite Hm5, Em.
  - etransitivity; [|exact Haux6].
    assert (base_stem s3 = base_stem s ∧ state_path s3 = state_path s ∧ others s3 = others s ∧
      fs_codec s3 = fs_codec s) as (E31 & E32 & E33 & E34)
      by (unfold s3; by rewrite E2, E1).
    split_and!; [congruence..|]. intros p Hp. rewrite Ho5, E33. apply lookup_insert_ne. intros E'.
    destruct (proj1 (proj2 (si_segments _ _ _ _ _ Hinv2) (active_segment s3))) as [_ P];
      [apply elem_of_app; right; by left|]. cbn [active_segment seg_path seg_id] in P. congruence.
  - by rewrite Es6.
  - rewrite Es6. simpl. by rewrite Hc5, Ec.
  - rewrite Es6. simpl. by rewrite Hm5, Em.
Qed.

(** ** Appending *)

Lemma with_writer_push_Ok s closed r0 blocks pending r s' :
  spool_inv s closed r0 blocks pending → valid_record r → fits_reader lim r →
  with_writer (push (record_type r) (seq r) (ts_unix_ns r) (payload r)) s = (Ok tt, s') →
  ∃ blocks' pending', spool_inv s' closed r0 blocks' pending' ∧
    concat blocks' ++ pending' = concat blocks ++ pending ++ [r] ∧
    s' = set_writer (active_writer s') s.
Proof.
  intros Hinv Hv Hfr Hp. pose proof Hinv as [_ _ _ _ _ (sink0 & Hw & Hs0) Hfit _].
  unfold with_writer in Hp.
  destruct (push _ _ _ _ (active_writer s)) as [[[]|e] w] eqn:Hpb; [|done]. injection Hp as <-.
  destruct (push_Ok _ _ _ _ _ _ _ Hw Hv Hpb) as (bl & pe & Hw' & E).
  exists bl, pe. split_and!; [|done|done].
  apply (spool_inv_writer s closed r0 blocks pending _ _ _ sink0); try done.
  rewrite E. rewrite app_assoc. apply Forall_app. split; [done|by constructor].
Qed.

Lemma log_of_rotated closed r0 blocks pending seg dropped kept :
  closed ++ [(seg, r0 ++ concat blocks ++ pending)] = dropped ++ kept →
  log_of closed r0 blocks pending = concat dropped.*2 ++ log_of kept [] [] [].
Proof.
  intros E. apply (f_equal (λ l, concat l.*2)) in E. rewrite !fmap_app, !concat_app in E. simpl in E.
  unfold log_of. rewrite app_nil_r in E. rewrite E. simpl. by rewrite app_nil_r.
Qed.

Lemma maybe_rotate_inv (b : bool) s closed r0 blocks pending s' :
  spool_inv s closed r0 blocks pending → 0 ≤ max_total_bytes s →
  (if b then rotate else ret tt) s = (Ok tt, s') →
  ∃ dropped closed' r0' blocks' pending', spool_inv s' closed' r0' blocks' pending' ∧
    log_of closed r0 blocks pending = dropped ++ log_of closed' r0' blocks' pending' ∧
    (max_total_bytes s = 0 → dropped = []) ∧ same_aux s s' ∧
    consumed_through_seq s' = consumed_through_seq s ∧ max_total_bytes s' = max_total_bytes s.
Proof.
  intros Hinv Hmax Hr. destruct b.
  - destruct (rotate_inv _ _ _ _ _ _ Hinv Hmax Hr) as (d & k & E & Hinv' & Hd & Haux & _ & Hc & Hm).
    exists (concat d.*2), k, [], [], []. split_and!; try done; [by eapply log_of_rotated|].
    intros Hz. by rewrite (Hd Hz).
  - mon_inv. by exists [], closed, r0, blocks, pending.
Qed.

(** Appending extends the log; only retention, when it is configured, drops
    records, and then the oldest ones. *)
Lemma append_inv s closed r0 blocks pending r s' :
  spool_inv s closed r0 blocks pending → 0 ≤ max_total_bytes s →
  valid_record (from_wire r) → fits_reader lim (from_wire r) →
  FileSpool_append r s = (Ok tt, s') →
  ∃ dropped closed' r0' blocks' pending', spool_inv s' closed' r0' blocks' pending' ∧
    log_of closed r0 blocks pending ++ [from_wire r] = dropped ++ log_of closed' r0' blocks' pending' ∧
    (max_total_bytes s = 0 → dropped = []) ∧ same_aux s s' ∧
    consumed_through_seq s' = consumed_through_seq s ∧ max_total_bytes s' = max_total_bytes s.
Proof.
  intros Hinv Hmax Hv Hfr Ha. unfold FileSpool_append in Ha.
  apply bind_Ok in Ha as (s0 & ? & Hg & Ha). apply gets_Ok in Hg as [-> ->].
  apply bind_Ok in Ha as ([] & s1 & H1 & Ha). apply bind_Ok in Ha as ([] & s2 & H2 & Ha).
  apply bind_Ok in Ha as ([] & s3 & H3 & Ha). rewrite refresh_active_size_eq in H3. injection H3 as <-.
  mon_inv.
  destruct (maybe_rotate_inv _ _ _ _ _ _ _ Hinv Hmax H1)
    as (d1 & cl1 & r1 & bl1 & pe1 & Hinv1 & E1 & Hd1 & Hx1 & Hc1 & Hm1).
  destruct (with_writer_push_Ok _ _ _ _ _ (from_wire r) _ Hinv1 Hv Hfr H2)
    as (bl2 & pe2 & Hinv2 & E2 & Es2).
  apply spool_inv_size with (n := len (bw_file (inner (active_writer s2)))) in Hinv2.
  assert (max_total_bytes (set_size (len (bw_file (inner (active_writer s2)))) s2) = max_total_bytes s) as Hm2
    by (simpl; by rewrite Es2, <- Hm1).
  destruct (maybe_rotate_inv _ _ _ _ _ _ _ Hinv2 ltac:(by rewrite Hm2) Ha)
    as (d3 & cl3 & r3 & bl3 & pe3 & Hinv3 & E3 & Hd3 & Hx3 & Hc3 & Hm3).
  exists (d1 ++ d3), cl3, r3, bl3, pe3. split_and!; [done| | | | |by rewrite Hm3].
  - rewrite E1, <- !app_assoc, <- E3. unfold log_of. rewrite E2. by rewrite <- !app_assoc.
  - intros Hz. by rewrite (Hd1 Hz), Hd3 by by rewrite Hm2.
  - etransitivity; [exact Hx1|]. etransitivity; [|exact Hx3].
    assert (same_aux s1 s2) as Hx2 by by rewrite Es2. exact Hx2.
  - rewrite Hc3. simpl. by rewrite Es2, <- Hc1.
Qed.
End Inv.
