(* ===== verification/FileAppend.v ===== *)
(** * Appending to a file spool succeeds

    The totality of the operations that append: a spool whose codec accepts its
    blocks takes every storable record that does not precede the ones before it,
    rotating as often as it has to. *)

From stdpp Require Import sorting.
From S2P Require Import Prelude Format Text Writer Reader Scan Container RecordLoop Protocol Source FileSpool Segments FileSpoolInv.

Section Append.
Context {EX : Externals} {EL : ExternalLaws} (lim : Z).

Fixpoint append_all (rs : list WireRecord) : M FileSpool IoError unit :=
  match rs with
  | [] => ret tt
  | r :: rs => FileSpool_append r ;;! append_all rs
  end.

(** A record the spool can hold. *)
Definition storable (r : WireRecord) : Prop :=
  valid_record (from_wire r) ∧ fits_reader lim (from_wire r).

Lemma append_all_inv rs s closed r0 blocks pending s' :
  spool_inv lim s closed r0 blocks pending → 0 ≤ max_total_bytes s → Forall storable rs →
  append_all rs s = (Ok tt, s') →
  ∃ dropped closed' r0' blocks' pending', spool_inv lim s' closed' r0' blocks' pending' ∧
    log_of closed r0 blocks pending ++ (from_wire <$> rs) = dropped ++ log_of closed' r0' blocks' pending' ∧
    (max_total_bytes s = 0 → dropped = []) ∧ same_aux s s' ∧
    consumed_through_seq s' = consumed_through_seq s ∧ max_total_bytes s' = max_total_bytes s.
Proof.
  intros Hinv Hmax Hrs. revert s closed r0 blocks pending Hinv Hmax.
  induction Hrs as [|r rs [Hv Hf] Hrs IH]; intros s closed r0 blocks pending Hinv Hmax Ha.
  - simpl in Ha. mon_inv. exists [], closed, r0, blocks, pending. by rewrite app_nil_r.
  - simpl in Ha. apply bind_Ok in Ha as ([] & s1 & H1 & Ha).
    destruct (append_inv _ _ _ _ _ _ _ _ Hinv Hmax Hv Hf H1)
      as (d1 & cl1 & r1 & bl1 & pe1 & Hinv1 & E1 & Hd1 & Hx1 & Hc1 & Hm1).
    destruct (IH s1 _ _ _ _ Hinv1 ltac:(by rewrite Hm1) Ha)
      as (d2 & cl2 & r2 & bl2 & pe2 & Hinv2 & E2 & Hd2 & Hx2 & Hc2 & Hm2).
    exists (d1 ++ d2), cl2, r2, bl2, pe2. split_and!; [done| | |by etransitivity|congruence|congruence].
    + rewrite fmap_cons, cons_middle, app_assoc, E1, <- !app_assoc, <- E2. done.
    + intros Hz. by rewrite (Hd1 Hz), Hd2 by by rewrite Hm1.
Qed.

(** The block that is still open is accepted by a codec without failures. *)
Lemma drop_flush_total s closed r0 blocks pending :
  spool_inv lim s closed r0 blocks pending → codec_accepts (fs_codec s) MAX_U32 →
  ∃ w, flush_block (active_writer s) = (Ok tt, w).
Proof.
  intros [_ _ _ _ _ (sink0 & [Hc Hb Hp] & _) _ _] Hacc. destruct Hp as [->|[Hrec Hlt]].
  - unfold flush_block, bind, gets. rewrite (inv_payload _ _ _ _ _ Hc). by eexists.
  - apply (flush_block_total (writer_config s) sink0 blocks pending); try done; [by apply bytes_encode_payload|].
    unfold writer_config, block_target_size, DEFAULT_BLOCK_TARGET_SIZE in Hlt. int_solve.
Qed.

Lemma with_writer_total {A} (op : M (LogjetWriter BufWriter) Error A) (s : FileSpool) w a :
  op (active_writer s) = (Ok a, w) → with_writer op s = (Ok a, set_writer w s).
Proof. intros E. unfold with_writer. by rewrite E. Qed.

Lemma flush_pending_total s closed r0 blocks pending :
  spool_inv lim s closed r0 blocks pending → codec_accepts (fs_codec s) MAX_U32 →
  ∃ s', FileSpool_flush_pending s = (Ok tt, s').
Proof.
  intros Hinv Hacc. destruct (drop_flush_total _ _ _ _ _ Hinv Hacc) as [w Hw].
  unfold FileSpool_flush_pending, bind at 1. rewrite (with_writer_total _ _ _ _ Hw).
  unfold flush_inner, bind, modify. rewrite refresh_active_size_eq. by eexists.
Qed.

Lemma rotate_total s closed r0 blocks pending :
  spool_inv lim s closed r0 blocks pending → codec_accepts (fs_codec s) MAX_U32 →
  0 ≤ max_total_bytes s → active_segment_id s < MAX_U64 →
  ∃ s', rotate s = (Ok tt, s') ∧ active_segment_id s' = active_segment_id s + 1.
Proof.
  intros Hinv Hacc Hmax Hid. destruct (drop_flush_total _ _ _ _ _ Hinv Hacc) as [w Hw].
  pose proof (with_writer_total _ _ _ _ Hw) as H1.
  destruct (with_writer_flush_Ok _ _ _ _ _ _ _ Hinv H1) as (bl & Hinv1 & _ & _).
  set (s1 := set_writer w s) in *.
  destruct (flush_inner_inv lim s1 closed r0 bl [] _ Hinv1 eq_refl) as (Hinv2 & Hbuf & _).
  set (s2 := set_writer _ s1) in *.
  apply spool_inv_size with (n := len (bw_file (inner (active_writer s2)))) in Hinv2.
  unfold rotate, bind at 1. rewrite H1. fold s1. unfold bind at 1. unfold flush_inner, modify at 1. fold s2.
  unfold bind at 1. rewrite refresh_active_size_eq. unfold bind at 1, modify at 1.
  set (s3 := set_size _ s2) in *.
  match goal with |- context [bind open_next_segment _ ?x] => assert (x = s3) as -> end.
  { unfold s3. simpl. by rewrite set_len_same. }
  destruct (open_next_segment s3) as [[[]|e] s5] eqn:H5.
  - destruct (open_next_segment_inv _ _ _ _ _ _ Hinv2 H5) as (Hinv5 & _ & _ & Hm5 & _).
    destruct (enforce_retention_inv _ _ _ _ _ _ Hinv5) as (d & k & s6 & _ & Her & _ & Es6 & _).
    { rewrite Hm5. done. }
    exists s6. unfold bind. rewrite H5, Her. split; [done|]. rewrite Es6. simpl.
    unfold open_next_segment in H5. mon_inv. done.
  - exfalso. unfold open_next_segment, bind, gets, lift, modify, checked_add in H5.
    destruct (Z.leb_spec (active_segment_id s3 + 1) MAX_U64) as [_|Hb]; [done|].
    change (active_segment_id s3) with (active_segment_id s) in Hb. lia.
Qed.

Lemma storable_bound r s : compatible (writer_config s) ReaderConfig_default lim →
  fits_reader lim r → len (payload r) + 34 ≤ MAX_U32.
Proof.
  intros [_ _ _ _ _ Hl _ _] Hf. unfold fits_reader in Hf. unfold encode_record in Hf.
  rewrite !len_app in Hf. unfold max_uncompressed_len, ReaderConfig_default, DEFAULT_MAX_BLOCK_SIZE in Hl.
  repeat match type of Hf with context [len ?l + _] =>
    lazymatch goal with H : 0 ≤ len l |- _ => fail | _ => pose proof (len_nonneg l) end end.
  int_solve.
Qed.

Lemma maybe_rotate_total (b : bool) s closed r0 blocks pending :
  spool_inv lim s closed r0 blocks pending → codec_accepts (fs_codec s) MAX_U32 →
  0 ≤ max_total_bytes s → active_segment_id s < MAX_U64 →
  ∃ s', (if b then rotate else ret tt) s = (Ok tt, s') ∧
    active_segment_id s ≤ active_segment_id s' ≤ active_segment_id s + 1.
Proof.
  intros Hinv Hacc Hmax Hid. destruct b; [|exists s; split; [done|lia]].
  destruct (rotate_total _ _ _ _ _ Hinv Hacc Hmax Hid) as (s' & Hr & E). exists s'. split; [done|lia].
Qed.

(** The log is ordered as the writer wants it. *)
Definition in_order (rs : list OwnedRecord) : Prop := StronglySorted no_earlier rs.

Lemma in_order_suffix a b : in_order (a ++ b) → in_order b.
Proof. unfold in_order. rewrite StronglySorted_app. tauto. Qed.

Lemma pending_accepts s closed r0 blocks pending r :
  spool_inv lim s closed r0 blocks pending → storable r →
  in_order (log_of closed r0 blocks pending ++ [from_wire r]) → acceptable pending (from_wire r).
Proof.
  intros Hinv [Hv Hf] Ho. split_and!; [done|by eapply storable_bound; [apply Hinv|]|].
  unfold log_of in Ho. rewrite <- !app_assoc in Ho. do 3 apply in_order_suffix in Ho.
  destruct pending as [|p pending]; [done|].
  apply StronglySorted_inv in Ho as [_ Ho]. rewrite Forall_app in Ho. by apply proj2, Forall_inv in Ho.
Qed.

Lemma append_total s closed r0 blocks pending r :
  spool_inv lim s closed r0 blocks pending → codec_accepts (fs_codec s) MAX_U32 →
  0 ≤ max_total_bytes s → active_segment_id s + 2 ≤ MAX_U64 → storable r →
  in_order (log_of closed r0 blocks pending ++ [from_wire r]) →
  ∃ s', FileSpool_append r s = (Ok tt, s') ∧ active_segment_id s' ≤ active_segment_id s + 2.
Proof.
  intros Hinv Hacc Hmax Hid Hst Ho. unfold FileSpool_append, bind at 1, gets at 1.
  destruct (maybe_rotate_total ((segment_target_bytes s <=? active_size_bytes s) && (0 <? active_size_bytes s))
    _ _ _ _ _ Hinv Hacc Hmax ltac:(lia)) as (s1 & H1 & Hid1).
  destruct (maybe_rotate_inv _ _ _ _ _ _ _ _ Hinv Hmax H1)
    as (d1 & cl1 & r1 & bl1 & pe1 & Hinv1 & E1 & _ & (_ & _ & Hco1 & _) & _ & Hm1).
  rewrite E1, <- app_assoc in Ho. apply in_order_suffix in Ho.
  pose proof Hinv1 as [_ _ _ _ _ (sink0 & Hw & _) _ _].
  destruct (push_total _ _ _ _ (from_wire r) _ Hw) as [w Hp].
  { by eapply pending_accepts. }
  { unfold writer_config, block_target_size, DEFAULT_BLOCK_TARGET_SIZE. int_solve. }
  { simpl. by rewrite Hco1. }
  pose proof (with_writer_total _ _ _ _ Hp) as H2. destruct Hst as [Hv Hf].
  destruct (with_writer_push_Ok _ _ _ _ _ _ _ _ Hinv1 Hv Hf H2) as (bl2 & pe2 & Hinv2 & _ & _).
  set (s2 := set_writer w s1) in *.
  apply spool_inv_size with (n := len (bw_file (inner (active_writer s2)))) in Hinv2.
  unfold bind at 1. rewrite H1. unfold bind at 1. cbn [from_wire record_type seq ts_unix_ns payload] in H2.
  rewrite H2. fold s2. unfold bind at 1. rewrite refresh_active_size_eq. unfold bind at 1, gets at 1.
  set (s3 := set_size _ s2) in *.
  destruct (maybe_rotate_total (segment_target_bytes s3 <=? active_size_bytes s3 + pending_bytes (active_writer s3))
    _ _ _ _ _ Hinv2) as (s4 & H4 & Hid4); simpl in *; [by rewrite Hco1|by rewrite Hm1|lia|].
  exists s4. split; [exact H4|lia].
Qed.

Lemma append_all_total rs s closed r0 blocks pending :
  spool_inv lim s closed r0 blocks pending → codec_accepts (fs_codec s) MAX_U32 →
  0 ≤ max_total_bytes s → active_segment_id s + 2 * len rs ≤ MAX_U64 → Forall storable rs →
  in_order (log_of closed r0 blocks pending ++ (from_wire <$> rs)) →
  ∃ s', append_all rs s = (Ok tt, s') ∧ active_segment_id s' ≤ active_segment_id s + 2 * len rs.
Proof.
  intros Hinv Hacc Hmax Hid Hrs. revert s closed r0 blocks pending Hinv Hacc Hmax Hid.
  induction Hrs as [|r rs Hr Hrs IH]; intros s closed r0 blocks pending Hinv Hacc Hmax Hid Ho.
  { exists s. split; [done|]. change (len []) with 0. lia. }
  rewrite len_cons in Hid. pose proof (len_nonneg rs). rewrite fmap_cons, cons_middle, app_assoc in Ho.
  destruct (append_total _ _ _ _ _ r Hinv Hacc Hmax ltac:(lia) Hr) as (s1 & H1 & Hid1).
  { unfold in_order in *. apply StronglySorted_app in Ho as (_ & Ho & _). done. }
  destruct (append_inv _ _ _ _ _ _ _ _ Hinv Hmax (proj1 Hr) (proj2 Hr) H1)
    as (d1 & cl1 & r1 & bl1 & pe1 & Hinv1 & E1 & _ & (_ & _ & Hco1 & _) & _ & Hm1).
  rewrite E1, <- app_assoc in Ho. apply in_order_suffix in Ho.
  destruct (IH s1 _ _ _ _ Hinv1) as (s2 & H2 & Hid2); [by rewrite Hco1|by rewrite Hm1|lia|done|].
  exists s2. simpl. unfold bind. rewrite H1, H2, len_cons. split; [done|lia].
Qed.

(** Appending and flushing. *)
Lemma append_flush_total rs s closed r0 blocks pending :
  spool_inv lim s closed r0 blocks pending → codec_accepts (fs_codec s) MAX_U32 →
  0 ≤ max_total_bytes s → active_segment_id s + 2 * len rs ≤ MAX_U64 → Forall storable rs →
  in_order (log_of closed r0 blocks pending ++ (from_wire <$> rs)) →
  ∃ s', (append_all rs ;;! FileSpool_flush_pending) s = (Ok tt, s').
Proof.
  intros Hinv Hacc Hmax Hid Hrs Ho.
  destruct (append_all_total _ _ _ _ _ _ Hinv Hacc Hmax Hid Hrs Ho) as (s1 & H1 & _).
  destruct (append_all_inv _ _ _ _ _ _ _ Hinv Hmax Hrs H1)
    as (d & cl & r1 & bl & pe & Hinv1 & _ & _ & (_ & _ & Hco1 & _) & _ & _).
  destruct (flush_pending_total _ _ _ _ _ Hinv1 ltac:(by rewrite Hco1)) as [s2 H2].
  exists s2. unfold bind. by rewrite H1, H2.
Qed.
End Append.
