(* ===== verification/FileReplay.v ===== *)
(** * Replaying a file spool

    [FileSpool] as a replay source: a cursor over the segment files yields the
    first record beyond its position and beyond what has been consumed, although
    it skips the segments before its hint and reads the files lazily. *)

From stdpp Require Import sorting.
From S2P Require Import Prelude Format Text Writer Reader Scan Container RecordLoop Protocol Source FileSpool Segments FileSpoolInv.

Section Replay.
Context {EX : Externals} {EL : ExternalLaws}.

(** The records of a file, as a loop that collects them. *)
Definition file_records (d : files) (path : list Z) : list OwnedRecord :=
  match for_records d path (λ acc r, (acc ++ [r], true)) [] with Ok rs => rs | Err _ => [] end.

(** All records that can be read from the directory of a spool. *)
Definition visible (s : FileSpool) : list OwnedRecord :=
  concat ((λ seg, file_records (disk s) (seg_path seg)) <$> list_segments (disk s) (base_stem s)).

Definition small_file (content : list Z) : Prop := bytes content ∧ len content < MAX_U32.

(** The files of a spool are readable and in order. *)
Record files_ok (s : FileSpool) : Prop := {
  fo_small : ∀ seg content, seg ∈ list_segments (disk s) (base_stem s) →
    disk s !! seg_path seg = Some content → small_file content;
  fo_ids : StronglySorted id_lt (list_segments (disk s) (base_stem s));
  fo_sorted : StronglySorted seq_lt (to_wire <$> visible s);
}.

Lemma holds_total content : small_file content → ∃ rs, holds content rs.
Proof.
  intros [Hb Hl]. destruct (readable_total (reader_with_config content ReaderConfig_default) 0) as [bl Hr].
  { apply stats_ok_new; try done. apply default_marker_self_avoiding. }
  exists (concat bl). split; [done|]. by exists bl.
Qed.

Lemma for_records_holds {A} d path content rs (body : loop_body A) a :
  d !! path = Some content → holds content rs → len content < MAX_U32 →
  for_records d path body a = Ok (fold_until body a rs).1.
Proof.
  intros Hl Hh Hs. unfold for_records, read_file. rewrite Hl. simpl.
  destruct (while_records_delivers body a _ _ (holds_delivers _ _ Hh Hs)) as (r' & ->). done.
Qed.

Lemma fold_until_collect acc rs :
  fold_until (λ acc r, (acc ++ [r], true)) acc rs = (acc ++ rs, true).
Proof.
  revert acc. induction rs as [|r rs IH]; intros acc; simpl; [by rewrite app_nil_r|].
  by rewrite IH, <- app_assoc.
Qed.

Lemma file_records_holds d path content rs :
  d !! path = Some content → holds content rs → len content < MAX_U32 → file_records d path = rs.
Proof.
  intros Hl Hh Hs. unfold file_records.
  by rewrite (for_records_holds _ _ _ _ _ _ Hl Hh Hs), fold_until_collect.
Qed.

(** Any loop over the records of a segment is the loop over [file_records]. *)
Lemma for_records_eq {A} s seg (body : loop_body A) a :
  files_ok s → seg ∈ list_segments (disk s) (base_stem s) →
  for_records (disk s) (seg_path seg) body a =
    Ok (fold_until body a (file_records (disk s) (seg_path seg))).1.
Proof.
  intros Hok Hin. pose proof (proj1 (elem_of_list_segments _ _ _) Hin) as [[content Hl] _].
  pose proof (fo_small _ Hok seg content Hin Hl) as Hs. destruct (holds_total _ Hs) as [rs Hh].
  rewrite (file_records_holds _ _ _ _ Hl Hh) by apply Hs.
  eapply for_records_holds; [done..|apply Hs].
Qed.

(** ** The cursor *)

Lemma fold_until_first_beyond floor rs :
  (fold_until (first_beyond floor) None rs).1 = list.head (filter (λ r, floor < seq r) rs).
Proof.
  induction rs as [|r rs IH]; [done|]. cbn [fold_until]. unfold first_beyond at 1.
  rewrite filter_cons. destruct (Z.leb_spec (seq r) floor) as [Hle|Hlt].
  - case_decide; [lia|]. apply IH.
  - case_decide; [done|lia].
Qed.

Lemma filter_to_wire floor (rs : list OwnedRecord) :
  filter (λ r, floor < wire_seq r) (to_wire <$> rs) = to_wire <$> filter (λ r, floor < seq r) rs.
Proof.
  induction rs as [|r rs IH]; [done|]. rewrite fmap_cons, !filter_cons. simpl.
  case_decide; by rewrite IH.
Qed.

Lemma next_after_to_wire floor (rs : list OwnedRecord) :
  next_after floor (to_wire <$> rs) = to_wire <$> list.head (filter (λ r, floor < seq r) rs).
Proof. unfold next_after. rewrite filter_to_wire. by destruct (filter _ rs). Qed.

(** The records of the segments below the hint are behind the cursor. *)
Definition hint_ok (s : FileSpool) (c : FileReplayCursor) : Prop :=
  ∀ seg r, seg ∈ list_segments (disk s) (base_stem s) → seg_id seg < next_segment_id_hint c →
    r ∈ file_records (disk s) (seg_path seg) →
    seq r ≤ Z.max (fcur_last_seq c) (consumed_through_seq s).

Lemma next_after_app_Some floor xs ys r :
  next_after floor xs = Some r → next_after floor (xs ++ ys) = Some r.
Proof.
  unfold next_after. rewrite list.filter_app. by destruct (filter _ xs).
Qed.

Lemma next_after_app_None floor xs ys :
  next_after floor xs = None → next_after floor (xs ++ ys) = next_after floor ys.
Proof.
  unfold next_after. rewrite list.filter_app. by destruct (filter _ xs).
Qed.

Lemma next_in_segments_spec s segs c floor :
  files_ok s → (∀ seg, seg ∈ segs → seg ∈ list_segments (disk s) (base_stem s)) →
  StronglySorted id_lt segs →
  (∀ seg r, seg ∈ segs → seg_id seg < next_segment_id_hint c →
    r ∈ file_records (disk s) (seg_path seg) → seq r ≤ floor) →
  let found := next_after floor (to_wire <$> concat ((λ seg, file_records (disk s) (seg_path seg)) <$> segs)) in
  ∃ c', next_in_segments (disk s) floor segs c = (Ok found, c') ∧
    fcur_last_seq c' = advance (fcur_last_seq c) found ∧
    (∀ seg, seg ∈ segs → seg_id seg < next_segment_id_hint c' →
      ∀ r, r ∈ file_records (disk s) (seg_path seg) → seq r ≤ floor) ∧
    (next_segment_id_hint c' = next_segment_id_hint c ∨
     ∃ seg, seg ∈ segs ∧ next_segment_id_hint c' = seg_id seg).
Proof.
  intros Hok. revert c. induction segs as [|seg segs IH]; intros c Hsub Hs Hhint; cbn zeta.
  { exists c. split_and!; try done; [|by left]. by intros x ?%elem_of_nil. }
  apply StronglySorted_inv in Hs as [Hs Hlt]. rewrite list.Forall_forall in Hlt. unfold id_lt in Hlt.
  assert (∀ x, x ∈ segs → x ∈ list_segments (disk s) (base_stem s)) as Hsub' by (intros; apply Hsub; by right).
  cbn [next_in_segments]. rewrite fmap_cons. cbn [concat]. rewrite fmap_app.
  destruct (Z.ltb_spec (seg_id seg) (next_segment_id_hint c)) as [Hskip|Hge].
  - destruct (IH c Hsub' Hs) as (c' & Hn & Hl & Hh & Ho).
    { intros x r Hx. apply Hhint. by right. }
    assert (∀ r, r ∈ file_records (disk s) (seg_path seg) → seq r ≤ floor) as Hseg.
    { intros r. apply Hhint; [by left|done]. }
    rewrite next_after_app.
    2:{ intros x (r & -> & Hr)%list_elem_of_fmap. by apply Hseg. }
    exists c'. split_and!; try done.
    + intros x [->|Hx]%elem_of_cons Hid r Hr; [by apply Hseg|by eapply Hh].
    + destruct Ho as [?|(x & ? & ?)]; [by left|right]. exists x. split; [by right|done].
  - rewrite (for_records_eq s seg _ _ Hok) by (apply Hsub; by left).
    rewrite fold_until_first_beyond.
    pose proof (next_after_to_wire floor (file_records (disk s) (seg_path seg))) as Hna.
    destruct (list.head (filter (λ r, floor < seq r) (file_records (disk s) (seg_path seg)))) as [r|];
      simpl in Hna.
    + rewrite (next_after_app_Some _ _ _ _ Hna). exists (mkFileCursor (seg_id seg) (seq r)).
      split_and!; try done.
      * intros x [->|Hx]%elem_of_cons; simpl; [lia|]. specialize (Hlt x Hx). lia.
      * right. exists seg. split; [by left|done].
    + rewrite next_after_app_None by done.
      assert (∀ r, r ∈ file_records (disk s) (seg_path seg) → seq r ≤ floor) as Hseg.
      { intros r Hr. apply (next_after_None _ _ (to_wire r) Hna). by apply list_elem_of_fmap_2. }
      destruct (IH (mkFileCursor (seg_id seg) (fcur_last_seq c)) Hsub' Hs) as (c' & Hn & Hl & Hh & Ho).
      { intros x r Hx Hid. simpl in Hid. specialize (Hlt x Hx). lia. }
      exists c'. split_and!; try done.
      * intros x [->|Hx]%elem_of_cons Hid r Hr; [by apply Hseg|by eapply Hh].
      * right. destruct Ho as [E|(x & Hx & E)]; [exists seg; split; [by left|done]|].
        exists x. split; [by right|done].
Qed.

(** The client's view: what is stored beyond what has been consumed. *)
Definition unconsumed (s : FileSpool) : list WireRecord :=
  filter (λ r, consumed_through_seq s < wire_seq r) (to_wire <$> visible s).

Lemma next_after_filter floor consumed rs :
  next_after floor (filter (λ r, consumed < wire_seq r) rs) = next_after (Z.max floor consumed) rs.
Proof.
  unfold next_after. f_equal. rewrite list_filter_filter. apply list_filter_iff. intros r. lia.
Qed.

Lemma sorted_filter (P : WireRecord → Prop) `{∀ r, Decision (P r)} rs :
  StronglySorted seq_lt rs → StronglySorted seq_lt (filter P rs).
Proof.
  induction 1 as [|a rs Hs IH Ha]; [constructor|]. rewrite filter_cons. case_decide; [|done].
  constructor; [done|]. rewrite list.Forall_forall in *. intros x [_ Hx]%list_elem_of_filter. by apply Ha.
Qed.

#[export] Instance FileSpool_source : ReplaySource FileSpool FileReplayCursor := {|
  src_records := unconsumed;
  src_ok := files_ok;
  src_start _ last := FileSpool_replay_cursor_after last;
  src_next := FileSpool_next_for_cursor;
  src_last := fcur_last_seq;
  src_cursor_ok := hint_ok;
|}.

#[export] Instance FileSpool_source_laws : ReplaySourceLaws FileSpool FileReplayCursor.
Proof.
  split; simpl.
  - intros s Hok. apply sorted_filter, Hok.
  - intros s last Hok. split; [done|]. intros seg r Hseg Hlt. simpl in Hlt. exfalso.
    apply elem_of_list_segments in Hseg as [_ Hp]. apply parse_segment_id_u64 in Hp. int_solve.
  - intros s c Hok Hc. unfold FileSpool_next_for_cursor.
    destruct (next_in_segments_spec s (list_segments (disk s) (base_stem s)) c
      (Z.max (fcur_last_seq c) (consumed_through_seq s)) Hok) as (c' & Hn & Hl & Hh & _);
      [done|apply Hok|intros; by eapply Hc|].
    unfold unconsumed. rewrite next_after_filter. exists c'. split_and!; [done..|].
    intros seg r Hseg Hid Hr. specialize (Hh seg Hseg Hid r Hr).
    rewrite Hl. fold (visible s). destruct (next_after _ _) as [x|] eqn:Ex; simpl; [|lia].
    apply next_after_Some in Ex as (_ & Hx & _); [lia|apply Hok].
Qed.
End Replay.
