(* ===== verification/FileConsume.v ===== *)
(** * Consumption and durability of the file spool

    Consuming records removes only segments all of whose records are consumed,
    and what is left in the log beyond the consumed position is unchanged, as long
    as no records wait in the writer's buffers.  With waiting records the removal
    of the active segment loses them ([consume_loses_buffered_records]). *)

From stdpp Require Import sorting.
From S2P Require Import Prelude Format Text Writer Reader Scan Container RecordLoop Protocol Source FileSpool Segments FileSpoolInv FileReplay.

Section Consume.
Context {EX : Externals} {EL : ExternalLaws} (lim : Z).

(** All files of the directory are below the size at which the reader's counters
    could overflow. *)
Definition small_disk (s : FileSpool) : Prop := ∀ p c, disk s !! p = Some c → len c < MAX_U32.

(** Nothing waits in the writer: what the spool has been given is in its files. *)
Record idle (s : FileSpool) (closed : list (SegmentInfo * list OwnedRecord)) (r0 : list OwnedRecord) : Prop := {
  id_inv : spool_inv lim s closed r0 [] [];
  id_buf : bw_buf (inner (active_writer s)) = [];
}.

Lemma idle_active_holds s closed r0 : idle s closed r0 → holds (bw_file (inner (active_writer s))) r0.
Proof.
  intros [Hinv Hb]. pose proof (active_sink_holds _ _ _ _ _ _ Hinv) as [Hc _].
  simpl in Hc. rewrite Hb, !app_nil_r in Hc. by apply clean_holds.
Qed.

Lemma idle_segment_records s closed r0 c :
  idle s closed r0 → c ∈ closed ++ [(active_segment s, r0)] →
  ∃ content, disk s !! seg_path c.1 = Some content ∧ holds content c.2.
Proof.
  intros Hid [Hc| ->%list_elem_of_singleton]%elem_of_app.
  - pose proof (id_inv _ _ _ Hid) as Hinv. pose proof (si_closed _ _ _ _ _ _ Hinv) as Hcl.
    rewrite list.Forall_forall in Hcl. destruct (Hcl c Hc) as (content & Hl & Hh). exists content.
    split; [|done]. unfold disk. rewrite lookup_insert_ne; [done|]. intros E. symmetry in E. revert E.
    by eapply closed_path_not_active.
  - exists (bw_file (inner (active_writer s))). simpl. split; [|by eapply idle_active_holds].
    unfold disk. by rewrite lookup_insert_eq.
Qed.

Lemma idle_file_records s closed r0 c :
  idle s closed r0 → small_disk s → c ∈ closed ++ [(active_segment s, r0)] →
  file_records (disk s) (seg_path c.1) = c.2.
Proof.
  intros Hid Hsm Hc. destruct (idle_segment_records _ _ _ _ Hid Hc) as (content & Hl & Hh).
  eapply file_records_holds; [done..|by eapply Hsm].
Qed.

(** Everything is visible. *)
Lemma idle_visible s closed r0 :
  idle s closed r0 → small_disk s → visible s = concat closed.*2 ++ r0.
Proof.
  intros Hid Hsm. unfold visible.
  rewrite (list_segments_eq _ _ _ (si_segments _ _ _ _ _ _ (id_inv _ _ _ Hid))).
  assert (closed.*1 ++ [active_segment s] = (closed ++ [(active_segment s, r0)]).*1) as ->
    by by rewrite fmap_app.
  rewrite <- list_fmap_compose.
  assert (concat closed.*2 ++ r0 = concat (closed ++ [(active_segment s, r0)]).*2) as ->
    by (rewrite fmap_app, concat_app; simpl; by rewrite app_nil_r).
  f_equal. apply list_fmap_ext. intros i c Hi. simpl. eapply idle_file_records; [done|done|].
  by eapply list_elem_of_lookup_2.
Qed.

Lemma idle_files_ok s closed r0 :
  idle s closed r0 → small_disk s → StronglySorted seq_lt (to_wire <$> concat closed.*2 ++ r0) → files_ok s.
Proof.
  intros Hid Hsm Hs. pose proof (id_inv _ _ _ Hid) as Hinv.
  pose proof (list_segments_eq _ _ _ (si_segments _ _ _ _ _ _ Hinv)) as El.
  split; rewrite ?El, ?(idle_visible _ _ _ Hid Hsm); [|apply Hinv|done].
  intros seg content Hseg Hl. split; [|by eapply Hsm].
  assert (∃ c, c ∈ closed ++ [(active_segment s, r0)] ∧ seg = c.1) as (c & Hc & ->).
  { apply elem_of_app in Hseg as [(c & -> & Hc)%list_elem_of_fmap| ->%list_elem_of_singleton].
    - exists c. split; [apply elem_of_app; by left|done].
    - exists (active_segment s, r0). split; [apply elem_of_app; right; by left|done]. }
  destruct (idle_segment_records _ _ _ _ Hid Hc) as (content' & Hl' & Hb & _).
  rewrite Hl in Hl'. by injection Hl' as ->.
Qed.

(** ** Cleanup *)

Definition unconsumed_part (consumed : Z) (rs : list OwnedRecord) : list OwnedRecord :=
  filter (λ r, consumed < seq r) rs.

Lemma fold_until_last o rs :
  (fold_until (λ _ r, (Some (seq r), true)) o rs).1 =
    match list.last rs with Some r => Some (seq r) | None => o end.
Proof.
  revert o. induction rs as [|r rs IH]; intros o; simpl; [done|]. rewrite IH.
  destruct rs as [|r' rs]; [done|]. change (list.last (r :: r' :: rs)) with (list.last (r' :: rs)).
  by destruct (list.last (r' :: rs)) eqn:E; [|by apply last_None in E].
Qed.

Lemma segment_max_seq_idle s closed r0 c :
  idle s closed r0 → small_disk s → c ∈ closed ++ [(active_segment s, r0)] →
  segment_max_seq (disk s) (seg_path c.1) = Ok (seq <$> list.last c.2).
Proof.
  intros Hid Hsm Hc. destruct (idle_segment_records _ _ _ _ Hid Hc) as (content & Hl & Hh).
  unfold segment_max_seq. rewrite (for_records_holds _ _ _ _ _ _ Hl Hh ltac:(by eapply Hsm)).
  rewrite fold_until_last. by destruct (list.last c.2).
Qed.

(** In a sorted segment the last sequence number is the greatest. *)
Lemma last_is_max rs r x :
  StronglySorted seq_lt (to_wire <$> rs) → list.last rs = Some r → x ∈ rs → seq x ≤ seq r.
Proof.
  intros Hs Hl Hx. apply last_Some in Hl as [rs' ->].
  apply elem_of_app in Hx as [Hx| ->%list_elem_of_singleton]; [|done].
  rewrite fmap_app in Hs. apply StronglySorted_app in Hs as (H12 & _ & _).
  specialize (H12 (to_wire x) (to_wire r)). unfold seq_lt in H12. simpl in H12.
  assert (seq x < seq r); [|lia]. apply H12; [by apply list_elem_of_fmap_2|by left].
Qed.

Lemma consumed_segment consumed rs r :
  StronglySorted seq_lt (to_wire <$> rs) → list.last rs = Some r → seq r ≤ consumed →
  unconsumed_part consumed rs = [].
Proof.
  intros Hs Hl Hle. assert (∀ x, x ∈ rs → seq x ≤ consumed) as Hall.
  { intros x Hx. pose proof (last_is_max _ _ _ Hs Hl Hx). lia. }
  clear -Hall. unfold unconsumed_part. induction rs as [|x rs IH]; [done|]. rewrite filter_cons.
  case_decide as Hd; [specialize (Hall x ltac:(by left)); lia|]. apply IH. intros y Hy. apply Hall. by right.
Qed.

Lemma unconsumed_app consumed a b :
  unconsumed_part consumed (a ++ b) = unconsumed_part consumed a ++ unconsumed_part consumed b.
Proof. apply list.filter_app. Qed.

Lemma sorted_middle (a b c : list OwnedRecord) :
  StronglySorted seq_lt (to_wire <$> a ++ b ++ c) →
  StronglySorted seq_lt (to_wire <$> b) ∧ StronglySorted seq_lt (to_wire <$> a ++ c).
Proof.
  rewrite !fmap_app. intros (H1 & Ha & Hbc)%StronglySorted_app.
  apply StronglySorted_app in Hbc as (H2 & Hb & Hc). split; [done|].
  apply StronglySorted_app. split_and!; try done. intros x y Hx Hy. apply H1; [done|].
  apply elem_of_app. by right.
Qed.

(** A flush of an idle writer changes nothing. *)
Lemma with_writer_flush_idle s closed r0 : idle s closed r0 → with_writer flush_block s = (Ok tt, s).
Proof.
  intros [[_ _ _ _ _ (sink0 & [Hc _ _] & _) _ _] _].
  unfold with_writer, flush_block, bind, gets. rewrite (inv_payload _ _ _ _ _ Hc). simpl.
  by destruct s.
Qed.

Lemma small_disk_delete s p : small_disk s → small_disk (set_others (delete p (others s)) s).
Proof.
  intros Hsm q c. unfold disk. simpl. intros Hq.
  destruct (decide (q = active_segment_path s)) as [->|Hne].
  - rewrite lookup_insert_eq in Hq. apply (Hsm (active_segment_path s)). unfold disk. by rewrite lookup_insert_eq.
  - rewrite lookup_insert_ne in Hq by done. apply lookup_delete_Some in Hq as [_ Hq].
    apply (Hsm q). unfold disk. by rewrite lookup_insert_ne.
Qed.

(** No file grows: what is there was there, or is empty. *)
Definition shrunk (s s' : FileSpool) : Prop :=
  active_segment_id s' ≤ active_segment_id s + 1 ∧ base_stem s' = base_stem s ∧
  ∀ p c, disk s' !! p = Some c → c = [] ∨ disk s !! p = Some c.

Lemma shrunk_refl s : shrunk s s.
Proof. split_and!; [lia|done|]. by right. Qed.

Lemma shrunk_delete p s s' : shrunk (set_others (delete p (others s)) s) s' → shrunk s s'.
Proof.
  intros (Hi & Hb & Hd). split_and!; [done..|]. intros q c Hq. destruct (Hd q c Hq) as [?|Hq']; [by left|right].
  unfold disk in *. simpl in Hq'. destruct (decide (q = active_segment_path s)) as [->|Hne].
  - by rewrite lookup_insert_eq in *.
  - rewrite lookup_insert_ne in * by done. by apply lookup_delete_Some in Hq' as [_ ?].
Qed.

(** Replacing a consumed active segment. *)
Lemma advance_empty_idle s closed r0 :
  idle s closed r0 → active_segment_id s < MAX_U64 →
  ∃ s', advance_empty_active_segment s = (Ok tt, s') ∧ idle s' closed [] ∧
    consumed_through_seq s' = consumed_through_seq s ∧ (small_disk s → small_disk s') ∧
    (state_path s' = state_path s ∧ disk s' !! state_path s = disk s !! state_path s) ∧ shrunk s s'.
Proof.
  intros Hid Hmax. unfold advance_empty_active_segment, bind at 1.
  rewrite (with_writer_flush_idle _ _ _ Hid). unfold bind at 1, gets at 1, bind at 1.
  destruct (open_next_segment s) as [[[]|e] s1] eqn:Ho.
  2:{ unfold open_next_segment, bind, gets, lift, checked_add in Ho.
      destruct (Z.leb_spec (active_segment_id s + 1) MAX_U64); [done|lia]. }
  destruct (open_next_segment_inv _ _ _ _ _ _ (id_inv _ _ _ Hid) Ho) as (Hinv1 & Hb1 & Hc1 & _ & Hoth & Est & Ebs & _).
  rewrite app_nil_r in Hinv1. unfold bind at 1, gets at 1.
  destruct (remove_file_inv lim s1 closed (active_segment s, r0) [] [] [] [] Hinv1) as [Hrm Hinv2].
  rewrite app_nil_r in Hinv2. simpl in Hrm.
  assert (∃ c, disk s1 !! active_segment_path s = Some c) as [c Hc].
  { destruct (proj1 (proj2 (si_segments _ _ _ _ _ _ Hinv1) (active_segment s))) as [[c Hc] _].
    - rewrite fmap_app, <- app_assoc. apply elem_of_app. right. by left.
    - by exists c. }
  rewrite Hc, Hrm. eexists. split; [done|].
  assert (bw_file (inner (active_writer s1)) = []) as Hfresh
    by exact (open_next_segment_fresh lim _ _ _ _ _ _ (id_inv _ _ _ Hid) Ho).
  split_and!; [by split|done| |done| |].
  3:{ split_and!; [simpl; unfold open_next_segment in Ho; mon_inv; simpl; lia|done|]. intros p x. unfold disk. simpl. destruct (decide (p = active_segment_path s1)) as [->|Hne].
      - rewrite lookup_insert_eq, Hfresh. intros [= <-]. by left.
      - rewrite lookup_insert_ne by done. intros [Hqa Hq]%lookup_delete_Some. right.
        by rewrite Hoth, lookup_insert_ne in Hq by done; rewrite lookup_insert_ne. }
  2:{ pose proof (state_not_active _ _ _ _ _ _ (id_inv _ _ _ Hid)) as Hne.
      rewrite (state_disk _ _ _ _ _ _ (id_inv _ _ _ Hid)).
      pose proof (state_disk _ _ _ _ _ _ Hinv2) as Hd2. simpl in Hd2. rewrite Est in Hd2. rewrite Hd2.
      by rewrite lookup_delete_ne, Hoth, lookup_insert_ne. }
  intros Hsm. unfold small_disk, disk. simpl. intros q x Hq.
  destruct (decide (q = active_segment_path s1)) as [->|Hne].
  { rewrite lookup_insert_eq in Hq. injection Hq as <-.
    rewrite Hfresh. done. }
  rewrite lookup_insert_ne in Hq by done. apply lookup_delete_Some in Hq as [Hqa Hq].
  rewrite Hoth, lookup_insert_ne in Hq by done. apply (Hsm q). unfold disk.
  by rewrite lookup_insert_ne.
Qed.

Definition log_sorted (closed : list (SegmentInfo * list OwnedRecord)) (r0 : list OwnedRecord) : Prop :=
  StronglySorted seq_lt (to_wire <$> concat closed.*2 ++ r0).

Lemma log_sorted_remove c1 c c2 r0 :
  log_sorted (c1 ++ c :: c2) r0 →
  StronglySorted seq_lt (to_wire <$> c.2) ∧ log_sorted (c1 ++ c2) r0.
Proof.
  unfold log_sorted.
  assert (concat (c1 ++ c :: c2).*2 ++ r0 = concat c1.*2 ++ c.2 ++ (concat c2.*2 ++ r0)) as ->
    by (rewrite fmap_app, concat_app; simpl; by rewrite <- !app_assoc).
  assert (concat (c1 ++ c2).*2 ++ r0 = concat c1.*2 ++ (concat c2.*2 ++ r0)) as ->
    by by rewrite fmap_app, concat_app, <- !app_assoc.
  apply sorted_middle.
Qed.

Lemma log_sorted_active closed r0 :
  log_sorted closed r0 → StronglySorted seq_lt (to_wire <$> r0) ∧ log_sorted closed [].
Proof.
  unfold log_sorted. rewrite fmap_app, app_nil_r. by intros (_ & ? & ?)%StronglySorted_app.
Qed.

(** The loop removes consumed segments only, from any state reached inside it. *)
Lemma cleanup_loop_idle s kept todo r0 :
  idle s (kept ++ todo) r0 → small_disk s → active_segment_id s < MAX_U64 → log_sorted (kept ++ todo) r0 →
  ∃ closed' r0' s', cleanup_loop (todo.*1 ++ [active_segment s]) s = (Ok tt, s') ∧
    idle s' closed' r0' ∧ small_disk s' ∧ log_sorted closed' r0' ∧
    consumed_through_seq s' = consumed_through_seq s ∧
    state_path s' = state_path s ∧ disk s' !! state_path s = disk s !! state_path s ∧
    unconsumed_part (consumed_through_seq s) (concat closed'.*2 ++ r0') =
      unconsumed_part (consumed_through_seq s) (concat (kept ++ todo).*2 ++ r0) ∧ shrunk s s'.
Proof.
  revert s kept. induction todo as [|c todo IH]; intros s kept Hid Hsm Hmax Hso.
  - rewrite app_nil_r in *. cbn [fmap list_fmap app cleanup_loop]. unfold bind at 1, gets at 1, bind at 1, lift.
    pose proof (segment_max_seq_idle s kept r0 (active_segment s, r0) Hid Hsm
      ltac:(apply elem_of_app; right; by left)) as Hm. simpl in Hm |- *. rewrite Hm.
    destruct (list.last r0) as [r|] eqn:El; simpl; [|by exists kept, r0, s; split_and!; eauto using shrunk_refl].
    destruct (Z.ltb_spec (consumed_through_seq s) (seq r)) as [Hlt|Hge];
      [by exists kept, r0, s; split_and!; eauto using shrunk_refl|].
    rewrite Z.eqb_refl. unfold bind.
    destruct (advance_empty_idle s kept r0 Hid Hmax) as (s' & -> & Hid' & Hc' & Hsm' & Hst' & Hshr).
    destruct (log_sorted_active _ _ Hso) as [Hs0 Hso'].
    exists kept, [], s'. split_and!; auto; try apply Hst'.
    rewrite !unconsumed_app, (consumed_segment _ _ _ Hs0 El Hge). done.
  - assert (c ∈ (kept ++ c :: todo) ++ [(active_segment s, r0)]) as Hc.
    { rewrite <- app_assoc. apply elem_of_app. right. by left. }
    destruct (log_sorted_remove _ _ _ _ Hso) as [Hsc Hso'].
    assert (kept ++ c :: todo = (kept ++ [c]) ++ todo) as Eshift by by rewrite <- app_assoc.
    cbn [fmap list_fmap app cleanup_loop]. unfold bind at 1, gets at 1, bind at 1, lift.
    rewrite (segment_max_seq_idle s _ r0 c Hid Hsm Hc).
    destruct (list.last c.2) as [r|] eqn:El; simpl; [|rewrite Eshift in *; by apply IH].
    destruct (Z.ltb_spec (consumed_through_seq s) (seq r)) as [Hlt|Hge]; [rewrite Eshift in *; by apply IH|].
    destruct (closed_path_parses _ _ _ _ _ _ c (id_inv _ _ _ Hid)) as [_ Hidlt].
    { apply elem_of_app. right. by left. }
    destruct (Z.eqb_spec (seg_id c.1) (active_segment_id s)); [lia|].
    destruct (remove_file_inv lim s kept c todo r0 [] [] (id_inv _ _ _ Hid)) as [Hrm Hinv'].
    unfold bind. rewrite Hrm.
    set (s1 := set_others (delete (seg_path c.1) (others s)) s) in *.
    destruct (IH s1 kept) as (cl & r' & s' & Hcl & H1 & H2 & H3 & H4 & H6 & H7 & H5 & H8).
    + split; [done|apply Hid].
    + by apply small_disk_delete.
    + done.
    + done.
    + exists cl, r', s'. split_and!; try done; [| |by eapply shrunk_delete].
      { simpl in H7. rewrite H7. pose proof (state_disk _ _ _ _ _ _ Hinv') as Hd. simpl in Hd.
        rewrite Hd, (state_disk _ _ _ _ _ _ (id_inv _ _ _ Hid)). apply lookup_delete_ne.
        intros E. pose proof (si_state _ _ _ _ _ _ (id_inv _ _ _ Hid)) as Hst. rewrite <- E in Hst.
        destruct (closed_path_parses _ _ _ _ _ _ c (id_inv _ _ _ Hid)) as [Hp _];
          [apply elem_of_app; right; by left|]. congruence. }
      simpl in H5. rewrite H5. rewrite !fmap_app, fmap_cons, !concat_app. cbn [concat]. rewrite !unconsumed_app.
      by rewrite (consumed_segment _ _ _ Hsc El Hge).
Qed.

Lemma segments_of_state s closed r0 blocks pending c :
  spool_inv lim s closed r0 blocks pending →
  spool_inv lim (set_others (<[state_path s := c]> (others s)) s) closed r0 blocks pending.
Proof.
  intros [Hseg Hcl Hact Hids Hco Hw Hf Hst].
  assert (state_path s ≠ active_segment_path s) as Hne.
  { intros E. rewrite E in Hst. destruct (proj1 (proj2 Hseg (active_segment s))) as [_ Hp];
      [apply elem_of_app; right; by left|]. simpl in Hp. congruence. }
  split; simpl; try done.
  - unfold disk in *. simpl. rewrite insert_insert_ne by done. by apply segments_of_insert_other.
  - rewrite list.Forall_forall in *. intros x Hx. destruct (Hcl x Hx) as (content & Hl & Hh).
    exists content. split; [|done]. rewrite lookup_insert_ne; [done|]. intros E.
    destruct (proj1 (proj2 Hseg x.1)) as [_ Hp]; [apply elem_of_app; left; by apply list_elem_of_fmap_2|].
    rewrite <- E in Hp. congruence.
  - by rewrite lookup_insert_ne.
Qed.

Lemma read_consumed_written path sq d :
  is_u64 sq → d !! path = Some (u64_to_string sq) → read_consumed_state d path = Ok sq.
Proof.
  intros Hsq Hd. destruct (u64_to_string_spec sq Hsq) as (_ & Hdig & _).
  unfold read_consumed_state, read_to_string, read_file. rewrite Hd. simpl.
  by rewrite utf8_valid_digits, trim_text_digits, parse_u64_to_string.
Qed.

(** What a client still has to read, as records of the log. *)
Lemma unconsumed_idle s closed r0 :
  idle s closed r0 → small_disk s →
  unconsumed s = to_wire <$> unconsumed_part (consumed_through_seq s) (concat closed.*2 ++ r0).
Proof.
  intros Hid Hsm. unfold unconsumed, unconsumed_part. by rewrite (idle_visible _ _ _ Hid Hsm), filter_to_wire.
Qed.

Lemma small_disk_state s closed r0 sq :
  idle s closed r0 → small_disk s →
  small_disk (set_others (<[state_path s := u64_to_string sq]> (others s)) s).
Proof.
  intros Hid Hsm p c. unfold disk. simpl.
  destruct (decide (p = active_segment_path s)) as [->|Hne].
  - rewrite lookup_insert_eq. intros [= <-]. apply (Hsm (active_segment_path s)). unfold disk.
    by rewrite lookup_insert_eq.
  - rewrite lookup_insert_ne by done. destruct (decide (p = state_path s)) as [->|Hn].
    + rewrite lookup_insert_eq. intros [= <-]. pose proof (len_u64_to_string sq). int_solve.
    + rewrite lookup_insert_ne by done. intros Hl. apply (Hsm p). unfold disk. by rewrite lookup_insert_ne.
Qed.

Lemma unconsumed_part_mono a b rs :
  a ≤ b → unconsumed_part b rs = unconsumed_part b (unconsumed_part a rs).
Proof.
  intros Hab. unfold unconsumed_part. rewrite list_filter_filter. apply list_filter_iff. intros r. lia.
Qed.

Lemma consume_through_idle s closed r0 sq :
  idle s closed r0 → small_disk s → log_sorted closed r0 → active_segment_id s < MAX_U64 →
  consumed_through_seq s < sq → is_u64 sq →
  ∃ closed' r0' s', FileSpool_consume_through sq s = (Ok tt, s') ∧
    idle s' closed' r0' ∧ small_disk s' ∧ log_sorted closed' r0' ∧ consumed_through_seq s' = sq ∧
    read_consumed_state (disk s') (state_path s') = Ok sq ∧
    unconsumed_part sq (concat closed'.*2 ++ r0') = unconsumed_part sq (concat closed.*2 ++ r0) ∧
    state_path s' = state_path s ∧
    shrunk (set_others (<[state_path s := u64_to_string sq]> (others s)) s) s'.
Proof.
  intros Hid Hsm Hso Hmax Hlt Hsq. unfold FileSpool_consume_through, bind at 1, gets at 1.
  destruct (Z.leb_spec sq (consumed_through_seq s)); [lia|].
  unfold bind at 1 2, modify.
  set (s1 := set_others (<[state_path s := u64_to_string sq]> (others s)) s).
  assert (idle s1 closed r0) as Hid1 by (split; [apply segments_of_state, Hid|apply Hid]).
  assert (idle (set_consumed sq s1) closed r0) as Hid2 by (destruct Hid1 as [[] ?]; by split; [split|]).
  pose proof (small_disk_state s closed r0 sq Hid Hsm) as Hsm1. fold s1 in Hsm1.
  change (set_others _ (set_consumed sq s)) with (set_consumed sq s1).
  unfold cleanup_consumed_segments, bind, gets.
  rewrite (list_segments_eq _ _ _ (si_segments _ _ _ _ _ _ (id_inv _ _ _ Hid2))).
  destruct (cleanup_loop_idle (set_consumed sq s1) [] closed r0 Hid2 Hsm1 Hmax Hso)
    as (cl & r' & s' & Hc & H1 & H2 & H3 & H4 & H5 & H6 & H7 & H8).
  exists cl, r', s'. split_and!; try done.
  apply read_consumed_written; [done|]. rewrite H5, H6.
  rewrite (state_disk _ _ _ _ _ _ (id_inv _ _ _ Hid2)). simpl. by rewrite lookup_insert_eq.
Qed.

End Consume.
