(* ===== verification/FileOpen.v ===== *)
(** * Restarting a file spool

    Dropping a spool writes out its buffers; opening the directory again finds
    all records and the consumed position. *)

From stdpp Require Import sorting.
From S2P Require Import Prelude Format Text Writer Reader Scan Container RecordLoop Protocol Source FileSpool Segments FileSpoolInv FileReplay FileConsume.

(** The auxiliary files of a spool are no segments. *)
Lemma not_segment_name stem ext b :
  b ≠ 116 → parse_segment_id (stem ++ ext ++ [b]) stem = None.
Proof.
  intros Hb. assert (∀ r, stem ++ ext ++ [b] ≠ r ++ str ".logjet") as Hne.
  { intros r E. apply (f_equal list.last) in E.
    change (str ".logjet") with (str ".logje" ++ [116]) in E.
    rewrite !app_assoc, !last_snoc in E. congruence. }
  unfold parse_segment_id. rewrite bool_decide_eq_false_2 by apply Hne.
  assert (ends_with (stem ++ ext ++ [b]) (str ".logjet") = false) as ->; [|by rewrite orb_true_r].
  apply not_true_is_false. intros [r E]%ends_with_true. by apply (Hne r).
Qed.

Lemma state_not_segment stem : parse_segment_id (stem ++ str ".state") stem = None.
Proof. exact (not_segment_name stem (str ".stat") 101 ltac:(done)). Qed.

Lemma stream_id_not_segment stem : parse_segment_id (stem ++ str ".stream-id") stem = None.
Proof. exact (not_segment_name stem (str ".stream-i") 100 ltac:(done)). Qed.

Section Open.
Context {EX : Externals} {EL : ExternalLaws} (lim : Z).

(** A directory as a spool leaves it: the segments with their records, the last
    one ending at a block boundary. *)
Record dir_ok (d : files) (stem : list Z) (closed : list (SegmentInfo * list OwnedRecord))
    (seg : SegmentInfo) (r0 : list OwnedRecord) : Prop := {
  do_segments : segments_of d stem (closed.*1 ++ [seg]);
  do_closed : Forall (closed_ok d) closed;
  do_last : ∃ content, d !! seg_path seg = Some content ∧ clean content r0;
  do_small : ∀ p c, d !! p = Some c → len c < MAX_U32;
}.

Definition stream_id_path (stem : list Z) : list Z := stem ++ str ".stream-id".

Definition stream_id_ok (d : files) (stem : list Z) : Prop :=
  d !! stream_id_path stem = None ∨ ∃ id, is_u64 id ∧ d !! stream_id_path stem = Some (u64_to_string id).

Lemma read_or_create_stream_id_ok d stem fresh :
  stream_id_ok d stem →
  ∃ id d', read_or_create_stream_id (stream_id_path stem) fresh d = (Ok id, d') ∧
    (d' = d ∨ d' = <[stream_id_path stem := u64_to_string fresh]> d).
Proof.
  intros [Hn|(id & Hid & Hs)]; unfold read_or_create_stream_id, bind, gets.
  - rewrite Hn. eexists fresh, _. split; [done|by right].
  - rewrite Hs. destruct (u64_to_string_spec id Hid) as (_ & Hdig & _).
    unfold lift, read_to_string, read_file. rewrite Hs. simpl.
    rewrite utf8_valid_digits by done. rewrite trim_text_digits, parse_u64_to_string by done.
    simpl. exists id, d. split; [done|by left].
Qed.

Lemma dir_ok_stream_id d stem closed seg r0 z :
  dir_ok d stem closed seg r0 → dir_ok (<[stream_id_path stem := u64_to_string z]> d) stem closed seg r0.
Proof.
  intros [Hseg Hcl (content & Hl & Hc) Hsm]. pose proof (stream_id_not_segment stem) as Hns.
  assert (∀ x, x ∈ closed.*1 ++ [seg] → seg_path x ≠ stream_id_path stem) as Hne.
  { intros x Hx E. destruct (proj1 (proj2 Hseg x) Hx) as [_ Hp]. rewrite E in Hp.
    unfold stream_id_path in Hp. congruence. }
  split.
  - by apply segments_of_insert_other.
  - rewrite list.Forall_forall in *. intros x Hx. destruct (Hcl x Hx) as (c & Hlx & Hh). exists c.
    split; [|done]. rewrite lookup_insert_ne; [done|]. apply not_eq_sym, Hne, elem_of_app. left.
    by apply list_elem_of_fmap_2.
  - exists content. split; [|done]. rewrite lookup_insert_ne; [done|].
    apply not_eq_sym, Hne, elem_of_app. right. by left.
  - intros p c. destruct (decide (p = stream_id_path stem)) as [->|Hn].
    + rewrite lookup_insert_eq. intros [= <-]. pose proof (len_u64_to_string z). int_solve.
    + rewrite lookup_insert_ne by done. apply Hsm.
Qed.

Definition spool_writer_config (config : FileConfig) : WriterConfig :=
  mkWriterConfig DEFAULT_BLOCK_TARGET_SIZE (fc_codec config) DEFAULT_SYNC_MARKER (fc_block_alignment config).

(** The spool that [FileSpool_open] builds before the cleanup. *)
Definition opened (config : FileConfig) (stem : list Z) (sid consumed : Z) (d : files) (id : Z)
    (path : list Z) (size : Z) : FileSpool :=
  mkFileSpool (delete path d) stem (stem ++ str ".state") sid id path
    (with_config (mkBufWriter (default [] (d !! path)) []) (spool_writer_config config)) size
    (fc_segment_size_bytes config) (fc_fsync config) (fc_codec config) (fc_block_alignment config)
    (fc_max_total_bytes config) consumed.

Lemma opened_idle config stem sid consumed d closed seg r0 size :
  dir_ok d stem closed seg r0 → compatible (spool_writer_config config) ReaderConfig_default lim →
  idle lim (opened config stem sid consumed d (seg_id seg) (seg_path seg) size) closed r0 ∧
  disk (opened config stem sid consumed d (seg_id seg) (seg_path seg) size) = d.
Proof.
  intros [Hseg Hcl (content & Hl & Hc) Hsm] Hco.
  assert (disk (opened config stem sid consumed d (seg_id seg) (seg_path seg) size) = d) as Hdisk.
  { unfold disk, opened. simpl. rewrite Hl. simpl. rewrite insert_delete_eq. by apply insert_id. }
  split; [|done]. split; [|done]. unfold active_segment. split; simpl.
  - rewrite Hdisk. by destruct seg.
  - rewrite list.Forall_forall in *. intros x Hx. destruct (Hcl x Hx) as (c & Hlx & Hh). exists c.
    split; [|done]. rewrite lookup_delete_ne; [done|]. intros E.
    destruct Hseg as [Hs Hin]. assert (x.1 ∈ closed.*1) as Hx1 by by apply list_elem_of_fmap_2.
    destruct (proj1 (Hin x.1)) as [_ P1]; [apply elem_of_app; by left|].
    destruct (proj1 (Hin seg)) as [_ P2]; [apply elem_of_app; right; by left|].
    apply StronglySorted_app in Hs as (H12 & _ & _).
    specialize (H12 x.1 seg Hx1 ltac:(by left)). unfold id_lt in H12.
    rewrite <- E, P2 in P1. injection P1 as ?. lia.
  - apply lookup_delete_eq.
  - assert (∀ x, x ∈ closed.*1 ++ [seg] → 0 ≤ seg_id x) as Hpos.
    { intros x Hx. destruct (proj1 (proj2 Hseg x) Hx) as [_ Hp]. apply parse_segment_id_u64 in Hp. int_solve. }
    rewrite list.Forall_forall. destruct seg. apply Hpos.
  - done.
  - exists (mkBufWriter (default [] (d !! seg_path seg)) []). split; [apply writer_inv_new|].
    rewrite Hl. unfold sink_holds. simpl. rewrite app_nil_r. split; [done|].
    exists r0, []. by rewrite app_nil_r.
  - constructor.
  - apply state_not_segment.
Qed.

(** The cases of [choose_active]: go on with the last segment or start another. *)
Lemma dir_ok_next d stem closed seg r0 :
  dir_ok d stem closed seg r0 → seg_id seg < MAX_U64 →
  let path := segment_path stem (seg_id seg + 1) in
  d !! path = None ∧
  dir_ok (<[path := []]> d) stem (closed ++ [(seg, r0)]) (mkSegment (seg_id seg + 1) path) [].
Proof.
  intros [Hseg Hcl (content & Hl & Hc) Hsm] Hmax path.
  assert (is_u64 (seg_id seg)) as Hid.
  { destruct (proj1 (proj2 Hseg seg)) as [_ P]; [apply elem_of_app; right; by left|].
    by eapply parse_segment_id_u64. }
  assert (parse_segment_id path stem = Some (seg_id seg + 1)) as Hp by (apply parse_segment_path; int_solve).
  assert (∀ x, x ∈ closed.*1 ++ [seg] → seg_id x < seg_id seg + 1) as Hlt.
  { destruct Hseg as [Hs _]. apply StronglySorted_app in Hs as (H12 & _ & _).
    intros x [Hx| ->%list_elem_of_singleton]%elem_of_app; [|lia].
    specialize (H12 x seg Hx ltac:(by left)). unfold id_lt in H12. lia. }
  assert (d !! path = None) as Hnone.
  { destruct (d !! path) eqn:E; [|done]. exfalso.
    specialize (Hlt (mkSegment (seg_id seg + 1) path)). simpl in Hlt.
    assert (seg_id seg + 1 < seg_id seg + 1); [|lia]. apply Hlt, Hseg. split; [by eexists|done]. }
  split; [done|]. split.
  - rewrite fmap_app. by apply segments_of_insert_new.
  - apply Forall_app. split.
    + eapply Forall_impl; [|exact Hcl]. intros x (c & Hlx & Hh). exists c. split; [|done].
      rewrite lookup_insert_ne; [done|]. intros E. rewrite <- E in Hlx. congruence.
    + constructor; [|constructor]. exists content. simpl. split; [|by apply clean_holds].
      rewrite lookup_insert_ne; [done|]. intros E. rewrite <- E in Hl. congruence.
  - exists []. simpl. rewrite lookup_insert_eq. split; [done|apply clean_nil].
  - intros p c. destruct (decide (p = path)) as [->|Hn].
    + rewrite lookup_insert_eq. intros [= <-]. done.
    + rewrite lookup_insert_ne by done. apply Hsm.
Qed.

Lemma cleanup_opened s closed r0 :
  idle lim s closed r0 → small_disk s → active_segment_id s < MAX_U64 → log_sorted closed r0 →
  ∃ closed' r0' s', cleanup_consumed_segments s = (Ok tt, s') ∧ idle lim s' closed' r0' ∧ small_disk s' ∧
    log_sorted closed' r0' ∧ consumed_through_seq s' = consumed_through_seq s ∧
    unconsumed_part (consumed_through_seq s) (concat closed'.*2 ++ r0') =
      unconsumed_part (consumed_through_seq s) (concat closed.*2 ++ r0).
Proof.
  intros Hid Hsm Hmax Hso. unfold cleanup_consumed_segments, bind, gets.
  rewrite (list_segments_eq _ _ _ (si_segments _ _ _ _ _ _ (id_inv _ _ _ _ Hid))).
  destruct (cleanup_loop_idle lim s [] closed r0 Hid Hsm Hmax Hso)
    as (cl & r' & s' & Hc & H1 & H2 & H3 & H4 & _ & _ & H7 & _).
  by exists cl, r', s'.
Qed.

Lemma open_ok config fresh d closed seg r0 consumed :
  let stem := derive_base_stem (fc_name config) in
  dir_ok d stem closed seg r0 → compatible (spool_writer_config config) ReaderConfig_default lim →
  stream_id_ok d stem → read_consumed_state d (stem ++ str ".state") = Ok consumed →
  log_sorted closed r0 → seg_id seg + 1 < MAX_U64 →
  ∃ closed' r0' s', FileSpool_open config fresh d = Ok s' ∧ idle lim s' closed' r0' ∧ small_disk s' ∧
    log_sorted closed' r0' ∧ consumed_through_seq s' = consumed ∧
    unconsumed_part consumed (concat closed'.*2 ++ r0') = unconsumed_part consumed (concat closed.*2 ++ r0).
Proof.
  intros stem Hd Hco Hsid Hcs Hso Hmax. unfold FileSpool_open. fold stem. rewrite Hcs.
  destruct (read_or_create_stream_id_ok d stem fresh Hsid) as (sid & d' & Hr & Ed').
  fold (stream_id_path stem). rewrite Hr. cbv beta iota.
  assert (dir_ok d' stem closed seg r0) as Hd' by (destruct Ed' as [->| ->]; [done|by apply dir_ok_stream_id]).
  rewrite (list_segments_eq _ _ _ (do_segments _ _ _ _ _ Hd)).
  unfold choose_active. rewrite last_snoc. unfold read_file.
  destruct (do_last _ _ _ _ _ Hd') as (content & Hl & _). rewrite Hl. cbn [ok_or].
  fold (spool_writer_config config).
  destruct (Z.ltb_spec (len content) (fc_segment_size_bytes config)) as [Hlt|Hge].
  - destruct (opened_idle config stem sid consumed d' closed seg r0 (len content) Hd' Hco) as [Hid Hdisk].
    unfold opened in Hid, Hdisk.
    match type of Hid with idle _ ?s0 _ _ => destruct (cleanup_opened s0 closed r0 Hid)
      as (cl & r' & s' & -> & H1 & H2 & H3 & H4 & H5) end; [|simpl; lia|done|].
    { unfold small_disk. rewrite Hdisk. apply Hd'. }
    by exists cl, r', s'.
  - unfold checked_add. destruct (Z.leb_spec (seg_id seg + 1) MAX_U64); [|lia]. cbn [ok_or].
    assert (concat (closed ++ [(seg, r0)]).*2 ++ [] = concat closed.*2 ++ r0) as Elog
      by (rewrite fmap_app, concat_app; simpl; by rewrite !app_nil_r).
    destruct (dir_ok_next _ _ _ _ _ Hd' ltac:(lia)) as [Hnone Hd2].
    destruct (opened_idle config stem sid consumed _ _ _ _ 0 Hd2 Hco) as [Hid Hdisk].
    simpl in Hid, Hdisk. unfold opened in Hid, Hdisk. rewrite lookup_insert_eq, delete_insert_eq in Hid, Hdisk.
    rewrite Hnone. rewrite (delete_id d') by done. rewrite (delete_id d') in Hid, Hdisk by done.
    match type of Hid with idle _ ?s0 _ _ =>
      destruct (cleanup_opened s0 (closed ++ [(seg, r0)]) [] Hid)
        as (cl & r' & s' & Hc & H1 & H2 & H3 & H4 & H5) end; [|simpl; lia| |].
    + unfold small_disk. rewrite Hdisk. apply Hd2.
    + unfold log_sorted in *. by rewrite Elog.
    + simpl default in Hc |- *. rewrite Hc. exists cl, r', s'. rewrite Elog in H5. done.
Qed.

(** ** Closing *)

Lemma drop_dir_ok s closed r0 blocks pending w :
  spool_inv lim s closed r0 blocks pending → flush_block (active_writer s) = (Ok tt, w) →
  (∀ p c, FileSpool_drop s !! p = Some c → len c < MAX_U32) →
  dir_ok (FileSpool_drop s) (base_stem s) closed (active_segment s) (r0 ++ concat blocks ++ pending).
Proof.
  intros Hinv Hf Hsm.
  destruct (with_writer_flush_Ok lim s closed r0 blocks pending (set_writer w s) Hinv)
    as (bl & Hinv' & E & _); [unfold with_writer; by rewrite Hf|].
  pose proof (active_sink_holds _ _ _ _ _ _ Hinv') as [Hc _]. rewrite E in Hc. simpl in Hc.
  unfold FileSpool_drop in *. rewrite Hf in *. split.
  - pose proof (si_segments _ _ _ _ _ _ Hinv) as Hs. unfold disk in Hs.
    apply (segments_of_insert_same _ _ _ (active_segment_path s) (written (inner w))) in Hs;
      [|rewrite lookup_insert_eq; eauto]. by rewrite insert_insert_eq in Hs.
  - rewrite list.Forall_forall. intros x Hx. pose proof (si_closed _ _ _ _ _ _ Hinv) as Hcl.
    rewrite list.Forall_forall in Hcl. destruct (Hcl x Hx) as (c & Hl & Hh). exists c. split; [|done].
    rewrite lookup_insert_ne; [done|]. apply not_eq_sym. by eapply closed_path_not_active.
  - exists (written (inner w)). simpl. by rewrite lookup_insert_eq.
  - exact Hsm.
Qed.

(** ** A fresh directory *)

Lemma dir_ok_empty stem z :
  dir_ok (<[segment_path stem 0 := []]> {[stream_id_path stem := u64_to_string z]}) stem []
    (mkSegment 0 (segment_path stem 0)) [].
Proof.
  assert (dir_ok (<[segment_path stem 0 := []]> ∅) stem [] (mkSegment 0 (segment_path stem 0)) []) as Hd.
  { split.
    - apply (segments_of_insert_new ∅ stem [] 0); [|by apply parse_segment_path; int_solve|by intros ? ?%elem_of_nil].
      split; [constructor|]. intros seg. rewrite elem_of_nil. split; [done|]. intros [[? Hl] _]. done.
    - constructor.
    - exists []. rewrite lookup_insert_eq. split; [done|apply clean_nil].
    - intros p c. destruct (decide (p = segment_path stem 0)) as [->|Hn];
        [rewrite lookup_insert_eq; by intros [= <-]|rewrite lookup_insert_ne by done; done]. }
  apply (dir_ok_stream_id _ _ _ _ _ z) in Hd. rewrite insert_insert_ne in Hd; [done|].
  intros E. pose proof (stream_id_not_segment stem) as Hs. fold (stream_id_path stem) in Hs.
  rewrite E, parse_segment_path in Hs by int_solve. done.
Qed.

Lemma cleanup_empty s : idle lim s [] [] → small_disk s → cleanup_consumed_segments s = (Ok tt, s).
Proof.
  intros Hid Hsm. unfold cleanup_consumed_segments, bind at 1, gets at 1.
  rewrite (list_segments_eq _ _ _ (si_segments _ _ _ _ _ _ (id_inv _ _ _ _ Hid))).
  pose proof (segment_max_seq_idle lim s [] [] (active_segment s, []) Hid Hsm ltac:(by left)) as Hm.
  cbn [fmap list_fmap app cleanup_loop]. unfold bind, gets, lift. simpl in Hm |- *. by rewrite Hm.
Qed.

Lemma open_fresh config fresh :
  compatible (spool_writer_config config) ReaderConfig_default lim →
  let stem := derive_base_stem (fc_name config) in
  ∃ s, FileSpool_open config fresh ∅ = Ok s ∧ idle lim s [] [] ∧ small_disk s ∧
    consumed_through_seq s = 0 ∧ max_total_bytes s = fc_max_total_bytes config ∧
    fs_codec s = fc_codec config ∧ base_stem s = stem ∧ state_path s = stem ++ str ".state" ∧
    others s !! state_path s = None ∧ others s !! stream_id_path stem = Some (u64_to_string fresh) ∧
    active_segment_id s = 0.
Proof.
  intros Hco. set (stem := derive_base_stem (fc_name config)).
  unfold FileSpool_open. fold stem. fold (stream_id_path stem).
  change (read_consumed_state ∅ (stem ++ str ".state")) with (Ok (E:=IoError) 0).
  change (read_or_create_stream_id (stream_id_path stem) fresh ∅)
    with (Ok (E:=IoError) fresh, <[stream_id_path stem := u64_to_string fresh]> (∅ : files)).
  change (list_segments ∅ stem) with (@nil SegmentInfo). cbn [choose_active list.last].
  pose proof (dir_ok_empty stem fresh) as Hd. fold (spool_writer_config config).
  rewrite insert_empty.
  destruct (opened_idle config stem fresh 0 _ _ _ _ 0 Hd Hco) as [Hid Hdisk].
  unfold opened in Hid, Hdisk. cbn [seg_id seg_path] in Hid, Hdisk.
  rewrite lookup_insert_eq, delete_insert_eq in Hid, Hdisk.
  assert (({[stream_id_path stem := u64_to_string fresh]} : files) !! segment_path stem 0 = None) as Hnone.
  { apply lookup_singleton_ne. intros E. pose proof (stream_id_not_segment stem) as Hs.
    fold (stream_id_path stem) in Hs. rewrite E, parse_segment_path in Hs by int_solve. done. }
  rewrite Hnone. simpl default in Hid, Hdisk |- *.
  match type of Hid with idle _ ?s0 _ _ => set (s1 := s0) in * end.
  assert (small_disk s1) as Hsm by (unfold small_disk; rewrite Hdisk; apply Hd).
  rewrite (cleanup_empty s1 Hid Hsm). exists s1. split_and!; try done; simpl.
  - rewrite (delete_id _ _ Hnone). apply lookup_singleton_ne. unfold stream_id_path. intros E.
    by apply app_inv_head in E.
  - by rewrite (delete_id _ _ Hnone), lookup_singleton_eq.
Qed.
End Open.
