(* ===== verification/Spool.v ===== *)
(** * The spool of the daemon

    [logjetd/src/spool.rs], [Spool]: a memory or a file spool behind one set of
    operations, with the sequence number at which ingestion goes on after a start.
    As a replay source it promises what its two implementations promise. *)

From stdpp Require Import sorting.
From S2P Require Import Prelude Format Text Writer Reader Scan Container RecordLoop Protocol Source BufferSpool FileSpool Segments FileSpoolInv FileAppend FileReplay FileConsume.

(** ** Data *)

(** [enum StorageConfig] of [config.rs] *)
Inductive StorageConfig : Type :=
| StorageBuffer (config : BufferConfig)
| StorageFile (config : FileConfig).

Inductive Spool : Type :=
| SpoolBuffer (spool : BufferSpool)
| SpoolFile (spool : FileSpool).

Inductive ReplayCursor : Type :=
| CursorBuffer (cursor : BufferReplayCursor)
| CursorFile (cursor : FileReplayCursor).

(** An operation of the file spool on the variant. *)
Definition on_file {A} (op : M FileSpool IoError A) (spool : FileSpool) : result IoError A * Spool :=
  let '(r, spool') := op spool in (r, SpoolFile spool').

Section Spool.
Context {EX : Externals}.

(** [fresh] is the result of [generate_stream_id()], [d] the storage directory. *)
Definition Spool_open (config : StorageConfig) (fresh : Z) (d : files) : result IoError Spool :=
  match config with
  | StorageBuffer config => Ok (SpoolBuffer (BufferSpool_new fresh config))
  | StorageFile config => let? spool := FileSpool_open config fresh d in Ok (SpoolFile spool)
  end.

Definition Spool_append (record : WireRecord) : M Spool IoError unit :=
  λ s, match s with
       | SpoolBuffer spool => (Ok tt, SpoolBuffer (BufferSpool_append record spool))
       | SpoolFile spool => on_file (FileSpool_append record) spool
       end.

Definition Spool_replay_cursor_after (s : Spool) (last_seq : Z) : result IoError ReplayCursor :=
  match s with
  | SpoolBuffer spool => Ok (CursorBuffer (BufferSpool_replay_cursor_after spool last_seq))
  | SpoolFile spool => Ok (CursorFile (FileSpool_replay_cursor_after last_seq))
  end.

Definition Spool_next_for_cursor (s : Spool) (cursor : ReplayCursor)
    : result IoError (option WireRecord) * ReplayCursor :=
  match s, cursor with
  | SpoolBuffer spool, CursorBuffer cursor =>
      let '(o, cursor') := BufferSpool_next_for_cursor spool cursor in (Ok o, CursorBuffer cursor')
  | SpoolFile spool, CursorFile cursor =>
      let '(r, cursor') := FileSpool_next_for_cursor spool cursor in (r, CursorFile cursor')
  | _, _ => (Err (io_error InvalidInput "replay cursor type does not match spool type"), cursor)
  end.

Definition Spool_consume_through (sq : Z) : M Spool IoError unit :=
  λ s, match s with
       | SpoolBuffer spool => (Ok tt, SpoolBuffer (BufferSpool_consume_through sq spool))
       | SpoolFile spool => on_file (FileSpool_consume_through sq) spool
       end.

Definition Spool_flush_pending : M Spool IoError unit :=
  λ s, match s with
       | SpoolBuffer _ => (Ok tt, s)
       | SpoolFile spool => on_file FileSpool_flush_pending spool
       end.

Definition Spool_fsync_if_interval : M Spool IoError unit :=
  λ s, match s with
       | SpoolBuffer _ => (Ok tt, s)
       | SpoolFile spool => on_file FileSpool_fsync_if_interval spool
       end.

Definition Spool_stream_id (s : Spool) : Z :=
  match s with SpoolBuffer spool => bs_stream_id spool | SpoolFile spool => fs_stream_id spool end.

Definition Spool_sequence_bounds (s : Spool) : result IoError (option (Z * Z)) :=
  match s with
  | SpoolBuffer spool => Ok (BufferSpool_sequence_bounds spool)
  | SpoolFile spool => FileSpool_sequence_bounds spool
  end.

Definition Spool_next_sequence_seed (s : Spool) : result IoError Z :=
  let? bounds := Spool_sequence_bounds s in
  let last_seq := match bounds with Some (_, last_seq) => last_seq | None => 0 end in
  ok_or (checked_add MAX_U64 last_seq 1) (io_error InvalidData "sequence seed overflow").
End Spool.

(** ** The spool as a replay source *)

Section Laws.
Context {EX : Externals} {EL : ExternalLaws}.

(** The cursor of a spool, which [replay_cursor_after] never fails to give. *)
Definition start_cursor (s : Spool) (last_seq : Z) : ReplayCursor :=
  match s with
  | SpoolBuffer spool => CursorBuffer (BufferSpool_replay_cursor_after spool last_seq)
  | SpoolFile _ => CursorFile (FileSpool_replay_cursor_after last_seq)
  end.

Lemma replay_cursor_after_eq s last : Spool_replay_cursor_after s last = Ok (start_cursor s last).
Proof. by destruct s. Qed.

#[export] Instance Spool_source : ReplaySource Spool ReplayCursor := {|
  src_records s := match s with SpoolBuffer b => src_records b | SpoolFile f => src_records f end;
  src_ok s := match s with SpoolBuffer b => src_ok b | SpoolFile f => src_ok f end;
  src_start := start_cursor;
  src_next := Spool_next_for_cursor;
  src_last c := match c with CursorBuffer c => src_last c | CursorFile c => src_last c end;
  src_cursor_ok s c :=
    match s, c with
    | SpoolBuffer b, CursorBuffer c => src_cursor_ok b c
    | SpoolFile f, CursorFile c => src_cursor_ok f c
    | _, _ => False
    end;
|}.

#[export] Instance Spool_source_laws : ReplaySourceLaws Spool ReplayCursor.
Proof.
  split.
  - intros [b|f] Hok; [exact (src_sorted b Hok)|exact (src_sorted f Hok)].
  - intros [b|f] last Hok; [exact (src_start_ok b last Hok)|exact (src_start_ok f last Hok)].
  - intros [b|f] [c|c] Hok Hc; try done.
    + destruct (src_next_spec b c Hok Hc) as (c' & Hn & Hl & Hc'). exists (CursorBuffer c').
      split; [|done]. simpl in *. destruct (BufferSpool_next_for_cursor b c) as [o c2].
      injection Hn as -> ->. done.
    + destruct (src_next_spec f c Hok Hc) as (c' & Hn & Hl & Hc'). exists (CursorFile c').
      split; [|done]. simpl in *. by rewrite Hn.
Qed.

(** ** Sequence bounds *)

(** First and last sequence number of a list. *)
Definition bounds_of (rs : list WireRecord) : option (Z * Z) :=
  match list.head rs, list.last rs with
  | Some a, Some b => Some (wire_seq a, wire_seq b)
  | _, _ => None
  end.

Lemma fold_bounds consumed rs first_seq last_seq :
  let fresh := filter (λ r, consumed < seq r) rs in
  (fold_until (bounds_body consumed) (first_seq, last_seq) rs).1 =
    (match first_seq with Some _ => first_seq | None => seq <$> list.head fresh end,
     match list.last fresh with Some r => Some (seq r) | None => last_seq end).
Proof.
  revert first_seq last_seq. induction rs as [|r rs IH]; intros first_seq last_seq; cbn zeta.
  { by destruct first_seq. }
  cbn [fold_until]. unfold bounds_body at 1. rewrite filter_cons.
  destruct (Z.leb_spec (seq r) consumed) as [Hle|Hlt].
  - case_decide; [lia|]. apply IH.
  - case_decide; [|lia]. rewrite IH. f_equal; [by destruct first_seq|].
    rewrite last_cons. by destruct (list.last (filter _ rs)).
Qed.

Lemma bounds_in_segments_eq s segs first_seq last_seq :
  files_ok s → (∀ seg, seg ∈ segs → seg ∈ list_segments (disk s) (base_stem s)) →
  let fresh := filter (λ r, consumed_through_seq s < seq r)
                 (concat ((λ seg, file_records (disk s) (seg_path seg)) <$> segs)) in
  bounds_in_segments (disk s) (consumed_through_seq s) segs (first_seq, last_seq) =
    Ok (match first_seq with Some _ => first_seq | None => seq <$> list.head fresh end,
        match list.last fresh with Some r => Some (seq r) | None => last_seq end).
Proof.
  intros Hok. revert first_seq last_seq.
  induction segs as [|seg segs IH]; intros first_seq last_seq Hsub; cbn zeta.
  { by destruct first_seq. }
  cbn [bounds_in_segments]. rewrite (for_records_eq s seg _ _ Hok) by (apply Hsub; by left).
  rewrite fold_bounds, IH by (intros; apply Hsub; by right).
  rewrite fmap_cons. cbn [concat]. rewrite list.filter_app, last_app. do 2 f_equal.
  - destruct first_seq; [done|]. by destruct (filter _ (file_records _ _)).
  - by destruct (list.last (filter _ (concat _))).
Qed.

Lemma list_head_fmap {A B} (f : A → B) l : list.head (f <$> l) = f <$> list.head l.
Proof. by destruct l. Qed.

Lemma file_sequence_bounds_eq s :
  files_ok s → FileSpool_sequence_bounds s = Ok (bounds_of (unconsumed s)).
Proof.
  intros Hok. unfold FileSpool_sequence_bounds. rewrite bounds_in_segments_eq by done.
  unfold bounds_of, unconsumed, visible. rewrite filter_to_wire.
  set (fresh := filter _ _). rewrite fmap_last, list_head_fmap.
  by destruct (list.head fresh), (list.last fresh).
Qed.

Lemma spool_sequence_bounds_eq s :
  src_ok s → Spool_sequence_bounds s = Ok (bounds_of (src_records s)).
Proof.
  destruct s as [b|f]; intros Hok; [|by apply file_sequence_bounds_eq].
  simpl. unfold BufferSpool_sequence_bounds, bounds_of. by destruct (list.head (bs_records b)), (list.last (bs_records b)).
Qed.

Lemma sorted_last_max rs r x :
  StronglySorted seq_lt rs → list.last rs = Some r → x ∈ rs → wire_seq x ≤ wire_seq r.
Proof.
  intros Hs (rs' & ->)%last_Some Hx. apply StronglySorted_app in Hs as (H12 & _ & _).
  apply elem_of_app in Hx as [Hx| ->%list_elem_of_singleton]; [|lia].
  specialize (H12 x r Hx ltac:(by left)). unfold seq_lt in H12. lia.
Qed.

(** The seed is beyond every record that is stored and not consumed. *)
Lemma seed_beyond s :
  src_ok s → Forall (λ r, 0 ≤ wire_seq r < MAX_U64) (src_records s) →
  ∃ seed, Spool_next_sequence_seed s = Ok seed ∧ 0 < seed ≤ MAX_U64 ∧
    ∀ r, r ∈ src_records s → wire_seq r < seed.
Proof.
  intros Hok Hb. unfold Spool_next_sequence_seed. rewrite (spool_sequence_bounds_eq s Hok).
  pose proof (src_sorted s Hok) as Hs. unfold bounds_of.
  destruct (list.last (src_records s)) as [r|] eqn:El.
  - assert (r ∈ src_records s) as Hin by (apply last_Some in El as [? ->]; apply elem_of_app; right; by left).
    rewrite list.Forall_forall in Hb. specialize (Hb r Hin).
    destruct (list.head (src_records s)) as [a|] eqn:Eh; [|by destruct (src_records s)].
    unfold checked_add. destruct (Z.leb_spec (wire_seq r + 1) MAX_U64); [|lia].
    exists (wire_seq r + 1). split_and!; [done|lia|lia|].
    intros x Hx. pose proof (sorted_last_max _ _ _ Hs El Hx). lia.
  - apply last_None in El. rewrite El. exists 1. split_and!; [done|lia|vm_compute; discriminate|].
    by intros r ?%elem_of_nil.
Qed.

(** Sequence numbers after a start.  Ingestion goes on at a number beyond that of
    every record that is still to be read: records that are numbered from there on
    follow the stored ones. *)
Theorem seed_follows_stored_records s :
  src_ok s → Forall (λ r, 0 ≤ wire_seq r < MAX_U64) (src_records s) →
  ∃ seed, Spool_next_sequence_seed s = Ok seed ∧
    ∀ rs, StronglySorted seq_lt rs → Forall (λ r, seed ≤ wire_seq r) rs →
      StronglySorted seq_lt (src_records s ++ rs).
Proof.
  intros Hok Hb. destruct (seed_beyond s Hok Hb) as (seed & Hseed & _ & Hall).
  exists seed. split; [done|]. intros rs Hs Hge. apply StronglySorted_app. split_and!; [|by apply src_sorted|done].
  intros x y Hx Hy. specialize (Hall x Hx). rewrite list.Forall_forall in Hge. specialize (Hge y Hy).
  unfold seq_lt. lia.
Qed.

(** A drained spool hides what comes after a restart.  When every record of a
    file spool has been consumed, numbering starts again at 1; the record that is
    given this number is stored and no client ever gets it, as it counts as
    consumed already. *)
Theorem drained_spool_hides_new_record lim s closed r0 r :
  idle lim s closed r0 → small_disk s → visible s = [] → 1 ≤ consumed_through_seq s →
  codec_accepts (fs_codec s) MAX_U32 → max_total_bytes s = 0 → active_segment_id s + 2 ≤ MAX_U64 →
  storable lim r → wire_seq r = 1 →
  Spool_next_sequence_seed (SpoolFile s) = Ok (wire_seq r) ∧
  ∃ s', (Spool_append r ;;! Spool_flush_pending) (SpoolFile s) = (Ok tt, SpoolFile s') ∧
    (small_disk s' → visible s' = [from_wire r] ∧ src_records (SpoolFile s') = []).
Proof.
  intros Hid Hsm Hvis Hco Hacc Hmax Hids Hr Hsq.
  rewrite (idle_visible _ _ _ _ Hid Hsm) in Hvis. split.
  { unfold Spool_next_sequence_seed. rewrite spool_sequence_bounds_eq.
    - simpl. rewrite (unconsumed_idle _ _ _ _ Hid Hsm), Hvis, Hsq. done.
    - apply (idle_files_ok _ _ _ _ Hid Hsm). unfold log_sorted. rewrite Hvis. constructor. }
  assert (Forall (storable lim) [r]) as Hrs by by constructor.
  assert (log_of closed r0 [] [] = []) as Hlog by (unfold log_of; simpl; by rewrite app_nil_r).
  destruct (append_flush_total lim [r] s closed r0 [] [] (id_inv _ _ _ _ Hid) Hacc) as [s' Ha].
  { lia. } { change (len [r]) with 1. lia. } { done. } { rewrite Hlog. repeat constructor. }
  pose proof Ha as Ha'. apply bind_Ok in Ha' as ([] & s1 & H1 & H2). exists s'. split.
  - simpl in H1. unfold bind in H1. unfold bind, Spool_append, on_file.
    destruct (FileSpool_append r s) as [[[]|e] s0]; [|done]. injection H1 as ->. simpl. unfold on_file.
    by rewrite H2.
  - intros Hsm'. destruct (append_all_inv lim [r] s closed r0 [] [] s1 (id_inv _ _ _ _ Hid) ltac:(lia) Hrs H1)
      as (d & cl & r1 & bl & pe & Hinv1 & E & Hd & _ & Hc1 & _). rewrite (Hd Hmax), Hlog in E.
    destruct (flush_pending_inv _ _ _ _ _ _ _ Hinv1 H2) as (Hinv2 & _ & Hb & _ & Hc2).
    assert (idle lim s' cl (r1 ++ concat bl ++ pe)) as Hid' by by split.
    assert (concat cl.*2 ++ r1 ++ concat bl ++ pe = [from_wire r]) as E' by exact (eq_sym E).
    rewrite (idle_visible _ _ _ _ Hid' Hsm'). simpl. rewrite (unconsumed_idle _ _ _ _ Hid' Hsm'), E'.
    split; [done|]. unfold unconsumed_part. rewrite filter_cons_False; [done|]. simpl. lia.
Qed.
End Laws.
