(* ===== verification/FileSpoolTheorems.v ===== *)
(** * What the file spool guarantees

    The theorems of the file spool: appending, flushing, replaying, retention,
    consumption, restart, and the one combination of them that loses records. *)

From stdpp Require Import sorting.
From S2P Require Import Prelude Format Text Writer Reader Scan Container RecordLoop Protocol Source Instances FileSpool Segments FileSpoolInv FileAppend FileReplay FileConsume FileOpen Spool.

Section Theorems.
Context {EX : Externals} {EL : ExternalLaws} (lim : Z).

Lemma append_flush_inv rs s closed r0 blocks pending s' :
  spool_inv lim s closed r0 blocks pending → 0 ≤ max_total_bytes s → Forall (storable lim) rs →
  (append_all rs ;;! FileSpool_flush_pending) s = (Ok tt, s') →
  ∃ dropped closed' r0', idle lim s' closed' r0' ∧
    log_of closed r0 blocks pending ++ (from_wire <$> rs) = dropped ++ concat closed'.*2 ++ r0' ∧
    (max_total_bytes s = 0 → dropped = []) ∧ consumed_through_seq s' = consumed_through_seq s.
Proof.
  intros Hinv Hmax Hrs Ha. apply bind_Ok in Ha as ([] & s1 & H1 & H2).
  destruct (append_all_inv _ _ _ _ _ _ _ _ Hinv Hmax Hrs H1)
    as (d & cl & r1 & bl & pe & Hinv1 & E & Hd & _ & Hc & _).
  destruct (flush_pending_inv _ _ _ _ _ _ _ Hinv1 H2) as (Hinv2 & _ & Hb & _ & Hc2).
  exists d, cl, (r1 ++ concat bl ++ pe). split_and!; [by split|done|done|congruence].
Qed.

Lemma log_of_idle closed r0 : log_of closed r0 [] [] = concat closed.*2 ++ r0.
Proof. unfold log_of. simpl. by rewrite app_nil_r. Qed.



(** Retention meets its limit.  Enforcing retention removes whole segments from
    the oldest on, never the active one, until the total size is within the limit
    or only the active segment is left. *)
Theorem retention_meets_limit s closed r0 blocks pending :
  spool_inv lim s closed r0 blocks pending → 0 < max_total_bytes s →
  ∃ dropped kept s', enforce_retention s = (Ok tt, s') ∧ closed = dropped ++ kept ∧
    list_segments (disk s') (base_stem s') = kept.*1 ++ [active_segment s] ∧
    (kept = [] ∨ total_size (disk s') (list_segments (disk s') (base_stem s')) ≤ max_total_bytes s).
Proof.
  intros Hinv Hmax.
  destruct (enforce_retention_inv _ _ _ _ _ _ Hinv ltac:(lia)) as (d & k & s' & -> & Hr & Hinv' & Es & _ & _ & Ht).
  exists d, k, s'. split_and!; [done|done| |apply Ht; lia].
  rewrite (list_segments_eq _ _ _ (si_segments _ _ _ _ _ _ Hinv')). by rewrite Es.
Qed.

(** C5: consumption loses nothing.  When the writer has been flushed, consuming
    through [sq] succeeds, persists [sq], and leaves to be read exactly the
    records beyond [sq] that were to be read before, in the same order. *)
Theorem consume_keeps_later_records s closed r0 sq :
  idle lim s closed r0 → small_disk s → log_sorted closed r0 → active_segment_id s < MAX_U64 →
  consumed_through_seq s < sq → is_u64 sq →
  ∃ s', FileSpool_consume_through sq s = (Ok tt, s') ∧
    unconsumed s' = filter (λ r, sq < wire_seq r) (unconsumed s) ∧
    read_consumed_state (disk s') (state_path s') = Ok sq.
Proof.
  intros Hid Hsm Hso Hmax Hlt Hsq.
  destruct (consume_through_idle lim s closed r0 sq Hid Hsm Hso Hmax Hlt Hsq)
    as (cl & r' & s' & Hc & Hid' & Hsm' & _ & Hcs & Hst & Hu & _).
  exists s'. split_and!; [done| |done].
  rewrite (unconsumed_idle _ _ _ _ Hid' Hsm'), (unconsumed_idle _ _ _ _ Hid Hsm), Hcs, Hu, filter_to_wire.
  f_equal. apply unconsumed_part_mono. lia.
Qed.
(** Replay of a file spool.  A cursor yields the first record that is stored
    beyond its position and beyond the consumed position, whatever segments there
    are and whatever segment it is hinted at, and moves to that record. *)
Theorem file_cursor_yields_next s c :
  files_ok s → hint_ok s c →
  ∃ c', FileSpool_next_for_cursor s c = (Ok (next_after (fcur_last_seq c) (unconsumed s)), c') ∧
    fcur_last_seq c' = advance (fcur_last_seq c) (next_after (fcur_last_seq c) (unconsumed s)) ∧
    hint_ok s c'.
Proof. exact (@src_next_spec _ _ FileSpool_source _ s c). Qed.

(** What the auxiliary files look like after a drop. *)
Lemma drop_aux s closed r0 blocks pending p :
  spool_inv lim s closed r0 blocks pending → parse_segment_id p (base_stem s) = None →
  FileSpool_drop s !! p = others s !! p.
Proof.
  intros Hinv Hp. unfold FileSpool_drop. destruct (flush_block (active_writer s)) as [? w].
  apply lookup_insert_ne. intros E.
  destruct (proj1 (proj2 (si_segments _ _ _ _ _ _ Hinv) (active_segment s))) as [_ P];
    [apply elem_of_app; right; by left|]. simpl in P. congruence.
Qed.

End Theorems.

(** ** The theorems apply *)

Section Witnesses.
#[local] Existing Instance stored_externals.
#[local] Existing Instance stored_laws.

Definition sample_config : FileConfig :=
  mkFileConfig (str "bar.logjet") 150 FsyncInterval Lz4 0 32.
Definition sample_lim : Z := DEFAULT_MAX_BLOCK_SIZE.
Definition sample_record (n : Z) : WireRecord := mkWire Logs n (10 * n) [n; n].

Lemma sample_config_compatible :
  compatible (spool_writer_config sample_config) ReaderConfig_default sample_lim.
Proof.
  split; try done; try (apply default_marker_self_avoiding).
  - by apply (bool_decide_unpack _); vm_compute.
  - intros bs cs _ Hl Hc. by injection Hc as <-.
Qed.

(** The sample spool: opened on an empty directory, three records, flushed. *)
Definition sample_open : FileSpool :=
  match FileSpool_open sample_config 77 ∅ with
  | Ok s => s
  | Err _ => mkFileSpool ∅ [] [] 0 0 [] (new (mkBufWriter [] [])) 0 0 FsyncNone Lz4 0 0 0
  end.
Definition sample_records : list WireRecord := sample_record <$> [1; 2; 3].
Definition sample_spool : FileSpool :=
  ((append_all sample_records ;;! FileSpool_flush_pending) sample_open).2.

Lemma sample_storable : Forall (storable sample_lim) sample_records.
Proof. repeat constructor; vm_compute; discriminate. Qed.

Lemma sample_open_idle : idle sample_lim sample_open [] [] ∧ small_disk sample_open.
Proof.
  destruct (open_fresh sample_lim sample_config 77 sample_config_compatible) as (s & Ho & Hid & Hsm & _).
  assert (sample_open = s) as E by (unfold sample_open; rewrite Ho; reflexivity).
  rewrite E. exact (conj Hid Hsm).
Qed.

(** A decision procedure for the size bound. *)
Lemma small_disk_check s :
  map_fold (λ _ c b, (len c <? MAX_U32) && b) true (disk s) = true → small_disk s.
Proof.
  unfold small_disk. generalize (disk s). clear s. intros d.
  induction d as [|i x d Hi Hf IH] using map_first_key_ind; [by intros _ p c|].
  rewrite map_fold_insert_first_key by done. intros [Hx Hd]%andb_true_iff p c.
  destruct (decide (p = i)) as [->|Hne].
  - rewrite lookup_insert_eq. intros [= <-]. by apply Z.ltb_lt.
  - rewrite lookup_insert_ne by done. by apply IH.
Qed.

Lemma sample_spool_idle :
  ∃ closed r0, idle sample_lim sample_spool closed r0 ∧ concat closed.*2 ++ r0 = from_wire <$> sample_records.
Proof.
  destruct sample_open_idle as [Hid _].
  destruct (append_flush_inv sample_lim sample_records sample_open [] [] [] [] sample_spool
    (id_inv _ _ _ _ Hid)) as (d & cl & r0 & Hid' & E & Hd & _).
  - vm_compute. discriminate.
  - apply sample_storable.
  - vm_compute. reflexivity.
  - exists cl, r0. split; [done|]. rewrite Hd in E by reflexivity. exact (eq_sym E).
Qed.

Lemma sample_accepts_codec c : codec_accepts c MAX_U32.
Proof. intros bs _ Hl. exists bs. by destruct c. Qed.

Lemma sample_append_hyps :
  Forall (storable sample_lim) sample_records ∧
  in_order (visible sample_open ++ (from_wire <$> sample_records)) ∧
  active_segment_id sample_open + 2 * len sample_records ≤ MAX_U64 ∧ small_disk sample_open.
Proof.
  split_and!.
  - apply sample_storable.
  - replace (visible sample_open) with (@nil OwnedRecord) by (vm_compute; reflexivity).
    repeat constructor; vm_compute; discriminate.
  - vm_compute. discriminate.
  - apply sample_open_idle.
Qed.

Lemma same_run {A S} (x : A * S) a s s' : x = (a, s) → x = (a, s') → s = s'.
Proof. congruence. Qed.

Lemma sample_spool_run :
  (append_all sample_records ;;! FileSpool_flush_pending) sample_open = (Ok tt, sample_spool) ∧
  small_disk sample_spool.
Proof. split; [vm_compute; reflexivity|]. apply small_disk_check. vm_compute. reflexivity. Qed.



(** The sample spool with a limit of one byte. *)
Definition limited (s : FileSpool) : FileSpool :=
  mkFileSpool (others s) (base_stem s) (state_path s) (fs_stream_id s) (active_segment_id s)
    (active_segment_path s) (active_writer s) (active_size_bytes s) (segment_target_bytes s) (fsync s)
    (fs_codec s) (fs_block_alignment s) 1 (consumed_through_seq s).

Lemma limited_inv s closed r0 blocks pending :
  spool_inv sample_lim s closed r0 blocks pending → spool_inv sample_lim (limited s) closed r0 blocks pending.
Proof. intros []. split; assumption. Qed.

Lemma retention_meets_limit_witness :
  ∃ (closed dropped kept : list (SegmentInfo * list OwnedRecord)) s',
    enforce_retention (limited sample_spool) = (Ok tt, s') ∧ closed = dropped ++ kept ∧
    list_segments (disk s') (base_stem s') = kept.*1 ++ [active_segment (limited sample_spool)] ∧
    (kept = [] ∨ total_size (disk s') (list_segments (disk s') (base_stem s')) ≤
      max_total_bytes (limited sample_spool)).
Proof.
  destruct sample_spool_idle as (closed & r0 & [Hinv _] & _). exists closed.
  apply (retention_meets_limit sample_lim (limited sample_spool) closed r0 [] []).
  - exact (limited_inv _ _ _ _ _ Hinv).
  - vm_compute. reflexivity.
Defined.

Lemma sample_spool_sorted closed r0 :
  concat closed.*2 ++ r0 = from_wire <$> sample_records → log_sorted closed r0.
Proof.
  intros E. unfold log_sorted. rewrite E. apply (bool_decide_unpack _). vm_compute. exact I.
Qed.

Lemma consume_keeps_later_records_witness :
  ∃ s', FileSpool_consume_through 2 sample_spool = (Ok tt, s') ∧
    unconsumed s' = filter (λ r, 2 < wire_seq r) (unconsumed sample_spool) ∧
    read_consumed_state (disk s') (state_path s') = Ok 2.
Proof.
  destruct sample_spool_idle as (closed & r0 & Hid & E).
  apply (consume_keeps_later_records sample_lim sample_spool closed r0 2 Hid).
  - apply small_disk_check. vm_compute. reflexivity.
  - by apply sample_spool_sorted.
  - vm_compute. reflexivity.
  - vm_compute. reflexivity.
  - split; vm_compute; discriminate.
Defined.

Lemma file_cursor_yields_next_witness :
  ∃ c', FileSpool_next_for_cursor sample_spool (FileSpool_replay_cursor_after 1) =
      (Ok (next_after 1 (unconsumed sample_spool)), c') ∧
    fcur_last_seq c' = advance 1 (next_after 1 (unconsumed sample_spool)) ∧ hint_ok sample_spool c'.
Proof.
  destruct sample_spool_idle as (closed & r0 & Hid & E).
  assert (files_ok sample_spool) as Hok.
  { apply (idle_files_ok sample_lim sample_spool closed r0 Hid).
    - apply small_disk_check. vm_compute. reflexivity.
    - by apply sample_spool_sorted. }
  apply (file_cursor_yields_next sample_spool (FileSpool_replay_cursor_after 1) Hok).
  apply (@src_start_ok _ _ FileSpool_source _ sample_spool 1 Hok).
Defined.


(** The sample spool after everything has been consumed. *)
Definition drained : FileSpool := (FileSpool_consume_through 3 sample_spool).2.

Lemma drained_idle : (∃ closed r0, idle sample_lim drained closed r0) ∧ small_disk drained.
Proof.
  destruct sample_spool_idle as (closed & r0 & Hid & E).
  destruct (consume_through_idle sample_lim sample_spool closed r0 3 Hid (proj2 sample_spool_run)
    (sample_spool_sorted _ _ E)) as (cl & r' & s' & Hc & Hid' & _).
  { vm_compute. reflexivity. } { vm_compute. reflexivity. } { split; vm_compute; discriminate. }
  split; [|apply small_disk_check; vm_compute; reflexivity].
  exists cl, r'. unfold drained. rewrite Hc. exact Hid'.
Qed.

Lemma drained_spool_hides_new_record_witness :
  Spool_next_sequence_seed (SpoolFile drained) = Ok (wire_seq (sample_record 1)) ∧
  ∃ s', (Spool_append (sample_record 1) ;;! Spool_flush_pending) (SpoolFile drained) = (Ok tt, SpoolFile s') ∧
    (small_disk s' → visible s' = [from_wire (sample_record 1)] ∧ src_records (SpoolFile s') = []).
Proof.
  destruct drained_idle as [(closed & r0 & Hid) Hsm].
  apply (drained_spool_hides_new_record sample_lim drained closed r0 (sample_record 1) Hid Hsm).
  - vm_compute. reflexivity.
  - vm_compute. discriminate.
  - apply sample_accepts_codec.
  - vm_compute. reflexivity.
  - vm_compute. discriminate.
  - exact (Forall_inv sample_storable).
  - reflexivity.
Defined.

Lemma seed_follows_stored_records_witness :
  ∃ seed, Spool_next_sequence_seed (SpoolFile sample_spool) = Ok seed ∧
    ∀ rs, StronglySorted seq_lt rs → Forall (λ r, seed ≤ wire_seq r) rs →
      StronglySorted seq_lt (src_records (SpoolFile sample_spool) ++ rs).
Proof.
  destruct sample_spool_idle as (closed & r0 & Hid & E).
  apply (seed_follows_stored_records (SpoolFile sample_spool)).
  - apply (idle_files_ok sample_lim sample_spool closed r0 Hid (proj2 sample_spool_run)).
    by apply sample_spool_sorted.
  - apply (bool_decide_unpack _). vm_compute. exact I.
Defined.

Definition loss_buffered : FileSpool :=
  ((FileSpool_append (sample_record 1) ;;! FileSpool_flush_pending ;;! FileSpool_append (sample_record 2))
     sample_open).2.
Definition loss_consumed : FileSpool := (FileSpool_consume_through 1 loss_buffered).2.
Definition loss_flushed : FileSpool := (FileSpool_flush_pending loss_consumed).2.

(** The loss.  A record is appended and flushed, another one is appended and
    still waits in the writer; a client that consumes the first one makes the spool
    remove the active segment together with the waiting record.  All operations
    succeed and the second record is in no file afterwards. *)
Theorem consume_loses_buffered_records :
  ∃ s1 s2 s3,
    (FileSpool_append (sample_record 1) ;;! FileSpool_flush_pending ;;! FileSpool_append (sample_record 2))
      sample_open = (Ok tt, s1) ∧
    FileSpool_consume_through 1 s1 = (Ok tt, s2) ∧
    FileSpool_flush_pending s2 = (Ok tt, s3) ∧
    visible s3 = [].
Proof.
  exists loss_buffered, loss_consumed, loss_flushed. split_and!; vm_compute; reflexivity.
Qed.
End Witnesses.
