(* ===== verification/SegmentTools.v ===== *)
(** * Segment maintenance

    [logjetd/src/spool.rs], the functions behind the [segments] and [prune]
    commands: the summaries of the segment files of a directory, and the removal
    of old segments by count or by size. *)

From stdpp Require Import sorting.
From S2P Require Import Prelude Format Text Writer Reader Scan Container RecordLoop Protocol Source FileSpool Segments FileSpoolInv FileReplay Instances.

(** ** Data and operations *)

Record SegmentSummary : Type := mkSummary {
  sum_id : Z;
  sum_path : list Z;
  sum_size_bytes : Z;
  sum_record_count : Z;
  sum_first_seq : option Z;
  sum_last_seq : option Z;
}.

Definition list_named_segments (d : files) (file_name : list Z) : list SegmentInfo :=
  list_segments d (derive_base_stem file_name).

Section Tools.
Context {EX : Externals}.

(** The loop over the records of one segment. *)
Definition summary_body : loop_body (option Z * option Z * Z) :=
  λ '(first_seq, last_seq, count) record,
    ((match first_seq with None => Some (seq record) | Some _ => first_seq end, Some (seq record),
      saturating_add MAX_U64 count 1), true).

Definition summarise_segment (d : files) (segment : SegmentInfo) : result IoError SegmentSummary :=
  let? (first_seq, last_seq, count) := for_records d (seg_path segment) summary_body (None, None, 0) in
  let? content := read_file d (seg_path segment) in
  Ok (mkSummary (seg_id segment) (seg_path segment) (len content) count first_seq last_seq).

Fixpoint summarise_segments (d : files) (segments : list SegmentInfo) : result IoError (list SegmentSummary) :=
  match segments with
  | [] => Ok []
  | segment :: segments =>
      let? summary := summarise_segment d segment in
      let? summaries := summarise_segments d segments in
      Ok (summary :: summaries)
  end.

Definition summarise_named_segments (d : files) (file_name : list Z) : result IoError (list SegmentSummary) :=
  summarise_segments d (list_named_segments d file_name).

(** The backward loop over the summaries that sets [keep_flags]: the newest
    segment is kept, and others as long as what is kept stays below the limit. *)
Definition keep_flags (limit_bytes : Z) (summaries : list SegmentSummary) : list bool * Z :=
  foldr (λ summary '(flags, kept_total),
      if bool_decide (flags = []) || (kept_total <? limit_bytes)
      then (true :: flags, saturating_add MAX_U64 kept_total (sum_size_bytes summary))
      else (false :: flags, kept_total))
    ([], 0) summaries.

(** The indices of the cleared flags. *)
Fixpoint cleared (index : nat) (flags : list bool) : list nat :=
  match flags with
  | [] => []
  | keep :: flags => (if keep then [] else [index]) ++ cleared (S index) flags
  end.

Definition choose_removed (keep_files keep_bytes : option Z) (summaries : list SegmentSummary) : list nat :=
  match keep_files, keep_bytes with
  | Some limit, _ =>
      let keep := Z.max limit 1 in
      if keep <? len summaries then List.seq 0 (Z.to_nat (len summaries - keep)) else []
  | None, Some limit_bytes => cleared 0 (keep_flags limit_bytes summaries).1
  | None, None => []
  end.

Fixpoint remove_files (paths : list (list Z)) : M files IoError unit :=
  match paths with
  | [] => ret tt
  | path :: paths =>
      let! d := gets (λ d, d) in
      match d !! path with
      | None => throw not_found
      | Some _ => modify (delete path) ;;! remove_files paths
      end
  end.

Definition prune_named_segments (file_name : list Z) (keep_files keep_bytes : option Z) (dry_run : bool)
    : M files IoError (list (list Z)) :=
  match keep_files, keep_bytes with
  | None, None => throw (io_error InvalidInput "set --keep-files or --keep-bytes")
  | Some _, Some _ => throw (io_error InvalidInput "use either --keep-files or --keep-bytes, not both")
  | _, _ =>
      let! d := gets (λ d, d) in
      let! summaries := lift (summarise_named_segments d file_name) in
      if len summaries <=? 1 then ret [] else
      let remove_ids := choose_removed keep_files keep_bytes summaries in
      let removed_paths := omap (λ index, sum_path <$> summaries !! index) remove_ids in
      (if dry_run then ret tt else remove_files removed_paths) ;;!
      ret removed_paths
  end.
End Tools.

(** ** What the summaries say *)

Section Facts.
Context {EX : Externals} {EL : ExternalLaws}.

(** The segment files of a directory can be read through. *)
Definition dir_readable (d : files) (stem : list Z) : Prop :=
  ∀ seg content, seg ∈ list_segments d stem → d !! seg_path seg = Some content → small_file content.

(** The summary a segment should get. *)
Definition summary_of (d : files) (seg : SegmentInfo) : SegmentSummary :=
  let rs := file_records d (seg_path seg) in
  mkSummary (seg_id seg) (seg_path seg) (from_option len 0 (d !! seg_path seg)) (Z.min MAX_U64 (len rs))
    (seq <$> list.head rs) (seq <$> list.last rs).

Lemma fold_summary rs first_seq last_seq count :
  0 ≤ count ≤ MAX_U64 →
  (fold_until summary_body (first_seq, last_seq, count) rs).1 =
    (match first_seq with Some _ => first_seq | None => seq <$> list.head rs end,
     match list.last rs with Some r => Some (seq r) | None => last_seq end, Z.min MAX_U64 (count + len rs)).
Proof.
  revert first_seq last_seq count. induction rs as [|r rs IH]; intros first_seq last_seq count Hc.
  { simpl. change (len []) with 0. rewrite Z.add_0_r, Z.min_r by lia. by destruct first_seq. }
  rewrite len_cons. pose proof (len_nonneg rs). cbn [fold_until summary_body].
  rewrite IH; unfold saturating_add; [|lia]. rewrite last_cons.
  f_equal; [f_equal; [by destruct first_seq|by destruct (list.last rs)]|lia].
Qed.

Lemma summarise_segment_eq d stem seg :
  dir_readable d stem → seg ∈ list_segments d stem → summarise_segment d seg = Ok (summary_of d seg).
Proof.
  intros Hd Hin. pose proof (proj1 (elem_of_list_segments _ _ _) Hin) as [[content Hl] _].
  destruct (Hd seg content Hin Hl) as [Hb Hs]. destruct (holds_total content ltac:(done)) as [rs Hh].
  unfold summarise_segment, summary_of, read_file.
  rewrite (for_records_holds _ _ _ _ _ _ Hl Hh Hs), (file_records_holds _ _ _ _ Hl Hh Hs).
  rewrite fold_summary by int_solve. rewrite Hl. simpl. by destruct (list.last rs).
Qed.

Lemma summarise_named_eq d name :
  let stem := derive_base_stem name in dir_readable d stem →
  summarise_named_segments d name = Ok (summary_of d <$> list_segments d stem).
Proof.
  intros stem Hd. unfold summarise_named_segments, list_named_segments. fold stem.
  assert (∀ segs, (∀ seg, seg ∈ segs → seg ∈ list_segments d stem) →
    summarise_segments d segs = Ok (summary_of d <$> segs)) as Hall; [|by apply Hall].
  induction segs as [|seg segs IH]; intros Hsub; [done|]. cbn [summarise_segments].
  rewrite (summarise_segment_eq d stem seg Hd) by (apply Hsub; by left).
  rewrite IH by (intros; apply Hsub; by right). done.
Qed.

(** ** What is removed *)

Definition sizes_of (summaries : list SegmentSummary) : Z := foldr Z.add 0 (sum_size_bytes <$> summaries).

Lemma sizes_of_cons x l : sizes_of (x :: l) = sum_size_bytes x + sizes_of l.
Proof. done. Qed.

Lemma keep_flags_split limit summaries :
  Forall (λ x, 0 ≤ sum_size_bytes x) summaries → sizes_of summaries ≤ MAX_U64 →
  ∃ old kept, summaries = old ++ kept ∧ (summaries ≠ [] → kept ≠ []) ∧
    keep_flags limit summaries = (replicate (length old) false ++ replicate (length kept) true, sizes_of kept) ∧
    (old ≠ [] → limit ≤ sizes_of kept) ∧ (∀ x y kept', kept = x :: y :: kept' → sizes_of (y :: kept') < limit).
Proof.
  intros Hp. induction Hp as [|x summaries Hx Hp IH]; intros Hm.
  { exists [], []. by split_and!. }
  assert (0 ≤ sizes_of summaries) as Hnn.
  { clear -Hp. induction Hp as [|y l Hy Hl IH]; [done|]. rewrite sizes_of_cons. lia. }
  pose proof (sizes_of_cons x summaries) as Ex.
  destruct IH as (old & kept & -> & Hne & Hk & Hold & Htail); [lia|].
  assert (keep_flags limit (x :: old ++ kept) =
    let '(flags, kept_total) := keep_flags limit (old ++ kept) in
    if bool_decide (flags = []) || (kept_total <? limit)
    then (true :: flags, saturating_add MAX_U64 kept_total (sum_size_bytes x))
    else (false :: flags, kept_total)) as -> by done.
  rewrite Hk. destruct old as [|o old].
  - destruct kept as [|k kept]; simpl app in *.
    + exists [], [x]. split_and!; try done. simpl. f_equal.
      unfold saturating_add. rewrite !sizes_of_cons in *. change (sizes_of []) with 0 in *. lia.
    + simpl bool_decide. cbn [orb]. destruct (Z.ltb_spec (sizes_of (k :: kept)) limit) as [Hlt|Hge].
      * exists [], (x :: k :: kept). split_and!; try done.
        -- simpl. f_equal. unfold saturating_add. rewrite !sizes_of_cons in *. lia.
        -- intros ? ? ? [= <- <- <-]. done.
      * exists [x], (k :: kept). by split_and!.
  - exists (x :: o :: old), kept. specialize (Hold ltac:(done)). split_and!; try done.
    + intros _. by apply Hne.
    + simpl. destruct (Z.ltb_spec (sizes_of kept) limit); [lia|done].
Qed.

Lemma cleared_split i n k : cleared i (replicate n false ++ replicate k true) = List.seq i n.
Proof.
  revert i. induction n as [|n IH]; intros i; simpl; [|by rewrite IH].
  revert i. induction k as [|k IH]; intros i; [done|]. simpl. apply IH.
Qed.

Lemma omap_seq_range {A B} (f : A → B) (pre old kept : list A) :
  omap (λ i, f <$> (pre ++ old ++ kept) !! i) (List.seq (length pre) (length old)) = f <$> old.
Proof.
  revert pre. induction old as [|x old IH]; intros pre; [done|].
  cbn [length List.seq]. cbn [omap list_omap]. rewrite lookup_app_r, Nat.sub_diag by done. simpl. f_equal.
  rewrite cons_middle, app_assoc, app_assoc. rewrite <- (app_assoc _ old).
  specialize (IH (pre ++ [x])). rewrite length_app, Nat.add_1_r in IH. exact IH.
Qed.

Lemma remove_files_eq paths d :
  NoDup paths → (∀ p, p ∈ paths → is_Some (d !! p)) →
  ∃ d', remove_files paths d = (Ok tt, d') ∧
    ∀ p, d' !! p = if decide (p ∈ paths) then None else d !! p.
Proof.
  intros Hnd. revert d. induction Hnd as [|p paths Hp Hnd IH]; intros d Hin; [by exists d|].
  cbn [remove_files]. unfold bind at 1, gets. destruct (Hin p ltac:(by left)) as [c ->].
  unfold bind, modify. destruct (IH (delete p d)) as (d' & Hr & Hd').
  { intros q Hq. rewrite lookup_delete_ne by (intros ->; done). apply Hin. by right. }
  exists d'. split; [done|]. intros q. rewrite Hd'. destruct (decide (q = p)) as [->|Hne].
  - rewrite decide_False by done. rewrite lookup_delete_eq, decide_True by by left. done.
  - rewrite lookup_delete_ne by done.
    destruct (decide (q ∈ paths)) as [Hq|Hq].
    + rewrite decide_True by by right. done.
    + rewrite decide_False by by intros [|]%elem_of_cons. done.
Qed.

(** No file is listed twice. *)
Lemma NoDup_segment_paths d stem : NoDup (seg_path <$> list_segments d stem).
Proof.
  apply NoDup_fmap_2_strong.
  - intros a b Ha Hb E. apply elem_of_list_segments in Ha as [_ Ha], Hb as [_ Hb].
    destruct a, b; simpl in *. subst. congruence.
  - unfold list_segments. rewrite merge_sort_Permutation. apply NoDup_raw_segments.
Qed.

(** How many segments, or bytes, the options ask for. *)
Inductive pruned_to (d : files) : option Z → option Z → list SegmentInfo → list SegmentInfo → Prop :=
| pruned_files n old kept :
    len kept = Z.min (Z.max n 1) (len (old ++ kept)) →
    pruned_to d (Some n) None old kept
| pruned_bytes limit old kept :
    (old ≠ [] → limit ≤ sizes_of (summary_of d <$> kept)) →
    (∀ seg next kept', kept = seg :: next :: kept' → sizes_of (summary_of d <$> next :: kept') < limit) →
    pruned_to d None (Some limit) old kept.

(** The options are one of the two. *)
Definition one_option (keep_files keep_bytes : option Z) : Prop :=
  (is_Some keep_files ∧ keep_bytes = None) ∨ (keep_files = None ∧ is_Some keep_bytes).

Lemma file_sizes_nonneg d segs : Forall (λ x, 0 ≤ sum_size_bytes x) (summary_of d <$> segs).
Proof.
  apply Forall_fmap, Forall_true. intros seg. simpl. destruct (d !! seg_path seg); simpl; [apply len_nonneg|done].
Qed.

Lemma choose_removed_split d segs keep_files keep_bytes :
  one_option keep_files keep_bytes → sizes_of (summary_of d <$> segs) ≤ MAX_U64 → segs ≠ [] →
  ∃ old kept, segs = old ++ kept ∧ kept ≠ [] ∧
    choose_removed keep_files keep_bytes (summary_of d <$> segs) = List.seq 0 (length old) ∧
    pruned_to d keep_files keep_bytes old kept.
Proof.
  intros Hopt Hm Hne. assert (len (summary_of d <$> segs) = len segs) as El by (unfold len; by rewrite length_fmap).
  assert (0 < len segs) as Hpos by (destruct segs; [done|]; rewrite len_cons; pose proof (len_nonneg segs); lia).
  destruct Hopt as [[[n ->] ->]|[-> [limit ->]]]; simpl choose_removed.
  - rewrite El. set (k := Z.to_nat (len segs - Z.max n 1)).
    exists (take k segs), (drop k segs). rewrite take_drop. split; [done|].
    assert ((k < length segs)%nat) as Hk by (unfold k, len in *; lia). split_and!.
    + intros E. apply (f_equal length) in E. rewrite length_drop in E. simpl in E. lia.
    + rewrite length_take, Nat.min_l by lia. destruct (Z.ltb_spec (Z.max n 1) (len segs)); [done|].
      assert (k = 0%nat) as -> by (unfold k; lia). done.
    + constructor. rewrite take_drop. unfold k, len in *. rewrite length_drop. lia.
  - destruct (keep_flags_split limit (summary_of d <$> segs) (file_sizes_nonneg d segs) Hm)
      as (so & sk & E & Hk & Hf & Ho & Ht).
    apply fmap_app_inv in E as (old & kept & -> & -> & ->). exists old, kept.
    split_and!; [done| | |].
    + intros ->. apply Hk; [|done]. by destruct old.
    + rewrite Hf. simpl fst. rewrite cleared_split. by rewrite length_fmap.
    + constructor.
      * intros Hold. apply Ho. by destruct old.
      * intros seg next kept' ->. by eapply Ht.
Qed.

(** Pruning.  Pruning removes exactly the oldest segment files beyond what the
    option asks for, never the newest one and never another file, reports them,
    and changes nothing on a dry run. *)
Theorem prune_removes_oldest d name keep_files keep_bytes dry_run :
  let segs := list_named_segments d name in
  one_option keep_files keep_bytes → dir_readable d (derive_base_stem name) →
  sizes_of (summary_of d <$> segs) ≤ MAX_U64 → segs ≠ [] →
  ∃ old kept d', segs = old ++ kept ∧ kept ≠ [] ∧ pruned_to d keep_files keep_bytes old kept ∧
    prune_named_segments name keep_files keep_bytes dry_run d = (Ok (seg_path <$> old), d') ∧
    ∀ p, d' !! p = if decide (dry_run = false ∧ p ∈ seg_path <$> old) then None else d !! p.
Proof.
  intros segs Hopt Hd Hm Hne.
  destruct (choose_removed_split d segs keep_files keep_bytes Hopt Hm Hne) as (old & kept & E & Hk & Hc & Hp).
  pose proof (summarise_named_eq d name Hd) as Hs. fold (list_named_segments d name) in Hs. fold segs in Hs.
  assert (sum_path <$> (summary_of d <$> old) = seg_path <$> old) as Epath by by rewrite <- list_fmap_compose.
  pose proof (omap_seq_range sum_path [] (summary_of d <$> old) (summary_of d <$> kept)) as Hom.
  simpl app in Hom. rewrite <- fmap_app, <- E, length_fmap, Epath in Hom. simpl length in Hom.
  assert (prune_named_segments name keep_files keep_bytes dry_run d =
    (if len (summary_of d <$> segs) <=? 1 then ret [] else
     (if dry_run then ret tt else remove_files (seg_path <$> old)) ;;! ret (seg_path <$> old)) d) as ->.
  { rewrite <- Hom, <- Hc. unfold prune_named_segments.
    destruct Hopt as [[[n ->] ->]|[-> [limit ->]]]; unfold bind at 1, gets, bind at 1, lift; by rewrite Hs. }
  assert (len (summary_of d <$> segs) = len old + len kept) as El
    by (rewrite E; unfold len; rewrite length_fmap, length_app; lia).
  assert (0 < len kept) as Hkl by (destruct kept; [done|]; rewrite len_cons; pose proof (len_nonneg kept); lia).
  destruct (Z.leb_spec (len (summary_of d <$> segs)) 1) as [Hle|Hgt].
  { assert (old = []) as -> by (apply len_zero; pose proof (len_nonneg old); lia).
    exists [], kept, d. split_and!; try done. intros p. case_decide as Hx; [|done]. by destruct Hx as [_ ?%elem_of_nil]. }
  destruct dry_run.
  { exists old, kept, d. by split_and!. }
  destruct (remove_files_eq (seg_path <$> old) d) as (d' & Hr & Hd').
  - apply (sublist_NoDup _ (seg_path <$> segs)); [apply NoDup_segment_paths|].
    rewrite E, fmap_app. by apply sublist_inserts_r.
  - intros p (seg & -> & Hin)%list_elem_of_fmap.
    assert (seg ∈ segs) as Hseg by (rewrite E; apply elem_of_app; by left).
    by apply elem_of_list_segments in Hseg as [? _].
  - exists old, kept, d'. split_and!; try done; [unfold bind; by rewrite Hr|].
    intros p. rewrite Hd'. repeat case_decide; tauto.
Qed.
End Facts.

Section Witnesses.
#[local] Existing Instance stored_externals.
#[local] Existing Instance stored_laws.

(** Three segments without records and a file of another name. *)
Definition sample_dir : files :=
  <[str "bar.logjet" := [1; 2; 3]]> (<[str "bar-2.logjet" := [4; 5]]>
  (<[str "bar-10.logjet" := [6]]> {[str "bar.state" := [7]]})).

Lemma prune_removes_oldest_witness :
  let segs := list_named_segments sample_dir (str "bar.logjet") in
  ∃ old kept d', segs = old ++ kept ∧ kept ≠ [] ∧ pruned_to sample_dir None (Some 2) old kept ∧
    prune_named_segments (str "bar.logjet") None (Some 2) false sample_dir = (Ok (seg_path <$> old), d') ∧
    ∀ p, d' !! p = if decide (false = false ∧ p ∈ seg_path <$> old) then None else sample_dir !! p.
Proof.
  apply (prune_removes_oldest sample_dir (str "bar.logjet") None (Some 2) false).
  - right. split; [reflexivity|eauto].
  - intros seg content _ Hl. revert seg content Hl.
    assert (map_Forall (λ _ c, small_file c) sample_dir) as Hall.
    { unfold small_file. apply (bool_decide_unpack _). vm_compute. exact I. }
    intros seg content Hl. exact (Hall _ _ Hl).
  - vm_compute. discriminate.
  - vm_compute. discriminate.
Defined.

(** The order is that of the ids, not of the names. *)
Example prune_sample :
  (prune_named_segments (str "bar.logjet") None (Some 2) false sample_dir).1 = Ok [str "bar.logjet"].
Proof. vm_compute. reflexivity. Qed.
End Witnesses.
