(* ===== verification/ReplayServer.v ===== *)
(** * The replay server

    [logjetd/src/daemon.rs]: the shared spool with its change counter, and the
    handler of a replay client in its two modes, keep and drain.  The handler is a
    state machine whose steps are the sections of its code between two points at
    which another thread can change the spool (a lock, a blocking read).  It runs
    beside threads that change the spool and then call [notify_change]; what they
    do to the spool is limited only by the interface of a replay source. *)

From stdpp Require Import sorting.
From S2P Require Import Prelude Format Text Writer Reader Scan Container RecordLoop Protocol Source BufferSpool FileSpool Segments FileSpoolInv FileReplay FileConsume Spool Instances.

(** ** The shared spool *)

(** [wake_state] counts the changes. *)
Record SharedSpool : Type := mkShared { shared_spool : Spool; generation : Z }.

Definition SharedSpool_new (spool : Spool) : SharedSpool := mkShared spool 0.

Definition notify_change (s : SharedSpool) : SharedSpool :=
  mkShared (shared_spool s) (saturating_add MAX_U64 (generation s) 1).

(** [None]: the thread sleeps; otherwise the generation it has seen. *)
Definition wait_for_change (s : SharedSpool) (seen_generation : Z) : option Z :=
  if generation s =? seen_generation then None else Some (generation s).

(** An operation under the lock of the spool. *)
Definition locked {A} (op : M Spool IoError A) : M SharedSpool IoError A :=
  λ s, let '(r, spool) := op (shared_spool s) in (r, mkShared spool (generation s)).

(** ** The handler *)

(** Where the loops of [handle_replay_transport] and
    [handle_replay_transport_drain] stand. *)
Inductive position : Type :=
| Scanning (sent_any : bool)
| Waiting
| AwaitingAck (record : WireRecord)
| Consuming (ack_seq : Z).

Inductive phase : Type :=
| Greeting
| AwaitingRequest
| Serving (consume : bool) (cursor : ReplayCursor) (seen_generation : Z) (pos : position)
| Ended (e : IoError).

(** The two directions of the transport and the phase. *)
Record Handler (W : Type) : Type := mkHandler { h_in : Stream; h_out : W; h_phase : phase }.
Arguments mkHandler {W} h_in h_out h_phase.
Arguments h_in {W} h.
Arguments h_out {W} h.
Arguments h_phase {W} h.

Section Server.
Context {EX : Externals} {W : Type} {WW : Write W}.

Definition replay_hello (spool : Spool) : result IoError ReplayHello :=
  let? bounds := Spool_sequence_bounds spool in
  let '(first_seq, last_seq) := default (0, 0) bounds in
  Ok (mkReplayHello (Spool_stream_id spool) first_seq last_seq).

Definition greet (h : Handler W) (s : SharedSpool) : Handler W :=
  match replay_hello (shared_spool s) with
  | Err e => mkHandler (h_in h) (h_out h) (Ended e)
  | Ok hello =>
      match write_replay_hello hello (h_out h) with
      | (Ok _, out) => mkHandler (h_in h) out AwaitingRequest
      | (Err e, out) => mkHandler (h_in h) out (Ended e)
      end
  end.

Definition accept_request (h : Handler W) (s : SharedSpool) : Handler W :=
  match read_replay_request (h_in h) with
  | (Err e, inp) => mkHandler inp (h_out h) (Ended e)
  | (Ok request, inp) =>
      match Spool_replay_cursor_after (shared_spool s) (from_seq request) with
      | Err e => mkHandler inp (h_out h) (Ended e)
      | Ok cursor => mkHandler inp (h_out h) (Serving (consume request) cursor (generation s) (Scanning false))
      end
  end.

(** The next record is looked up under the lock and written after it. *)
Definition scan (compress drain : bool) (cursor : ReplayCursor) (seen : Z) (sent_any : bool)
    (h : Handler W) (s : SharedSpool) : Handler W :=
  match Spool_next_for_cursor (shared_spool s) cursor with
  | (Err e, _) => mkHandler (h_in h) (h_out h) (Ended e)
  | (Ok None, cursor) =>
      mkHandler (h_in h) (h_out h)
        (Serving drain cursor seen (if negb drain && sent_any then Scanning false else Waiting))
  | (Ok (Some record), cursor) =>
      match write_record record compress (h_out h) with
      | (Err e, out) => mkHandler (h_in h) out (Ended e)
      | (Ok _, out) =>
          mkHandler (h_in h) out
            (Serving drain cursor seen (if drain then AwaitingAck record else Scanning true))
      end
  end.

Definition receive_ack (cursor : ReplayCursor) (seen : Z) (record : WireRecord) (h : Handler W) : Handler W :=
  match read_replay_ack (h_in h) with
  | (Err e, inp) => mkHandler inp (h_out h) (Ended e)
  | (Ok ack, inp) =>
      mkHandler inp (h_out h)
        (if negb (ack_seq ack =? wire_seq record)
         then Ended (invalid_data ("replay ack out of order: expected " +:+ show (wire_seq record) +:+
                                   " got " +:+ show (ack_seq ack)))
         else Serving true cursor seen (Consuming (ack_seq ack)))
  end.

(** One step; [None] when the thread sleeps or has ended. *)
Definition handler_step (compress : bool) (h : Handler W) (s : SharedSpool) : option (Handler W * SharedSpool) :=
  match h_phase h with
  | Greeting => Some (greet h s, s)
  | AwaitingRequest => Some (accept_request h s, s)
  | Serving drain cursor seen (Scanning sent_any) => Some (scan compress drain cursor seen sent_any h s, s)
  | Serving drain cursor seen Waiting =>
      match wait_for_change s seen with
      | None => None
      | Some seen => Some (mkHandler (h_in h) (h_out h) (Serving drain cursor seen (Scanning false)), s)
      end
  | Serving drain cursor seen (AwaitingAck record) => Some (receive_ack cursor seen record h, s)
  | Serving drain cursor seen (Consuming ack_seq) =>
      let '(r, s) := locked (Spool_consume_through ack_seq) s in
      Some (mkHandler (h_in h) (h_out h)
              (match r with
               | Ok _ => Serving drain cursor seen (Scanning false)
               | Err e => Ended e
               end), s)
  | Ended _ => None
  end.
End Server.

(** ** Consumption *)

Section Consumption.
Context {EX : Externals} {EL : ExternalLaws}.

(** A spool that can be told to consume: what a file spool was given is in its
    files. *)
Definition consumable (s : Spool) : Prop :=
  match s with
  | SpoolBuffer _ => True
  | SpoolFile f => ∃ lim closed r0, idle lim f closed r0 ∧ small_disk f ∧ log_sorted closed r0 ∧
      active_segment_id f < MAX_U64
  end.

Lemma file_records_nil d p : d !! p = Some [] → file_records d p = [].
Proof. intros Hd. apply (file_records_holds _ _ [] [] Hd); [|done]. apply clean_holds, clean_nil. Qed.

(** A hint stays good while segment files disappear or become empty. *)
Lemma hint_ok_shrunk s s' c :
  hint_ok s c → base_stem s' = base_stem s → consumed_through_seq s ≤ consumed_through_seq s' →
  (∀ p id content, parse_segment_id p (base_stem s) = Some id → disk s' !! p = Some content →
    content = [] ∨ disk s !! p = Some content) →
  hint_ok s' c.
Proof.
  intros Hh Eb Hle Hd seg r [[cont Hl] Hp]%elem_of_list_segments Hlt Hr. rewrite Eb in Hp.
  destruct (Hd _ _ _ Hp Hl) as [->|Hl'].
  { rewrite (file_records_nil _ _ Hl) in Hr. by apply elem_of_nil in Hr. }
  assert (seq r ≤ Z.max (fcur_last_seq c) (consumed_through_seq s)); [|lia].
  apply (Hh seg r); [by apply elem_of_list_segments; split; [exists cont|]|done|].
  unfold file_records, for_records, read_file in *. by rewrite Hl in Hr; rewrite Hl'.
Qed.

Lemma hint_ok_consume s s' c closed r0 lim sq :
  idle lim s closed r0 → hint_ok s c →
  shrunk (set_others (<[state_path s := u64_to_string sq]> (others s)) s) s' →
  consumed_through_seq s ≤ consumed_through_seq s' → hint_ok s' c.
Proof.
  intros Hid Hh (_ & Eb & Hd) Hle. apply (hint_ok_shrunk s); try done.
  intros p id content Hp Hl. destruct (Hd _ _ Hl) as [?|Hl']; [by left|right].
  pose proof (si_state _ _ _ _ _ _ (id_inv _ _ _ _ Hid)) as Hst.
  unfold disk in *. simpl in Hl'. destruct (decide (p = active_segment_path s)) as [->|Hne].
  - by rewrite lookup_insert_eq in *.
  - rewrite lookup_insert_ne in * by done. rewrite lookup_insert_ne in Hl'; [done|]. congruence.
Qed.

Lemma pop_consumed_filter sq rs :
  StronglySorted seq_lt rs → pop_consumed sq rs = filter (λ r, sq < wire_seq r) rs.
Proof.
  induction 1 as [|a rs Hs IH Ha]; [done|]. cbn [pop_consumed]. rewrite filter_cons.
  destruct (Z.leb_spec (wire_seq a) sq); case_decide; try lia; [done|]. f_equal.
  rewrite list_filter_true; [done|]. intros x Hx.
  rewrite list.Forall_forall in Ha. specialize (Ha x Hx). unfold seq_lt in Ha. lia.
Qed.

(** Consuming through a position: exactly the records beyond it remain, and every
    cursor stays good. *)
Lemma consume_spec s c sq :
  src_ok s → consumable s → is_u64 sq → src_cursor_ok s c →
  ∃ s', Spool_consume_through sq s = (Ok tt, s') ∧ src_ok s' ∧ src_cursor_ok s' c ∧
    src_records s' = filter (λ r, sq < wire_seq r) (src_records s).
Proof.
  destruct s as [b|f], c as [c|c]; intros Hok Hcon Hsq Hc; try done.
  - exists (SpoolBuffer (BufferSpool_consume_through sq b)). simpl in *.
    rewrite (pop_consumed_filter _ _ Hok). split_and!; try done. by apply sorted_filter.
  - destruct Hcon as (lim & closed & r0 & Hid & Hsm & Hso & Hmax). simpl in *. unfold on_file.
    destruct (decide (consumed_through_seq f < sq)) as [Hlt|Hge].
    + destruct (consume_through_idle lim f closed r0 sq Hid Hsm Hso Hmax Hlt Hsq)
        as (cl & r' & s' & Hcs & Hid' & Hsm' & Hso' & Ecs & Hst & Hu & _ & Hshr).
      exists (SpoolFile s'). rewrite Hcs. split_and!; try done.
      * by apply (idle_files_ok _ _ _ _ Hid' Hsm').
      * apply (hint_ok_consume f s' c closed r0 lim sq Hid Hc Hshr). rewrite Ecs. lia.
      * rewrite (unconsumed_idle _ _ _ _ Hid' Hsm'), (unconsumed_idle _ _ _ _ Hid Hsm), Ecs, Hu, filter_to_wire.
        f_equal. apply unconsumed_part_mono. lia.
    + exists (SpoolFile f). unfold FileSpool_consume_through, bind, gets.
      destruct (Z.leb_spec sq (consumed_through_seq f)); [|lia]. split_and!; try done.
      rewrite list_filter_true; [done|]. intros r [Hr _]%list_elem_of_filter. lia.
Qed.
End Consumption.

(** ** The handler beside the other threads *)

Section System.
Context {EX : Externals} {EL : ExternalLaws} (compress : bool).

Local Abbreviation handler := (Handler (list Z)).

(** [sys_pending] counts the threads that have changed the spool and are about to
    call [notify_change]; [sys_high] bounds the sequence numbers used so far. *)
Record system : Type := mkSystem {
  sys_handler : handler;
  sys_shared : SharedSpool;
  sys_pending : nat;
  sys_high : Z;
}.

Definition cursor_of (h : handler) : option ReplayCursor :=
  match h_phase h with Serving _ cursor _ _ => Some cursor | _ => None end.

(** About to consume. *)
Definition consuming (h : handler) : option Z :=
  match h_phase h with Serving _ _ _ (Consuming sq) => Some sq | _ => None end.

Inductive sys_step : system → system → Prop :=
| sys_handle h s p hi h' s' :
    handler_step compress h s = Some (h', s') →
    (is_Some (consuming h) → consumable (shared_spool s)) →
    sys_step (mkSystem h s p hi) (mkSystem h' s' p hi)
| sys_add h s p hi spool hi' :
    src_ok spool → (∀ c, cursor_of h = Some c → src_cursor_ok spool c) → hi ≤ hi' ≤ MAX_U64 →
    (∀ r, r ∈ src_records spool → r ∈ src_records (shared_spool s) ∨ hi < wire_seq r ≤ hi') →
    sys_step (mkSystem h s p hi) (mkSystem h (mkShared spool (generation s)) (S p) hi')
| sys_remove h s p hi spool :
    src_ok spool → (∀ c, cursor_of h = Some c → src_cursor_ok spool c) →
    (∀ r, r ∈ src_records spool → r ∈ src_records (shared_spool s)) →
    sys_step (mkSystem h s p hi) (mkSystem h (mkShared spool (generation s)) p hi)
| sys_notify h s p hi :
    sys_step (mkSystem h s (S p) hi) (mkSystem h (notify_change s) p hi).

Inductive sys_reachable (inp : Stream) : system → Prop :=
| sys_init s p hi :
    src_ok (shared_spool s) → generation s ≤ MAX_U64 → 0 ≤ hi ≤ MAX_U64 →
    (∀ r, r ∈ src_records (shared_spool s) → 0 ≤ wire_seq r ≤ hi) →
    sys_reachable inp (mkSystem (mkHandler inp [] Greeting) s p hi)
| sys_next a b : sys_reachable inp a → sys_step a b → sys_reachable inp b.

(** *** What holds of a handler *)

(** [msgs] are acknowledgements of [d]. *)
Definition acknowledged (d : list WireRecord) (msgs : list (list Z)) : Prop :=
  Forall2 (λ r m, ∀ e, read_replay_ack (mkStream m e) = (Ok (mkReplayAck (wire_seq r)), mkStream [] e)) d msgs.

Lemma read_replay_ack_sound s a s' :
  read_replay_ack s = (Ok a, s') →
  ∃ m, input s = m ++ input s' ∧ ∀ e, read_replay_ack (mkStream m e) = (Ok a, mkStream [] e).
Proof.
  intros Hr. unfold read_replay_ack in Hr. apply bind_Ok in Hr as (magic & s1 & E1 & Hr).
  case_bool_decide as Hm; [cbn [negb] in Hr|done]. apply bind_Ok in Hr as (header & s2 & E2 & Hr).
  destruct (byte_at header 0 =? REPLAY_ACK_VERSION) eqn:Ev; [cbn [negb] in Hr|done]. mon_inv.
  apply stream_read_Ok in E1 as (I1 & L1 & _), E2 as (I2 & L2 & _).
  exists (REPLAY_ACK_MAGIC ++ header). split; [by rewrite I1, I2, app_assoc|]. intros e.
  unfold read_replay_ack, bind. rewrite stream_read_app by done. rewrite bool_decide_eq_true_2 by done.
  cbn [negb]. rewrite <- (app_nil_r header) at 1. rewrite stream_read_app by done. rewrite Ev. done.
Qed.

(** Where the handler stands between the records sent and the acknowledgements. *)
Definition position_ok (drain : bool) (pos : position) (d : list WireRecord) (msgs : list (list Z))
    (caught_up : Prop) : Prop :=
  match pos with
  | Scanning _ => if drain then acknowledged d msgs else msgs = []
  | Waiting => (if drain then acknowledged d msgs else msgs = []) ∧ caught_up
  | AwaitingAck r => drain = true ∧ ∃ d0, d = d0 ++ [r] ∧ acknowledged d0 msgs
  | Consuming sq => drain = true ∧ acknowledged d msgs ∧ ∃ r, list.last d = Some r ∧ wire_seq r = sq
  end.

(** Nothing to send, or a wake-up is on its way. *)
Definition woken (spool : Spool) (cursor : ReplayCursor) (seen gen : Z) (pending : nat) : Prop :=
  next_after (src_last cursor) (src_records spool) = None ∨ (0 < pending)%nat ∨ seen < gen ∨ gen = MAX_U64.

Record serving (inp : Stream) (a : system) (drain : bool) (cursor : ReplayCursor) (seen : Z) (pos : position)
    (request : ReplayRequest) (hello : ReplayHello) (d : list WireRecord) (bufs msgs : list (list Z)) : Prop := {
  sv_request : ∃ rest, read_replay_request inp = (Ok request, rest) ∧
    input rest = concat msgs ++ input (h_in (sys_handler a));
  sv_mode : consume request = drain;
  sv_out : h_out (sys_handler a) = encode_replay_hello hello ++ concat bufs;
  sv_frames : Forall2 (λ r buf, encode_wire_record r compress = Ok buf) d bufs;
  sv_session : session_inv (from_seq request)
    (mkSession (shared_spool (sys_shared a)) cursor d (sys_high a));
  sv_u64 : ∀ r, r ∈ d → is_u64 (wire_seq r);
  sv_seen : seen ≤ generation (sys_shared a);
  sv_pos : position_ok drain pos d msgs
    (woken (shared_spool (sys_shared a)) cursor seen (generation (sys_shared a)) (sys_pending a));
}.

Record sys_inv (inp : Stream) (a : system) : Prop := {
  sy_ok : src_ok (shared_spool (sys_shared a));
  sy_high : 0 ≤ sys_high a ≤ MAX_U64;
  sy_stored : ∀ r, r ∈ src_records (shared_spool (sys_shared a)) → 0 ≤ wire_seq r ≤ sys_high a;
  sy_phase : match h_phase (sys_handler a) with
    | Greeting => h_in (sys_handler a) = inp ∧ h_out (sys_handler a) = []
    | AwaitingRequest => h_in (sys_handler a) = inp ∧
        ∃ hello, h_out (sys_handler a) = encode_replay_hello hello
    | Serving drain cursor seen pos => ∃ request hello d bufs msgs,
        serving inp a drain cursor seen pos request hello d bufs msgs
    | Ended _ => True
    end;
}.

Ltac sysimpl :=
  cbn [sys_handler sys_shared sys_pending sys_high shared_spool generation h_in h_out h_phase notify_change
       se_spool se_cursor se_delivered se_high position_ok cursor_of consuming] in *.

(** *** Steps of the other threads *)

Lemma position_ok_mono drain pos d msgs (P Q : Prop) :
  (P → Q) → position_ok drain pos d msgs P → position_ok drain pos d msgs Q.
Proof. intros HPQ. destruct pos; simpl; tauto. Qed.

Lemma woken_remove spool spool' cursor seen gen p :
  (∀ r, r ∈ src_records spool' → r ∈ src_records spool) →
  woken spool cursor seen gen p → woken spool' cursor seen gen p.
Proof.
  intros Hsub [Hn|Hw]; [left|by right]. apply next_after_all_le. intros x Hx.
  by apply (next_after_None _ _ _ Hn), Hsub.
Qed.

Lemma serving_change inp h s p hi spool' p' hi' drain cursor seen pos request hello d bufs msgs :
  src_ok spool' → src_cursor_ok spool' cursor → hi ≤ hi' →
  (∀ r, r ∈ src_records spool' → r ∈ src_records (shared_spool s) ∨ hi < wire_seq r ≤ hi') →
  (p < p')%nat ∨ (∀ r, r ∈ src_records spool' → r ∈ src_records (shared_spool s)) ∧ p' = p →
  serving inp (mkSystem h s p hi) drain cursor seen pos request hello d bufs msgs →
  serving inp (mkSystem h (mkShared spool' (generation s)) p' hi') drain cursor seen pos request hello d bufs msgs.
Proof.
  intros Hok Hc Hhi Hsub Hp []. split; sysimpl; try done.
  - eapply session_step_inv; [exact sv_session0|]. by apply step_mutate.
  - eapply position_ok_mono; [|exact sv_pos0]. destruct Hp as [Hp|[Hp ->]].
    + intros _. right. left. lia.
    + by apply woken_remove.
Qed.

Lemma serving_notify inp h s p hi drain cursor seen pos request hello d bufs msgs :
  generation s ≤ MAX_U64 →
  serving inp (mkSystem h s (S p) hi) drain cursor seen pos request hello d bufs msgs →
  serving inp (mkSystem h (notify_change s) p hi) drain cursor seen pos request hello d bufs msgs.
Proof.
  intros Hg []. split; sysimpl; try done; unfold saturating_add; [lia|].
  eapply position_ok_mono; [|exact sv_pos0]. intros _. right. right. lia.
Qed.

(** *** Steps of the handler *)

Lemma vec_write_all (buf out : list Z) : write_all buf out = (Ok tt, out ++ buf).
Proof. done. Qed.

Lemma scan_serving inp h s p hi drain cursor seen sent request hello d bufs msgs :
  src_ok (shared_spool s) → (∀ r, r ∈ src_records (shared_spool s) → 0 ≤ wire_seq r ≤ MAX_U64) →
  serving inp (mkSystem h s p hi) drain cursor seen (Scanning sent) request hello d bufs msgs →
  let h' := scan compress drain cursor seen sent h s in
  (∃ e, h_phase h' = Ended e) ∨
  ∃ cursor' pos d' bufs', h_phase h' = Serving drain cursor' seen pos ∧
    serving inp (mkSystem h' s p hi) drain cursor' seen pos request hello d' bufs' msgs.
Proof.
  intros Hok Hu [Hreq Hmode Hout Hfr Hse Hdu Hseen Hpos]. sysimpl. unfold scan.
  pose proof (sei_cursor _ _ Hse) as Hc. sysimpl.
  destruct (src_next_spec _ _ Hok Hc) as (cursor' & Hn & Hl & Hc').
  cbn [src_next Spool_source] in Hn. rewrite Hn. clear Hc'.
  destruct (next_after (src_last cursor) (src_records (shared_spool s))) as [r|] eqn:En.
  - destruct (write_record r compress (h_out h)) as [[[]|e] out] eqn:Ew; [right|left; by exists e].
    unfold write_record in Ew. mon_inv. rewrite vec_write_all in Ew. injection Ew as <-.
    exists cursor', (if consume request then AwaitingAck r else Scanning true), (d ++ [r]), (bufs ++ [x]).
    split; [done|]. split; sysimpl; try done.
    + by rewrite Hout, concat_app, <- app_assoc; simpl; rewrite app_nil_r.
    + apply Forall2_app; [done|]. by repeat constructor.
    + eapply session_step_inv; [exact Hse|]. by apply step_deliver.
    + intros y [Hy| ->%list_elem_of_singleton]%elem_of_app; [by apply Hdu|].
      apply Hu. by apply next_after_Some in En as [? _]; [|by apply src_sorted].
    + destruct (consume request); [|done]. split; [done|]. by exists d.
  - right. eexists cursor', _, d, bufs. split; [done|]. split; sysimpl; try done.
    + eapply session_step_inv; [exact Hse|]. by apply step_idle.
    + destruct (negb drain && sent) eqn:Eb; [done|]. split; [done|]. left. cbn [advance] in Hl. by rewrite Hl.
Qed.

Lemma receive_ack_serving inp h s p hi drain cursor seen record request hello d bufs msgs :
  serving inp (mkSystem h s p hi) drain cursor seen (AwaitingAck record) request hello d bufs msgs →
  let h' := receive_ack cursor seen record h in
  (∃ e, h_phase h' = Ended e) ∨
  ∃ msgs', h_phase h' = Serving drain cursor seen (Consuming (wire_seq record)) ∧
    serving inp (mkSystem h' s p hi) drain cursor seen (Consuming (wire_seq record)) request hello d bufs msgs'.
Proof.
  intros [(rest & Hreq & Hin) Hmode Hout Hfr Hse Hdu Hseen (-> & d0 & -> & Hack)]. sysimpl. unfold receive_ack.
  destruct (read_replay_ack (h_in h)) as [[ack|e] i] eqn:Er; [|left; by exists e].
  destruct (Z.eqb_spec (ack_seq ack) (wire_seq record)) as [Eq|Ne]; simpl; [right|left; by eexists].
  destruct (read_replay_ack_sound _ _ _ Er) as (m & Em & Hm).
  exists (msgs ++ [m]). rewrite Eq. split; [done|]. split; sysimpl; try done.
  - exists rest. split; [done|]. by rewrite Hin, Em, concat_app, <- app_assoc; simpl; rewrite app_nil_r.
  - split_and!; [done| |exists record; by rewrite last_snoc].
    apply Forall2_app; [done|]. constructor; [|constructor]. intros e. rewrite Hm.
    destruct ack. simpl in Eq. by rewrite Eq.
Qed.

Lemma consume_serving inp h s p hi drain cursor seen sq request hello d bufs msgs :
  src_ok (shared_spool s) → consumable (shared_spool s) →
  serving inp (mkSystem h s p hi) drain cursor seen (Consuming sq) request hello d bufs msgs →
  ∃ spool', locked (Spool_consume_through sq) s = (Ok tt, mkShared spool' (generation s)) ∧ src_ok spool' ∧
    src_records spool' = filter (λ r, sq < wire_seq r) (src_records (shared_spool s)) ∧
    serving inp (mkSystem (mkHandler (h_in h) (h_out h) (Serving drain cursor seen (Scanning false)))
                   (mkShared spool' (generation s)) p hi)
      drain cursor seen (Scanning false) request hello d bufs msgs.
Proof.
  intros Hok Hcon Hsv. pose proof (sv_pos _ _ _ _ _ _ _ _ _ _ _ Hsv) as (-> & Hack & r & Hlast & Hsq).
  pose proof (sei_cursor _ _ (sv_session _ _ _ _ _ _ _ _ _ _ _ Hsv)) as Hc. sysimpl.
  assert (is_u64 sq) as Hu.
  { rewrite <- Hsq. apply (sv_u64 _ _ _ _ _ _ _ _ _ _ _ Hsv). apply last_Some in Hlast as [d0 ->].
    apply elem_of_app. right. by left. }
  destruct (consume_spec _ cursor sq Hok Hcon Hu Hc) as (spool' & He & Hok' & Hc' & Hrec).
  exists spool'. split_and!; try done; [unfold locked; by rewrite He|].
  assert (∀ x, x ∈ src_records spool' → x ∈ src_records (shared_spool s)) as Hsub.
  { intros x. rewrite Hrec. by intros [_ ?]%list_elem_of_filter. }
  destruct (serving_change inp h s p hi spool' p hi _ _ _ _ _ _ _ _ _ Hok' Hc' ltac:(lia)
    ltac:(intros; left; by apply Hsub) ltac:(by right) Hsv) as [].
  by split; sysimpl.
Qed.

Lemma handler_step_inv inp h s p hi h' s' :
  sys_inv inp (mkSystem h s p hi) → handler_step compress h s = Some (h', s') →
  (is_Some (consuming h) → consumable (shared_spool s)) →
  sys_inv inp (mkSystem h' s' p hi).
Proof.
  intros [Hok Hhi Hst Hph] Hstep Hcon. unfold handler_step in Hstep. unfold consuming in Hcon. sysimpl.
  assert (∀ r, r ∈ src_records (shared_spool s) → 0 ≤ wire_seq r ≤ MAX_U64) as Hu.
  { intros r Hr%Hst. lia. }
  destruct (h_phase h) as [| |drain cursor seen pos|e]; [..|done].
  - injection Hstep as <- <-. split; sysimpl; try done. destruct Hph as [Hin Hout]. unfold greet.
    destruct (replay_hello (shared_spool s)) as [hello|e]; sysimpl; [|done].
    unfold write_replay_hello. rewrite vec_write_all. sysimpl. split; [done|]. exists hello. by rewrite Hout.
  - injection Hstep as <- <-. split; sysimpl; try done. destruct Hph as [Hin (hello & Hout)].
    unfold accept_request. destruct (read_replay_request (h_in h)) as [[request|e] rest] eqn:Er; sysimpl; [|done].
    rewrite replay_cursor_after_eq. sysimpl. exists request, hello, [], [], []. split; sysimpl; try done.
    + exists rest. by rewrite <- Hin.
    + apply session_reachable_inv, (reach_init (from_seq request) (shared_spool s) hi Hok). intros r Hr%Hst. lia.
    + by intros r ?%elem_of_nil.
    + destruct (consume request); [constructor|done].
  - destruct Hph as (request & hello & d & bufs & msgs & Hsv). destruct pos as [sent| |record|sq].
    + injection Hstep as <- <-. split; sysimpl; try done.
      destruct (scan_serving _ _ _ _ _ _ _ _ _ _ _ _ _ _ Hok Hu Hsv)
        as [(e & ->)|(cursor' & pos & d' & bufs' & -> & Hsv')]; [done|].
      by exists request, hello, d', bufs', msgs.
    + unfold wait_for_change in Hstep. destruct (Z.eqb_spec (generation s) seen); [done|].
      injection Hstep as <- <-. split; sysimpl; try done. exists request, hello, d, bufs, msgs.
      destruct Hsv as [? ? ? ? ? ? ? [? ?]]. by split; sysimpl.
    + injection Hstep as <- <-. split; sysimpl; try done.
      destruct (receive_ack_serving _ _ _ _ _ _ _ _ _ _ _ _ _ _ Hsv) as [(e & ->)|(msgs' & -> & Hsv')]; [done|].
      by exists request, hello, d, bufs, msgs'.
    + destruct (consume_serving _ _ _ _ _ _ _ _ _ _ _ _ _ _ Hok (Hcon ltac:(by eexists)) Hsv)
        as (spool' & He & Hok' & Hrec & Hsv').
      rewrite He in Hstep. injection Hstep as <- <-. split; sysimpl; try done.
      * intros r. rewrite Hrec. intros [_ Hr]%list_elem_of_filter. by apply Hst.
      * by exists request, hello, d, bufs, msgs.
Qed.

Lemma change_inv inp h s p hi spool' p' hi' :
  sys_inv inp (mkSystem h s p hi) → src_ok spool' → (∀ c, cursor_of h = Some c → src_cursor_ok spool' c) →
  hi ≤ hi' ≤ MAX_U64 →
  (∀ r, r ∈ src_records spool' → r ∈ src_records (shared_spool s) ∨ hi < wire_seq r ≤ hi') →
  (p < p')%nat ∨ (∀ r, r ∈ src_records spool' → r ∈ src_records (shared_spool s)) ∧ p' = p →
  sys_inv inp (mkSystem h (mkShared spool' (generation s)) p' hi').
Proof.
  intros [Hok Hhi Hst Hph] Hok' Hc Hle Hsub Hp. unfold cursor_of in Hc. split; sysimpl; try done; [lia| |].
  - intros r Hr. destruct (Hsub r Hr) as [?%Hst|]; lia.
  - destruct (h_phase h) as [| |drain cursor seen pos|e]; try done.
    destruct Hph as (request & hello & d & bufs & msgs & Hsv). exists request, hello, d, bufs, msgs.
    apply (serving_change inp h s p hi); auto; lia.
Qed.

Lemma sys_step_inv inp a b :
  generation (sys_shared a) ≤ MAX_U64 → sys_inv inp a → sys_step a b →
  sys_inv inp b ∧ generation (sys_shared b) ≤ MAX_U64.
Proof.
  intros Hg Hinv Hstep. destruct Hstep as [h s p hi h' s' Hs Hcon|h s p hi spool' hi' Hok Hc Hle Hsub|
    h s p hi spool' Hok Hc Hsub|h s p hi]; sysimpl.
  - split; [by eapply handler_step_inv|]. unfold handler_step, wait_for_change, locked in Hs.
    repeat case_match; by simplify_eq.
  - split; [|done]. eapply change_inv; try done. left. lia.
  - split; [|done]. eapply change_inv; try done; [|intros; left; by apply Hsub|by right].
    pose proof (sy_high _ _ Hinv). sysimpl. lia.
  - split; [|unfold saturating_add; lia]. destruct Hinv as [Hok Hhi Hst Hph]. split; sysimpl; try done.
    destruct (h_phase h) as [| |drain cursor seen pos|e]; try done.
    destruct Hph as (request & hello & d & bufs & msgs & Hsv). exists request, hello, d, bufs, msgs.
    by apply serving_notify.
Qed.

Lemma sys_reachable_inv inp a : sys_reachable inp a → sys_inv inp a.
Proof.
  intros Hr. enough (sys_inv inp a ∧ generation (sys_shared a) ≤ MAX_U64) by tauto.
  induction Hr as [s p hi Hok Hg Hhi Hst|a b Ha [IH Hg] Hstep]; [|by eapply sys_step_inv].
  split; [|done]. by split.
Qed.

Lemma reachable_serving inp a drain cursor seen pos :
  sys_reachable inp a → h_phase (sys_handler a) = Serving drain cursor seen pos →
  ∃ request hello d bufs msgs, serving inp a drain cursor seen pos request hello d bufs msgs.
Proof. intros [_ _ _ Hph]%sys_reachable_inv E. by rewrite E in Hph. Qed.

(** ** The theorems *)


Lemma handler_step_spool h s h' s' :
  handler_step (W:=list Z) compress h s = Some (h', s') → consuming h = None → s' = s.
Proof.
  unfold handler_step, consuming. intros Hs Hc. repeat case_match; simplify_eq; done.
Qed.

End System.

(** ** The theorems apply *)

Section Witnesses.
#[local] Existing Instance stored_externals.
#[local] Existing Instance stored_laws.

(** The handler alone, for at most [n] steps. *)
Fixpoint handle_steps (n : nat) (compress : bool) (h : Handler (list Z)) (s : SharedSpool) : Handler (list Z) * SharedSpool :=
  match n with
  | O => (h, s)
  | S n => match handler_step compress h s with
           | Some (h', s') => handle_steps n compress h' s'
           | None => (h, s)
           end
  end.

Lemma handle_steps_reachable n compress inp h b g p hi :
  sys_reachable compress inp (mkSystem h (mkShared (SpoolBuffer b) g) p hi) →
  let '(h', s') := handle_steps n compress h (mkShared (SpoolBuffer b) g) in
  sys_reachable compress inp (mkSystem h' s' p hi).
Proof.
  revert h b. induction n as [|n IH]; intros h b Hr; cbn [handle_steps]; [done|].
  destruct (handler_step compress h (mkShared (SpoolBuffer b) g)) as [[h' s']|] eqn:E; [|done].
  assert (∃ b', s' = mkShared (SpoolBuffer b') g) as [b' ->].
  { destruct (consuming h) as [sq|] eqn:Ec; [|exists b; by eapply handler_step_spool].
    unfold consuming in Ec. unfold handler_step in E. destruct (h_phase h) as [| |? ? ? []|]; try done.
    injection E as <- <-. by eexists. }
  apply IH. eapply sys_next; [exact Hr|]. by apply sys_handle.
Qed.

Definition served_spool : SharedSpool :=
  mkShared (SpoolBuffer (mkBufferSpool 9 (LimitMessages 8) 1 [wire 1; wire 2; wire 3] 44)) 5.

(** A client that asks for the records after 1 and, to drain, acknowledges 2. *)
Definition served_input (drain : bool) : Stream :=
  mkStream (encode_replay_request (mkReplayRequest 1 drain) ++ encode_replay_ack (mkReplayAck 2)) None.

Definition served (drain : bool) (n : nat) : Handler (list Z) * SharedSpool :=
  handle_steps n false (mkHandler (served_input drain) [] Greeting) served_spool.

Lemma served_reachable drain n :
  let '(h, s) := served drain n in sys_reachable false (served_input drain) (mkSystem h s 0 3).
Proof.
  apply handle_steps_reachable, sys_init.
  - repeat constructor.
  - vm_compute. discriminate.
  - vm_compute. by split.
  - simpl. intros r [->|[->|[->|Hr%elem_of_nil]%elem_of_cons]%elem_of_cons]%elem_of_cons; simpl; lia || done.
Qed.



Example drained_run : (src_records (shared_spool (served true 5).2), consuming (served true 4).1) = ([wire 3], Some 2).
Proof. vm_compute. reflexivity. Qed.
End Witnesses.
