(* ===== verification/BridgeState.v ===== *)
(** * The resume state of a bridge

    [logjetd/src/replay.rs]: the state file in which a bridge keeps the identity of
    the stream it follows and the sequence number up to which it has exported, the
    earlier file format with the number alone, and the reconciliation with what the
    upstream says about itself. *)

From S2P Require Import Prelude Format Text Protocol FileSpool.

Record BridgeState : Type := mkBridgeState {
  br_stream_id : option Z;
  br_last_seq : Z;
}.

Definition initial_state : BridgeState := mkBridgeState None 0.

(** One turn of the loop over the lines of the file. *)
Definition parse_state_line (acc : option (option Z) * option Z) (line : list Z)
    : result IoError (option (option Z) * option Z) :=
  let '(stream_id, last_seq) := acc in
  match split_once 61 line with
  | None => Ok acc
  | Some (key, value) =>
      let key := trim_text key in
      if decide (key = str "stream_id") then
        let value := trim_text value in
        if decide (value = str "unset") then Ok (Some None, last_seq) else
        let? id := map_err (λ err, io_error InvalidData
                     ("invalid bridge state stream_id: " +:+ IntErrorKind_fmt err)) (parse_u64 value) in
        Ok (Some (Some id), last_seq)
      else if decide (key = str "last_seq") then
        let? n := map_err (λ err, io_error InvalidData
                    ("invalid bridge state last_seq: " +:+ IntErrorKind_fmt err)) (parse_u64 (trim_text value)) in
        Ok (stream_id, Some n)
      else Ok acc
  end.

Fixpoint parse_state_lines (acc : option (option Z) * option Z) (ls : list (list Z))
    : result IoError (option (option Z) * option Z) :=
  match ls with
  | [] => Ok acc
  | line :: ls => let? acc := parse_state_line acc line in parse_state_lines acc ls
  end.

Definition parse_bridge_state (text : list Z) : result IoError BridgeState :=
  match parse_u64 (trim_text text) with
  | Ok last_seq => Ok (mkBridgeState None last_seq)
  | Err _ =>
      let? (stream_id, last_seq) := parse_state_lines (None, None) (lines text) in
      let? last_seq := ok_or last_seq (io_error InvalidData "invalid bridge state: missing last_seq") in
      Ok (mkBridgeState (default None stream_id) last_seq)
  end.

Definition print_bridge_state (state : BridgeState) : list Z :=
  str "stream_id=" ++ from_option u64_to_string (str "unset") (br_stream_id state) ++ [10] ++
  str "last_seq=" ++ u64_to_string (br_last_seq state) ++ [10].

Definition read_bridge_state (path : option (list Z)) (d : files) : result IoError BridgeState :=
  match path with
  | None => Ok initial_state
  | Some path =>
      match d !! path with
      | None => Ok initial_state
      | Some _ => let? text := read_to_string d path in parse_bridge_state text
      end
  end.

(** Creating the parent directories leaves the files as they are. *)
Definition write_bridge_state (path : option (list Z)) (state : BridgeState) (d : files) : files :=
  match path with
  | None => d
  | Some path => <[path := print_bridge_state state]> d
  end.

Definition reconcile_bridge_state (state : BridgeState) (hello : ReplayHello) : BridgeState :=
  let last_seq :=
    match br_stream_id state with
    | Some saved => if negb (saved =? stream_id hello) then 0 else br_last_seq state
    | None =>
        if (0 <? br_last_seq state) && (0 <? last_seq hello) && (last_seq hello <? br_last_seq state)
        then 0 else br_last_seq state
    end in
  mkBridgeState (Some (stream_id hello)) last_seq.

(** ** Reading back *)

Definition valid_state (state : BridgeState) : Prop :=
  is_u64 (br_last_seq state) ∧ from_option (λ id, is_u64 id) True (br_stream_id state).

(** Bytes that the file consists of. *)
Definition state_byte (b : Z) : Prop := 0 ≤ b ≤ 127 ∧ b ≠ 10.

Lemma digit_state_byte b : digit_byte b → state_byte b.
Proof. unfold digit_byte, state_byte. lia. Qed.

(** A line of the file, whatever its key and its value. *)
Lemma lines_pair k v rest :
  Forall state_byte k → v ≠ [] → Forall state_byte v → list.last v ≠ Some 13 → 61 ∉ k →
  lines (k ++ [61] ++ v ++ [10] ++ rest) = (k ++ [61] ++ v) :: lines rest ∧
  split_once 61 (k ++ [61] ++ v) = Some (k, v).
Proof.
  intros Hk Hne Hv Hl Hn. split; [|by apply split_once_at].
  unfold lines. replace (k ++ [61] ++ v ++ [10] ++ rest) with ((k ++ 61 :: v) ++ 10 :: rest)
    by by rewrite <- app_assoc.
  rewrite split_lines_line.
  - destruct v as [|b v _] using rev_ind; [done|]. rewrite last_snoc in Hl.
    rewrite app_nil_l. replace (k ++ 61 :: v ++ [b]) with ((k ++ 61 :: v) ++ [b]) by by rewrite <- app_assoc.
    rewrite strip_cr_last by congruence. by rewrite <- app_assoc.
  - rewrite list.Forall_forall in Hk, Hv. intros [Hx|[Hx|Hx]%elem_of_cons]%elem_of_app; try done.
    + by apply Hk in Hx as [_ ?].
    + by apply Hv in Hx as [_ ?].
Qed.

Lemma last_digit v : Forall digit_byte v → list.last v ≠ Some 13.
Proof.
  intros Hd E. apply last_Some in E as [v' ->]. apply Forall_app in Hd as [_ Hd].
  apply Forall_inv in Hd. unfold digit_byte in Hd. lia.
Qed.

(** The value of [stream_id]. *)
Definition id_text (o : option Z) : list Z := from_option u64_to_string (str "unset") o.

Lemma id_text_ok o : from_option (λ id, is_u64 id) True o →
  id_text o ≠ [] ∧ Forall state_byte (id_text o) ∧ list.last (id_text o) ≠ Some 13 ∧
  trim_text (id_text o) = id_text o.
Proof.
  destruct o as [id|]; simpl; intros Hid.
  - destruct (u64_to_string_spec id Hid) as (Hne & Hd & _).
    split_and!; [done| |by apply last_digit|by apply trim_text_digits].
    eapply Forall_impl; [|exact Hd]. apply digit_state_byte.
  - split_and!; try (vm_compute; discriminate); [|vm_compute; reflexivity].
    repeat constructor; vm_compute; discriminate.
Qed.

Lemma print_lines state :
  valid_state state →
  let l1 := str "stream_id" ++ [61] ++ id_text (br_stream_id state) in
  let l2 := str "last_seq" ++ [61] ++ u64_to_string (br_last_seq state) in
  lines (print_bridge_state state) = [l1; l2] ∧
  split_once 61 l1 = Some (str "stream_id", id_text (br_stream_id state)) ∧
  split_once 61 l2 = Some (str "last_seq", u64_to_string (br_last_seq state)).
Proof.
  intros [Hs Hid]. cbn zeta. destruct (id_text_ok _ Hid) as (Hne1 & Hb1 & Hl1 & _).
  destruct (u64_to_string_spec _ Hs) as (Hne2 & Hd2 & _).
  destruct (lines_pair (str "last_seq") (u64_to_string (br_last_seq state)) []) as [E2 S2]; try done.
  { repeat constructor; vm_compute; discriminate. }
  { eapply Forall_impl; [|exact Hd2]. apply digit_state_byte. }
  { by apply last_digit. }
  { apply (bool_decide_unpack _). vm_compute. exact I. }
  destruct (lines_pair (str "stream_id") (id_text (br_stream_id state))
    (str "last_seq" ++ [61] ++ u64_to_string (br_last_seq state) ++ [10] ++ [])) as [E1 S1]; try done.
  { repeat constructor; vm_compute; discriminate. }
  { apply (bool_decide_unpack _). vm_compute. exact I. }
  split_and!; try done. rewrite E2 in E1. exact E1.
Qed.

Lemma id_text_parses o : from_option (λ id, is_u64 id) True o →
  (if decide (id_text o = str "unset") then Ok None
   else let? id := parse_u64 (id_text o) in Ok (Some id)) = Ok (E:=IntErrorKind) o.
Proof.
  destruct o as [id|]; simpl; intros Hid; [|done]. rewrite decide_False.
  - by rewrite parse_u64_to_string.
  - destruct (u64_to_string_spec id Hid) as (_ & Hd & _). intros E. rewrite E in Hd.
    apply Forall_inv in Hd. by apply (proj2 Hd).
Qed.

Lemma parse_print_state state : valid_state state → parse_bridge_state (print_bridge_state state) = Ok state.
Proof.
  intros Hv. destruct (print_lines state Hv) as (El & S1 & S2). destruct Hv as [Hs Hid].
  unfold parse_bridge_state.
  assert (∃ e, parse_u64 (trim_text (print_bridge_state state)) = Err e) as [e ->].
  { destruct (trim_text_head 115 (drop 1 (print_bridge_state state))) as [E|[s' E]].
    - repeat constructor; vm_compute; discriminate.
    - change (115 :: drop 1 (print_bridge_state state)) with (print_bridge_state state) in E. rewrite E. by eexists.
    - change (115 :: drop 1 (print_bridge_state state)) with (print_bridge_state state) in E. rewrite E.
      exists InvalidDigit. by destruct s'. }
  rewrite El. cbn [parse_state_lines]. unfold parse_state_line at 1. rewrite S1.
  change (trim_text (str "stream_id")) with (str "stream_id"). rewrite decide_True by done.
  destruct (id_text_ok _ Hid) as (_ & _ & _ & ->). pose proof (id_text_parses _ Hid) as Hp.
  assert (∀ acc, parse_state_line acc (str "last_seq" ++ [61] ++ u64_to_string (br_last_seq state)) =
    Ok (acc.1, Some (br_last_seq state))) as E2.
  { intros [i l]. unfold parse_state_line. rewrite S2.
    change (trim_text (str "last_seq")) with (str "last_seq"). rewrite decide_False by done.
    rewrite decide_True by done. destruct (u64_to_string_spec _ Hs) as (_ & Hd & _).
    by rewrite trim_text_digits, parse_u64_to_string. }
  destruct state as [o n]. simpl br_stream_id in *. simpl br_last_seq in *.
  case_decide as Hu.
  - injection Hp as <-. rewrite E2. done.
  - destruct (parse_u64 (id_text o)) as [id|]; [|done]. cbn [map_err]. injection Hp as <-. rewrite E2. done.
Qed.

Lemma print_utf8 state : valid_state state → utf8_valid (print_bridge_state state) = true.
Proof.
  intros [Hs Hid]. apply utf8_valid_ascii. unfold print_bridge_state. fold (id_text (br_stream_id state)).
  destruct (id_text_ok _ Hid) as (_ & Hb1 & _ & _). destruct (u64_to_string_spec _ Hs) as (_ & Hd2 & _).
  rewrite !Forall_app. split_and!.
  - repeat constructor; vm_compute; discriminate.
  - eapply Forall_impl; [|exact Hb1]. by intros b [? _].
  - by repeat constructor.
  - repeat constructor; vm_compute; discriminate.
  - eapply Forall_impl; [|exact Hd2]. unfold digit_byte. lia.
  - by repeat constructor.
Qed.

(** The state file of a bridge.  What a bridge writes to its state file is what
    it reads from it after a restart; without a state file it starts afresh. *)
Theorem bridge_state_survives_restart path state d :
  valid_state state →
  read_bridge_state (Some path) (write_bridge_state (Some path) state d) = Ok state ∧
  read_bridge_state None (write_bridge_state None state d) = Ok initial_state ∧
  (d !! path = None → read_bridge_state (Some path) d = Ok initial_state).
Proof.
  intros Hv. split_and!; [|done|by intros E; simpl; rewrite E].
  unfold read_bridge_state, write_bridge_state. rewrite lookup_insert_eq.
  unfold read_to_string, read_file. rewrite lookup_insert_eq. simpl.
  rewrite print_utf8 by done. by apply parse_print_state.
Qed.

Lemma bridge_state_survives_restart_witness :
  let path := str "bridge.state" in
  let state := mkBridgeState (Some 77) 12345 in
  read_bridge_state (Some path) (write_bridge_state (Some path) state ∅) = Ok state ∧
  read_bridge_state None (write_bridge_state None state ∅) = Ok initial_state ∧
  ((∅ : files) !! path = None → read_bridge_state (Some path) ∅ = Ok initial_state).
Proof.
  apply (bridge_state_survives_restart (str "bridge.state") (mkBridgeState (Some 77) 12345) ∅).
  split; split; vm_compute; discriminate.
Defined.

(** The earlier format. *)
Example parse_number_alone : parse_bridge_state (str " 42 ") = Ok (mkBridgeState None 42).
Proof. vm_compute. reflexivity. Qed.
