(* ===== verification/Otlp.v ===== *)
(** * OTLP requests

    The export requests of the [opentelemetry_proto] crate, as far as the daemon
    looks into them: their nesting, the timestamps and severities it reads and the
    resources and scopes it compares.  The messages below them, and the [prost]
    codec, are parameters. *)

From S2P Require Import Prelude Format.

Class Otlp : Type := {
  Resource : Type;
  Scope : Type;
  LogRecord : Type;
  Span : Type;
  #[global] Resource_eq_dec :: EqDecision Resource;
  #[global] Scope_eq_dec :: EqDecision Scope;
  log_time_unix_nano : LogRecord → Z;
  log_observed_time_unix_nano : LogRecord → Z;
  log_severity_number : LogRecord → Z;
  span_start_time_unix_nano : Span → Z;
}.

Section Messages.
Context {OT : Otlp}.

Record ScopeLogs : Type := mkScopeLogs {
  sl_scope : option Scope;
  log_records : list LogRecord;
  sl_schema_url : list Z;
}.
Record ResourceLogs : Type := mkResourceLogs {
  rl_resource : option Resource;
  scope_logs : list ScopeLogs;
  rl_schema_url : list Z;
}.
Record ExportLogsServiceRequest : Type := mkLogsRequest { resource_logs : list ResourceLogs }.

(** The timestamps of the data points of a metric. *)
Inductive MetricData : Type :=
| Gauge (data_points : list Z)
| Sum (data_points : list Z)
| Histogram (data_points : list Z)
| ExponentialHistogram (data_points : list Z)
| Summary (data_points : list Z).
Record Metric : Type := mkMetric { metric_data : option MetricData }.
Record ScopeMetrics : Type := mkScopeMetrics { metrics : list Metric }.
Record ResourceMetrics : Type := mkResourceMetrics { scope_metrics : list ScopeMetrics }.
Record ExportMetricsServiceRequest : Type := mkMetricsRequest { resource_metrics : list ResourceMetrics }.

Record ScopeSpans : Type := mkScopeSpans { spans : list Span }.
Record ResourceSpans : Type := mkResourceSpans { scope_spans : list ScopeSpans }.
Record ExportTraceServiceRequest : Type := mkTraceRequest { resource_spans : list ResourceSpans }.

(** All log records of a request, with the group they are in. *)
Definition flatten_scope (r : option Resource) (sl : ScopeLogs) : list (option Resource * option Scope * LogRecord) :=
  (λ l, (r, sl_scope sl, l)) <$> log_records sl.
Definition flatten_resource (rl : ResourceLogs) : list (option Resource * option Scope * LogRecord) :=
  concat (flatten_scope (rl_resource rl) <$> scope_logs rl).
Definition flatten (rls : list ResourceLogs) : list (option Resource * option Scope * LogRecord) :=
  concat (flatten_resource <$> rls).
End Messages.

(** The [prost] codec of log requests. *)
Class LogsCodec `{Otlp} : Type := {
  decode_logs : list Z → result string ExportLogsServiceRequest;
  encode_logs : ExportLogsServiceRequest → list Z;
}.

Class LogsCodecLaws `{LogsCodec} : Prop := decode_encode_logs : ∀ req, decode_logs (encode_logs req) = Ok req.

(** ** A concrete instance

    Numbers for the opaque messages, and the codec of stdpp's countable types. *)

Definition sample_otlp : Otlp := {|
  Resource := Z;
  Scope := Z;
  LogRecord := Z * Z * Z;
  Span := Z;
  log_time_unix_nano l := l.1.1;
  log_observed_time_unix_nano l := l.1.2;
  log_severity_number l := l.2;
  span_start_time_unix_nano s := s;
|}.

Section Sample.
#[local] Existing Instance sample_otlp.

Definition of_scope (sl : ScopeLogs) : option Z * list (Z * Z * Z) * list Z :=
  (sl_scope sl, log_records sl, sl_schema_url sl).
Definition to_scope (x : option Z * list (Z * Z * Z) * list Z) : ScopeLogs := mkScopeLogs x.1.1 x.1.2 x.2.
Definition of_request (req : ExportLogsServiceRequest)
    : list (option Z * list (option Z * list (Z * Z * Z) * list Z) * list Z) :=
  (λ rl, (rl_resource rl, of_scope <$> scope_logs rl, rl_schema_url rl)) <$> resource_logs req.
Definition to_request (x : list (option Z * list (option Z * list (Z * Z * Z) * list Z) * list Z))
    : ExportLogsServiceRequest :=
  mkLogsRequest ((λ y, mkResourceLogs y.1.1 (to_scope <$> y.1.2) y.2) <$> x).

Lemma to_of_request req : to_request (of_request req) = req.
Proof.
  destruct req as [rls]. unfold to_request, of_request. simpl. f_equal. rewrite <- list_fmap_compose.
  rewrite <- (list_fmap_id rls) at 2. apply list_fmap_ext. intros i [r sls u] _. simpl. f_equal.
  rewrite <- list_fmap_compose. rewrite <- (list_fmap_id sls) at 2. apply list_fmap_ext. by intros j [].
Qed.

(** The number that stands for a request, in as many bytes as it needs. *)
Definition number_bytes (z : Z) : list Z := to_le (Z.to_nat (Z.log2 z / 8 + 1)) z.

Lemma from_le_number_bytes z : 0 < z → from_le (number_bytes z) = z.
Proof.
  intros Hz. unfold number_bytes. apply from_le_to_le. split; [lia|].
  pose proof (Z.log2_spec z Hz) as [_ Hlt]. pose proof (Z.log2_nonneg z).
  eapply Z.lt_le_trans; [exact Hlt|]. change 256 with (2 ^ 8).
  rewrite <- Z.pow_mul_r by lia. apply Z.pow_le_mono_r; [lia|].
  rewrite Z2Nat.id by (pose proof (Z.div_pos (Z.log2 z) 8); lia).
  pose proof (Z.mul_succ_div_gt (Z.log2 z) 8). lia.
Qed.

Definition sample_codec : LogsCodec := {|
  encode_logs req := number_bytes (Z.pos (encode (of_request req)));
  decode_logs bs :=
    match from_le bs with
    | Z.pos p => match decode p with Some x => Ok (to_request x) | None => Err "invalid request" end
    | _ => Err "invalid request"
    end;
|}.

Lemma sample_codec_laws : @LogsCodecLaws _ sample_codec.
Proof.
  intros req. cbn [encode_logs decode_logs sample_codec]. rewrite from_le_number_bytes by done.
  by rewrite decode_encode, to_of_request.
Qed.
End Sample.
