(* ===== verification/Batcher.v ===== *)
(** * Batching log exports

    [logjetd/src/replay.rs], [OtlpBatcher]: log payloads are decoded and merged by
    resource and scope, and the merged request is posted when it has reached the
    batch size, when it has waited for the batch timeout, or when it is flushed. *)

From S2P Require Import Prelude Format Otlp.

(** What a batcher and a bridge need of a collector connection. *)
Class Collector (C : Type) : Type := collector_post : RecordType → list Z → M C IoError unit.

Section Batcher.
Context {OT : Otlp} {LC : LogsCodec}.

Record OtlpBatcher : Type := mkBatcher {
  batch_size : Z;
  batch_timeout : Z;
  pending : list ResourceLogs;
  pending_count : Z;
  first_added : option Z;
}.

Definition OtlpBatcher_new (size timeout_ms : Z) : OtlpBatcher := mkBatcher size timeout_ms [] 0 None.

(** ** Merging *)

(** [rl.scope_logs.iter_mut().find(..)]: the records join the first group of
    their scope, or the group is appended. *)
Fixpoint merge_scope (incoming : ScopeLogs) (sls : list ScopeLogs) : list ScopeLogs :=
  match sls with
  | [] => [incoming]
  | sl :: sls =>
      if decide (sl_scope sl = sl_scope incoming)
      then mkScopeLogs (sl_scope sl) (log_records sl ++ log_records incoming) (sl_schema_url sl) :: sls
      else sl :: merge_scope incoming sls
  end.

Definition merge_scopes (incoming : list ScopeLogs) (sls : list ScopeLogs) : list ScopeLogs :=
  foldl (λ sls sl, merge_scope sl sls) sls incoming.

Fixpoint merge_resource (incoming : ResourceLogs) (rls : list ResourceLogs) : list ResourceLogs :=
  match rls with
  | [] => [incoming]
  | rl :: rls =>
      if decide (rl_resource rl = rl_resource incoming)
      then mkResourceLogs (rl_resource rl) (merge_scopes (scope_logs incoming) (scope_logs rl)) (rl_schema_url rl) :: rls
      else rl :: merge_resource incoming rls
  end.

(** The records of a group, which every branch adds to the count. *)
Definition count_records (rl : ResourceLogs) : Z :=
  foldl (λ n sl, n + len (log_records sl)) 0 (scope_logs rl).

(** [now] is [Instant::now()] in milliseconds. *)
Definition merge (req : ExportLogsServiceRequest) (now : Z) (b : OtlpBatcher) : OtlpBatcher :=
  mkBatcher (batch_size b) (batch_timeout b)
    (foldl (λ rls rl, merge_resource rl rls) (pending b) (resource_logs req))
    (foldl (λ n rl, n + count_records rl) (pending_count b) (resource_logs req))
    (match first_added b with None => Some now | Some t => Some t end).

(** ** Posting *)

Context {C : Type} {CC : Collector C}.

(** The batcher and the connection. *)
Local Abbreviation BM := (M (OtlpBatcher * C) IoError).

(** [conn.post_for(record_type, payload)] *)
Definition post (t : RecordType) (payload : list Z) : BM unit :=
  λ '(b, c), let '(r, c') := collector_post t payload c in (r, (b, c')).

Definition batcher_flush : BM unit :=
  let! b := gets fst in
  if pending_count b =? 0 then ret tt else
  modify (λ '(b, c), (mkBatcher (batch_size b) (batch_timeout b) [] 0 None, c)) ;;!
  post Logs (encode_logs (mkLogsRequest (pending b))).

Definition batcher_add (payload : list Z) (now : Z) : BM unit :=
  let! b := gets fst in
  if batch_size b <=? 1 then post Logs payload else
  match decode_logs payload with
  | Err _ => post Logs payload
  | Ok req =>
      modify (λ '(b, c), (merge req now b, c)) ;;!
      let! b := gets fst in
      if batch_size b <=? pending_count b then batcher_flush else ret tt
  end.

Definition flush_if_expired (now : Z) : BM unit :=
  let! b := gets fst in
  match first_added b with
  | Some t =>
      if (0 <? pending_count b) && (0 <? batch_timeout b) && (batch_timeout b <=? now - t)
      then batcher_flush else ret tt
  | None => ret tt
  end.
End Batcher.
Arguments OtlpBatcher {OT}.

(** ** Nothing is lost *)

(** A connection that also keeps what its collector has accepted. *)
Definition recorded (C : Type) : Type := C * list (RecordType * list Z).

#[export] Instance recorded_Collector {C} `{Collector C} : Collector (recorded C) :=
  λ t payload '(c, log),
    let '(r, c') := collector_post t payload c in
    (r, (c', match r with Ok _ => log ++ [(t, payload)] | Err _ => log end)).

(** The collector accepts everything. *)
Definition accepting (C : Type) `{Collector C} : Prop :=
  ∀ t payload c, ∃ c', collector_post t payload c = (Ok tt, c').

Section Facts.
Context {OT : Otlp} {LC : LogsCodec} {LL : LogsCodecLaws}.

Local Abbreviation flat_record := (option Resource * option Scope * LogRecord)%type.

(** What a payload carries: log records, or bytes that no request is. *)
Definition contents (payload : list Z) : list (flat_record + list Z) :=
  match decode_logs payload with
  | Ok req => inl <$> flatten (resource_logs req)
  | Err _ => [inr payload]
  end.

Lemma flatten_app a b : flatten (a ++ b) = flatten a ++ flatten b.
Proof. unfold flatten. by rewrite fmap_app, concat_app. Qed.

Lemma merge_scope_flatten r incoming sls :
  concat (flatten_scope r <$> merge_scope incoming sls) ≡ₚ
    concat (flatten_scope r <$> sls) ++ flatten_scope r incoming.
Proof.
  induction sls as [|sl sls IH]; cbn [merge_scope]; [simpl; by rewrite app_nil_r|].
  case_decide as E; rewrite !fmap_cons; cbn [concat].
  - unfold flatten_scope at 1. cbn [log_records sl_scope]. rewrite fmap_app, E.
    fold (flatten_scope r incoming). unfold flatten_scope at 3. rewrite E.
    rewrite <- !app_assoc. f_equiv. apply Permutation_app_comm.
  - by rewrite IH, app_assoc.
Qed.

Lemma merge_scopes_flatten r incoming sls :
  concat (flatten_scope r <$> merge_scopes incoming sls) ≡ₚ
    concat (flatten_scope r <$> sls) ++ concat (flatten_scope r <$> incoming).
Proof.
  unfold merge_scopes. revert sls. induction incoming as [|sl incoming IH]; intros sls; cbn [foldl].
  { by rewrite app_nil_r. }
  rewrite IH, merge_scope_flatten, fmap_cons. cbn [concat]. by rewrite app_assoc.
Qed.

Lemma merge_resource_flatten incoming rls :
  flatten (merge_resource incoming rls) ≡ₚ flatten rls ++ flatten_resource incoming.
Proof.
  induction rls as [|rl rls IH]; cbn [merge_resource].
  { unfold flatten. simpl. by rewrite app_nil_r. }
  case_decide as E.
  - assert (∀ x, flatten (x :: rls) = flatten_resource x ++ flatten rls) as Hc by done. rewrite !Hc.
    unfold flatten_resource at 1. cbn [rl_resource scope_logs]. rewrite merge_scopes_flatten.
    unfold flatten_resource. rewrite E, <- !app_assoc. f_equiv. apply Permutation_app_comm.
  - change (flatten (rl :: merge_resource incoming rls)) with
      (flatten_resource rl ++ flatten (merge_resource incoming rls)).
    change (flatten (rl :: rls)) with (flatten_resource rl ++ flatten rls). by rewrite IH, app_assoc.
Qed.

Lemma merge_flatten req now b :
  flatten (pending (merge req now b)) ≡ₚ flatten (pending b) ++ flatten (resource_logs req).
Proof.
  unfold merge. cbn [pending]. generalize (pending b). induction (resource_logs req) as [|rl rls IH]; intros p; cbn [foldl].
  { unfold flatten at 3. simpl. by rewrite app_nil_r. }
  rewrite IH, merge_resource_flatten. change (flatten (rl :: rls)) with (flatten_resource rl ++ flatten rls).
  by rewrite app_assoc.
Qed.

(** The counter of the batcher counts its records. *)
Definition counted (b : OtlpBatcher) : Prop := pending_count b = len (flatten (pending b)).

Lemma len_flatten_scope r sl : len (flatten_scope r sl) = len (log_records sl).
Proof. unfold len, flatten_scope. by rewrite length_fmap. Qed.

Lemma count_records_eq rl : count_records rl = len (flatten_resource rl).
Proof.
  unfold count_records, flatten_resource. rewrite <- (Z.add_0_l (len _)). generalize 0.
  induction (scope_logs rl) as [|sl sls IH]; intros n; [by rewrite Z.add_0_r|].
  rewrite fmap_cons. cbn [foldl concat]. rewrite IH, len_app, len_flatten_scope. lia.
Qed.

Lemma merge_counted req now b : counted b → counted (merge req now b).
Proof.
  unfold counted. intros Hb.
  assert (len (flatten (pending (merge req now b))) = len (flatten (pending b)) + len (flatten (resource_logs req))) as ->.
  { rewrite <- len_app. unfold len. by rewrite (merge_flatten req now b). }
  unfold merge. cbn [pending_count]. rewrite <- Hb. generalize (pending_count b).
  induction (resource_logs req) as [|rl rls IH]; intros n; cbn [foldl].
  { change (len (flatten [])) with 0. lia. }
  rewrite IH, count_records_eq. change (flatten (rl :: rls)) with (flatten_resource rl ++ flatten rls).
  rewrite len_app. lia.
Qed.

(** What a batcher still has and what has been accepted, together. *)
Definition held (b : OtlpBatcher) : list (flat_record + list Z) := inl <$> flatten (pending b).
Definition accepted (log : list (RecordType * list Z)) : list (flat_record + list Z) :=
  concat ((λ x, contents x.2) <$> log).

Lemma accepted_snoc log t payload : accepted (log ++ [(t, payload)]) = accepted log ++ contents payload.
Proof. unfold accepted. rewrite fmap_app, concat_app. simpl. by rewrite app_nil_r. Qed.

Context {C : Type} {CC : Collector C}.

Lemma post_accepting t payload b (c : recorded C) :
  accepting C → ∃ c', post t payload (b, c) = (Ok tt, (b, c')) ∧ c'.2 = c.2 ++ [(t, payload)].
Proof.
  intros Ha. destruct c as [c log]. unfold post, collector_post, recorded_Collector.
  destruct (Ha t payload c) as [c' ->]. by eexists.
Qed.

(** A batch that is flushed has been accepted and the batcher is empty. *)
Lemma batcher_flush_accepting b (c : recorded C) :
  accepting C → counted b →
  ∃ b' c', batcher_flush (b, c) = (Ok tt, (b', c')) ∧ counted b' ∧ held b' = [] ∧
    accepted c'.2 = accepted c.2 ++ held b.
Proof.
  intros Ha Hc. unfold batcher_flush, bind at 1, gets. cbn [fst].
  destruct (Z.eqb_spec (pending_count b) 0) as [E|E].
  { exists b, c. rewrite Hc in E. apply len_zero in E. unfold held. rewrite E, fmap_nil, app_nil_r. by split_and!. }
  unfold bind, modify.
  destruct (post_accepting Logs (encode_logs (mkLogsRequest (pending b)))
    (mkBatcher (batch_size b) (batch_timeout b) [] 0 None) c Ha) as (c' & -> & Hl).
  exists (mkBatcher (batch_size b) (batch_timeout b) [] 0 None), c'. split_and!; try done.
  rewrite Hl, accepted_snoc. unfold contents. by rewrite decode_encode_logs.
Qed.

Lemma batcher_add_accepting payload now b (c : recorded C) :
  accepting C → counted b →
  ∃ b' c', batcher_add payload now (b, c) = (Ok tt, (b', c')) ∧ counted b' ∧
    accepted c'.2 ++ held b' ≡ₚ accepted c.2 ++ held b ++ contents payload.
Proof.
  intros Ha Hc. unfold batcher_add, bind at 1, gets. cbn [fst].
  assert (∃ b' c', post Logs payload (b, c) = (Ok tt, (b', c')) ∧ counted b' ∧
    accepted c'.2 ++ held b' ≡ₚ accepted c.2 ++ held b ++ contents payload) as Hp.
  { destruct (post_accepting Logs payload b c Ha) as (c' & Hr & Hl). exists b, c'. split_and!; try done.
    rewrite Hl, accepted_snoc, <- app_assoc. f_equiv. apply Permutation_app_comm. }
  destruct (batch_size b <=? 1); [done|]. destruct (decode_logs payload) as [req|e] eqn:Hd; [|done].
  unfold bind at 1, modify, bind at 1. cbn [fst].
  pose proof (merge_counted req now b Hc) as Hm.
  assert (held (merge req now b) ≡ₚ held b ++ contents payload) as Hh.
  { unfold held, contents. by rewrite Hd, merge_flatten, fmap_app. }
  destruct (batch_size (merge req now b) <=? pending_count (merge req now b)).
  - destruct (batcher_flush_accepting (merge req now b) c Ha Hm) as (b' & c' & -> & Hc' & Hb' & Hl).
    exists b', c'. split_and!; try done. by rewrite Hb', app_nil_r, Hl, Hh.
  - exists (merge req now b), c. split_and!; try done. by rewrite Hh.
Qed.

(** A run of a batcher: payloads at certain times, with expiry checks between. *)
Inductive batch_event : Type :=
| BatchAdd (payload : list Z) (now : Z)
| BatchTick (now : Z).

Definition batch_step (e : batch_event) : M (OtlpBatcher * recorded C) IoError unit :=
  match e with BatchAdd payload now => batcher_add payload now | BatchTick now => flush_if_expired now end.

Fixpoint batch_run (es : list batch_event) : M (OtlpBatcher * recorded C) IoError unit :=
  match es with
  | [] => batcher_flush
  | e :: es => batch_step e ;;! batch_run es
  end.

(** The contents that were added. *)
Definition added (es : list batch_event) : list (flat_record + list Z) :=
  concat ((λ e, match e with BatchAdd payload _ => contents payload | BatchTick _ => [] end) <$> es).

Lemma batch_step_accepting e b (c : recorded C) :
  accepting C → counted b →
  ∃ b' c', batch_step e (b, c) = (Ok tt, (b', c')) ∧ counted b' ∧
    accepted c'.2 ++ held b' ≡ₚ accepted c.2 ++ held b ++ added [e].
Proof.
  intros Ha Hc. unfold added. destruct e as [payload now|now]; simpl; rewrite app_nil_r.
  { by apply batcher_add_accepting. }
  unfold flush_if_expired, bind at 1, gets. cbn [fst]. destruct (first_added b) as [t|]; [|by exists b, c].
  destruct (_ && _); [|by exists b, c].
  destruct (batcher_flush_accepting b c Ha Hc) as (b' & c' & -> & Hc' & Hb' & Hl).
  exists b', c'. split_and!; try done. by rewrite Hb', app_nil_r, Hl.
Qed.

Lemma batch_run_accepting es b (c : recorded C) :
  accepting C → counted b →
  ∃ b' c', batch_run es (b, c) = (Ok tt, (b', c')) ∧ held b' = [] ∧
    accepted c'.2 ≡ₚ accepted c.2 ++ held b ++ added es.
Proof.
  intros Ha. revert b c. induction es as [|e es IH]; intros b c Hc; cbn [batch_run].
  { destruct (batcher_flush_accepting b c Ha Hc) as (b' & c' & -> & _ & Hb' & Hl).
    exists b', c'. split_and!; try done. unfold added. simpl. by rewrite app_nil_r, Hl. }
  destruct (batch_step_accepting e b c Ha Hc) as (b1 & c1 & H1 & Hc1 & Hp1).
  destruct (IH b1 c1 Hc1) as (b2 & c2 & H2 & Hb2 & Hp2). exists b2, c2. unfold bind. rewrite H1, H2.
  split_and!; try done. rewrite Hp2, app_assoc, Hp1, <- !app_assoc.
  unfold added. by rewrite fmap_cons; cbn [concat fmap list_fmap]; rewrite app_nil_r.
Qed.

(** Batching loses nothing.  With a collector that accepts what it is sent,
    whatever payloads are added, whatever batch size and timeout are set and
    whenever batches expire, after the final flush the collector has accepted
    exactly the log records of the payloads, each as often as it was added and
    with its resource and scope, and the payloads that are no log requests. *)
Theorem batching_delivers_everything size timeout_ms es (c : C) :
  accepting C →
  ∃ b' c', batch_run es (OtlpBatcher_new size timeout_ms, (c, [])) = (Ok tt, (b', c')) ∧
    flatten (pending b') = [] ∧ accepted c'.2 ≡ₚ added es.
Proof.
  intros Ha. destruct (batch_run_accepting es (OtlpBatcher_new size timeout_ms) (c, []) Ha eq_refl)
    as (b' & c' & Hr & Hb & Hp). exists b', c'. split_and!; try done.
  unfold held in Hb. by apply fmap_nil_inv in Hb.
Qed.
End Facts.

Section Witness.
#[local] Existing Instance sample_otlp.
#[local] Existing Instance sample_codec.
#[local] Existing Instance sample_codec_laws.

(** A collector that counts its requests. *)
Definition counting_collector : Collector Z := λ _ _ n, (Ok tt, n + 1).
#[local] Existing Instance counting_collector.

Definition sample_request (records : list Z) : list Z :=
  encode_logs (mkLogsRequest [mkResourceLogs (Some 1) [mkScopeLogs None ((λ n, (n, 0, 9)) <$> records) []] []]).
Definition sample_events : list batch_event :=
  [BatchAdd (sample_request [10; 11]) 0; BatchAdd [5] 1; BatchTick 2; BatchAdd (sample_request [12]) 3;
   BatchAdd (sample_request [13]) 4].

Lemma batching_delivers_everything_witness :
  ∃ b' c', batch_run sample_events (OtlpBatcher_new 3 1000, (0, [])) = (Ok tt, (b', c')) ∧
    flatten (pending b') = [] ∧ accepted c'.2 ≡ₚ added sample_events.
Proof.
  apply (batching_delivers_everything 3 1000 sample_events 0).
  intros t payload c. by eexists.
Defined.

(** Three requests reach the collector: the bytes that are no request, the full
    batch, and the rest. *)
Example sample_batches : (batch_run sample_events (OtlpBatcher_new 3 1000, (0, []))).2.2.1 = 3.
Proof. vm_compute. reflexivity. Qed.
End Witness.
