(* ===== verification/Collector.v ===== *)
(** * Collector connections

    [logjetd/src/replay.rs]: the endpoints of the collectors, the HTTP/1.1 client
    with its response reader, the connection that reconnects once, and the fan-out
    to several collectors.  Sockets, and the gRPC client of the [tonic] crate, are
    parameters. *)

From S2P Require Import Prelude Format Text Protocol Otlp Batcher.

(** ** Endpoints *)

Record CollectorEndpoint : Type := mkEndpoint {
  ep_authority : list Z;
  ep_path : list Z;
  ep_tls : bool;
  ep_grpc : bool;
}.

Definition default_path : list Z := Eval vm_compute in str "/v1/logs".

(** [input.find('/')] *)
Fixpoint split_authority_and_path (input : list Z) : list Z * list Z :=
  match input with
  | [] => ([], default_path)
  | b :: rest =>
      if b =? 47 then ([], input) else
      let '(authority, path) := split_authority_and_path rest in (b :: authority, path)
  end.

Definition normalise_path (path : list Z) : list Z :=
  match path with
  | [] => default_path
  | b :: _ => if b =? 47 then path else 47 :: path
  end.

Definition missing_host : IoError := io_error InvalidInput "collector.url missing host:port".

(** The branches of [parse] for [grpc://] and [grpcs://], and for [http://] and
    [https://]. *)
Definition grpc_endpoint (authority : list Z) (tls : bool) : result IoError CollectorEndpoint :=
  if decide (authority = []) then Err missing_host else Ok (mkEndpoint authority [] tls true).
Definition http_endpoint (rest : list Z) (tls : bool) : result IoError CollectorEndpoint :=
  let '(authority, path) := split_authority_and_path rest in
  if decide (authority = []) then Err missing_host else Ok (mkEndpoint authority (normalise_path path) tls false).

Definition CollectorEndpoint_parse (input : list Z) : result IoError CollectorEndpoint :=
  match strip_prefix input (str "grpc://") with
  | Some authority => grpc_endpoint authority false
  | None =>
  match strip_prefix input (str "grpcs://") with
  | Some authority => grpc_endpoint authority true
  | None =>
  match strip_prefix input (str "http://") with
  | Some rest => http_endpoint rest false
  | None =>
  match strip_prefix input (str "https://") with
  | Some rest => http_endpoint rest true
  | None => Ok (mkEndpoint input default_path false false)
  end end end end.

Fixpoint parse_collector_endpoints (urls : list (list Z)) : result IoError (list CollectorEndpoint) :=
  match urls with
  | [] => Ok []
  | url :: urls =>
      let? endpoint := CollectorEndpoint_parse url in
      let? endpoints := parse_collector_endpoints urls in
      Ok (endpoint :: endpoints)
  end.

Definition signal_path_for_endpoint (base_path : list Z) (t : RecordType) : list Z :=
  if decide (base_path = default_path ∨ base_path = []) then
    match t with
    | Logs => str "/v1/logs"
    | Metrics => str "/v1/metrics"
    | Traces => str "/v1/traces"
    | Events => str "/v1/logs"
    end
  else base_path.

(** ** Sockets *)

(** [io::Read + io::Write]: [read] returns some bytes, none at the end. *)
Class ReadWrite (S : Type) : Type := {
  rw_read : nat → M S IoError (list Z);
  rw_write_all : list Z → M S IoError unit;
}.

(** [connect_with_timeout], with the TLS session if the endpoint asks for one. *)
Class Network (N S : Type) : Type := net_connect : CollectorEndpoint → M N IoError S.

Section Http.
Context {S : Type} {RW : ReadWrite S}.

(** ** The response *)

Definition header_end : list Z := [13; 10; 13; 10].
Definition MAX_RESPONSE_HEADERS : Z := 16384.

(** Reads until the blank line; the limit on the headers bounds the loop. *)
Fixpoint read_headers (fuel : nat) (hdr : list Z) : M S IoError (list Z) :=
  match fuel with
  | O => throw (io_error OtherKind "unreachable: header loop")
  | Datatypes.S fuel =>
      let! b := rw_read 1 in
      match b with
      | [] => throw (io_error UnexpectedEof "collector closed connection before response headers")
      | b :: _ =>
          let hdr := hdr ++ [b] in
          if (4 <=? len hdr) && bool_decide (drop (length hdr - 4) hdr = header_end) then ret hdr else
          if MAX_RESPONSE_HEADERS <? len hdr
          then throw (io_error OtherKind "collector response headers exceed 16 KiB")
          else read_headers fuel hdr
      end
  end.

Fixpoint content_length_in (ls : list (list Z)) : Z :=
  match ls with
  | [] => 0
  | line :: ls =>
      match match strip_prefix line (str "Content-Length:") with
            | Some v => Some v
            | None => strip_prefix line (str "content-length:")
            end with
      | Some v => match parse_u64 (trim_text v) with Ok n => n | Err _ => content_length_in ls end
      | None => content_length_in ls
      end
  end.

Definition parse_content_length (headers : list Z) : Z := content_length_in (lines headers).

(** Discards the body in chunks; every read takes at least a byte of it. *)
Fixpoint discard_body (fuel : nat) (remaining : Z) : M S IoError unit :=
  match fuel with
  | O => throw (io_error OtherKind "unreachable: body loop")
  | Datatypes.S fuel =>
      if remaining <=? 0 then ret tt else
      let! chunk := rw_read (Z.to_nat (Z.min 4096 remaining)) in
      match chunk with
      | [] => throw (io_error UnexpectedEof "collector closed connection during response body")
      | _ => discard_body fuel (remaining - len chunk)
      end
  end.

Definition status_ok (status_line : list Z) : bool :=
  starts_with status_line (str "HTTP/1.1 200") || starts_with status_line (str "HTTP/1.0 200").

Definition text_string (s : list Z) : string :=
  String.string_of_list_ascii ((λ b, Ascii.ascii_of_N (Z.to_N b)) <$> s).

Definition read_http_response : M S IoError unit :=
  let! hdr := read_headers (Z.to_nat (MAX_RESPONSE_HEADERS + 1)) [] in
  let hdr_str := from_utf8_lossy hdr in
  let status_line := default [] (list.head (lines hdr_str)) in
  if negb (status_ok status_line)
  then throw (io_error OtherKind ("collector returned non-200 response: " +:+ text_string status_line)) else
  let content_len := parse_content_length hdr_str in
  discard_body (Datatypes.S (Z.to_nat content_len)) content_len.

(** ** The connection *)

Definition CRLF : list Z := [13; 10].

Definition request_head (endpoint : CollectorEndpoint) (t : RecordType) (payload : list Z) : list Z :=
  str "POST " ++ signal_path_for_endpoint (ep_path endpoint) t ++ str " HTTP/1.1" ++ CRLF ++
  str "Host: " ++ ep_authority endpoint ++ CRLF ++
  str "Content-Type: application/x-protobuf" ++ CRLF ++
  str "Content-Length: " ++ u64_to_string (len payload) ++ CRLF ++
  str "Connection: keep-alive" ++ CRLF ++ CRLF.

Definition http_post_for_inner (endpoint : CollectorEndpoint) (t : RecordType) (payload : list Z)
    : M S IoError unit :=
  rw_write_all (request_head endpoint t payload) ;;!
  rw_write_all payload ;;!
  read_http_response.
End Http.

(** [CollectorConnection]: an HTTP connection with its stream, or a gRPC client. *)
Inductive CollectorConnection (S G : Type) : Type :=
| ConnHttp (endpoint : CollectorEndpoint) (stream : S)
| ConnGrpc (endpoint : CollectorEndpoint) (client : G).
Arguments ConnHttp {S G} endpoint stream.
Arguments ConnGrpc {S G} endpoint client.

(** The gRPC client, including the decoding of the payload. *)
Class Grpc (N G : Type) : Type := {
  grpc_connect : CollectorEndpoint → M N IoError G;
  grpc_post_for_inner : RecordType → list Z → M G IoError unit;
}.

Section Connection.
Context {N S G : Type} {RW : ReadWrite S} {NW : Network N S} {GR : Grpc N G}.

Local Abbreviation conn := (CollectorConnection S G).

Definition connect (endpoint : CollectorEndpoint) : M N IoError conn :=
  if ep_grpc endpoint
  then let! client := grpc_connect endpoint in ret (ConnGrpc endpoint client)
  else let! stream := net_connect endpoint in ret (ConnHttp endpoint stream).

(** A method of the connection, which leaves the network alone. *)
Definition post_for_inner (t : RecordType) (payload : list Z) : M (conn * N) IoError unit :=
  λ '(c, n),
    match c with
    | ConnHttp endpoint stream =>
        let '(r, stream) := http_post_for_inner endpoint t payload stream in (r, (ConnHttp endpoint stream, n))
    | ConnGrpc endpoint client =>
        let '(r, client) := grpc_post_for_inner t payload client in (r, (ConnGrpc endpoint client, n))
    end.

(** On an error the old connection stays. *)
Definition reconnect : M (conn * N) IoError unit :=
  λ '(c, n),
    let endpoint := match c with ConnHttp endpoint _ => endpoint | ConnGrpc endpoint _ => endpoint end in
    match connect endpoint n with
    | (Ok c', n) => (Ok tt, (c', n))
    | (Err e, n) => (Err e, (c, n))
    end.

Definition post_for (t : RecordType) (payload : list Z) : M (conn * N) IoError unit :=
  λ s, match post_for_inner t payload s with
       | (Ok _, s) => (Ok tt, s)
       | (Err _, s) => (reconnect ;;! post_for_inner t payload) s
       end.

(** [MultiCollectorConnection] *)
Fixpoint multi_connect (endpoints : list CollectorEndpoint) : M N IoError (list conn) :=
  match endpoints with
  | [] => ret []
  | endpoint :: endpoints =>
      let! c := connect endpoint in
      let! cs := multi_connect endpoints in
      ret (c :: cs)
  end.

(** The loop over the collectors stops at the first error. *)
Fixpoint multi_post (t : RecordType) (payload : list Z) (cs : list conn) (n : N)
    : result IoError unit * (list conn * N) :=
  match cs with
  | [] => (Ok tt, ([], n))
  | c :: cs =>
      match post_for t payload (c, n) with
      | (Ok _, (c, n)) => let '(r, (cs, n)) := multi_post t payload cs n in (r, (c :: cs, n))
      | (Err e, (c, n)) => (Err e, (c :: cs, n))
      end
  end.

#[export] Instance multi_post_for : Collector (list conn * N) :=
  λ t payload '(cs, n), multi_post t payload cs n.
End Connection.

(** ** Sockets with a scripted peer *)

Record Socket : Type := mkSocket { sk_in : Stream; sk_out : list Z }.

Definition socket_read (n : nat) : M Socket IoError (list Z) :=
  λ s, match input (sk_in s), ending (sk_in s) with
       | [], Some e => (Err e, s)
       | bs, _ => (Ok (take n bs), mkSocket (mkStream (drop n bs) (ending (sk_in s))) (sk_out s))
       end.

#[export] Instance Socket_ReadWrite : ReadWrite Socket := {|
  rw_read := socket_read;
  rw_write_all bs := modify (λ s, mkSocket (sk_in s) (sk_out s ++ bs));
|}.

(** The socket after reading: [rest] is left. *)
Definition left (s : Socket) (rest : list Z) : Socket := mkSocket (mkStream rest (ending (sk_in s))) (sk_out s).

Lemma socket_read_app n bs rest s :
  length bs = n → bs ≠ [] → input (sk_in s) = bs ++ rest → socket_read n s = (Ok bs, left s rest).
Proof.
  intros Hn Hne E. unfold socket_read. rewrite E. destruct bs as [|b bs]; [done|]. subst n.
  rewrite <- app_comm_cons, app_comm_cons. by rewrite take_app_length, drop_app_length.
Qed.

(** A response head: ASCII, of limited size, with one blank line, at its end. *)
Record response_head (hd : list Z) : Prop := {
  rh_ascii : Forall (λ b, 0 ≤ b ≤ 127) hd;
  rh_size : len hd ≤ MAX_RESPONSE_HEADERS;
  rh_end : ends_with hd header_end = true;
  rh_first : ∀ k, (k < length hd)%nat → ends_with (take k hd) header_end = false;
}.

Lemma ends_with_drop hdr :
  ends_with hdr header_end = (4 <=? len hdr) && bool_decide (drop (length hdr - 4) hdr = header_end).
Proof.
  unfold ends_with. f_equal. unfold len. case_bool_decide as H; simpl in H; symmetry; [apply Z.leb_le|apply Z.leb_gt]; lia.
Qed.

Lemma read_headers_app fuel hd hdr todo rest s :
  response_head hd → hd = hdr ++ todo → todo ≠ [] → (length todo ≤ fuel)%nat →
  input (sk_in s) = todo ++ rest →
  read_headers fuel hdr s = (Ok hd, left s rest).
Proof.
  intros Hh. revert hdr todo s. induction fuel as [|fuel IH]; intros hdr todo s E Hne Hf Hin.
  { destruct todo; simpl in Hf; [done|lia]. }
  destruct todo as [|b todo]; [done|]. cbn [read_headers]. unfold bind at 1.
  change (rw_read 1 s) with (socket_read 1 s).
  rewrite (socket_read_app 1 [b] (todo ++ rest) s) by done. rewrite <- ends_with_drop.
  rewrite cons_middle, app_assoc in E. destruct todo as [|b' todo].
  - rewrite app_nil_r in E. rewrite <- E, (rh_end _ Hh). done.
  - assert (hdr ++ [b] = take (length (hdr ++ [b])) hd) as Et by by rewrite E, take_app_length.
    assert ((length (hdr ++ [b]) < length hd)%nat) as Hlt by (rewrite E, !length_app; simpl; lia).
    rewrite Et, (rh_first _ Hh) by done. rewrite <- Et.
    pose proof (rh_size _ Hh). destruct (Z.ltb_spec MAX_RESPONSE_HEADERS (len (hdr ++ [b]))); [unfold len in *; lia|].
    rewrite (IH (hdr ++ [b]) (b' :: todo)); [done|done|done|simpl in *; lia|done].
Qed.

Lemma discard_body_app fuel remaining body rest s :
  len body = remaining → (Z.to_nat remaining < fuel)%nat → input (sk_in s) = body ++ rest →
  discard_body fuel remaining s = (Ok tt, left s rest).
Proof.
  revert remaining body s. induction fuel as [|fuel IH]; intros remaining body s Hl Hf Hin; [lia|].
  cbn [discard_body]. destruct (Z.leb_spec remaining 0) as [Hz|Hpos].
  { assert (body = []) as -> by (apply len_zero; pose proof (len_nonneg body); lia).
    unfold left. simpl in Hin. rewrite <- Hin. by destruct s as [[]]. }
  unfold bind at 1. set (n := Z.to_nat (Z.min 4096 remaining)).
  assert ((0 < n ≤ length body)%nat) as Hn by (unfold n, len in *; lia).
  change (rw_read n s) with (socket_read n s).
  rewrite (socket_read_app n (take n body) (drop n body ++ rest) s).
  2:{ rewrite length_take. lia. }
  2:{ intros E. apply (f_equal length) in E. rewrite length_take in E. simpl in E. lia. }
  2:{ by rewrite app_assoc, take_drop. }
  destruct (take n body) as [|b bs] eqn:Et.
  { apply (f_equal length) in Et. rewrite length_take in Et. simpl in Et. lia. }
  rewrite <- Et. assert (len (take n body) = Z.of_nat n) as Eln by (unfold len; rewrite length_take; lia).
  rewrite (IH _ (drop n body) (left s (drop n body ++ rest))); [done| |lia|done].
  unfold len in *. rewrite length_drop. lia.
Qed.

Definition status_line_of (hd : list Z) : list Z := default [] (list.head (lines hd)).

Lemma read_http_response_app hd body rest s :
  response_head hd → len body = parse_content_length hd → input (sk_in s) = hd ++ body ++ rest →
  read_http_response s =
    if status_ok (status_line_of hd) then (Ok tt, left s rest)
    else (Err (io_error OtherKind ("collector returned non-200 response: " +:+ text_string (status_line_of hd))),
          left s (body ++ rest)).
Proof.
  intros Hh Hb Hin. unfold read_http_response, bind at 1.
  rewrite (read_headers_app _ hd [] hd (body ++ rest) s); try done.
  - rewrite (from_utf8_lossy_ascii hd) by apply Hh. fold (status_line_of hd).
    destruct (status_ok (status_line_of hd)); [|done]. cbn [negb].
    rewrite (discard_body_app _ _ body rest); [done|done|lia|done].
  - intros ->. pose proof (rh_end _ Hh). done.
  - pose proof (rh_size _ Hh). unfold len in *. lia.
Qed.

(** An HTTP export.  A post writes one well-formed request, whose length field is
    the length of the payload, and reads exactly one response: it succeeds when the
    status is 200, leaving the stream at the next response, and fails otherwise. *)
Theorem http_post_exchange endpoint t payload hd body rest out :
  response_head hd → len body = parse_content_length hd →
  let s := mkSocket (mkStream (hd ++ body ++ rest) None) out in
  let sent := out ++ request_head endpoint t payload ++ payload in
  http_post_for_inner endpoint t payload s =
    if status_ok (status_line_of hd) then (Ok tt, mkSocket (mkStream rest None) sent)
    else (Err (io_error OtherKind ("collector returned non-200 response: " +:+ text_string (status_line_of hd))),
          mkSocket (mkStream (body ++ rest) None) sent).
Proof.
  intros Hh Hb s sent. unfold http_post_for_inner, bind, rw_write_all, Socket_ReadWrite, modify.
  rewrite (read_http_response_app hd body rest) by done. unfold left. cbn [sk_in sk_out ending].
  unfold sent. rewrite <- !app_assoc. done.
Qed.

(** ** URLs *)

Definition scheme (tls grpc : bool) : list Z :=
  match grpc, tls with
  | true, false => str "grpc://"
  | true, true => str "grpcs://"
  | false, false => str "http://"
  | false, true => str "https://"
  end.

Definition endpoint_url (e : CollectorEndpoint) : list Z :=
  scheme (ep_tls e) (ep_grpc e) ++ ep_authority e ++ ep_path e.

(** gRPC endpoints have no path; the others have one, and no slash before it. *)
Definition wf_endpoint (e : CollectorEndpoint) : Prop :=
  ep_authority e ≠ [] ∧
  (if ep_grpc e then ep_path e = [] else (47 ∉ ep_authority e) ∧ list.head (ep_path e) = Some 47).

Lemma split_authority_app a p :
  47 ∉ a → list.head p = Some 47 → split_authority_and_path (a ++ p) = (a, p).
Proof.
  intros Ha Hp. destruct p as [|b p]; [done|]. injection Hp as ->.
  induction a as [|b a IH]; [done|]. apply not_elem_of_cons in Ha as [Hb Ha]. simpl.
  destruct (Z.eqb_spec b 47); [congruence|]. by rewrite IH.
Qed.

Lemma split_authority_alone a : 47 ∉ a → split_authority_and_path a = (a, default_path).
Proof.
  induction a as [|b a IH]; [done|]. intros [Hb Ha]%not_elem_of_cons. simpl.
  destruct (Z.eqb_spec b 47); [congruence|]. by rewrite IH.
Qed.

Lemma http_endpoint_app a p tls :
  a ≠ [] → 47 ∉ a → list.head p = Some 47 → http_endpoint (a ++ p) tls = Ok (mkEndpoint a p tls false).
Proof.
  intros Hne Ha Hp. unfold http_endpoint. rewrite split_authority_app by done.
  rewrite decide_False by done. destruct p as [|b p]; [done|]. by injection Hp as ->.
Qed.

(** [parse] by the scheme. *)
Lemma parse_scheme tls grpc rest :
  CollectorEndpoint_parse (scheme tls grpc ++ rest) =
    if grpc then grpc_endpoint rest tls else http_endpoint rest tls.
Proof. by destruct tls, grpc. Qed.

(** Collector URLs.  The URL of a well-formed endpoint, HTTP or gRPC, with or
    without TLS, is parsed back to it; an HTTP URL without a path gets the default
    one; a URL without a host is refused. *)
Theorem collector_url_roundtrip e :
  wf_endpoint e →
  CollectorEndpoint_parse (endpoint_url e) = Ok e ∧
  (ep_grpc e = false → CollectorEndpoint_parse (scheme (ep_tls e) false ++ ep_authority e) =
    Ok (mkEndpoint (ep_authority e) default_path (ep_tls e) false)) ∧
  CollectorEndpoint_parse (scheme (ep_tls e) (ep_grpc e)) = Err missing_host.
Proof.
  destruct e as [a p tls grpc]. unfold wf_endpoint, endpoint_url. cbn [ep_authority ep_path ep_tls ep_grpc].
  intros [Hne Hw]. pose proof (parse_scheme tls grpc []) as Hn. rewrite app_nil_r in Hn.
  rewrite Hn, parse_scheme. clear Hn.
  destruct grpc.
  - subst p. rewrite app_nil_r. unfold grpc_endpoint. rewrite decide_False by done. by split_and!.
  - destruct Hw as [Ha Hp]. split_and!; [by apply http_endpoint_app| |done].
    intros _. rewrite parse_scheme. unfold http_endpoint. rewrite split_authority_alone by done.
    by rewrite decide_False.
Qed.

Lemma collector_url_roundtrip_witness :
  let e := mkEndpoint (str "otel:4318") (str "/custom/logs") true false in
  CollectorEndpoint_parse (endpoint_url e) = Ok e ∧
  (ep_grpc e = false → CollectorEndpoint_parse (scheme (ep_tls e) false ++ ep_authority e) =
    Ok (mkEndpoint (ep_authority e) default_path (ep_tls e) false)) ∧
  CollectorEndpoint_parse (scheme (ep_tls e) (ep_grpc e)) = Err missing_host.
Proof.
  apply (collector_url_roundtrip (mkEndpoint (str "otel:4318") (str "/custom/logs") true false)).
  split; [vm_compute; discriminate|]. split; [|reflexivity].
  apply (bool_decide_unpack _). vm_compute. exact I.
Defined.

(** A response with a body of two bytes. *)
Definition sample_head : list Z :=
  str "HTTP/1.1 200 OK" ++ CRLF ++ str "Content-Length: 2" ++ CRLF ++ CRLF.

Lemma sample_head_ok : response_head sample_head.
Proof.
  split.
  - apply (bool_decide_unpack _). vm_compute. exact I.
  - vm_compute. discriminate.
  - vm_compute. reflexivity.
  - intros k Hk.
    assert (forallb (λ k, negb (ends_with (take k sample_head) header_end)) (List.seq 0 (length sample_head)) = true)
      as H by (vm_compute; reflexivity).
    rewrite forallb_forall in H. apply negb_true_iff. apply H. apply in_seq. lia.
Qed.

Lemma http_post_exchange_witness :
  let endpoint := mkEndpoint (str "otel:4318") default_path false false in
  let s := mkSocket (mkStream (sample_head ++ [1; 2] ++ [72]) None) [] in
  let sent := [] ++ request_head endpoint Traces [7; 8; 9] ++ [7; 8; 9] in
  http_post_for_inner endpoint Traces [7; 8; 9] s =
    if status_ok (status_line_of sample_head) then (Ok tt, mkSocket (mkStream [72] None) sent)
    else (Err (io_error OtherKind ("collector returned non-200 response: " +:+
                 text_string (status_line_of sample_head))),
          mkSocket (mkStream ([1; 2] ++ [72]) None) sent).
Proof.
  apply (http_post_exchange (mkEndpoint (str "otel:4318") default_path false false) Traces [7; 8; 9]
    sample_head [1; 2] [72] []).
  - apply sample_head_ok.
  - vm_compute. reflexivity.
Defined.
