(* ===== verification/Bridge.v ===== *)
(** * The bridge

    [logjetd/src/replay.rs], [bridge_transport] and what it calls: the client that
    follows an upstream daemon, posts its records to collectors and commits them.
    This file has the session set-up and the mode without a buffer, in which a
    record is posted and committed before the next one is read. *)

From stdpp Require Import sorting.
From S2P Require Import Prelude Format Writer Instances Text Protocol FileSpool BridgeState Batcher.

(** ** Data *)

Inductive BackpressureMode : Type := Block | Disconnect | DropNewest.
Inductive UpstreamMode : Type := Keep | Drain.

#[export] Instance UpstreamMode_eq_dec : EqDecision UpstreamMode.
Proof. solve_decision. Defined.

(** The parts of [CollectorTransport] that steer the bridge. *)
Record CollectorTransport : Type := mkTransport {
  backpressure_enabled : bool;
  backpressure_mode : BackpressureMode;
  max_buffered_records : Z;
  ct_batch_size : Z;
  ct_batch_timeout_ms : Z;
  upstream_mode : UpstreamMode;
}.

(** The connection to the upstream, the file system, the resume state. *)
Record Bridge (W : Type) : Type := mkBridge {
  b_in : Stream;
  b_out : W;
  b_files : files;
  b_state : BridgeState;
}.
Arguments mkBridge {W} b_in b_out b_files b_state.
Arguments b_in {W} b.
Arguments b_out {W} b.
Arguments b_files {W} b.
Arguments b_state {W} b.

Section Bridge.
Context {EX : Externals} {W : Type} {WW : Write W}.

Local Abbreviation bridge := (Bridge W).

(** Operations on one end of the transport. *)
Definition receive {A} (op : M Stream IoError A) : M bridge IoError A :=
  λ b, let '(r, s) := op (b_in b) in (r, mkBridge s (b_out b) (b_files b) (b_state b)).
Definition send (op : M W IoError unit) : M bridge IoError unit :=
  λ b, let '(r, w) := op (b_out b) in (r, mkBridge (b_in b) w (b_files b) (b_state b)).

Definition set_state (state : BridgeState) (b : bridge) : bridge := mkBridge (b_in b) (b_out b) (b_files b) state.
Definition save_state (state_file : option (list Z)) (b : bridge) : bridge :=
  mkBridge (b_in b) (b_out b) (write_bridge_state state_file (b_state b) (b_files b)) (b_state b).

Definition commit_record (state_file : option (list Z)) (consume : bool) (sq : Z) : M bridge IoError unit :=
  modify (λ b, set_state (mkBridgeState (br_stream_id (b_state b)) sq) b) ;;!
  modify (save_state state_file) ;;!
  if consume then send (write_replay_ack (mkReplayAck sq)) else ret tt.

(** The start of [bridge_transport], up to the request. *)
Definition bridge_start (state_file : option (list Z)) (ct : CollectorTransport) : M bridge IoError bool :=
  let! hello := receive read_replay_hello in
  modify (λ b, set_state (reconcile_bridge_state (b_state b) hello) b) ;;!
  modify (save_state state_file) ;;!
  let consume := bool_decide (upstream_mode ct = Drain) in
  let! state := gets b_state in
  send (write_replay_request (mkReplayRequest (br_last_seq state) consume)) ;;!
  ret consume.

Context {C : Type} {CC : Collector C}.

(** The bridge and the collector connection. *)
Definition on_bridge {A} (op : M bridge IoError A) : M (bridge * C) IoError A :=
  λ '(b, c), let '(r, b) := op b in (r, (b, c)).
Definition on_conn {A} (op : M C IoError A) : M (bridge * C) IoError A :=
  λ '(b, c), let '(r, c) := op c in (r, (b, c)).

(** The loop without backpressure; a record takes at least 36 bytes of the input. *)
Fixpoint direct_loop (fuel : nat) (state_file : option (list Z)) (consume : bool) : M (bridge * C) IoError unit :=
  match fuel with
  | O => throw (io_error OtherKind "unreachable: bridge loop")
  | S fuel =>
      let! next := on_bridge (receive read_record) in
      match next with
      | None => ret tt
      | Some record =>
          on_conn (collector_post (wire_type record) (wire_payload record)) ;;!
          on_bridge (commit_record state_file consume (wire_seq record)) ;;!
          direct_loop fuel state_file consume
      end
  end.

(** [bridge_transport] when [backpressure.enabled] is false; [open] opens the
    collector connection. *)
Definition bridge_direct (open : M C IoError unit) (state_file : option (list Z)) (ct : CollectorTransport)
    : M (bridge * C) IoError unit :=
  let! consume := on_bridge (bridge_start state_file ct) in
  on_conn open ;;!
  let! fuel := gets (λ '(b, _), S (length (input (b_in b)))) in
  direct_loop fuel state_file consume.
End Bridge.

(** ** What the direct mode guarantees *)

Section Facts.
Context {EX : Externals} {EL : ExternalLaws} {C : Type} {CC : Collector C}.

Local Abbreviation bridge := (Bridge (list Z)).

(** The frames of records on the connection. *)
Definition frames (compress : bool) (rs : list WireRecord) (bufs : list (list Z)) : Prop :=
  Forall2 (λ r buf, valid_wire r ∧ encode_wire_record r compress = Ok buf) rs bufs.

Lemma frame_length r compress buf : encode_wire_record r compress = Ok buf → 36 ≤ len buf ≤ MAX_U32 + 36.
Proof.
  intros He. destruct (encode_wire_record_Ok _ _ _ He) as (codec & wp & _ & Hw & ->).
  unfold wire_frame, wire_header. rewrite !len_app.
  unfold len. rewrite !length_to_le. cbn [length]. unfold len in Hw. change (length WIRE_MAGIC) with 8%nat.
  int_solve.
Qed.

Lemma read_frame_Some r compress buf rest e :
  valid_wire r → encode_wire_record r compress = Ok buf →
  read_record (mkStream (buf ++ rest) e) = (Ok (Some r), mkStream rest e).
Proof.
  intros Hv He. eapply wire_roundtrip_limit; [done..|]. pose proof (frame_length _ _ _ He). int_solve.
Qed.

Lemma read_eof : read_record (mkStream [] None) = (Ok None, mkStream [] None).
Proof. done. Qed.

(** What a bridge has sent, its files and its state. *)
Definition view (b : bridge) : list Z * files * BridgeState := (b_out b, b_files b, b_state b).

(** The view after the sequence numbers [sqs] have been committed. *)
Definition commit_all (state_file : option (list Z)) (consume : bool) (sqs : list Z)
    (v : list Z * files * BridgeState) : list Z * files * BridgeState :=
  foldl (λ '(out, d, st) sq,
      let st := mkBridgeState (br_stream_id st) sq in
      (out ++ (if consume then encode_replay_ack (mkReplayAck sq) else []),
       write_bridge_state state_file st d, st))
    v sqs.

Lemma commit_record_eq state_file consume (b : bridge) sq :
  commit_record state_file consume sq b =
    (Ok tt, let st := mkBridgeState (br_stream_id (b_state b)) sq in
            mkBridge (b_in b) (b_out b ++ (if consume then encode_replay_ack (mkReplayAck sq) else []))
              (write_bridge_state state_file st (b_files b)) st).
Proof.
  unfold commit_record, bind, modify. destruct b as [s out fs st]. destruct consume; simpl; [done|].
  by rewrite app_nil_r.
Qed.

(** The records whose post was accepted are committed; the first one whose post
    fails ends the session. *)
Lemma direct_loop_spec fuel state_file consume compress rs bufs (b : bridge) (c : C) log :
  frames compress rs bufs → (length rs < fuel)%nat → b_in b = mkStream (concat bufs) None →
  ∃ k r b' c', (k ≤ length rs)%nat ∧
    direct_loop fuel state_file consume (b, (c, log)) = (r, (b', c')) ∧
    (r = Ok tt ↔ k = length rs) ∧
    c'.2 = log ++ ((λ r, (wire_type r, wire_payload r)) <$> take k rs) ∧
    view b' = commit_all state_file consume (wire_seq <$> take k rs) (view b) ∧
    (accepting C → k = length rs).
Proof.
  intros Hf. revert fuel b c log. induction Hf as [|r buf rs bufs [Hv He] Hf IH]; intros fuel b c log Hfuel Hin.
  { destruct fuel as [|fuel]; [simpl in Hfuel; lia|].
    exists 0%nat, (Ok tt), b, (c, log). cbn [direct_loop]. unfold bind, on_bridge, receive. rewrite Hin.
    simpl concat. rewrite read_eof. split_and!; try done; [|by rewrite app_nil_r].
    destruct b; simpl in *. by subst. }
  destruct fuel as [|fuel]; [simpl in Hfuel; lia|]. simpl in Hfuel.
  cbn [direct_loop]. unfold bind at 1, on_bridge at 1, receive at 1. rewrite Hin. cbn [concat].
  rewrite (read_frame_Some r compress buf (concat bufs) None Hv He).
  unfold bind at 1, on_conn at 1. unfold collector_post at 1, recorded_Collector at 1.
  destruct (collector_post (wire_type r) (wire_payload r) c) as [[[]|err] c1] eqn:Hp.
  2:{ exists 0%nat, (Err err), (mkBridge (mkStream (concat bufs) None) (b_out b) (b_files b) (b_state b)), (c1, log).
      split_and!; try done; [simpl; lia|by rewrite app_nil_r|].
      intros Ha. destruct (Ha (wire_type r) (wire_payload r) c) as [c2 Hc]. congruence. }
  unfold bind at 1, on_bridge at 1. rewrite commit_record_eq. cbn zeta.
  match goal with |- context [direct_loop fuel _ _ (?x, _)] => set (b1 := x) end.
  destruct (IH fuel b1 c1 (log ++ [(wire_type r, wire_payload r)]))
    as (k & res & b' & c' & Hk & Hl & Hr & Hlog & Hb & Hacc); [lia|done|].
  exists (S k), res, b', c'. split_and!; [simpl; lia|done|simpl; rewrite Hr; lia| | |].
  - rewrite Hlog. cbn [take]. by rewrite fmap_cons, <- app_assoc.
  - rewrite Hb. done.
  - intros Ha. simpl. by rewrite Hacc.
Qed.

(** An operation on the connection itself. *)
Definition recording {A} (op : M C IoError A) : M (recorded C) IoError A :=
  λ '(c, log), let '(r, c) := op c in (r, (c, log)).

Lemma frames_length compress rs bufs : frames compress rs bufs → (length rs ≤ length (concat bufs))%nat.
Proof.
  induction 1 as [|r buf rs bufs [_ He] Hf IH]; [done|]. cbn [concat length]. rewrite length_app.
  pose proof (frame_length _ _ _ He). unfold len in *. lia.
Qed.

(** C18: the bridge without a buffer.  However the collector behaves, a session posts
    records in the order in which the upstream sends them and stops at the first
    one the collector refuses; the records before it, and no other, have been
    accepted by the collector, are acknowledged to the upstream when it drains, and
    are what the state file says.  With a collector that accepts everything all
    records are. *)
Theorem direct_bridge_commits_what_was_accepted (open : M C IoError unit) state_file ct hello compress rs bufs
    st d (c c0 : C) :
  is_u64 (stream_id hello) ∧ is_u64 (first_seq hello) ∧ is_u64 (last_seq hello) →
  frames compress rs bufs → open c = (Ok tt, c0) →
  let b := mkBridge (mkStream (encode_replay_hello hello ++ concat bufs) None) [] d st in
  let drain := bool_decide (upstream_mode ct = Drain) in
  let st0 := reconcile_bridge_state st hello in
  let request := encode_replay_request (mkReplayRequest (br_last_seq st0) drain) in
  ∃ k r b' c', (k ≤ length rs)%nat ∧
    bridge_direct (recording open) state_file ct (b, (c, [])) = (r, (b', c')) ∧ (r = Ok tt ↔ k = length rs) ∧
    c'.2 = (λ r, (wire_type r, wire_payload r)) <$> take k rs ∧
    view b' = commit_all state_file drain (wire_seq <$> take k rs) (request, write_bridge_state state_file st0 d, st0) ∧
    (accepting C → k = length rs).
Proof.
  intros Hh Hf Ho b drain st0 request. unfold bridge_direct, bind at 1, on_bridge at 1, bridge_start.
  unfold bind at 1, receive at 1. cbn [b b_in].
  pose proof (@msg_roundtrip ReplayHello _ _ hello (concat bufs) None Hh) as Hr.
  cbn [msg_read msg_encode ReplayHello_Message] in Hr. rewrite Hr.
  unfold bind, modify, gets, send, set_state, save_state. cbn [b_in b_out b_files b_state b].
  unfold write_replay_request. cbn [write_all Vec_Write]. unfold modify, ret, on_conn, recording. rewrite Ho.
  cbn [b_in input]. fold st0 drain. fold request.
  match goal with |- context [direct_loop _ _ _ (?x, _)] => set (b1 := x) end.
  destruct (direct_loop_spec (S (length (concat bufs))) state_file drain compress rs bufs b1 c0 [] Hf)
    as (k & r & b' & c' & Hk & Hl & Hres & Hlog & Hb & Hacc).
  { pose proof (frames_length _ _ _ Hf). lia. } { done. }
  exists k, r, b', c'. split_and!; try done.
Qed.
End Facts.

Section Witness.
#[local] Existing Instance stored_externals.
#[local] Existing Instance stored_laws.

(** A collector that refuses its third request. *)
Definition refusing_collector : Collector Z :=
  λ _ _ n, if n <? 2 then (Ok tt, n + 1) else (Err (io_error OtherKind "unavailable"), n).
#[local] Existing Instance refusing_collector.

Definition bridge_records : list WireRecord := (λ n, mkWire Logs n (10 * n) [n; n]) <$> [4; 5; 6].
Definition bridge_frames : list (list Z) :=
  (λ r, match encode_wire_record r false with Ok buf => buf | Err _ => [] end) <$> bridge_records.

Lemma bridge_frames_ok : frames false bridge_records bridge_frames.
Proof.
  repeat constructor; try (vm_compute; discriminate); vm_compute; reflexivity.
Qed.

Lemma direct_bridge_commits_what_was_accepted_witness :
  let hello := mkReplayHello 77 1 6 in
  let ct := mkTransport false Block 16 1 0 Drain in
  let b := mkBridge (mkStream (encode_replay_hello hello ++ concat bridge_frames) None) [] ∅
             (mkBridgeState (Some 77) 3) in
  let st0 := reconcile_bridge_state (mkBridgeState (Some 77) 3) hello in
  ∃ k r b' c', (k ≤ length bridge_records)%nat ∧
    bridge_direct (recording (ret tt)) (Some (str "s")) ct (b, (0, [])) = (r, (b', c')) ∧
    (r = Ok tt ↔ k = length bridge_records) ∧
    c'.2 = (λ r, (wire_type r, wire_payload r)) <$> take k bridge_records ∧
    view b' = commit_all (Some (str "s")) true (wire_seq <$> take k bridge_records)
      (encode_replay_request (mkReplayRequest (br_last_seq st0) true), write_bridge_state (Some (str "s")) st0 ∅, st0) ∧
    (accepting Z → k = length bridge_records).
Proof.
  apply (direct_bridge_commits_what_was_accepted (ret tt) (Some (str "s")) (mkTransport false Block 16 1 0 Drain)
    (mkReplayHello 77 1 6) false bridge_records bridge_frames (mkBridgeState (Some 77) 3) ∅ 0 0).
  - split_and!; split; vm_compute; discriminate.
  - apply bridge_frames_ok.
  - reflexivity.
Defined.

(** Two records are accepted and acknowledged. *)
Example bridge_sample :
  let b := mkBridge (mkStream (encode_replay_hello (mkReplayHello 77 1 6) ++ concat bridge_frames) None) [] ∅
             (mkBridgeState (Some 77) 3) in
  let run := bridge_direct (recording (ret tt)) None (mkTransport false Block 16 1 0 Drain) (b, (0, [])) in
  b_state run.2.1 = mkBridgeState (Some 77) 5 ∧ len run.2.2.2 = 2.
Proof. vm_compute. split; reflexivity. Qed.
End Witness.
