(* ===== verification/BridgePipe.v ===== *)
(** * The bridge with a buffer

    [logjetd/src/replay.rs], [bridge_transport] with backpressure: the bridge
    thread reads records and hands them to an export thread through a bounded
    channel; results come back through a second channel and are committed in
    order.  The two threads are interleaved step by step; a step of a thread is a
    function of the shared state, and [None] when the thread has to wait. *)

From S2P Require Import Prelude Format Writer Instances Text Protocol FileSpool BridgeState Otlp Batcher Bridge.

(** ** Data *)

Record ExportTask : Type := mkTask { task_seq : Z; task_type : RecordType; task_payload : list Z }.
Inductive ExportOutcome : Type := Delivered | DroppedNewest'.
Record ExportResult : Type := mkResult { res_seq : Z; res_outcome : result IoError ExportOutcome }.
Inductive PendingExport : Type := PendingQueued (sq : Z) | PendingDropped (sq : Z).
Inductive EnqueueOutcome : Type := EnqueueQueued | EnqueueDroppedNewest.

Record BridgeStats : Type := mkStats {
  records_read : Z;
  drops_logs : Z;
  drops_metrics : Z;
  drops_traces : Z;
  drops_events : Z;
}.

Definition BridgeStats_new : BridgeStats := mkStats 0 0 0 0 0.
Definition note_record (s : BridgeStats) : BridgeStats :=
  mkStats (records_read s + 1) (drops_logs s) (drops_metrics s) (drops_traces s) (drops_events s).
Definition note_drop (t : RecordType) (s : BridgeStats) : BridgeStats :=
  match t with
  | Logs => mkStats (records_read s) (drops_logs s + 1) (drops_metrics s) (drops_traces s) (drops_events s)
  | Metrics => mkStats (records_read s) (drops_logs s) (drops_metrics s + 1) (drops_traces s) (drops_events s)
  | Traces => mkStats (records_read s) (drops_logs s) (drops_metrics s) (drops_traces s + 1) (drops_events s)
  | Events => mkStats (records_read s) (drops_logs s) (drops_metrics s) (drops_traces s) (drops_events s + 1)
  end.

(** ** Errors *)

Definition worker_stopped : IoError := io_error BrokenPipe "collector export worker stopped".
Definition buffer_full : IoError := io_error TimedOut "collector export buffer is full; disconnecting bridge".
Definition out_of_order (got expected : Z) : IoError :=
  invalid_data ("collector export worker returned seq=" +:+ show got +:+ " out of order; expected " +:+ show expected).

(** ** The channel of tasks *)

Inductive SendResult : Type := Sent (tasks : list ExportTask) | Full | Disconnected.

(** [task_tx.try_send(task)] on a channel with room for [cap] tasks, whose
    receiver is dropped when the worker ends. *)
Definition try_send (cap : Z) (receiver : bool) (task : ExportTask) (tasks : list ExportTask) : SendResult :=
  if negb receiver then Disconnected else
  if len tasks <? cap then Sent (tasks ++ [task]) else Full.

(** [None]: [send] blocks. *)
Definition enqueue_export_task (ct : CollectorTransport) (receiver : bool) (task : ExportTask)
    (tasks : list ExportTask) : option (result IoError EnqueueOutcome * list ExportTask) :=
  let sent := try_send (max_buffered_records ct) receiver task tasks in
  match backpressure_mode ct, sent with
  | _, Sent tasks => Some (Ok EnqueueQueued, tasks)
  | _, Disconnected => Some (Err worker_stopped, tasks)
  | Block, Full => None
  | Disconnect, Full => Some (Err buffer_full, tasks)
  | DropNewest, Full => Some (Ok EnqueueDroppedNewest, tasks)
  end.

(** ** The state of the two threads *)

Inductive MainPhase : Type :=
| Reading
| Flushing (record : WireRecord)
| Enqueueing (record : WireRecord)
| Draining
| Joining (failure : option IoError)
| Returned (r : result IoError unit).

Inductive WorkerPhase : Type :=
| Opening
| Idle
| Busy (task : ExportTask)
| Ended (r : result IoError unit).

Section Pipe.
Context {EX : Externals} {OT : Otlp} {LC : LogsCodec} {C : Type} {CC : Collector C}.

(** [p_sender]: the bridge still has [task_tx]; [p_receiver]: it still has
    [result_rx].  The last two fields are histories that no step looks at: the
    records that were read, and those that were committed. *)
Record Pipe : Type := mkPipe {
  p_bridge : Bridge (list Z);
  p_phase : MainPhase;
  p_stats : BridgeStats;
  p_pending : list PendingExport;
  p_tasks : list ExportTask;
  p_sender : bool;
  p_results : list ExportResult;
  p_receiver : bool;
  p_worker : WorkerPhase;
  p_batcher : OtlpBatcher;
  p_conn : C;
  p_read : list Z;
  p_committed : list Z;
}.

Definition worker_alive (p : Pipe) : bool := match p_worker p with Ended _ => false | _ => true end.

(** The start: the session is set up and the worker has been spawned. *)
Definition pipe_start (ct : CollectorTransport) (b : Bridge (list Z)) (c : C) : Pipe :=
  mkPipe b Reading BridgeStats_new [] [] true [] true Opening
    (OtlpBatcher_new (ct_batch_size ct) (ct_batch_timeout_ms ct)) c [] [].

Definition set_phase (ph : MainPhase) (p : Pipe) : Pipe :=
  mkPipe (p_bridge p) ph (p_stats p) (p_pending p) (p_tasks p) (p_sender p) (p_results p) (p_receiver p)
    (p_worker p) (p_batcher p) (p_conn p) (p_read p) (p_committed p).
Definition set_bridge (b : Bridge (list Z)) (p : Pipe) : Pipe :=
  mkPipe b (p_phase p) (p_stats p) (p_pending p) (p_tasks p) (p_sender p) (p_results p) (p_receiver p)
    (p_worker p) (p_batcher p) (p_conn p) (p_read p) (p_committed p).
Definition set_stats (s : BridgeStats) (p : Pipe) : Pipe :=
  mkPipe (p_bridge p) (p_phase p) s (p_pending p) (p_tasks p) (p_sender p) (p_results p) (p_receiver p)
    (p_worker p) (p_batcher p) (p_conn p) (p_read p) (p_committed p).
Definition set_queues (pend : list PendingExport) (tasks : list ExportTask) (results : list ExportResult)
    (p : Pipe) : Pipe :=
  mkPipe (p_bridge p) (p_phase p) (p_stats p) pend tasks (p_sender p) results (p_receiver p)
    (p_worker p) (p_batcher p) (p_conn p) (p_read p) (p_committed p).
Definition set_ends (sender receiver : bool) (p : Pipe) : Pipe :=
  mkPipe (p_bridge p) (p_phase p) (p_stats p) (p_pending p) (p_tasks p) sender (p_results p) receiver
    (p_worker p) (p_batcher p) (p_conn p) (p_read p) (p_committed p).
Definition set_worker (w : WorkerPhase) (b : OtlpBatcher) (c : C) (p : Pipe) : Pipe :=
  mkPipe (p_bridge p) (p_phase p) (p_stats p) (p_pending p) (p_tasks p) (p_sender p) (p_results p) (p_receiver p)
    w b c (p_read p) (p_committed p).
Definition set_history (rd cm : list Z) (p : Pipe) : Pipe :=
  mkPipe (p_bridge p) (p_phase p) (p_stats p) (p_pending p) (p_tasks p) (p_sender p) (p_results p) (p_receiver p)
    (p_worker p) (p_batcher p) (p_conn p) rd cm.

(** The function returns and drops its ends of the channels. *)
Definition return_with (r : result IoError unit) (p : Pipe) : Pipe := set_phase (Returned r) (set_ends false false p).

(** ** The bridge thread *)

(** One turn of the loop of [flush_ready_results]. *)
Inductive Turn : Type :=
| TurnAgain (p : Pipe)
| TurnDone
| TurnWait
| TurnError (e : IoError) (p : Pipe).

Definition commit_front (state_file : option (list Z)) (consume : bool) (sq : Z) (p : Pipe) : Turn :=
  match commit_record state_file consume sq (p_bridge p) with
  | (Ok _, b) => TurnAgain (set_history (p_read p) (p_committed p ++ [sq]) (set_bridge b p))
  | (Err e, b) => TurnError e (set_bridge b p)
  end.

Definition flush_turn (state_file : option (list Z)) (consume block : bool) (p : Pipe) : Turn :=
  match p_pending p with
  | [] => TurnDone
  | PendingDropped sq :: pend =>
      commit_front state_file consume sq (set_queues pend (p_tasks p) (p_results p) p)
  | PendingQueued expected_seq :: pend =>
      match p_results p with
      | [] => if negb (worker_alive p) then TurnError worker_stopped p else
              if block then TurnWait else TurnDone
      | result :: results =>
          if negb (res_seq result =? expected_seq)
          then TurnError (out_of_order (res_seq result) expected_seq)
                 (set_queues (p_pending p) (p_tasks p) results p) else
          let p := set_queues pend (p_tasks p) results p in
          match res_outcome result with
          | Ok _ => commit_front state_file consume (res_seq result) p
          | Err err => TurnError err p
          end
      end
  end.

Definition main_step (state_file : option (list Z)) (consume : bool) (ct : CollectorTransport) (p : Pipe)
    : option Pipe :=
  match p_phase p with
  | Reading =>
      match receive read_record (p_bridge p) with
      | (Ok (Some record), b) =>
          Some (set_history (p_read p ++ [wire_seq record]) (p_committed p)
                  (set_phase (Flushing record) (set_bridge b p)))
      | (Ok None, b) => Some (set_phase Draining (set_ends false true (set_bridge b p)))
      | (Err e, b) => Some (return_with (Err e) (set_bridge b p))
      end
  | Flushing record =>
      match flush_turn state_file consume false p with
      | TurnAgain p => Some p
      | TurnDone => Some (set_phase (Enqueueing record) (set_stats (note_record (p_stats p)) p))
      | TurnWait => None
      | TurnError e p => Some (return_with (Err e) p)
      end
  | Enqueueing record =>
      let sq := wire_seq record in
      let task := mkTask sq (wire_type record) (wire_payload record) in
      match enqueue_export_task ct (worker_alive p) task (p_tasks p) with
      | None => None
      | Some (Ok EnqueueQueued, tasks) =>
          Some (set_phase Reading (set_queues (p_pending p ++ [PendingQueued sq]) tasks (p_results p) p))
      | Some (Ok EnqueueDroppedNewest, tasks) =>
          Some (set_phase Reading (set_queues (p_pending p ++ [PendingDropped sq]) tasks (p_results p)
                  (set_stats (note_drop (wire_type record) (p_stats p)) p)))
      | Some (Err e, tasks) => Some (set_phase (Joining (Some e)) (set_ends false true p))
      end
  | Draining =>
      match flush_turn state_file consume true p with
      | TurnAgain p => Some p
      | TurnDone => Some (set_phase (Joining None) p)
      | TurnWait => None
      | TurnError e p => Some (return_with (Err e) p)
      end
  | Joining failure =>
      match p_worker p with
      | Ended r => Some (return_with (match failure with Some e => Err e | None => r end) p)
      | _ => None
      end
  | Returned _ => None
  end.

(** ** The export thread *)

(** [let _ = logs_batcher.flush(&mut conn); Ok(())] *)
Definition worker_end (p : Pipe) : Pipe :=
  let '(_, (b, c)) := batcher_flush (p_batcher p, p_conn p) in set_worker (Ended (Ok tt)) b c p.

(** The outcome of a task, or the error with which the worker returns. *)
Definition export_task (task : ExportTask) (now now' : Z) : M (OtlpBatcher * C) IoError (result IoError ExportOutcome) :=
  if decide (task_type task = Logs) then
    λ s, let '(result, s) := batcher_add (task_payload task) now s in
         (flush_if_expired now' ;;! ret (match result with Ok _ => Ok Delivered | Err e => Err e end)) s
  else
    λ s, let '(result, s) := post (task_type task) (task_payload task) s in
         (Ok (match result with Ok _ => Ok Delivered | Err e => Err e end), s).

(** [open] is [open_connection], [now] and [now'] are what the clock says. *)
Definition worker_step (open : M C IoError unit) (now now' : Z) (p : Pipe) : option Pipe :=
  let s := (p_batcher p, p_conn p) in
  match p_worker p with
  | Opening =>
      let '(r, c) := open (p_conn p) in
      Some (set_worker (match r with Ok _ => Idle | Err e => Ended (Err e) end) (p_batcher p) c p)
  | Idle =>
      match p_tasks p with
      | task :: tasks => Some (set_worker (Busy task) (p_batcher p) (p_conn p)
                                 (set_queues (p_pending p) tasks (p_results p) p))
      | [] =>
          if p_sender p then
            let '(r, (b, c)) := flush_if_expired now s in
            Some (set_worker (match r with Ok _ => Idle | Err e => Ended (Err e) end) b c p)
          else Some (worker_end p)
      end
  | Busy task =>
      let '(r, (b, c)) := export_task task now now' s in
      match r with
      | Err e => Some (set_worker (Ended (Err e)) b c p)
      | Ok outcome =>
          if negb (p_receiver p) then Some (worker_end (set_worker Idle b c p)) else
          let p := set_queues (p_pending p) (p_tasks p) (p_results p ++ [mkResult (task_seq task) outcome])
                     (set_worker Idle b c p) in
          Some (if is_ok outcome then p else worker_end p)
      end
  | Ended _ => None
  end.

(** Any interleaving. *)
Inductive pipe_step (open : M C IoError unit) (state_file : option (list Z)) (consume : bool)
    (ct : CollectorTransport) (p p' : Pipe) : Prop :=
| step_main : main_step state_file consume ct p = Some p' → pipe_step open state_file consume ct p p'
| step_worker now now' : worker_step open now now' p = Some p' → pipe_step open state_file consume ct p p'.

Inductive pipe_reachable (open : M C IoError unit) (state_file : option (list Z)) (consume : bool)
    (ct : CollectorTransport) (b : Bridge (list Z)) (c : C) : Pipe → Prop :=
| pipe_init : pipe_reachable open state_file consume ct b c (pipe_start ct b c)
| pipe_next p p' :
    pipe_reachable open state_file consume ct b c p → pipe_step open state_file consume ct p p' →
    pipe_reachable open state_file consume ct b c p'.
End Pipe.
Arguments Pipe {OT} C.

(** ** What every interleaving guarantees *)

Section Invariant.
Context {EX : Externals} {EL : ExternalLaws} {OT : Otlp} {LC : LogsCodec} {C : Type} {CC : Collector C}.
Context (open : M C IoError unit) (state_file : option (list Z)) (consume : bool) (ct : CollectorTransport).

Definition pending_seq (x : PendingExport) : Z := match x with PendingQueued sq | PendingDropped sq => sq end.
Definition queued_seqs (pend : list PendingExport) : list Z :=
  omap (λ x, match x with PendingQueued sq => Some sq | PendingDropped _ => None end) pend.

Definition in_flight (w : WorkerPhase) : list Z := match w with Busy task => [task_seq task] | _ => [] end.

(** The sequence numbers whose results are due, in this order. *)
Definition due (p : Pipe C) : list Z := (res_seq <$> p_results p) ++ in_flight (p_worker p) ++ (task_seq <$> p_tasks p).

(** A record that has been read and not yet queued. *)
Definition in_hand (ph : MainPhase) : list Z :=
  match ph with Flushing r | Enqueueing r => [wire_seq r] | _ => [] end.

(** The bridge has met no error. *)
Definition running (ph : MainPhase) : Prop := match ph with Returned _ | Joining (Some _) => False | _ => True end.

(** The upstream has sent [rs] and then closed; [v0] is the view at the start. *)
Record pipe_inv (v0 : list Z * files * BridgeState) (rs : list WireRecord) (p : Pipe C) : Prop := {
  pi_view : view (p_bridge p) = commit_all state_file consume (p_committed p) v0;
  pi_input : ∃ compress rest bufs, wire_seq <$> rs = p_read p ++ (wire_seq <$> rest) ∧
    (running (p_phase p) → frames compress rest bufs ∧ b_in (p_bridge p) = mkStream (concat bufs) None) ∧
    (p_phase p = Draining ∨ p_phase p = Joining None ∨ p_phase p = Returned (Ok tt) → rest = []);
  pi_order : match p_phase p with
    | Returned _ | Joining (Some _) => p_committed p `prefix_of` p_read p
    | ph => p_read p = p_committed p ++ (pending_seq <$> p_pending p) ++ in_hand ph
    end;
  pi_joined : p_phase p = Joining None → p_pending p = [];
  pi_done : p_phase p = Returned (Ok tt) → p_committed p = p_read p;
  pi_queue : running (p_phase p) →
    if worker_alive p then queued_seqs (p_pending p) = due p
    else (res_seq <$> p_results p) `prefix_of` queued_seqs (p_pending p);
  pi_receiver : running (p_phase p) → p_receiver p = true;
}.

Lemma commit_all_snoc (sqs : list Z) (sq : Z) (v : list Z * files * BridgeState) :
  commit_all state_file consume (sqs ++ [sq]) v =
    commit_all state_file consume [sq] (commit_all state_file consume sqs v).
Proof. unfold commit_all. by rewrite foldl_app. Qed.

Lemma commit_record_view (b : Bridge (list Z)) sq :
  ∃ b', commit_record state_file consume sq b = (Ok tt, b') ∧ b_in b' = b_in b ∧
    view b' = commit_all state_file consume [sq] (view b).
Proof. rewrite commit_record_eq. eexists. by split_and!. Qed.

(** Committing the front of the pending exports. *)
Lemma commit_front_inv v0 rs (p : Pipe C) x pend results :
  pipe_inv v0 rs p → running (p_phase p) → p_pending p = x :: pend →
  let p1 := set_queues pend (p_tasks p) results p in
  (if worker_alive p1 then queued_seqs pend = due p1
   else (res_seq <$> results) `prefix_of` queued_seqs pend) →
  ∃ p', commit_front state_file consume (pending_seq x) p1 = TurnAgain p' ∧
    pipe_inv v0 rs p' ∧ p_phase p' = p_phase p.
Proof.
  intros [Hv Hin Ho Hj Hd Hq Hr] Hrun Ep p1 Hq1. unfold commit_front.
  destruct (commit_record_view (p_bridge p1) (pending_seq x)) as (b' & -> & Ein & Ev).
  eexists. split; [done|]. split; [|done]. split; simpl.
  - rewrite Ev, commit_all_snoc, <- Hv. done.
  - by rewrite Ein.
  - rewrite Ep in Ho. destruct (p_phase p) as [| | | |[]|]; rewrite <- ?app_assoc; done.
  - intros E. specialize (Hj E). congruence.
  - intros E. rewrite E in Hrun. done.
  - intros _. exact Hq1.
  - done.
Qed.

(** What a turn of [flush_ready_results] does. *)
Lemma flush_turn_inv v0 rs block (p : Pipe C) :
  pipe_inv v0 rs p → running (p_phase p) →
  match flush_turn state_file consume block p with
  | TurnAgain p' => pipe_inv v0 rs p' ∧ p_phase p' = p_phase p
  | TurnDone => block = true → p_pending p = []
  | TurnWait => True
  | TurnError e p' => p_bridge p' = p_bridge p ∧ p_committed p' = p_committed p ∧ p_read p' = p_read p
  end.
Proof.
  intros Hinv Hrun. pose proof (pi_queue _ _ _ Hinv Hrun) as Hq. unfold flush_turn.
  destruct (p_pending p) as [|[sq|sq] pend] eqn:Ep; [done| |].
  - destruct (p_results p) as [|res results] eqn:Er.
    + destruct (negb (worker_alive p)); [done|]. by destruct block.
    + assert (res_seq res = sq ∧ (if worker_alive p then
          queued_seqs pend = (res_seq <$> results) ++ in_flight (p_worker p) ++ (task_seq <$> p_tasks p)
        else (res_seq <$> results) `prefix_of` queued_seqs pend)) as [Es Hq1].
      { unfold due in Hq. rewrite Er in Hq. destruct (worker_alive p).
        - simpl in Hq. by injection Hq as -> ->.
        - simpl in Hq. split; [by apply prefix_cons_inv_1 in Hq|by apply prefix_cons_inv_2 in Hq]. }
      rewrite Es, Z.eqb_refl. cbn [negb]. destruct (res_outcome res) as [o|e]; [|done].
      destruct (commit_front_inv v0 rs p _ pend results Hinv Hrun Ep Hq1) as (p' & Hc & Hinv' & Hph).
      simpl pending_seq in Hc. by rewrite Hc.
  - destruct (commit_front_inv v0 rs p _ pend (p_results p) Hinv Hrun Ep Hq) as (p' & Hc & Hinv' & Hph).
    simpl pending_seq in Hc. by rewrite Hc.
Qed.

(** The function returns early. *)
Lemma return_inv v0 rs (p p' : Pipe C) e :
  pipe_inv v0 rs p → running (p_phase p) →
  view (p_bridge p') = view (p_bridge p) → p_committed p' = p_committed p → p_read p' = p_read p →
  pipe_inv v0 rs (return_with (Err e) p').
Proof.
  intros [Hv (compress & rest & bufs & E & _ & _) Ho _ _ _ _] Hrun Eb Ec Er. split; simpl; try done.
  - by rewrite Eb, Ec.
  - exists compress, rest, bufs. rewrite Er. split_and!; [done|done|]. by intros [?|[?|?]].
  - rewrite Ec, Er. destruct (p_phase p) as [| | | |[]|]; try done; rewrite Ho; by apply prefix_app_r.
Qed.

Lemma reading_inv v0 rs (p p' : Pipe C) :
  pipe_inv v0 rs p → p_phase p = Reading → main_step state_file consume ct p = Some p' → pipe_inv v0 rs p'.
Proof.
  intros Hinv Eph Hs. pose proof Hinv as [Hv Hin Ho Hj Hd Hq Hr]. rewrite Eph in *.
  destruct Hin as (compress & rest & bufs & E & Hf & _). destruct (Hf I) as [Hfr Eb].
  unfold main_step in Hs. rewrite Eph in Hs. unfold receive in Hs. rewrite Eb in Hs.
  destruct Hfr as [|r buf rest bufs [Hval He] Hfr].
  - simpl concat in Hs. rewrite read_eof in Hs. injection Hs as <-. split; simpl; try done.
    exists compress, [], []. split_and!; [done|by intros _; split; [constructor|]|done].
  - cbn [concat] in Hs. rewrite (read_frame_Some r compress buf (concat bufs) None Hval He) in Hs.
    injection Hs as <-. split; simpl; try done.
    + exists compress, rest, bufs. rewrite fmap_cons in E. split_and!; [|done|by intros [?|[?|?]]].
      by rewrite E, <- app_assoc.
    + simpl in Ho. rewrite app_nil_r in Ho. by rewrite Ho, <- app_assoc.
Qed.

Lemma flushing_inv v0 rs (p p' : Pipe C) r :
  pipe_inv v0 rs p → p_phase p = Flushing r → main_step state_file consume ct p = Some p' → pipe_inv v0 rs p'.
Proof.
  intros Hinv Eph Hs. assert (running (p_phase p)) as Hrun by by rewrite Eph.
  pose proof (flush_turn_inv v0 rs false p Hinv Hrun) as Ht. unfold main_step in Hs. rewrite Eph in Hs.
  destruct (flush_turn state_file consume false p) as [p1| | |e p1]; [| |done|].
  - injection Hs as <-. apply Ht.
  - injection Hs as <-. destruct Hinv as [Hv (compress & rest & bufs & E & Hf & Hl) Ho Hj Hd Hq Hr].
    rewrite Eph in *. split; simpl; try done.
    exists compress, rest, bufs. split_and!; [done|done|by intros [?|[?|?]]].
  - injection Hs as <-. destruct Ht as (Hb & Hc & Hr). by apply (return_inv v0 rs p); rewrite ?Hb.
Qed.

Lemma queued_snoc (p : Pipe C) sq t payload :
  queued_seqs (p_pending p) = due p →
  queued_seqs (p_pending p ++ [PendingQueued sq]) =
    (res_seq <$> p_results p) ++ in_flight (p_worker p) ++ (task_seq <$> p_tasks p ++ [mkTask sq t payload]).
Proof.
  intros Hq. unfold queued_seqs. rewrite omap_app, fmap_app. fold (queued_seqs (p_pending p)). rewrite Hq.
  unfold due. by rewrite <- !app_assoc.
Qed.

Lemma enqueueing_inv v0 rs (p p' : Pipe C) r :
  pipe_inv v0 rs p → p_phase p = Enqueueing r → main_step state_file consume ct p = Some p' → pipe_inv v0 rs p'.
Proof.
  intros Hinv Eph Hs. pose proof Hinv as [Hv (compress & rest & bufs & E & Hf & Hl) Ho Hj Hd Hq Hr].
  unfold main_step in Hs. rewrite Eph in *. specialize (Hq I). simpl in Ho.
  unfold enqueue_export_task, try_send in Hs.
  assert (∀ x tasks s, pending_seq x = wire_seq r →
    (if worker_alive p then queued_seqs (p_pending p ++ [x]) =
       (res_seq <$> p_results p) ++ in_flight (p_worker p) ++ (task_seq <$> tasks)
     else (res_seq <$> p_results p) `prefix_of` queued_seqs (p_pending p ++ [x])) →
    pipe_inv v0 rs (set_phase Reading (set_queues (p_pending p ++ [x]) tasks (p_results p) (set_stats s p)))) as Hgo.
  { intros x tasks s Hx Hq'. split; simpl; try done.
    - exists compress, rest, bufs. split_and!; [done|done|by intros [?|[?|?]]].
    - rewrite fmap_app, app_nil_r. simpl. by rewrite Hx, Ho. }
  assert (∀ e, pipe_inv v0 rs (set_phase (Joining (Some e)) (set_ends false true p))) as Hend.
  { intros e. split; simpl; try done.
    - exists compress, rest, bufs. split_and!; [done|done|by intros [?|[?|?]]].
    - rewrite Ho. by apply prefix_app_r. }
  destruct (worker_alive p) eqn:Ea; cbn [negb] in Hs.
  - destruct (len (p_tasks p) <? max_buffered_records ct).
    + destruct (backpressure_mode ct); injection Hs as <-;
        (refine (Hgo (PendingQueued _) _ (p_stats p) eq_refl _);
         by apply queued_snoc).
    + destruct (backpressure_mode ct); [done|..].
      * injection Hs as <-. apply Hend.
      * injection Hs as <-. refine (Hgo (PendingDropped _) _ _ eq_refl _).
        unfold queued_seqs. rewrite omap_app. simpl. by rewrite app_nil_r.
  - assert (Some (set_phase (Joining (Some worker_stopped)) (set_ends false true p)) = Some p') as Hs'
      by by destruct (backpressure_mode ct). injection Hs' as <-. apply Hend.
Qed.

Lemma draining_inv v0 rs (p p' : Pipe C) :
  pipe_inv v0 rs p → p_phase p = Draining → main_step state_file consume ct p = Some p' → pipe_inv v0 rs p'.
Proof.
  intros Hinv Eph Hs. assert (running (p_phase p)) as Hrun by by rewrite Eph.
  pose proof (flush_turn_inv v0 rs true p Hinv Hrun) as Ht. unfold main_step in Hs. rewrite Eph in Hs.
  destruct (flush_turn state_file consume true p) as [p1| | |e p1]; [| |done|].
  - injection Hs as <-. apply Ht.
  - injection Hs as <-. destruct Hinv as [Hv (compress & rest & bufs & E & Hf & Hl) Ho Hj Hd Hq Hr].
    rewrite Eph in *. split; simpl; try done.
    + exists compress, rest, bufs. split_and!; [done|done|]. intros _. apply Hl. by left.
    + intros _. by apply Ht.
  - injection Hs as <-. destruct Ht as (Hb & Hc & Hr). by apply (return_inv v0 rs p); rewrite ?Hb.
Qed.

Lemma joining_inv v0 rs (p p' : Pipe C) failure :
  pipe_inv v0 rs p → p_phase p = Joining failure → main_step state_file consume ct p = Some p' → pipe_inv v0 rs p'.
Proof.
  intros Hinv Eph Hs. unfold main_step in Hs. rewrite Eph in Hs.
  destruct (p_worker p) as [| | |r]; [done..|]. injection Hs as <-.
  destruct Hinv as [Hv (compress & rest & bufs & E & Hf & Hl) Ho Hj Hd Hq Hr]. rewrite Eph in *.
  destruct failure as [e|].
  - split; simpl; try done. exists compress, rest, bufs. split_and!; [done|done|by intros [?|[?|?]]].
  - specialize (Hj eq_refl). rewrite Hj in Ho. simpl in Ho. rewrite app_nil_r in Ho. split; simpl; try done.
    + exists compress, rest, bufs. split_and!; [done|done|]. intros _. apply Hl. by right; left.
    + by rewrite Ho.
Qed.

Lemma main_step_inv v0 rs (p p' : Pipe C) :
  pipe_inv v0 rs p → main_step state_file consume ct p = Some p' → pipe_inv v0 rs p'.
Proof.
  intros Hinv Hs. destruct (p_phase p) as [|r|r| |failure|res] eqn:Eph.
  - by eapply reading_inv.
  - by eapply flushing_inv.
  - by eapply enqueueing_inv.
  - by eapply draining_inv.
  - by eapply joining_inv.
  - unfold main_step in Hs. by rewrite Eph in Hs.
Qed.

(** A step that only moves results and tasks along. *)
Lemma worker_moves_inv v0 rs (p p' : Pipe C) :
  pipe_inv v0 rs p → p_bridge p' = p_bridge p → p_phase p' = p_phase p → p_pending p' = p_pending p →
  p_read p' = p_read p → p_committed p' = p_committed p → p_receiver p' = p_receiver p →
  (running (p_phase p) →
   if worker_alive p' then queued_seqs (p_pending p) = due p'
   else (res_seq <$> p_results p') `prefix_of` queued_seqs (p_pending p)) →
  pipe_inv v0 rs p'.
Proof.
  intros [Hv Hin Ho Hj Hd Hq Hr] Eb Eph Ep Er Ec Ere Hq'.
  split; rewrite ?Eb, ?Eph, ?Ep, ?Er, ?Ec, ?Ere; done.
Qed.

Lemma worker_end_eq (p : Pipe C) : ∃ b c, worker_end p = set_worker (Ended (Ok tt)) b c p.
Proof. unfold worker_end. destruct (batcher_flush _) as [? [b c]]. by eexists _, _. Qed.

(** When the worker ends, the results it has sent are the first ones due. *)
Lemma ended_inv v0 rs (p p' : Pipe C) r b c :
  pipe_inv v0 rs p → worker_alive p = true → p' = set_worker (Ended r) b c p → pipe_inv v0 rs p'.
Proof.
  intros Hinv Ha ->. apply (worker_moves_inv v0 rs p); try done. intros Hrun.
  pose proof (pi_queue _ _ _ Hinv Hrun) as Hq. rewrite Ha in Hq. simpl. rewrite Hq. unfold due.
  by apply prefix_app_r.
Qed.

Lemma worker_step_inv v0 rs now now' (p p' : Pipe C) :
  pipe_inv v0 rs p → worker_step open now now' p = Some p' → pipe_inv v0 rs p'.
Proof.
  intros Hinv Hs. unfold worker_step in Hs.
  assert (worker_alive p = true → running (p_phase p) → queued_seqs (p_pending p) = due p) as Hq.
  { intros Ha Hrun. pose proof (pi_queue _ _ _ Hinv Hrun) as Hq. by rewrite Ha in Hq. }
  destruct (p_worker p) as [| |task|r] eqn:Ew; [| | |done].
  - assert (worker_alive p = true) as Ha by (unfold worker_alive; by rewrite Ew).
    destruct (open (p_conn p)) as [[[]|e] c]; injection Hs as <-; [|by eapply ended_inv].
    apply (worker_moves_inv v0 rs p); try done. intros Hrun. simpl. rewrite (Hq Ha Hrun). unfold due. by rewrite Ew.
  - assert (worker_alive p = true) as Ha by (unfold worker_alive; by rewrite Ew).
    destruct (p_tasks p) as [|task tasks] eqn:Et.
    + destruct (p_sender p).
      * destruct (flush_if_expired now (p_batcher p, p_conn p)) as [[[]|e] [b c]]; injection Hs as <-;
          [|by eapply ended_inv].
        apply (worker_moves_inv v0 rs p); try done. intros Hrun. simpl. rewrite (Hq Ha Hrun). unfold due.
        by rewrite Ew.
      * injection Hs as <-. destruct (worker_end_eq p) as (b & c & E). by eapply ended_inv.
    + injection Hs as <-. apply (worker_moves_inv v0 rs p); try done. intros Hrun. simpl.
      rewrite (Hq Ha Hrun). unfold due. by rewrite Ew, Et.
  - assert (worker_alive p = true) as Ha by (unfold worker_alive; by rewrite Ew).
    destruct (export_task task now now' (p_batcher p, p_conn p)) as [[outcome|e] [b c]];
      [|injection Hs as <-; by eapply ended_inv].
    destruct (p_receiver p) eqn:Erec; cbn [negb] in Hs.
    + set (p1 := set_queues _ _ _ _) in Hs.
      assert (pipe_inv v0 rs p1) as Hinv1.
      { apply (worker_moves_inv v0 rs p); try done. intros Hrun. simpl. rewrite (Hq Ha Hrun). unfold due.
        rewrite Ew. unfold p1. simpl. by rewrite fmap_app, <- app_assoc. }
      injection Hs as <-. destruct (is_ok outcome); [done|].
      destruct (worker_end_eq p1) as (b' & c' & E). by eapply ended_inv.
    + injection Hs as <-. destruct (worker_end_eq (set_worker Idle b c p)) as (b' & c' & ->).
      apply (worker_moves_inv v0 rs p); try done. intros Hrun. pose proof (pi_receiver _ _ _ Hinv Hrun). congruence.
Qed.

(** The invariant at the start. *)
Lemma pipe_start_inv b c compress rs bufs :
  frames compress rs bufs → b_in b = mkStream (concat bufs) None →
  pipe_inv (view b) rs (pipe_start ct b c).
Proof.
  intros Hf Eb. split; simpl; try done.
  exists compress, rs, bufs. split_and!; [done|done|by intros [?|[?|?]]].
Qed.

Lemma pipe_reachable_inv b c compress rs bufs p :
  frames compress rs bufs → b_in b = mkStream (concat bufs) None →
  pipe_reachable open state_file consume ct b c p → pipe_inv (view b) rs p.
Proof.
  intros Hf Eb. induction 1 as [|p p' Hr IH Hs]; [by eapply pipe_start_inv|].
  destruct Hs as [Hm|now now' Hw]; [by eapply main_step_inv|by eapply worker_step_inv].
Qed.

End Invariant.

(** ** Schedules *)

Section Schedule.
Context {EX : Externals} {OT : Otlp} {LC : LogsCodec} {C : Type} {CC : Collector C}.
Context (open : M C IoError unit) (state_file : option (list Z)) (consume : bool) (ct : CollectorTransport).

(** [true] is a step of the bridge thread, [false] one of the export thread; a
    thread that has to wait does nothing. *)
Definition schedule_step (p : Pipe C) (main : bool) : Pipe C :=
  default p (if main then main_step state_file consume ct p else worker_step open 0 0 p).

Definition run_schedule (p : Pipe C) (schedule : list bool) : Pipe C := foldl schedule_step p schedule.

Lemma run_schedule_reachable b c p schedule :
  pipe_reachable open state_file consume ct b c p →
  pipe_reachable open state_file consume ct b c (run_schedule p schedule).
Proof.
  revert p. induction schedule as [|main schedule IH]; intros p Hp; [done|]. apply IH. unfold schedule_step.
  destruct main.
  - destruct (main_step state_file consume ct p) as [p'|] eqn:E; [|done].
    eapply pipe_next; [done|by apply step_main].
  - destruct (worker_step open 0 0 p) as [p'|] eqn:E; [|done].
    eapply pipe_next; [done|by eapply step_worker].
Qed.
End Schedule.

Section Witness.
#[local] Existing Instance stored_externals.
#[local] Existing Instance stored_laws.
#[local] Existing Instance sample_otlp.
#[local] Existing Instance sample_codec.
#[local] Existing Instance sample_codec_laws.

(** A collector that is down. *)
Definition down_collector : Collector Z := λ _ _ n, (Err (io_error OtherKind "unavailable"), n).
#[local] Existing Instance down_collector.

Definition pipe_record (n : Z) : WireRecord := mkWire Logs n (10 * n) (sample_request [n]).
Definition pipe_frames (rs : list WireRecord) : list (list Z) :=
  (λ r, match encode_wire_record r false with Ok buf => buf | Err _ => [] end) <$> rs.
Definition pipe_bridge (rs : list WireRecord) : Bridge (list Z) :=
  mkBridge (mkStream (concat (pipe_frames rs)) None) [] ∅ (mkBridgeState (Some 77) 3).
Definition batching : CollectorTransport := mkTransport true Block 16 10 0 Drain.

Lemma pipe_frames_ok : frames false [pipe_record 4] (pipe_frames [pipe_record 4]).
Proof.
  constructor; [|constructor]. split; [split_and!|vm_compute; reflexivity].
  - vm_compute. split; discriminate.
  - vm_compute. split; discriminate.
  - apply (bool_decide_unpack _). vm_compute. exact I.
Qed.

(** One record, a few steps of both threads, and then the end of the stream. *)
Definition lost_schedule : list bool :=
  [true; true; true; false; false; false; true; true; false; true; true].
Definition lost_run : Pipe (recorded Z) :=
  run_schedule (recording (ret tt)) None true batching
    (pipe_start batching (pipe_bridge [pipe_record 4]) (0, [])) lost_schedule.

Lemma lost_run_reachable :
  pipe_reachable (recording (ret tt)) None true batching (pipe_bridge [pipe_record 4]) (0, []) lost_run.
Proof. apply run_schedule_reachable. constructor. Qed.


(** Acknowledged before exported.  With a batch size above one the export thread
    reports a log record as delivered when it has only been merged into the batch.
    There is a run in which the bridge acknowledges a record to a draining upstream,
    which then deletes it, and ends its session without an error, although the
    collector has accepted nothing. *)
Theorem batched_record_acknowledged_and_lost :
  ∃ p : Pipe (recorded Z),
    pipe_reachable (recording (ret tt)) None true batching (pipe_bridge [pipe_record 4]) (0, []) p ∧
    p_phase p = Returned (Ok tt) ∧ p_committed p = [4] ∧
    b_out (p_bridge p) = encode_replay_ack (mkReplayAck 4) ∧
    (p_conn p).2 = [] ∧ pending (p_batcher p) = [].
Proof.
  exists lost_run. split; [exact lost_run_reachable|]. split_and!; vm_compute; reflexivity.
Qed.
End Witness.
