(* ===== verification/Policy.v ===== *)
(** * Admission: the rate policy and the connection limit

    [logjetd/src/daemon.rs]: [SharedIngestPolicy], which admits batches per second
    and lets severe ones pass, and [ConnectionLimiter], a lock-free counter of
    clients.  Instants are nanoseconds; every reading of the clock is an argument. *)

From S2P Require Import Prelude.

(** ** Data *)

Inductive SeverityFloor : Type := FloorTrace | FloorDebug | FloorInfo | FloorWarn | FloorError | FloorFatal.

Record IngestOverloadConfig : Type := mkOverload {
  max_batches_per_second : Z;
  priority_severity_floor : SeverityFloor;
  report_every_ms : Z;
}.

Inductive BatchPriority : Type :=
| PUnknown | PTrace | PDebug | PInfo | PWarn | PError | PFatal.

(** The discriminants, by which the derived order compares. *)
Definition priority_rank (p : BatchPriority) : Z :=
  match p with
  | PUnknown => 0 | PTrace => 1 | PDebug => 2 | PInfo => 3 | PWarn => 4 | PError => 5 | PFatal => 6
  end.

Definition priority_max (p q : BatchPriority) : BatchPriority :=
  if priority_rank p <=? priority_rank q then q else p.

Inductive IngestDecision : Type := Accept | AcceptPriorityBypass | RejectRateLimited.

#[export] Instance IngestDecision_eq_dec : EqDecision IngestDecision.
Proof. solve_decision. Defined.

Record IngestOverloadStats : Type := mkStats {
  st_accepted : Z;
  st_priority_bypass : Z;
  st_rate_limited : Z;
  st_oversize_rejected : Z;
  st_client_cap_rejected : Z;
}.

Record IngestPolicyState : Type := mkPolicy {
  window_start : Z;
  accepted_in_window : Z;
  policy_stats : IngestOverloadStats;
  next_report_at : Z;
}.

Definition nanos_of_millis (ms : Z) : Z := ms * 1000000.
Definition one_second : Z := 1000000000.

(** ** Operations *)

Definition policy_new (config : IngestOverloadConfig) (now : Z) : IngestPolicyState :=
  mkPolicy now 0 (mkStats 0 0 0 0 0) (now + nanos_of_millis (Z.max (report_every_ms config) 1)).

Definition batch_priority_floor (floor : SeverityFloor) : BatchPriority :=
  match floor with
  | FloorTrace => PTrace | FloorDebug => PDebug | FloorInfo => PInfo
  | FloorWarn => PWarn | FloorError => PError | FloorFatal => PFatal
  end.

(** The line it prints is left out. *)
Definition maybe_report_overload (config : IngestOverloadConfig) (now : Z) (state : IngestPolicyState)
    : IngestPolicyState :=
  if report_every_ms config =? 0 then state else
  if now <? next_report_at state then state else
  mkPolicy (window_start state) (accepted_in_window state) (policy_stats state)
    (now + nanos_of_millis (Z.max (report_every_ms config) 1)).

Definition roll_window (now : Z) (state : IngestPolicyState) : IngestPolicyState :=
  if one_second <=? now - window_start state
  then mkPolicy now 0 (policy_stats state) (next_report_at state) else state.

Definition bump (n : Z) : Z := saturating_add MAX_U64 n 1.
Definition set_policy_stats (stats : IngestOverloadStats) (s : IngestPolicyState) : IngestPolicyState :=
  mkPolicy (window_start s) (accepted_in_window s) stats (next_report_at s).

(** [now] is read at the start, [now'] in [maybe_report_overload]. *)
Definition decide_batch (config : IngestOverloadConfig) (priority : BatchPriority) (now now' : Z)
    (state : IngestPolicyState) : IngestDecision * IngestPolicyState :=
  let state := roll_window now state in
  let '(mkStats a p r o c) := policy_stats state in
  if (max_batches_per_second config =? 0) || (accepted_in_window state <? max_batches_per_second config)
  then (Accept, mkPolicy (window_start state) (bump (accepted_in_window state)) (mkStats (bump a) p r o c)
                  (next_report_at state)) else
  if priority_rank (batch_priority_floor (priority_severity_floor config)) <=? priority_rank priority
  then (AcceptPriorityBypass, maybe_report_overload config now' (set_policy_stats (mkStats a (bump p) r o c) state))
  else (RejectRateLimited, maybe_report_overload config now' (set_policy_stats (mkStats a p (bump r) o c) state)).

Definition note_oversize (config : IngestOverloadConfig) (now : Z) (state : IngestPolicyState) : IngestPolicyState :=
  let '(mkStats a p r o c) := policy_stats state in
  maybe_report_overload config now (set_policy_stats (mkStats a p r (bump o) c) state).

Definition note_client_cap (config : IngestOverloadConfig) (now : Z) (state : IngestPolicyState) : IngestPolicyState :=
  let '(mkStats a p r o c) := policy_stats state in
  maybe_report_overload config now (set_policy_stats (mkStats a p r o (bump c)) state).

(** ** The rate bound *)

Record arrival : Type := mkArrival { ar_priority : BatchPriority; ar_now : Z; ar_now' : Z }.

Fixpoint decide_all (config : IngestOverloadConfig) (arrivals : list arrival) (state : IngestPolicyState)
    : list IngestDecision * IngestPolicyState :=
  match arrivals with
  | [] => ([], state)
  | x :: arrivals =>
      let '(d, state) := decide_batch config (ar_priority x) (ar_now x) (ar_now' x) state in
      let '(ds, state) := decide_all config arrivals state in (d :: ds, state)
  end.

Definition count_decisions (d : IngestDecision) (ds : list IngestDecision) : Z := len (filter (eq d) ds).

(** The quota is respected in the current window. *)
Definition quota_ok (config : IngestOverloadConfig) (state : IngestPolicyState) : Prop :=
  0 ≤ accepted_in_window state ≤ max_batches_per_second config.

Lemma report_keeps config now s :
  let s' := maybe_report_overload config now s in
  window_start s' = window_start s ∧ accepted_in_window s' = accepted_in_window s ∧ policy_stats s' = policy_stats s.
Proof. unfold maybe_report_overload. by repeat case_match. Qed.

Lemma count_cons d x ds : count_decisions d (x :: ds) = (if decide (d = x) then 1 else 0) + count_decisions d ds.
Proof. unfold count_decisions. rewrite filter_cons. case_decide; [by rewrite len_cons|done]. Qed.

(** One decision: the window it falls in and what it adds there. *)
Lemma decide_window config p now now' s d s' :
  0 < max_batches_per_second config ≤ MAX_U64 → quota_ok config s →
  decide_batch config p now now' s = (d, s') →
  quota_ok config s' ∧ window_start s' = window_start (roll_window now s) ∧
  accepted_in_window s' = accepted_in_window (roll_window now s) + (if decide (Accept = d) then 1 else 0) ∧
  (d = RejectRateLimited → accepted_in_window s' = max_batches_per_second config ∧
    priority_rank p < priority_rank (batch_priority_floor (priority_severity_floor config))).
Proof.
  intros Hmax Hq. assert (quota_ok config (roll_window now s)) as Hq'.
  { unfold roll_window. case_match; [|done]. unfold quota_ok. simpl. lia. }
  unfold decide_batch. set (s0 := roll_window now s) in *. unfold quota_ok in *.
  destruct (policy_stats s0) as [a b r o c].
  destruct (Z.eqb_spec (max_batches_per_second config) 0); [lia|]. simpl.
  destruct (Z.ltb_spec (accepted_in_window s0) (max_batches_per_second config)).
  - intros [= <- <-]. simpl. unfold bump, saturating_add. split_and!; try done; lia.
  - destruct (Z.leb_spec (priority_rank (batch_priority_floor (priority_severity_floor config))) (priority_rank p));
      intros [= <- <-];
      match goal with |- context [maybe_report_overload config now' ?x] =>
        destruct (report_keeps config now' x) as (-> & -> & _) end; simpl; split_and!; done || lia.
Qed.

Lemma accepts_bound config arrivals s t0 t1 ds s' :
  0 < max_batches_per_second config ≤ MAX_U64 → quota_ok config s → t1 ≤ t0 + one_second →
  Forall (λ x, t0 ≤ ar_now x < t1) arrivals → decide_all config arrivals s = (ds, s') →
  count_decisions Accept ds ≤ max_batches_per_second config - accepted_in_window s +
    (if bool_decide (window_start s + one_second < t1) then max_batches_per_second config else 0).
Proof.
  intros Hmax Hq Ht. revert s ds s' Hq. induction arrivals as [|x arrivals IH]; intros s ds s' Hq Hall Hd.
  { injection Hd as <- <-. unfold quota_ok in Hq. change (count_decisions _ _) with 0. case_match; lia. }
  apply Forall_cons_iff in Hall as [Hx Hall]. simpl in Hd.
  destruct (decide_batch config (ar_priority x) (ar_now x) (ar_now' x) s) as [d s1] eqn:E1.
  destruct (decide_all config arrivals s1) as [ds1 s2] eqn:E2. injection Hd as <- <-.
  destruct (decide_window _ _ _ _ _ _ _ Hmax Hq E1) as (Hq1 & Hw & Ha & _).
  specialize (IH _ _ _ Hq1 Hall E2). rewrite count_cons, Hw, Ha in *. clear E1 E2 Hw Ha.
  unfold roll_window, quota_ok in *.
  destruct (Z.leb_spec one_second (ar_now x - window_start s)); simpl in *.
  - rewrite (bool_decide_eq_false_2 (ar_now x + one_second < t1)) in IH by lia.
    rewrite bool_decide_eq_true_2 by lia. lia.
  - case_match; lia.
Qed.

Lemma decide_all_cons config x arrivals s ds s' :
  decide_all config (x :: arrivals) s = (ds, s') → ∃ d s1 ds1,
    decide_batch config (ar_priority x) (ar_now x) (ar_now' x) s = (d, s1) ∧
    decide_all config arrivals s1 = (ds1, s') ∧ ds = d :: ds1.
Proof.
  simpl. destruct (decide_batch _ _ _ _ _) as [d s1], (decide_all config arrivals s1) as [ds1 s2] eqn:E.
  intros [= <- <-]. by exists d, s1, ds1.
Qed.

(** The counter that a decision increments. *)
Definition decision_counter (d : IngestDecision) (st : IngestOverloadStats) : Z :=
  match d with
  | Accept => st_accepted st
  | AcceptPriorityBypass => st_priority_bypass st
  | RejectRateLimited => st_rate_limited st
  end.

Lemma decide_counts config p now now' s d s' d0 :
  decide_batch config p now now' s = (d, s') → decision_counter d0 (policy_stats s) < MAX_U64 →
  decision_counter d0 (policy_stats s') =
    decision_counter d0 (policy_stats s) + (if decide (d0 = d) then 1 else 0).
Proof.
  unfold decide_batch. intros Hd Hlt.
  assert (policy_stats (roll_window now s) = policy_stats s) as E by (unfold roll_window; repeat case_match; done).
  rewrite E in Hd. clear E. destruct (policy_stats s) as [a b r o c].
  destruct (_ || _); [|destruct (_ <=? _)]; injection Hd as <- <-;
    try match goal with |- context [maybe_report_overload config now' ?x] =>
          destruct (report_keeps config now' x) as (_ & _ & ->) end;
    destruct d0; simpl in *; repeat case_decide; try done; unfold bump, saturating_add; lia.
Qed.

Lemma decide_all_counts config arrivals s ds s' d0 :
  decide_all config arrivals s = (ds, s') → decision_counter d0 (policy_stats s) + len arrivals ≤ MAX_U64 →
  decision_counter d0 (policy_stats s') = decision_counter d0 (policy_stats s) + count_decisions d0 ds.
Proof.
  revert s ds s'. induction arrivals as [|x arrivals IH]; intros s ds s' Hd Hb.
  { injection Hd as <- <-. change (count_decisions _ _) with 0. lia. }
  apply decide_all_cons in Hd as (d & s1 & ds1 & E1 & E2 & ->). rewrite len_cons in Hb.
  pose proof (len_nonneg arrivals). pose proof (decide_counts _ _ _ _ _ _ _ d0 E1 ltac:(lia)) as Hc.
  rewrite (IH _ _ _ E2), Hc, count_cons; case_decide; lia.
Qed.

(** ** The connection limit

    [try_acquire] is a load followed by a compare-and-exchange that other threads
    may come between; the permit is released when its owner is dropped. *)

Inductive client : Type :=
| ClientStart
| ClientLoaded (current : Z)
| ClientPermit
| ClientRefused
| ClientGone.

Record ConnectionLimiter : Type := mkLimiter { max_clients : Z; active_clients : Z; limiter_clients : list client }.

Definition ConnectionLimiter_new (max : Z) (n : nat) : ConnectionLimiter := mkLimiter max 0 (replicate n ClientStart).

(** The next atomic step of a client, with the value of the counter after it. *)
Definition client_step (max active : Z) (c : client) : option (Z * client) :=
  match c with
  | ClientStart => Some (active, if max <=? active then ClientRefused else ClientLoaded active)
  | ClientLoaded current =>
      if active =? current then Some (current + 1, ClientPermit) else Some (active, ClientStart)
  | ClientPermit => Some ((active - 1) mod 2 ^ 64, ClientGone)
  | ClientRefused | ClientGone => None
  end.

Inductive limiter_step : ConnectionLimiter → ConnectionLimiter → Prop :=
| limiter_client max active cs i c active' c' :
    cs !! i = Some c → client_step max active c = Some (active', c') →
    limiter_step (mkLimiter max active cs) (mkLimiter max active' (<[i := c']> cs)).

Definition limiter_reachable (max : Z) (n : nat) : ConnectionLimiter → Prop :=
  rtc limiter_step (ConnectionLimiter_new max n).

Definition holds_permit (c : client) : bool := match c with ClientPermit => true | _ => false end.
Definition permits (cs : list client) : Z := len (filter (λ c, holds_permit c = true) cs).

Record limiter_inv (l : ConnectionLimiter) : Prop := {
  li_count : active_clients l = permits (limiter_clients l);
  li_bound : permits (limiter_clients l) ≤ max_clients l ≤ MAX_U64;
  li_loaded : ∀ i current, limiter_clients l !! i = Some (ClientLoaded current) → 0 ≤ current < max_clients l;
}.

Lemma permits_insert cs i c c' :
  cs !! i = Some c →
  permits (<[i := c']> cs) = permits cs - (if holds_permit c then 1 else 0) + (if holds_permit c' then 1 else 0).
Proof.
  revert i. induction cs as [|a cs IH]; intros [|i]; simpl; try done; unfold permits in *; rewrite !filter_cons.
  - intros [= ->]. repeat case_decide; repeat case_match; rewrite ?len_cons; done || lia.
  - intros Hi%IH. case_decide; rewrite ?len_cons; lia.
Qed.

Lemma permits_nonneg cs : 0 ≤ permits cs.
Proof. apply len_nonneg. Qed.

Lemma permits_pos cs i : cs !! i = Some ClientPermit → 0 < permits cs.
Proof.
  intros Hi. pose proof (permits_insert cs i ClientPermit ClientGone Hi) as H. simpl in H.
  pose proof (permits_nonneg (<[i := ClientGone]> cs)). lia.
Qed.

Lemma limiter_step_inv l l' : limiter_inv l → limiter_step l l' → limiter_inv l' ∧ max_clients l' = max_clients l.
Proof.
  intros [Hc Hb Hl] Hs. destruct Hs as [max active cs i c active' c' Hi Hstep]. simpl in *.
  split; [|done]. pose proof (permits_insert cs i c c' Hi) as Hp. pose proof (permits_nonneg cs) as Hn.
  assert (active' = permits (<[i := c']> cs) ∧ permits (<[i := c']> cs) ≤ max ∧
    ∀ current, c' = ClientLoaded current → 0 ≤ current < max) as (H1 & H2 & H3).
  { destruct c as [|current| | |]; simpl in Hstep; try done.
    - injection Hstep as <- <-. rewrite Hp. destruct (Z.leb_spec max active); simpl; split_and!; try done; try lia.
      intros current [= <-]. lia.
    - specialize (Hl _ _ Hi). destruct (Z.eqb_spec active current); injection Hstep as <- <-; rewrite Hp; simpl;
        split_and!; done || lia.
    - injection Hstep as <- <-. rewrite Hp. pose proof (permits_pos _ _ Hi). simpl.
      rewrite Z.mod_small by int_solve. split_and!; done || lia. }
  split; simpl; [done|lia|]. intros j current Hj.
  destruct (decide (j = i)) as [->|Hne].
  - rewrite list_lookup_insert_eq in Hj by (by eapply lookup_lt_Some). injection Hj as Hj. by apply H3.
  - rewrite list_lookup_insert_ne in Hj by done. by eapply Hl.
Qed.

Lemma limiter_reachable_inv max n l :
  0 ≤ max ≤ MAX_U64 → limiter_reachable max n l → limiter_inv l ∧ max_clients l = max.
Proof.
  intros Hm Hr. unfold limiter_reachable in Hr. remember (ConnectionLimiter_new max n) as l0 eqn:E0.
  assert (limiter_inv l0 ∧ max_clients l0 = max) as [Hi Hx].
  { subst l0. assert (permits (replicate n ClientStart) = 0) as E by (unfold permits; clear; by induction n).
    split; [|done]. split; simpl; rewrite ?E; try lia. intros i c [Hi _]%lookup_replicate. done. }
  clear E0. induction Hr as [l|l l1 l2 Hs Hr IH]; [done|].
  destruct (limiter_step_inv _ _ Hi Hs) as [Hi1 Hx1]. apply IH; [done|congruence].
Qed.

(** ** The theorems *)

(** C14: rate limiting.  Whatever arrives, within any second at most twice the
    configured number of batches takes quota, and at most the configured number
    when no new window starts; a batch at or above the severity floor is never
    refused, one is only refused below the floor; and every decision is counted. *)
Theorem rate_limit_bounds_intake config arrivals s t0 t1 ds s' :
  0 < max_batches_per_second config ≤ MAX_U64 → quota_ok config s → t1 ≤ t0 + one_second →
  Forall (λ x, t0 ≤ ar_now x < t1) arrivals → decide_all config arrivals s = (ds, s') →
  count_decisions Accept ds ≤ 2 * max_batches_per_second config ∧
  (t1 ≤ window_start s + one_second → count_decisions Accept ds ≤ max_batches_per_second config) ∧
  Forall2 (λ x d, d = RejectRateLimited →
    priority_rank (ar_priority x) < priority_rank (batch_priority_floor (priority_severity_floor config))) arrivals ds ∧
  (∀ d, decision_counter d (policy_stats s) + len arrivals ≤ MAX_U64 →
    decision_counter d (policy_stats s') = decision_counter d (policy_stats s) + count_decisions d ds).
Proof.
  intros Hmax Hq Ht Hall Hd. pose proof (accepts_bound _ _ _ _ _ _ _ Hmax Hq Ht Hall Hd) as Hb.
  pose proof Hq as Hq'. unfold quota_ok in Hq'. split_and!.
  - case_match; lia.
  - intros Hw. rewrite bool_decide_eq_false_2 in Hb by lia. lia.
  - clear Hb Hall Hq'. revert s ds Hq Hd. induction arrivals as [|x arrivals IH]; intros s ds Hq Hd.
    { by injection Hd as <- <-. }
    apply decide_all_cons in Hd as (d & s1 & ds1 & E1 & E2 & ->).
    destruct (decide_window _ _ _ _ _ _ _ Hmax Hq E1) as (Hq1 & _ & _ & Hr).
    constructor; [by intros [_ ?]%Hr|by eapply IH].
  - intros d. by apply (decide_all_counts config arrivals).
Qed.

(** C15: the connection limit.  However the loads, exchanges and releases of clients
    interleave, the counter is the number of permits held and never exceeds the
    limit, and a client is only refused while all permits are held. *)
Theorem connections_never_exceed_limit max n l :
  0 ≤ max ≤ MAX_U64 → limiter_reachable max n l →
  active_clients l = permits (limiter_clients l) ∧ active_clients l ≤ max ∧
  ∀ i c active', limiter_clients l !! i = Some c →
    client_step (max_clients l) (active_clients l) c = Some (active', ClientRefused) →
    permits (limiter_clients l) = max.
Proof.
  intros Hm Hr. destruct (limiter_reachable_inv max n l Hm Hr) as [[Hc Hb Hl] Hx].
  split_and!; [done|lia|]. intros i c active' Hi Hs.
  destruct c as [|current| | |]; simpl in Hs; try done; [|by case_match].
  destruct (Z.leb_spec (max_clients l) (active_clients l)); [lia|done].
Qed.

Definition sample_overload : IngestOverloadConfig := mkOverload 2 FloorError 1000.
Definition sample_arrivals : list arrival :=
  [mkArrival PInfo 10 11; mkArrival PInfo 20 21; mkArrival PWarn 30 31; mkArrival PFatal 40 41; mkArrival PInfo 50 51].

Definition sample_policy : IngestPolicyState := policy_new sample_overload 5.
Definition sample_decisions : list IngestDecision :=
  [Accept; Accept; RejectRateLimited; AcceptPriorityBypass; RejectRateLimited].
Definition sample_after : IngestPolicyState := (decide_all sample_overload sample_arrivals sample_policy).2.

Lemma sample_decided : decide_all sample_overload sample_arrivals sample_policy = (sample_decisions, sample_after).
Proof. vm_compute. reflexivity. Qed.

Lemma rate_limit_bounds_intake_witness :
  count_decisions Accept sample_decisions ≤ 2 * max_batches_per_second sample_overload ∧
  (one_second ≤ window_start sample_policy + one_second →
    count_decisions Accept sample_decisions ≤ max_batches_per_second sample_overload) ∧
  Forall2 (λ x d, d = RejectRateLimited →
    priority_rank (ar_priority x) < priority_rank (batch_priority_floor (priority_severity_floor sample_overload)))
    sample_arrivals sample_decisions ∧
  (∀ d, decision_counter d (policy_stats sample_policy) + len sample_arrivals ≤ MAX_U64 →
    decision_counter d (policy_stats sample_after) =
      decision_counter d (policy_stats sample_policy) + count_decisions d sample_decisions).
Proof.
  apply (rate_limit_bounds_intake sample_overload sample_arrivals sample_policy 0 one_second sample_decisions sample_after).
  - vm_compute. split; [reflexivity|discriminate].
  - vm_compute. split; discriminate.
  - vm_compute. discriminate.
  - repeat constructor; vm_compute; done.
  - exact sample_decided.
Defined.

Lemma connections_never_exceed_limit_witness :
  let l := mkLimiter 1 1 [ClientPermit; ClientLoaded 0; ClientStart] in
  active_clients l = permits (limiter_clients l) ∧ active_clients l ≤ 1 ∧
  ∀ i c active', limiter_clients l !! i = Some c →
    client_step (max_clients l) (active_clients l) c = Some (active', ClientRefused) →
    permits (limiter_clients l) = 1.
Proof.
  apply (connections_never_exceed_limit 1 3 (mkLimiter 1 1 [ClientPermit; ClientLoaded 0; ClientStart])).
  - by vm_compute.
  - eapply rtc_l; [apply (limiter_client 1 0 [ClientStart; ClientStart; ClientStart] 1 ClientStart); reflexivity|].
    eapply rtc_l; [apply (limiter_client 1 0 [ClientStart; ClientLoaded 0; ClientStart] 0 ClientStart); reflexivity|].
    eapply rtc_l; [|apply rtc_refl].
    apply (limiter_client 1 0 [ClientLoaded 0; ClientLoaded 0; ClientStart] 0 (ClientLoaded 0)); reflexivity.
Defined.
