(* ===== verification/Ingest.v ===== *)
(** * Ingestion

    [logjetd/src/daemon.rs]: the three ways a batch of telemetry enters the spool,
    HTTP, gRPC and the wire protocol, with the policy and the sequence numbers they
    share.  [hyper], [tonic], [flate2] and [prost] are parameters: a request is what
    they hand to the code. *)

From stdpp Require Import sorting.
From S2P Require Import Prelude Format Text Writer Reader Scan Container RecordLoop Protocol Source BufferSpool FileSpool Spool ReplayServer Otlp Policy Bridge Instances.

(** ** The outside *)

(** The clock readings that a run makes, by their number. *)
Class Clock : Type := { instant_now : nat → Z; unix_time_nanos : nat → Z }.

(** [GzDecoder::read_to_end]. *)
Class Gzip : Type := { gz_decode : list Z → result string (list Z) }.

(** The [prost] codecs of metrics and traces; the messages are known by the parts
    that the daemon reads. *)
Class SignalCodec `{Otlp} : Type := {
  MetricsMessage : Type;
  metrics_view : MetricsMessage → ExportMetricsServiceRequest;
  decode_metrics : list Z → result string MetricsMessage;
  encode_metrics : MetricsMessage → list Z;
  TraceMessage : Type;
  trace_view : TraceMessage → ExportTraceServiceRequest;
  decode_traces : list Z → result string TraceMessage;
  encode_traces : TraceMessage → list Z;
}.

(** ** What is read off a batch *)

Section Batches.
Context {OT : Otlp}.

Definition priority_from_severity_number (n : Z) : BatchPriority :=
  if (21 <=? n) && (n <=? 24) then PFatal else
  if (17 <=? n) && (n <=? 20) then PError else
  if (13 <=? n) && (n <=? 16) then PWarn else
  if (9 <=? n) && (n <=? 12) then PInfo else
  if (5 <=? n) && (n <=? 8) then PDebug else
  if (1 <=? n) && (n <=? 4) then PTrace else PUnknown.

Definition classify_otlp_batch_priority (batch : ExportLogsServiceRequest) : BatchPriority :=
  foldl (λ highest rl,
    foldl (λ highest sl,
      foldl (λ highest record, priority_max highest (priority_from_severity_number (log_severity_number record)))
        highest (log_records sl))
      highest (scope_logs rl))
    PUnknown (resource_logs batch).

(** The first [Some] of a loop with an early return. *)
Fixpoint first_some {A B} (f : A → option B) (l : list A) : option B :=
  match l with
  | [] => None
  | a :: l => match f a with Some b => Some b | None => first_some f l end
  end.

Definition nonzero (z : Z) : option Z := if z =? 0 then None else Some z.

Definition extract_batch_timestamp (batch : ExportLogsServiceRequest) : option Z :=
  first_some (λ rl,
    first_some (λ sl,
      first_some (λ record,
        match nonzero (log_time_unix_nano record) with
        | Some t => Some t
        | None => nonzero (log_observed_time_unix_nano record)
        end) (log_records sl)) (scope_logs rl)) (resource_logs batch).

Definition data_points (data : MetricData) : list Z :=
  match data with
  | Gauge ps | Sum ps | Histogram ps | ExponentialHistogram ps | Summary ps => ps
  end.

(** [Some r] is the early return of [r]: by [?] on a metric without data, or with
    a timestamp. *)
Definition metric_timestamp (m : Metric) : option (option Z) :=
  match metric_data m with
  | None => Some None
  | Some data => match first_some nonzero (data_points data) with Some t => Some (Some t) | None => None end
  end.

Definition extract_batch_timestamp_metrics (batch : ExportMetricsServiceRequest) : option Z :=
  default None (first_some (λ rm, first_some (λ sm, first_some metric_timestamp (metrics sm))
    (scope_metrics rm)) (resource_metrics batch)).

Definition extract_batch_timestamp_traces (batch : ExportTraceServiceRequest) : option Z :=
  first_some (λ rs, first_some (λ ss, first_some (λ s, nonzero (span_start_time_unix_nano s)) (spans ss))
    (scope_spans rs)) (resource_spans batch).
End Batches.

(** ** The state that requests share *)

Record Daemon : Type := mkDaemon {
  d_shared : SharedSpool;
  d_policy : IngestPolicyState;
  d_next_seq : Z;
  d_reads : nat;
}.

Section Ingest.
Context {EX : Externals} {OT : Otlp} {LC : LogsCodec} {SC : SignalCodec} {CK : Clock} {GZ : Gzip}.
Context (config : IngestOverloadConfig) (max_batch_bytes : Z).

Local Abbreviation DM := (M Daemon IoError).

Definition read_instant : DM Z :=
  λ d, (Ok (instant_now (d_reads d)), mkDaemon (d_shared d) (d_policy d) (d_next_seq d) (S (d_reads d))).
Definition read_unix : DM Z :=
  λ d, (Ok (unix_time_nanos (d_reads d)), mkDaemon (d_shared d) (d_policy d) (d_next_seq d) (S (d_reads d))).
Definition set_policy (p : IngestPolicyState) (d : Daemon) : Daemon :=
  mkDaemon (d_shared d) p (d_next_seq d) (d_reads d).

(** [ingest_policy.decide(priority)?], [note_oversize()?], [note_client_cap()?] *)
Definition policy_decide (priority : BatchPriority) : DM IngestDecision :=
  let! now := read_instant in
  let! now' := read_instant in
  λ d, let '(decision, p) := decide_batch config priority now now' (d_policy d) in (Ok decision, set_policy p d).
Definition policy_note_oversize : DM unit :=
  let! now := read_instant in modify (λ d, set_policy (note_oversize config now (d_policy d)) d).
Definition policy_note_client_cap : DM unit :=
  let! now := read_instant in modify (λ d, set_policy (note_client_cap config now (d_policy d)) d).

(** [next_seq.fetch_add(1, Ordering::Relaxed)] *)
Definition fetch_add : DM Z :=
  λ d, (Ok (d_next_seq d), mkDaemon (d_shared d) (d_policy d) ((d_next_seq d + 1) mod 2 ^ 64) (d_reads d)).

Definition append_batch_record (record : WireRecord) : DM unit :=
  λ d, let '(r, s) := (locked (Spool_append record) ;;! modify notify_change) (d_shared d) in
       (r, mkDaemon s (d_policy d) (d_next_seq d) (d_reads d)).

(** [ts.unwrap_or_else(unix_time_nanos)] *)
Definition batch_time (ts : option Z) : DM Z := match ts with Some t => ret t | None => read_unix end.

(** ** HTTP *)

Record HttpRequest : Type := mkHttpRequest {
  rq_method : list Z;
  rq_path : list Z;
  rq_content_encoding : option (list Z);
  rq_content_length : option (list Z);
  rq_body : result string (list Z);
}.
Record HttpResponse : Type := mkHttpResponse { rs_status : Z; rs_body : list Z }.

(** [HeaderValue::to_str]: visible ASCII and tabs only. *)
Definition to_str (v : list Z) : option (list Z) :=
  if forallb (λ b, ((32 <=? b) && (b <? 127)) || (b =? 9)) v then Some v else None.

Definition maybe_decompress_body (body : list Z) (encoding : option (list Z)) : result IoError (list Z) :=
  if bool_decide (encoding = Some (str "gzip")) || bool_decide (encoding = Some (str "x-gzip"))
  then map_err (λ err, invalid_data ("gzip decompression failed: " +:+ err)) (gz_decode body)
  else Ok body.

(** Until the sequence number is taken: an answer, or the record to store. *)
Inductive prepared : Type := Answer (r : HttpResponse) | Store (record : WireRecord).

Definition too_large : HttpResponse := mkHttpResponse 413 (str "payload too large").
Definition decode_error (err : string) : HttpResponse := mkHttpResponse 400 (str ("decode error: " +:+ err)).

Definition prepare_batch (t : RecordType) (priority : BatchPriority) (ts : option Z) (payload : list Z) : DM prepared :=
  let! decision := policy_decide priority in
  if decide (decision = RejectRateLimited) then ret (Answer (mkHttpResponse 429 (str "rate limit exceeded"))) else
  let! sq := fetch_add in
  let! ts := batch_time ts in
  ret (Store (mkWire t sq ts payload)).

Definition prepare_http_request (req : HttpRequest) : DM prepared :=
  if negb (bool_decide (rq_method req = str "POST")) ||
     negb (bool_decide (rq_path req ∈ [str "/v1/logs"; str "/v1/metrics"; str "/v1/traces"]))
  then ret (Answer (mkHttpResponse 404 (str "not found"))) else
  let is_metrics := bool_decide (rq_path req = str "/v1/metrics") in
  let is_traces := bool_decide (rq_path req = str "/v1/traces") in
  let content_encoding := rq_content_encoding req ≫= to_str in
  let content_length := match rq_content_length req ≫= to_str with
                        | Some v => match parse_u64 v with Ok n => Some n | Err _ => None end
                        | None => None
                        end in
  if match content_length with Some n => max_batch_bytes <? n | None => false end
  then policy_note_oversize ;;! ret (Answer too_large) else
  let! body := lift (map_err (λ err, io_error OtherKind ("failed to read request body: " +:+ err)) (rq_body req)) in
  if max_batch_bytes <? len body then policy_note_oversize ;;! ret (Answer too_large) else
  match maybe_decompress_body body content_encoding with
  | Err err => ret (Answer (mkHttpResponse 400 (str ("decompression error: " +:+ io_msg err))))
  | Ok body =>
      if is_metrics then
        match decode_metrics body with
        | Ok batch => prepare_batch Metrics PUnknown (extract_batch_timestamp_metrics (metrics_view batch)) body
        | Err err => ret (Answer (decode_error err))
        end
      else if is_traces then
        match decode_traces body with
        | Ok batch => prepare_batch Traces PUnknown (extract_batch_timestamp_traces (trace_view batch)) body
        | Err err => ret (Answer (decode_error err))
        end
      else
        match decode_logs body with
        | Ok batch => prepare_batch Logs (classify_otlp_batch_priority batch) (extract_batch_timestamp batch) body
        | Err err => ret (Answer (decode_error err))
        end
  end.

Definition finish_request (p : prepared) : DM HttpResponse :=
  match p with
  | Answer r => ret r
  | Store record => append_batch_record record ;;! ret (mkHttpResponse 200 [])
  end.

Definition handle_otlp_http_request (req : HttpRequest) : DM HttpResponse :=
  let! p := prepare_http_request req in finish_request p.

(** ** gRPC *)

Inductive Status : Type := StatusInternal (msg : string) | StatusResourceExhausted (msg : string).

(** The body that the three [export] methods share. *)
Definition grpc_store (t : RecordType) (priority : BatchPriority) (ts : option Z) (payload : list Z)
    : M Daemon Status unit :=
  λ d, match policy_decide priority d with
       | (Err err, d) => (Err (StatusInternal (io_msg err)), d)
       | (Ok RejectRateLimited, d) => (Err (StatusResourceExhausted "ingest rate limit exceeded"), d)
       | (Ok _, d) =>
           match (let! sq := fetch_add in let! ts := batch_time ts in append_batch_record (mkWire t sq ts payload)) d with
           | (Ok _, d) => (Ok tt, d)
           | (Err err, d) => (Err (StatusInternal (io_msg err)), d)
           end
       end.

Definition OtlpGrpcLogsService_export (batch : ExportLogsServiceRequest) : M Daemon Status unit :=
  grpc_store Logs (classify_otlp_batch_priority batch) (extract_batch_timestamp batch) (encode_logs batch).
Definition OtlpGrpcMetricsService_export (batch : MetricsMessage) : M Daemon Status unit :=
  grpc_store Metrics PUnknown (extract_batch_timestamp_metrics (metrics_view batch)) (encode_metrics batch).
Definition OtlpGrpcTracesService_export (batch : TraceMessage) : M Daemon Status unit :=
  grpc_store Traces PUnknown (extract_batch_timestamp_traces (trace_view batch)) (encode_traces batch).

(** ** The wire protocol *)

(** [handle_ingest_client] on the bytes of the connection; the fuel bounds the
    number of records, each of which takes at least one byte. *)
Fixpoint wire_loop (fuel : nat) (inp : Stream) : DM unit :=
  match fuel with
  | O => ret tt
  | S fuel =>
      match read_record_with_limit max_batch_bytes inp with
      | (Err e, _) => throw e
      | (Ok None, _) => ret tt
      | (Ok (Some record), inp) =>
          let! decision := policy_decide PUnknown in
          (if decide (decision = RejectRateLimited) then ret tt else append_batch_record record) ;;!
          wire_loop fuel inp
      end
  end.

Definition handle_ingest_client (permit : bool) (inp : Stream) : DM unit :=
  if negb permit then policy_note_client_cap else wire_loop (S (length (input inp))) inp.

(** ** Start and flushing *)

(** The state that [serve] builds; [fresh] is the new stream id, [d] the storage
    directory. *)
Definition serve_start (storage : StorageConfig) (fresh : Z) (d : files) : result IoError Daemon :=
  let? spool := Spool_open storage fresh d in
  let? next_seq_seed := Spool_next_sequence_seed spool in
  Ok (mkDaemon (SharedSpool_new spool) (policy_new config (instant_now 0)) next_seq_seed 1).

(** A turn of [flush_loop]. *)
Definition flush_turn_daemon : DM unit :=
  λ d, let '(r, s) := (locked (Spool_flush_pending ;;! Spool_fsync_if_interval) ;;! modify notify_change) (d_shared d) in
       (r, mkDaemon s (d_policy d) (d_next_seq d) (d_reads d)).
End Ingest.

(** ** What requests do *)

Section Facts.
Context {EX : Externals} {EL : ExternalLaws}.
Context {OT : Otlp} {LC : LogsCodec} {SC : SignalCodec} {CK : Clock} {GZ : Gzip}.
Context (config : IngestOverloadConfig) (max_batch_bytes : Z).

(** [d'] differs from [d] at most in the policy and the clock. *)
Definition untouched (d d' : Daemon) : Prop := d_shared d' = d_shared d ∧ d_next_seq d' = d_next_seq d.

Lemma untouched_refl d : untouched d d.
Proof. done. Qed.

Lemma policy_decide_eq priority d :
  ∃ decision d', policy_decide config priority d = (Ok decision, d') ∧ untouched d d'.
Proof.
  unfold policy_decide, bind, read_instant. cbn [d_shared d_policy d_next_seq d_reads].
  destruct (decide_batch _ _ _ _ _) as [decision p]. by eexists _, _.
Qed.

Lemma note_oversize_eq d : ∃ d', policy_note_oversize config d = (Ok tt, d') ∧ untouched d d'.
Proof. by eexists. Qed.

Lemma batch_time_eq ts d : ∃ t d', batch_time ts d = (Ok t, d') ∧ untouched d d'.
Proof. destruct ts as [t|]; by eexists _, _. Qed.

(** A taken sequence number. *)
Definition took (d d' : Daemon) (record : WireRecord) : Prop :=
  d_shared d' = d_shared d ∧ wire_seq record = d_next_seq d ∧ d_next_seq d' = (d_next_seq d + 1) mod 2 ^ 64.

Lemma prepare_batch_spec t priority ts payload d :
  ∃ p d', prepare_batch config t priority ts payload d = (Ok p, d') ∧
    match p with
    | Answer r => rs_status r = 429 ∧ untouched d d'
    | Store record => took d d' record ∧ wire_type record = t ∧ wire_payload record = payload
    end.
Proof.
  unfold prepare_batch, bind. destruct (policy_decide_eq priority d) as (dec & d1 & -> & Hu1 & Hn1).
  case_decide; [by eexists _, _|]. unfold fetch_add.
  match goal with |- context [batch_time ts ?x] => destruct (batch_time_eq ts x) as (t' & d2 & -> & Hu2 & Hn2) end.
  eexists _, _. split; [done|]. cbn [d_shared d_next_seq] in *. unfold took. cbn [wire_seq]. split_and!; try done; congruence.
Qed.

(** The signal of an endpoint. *)
Definition signal_of (path : list Z) : RecordType :=
  if bool_decide (path = str "/v1/metrics") then Metrics else
  if bool_decide (path = str "/v1/traces") then Traces else Logs.

Lemma prepare_http_spec req d :
  match prepare_http_request config max_batch_bytes req d with
  | (Ok (Answer r), d') => rs_status r ≠ 200 ∧ untouched d d'
  | (Ok (Store record), d') => took d d' record ∧ wire_type record = signal_of (rq_path req) ∧
      ∃ raw, rq_body req = Ok raw ∧ len raw ≤ max_batch_bytes ∧
        maybe_decompress_body raw (rq_content_encoding req ≫= to_str) = Ok (wire_payload record)
  | (Err e, d') => untouched d d'
  end.
Proof.
  unfold prepare_http_request. destruct (negb _ || negb _); [done|]. cbv zeta.
  destruct (match _ with Some n => _ | None => _ end); [done|].
  unfold bind at 1, lift. destruct (rq_body req) as [raw|err]; simpl; [|done].
  destruct (Z.ltb_spec max_batch_bytes (len raw)) as [|Hle]; [done|].
  destruct (maybe_decompress_body raw (rq_content_encoding req ≫= to_str)) as [body|err] eqn:Ed; [|done].
  unfold signal_of.
  destruct (bool_decide (rq_path req = str "/v1/metrics")), (bool_decide (rq_path req = str "/v1/traces"));
    repeat match goal with |- context [match ?x with Ok _ => _ | Err _ => _ end] =>
             lazymatch x with decode_metrics _ => destruct x | decode_traces _ => destruct x | decode_logs _ => destruct x end end;
    try done;
    match goal with |- context [prepare_batch config ?t ?p ?ts ?b d] =>
      destruct (prepare_batch_spec t p ts b d) as ([r|record] & d' & -> & Hp) end;
    try (destruct Hp as [-> ?]; done); destruct Hp as (? & ? & ->); split_and!; try done; by exists raw.
Qed.

(** The spool after an append and its notification. *)
Definition stored_by (record : WireRecord) (s : SharedSpool) : result IoError unit * SharedSpool :=
  (locked (Spool_append record) ;;! modify notify_change) s.

Lemma append_batch_eq record d :
  append_batch_record record d =
    ((stored_by record (d_shared d)).1, mkDaemon (stored_by record (d_shared d)).2 (d_policy d) (d_next_seq d) (d_reads d)).
Proof. unfold append_batch_record. fold (stored_by record (d_shared d)). by destruct (stored_by _ _). Qed.

(** *** Requests one after the other *)

Definition run_requests (reqs : list HttpRequest) (d : Daemon) : Daemon :=
  foldl (λ d req, (handle_otlp_http_request config max_batch_bytes req d).2) d reqs.

Lemma http_step req d :
  let d' := (handle_otlp_http_request config max_batch_bytes req d).2 in
  untouched d d' ∨ ∃ record, wire_seq record = d_next_seq d ∧ d_next_seq d' = (d_next_seq d + 1) mod 2 ^ 64 ∧
    d_shared d' = (stored_by record (d_shared d)).2.
Proof.
  unfold handle_otlp_http_request, bind. pose proof (prepare_http_spec req d) as Hp.
  destruct (prepare_http_request _ _ req d) as [[[r|record]|e] d1]; simpl; [by left; apply Hp| |by left].
  destruct Hp as ((Hs & Hq & Hn) & _). right. exists record. unfold bind.
  rewrite append_batch_eq, Hs. destruct (stored_by record (d_shared d)) as [[[]|e] s]; by simpl.
Qed.

Lemma buffer_stored_by record b g :
  (stored_by record (mkShared (SpoolBuffer b) g)) =
    (Ok tt, mkShared (SpoolBuffer (BufferSpool_append record b)) (saturating_add MAX_U64 g 1)).
Proof. done. Qed.

Lemma run_requests_buffer reqs d b g :
  d_shared d = mkShared (SpoolBuffer b) g → StronglySorted seq_lt (bs_records b) →
  (∀ r, r ∈ bs_records b → wire_seq r < d_next_seq d) → 0 ≤ d_next_seq d → d_next_seq d + len reqs < 2 ^ 64 →
  let d' := run_requests reqs d in
  ∃ b' g', d_shared d' = mkShared (SpoolBuffer b') g' ∧ StronglySorted seq_lt (bs_records b') ∧
    (∀ r, r ∈ bs_records b' → r ∈ bs_records b ∨ d_next_seq d ≤ wire_seq r < d_next_seq d') ∧
    d_next_seq d ≤ d_next_seq d'.
Proof.
  revert d b g. induction reqs as [|req reqs IH]; intros d b g Hd Hs Hlt Hn Hb; cbn zeta.
  { exists b, g. split_and!; try done. intros r Hr. by left. }
  rewrite len_cons in Hb. pose proof (len_nonneg reqs).
  change (run_requests (req :: reqs) d) with (run_requests reqs (handle_otlp_http_request config max_batch_bytes req d).2).
  pose proof (http_step req d) as Hst. cbn zeta in Hst.
  set (d1 := (handle_otlp_http_request config max_batch_bytes req d).2) in *. clearbody d1.
  destruct Hst as [[E1 E2]|(record & Hq & En & E1)].
  - rewrite <- E1 in Hd. rewrite <- E2 in Hlt, Hn, Hb |- *.
    apply (IH d1 b g); try done. lia.
  - rewrite Z.mod_small in En by lia. rewrite Hd, buffer_stored_by in E1. cbn [snd] in E1.
    destruct (IH d1 _ _ E1) as (b' & g' & H1 & H2 & H3 & H4).
    + eapply sublist_sorted; [apply BufferSpool_append_sublist|]. apply sorted_snoc; [done|].
      intros x Hx%Hlt. lia.
    + intros r Hr. eapply sublist_elem_of in Hr; [|apply BufferSpool_append_sublist].
      apply elem_of_app in Hr as [?%Hlt| ->%list_elem_of_singleton]; lia.
    + lia.
    + lia.
    + exists b', g'. split_and!; try done; [|lia]. intros r Hr. destruct (H3 r Hr) as [Hr'|]; [|lia].
      eapply sublist_elem_of in Hr'; [|apply BufferSpool_append_sublist].
      apply elem_of_app in Hr' as [?| ->%list_elem_of_singleton]; [by left|right; lia].
Qed.

(** *** The wire protocol *)

(** What the loop does with the records it reads. *)
Fixpoint ingest_records (rs : list WireRecord) : M Daemon IoError unit :=
  match rs with
  | [] => ret tt
  | record :: rs =>
      let! decision := policy_decide config PUnknown in
      (if decide (decision = RejectRateLimited) then ret tt else append_batch_record record) ;;!
      ingest_records rs
  end.

Lemma wire_loop_records fuel compress rs bufs tl d :
  frames compress rs bufs → Forall (λ buf, len buf ≤ max_batch_bytes + 36) bufs → (length rs < fuel)%nat →
  wire_loop config max_batch_bytes fuel (mkStream (concat bufs ++ tl) None) d =
    (ingest_records rs ;;! wire_loop config max_batch_bytes (fuel - length rs) (mkStream tl None)) d.
Proof.
  intros Hf. revert fuel d. induction Hf as [|r buf rs bufs [Hv He] Hf IH]; intros fuel d Hlen Hfu.
  { cbn [concat app ingest_records length]. unfold bind, ret. by rewrite Nat.sub_0_r. }
  apply Forall_cons_iff in Hlen as [Hl Hlen]. destruct fuel as [|fuel]; [cbn [length] in Hfu; lia|].
  cbn [wire_loop concat ingest_records]. rewrite <- app_assoc.
  rewrite (wire_roundtrip_limit r compress buf) by done.
  rewrite bind_assoc. apply bind_ext. intros dec d1 _. rewrite bind_assoc. apply bind_ext. intros [] d2 _.
  apply IH; [done|]. cbn [length] in Hfu. lia.
Qed.

(** After a cut-off frame nothing more is stored. *)
Lemma wire_loop_torn fuel r compress buf k d :
  valid_wire r → encode_wire_record r compress = Ok buf → (k < length buf)%nat → len buf ≤ max_batch_bytes + 36 →
  (wire_loop config max_batch_bytes fuel (mkStream (take k buf) None) d).2 = d.
Proof.
  intros Hv He Hk Hl. destruct fuel as [|fuel]; [done|]. cbn [wire_loop].
  rewrite (read_record_torn r compress buf k) by done. by destruct (decide (k < 8)%nat).
Qed.

Lemma unlimited_accepts priority d :
  max_batches_per_second config = 0 →
  ∃ d', policy_decide config priority d = (Ok Accept, d') ∧ untouched d d'.
Proof.
  intros H0. unfold policy_decide, bind, read_instant. cbn [d_shared d_policy d_next_seq d_reads].
  unfold decide_batch. rewrite H0. cbn [Z.eqb orb]. destruct (policy_stats _). by eexists.
Qed.

Lemma ingest_records_buffer rs d b g :
  max_batches_per_second config = 0 → d_shared d = mkShared (SpoolBuffer b) g →
  ∃ d', ingest_records rs d = (Ok tt, d') ∧
    shared_spool (d_shared d') = SpoolBuffer (foldl (λ b r, BufferSpool_append r b) b rs).
Proof.
  intros H0. revert d b g. induction rs as [|r rs IH]; intros d b g Hd.
  { exists d. by rewrite Hd. }
  cbn [ingest_records foldl]. unfold bind at 1. destruct (unlimited_accepts PUnknown d H0) as (d1 & -> & Hs & _).
  rewrite decide_False by done. unfold bind at 1. rewrite append_batch_eq, Hs, Hd, buffer_stored_by. by eapply IH.
Qed.

Lemma frames_bytes compress rs bufs : frames compress rs bufs → (length rs ≤ length (concat bufs))%nat.
Proof.
  induction 1 as [|r buf rs bufs [_ He] Hf IH]; [done|]. simpl. rewrite length_app.
  pose proof (frame_length _ _ _ He). unfold len in *. lia.
Qed.

(** ** The theorems *)


(** Numbering.  When requests are handled one after the other, the memory spool
    holds records in strictly increasing sequence order, and every new one has a
    number between the old and the new value of the counter. *)
Theorem sequential_requests_stay_in_order reqs d b g :
  d_shared d = mkShared (SpoolBuffer b) g → StronglySorted seq_lt (bs_records b) →
  (∀ r, r ∈ bs_records b → wire_seq r < d_next_seq d) → 0 ≤ d_next_seq d → d_next_seq d + len reqs < 2 ^ 64 →
  let d' := run_requests reqs d in
  StronglySorted seq_lt (src_records (shared_spool (d_shared d'))) ∧
  (∀ r, r ∈ src_records (shared_spool (d_shared d')) →
    r ∈ bs_records b ∨ d_next_seq d ≤ wire_seq r < d_next_seq d').
Proof.
  intros Hd Hs Hlt Hn Hb. destruct (run_requests_buffer reqs d b g Hd Hs Hlt Hn Hb) as (b' & g' & H1 & H2 & H3 & _).
  cbn zeta. by rewrite H1.
Qed.

(** C13: the wire protocol.  From a connection that carries the frames of records and
    breaks off anywhere in a further one, exactly the complete records are taken, in
    order; without a rate limit the memory spool ends up with all of them appended. *)
Theorem wire_client_stores_complete_records compress rs bufs r buf k d :
  frames compress rs bufs → Forall (λ buf, len buf ≤ max_batch_bytes + 36) bufs →
  valid_wire r → encode_wire_record r compress = Ok buf → (k < length buf)%nat → len buf ≤ max_batch_bytes + 36 →
  let run := handle_ingest_client config max_batch_bytes true (mkStream (concat bufs ++ take k buf) None) d in
  run.2 = (ingest_records rs d).2 ∧
  ∀ b g, d_shared d = mkShared (SpoolBuffer b) g → max_batches_per_second config = 0 →
    shared_spool (d_shared run.2) = SpoolBuffer (foldl (λ b r, BufferSpool_append r b) b rs).
Proof.
  intros Hf Hall Hv He Hk Hl. cbn zeta.
  assert ((handle_ingest_client config max_batch_bytes true (mkStream (concat bufs ++ take k buf) None) d).2 =
    (ingest_records rs d).2) as E.
  { unfold handle_ingest_client. cbn [negb input]. rewrite (wire_loop_records _ compress rs) by
      (done || rewrite length_app; pose proof (frames_bytes _ _ _ Hf); lia).
    unfold bind. destruct (ingest_records rs d) as [[[]|e] d1]; [|done]. cbn [snd].
    by apply (wire_loop_torn _ r compress). }
  split; [done|]. intros b g Hd H0. rewrite E.
  by destruct (ingest_records_buffer rs d b g H0 Hd) as (d' & -> & Hd').
Qed.
End Facts.

(** ** The theorems apply, and a race *)

Section Witnesses.
#[local] Existing Instance stored_externals.
#[local] Existing Instance stored_laws.
#[local] Existing Instance sample_otlp.
#[local] Existing Instance sample_codec.

(** Metrics and traces without content, a clock that ticks, no compression. *)
Definition sample_signals : SignalCodec := {|
  MetricsMessage := list Z;
  metrics_view _ := mkMetricsRequest [];
  decode_metrics bs := Ok bs;
  encode_metrics bs := bs;
  TraceMessage := list Z;
  trace_view _ := mkTraceRequest [];
  decode_traces bs := Ok bs;
  encode_traces bs := bs;
|}.
Definition sample_clock : Clock := {| instant_now n := Z.of_nat n; unix_time_nanos n := 1000 + Z.of_nat n |}.
Definition sample_gzip : Gzip := {| gz_decode bs := if len bs <? 10 then Ok bs else Err "corrupt" |}.
#[local] Existing Instance sample_signals.
#[local] Existing Instance sample_clock.
#[local] Existing Instance sample_gzip.

Definition no_limit : IngestOverloadConfig := mkOverload 0 FloorError 0.
Definition metrics_post (body : list Z) : HttpRequest :=
  mkHttpRequest (str "POST") (str "/v1/metrics") (Some (str "gzip")) (Some (str "3")) (Ok body).
Definition sample_daemon : Daemon :=
  mkDaemon (SharedSpool_new (SpoolBuffer (BufferSpool_new 7 (mkBufferConfig (LimitMessages 10) 0))))
    (policy_new no_limit 0) 1 0.

Definition sample_posted : Daemon :=
  (handle_otlp_http_request no_limit 100 (metrics_post [1; 2; 3]) sample_daemon).2.
Lemma sample_post :
  handle_otlp_http_request no_limit 100 (metrics_post [1; 2; 3]) sample_daemon = (Ok (mkHttpResponse 200 []), sample_posted).
Proof. vm_compute. reflexivity. Qed.


Definition sample_posts : list HttpRequest := [metrics_post [1]; metrics_post [1; 2; 3; 4; 5; 6; 7; 8; 9; 10]; metrics_post [2]].

Lemma sequential_requests_stay_in_order_witness :
  let d' := run_requests no_limit 100 sample_posts sample_daemon in
  StronglySorted seq_lt (src_records (shared_spool (d_shared d'))) ∧
  (∀ r, r ∈ src_records (shared_spool (d_shared d')) → r ∈ [] ∨ d_next_seq sample_daemon ≤ wire_seq r < d_next_seq d').
Proof.
  apply (sequential_requests_stay_in_order no_limit 100 sample_posts sample_daemon
    (BufferSpool_new 7 (mkBufferConfig (LimitMessages 10) 0)) 0).
  - reflexivity.
  - constructor.
  - by intros r ?%elem_of_nil.
  - vm_compute. discriminate.
  - vm_compute. reflexivity.
Defined.

(** The second request was corrupt: it took no number. *)
Example sample_posts_run :
  wire_seq <$> src_records (shared_spool (d_shared (run_requests no_limit 100 sample_posts sample_daemon))) = [1; 2].
Proof. vm_compute. reflexivity. Qed.

Lemma wire_client_stores_complete_records_witness :
  let buf := default [] (list.last bridge_frames) in
  let run := handle_ingest_client no_limit 1000 true (mkStream (concat bridge_frames ++ take 9 buf) None) sample_daemon in
  run.2 = (ingest_records no_limit bridge_records sample_daemon).2 ∧
  ∀ b g, d_shared sample_daemon = mkShared (SpoolBuffer b) g → max_batches_per_second no_limit = 0 →
    shared_spool (d_shared run.2) = SpoolBuffer (foldl (λ b r, BufferSpool_append r b) b bridge_records).
Proof.
  apply (wire_client_stores_complete_records no_limit 1000 false bridge_records bridge_frames
    (mkWire Logs 6 60 [6; 6]) (default [] (list.last bridge_frames)) 9 sample_daemon).
  - apply bridge_frames_ok.
  - apply (bool_decide_unpack _). vm_compute. exact I.
  - apply (bool_decide_unpack _). vm_compute. exact I.
  - vm_compute. reflexivity.
  - apply Nat.ltb_lt. vm_compute. reflexivity.
  - vm_compute. discriminate.
Defined.

(** Two requests that take their numbers in one order and append in the other,
    with a replay client that reads in between. *)
Definition race_first : prepared * Daemon :=
  match prepare_http_request no_limit 100 (metrics_post [1]) sample_daemon with
  | (Ok p, d) => (p, d) | (Err _, d) => (Answer too_large, d) end.
Definition race_second : prepared * Daemon :=
  match prepare_http_request no_limit 100 (metrics_post [2]) race_first.2 with
  | (Ok p, d) => (p, d) | (Err _, d) => (Answer too_large, d) end.
Definition race_appended : result IoError HttpResponse * Daemon := finish_request race_second.1 race_second.2.
Definition race_read : result IoError (option WireRecord) * ReplayCursor :=
  let spool := shared_spool (d_shared race_appended.2) in Spool_next_for_cursor spool (start_cursor spool 0).
Definition race_late : result IoError HttpResponse * Daemon := finish_request race_first.1 race_appended.2.

(** Sequence numbers are taken outside the lock.  There is an interleaving of two
    requests with a replay client in which both requests are answered with success
    and the record of the first is never replayed: the second one was appended and
    read before it. *)
Theorem ingest_race_hides_record :
  race_appended.1 = Ok (mkHttpResponse 200 []) ∧ race_late.1 = Ok (mkHttpResponse 200 []) ∧
  (∃ r, race_read.1 = Ok (Some r) ∧ wire_payload r = [2]) ∧
  wire_payload <$> src_records (shared_spool (d_shared race_late.2)) = [[2]; [1]] ∧
  (Spool_next_for_cursor (shared_spool (d_shared race_late.2)) race_read.2).1 = Ok None.
Proof. vm_compute. split_and!; try reflexivity. eexists. split; reflexivity. Qed.
End Witnesses.
