(* ===== verification/Config.v ===== *)
(** * The configuration of the daemon

    [logjetd/src/config.rs]: the raw fields of the YAML file, their defaults, the
    checks that turn them into a [Config], and the sizes that people write.  The
    YAML parser is a parameter.  An error is a constructor that stands for its
    message. *)

From S2P Require Import Prelude Format Text Protocol BufferSpool FileSpool Spool Policy BridgeState Bridge.

Abbreviation text := (list Z).

(** ** Data *)

Inductive IngestProtocol : Type := ProtocolWire | ProtocolOtlpHttp | ProtocolOtlpGrpc | ProtocolPlugin.

#[export] Instance IngestProtocol_eq_dec : EqDecision IngestProtocol.
Proof. solve_decision. Defined.

Record IngestTlsConfig : Type := mkIngestTls {
  it_enable : bool;
  it_ca_file : option text;
  it_cert_file : option text;
  it_key_file : option text;
  it_require_client_cert : bool;
}.

Record IngestLimits : Type := mkLimits { max_batch_bytes : Z; il_max_clients : Z }.

Record CollectorConfig : Type := mkCollector {
  cc_urls : list text;
  cc_timeout_ms : Z;
  cc_ca_file : option text;
  cc_cert_file : option text;
  cc_key_file : option text;
  cc_server_name : option text;
  cc_batch_size : Z;
  cc_batch_timeout_ms : Z;
}.

Record BackpressureConfig : Type := mkBackpressure {
  bp_enabled : bool;
  bp_mode : BackpressureMode;
  bp_max_buffered_records : Z;
}.

Record UpstreamConfig : Type := mkUpstream {
  up_replay_addr : option text;
  up_mode : UpstreamMode;
  up_state_file : option text;
  up_retry_ms : Z;
  up_connect_timeout_ms : Z;
}.

Record TlsConfig : Type := mkTls {
  tls_enable : bool;
  tls_ca_file : option text;
  tls_cert_file : option text;
  tls_key_file : option text;
  tls_require_client_cert : bool;
  tls_server_name : option text;
}.

Record Config : Type := mkConfig {
  ingest_addr : text;
  ingest_protocol : IngestProtocol;
  ingest_tls : IngestTlsConfig;
  ingest_limits : IngestLimits;
  ingest_overload : IngestOverloadConfig;
  ingest_plugin_path : option text;
  ingest_plugin_dir : option text;
  ingest_plugin_name : option text;
  ingest_plugin_env : list text;
  replay_addr : text;
  replay_max_clients : Z;
  replay_client_timeout_ms : Z;
  wire_compression : bool;
  collector : CollectorConfig;
  backpressure : BackpressureConfig;
  upstream : UpstreamConfig;
  tls : TlsConfig;
  storage : StorageConfig;
  storage_dir : text;
}.

Inductive RawCollectorUrls : Type := UrlOne (url : text) | UrlMany (urls : list text).

Record RawConfig : Type := mkRaw {
  raw_output : option text;
  raw_buffer_size : option text;
  raw_buffer_messages : option Z;
  raw_buffer_keep : option Z;
  raw_file_path : option text;
  raw_file_size : option text;
  raw_file_name : option text;
  raw_file_fsync : option text;
  raw_file_max_bytes : option text;
  raw_file_codec : option text;
  raw_file_block_alignment : option Z;
  raw_ingest_addr : option text;
  raw_ingest_protocol : option text;
  raw_ingest_tls_enable : option bool;
  raw_ingest_ca_file : option text;
  raw_ingest_cert_file : option text;
  raw_ingest_key_file : option text;
  raw_ingest_require_client_cert : option bool;
  raw_ingest_max_batch_bytes : option Z;
  raw_ingest_max_clients : option Z;
  raw_ingest_max_batches_per_second : option Z;
  raw_ingest_priority_severity_floor : option text;
  raw_ingest_overload_report_ms : option Z;
  raw_ingest_plugin_path : option text;
  raw_ingest_plugin_dir : option text;
  raw_ingest_plugin : option text;
  raw_ingest_use : option text;
  raw_ingest_plugin_env : list text;
  raw_replay_addr : option text;
  raw_replay_max_clients : option Z;
  raw_replay_client_timeout_ms : option Z;
  raw_wire_compression : option bool;
  raw_collector_url : option RawCollectorUrls;
  raw_collector_timeout_ms : option Z;
  raw_collector_ca_file : option text;
  raw_collector_cert_file : option text;
  raw_collector_key_file : option text;
  raw_collector_server_name : option text;
  raw_collector_batch_size : option Z;
  raw_collector_batch_timeout_ms : option Z;
  raw_backpressure_enabled : option bool;
  raw_backpressure_mode : option text;
  raw_backpressure_max_buffered_records : option Z;
  raw_upstream_replay_addr : option text;
  raw_upstream_mode : option text;
  raw_upstream_state_file : option text;
  raw_upstream_retry_ms : option Z;
  raw_upstream_connect_timeout_ms : option Z;
  raw_tls_enable : option bool;
  raw_tls_ca_file : option text;
  raw_tls_cert_file : option text;
  raw_tls_key_file : option text;
  raw_tls_require_client_cert : option bool;
  raw_tls_server_name : option text;
}.

(** The raw configuration when the default file does not exist. *)
Definition raw_default : RawConfig :=
  mkRaw None None None None None None None None None None None None None None None None None None None None
    None None None None None None None [] None None None None None None None None None None None None None
    None None None None None None None None None None None None None.

Inductive SizeError : Type :=
| InvalidSizeNumber (num_str : text)
| SizeOverflowKib
| SizeOverflow
| UnknownSizeSuffix (suffix : text).

Inductive ConfigError : Type :=
| ConfigNotFound (path : text)
| ConfigIo (err : IoError)
| ConfigYaml (err : string)
| InvalidIngestProtocol (other : text)
| PluginUseMismatch
| PluginRequired
| InvalidSeverityFloor (other : text)
| MaxBatchBytesZero
| MaxClientsZero
| ReplayMaxClientsZero
| ReplayTimeoutZero
| CollectorUrlsEmpty
| CollectorUrlBlank
| InvalidBackpressureMode (other : text)
| BufferedRecordsZero
| InvalidUpstreamMode (other : text)
| InvalidOutput (other : text)
| InvalidFsync (other : text)
| InvalidCodec (other : text)
| BufferLimitConflict
| BufferSizeError (e : SizeError)
| FileSizeError (e : SizeError)
| FileMaxBytesError (e : SizeError).

(** ** Sizes *)

Definition checked_mul (max a b : Z) : option Z := if a * b <=? max then Some (a * b) else None.

(** [s.bytes().position(p).unwrap_or(s.len())] *)
Fixpoint position_or_len (p : Z → bool) (s : text) : nat :=
  match s with
  | [] => 0
  | b :: s => if p b then 0 else S (position_or_len p s)
  end.

Definition size_unit (suffix : text) : option (Z * SizeError) :=
  if bool_decide (suffix = []) then Some (1024, SizeOverflowKib) else
  if bool_decide (suffix = str "b") then Some (1, SizeOverflow) else
  if bool_decide (suffix = str "kb") then Some (1000, SizeOverflow) else
  if bool_decide (suffix = str "kib") then Some (1024, SizeOverflow) else
  if bool_decide (suffix = str "mb") then Some (1000000, SizeOverflow) else
  if bool_decide (suffix = str "mib") then Some (1048576, SizeOverflow) else
  if bool_decide (suffix = str "gb") then Some (1000000000, SizeOverflow) else
  if bool_decide (suffix = str "gib") then Some (1073741824, SizeOverflow) else None.

Definition parse_human_size (s : text) : result SizeError Z :=
  let s := trim_text s in
  let num_end := position_or_len is_ascii_alphabetic s in
  let num_str := trim_text (take num_end s) in
  let suffix := to_ascii_lowercase (trim_text (drop num_end s)) in
  let? value := map_err (λ _, InvalidSizeNumber num_str) (parse_u64 num_str) in
  let? (unit, err) := ok_or (size_unit suffix) (UnknownSizeSuffix suffix) in
  ok_or (checked_mul MAX_U64 value unit) err.

(** A YAML scalar in a size field; a float by its integral part, [None] for NaN. *)
Inductive SizeValue : Type :=
| SizeNull
| SizeI64 (v : Z)
| SizeU64 (v : Z)
| SizeF64 (integral : option Z)
| SizeStr (v : text).


Definition deserialize_size_value (v : SizeValue) : option text :=
  match v with
  | SizeNull => None
  | SizeI64 v => Some (i64_to_string v)
  | SizeU64 v => Some (u64_to_string v)
  | SizeF64 v => Some (u64_to_string (match v with Some z => Z.max 0 (Z.min z MAX_U64) | None => 0 end))
  | SizeStr v => Some v
  end.

Definition parse_buffer_limit (size : option text) (messages : option Z) : result ConfigError BufferLimit :=
  match size, messages with
  | Some _, Some _ => Err BufferLimitConflict
  | Some s, None => let? n := map_err BufferSizeError (parse_human_size s) in Ok (LimitBytes n)
  | None, Some messages => Ok (LimitMessages messages)
  | None, None => Ok (LimitBytes (100 * 1024))
  end.

(** ** The sections of the file *)

Definition parse_severity_floor (value : text) : result ConfigError SeverityFloor :=
  if bool_decide (value = str "trace") then Ok FloorTrace else
  if bool_decide (value = str "debug") then Ok FloorDebug else
  if bool_decide (value = str "info") then Ok FloorInfo else
  if bool_decide (value = str "warn") then Ok FloorWarn else
  if bool_decide (value = str "error") then Ok FloorError else
  if bool_decide (value = str "fatal") then Ok FloorFatal else Err (InvalidSeverityFloor value).

Definition parse_protocol (value : text) : result ConfigError IngestProtocol :=
  if bool_decide (value = str "wire") then Ok ProtocolWire else
  if bool_decide (value = str "otlp-http") then Ok ProtocolOtlpHttp else
  if bool_decide (value = str "otlp-grpc") then Ok ProtocolOtlpGrpc else
  if bool_decide (value = str "plugin") then Ok ProtocolPlugin else Err (InvalidIngestProtocol value).

Definition plugin_name (plugin alias : option text) : result ConfigError (option text) :=
  match plugin, alias with
  | Some plugin, Some alias => if bool_decide (plugin = alias) then Ok (Some plugin) else Err PluginUseMismatch
  | Some plugin, None => Ok (Some plugin)
  | None, Some alias => Ok (Some alias)
  | None, None => Ok None
  end.

Definition ingest_tls_of (raw : RawConfig) : IngestTlsConfig :=
  mkIngestTls (default false (raw_ingest_tls_enable raw)) (raw_ingest_ca_file raw) (raw_ingest_cert_file raw)
    (raw_ingest_key_file raw) (default false (raw_ingest_require_client_cert raw)).

Definition ingest_limits_of (raw : RawConfig) : IngestLimits :=
  mkLimits (default (1024 * 1024) (raw_ingest_max_batch_bytes raw)) (default 32 (raw_ingest_max_clients raw)).

Definition collector_of (raw : RawConfig) : result ConfigError CollectorConfig :=
  let urls := match raw_collector_url raw with
              | Some (UrlOne url) => [url]
              | Some (UrlMany urls) => urls
              | None => [str "http://127.0.0.1:4318/v1/logs"]
              end in
  if bool_decide (urls = []) then Err CollectorUrlsEmpty else
  if existsb (λ url, bool_decide (trim_text url = [])) urls then Err CollectorUrlBlank else
  Ok (mkCollector urls (default 10000 (raw_collector_timeout_ms raw)) (raw_collector_ca_file raw)
        (raw_collector_cert_file raw) (raw_collector_key_file raw) (raw_collector_server_name raw)
        (Z.max (default 50 (raw_collector_batch_size raw)) 1) (default 200 (raw_collector_batch_timeout_ms raw))).

Definition parse_backpressure_mode (mode : text) : result ConfigError BackpressureMode :=
  if bool_decide (mode = str "block") then Ok Block else
  if bool_decide (mode = str "disconnect") then Ok Disconnect else
  if bool_decide (mode = str "drop-newest") then Ok DropNewest else Err (InvalidBackpressureMode mode).

Definition parse_upstream_mode (mode : text) : result ConfigError UpstreamMode :=
  if bool_decide (mode = str "keep") then Ok Keep else
  if bool_decide (mode = str "drain") then Ok Drain else Err (InvalidUpstreamMode mode).

Definition parse_fsync (fsync : text) : result ConfigError FsyncPolicy :=
  if bool_decide (fsync = str "none") then Ok FsyncNone else
  if bool_decide (fsync = str "block") then Ok FsyncBlock else
  if bool_decide (fsync = str "interval") then Ok FsyncInterval else Err (InvalidFsync fsync).

Definition parse_codec (codec : text) : result ConfigError Codec :=
  if bool_decide (codec = str "none") then Ok CodecNone else
  if bool_decide (codec = str "lz4") then Ok Lz4 else
  if bool_decide (codec = str "zstd") then Ok Zstd else Err (InvalidCodec codec).

Definition backpressure_of (raw : RawConfig) : result ConfigError BackpressureConfig :=
  let? mode := parse_backpressure_mode (default (str "disconnect") (raw_backpressure_mode raw)) in
  let max := default 16 (raw_backpressure_max_buffered_records raw) in
  if max =? 0 then Err BufferedRecordsZero else
  Ok (mkBackpressure (default false (raw_backpressure_enabled raw)) mode max).

Definition upstream_of (raw : RawConfig) : result ConfigError UpstreamConfig :=
  let? mode := parse_upstream_mode (default (str "keep") (raw_upstream_mode raw)) in
  Ok (mkUpstream (raw_upstream_replay_addr raw) mode (raw_upstream_state_file raw)
        (default 1000 (raw_upstream_retry_ms raw)) (default 5000 (raw_upstream_connect_timeout_ms raw))).

Definition tls_of (raw : RawConfig) : TlsConfig :=
  mkTls (default false (raw_tls_enable raw)) (raw_tls_ca_file raw) (raw_tls_cert_file raw) (raw_tls_key_file raw)
    (default false (raw_tls_require_client_cert raw)) (raw_tls_server_name raw).

Definition file_storage_of (raw : RawConfig) : result ConfigError FileConfig :=
  let name := default (str "bar.logjet") (raw_file_name raw) in
  let? fsync := parse_fsync (default (str "interval") (raw_file_fsync raw)) in
  let? codec := parse_codec (default (str "lz4") (raw_file_codec raw)) in
  let? segment_bytes := match raw_file_size raw with
                        | Some s => map_err FileSizeError (parse_human_size s)
                        | None => Ok (100 * 1024)
                        end in
  let? max_total := match raw_file_max_bytes raw with
                    | Some s => map_err FileMaxBytesError (parse_human_size s)
                    | None => Ok 0
                    end in
  Ok (mkFileConfig name segment_bytes fsync codec max_total (default 4096 (raw_file_block_alignment raw))).

Definition storage_of (raw : RawConfig) : result ConfigError StorageConfig :=
  let output := default (str "buffer") (raw_output raw) in
  if bool_decide (output = str "buffer") then
    let? limit := parse_buffer_limit (raw_buffer_size raw) (raw_buffer_messages raw) in
    Ok (StorageBuffer (mkBufferConfig limit (Z.to_nat (default 0 (raw_buffer_keep raw)))))
  else if bool_decide (output = str "file") then
    let? config := file_storage_of raw in Ok (StorageFile config)
  else Err (InvalidOutput output).

(** [Config::load] after the raw configuration has been read. *)
Definition config_of (raw : RawConfig) : result ConfigError Config :=
  let? protocol := parse_protocol (default (str "wire") (raw_ingest_protocol raw)) in
  let? plugin := plugin_name (raw_ingest_plugin raw) (raw_ingest_use raw) in
  if bool_decide (protocol = ProtocolPlugin) && bool_decide (raw_ingest_plugin_path raw = None) &&
     bool_decide (plugin = None) then Err PluginRequired else
  let limits := ingest_limits_of raw in
  let? floor := parse_severity_floor (default (str "error") (raw_ingest_priority_severity_floor raw)) in
  let overload := mkOverload (default 0 (raw_ingest_max_batches_per_second raw)) floor
                    (default 5000 (raw_ingest_overload_report_ms raw)) in
  if max_batch_bytes limits =? 0 then Err MaxBatchBytesZero else
  if il_max_clients limits =? 0 then Err MaxClientsZero else
  let replay_clients := default 32 (raw_replay_max_clients raw) in
  if replay_clients =? 0 then Err ReplayMaxClientsZero else
  let replay_timeout := default 10000 (raw_replay_client_timeout_ms raw) in
  if replay_timeout =? 0 then Err ReplayTimeoutZero else
  let? collector := collector_of raw in
  let? backpressure := backpressure_of raw in
  let? upstream := upstream_of raw in
  let? storage := storage_of raw in
  Ok (mkConfig (default (str "127.0.0.1:7001") (raw_ingest_addr raw)) protocol (ingest_tls_of raw) limits overload
        (raw_ingest_plugin_path raw) (raw_ingest_plugin_dir raw) plugin (raw_ingest_plugin_env raw)
        (default (str "0.0.0.0:7002") (raw_replay_addr raw)) replay_clients replay_timeout
        (default true (raw_wire_compression raw)) collector backpressure upstream (tls_of raw) storage
        (default (str ".") (raw_file_path raw))).

(** [serde_yaml::from_str::<RawConfig>] *)
Class Yaml : Type := { yaml_raw_config : text → result string RawConfig }.

Definition DEFAULT_CONFIG_PATH : text := Eval vm_compute in str "/etc/logjet.conf".

Definition Config_load `{Yaml} (path : text) (d : files) : result ConfigError Config :=
  let? raw := match d !! path with
              | Some _ =>
                  let? content := map_err ConfigIo (read_to_string d path) in
                  map_err ConfigYaml (yaml_raw_config content)
              | None => if bool_decide (path = DEFAULT_CONFIG_PATH) then Ok raw_default else Err (ConfigNotFound path)
              end in
  config_of raw.

Definition describe_urls (c : CollectorConfig) : text :=
  match cc_urls c with
  | [] => []
  | url :: urls => foldl (λ acc u, acc ++ str ", " ++ u) url urls
  end.

(** ** What a loaded configuration guarantees *)

Definition blank (url : text) : Prop := trim_text url = [].

Record valid_config (c : Config) : Prop := {
  vc_batch_bytes : 0 < max_batch_bytes (ingest_limits c);
  vc_clients : 0 < il_max_clients (ingest_limits c);
  vc_replay_clients : 0 < replay_max_clients c;
  vc_replay_timeout : 0 < replay_client_timeout_ms c;
  vc_urls : cc_urls (collector c) ≠ [] ∧ Forall (λ url, ¬ blank url) (cc_urls (collector c));
  vc_batch_size : 1 ≤ cc_batch_size (collector c);
  vc_buffered : 0 < bp_max_buffered_records (backpressure c);
  vc_plugin : ingest_protocol c = ProtocolPlugin → is_Some (ingest_plugin_path c) ∨ is_Some (ingest_plugin_name c);
  vc_storage : match storage c with
    | StorageBuffer config => wf_limit (bc_limit config)
    | StorageFile config => is_u64 (fc_segment_size_bytes config) ∧ is_u64 (fc_max_total_bytes config)
    end;
}.

(** The integer fields, which YAML gives as unsigned numbers. *)
Definition raw_numbers (raw : RawConfig) : list (option Z) :=
  [raw_buffer_messages raw; raw_ingest_max_batch_bytes raw; raw_ingest_max_clients raw; raw_replay_max_clients raw;
   raw_replay_client_timeout_ms raw; raw_backpressure_max_buffered_records raw].
Definition unsigned (o : option Z) : Prop := match o with Some z => is_u64 z | None => True end.

Lemma unsigned_default o d : unsigned o → 0 < d → 0 ≤ default d o.
Proof. destruct o; simpl; int_solve. Qed.

Lemma parse_human_size_u64 s n : parse_human_size s = Ok n → is_u64 n.
Proof.
  unfold parse_human_size. cbv zeta. destruct (parse_u64 _) as [v|] eqn:Ev; simpl; [|done].
  apply parse_u64_u64 in Ev. destruct (size_unit _) as [[u err]|] eqn:Eu; simpl; [|done].
  unfold checked_mul. destruct (Z.leb_spec (v * u) MAX_U64); simpl; [|done]. intros [= <-].
  assert (0 < u) by (unfold size_unit in Eu; repeat case_match; simplify_eq; lia). split; [|done].
  destruct Ev. nia.
Qed.

Lemma map_err_Ok {E F A} (f : E → F) (r : result E A) a : map_err f r = Ok a ↔ r = Ok a.
Proof. destruct r; simpl; split; intros; by inv_res. Qed.

Lemma parse_buffer_limit_wf size messages limit :
  unsigned messages → parse_buffer_limit size messages = Ok limit → wf_limit limit.
Proof.
  intros Hm H. destruct size as [s|], messages as [n|]; simpl in H; try done.
  - let_inv H. apply map_err_Ok, parse_human_size_u64 in Hr. by injection H as <-.
  - by injection H as <-.
  - injection H as <-. unfold wf_limit. int_solve.
Qed.

Lemma size_field_u64 (f : SizeError → ConfigError) o d n :
  is_u64 d → match o with Some s => map_err f (parse_human_size s) | None => Ok d end = Ok n → is_u64 n.
Proof.
  destruct o as [s|]; intros Hd Hn; [|by injection Hn as <-].
  by eapply parse_human_size_u64, map_err_Ok.
Qed.

Lemma storage_of_valid raw st :
  unsigned (raw_buffer_messages raw) → storage_of raw = Ok st →
  match st with
  | StorageBuffer config => wf_limit (bc_limit config)
  | StorageFile config => is_u64 (fc_segment_size_bytes config) ∧ is_u64 (fc_max_total_bytes config)
  end.
Proof.
  intros Hm H. unfold storage_of in H. cbv zeta in H. let_inv H; injection H as <-.
  - by eapply parse_buffer_limit_wf.
  - unfold file_storage_of in Hr. cbv zeta in Hr.
    let_inv Hr. injection Hr as <-. simpl.
    split; (eapply size_field_u64; [|eassumption]); vm_compute; by split.
Qed.

Lemma default_some_none {A} (o p : option A) : bool_decide (o = None) && bool_decide (p = None) = false →
  is_Some o ∨ is_Some p.
Proof. destruct o; [left; by eexists|]. destruct p; [right; by eexists|done]. Qed.

Lemma collector_of_valid raw c :
  collector_of raw = Ok c → cc_urls c ≠ [] ∧ Forall (λ url, ¬ blank url) (cc_urls c) ∧ 1 ≤ cc_batch_size c.
Proof.
  unfold collector_of. cbv zeta. intros H. let_inv H. injection H as <-. simpl.
  apply bool_decide_eq_false in Hb. split_and!; [done| |lia].
  rewrite list.Forall_forall. intros url Hin Hbl. apply not_true_iff_false in Hb0. apply Hb0, existsb_exists.
  exists url. split; [by apply list_elem_of_In|]. by apply bool_decide_eq_true.
Qed.

Lemma backpressure_of_valid raw c :
  unsigned (raw_backpressure_max_buffered_records raw) → backpressure_of raw = Ok c → 0 < bp_max_buffered_records c.
Proof.
  unfold backpressure_of. cbv zeta. intros Hu%(unsigned_default _ 16) H; [|done].
  let_inv H. injection H as <-. simpl. apply Z.eqb_neq in Hb. lia.
Qed.

(** *** Sizes as people write them *)

Lemma position_or_len_app p s s' :
  Forall (λ b, p b = false) s → position_or_len p (s ++ s') = (length s + position_or_len p s')%nat.
Proof. induction 1 as [|b s Hb Hs IH]; [done|]. simpl. by rewrite Hb, IH. Qed.

Lemma alphabetic_solid b : is_ascii_alphabetic b = true → solid b.
Proof. unfold is_ascii_alphabetic, solid. intros [[]%andb_true_iff|[]%andb_true_iff]%orb_true_iff; lia. Qed.

Lemma digit_not_alphabetic b : digit_byte b → is_ascii_alphabetic b = false.
Proof. unfold digit_byte, is_ascii_alphabetic. intros Hb. apply orb_false_iff. split; apply andb_false_iff; lia. Qed.

Lemma trim_text_alphabetic s : Forall (λ b, is_ascii_alphabetic b = true) s → trim_text s = s.
Proof.
  intros Hs. destruct s as [|b s]; [done|]. destruct (list.last (b :: s)) as [c|] eqn:El; [|by apply last_None in El].
  rewrite list.Forall_forall in Hs. apply (trim_text_solid _ b c); try done; apply alphabetic_solid, Hs; [by left|].
  apply last_Some in El as [s0 ->]. apply elem_of_app. right. by left.
Qed.

(** A digit string, spaces, letters: the parts that [parse_human_size] sees. *)
Lemma size_parts ds n suffix :
  ds ≠ [] → Forall digit_byte ds → Forall (λ b, is_ascii_alphabetic b = true) suffix → (suffix = [] → n = 0%nat) →
  let s := ds ++ replicate n 32 ++ suffix in
  trim_text s = s ∧ trim_text (take (position_or_len is_ascii_alphabetic s) s) = ds ∧
  drop (position_or_len is_ascii_alphabetic s) s = suffix.
Proof.
  intros Hne Hds Hsuf Hn s.
  assert (position_or_len is_ascii_alphabetic s = length (ds ++ replicate n 32)) as Ep.
  { unfold s. rewrite app_assoc, position_or_len_app.
    - destruct suffix as [|b suffix]; simpl; [lia|]. apply Forall_cons_iff in Hsuf as [-> _]. lia.
    - apply Forall_app. split; [by eapply Forall_impl; [apply digit_not_alphabetic|exact Hds]|]. by apply Forall_replicate. }
  rewrite Ep. unfold s. rewrite app_assoc, take_app_length, drop_app_length. split_and!; [| |done].
  - destruct ds as [|b ds]; [done|]. apply Forall_cons_iff in Hds as [Hb Hds].
    destruct suffix as [|c suf].
    + rewrite Hn by done. cbn [replicate]. rewrite !app_nil_r. apply trim_text_digits. by constructor.
    + destruct (list.last (c :: suf)) as [l|] eqn:El; [|by apply last_None in El].
      apply (trim_text_solid _ b l); [done|by rewrite last_app, El|unfold digit_byte, solid in *; lia|].
      apply alphabetic_solid. rewrite list.Forall_forall in Hsuf. apply Hsuf.
      apply last_Some in El as [s0 ->]. apply elem_of_app. right. by left.
  - unfold trim_text. destruct ds as [|b ds]; [done|]. apply Forall_cons_iff in Hds as Hd'.
    cbn [app]. rewrite trim_start_solid by (destruct Hd'; unfold digit_byte, solid in *; lia).
    change (b :: ds ++ replicate n 32) with ((b :: ds) ++ replicate n 32). rewrite trim_end_spaces.
    pose proof (trim_text_digits (b :: ds) Hds) as Ht. unfold trim_text in Ht.
    rewrite trim_start_solid in Ht by (destruct Hd'; unfold digit_byte, solid in *; lia). done.
Qed.

(** ** The theorems *)


(** Sizes.  A number, optional spaces and a unit in any case denote the number
    times the unit, a bare number KiB; a product beyond 64 bits is refused. *)
Theorem human_size_reading v n suffix unit err :
  is_u64 v → Forall (λ b, is_ascii_alphabetic b = true) suffix → (suffix = [] → n = 0%nat) →
  size_unit (to_ascii_lowercase suffix) = Some (unit, err) →
  parse_human_size (u64_to_string v ++ replicate n 32 ++ suffix) =
    if v * unit <=? MAX_U64 then Ok (v * unit) else Err err.
Proof.
  intros Hv Hs Hn Hu. destruct (u64_to_string_spec v Hv) as (Hne & Hd & _).
  destruct (size_parts (u64_to_string v) n suffix) as (E1 & E2 & E3); try done.
  unfold parse_human_size. cbv zeta. rewrite E1, E2, E3, parse_u64_to_string by done. simpl.
  rewrite trim_text_alphabetic, Hu by done. simpl. unfold checked_mul. by case_match.
Qed.

(** ** They apply *)

Definition sample_raw : RawConfig :=
  mkRaw (Some (str "file")) None None None (Some (str "/var")) (Some (str "5 MiB")) None None (Some (str "1gb"))
    None None None (Some (str "otlp-http")) None None None None None (Some 4096) None
    (Some 10) (Some (str "warn")) None None None None None [] None (Some 4) None None
    (Some (UrlMany [str "grpc://a:1"; str "http://b:2/x"])) None None None None None (Some 0) None None
    (Some (str "block")) None None (Some (str "drain")) None None None None None None None None None.

Definition sample_loaded : Config := match config_of sample_raw with Ok c => c | Err _ =>
  mkConfig [] ProtocolWire (mkIngestTls false None None None false) (mkLimits 0 0) (mkOverload 0 FloorInfo 0) None None None []
    [] 0 0 false (mkCollector [] 0 None None None None 0 0) (mkBackpressure false Block 0) (mkUpstream None Keep None 0 0)
    (mkTls false None None None false None) (StorageBuffer (mkBufferConfig (LimitBytes 0) 0)) [] end.


Example sample_loaded_storage :
  storage sample_loaded = StorageFile (mkFileConfig (str "bar.logjet") 5242880 FsyncInterval Lz4 1000000000 4096) ∧
  cc_batch_size (collector sample_loaded) = 1.
Proof. vm_compute. split; reflexivity. Qed.

(** The defaults: a missing default file. *)
Example default_config : ∃ c, config_of raw_default = Ok c ∧
  storage c = StorageBuffer (mkBufferConfig (LimitBytes 102400) 0) ∧ il_max_clients (ingest_limits c) = 32.
Proof. eexists. vm_compute. split; [reflexivity|]. split; reflexivity. Qed.

Lemma human_size_reading_witness :
  parse_human_size (str "512 KiB") = Ok 524288 ∧ is_ascii_alphabetic 75 = true.
Proof.
  split; [|reflexivity].
  apply (human_size_reading 512 1 (str "KiB") 1024 SizeOverflow).
  - split; vm_compute; discriminate.
  - repeat constructor.
  - done.
  - vm_compute. reflexivity.
Defined.
