(* ===== verification/Drain.v ===== *)
(** * The Drain log template miner

    [ljx/src/dedup/drain3.rs]: messages are assigned to clusters by a prefix tree
    over their words and a similarity threshold; the template of a cluster keeps the
    words its messages agree on.  Similarities are IEEE doubles.  The order in which
    a [HashMap] is traversed is a parameter. *)

From Stdlib Require Import SpecFloat.
From S2P Require Import Prelude Text.

Abbreviation word := (list Z).

(** ** Doubles and hash maps *)

Definition f64 : Type := spec_float.
Definition f64_of_Z (z : Z) : f64 := binary_normalize 53 1024 z 0 false.
Definition f64_div : f64 → f64 → f64 := SFdiv 53 1024.

(** The traversal order of a hash map. *)
Class HashOrder : Type := { traverse : ∀ {A : Type}, list A → list A }.
Class HashOrderLaws `{HashOrder} : Prop := traverse_permutation : ∀ A (l : list A), traverse l ≡ₚ l.

(** ** Data *)

Record DrainConfig : Type := mkDrainConfig {
  cfg_depth : Z;
  cfg_sim_th : f64;
  cfg_max_children : Z;
  cfg_max_clusters : Z;
  cfg_extra_delimiters : list word;
  cfg_parametrize_numeric_tokens : bool;
}.

Record LogCluster : Type := mkCluster { cluster_id : Z; template_tokens : list word; cluster_size : Z }.

#[local] Unset Elimination Schemes.
Inductive Node : Type := mkNode (children : list (word * Node)) (cluster_ids : list Z).
#[local] Set Elimination Schemes.

(** Induction with the hypothesis for every child. *)
Definition Node_ind (P : Node → Prop)
    (HP : ∀ ch ids, Forall (λ kn, P kn.2) ch → P (mkNode ch ids)) : ∀ n, P n :=
  fix rec n := match n with
    | mkNode ch ids => HP ch ids
        ((fix go ch : Forall (λ kn, P kn.2) ch :=
            match ch with
            | [] => Forall_nil_2 _
            | (k, n) :: ch => Forall_cons_2 (λ kn, P kn.2) (k, n) ch (rec n) (go ch)
            end) ch)
    end.

Definition node_children (n : Node) : list (word * Node) := match n with mkNode ch _ => ch end.
Definition node_ids (n : Node) : list Z := match n with mkNode _ ids => ids end.

Record Drain : Type := mkDrain {
  max_node_depth : Z;
  sim_th : f64;
  max_children : Z;
  root : Node;
  extra_delimiters : list word;
  parametrize_numeric_tokens : bool;
  clusters : gmap Z LogCluster;
  next_id : Z;
}.

Definition param_str : word := Eval vm_compute in str "<*>".

(** ** Operations *)

Definition Drain_new (cfg : DrainConfig) : Drain :=
  mkDrain (Z.max (cfg_depth cfg) 3 - 2) (cfg_sim_th cfg) (cfg_max_children cfg) (mkNode [] [])
    (cfg_extra_delimiters cfg) (cfg_parametrize_numeric_tokens cfg) ∅ 0.

Definition LogCluster_template (c : LogCluster) : word := join [32] (template_tokens c).

Definition tokenise (d : Drain) (content : word) : list word :=
  split_whitespace (foldl (λ s delim, replace_text delim [32] s) (trim_text content) (extra_delimiters d)).

(** [children.get], [children.insert] *)
Fixpoint child_get (k : word) (ch : list (word * Node)) : option Node :=
  match ch with
  | [] => None
  | (k', n) :: ch => if decide (k = k') then Some n else child_get k ch
  end.
Fixpoint child_set (k : word) (n : Node) (ch : list (word * Node)) : list (word * Node) :=
  match ch with
  | [] => [(k, n)]
  | (k', n') :: ch => if decide (k = k') then (k, n) :: ch else (k', n') :: child_set k n ch
  end.

Definition count_key (n : nat) : word := str (pretty n).

Definition seq_distance (template tokens : list word) (include_params : bool) : f64 * Z :=
  if negb (Nat.eqb (length template) (length tokens)) then (f64_of_Z 0, 0) else
  if Nat.eqb (length template) 0 then (f64_of_Z 1, 0) else
  let '(sim_tokens, param_count) :=
    foldl (λ '(sim, par) '(t1, t2),
             if decide (t1 = param_str) then (sim, par + 1) else
             if decide (t1 = t2) then (sim + 1, par) else (sim, par))
      (0, 0) (zip template tokens) in
  let sim_tokens := if include_params then sim_tokens + param_count else sim_tokens in
  (f64_div (f64_of_Z sim_tokens) (f64_of_Z (len template)), param_count).

Definition match_candidate (d : Drain) (tokens : list word) (include_params : bool)
    (best : f64 * Z * option Z) (cid : Z) : f64 * Z * option Z :=
  match clusters d !! cid with
  | None => best
  | Some cluster =>
      let '(best_sim, best_param_count, _) := best in
      let '(sim, param_count) := seq_distance (template_tokens cluster) tokens include_params in
      if SFltb best_sim sim || (SFeqb sim best_sim && (best_param_count <? param_count))
      then (sim, param_count, Some cid) else best
  end.

Definition fast_match (d : Drain) (candidate_ids : list Z) (tokens : list word) (include_params : bool) : option Z :=
  let '(best_sim, _, best_id) :=
    foldl (match_candidate d tokens include_params) (f64_of_Z (-1), -1, None) candidate_ids in
  if SFleb (sim_th d) best_sim then best_id else None.

(** The walk of [tree_search] from the node at [depth]. *)
Fixpoint tree_walk (d : Drain) (token_count depth : Z) (tokens : list word) (current : Node) : option Node :=
  match tokens with
  | [] => Some current
  | token :: tokens =>
      if (max_node_depth d <=? depth) || (token_count <=? depth) then Some current else
      match child_get token (node_children current) with
      | Some child => tree_walk d token_count (depth + 1) tokens child
      | None =>
          match child_get param_str (node_children current) with
          | Some child => tree_walk d token_count (depth + 1) tokens child
          | None => None
          end
      end
  end.

Definition tree_search (d : Drain) (tokens : list word) : option Z :=
  match child_get (count_key (length tokens)) (node_children (root d)) with
  | None => None
  | Some first_layer =>
      if Nat.eqb (length tokens) 0 then list.head (node_ids first_layer) else
      match tree_walk d (len tokens) 1 tokens first_layer with
      | None => None
      | Some current => fast_match d (node_ids current) tokens false
      end
  end.

Definition has_numbers (token : word) : bool := existsb (λ b, (48 <=? b) && (b <=? 57)) token.

(** The child to go to when a cluster is added; [None]: the [unwrap] panics. *)
Definition choose_child (d : Drain) (token : word) (ch : list (word * Node)) : option word :=
  let has k := bool_decide (is_Some (child_get k ch)) in
  if negb (has token) && parametrize_numeric_tokens d && has_numbers token then Some param_str else
  if has token then Some token else
  if has param_str then (if len ch <? max_children d then Some token else Some param_str) else
  if len ch + 1 <? max_children d then Some token else
  if len ch + 1 =? max_children d then Some param_str else None.

Fixpoint insert_path (d : Drain) (cid token_count depth : Z) (tokens : list word) (node : Node) : option Node :=
  match tokens with
  | [] => Some node
  | token :: tokens =>
      let '(mkNode ch ids) := node in
      if (max_node_depth d <=? depth) || (token_count <=? depth)
      then Some (mkNode ch (filter (λ id, is_Some (clusters d !! id)) ids ++ [cid])) else
      match choose_child d token ch with
      | None => None
      | Some key =>
          let child := default (mkNode [] []) (child_get key ch) in
          match insert_path d cid token_count (depth + 1) tokens child with
          | None => None
          | Some child => Some (mkNode (child_set key child ch) ids)
          end
      end
  end.

Definition add_to_prefix_tree (d : Drain) (cluster : LogCluster) : option Node :=
  let tokens := template_tokens cluster in
  let key := count_key (length tokens) in
  let first_layer := default (mkNode [] []) (child_get key (node_children (root d))) in
  let first_layer :=
    if Nat.eqb (length tokens) 0 then Some (mkNode (node_children first_layer) [cluster_id cluster])
    else insert_path d (cluster_id cluster) (len tokens) 1 tokens first_layer in
  match first_layer with
  | None => None
  | Some first_layer => Some (mkNode (child_set key first_layer (node_children (root d))) (node_ids (root d)))
  end.

Definition create_template (seq1 seq2 : list word) : list word :=
  (λ '(t2, t1), if decide (t1 = t2) then t2 else param_str) <$> zip seq2 seq1.

Section Drain.
Context {HO : HashOrder}.

Fixpoint collect_cluster_ids (n : Node) : list Z :=
  match n with
  | mkNode ch ids =>
      ids ++ concat (traverse ((fix go (ch : list (word * Node)) : list (list Z) :=
        match ch with
        | [] => []
        | (_, n) :: ch => collect_cluster_ids n :: go ch
        end) ch))
  end.

Definition get_cluster_ids_for_seq_len (d : Drain) (seq_len : nat) : list Z :=
  match child_get (count_key seq_len) (node_children (root d)) with
  | None => []
  | Some current => collect_cluster_ids current
  end.

Definition set_clusters (cs : gmap Z LogCluster) (d : Drain) : Drain :=
  mkDrain (max_node_depth d) (sim_th d) (max_children d) (root d) (extra_delimiters d)
    (parametrize_numeric_tokens d) cs (next_id d).

Definition find_cluster (d : Drain) (tokens : list word) : option Z :=
  match tree_search d tokens with
  | Some cid => Some cid
  | None => fast_match d (get_cluster_ids_for_seq_len d (length tokens)) tokens true
  end.

(** The cluster of a message and whether it is new; [None]: a panic. *)
Definition add_log_message (content : word) (d : Drain) : option (Z * bool * Drain) :=
  let tokens := tokenise d content in
  match find_cluster d tokens with
  | Some cid =>
      match clusters d !! cid with
      | None => None
      | Some (mkCluster id tpl size) =>
          Some (cid, false, set_clusters (<[cid := mkCluster id (create_template tokens tpl) (size + 1)]> (clusters d)) d)
      end
  | None =>
      let id := next_id d + 1 in
      let cluster := mkCluster id tokens 1 in
      match add_to_prefix_tree d cluster with
      | None => None
      | Some root' =>
          Some (id, true, mkDrain (max_node_depth d) (sim_th d) (max_children d) root' (extra_delimiters d)
                            (parametrize_numeric_tokens d) (<[id := cluster]> (clusters d)) id)
      end
  end.
End Drain.

(** ** Invariants *)

(** [Q] holds of every node of a tree. *)
Inductive tree_all (Q : Node → Prop) : Node → Prop :=
| tree_all_node ch ids :
    Q (mkNode ch ids) → (∀ k n, (k, n) ∈ ch → tree_all Q n) → tree_all Q (mkNode ch ids).

Lemma child_get_elem k ch n : child_get k ch = Some n → (k, n) ∈ ch.
Proof.
  induction ch as [|[k' n'] ch IH]; simpl; [done|]. case_decide; [|intros ?%IH; by right].
  intros [= ->]. subst. by left.
Qed.

Lemma child_set_elem k n ch k' n' : (k', n') ∈ child_set k n ch → (k', n') = (k, n) ∨ (k', n') ∈ ch.
Proof.
  induction ch as [|[k0 n0] ch IH]; simpl; [rewrite list_elem_of_singleton; by left|].
  case_decide; rewrite !elem_of_cons; [tauto|]. intros [?|Hin]; [tauto|]. destruct (IH Hin); tauto.
Qed.

Lemma child_get_set k n ch k' : child_get k' (child_set k n ch) = if decide (k' = k) then Some n else child_get k' ch.
Proof.
  induction ch as [|[k0 n0] ch IH]; simpl; [done|].
  destruct (decide (k = k0)) as [<-|Hne]; simpl; [by destruct (decide (k' = k))|].
  rewrite IH. destruct (decide (k' = k0)) as [->|]; [by rewrite decide_False|done].
Qed.

Lemma child_set_len k n ch :
  len (child_set k n ch) = len ch + (if bool_decide (is_Some (child_get k ch)) then 0 else 1).
Proof.
  induction ch as [|[k0 n0] ch IH]; simpl; [done|]. case_decide; subst.
  - rewrite bool_decide_eq_true_2 by done. rewrite !len_cons. lia.
  - rewrite !len_cons, IH. lia.
Qed.

(** No wildcard child, no overflow: there is room for one. *)
Definition room_ok (max : Z) (n : Node) : Prop :=
  child_get param_str (node_children n) = None → len (node_children n) + 1 ≤ max.

Definition node_ok (max : Z) (P : Z → Prop) (n : Node) : Prop := room_ok max n ∧ Forall P (node_ids n).

Lemma tree_all_empty max P : 1 ≤ max → tree_all (node_ok max P) (mkNode [] []).
Proof. intros Hm. constructor; [|by intros k n ?%elem_of_nil]. split; [|constructor]. intros _. cbn [node_children].
  rewrite len_nil. lia.
Qed.

Lemma tree_all_child Q k ch ids n : tree_all Q (mkNode ch ids) → child_get k ch = Some n → tree_all Q n.
Proof. intros Ht Hk%child_get_elem. inversion Ht; subst. eauto. Qed.

Lemma tree_all_impl (Q Q' : Node → Prop) n : (∀ n, Q n → Q' n) → tree_all Q n → tree_all Q' n.
Proof.
  intros HQ. induction n as [ch ids IH] using Node_ind. intros Ht. inversion Ht as [? ? Hq Hch]; subst.
  constructor; [by apply HQ|]. intros k n Hin. rewrite list.Forall_forall in IH. by apply (IH (k, n)); eauto.
Qed.

(** The child that is chosen exists or may be added. *)
Lemma choose_child_ok d token ch :
  (child_get param_str ch = None → len ch + 1 ≤ max_children d) →
  ∃ key, choose_child d token ch = Some key ∧
    ∀ n, room_ok (max_children d) (mkNode (child_set key n ch) []).
Proof.
  intros Hroom. unfold choose_child, room_ok. cbn [node_children].
  assert (∀ n k, k ≠ param_str → (child_get param_str ch = None → len (child_set k n ch) + 1 ≤ max_children d) →
    child_get param_str (child_set k n ch) = None → len (child_set k n ch) + 1 ≤ max_children d) as Hother.
  { intros n k Hk Hle. rewrite child_get_set, decide_False by done. done. }
  assert (∀ n, child_get param_str (child_set param_str n ch) = None → len (child_set param_str n ch) + 1 ≤ max_children d)
    as Hparam by (intros n; by rewrite child_get_set, decide_True).
  destruct (_ && _ && _); [by eexists|].
  destruct (decide (token = param_str)) as [->|Hne].
  { destruct (bool_decide (is_Some (child_get param_str ch))) eqn:Ep; [by eexists|].
    apply bool_decide_eq_false in Ep. rewrite <- eq_None_not_Some in Ep. specialize (Hroom Ep).
    destruct (Z.ltb_spec (len ch + 1) (max_children d)); [by eexists|].
    rewrite (proj2 (Z.eqb_eq _ _)) by lia. by eexists. }
  destruct (bool_decide (is_Some (child_get token ch))) eqn:Et.
  { eexists. split; [done|]. intros n. apply Hother; [done|]. rewrite child_set_len, Et. intros H0%Hroom. lia. }
  destruct (bool_decide (is_Some (child_get param_str ch))) eqn:Ep.
  { apply bool_decide_eq_true in Ep as [x Hx].
    destruct (_ <? _); eexists; (split; [done|]); [|apply Hparam].
    intros n. apply Hother; [done|]. congruence. }
  apply bool_decide_eq_false in Ep. rewrite <- eq_None_not_Some in Ep. specialize (Hroom Ep).
  destruct (Z.ltb_spec (len ch + 1) (max_children d)).
  { eexists. split; [done|]. intros n. apply Hother; [done|]. rewrite child_set_len, Et. lia. }
  rewrite (proj2 (Z.eqb_eq _ _)) by lia. eexists. split; [done|]. apply Hparam.
Qed.

(** Adding a cluster never panics and keeps the tree in order. *)
Lemma insert_path_ok d (P : Z → Prop) cid count depth tokens n :
  P cid → 1 ≤ max_children d → tree_all (node_ok (max_children d) P) n →
  ∃ n', insert_path d cid count depth tokens n = Some n' ∧ tree_all (node_ok (max_children d) P) n'.
Proof.
  intros Hp Hm. revert depth n. induction tokens as [|token tokens IH]; intros depth n Ht; [by exists n|].
  destruct n as [ch ids]. inversion Ht as [? ? [Hroom Hids] Hch]; subst. cbn [insert_path].
  destruct (_ || _).
  - eexists. split; [done|]. constructor; [|done]. split; [done|]. cbn [node_ids] in *.
    apply Forall_app. split; [|by constructor]. rewrite list.Forall_forall in *.
    intros x [_ Hx]%list_elem_of_filter. by apply Hids.
  - destruct (choose_child_ok d token ch Hroom) as (key & -> & Hr).
    assert (tree_all (node_ok (max_children d) P) (default (mkNode [] []) (child_get key ch))) as Hc.
    { destruct (child_get key ch) as [c|] eqn:E; simpl; [by eapply tree_all_child|by apply tree_all_empty]. }
    destruct (IH (depth + 1) _ Hc) as (c' & -> & Hc'). eexists. split; [done|].
    constructor; [split; [apply Hr|done]|].
    intros k n [E|Hin]%child_set_elem; [by injection E as -> ->|by eapply Hch].
Qed.

(** *** Searching *)

Lemma fast_match_elem d ids tokens b cid :
  fast_match d ids tokens b = Some cid → cid ∈ ids ∧ is_Some (clusters d !! cid).
Proof.
  unfold fast_match. assert (∀ best, (∀ c, best.2 = Some c → is_Some (clusters d !! c)) →
    ∀ c, (foldl (match_candidate d tokens b) best ids).2 = Some c →
      (best.2 = Some c ∨ c ∈ ids) ∧ is_Some (clusters d !! c)) as H.
  { induction ids as [|id ids IH]; intros best Hb c Hc; simpl in Hc; [eauto|].
    assert ((match_candidate d tokens b best id).2 = best.2 ∨
      (match_candidate d tokens b best id).2 = Some id ∧ is_Some (clusters d !! id)) as Hs.
    { unfold match_candidate. destruct (clusters d !! id); [|by left]. destruct best as [[bs bp] bi].
      destruct (seq_distance _ _ _). destruct (_ || _); [right|by left]. by split. }
    destruct (IH (match_candidate d tokens b best id)) with (c := c) as [[Hx|Hx] Hy]; try done.
    - intros c0 Hc0. destruct Hs as [E|[E ?]]; [apply Hb; congruence|]. rewrite E in Hc0. by injection Hc0 as <-.
    - split; [|done]. destruct Hs as [E|[E _]]; rewrite E in Hx; [by left|]. right. injection Hx as ->. by left.
    - split; [|done]. right. by right. }
  specialize (H (f64_of_Z (-1), -1, None)). destruct (foldl _ _ ids) as [[s pc] best] eqn:E. simpl in H.
  destruct (SFleb (sim_th d) s); [|done]. intros ->. destruct (H ltac:(done) cid eq_refl) as [[?|?] ?]; done.
Qed.

Lemma tree_walk_all Q d count depth tokens n n' :
  tree_all Q n → tree_walk d count depth tokens n = Some n' → tree_all Q n'.
Proof.
  revert depth n. induction tokens as [|token tokens IH]; intros depth n Ht Hw; simpl in Hw; [by injection Hw as <-|].
  destruct (_ || _); [by injection Hw as <-|]. destruct n as [ch ids]. cbn [node_children] in Hw.
  destruct (child_get token ch) as [c|] eqn:E1; [eapply IH; [by eapply tree_all_child|done]|].
  destruct (child_get param_str ch) as [c|] eqn:E2; [eapply IH; [by eapply tree_all_child|done]|done].
Qed.

Lemma tree_all_here Q n : tree_all Q n → Q n.
Proof. by intros []. Qed.

Lemma count_key_inj n m : count_key n = count_key m → n = m.
Proof. by intros E%str_inj%(inj pretty). Qed.

Section Laws.
Context {HO : HashOrder} {HL : HashOrderLaws}.

Lemma collect_all max P n : tree_all (node_ok max P) n → Forall P (collect_cluster_ids n).
Proof.
  induction n as [ch ids IH] using Node_ind. intros Ht. inversion Ht as [? ? [_ Hids] Hch]; subst.
  cbn [collect_cluster_ids]. apply Forall_app. split; [done|]. apply Forall_concat.
  rewrite (traverse_permutation _ _). clear Ht Hids.
  induction ch as [|[k n] ch IHch]; [constructor|]. apply Forall_cons_iff in IH as [Hn IH].
  constructor; [apply Hn, (Hch k); by left|]. apply IHch; [done|]. intros k' n' Hin. apply (Hch k'). by right.
Qed.

(** *** The invariant *)

(** [tpl] is a template of [tokens]. *)
Definition covers (tpl tokens : list word) : Prop := Forall2 (λ t x, t = param_str ∨ t = x) tpl tokens.

Definition in_group (cs : gmap Z LogCluster) (count : nat) (id : Z) : Prop :=
  ∃ c, cs !! id = Some c ∧ length (template_tokens c) = count.

Definition layer_ok (d : Drain) (cs : gmap Z LogCluster) (k : word) (n : Node) : Prop :=
  ∃ count, k = count_key count ∧ tree_all (node_ok (max_children d) (in_group cs count)) n.

Record drain_inv (d : Drain) (hist : list (list word * Z)) : Prop := {
  di_max : 1 ≤ max_children d;
  di_root : ∀ k n, child_get k (node_children (root d)) = Some n → layer_ok d (clusters d) k n;
  di_next : ∀ id c, clusters d !! id = Some c → id ≤ next_id d;
  di_hist : ∀ tokens cid, (tokens, cid) ∈ hist → ∃ c, clusters d !! cid = Some c ∧ covers (template_tokens c) tokens;
  di_size : ∀ id c, clusters d !! id = Some c → cluster_size c = len (filter (λ h, h.2 = id) hist) ∧ 0 < cluster_size c;
}.

Lemma create_template_length tokens tpl :
  length tpl = length tokens → length (create_template tokens tpl) = length tokens.
Proof. intros E. unfold create_template. rewrite length_fmap, length_zip. lia. Qed.

Lemma create_template_covers tokens tpl :
  length tpl = length tokens →
  covers (create_template tokens tpl) tokens ∧
  ∀ old, covers tpl old → covers (create_template tokens tpl) old.
Proof.
  unfold covers, create_template. revert tpl. induction tokens as [|x tokens IH]; intros [|t tpl] E; try done.
  injection E as E. destruct (IH tpl E) as [H1 H2]. cbn [zip zip_with fmap list_fmap]. split.
  - constructor; [|done]. case_decide; [by right|by left].
  - intros old Ho. inversion Ho as [|? y ? old' Hy Ho']; subst. constructor; [|by apply H2].
    case_decide; [|by left]. destruct Hy; [by left|by right].
Qed.

Lemma layer_ok_mono d d' cs cs' k n :
  max_children d' = max_children d →
  (∀ count id, in_group cs count id → in_group cs' count id) → layer_ok d cs k n → layer_ok d' cs' k n.
Proof.
  intros Em Hcs (count & -> & Ht). exists count. split; [done|]. rewrite Em.
  eapply tree_all_impl; [|exact Ht]. intros m [Hr Hf]. split; [done|]. eapply Forall_impl; [|exact Hf]. auto.
Qed.

Lemma find_cluster_group d hist tokens cid :
  drain_inv d hist → find_cluster d tokens = Some cid →
  in_group (clusters d) (length tokens) cid.
Proof.
  intros Hinv.
  assert (∀ n, child_get (count_key (length tokens)) (node_children (root d)) = Some n →
    tree_all (node_ok (max_children d) (in_group (clusters d) (length tokens))) n) as Hlay.
  { intros n Hn. destruct (di_root _ _ Hinv _ _ Hn) as (count & E & Ht).
    by rewrite (count_key_inj _ _ E). }
  unfold find_cluster. destruct (tree_search d tokens) as [c|] eqn:Es.
  - intros [= ->]. unfold tree_search in Es.
    destruct (child_get (count_key (length tokens)) _) as [first|]; [|done]. specialize (Hlay first eq_refl).
    destruct (Nat.eqb (length tokens) 0).
    + destruct (tree_all_here _ _ Hlay) as [_ Hf]. destruct first as [ch [|id ids]]; [done|]. simpl in *.
      injection Es as ->. by apply Forall_cons_iff in Hf as [? _].
    + destruct (tree_walk _ _ _ _ _) as [n|] eqn:Ew; [|done].
      destruct (tree_all_here _ _ (tree_walk_all _ _ _ _ _ _ _ Hlay Ew)) as [_ Hf].
      apply fast_match_elem in Es as [Hin _]. rewrite list.Forall_forall in Hf. by apply Hf.
  - intros [Hin _]%fast_match_elem. unfold get_cluster_ids_for_seq_len in Hin.
    destruct (child_get _ _) as [first|] eqn:Ef; [|by apply elem_of_nil in Hin].
    pose proof (collect_all _ _ _ (Hlay first eq_refl)) as Hf. rewrite list.Forall_forall in Hf. by apply Hf.
Qed.

Lemma filter_snoc_ids (hist : list (list word * Z)) tokens cid id :
  len (filter (λ h, h.2 = id) (hist ++ [(tokens, cid)])) =
    len (filter (λ h, h.2 = id) hist) + (if decide (cid = id) then 1 else 0).
Proof. rewrite list.filter_app, len_app, filter_cons, filter_nil. simpl. by case_decide. Qed.

Lemma in_group_insert cs cid c c' count id :
  cs !! cid = Some c → length (template_tokens c') = length (template_tokens c) →
  in_group cs count id → in_group (<[cid := c']> cs) count id.
Proof.
  intros Hc El (c0 & H0 & Hl). destruct (decide (id = cid)) as [->|Hne].
  - exists c'. rewrite lookup_insert_eq. split; [done|]. congruence.
  - exists c0. by rewrite lookup_insert_ne.
Qed.

Lemma add_known d hist tokens cid id tpl size :
  drain_inv d hist → clusters d !! cid = Some (mkCluster id tpl size) → length tpl = length tokens →
  drain_inv (set_clusters (<[cid := mkCluster id (create_template tokens tpl) (size + 1)]> (clusters d)) d)
    (hist ++ [(tokens, cid)]).
Proof.
  intros [Hm Hr Hn Hh Hs] Hc El. destruct (create_template_covers tokens tpl El) as [Hcov Hold].
  split; cbn [set_clusters max_children root clusters next_id]; [done| | | |].
  - intros k n Hk. eapply layer_ok_mono; [done| |by apply Hr]. intros count x.
    apply (in_group_insert _ _ (mkCluster id tpl size)); [done|]. cbn [template_tokens].
    by rewrite create_template_length.
  - intros x c Hx. destruct (decide (x = cid)) as [->|Hne]; [by eapply Hn|].
    rewrite lookup_insert_ne in Hx by done. by eapply Hn.
  - intros ts x [Hin|E%list_elem_of_singleton]%elem_of_app.
    + destruct (Hh _ _ Hin) as (c & Hx & Hcv). destruct (decide (x = cid)) as [->|Hne].
      * eexists. rewrite lookup_insert_eq. split; [done|]. simplify_eq. by apply Hold.
      * exists c. by rewrite lookup_insert_ne.
    + injection E as -> ->. eexists. by rewrite lookup_insert_eq.
  - intros x c Hx. rewrite filter_snoc_ids. destruct (decide (x = cid)) as [->|Hne].
    + rewrite lookup_insert_eq in Hx. injection Hx as <-. rewrite decide_True by done. cbn [cluster_size].
      destruct (Hs _ _ Hc) as [E Hp]. cbn [cluster_size] in *. lia.
    + rewrite lookup_insert_ne in Hx by done. rewrite decide_False by done.
      destruct (Hs _ _ Hx). lia.
Qed.

Lemma fresh_not_in d hist id c : drain_inv d hist → clusters d !! id = Some c → id ≠ next_id d + 1.
Proof. intros Hinv Hid%(di_next _ _ Hinv). lia. Qed.

Lemma add_tree d hist tokens cs :
  drain_inv d hist →
  (∀ count id, in_group (clusters d) count id → in_group cs count id) →
  in_group cs (length tokens) (next_id d + 1) →
  ∃ root', add_to_prefix_tree d (mkCluster (next_id d + 1) tokens 1) = Some root' ∧
    ∀ k n, child_get k (node_children root') = Some n → layer_ok d cs k n.
Proof.
  intros [Hm Hr Hn Hh Hs] Hcs Hid. unfold add_to_prefix_tree. cbn [template_tokens cluster_id].
  set (key := count_key (length tokens)). set (max := max_children d) in *.
  assert (tree_all (node_ok max (in_group cs (length tokens))) (default (mkNode [] []) (child_get key (node_children (root d)))))
    as Hfirst.
  { destruct (child_get key _) as [n|] eqn:E; simpl; [|by apply tree_all_empty].
    destruct (layer_ok_mono d d _ cs _ _ eq_refl Hcs (Hr _ _ E)) as (count & Ek & Ht).
    by rewrite (count_key_inj (length tokens) count Ek). }
  assert (∃ n', (if Nat.eqb (length tokens) 0
    then Some (mkNode (node_children (default (mkNode [] []) (child_get key (node_children (root d))))) [next_id d + 1])
    else insert_path d (next_id d + 1) (len tokens) 1 tokens (default (mkNode [] []) (child_get key (node_children (root d)))))
      = Some n' ∧ tree_all (node_ok max (in_group cs (length tokens))) n') as (n' & -> & Hn').
  { destruct (Nat.eqb _ _); [|by apply insert_path_ok]. eexists. split; [done|].
    destruct (default _ _) as [ch ids]. inversion Hfirst as [? ? [Hroom _] Hch]; subst.
    constructor; [|done]. split; [done|]. by constructor. }
  eexists. split; [done|]. intros k n. cbn [node_children]. rewrite child_get_set. case_decide as Ek.
  - intros [= <-]. by exists (length tokens).
  - intros Hk%Hr. by eapply layer_ok_mono.
Qed.

Lemma add_fresh d hist tokens :
  drain_inv d hist →
  let id := next_id d + 1 in
  ∃ root', add_to_prefix_tree d (mkCluster id tokens 1) = Some root' ∧
    drain_inv (mkDrain (max_node_depth d) (sim_th d) (max_children d) root' (extra_delimiters d)
                 (parametrize_numeric_tokens d) (<[id := mkCluster id tokens 1]> (clusters d)) id)
      (hist ++ [(tokens, id)]).
Proof.
  intros Hinv id. pose proof (fresh_not_in d hist) as Hfr.
  destruct (add_tree d hist tokens (<[id := mkCluster id tokens 1]> (clusters d)) Hinv) as (root' & Hadd & Hroot).
  - intros count x (c & Hx & Hl). exists c. rewrite lookup_insert_ne; [done|]. intros E. by eapply Hfr; eauto.
  - eexists. by rewrite lookup_insert_eq.
  - exists root'. split; [done|]. destruct Hinv as [Hm Hr Hn Hh Hs] eqn:EH. clear EH.
    split; cbn [max_children root clusters next_id]; [done|exact Hroot| | |].
    + intros x c Hx. destruct (decide (x = id)) as [->|Hne]; [done|]. rewrite lookup_insert_ne in Hx by done.
      specialize (Hn _ _ Hx). lia.
    + intros ts x [Hin|E%list_elem_of_singleton]%elem_of_app.
      * destruct (Hh _ _ Hin) as (c & Hx & Hcv). exists c. rewrite lookup_insert_ne; [done|].
        intros E. specialize (Hn _ _ Hx). lia.
      * injection E as -> ->. eexists. rewrite lookup_insert_eq. split; [done|].
        apply Forall2_same_length_lookup_2; [done|]. intros i a b Ha Hb. right. simpl in Ha. congruence.
    + intros x c Hx. rewrite filter_snoc_ids. destruct (decide (x = id)) as [->|Hne].
      * rewrite lookup_insert_eq in Hx. injection Hx as <-. rewrite decide_True by done. cbn [cluster_size].
        assert (filter (λ h, h.2 = id) hist = []) as ->; [|done].
        apply list_filter_false. intros [ts y] Hin E. simpl in E. subst y.
        destruct (Hh _ _ Hin) as (c & Hc & _). specialize (Hn _ _ Hc). lia.
      * rewrite lookup_insert_ne in Hx by done. rewrite decide_False by done.
      destruct (Hs _ _ Hx). lia.
Qed.

Lemma add_log_message_ok d hist content :
  drain_inv d hist →
  ∃ cid is_new d', add_log_message content d = Some (cid, is_new, d') ∧
    drain_inv d' (hist ++ [(tokenise d content, cid)]) ∧ (is_new = true ↔ cid ∉ hist.*2) ∧
    extra_delimiters d' = extra_delimiters d.
Proof.
  intros Hinv. unfold add_log_message. set (tokens := tokenise d content) in *. cbv zeta.
  destruct (find_cluster d tokens) as [cid|] eqn:Ef.
  - destruct (find_cluster_group _ _ _ _ Hinv Ef) as ([id tpl size] & Hc & El). rewrite Hc.
    exists cid, false. eexists. split; [done|]. split_and!; [|split; [done|]|done].
    + by apply add_known.
    + intros Hnot. exfalso. apply Hnot. pose proof (di_size _ _ Hinv _ _ Hc) as Hsz. cbn [cluster_size] in Hsz.
      destruct (filter (λ h, h.2 = cid) hist) as [|[ts x] l] eqn:Efl.
      * rewrite len_nil in Hsz. lia.
      * assert ((ts, x) ∈ filter (λ h, h.2 = cid) hist) as Hin by (rewrite Efl; by left).
        apply list_elem_of_filter in Hin as [E Hin]. simpl in E. subst x.
        apply list_elem_of_fmap. by exists (ts, cid).
  - destruct (add_fresh _ _ tokens Hinv) as (root' & -> & Hinv').
    exists (next_id d + 1), true. eexists. split; [done|]. split_and!; [done| |done]. split; [|done]. intros _.
    intros ([ts x] & E & Hin)%list_elem_of_fmap. simpl in E. subst x.
    destruct (di_hist _ _ Hinv _ _ Hin) as (c & Hc & _). by apply (fresh_not_in _ _ _ _ Hinv Hc).
Qed.

(** *** A run *)

Fixpoint drain_run (msgs : list word) (d : Drain) : option (list (Z * bool) * Drain) :=
  match msgs with
  | [] => Some ([], d)
  | m :: msgs =>
      match add_log_message m d with
      | None => None
      | Some (cid, is_new, d) =>
          match drain_run msgs d with
          | None => None
          | Some (out, d) => Some ((cid, is_new) :: out, d)
          end
      end
  end.

(** The words of a message under a configuration. *)
Definition words_of (cfg : DrainConfig) (m : word) : list word := tokenise (Drain_new cfg) m.

(** [is_new] marks the first message of each cluster. *)
Fixpoint marks_first (seen : list Z) (out : list (Z * bool)) : Prop :=
  match out with
  | [] => True
  | (cid, is_new) :: out => (is_new = true ↔ cid ∉ seen) ∧ marks_first (seen ++ [cid]) out
  end.

Lemma drain_run_ok cfg msgs d hist :
  drain_inv d hist → extra_delimiters d = cfg_extra_delimiters cfg →
  ∃ out d', drain_run msgs d = Some (out, d') ∧ length out = length msgs ∧
    drain_inv d' (hist ++ zip (words_of cfg <$> msgs) out.*1) ∧ marks_first hist.*2 out.
Proof.
  revert d hist. induction msgs as [|m msgs IH]; intros d hist Hinv Ed.
  { exists [], d. rewrite app_nil_r. done. }
  assert (tokenise d m = words_of cfg m) as Et by (unfold words_of, tokenise; by rewrite Ed).
  destruct (add_log_message_ok d hist m Hinv) as (cid & is_new & d1 & Ha & Hinv1 & Hnew & Ed1).
  rewrite Et in Hinv1. destruct (IH d1 _ Hinv1 ltac:(congruence)) as (out & d' & Hr & El & Hinv' & Hmf).
  exists ((cid, is_new) :: out), d'. cbn [drain_run]. rewrite Ha, Hr. split; [done|].
  split; [simpl; by rewrite El|]. rewrite <- app_assoc in Hinv'. split; [exact Hinv'|]. simpl.
  rewrite fmap_app in Hmf. by split.
Qed.

Lemma drain_new_inv cfg : 1 ≤ cfg_max_children cfg → drain_inv (Drain_new cfg) [].
Proof. intros Hm. split; try done. by intros tokens cid ?%elem_of_nil. Qed.

(** C22: template mining.  Whatever messages are fed to it, the miner never panics;
    every message is assigned to a cluster whose final template covers it word by
    word, the size of a cluster is the number of its messages, and a cluster is
    reported as new exactly at its first message. *)
Theorem drain_templates_cover cfg msgs :
  1 ≤ cfg_max_children cfg →
  ∃ out d', drain_run msgs (Drain_new cfg) = Some (out, d') ∧ length out = length msgs ∧ marks_first [] out ∧
    ∀ i m cid is_new, msgs !! i = Some m → out !! i = Some (cid, is_new) →
      ∃ c, clusters d' !! cid = Some c ∧ covers (template_tokens c) (words_of cfg m) ∧
        cluster_size c = len (filter (λ x, x.1 = cid) out).
Proof.
  intros Hm. destruct (drain_run_ok cfg msgs (Drain_new cfg) [] (drain_new_inv cfg Hm) eq_refl)
    as (out & d' & Hr & El & Hinv & Hmf).
  exists out, d'. split_and!; try done. intros i m cid is_new Hi Ho.
  destruct (di_hist _ _ Hinv (words_of cfg m) cid) as (c & Hc & Hcov).
  { apply list_elem_of_lookup. exists i. rewrite app_nil_l. apply lookup_zip_with_Some.
    exists (words_of cfg m), cid. rewrite !list_lookup_fmap, Hi, Ho. done. }
  exists c. split_and!; try done. destruct (di_size _ _ Hinv _ _ Hc) as [-> _]. rewrite app_nil_l.
  assert (length (words_of cfg <$> msgs) = length out) as El' by (rewrite length_fmap; lia).
  revert El'. clear. generalize (words_of cfg <$> msgs). intros l. revert out.
  induction l as [|w l IH]; intros [|[x b] out] E; try done. cbn [zip zip_with fmap list_fmap].
  injection E as E. specialize (IH out E). rewrite !filter_cons. cbn [fst snd].
  case_decide; rewrite ?len_cons; [f_equal|]; exact IH.
Qed.
End Laws.

(** ** It applies *)

Section Witness.
Definition insertion_order : HashOrder := {| traverse _ l := l |}.
#[local] Existing Instance insertion_order.
Lemma insertion_order_laws : HashOrderLaws.
Proof. intros A l. reflexivity. Qed.
#[local] Existing Instance insertion_order_laws.

(** A threshold of 0.7 and a depth of 3, as the pipeline uses. *)
Definition sample_drain : DrainConfig :=
  mkDrainConfig 3 (f64_div (f64_of_Z 7) (f64_of_Z 10)) 100 1000 [str ","] true.
Definition sample_messages : list word :=
  str <$> ["user alice logged in from rack,7"; "disk full"; "user bob logged in from rack,8"; ""; "disk full"].

Definition sample_assignment : list (Z * bool) := [(1, true); (2, true); (1, false); (3, true); (2, false)].

Lemma drain_templates_cover_witness :
  ∃ out d', drain_run sample_messages (Drain_new sample_drain) = Some (out, d') ∧
    length out = length sample_messages ∧ marks_first [] out ∧
    ∀ i m cid is_new, sample_messages !! i = Some m → out !! i = Some (cid, is_new) →
      ∃ c, clusters d' !! cid = Some c ∧ covers (template_tokens c) (words_of sample_drain m) ∧
        cluster_size c = len (filter (λ x, x.1 = cid) out).
Proof.
  apply (drain_templates_cover sample_drain sample_messages). vm_compute. discriminate.
Defined.

Example sample_clusters :
  match drain_run sample_messages (Drain_new sample_drain) with
  | Some (out, d) => out = sample_assignment
  | None => False
  end.
Proof. vm_compute. reflexivity. Qed.
End Witness.
