(* ===== verification/Tokens.v ===== *)
(** * Canonical tokens

    [ljx/src/dedup/canon_freetext.rs] and [canon_kv.rs]: the words of a message are
    classified by their characters, and those that vary between occurrences of the
    same message (numbers, addresses, identifiers) are replaced by placeholders.
    The regular expressions are parameters with what their patterns say. *)

From S2P Require Import Prelude Text.

Abbreviation text := (list Z).

(** [is_iso8601], [\b\w+=\S+] (number of matches) and
    [^\[[\d:]+\]\s+\S+\.\w+:\d+:?\s*] (end of the match). *)
Class Regexes : Type := {
  re_iso8601 : text → bool;
  re_key_value_count : text → Z;
  re_source_prefix : text → option nat;
}.

(** An ISO 8601 time starts with the four digits of the year; a source prefix has at
    least its bracket. *)
Class RegexLaws `{Regexes} : Prop := {
  iso8601_year : ∀ s, re_iso8601 s = true → Forall (λ b, 0 ≤ b ≤ 127) s →
    (4 ≤ length (take_while is_ascii_digit s))%nat;
  source_prefix_end : ∀ s n, re_source_prefix s = Some n → (0 < n ≤ length s)%nat;
}.

Inductive TokenClass : Type :=
| Preserve
| Replace (placeholder : text)
| Compound (canonical : text).

(** ** Recognisers *)

Definition is_dash_position (i : nat) : bool := (i =? 8)%nat || (i =? 13)%nat || (i =? 18)%nat || (i =? 23)%nat.

Fixpoint uuid_chars (i : nat) (b : text) : bool :=
  match b with
  | [] => true
  | c :: b => (is_dash_position i || is_ascii_hexdigit c) && uuid_chars (S i) b
  end.

Definition is_uuid (b : text) : bool :=
  (len b =? 36) && bool_decide (b !! 8%nat = Some 45) && bool_decide (b !! 13%nat = Some 45) &&
  bool_decide (b !! 18%nat = Some 45) && bool_decide (b !! 23%nat = Some 45) && uuid_chars 0 b.

Definition is_ipv6 (token : text) : bool :=
  let groups := split_on 58 token in
  (7 <=? len groups) && forallb (λ g, bool_decide (g = []) || ((len g <=? 4) && forallb is_ascii_hexdigit g)) groups.

Fixpoint mac_groups (groups : nat) (b : text) : bool :=
  match groups, b with
  | S O, [x; y] => is_ascii_hexdigit x && is_ascii_hexdigit y
  | S groups, x :: y :: c :: b => is_ascii_hexdigit x && is_ascii_hexdigit y && (c =? 58) && mac_groups groups b
  | _, _ => false
  end.
Definition is_mac (b : text) : bool := (len b =? 17) && mac_groups 6 b.

Definition is_ipv4 (token : text) : bool :=
  let groups := split_on 46 token in
  (len groups =? 4) &&
  forallb (λ g, negb (bool_decide (g = [])) && (len g <=? 3) && forallb is_ascii_digit g &&
                match parse_u64 g with Ok n => n <=? 255 | Err _ => false end) groups.

(** The position of the only dot, if everything else is a digit. *)
Fixpoint float_dot (i : nat) (dot_pos : option nat) (b : text) : option (option nat) :=
  match b with
  | [] => Some dot_pos
  | c :: b =>
      if c =? 46 then match dot_pos with Some _ => None | None => float_dot (S i) (Some i) b end else
      if is_ascii_digit c then float_dot (S i) dot_pos b else None
  end.
Definition is_float (b : text) : bool :=
  match float_dot 0 None b with
  | Some (Some p) => (0 <? p)%nat && (p <? length b - 1)%nat
  | _ => false
  end.

Definition is_quoted (b : text) : bool :=
  (2 <=? len b) &&
  ((bool_decide (list.head b = Some 34) && bool_decide (list.last b = Some 34)) ||
   (bool_decide (list.head b = Some 39) && bool_decide (list.last b = Some 39))).

Definition is_0x_hex (b : text) : bool :=
  match b with
  | 48 :: x :: rest => negb (bool_decide (rest = [])) && ((x =? 120) || (x =? 88)) && forallb is_ascii_hexdigit rest
  | _ => false
  end.

Definition is_frame_char (b : Z) : bool := bool_decide (b ∈ str "()[]{}#=-.,:/@_").

(** [out.push(b as char)]: the byte as a Latin-1 character. *)
Definition push_byte (b : Z) : text := if b <? 128 then [b] else [192 + b / 64; 128 + b mod 64].

Definition HEX : text := Eval vm_compute in str "_HEX_".
Definition NUM : text := Eval vm_compute in str "_N_".

(** A run of hex digits with both letters and digits, eight or longer. *)
Definition long_hex (run : text) : bool := existsb is_hex_alpha run && existsb is_ascii_digit run && (8 <=? len run).

(** The piece of output for the front of [s], and how many bytes it takes. *)
Definition lex_piece (b : Z) (s : text) : text * nat :=
  if is_frame_char b then ([b], 1%nat) else
  if is_ascii_hexdigit b then
    let run := take_while is_ascii_hexdigit s in
    if long_hex run then (HEX, length run) else
    if is_ascii_alphabetic b then let word := take_while is_ascii_alphabetic s in (word, length word) else
    if 3 <=? len run then (NUM, length run) else (run, length run)
  else if is_ascii_alphabetic b then let word := take_while is_ascii_alphabetic s in (word, length word)
  else (push_byte b, 1%nat).

Fixpoint lex_loop (fuel : nat) (s : text) : text :=
  match fuel, s with
  | S fuel, b :: _ => let '(piece, n) := lex_piece b s in piece ++ lex_loop fuel (drop n s)
  | _, _ => []
  end.
Definition compound_mini_lexer (token : text) : text := lex_loop (length token) token.

Section Tokens.
Context {RX : Regexes}.

Definition classify_token (token : text) : TokenClass :=
  if bool_decide (token = []) then Preserve else
  let has_alpha := existsb is_ascii_alphabetic token in
  let has_digit := existsb is_ascii_digit token in
  let has_colon := bool_decide (58 ∈ token) in
  let has_dot := bool_decide (46 ∈ token) in
  let has_dash := bool_decide (45 ∈ token) in
  if has_dash && (len token =? 36) && is_uuid token then Replace (str "_UUID_") else
  if has_colon && negb has_dot && is_ipv6 token then Replace (str "_IPV6_") else
  if has_colon && (len token =? 17) && is_mac token then Replace (str "_MAC_") else
  if has_dot && negb has_alpha && is_ipv4 token then Replace (str "_IPV4_") else
  if is_0x_hex token then Replace HEX else
  if has_digit && has_dash && (19 <=? len token) && re_iso8601 token then Replace (str "_TS_") else
  if bool_decide (list.head token = Some 47) && (2 <=? len (filter (eq 47) token)) then Replace (str "_PATH_") else
  if (8 <=? len token) && forallb is_ascii_hexdigit token && existsb is_hex_alpha token then Replace HEX else
  if is_quoted token
  then (if 16 <? saturating_sub (len token) 2 then Replace [34; 95; 34] else Preserve) else
  if negb has_digit && has_alpha && negb has_colon && negb has_dot then Preserve else
  if contains_text token (str "::") then Preserve else
  if has_alpha && has_digit then Compound (compound_mini_lexer token) else
  if forallb is_ascii_digit token then (if len token <=? 2 then Preserve else Replace NUM) else
  if has_dot && is_float token then Replace (str "_F_") else Preserve.

Definition is_trailing_punct (b : Z) : bool := bool_decide (b ∈ str ",;:)]}").

Definition split_trailing_punct (token : text) : text * text :=
  let end_ := length (trim_end_matches is_trailing_punct token) in (take end_ token, drop end_ token).

Definition classify_and_render (token : text) : text :=
  match classify_token token with Preserve => token | Replace r => r | Compound s => s end.

Definition render_token (token : text) : text :=
  let '(core, suffix) := split_trailing_punct token in classify_and_render core ++ suffix.

Definition canonicalise_freetext (body : text) : text := join [32] (render_token <$> split_whitespace body).

(** ** Key-value bodies *)

Definition normalise_key (key : text) : text := ascii_lower <$> filter (λ b, is_ascii_alphanumeric b = true) key.

Definition ALWAYS_NORMALISE_VALUE : list text :=
  Eval vm_compute in str <$> ["agentid"; "requestid"; "reqid"; "traceid"; "spanid"; "messageid"; "task"; "tasks"; "count";
    "total"; "num"; "size"; "queuesize"; "maxqueuesize"; "maxqueuesizeseen"].

Definition looks_numericish (token : text) : bool :=
  forallb is_ascii_digit token || forallb (λ b, is_ascii_digit b || (b =? 46) || (b =? 45)) token.

Definition canonicalise_value_for_key (key val : text) : text :=
  let '(core, suffix) := split_trailing_punct val in
  if bool_decide (core = []) then val else
  let rendered :=
    if bool_decide (normalise_key key ∈ ALWAYS_NORMALISE_VALUE) && looks_numericish core
    then (if bool_decide (46 ∈ core) then str "_F_" else NUM)
    else classify_and_render core in
  rendered ++ suffix.

Definition canonicalise_kv_token (token : text) : text :=
  match split_once 61 token with
  | Some (key, val) =>
      if bool_decide (key = []) then classify_and_render token else key ++ [61] ++ canonicalise_value_for_key key val
  | None => classify_and_render token
  end.

Definition canonicalise_kv (body : text) : text := join [32] (canonicalise_kv_token <$> split_whitespace body).
End Tokens.

(** ** Concrete patterns

    Enough of the patterns to run examples: the date, equal signs, and a bracket. *)
Definition sample_regexes : Regexes := {|
  re_iso8601 s := (4 <=? length (take_while is_ascii_digit s))%nat && bool_decide (s !! 4%nat = Some 45);
  re_key_value_count s := len (filter (λ b, b = 61) s);
  re_source_prefix s := if starts_with s (str "[1:2] a.c:3: ") then Some 13%nat else None;
|}.

Lemma sample_regex_laws : @RegexLaws sample_regexes.
Proof.
  split.
  - intros s [Hd _]%andb_true_iff _. by apply Nat.leb_le.
  - intros s n. cbn [re_source_prefix sample_regexes]. destruct (starts_with _ _) eqn:E; [|done]. intros [= <-].
    apply starts_with_true in E as [r ->]. rewrite length_app. change (length (str "[1:2] a.c:3: ")) with 13%nat. lia.
Qed.
