(* ===== verification/Canon.v ===== *)
(** * Canonical bodies

    [ljx/src/dedup/detect.rs], [canon_json.rs] and the body canonicaliser of
    [canon.rs]: the shape of a body is detected, and JSON bodies are reduced to their
    structure and written with sorted keys.  The [serde_json] crate is a parameter. *)

From stdpp Require Import sorting.
From S2P Require Import Prelude Text Tokens Drain.

(** ** JSON values *)

(** [serde_json::Number] and what is asked of it. *)
Class JsonNumbers : Type := {
  Number : Type;
  num_is_i64 : Number → bool;
  num_is_u64 : Number → bool;
  num_as_i64 : Number → option Z;
  num_as_u64 : Number → option Z;
  num_as_f64 : Number → option f64;
}.

Section Values.
Context {JN : JsonNumbers}.

#[local] Unset Elimination Schemes.
Inductive Value : Type :=
| Null
| Bool (b : bool)
| Num (n : Number)
| String (s : text)
| Array (arr : list Value)
| Object (map : list (text * Value)).
#[local] Set Elimination Schemes.

(** Induction with the hypothesis for every element and member. *)
Definition Value_ind (P : Value → Prop) (Hnull : P Null) (Hbool : ∀ b, P (Bool b)) (Hnum : ∀ n, P (Num n))
    (Hstr : ∀ s, P (String s)) (Harr : ∀ arr, Forall P arr → P (Array arr))
    (Hobj : ∀ map, Forall (λ kv, P kv.2) map → P (Object map)) : ∀ v, P v :=
  fix rec v := match v with
    | Null => Hnull
    | Bool b => Hbool b
    | Num n => Hnum n
    | String s => Hstr s
    | Array arr => Harr arr
        ((fix go l : Forall P l :=
            match l with [] => Forall_nil_2 _ | x :: l => Forall_cons_2 P x l (rec x) (go l) end) arr)
    | Object map => Hobj map
        ((fix go l : Forall (λ kv, P kv.2) l :=
            match l with
            | [] => Forall_nil_2 _
            | (k, x) :: l => Forall_cons_2 (λ kv, P kv.2) (k, x) l (rec x) (go l)
            end) map)
    end.

Definition is_object (v : Value) : bool := match v with Object _ => true | _ => false end.
Definition is_array (v : Value) : bool := match v with Array _ => true | _ => false end.
End Values.

(** [json!] of numbers, [serde_json::from_str] and [serde_json::to_string]. *)
Class Json `{JsonNumbers} : Type := {
  json_i64 : Z → Value;
  json_u64 : Z → Value;
  json_f64 : f64 → Value;
  from_str : text → option Value;
  to_string : Value → text;
}.

(** ** Sorting keys *)

(** The order of [String]: by bytes. *)
Fixpoint text_leb (a b : text) : bool :=
  match a, b with
  | [], _ => true
  | _ :: _, [] => false
  | x :: a, y :: b => (x <? y) || ((x =? y) && text_leb a b)
  end.
Definition text_le (a b : text) : Prop := text_leb a b = true.
#[export] Instance text_le_dec : RelDecision text_le.
Proof. intros a b. unfold text_le. apply _. Defined.

Definition sort_keys (keys : list text) : list text := merge_sort text_le keys.

Section Canon.
Context {RX : Regexes} {JN : JsonNumbers} {JS : Json}.

(** ** Canonical JSON *)

Definition ALWAYS_NORMALISE : list text :=
  Eval vm_compute in str <$> ["requestid"; "reqid"; "pathid"; "routeid"; "sessionid"; "correlationid"; "traceid"; "spanid";
    "messageid"; "offset"; "position"; "cursor"; "size"; "length"; "len"; "task"; "tasks"; "count"; "total"; "num";
    "timestamp"; "time"; "epoch"; "ts"; "duration"; "elapsed"; "latency"; "port"; "pid"; "tid"; "threadid"].

Definition canonicalise_string (s : text) : text :=
  if (len s =? 36) && is_uuid s then str "_UUID_" else
  if starts_with s [47] then str "_PATH_" else
  if (len s <=? 12) && forallb (λ b, is_ascii_alphabetic b || (b =? 95)) s then s else
  if (40 <? len s) || existsb is_ascii_digit s || bool_decide (46 ∈ s) || bool_decide (45 ∈ s) || bool_decide (47 ∈ s)
  then str "_" else s.

Definition canonicalise_number (key : text) (n : Number) : Value :=
  if bool_decide (normalise_key key ∈ ALWAYS_NORMALISE) then json_i64 0 else
  if negb (num_is_i64 n) && negb (num_is_u64 n) then
    match num_as_f64 n with
    | Some f => if SpecFloat.SFeqb f (f64_of_Z 0) || SpecFloat.SFeqb f (f64_of_Z 1) then json_f64 f else json_f64 (f64_of_Z 0)
    | None => json_f64 (f64_of_Z 0)
    end
  else
    match num_as_i64 n with
    | Some i => if Z.abs i <? 1000 then json_i64 i else json_i64 0
    | None =>
        match num_as_u64 n with
        | Some u => if u <? 1000 then json_u64 u else json_i64 0
        | None => json_i64 0
        end
    end.

Definition canonicalise_array (arr : list Value) : Value :=
  match arr with
  | [] => Array []
  | first :: _ =>
      if forallb (λ v, negb (is_object v) && negb (is_array v)) arr then Object [(str "__arr", String (str "scalar"))] else
      match first with
      | Object map => Object [(str "__arr", String (str "object")); (str "__shape", Array (String <$> sort_keys map.*1))]
      | _ => Object [(str "__arr", String (str "mixed"))]
      end
  end.

Fixpoint canonicalise_value (parent_key : text) (val : Value) : Value :=
  match val with
  | Object map =>
      Object ((fix go m := match m with [] => [] | (k, v) :: m => (k, canonicalise_value k v) :: go m end) map)
  | Array arr => canonicalise_array arr
  | String s => String (canonicalise_string s)
  | Num n => canonicalise_number parent_key n
  | _ => val
  end.

(** [map[k]] *)
Fixpoint member {A} (k : text) (map : list (text * A)) : option A :=
  match map with
  | [] => None
  | (k', v) :: map => if decide (k = k') then Some v else member k map
  end.

Fixpoint sorted_json_string (val : Value) : text :=
  match val with
  | Object map =>
      let rendered := (fix go m := match m with [] => [] | (k, v) :: m => (k, sorted_json_string v) :: go m end) map in
      let entries := (λ k, to_string (String k) ++ [58] ++ default [] (member k rendered)) <$> sort_keys map.*1 in
      [123] ++ join [44] entries ++ [125]
  | Array arr => [91] ++ join [44] (List.map sorted_json_string arr) ++ [93]
  | _ => to_string val
  end.

Definition canonicalise_json_to_string (body : text) : option text :=
  match from_str body with
  | None => None
  | Some val => Some (sorted_json_string (canonicalise_value [] val))
  end.

(** ** The shape of a body *)

Inductive BodyShape : Type := JsonBody | KeyValueBody | SourcePrefixed | FreeText.
Record Detected : Type := mkDetected { shape : BodyShape; json_value : option Value; stripped_suffix : option text }.

Definition opens (s : text) : bool := starts_with s [123] || starts_with s [91].

Definition is_key_value (body : text) : bool := 2 <=? re_key_value_count body.

Definition strip_source_prefix (body : text) : option text :=
  match re_source_prefix body with
  | None => None
  | Some end_ => let suffix := drop end_ body in if bool_decide (suffix = []) then None else Some suffix
  end.

Fixpoint strip_json_loop (trimmed_start idx : nat) (rest : text) : option text :=
  match rest with
  | [] => None
  | ch :: rest' =>
      let next := strip_json_loop trimmed_start (S idx) rest' in
      if negb ((ch =? 123) || (ch =? 91)) then next else
      let suffix := trim_start rest in
      if negb (opens suffix) then next else
      if Nat.eqb idx trimmed_start then next else
      match from_str suffix with Some _ => Some suffix | None => next end
  end.
Definition strip_json_prefix (body : text) : option text :=
  strip_json_loop (length body - length (trim_start body)) 0 body.

Definition detect_plain (body : text) : Detected :=
  match strip_json_prefix body with
  | Some suffix => mkDetected SourcePrefixed None (Some suffix)
  | None =>
      if is_key_value body then mkDetected KeyValueBody None None else
      match strip_source_prefix body with
      | Some suffix => mkDetected SourcePrefixed None (Some suffix)
      | None => mkDetected FreeText None None
      end
  end.

Definition detect (body : text) : Detected :=
  let trimmed := trim_start body in
  if opens trimmed then
    match from_str trimmed with
    | Some val => mkDetected JsonBody (Some val) None
    | None => detect_plain body
    end
  else detect_plain body.

(** The canonical form and the label of the shape; [None]: out of fuel. *)
Fixpoint canonicalise_body_fuel (fuel : nat) (body : text) : option (text * text) :=
  match fuel with
  | O => None
  | S fuel =>
      let detected := detect body in
      match shape detected with
      | JsonBody =>
          match canonicalise_json_to_string (trim_start body) with
          | Some canon => Some (canon, str "json")
          | None => Some (canonicalise_freetext body, str "freetext")
          end
      | KeyValueBody => Some (canonicalise_kv body, str "kv")
      | SourcePrefixed =>
          match canonicalise_body_fuel fuel (default body (stripped_suffix detected)) with
          | Some (canon, inner_shape) => Some (canon, str "prefixed/" ++ inner_shape)
          | None => None
          end
      | FreeText => Some (canonicalise_freetext body, str "freetext")
      end
  end.
Definition canonicalise_body (body : text) : option (text * text) := canonicalise_body_fuel (S (length body)) body.
End Canon.

(** ** Termination *)

Section Termination.
Context {RX : Regexes} {RL : RegexLaws} {JN : JsonNumbers} {JS : Json}.

Lemma trim_start_length s : (length (trim_start s) ≤ length s)%nat.
Proof. destruct (trim_front_drop (length s) whitespace s) as [k E]. unfold trim_start. rewrite E, length_drop. lia. Qed.

Lemma strip_json_loop_length ts idx rest suffix :
  strip_json_loop ts idx rest = Some suffix → (length suffix ≤ length rest)%nat.
Proof.
  revert idx. induction rest as [|ch rest IH]; intros idx; [done|]. cbn [strip_json_loop].
  assert (strip_json_loop ts (S idx) rest = Some suffix → (length suffix ≤ length (ch :: rest))%nat) as Hn
    by (intros H%IH; simpl; lia).
  destruct (negb _); [done|]. destruct (negb (opens _)); [done|]. destruct (Nat.eqb _ _); [done|].
  destruct (from_str _); [|done]. intros [= <-]. apply trim_start_length.
Qed.

(** A JSON suffix starts after the front of the body. *)
Lemma strip_json_prefix_shorter body suffix :
  strip_json_prefix body = Some suffix → (length suffix < length body)%nat.
Proof.
  unfold strip_json_prefix. destruct body as [|ch rest]; [done|]. cbn [strip_json_loop].
  assert (∀ ts, strip_json_loop ts 1 rest = Some suffix → (length suffix < length (ch :: rest))%nat) as Hn
    by (intros ts H%strip_json_loop_length; simpl; lia).
  destruct ((ch =? 123) || (ch =? 91)) eqn:Ec; cbn [negb]; [|apply Hn].
  rewrite trim_start_solid by (unfold solid; lia). rewrite Nat.sub_diag. destruct (negb (opens _)); [apply Hn|].
  apply Hn.
Qed.

Lemma detect_shorter body suffix :
  stripped_suffix (detect body) = Some suffix → (length suffix < length body)%nat.
Proof.
  assert (stripped_suffix (detect_plain body) = Some suffix → (length suffix < length body)%nat) as Hp.
  { unfold detect_plain. destruct (strip_json_prefix body) as [s|] eqn:Ej.
    { intros [= <-]. by apply strip_json_prefix_shorter. }
    destruct (is_key_value body); [done|]. unfold strip_source_prefix.
    destruct (re_source_prefix body) as [n|] eqn:Er; [|done]. apply source_prefix_end in Er.
    case_bool_decide; [done|]. intros [= <-]. rewrite length_drop. lia. }
  unfold detect. destruct (opens _); [|done]. by destruct (from_str _).
Qed.

Lemma detect_prefixed body : shape (detect body) = SourcePrefixed → is_Some (stripped_suffix (detect body)).
Proof.
  assert (shape (detect_plain body) = SourcePrefixed → is_Some (stripped_suffix (detect_plain body))) as Hp.
  { unfold detect_plain. destruct (strip_json_prefix body); [done|]. destruct (is_key_value body); [done|].
    by destruct (strip_source_prefix body). }
  unfold detect. destruct (opens _); [|done]. by destruct (from_str _).
Qed.

Lemma canonicalise_body_fuel_enough fuel body :
  (length body < fuel)%nat → canonicalise_body_fuel fuel body = canonicalise_body body ∧
    is_Some (canonicalise_body_fuel fuel body).
Proof.
  revert body. assert (∀ n body, length body = n → ∀ f1 f2, (n < f1)%nat → (n < f2)%nat →
    canonicalise_body_fuel f1 body = canonicalise_body_fuel f2 body ∧ is_Some (canonicalise_body_fuel f1 body)) as H.
  { induction n as [n IH] using lt_wf_ind. intros body En [|f1] [|f2] H1 H2; try lia. cbn [canonicalise_body_fuel].
    destruct (shape (detect body)) eqn:Es; [by destruct (canonicalise_json_to_string _)|done| |done].
    destruct (detect_prefixed _ Es) as [suffix Esuf]. pose proof (detect_shorter _ _ Esuf) as Hlt. rewrite Esuf. simpl.
    destruct (IH (length suffix) ltac:(lia) suffix eq_refl f1 f2 ltac:(lia) ltac:(lia)) as [-> [[c s] Hc]].
    rewrite Hc. by split. }
  intros body Hf. apply (H (length body)); [done|lia|lia].
Qed.

Lemma canonicalise_body_total body : is_Some (canonicalise_body body).
Proof. apply canonicalise_body_fuel_enough. lia. Qed.

(** The recursion of [canonicalise_body], without the fuel. *)
Lemma canonicalise_body_eq body :
  canonicalise_body body =
    match shape (detect body) with
    | JsonBody =>
        match canonicalise_json_to_string (trim_start body) with
        | Some canon => Some (canon, str "json")
        | None => Some (canonicalise_freetext body, str "freetext")
        end
    | KeyValueBody => Some (canonicalise_kv body, str "kv")
    | SourcePrefixed =>
        match canonicalise_body (default body (stripped_suffix (detect body))) with
        | Some (canon, inner_shape) => Some (canon, str "prefixed/" ++ inner_shape)
        | None => None
        end
    | FreeText => Some (canonicalise_freetext body, str "freetext")
    end.
Proof.
  unfold canonicalise_body at 1. cbn [canonicalise_body_fuel].
  destruct (shape (detect body)) eqn:Es; try done. destruct (detect_prefixed _ Es) as [suffix Esuf]. rewrite Esuf. simpl.
  by rewrite (proj1 (canonicalise_body_fuel_enough (length body) suffix (detect_shorter _ _ Esuf))).
Qed.
End Termination.

(** ** Bodies that differ in what varies *)

#[export] Instance text_le_total : Total text_le.
Proof.
  intros a. unfold text_le. induction a as [|x a IH]; intros [|y b]; simpl; auto.
  destruct (Z.lt_trichotomy x y) as [?|[->|?]].
  - left. rewrite (proj2 (Z.ltb_lt x y)) by lia. done.
  - rewrite Z.ltb_irrefl, Z.eqb_refl. simpl. apply IH.
  - right. rewrite (proj2 (Z.ltb_lt y x)) by lia. done.
Qed.

Lemma text_leb_cons x a y b : text_le (x :: a) (y :: b) ↔ x < y ∨ x = y ∧ text_le a b.
Proof. unfold text_le. simpl. rewrite orb_true_iff, andb_true_iff, Z.ltb_lt, Z.eqb_eq. tauto. Qed.

#[export] Instance text_le_trans : Transitive text_le.
Proof.
  intros a. induction a as [|x a IH]; intros [|y b] [|z c]; try done.
  rewrite !text_leb_cons. intros [?|[-> H1]] [?|[-> H2]]; try (left; lia). right. split; [done|]. by eapply IH.
Qed.

#[export] Instance text_le_antisymm : AntiSymm (=) text_le.
Proof.
  intros a. induction a as [|x a IH]; intros [|y b]; try done.
  rewrite !text_leb_cons. intros [?|[-> H1]] [?|[E H2]]; try lia. f_equal. by apply IH.
Qed.

Lemma sort_keys_permutation ks ks' : ks ≡ₚ ks' → sort_keys ks = sort_keys ks'.
Proof.
  intros Hp. unfold sort_keys. apply (Sorted_unique text_le); try apply Sorted_merge_sort; try apply _.
  by rewrite !merge_sort_Permutation.
Qed.

Section Alike.
Context {RX : Regexes} {JN : JsonNumbers} {JS : Json}.

(** An integer of a thousand or more in size. *)
Definition large_number (n : Number) : Prop := num_is_i64 n = true ∧ ∃ i, num_as_i64 n = Some i ∧ 1000 ≤ Z.abs i.

(** The value of member [k] differs in the order of object keys, in counters, in large
    numbers, in identifiers, in paths and in long strings only. *)
#[local] Unset Elimination Schemes.
Inductive alike : text → Value → Value → Prop :=
| alike_same k v : is_object v = false → is_array v = false → alike k v v
| alike_counter k n n' : normalise_key k ∈ ALWAYS_NORMALISE → alike k (Num n) (Num n')
| alike_large k n n' : large_number n → large_number n' → alike k (Num n) (Num n')
| alike_uuid k s s' : is_uuid s = true → is_uuid s' = true → alike k (String s) (String s')
| alike_path k s s' : list.head s = Some 47 → list.head s' = Some 47 → alike k (String s) (String s')
| alike_long k s s' : 40 < len s → 40 < len s' → list.head s ≠ Some 47 → list.head s' ≠ Some 47 →
    alike k (String s) (String s')
| alike_array k arr arr' : Forall2 (alike k) arr arr' → alike k (Array arr) (Array arr')
| alike_object k map map' mid : NoDup map.*1 →
    Forall2 (λ e e', e.1 = e'.1 ∧ alike e.1 e.2 e'.2) map mid → mid ≡ₚ map' → alike k (Object map) (Object map').
#[local] Set Elimination Schemes.

Lemma starts_with_slash s : starts_with s [47] = true ↔ list.head s = Some 47.
Proof.
  unfold starts_with. rewrite bool_decide_eq_true. destruct s as [|x s]; simpl; [done|].
  rewrite firstn_O. split; congruence.
Qed.

Lemma uuid_len s : is_uuid s = true → len s = 36.
Proof. unfold is_uuid. rewrite !andb_true_iff, Z.eqb_eq. tauto. Qed.

Lemma uuid_no_slash s : is_uuid s = true → list.head s ≠ Some 47.
Proof.
  unfold is_uuid. rewrite !andb_true_iff. intros [_ Hc] Hh. destruct s as [|x s]; [done|].
  injection Hh as ->. simpl in Hc. done.
Qed.

Lemma canonicalise_string_path s : list.head s = Some 47 → canonicalise_string s = str "_PATH_".
Proof.
  intros Hs. unfold canonicalise_string. destruct (is_uuid s) eqn:Eu; [by apply uuid_no_slash in Eu|].
  rewrite andb_false_r. by rewrite (proj2 (starts_with_slash s)).
Qed.

Lemma canonicalise_string_uuid s : is_uuid s = true → canonicalise_string s = str "_UUID_".
Proof. intros Hs. unfold canonicalise_string. by rewrite (uuid_len _ Hs), Hs. Qed.

Lemma canonicalise_string_long s : 40 < len s → list.head s ≠ Some 47 → canonicalise_string s = str "_".
Proof.
  intros Hl Hh. unfold canonicalise_string. rewrite (proj2 (Z.eqb_neq _ _)) by lia. cbn [andb].
  destruct (starts_with s [47]) eqn:Es; [by apply starts_with_slash in Es|].
  rewrite (proj2 (Z.leb_gt _ _)) by lia. cbn [andb]. by rewrite (proj2 (Z.ltb_lt 40 (len s))).
Qed.

Lemma canonicalise_number_large k n n' :
  large_number n → large_number n' → canonicalise_number k n = canonicalise_number k n'.
Proof.
  intros (H1 & i & Hi & Ha) (H2 & j & Hj & Hb). unfold canonicalise_number. rewrite H1, H2, Hi, Hj. simpl.
  by rewrite !(proj2 (Z.ltb_ge _ _)) by lia.
Qed.

Definition canonical_members (map : list (text * Value)) : list (text * Value) :=
  (λ e, (e.1, canonicalise_value e.1 e.2)) <$> map.

Lemma canonicalise_object k map : canonicalise_value k (Object map) = Object (canonical_members map).
Proof. cbn [canonicalise_value]. f_equal. induction map as [|[k' v] map IH]; [done|]. simpl. by f_equal. Qed.

Definition rendered_members (map : list (text * Value)) : list (text * text) :=
  (λ e, (e.1, sorted_json_string e.2)) <$> map.

Lemma sorted_json_object map :
  sorted_json_string (Object map) =
    [123] ++ join [44] ((λ k, to_string (String k) ++ [58] ++ default [] (member k (rendered_members map))) <$> sort_keys map.*1)
      ++ [125].
Proof.
  cbn [sorted_json_string]. do 3 f_equal. set (go := fix go m := match m with [] => [] | _ => _ end).
  assert (go map = rendered_members map) as ->; [|done].
  induction map as [|[k' v] map IH]; [done|]. simpl. by rewrite IH.
Qed.

Lemma member_elem {A} k (map : list (text * A)) x : NoDup map.*1 → member k map = Some x ↔ (k, x) ∈ map.
Proof.
  induction map as [|[k' y] map IH]; simpl; [intros _; rewrite elem_of_nil; done|].
  intros [Hnot Hnd]%list.NoDup_cons. rewrite elem_of_cons. case_decide as Ek.
  - subst k'. split; [intros [= ->]; by left|]. intros [[= ->]|Hin]; [done|]. exfalso. apply Hnot.
    apply list_elem_of_fmap. by exists (k, x).
  - rewrite (IH Hnd). split; [by right|]. intros [[= -> ->]|?]; done.
Qed.

Lemma member_permutation {A} k (map map' : list (text * A)) :
  NoDup map.*1 → map ≡ₚ map' → member k map = member k map'.
Proof.
  intros Hnd Hp. apply option_eq. intros x. rewrite !member_elem; [by rewrite Hp|by rewrite <- Hp|done].
Qed.

Lemma sorted_json_permutation map map' :
  NoDup map.*1 → map ≡ₚ map' → sorted_json_string (Object map) = sorted_json_string (Object map').
Proof.
  intros Hnd Hp. rewrite !sorted_json_object. do 3 f_equal.
  rewrite (sort_keys_permutation map.*1 map'.*1) by (by rewrite Hp).
  apply list_fmap_ext. intros i k _. do 3 f_equal. apply member_permutation.
  - unfold rendered_members. by rewrite <- list_fmap_compose.
  - unfold rendered_members. by rewrite Hp.
Qed.

Lemma alike_kind k v v' : alike k v v' → is_object v = is_object v' ∧ is_array v = is_array v'.
Proof. by intros []. Qed.

Lemma alike_keys map mid : Forall2 (λ e e', e.1 = e'.1 ∧ alike e.1 e.2 e'.2) map mid → map.*1 = mid.*1.
Proof. induction 1 as [|e e' map mid [E _] _ IH]; [done|]. rewrite !fmap_cons. by rewrite E, IH. Qed.

Lemma alike_arrays k arr arr' : Forall2 (alike k) arr arr' → canonicalise_array arr = canonicalise_array arr'.
Proof.
  intros Hf. assert (forallb (λ v, negb (is_object v) && negb (is_array v)) arr =
    forallb (λ v, negb (is_object v) && negb (is_array v)) arr') as Ha.
  { induction Hf as [|v v' arr arr' [E1 E2]%alike_kind _ IH]; [done|]. simpl. by rewrite E1, E2, IH. }
  destruct Hf as [|v v' arr arr' Hv _]; [done|]. unfold canonicalise_array. rewrite Ha. destruct (forallb _ (v' :: arr')); [reflexivity|].
  pose proof (alike_kind _ _ _ Hv) as [Ho _]. destruct Hv as [? v| | | | | | |? m m' mid _ Hm Hp]; try done.
  by rewrite (sort_keys_permutation m.*1 m'.*1) by (by rewrite (alike_keys _ _ Hm), Hp).
Qed.

Lemma rendered_alike map mid :
  Forall (λ e, ∀ k v', alike k e.2 v' →
    sorted_json_string (canonicalise_value k e.2) = sorted_json_string (canonicalise_value k v')) map →
  Forall2 (λ e e', e.1 = e'.1 ∧ alike e.1 e.2 e'.2) map mid →
  rendered_members (canonical_members map) = rendered_members (canonical_members mid).
Proof.
  intros Hall Hf. induction Hf as [|[k v] [k' v'] map mid [Ek Ha] _ IH]; [done|].
  apply Forall_cons_iff in Hall as [Hv Hall]. simpl in *. subst k'. specialize (IH Hall).
  unfold rendered_members, canonical_members in *. cbn [fmap list_fmap fst snd]. f_equal; [|exact IH]. by rewrite (Hv _ _ Ha).
Qed.

Lemma alike_canonical v k v' :
  alike k v v' → sorted_json_string (canonicalise_value k v) = sorted_json_string (canonicalise_value k v').
Proof.
  revert k v'. induction v as [| | | |arr _|map IH] using Value_ind; intros k v' Ha; inversion Ha; subst; try done.
  - cbn [canonicalise_value]. unfold canonicalise_number. by rewrite bool_decide_eq_true_2.
  - cbn [canonicalise_value]. by erewrite canonicalise_number_large.
  - cbn [canonicalise_value]. by rewrite !canonicalise_string_uuid.
  - cbn [canonicalise_value]. by rewrite !canonicalise_string_path.
  - cbn [canonicalise_value]. by rewrite !canonicalise_string_long.
  - cbn [canonicalise_value]. by erewrite alike_arrays.
  - match goal with H : Forall2 _ map ?m, Hp : ?m ≡ₚ _ |- _ => rename m into mid, H into Hf end.
    rewrite !canonicalise_object.
    trans (sorted_json_string (Object (canonical_members mid))).
    + rewrite !sorted_json_object, (rendered_alike _ _ IH Hf). do 4 f_equal. unfold canonical_members.
      rewrite <- !list_fmap_compose. f_equal. exact (alike_keys _ _ Hf).
    + apply sorted_json_permutation; unfold canonical_members.
      * rewrite <- list_fmap_compose. change (NoDup mid.*1). by rewrite <- (alike_keys _ _ Hf).
      * by match goal with Hp : mid ≡ₚ _ |- _ => rewrite Hp end.
Qed.

End Alike.

(** ** It applies *)

(** Two fixed documents and a printer that shows strings and small numbers. *)
Definition sample_numbers : JsonNumbers := {|
  Number := Z;
  num_is_i64 _ := true;
  num_is_u64 n := 0 <=? n;
  num_as_i64 n := Some n;
  num_as_u64 n := if 0 <=? n then Some n else None;
  num_as_f64 n := Some (f64_of_Z n);
|}.

Section Witness.
#[local] Existing Instance sample_numbers.

Definition doc1 : Value :=
  Object [(str "pid", Num 7); (str "took", Num 1234); (str "path", String (str "/var/log")); (str "ok", Bool true)].
Definition doc2 : Value :=
  Object [(str "took", Num 98765); (str "path", String (str "/etc")); (str "ok", Bool true); (str "pid", Num 12)].

Definition sample_json : Json := {|
  json_i64 := @Num sample_numbers;
  json_u64 := @Num sample_numbers;
  json_f64 _ := @Num sample_numbers 0;
  from_str s := if decide (s = str "{1}") then Some doc1 else if decide (s = str "{2}") then Some doc2 else None;
  to_string v := match v with
                 | Num n => u64_to_string n
                 | String s => [34] ++ s ++ [34]
                 | Bool true => str "true"
                 | _ => str "null"
                 end;
|}.
#[local] Existing Instance sample_json.

Lemma docs_alike : alike [] doc1 doc2.
Proof.
  apply (alike_object _ _ _ ([(str "pid", Num (JN := sample_numbers) 12)] ++
    [(str "took", Num (JN := sample_numbers) 98765); (str "path", String (str "/etc")); (str "ok", Bool true)])).
  - by apply (bool_decide_unpack _).
  - constructor; [split; [done|]; apply alike_counter; by apply (bool_decide_unpack _)|].
    constructor; [split; [done|]; apply alike_large; (split; [done|]); eexists; (split; [done|]); simpl; lia|].
    constructor; [split; [done|]; by apply alike_path|].
    constructor; [split; [done|]; by apply alike_same|]. constructor.
  - apply Permutation_app_comm.
Qed.


(** Without the quotes. *)
Example sample_canonical :
  filter (λ b, b ≠ 34) <$> canonicalise_json_to_string (str "{2}") = Some (str "{ok:true,path:_PATH_,pid:0,took:0}").
Proof. vm_compute. reflexivity. Qed.
End Witness.
