(* ===== verification/FlatRecord.v ===== *)
(** * Flat records

    The log messages of [opentelemetry_proto] that the deduplication looks into, and
    [ljx/src/dedup/flat_record.rs], [unpack.rs] and [bucket.rs]: requests are
    flattened into one record per log entry, and records are grouped by their bucket
    key.  What is only copied inside the messages is a parameter. *)

From S2P Require Import Prelude Text Tokens Format Reader RecordLoop Otlp Drain.

(** ** Messages *)

Class OtlpParts : Type := {
  OtherValue : Type;
  EntityRef : Type;
  KeyValueRest : Type;
  key_value_rest_default : KeyValueRest;
  SpanMessage : Type;
  span_start : SpanMessage → Z;
  #[global] OtherValue_eq_dec :: EqDecision OtherValue;
  #[global] EntityRef_eq_dec :: EqDecision EntityRef;
  #[global] KeyValueRest_eq_dec :: EqDecision KeyValueRest;
}.

Section Messages.
Context {OP : OtlpParts}.

Inductive AnyValueValue : Type :=
| StringValue (s : text)
| IntValue (n : Z)
| OtherVariant (v : OtherValue).
Record AnyValue : Type := mkAnyValue { any_value : option AnyValueValue }.
Record KeyValue : Type := mkKeyValue { kv_key : text; kv_value : option AnyValue; kv_rest : KeyValueRest }.

Record ResourceMessage : Type := mkResource {
  resource_attributes : list KeyValue;
  resource_dropped_attributes_count : Z;
  entity_refs : list EntityRef;
}.
Record InstrumentationScope : Type := mkInstrumentationScope {
  is_name : text;
  is_version : text;
  is_attributes : list KeyValue;
  is_dropped_attributes_count : Z;
}.
Record LogRecordMessage : Type := mkLogRecord {
  lr_time_unix_nano : Z;
  lr_observed_time_unix_nano : Z;
  lr_severity_number : Z;
  lr_severity_text : text;
  lr_body : option AnyValue;
  lr_attributes : list KeyValue;
  lr_dropped_attributes_count : Z;
  lr_flags : Z;
  lr_trace_id : list Z;
  lr_span_id : list Z;
  lr_event_name : text;
}.

#[export] Instance AnyValueValue_eq_dec : EqDecision AnyValueValue.
Proof. solve_decision. Defined.
#[export] Instance AnyValue_eq_dec : EqDecision AnyValue.
Proof. solve_decision. Defined.
#[export] Instance KeyValue_eq_dec : EqDecision KeyValue.
Proof. solve_decision. Defined.
#[export] Instance ResourceMessage_eq_dec : EqDecision ResourceMessage.
Proof. solve_decision. Defined.
#[export] Instance InstrumentationScope_eq_dec : EqDecision InstrumentationScope.
Proof. solve_decision. Defined.

(** These are the messages of the requests. *)
#[export] Instance otlp_messages : Otlp := {|
  Resource := ResourceMessage;
  Scope := InstrumentationScope;
  LogRecord := LogRecordMessage;
  Span := SpanMessage;
  log_time_unix_nano := lr_time_unix_nano;
  log_observed_time_unix_nano := lr_observed_time_unix_nano;
  log_severity_number := lr_severity_number;
  span_start_time_unix_nano := span_start;
|}.
End Messages.

(** ** Records and bucket keys *)

Section FlatRecord.
Context {OP : OtlpParts}.

Inductive BucketKeyKind : Type := GlobalKey | DefaultKey | ScopeKey | SourceLine | ScopeAndSourceLine.
#[export] Instance BucketKeyKind_eq_dec : EqDecision BucketKeyKind.
Proof. solve_decision. Defined.

Record BucketKey : Type := mkBucketKey {
  bk_service_name : text;
  bk_severity_number : Z;
  bk_scope_name : option text;
  bk_code_filepath : option text;
  bk_code_lineno : option Z;
}.
#[export] Instance BucketKey_eq_dec : EqDecision BucketKey.
Proof. solve_decision. Defined.

Record FlatRecord : Type := mkFlatRecord {
  service_name : text;
  severity_number : Z;
  severity_text : text;
  scope_name : text;
  event_name : text;
  code_filepath : option text;
  code_lineno : option Z;
  trace_id : list Z;
  span_id : list Z;
  time_unix_nano : Z;
  observed_time_unix_nano : Z;
  body : text;
  resource_attrs : list KeyValue;
  scope_attrs : list KeyValue;
  record_attrs : list KeyValue;
}.

Definition BucketKey_from_record (rec : FlatRecord) (kind : BucketKeyKind) : BucketKey :=
  let scope_name := match kind with
    | ScopeKey | ScopeAndSourceLine => Some (scope_name rec)
    | _ => None
    end in
  let '(code_filepath, code_lineno) := match kind with
    | SourceLine | ScopeAndSourceLine => (code_filepath rec, code_lineno rec)
    | _ => (None, None)
    end in
  match kind with
  | GlobalKey => mkBucketKey [] 0 None None None
  | _ => mkBucketKey (service_name rec) (severity_number rec) scope_name code_filepath code_lineno
  end.

(** ** Unpacking *)

Definition string_of (v : option AnyValue) : option text :=
  match v with Some (mkAnyValue (Some (StringValue s))) => Some s | _ => None end.
Definition int_of (v : option AnyValue) : option Z :=
  match v with Some (mkAnyValue (Some (IntValue n))) => Some n | _ => None end.

Definition extract_source_location (attrs : list KeyValue) : option text * option Z :=
  foldl (λ '(filepath, lineno) attr,
           if decide (kv_key attr = str "code.filepath")
           then (match string_of (kv_value attr) with Some s => Some s | None => filepath end, lineno) else
           if decide (kv_key attr = str "code.lineno")
           then (filepath, match int_of (kv_value attr) with Some n => Some n | None => lineno end)
           else (filepath, lineno))
    (None, None) attrs.

Definition service_name_of (r : option ResourceMessage) : text :=
  default [] (r ← r; a ← list.head (filter (λ a, kv_key a = str "service.name") (resource_attributes r));
              string_of (kv_value a)).

Definition flat_record (service_name : text) (resource_attrs : list KeyValue) (scope : option InstrumentationScope)
    (lr : LogRecordMessage) : FlatRecord :=
  let '(code_filepath, code_lineno) := extract_source_location (lr_attributes lr) in
  {| service_name := service_name;
     severity_number := lr_severity_number lr;
     severity_text := lr_severity_text lr;
     scope_name := default [] (is_name <$> scope);
     event_name := lr_event_name lr;
     code_filepath := code_filepath;
     code_lineno := code_lineno;
     trace_id := lr_trace_id lr;
     span_id := lr_span_id lr;
     time_unix_nano := lr_time_unix_nano lr;
     observed_time_unix_nano := lr_observed_time_unix_nano lr;
     body := default [] (string_of (lr_body lr));
     resource_attrs := resource_attrs;
     scope_attrs := default [] (is_attributes <$> scope);
     record_attrs := lr_attributes lr |}.

Definition flatten_batch (batch : ExportLogsServiceRequest) (out : list FlatRecord) : list FlatRecord :=
  foldl (λ out (rl : ResourceLogs),
      let service_name := service_name_of (rl_resource rl) in
      let resource_attrs := default [] (resource_attributes <$> rl_resource rl) in
      foldl (λ out (sl : ScopeLogs),
          foldl (λ out lr, out ++ [flat_record service_name resource_attrs (sl_scope sl) lr]) out (log_records sl))
        out (scope_logs rl))
    out (resource_logs batch).

Record UnpackResult : Type := mkUnpackResult { records : list FlatRecord; passthrough : list OwnedRecord }.

Context {LC : LogsCodec}.

(** The body of the loop over the reader; it never breaks. *)
Definition unpack_body : loop_body UnpackResult := λ acc rec,
  if negb (bool_decide (record_type rec = Logs))
  then (mkUnpackResult (records acc) (passthrough acc ++ [rec]), true)
  else match decode_logs (payload rec) with
       | Err _ => (mkUnpackResult (records acc) (passthrough acc ++ [rec]), true)
       | Ok batch => (mkUnpackResult (flatten_batch batch (records acc)) (passthrough acc), true)
       end.

Context {EX : Externals}.

Definition unpack (reader : LogjetReader) : option (result Error UnpackResult * LogjetReader) :=
  while_records unpack_body (mkUnpackResult [] []) reader.

(** ** Maps of vectors *)

(** [entry(k).or_default().push(v)] on a map kept in the order of first insertion. *)
Fixpoint entry_push {K A} `{EqDecision K} (k : K) (v : A) (m : list (K * list A)) : list (K * list A) :=
  match m with
  | [] => [(k, [v])]
  | (k', vs) :: m => if decide (k = k') then (k', vs ++ [v]) :: m else (k', vs) :: entry_push k v m
  end.

(** The entries after pushing all of [l], each under its key. *)
Definition group_entries {K A} `{EqDecision K} (f : A → K) (l : list A) : list (K * list A) :=
  foldl (λ m a, entry_push (f a) a m) [] l.

Definition bucket_group (records : list FlatRecord) (kind : BucketKeyKind) : list (BucketKey * list FlatRecord) :=
  group_entries (λ rec, BucketKey_from_record rec kind) records.
End FlatRecord.
