(* ===== verification/SampleCodec.v ===== *)
(** * A concrete codec

    A prefix code for the log requests, written by combinators: an instance of the
    parameters of the deduplication on which its theorems can be run. *)

From S2P Require Import Prelude Text Tokens Otlp FlatRecord.

(** A code whose words are recognised at the front of any bytes. *)
Class Coded (A : Type) : Type := {
  put : A → list Z;
  get : list Z → option (A * list Z);
  get_put : ∀ a rest, get (put a ++ rest) = Some (a, rest);
  put_bytes : ∀ a, bytes (put a);
}.

(** ** Numbers: the sign, how many bytes, and the bytes *)

Fixpoint get_count (s : list Z) : option (nat * list Z) :=
  match s with
  | 0 :: s => Some (O, s)
  | 1 :: s => '(n, s) ← get_count s; Some (S n, s)
  | _ => None
  end.
Definition put_count (n : nat) : list Z := replicate n 1 ++ [0].

Lemma get_put_count n rest : get_count (put_count n ++ rest) = Some (n, rest).
Proof. unfold put_count. induction n as [|n IH]; [done|]. cbn [replicate app get_count]. by rewrite IH. Qed.

Lemma put_count_bytes n : bytes (put_count n).
Proof.
  apply bytes_app. split; [|by repeat constructor]. induction n as [|n IH]; [constructor|]. by constructor.
Qed.

Definition byte_count (z : Z) : nat := Z.to_nat (Z.log2 (z + 1) / 8 + 1).

Lemma from_le_byte_count z : 0 ≤ z → from_le (to_le (byte_count z) z) = z.
Proof.
  intros Hz. apply from_le_to_le. split; [lia|]. unfold byte_count.
  pose proof (Z.log2_spec (z + 1) ltac:(lia)) as [_ Hlt]. pose proof (Z.log2_nonneg (z + 1)).
  apply (Z.lt_le_trans _ (2 ^ Z.succ (Z.log2 (z + 1)))); [lia|]. change 256 with (2 ^ 8). rewrite <- Z.pow_mul_r by lia.
  apply Z.pow_le_mono_r; [lia|]. rewrite Z2Nat.id by (pose proof (Z.div_pos (Z.log2 (z + 1)) 8); lia).
  pose proof (Z.mul_succ_div_gt (Z.log2 (z + 1)) 8). lia.
Qed.

#[export] Instance coded_Z : Coded Z.
Proof.
  unshelve refine {|
  put z := let n := byte_count (Z.abs z) in put_count n ++ (if z <? 0 then 1 else 0) :: to_le n (Z.abs z);
  get s := '(n, s) ← get_count s;
           match s with
           | [] => None
           | sign :: s => let z := from_le (take n s) in Some (if sign =? 1 then - z else z, drop n s)
           end;
|}.
  - intros z rest. cbv zeta. rewrite <- app_assoc, get_put_count. cbn [mbind option_bind app].
  rewrite take_app_length', drop_app_length' by (by rewrite length_to_le).
  rewrite from_le_byte_count by lia. do 2 f_equal. destruct (Z.ltb_spec z 0); simpl; lia.
  - intros z. cbv zeta. apply bytes_app. split; [apply put_count_bytes|]. apply bytes_cons. split; [|apply bytes_to_le].
  destruct (z <? 0); int_solve.
Defined.

(** ** Pairs, options, lists, and types in bijection with them *)

#[export] Instance coded_prod {A B} `{Coded A, Coded B} : Coded (A * B).
Proof.
  unshelve refine {|
  put p := put p.1 ++ put p.2;
  get s := '(a, s) ← get s; '(b, s) ← get s; Some (a, b, s);
|}.
  - intros [a b] rest. cbn [fst snd]. rewrite <- app_assoc, get_put. simpl. by rewrite get_put.
  - intros [a b]. apply bytes_app. split; apply put_bytes.
Defined.

#[export] Instance coded_option {A} `{Coded A} : Coded (option A).
Proof.
  unshelve refine {|
  put o := match o with None => [0] | Some a => 1 :: put a end;
  get s := match s with
           | 0 :: s => Some (None, s)
           | 1 :: s => '(a, s) ← get s; Some (Some a, s)
           | _ => None
           end;
|}.
  - intros [a|] rest; simpl; [by rewrite get_put|done].
  - intros [a|]; [|by repeat constructor]. constructor; [int_solve|apply put_bytes].
Defined.

Fixpoint get_many {A} `{Coded A} (n : nat) (s : list Z) : option (list A * list Z) :=
  match n with
  | O => Some ([], s)
  | S n => '(a, s) ← get s; '(l, s) ← get_many n s; Some (a :: l, s)
  end.

#[export] Instance coded_list {A} `{Coded A} : Coded (list A).
Proof.
  unshelve refine {|
  put l := put_count (length l) ++ concat (put <$> l);
  get s := '(n, s) ← get_count s; get_many n s;
|}.
  - intros l rest. rewrite <- app_assoc, get_put_count. cbn [mbind option_bind].
  induction l as [|a l IH]; [done|]. rewrite fmap_cons. cbn [length get_many concat]. rewrite <- app_assoc, get_put.
    cbn [mbind option_bind]. by rewrite IH.
  - intros l. apply bytes_app. split; [apply put_count_bytes|]. apply Forall_concat, Forall_fmap.
  induction l; constructor; [apply put_bytes|done].
Defined.

Section Bijection.
Context {A B : Type} `{Coded B} (f : A → B) (g : B → A) (Hgf : ∀ a, g (f a) = a).
Definition coded_via : Coded A.
Proof.
  unshelve refine {|
  put a := put (f a);
  get s := '(b, s) ← get s; Some (g b, s);
|}.
  - intros a rest. rewrite get_put. simpl. by rewrite Hgf.
  - intros a. apply put_bytes.
Defined.
End Bijection.

(** ** The messages *)

Definition sample_parts : OtlpParts := {|
  OtherValue := unit; EntityRef := unit; KeyValueRest := unit; key_value_rest_default := tt;
  SpanMessage := unit; span_start _ := 0;
|}.

Section Messages.
#[local] Existing Instance sample_parts.

Definition of_any_value (v : AnyValue) : option (option (list Z) * option Z) :=
  match any_value v with
  | None => None
  | Some (StringValue s) => Some (Some s, None)
  | Some (IntValue n) => Some (None, Some n)
  | Some (OtherVariant _) => Some (None, None)
  end.
Definition to_any_value (x : option (option (list Z) * option Z)) : AnyValue :=
  mkAnyValue match x with
    | None => None
    | Some (Some s, _) => Some (StringValue s)
    | Some (None, Some n) => Some (IntValue n)
    | Some (None, None) => Some (OtherVariant (tt : OtherValue))
    end.
#[local] Instance coded_any_value : Coded AnyValue.
Proof. refine (coded_via of_any_value to_any_value _). by intros [[[| |[]]|]]. Defined.

#[local] Instance coded_key_value : Coded KeyValue.
Proof.
  refine (coded_via (λ k, (kv_key k, kv_value k)) (λ x, mkKeyValue x.1 x.2 (tt : KeyValueRest)) _). by intros [k v []].
Defined.
#[local] Instance coded_resource : Coded ResourceMessage.
Proof.
  refine (coded_via (λ r, (resource_attributes r, resource_dropped_attributes_count r, (λ _, 0) <$> entity_refs r))
    (λ x, mkResource x.1.1 x.1.2 ((λ _, tt : EntityRef) <$> x.2)) _).
  intros [a d e]. simpl. f_equal. rewrite <- list_fmap_compose. induction e as [|[] e IH]; [done|]. simpl. by f_equal.
Defined.
#[local] Instance coded_scope : Coded InstrumentationScope.
Proof.
  refine (coded_via (λ s, (is_name s, is_version s, is_attributes s, is_dropped_attributes_count s))
    (λ x, mkInstrumentationScope x.1.1.1 x.1.1.2 x.1.2 x.2) _). by intros [].
Defined.
#[local] Instance coded_log_record : Coded LogRecordMessage.
Proof.
  refine (coded_via (B := Z * Z * Z * text * option AnyValue * list KeyValue * Z * Z * text * text * text)
    (λ l, (lr_time_unix_nano l, lr_observed_time_unix_nano l, lr_severity_number l, lr_severity_text l,
      lr_body l, lr_attributes l, lr_dropped_attributes_count l, lr_flags l, lr_trace_id l, lr_span_id l, lr_event_name l))
    (λ '(a, b, c, d, e, f, g, h, i, j, k), mkLogRecord a b c d e f g h i j k) _). by intros [].
Defined.
#[local] Instance coded_scope_logs : Coded ScopeLogs.
Proof.
  refine (coded_via (B := option InstrumentationScope * list LogRecordMessage * text)
    (λ s : ScopeLogs, (sl_scope s, log_records s, sl_schema_url s))
    (λ x, mkScopeLogs x.1.1 x.1.2 x.2) _). by intros [].
Defined.
#[local] Instance coded_resource_logs : Coded ResourceLogs.
Proof.
  refine (coded_via (B := option ResourceMessage * list ScopeLogs * text)
    (λ r : ResourceLogs, (rl_resource r, scope_logs r, rl_schema_url r))
    (λ x, mkResourceLogs x.1.1 x.1.2 x.2) _). by intros [].
Defined.
#[local] Instance coded_logs : Coded ExportLogsServiceRequest.
Proof. refine (coded_via (B := list ResourceLogs) resource_logs mkLogsRequest _). by intros []. Defined.

Definition logs_codec : LogsCodec := {|
  encode_logs := put;
  decode_logs bs := match get bs with Some (req, []) => Ok req | _ => Err "invalid request" end;
|}.

Lemma logs_codec_laws : @LogsCodecLaws _ logs_codec.
Proof.
  intros req. cbn [encode_logs decode_logs logs_codec]. rewrite <- (app_nil_r (put req)) at 1. by rewrite get_put.
Qed.
Lemma logs_codec_bytes (req : ExportLogsServiceRequest) : bytes (@encode_logs _ logs_codec req).
Proof. apply put_bytes. Qed.
End Messages.
