(* ===== verification/Dedup.v ===== *)
(** * The deduplication pipeline

    [ljx/src/dedup/mod.rs], [exact.rs], [canon.rs] and [collapse.rs]: records are
    collapsed into groups, over the whole selection ([distinct]) or in runs
    ([collapse]), by their bytes, by their canonical form or by the template of the
    miner.  [None] stands for a panic; the hash is a parameter. *)

From S2P Require Import Prelude Text Tokens Drain Canon FlatRecord.

(** [xxhash_rust::xxh3::xxh3_64] *)
Class Xxh3 : Type := { xxh3_64 : list Z → Z }.

#[export] Instance BucketKey_countable : Countable BucketKey.
Proof.
  refine (inj_countable' (λ k, (bk_service_name k, bk_severity_number k, bk_scope_name k, bk_code_filepath k, bk_code_lineno k))
    (λ '(a, b, c, d, e), mkBucketKey a b c d e) _). by intros [].
Defined.

Inductive DedupMode : Type := Distinct | Collapse.
Inductive DedupBucketPolicy : Type := PolicyGlobal | PolicyRequested.
Inductive DedupMatchMode : Type := Exact | Hash2 | Full.

Definition bucket_policy (mode : DedupMode) : DedupBucketPolicy :=
  match mode with Distinct => PolicyGlobal | Collapse => PolicyRequested end.

(** [DedupMatchMode] is ordered by its variants. *)
Definition match_rank (m : DedupMatchMode) : Z := match m with Exact => 0 | Hash2 => 1 | Full => 2 end.

Record DrainOpts : Type := mkDrainOpts { opt_sim_th : f64; opt_depth : Z; opt_extra_delimiters : list text }.
Record DedupOpts : Type := mkDedupOpts {
  opt_mode : DedupMode;
  match_mode : DedupMatchMode;
  opt_bucket_key : BucketKeyKind;
  opt_drain : DrainOpts;
}.
Definition DrainOpts_default : DrainOpts := mkDrainOpts (f64_div (f64_of_Z 7) (f64_of_Z 10)) 3 [].
Definition DedupOpts_default : DedupOpts := mkDedupOpts Distinct Hash2 DefaultKey DrainOpts_default.

(** [hex::encode] *)
Definition nibble (n : Z) : Z := if n <=? 9 then 48 + n else 97 + n - 10.
Definition hex_encode (bytes : list Z) : text := concat ((λ b, [nibble (Z.shiftr b 4); nibble (Z.land b 15)]) <$> bytes).

(** [groups[i]] as a place; [None] out of range. *)
Fixpoint update_at {A} (f : A → A) (i : nat) (l : list A) : option (list A) :=
  match l, i with
  | [], _ => None
  | x :: l, O => Some (f x :: l)
  | x :: l, S i => l ← update_at f i l; Some (x :: l)
  end.

Section Dedup.
Context {OP : OtlpParts} {RX : Regexes} {JN : JsonNumbers} {JS : Json} {HO : HashOrder} {XX : Xxh3}.

(** ** Groups *)

Record DedupGroup : Type := mkGroup {
  bucket_key : BucketKey;
  signature : Z;
  count : Z;
  representative : FlatRecord;
  first_seen_ns : Z;
  last_seen_ns : Z;
  exemplar_trace_ids : list text;
  exemplar_span_ids : list text;
  canonical_body : option text;
  body_shape : option text;
  drain3_template : option text;
  drain3_cluster_id : option Z;
}.

Definition effective_timestamp (rec : FlatRecord) : Z :=
  if negb (time_unix_nano rec =? 0) then time_unix_nano rec else observed_time_unix_nano rec.

Definition collect_exemplar (exemplars : list text) (id : list Z) : list text :=
  let hex := hex_encode id in
  if bool_decide (hex = []) || forallb (λ c, c =? 48) hex then exemplars else
  match length exemplars with
  | O | S O => exemplars ++ [hex]
  | S (S O) => <[1%nat := hex]> exemplars
  | _ => <[2%nat := hex]> exemplars
  end.

Definition DedupGroup_new (bucket_key : BucketKey) (signature : Z) (rec : FlatRecord) : DedupGroup :=
  let first_seen := effective_timestamp rec in
  {| bucket_key := bucket_key; signature := signature; count := 1; representative := rec;
     first_seen_ns := first_seen; last_seen_ns := first_seen;
     exemplar_trace_ids := [hex_encode (trace_id rec)]; exemplar_span_ids := [hex_encode (span_id rec)];
     canonical_body := None; body_shape := None; drain3_template := None; drain3_cluster_id := None |}.

(** The group with other statistics. *)
Definition set_seen (count first last : Z) (traces spans : list text) (g : DedupGroup) : DedupGroup :=
  mkGroup (bucket_key g) (signature g) count (representative g) first last traces spans
    (canonical_body g) (body_shape g) (drain3_template g) (drain3_cluster_id g).
Definition set_signature (s : Z) (g : DedupGroup) : DedupGroup :=
  mkGroup (bucket_key g) s (count g) (representative g) (first_seen_ns g) (last_seen_ns g) (exemplar_trace_ids g)
    (exemplar_span_ids g) (canonical_body g) (body_shape g) (drain3_template g) (drain3_cluster_id g).
Definition set_canonical (canon shape : option text) (g : DedupGroup) : DedupGroup :=
  mkGroup (bucket_key g) (signature g) (count g) (representative g) (first_seen_ns g) (last_seen_ns g) (exemplar_trace_ids g)
    (exemplar_span_ids g) canon shape (drain3_template g) (drain3_cluster_id g).
Definition set_template (template : text) (cid : Z) (g : DedupGroup) : DedupGroup :=
  mkGroup (bucket_key g) (xxh3_64 template) (count g) (representative g) (first_seen_ns g) (last_seen_ns g)
    (exemplar_trace_ids g) (exemplar_span_ids g) (canonical_body g) (body_shape g) (Some template) (Some cid).

Definition absorb (rec : FlatRecord) (g : DedupGroup) : DedupGroup :=
  let ts := effective_timestamp rec in
  set_seen (count g + 1) (if ts <? first_seen_ns g then ts else first_seen_ns g)
    (if last_seen_ns g <? ts then ts else last_seen_ns g)
    (collect_exemplar (exemplar_trace_ids g) (trace_id rec)) (collect_exemplar (exemplar_span_ids g) (span_id rec)) g.

Definition merge_group (other g : DedupGroup) : DedupGroup :=
  set_seen (count g + count other)
    (if first_seen_ns other <? first_seen_ns g then first_seen_ns other else first_seen_ns g)
    (if last_seen_ns g <? last_seen_ns other then last_seen_ns other else last_seen_ns g)
    (exemplar_trace_ids g) (exemplar_span_ids g) g.

(** ** Exact duplicates *)

Fixpoint dedup_bucket_loop (key : BucketKey) (records : list FlatRecord) (hash_to_idx : gmap Z nat)
    (groups : list DedupGroup) : option (list DedupGroup) :=
  match records with
  | [] => Some groups
  | rec :: records =>
      let hash := xxh3_64 (body rec) in
      match hash_to_idx !! hash with
      | Some idx => groups ← update_at (absorb rec) idx groups; dedup_bucket_loop key records hash_to_idx groups
      | None =>
          dedup_bucket_loop key records (<[hash := length groups]> hash_to_idx) (groups ++ [DedupGroup_new key hash rec])
      end
  end.
Definition dedup_bucket (key : BucketKey) (records : list FlatRecord) : option (list DedupGroup) :=
  dedup_bucket_loop key records ∅ [].

Fixpoint exact_loop (buckets : list (BucketKey * list FlatRecord)) : option (list DedupGroup) :=
  match buckets with
  | [] => Some []
  | (key, records) :: buckets => g ← dedup_bucket key records; rest ← exact_loop buckets; Some (g ++ rest)
  end.
Definition exact_dedup (buckets : list (BucketKey * list FlatRecord)) : option (list DedupGroup) :=
  exact_loop (traverse buckets).

(** ** Canonical duplicates *)

Definition annotate (g : DedupGroup) : option DedupGroup :=
  '(canon, shape) ← canonicalise_body (body (representative g)); Some (set_canonical (Some canon) (Some shape) g).

Fixpoint canon_loop (groups : list DedupGroup) (index : gmap (BucketKey * Z) nat) (merged : list DedupGroup)
    : option (list DedupGroup) :=
  match groups with
  | [] => Some merged
  | g :: groups =>
      let canon_hash := xxh3_64 (default [] (canonical_body g)) in
      let merge_key := (bucket_key g, canon_hash) in
      match index !! merge_key with
      | Some idx => merged ← update_at (merge_group g) idx merged; canon_loop groups index merged
      | None => canon_loop groups (<[merge_key := length merged]> index) (merged ++ [set_signature canon_hash g])
      end
  end.
Definition canon_dedup (groups : list DedupGroup) : option (list DedupGroup) :=
  groups ← mapM annotate groups; canon_loop groups ∅ [].

(** ** Runs *)

Record CollapseCandidate : Type := mkCandidate {
  cc_bucket_key : BucketKey;
  cc_signature : Z;
  cc_canonical_body : option text;
  cc_body_shape : option text;
  cc_record : FlatRecord;
}.

Definition CollapseCandidate_from_record (record : FlatRecord) (bucket_key : BucketKey) (match_mode : DedupMatchMode)
    : option CollapseCandidate :=
  match match_mode with
  | Exact => Some (mkCandidate bucket_key (xxh3_64 (body record)) None None record)
  | Hash2 | Full =>
      '(canonical_body, body_shape) ← canonicalise_body (body record);
      Some (mkCandidate bucket_key (xxh3_64 canonical_body) (Some canonical_body) (Some body_shape) record)
  end.

Definition into_group (c : CollapseCandidate) : DedupGroup :=
  set_canonical (cc_canonical_body c) (cc_body_shape c) (DedupGroup_new (cc_bucket_key c) (cc_signature c) (cc_record c)).

Definition same_signature (group : DedupGroup) (candidate : CollapseCandidate) : bool :=
  signature group =? cc_signature candidate.

Definition merge_into_group (candidate : CollapseCandidate) (group : DedupGroup) : DedupGroup :=
  absorb (cc_record candidate) group.

Definition drain_config (opts : DrainOpts) (max_clusters : Z) : DrainConfig :=
  mkDrainConfig (opt_depth opts) (opt_sim_th opts) 100 max_clusters (opt_extra_delimiters opts) true.

(** [Some None]: the template of the group does not match. *)
Definition drain_matches (group : DedupGroup) (candidate : CollapseCandidate) (opts : DedupOpts)
    : option (option DedupGroup) :=
  let left := match drain3_template group with
    | Some t => t
    | None => default (body (representative group)) (canonical_body group)
    end in
  let right := default (body (cc_record candidate)) (cc_canonical_body candidate) in
  '(_, _, engine) ← add_log_message left (Drain_new (drain_config (opt_drain opts) 4));
  '(cid, is_new, engine) ← add_log_message right engine;
  if (is_new : bool) then Some None else
  let template := default [] (LogCluster_template <$> clusters engine !! cid) in
  Some (Some (set_template template cid group)).

(** The trailing group, when the candidate goes into it. *)
Definition joins (last : DedupGroup) (candidate : CollapseCandidate) (opts : DedupOpts) : option (option DedupGroup) :=
  if negb (bool_decide (bucket_key last = cc_bucket_key candidate)) then Some None else
  if same_signature last candidate then Some (Some last) else
  match match_mode opts with
  | Full => drain_matches last candidate opts
  | _ => Some None
  end.

(** The groups before the trailing one, and the trailing one. *)
Fixpoint collapse_loop (records : list FlatRecord) (opts : DedupOpts) (groups : list DedupGroup) (last : option DedupGroup)
    : option (list DedupGroup) :=
  match records with
  | [] => Some (groups ++ option_list last)
  | rec :: records =>
      let bucket_key := BucketKey_from_record rec (opt_bucket_key opts) in
      candidate ← CollapseCandidate_from_record rec bucket_key (match_mode opts);
      match last with
      | None => collapse_loop records opts groups (Some (into_group candidate))
      | Some g =>
          joined ← joins g candidate opts;
          match joined with
          | Some g => collapse_loop records opts groups (Some (merge_into_group candidate g))
          | None => collapse_loop records opts (groups ++ [g]) (Some (into_group candidate))
          end
      end
  end.
Definition collapse_dedup (records : list FlatRecord) (opts : DedupOpts) : option (list DedupGroup) :=
  collapse_loop records opts [] None.

(** ** Residual singletons *)

(** The cluster of every residual. *)
Fixpoint mine (residuals : list DedupGroup) (engine : Drain) : option (list Z * Drain) :=
  match residuals with
  | [] => Some ([], engine)
  | g :: residuals =>
      '(cid, _, engine) ← add_log_message (default (body (representative g)) (canonical_body g)) engine;
      '(cids, engine) ← mine residuals engine;
      Some (cid :: cids, engine)
  end.

(** The group of the residuals [indices], which are in cluster [cid]. *)
Definition cluster_group (residuals : list DedupGroup) (engine : Drain) (cid : Z) (indices : list nat)
    : option DedupGroup :=
  members ← mapM (λ i, residuals !! i) indices;
  match members with
  | [] => None
  | [g] => Some g
  | g :: rest =>
      let group := foldl (λ group other, merge_group other group) g rest in
      let template := default [] (LogCluster_template <$> clusters engine !! cid) in
      Some (set_template template cid group)
  end.

Definition residual_bucket (bucket_groups : list DedupGroup) (drain_opts : DrainOpts) : option (list DedupGroup) :=
  let bucket_total := foldr Z.add 0 (count <$> bucket_groups) in
  let merged := filter (λ g, 1 < count g) bucket_groups in
  let residuals := filter (λ g, ¬ (1 < count g)) bucket_groups in
  if (len residuals <? 2) || (bucket_total =? 0) then Some (merged ++ residuals) else
  '(cids, engine) ← mine residuals (Drain_new (drain_config drain_opts (len residuals / 2)));
  let drain_groups := group_entries (λ i, default 0 (cids !! i)) (seq 0 (length residuals)) in
  clustered ← mapM (λ e, cluster_group residuals engine e.1 e.2) (traverse drain_groups);
  Some (clustered ++ merged).

Definition dedup_residuals (groups : list DedupGroup) (drain_opts : DrainOpts) : option (list DedupGroup) :=
  buckets ← mapM (λ e, residual_bucket e.2 drain_opts) (traverse (group_entries bucket_key groups));
  Some (concat buckets).

(** ** The pipeline *)

Definition dedup_groups (records : list FlatRecord) (opts : DedupOpts) : option (list DedupGroup) :=
  match opt_mode opts with
  | Distinct =>
      let bucket_key := match bucket_policy (opt_mode opts) with
        | PolicyGlobal => GlobalKey
        | PolicyRequested => opt_bucket_key opts
        end in
      groups ← exact_dedup (bucket_group records bucket_key);
      groups ← (if match_rank Hash2 <=? match_rank (match_mode opts) then canon_dedup groups else Some groups);
      if match_rank Full <=? match_rank (match_mode opts) then dedup_residuals groups (opt_drain opts) else Some groups
  | Collapse => collapse_dedup records opts
  end.
End Dedup.
