(* ===== verification/Groups.v ===== *)
(** * Groups and their members

    Grouping by key, and what it means that groups partition the records: every
    record is counted in exactly one group, and the statistics of a group are those
    of its members. *)

From S2P Require Import Prelude Text Tokens Drain Canon FlatRecord Dedup.

Lemma Forall2_impl_elem {A B} (R R' : A → B → Prop) l k :
  (∀ x y, x ∈ l → R x y → R' x y) → Forall2 R l k → Forall2 R' l k.
Proof.
  intros H Hf. induction Hf as [|x y l k Hxy _ IH]; [constructor|]. constructor; [apply H; [by left|done]|].
  apply IH. intros a b Ha. apply H. by right.
Qed.

Lemma Forall2_fmap_eq {A B C} (f : A → C) (g : B → C) l k : Forall2 (λ x y, g y = f x) l k → g <$> k = f <$> l.
Proof. induction 1 as [|x y l k E _ IH]; [done|]. rewrite !fmap_cons. by rewrite E, IH. Qed.

Lemma elem_of_concat_part {A} (parts : list (list A)) l part x : concat parts ≡ₚ l → part ∈ parts → x ∈ part → x ∈ l.
Proof. intros <- Hp Hx. apply list_elem_of_In, in_concat. exists part. by split; apply list_elem_of_In. Qed.

(** ** Grouping by key *)

Section Grouping.
Context {K A : Type} `{EqDecision K}.

(** Every entry holds the elements of its key, in order. *)
Record entries_of (f : A → K) (l : list A) (m : list (K * list A)) : Prop := {
  eo_keys : NoDup m.*1;
  eo_values : ∀ k vs, (k, vs) ∈ m → vs = filter (λ a, f a = k) l ∧ vs ≠ [];
  eo_all : ∀ a, a ∈ l → f a ∈ m.*1;
  eo_concat : concat m.*2 ≡ₚ l;
}.

Lemma entry_push_keys (k : K) (v : A) m : (entry_push k v m).*1 = if decide (k ∈ m.*1) then m.*1 else m.*1 ++ [k].
Proof.
  induction m as [|[k' vs] m IH]; [done|]. cbn [entry_push]. rewrite fmap_cons. cbn [fst].
  destruct (decide (k = k')) as [->|Hne].
  - rewrite decide_True by (by left). done.
  - rewrite fmap_cons, IH. cbn [fst]. destruct (decide (k ∈ m.*1)) as [Hin|Hnot].
    + rewrite decide_True by (by right). done.
    + rewrite decide_False by (rewrite elem_of_cons; tauto). done.
Qed.

Lemma entry_push_elem (k : K) (v : A) m k' vs :
  NoDup m.*1 → (k', vs) ∈ entry_push k v m →
  k' ≠ k ∧ (k', vs) ∈ m ∨ k' = k ∧ (∃ vs0, ((k, vs0) ∈ m ∧ vs = vs0 ++ [v]) ∨ ((k ∉ m.*1) ∧ vs = [v])).
Proof.
  induction m as [|[k0 vs0] m IH]; cbn [entry_push].
  { intros _ [= -> ->]%list_elem_of_singleton. right. split; [done|]. exists []. right. split; [|done].
    apply not_elem_of_nil. }
  rewrite fmap_cons. intros [Hnot Hnd]%list.NoDup_cons. destruct (decide (k = k0)) as [->|Hne].
  - rewrite !elem_of_cons. intros [[= -> ->]|Hin].
    + right. split; [done|]. exists vs0. left. split; [by left|done].
    + left. split; [|by right]. intros ->. apply Hnot. apply list_elem_of_fmap. by exists (k0, vs).
  - rewrite !elem_of_cons. intros [[= -> ->]|Hin]; [left; split; [done|by left]|].
    destruct (IH Hnd Hin) as [[? ?]|[? (vs1 & [[Hv ?]|[Hn ?]])]]; [left; split; [done|by right]| |].
    + right. split; [done|]. exists vs1. left. split; [by right|done].
    + right. split; [done|]. exists []. right. split; [|done]. rewrite elem_of_cons. tauto.
Qed.

Lemma entry_push_concat (k : K) (v : A) m : concat (entry_push k v m).*2 ≡ₚ concat m.*2 ++ [v].
Proof.
  induction m as [|[k' vs] m IH]; [done|]. cbn [entry_push]. case_decide; rewrite !fmap_cons; cbn [snd concat].
  - rewrite <- !app_assoc. apply Permutation_app_head. apply Permutation_app_comm.
  - rewrite IH. by rewrite app_assoc.
Qed.

Lemma group_entries_spec (f : A → K) l : entries_of f l (group_entries f l).
Proof.
  unfold group_entries. induction l as [|a l IH] using rev_ind.
  { split; simpl; try constructor; try done; intros; set_solver. }
  rewrite foldl_app. simpl. destruct IH as [Hk Hv Ha Hc]. set (m := foldl _ [] l) in *. split.
  - rewrite entry_push_keys. case_decide; [done|]. apply list.NoDup_app. split_and!; [done| |apply NoDup_singleton].
    intros x Hx Hy%list_elem_of_singleton. by subst.
  - intros k vs [[Hne Hin]|[-> (vs0 & [[Hin ->]|[Hnot ->]])]]%entry_push_elem; [| | |done].
    + rewrite list.filter_app, filter_cons_False, filter_nil, app_nil_r by done. by apply Hv.
    + rewrite list.filter_app, filter_cons_True, filter_nil by done. destruct (Hv _ _ Hin) as [-> _].
      split; [done|]. by destruct (filter _ l).
    + rewrite list.filter_app, filter_cons_True, filter_nil by done. split; [|done].
      rewrite list_filter_false; [done|]. intros x Hx E. apply Hnot. rewrite <- E. by apply Ha.
  - intros x. rewrite elem_of_app, list_elem_of_singleton, entry_push_keys. intros [Hx%Ha| ->]; case_decide; rewrite ?elem_of_app, ?list_elem_of_singleton; tauto.
  - rewrite entry_push_concat, Hc. done.
Qed.

End Grouping.

(** ** The loops with an index are groupings *)

Section Loops.
Context {K X G : Type} `{Countable K}.
Context (key : X → K) (create : X → G) (join : X → G → G).

Fixpoint keyed_loop (xs : list X) (index : gmap K nat) (groups : list G) : option (list G) :=
  match xs with
  | [] => Some groups
  | x :: xs =>
      match index !! key x with
      | Some idx => groups ← update_at (join x) idx groups; keyed_loop xs index groups
      | None => keyed_loop xs (<[key x := length groups]> index) (groups ++ [create x])
      end
  end.

(** The group of the elements [xs] of a key. *)
Definition group_of (xs : list X) : option G :=
  match xs with
  | [] => None
  | x :: xs => Some (foldl (λ g y, join y g) (create x) xs)
  end.

Lemma group_of_snoc xs x : xs ≠ [] → group_of (xs ++ [x]) = join x <$> group_of xs.
Proof. destruct xs as [|y xs]; [done|]. intros _. simpl. by rewrite foldl_app. Qed.

(** The index of every key is the position of its entry. *)
Definition index_of (m : list (K * list X)) (index : gmap K nat) : Prop :=
  ∀ k i, index !! k = Some i ↔ m.*1 !! i = Some k.

Lemma update_entry (k : K) (x : X) (m : list (K * list X)) groups i :
  Forall2 (λ e g, e.2 ≠ [] ∧ group_of e.2 = Some g) m groups → NoDup m.*1 → m.*1 !! i = Some k →
  ∃ groups', update_at (join x) i groups = Some groups' ∧
    Forall2 (λ e g, e.2 ≠ [] ∧ group_of e.2 = Some g) (entry_push k x m) groups' ∧ (entry_push k x m).*1 = m.*1.
Proof.
  intros Hf. revert i. induction Hf as [|[k' vs] g m groups [Hne Hg] Hf IH]; intros i Hnd Hi; [done|].
  rewrite fmap_cons in Hnd, Hi. apply list.NoDup_cons in Hnd as [Hnot Hnd]. cbn [fst snd] in *. cbn [entry_push].
  destruct i as [|i]; simpl in Hi.
  - injection Hi as ->. rewrite decide_True by done. exists (join x g :: groups). split; [done|]. split; [|done].
    constructor; [|done]. cbn [snd]. split; [by destruct vs|]. by rewrite group_of_snoc, Hg.
  - rewrite decide_False by (intros ->; apply Hnot; by eapply list_elem_of_lookup_2).
    destruct (IH i Hnd Hi) as (groups' & Hu & Hf' & Hk). exists (g :: groups'). cbn [update_at]. rewrite Hu.
    split; [done|]. split; [by constructor|]. rewrite !fmap_cons. by rewrite Hk.
Qed.

Lemma entry_push_fresh (k : K) (x : X) (m : list (K * list X)) :
  k ∉ m.*1 → entry_push k x m = m ++ [(k, [x])].
Proof.
  induction m as [|[k' vs] m IH]; [done|]. rewrite fmap_cons, elem_of_cons. intros Hnot. cbn [entry_push].
  rewrite decide_False by tauto. rewrite IH by tauto. done.
Qed.

Lemma keyed_loop_spec xs index groups m :
  Forall2 (λ e g, e.2 ≠ [] ∧ group_of e.2 = Some g) m groups → NoDup m.*1 → index_of m index →
  ∃ groups', keyed_loop xs index groups = Some groups' ∧
    Forall2 (λ e g, group_of e.2 = Some g) (foldl (λ m x, entry_push (key x) x m) m xs) groups'.
Proof.
  revert index groups m. induction xs as [|x xs IH]; intros index groups m Hf Hnd Hix; cbn [keyed_loop foldl].
  { exists groups. split; [done|]. eapply Forall2_impl; [|exact Hf]. by intros e g []. }
  destruct (index !! key x) as [i|] eqn:Ei.
  - destruct (update_entry (key x) x m groups i Hf Hnd) as (groups' & -> & Hf' & Hk); [by apply Hix|].
    apply IH; [done|by rewrite Hk|]. intros k j. rewrite Hk. apply Hix.
  - assert (key x ∉ m.*1) as Hnot.
    { intros [j Hj]%list_elem_of_lookup. apply Hix in Hj. congruence. }
    rewrite entry_push_fresh by done. apply IH.
    + apply Forall2_app; [done|]. by repeat constructor.
    + rewrite fmap_app. apply list.NoDup_app. split_and!; [done| |apply NoDup_singleton].
      intros y Hy Hy'%list_elem_of_singleton. by subst.
    + intros k j. rewrite fmap_app. simpl. pose proof (Forall2_length Hf) as El.
      destruct (decide (k = key x)) as [->|Hne].
      * rewrite lookup_insert_eq. split.
        -- intros [= <-]. rewrite lookup_app_r; rewrite length_fmap, El; [by rewrite Nat.sub_diag|lia].
        -- rewrite lookup_app_Some. intros [Hj|[Hl Hj]]; [by apply Hix in Hj; congruence|].
           rewrite length_fmap, El in *. apply list_lookup_singleton_Some in Hj as [? _]. f_equal. lia.
      * rewrite lookup_insert_ne by done. rewrite (Hix k j), lookup_app_Some. split; [by left|].
        intros [?|[_ [_ ?]%list_lookup_singleton_Some]]; congruence.
Qed.

Lemma keyed_loop_groups xs :
  ∃ groups, keyed_loop xs ∅ [] = Some groups ∧ Forall2 (λ e g, group_of e.2 = Some g) (group_entries key xs) groups.
Proof.
  apply (keyed_loop_spec xs ∅ [] []); [done|constructor|]. intros k i. split; [by rewrite lookup_empty|done].
Qed.
End Loops.

(** ** Groups and their members *)

Section Members.
Context {OP : OtlpParts}.

(** [t] is the least of [ts] for the order [R]. *)
Definition extreme (R : Z → Z → Prop) (t : Z) (ts : list Z) : Prop := t ∈ ts ∧ Forall (R t) ts.

(** What relates a group to each of its records. *)
Context (Q : DedupGroup → FlatRecord → Prop).

Record represents (g : DedupGroup) (rs : list FlatRecord) : Prop := {
  rep_head : list.head rs = Some (representative g);
  rep_count : count g = len rs;
  rep_first : extreme Z.le (first_seen_ns g) (effective_timestamp <$> rs);
  rep_last : extreme Z.ge (last_seen_ns g) (effective_timestamp <$> rs);
  rep_members : Forall (Q g) rs;
}.

(** Every record is a member of exactly one group. *)
Definition partitions (groups : list DedupGroup) (records : list FlatRecord) : Prop :=
  ∃ ps : list (DedupGroup * list FlatRecord),
    groups = ps.*1 ∧ Forall (λ p, represents p.1 p.2) ps ∧ concat ps.*2 ≡ₚ records.

#[local] Instance Zge_trans : Transitive Z.ge.
Proof. intros x y z. lia. Qed.
#[local] Instance Zge_refl : Reflexive Z.ge.
Proof. intros x. lia. Qed.

Lemma extreme_app R `{!Transitive R} t t' u ts ts' :
  extreme R t ts → extreme R t' ts' → (u = t ∧ R t t') ∨ (u = t' ∧ R t' t) → extreme R u (ts ++ ts').
Proof.
  intros [Hi Hf] [Hi' Hf'] Hu. split; [rewrite elem_of_app; destruct Hu as [[-> _]|[-> _]]; tauto|].
  rewrite list.Forall_forall in *. intros x [Hx|Hx]%elem_of_app; destruct Hu as [[-> Ht]|[-> Ht]]; eauto.
Qed.

Lemma extreme_singleton R `{!Reflexive R} t : extreme R t [t].
Proof. split; [by left|]. repeat constructor. done. Qed.

Lemma represents_new key sig r :
  (∀ r', r' = r → Q (DedupGroup_new key sig r) r') → represents (DedupGroup_new key sig r) [r].
Proof.
  intros Hq. split; try done; try exact (extreme_singleton _ _). repeat constructor. by apply Hq.
Qed.

(** Two groups with the same statistics. *)
Definition same_stats (g g' : DedupGroup) : Prop :=
  count g' = count g ∧ representative g' = representative g ∧ first_seen_ns g' = first_seen_ns g ∧
  last_seen_ns g' = last_seen_ns g.

Lemma represents_stats g g' rs :
  represents g rs → same_stats g g' → (Forall (Q g) rs → Forall (Q g') rs) → represents g' rs.
Proof.
  intros [Hh Hc Hf Hl Hm] (Ec & Er & Ef & El) Hq. split; rewrite ?Ec, ?Er, ?Ef, ?El; auto.
Qed.

(** [Q] does not look at the statistics. *)
Definition stable : Prop :=
  ∀ g r c f l ts ss, Q g r → Q (set_seen c f l ts ss g) r.

Lemma represents_merge g g' rs rs' :
  stable → represents g rs → represents g' rs' → Forall (Q g) rs' → represents (merge_group g' g) (rs ++ rs').
Proof.
  intros HQ [Hh Hc Hf Hl Hm] [Hh' Hc' Hf' Hl' Hm'] Hq. unfold merge_group, set_seen. split; cbn [count representative first_seen_ns last_seen_ns].
  - by destruct rs.
  - rewrite len_app. lia.
  - rewrite fmap_app. eapply (extreme_app Z.le); [done|done|].
    destruct (Z.ltb_spec (first_seen_ns g') (first_seen_ns g)); [right|left]; split; lia.
  - rewrite fmap_app. eapply (extreme_app Z.ge); [done|done|].
    destruct (Z.ltb_spec (last_seen_ns g) (last_seen_ns g')); [right|left]; split; lia.
  - apply Forall_app. split; (eapply Forall_impl; [|eassumption]); intros r Hr; by apply HQ.
Qed.

Lemma represents_absorb g rs r :
  stable → represents g rs → Q g r → represents (absorb r g) (rs ++ [r]).
Proof.
  intros HQ [Hh Hc Hf Hl Hm] Hq. unfold absorb, set_seen. split; cbn [count representative first_seen_ns last_seen_ns].
  - by destruct rs.
  - rewrite len_app, len_cons, len_nil. lia.
  - rewrite fmap_app. eapply (extreme_app Z.le); [done|exact (extreme_singleton _ _)|].
    destruct (Z.ltb_spec (effective_timestamp r) (first_seen_ns g)); [right|left]; split; lia.
  - rewrite fmap_app. eapply (extreme_app Z.ge); [done|exact (extreme_singleton _ _)|].
    destruct (Z.ltb_spec (last_seen_ns g) (effective_timestamp r)); [right|left]; split; lia.
  - apply Forall_app. split; [|repeat constructor; by apply HQ]. eapply Forall_impl; [|exact Hm]. intros x Hx. by apply HQ.
Qed.

(** *** Partitions *)

Lemma partitions_nil : partitions [] [].
Proof. by exists []. Qed.

Lemma partitions_single g rs : represents g rs → partitions [g] rs.
Proof. intros Hr. exists [(g, rs)]. split_and!; [done|by apply Forall_singleton|]. simpl. by rewrite app_nil_r. Qed.

Lemma partitions_app gs gs' rs rs' : partitions gs rs → partitions gs' rs' → partitions (gs ++ gs') (rs ++ rs').
Proof.
  intros (ps & -> & Hf & Hp) (ps' & -> & Hf' & Hp'). exists (ps ++ ps').
  rewrite !fmap_app, concat_app, Hp, Hp'. split_and!; [done|by apply Forall_app|done].
Qed.

Lemma partitions_perm gs gs' rs rs' : gs ≡ₚ gs' → rs ≡ₚ rs' → partitions gs rs → partitions gs' rs'.
Proof.
  intros Hg Hr (ps & -> & Hf & Hp). symmetry in Hg. apply Permutation_map_inv in Hg as (ps' & -> & Hps).
  exists ps'. split_and!; [done|by rewrite <- Hps|]. by rewrite <- Hps, Hp.
Qed.

Lemma partitions_app_inv gs gs' rs :
  partitions (gs ++ gs') rs → ∃ r1 r2, partitions gs r1 ∧ partitions gs' r2 ∧ r1 ++ r2 ≡ₚ rs.
Proof.
  intros (ps & E & Hf & Hp). symmetry in E. apply fmap_app_inv in E as (p1 & p2 & -> & -> & ->).
  apply Forall_app in Hf as [Hf1 Hf2]. rewrite fmap_app, concat_app in Hp.
  exists (concat p1.*2), (concat p2.*2). split_and!; [by exists p1|by exists p2|done].
Qed.

Lemma partitions_concat_inv gss rs :
  partitions (concat gss) rs → ∃ rss, Forall2 partitions gss rss ∧ concat rss ≡ₚ rs.
Proof.
  revert rs. induction gss as [|gs gss IH]; intros rs Hp; simpl in Hp.
  - destruct Hp as (ps & E & _ & Hp). exists []. split; [done|]. by destruct ps.
  - apply partitions_app_inv in Hp as (r1 & r2 & H1 & H2 & Hp). destruct (IH _ H2) as (rss & Hf & Hc).
    exists (r1 :: rss). split; [by constructor|]. simpl. by rewrite Hc.
Qed.

Lemma partitions_concat gss rss : Forall2 partitions gss rss → partitions (concat gss) (concat rss).
Proof. induction 1 as [|gs rs gss rss Hp _ IH]; [apply partitions_nil|]. by apply partitions_app. Qed.

(** Stage by stage: parts of the groups are replaced by groups of the same records. *)
Lemma partitions_stage gs rs (parts news : list (list DedupGroup)) :
  partitions gs rs → concat parts ≡ₚ gs →
  Forall2 (λ part new, ∀ r, (∀ x, x ∈ r → x ∈ rs) → partitions part r → partitions new r) parts news →
  partitions (concat news) rs.
Proof.
  intros Hp Hc Hf. eapply partitions_perm in Hp; [|symmetry; exact Hc|done].
  apply partitions_concat_inv in Hp as (rss & Hr & Hcr).
  assert (∀ part x, part ∈ rss → x ∈ part → x ∈ rs) as Hsub by (intros part x; by eapply elem_of_concat_part).
  eapply partitions_perm; [done|exact Hcr|]. apply partitions_concat. clear Hc Hcr. revert news Hf.
  induction Hr as [|part r parts rss Hpr _ IH]; intros news Hf; inversion Hf as [|? new ? news' Hnew Hf']; subst; constructor.
  - apply Hnew; [|done]. intros x. apply Hsub. by left.
  - apply IH; [|done]. intros part' x Hpart. apply Hsub. by right.
Qed.

(** A group that replaces a part, one for one. *)
Lemma partitions_stage1 gs rs (parts : list (list DedupGroup)) news :
  partitions gs rs → concat parts ≡ₚ gs →
  Forall2 (λ part new, ∀ r, (∀ x, x ∈ r → x ∈ rs) → partitions part r → partitions [new] r) parts news →
  partitions news rs.
Proof.
  intros Hp Hc Hf. replace news with (concat ((λ g, [g]) <$> news)).
  - eapply partitions_stage; [done|done|]. by rewrite Forall2_fmap_r.
  - clear. induction news as [|g news IH]; [done|]. simpl. by f_equal.
Qed.

(** *** Absorbing and merging many *)

(** The group with other statistics. *)
Definition restat (g g' : DedupGroup) : Prop := ∃ c f l ts ss, g' = set_seen c f l ts ss g.

Lemma restat_refl g : restat g g.
Proof. by destruct g; repeat eexists. Qed.
Lemma restat_step g g' c f l ts ss : restat g g' → restat g (set_seen c f l ts ss g').
Proof. intros (? & ? & ? & ? & ? & ->). by repeat eexists. Qed.
Lemma restat_stable g g' r : stable → restat g g' → Q g r → Q g' r.
Proof. intros HQ (? & ? & ? & ? & ? & ->). apply HQ. Qed.

Lemma restat_merges g rest : restat g (foldl (λ g y, merge_group y g) g rest).
Proof.
  induction rest as [|y rest IH] using rev_ind; [apply restat_refl|]. rewrite foldl_app. by apply restat_step.
Qed.

Lemma absorb_all g rs ys :
  stable → represents g rs → Forall (Q g) ys →
  represents (foldl (λ g y, absorb y g) g ys) (rs ++ ys) ∧ restat g (foldl (λ g y, absorb y g) g ys).
Proof.
  intros HQ Hr Hys. induction ys as [|y ys IH] using rev_ind.
  { rewrite app_nil_r. split; [done|apply restat_refl]. }
  apply Forall_app in Hys as [Hys [Hy _]%Forall_cons_iff]. destruct (IH Hys) as [Hr' Hs]. rewrite foldl_app, app_assoc. simpl.
  split; [|by apply restat_step]. apply represents_absorb; [done|done|]. by apply (restat_stable g).
Qed.

Lemma merge_all g rs rest rss :
  stable → represents g rs → Forall2 represents rest rss → Forall (Forall (Q g)) rss →
  represents (foldl (λ g y, merge_group y g) g rest) (rs ++ concat rss).
Proof.
  intros HQ Hr Hf. revert g rs Hr. induction Hf as [|g' rs' rest rss Hr' Hf IH]; intros g rs Hr Hq; simpl.
  { by rewrite app_nil_r. }
  apply Forall_cons_iff in Hq as [Hq1 Hq]. pose proof (represents_merge _ _ _ _ HQ Hr Hr' Hq1) as Hm.
  rewrite app_assoc. apply IH; [done|].
  eapply Forall_impl; [|exact Hq]. intros x Hx. eapply Forall_impl; [|exact Hx]. intros r Hr0. by apply HQ.
Qed.

(** The groups of a part become one group. *)
Lemma partitions_merge g rest r :
  stable → partitions (g :: rest) r →
  (∀ g' r0 r1, g' ∈ rest → r0 ∈ r → r1 ∈ r → Q g r0 → Q g' r1 → Q g r1) →
  partitions [foldl (λ g y, merge_group y g) g rest] r.
Proof.
  intros HQ (ps & E & Hf & Hp) Hm. destruct ps as [|[g0 rs] ps]; [done|]. injection E as -> ->.
  apply Forall_cons_iff in Hf as [Hr Hf]. simpl in Hr, Hp.
  assert (representative g0 ∈ r ∧ Q g0 (representative g0)) as [Hin0 Hq0].
  { pose proof (rep_head _ _ Hr) as Hh. pose proof (rep_members _ _ Hr) as Hmem. destruct rs as [|x rs]; [done|].
    injection Hh as ->. split; [rewrite <- Hp; by left|]. by apply Forall_cons_iff in Hmem as [? _]. }
  eapply partitions_perm; [done|exact Hp|]. apply partitions_single.
  apply merge_all; [done|done| |].
  - clear -Hf. induction Hf as [|[g rs] ps Hr _ IH]; [constructor|]. by constructor.
  - rewrite Forall_fmap, list.Forall_forall in *. intros [g' rs'] Hin. simpl. rewrite list.Forall_forall. intros r1 Hr1.
    pose proof (Hf _ Hin) as Hrep. simpl in Hrep. pose proof (rep_members _ _ Hrep) as Hmem.
    rewrite list.Forall_forall in Hmem. eapply Hm; [|exact Hin0| |exact Hq0|by apply Hmem].
    + apply list_elem_of_fmap. by exists (g', rs').
    + rewrite <- Hp. apply elem_of_app. right. eapply elem_of_concat_part; [done| |exact Hr1].
      apply list_elem_of_fmap. by exists (g', rs').
Qed.

(** One group per entry, with the records of the entry. *)
Lemma partitions_entries {K} (m : list (K * list FlatRecord)) groups records :
  Forall2 (λ e g, represents g e.2) m groups → concat m.*2 ≡ₚ records → partitions groups records.
Proof.
  intros Hf Hc. exists (zip groups m.*2). pose proof (Forall2_length Hf) as El.
  rewrite fst_zip, snd_zip by (rewrite length_fmap; lia). split_and!; [done| |done]. clear Hc El.
  induction Hf as [|[k rs] g m groups Hr _ IH]; [constructor|]. by constructor.
Qed.

(** A group changed in what [Q] and the statistics do not depend on. *)
Lemma partitions_change g g' r : partitions [g] r → same_stats g g' → (∀ x, Q g x → Q g' x) → partitions [g'] r.
Proof.
  intros (ps & E & Hf & Hp) Hs Hq. destruct ps as [|[g0 rs] [|? ?]]; try done. injection E as ->.
  apply Forall_cons_iff in Hf as [Hf _]. simpl in *. eapply partitions_perm; [done|exact Hp|]. rewrite app_nil_r.
  apply partitions_single. eapply represents_stats; [done|done|]. intros Hm. eapply Forall_impl; [|exact Hm]. auto.
Qed.
End Members.

(** Groups changed one by one. *)
Lemma partitions_map `{OtlpParts} (Q Q' : DedupGroup → FlatRecord → Prop) groups groups' records :
  partitions Q groups records →
  Forall2 (λ g g', same_stats g g' ∧ ∀ r, r ∈ records → Q g r → Q' g' r) groups groups' →
  partitions Q' groups' records.
Proof.
  intros (ps & -> & Hf & Hp) Hg.
  assert (∀ p x, p ∈ ps.*2 → x ∈ p → x ∈ records) as Hsub by (intros p x; by eapply elem_of_concat_part).
  exists (zip groups' ps.*2). pose proof (Forall2_length Hg) as El. rewrite length_fmap in El.
  rewrite fst_zip, snd_zip by (rewrite length_fmap; lia). split_and!; [done| |done].
  clear Hp El. revert groups' Hg. induction Hf as [|[g rs] ps Hr _ IH]; intros groups' Hg;
    inversion Hg as [|? g' ? groups0 [Hs Hq] Hg0]; subst; [constructor|]. rewrite fmap_cons in *. cbn [zip zip_with].
  constructor.
  - destruct Hr as [Hh Hc Hf Hl Hm], Hs as (Ec & Er & Ef & E). split; cbn [fst snd] in *; rewrite ?Ec, ?Er, ?Ef, ?E; try done.
    rewrite list.Forall_forall in *. intros r Hr. apply Hq; [|by apply Hm]. apply (Hsub rs); [by left|done].
  - apply IH; [|done]. intros p x Hpin. apply Hsub. by right.
Qed.
