(* ===== verification/DedupStages.v ===== *)
(** * The stages of deduplication

    Every stage of the pipeline returns, and its groups partition the records. *)

From S2P Require Import Prelude Text Tokens Drain Canon FlatRecord Dedup Groups.

Section Stages.
Context {OP : OtlpParts} {RX : Regexes} {RL : RegexLaws} {JN : JsonNumbers} {JS : Json}.
Context {HO : HashOrder} {HL : HashOrderLaws} {XX : Xxh3}.

(** ** Exact duplicates *)

Lemma dedup_bucket_keyed key records index groups :
  dedup_bucket_loop key records index groups =
    keyed_loop (λ r, xxh3_64 (body r)) (λ r, DedupGroup_new key (xxh3_64 (body r)) r) absorb records index groups.
Proof.
  revert index groups. induction records as [|r records IH]; intros index groups; [done|]. cbn [dedup_bucket_loop keyed_loop].
  destruct (index !! _); [|apply IH]. destruct (update_at _ _ _); [apply IH|done].
Qed.

Lemma dedup_bucket_partitions Q key records :
  stable Q →
  (∀ r r', r ∈ records → r' ∈ records → xxh3_64 (body r) = xxh3_64 (body r') →
    Q (DedupGroup_new key (xxh3_64 (body r)) r) r') →
  ∃ groups, dedup_bucket key records = Some groups ∧ partitions Q groups records ∧
    NoDup (signature <$> groups) ∧ Forall (λ g, bucket_key g = key) groups.
Proof.
  intros HQ Hq. unfold dedup_bucket. rewrite dedup_bucket_keyed.
  destruct (keyed_loop_groups (λ r, xxh3_64 (body r)) (λ r, DedupGroup_new key (xxh3_64 (body r)) r) absorb records)
    as (groups & -> & Hf).
  exists groups. split; [done|].
  pose proof (group_entries_spec (λ r, xxh3_64 (body r)) records) as [Hk Hv _ Hc].
  set (m := group_entries _ _) in *.
  assert (Forall2 (λ e g, represents Q g e.2 ∧ signature g = e.1 ∧ bucket_key g = key) m groups) as Hrep.
  { eapply Forall2_impl_elem; [|exact Hf]. intros [k vs] g Hin Hg. destruct (Hv _ _ Hin) as [Evs Hne]. simpl in Hg.
    destruct vs as [|r vs]; [done|]. injection Hg as <-. cbn [fst snd].
    assert (∀ x, x ∈ r :: vs → x ∈ records ∧ xxh3_64 (body x) = k) as Hx.
    { intros x. rewrite Evs. intros [? ?]%list_elem_of_filter. done. }
    destruct (Hx r ltac:(by left)) as [Hr Er].
    destruct (absorb_all Q (DedupGroup_new key (xxh3_64 (body r)) r) [r] vs HQ) as [Hrep (c & f & l & ts & ss & E)].
    - apply represents_new. intros ? ->. by apply Hq.
    - rewrite list.Forall_forall. intros y Hy. destruct (Hx y ltac:(by right)) as [? ?]. apply Hq; [done|done|congruence].
    - split; [exact Hrep|]. by rewrite E. }
  split_and!.
  - apply (partitions_entries _ m); [|done]. eapply Forall2_impl; [|exact Hrep]. by intros e g [].
  - erewrite (Forall2_fmap_eq fst signature m); [done|]. eapply Forall2_impl; [|exact Hrep]. by intros e g (_ & ? & _).
  - clear -Hrep. induction Hrep as [|e g m groups (_ & _ & E) _ IH]; by constructor.
Qed.

Definition group_id (g : DedupGroup) : BucketKey * Z := (bucket_key g, signature g).

Lemma group_ids_nodup groups : NoDup (signature <$> groups) → NoDup (group_id <$> groups).
Proof.
  intros Hnd. apply (NoDup_fmap_1 snd). rewrite <- list_fmap_compose. exact Hnd.
Qed.

Lemma exact_loop_partitions Q es :
  stable Q → NoDup es.*1 →
  (∀ k vs r r', (k, vs) ∈ es → r ∈ vs → r' ∈ vs → xxh3_64 (body r) = xxh3_64 (body r') →
    Q (DedupGroup_new k (xxh3_64 (body r)) r) r') →
  ∃ groups, exact_loop es = Some groups ∧ partitions Q groups (concat es.*2) ∧ NoDup (group_id <$> groups) ∧
    Forall (λ g, bucket_key g ∈ es.*1) groups.
Proof.
  intros HQ. induction es as [|[k vs] es IH]; intros Hnd Hq; cbn [exact_loop].
  { exists []. split_and!; try constructor. apply partitions_nil. }
  rewrite fmap_cons in Hnd. apply list.NoDup_cons in Hnd as [Hnot Hnd].
  destruct (dedup_bucket_partitions Q k vs HQ) as (g1 & -> & Hp1 & Hn1 & Hk1).
  { intros r r'. apply Hq. by left. }
  destruct (IH Hnd) as (g2 & -> & Hp2 & Hn2 & Hk2).
  { intros k' vs' r r' Hin. apply Hq. by right. }
  exists (g1 ++ g2). split; [done|]. rewrite !fmap_cons, fmap_app. split_and!.
  - by apply partitions_app.
  - apply list.NoDup_app. split_and!; [by eapply group_ids_nodup| |done].
    intros x (a & -> & Ha)%list_elem_of_fmap (b & E & Hb)%list_elem_of_fmap. rewrite list.Forall_forall in Hk1, Hk2.
    injection E as Ek _. apply Hnot. cbn [fst]. rewrite <- (Hk1 a Ha), Ek. by apply Hk2.
  - apply Forall_app. split; (eapply Forall_impl; [|eassumption]); intros g; rewrite elem_of_cons; [by left|by right].
Qed.

Lemma exact_dedup_partitions Q kind records :
  stable Q →
  (∀ r r', r ∈ records → r' ∈ records → BucketKey_from_record r kind = BucketKey_from_record r' kind →
    xxh3_64 (body r) = xxh3_64 (body r') →
    Q (DedupGroup_new (BucketKey_from_record r kind) (xxh3_64 (body r)) r) r') →
  ∃ groups, exact_dedup (bucket_group records kind) = Some groups ∧ partitions Q groups records ∧
    NoDup (group_id <$> groups).
Proof.
  intros HQ Hq. unfold exact_dedup, bucket_group.
  pose proof (group_entries_spec (λ r, BucketKey_from_record r kind) records) as [Hk Hv _ Hc].
  set (m := group_entries _ _) in *. pose proof (traverse_permutation _ m) as Ht.
  destruct (exact_loop_partitions Q (traverse m)) as (groups & -> & Hp & Hn & _); [done|by rewrite Ht| |].
  - intros k vs r r' Hin Hr Hr' Hh. rewrite Ht in Hin. destruct (Hv _ _ Hin) as [Evs _].
    rewrite Evs, list_elem_of_filter in Hr, Hr'. destruct Hr as [<- Hr], Hr' as [Ek Hr']. by apply Hq.
  - exists groups. split_and!; [done| |done]. eapply partitions_perm; [done| |exact Hp]. by rewrite Ht.
Qed.

(** ** Canonical duplicates *)

Lemma canon_loop_keyed groups index merged :
  canon_loop groups index merged =
    keyed_loop (λ g, (bucket_key g, xxh3_64 (default [] (canonical_body g))))
      (λ g, set_signature (xxh3_64 (default [] (canonical_body g))) g) merge_group groups index merged.
Proof.
  revert index merged. induction groups as [|g groups IH]; intros index merged; [done|]. cbn [canon_loop keyed_loop].
  destruct (index !! _); [|apply IH]. destruct (update_at _ _ _); [apply IH|done].
Qed.

Lemma annotate_total groups :
  ∃ groups', mapM annotate groups = Some groups' ∧
    Forall2 (λ g g', ∃ c s, canonicalise_body (body (representative g)) = Some (c, s) ∧
      g' = set_canonical (Some c) (Some s) g) groups groups'.
Proof.
  induction groups as [|g groups (groups' & Hm & Hf)]; [by exists []|].
  destruct (canonicalise_body_total (body (representative g))) as [[c s] Hc].
  exists (set_canonical (Some c) (Some s) g :: groups'). split; [|constructor; [by exists c, s|done]].
  assert (annotate g = Some (set_canonical (Some c) (Some s) g)) as Ea by (unfold annotate; by rewrite Hc).
  simpl. rewrite Ea. simpl. by rewrite Hm.
Qed.

Lemma same_stats_refl g : same_stats g g.
Proof. done. Qed.

Lemma canon_part_merges Q (records : list FlatRecord) g rest :
  stable Q → (∀ g r h, Q g r → Q (set_signature h g) r) →
  (∀ g g' r0 r1, r0 ∈ records → r1 ∈ records → Q g r0 → Q g' r1 → bucket_key g = bucket_key g' →
    xxh3_64 (default [] (canonical_body g)) = xxh3_64 (default [] (canonical_body g')) → Q g r1) →
  Forall (λ g', bucket_key g = bucket_key g' ∧
    xxh3_64 (default [] (canonical_body g)) = xxh3_64 (default [] (canonical_body g'))) rest →
  ∀ h r, (∀ x, x ∈ r → x ∈ records) → partitions Q (g :: rest) r →
    partitions Q [foldl (λ g y, merge_group y g) (set_signature h g) rest] r.
Proof.
  intros HQ Hsig Hm Hall h r Hsub Hp. apply partitions_merge; [done| |].
  - eapply partitions_map; [exact Hp|]. constructor; [split; [done|]; intros; by apply Hsig|].
    clear. induction rest; constructor; [by split|done].
  - intros g' r0 r1 Hin Hr0 Hr1 Hq0 Hq1. rewrite list.Forall_forall in Hall. destruct (Hall _ Hin) as [Eb Eh].
    eapply (Hm _ g' r0); eauto.
Qed.

Lemma canon_dedup_partitions Q Q' groups records :
  stable Q' → partitions Q groups records →
  (∀ g r c s, r ∈ records → Q g r → canonicalise_body (body (representative g)) = Some (c, s) →
    Q' (set_canonical (Some c) (Some s) g) r) →
  (∀ g r h, Q' g r → Q' (set_signature h g) r) →
  (∀ g g' r0 r1, r0 ∈ records → r1 ∈ records → Q' g r0 → Q' g' r1 → bucket_key g = bucket_key g' →
    xxh3_64 (default [] (canonical_body g)) = xxh3_64 (default [] (canonical_body g')) → Q' g r1) →
  ∃ groups', canon_dedup groups = Some groups' ∧ partitions Q' groups' records ∧ NoDup (group_id <$> groups') ∧
    Forall (λ g, signature g = xxh3_64 (default [] (canonical_body g))) groups'.
Proof.
  intros HQ Hp Hann Hsig Hm. destruct (annotate_total groups) as (annotated & Ha & Hfa).
  unfold canon_dedup. rewrite Ha. simpl. rewrite canon_loop_keyed.
  set (key := λ g, (bucket_key g, xxh3_64 (default [] (canonical_body g)))).
  destruct (keyed_loop_groups key (λ g, set_signature (xxh3_64 (default [] (canonical_body g))) g) merge_group annotated)
    as (groups' & -> & Hf).
  exists groups'. split; [done|].
  assert (partitions Q' annotated records) as Hpa.
  { eapply partitions_map; [exact Hp|]. eapply Forall2_impl; [|exact Hfa]. intros g g' (c & s & Hc & ->).
    split; [done|]. intros r Hr Hq. by eapply Hann. }
  pose proof (group_entries_spec key annotated) as [Hk Hv _ Hc]. set (m := group_entries key annotated) in *.
  assert (Forall2 (λ e g', ∃ g rest, e.2 = g :: rest ∧ Forall (λ x, key g = key x) rest ∧ e.1 = key g ∧
    g' = foldl (λ g y, merge_group y g) (set_signature (key g).2 g) rest) m groups') as Hs.
  { eapply Forall2_impl_elem; [|exact Hf]. intros [k vs] g' Hin Hg. destruct (Hv _ _ Hin) as [Evs Hne]. simpl in Hg.
    destruct vs as [|g rest]; [done|]. injection Hg as <-. exists g, rest.
    assert (∀ x, x ∈ g :: rest → key x = k) as Hx by (intros x; rewrite Evs; by intros [? _]%list_elem_of_filter).
    pose proof (Hx g ltac:(by left)) as Eg. split_and!; [done| |done|done].
    rewrite list.Forall_forall. intros x Hxin. rewrite Eg. symmetry. apply Hx. by right. }
  split_and!.
  - apply (partitions_stage1 Q' annotated records m.*2); [done|done|]. rewrite Forall2_fmap_l.
    eapply Forall2_impl; [|exact Hs]. intros [k vs] g' (g & rest & E & Hall & _ & ->) r Hsub Hpart. simpl in E, Hpart. subst vs.
    eapply canon_part_merges; eauto. eapply Forall_impl; [|exact Hall]. intros x [=]. done.
  - erewrite (Forall2_fmap_eq fst group_id m); [done|]. eapply Forall2_impl; [|exact Hs].
    intros e g' (g & rest & E & _ & -> & ->). destruct (restat_merges (set_signature (key g).2 g) rest)
      as (c & f & l & ts & ss & ->). done.
  - clear -Hs. induction Hs as [|e g' m groups' (g & rest & _ & _ & _ & ->) _ IH]; constructor; [|done].
    destruct (restat_merges (set_signature (key g).2 g) rest) as (c & f & l & ts & ss & ->). done.
Qed.

(** ** Residual singletons *)

Lemma mine_total residuals engine hist :
  drain_inv engine hist → ∃ cids engine', mine residuals engine = Some (cids, engine') ∧ length cids = length residuals.
Proof.
  revert engine hist. induction residuals as [|g residuals IH]; intros engine hist Hinv; cbn [mine]; [by exists [], engine|].
  destruct (add_log_message_ok engine hist (default (body (representative g)) (canonical_body g)) Hinv)
    as (cid & is_new & e1 & -> & Hinv1 & _ & _). simpl.
  destruct (IH _ _ Hinv1) as (cids & e2 & -> & El). simpl. exists (cid :: cids), e2. split; [done|]. simpl. by rewrite El.
Qed.

Lemma drain_config_inv opts n : drain_inv (Drain_new (drain_config opts n)) [].
Proof. by apply drain_new_inv. Qed.

Lemma mapM_lookups {A} (l : list A) ixs :
  (∀ i, i ∈ ixs → (i < length l)%nat) → ∃ xs, mapM (λ i, l !! i) ixs = Some xs ∧ Forall2 (λ i x, l !! i = Some x) ixs xs.
Proof.
  intros Hi. destruct (mapM (λ i, l !! i) ixs) as [xs|] eqn:E; [|exfalso].
  - exists xs. split; [done|]. by apply mapM_Some.
  - apply mapM_None, Exists_exists in E as (i & Hin & Hl). apply lookup_ge_None in Hl. apply list_elem_of_In, Hi in Hin. lia.
Qed.

(** The elements at some positions. *)
Definition pick {A} (l : list A) (ixs : list nat) : list A := omap (λ i, l !! i) ixs.

Lemma Forall2_lookups_eq {A} (l : list A) ixs xs : Forall2 (λ i x, l !! i = Some x) ixs xs → pick l ixs = xs.
Proof. induction 1 as [|i x ixs xs E _ IH]; [done|]. unfold pick. simpl. rewrite E. by f_equal. Qed.

Lemma pick_seq {A} (l : list A) : pick l (seq 0 (length l)) = l.
Proof.
  apply Forall2_lookups_eq.
  apply Forall2_same_length_lookup_2; [by rewrite length_seq|].
  intros i j x Hj Hx. apply lookup_seq in Hj as [-> _]. done.
Qed.

Lemma pick_concat {A} (l : list A) ixss : pick l (concat ixss) = concat (pick l <$> ixss).
Proof. induction ixss as [|ixs ixss IH]; [done|]. rewrite fmap_cons. cbn [concat]. rewrite <- IH. apply omap_app. Qed.

#[local] Instance pick_Permutation {A} (l : list A) : Proper ((≡ₚ) ==> (≡ₚ)) (pick l).
Proof. intros ixs ixs' Hp. unfold pick. by rewrite Hp. Qed.

(** Groups of one bucket stand for the same bucket. *)
Definition bucketed (Q : DedupGroup → FlatRecord → Prop) : Prop :=
  ∀ g g' r0 r1, Q g r0 → Q g' r1 → bucket_key g = bucket_key g' → Q g r1.

Lemma cluster_group_merges Q key residuals engine cid indices :
  stable Q → bucketed Q → (∀ g r t c, Q g r → Q (set_template t c g) r) →
  Forall (λ g, bucket_key g = key) residuals → indices ≠ [] → (∀ i, i ∈ indices → (i < length residuals)%nat) →
  ∃ g, cluster_group residuals engine cid indices = Some g ∧
    ∀ r, partitions Q (pick residuals indices) r → partitions Q [g] r.
Proof.
  intros HQ Hb Ht Hall Hne Hi. unfold cluster_group. destruct (mapM_lookups residuals indices Hi) as (ms & -> & Hms).
  rewrite (Forall2_lookups_eq _ _ _ Hms). simpl.
  assert (∀ g, g ∈ ms → bucket_key g = key) as Hk.
  { intros g [n Hn]%list_elem_of_lookup. rewrite list.Forall_forall in Hall.
    destruct (Forall2_lookup_r _ _ _ _ _ Hms Hn) as (i & _ & Hl). apply Hall. by eapply list_elem_of_lookup_2. }
  destruct ms as [|g [|g' rest]]; [by inversion Hms; subst|by exists g|].
  eexists. split; [done|]. intros r Hp. 
  apply (partitions_change Q (foldl (λ g y, merge_group y g) g (g' :: rest))); [|done|intros x; apply Ht].
  apply partitions_merge; [done|done|]. intros x r0 r1 Hx _ _ H0 H1. eapply Hb; [exact H0|exact H1|].
  rewrite (Hk g), (Hk x); [done|by right|by left].
Qed.

Lemma residual_bucket_merges Q key bucket_groups opts :
  stable Q → bucketed Q → (∀ g r t c, Q g r → Q (set_template t c g) r) →
  Forall (λ g, bucket_key g = key) bucket_groups →
  ∃ news, residual_bucket bucket_groups opts = Some news ∧
    ∀ r, partitions Q bucket_groups r → partitions Q news r.
Proof.
  intros HQ Hb Ht Hall. unfold residual_bucket.
  set (merged := filter (λ g, 1 < count g) bucket_groups). set (residuals := filter (λ g, ¬ 1 < count g) bucket_groups).
  assert (merged ++ residuals ≡ₚ bucket_groups) as Hsplit by apply filter_app_complement.
  destruct (_ || _).
  { eexists. split; [done|]. intros r Hp. eapply partitions_perm; [symmetry; exact Hsplit|done|exact Hp]. }
  destruct (mine_total residuals _ _ (drain_config_inv opts (len residuals / 2))) as (cids & engine & -> & El). simpl.
  pose proof (group_entries_spec (λ i, default 0 (cids !! i)) (seq 0 (length residuals))) as [_ Hv _ Hc].
  set (m := group_entries _ _) in *. pose proof (traverse_permutation _ m) as Hperm.
  assert (Forall (λ g, bucket_key g = key) residuals) as Hres.
  { rewrite list.Forall_forall in *. intros g [_ Hg]%list_elem_of_filter. by apply Hall. }
  assert (∀ e, e ∈ traverse m → e.2 ≠ [] ∧ ∀ i, i ∈ e.2 → (i < length residuals)%nat) as He.
  { intros [k vs] Hin. rewrite Hperm in Hin. destruct (Hv _ _ Hin) as [-> Hne]. split; [done|].
    intros i [_ Hi]%list_elem_of_filter. apply elem_of_seq in Hi. lia. }
  assert (∃ clustered, mapM (λ e, cluster_group residuals engine e.1 e.2) (traverse m) = Some clustered ∧
    Forall2 (λ e g, ∀ r, partitions Q (pick residuals e.2) r → partitions Q [g] r) (traverse m) clustered)
    as (clustered & -> & Hcl).
  { clear Hperm Hc Hv. induction (traverse m) as [|e es IH]; [by exists []|].
    destruct (He e ltac:(by left)) as [Hne Hi].
    destruct (cluster_group_merges Q key residuals engine e.1 e.2 HQ Hb Ht Hres Hne Hi) as (g & Hg & Hpg).
    destruct IH as (gs & Hgs & Hf); [intros e' Hin; apply He; by right|]. exists (g :: gs).
    split; [simpl; rewrite Hg; simpl; by rewrite Hgs|by constructor]. }
  simpl. eexists. split; [done|]. intros r Hp.
  eapply partitions_perm in Hp; [|symmetry; exact Hsplit|done].
  apply partitions_app_inv in Hp as (r1 & r2 & Hp1 & Hp2 & Hr).
  apply (partitions_perm Q (merged ++ clustered) _ (r1 ++ r2)); [apply Permutation_app_comm|exact Hr|].
  apply partitions_app; [exact Hp1|].
  apply (partitions_stage1 Q residuals r2 ((λ e, pick residuals e.2) <$> traverse m)); [done| |].
  - trans (pick residuals (seq 0 (length residuals))); [|by rewrite pick_seq]. rewrite <- Hc, Hperm. by rewrite pick_concat, <- list_fmap_compose.
  - rewrite Forall2_fmap_l. eapply Forall2_impl; [|exact Hcl]. auto.
Qed.

Lemma dedup_residuals_partitions Q groups records opts :
  stable Q → bucketed Q → (∀ g r t c, Q g r → Q (set_template t c g) r) → partitions Q groups records →
  ∃ groups', dedup_residuals groups opts = Some groups' ∧ partitions Q groups' records.
Proof.
  intros HQ Hb Ht Hp. unfold dedup_residuals. pose proof (group_entries_spec bucket_key groups) as [_ Hv _ Hc].
  set (m := group_entries _ _) in *. pose proof (traverse_permutation _ m) as Hperm.
  assert (∃ news, mapM (λ e, residual_bucket e.2 opts) (traverse m) = Some news ∧
    Forall2 (λ e new, ∀ r, partitions Q e.2 r → partitions Q new r) (traverse m) news) as (news & -> & Hf).
  { assert (∀ e, e ∈ traverse m → Forall (λ g, bucket_key g = e.1) e.2) as He.
    { intros [k vs] Hin. rewrite Hperm in Hin. destruct (Hv _ _ Hin) as [-> _]. rewrite list.Forall_forall.
      by intros g [? _]%list_elem_of_filter. }
    clear Hperm Hc Hv. induction (traverse m) as [|e es IH]; [by exists []|].
    destruct (residual_bucket_merges Q e.1 e.2 opts HQ Hb Ht (He e ltac:(by left))) as (g & Hg & Hpg).
    destruct IH as (gs & Hgs & Hf); [intros e' Hin; apply He; by right|]. exists (g :: gs).
    split; [simpl; rewrite Hg; simpl; by rewrite Hgs|by constructor]. }
  eexists. split; [done|]. apply (partitions_stage Q groups records (traverse m).*2); [done|by rewrite Hperm|].
  rewrite Forall2_fmap_l. eapply Forall2_impl; [|exact Hf]. auto.
Qed.

(** ** Runs *)

(** The groups are consecutive stretches of the records. *)
Definition in_order (Q : DedupGroup → FlatRecord → Prop) (groups : list DedupGroup) (records : list FlatRecord) : Prop :=
  ∃ ps : list (DedupGroup * list FlatRecord),
    groups = ps.*1 ∧ Forall (λ p, represents Q p.1 p.2) ps ∧ concat ps.*2 = records.

Lemma in_order_partitions Q groups records : in_order Q groups records → partitions Q groups records.
Proof. intros (ps & ? & ? & <-). by exists ps. Qed.

Lemma in_order_snoc Q groups records g rs :
  in_order Q groups records → represents Q g rs → in_order Q (groups ++ [g]) (records ++ rs).
Proof.
  intros (ps & -> & Hf & <-) Hr. exists (ps ++ [(g, rs)]). rewrite !fmap_app, concat_app. simpl. rewrite app_nil_r.
  split_and!; [done| |done]. apply Forall_app. split; [done|]. constructor; [done|constructor].
Qed.

(** What [joins] must do for [Q] to hold of the runs. *)
Record run_rule (Q : DedupGroup → FlatRecord → Prop) (records : list FlatRecord) (opts : DedupOpts) : Prop := {
  rr_new : ∀ r c, r ∈ records →
    CollapseCandidate_from_record r (BucketKey_from_record r (opt_bucket_key opts)) (match_mode opts) = Some c →
    Q (into_group c) r;
  rr_join : ∀ g g' r0 r c, r0 ∈ records → r ∈ records → Q g r0 →
    CollapseCandidate_from_record r (BucketKey_from_record r (opt_bucket_key opts)) (match_mode opts) = Some c →
    joins g c opts = Some (Some g') → same_stats g g' ∧ Q g' r ∧ ∀ x, x ∈ records → Q g x → Q g' x;
}.

Lemma candidate_total r key mode :
  ∃ c, CollapseCandidate_from_record r key mode = Some c ∧ cc_record c = r ∧ cc_bucket_key c = key.
Proof.
  unfold CollapseCandidate_from_record.
  destruct (canonicalise_body_total (body r)) as [[c s] ->]. destruct mode; by eexists.
Qed.

Lemma joins_total g c opts : is_Some (joins g c opts).
Proof.
  unfold joins. destruct (negb _); [done|]. destruct (same_signature _ _); [done|]. destruct (match_mode opts); try done.
  unfold drain_matches.
  destruct (add_log_message_ok _ _ (match drain3_template g with
    | Some t => t | None => default (body (representative g)) (canonical_body g) end)
    (drain_config_inv (opt_drain opts) 4)) as (? & ? & e1 & -> & Hinv & _ & _). simpl.
  destruct (add_log_message_ok _ _ (default (body (cc_record c)) (cc_canonical_body c)) Hinv) as (? & b & e2 & -> & _). simpl.
  by destruct b.
Qed.

Lemma represents_into_group Q c : Q (into_group c) (cc_record c) → represents Q (into_group c) [cc_record c].
Proof.
  intros Hq. assert (represents (λ _ _, True) (DedupGroup_new (cc_bucket_key c) (cc_signature c) (cc_record c)) [cc_record c])
    as [Hh Hc Hf Hl _] by (by apply represents_new).
  split; try done. constructor; [done|constructor].
Qed.

Lemma collapse_loop_runs Q opts all records seen groups g rs :
  stable Q → run_rule Q all opts → (∀ x, x ∈ rs ++ records → x ∈ all) →
  in_order Q groups seen → represents Q g rs →
  ∃ out, collapse_loop records opts groups (Some g) = Some out ∧ in_order Q out (seen ++ rs ++ records).
Proof.
  intros HQ [Hnew Hjoin]. revert seen groups g rs.
  induction records as [|r records IH]; intros seen groups g rs Hall Ho Hr; cbn [collapse_loop].
  { exists (groups ++ [g]). split; [done|]. rewrite app_nil_r. by apply in_order_snoc. }
  destruct (candidate_total r (BucketKey_from_record r (opt_bucket_key opts)) (match_mode opts)) as (c & Hc & Ec & _).
  rewrite Hc. simpl. destruct (joins_total g c opts) as [j Hj]. rewrite Hj. simpl.
  assert (r ∈ all) as Hrall by (apply Hall; rewrite elem_of_app, elem_of_cons; tauto).
  destruct j as [g'|].
  - assert (list.head rs = Some (representative g) ∧ Q g (representative g)) as [Hh Hq0].
    { pose proof (rep_head _ _ _ Hr) as Hh. split; [done|]. pose proof (rep_members _ _ _ Hr) as Hm.
      destruct rs as [|x rs]; [done|]. injection Hh as ->. by apply Forall_cons_iff in Hm as [? _]. }
    destruct (Hjoin g g' (representative g) r c) as (Hs & Hqr & Hmono); try done.
    { apply Hall, elem_of_app. left. destruct rs; [done|]. injection Hh as ->. by left. }
    assert (represents Q g' rs) as Hr'.
    { eapply represents_stats; [exact Hr|done|]. rewrite !list.Forall_forall. intros Hm x Hx.
      apply Hmono; [apply Hall; rewrite elem_of_app; by left|by apply Hm]. }
    unfold merge_into_group. rewrite Ec. replace (rs ++ r :: records) with ((rs ++ [r]) ++ records) by (by rewrite <- app_assoc).
    apply IH; [|done|by apply represents_absorb]. intros x Hx. apply Hall. by rewrite <- app_assoc in Hx.
  - rewrite app_assoc. apply (IH (seen ++ rs) (groups ++ [g]) (into_group c) [r]).
    + intros x Hx. apply Hall. rewrite elem_of_app. right. exact Hx.
    + by apply in_order_snoc.
    + rewrite <- Ec. apply represents_into_group. rewrite Ec. by apply Hnew.
Qed.

Lemma collapse_dedup_runs Q opts records :
  stable Q → run_rule Q records opts →
  ∃ out, collapse_dedup records opts = Some out ∧ in_order Q out records.
Proof.
  intros HQ Hrule. unfold collapse_dedup. destruct records as [|r records]; [exists []; split; [done|by exists []]|].
  cbn [collapse_loop].
  destruct (candidate_total r (BucketKey_from_record r (opt_bucket_key opts)) (match_mode opts)) as (c & Hc & Ec & _).
  rewrite Hc. simpl.
  apply (collapse_loop_runs Q opts (r :: records) records [] [] (into_group c) [r]); [done|done|done|by exists []|].
  rewrite <- Ec. apply represents_into_group. rewrite Ec. apply (rr_new _ _ _ Hrule); [by left|done].
Qed.
End Stages.
