(* ===== verification/DedupTheorems.v ===== *)
(** * What deduplication promises

    In every mode the groups partition the records; [distinct] yields one group per
    form of the body, [collapse] the maximal runs of equal forms. *)

From S2P Require Import Prelude Text Tokens Drain Canon FlatRecord SampleCodec Dedup Groups DedupStages.

Section Promises.
Context {OP : OtlpParts} {RX : Regexes} {RL : RegexLaws} {JN : JsonNumbers} {JS : Json}.
Context {HO : HashOrder} {HL : HashOrderLaws} {XX : Xxh3}.

(** What is compared: the body, or its canonical form. *)
Definition match_form (mode : DedupMatchMode) (r : FlatRecord) : option text :=
  match mode with Exact => Some (body r) | _ => fst <$> canonicalise_body (body r) end.

(** Different forms of these records have different hashes. *)
Definition collision_free (mode : DedupMatchMode) (records : list FlatRecord) : Prop :=
  ∀ r r' c c', r ∈ records → r' ∈ records → match_form mode r = Some c → match_form mode r' = Some c' →
    xxh3_64 c = xxh3_64 c' → c = c'.

(** The bucket key that is in force. *)
Definition effective_kind (opts : DedupOpts) : BucketKeyKind :=
  match opt_mode opts with Distinct => GlobalKey | Collapse => opt_bucket_key opts end.

(** The members of a group are in its bucket, and have the form of its representative. *)
Definition in_bucket (kind : BucketKeyKind) (g : DedupGroup) (r : FlatRecord) : Prop :=
  BucketKey_from_record r kind = bucket_key g.
Definition same_form (kind : BucketKeyKind) (mode : DedupMatchMode) (g : DedupGroup) (r : FlatRecord) : Prop :=
  in_bucket kind g r ∧ match_form mode r = match_form mode (representative g).

(** No element equals the one before it. *)
Definition no_repeat {A} (l : list A) : Prop := ∀ i x, l !! i = Some x → l !! S i ≠ Some x.

Lemma in_bucket_stable kind : stable (in_bucket kind).
Proof. intros g r c f l ts ss Hq. exact Hq. Qed.
Lemma same_form_stable kind mode : stable (same_form kind mode).
Proof. intros g r c f l ts ss Hq. exact Hq. Qed.

Lemma partitions_impl (Q Q' : DedupGroup → FlatRecord → Prop) groups records :
  (∀ g r, Q g r → Q' g r) → partitions Q groups records → partitions Q' groups records.
Proof.
  intros HQ (ps & -> & Hf & Hp). exists ps. split_and!; [done| |done]. eapply Forall_impl; [|exact Hf].
  intros p [Hh Hc Hfs Hl Hm]. split; try done. eapply Forall_impl; [|exact Hm]. auto.
Qed.

(** *** In every mode *)

Lemma distinct_partitions records opts :
  opt_mode opts = Distinct →
  ∃ groups, dedup_groups records opts = Some groups ∧ partitions (in_bucket GlobalKey) groups records.
Proof.
  intros Hmode. unfold dedup_groups. rewrite Hmode. cbn [bucket_policy].
  destruct (exact_dedup_partitions (in_bucket GlobalKey) GlobalKey records (in_bucket_stable _)) as (g1 & -> & Hp1 & _); [done|].
  assert (∀ g1, partitions (in_bucket GlobalKey) g1 records →
    ∃ g2, canon_dedup g1 = Some g2 ∧ partitions (in_bucket GlobalKey) g2 records) as Hcanon.
  { clear g1 Hp1. intros g1 Hp1.
    destruct (canon_dedup_partitions (in_bucket GlobalKey) (in_bucket GlobalKey) g1 records) as (g2 & ? & ? & _);
      [apply in_bucket_stable|done|done|done| |by exists g2].
    unfold in_bucket. intros g g' r0 r1 _ _ H0 H1 Hb _. congruence. }
  destruct (match_mode opts); simpl; [by exists g1| |]; destruct (Hcanon g1 Hp1) as (g2 & -> & Hp2); simpl; [by exists g2|].
  apply dedup_residuals_partitions; [apply in_bucket_stable| |done|done].
  unfold bucketed, in_bucket. intros. congruence.
Qed.

Lemma joins_bucket g c opts g' : joins g c opts = Some (Some g') →
  bucket_key g = cc_bucket_key c ∧ bucket_key g' = bucket_key g ∧ same_stats g g'.
Proof.
  unfold joins. destruct (negb _) eqn:Eb; [done|]. apply negb_false_iff, bool_decide_eq_true in Eb.
  destruct (same_signature _ _); [by intros [= <-]|]. destruct (match_mode opts); try done.
  unfold drain_matches. destruct (add_log_message _ _) as [[[cid is_new] e1]|]; [|done]. simpl.
  destruct (add_log_message _ e1) as [[[cid' is_new'] e2]|]; [|done]. simpl. destruct is_new'; [done|].
  by intros [= <-].
Qed.

Lemma into_group_bucket r key mode c : CollapseCandidate_from_record r key mode = Some c →
  cc_bucket_key c = key ∧ cc_record c = r ∧ (∃ f, match_form mode r = Some f ∧ cc_signature c = xxh3_64 f).
Proof.
  unfold CollapseCandidate_from_record, match_form.
  destruct mode; [intros [= <-]; split_and!; [done|done|by eexists]| |];
    (destruct (canonicalise_body (body r)) as [[cb sh]|]; [|done]); simpl; intros [= <-]; split_and!; try done; by eexists.
Qed.

Lemma collapse_partitions records opts :
  ∃ groups, collapse_dedup records opts = Some groups ∧
    in_order (in_bucket (opt_bucket_key opts)) groups records.
Proof.
  apply collapse_dedup_runs; [apply in_bucket_stable|]. split.
  - intros r c _ (Hk & _)%into_group_bucket. unfold in_bucket. by rewrite <- Hk.
  - intros g g' r0 r c _ _ _ (Hk & _)%into_group_bucket (E1 & E2 & Hs)%joins_bucket. unfold in_bucket.
    split_and!; [done|congruence|intros; congruence].
Qed.

Lemma dedup_total_partitions records opts :
  ∃ groups, dedup_groups records opts = Some groups ∧ partitions (in_bucket (effective_kind opts)) groups records.
Proof.
  unfold effective_kind. destruct (opt_mode opts) eqn:Hmode; [by apply distinct_partitions|].
  destruct (collapse_partitions records opts) as (groups & Hg & Ho). exists groups. split.
  - unfold dedup_groups. by rewrite Hmode.
  - by apply in_order_partitions.
Qed.

(** C19: conservation.  In every mode and for every input, deduplication returns, and its
    groups partition the records: every record is counted in exactly one group, in
    whose bucket it is; the representative of a group is its first member, and the
    first and last times seen are the least and the greatest of its members. *)
Theorem dedup_partitions records opts :
  ∃ groups, dedup_groups records opts = Some groups ∧ partitions (in_bucket (effective_kind opts)) groups records.
Proof. apply dedup_total_partitions. Qed.

(** *** Distinct *)

(** Every group has a member. *)
Lemma partitions_groups Q groups records (P : DedupGroup → Prop) :
  partitions Q groups records → (∀ g r, r ∈ records → Q g r → P g) → Forall P groups.
Proof.
  intros (ps & -> & Hf & Hp) HP. rewrite Forall_fmap, !list.Forall_forall in *. intros [g rs] Hin.
  pose proof (Hf _ Hin) as Hr. simpl in Hr. destruct rs as [|r rs]; [by pose proof (rep_head _ _ _ Hr)|].
  pose proof (rep_members _ _ _ Hr) as [Hq _]%Forall_cons_iff. apply (HP g r); [|done].
  eapply elem_of_concat_part; [exact Hp| |by left]. apply list_elem_of_fmap. by exists (g, r :: rs).
Qed.

(** The groups of distinct identities have distinct forms. *)
Lemma distinct_forms mode groups :
  Forall (λ g, bucket_key g = mkBucketKey [] 0 None None None) groups →
  Forall (λ g, signature g = xxh3_64 (default [] (match_form mode (representative g)))) groups →
  NoDup (group_id <$> groups) → NoDup (match_form mode ∘ representative <$> groups).
Proof.
  intros Hk Hs Hnd.
  apply (NoDup_fmap_1 (λ f : option text, (mkBucketKey [] 0 None None None, xxh3_64 (default [] f)))).
  rewrite <- list_fmap_compose. replace (_ <$> groups) with (group_id <$> groups); [done|].
  apply list_fmap_ext. intros i g Hg. apply list_elem_of_lookup_2 in Hg. rewrite list.Forall_forall in Hk, Hs.
  unfold group_id, compose. simpl. by rewrite (Hk g Hg), (Hs g Hg).
Qed.

Definition exact_member (g : DedupGroup) (r : FlatRecord) : Prop :=
  same_form GlobalKey Exact g r ∧ signature g = xxh3_64 (body (representative g)).

Lemma exact_stage records :
  collision_free Exact records →
  ∃ groups, exact_dedup (bucket_group records GlobalKey) = Some groups ∧ partitions exact_member groups records ∧
    NoDup (group_id <$> groups).
Proof.
  intros Hcf. apply exact_dedup_partitions.
  - intros g r c f l ts ss Hq. exact Hq.
  - intros r r' Hr Hr' Hk Hh. split; [|done]. split; [by symmetry|]. simpl. f_equal. symmetry. by apply (Hcf r r').
Qed.

Definition canon_member (g : DedupGroup) (r : FlatRecord) : Prop :=
  same_form GlobalKey Hash2 g r ∧ is_Some (canonical_body g) ∧ canonical_body g = match_form Hash2 (representative g).

Lemma canon_stage groups records :
  collision_free Hash2 records → partitions exact_member groups records →
  ∃ groups', canon_dedup groups = Some groups' ∧ partitions canon_member groups' records ∧
    NoDup (group_id <$> groups') ∧ Forall (λ g, signature g = xxh3_64 (default [] (canonical_body g))) groups'.
Proof.
  intros Hcf Hp. apply (canon_dedup_partitions exact_member); [| | |done|].
  - intros g r c f l ts ss Hq. exact Hq.
  - exact Hp.
  - intros g r c s _ [[Hb Hf] _] Hc. unfold canon_member, same_form, match_form. simpl.
    injection Hf as ->. rewrite Hc. simpl. split_and!; try done.
  - intros g g' r0 r1 Hr0 Hr1 [[Hb0 Hf0] [[c Hc] E]] [[Hb1 Hf1] [[c' Hc'] E']] Hk Hh.
    split; [|by split]. split; [by unfold in_bucket in *; congruence|].
    rewrite Hc, Hc' in *. simpl in Hh. rewrite Hf1, <- E', <- E. f_equal. symmetry.
    eapply (Hcf r0 r1); congruence.
Qed.

(** C20: [distinct].  When the hashes of the bodies, and of their canonical forms, do not
    collide, [distinct] yields exactly one group per body ([exact]) or per canonical
    form ([canon]): the representatives have pairwise different forms, and the members
    of a group are the records with the form of its representative. *)
Theorem distinct_one_group_per_form records opts :
  opt_mode opts = Distinct → match_mode opts ≠ Full → collision_free Exact records →
  collision_free (match_mode opts) records →
  ∃ groups, dedup_groups records opts = Some groups ∧
    partitions (same_form GlobalKey (match_mode opts)) groups records ∧
    NoDup (match_form (match_mode opts) ∘ representative <$> groups).
Proof.
  intros Hmode Hfull Hce Hcm. unfold dedup_groups. rewrite Hmode. cbn [bucket_policy].
  destruct (exact_stage records Hce) as (g1 & -> & Hp1 & Hn1). destruct (match_mode opts); [| |done]; simpl.
  - exists g1. split_and!; [done|by eapply partitions_impl; [|exact Hp1]; intros g r []|].
    apply distinct_forms; [| |done]; (eapply partitions_groups; [exact Hp1|]).
    + by intros g r _ [[<- _] _].
    + by intros g r _ [_ ?].
  - destruct (canon_stage g1 records Hcm Hp1) as (g2 & -> & Hp2 & Hn2 & Hs2). simpl. exists g2.
    split_and!; [done|by eapply partitions_impl; [|exact Hp2]; intros g r []|].
    assert (Forall (λ g, canonical_body g = match_form Hash2 (representative g)) g2) as Hc.
    { eapply partitions_groups; [exact Hp2|]. by intros g r _ [_ [_ ?]]. }
    apply distinct_forms; [|rewrite list.Forall_forall in *; intros g Hg; by rewrite <- (Hc g Hg); apply Hs2|done].
    eapply partitions_groups; [exact Hp2|]. by intros g r _ [[<- _] _].
Qed.

(** *** Collapse *)

(** What the members of a run share, when hashes do not collide. *)
Definition run_member (kind : BucketKeyKind) (mode : DedupMatchMode) (g : DedupGroup) (r : FlatRecord) : Prop :=
  same_form kind mode g r ∧ ∃ f, match_form mode (representative g) = Some f ∧ signature g = xxh3_64 f.

Lemma joins_same g c opts g' :
  match_mode opts ≠ Full → joins g c opts = Some (Some g') →
  g' = g ∧ bucket_key g = cc_bucket_key c ∧ signature g = cc_signature c.
Proof.
  unfold joins, same_signature. intros Hfull. destruct (negb _) eqn:Eb; [done|].
  apply negb_false_iff, bool_decide_eq_true in Eb. destruct (Z.eqb_spec (signature g) (cc_signature c)); [by intros [= <-]|].
  by destruct (match_mode opts).
Qed.

Lemma joins_not g c opts :
  match_mode opts ≠ Full → joins g c opts = Some None → group_id g ≠ (cc_bucket_key c, cc_signature c).
Proof.
  unfold joins, same_signature, group_id. intros Hfull. destruct (negb _) eqn:Eb.
  - apply negb_true_iff, bool_decide_eq_false in Eb. congruence.
  - destruct (Z.eqb_spec (signature g) (cc_signature c)); congruence.
Qed.

Lemma run_rule_forms records opts :
  match_mode opts ≠ Full → collision_free (match_mode opts) records →
  run_rule (run_member (opt_bucket_key opts) (match_mode opts)) records opts.
Proof.
  intros Hfull Hcf. split.
  - intros r c _ (Hk & Er & f & Hf & Hs)%into_group_bucket. split; [split; unfold in_bucket; simpl; congruence|].
    exists f. simpl. by rewrite Er.
  - intros g g' r0 r c Hr0 Hr [[Hb0 Hf0] (f0 & Hrep & Hs0)] (Hk & Er & f & Hf & Hs)%into_group_bucket
      (-> & Eb & Es)%joins_same; [|done].
    split_and!; [done| |done]. split; [|by exists f0]. split; [unfold in_bucket; congruence|]. rewrite Hf, Hrep. f_equal.
    rewrite Hrep in Hf0. symmetry. eapply (Hcf r0 r); [done|done|done|done|congruence].
Qed.

Lemma no_repeat_snoc {A} (l : list A) x y : no_repeat (l ++ [x]) → x ≠ y → no_repeat ((l ++ [x]) ++ [y]).
Proof.
  intros Hl Hxy i z Hi Hs. apply lookup_app_Some in Hi as [Hi|[Hle Hi]].
  - apply lookup_app_Some in Hs as [Hs|[Hle [Hz <-]%list_lookup_singleton_Some]]; [exact (Hl _ _ Hi Hs)|].
    rewrite length_app in *. simpl in *. apply lookup_app_Some in Hi as [Hi%lookup_lt_Some|[_ Hi]]; [lia|].
    apply list_lookup_singleton_Some in Hi as [_ ?]. congruence.
  - apply list_lookup_singleton_Some in Hi as [Hz _]. rewrite length_app in *. simpl in *.
    apply lookup_lt_Some in Hs. rewrite !length_app in Hs. simpl in Hs. lia.
Qed.

Lemma collapse_loop_no_repeat opts records groups g out :
  match_mode opts ≠ Full → no_repeat (group_id <$> groups ++ [g]) →
  collapse_loop records opts groups (Some g) = Some out → no_repeat (group_id <$> out).
Proof.
  intros Hfull. revert groups g. induction records as [|r records IH]; intros groups g Hn; cbn [collapse_loop].
  { by intros [= <-]. }
  destruct (CollapseCandidate_from_record _ _ _) as [c|]; [|done]. simpl.
  destruct (joins g c opts) as [[g'|]|] eqn:Ej; [| |done]; simpl.
  - apply joins_same in Ej as (-> & _); [|done]. apply IH. by rewrite fmap_app in *.
  - apply joins_not in Ej; [|done]. apply IH. rewrite !fmap_app in *. by apply no_repeat_snoc.
Qed.

(** [collapse].  When the hashes do not collide, [collapse] cuts the records, in
    their order, into the maximal runs of records of one bucket and one form: the
    groups are consecutive stretches, the members of each have the form of its
    representative, and neighbouring groups differ in bucket or form. *)
Theorem collapse_maximal_runs records opts :
  opt_mode opts = Collapse → match_mode opts ≠ Full → collision_free (match_mode opts) records →
  ∃ groups, dedup_groups records opts = Some groups ∧
    in_order (same_form (opt_bucket_key opts) (match_mode opts)) groups records ∧
    no_repeat ((λ g, (bucket_key g, match_form (match_mode opts) (representative g))) <$> groups).
Proof.
  intros Hmode Hfull Hcf. unfold dedup_groups. rewrite Hmode.
  destruct (collapse_dedup_runs (run_member (opt_bucket_key opts) (match_mode opts)) opts records) as (groups & Hg & Ho);
    [|by apply run_rule_forms|]; [intros g r c f l ts ss Hq; exact Hq|].
  exists groups. split; [done|].
  assert (Forall (λ g, signature g = xxh3_64 (default [] (match_form (match_mode opts) (representative g)))) groups) as Hs.
  { eapply partitions_groups; [by apply in_order_partitions|]. intros g r _ [_ (f & Hf & ->)]. by rewrite Hf. }
  split.
  - destruct Ho as (ps & -> & Hf & Hc). exists ps. split_and!; [done| |done]. eapply Forall_impl; [|exact Hf].
    intros p [Hh Hn Hfs Hl Hm]. split; try done. eapply Forall_impl; [|exact Hm]. by intros r [].
  - assert (no_repeat (group_id <$> groups)) as Hn.
    { unfold collapse_dedup in Hg. destruct records as [|r records]; [by injection Hg as <-|]. cbn [collapse_loop] in Hg.
      destruct (CollapseCandidate_from_record _ _ _) as [c|]; [|done]. simpl in Hg.
      eapply collapse_loop_no_repeat; [done| |exact Hg]. intros [|i] x; simpl; congruence. }
    intros i x. rewrite !list_lookup_fmap. intros (g & Hgi & ->)%fmap_Some (g' & Hgi' & E)%fmap_Some.
    apply (Hn i (group_id g)); rewrite list_lookup_fmap; [by rewrite Hgi|]. rewrite Hgi'. simpl. f_equal.
    rewrite list.Forall_forall in Hs. injection E as E1 E2. unfold group_id.
    rewrite (Hs g), (Hs g') by (by eapply list_elem_of_lookup_2). congruence.
Qed.
End Promises.

(** ** They apply *)

(** The number the bytes write in base 256: it has no collisions. *)
Definition sample_hash : Xxh3 := {| xxh3_64 := foldl (λ h b, 256 * h + b + 1) 0 |}.

Section Witness.
#[local] Existing Instances sample_parts sample_regexes sample_regex_laws sample_numbers sample_json insertion_order
  insertion_order_laws sample_hash.

Definition sample_record (service : string) (time : Z) (text : string) : FlatRecord :=
  mkFlatRecord (str service) 9 (str "INFO") [] [] None None [1; 2] [3] time 0 (str text) [] [] [].
Definition sample_records : list FlatRecord :=
  [sample_record "api" 30 "took 1234 ms"; sample_record "api" 10 "took 98765 ms"; sample_record "db" 20 "took 555 ms";
   sample_record "api" 40 "took 7777 ms"; sample_record "api" 50 "stopped"].
Definition sample_opts (mode : DedupMode) : DedupOpts := mkDedupOpts mode Hash2 DefaultKey DrainOpts_default.

Lemma collision_free_check mode records :
  let forms := omap (match_form mode) records in
  bool_decide (Forall (λ c, Forall (λ c', xxh3_64 c = xxh3_64 c' → c = c') forms) forms) = true →
  collision_free mode records.
Proof.
  intros forms Hf%bool_decide_eq_true r r' c c' Hr Hr' Hc Hc'. rewrite list.Forall_forall in Hf.
  assert (c ∈ forms) as H%Hf by (apply list_elem_of_omap; eauto). rewrite list.Forall_forall in H.
  apply H. apply list_elem_of_omap. eauto.
Qed.

Lemma sample_collision_free mode : mode ≠ Full → collision_free mode sample_records.
Proof. intros Hm. apply collision_free_check. by destruct mode; [vm_compute|vm_compute|]. Qed.

Lemma dedup_partitions_witness :
  ∃ groups, dedup_groups sample_records (sample_opts Distinct) = Some groups ∧
    partitions (in_bucket (effective_kind (sample_opts Distinct))) groups sample_records.
Proof. apply (dedup_partitions sample_records (sample_opts Distinct)). Defined.

Lemma distinct_one_group_per_form_witness :
  ∃ groups, dedup_groups sample_records (sample_opts Distinct) = Some groups ∧
    partitions (same_form GlobalKey Hash2) groups sample_records ∧ NoDup (match_form Hash2 ∘ representative <$> groups).
Proof.
  apply (distinct_one_group_per_form sample_records (sample_opts Distinct)); [done|done| |]; by apply sample_collision_free.
Defined.

Lemma collapse_maximal_runs_witness :
  ∃ groups, dedup_groups sample_records (sample_opts Collapse) = Some groups ∧
    in_order (same_form DefaultKey Hash2) groups sample_records ∧
    no_repeat ((λ g, (bucket_key g, match_form Hash2 (representative g))) <$> groups).
Proof. apply (collapse_maximal_runs sample_records (sample_opts Collapse)); [done|done|]. by apply sample_collision_free. Defined.

Definition group_summary (groups : list DedupGroup) : list (Z * Z * Z) :=
  (λ g, (count g, first_seen_ns g, last_seen_ns g)) <$> groups.

(** Two groups over the whole selection; four runs. *)
Example sample_groups :
  group_summary <$> dedup_groups sample_records (sample_opts Distinct) = Some [(4, 10, 40); (1, 50, 50)] ∧
  group_summary <$> dedup_groups sample_records (sample_opts Collapse) =
    Some [(2, 10, 30); (1, 20, 20); (1, 40, 40); (1, 50, 50)].
Proof. split; vm_compute; reflexivity. Qed.
End Witness.
