(* ===== verification/Emit.v ===== *)
(** * Writing deduplicated logs

    [ljx/src/dedup/emit.rs], the end of [dedup/mod.rs] and [commands/dedup.rs]: every
    group becomes one OTLP log record with its statistics as attributes, and the
    groups and the records that were passed through are written in the order of time. *)

From S2P Require Import Prelude Text Tokens Format Writer Reader RecordLoop Otlp Drain Canon FlatRecord Dedup.

(** [slice::sort_by_key]: a stable sort. *)
Fixpoint insert_by {A} (key : A → Z) (x : A) (l : list A) : list A :=
  match l with
  | [] => [x]
  | y :: l => if key x <? key y then x :: y :: l else y :: insert_by key x l
  end.
Definition sort_by_key {A} (key : A → Z) (l : list A) : list A := foldl (λ acc x, insert_by key x acc) [] l.

(** [x as i64] of a [u64]. *)
Definition as_i64 (z : Z) : Z := if z <? 2 ^ 63 then z else z - 2 ^ 64.

Section Emit.
Context {OP : OtlpParts} {RX : Regexes} {JN : JsonNumbers} {JS : Json} {HO : HashOrder} {XX : Xxh3}.
Context {LC : LogsCodec}.

(** ** Attributes *)

Definition push_attr_str (key val : text) (attrs : list KeyValue) : list KeyValue :=
  attrs ++ [mkKeyValue key (Some (mkAnyValue (Some (StringValue val)))) key_value_rest_default].
Definition push_attr_i64 (key : text) (val : Z) (attrs : list KeyValue) : list KeyValue :=
  attrs ++ [mkKeyValue key (Some (mkAnyValue (Some (IntValue val)))) key_value_rest_default].

Record DedupMetadata : Type := mkMetadata {
  effective_mode : text;
  behaviour : text;
  matcher : text;
  md_scope : text;
  md_window : text;
}.

Definition dedup_metadata (mode_label : text) (used_drain3 : bool) : DedupMetadata :=
  let '(behaviour, base_matcher) := default (mode_label, str "exact") (split_once 47 mode_label) in
  let matcher := if used_drain3 && bool_decide (base_matcher = str "full") then str "drain3" else
                 if bool_decide (base_matcher = str "full") then str "canon" else base_matcher in
  {| effective_mode := behaviour ++ [47] ++ matcher;
     behaviour := behaviour;
     matcher := matcher;
     md_scope := if bool_decide (behaviour = str "distinct") then str "global" else
                 if bool_decide (behaviour = str "collapse") then str "bucketed" else str "unknown";
     md_window := if bool_decide (behaviour = str "distinct") then str "whole-selection" else
                  if bool_decide (behaviour = str "collapse") then str "consecutive-run" else str "unknown" |}.

(** The attributes that are added, in order. *)
Definition dedup_attrs (group : DedupGroup) (mode_label : text) (attrs : list KeyValue) : list KeyValue :=
  let meta := dedup_metadata mode_label (bool_decide (is_Some (drain3_template group))) in
  let attrs := push_attr_i64 (str "dedup.count") (as_i64 (count group)) attrs in
  let attrs := push_attr_str (str "dedup.mode") (effective_mode meta) attrs in
  let attrs := push_attr_str (str "dedup.behaviour") (behaviour meta) attrs in
  let attrs := push_attr_str (str "dedup.matcher") (matcher meta) attrs in
  let attrs := push_attr_str (str "dedup.scope") (md_scope meta) attrs in
  let attrs := push_attr_str (str "dedup.window") (md_window meta) attrs in
  let attrs := push_attr_str (str "dedup.signature") (str (show_hex_digits 16 (signature group) EmptyString)) attrs in
  let attrs := push_attr_i64 (str "dedup.first_seen_ns") (as_i64 (first_seen_ns group)) attrs in
  let attrs := push_attr_i64 (str "dedup.last_seen_ns") (as_i64 (last_seen_ns group)) attrs in
  let attrs := push_attr_i64 (str "dedup.time_span_ms")
                 (as_i64 (saturating_sub (last_seen_ns group) (first_seen_ns group) / 1000000)) attrs in
  let attrs := push_attr_str (str "dedup.exemplar_trace_ids") (join [44] (exemplar_trace_ids group)) attrs in
  let attrs := push_attr_str (str "dedup.exemplar_span_ids") (join [44] (exemplar_span_ids group)) attrs in
  let attrs := match canonical_body group with
    | Some canon => push_attr_str (str "dedup.canonical_body") canon attrs | None => attrs end in
  let attrs := match body_shape group with
    | Some shape => push_attr_str (str "dedup.body_shape") shape attrs | None => attrs end in
  let attrs := match drain3_template group with
    | Some template => push_attr_str (str "dedup.drain3_template") template attrs | None => attrs end in
  match drain3_cluster_id group with
  | Some cid => push_attr_i64 (str "dedup.drain3_cluster_id") cid attrs | None => attrs end.

(** ** Payloads *)

Definition group_batch (group : DedupGroup) (mode_label : text) : ExportLogsServiceRequest :=
  let rep := representative group in
  let lr := {|
    lr_time_unix_nano := first_seen_ns group;
    lr_observed_time_unix_nano := last_seen_ns group;
    lr_severity_number := severity_number rep;
    lr_severity_text := severity_text rep;
    lr_body := Some (mkAnyValue (Some (StringValue (body rep))));
    lr_attributes := dedup_attrs group mode_label (record_attrs rep);
    lr_dropped_attributes_count := 0;
    lr_flags := 0;
    lr_trace_id := trace_id rep;
    lr_span_id := span_id rep;
    lr_event_name := event_name rep |} in
  mkLogsRequest [mkResourceLogs (Some (mkResource (resource_attrs rep) 0 []))
    [mkScopeLogs (Some (mkInstrumentationScope (scope_name rep) [] (scope_attrs rep) 0)) [lr] []] []].

Definition build_otlp_payload (group : DedupGroup) (mode_label : text) : list Z :=
  encode_logs (group_batch group mode_label).

(** ** Writing *)

Record DedupStats : Type := mkStats { total_records : Z; group_count : Z }.

(** What is pushed: the sorted records with fresh sequence numbers. *)
Definition emit_records (groups : list DedupGroup) (passthrough : list OwnedRecord) (mode_label : text) : list OwnedRecord :=
  let tuples := ((λ g, (first_seen_ns g, Logs, build_otlp_payload g mode_label)) <$> groups) ++
                ((λ r, (ts_unix_ns r, record_type r, payload r)) <$> passthrough) in
  imap (λ seq '(ts, rt, payload), mkRecord rt (Z.of_nat seq) ts payload) (sort_by_key (λ t, t.1.1) tuples).

Context {EX : Externals} {W : Type} {WW : Write W}.

Definition emit_write (groups : list DedupGroup) (passthrough : list OwnedRecord) (mode_label : text)
    : M (LogjetWriter W) Error DedupStats :=
  let total_records := foldr Z.add 0 (count <$> groups) in
  let group_count := len groups in
  push_all (emit_records groups passthrough mode_label) ;;!
  ret (mkStats total_records group_count).

Definition mode_label (opts : DedupOpts) : text :=
  match opt_mode opts, match_mode opts with
  | Distinct, Exact => str "distinct/exact"
  | Distinct, Hash2 => str "distinct/canon"
  | Distinct, Full => str "distinct/full"
  | Collapse, Exact => str "collapse/exact"
  | Collapse, Hash2 => str "collapse/canon"
  | Collapse, Full => str "collapse/full"
  end.

(** [dedup]; [None] is a panic. *)
Definition dedup (records : list FlatRecord) (passthrough : list OwnedRecord) (output : LogjetWriter W) (opts : DedupOpts)
    : option (result Error DedupStats * LogjetWriter W) :=
  groups ← dedup_groups records opts;
  Some (emit_write groups passthrough (mode_label opts) output).

(** The command, from the reader on the input to the sink of the output. *)
Definition run (reader : LogjetReader) (sink : W) (opts : DedupOpts) : option (result Error (DedupStats * W)) :=
  '(unpacked, _) ← unpack reader;
  match unpacked with
  | Err e => Some (Err e)
  | Ok unpacked =>
      '(stats, writer) ← dedup (records unpacked) (passthrough unpacked) (new sink) opts;
      match stats with
      | Err e => Some (Err e)
      | Ok stats =>
          match into_inner writer with
          | Err e => Some (Err e)
          | Ok out => Some (Ok (stats, out))
          end
      end
  end.
End Emit.

(** ** The options of the command *)

Inductive UsageError : Type := UnknownBucketBy (value : text).

Definition parse_bucket_by (bucket_by : option text) : result UsageError BucketKeyKind :=
  match bucket_by with
  | None => Ok DefaultKey
  | Some val =>
      let parts := trim_text <$> split_on 44 val in
      let has_scope := bool_decide (str "scope" ∈ parts) in
      let has_source := bool_decide (str "source_line" ∈ parts) in
      match list.head (filter (λ p, p ≠ str "scope" ∧ p ≠ str "source_line") parts) with
      | Some p => Err (UnknownBucketBy p)
      | None => Ok (if has_scope then (if has_source then ScopeAndSourceLine else ScopeKey)
                    else if has_source then SourceLine else DefaultKey)
      end
  end.
