(* ===== verification/EmitTheorems.v ===== *)
(** * The deduplicated file

    The command composed with the container: what it writes can be read back, in the
    order of time, and unpacks into one record per group. *)

From stdpp Require Import sorting.
From S2P Require Import Prelude Text Tokens Format Varint Writer Reader Scan Container RecordLoop Instances Otlp Drain Canon FlatRecord SampleCodec Dedup Groups DedupStages DedupTheorems Emit.

(** ** Sorting *)

Section Sort.
Context {A : Type} (key : A → Z).

Lemma insert_by_permutation x l : insert_by key x l ≡ₚ x :: l.
Proof.
  induction l as [|y l IH]; [done|]. cbn [insert_by]. destruct (_ <? _); [done|]. rewrite IH. apply Permutation_swap.
Qed.

Lemma insert_by_sorted x l :
  StronglySorted (λ a b, key a ≤ key b) l → StronglySorted (λ a b, key a ≤ key b) (insert_by key x l).
Proof.
  induction 1 as [|y l Hs IH Hy]; cbn [insert_by]; [by repeat constructor|].
  destruct (Z.ltb_spec (key x) (key y)).
  - constructor; [by constructor|]. constructor; [lia|]. eapply Forall_impl; [|exact Hy]. simpl. intros. lia.
  - constructor; [done|]. rewrite insert_by_permutation. by constructor.
Qed.

Lemma sort_by_key_permutation l : sort_by_key key l ≡ₚ l.
Proof.
  unfold sort_by_key. induction l as [|x l IH] using rev_ind; [done|]. rewrite foldl_app. simpl.
  rewrite insert_by_permutation, IH. by rewrite Permutation_app_comm.
Qed.

Lemma sort_by_key_sorted l : StronglySorted (λ a b, key a ≤ key b) (sort_by_key key l).
Proof.
  unfold sort_by_key. induction l as [|x l IH] using rev_ind; [constructor|]. rewrite foldl_app. simpl.
  by apply insert_by_sorted.
Qed.
End Sort.

Section EmitFacts.
Context {OP : OtlpParts} {RX : Regexes} {RL : RegexLaws} {JN : JsonNumbers} {JS : Json}.
Context {HO : HashOrder} {HL : HashOrderLaws} {XX : Xxh3} {LC : LogsCodec}.

(** ** What is emitted *)

(** Everything but the sequence number. *)
Definition content (r : OwnedRecord) : Z * RecordType * list Z := (ts_unix_ns r, record_type r, payload r).

(** The tuples, numbered from [n]. *)
Fixpoint numbered (n : nat) (l : list (Z * RecordType * list Z)) : list OwnedRecord :=
  match l with
  | [] => []
  | (ts, rt, payload) :: l => mkRecord rt (Z.of_nat n) ts payload :: numbered (S n) l
  end.

Definition emit_tuples (groups : list DedupGroup) (passthrough : list OwnedRecord) (label : text)
    : list (Z * RecordType * list Z) :=
  ((λ g, (first_seen_ns g, Logs, build_otlp_payload g label)) <$> groups) ++ (content <$> passthrough).

Lemma emit_records_numbered groups passthrough label :
  emit_records groups passthrough label = numbered 0 (sort_by_key (λ t, t.1.1) (emit_tuples groups passthrough label)).
Proof.
  unfold emit_records. fold content. change (((λ g, _) <$> groups) ++ _) with (emit_tuples groups passthrough label).
  generalize (sort_by_key (λ t : Z * RecordType * list Z, t.1.1) (emit_tuples groups passthrough label)). intros l.
  trans (imap (λ i '(ts, rt, payload), mkRecord rt (Z.of_nat (0 + i)) ts payload) l); [done|]. generalize 0%nat as n.
  induction l as [|[[ts rt] p] l IH]; intros n; [done|]. rewrite imap_cons. cbn [numbered]. rewrite Nat.add_0_r. f_equal.
  rewrite <- IH. apply imap_ext. intros i [[ts' rt'] p'] _. simpl. by rewrite Nat.add_succ_r.
Qed.

Lemma content_numbered n l : content <$> numbered n l = l.
Proof.
  revert n. induction l as [|[[ts rt] p] l IH]; intros n; [done|]. cbn [numbered]. rewrite fmap_cons, IH. done.
Qed.

Lemma numbered_seqs n l i r : numbered n l !! i = Some r → seq r = Z.of_nat (n + i).
Proof.
  revert n i. induction l as [|[[ts rt] p] l IH]; intros n [|i]; try done; cbn [numbered].
  - intros [= <-]. simpl. f_equal. lia.
  - intros ->%IH. f_equal. lia.
Qed.

Lemma length_numbered n l : length (numbered n l) = length l.
Proof. rewrite <- (content_numbered n l) at 2. by rewrite length_fmap. Qed.

Lemma numbered_sorted n l :
  StronglySorted (λ a b, a.1.1 ≤ b.1.1) l → StronglySorted no_earlier (numbered n l).
Proof.
  intros Hs. revert n. induction Hs as [|[[ts rt] p] l Hs IH Hl]; intros n; [constructor|]. cbn [numbered].
  constructor; [apply IH|]. apply list.Forall_forall. intros r [i Hi]%list_elem_of_lookup. split.
  - rewrite (numbered_seqs _ _ _ _ Hi). simpl. lia.
  - assert (content r ∈ l) as Hin.
    { rewrite <- (content_numbered (S n) l). apply list_elem_of_fmap. exists r. split; [done|]. by eapply list_elem_of_lookup_2. }
    exact (proj1 (list.Forall_forall _ _) Hl _ Hin).
Qed.

Lemma emit_contents groups passthrough label :
  content <$> emit_records groups passthrough label ≡ₚ emit_tuples groups passthrough label.
Proof. rewrite emit_records_numbered, content_numbered. apply sort_by_key_permutation. Qed.

Lemma emit_sorted groups passthrough label : StronglySorted no_earlier (emit_records groups passthrough label).
Proof. rewrite emit_records_numbered. apply numbered_sorted, sort_by_key_sorted. Qed.

(** ** Unpacking *)

Definition batch_of (r : OwnedRecord) : option ExportLogsServiceRequest :=
  if decide (record_type r = Logs) then match decode_logs (payload r) with Ok b => Some b | Err _ => None end else None.

(** The log entries of the records that decode, and the records that do not. *)
Definition unpacked (rs : list OwnedRecord) : UnpackResult :=
  mkUnpackResult (concat ((λ b, flatten_batch b []) <$> omap batch_of rs)) (filter (λ r, batch_of r = None) rs).

Lemma foldl_snoc_fmap {A B} (f : A → B) (l : list A) out : foldl (λ out a, out ++ [f a]) out l = out ++ (f <$> l).
Proof.
  revert out. induction l as [|a l IH]; intros out; simpl; [by rewrite app_nil_r|]. by rewrite IH, <- app_assoc.
Qed.

Lemma foldl_append {A B} (f : list B → A → list B) (l : list A) out :
  (∀ out a, f out a = out ++ f [] a) → foldl f out l = out ++ foldl f [] l.
Proof.
  intros Hf. revert out. induction l as [|a l IH]; intros out; simpl; [by rewrite app_nil_r|].
  rewrite IH, (IH (f [] a)), Hf. by rewrite <- app_assoc.
Qed.

Lemma flatten_batch_app batch out : flatten_batch batch out = out ++ flatten_batch batch [].
Proof.
  unfold flatten_batch. apply foldl_append. intros out1 rl. apply foldl_append. intros out2 sl.
  by rewrite !foldl_snoc_fmap.
Qed.

Lemma unpack_fold acc rs :
  fold_until unpack_body acc rs =
    (mkUnpackResult (records acc ++ records (unpacked rs)) (passthrough acc ++ passthrough (unpacked rs)), true).
Proof.
  revert acc. induction rs as [|r rs IH]; intros acc; cbn [fold_until].
  { unfold unpacked. simpl. rewrite !app_nil_r. by destruct acc. }
  assert (unpack_body acc r = (mkUnpackResult (records acc ++ records (unpacked [r])) (passthrough acc ++ passthrough (unpacked [r])), true))
    as ->.
  { unfold unpack_body, unpacked, batch_of. simpl. destruct (decide (record_type r = Logs)).
    - rewrite bool_decide_eq_true_2 by done. simpl. destruct (decode_logs (payload r)) as [b|err] eqn:E; simpl.
      + rewrite filter_cons_False; [|by destruct (decide _); rewrite ?E]. rewrite filter_nil, !app_nil_r. by rewrite flatten_batch_app.
      + rewrite filter_cons_True; [|by destruct (decide _); rewrite ?E]. by rewrite filter_nil, app_nil_r.
    - rewrite bool_decide_eq_false_2 by done. simpl. rewrite filter_cons_True; [|by rewrite decide_False]. by rewrite filter_nil, app_nil_r. }
  rewrite IH. cbn [records passthrough]. rewrite <- !app_assoc. f_equal. unfold unpacked. cbn [records passthrough].
  rewrite <- concat_app, <- fmap_app, <- omap_app, <- list.filter_app. done.
Qed.

(** ** What a group unpacks to *)

(** A record as unpacking makes it. *)
Definition well_flat (r : FlatRecord) : Prop :=
  service_name r = service_name_of (Some (mkResource (resource_attrs r) 0 [])) ∧
  (code_filepath r, code_lineno r) = extract_source_location (record_attrs r).

Lemma flat_record_well_flat res scope lr :
  well_flat (flat_record (service_name_of res) (default [] (resource_attributes <$> res)) scope lr).
Proof.
  unfold well_flat, flat_record. destruct (extract_source_location (lr_attributes lr)) eqn:E. simpl. rewrite E.
  split; [|done]. by destruct res.
Qed.

Lemma Forall_foldl {A B} (P : B → Prop) (f : list B → A → list B) l out :
  (∀ out a, Forall P out → Forall P (f out a)) → Forall P out → Forall P (foldl f out l).
Proof. intros Hf. revert out. induction l as [|a l IH]; intros out Ho; simpl; [done|]. apply IH. by apply Hf. Qed.

Lemma flatten_batch_well_flat b : Forall well_flat (flatten_batch b []).
Proof.
  unfold flatten_batch. apply Forall_foldl; [|constructor]. intros o1 rl H1. apply Forall_foldl; [|done].
  intros o2 sl H2. apply Forall_foldl; [|done]. intros o3 lr H3. apply Forall_app. split; [done|].
  constructor; [apply flat_record_well_flat|constructor].
Qed.

Lemma extract_snoc attrs key v rest :
  key ≠ str "code.filepath" → key ≠ str "code.lineno" →
  extract_source_location (attrs ++ [mkKeyValue key v rest]) = extract_source_location attrs.
Proof.
  intros H1 H2. unfold extract_source_location. rewrite foldl_app. cbn [foldl kv_key].
  destruct (foldl _ _ attrs) as [fp ln]. by rewrite !decide_False.
Qed.

Lemma extract_dedup_attrs g label attrs : extract_source_location (dedup_attrs g label attrs) = extract_source_location attrs.
Proof.
  unfold dedup_attrs, push_attr_str, push_attr_i64.
  destruct (canonical_body g), (body_shape g), (drain3_template g), (drain3_cluster_id g); cbv zeta;
    by rewrite !extract_snoc by (by apply (bool_decide_unpack _)).
Qed.

Definition group_record (g : DedupGroup) (label : text) : FlatRecord :=
  let rep := representative g in
  {| service_name := service_name rep; severity_number := severity_number rep; severity_text := severity_text rep;
     scope_name := scope_name rep; event_name := event_name rep; code_filepath := code_filepath rep;
     code_lineno := code_lineno rep; trace_id := trace_id rep; span_id := span_id rep;
     time_unix_nano := first_seen_ns g; observed_time_unix_nano := last_seen_ns g; body := body rep;
     resource_attrs := resource_attrs rep; scope_attrs := scope_attrs rep;
     record_attrs := dedup_attrs g label (record_attrs rep) |}.

Lemma flatten_group g label :
  well_flat (representative g) → flatten_batch (group_batch g label) [] = [group_record g label].
Proof.
  intros [Hs Hc]. unfold flatten_batch, group_batch. cbn -[flat_record service_name_of dedup_attrs].
  unfold flat_record. cbn -[service_name_of dedup_attrs extract_source_location].
  rewrite extract_dedup_attrs, <- Hc, <- Hs. done.
Qed.

(** ** The command *)

Lemma partitions_count Q groups rs : partitions Q groups rs → foldr Z.add 0 (count <$> groups) = len rs.
Proof.
  intros (ps & -> & Hf & Hp). unfold len. rewrite <- Hp. clear Hp.
  induction Hf as [|[g m] ps Hr _ IH]; [done|]. rewrite !fmap_cons. cbn [foldr concat fst snd] in *.
  rewrite length_app, IH, (rep_count _ _ _ Hr). unfold len. lia.
Qed.

Lemma partitions_first_seen Q groups rs (P : Z → Prop) :
  partitions Q groups rs → Forall (λ r, P (effective_timestamp r)) rs → Forall (λ g, P (first_seen_ns g)) groups.
Proof.
  intros (ps & -> & Hf & Hp) HP. rewrite <- Hp in HP. clear Hp.
  induction Hf as [|[g m] ps Hr _ IH]; [constructor|]. rewrite !fmap_cons in *. cbn [concat snd fst] in *.
  apply Forall_app in HP as [HP1 HP]. constructor; [|by apply IH].
  destruct (rep_first _ _ _ Hr) as [(r & E & Hr0)%list_elem_of_fmap _]. cbn [fst]. rewrite E.
  exact (proj1 (list.Forall_forall _ _) HP1 r Hr0).
Qed.

Context {EX : Externals} {EL : ExternalLaws}.

(** [encode_to_vec] yields bytes. *)
Class EncodesBytes : Prop := encode_logs_bytes : ∀ req, bytes (encode_logs req).
Context {EB : EncodesBytes}.

Lemma emit_valid groups passthrough label lim :
  Forall (λ g, is_u64 (first_seen_ns g)) groups → Forall valid_record passthrough →
  lim ≤ MAX_U32 - 34 → Forall (fits_reader lim) (emit_records groups passthrough label) →
  len (emit_records groups passthrough label) ≤ MAX_U64 →
  Forall valid_record (emit_records groups passthrough label) ∧
  Forall (λ r, len (payload r) + 34 ≤ MAX_U32) (emit_records groups passthrough label).
Proof.
  intros Hg Hp Hlim Hf Hlen.
  assert (∀ r, fits_reader lim r → len (payload r) ≤ lim) as Hfit.
  { intros r. unfold fits_reader, encode_record. rewrite !len_app. pose proof (len_nonneg (uvarint (seq r - seq r))).
    pose proof (len_nonneg (uvarint (ts_unix_ns r - ts_unix_ns r))). pose proof (len_nonneg (uvarint (len (payload r)))).
    rewrite len_cons, len_nil. lia. }
  rewrite !list.Forall_forall in *. split; intros r Hr; pose proof (Hfit r (Hf r Hr)) as Hl; [|lia].
  assert (is_u64 (ts_unix_ns r) ∧ bytes (payload r)) as [Hts Hb].
  { assert (content r ∈ emit_tuples groups passthrough label) as Hc
      by (rewrite <- emit_contents; apply list_elem_of_fmap; by exists r).
    apply elem_of_app in Hc as [(g & E & Hin)%list_elem_of_fmap|(x & E & Hin)%list_elem_of_fmap]; injection E as -> _ ->.
    - split; [by apply Hg|apply encode_logs_bytes].
    - destruct (Hp x Hin) as (_ & ? & ? & _). done. }
  split_and!; try done; [|pose proof (len_nonneg (payload r)); int_solve].
  rewrite emit_records_numbered in Hr, Hlen. apply list_elem_of_lookup in Hr as [i Hi].
  rewrite (numbered_seqs _ _ _ _ Hi). apply lookup_lt_Some in Hi. unfold len in Hlen. int_solve.
Qed.

Lemma emit_write_log groups passthrough label out :
  write_log [] WriterConfig_default (emit_records groups passthrough label) = Ok out →
  ∃ w, emit_write groups passthrough label (new []) =
    (Ok (mkStats (foldr Z.add 0 (count <$> groups)) (len groups)), w) ∧ into_inner w = Ok out.
Proof.
  unfold write_log, emit_write, bind, ret, new.
  destruct (push_all _ _) as [[[]|e] w]; [|done]. intros Hw. by exists w.
Qed.


(** Unpacking the deduplicated file.  A request that was written for a group whose
    representative was unpacked from a request decodes, and unpacks into exactly one
    record, with the body, the identity and the bucket of the representative, seen
    first and last when the group was. *)
Theorem group_unpacks_to_representative `{!LogsCodecLaws} g label batch kind :
  representative g ∈ flatten_batch batch [] →
  ∃ req r, decode_logs (build_otlp_payload g label) = Ok req ∧ flatten_batch req [] = [r] ∧
    body r = body (representative g) ∧ trace_id r = trace_id (representative g) ∧
    time_unix_nano r = first_seen_ns g ∧ observed_time_unix_nano r = last_seen_ns g ∧
    BucketKey_from_record r kind = BucketKey_from_record (representative g) kind.
Proof.
  intros Hin. exists (group_batch g label), (group_record g label).
  pose proof (proj1 (list.Forall_forall _ _) (flatten_batch_well_flat batch) _ Hin) as Hw.
  split_and!; try done; [apply decode_encode_logs|by apply flatten_group].
Qed.
End EmitFacts.

(** ** They apply *)

Section Witness.
#[local] Existing Instances sample_parts sample_regexes sample_regex_laws sample_numbers sample_json insertion_order
  insertion_order_laws sample_hash stored_externals stored_laws.

#[local] Existing Instances logs_codec logs_codec_laws.
#[local] Instance logs_encodes_bytes : EncodesBytes := logs_codec_bytes.

(** One request with two entries of the same shape, and a metric. *)
Definition sample_log (time : Z) (text : string) : LogRecordMessage :=
  mkLogRecord time 0 9 [] (Some (mkAnyValue (Some (StringValue (str text))))) [] 0 0 [] [] [].
Definition sample_batch : ExportLogsServiceRequest :=
  mkLogsRequest [mkResourceLogs None [mkScopeLogs None [sample_log 5 "up 1234"; sample_log 3 "up 999"] []] []].
Definition sample_payload : list Z := Eval vm_compute in encode_logs sample_batch.
Definition sample_input : list OwnedRecord := [mkRecord Metrics 1 4 [7]; mkRecord Logs 2 8 sample_payload].

Definition sample_dedup_opts : DedupOpts := sample_opts Distinct.
Definition sample_file : list Z :=
  Eval vm_compute in match write_log [] WriterConfig_default sample_input with Ok out => out | Err _ => [] end.

Lemma sample_input_valid : Forall valid_record sample_input.
Proof.
  assert (∀ r, is_u64 (seq r) → is_u64 (ts_unix_ns r) → bool_decide (bytes (payload r)) = true → is_u64 (len (payload r)) →
    valid_record r) as Hv by (intros r H1 H2 H3%bool_decide_eq_true H4; by split_and!).
  constructor; [|constructor; [|constructor]]; apply Hv; vm_compute; try done; split; discriminate.
Qed.

Lemma sample_file_written : write_log [] WriterConfig_default sample_input = Ok sample_file ∧ len sample_file < MAX_U32.
Proof. split; vm_compute; reflexivity. Qed.

Lemma sample_file_delivers : delivers (reader_new sample_file) sample_input.
Proof.
  destruct sample_file_written as [Hf Hl].
  destruct (write_log_delivers WriterConfig_default ReaderConfig_default DEFAULT_MAX_BLOCK_SIZE sample_input
    default_compatible sample_accepts) as (out & Hw & Hd).
  - vm_compute. discriminate.
  - constructor; [constructor; constructor|]. constructor; [|constructor]. split; vm_compute; discriminate.
  - apply sample_input_valid.
  - constructor; [|constructor; [|constructor]]; vm_compute; discriminate.
  - constructor; [|constructor; [|constructor]]; vm_compute; discriminate.
  - rewrite Hf in Hw. injection Hw as <-. by apply Hd.
Qed.


Example sample_run :
  match run (reader_new sample_file) [] sample_dedup_opts with
  | Some (Ok (stats, out)) => stats = mkStats 2 1 ∧ len out = 1775
  | _ => False
  end.
Proof. vm_compute. split; reflexivity. Qed.

Definition sample_group : DedupGroup :=
  absorb (flat_record [] [] None (sample_log 3 "up 999"))
    (DedupGroup_new (mkBucketKey [] 0 None None None) 1 (flat_record [] [] None (sample_log 5 "up 1234"))).

Lemma group_unpacks_to_representative_witness :
  ∃ req r, decode_logs (build_otlp_payload sample_group (str "distinct/canon")) = Ok req ∧ flatten_batch req [] = [r] ∧
    body r = body (representative sample_group) ∧ trace_id r = trace_id (representative sample_group) ∧
    time_unix_nano r = first_seen_ns sample_group ∧ observed_time_unix_nano r = last_seen_ns sample_group ∧
    BucketKey_from_record r ScopeKey = BucketKey_from_record (representative sample_group) ScopeKey.
Proof.
  apply (group_unpacks_to_representative sample_group (str "distinct/canon") sample_batch ScopeKey).
  vm_compute. left.
Defined.
End Witness.
