(* ===== verification/Cel.v ===== *)
(** * CEL queries

    [ljcel/src/context.rs], [expression.rs] and [error.rs]: the variables a CEL
    expression sees for a log record, a metric data point or a span, and the search of
    an OTLP payload for an entry on which the expression is true.  The [cel] crate
    (values that are maps keep the order of insertion here), the arithmetic of [f64]
    and the [prost] decoders are parameters. *)

From S2P Require Import Prelude Text Tokens Format Otlp FlatRecord SampleCodec.

Set Warnings "-register-all".

(** The [f64] operations in use. *)
Class Floats : Type := {
  F64 : Type;
  f64_zero : F64;
  f64_from_i64 : Z → F64;
}.

(** ** Values *)

Section Values.
Context {FL : Floats}.

(** [cel::Value]; [CelOtherValue] stands for the variants ljcel never builds. *)
Inductive CelValue : Type :=
| CelString (s : text)
| CelBool (b : bool)
| CelInt (n : Z)
| CelFloat (d : F64)
| CelList (l : list CelValue)
| CelMap (m : list (text * CelValue))
| CelOtherValue.

(** The complete nesting of an attribute value.  [TreeStrindex] is a variant that the
    version of the messages in [ljcel] does not have: it decodes as no value there. *)
Inductive ValueTree : Type :=
| TreeString (s : text)
| TreeStrindex
| TreeBool (b : bool)
| TreeInt (n : Z)
| TreeDouble (d : F64)
| TreeBytes (b : list Z)
| TreeArray (l : list ValueTree)
| TreeKvlist (l : list (text * option ValueTree))
| TreeNone.

(** [HashMap::insert] *)
Fixpoint map_insert (k : text) (v : CelValue) (m : list (text * CelValue)) : list (text * CelValue) :=
  match m with
  | [] => [(k, v)]
  | (k', v') :: m => if decide (k' = k) then (k, v) :: m else (k', v') :: map_insert k v m
  end.
Fixpoint map_get (k : text) (m : list (text * CelValue)) : option CelValue :=
  match m with
  | [] => None
  | (k', v) :: m => if decide (k' = k) then Some v else map_get k m
  end.

Fixpoint any_value_to_cel (v : ValueTree) : CelValue :=
  match v with
  | TreeString s => CelString s
  | TreeStrindex => CelString []
  | TreeBool b => CelBool b
  | TreeInt n => CelInt n
  | TreeDouble d => CelFloat d
  | TreeBytes b => CelString (str "<" ++ u64_to_string (len b) ++ str " bytes>")
  | TreeArray l => CelList (any_value_to_cel <$> l)
  | TreeKvlist l =>
      CelMap ((fix insert_all (l : list (text * option ValueTree)) (m : list (text * CelValue)) :=
        match l with
        | [] => m
        | (k, Some v) :: l => insert_all l (map_insert k (any_value_to_cel v) m)
        | (_, None) :: l => insert_all l m
        end) l [])
  | TreeNone => CelString []
  end.
End Values.

(** The nesting below the variants that other components only copy. *)
Class ValueTrees `{OtlpParts, Floats} : Type := tree_of_other : OtherValue → ValueTree.

Section Attributes.
Context {OP : OtlpParts} {FL : Floats} {VT : ValueTrees}.

Definition tree_of (v : AnyValue) : ValueTree :=
  match any_value v with
  | Some (StringValue s) => TreeString s
  | Some (IntValue n) => TreeInt n
  | Some (OtherVariant o) => tree_of_other o
  | None => TreeNone
  end.

Fixpoint key_values_loop (attrs : list KeyValue) (seen : list text) (m : list (text * CelValue)) : list (text * CelValue) :=
  match attrs with
  | [] => m
  | attr :: attrs =>
      if decide (kv_key attr ∈ seen) then key_values_loop attrs seen m else
      let seen := kv_key attr :: seen in
      match kv_value attr with
      | Some value => key_values_loop attrs seen (map_insert (kv_key attr) (any_value_to_cel (tree_of value)) m)
      | None => key_values_loop attrs seen m
      end
  end.
Definition key_values_to_cel_map (attrs : list KeyValue) : CelValue := CelMap (key_values_loop attrs [] []).

(** The first attribute with a key. *)
Definition attribute (k : text) (attrs : list KeyValue) : option KeyValue := list.head (filter (λ a, kv_key a = k) attrs).

Definition extract_service_name (resource_attrs : list KeyValue) : text :=
  default [] (a ← attribute (str "service.name") resource_attrs; string_of (kv_value a)).

Definition hex_of_nibble (d : Z) : Z := if d <? 10 then 48 + d else 87 + d.
Definition encode_hex (bytes : list Z) : text :=
  if bool_decide (bytes = []) then [] else
  concat ((λ byte, [hex_of_nibble (Z.shiftr byte 4); hex_of_nibble (Z.land byte 15)]) <$> bytes).

Definition resource_attrs_of (r : option ResourceMessage) : list KeyValue :=
  match r with Some r => resource_attributes r | None => [] end.
Definition scope_attrs_of (s : option InstrumentationScope) : list KeyValue :=
  match s with Some s => is_attributes s | None => [] end.
Definition scope_name_of (s : option InstrumentationScope) : text :=
  match s with Some s => is_name s | None => [] end.
End Attributes.

(** [as i64] of a [u64], [as i32] of a [u32] *)
Definition as_i64 (z : Z) : Z := if z <? 2 ^ 63 then z else z - 2 ^ 64.
Definition as_i32 (z : Z) : Z := if z <? 2 ^ 31 then z else z - 2 ^ 32.

(** ** Contexts *)

Inductive CelError : Type := CelCompile (msg : text) | CelDecode (msg : text) | CelNotBoolean (value : text).

(** The [cel] crate. *)
Class CelEngine `{Floats} : Type := {
  Program : Type;
  Program_compile : text → result text Program;
  CelContext : Type;
  CelContext_default : CelContext;
  add_variable : text → CelValue → CelContext → result text CelContext;
  execute : Program → CelContext → result text CelValue;
  debug_value : CelValue → text;
}.

Section Contexts.
Context {FL : Floats} {CE : CelEngine}.

Definition bind_variable (name : string) (v : CelValue) (ctx : CelContext) : result CelError CelContext :=
  map_err (λ e, CelCompile (str name ++ str ": " ++ e)) (add_variable (str name) v ctx).
(** A variable that is only bound under a condition. *)
Definition bind_variable_if (b : bool) (name : string) (v : CelValue) (ctx : CelContext) : result CelError CelContext :=
  if b then bind_variable name v ctx else Ok ctx.
Definition filled (s : text) : bool := negb (bool_decide (s = [])).

Record LogRecordContext : Type := mkLogRecordContext {
  lc_body : text;
  lc_severity_text : text;
  lc_severity_number : Z;
  lc_event_name : text;
  lc_service_name : text;
  lc_scope_name : text;
  lc_time_unix_nano : Z;
  lc_observed_time_unix_nano : Z;
  lc_trace_id : text;
  lc_span_id : text;
  lc_flags : Z;
  lc_resource : CelValue;
  lc_scope : CelValue;
  lc_attributes : CelValue;
}.
Definition log_to_cel_context (c : LogRecordContext) : result CelError CelContext :=
  let ctx := CelContext_default in
  let? ctx := bind_variable "body" (CelString (lc_body c)) ctx in
  let? ctx := bind_variable "severity_text" (CelString (lc_severity_text c)) ctx in
  let? ctx := bind_variable "severity_number" (CelInt (lc_severity_number c)) ctx in
  let? ctx := bind_variable_if (filled (lc_event_name c)) "event_name" (CelString (lc_event_name c)) ctx in
  let? ctx := bind_variable_if (filled (lc_service_name c)) "service_name" (CelString (lc_service_name c)) ctx in
  let? ctx := bind_variable_if (filled (lc_scope_name c)) "scope_name" (CelString (lc_scope_name c)) ctx in
  let? ctx := bind_variable "time_unix_nano" (CelInt (lc_time_unix_nano c)) ctx in
  let? ctx := bind_variable_if (0 <? lc_observed_time_unix_nano c) "observed_time_unix_nano"
                (CelInt (lc_observed_time_unix_nano c)) ctx in
  let? ctx := bind_variable_if (filled (lc_trace_id c)) "trace_id" (CelString (lc_trace_id c)) ctx in
  let? ctx := bind_variable_if (filled (lc_span_id c)) "span_id" (CelString (lc_span_id c)) ctx in
  let? ctx := bind_variable_if (negb (lc_flags c =? 0)) "flags" (CelInt (lc_flags c)) ctx in
  let? ctx := bind_variable "resource" (lc_resource c) ctx in
  let? ctx := bind_variable "scope" (lc_scope c) ctx in
  bind_variable "attributes" (lc_attributes c) ctx.

Record MetricDataPointContext : Type := mkMetricDataPointContext {
  mc_metric_name : text;
  mc_metric_unit : text;
  mc_metric_description : text;
  mc_metric_type : text;
  mc_value : F64;
  mc_count : Z;
  mc_sum : F64;
  mc_time_unix_nano : Z;
  mc_service_name : text;
  mc_scope_name : text;
  mc_resource : CelValue;
  mc_scope : CelValue;
  mc_attributes : CelValue;
}.
Definition metric_to_cel_context (c : MetricDataPointContext) : result CelError CelContext :=
  let ctx := CelContext_default in
  let? ctx := bind_variable "metric_name" (CelString (mc_metric_name c)) ctx in
  let? ctx := bind_variable_if (filled (mc_metric_unit c)) "metric_unit" (CelString (mc_metric_unit c)) ctx in
  let? ctx := bind_variable_if (filled (mc_metric_description c)) "metric_description"
                (CelString (mc_metric_description c)) ctx in
  let? ctx := bind_variable "metric_type" (CelString (mc_metric_type c)) ctx in
  let? ctx := bind_variable "value" (CelFloat (mc_value c)) ctx in
  let? ctx := bind_variable "count" (CelInt (mc_count c)) ctx in
  let? ctx := bind_variable "sum" (CelFloat (mc_sum c)) ctx in
  let? ctx := bind_variable_if (0 <? mc_time_unix_nano c) "time_unix_nano" (CelInt (mc_time_unix_nano c)) ctx in
  let? ctx := bind_variable_if (filled (mc_service_name c)) "service_name" (CelString (mc_service_name c)) ctx in
  let? ctx := bind_variable_if (filled (mc_scope_name c)) "scope_name" (CelString (mc_scope_name c)) ctx in
  let? ctx := bind_variable "resource" (mc_resource c) ctx in
  let? ctx := bind_variable "scope" (mc_scope c) ctx in
  bind_variable "attributes" (mc_attributes c) ctx.

Record SpanContext : Type := mkSpanContext {
  sc_trace_id : text;
  sc_span_id : text;
  sc_parent_span_id : text;
  sc_name : text;
  sc_kind : Z;
  sc_start_time_unix_nano : Z;
  sc_end_time_unix_nano : Z;
  sc_duration_ns : Z;
  sc_status_code : Z;
  sc_status_message : text;
  sc_service_name : text;
  sc_scope_name : text;
  sc_resource : CelValue;
  sc_scope : CelValue;
  sc_attributes : CelValue;
}.
Definition span_to_cel_context (c : SpanContext) : result CelError CelContext :=
  let ctx := CelContext_default in
  let? ctx := bind_variable_if (filled (sc_trace_id c)) "trace_id" (CelString (sc_trace_id c)) ctx in
  let? ctx := bind_variable "span_id" (CelString (sc_span_id c)) ctx in
  let? ctx := bind_variable_if (filled (sc_parent_span_id c)) "parent_span_id" (CelString (sc_parent_span_id c)) ctx in
  let? ctx := bind_variable "name" (CelString (sc_name c)) ctx in
  let? ctx := bind_variable "kind" (CelInt (sc_kind c)) ctx in
  let? ctx := bind_variable_if (0 <? sc_start_time_unix_nano c) "start_time_unix_nano"
                (CelInt (sc_start_time_unix_nano c)) ctx in
  let? ctx := bind_variable_if (0 <? sc_end_time_unix_nano c) "end_time_unix_nano"
                (CelInt (sc_end_time_unix_nano c)) ctx in
  let? ctx := bind_variable_if (0 <? sc_duration_ns c) "duration_ns" (CelInt (sc_duration_ns c)) ctx in
  let? ctx := bind_variable "status_code" (CelInt (sc_status_code c)) ctx in
  let? ctx := bind_variable_if (filled (sc_status_message c)) "status_message" (CelString (sc_status_message c)) ctx in
  let? ctx := bind_variable_if (filled (sc_service_name c)) "service_name" (CelString (sc_service_name c)) ctx in
  let? ctx := bind_variable_if (filled (sc_scope_name c)) "scope_name" (CelString (sc_scope_name c)) ctx in
  let? ctx := bind_variable "resource" (sc_resource c) ctx in
  let? ctx := bind_variable "scope" (sc_scope c) ctx in
  bind_variable "attributes" (sc_attributes c) ctx.
End Contexts.

(** ** Metric and trace requests *)

Section SignalMessages.
Context {OP : OtlpParts} {FL : Floats}.

Inductive NumberValue : Type := AsDouble (d : F64) | AsInt (i : Z).
Record NumberDataPoint : Type := mkNumberDataPoint {
  np_value : option NumberValue; np_time_unix_nano : Z; np_start_time_unix_nano : Z; np_attributes : list KeyValue }.
(** Histograms and exponential histograms; the scale is that of an exponential one. *)
Record HistogramDataPoint : Type := mkHistogramDataPoint {
  hp_count : Z; hp_sum : option F64; hp_time_unix_nano : Z; hp_start_time_unix_nano : Z; hp_attributes : list KeyValue; hp_scale : Z }.
Record SummaryDataPoint : Type := mkSummaryDataPoint {
  sp_count : Z; sp_sum : F64; sp_time_unix_nano : Z; sp_start_time_unix_nano : Z; sp_attributes : list KeyValue }.

Inductive MetricPoints : Type :=
| GaugePoints (data_points : list NumberDataPoint)
| SumPoints (data_points : list NumberDataPoint) (is_monotonic : bool) (aggregation_temporality : Z)
| HistogramPoints (data_points : list HistogramDataPoint) (aggregation_temporality : Z)
| ExponentialHistogramPoints (data_points : list HistogramDataPoint) (aggregation_temporality : Z)
| SummaryPoints (data_points : list SummaryDataPoint).
Record MetricMessage : Type := mkMetricMessage {
  metric_name : text; metric_unit : text; metric_description : text; metric_points : option MetricPoints }.
Record SpanFields : Type := mkSpanFields {
  sf_trace_id : list Z;
  sf_span_id : list Z;
  sf_parent_span_id : list Z;
  sf_name : text;
  sf_kind : Z;
  sf_start_time_unix_nano : Z;
  sf_end_time_unix_nano : Z;
  sf_status : option (Z * text);
  sf_attributes : list KeyValue;
  sf_trace_state : text;
}.

(** The entries of a scope of a resource: [scope_metrics] and [scope_spans]. *)
Record ScopeOf (A : Type) : Type := mkScopeOf { so_scope : option InstrumentationScope; so_entries : list A }.
Record ResourceOf (A : Type) : Type := mkResourceOf { ro_resource : option ResourceMessage; ro_scopes : list (ScopeOf A) }.
End SignalMessages.
Arguments mkScopeOf {_ _}. Arguments so_scope {_ _}. Arguments so_entries {_ _}.
Arguments mkResourceOf {_ _}. Arguments ro_resource {_ _}. Arguments ro_scopes {_ _}.

(** The [prost] decoders of the two requests. *)
Class SignalCodec `{OtlpParts, Floats} : Type := {
  decode_metrics : list Z → result string (list (ResourceOf MetricMessage));
  decode_traces : list Z → result string (list (ResourceOf SpanFields));
}.

(** ** Expressions *)

(** A [for] loop with [if eval(x)? { return Ok(true); }] *)
Fixpoint search {E A} (f : A → result E bool) (l : list A) : result E bool :=
  match l with
  | [] => Ok false
  | a :: l => let? found := f a in if found then Ok true else search f l
  end.

Section Expression.
Context {OP : OtlpParts} {FL : Floats} {VT : ValueTrees} {LC : LogsCodec} {SC : SignalCodec} {CE : CelEngine}.

Record CelExpression : Type := mkCelExpression { program : Program; source : text }.
Definition compile (expr : text) : result CelError CelExpression :=
  let? program := map_err CelCompile (Program_compile expr) in Ok (mkCelExpression program expr).

Definition eval_bool (e : CelExpression) (ctx : CelContext) : result CelError bool :=
  match execute (program e) ctx with
  | Ok (CelBool true) => Ok true
  | Ok (CelBool false) => Ok false
  | Ok other => Err (CelNotBoolean (debug_value other))
  | Err err => Err (CelCompile err)
  end.
Definition eval_log (e : CelExpression) (c : LogRecordContext) : result CelError bool :=
  let? ctx := log_to_cel_context c in eval_bool e ctx.
Definition eval_metric (e : CelExpression) (c : MetricDataPointContext) : result CelError bool :=
  let? ctx := metric_to_cel_context c in eval_bool e ctx.
Definition eval_span (e : CelExpression) (c : SpanContext) : result CelError bool :=
  let? ctx := span_to_cel_context c in eval_bool e ctx.

Definition log_context (r : option ResourceMessage) (s : option InstrumentationScope) (lr : LogRecordMessage) : LogRecordContext :=
  mkLogRecordContext (default [] (string_of (lr_body lr))) (lr_severity_text lr) (lr_severity_number lr) (lr_event_name lr)
    (extract_service_name (resource_attrs_of r)) (scope_name_of s) (as_i64 (lr_time_unix_nano lr))
    (as_i64 (lr_observed_time_unix_nano lr)) (encode_hex (lr_trace_id lr)) (encode_hex (lr_span_id lr)) (as_i32 (lr_flags lr))
    (key_values_to_cel_map (resource_attrs_of r)) (key_values_to_cel_map (scope_attrs_of s))
    (key_values_to_cel_map (lr_attributes lr)).

Definition matches_logs_payload (e : CelExpression) (payload : list Z) : result CelError bool :=
  let? batch := map_err (λ err, CelDecode (str err)) (decode_logs payload) in
  search (λ rl : ResourceLogs,
    search (λ sl : ScopeLogs,
      search (λ lr, eval_log e (log_context (rl_resource rl) (sl_scope sl) lr)) (log_records sl))
      (scope_logs rl))
    (resource_logs batch).

Definition number_value (v : option NumberValue) : F64 :=
  match v with None => f64_zero | Some (AsDouble d) => d | Some (AsInt i) => f64_from_i64 i end.

(** The contexts of the data points of a metric; [None] skips the metric. *)
Definition metric_contexts (r : option ResourceMessage) (s : option InstrumentationScope) (m : MetricMessage)
    : option (list MetricDataPointContext) :=
  let context (kind : string) (value : F64) (count : Z) (sum : F64) (time : Z) (attrs : list KeyValue) :=
    mkMetricDataPointContext (metric_name m) (metric_unit m) (metric_description m) (str kind) value count sum time
      (extract_service_name (resource_attrs_of r)) (scope_name_of s) (key_values_to_cel_map (resource_attrs_of r))
      (key_values_to_cel_map (scope_attrs_of s)) (key_values_to_cel_map attrs) in
  let number kind (dp : NumberDataPoint) :=
    context kind (number_value (np_value dp)) 0 f64_zero (as_i64 (np_time_unix_nano dp)) (np_attributes dp) in
  let histogram kind (dp : HistogramDataPoint) :=
    context kind f64_zero (as_i64 (hp_count dp)) (default f64_zero (hp_sum dp)) (as_i64 (hp_time_unix_nano dp)) (hp_attributes dp) in
  let summary (dp : SummaryDataPoint) :=
    context "Summary"%string f64_zero (as_i64 (sp_count dp)) (sp_sum dp) (as_i64 (sp_time_unix_nano dp)) (sp_attributes dp) in
  match metric_points m with
  | Some (GaugePoints dps) => Some (number "Gauge"%string <$> dps)
  | Some (SumPoints dps _ _) => Some (number "Sum"%string <$> dps)
  | Some (HistogramPoints dps _) => Some (histogram "Histogram"%string <$> dps)
  | Some (ExponentialHistogramPoints dps _) => Some (histogram "ExponentialHistogram"%string <$> dps)
  | Some (SummaryPoints dps) => Some (summary <$> dps)
  | None => None
  end.

Definition matches_metrics_payload (e : CelExpression) (payload : list Z) : result CelError bool :=
  let? batch := map_err (λ err, CelDecode (str err)) (decode_metrics payload) in
  search (λ rm,
    search (λ sm,
      search (λ metric,
          match metric_contexts (ro_resource rm) (so_scope sm) metric with
          | Some dp_contexts => search (eval_metric e) dp_contexts
          | None => Ok false
          end)
        (so_entries sm))
      (ro_scopes rm))
    batch.

Definition span_context (r : option ResourceMessage) (s : option InstrumentationScope) (span : SpanFields) : SpanContext :=
  let duration_ns := saturating_sub (sf_end_time_unix_nano span) (sf_start_time_unix_nano span) in
  let '(status_code, status_message) := default (0, []) (sf_status span) in
  mkSpanContext (encode_hex (sf_trace_id span)) (encode_hex (sf_span_id span)) (encode_hex (sf_parent_span_id span))
    (sf_name span) (sf_kind span) (as_i64 (sf_start_time_unix_nano span)) (as_i64 (sf_end_time_unix_nano span))
    (as_i64 duration_ns) status_code status_message
    (extract_service_name (resource_attrs_of r)) (scope_name_of s) (key_values_to_cel_map (resource_attrs_of r))
    (key_values_to_cel_map (scope_attrs_of s)) (key_values_to_cel_map (sf_attributes span)).

Definition matches_traces_payload (e : CelExpression) (payload : list Z) : result CelError bool :=
  let? batch := map_err (λ err, CelDecode (str err)) (decode_traces payload) in
  search (λ rs,
    search (λ ss,
      search (λ span, eval_span e (span_context (ro_resource rs) (so_scope ss) span)) (so_entries ss))
      (ro_scopes rs))
    batch.

Definition cel_matches_payload (e : CelExpression) (record_type : RecordType) (payload : list Z) : result CelError bool :=
  match record_type with
  | Logs => matches_logs_payload e payload
  | Metrics => matches_metrics_payload e payload
  | Traces => matches_traces_payload e payload
  | _ => Ok true
  end.
End Expression.

(** ** The search *)

Lemma search_concat {E A B} (f : B → result E bool) (g : A → list B) (l : list A) :
  search (λ a, search f (g a)) l = search f (concat (g <$> l)).
Proof.
  assert (∀ l1 l2, search f (l1 ++ l2) = let? found := search f l1 in if found then Ok true else search f l2) as Happ.
  { induction l1 as [|b l1 IH]; intros l2; [done|]. simpl. rewrite IH. by destruct (f b) as [[]|]. }
  induction l as [|a l IH]; [done|]. cbn [search fmap list_fmap concat]. by rewrite Happ, IH.
Qed.

Lemma search_fmap {E A B} (f : B → result E bool) (g : A → B) (l : list A) : search (λ a, f (g a)) l = search f (g <$> l).
Proof. induction l as [|a l IH]; [done|]. cbn [search fmap list_fmap]. by rewrite IH. Qed.

Lemma search_ext {E A} (f g : A → result E bool) (l : list A) : (∀ a, f a = g a) → search f l = search g l.
Proof. intros H. induction l as [|a l IH]; [done|]. simpl. by rewrite H, IH. Qed.

(** The first entry that does not evaluate to false decides. *)
Lemma search_spec {E A} (f : A → result E bool) (l : list A) (r : result E bool) :
  search f l = r ↔
  (r = Ok false ∧ Forall (λ a, f a = Ok false) l) ∨
  (r ≠ Ok false ∧ ∃ pre a post, l = pre ++ a :: post ∧ Forall (λ a, f a = Ok false) pre ∧ f a = r).
Proof.
  revert r. induction l as [|a l IH]; intros r; simpl.
  { split.
    - intros <-. left. by split; [|constructor].
    - intros [[-> _]|(_ & [|? ?] & ? & ? & ? & _)]; done. }
  assert (f a ≠ Ok false → f a = r ↔ (r = Ok false ∧ Forall (λ a, f a = Ok false) (a :: l)) ∨
    (r ≠ Ok false ∧ ∃ pre b post, a :: l = pre ++ b :: post ∧ Forall (λ a, f a = Ok false) pre ∧ f b = r)) as Hhead.
  { intros Ha. split; [intros <-; right; split; [done|]; exists [], a, l; by split_and!|].
    intros [[-> [Hf _]%Forall_cons_iff]|(_ & [|? pre] & b & post & [= <- ->] & HF & Hf)]; [done|done|].
    by apply Forall_cons_iff in HF as [? _]. }
  destruct (f a) as [[]|e] eqn:E1; [by apply Hhead| |by apply Hhead]. clear Hhead. simpl. rewrite IH. split.
  - intros [[-> HF]|(Hr & pre & b & post & -> & HF & Hf)]; [left; by split; [|constructor]|right].
    split; [done|]. exists (a :: pre), b, post. split_and!; [done|by constructor|done].
  - intros [[-> [_ HF]%Forall_cons_iff]|(Hr & [|a' pre] & b & post & [= <- ->] & HF & Hf)]; [by left|congruence|].
    apply Forall_cons_iff in HF as [_ HF]. right. split; [done|]. by exists pre, b, post.
Qed.

Section SearchTheorem.
Context {OP : OtlpParts} {FL : Floats} {VT : ValueTrees} {LC : LogsCodec} {SC : SignalCodec} {CE : CelEngine}.

(** What the expression evaluates to on the entries of a payload, in their order. *)
Definition log_results (e : CelExpression) (batch : ExportLogsServiceRequest) : list (result CelError bool) :=
  (λ x, eval_log e (log_context x.1.1 x.1.2 x.2)) <$> flatten (resource_logs batch).
Definition entries_of {A} (batch : list (ResourceOf A)) : list (option ResourceMessage * option InstrumentationScope * A) :=
  concat ((λ r, concat ((λ s, (λ a, (ro_resource r, so_scope s, a)) <$> so_entries s) <$> ro_scopes r)) <$> batch).
Definition metric_results (e : CelExpression) (batch : list (ResourceOf MetricMessage)) : list (result CelError bool) :=
  eval_metric e <$> concat ((λ x, default [] (metric_contexts x.1.1 x.1.2 x.2)) <$> entries_of batch).
Definition span_results (e : CelExpression) (batch : list (ResourceOf SpanFields)) : list (result CelError bool) :=
  (λ x, eval_span e (span_context x.1.1 x.1.2 x.2)) <$> entries_of batch.

Definition entry_results (e : CelExpression) (kind : RecordType) (payload : list Z)
    : result CelError (list (result CelError bool)) :=
  match kind with
  | Logs => let? b := map_err (λ err, CelDecode (str err)) (decode_logs payload) in Ok (log_results e b)
  | Metrics => let? b := map_err (λ err, CelDecode (str err)) (decode_metrics payload) in Ok (metric_results e b)
  | Traces => let? b := map_err (λ err, CelDecode (str err)) (decode_traces payload) in Ok (span_results e b)
  | Events => Ok [Ok true]
  end.

Lemma search_results {A} (f : A → result CelError bool) l : search f l = search id (f <$> l).
Proof. apply (search_fmap id f). Qed.

Lemma search_entries {A} (f : option ResourceMessage * option InstrumentationScope * A → result CelError bool)
    (batch : list (ResourceOf A)) :
  search (λ r, search (λ s, search (λ a, f (ro_resource r, so_scope s, a)) (so_entries s)) (ro_scopes r)) batch =
  search f (entries_of batch).
Proof.
  unfold entries_of. rewrite <- search_concat. apply search_ext. intros r. rewrite <- search_concat.
  apply search_ext. intros s. apply (search_fmap f).
Qed.

Lemma search_logs (f : option ResourceMessage * option InstrumentationScope * LogRecordMessage → result CelError bool)
    (rls : list ResourceLogs) :
  search (λ rl : ResourceLogs, search (λ sl : ScopeLogs,
    search (λ lr, f (rl_resource rl, sl_scope sl, lr)) (log_records sl)) (scope_logs rl)) rls = search f (flatten rls).
Proof.
  unfold flatten. rewrite <- search_concat. apply search_ext. intros rl. unfold flatten_resource.
  rewrite <- search_concat. apply search_ext. intros sl. apply (search_fmap f).
Qed.

Lemma cel_matches_search e kind payload :
  cel_matches_payload e kind payload = (let? results := entry_results e kind payload in search id results).
Proof.
  destruct kind; cbn [cel_matches_payload entry_results]; [| | |done].
  - unfold matches_logs_payload. destruct (decode_logs payload) as [b|]; [|done]. cbn [map_err].
    unfold log_results. rewrite <- search_results. apply (search_logs (λ x, eval_log e (log_context x.1.1 x.1.2 x.2))).
  - unfold matches_metrics_payload. destruct (decode_metrics payload) as [b|]; [|done]. cbn [map_err].
    unfold metric_results. rewrite <- search_results.
    rewrite <- (search_concat (eval_metric e) (λ x, default [] (metric_contexts x.1.1 x.1.2 x.2))).
    rewrite <- (search_entries (λ x, search (eval_metric e) (default [] (metric_contexts x.1.1 x.1.2 x.2)))).
    apply search_ext. intros r. apply search_ext. intros s. apply search_ext. intros m. cbn [fst snd].
    by destruct (metric_contexts _ _ m).
  - unfold matches_traces_payload. destruct (decode_traces payload) as [b|]; [|done]. cbn [map_err].
    unfold span_results. rewrite <- search_results. apply (search_entries (λ x, eval_span e (span_context x.1.1 x.1.2 x.2))).
Qed.

(** CEL queries.  A payload of logs, metrics or traces matches an expression exactly
    when some entry (log record, data point or span, in the order of the payload)
    evaluates to true and every entry before it to false; it does not match when all
    entries evaluate to false; and the first entry whose evaluation fails, or is not a
    boolean, decides with its error if no entry before it is true. *)
Theorem cel_first_decisive_entry e kind payload results r :
  entry_results e kind payload = Ok results →
  cel_matches_payload e kind payload = r ↔
  (r = Ok false ∧ Forall (λ x, x = Ok false) results) ∨
  (r ≠ Ok false ∧ ∃ pre post, results = pre ++ r :: post ∧ Forall (λ x, x = Ok false) pre).
Proof.
  intros Hr. rewrite cel_matches_search, Hr. cbn [id]. rewrite search_spec. unfold id.
  split; intros [H|(Hne & H)]; [by left| |by left|]; right; (split; [done|]).
  - destruct H as (pre & a & post & -> & HF & ->). by exists pre, post.
  - destruct H as (pre & post & -> & HF). by exists pre, r, post.
Qed.
End SearchTheorem.

(** ** The variables *)

(** What binding a variable does to a context. *)
Class CelLaws `{CelEngine} : Type := {
  variable : CelContext → text → option CelValue;
  variable_default : ∀ x, variable CelContext_default x = None;
  add_variable_binds : ∀ name v ctx, ∃ ctx', add_variable name v ctx = Ok ctx' ∧
    ∀ x, variable ctx' x = if decide (x = name) then Some v else variable ctx x;
}.

Section Variables.
Context {OP : OtlpParts} {FL : Floats} {VT : ValueTrees} {CE : CelEngine} {CL : CelLaws}.

(** A table of variables: the condition under which each is bound, its name and value. *)
Definition variables : Type := list (bool * string * CelValue).

Fixpoint bind_all (t : variables) (ctx : CelContext) : result CelError CelContext :=
  match t with
  | [] => Ok ctx
  | (b, name, v) :: t => let? ctx := bind_variable_if b name v ctx in bind_all t ctx
  end.
Fixpoint table_get (t : variables) (x : text) : option CelValue :=
  match t with
  | [] => None
  | (b, name, v) :: t => if decide (x = str name) then (if b then Some v else None) else table_get t x
  end.
Definition names (t : variables) : list text := (λ y : bool * string * CelValue, str y.1.2) <$> t.

Lemma bind_all_spec t ctx :
  NoDup (names t) →
  ∃ ctx', bind_all t ctx = Ok ctx' ∧ ∀ x, variable ctx' x = if decide (x ∈ names t) then
    (match table_get t x with Some v => Some v | None => variable ctx x end) else variable ctx x.
Proof.
  revert ctx. induction t as [|[[b name] v] t IH]; intros ctx Hnd.
  { exists ctx. split; [done|]. intros x. by case_decide. }
  unfold names in *. rewrite fmap_cons in Hnd |- *. cbn [fst snd] in *. apply list.NoDup_cons in Hnd as [Hni Hnd]. cbn [bind_all table_get].
  assert (∃ ctx1, bind_variable_if b name v ctx = Ok ctx1 ∧
    ∀ x, variable ctx1 x = if decide (x = str name) then (if b then Some v else variable ctx x) else variable ctx x) as (ctx1 & -> & Hv).
  { unfold bind_variable_if, bind_variable. destruct b; [|exists ctx; split; [done|]; intros x; by case_decide].
    destruct (add_variable_binds (str name) v ctx) as (ctx1 & -> & Hv). by exists ctx1. }
  destruct (IH ctx1 Hnd) as (ctx2 & Hb & Hx). exists ctx2. split; [done|]. intros x. rewrite Hx, Hv.
  destruct (decide (x = str name)) as [->|Hne].
  - rewrite decide_False by done. rewrite decide_True by left. by destruct b.
  - destruct (decide (x ∈ (λ y : bool * string * CelValue, str y.1.2) <$> t)).
    + rewrite decide_True by by right. done.
    + rewrite decide_False; [done|]. by intros [|]%elem_of_cons.
Qed.

Lemma table_get_names t x : x ∉ names t → table_get t x = None.
Proof.
  induction t as [|[[b name] v] t IH]; [done|]. unfold names in *. rewrite fmap_cons, not_elem_of_cons. cbn [fst snd table_get].
  intros [? ?]. rewrite decide_False by done. by apply IH.
Qed.

Lemma bind_all_default t :
  NoDup (names t) → ∃ ctx, bind_all t CelContext_default = Ok ctx ∧ ∀ x, variable ctx x = table_get t x.
Proof.
  intros Hnd. destruct (bind_all_spec t CelContext_default Hnd) as (ctx & Hc & Hx). exists ctx. split; [done|].
  intros x. rewrite Hx, variable_default. case_decide; [by destruct (table_get t x)|by rewrite table_get_names].
Qed.

Definition log_variables (c : LogRecordContext) : variables := [
  (true, "body", CelString (lc_body c)); (true, "severity_text", CelString (lc_severity_text c));
  (true, "severity_number", CelInt (lc_severity_number c));
  (filled (lc_event_name c), "event_name", CelString (lc_event_name c));
  (filled (lc_service_name c), "service_name", CelString (lc_service_name c));
  (filled (lc_scope_name c), "scope_name", CelString (lc_scope_name c));
  (true, "time_unix_nano", CelInt (lc_time_unix_nano c));
  ((0 <? lc_observed_time_unix_nano c)%Z, "observed_time_unix_nano", CelInt (lc_observed_time_unix_nano c));
  (filled (lc_trace_id c), "trace_id", CelString (lc_trace_id c));
  (filled (lc_span_id c), "span_id", CelString (lc_span_id c));
  (negb (lc_flags c =? 0)%Z, "flags", CelInt (lc_flags c));
  (true, "resource", lc_resource c); (true, "scope", lc_scope c); (true, "attributes", lc_attributes c)]%string.

Definition metric_variables (c : MetricDataPointContext) : variables := [
  (true, "metric_name", CelString (mc_metric_name c));
  (filled (mc_metric_unit c), "metric_unit", CelString (mc_metric_unit c));
  (filled (mc_metric_description c), "metric_description", CelString (mc_metric_description c));
  (true, "metric_type", CelString (mc_metric_type c)); (true, "value", CelFloat (mc_value c));
  (true, "count", CelInt (mc_count c)); (true, "sum", CelFloat (mc_sum c));
  ((0 <? mc_time_unix_nano c)%Z, "time_unix_nano", CelInt (mc_time_unix_nano c));
  (filled (mc_service_name c), "service_name", CelString (mc_service_name c));
  (filled (mc_scope_name c), "scope_name", CelString (mc_scope_name c));
  (true, "resource", mc_resource c); (true, "scope", mc_scope c); (true, "attributes", mc_attributes c)]%string.

Definition span_variables (c : SpanContext) : variables := [
  (filled (sc_trace_id c), "trace_id", CelString (sc_trace_id c)); (true, "span_id", CelString (sc_span_id c));
  (filled (sc_parent_span_id c), "parent_span_id", CelString (sc_parent_span_id c));
  (true, "name", CelString (sc_name c)); (true, "kind", CelInt (sc_kind c));
  ((0 <? sc_start_time_unix_nano c)%Z, "start_time_unix_nano", CelInt (sc_start_time_unix_nano c));
  ((0 <? sc_end_time_unix_nano c)%Z, "end_time_unix_nano", CelInt (sc_end_time_unix_nano c));
  ((0 <? sc_duration_ns c)%Z, "duration_ns", CelInt (sc_duration_ns c));
  (true, "status_code", CelInt (sc_status_code c));
  (filled (sc_status_message c), "status_message", CelString (sc_status_message c));
  (filled (sc_service_name c), "service_name", CelString (sc_service_name c));
  (filled (sc_scope_name c), "scope_name", CelString (sc_scope_name c));
  (true, "resource", sc_resource c); (true, "scope", sc_scope c); (true, "attributes", sc_attributes c)]%string.

Lemma bind_all_last name v ctx : bind_all [(true, name, v)] ctx = bind_variable name v ctx.
Proof. cbn [bind_all bind_variable_if]. by destruct (bind_variable name v ctx). Qed.

(** The attribute maps: the first attribute with a key counts. *)
Lemma map_get_insert k v m x : map_get x (map_insert k v m) = if decide (k = x) then Some v else map_get x m.
Proof.
  induction m as [|[k' v'] m IH]; cbn [map_insert map_get]; [done|].
  destruct (decide (k' = k)) as [->|Hne]; cbn [map_get]; [by case_decide|]. rewrite IH.
  repeat case_decide; congruence.
Qed.

Lemma key_values_loop_get attrs seen m x :
  map_get x (key_values_loop attrs seen m) =
  if decide (x ∈ seen) then map_get x m else
  match attribute x attrs with
  | Some a => match kv_value a with Some v => Some (any_value_to_cel (tree_of v)) | None => map_get x m end
  | None => map_get x m
  end.
Proof.
  unfold attribute. revert seen m. induction attrs as [|a attrs IH]; intros seen m; cbn [key_values_loop]; [by case_decide|].
  rewrite filter_cons. destruct (decide (kv_key a ∈ seen)) as [Hs|Hs].
  { rewrite IH. destruct (decide (x ∈ seen)); [done|]. by rewrite (decide_False (P := kv_key a = x)) by congruence. }
  assert (kv_key a ≠ x → ∀ T (u v : T), (if decide (x ∈ kv_key a :: seen) then u else v) = if decide (x ∈ seen) then u else v) as Hseen.
  { intros Hne T u v. apply decide_ext. rewrite elem_of_cons. naive_solver. }
  destruct (kv_value a) as [v|] eqn:Ev; rewrite IH; try rewrite map_get_insert;
    destruct (decide (kv_key a = x)) as [<-|Hne].
  - rewrite decide_True by left. rewrite decide_False by done. cbn [list.head]. by rewrite Ev.
  - by rewrite Hseen.
  - rewrite decide_True by left. rewrite decide_False by done. cbn [list.head]. by rewrite Ev.
  - by rewrite Hseen.
Qed.

(** The bindings of the code are those of its table. *)
Ltac same_bindings :=
  cbn [bind_all];
  repeat match goal with
    | |- match ?a with Ok _ => _ | Err _ => _ end = match ?b with Ok _ => _ | Err _ => _ end =>
        change b with a; destruct a; [|reflexivity]
    end;
  symmetry; apply bind_all_last.

Lemma log_to_cel_context_table c : log_to_cel_context c = bind_all (log_variables c) CelContext_default.
Proof. unfold log_to_cel_context, log_variables. same_bindings. Qed.
Lemma metric_to_cel_context_table c : metric_to_cel_context c = bind_all (metric_variables c) CelContext_default.
Proof. unfold metric_to_cel_context, metric_variables. same_bindings. Qed.
Lemma span_to_cel_context_table c : span_to_cel_context c = bind_all (span_variables c) CelContext_default.
Proof. unfold span_to_cel_context, span_variables. same_bindings. Qed.

(** The variables of a query.  The context of a log record, a data point or a span
    binds the variables of its table and no others, each to the value of its field, and
    leaves out the names, ids and times that are empty or zero; and the attribute maps
    give for a key the value of the first attribute with that key. *)
Theorem cel_variables :
  (∀ c, ∃ ctx, log_to_cel_context c = Ok ctx ∧ ∀ x, variable ctx x = table_get (log_variables c) x) ∧
  (∀ c, ∃ ctx, metric_to_cel_context c = Ok ctx ∧ ∀ x, variable ctx x = table_get (metric_variables c) x) ∧
  (∀ c, ∃ ctx, span_to_cel_context c = Ok ctx ∧ ∀ x, variable ctx x = table_get (span_variables c) x) ∧
  (∀ attrs, ∃ m, key_values_to_cel_map attrs = CelMap m ∧
     ∀ k, map_get k m = a ← attribute k attrs; any_value_to_cel ∘ tree_of <$> kv_value a).
Proof.
  split_and!; [| | |intros attrs; eexists; split; [done|]; intros k; rewrite key_values_loop_get, decide_False by (by intros ?%elem_of_nil);
    destruct (attribute k attrs) as [a|]; cbn [mbind option_bind map_get]; [by destruct (kv_value a)|done]].
  all: intros c; first [rewrite log_to_cel_context_table|rewrite metric_to_cel_context_table|rewrite span_to_cel_context_table].
  all: apply bind_all_default, (bool_decide_unpack _); by vm_compute.
Qed.
(** A root span has no [parent_span_id], not an empty one. *)
Theorem cel_root_span_has_no_parent c ctx :
  span_to_cel_context c = Ok ctx → sc_parent_span_id c = [] → variable ctx (str "parent_span_id") = None.
Proof.
  rewrite span_to_cel_context_table. intros Hc Hp.
  destruct (bind_all_default (span_variables c)) as (ctx' & Hc' & Hx). { apply (bool_decide_unpack _). by vm_compute. }
  assert (ctx' = ctx) as -> by congruence. rewrite Hx. unfold span_variables. rewrite Hp. by vm_compute.
Qed.
End Variables.

(** ** A concrete engine

    Expressions [name=value], true when the variable is the string. *)

Definition sample_floats : Floats := {| F64 := Z; f64_zero := 0; f64_from_i64 z := z |}.

Section Sample.
#[local] Existing Instance sample_parts.
#[local] Existing Instance logs_codec.
#[local] Existing Instance sample_floats.
#[local] Instance sample_trees : ValueTrees := λ _, TreeNone.

Definition sample_engine : CelEngine := {|
  Program := text * text;
  Program_compile e := ok_or (split_once 61 e) (str "syntax error");
  CelContext := list (text * CelValue);
  CelContext_default := [];
  add_variable name v ctx := Ok (map_insert name v ctx);
  execute p ctx :=
    match map_get p.1 ctx with
    | None => Err (str "undeclared reference to " ++ p.1)
    | Some (CelString s) => Ok (CelBool (bool_decide (s = p.2)))
    | Some other => Ok other
    end;
  debug_value _ := [];
|}.
#[local] Existing Instance sample_engine.
#[local] Instance sample_signals : SignalCodec :=
  {| decode_metrics _ := Err "invalid request"%string; decode_traces _ := Err "invalid request"%string |}.

#[local] Instance sample_engine_laws : CelLaws.
Proof.
  refine {| variable (ctx : CelContext) x := map_get x ctx |}; [done|].
  intros name v ctx. eexists. split; [done|]. intros x. rewrite map_get_insert. by repeat case_decide.
Defined.

Definition event_record (name : text) : LogRecordMessage := mkLogRecord 1 0 9 (str "INFO") None [] 0 0 [] [] name.
Definition event_payload (names : list text) : list Z :=
  encode_logs (mkLogsRequest [mkResourceLogs None [mkScopeLogs None (map event_record names) []] []]).
Definition event_query : CelExpression := mkCelExpression (str "event_name", str "b") (str "event_name=b").

Lemma cel_first_decisive_entry_witness :
  compile (str "event_name=b") = Ok event_query ∧
  cel_matches_payload event_query Logs (event_payload [str "a"; str "b"; []]) = Ok true.
Proof.
  split; [by vm_compute|].
  apply (cel_first_decisive_entry event_query Logs (event_payload [str "a"; str "b"; []])
    [Ok false; Ok true; Err (CelCompile (str "undeclared reference to event_name"))]); [by vm_compute|].
  right. split; [done|]. exists [Ok false], [Err (CelCompile (str "undeclared reference to event_name"))].
  split; [done|]. by repeat constructor.
Defined.

(** An entry without the variable hides the matching entry after it. *)
Theorem cel_unset_variable_hides_match :
  let first_unset := event_payload [[]; str "b"] in
  let first_set := event_payload [str "b"; []] in
  cel_matches_payload event_query Logs first_unset = Err (CelCompile (str "undeclared reference to event_name")) ∧
  cel_matches_payload event_query Logs first_set = Ok true.
Proof. split; by vm_compute. Qed.

Lemma cel_variables_witness : ∃ ctx,
  log_to_cel_context (log_context None None (event_record (str "b"))) = Ok ctx ∧
  variable ctx (str "event_name") = Some (CelString (str "b")) ∧ variable ctx (str "service_name") = None.
Proof.
  destruct cel_variables as [H _]. destruct (H (log_context None None (event_record (str "b")))) as (ctx & Hc & Hx).
  exists ctx. split_and!; [exact Hc|by rewrite Hx|by rewrite Hx].
Defined.
End Sample.
