(* ===== verification/Predicate.v ===== *)
(** * Record predicates

    [ljx/src/predicate.rs] and the commands [count] and [filter]: which records a
    query selects, and what the commands do with them.  The matchers of the [regex]
    crate, [shlex] and the argument parser are parameters. *)

From stdpp Require Import sorting.
From S2P Require Import Prelude Text Tokens Format Writer Reader Instances Scan Container RecordLoop Otlp FlatRecord SampleCodec Cel.

(** Compiled payload matchers ([regex::bytes]). *)
Class Matchers : Type := {
  PayloadMatcher : Type;
  build_regex : text → bool → result text PayloadMatcher;
  regex_escape : text → text;
  is_match : PayloadMatcher → list Z → bool;
}.

Inductive FilterMode : Type := ModeCel | ModeStrings | ModeRegex.

(** [Error::Usage] *)
Inductive QueryError : Type :=
| InvalidMatcher (err : text)
| InvalidCel (err : CelError)
| EmptyFilterValue (label : text)
| UnterminatedQuotes
| BadArguments (err : text).

Record FieldFilter : Type := mkFieldFilter { severities : option (list text); services : option (list text) }.
Definition FieldFilter_default : FieldFilter := mkFieldFilter None None.

Inductive RecordKind : Type := KindLogs | KindMetrics | KindTraces.
Definition RecordType_from_kind (k : RecordKind) : RecordType :=
  match k with KindLogs => Logs | KindMetrics => Metrics | KindTraces => Traces end.

Record PredicateArgs : Type := mkPredicateArgs {
  arg_record_type : option RecordKind;
  arg_seq_min : option Z;
  arg_seq_max : option Z;
  arg_ts_min : option Z;
  arg_ts_max : option Z;
  arg_grep : list text;
  arg_fixed_string : list text;
  arg_ignore_case : bool;
  arg_cel : list text;
}.
Definition PredicateArgs_default : PredicateArgs := mkPredicateArgs None None None None None [] [] false [].

Definition has_filters (a : PredicateArgs) : bool :=
  bool_decide (is_Some (arg_record_type a)) || bool_decide (is_Some (arg_seq_min a)) ||
  bool_decide (is_Some (arg_seq_max a)) || bool_decide (is_Some (arg_ts_min a)) ||
  bool_decide (is_Some (arg_ts_max a)) || negb (bool_decide (arg_grep a = [])) ||
  negb (bool_decide (arg_fixed_string a = [])) || negb (bool_decide (arg_cel a = [])) || arg_ignore_case a.

(** A set of strings; the order does not matter. *)
Fixpoint parse_string_filter_loop (values : list text) (label : text) (set : list text) : result QueryError (list text) :=
  match values with
  | [] => Ok set
  | value :: values =>
      if bool_decide (value = []) then Err (EmptyFilterValue label) else
      parse_string_filter_loop values label (if decide (value ∈ set) then set else set ++ [value])
  end.
Definition parse_string_filter (values : list text) (label : text) : result QueryError (option (list text)) :=
  if bool_decide (values = []) then Ok None else
  let? set := parse_string_filter_loop values label [] in Ok (Some set).

Section Predicate.
Context {OP : OtlpParts} {FL : Floats} {VT : ValueTrees} {LC : LogsCodec} {SC : SignalCodec} {CE : CelEngine} {MA : Matchers}.

Record RecordPredicate : Type := mkPredicate {
  p_record_type : option RecordType;
  p_seq_min : option Z;
  p_seq_max : option Z;
  p_ts_min : option Z;
  p_ts_max : option Z;
  payload_matchers : list PayloadMatcher;
  cel_queries : list CelExpression;
  field_filter : FieldFilter;
}.

(** ** Building *)

Definition PayloadMatcher_new (pattern : text) (fixed_string ignore_case : bool) : result QueryError PayloadMatcher :=
  let source := if fixed_string then regex_escape pattern else pattern in
  map_err InvalidMatcher (build_regex source ignore_case).

Fixpoint collect {A B E} (f : A → result E B) (l : list A) : result E (list B) :=
  match l with
  | [] => Ok []
  | a :: l => let? b := f a in let? bs := collect f l in Ok (b :: bs)
  end.

Definition PredicateArgs_build (a : PredicateArgs) : result QueryError RecordPredicate :=
  let? regexes := collect (λ p, PayloadMatcher_new p false (arg_ignore_case a)) (arg_grep a) in
  let? literals := collect (λ t, PayloadMatcher_new t true (arg_ignore_case a)) (arg_fixed_string a) in
  let? cel := collect (λ e, map_err InvalidCel (compile e)) (arg_cel a) in
  Ok (mkPredicate (RecordType_from_kind <$> arg_record_type a) (arg_seq_min a) (arg_seq_max a) (arg_ts_min a) (arg_ts_max a)
        (regexes ++ literals) cel FieldFilter_default).

(** [shlex::split] and the argument parser *)
Class ArgParser : Type := {
  shlex_split : text → option (list text);
  parse_args : list text → result text PredicateArgs;
}.
Context {AP : ArgParser}.

Definition parse_filter_query (query : text) (mode : FilterMode) : result QueryError RecordPredicate :=
  let trimmed := trim_text query in
  if bool_decide (trimmed = []) then PredicateArgs_build PredicateArgs_default else
  if negb (starts_with trimmed [45]) then
    match mode with
    | ModeCel => PredicateArgs_build (mkPredicateArgs None None None None None [] [] false [trimmed])
    | ModeStrings => PredicateArgs_build (mkPredicateArgs None None None None None [] [trimmed] false [])
    | ModeRegex => PredicateArgs_build (mkPredicateArgs None None None None None [trimmed] [] false [])
    end
  else
  let? argv := ok_or (shlex_split trimmed) UnterminatedQuotes in
  let? parsed := map_err BadArguments (parse_args (str "view-filter" :: argv)) in
  PredicateArgs_build parsed.

(** ** Matching *)

Definition service_of (r : option ResourceMessage) : option text :=
  r ← r; a ← list.head (filter (λ a, kv_key a = str "service.name") (resource_attributes r)); string_of (kv_value a).

(** [Some allowed && ... && !allowed.contains(x)] *)
Definition refuses (allowed : option (list text)) (x : option text) : bool :=
  match allowed, x with Some allowed, Some x => negb (bool_decide (x ∈ allowed)) | _, _ => false end.

Definition FieldFilter_is_empty (f : FieldFilter) : bool :=
  negb (bool_decide (is_Some (severities f))) && negb (bool_decide (is_Some (services f))).

Definition matches_batch (f : FieldFilter) (batch : ExportLogsServiceRequest) : bool :=
  forallb (λ rl : ResourceLogs,
      negb (refuses (services f) (service_of (rl_resource rl))) &&
      forallb (λ sl : ScopeLogs, forallb (λ lr : LogRecordMessage,
        negb (refuses (severities f) (Some (lr_severity_text lr)))) (log_records sl)) (scope_logs rl))
    (resource_logs batch).

Definition matches_payload (f : FieldFilter) (payload : list Z) : bool :=
  if FieldFilter_is_empty f then true else
  match decode_logs payload with
  | Err _ => true
  | Ok batch => matches_batch f batch
  end.

Definition below (min : option Z) (z : Z) : bool := match min with Some min => z <? min | None => false end.
Definition above (max : option Z) (z : Z) : bool := match max with Some max => max <? z | None => false end.

Definition matches (p : RecordPredicate) (record : OwnedRecord) : bool :=
  if match p_record_type p with Some expected => negb (bool_decide (record_type record = expected)) | None => false end
  then false else
  if below (p_seq_min p) (seq record) then false else
  if above (p_seq_max p) (seq record) then false else
  if below (p_ts_min p) (ts_unix_ns record) then false else
  if above (p_ts_max p) (ts_unix_ns record) then false else
  if negb (forallb (λ m, is_match m (payload record)) (payload_matchers p)) then false else
  if negb (forallb (λ c, match cel_matches_payload c (record_type record) (payload record) with Ok b => b | Err _ => false end)
             (cel_queries p)) then false else
  matches_payload (field_filter p) (payload record).

(** ** The commands *)

Context {EX : Externals} {W : Type} {WW : Write W}.

(** The loop of [count]; an overflow ends it with an error. *)
Definition count_body (p : RecordPredicate) : loop_body (result Error Z) := λ acc record,
  match acc with
  | Err e => (Err e, false)
  | Ok count =>
      if matches p record then
        match checked_add MAX_U64 count 1 with
        | Some count => (Ok count, true)
        | None => (Err (NumericOverflow "count"), false)
        end
      else (Ok count, true)
  end.

(** The result of a loop whose body may fail. *)
Definition flatten_result {E A} (r : result E (result E A)) : result E A :=
  match r with Ok r => r | Err e => Err e end.

Definition count_run (p : RecordPredicate) (reader : LogjetReader) : option (result Error Z) :=
  '(r, _) ← while_records (count_body p) (Ok 0) reader; Some (flatten_result r).

(** The loop of [filter]: the writer and the error that ended it. *)
Definition filter_body (p : RecordPredicate) : loop_body (result Error unit * LogjetWriter W) := λ acc record,
  match acc with
  | (Err e, w) => ((Err e, w), false)
  | (Ok _, w) =>
      if matches p record then
        match push (record_type record) (seq record) (ts_unix_ns record) (payload record) w with
        | (Ok u, w) => ((Ok u, w), true)
        | (Err e, w) => ((Err e, w), false)
        end
      else ((Ok tt, w), true)
  end.

Definition filter_run (p : RecordPredicate) (reader : LogjetReader) (sink : W) (cfg : WriterConfig) : option (result Error W) :=
  '(r, _) ← while_records (filter_body p) (Ok tt, with_config sink cfg) reader;
  match r with
  | Err e => Some (Err e)
  | Ok (Err e, _) => Some (Err e)
  | Ok (Ok _, w) => Some (into_inner w)
  end.
End Predicate.

(** ** What the commands do *)

Section Commands.
Context {OP : OtlpParts} {FL : Floats} {VT : ValueTrees} {LC : LogsCodec} {SC : SignalCodec} {CE : CelEngine} {MA : Matchers} {EX : Externals} {EL : ExternalLaws}.

Definition selected (p : RecordPredicate) (rs : list OwnedRecord) : list OwnedRecord := filter (λ r, matches p r = true) rs.

Lemma count_fold p rs n :
  0 ≤ n → n + len (selected p rs) ≤ MAX_U64 →
  fold_until (count_body p) (Ok n) rs = (Ok (n + len (selected p rs)), true).
Proof.
  unfold selected. revert n. induction rs as [|r rs IH]; intros n Hn Hle; cbn [fold_until].
  { rewrite filter_nil, len_nil, Z.add_0_r. done. }
  rewrite filter_cons in Hle |- *. cbn [count_body]. destruct (matches p r) eqn:E.
  - rewrite decide_True in Hle |- * by done. rewrite len_cons in Hle |- *. pose proof (len_nonneg (filter (λ r, matches p r = true) rs)).
    unfold checked_add. rewrite (proj2 (Z.leb_le _ _)) by int_solve. rewrite IH by lia. do 2 f_equal. lia.
  - rewrite decide_False in Hle |- * by done. by apply IH.
Qed.

Lemma filter_fold `{Write W} p rs (w : LogjetWriter W) :
  (fold_until (filter_body p) (Ok tt, w) rs).1 = push_all (selected p rs) w.
Proof.
  unfold selected. revert w. induction rs as [|r rs IH]; intros w; cbn [fold_until]; [done|].
  rewrite filter_cons. cbn [filter_body]. destruct (matches p r) eqn:E.
  - rewrite decide_True by done. cbn [push_all]. unfold bind.
    destruct (push _ _ _ _ w) as [[[]|e] w']; [apply IH|done].
  - rewrite decide_False by done. apply IH.
Qed.

Lemma StronglySorted_selected (R : OwnedRecord → OwnedRecord → Prop) p rs :
  StronglySorted R rs → StronglySorted R (selected p rs).
Proof.
  unfold selected. induction 1 as [|r rs Hs IH Hr]; [constructor|]. rewrite filter_cons. case_decide; [|done].
  constructor; [done|]. rewrite list.Forall_forall in *. intros x [_ Hx]%list_elem_of_filter. by apply Hr.
Qed.

Lemma Forall_selected (P : OwnedRecord → Prop) p rs : Forall P rs → Forall P (selected p rs).
Proof. rewrite !list.Forall_forall. intros H x [_ Hx]%list_elem_of_filter. by apply H. Qed.

End Commands.

(** ** They apply *)

Section Witness.
#[local] Existing Instances sample_parts logs_codec sample_floats sample_trees sample_engine sample_signals stored_externals stored_laws.

Definition sample_matchers : Matchers := {|
  PayloadMatcher := text; build_regex s _ := Ok s; regex_escape s := s; is_match m p := contains_text p m;
|}.
#[local] Existing Instance sample_matchers.

(** [--type logs --seq-max 3 -F ab], on five records. *)
Definition sample_query : PredicateArgs := mkPredicateArgs (Some KindLogs) None (Some 3) None None [] [str "ab"] false [].
Definition sample_predicate : RecordPredicate :=
  mkPredicate (Some Logs) None (Some 3) None None [str "ab"] [] FieldFilter_default.
Definition query_input : list OwnedRecord := Eval vm_compute in
  [mkRecord Logs 1 4 (str "cab"); mkRecord Metrics 2 5 (str "ab"); mkRecord Logs 3 5 (str "ba"); mkRecord Logs 3 6 (str "abc");
   mkRecord Logs 4 7 (str "ab")].
Definition query_file : list Z := Eval vm_compute in sample_out query_input.

Example sample_query_builds : PredicateArgs_build sample_query = Ok sample_predicate.
Proof. by vm_compute. Qed.

Lemma query_input_ok :
  StronglySorted no_earlier query_input ∧ Forall valid_record query_input ∧
  Forall (fits_reader DEFAULT_MAX_BLOCK_SIZE) query_input ∧ Forall (λ r, len (payload r) + 34 ≤ MAX_U32) query_input.
Proof.
  split_and!; [|repeat constructor; vm_compute; discriminate..].
  repeat constructor; vm_compute; discriminate.
Qed.

Lemma query_file_delivers : delivers (reader_new query_file) query_input.
Proof.
  destruct query_input_ok as (Hs & Hv & Hf & Hl).
  destruct (write_log_delivers sample_wc ReaderConfig_default DEFAULT_MAX_BLOCK_SIZE query_input
    sample_compatible sample_accepts ltac:(done) Hs Hv Hf Hl) as (out & Hw & Hd).
  assert (out = query_file) as -> by (vm_compute in Hw; by injection Hw as <-). by apply Hd.
Qed.

End Witness.
