(* ===== verification/DatasetIndex.v ===== *)
(** * The dataset index

    [ljx/src/dataset_index.rs]: one pass over a log file records, for every block and
    for the whole file, the bounds of the sequence numbers and times, the record types
    and the services and severities that occur, so that the viewer can leave out blocks
    no record of which can match.  The index is kept in a cache file.

    A file is its list of bytes.  The code adds and shifts without checks and slices
    without looking at the length; where that would panic (a build with overflow
    checks), the model has the fault [Panicked]. *)

From stdpp Require Import sorting gmap.
From S2P Require Import Prelude Text Tokens Format Varint Writer Reader Instances Scan Container Otlp Drain Canon FlatRecord SampleCodec Cel Predicate Dedup.

Inductive Fault : Type := Failed (e : Error) | Panicked.

Definition failed {A} (r : result Error A) : result Fault A := map_err Failed r.

(** ** Summaries *)

Definition SUMMARY_LIMIT : Z := 16.

(** The fields that summaries of files and of blocks share. *)
Record Digest : Type := mkDigest {
  d_first_seq : option Z;
  d_last_seq : option Z;
  d_first_ts_unix_ns : option Z;
  d_last_ts_unix_ns : option Z;
  d_record_types : Z;
  d_services : list text;
  d_services_complete : bool;
  d_severities : list text;
  d_severities_complete : bool;
}.
Record IndexSummary : Type := mkIndexSummary { size : Z; modified_ns : option Z; summary_digest : Digest }.
Record IndexBlock : Type := mkIndexBlock { block_offset : Z; block_len : Z; block_digest : Digest }.
Record DatasetIndex : Type := mkDatasetIndex { summary : IndexSummary; blocks : list IndexBlock }.

Definition record_type_bit (kind : RecordType) : Z :=
  match kind with Logs => 1 | Metrics => 2 | Traces => 4 | Events => 8 end.

(** [SummaryBuilder] has the same fields, with sets for the strings. *)
Definition SummaryBuilder_default : Digest := mkDigest None None None None 0 [] true [] true.

(** [HashSet::insert] on a list without duplicates *)
Definition set_insert (v : text) (set : list text) : list text := if decide (v ∈ set) then set else set ++ [v].

Definition insert_capped (value : text) (sc : list text * bool) : list text * bool :=
  let '(set, complete) := sc in
  if negb complete then (set, complete) else
  if (SUMMARY_LIMIT <=? len set) && negb (bool_decide (value ∈ set)) then (set, false) else
  (set_insert value set, complete).

Fixpoint merge_values (values set : list text) : list text * bool :=
  match values with
  | [] => (set, true)
  | value :: values =>
      if (SUMMARY_LIMIT <=? len set) && negb (bool_decide (value ∈ set)) then (set, false) else
      merge_values values (set_insert value set)
  end.
Definition merge_set (sc : list text * bool) (values : list text) (values_complete : bool) : list text * bool :=
  let '(set, complete) := sc in
  if negb complete then (set, complete) else
  if negb values_complete then (set, false) else
  merge_values values set.

Section Summaries.
Context {OP : OtlpParts} {LC : LogsCodec}.

(** The service names and the severities of a payload, in the order of the loops. *)
Definition payload_services (batch : ExportLogsServiceRequest) : list text :=
  concat ((λ rl : ResourceLogs,
    match rl_resource rl with
    | Some resource => omap (λ a, if decide (kv_key a = str "service.name") then string_of (kv_value a) else None)
                         (resource_attributes resource)
    | None => []
    end) <$> resource_logs batch).
Definition payload_severities (batch : ExportLogsServiceRequest) : list text :=
  concat ((λ rl : ResourceLogs, concat ((λ sl : ScopeLogs,
    filter (λ s, s ≠ []) ((λ lr : LogRecordMessage, lr_severity_text lr) <$> (log_records sl : list LogRecordMessage)))
    <$> scope_logs rl)) <$> resource_logs batch).

Definition insert_all (values : list text) (sc : list text * bool) : list text * bool :=
  foldl (λ sc v, insert_capped v sc) sc values.

Definition collect_log_summaries (pl : list Z) (services severities : list text * bool)
    : (list text * bool) * (list text * bool) :=
  match decode_logs pl with
  | Err _ => (services, severities)
  | Ok batch => (insert_all (payload_services batch) services, insert_all (payload_severities batch) severities)
  end.

Definition get_or_insert {A} (o : option A) (a : A) : option A := match o with Some b => Some b | None => Some a end.
Definition opt_or {A} (o o' : option A) : option A := match o with Some a => Some a | None => o' end.

Definition summary_push (b : Digest) (record : OwnedRecord) : Digest :=
  let services := (d_services b, d_services_complete b) in
  let severities := (d_severities b, d_severities_complete b) in
  let '(services, severities) :=
    if decide (record_type record = Logs) then collect_log_summaries (payload record) services severities
    else (services, severities) in
  mkDigest (get_or_insert (d_first_seq b) (seq record)) (Some (seq record))
    (get_or_insert (d_first_ts_unix_ns b) (ts_unix_ns record)) (Some (ts_unix_ns record))
    (Z.lor (d_record_types b) (record_type_bit (record_type record)))
    services.1 services.2 severities.1 severities.2.

Definition summary_merge (b : Digest) (block : IndexBlock) : Digest :=
  let d := block_digest block in
  let services := merge_set (d_services b, d_services_complete b) (d_services d) (d_services_complete d) in
  let severities := merge_set (d_severities b, d_severities_complete b) (d_severities d) (d_severities_complete d) in
  mkDigest (opt_or (d_first_seq b) (d_first_seq d)) (opt_or (d_last_seq d) (d_last_seq b))
    (opt_or (d_first_ts_unix_ns b) (d_first_ts_unix_ns d)) (opt_or (d_last_ts_unix_ns d) (d_last_ts_unix_ns b))
    (Z.lor (d_record_types b) (d_record_types d))
    services.1 services.2 severities.1 severities.2.

(** The sets become sorted vectors. *)
Definition summary_finish (b : Digest) : Digest :=
  mkDigest (d_first_seq b) (d_last_seq b) (d_first_ts_unix_ns b) (d_last_ts_unix_ns b) (d_record_types b)
    (sort_keys (d_services b)) (d_services_complete b) (sort_keys (d_severities b)) (d_severities_complete b).
End Summaries.

(** ** May a record match? *)

Section MayMatch.
Context {OP : OtlpParts} {FL : Floats} {VT : ValueTrees} {LC : LogsCodec} {SC : SignalCodec} {CE : CelEngine} {MA : Matchers}.

Definition bounded_below (min last : option Z) : bool :=
  match min, last with Some min, Some last => last <? min | _, _ => false end.
Definition bounded_above (max first : option Z) : bool :=
  match max, first with Some max, Some first => max <? first | _, _ => false end.
Definition excludes (wanted : option (list text)) (complete : bool) (present : list text) : bool :=
  match wanted with
  | Some wanted => complete && negb (existsb (λ w, existsb (λ v, bool_decide (v = w)) present) wanted)
  | None => false
  end.

Definition may_match (d : Digest) (p : RecordPredicate) : bool :=
  if match p_record_type p with Some kind => Z.land (d_record_types d) (record_type_bit kind) =? 0 | None => false end
  then false else
  if bounded_below (p_seq_min p) (d_last_seq d) then false else
  if bounded_above (p_seq_max p) (d_first_seq d) then false else
  if bounded_below (p_ts_min p) (d_last_ts_unix_ns d) then false else
  if bounded_above (p_ts_max p) (d_first_ts_unix_ns d) then false else
  if excludes (services (field_filter p)) (d_services_complete d) (d_services d) then false else
  if excludes (severities (field_filter p)) (d_severities_complete d) (d_severities d) then false else
  true.
End MayMatch.

(** ** Blocks *)

(** [rest] is [bytes[cursor..]]; a shift by 64 bits or more panics. *)
Fixpoint index_varint_loop (rest : list Z) (value shift : Z) : result Fault (Z * list Z) :=
  match rest with
  | [] => Err (Failed (Truncated "varint"))
  | byte :: rest =>
      if 64 <=? shift then Err Panicked else
      let value := Z.lor value (Z.shiftl (Z.land byte 0x7f) shift mod 2 ^ 64) in
      if Z.land byte 0x80 =? 0 then Ok (value, rest) else
      index_varint_loop rest value (shift + 7)
  end.
Definition index_varint (rest : list Z) : result Fault (Z * list Z) := index_varint_loop rest 0 0.

(** Unchecked addition of [u64]s. *)
Definition panicking_add (a b : Z) : result Fault Z := ok_or (checked_add MAX_U64 a b) Panicked.

(** One turn of the loop of [parse_block_payload]; [total] is the length of the payload,
    so that the cursor is [total - len rest]. *)
Definition index_record (total : Z) (rest : list Z) (ext : BlockHeaderExt) : result Fault (OwnedRecord * list Z) :=
  match rest with
  | [] => Err Panicked
  | byte :: rest =>
      let? record_type := failed (RecordType_from_u8 byte) in
      let? (seq_delta, rest) := index_varint rest in
      let? seq := panicking_add (base_seq ext) seq_delta in
      let? (ts_delta, rest) := index_varint rest in
      let? ts := panicking_add (base_ts_unix_ns ext) ts_delta in
      let? (payload_len, rest) := index_varint rest in
      let? stop := failed (ok_or (checked_add MAX_U64 (total - len rest) payload_len) (NumericOverflow "record payload end")) in
      if total <? stop then Err Panicked else
      Ok (mkRecord record_type seq ts (take (Z.to_nat payload_len) rest), drop (Z.to_nat payload_len) rest)
  end.

(** A turn consumes a byte, so the length of the payload is enough fuel. *)
Fixpoint parse_block_loop (fuel : nat) (total : Z) (rest : list Z) (ext : BlockHeaderExt) : result Fault (list OwnedRecord) :=
  match rest, fuel with
  | [], _ => Ok []
  | _, O => Err Panicked
  | _, S fuel =>
      let? (record, rest) := index_record total rest ext in
      let? records := parse_block_loop fuel total rest ext in
      Ok (record :: records)
  end.
Definition parse_block_payload (pl : list Z) (ext : BlockHeaderExt) : result Fault (list OwnedRecord) :=
  parse_block_loop (length pl) (len pl) pl ext.

Definition read_at (n : nat) (data : list Z) (pos : nat) : result Fault (list Z) :=
  if decide (pos + n ≤ length data)%nat then Ok (slice pos (pos + n) data)
  else Err (Failed (Io (io_error UnexpectedEof "failed to fill whole buffer"))).

Section Blocks.
Context {EX : Externals}.

(** What [read_block_summary] and [read_block_records] do after the sync marker. *)
Definition read_block_payload (data : list Z) (pos : nat) : result Fault (BlockHeader * list OwnedRecord) :=
  let? fixed := read_at (Z.to_nat BLOCK_HEADER_FIXED_LEN) data pos in
  let? header := failed (BlockHeader_decode fixed) in
  let pos := (pos + Z.to_nat BLOCK_HEADER_FIXED_LEN)%nat in
  let ext_len := Z.to_nat (saturating_sub (bh_header_len header) BLOCK_HEADER_FIXED_LEN) in
  let? ext_bytes := read_at ext_len data pos in
  if len ext_bytes <? BLOCK_HEADER_EXT_LEN then Err Panicked else
  let? ext := failed (BlockHeaderExt_decode (take (Z.to_nat BLOCK_HEADER_EXT_LEN) ext_bytes)) in
  let pos := (pos + ext_len)%nat in
  let? compressed := read_at (Z.to_nat (bh_compressed_len header)) data pos in
  let pos := (pos + Z.to_nat (bh_compressed_len header))%nat in
  let? crc := read_at 4 data pos in
  let? pl := failed (decompress (bh_codec header) compressed (bh_uncompressed_len header)) in
  let? records := parse_block_payload pl ext in
  Ok (header, records).

Definition read_block_records (data : list Z) (block : IndexBlock) : result Fault (list OwnedRecord) :=
  let pos := Z.to_nat (block_offset block) in
  let? sync := read_at 8 data pos in
  let? (_, records) := read_block_payload data (pos + 8) in
  Ok records.

Context {OP : OtlpParts} {LC : LogsCodec}.

Definition read_block_summary (data : list Z) (offset : nat) : result Fault (option IndexBlock) :=
  let got := take 8 (drop offset data) in
  if bool_decide (got = []) then Ok None else
  let sync := got ++ replicate (8 - length got) 0 in
  if negb (bool_decide (sync = DEFAULT_SYNC_MARKER)) then Ok None else
  let? (header, records) := read_block_payload data (offset + length got) in
  let len := 8 + bh_header_len header + bh_compressed_len header + 4 in
  Ok (Some (mkIndexBlock (Z.of_nat offset) len (summary_finish (foldl summary_push SummaryBuilder_default records)))).

(** The 4096-byte buffer of [find_next_sync_marker] is read through, the length of the
    partial match is kept from one buffer to the next. *)
Definition find_next_sync_marker (data : list Z) (start size : nat) : option nat :=
  find_sync_loop DEFAULT_SYNC_MARKER (take (size - start) (drop start data)) 0 0 start.

(** A turn of the loop moves the offset forward, so the size is enough fuel; [None] is
    an exhausted fuel, which [build_loop_total] rules out. *)
Fixpoint build_loop (fuel : nat) (data : list Z) (size offset : nat) (blocks : list IndexBlock) (summary : Digest)
    : option (result Fault (list IndexBlock * Digest)) :=
  if decide (size ≤ offset)%nat then Some (Ok (blocks, summary)) else
  match fuel with
  | O => None
  | S fuel =>
      match read_block_summary data offset with
      | Err e => Some (Err e)
      | Ok (Some block) =>
          build_loop fuel data size (Z.to_nat (block_offset block + block_len block)) (blocks ++ [block])
            (summary_merge summary block)
      | Ok None =>
          match find_next_sync_marker data offset size with
          | Some next => build_loop fuel data size next blocks summary
          | None => Some (Ok (blocks, summary))
          end
      end
  end.

Definition build (data : list Z) (size : Z) (modified_ns : option Z) : option (result Fault DatasetIndex) :=
  match build_loop (Z.to_nat size) data (Z.to_nat size) 0 [] SummaryBuilder_default with
  | None => None
  | Some (Err e) => Some (Err e)
  | Some (Ok (blocks, summary)) =>
      if bool_decide (blocks = []) then Some (Err (Failed (InvalidHeader "missing block sync"))) else
      Some (Ok (mkDatasetIndex (mkIndexSummary size modified_ns (summary_finish summary)) blocks))
  end.
End Blocks.

(** ** The cache *)

Definition INDEX_VERSION : Z := 1.

(** What is stored: [DiskSummary] and [DiskBlock] have the fields of the index. *)
Record DiskIndex : Type := mkDiskIndex {
  version : Z;
  source_path : text;
  source_size : Z;
  source_modified_ns : option Z;
  disk_summary : Digest;
  disk_blocks : list IndexBlock;
}.

(** [serde_json] on stored indexes *)
Class IndexJson : Type := {
  index_to_json : DiskIndex → option (list Z);
  index_from_json : list Z → option DiskIndex;
}.
Class IndexJsonLaws `{IndexJson} : Prop := index_from_to_json : ∀ d bs, index_to_json d = Some bs → index_from_json bs = Some d.

Section Cache.
Context {OP : OtlpParts} {LC : LogsCodec} {EX : Externals} {IJ : IndexJson} {XX : Xxh3}.

(** The cache directory, by the hash that names the files in it. *)
#[local] Abbreviation Cache := (gmap Z (list Z)).

Definition from_disk (disk : DiskIndex) : DatasetIndex :=
  mkDatasetIndex (mkIndexSummary (source_size disk) (source_modified_ns disk) (disk_summary disk)) (disk_blocks disk).

Definition load_fresh (path : text) (size : Z) (modified_ns : option Z) (cache : Cache) : option DatasetIndex :=
  bs ← cache !! xxh3_64 path;
  disk ← index_from_json bs;
  if negb (version disk =? INDEX_VERSION) || negb (bool_decide (source_path disk = path)) ||
     negb (source_size disk =? size) || negb (bool_decide (source_modified_ns disk = modified_ns))
  then None else Some (from_disk disk).

(** A cache file that cannot be written is left empty, as [File::create] leaves it. *)
Definition persist (path : text) (index : DatasetIndex) (cache : Cache) : Cache :=
  let disk := mkDiskIndex INDEX_VERSION path (size (summary index)) (modified_ns (summary index))
                (summary_digest (summary index)) (blocks index) in
  <[xxh3_64 path := default [] (index_to_json disk)]> cache.

(** [None] is a panic of the build. *)
Definition load_or_build (path : text) (data : list Z) (size : Z) (modified_ns : option Z) (cache : Cache)
    : option (option DatasetIndex * Cache) :=
  match load_fresh path size modified_ns cache with
  | Some index => Some (Some index, cache)
  | None =>
      match build data size modified_ns with
      | Some (Ok index) => Some (Some index, persist path index cache)
      | Some (Err (Failed _)) => Some (None, cache)
      | Some (Err Panicked) | None => None
      end
  end.
End Cache.

Lemma elem_of_set_insert x v s : x ∈ set_insert v s ↔ x = v ∨ x ∈ s.
Proof. unfold set_insert. case_decide as H; [split; [by right|by intros [->|?]]|]. rewrite elem_of_app, list_elem_of_singleton. tauto. Qed.
