(* ===== verification/IndexTheorems.v ===== *)
(** * The index and the reader agree

    Blocks the reader accepts are read the same way by the index; the index of an
    undamaged file lists its blocks; and leaving out what the index excludes loses no
    record that the query selects and the index classifies. *)

From stdpp Require Import sorting gmap.
From S2P Require Import Prelude Text Tokens Format Varint Writer Reader Instances Scan Container Otlp Drain Canon FlatRecord SampleCodec Cel Predicate Dedup DatasetIndex.

(** ** Parsing *)

Lemma index_varint_loop_agrees rest cursor value shift z c :
  shift < 64 → decode_varint_loop rest cursor value shift = Ok (z, c) →
  (cursor ≤ c ≤ cursor + length rest)%nat ∧ index_varint_loop rest value shift = Ok (z, drop (c - cursor) rest).
Proof.
  revert cursor value shift. induction rest as [|b rest IH]; intros cursor value shift Hs Hd; simpl in Hd; [done|].
  cbn [index_varint_loop]. rewrite (proj2 (Z.leb_gt _ _)) by lia.
  destruct (Z.land b 128 =? 0).
  - injection Hd as <- <-. split; [simpl; lia|]. by replace (S cursor - cursor)%nat with 1%nat by lia.
  - destruct (Z.leb_spec 64 (shift + 7)) as [|Hlt]; [done|].
    destruct (IH (S cursor) _ _ Hlt Hd) as [Hc ->]. split; [simpl; lia|].
    by replace (c - cursor)%nat with (S (c - S cursor)) by lia.
Qed.

Lemma index_varint_agrees bs cursor z c :
  (cursor ≤ length bs)%nat → decode_varint bs cursor = Ok (z, c) →
  (cursor ≤ c ≤ length bs)%nat ∧ index_varint (drop cursor bs) = Ok (z, drop c bs).
Proof.
  intros Hc Hd. destruct (index_varint_loop_agrees _ _ _ 0 _ _ ltac:(lia) Hd) as [Hr Hi].
  rewrite length_drop in Hr. split; [lia|]. unfold index_varint. rewrite Hi, drop_drop.
  by replace (cursor + (c - cursor))%nat with c by lia.
Qed.

Lemma index_record_agrees pl ext cursor r c :
  (cursor ≤ length pl)%nat → parse_record pl ext cursor = Ok (r, c) →
  (cursor < c ≤ length pl)%nat ∧ index_record (len pl) (drop cursor pl) ext = Ok (r, drop c pl).
Proof.
  intros Hc Hp. unfold parse_record in Hp. case_decide as Hlt; [done|].
  destruct (RecordType_from_u8 (byte_at pl cursor)) as [rt|] eqn:Ert; [|done].
  destruct (decode_varint pl (S cursor)) as [[sd c1]|] eqn:E1; [|done].
  destruct (index_varint_agrees pl (S cursor) _ _ ltac:(lia) E1) as [Hc1 I1].
  destruct (decode_varint pl c1) as [[td c2]|] eqn:E2; [|done].
  destruct (index_varint_agrees pl c1 _ _ ltac:(lia) E2) as [Hc2 I2].
  destruct (decode_varint pl c2) as [[n c3]|] eqn:E3; [|done].
  destruct (index_varint_agrees pl c2 _ _ ltac:(lia) E3) as [Hc3 I3].
  unfold try_from in Hp. destruct ((0 <=? n) && (n <=? MAX_U64)) eqn:En; [|done]. cbn [ok_or] in Hp.
  apply andb_true_iff in En as [Hn1%Z.leb_le Hn2%Z.leb_le].
  destruct (checked_add MAX_U64 (Z.of_nat c3) n) as [stop|] eqn:Es; [|done]. cbn [ok_or] in Hp.
  destruct (Z.ltb_spec (len pl) stop) as [|Hstop]; [done|].
  destruct (checked_add MAX_U64 (base_seq ext) sd) as [sq|] eqn:Eq; [|done]. cbn [ok_or] in Hp.
  destruct (checked_add MAX_U64 (base_ts_unix_ns ext) td) as [ts|] eqn:Et; [|done]. cbn [ok_or] in Hp.
  injection Hp as <- <-.
  assert (stop = Z.of_nat c3 + n) as -> by (unfold checked_add in Es; by destruct (_ <=? _); [injection Es as <-|]).
  assert (drop cursor pl = byte_at pl cursor :: drop (S cursor) pl) as ->.
  { destruct (lookup_lt_is_Some_2 pl cursor ltac:(lia)) as [b Hb]. rewrite (drop_S _ _ _ Hb). f_equal. unfold byte_at.
    by rewrite (nth_lookup_Some _ _ _ _ Hb). }
  unfold index_record. rewrite Ert. cbn [failed map_err]. rewrite I1. unfold panicking_add. rewrite Eq. cbn [ok_or].
  rewrite I2, Et. cbn [ok_or]. rewrite I3.
  assert (len pl - len (drop c3 pl) = Z.of_nat c3) as -> by (unfold len; rewrite length_drop; lia).
  rewrite Es. cbn [failed ok_or map_err]. rewrite (proj2 (Z.ltb_ge _ _)) by done.
  unfold len in Hstop. split; [lia|]. unfold slice. rewrite drop_drop.
  replace (Z.to_nat (Z.of_nat c3 + n)) with (c3 + Z.to_nat n)%nat by lia.
  by replace (c3 + Z.to_nat n - c3)%nat with (Z.to_nat n) by lia.
Qed.

Lemma parse_block_loop_agrees n pl ext cursor rs fuel :
  (cursor ≤ length pl)%nat → parse_loop n pl ext cursor = Ok (rs, length pl) → (length pl - cursor ≤ fuel)%nat →
  parse_block_loop fuel (len pl) (drop cursor pl) ext = Ok rs.
Proof.
  revert cursor rs fuel. induction n as [|n IH]; intros cursor rs fuel Hc Hp Hf; cbn [parse_loop] in Hp.
  { injection Hp as <- ->. rewrite drop_all. by destruct fuel. }
  destruct (parse_record pl ext cursor) as [[r c]|] eqn:Er; [|done].
  destruct (parse_loop n pl ext c) as [[rs' c']|] eqn:El; [|done]. injection Hp as <- ->.
  destruct (index_record_agrees _ _ _ _ _ Hc Er) as [Hr Hi].
  destruct (drop cursor pl) as [|b rest] eqn:Ed. { apply (f_equal length) in Ed. rewrite length_drop in Ed. simpl in Ed. lia. }
  destruct fuel as [|fuel]; [lia|]. cbn [parse_block_loop]. rewrite Hi, (IH c rs' fuel); [done|lia|done|lia].
Qed.

Lemma parse_block_payload_agrees pl n ext rs :
  parse_records pl n ext = Ok rs → parse_block_payload pl ext = Ok rs.
Proof.
  unfold parse_records. intros Hp. destruct (parse_loop _ _ _ _) as [[rs' c]|] eqn:E; [|done].
  case_decide as Hc; [|done]. injection Hp as <-. subst c. unfold parse_block_payload.
  rewrite <- (drop_0 pl) at 3. apply (parse_block_loop_agrees (Z.to_nat n)); [lia|done|lia].
Qed.

(** ** Blocks *)

Section Agreement.
Context {EX : Externals} {EL : ExternalLaws}.

Lemma read_at_mid data a b c n pos :
  data = a ++ b ++ c → n = length b → pos = length a → read_at n data pos = Ok b.
Proof.
  intros -> -> ->. unfold read_at. rewrite decide_True by (rewrite !length_app; lia). f_equal. apply slice_app.
Qed.

Lemma read_block_payload_agrees cfg data p q rs :
  length (rc_sync_marker cfg) = 8%nat → block_at cfg data p q rs →
  ∃ h, read_block_payload data (p + 8) = Ok (h, rs) ∧
    Z.of_nat q = Z.of_nat p + 8 + bh_header_len h + bh_compressed_len h + 4 ∧
    take 8 (drop p data) = rc_sync_marker cfg.
Proof.
  intros Hm (h & x & e & c & pl & Hf & Hh & Hd & Hp). exists h.
  pose proof (frame_at_length _ _ _ _ _ _ _ _ Hf Hm Hh) as Hq. destruct Hf as [Hr Hb Hwf Hhc He Hx Hc Hl].
  set (crc := to_le 4 _) in Hb. assert (length crc = 4%nat) as Hcrc by apply length_to_le.
  assert (data = take p data ++ rc_sync_marker cfg ++ BlockHeader_encode h ++ x ++ c ++ crc ++ drop q data) as Edata.
  { rewrite <- (take_drop p data) at 1. f_equal. rewrite <- (take_drop (q - p) (drop p data)) at 1.
    unfold slice in Hb. rewrite Hb, drop_drop, <- !app_assoc. by replace (p + (q - p))%nat with q by lia. }
  assert (length (take p data) = p) as Hlp by (rewrite length_take; lia).
  pose proof (length_BlockHeader_encode h) as Hhl.
  unfold BLOCK_HEADER_TOTAL_LEN, BLOCK_HEADER_FIXED_LEN, BLOCK_HEADER_EXT_LEN, len in *.
  split; [|split; [lia|]].
  2:{ rewrite Edata at 1. rewrite drop_app_length' by done. by rewrite take_app_length' by done. }
  unfold read_block_payload.
  rewrite (read_at_mid data (take p data ++ rc_sync_marker cfg) (BlockHeader_encode h) (x ++ c ++ crc ++ drop q data));
    [|by rewrite <- !app_assoc|done|rewrite length_app; lia].
  rewrite <- (app_nil_r (BlockHeader_encode h)), BlockHeader_decode_encode by done. cbn [failed map_err].
  unfold BLOCK_HEADER_FIXED_LEN, BLOCK_HEADER_EXT_LEN, saturating_sub.
  rewrite (read_at_mid data (take p data ++ rc_sync_marker cfg ++ BlockHeader_encode h) x (c ++ crc ++ drop q data));
    [|by rewrite <- !app_assoc|lia|rewrite !length_app; lia].
  unfold len. rewrite (proj2 (Z.ltb_ge _ _)) by lia. change (Z.to_nat 16) with 16%nat. rewrite He. cbn [failed map_err].
  rewrite (read_at_mid data (take p data ++ rc_sync_marker cfg ++ BlockHeader_encode h ++ x) c (crc ++ drop q data));
    [|by rewrite <- !app_assoc|lia|rewrite !length_app; lia].
  rewrite (read_at_mid data (take p data ++ rc_sync_marker cfg ++ BlockHeader_encode h ++ x ++ c) crc (drop q data));
    [|by rewrite <- !app_assoc|lia|rewrite !length_app; lia].
  rewrite Hd. cbn [failed map_err]. by rewrite (parse_block_payload_agrees _ _ _ _ Hp).
Qed.

Context {OP : OtlpParts} {LC : LogsCodec}.

(** The entry of the index for a block with records [rs] between [p] and [q]. *)
Definition entry_of (p q : nat) (rs : list OwnedRecord) : IndexBlock :=
  mkIndexBlock (Z.of_nat p) (Z.of_nat q - Z.of_nat p) (summary_finish (foldl summary_push SummaryBuilder_default rs)).

Lemma read_block_summary_agrees cfg data p q rs :
  rc_sync_marker cfg = DEFAULT_SYNC_MARKER → block_at cfg data p q rs →
  read_block_summary data p = Ok (Some (entry_of p q rs)) ∧ read_block_records data (entry_of p q rs) = Ok rs.
Proof.
  intros Hm Hb. assert (length (rc_sync_marker cfg) = 8%nat) as Hlen by by rewrite Hm.
  destruct (read_block_payload_agrees cfg data p q rs Hlen Hb) as (h & Hpl & Hq & Ht). rewrite Hm in Ht. split.
  - unfold read_block_summary. rewrite Ht. change (length DEFAULT_SYNC_MARKER) with 8%nat. rewrite Hpl.
    cbn -[Z.add DEFAULT_SYNC_MARKER]. unfold entry_of. do 3 f_equal. lia.
  - unfold read_block_records, entry_of. cbn [block_offset]. rewrite Nat2Z.id.
    unfold read_at. rewrite decide_True; [by rewrite Hpl|].
    apply (f_equal length) in Ht. rewrite length_take, length_drop in Ht. change (length DEFAULT_SYNC_MARKER) with 8%nat in Ht. lia.
Qed.

(** ** Resynchronisation *)

Lemma default_marker_nonempty : DEFAULT_SYNC_MARKER ≠ [].
Proof. done. Qed.

(** Fewer than eight bytes, filled up with zeros, are not the marker. *)
Lemma padded_marker l :
  take 8 l ++ replicate (8 - length (take 8 l)) 0 = DEFAULT_SYNC_MARKER → has_prefix DEFAULT_SYNC_MARKER l = true.
Proof.
  intros E. unfold has_prefix. change (length DEFAULT_SYNC_MARKER) with 8%nat. apply bool_decide_eq_true.
  destruct (decide (8 ≤ length l)%nat) as [Hl|Hl].
  - rewrite length_take in E. replace (8 - 8 `min` length l)%nat with 0%nat in E by lia. by rewrite app_nil_r in E.
  - exfalso. do 8 (destruct l as [|? l]; [discriminate E|]). simpl in Hl. lia.
Qed.

Lemma read_block_summary_none data p :
  has_prefix DEFAULT_SYNC_MARKER (drop p data) = false → read_block_summary data p = Ok None.
Proof.
  intros Hn. unfold read_block_summary. case_bool_decide; [done|].
  rewrite bool_decide_eq_false_2; [done|]. intros E%padded_marker. by rewrite E in Hn.
Qed.

Lemma find_next_sync_marker_spec data start size :
  find_next_sync_marker data start size =
    Nat.add start <$> first_occurrence DEFAULT_SYNC_MARKER (take (size - start) (drop start data)).
Proof.
  unfold find_next_sync_marker. rewrite find_sync_loop_spec by (apply default_marker_self_avoiding || (simpl; lia)).
  rewrite take_0, app_nil_l. by replace (start + 0 - 0)%nat with start by lia.
Qed.

Lemma find_next_after data p size next :
  read_block_summary data p = Ok None → find_next_sync_marker data p size = Some next → (p < next)%nat.
Proof.
  intros Hn Hf. rewrite find_next_sync_marker_spec in Hf. apply fmap_Some in Hf as (k & Hf & ->).
  apply first_occurrence_Some in Hf as [Hf _]; [|done]. destruct k as [|k]; [exfalso|lia].
  rewrite drop_0 in Hf. unfold has_prefix in Hf. apply bool_decide_eq_true in Hf.
  change (length DEFAULT_SYNC_MARKER) with 8%nat in Hf. rewrite take_take in Hf.
  assert (take 8 (drop p data) = DEFAULT_SYNC_MARKER) as Hm.
  { rewrite <- Hf. f_equal. apply (f_equal length) in Hf. rewrite length_take in Hf.
    change (length DEFAULT_SYNC_MARKER) with 8%nat in Hf. lia. }
  unfold read_block_summary in Hn. rewrite Hm in Hn. cbn -[read_block_payload] in Hn.
  by destruct (read_block_payload data (p + 8)) as [[h rs]|].
Qed.

(** ** Building ends *)

Lemma read_block_len data p b :
  bytes data → read_block_summary data p = Ok (Some b) → Z.of_nat p < block_offset b + block_len b.
Proof.
  intros Hb Hr. unfold read_block_summary in Hr. case_bool_decide; [done|]. case_bool_decide; [|done].
  cbn [negb] in Hr. unfold read_block_payload in Hr.
  destruct (read_at _ data _) as [fixed|] eqn:Ef; [|done].
  assert (bytes fixed) as Hfb.
  { unfold read_at in Ef. case_decide; [|done]. injection Ef as <-. unfold slice. by apply Forall_take, Forall_drop. }
  destruct (BlockHeader_decode fixed) as [h|] eqn:Eh; [|done]. cbn [failed map_err] in Hr.
  repeat (case_match; try done). simplify_eq. cbn [block_offset block_len].
  match goal with _ : BlockHeader_decode fixed = Ok ?h |- _ =>
    assert (0 ≤ bh_header_len h ∧ 0 ≤ bh_compressed_len h) as [? ?]; [|lia] end.
  revert Eh. unfold BlockHeader_decode. repeat case_match; try done. intros [= <-]. cbn [bh_header_len bh_compressed_len].
  split; apply from_le_bound; unfold slice; by apply Forall_take, Forall_drop.
Qed.

Lemma build_loop_total data fuel size p acc sm :
  bytes data → (size - p ≤ fuel)%nat → build_loop fuel data size p acc sm ≠ None.
Proof.
  intros Hb. revert p acc sm. induction fuel as [|fuel IH]; intros p acc sm Hf; cbn [build_loop]; (case_decide; [done|]); [lia|].
  destruct (read_block_summary data p) as [[b|]|] eqn:Er; [|destruct (find_next_sync_marker data p size) as [next|] eqn:En|]; [| |done|done].
  - apply IH. pose proof (read_block_len data p b Hb Er). lia.
  - apply IH. pose proof (find_next_after data p size next Er En). lia.
Qed.

(** ** The index of an undamaged file *)

(** From [p] on, [data] holds these blocks, and no marker outside them. *)
Inductive clean (cfg : ReaderConfig) (data : list Z) : nat → list (nat * nat * list OwnedRecord) → Prop :=
| clean_end p : (∀ t, (p ≤ t)%nat → ¬ occurs cfg data t) → clean cfg data p []
| clean_block p s q rs bl :
    (p ≤ s)%nat → (∀ t, (p ≤ t < s)%nat → ¬ occurs cfg data t) → block_at cfg data s q rs →
    clean cfg data q bl → clean cfg data p ((s, q, rs) :: bl).

Definition entries (bl : list (nat * nat * list OwnedRecord)) : list IndexBlock :=
  (λ b, entry_of b.1.1 b.1.2 b.2) <$> bl.
Definition block_records_of (bl : list (nat * nat * list OwnedRecord)) : list OwnedRecord := concat (snd <$> bl).

Lemma clean_readable cfg data p bl : clean cfg data p bl → readable cfg data p (snd <$> bl).
Proof.
  induction 1 as [p H|p s q rs bl Hle Hno Hb Hc IH]; [constructor; intros t Ht Ho; by destruct (H t)|].
  econstructor; [done| |done|done]. intros t Ht Ho. by destruct (Hno t).
Qed.

Lemma not_occurs_false cfg data t :
  rc_sync_marker cfg = DEFAULT_SYNC_MARKER → ¬ occurs cfg data t → has_prefix DEFAULT_SYNC_MARKER (drop t data) = false.
Proof. intros Hm Hno. unfold occurs in Hno. rewrite Hm in Hno. by apply not_true_is_false. Qed.

Lemma find_next_clean cfg data p s :
  rc_sync_marker cfg = DEFAULT_SYNC_MARKER → (p ≤ s ≤ length data)%nat → (∀ t, (p ≤ t < s)%nat → ¬ occurs cfg data t) →
  occurs cfg data s → find_next_sync_marker data p (length data) = Some s.
Proof.
  intros Hm Hps Hno Ho. rewrite find_next_sync_marker_spec, take_ge by (rewrite length_drop; lia).
  rewrite (first_occurrence_skip _ _ (s - p)); [|rewrite length_drop; lia|].
  - rewrite drop_drop. replace (p + (s - p))%nat with s by lia. unfold occurs in Ho. rewrite Hm in Ho.
    rewrite first_occurrence_prefix by done. simpl. f_equal. lia.
  - intros i Hi. rewrite drop_drop. eapply not_occurs_false; [done|]. apply Hno. lia.
Qed.

Lemma find_next_none cfg data p :
  rc_sync_marker cfg = DEFAULT_SYNC_MARKER → (∀ t, (p ≤ t)%nat → ¬ occurs cfg data t) →
  find_next_sync_marker data p (length data) = None.
Proof.
  intros Hm Hno. rewrite find_next_sync_marker_spec, take_ge by (rewrite length_drop; lia).
  destruct (first_occurrence _ _) as [k|] eqn:Hf; [exfalso|done].
  apply first_occurrence_Some in Hf as [Hf _]; [|done]. rewrite drop_drop in Hf.
  apply (Hno (p + k)%nat); [lia|]. unfold occurs. by rewrite Hm.
Qed.

Lemma build_loop_clean cfg data p bl fuel acc sm :
  rc_sync_marker cfg = DEFAULT_SYNC_MARKER → clean cfg data p bl → (length data - p ≤ fuel)%nat →
  build_loop fuel data (length data) p acc sm = Some (Ok (acc ++ entries bl, foldl summary_merge sm (entries bl))).
Proof.
  intros Hm Hc. revert fuel acc sm. induction Hc as [p Hno|p s q rs bl Hps Hno Hb Hc IH]; intros fuel acc sm Hf.
  - unfold entries. simpl. rewrite app_nil_r.
    destruct fuel as [|fuel]; cbn [build_loop]; (case_decide; [done|]); [lia|].
    rewrite read_block_summary_none by (eapply not_occurs_false; [done|apply Hno; lia]).
    by rewrite (find_next_none cfg).
  - pose proof (block_at_range _ _ _ _ _ Hb) as Hrange.
    destruct (read_block_summary_agrees cfg data s q rs Hm Hb) as [Hs _].
    assert (∀ fuel acc sm, (length data - s ≤ fuel)%nat → build_loop fuel data (length data) s acc sm =
      Some (Ok (acc ++ entries ((s, q, rs) :: bl), foldl summary_merge sm (entries ((s, q, rs) :: bl))))) as Hblock.
    { clear fuel acc sm Hf. intros fuel acc sm Hf. destruct fuel as [|fuel]; [lia|]. cbn [build_loop].
      rewrite decide_False by lia. rewrite Hs. cbn [block_offset block_len entry_of].
      replace (Z.to_nat (Z.of_nat s + (Z.of_nat q - Z.of_nat s))) with q by lia.
      rewrite IH by lia. unfold entries. rewrite fmap_cons. cbn [fst snd foldl]. by rewrite <- app_assoc. }
    destruct (decide (p = s)) as [->|Hne]; [by apply Hblock|].
    destruct fuel as [|fuel]; [lia|]. cbn [build_loop]. rewrite decide_False by lia.
    rewrite read_block_summary_none by (eapply not_occurs_false; [done|apply Hno; lia]).
    rewrite (find_next_clean cfg data p s); [apply Hblock; lia|done|lia|done|by eapply block_at_occurs].
Qed.

Lemma build_clean cfg data bl m :
  rc_sync_marker cfg = DEFAULT_SYNC_MARKER → clean cfg data 0 bl → bl ≠ [] →
  build data (len data) m = Some (Ok (mkDatasetIndex
    (mkIndexSummary (len data) m (summary_finish (foldl summary_merge SummaryBuilder_default (entries bl)))) (entries bl))).
Proof.
  intros Hm Hc Hne. unfold build, len. rewrite Nat2Z.id, (build_loop_clean cfg data 0 bl) by (done || lia). cbn [app].
  by destruct bl.
Qed.

Lemma clean_skip cfg data p p' bl :
  (p ≤ p')%nat → (∀ t, (p ≤ t < p')%nat → ¬ occurs cfg data t) → clean cfg data p' bl → clean cfg data p bl.
Proof.
  intros Hle Hno Hc. destruct Hc as [p' Hno'|p' s q rs bl Hps Hno' Hb Hc].
  - constructor. intros t Ht. destruct (decide (t < p')%nat); [apply Hno; lia|apply Hno'; lia].
  - econstructor; [lia| |done|done]. intros t Ht. destruct (decide (t < p')%nat); [apply Hno; lia|apply Hno'; lia].
Qed.

(** What the writer emits is undamaged. *)
Lemma clean_chunks wc rc lim blocks chunks pre :
  compatible wc rc lim → Forall2 (is_block wc) blocks chunks →
  Forall (λ rs, block_records rs ∧ block_fits wc rs) blocks → Forall (Forall (fits_reader lim)) blocks →
  ∃ bl, snd <$> bl = blocks ∧ clean rc (pre ++ concat chunks) (length pre) bl.
Proof.
  intros Hco Hch. pose proof (co_marker _ _ _ Hco) as Em. pose proof (compatible_marker_nonempty _ _ _ Hco) as Hne.
  revert pre. induction Hch as [|rs chunk blocks chunks Hblk Hch IH]; intros pre Hbl Hfr.
  { exists []. split; [done|]. constructor. cbn [concat]. rewrite app_nil_r. intros t Ht Ho. unfold occurs in Ho.
    rewrite drop_ge in Ho by done. by destruct (rc_sync_marker rc). }
  apply Forall_cons_iff in Hbl as [[Hb Hf] Hbl]. apply Forall_cons_iff in Hfr as [Hfr1 Hfr].
  assert (len (encode_payload rs) ≤ lim) as Hlim by by eapply block_fits_reader.
  destruct (is_block_at wc rc lim rs chunk pre (concat chunks) Hco Hblk Hb Hlim) as (frame & pad & Echunk & Hat).
  destruct (IH (pre ++ chunk) Hbl Hfr) as (bl & Ebl & Hc). cbn [concat]. rewrite <- app_assoc in Hc.
  exists ((length pre, (length pre + length frame)%nat, rs) :: bl). split; [by rewrite fmap_cons, Ebl|].
  econstructor; [done|intros; lia|exact Hat|].
  assert (∀ t, (length pre + length frame ≤ t < length (pre ++ chunk))%nat → ¬ occurs rc (pre ++ chunk ++ concat chunks) t) as Hpad.
  { intros t Ht. rewrite Echunk. replace (pre ++ (frame ++ replicate pad 0) ++ concat chunks)
      with ((pre ++ frame) ++ replicate pad 0 ++ concat chunks) by by rewrite <- !app_assoc.
    apply padding_no_marker; [done|by rewrite Em; apply Hco|].
    rewrite Echunk, !length_app, length_replicate in Ht. rewrite length_app. lia. }
  apply (clean_skip _ _ _ (length (pre ++ chunk))); [|done|done]. rewrite Echunk, !length_app. lia.
Qed.

Lemma clean_log wc rc lim rs out :
  compatible wc rc lim → Forall valid_record rs → Forall (fits_reader lim) rs → write_log [] wc rs = Ok out →
  ∃ bl, block_records_of bl = rs ∧ clean rc out 0 bl.
Proof.
  intros Hco Hv Hf Hw. destruct (write_log_Ok [] out wc rs Hv Hw) as (blocks & chunks & <- & Hbl & Hch & Hout).
  simpl in Hout. subst out. destruct (clean_chunks wc rc lim blocks chunks [] Hco Hch Hbl) as (bl & Ebl & Hc).
  { by apply Forall_concat. }
  exists bl. unfold block_records_of. by rewrite Ebl.
Qed.
End Agreement.

(** ** What a summary covers *)

Section Coverage.
Context {OP : OtlpParts} {LC : LogsCodec}.

Definition record_services (r : OwnedRecord) : list text :=
  if decide (record_type r = Logs) then
    match decode_logs (payload r) with Ok batch => payload_services batch | Err _ => [] end
  else [].
Definition record_severities (r : OwnedRecord) : list text :=
  if decide (record_type r = Logs) then
    match decode_logs (payload r) with Ok batch => payload_severities batch | Err _ => [] end
  else [].

(** A set that is complete holds all the values. *)
Definition covers_values (set : list text) (complete : bool) (values : list text) : Prop :=
  complete = true → ∀ v, v ∈ values → v ∈ set.

Record covers (d : Digest) (rs : list OwnedRecord) : Prop := {
  cov_first_seq : d_first_seq d = seq <$> list.head rs;
  cov_last_seq : d_last_seq d = seq <$> list.last rs;
  cov_first_ts : d_first_ts_unix_ns d = ts_unix_ns <$> list.head rs;
  cov_last_ts : d_last_ts_unix_ns d = ts_unix_ns <$> list.last rs;
  cov_types : ∀ r, r ∈ rs → Z.land (d_record_types d) (record_type_bit (record_type r)) ≠ 0;
  cov_services : covers_values (d_services d) (d_services_complete d) (concat (record_services <$> rs));
  cov_severities : covers_values (d_severities d) (d_severities_complete d) (concat (record_severities <$> rs));
}.

Lemma insert_all_covers vs values sc :
  covers_values sc.1 sc.2 values → covers_values (insert_all vs sc).1 (insert_all vs sc).2 (values ++ vs).
Proof.
  unfold insert_all. revert values sc. induction vs as [|v vs IH]; intros values sc Hc; [by rewrite app_nil_r|].
  cbn [foldl].
  replace (values ++ v :: vs) with ((values ++ [v]) ++ vs) by by rewrite <- app_assoc.
  apply IH. destruct sc as [set []]; cbn [insert_capped negb fst snd] in *; [|done].
  destruct ((SUMMARY_LIMIT <=? len set) && negb (bool_decide (v ∈ set))); [done|].
  intros _ x [Hx|Hx%list_elem_of_singleton]%elem_of_app; apply elem_of_set_insert; [right; by apply Hc|by left].
Qed.

Lemma merge_values_covers vs set :
  covers_values (merge_values vs set).1 (merge_values vs set).2 (set ++ vs).
Proof.
  revert set. induction vs as [|v vs IH]; intros set; cbn [merge_values]; [by intros _ x; rewrite app_nil_r|].
  destruct ((SUMMARY_LIMIT <=? len set) && negb (bool_decide (v ∈ set))); [done|].
  intros Hc x Hx. apply IH; [done|]. rewrite elem_of_app, elem_of_set_insert. rewrite elem_of_app, elem_of_cons in Hx. tauto.
Qed.

Lemma merge_set_covers sc values complete vs1 vs2 :
  covers_values sc.1 sc.2 vs1 → covers_values values complete vs2 →
  covers_values (merge_set sc values complete).1 (merge_set sc values complete).2 (vs1 ++ vs2).
Proof.
  destruct sc as [set []]; cbn [merge_set negb fst snd]; [|done]. destruct complete; cbn [negb]; [|done].
  intros H1 H2 Hc x Hx. apply merge_values_covers; [done|].
  rewrite elem_of_app in Hx |- *. destruct Hx; [left; by apply H1|right; by apply H2].
Qed.

Lemma covers_default : covers SummaryBuilder_default [].
Proof. split; try done; [by intros ? ?%elem_of_nil|by intros ? ? ?%elem_of_nil..]. Qed.

Lemma lor_types a b c : Z.land a c ≠ 0 ∨ Z.land b c ≠ 0 → Z.land (Z.lor a b) c ≠ 0.
Proof. rewrite Z.land_lor_distr_l, Z.lor_eq_0_iff. tauto. Qed.

Lemma record_type_bit_self k : Z.land (record_type_bit k) (record_type_bit k) ≠ 0.
Proof. by destruct k. Qed.

Lemma head_app {A} (l k : list A) : list.head (l ++ k) = match list.head l with Some a => Some a | None => list.head k end.
Proof. by destruct l. Qed.
Lemma last_app_or {A} (l k : list A) : list.last (l ++ k) = match list.last k with Some a => Some a | None => list.last l end.
Proof. apply last_app. Qed.

Lemma covers_push d rs r : covers d rs → covers (summary_push d r) (rs ++ [r]).
Proof.
  intros [H1 H2 H3 H4 H5 H6 H7]. unfold summary_push.
  assert (∃ sv se, (if decide (record_type r = Logs)
      then collect_log_summaries (payload r) (d_services d, d_services_complete d) (d_severities d, d_severities_complete d)
      else ((d_services d, d_services_complete d), (d_severities d, d_severities_complete d))) = (sv, se) ∧
    covers_values sv.1 sv.2 (concat (record_services <$> rs) ++ record_services r) ∧
    covers_values se.1 se.2 (concat (record_severities <$> rs) ++ record_severities r)) as (sv & se & -> & Hsv & Hse).
  { unfold record_services at 2, record_severities at 2. case_decide; [|eexists _, _; rewrite !app_nil_r; by split_and!].
    unfold collect_log_summaries. destruct (decode_logs (payload r)); [|eexists _, _; rewrite !app_nil_r; by split_and!].
    eexists _, _. split; [done|]. split; by apply insert_all_covers. }
  split; cbn [d_first_seq d_last_seq d_first_ts_unix_ns d_last_ts_unix_ns d_record_types d_services d_services_complete
    d_severities d_severities_complete].
  - rewrite head_app, H1. by destruct (list.head rs).
  - by rewrite last_snoc.
  - rewrite head_app, H3. by destruct (list.head rs).
  - by rewrite last_snoc.
  - intros x [Hx| ->%list_elem_of_singleton]%elem_of_app; apply lor_types; [left; by apply H5|right; apply record_type_bit_self].
  - rewrite fmap_app, concat_app. simpl. by rewrite app_nil_r.
  - rewrite fmap_app, concat_app. simpl. by rewrite app_nil_r.
Qed.

Lemma covers_pushes d rs0 rs : covers d rs0 → covers (foldl summary_push d rs) (rs0 ++ rs).
Proof.
  revert d rs0. induction rs as [|r rs IH]; intros d rs0 Hc; [by rewrite app_nil_r|]. cbn [foldl].
  replace (rs0 ++ r :: rs) with ((rs0 ++ [r]) ++ rs) by by rewrite <- app_assoc. by apply IH, covers_push.
Qed.

Lemma covers_finish d rs : covers d rs → covers (summary_finish d) rs.
Proof.
  intros [H1 H2 H3 H4 H5 H6 H7]. split; try done; intros Hc v Hv; unfold summary_finish, sort_keys;
    cbn [d_services d_severities]; rewrite merge_sort_Permutation; auto.
Qed.

Lemma covers_merge d rs b rs' : covers d rs → covers (block_digest b) rs' → covers (summary_merge d b) (rs ++ rs').
Proof.
  intros [H1 H2 H3 H4 H5 H6 H7] [K1 K2 K3 K4 K5 K6 K7]. split; unfold summary_merge;
    cbn [d_first_seq d_last_seq d_first_ts_unix_ns d_last_ts_unix_ns d_record_types d_services d_services_complete
    d_severities d_severities_complete].
  - rewrite head_app, H1, K1. by destruct (list.head rs).
  - rewrite last_app_or, H2, K2. by destruct (list.last rs').
  - rewrite head_app, H3, K3. by destruct (list.head rs).
  - rewrite last_app_or, H4, K4. by destruct (list.last rs').
  - intros x [Hx|Hx]%elem_of_app; apply lor_types; auto.
  - rewrite fmap_app, concat_app. by apply merge_set_covers.
  - rewrite fmap_app, concat_app. by apply merge_set_covers.
Qed.

Lemma covers_entry p q rs : covers (block_digest (entry_of p q rs)) rs.
Proof. apply covers_finish. apply (covers_pushes _ []). apply covers_default. Qed.

Lemma covers_entries d rs bl :
  covers d rs → covers (foldl summary_merge d (entries bl)) (rs ++ block_records_of bl).
Proof.
  unfold entries, block_records_of. revert d rs. induction bl as [|[[p q] b] bl IH]; intros d rs Hc; [by rewrite app_nil_r|].
  rewrite !fmap_cons. cbn [fst snd foldl concat]. rewrite app_assoc. apply IH, covers_merge; [done|apply covers_entry].
Qed.
End Coverage.

(** ** Pruning *)

Section Pruning.
Context {OP : OtlpParts} {FL : Floats} {VT : ValueTrees} {LC : LogsCodec} {SC : SignalCodec} {CE : CelEngine} {MA : Matchers}.

(** The index can tell whether the record belongs: where the query names services, the
    record is a log request with a resource that names its service, and where it names
    severities, it has a log record with a severity. *)
Definition classified (p : RecordPredicate) (r : OwnedRecord) : Prop :=
  (is_Some (services (field_filter p)) → record_type r = Logs ∧ ∃ batch rl svc,
     decode_logs (payload r) = Ok batch ∧ rl ∈ resource_logs batch ∧ service_of (rl_resource rl) = Some svc) ∧
  (is_Some (severities (field_filter p)) → record_type r = Logs ∧ ∃ batch rl (sl : ScopeLogs) (lr : LogRecordMessage),
     decode_logs (payload r) = Ok batch ∧ rl ∈ resource_logs batch ∧ sl ∈ scope_logs rl ∧ lr ∈ log_records sl ∧
     lr_severity_text lr ≠ []).

Lemma matches_inv p r :
  matches p r = true →
  match p_record_type p with Some kind => record_type r = kind | None => True end ∧
  below (p_seq_min p) (seq r) = false ∧ above (p_seq_max p) (seq r) = false ∧
  below (p_ts_min p) (ts_unix_ns r) = false ∧ above (p_ts_max p) (ts_unix_ns r) = false ∧
  matches_payload (field_filter p) (payload r) = true.
Proof.
  unfold matches. intros H. repeat match type of H with (if ?b then false else _) = true => destruct b eqn:?; [done|] end.
  split_and!; try done. destruct (p_record_type p) as [k|]; [|done]. by case_bool_decide.
Qed.

Lemma service_of_listed batch rl svc :
  rl ∈ resource_logs batch → service_of (rl_resource rl) = Some svc → svc ∈ payload_services batch.
Proof.
  intros Hrl Hs. unfold payload_services. apply list_elem_of_In, in_concat.
  destruct (rl_resource rl) as [res|] eqn:Er; [|done]. cbn [service_of mbind option_bind] in Hs.
  destruct (list.head _) as [a|] eqn:Ea; [|done].
  eexists. split; [apply list_elem_of_In, list_elem_of_fmap; exists rl; split; [done|exact Hrl]|].
  rewrite Er. apply list_elem_of_In, list_elem_of_omap. exists a.
  assert (a ∈ filter (λ a, kv_key a = str "service.name") (resource_attributes res)) as [Hk Ha]%list_elem_of_filter.
  { destruct (filter _ _); [done|]. injection Ea as ->. left. }
  split; [done|]. by rewrite decide_True.
Qed.

Lemma severity_listed batch rl (sl : ScopeLogs) (lr : LogRecordMessage) :
  rl ∈ resource_logs batch → sl ∈ scope_logs rl → lr ∈ log_records sl → lr_severity_text lr ≠ [] →
  lr_severity_text lr ∈ payload_severities batch.
Proof.
  intros Hrl Hsl Hlr Hne. unfold payload_severities. apply list_elem_of_In, in_concat.
  eexists. split; [apply list_elem_of_In, list_elem_of_fmap; exists rl; split; [done|exact Hrl]|]. apply in_concat.
  eexists. split; [apply list_elem_of_In, list_elem_of_fmap; exists sl; split; [done|exact Hsl]|].
  apply list_elem_of_In, list_elem_of_filter. split; [done|]. apply list_elem_of_fmap. by exists lr.
Qed.

Lemma elem_of_concat_fmap {A B} (f : A → list B) l a x : a ∈ l → x ∈ f a → x ∈ concat (f <$> l).
Proof.
  intros Ha Hx. apply list_elem_of_In, in_concat. exists (f a). split; [|by apply list_elem_of_In].
  apply list_elem_of_In, list_elem_of_fmap. by exists a.
Qed.

Lemma not_excludes wanted complete present x :
  x ∈ wanted → (complete = true → x ∈ present) → excludes (Some wanted) complete present = false.
Proof.
  intros Hx Hp. unfold excludes. destruct complete; [|done]. cbn [andb].
  apply negb_false_iff, existsb_exists. exists x. split; [by apply list_elem_of_In|].
  apply existsb_exists. exists x. split; [apply list_elem_of_In; by apply Hp|by apply bool_decide_eq_true].
Qed.

Lemma sorted_first (rs : list OwnedRecord) r r0 :
  StronglySorted no_earlier rs → r ∈ rs → list.head rs = Some r0 → no_earlier r0 r.
Proof.
  intros Hs Hr H0. destruct rs as [|x rs]; [done|]. injection H0 as ->. apply StronglySorted_inv in Hs as [_ Hs].
  apply elem_of_cons in Hr as [->|Hr]; [split; lia|]. rewrite list.Forall_forall in Hs. by apply Hs.
Qed.

Lemma sorted_last (rs : list OwnedRecord) r r1 :
  StronglySorted no_earlier rs → r ∈ rs → list.last rs = Some r1 → no_earlier r r1.
Proof.
  induction 1 as [|x rs Hs IH Hx]; intros Hr H1; [by apply elem_of_nil in Hr|].
  apply elem_of_cons in Hr as [->|Hr].
  - destruct rs as [|y rs]; [injection H1 as <-; split; lia|]. rewrite list.Forall_forall in Hx. apply Hx.
    change (list.last (x :: y :: rs)) with (list.last (y :: rs)) in H1. apply list.last_Some in H1 as [l ->]. apply elem_of_app. right. left.
  - apply IH; [done|]. by destruct rs as [|y rs]; [apply elem_of_nil in Hr|].
Qed.

Lemma services_kept p r d :
  matches_payload (field_filter p) (payload r) = true → classified p r →
  covers_values (d_services d) (d_services_complete d) (record_services r) →
  excludes (services (field_filter p)) (d_services_complete d) (d_services d) = false.
Proof.
  intros Hm [Hc _] Hcov. destruct (services (field_filter p)) as [wanted|] eqn:Ew; [|done].
  destruct (Hc ltac:(done)) as (Hl & batch & rl & svc & Hd & Hrl & Hsvc).
  apply (not_excludes _ _ _ svc).
  - unfold matches_payload, FieldFilter_is_empty in Hm. rewrite Ew, Hd in Hm. cbn -[matches_batch] in Hm.
    rewrite andb_false_r in Hm. unfold matches_batch in Hm. rewrite forallb_forall in Hm.
    specialize (Hm rl (proj1 (list_elem_of_In _ _) Hrl)). apply andb_true_iff in Hm as [Hm _].
    rewrite Ew, Hsvc in Hm. cbn [refuses] in Hm. by case_bool_decide.
  - intros Ht. apply Hcov; [done|]. unfold record_services. rewrite decide_True, Hd by done. by eapply service_of_listed.
Qed.

Lemma severities_kept p r d :
  matches_payload (field_filter p) (payload r) = true → classified p r →
  covers_values (d_severities d) (d_severities_complete d) (record_severities r) →
  excludes (severities (field_filter p)) (d_severities_complete d) (d_severities d) = false.
Proof.
  intros Hm [_ Hc] Hcov. destruct (severities (field_filter p)) as [wanted|] eqn:Ew; [|done].
  destruct (Hc ltac:(done)) as (Hl & batch & rl & sl & lr & Hd & Hrl & Hsl & Hlr & Hne).
  apply (not_excludes _ _ _ (lr_severity_text lr)).
  - unfold matches_payload, FieldFilter_is_empty in Hm. rewrite Ew, Hd in Hm. cbn -[matches_batch] in Hm.
    unfold matches_batch in Hm. rewrite forallb_forall in Hm.
    specialize (Hm rl (proj1 (list_elem_of_In _ _) Hrl)). apply andb_true_iff in Hm as [_ Hm].
    rewrite forallb_forall in Hm. specialize (Hm sl (proj1 (list_elem_of_In _ _) Hsl)).
    rewrite forallb_forall in Hm. specialize (Hm lr (proj1 (list_elem_of_In _ _) Hlr)).
    rewrite Ew in Hm. cbn [refuses] in Hm. by case_bool_decide.
  - intros Ht. apply Hcov; [done|]. unfold record_severities. rewrite decide_True, Hd by done. by eapply severity_listed.
Qed.

Lemma covers_values_part set complete f (rs : list OwnedRecord) r :
  r ∈ rs → covers_values set complete (concat (f <$> rs)) → covers_values set complete (f r).
Proof. intros Hr Hc Ht v Hv. apply Hc; [done|]. by eapply elem_of_concat_fmap. Qed.

(** A summary that covers sorted records lets through every query one of them answers. *)
Lemma covers_may_match d rs p r :
  covers d rs → StronglySorted no_earlier rs → r ∈ rs → matches p r = true → classified p r → may_match d p = true.
Proof.
  intros Hcov Hs Hr (Ht & Hsmin & Hsmax & Htmin & Htmax & Hpl)%matches_inv Hcl.
  destruct Hcov as [H1 H2 H3 H4 H5 H6 H7]. unfold may_match.
  assert (match p_record_type p with Some kind => Z.land (d_record_types d) (record_type_bit kind) =? 0 | None => false end = false) as ->.
  { destruct (p_record_type p) as [k|]; [|done]. subst k. apply Z.eqb_neq. by apply H5. }
  assert (bounded_below (p_seq_min p) (d_last_seq d) = false ∧ bounded_below (p_ts_min p) (d_last_ts_unix_ns d) = false) as [-> ->].
  { rewrite H2, H4. destruct (list.last rs) as [r1|] eqn:El; [|by destruct (p_seq_min p), (p_ts_min p)].
    destruct (sorted_last rs r r1 Hs Hr El) as [Hq Ht1]. unfold bounded_below. simpl.
    destruct (p_seq_min p), (p_ts_min p); simpl in *; rewrite ?Z.ltb_ge in *; split; try done; lia. }
  assert (bounded_above (p_seq_max p) (d_first_seq d) = false ∧ bounded_above (p_ts_max p) (d_first_ts_unix_ns d) = false) as [-> ->].
  { rewrite H1, H3. destruct (list.head rs) as [r0|] eqn:El; [|by destruct (p_seq_max p), (p_ts_max p)].
    destruct (sorted_first rs r r0 Hs Hr El) as [Hq Ht1]. unfold bounded_above. simpl.
    destruct (p_seq_max p), (p_ts_max p); simpl in *; rewrite ?Z.ltb_ge in *; split; try done; lia. }
  rewrite (services_kept p r d) by eauto using covers_values_part.
  by rewrite (severities_kept p r d) by eauto using covers_values_part.
Qed.
End Pruning.

(** ** The cache *)

Section CacheFacts.
Context {OP : OtlpParts} {LC : LogsCodec} {EX : Externals} {IJ : IndexJson} {IL : IndexJsonLaws} {XX : Xxh3}.

Lemma load_fresh_Some path sz m cache idx :
  load_fresh path sz m cache = Some idx ↔
  ∃ bs disk, cache !! xxh3_64 path = Some bs ∧ index_from_json bs = Some disk ∧ version disk = INDEX_VERSION ∧
    source_path disk = path ∧ source_size disk = sz ∧ source_modified_ns disk = m ∧ idx = from_disk disk.
Proof.
  unfold load_fresh. split.
  - destruct (cache !! xxh3_64 path) as [bs|] eqn:Ec; [|done]. cbn [mbind option_bind].
    destruct (index_from_json bs) as [disk|] eqn:Ed; [|done]. cbn [mbind option_bind].
    destruct (Z.eqb_spec (version disk) INDEX_VERSION); [|done]. case_bool_decide; [|done].
    destruct (Z.eqb_spec (source_size disk) sz); [|done]. case_bool_decide; [|done]. intros [= <-]. by exists bs, disk.
  - intros (bs & disk & -> & E & Hv & Hp & Hs & Hm & ->). cbn [mbind option_bind]. rewrite E. cbn [mbind option_bind].
    rewrite Hv, Hs, !Z.eqb_refl, !bool_decide_eq_true_2 by done. done.
Qed.

(** The index cache.  After an index was loaded or built for a file, the same request
    is answered from the cache with the same index; for another size or modification
    time of the file, or for another file whose name has the same hash, the cached index
    is not used. *)
Theorem index_cache_serves_fresh_only path data sz m cache idx cache' :
  (∀ d, is_Some (index_to_json d)) → load_or_build path data sz m cache = Some (Some idx, cache') →
  load_fresh path sz m cache' = Some idx ∧ size (summary idx) = sz ∧ modified_ns (summary idx) = m ∧
  (∀ sz' m', (sz', m') ≠ (sz, m) → load_fresh path sz' m' cache' = None) ∧
  (∀ path' sz' m', path' ≠ path → xxh3_64 path' = xxh3_64 path → load_fresh path' sz' m' cache' = None).
Proof.
  intros Hjson Hlb.
  assert (load_fresh path sz m cache' = Some idx) as Hf.
  { unfold load_or_build in Hlb. destruct (load_fresh path sz m cache) as [i|] eqn:E; [by simplify_eq|].
    destruct (build data sz m) as [[i|[]]|] eqn:Eb; simplify_eq. apply load_fresh_Some.
    assert (size (summary idx) = sz ∧ modified_ns (summary idx) = m) as [Es Em].
    { unfold build in Eb. repeat case_match; simplify_eq. done. }
    destruct (Hjson (mkDiskIndex INDEX_VERSION path sz m (summary_digest (summary idx)) (DatasetIndex.blocks idx))) as [bs Hbs].
    eexists bs, _. unfold persist. rewrite Es, Em, Hbs, lookup_insert_eq. split_and!; [done|by apply index_from_to_json|done..|].
    unfold from_disk. cbn [source_size source_modified_ns disk_summary disk_blocks]. destruct idx as [[? ? ?] ?]. by simplify_eq/=. }
  pose proof Hf as (bs & disk & Hc & Hd & Hv & Hp & Hs & Hm & ->)%load_fresh_Some.
  assert (∀ path' sz' m' i, xxh3_64 path' = xxh3_64 path → load_fresh path' sz' m' cache' = Some i →
    path' = path ∧ sz' = sz ∧ m' = m) as Huniq.
  { intros path' sz' m' i Eh (bs' & disk' & Hc' & Hd' & _ & Hp' & Hs' & Hm' & _)%load_fresh_Some.
    rewrite Eh in Hc'. simplify_eq. done. }
  split_and!; [done|done|done| |].
  - intros sz' m' Hne. destruct (load_fresh path sz' m' cache') eqn:E; [|done]. destruct (Huniq path sz' m' _ eq_refl E) as (_ & -> & ->). done.
  - intros path' sz' m' Hne Eh. destruct (load_fresh path' sz' m' cache') eqn:E; [|done]. by destruct (Huniq path' sz' m' _ Eh E).
Qed.
End CacheFacts.

(** It applies: a code for indexes, and a hash under which all names collide. *)
Section CacheWitness.
#[local] Existing Instances sample_parts logs_codec stored_externals.

#[local] Instance coded_bool : Coded bool.
Proof. refine (coded_via (λ b : bool, if b then 1 else 0) (λ z, z =? 1) _). by intros []. Defined.
#[local] Instance coded_digest : Coded Digest.
Proof.
  refine (coded_via (B := option Z * option Z * option Z * option Z * Z * list (list Z) * bool * list (list Z) * bool)
    (λ d, (d_first_seq d, d_last_seq d, d_first_ts_unix_ns d, d_last_ts_unix_ns d, d_record_types d, d_services d,
      d_services_complete d, d_severities d, d_severities_complete d))
    (λ '(a, b, c, d, e, f, g, h, i), mkDigest a b c d e f g h i) _). by intros [].
Defined.
#[local] Instance coded_index_block : Coded IndexBlock.
Proof.
  refine (coded_via (B := Z * Z * Digest) (λ b, (block_offset b, block_len b, block_digest b)) (λ x, mkIndexBlock x.1.1 x.1.2 x.2) _).
  by intros [].
Defined.
#[local] Instance coded_disk_index : Coded DiskIndex.
Proof.
  refine (coded_via (B := Z * list Z * Z * option Z * Digest * list IndexBlock)
    (λ d, (version d, source_path d, source_size d, source_modified_ns d, disk_summary d, disk_blocks d))
    (λ '(a, b, c, d, e, f), mkDiskIndex a b c d e f) _). by intros [].
Defined.

Definition sample_index_json : IndexJson := {|
  index_to_json d := Some (put d);
  index_from_json bs := match get bs with Some (d, []) => Some d | _ => None end;
|}.
#[local] Existing Instance sample_index_json.
#[local] Instance sample_index_json_laws : IndexJsonLaws.
Proof.
  intros d bs E. pose proof (get_put d []) as Hg. rewrite app_nil_r in Hg.
  assert (put d = bs) as <- by (by injection E). unfold index_from_json, sample_index_json. by rewrite Hg.
Qed.
Definition colliding_hash : Xxh3 := {| xxh3_64 _ := 0 |}.
#[local] Existing Instance colliding_hash.

Definition cached : option DatasetIndex * gmap Z (list Z) :=
  match load_or_build (str "a.logjet") query_file (len query_file) (Some 5) ∅ with Some x => x | None => (None, ∅) end.

Lemma index_cache_serves_fresh_only_witness : ∃ idx, cached.1 = Some idx ∧
  load_fresh (str "a.logjet") (len query_file) (Some 5) cached.2 = Some idx ∧
  load_fresh (str "a.logjet") (len query_file) (Some 6) cached.2 = None ∧
  load_fresh (str "b.logjet") (len query_file) (Some 5) cached.2 = None.
Proof.
  destruct cached as [[idx|] cache'] eqn:E; [|vm_compute in E; discriminate E].
  exists idx. split; [reflexivity|].
  destruct (index_cache_serves_fresh_only (str "a.logjet") query_file (len query_file) (Some 5) ∅ idx cache')
    as (H1 & _ & _ & H2 & H3).
  - intros d. by eexists.
  - unfold cached in E. destruct (load_or_build _ _ _ _ _) as [x|]; [by rewrite E|discriminate E].
  - split_and!; [exact H1|by apply H2|by apply H3].
Defined.
End CacheWitness.
