(* ===== verification/ViewScan.v ===== *)
(** * The scan of the viewer

    [ljx/src/commands/view/scan.rs]: the worker that finds the records a query selects,
    one file after the other or merged by sequence number or time, copies them into a
    temporary spool and sends their descriptions to the screen in batches; and the
    export of a selection in the order in which it is shown.

    The flag that cancels a scan and the far end of the channel belong to the screen's
    thread: [cancel n] is the flag at the [n]-th time it is looked at, [connected n]
    tells whether the receiver is still there when the [n]-th batch is sent.  A file is
    its bytes, and [stream idx data] opens it. *)

From S2P Require Import Prelude Text Tokens Format Writer Reader Scan RecordLoop Otlp FlatRecord Cel Predicate Dedup DatasetIndex.

(** ** Data *)

Inductive ViewOrder : Type := Concat | MergeSeq | MergeTs.

Record EntryMeta : Type := mkEntryMeta {
  em_offset : Z;
  em_record_type : RecordType;
  em_seq : Z;
  em_ts_unix_ns : Z;
  em_payload_len : Z;
  em_source_path : text;
}.
Record DetailRecord : Type := mkDetailRecord { detail_meta : EntryMeta; detail_payload : list Z }.

(** An input of the dataset, with [entry_data] for what the file at the path holds. *)
Record DatasetEntry : Type := mkDatasetEntry {
  entry_path : text;
  entry_data : list Z;
  entry_size : Z;
  entry_modified_ns : option Z;
  entry_first_seq : option Z;
  entry_last_seq : option Z;
  entry_first_ts_unix_ns : option Z;
  entry_last_ts_unix_ns : option Z;
  entry_index : option DatasetIndex;
}.

(** The struct that [DatasetEntry::from_path] fills in. *)
Definition entry_of (path : text) (data : list Z) (size : Z) (modified_ns : option Z) (index : option DatasetIndex) : DatasetEntry :=
  let digest := summary_digest ∘ summary in
  mkDatasetEntry path data size modified_ns
    (index ≫= λ idx, d_first_seq (digest idx)) (index ≫= λ idx, d_last_seq (digest idx))
    (index ≫= λ idx, d_first_ts_unix_ns (digest idx)) (index ≫= λ idx, d_last_ts_unix_ns (digest idx)) index.

Inductive ViewError : Type := ViewFault (f : Fault) | Disconnected.

Record ScanState : Type := mkScanState {
  spool : list Z;
  scanned : Z;
  matched : Z;
  tx_batch : list EntryMeta;
  sent : list (list EntryMeta);
  polls : nat;
}.
Definition ScanState_new : ScanState := mkScanState [] 0 0 [] [] 0.

Definition set_spool (s : list Z) (st : ScanState) : ScanState :=
  mkScanState s (scanned st) (matched st) (tx_batch st) (sent st) (polls st).
Definition set_scanned (n : Z) (st : ScanState) : ScanState :=
  mkScanState (spool st) n (matched st) (tx_batch st) (sent st) (polls st).
Definition set_matched (n : Z) (st : ScanState) : ScanState :=
  mkScanState (spool st) (scanned st) n (tx_batch st) (sent st) (polls st).
Definition set_batch (b : list EntryMeta) (st : ScanState) : ScanState :=
  mkScanState (spool st) (scanned st) (matched st) b (sent st) (polls st).
Definition set_sent (b : list (list EntryMeta)) (st : ScanState) : ScanState :=
  mkScanState (spool st) (scanned st) (matched st) (tx_batch st) b (polls st).
Definition set_polls (n : nat) (st : ScanState) : ScanState :=
  mkScanState (spool st) (scanned st) (matched st) (tx_batch st) (sent st) n.

Definition SCAN_BATCH_SIZE : Z := 128.

(** ** The spool *)

Definition write_spool_record (file : list Z) (record : OwnedRecord) (source_path : text) : list Z * EntryMeta :=
  let offset := len file in
  let payload_len := len (payload record) in
  (file ++ [RecordType_as_u8 (record_type record)] ++ to_le 8 (seq record) ++ to_le 8 (ts_unix_ns record) ++
     to_le 8 payload_len ++ payload record,
   mkEntryMeta offset (record_type record) (seq record) (ts_unix_ns record) payload_len source_path).

Definition read_spool_record (file : list Z) (meta : EntryMeta) : result Fault DetailRecord :=
  let? pl := read_at (Z.to_nat (em_payload_len meta)) file (Z.to_nat (em_offset meta + 1 + 8 + 8 + 8)) in
  Ok (mkDetailRecord meta pl).

Section Scan.
Context {OP : OtlpParts} {FL : Floats} {VT : ValueTrees} {LC : LogsCodec} {SC : SignalCodec} {CE : CelEngine} {MA : Matchers}.
Context {EX : Externals}.
Context (cancel connected : nat → bool) (predicate : RecordPredicate).

Local Abbreviation SM := (M ScanState ViewError).

Definition poll : SM bool := λ st, (Ok (cancel (polls st)), set_polls (S (polls st)) st).

Definition count_scanned : SM unit :=
  let! n := gets scanned in
  let! n := lift (ok_or (checked_add MAX_U64 n 1) (ViewFault (Failed (NumericOverflow "view scanned")))) in
  modify (set_scanned n).
Definition count_matched : SM unit :=
  let! n := gets matched in
  let! n := lift (ok_or (checked_add MAX_U64 n 1) (ViewFault (Failed (NumericOverflow "view matched")))) in
  modify (set_matched n).

(** [tx.send(ScanUpdate::Batch(std::mem::take(&mut tx_batch)))] *)
Definition send_batch : SM unit :=
  let! batch := gets tx_batch in
  let! batches := gets sent in
  modify (set_batch []) ;;!
  if connected (length batches) then modify (set_sent (batches ++ [batch])) else throw Disconnected.

(** A record that matches goes to the spool and into the batch, and a full batch is sent. *)
Definition enqueue (path : text) (record : OwnedRecord) : SM unit :=
  let! file := gets spool in
  let '(file, meta) := write_spool_record file record path in
  modify (set_spool file) ;;!
  let! batch := gets tx_batch in
  modify (set_batch (batch ++ [meta])).

Definition send_full : SM unit :=
  let! batch := gets tx_batch in
  if SCAN_BATCH_SIZE <=? len batch then send_batch else ret tt.

Definition forward (path : text) (record : OwnedRecord) : SM unit :=
  enqueue path record ;;! count_matched ;;! send_full.

Definition send_rest : SM unit :=
  let! batch := gets tx_batch in
  if negb (bool_decide (batch = [])) then send_batch else ret tt.

(** ** One file after the other *)

Fixpoint scan_block_records (path : text) (records : list OwnedRecord) : SM unit :=
  match records with
  | [] => ret tt
  | record :: records =>
      count_scanned ;;!
      (if matches predicate record then forward path record else ret tt) ;;!
      scan_block_records path records
  end.

Fixpoint scan_indexed_entry (path : text) (data : list Z) (blocks : list IndexBlock) : SM unit :=
  match blocks with
  | [] => ret tt
  | block :: blocks =>
      let! cancelled := poll in
      if cancelled then ret tt else
      if negb (may_match (block_digest block) predicate) then scan_indexed_entry path data blocks else
      let! records := lift (map_err ViewFault (read_block_records data block)) in
      scan_block_records path records ;;!
      scan_indexed_entry path data blocks
  end.

(** A turn of the loop over the records of a file, and the look at the flag before the
    next one. *)
Definition scan_body (path : text) : loop_body (result ViewError unit * ScanState) := λ acc record,
  match (count_scanned ;;! (if matches predicate record then forward path record else ret tt) ;;! poll) acc.2 with
  | (Ok cancelled, st) => ((Ok tt, st), negb cancelled)
  | (Err e, st) => ((Err e, st), false)
  end.

(** [None] is an exhausted fuel, which [scan_entry_reads] rules out; after an error of the
    reader the scan is over, and its counters are not looked at again. *)
Definition scan_entry (path : text) (data : list Z) (st : ScanState) : option (result ViewError unit * ScanState) :=
  match poll st with
  | (Ok true, st) => Some (Ok tt, st)
  | (Ok false, st) =>
      match while_records (scan_body path) (Ok tt, st) (reader_new data) with
      | Some (Ok acc, _) => Some acc
      | Some (Err e, _) => Some (Err (ViewFault (Failed e)), st)
      | None => None
      end
  | (Err e, st) => Some (Err e, st)
  end.

Fixpoint scan_entries (entries : list DatasetEntry) (st : ScanState) : option (result ViewError unit * ScanState) :=
  match entries with
  | [] => Some (Ok tt, st)
  | entry :: entries =>
      match entry_index entry with
      | Some index =>
          if negb (may_match (summary_digest (summary index)) predicate) then scan_entries entries st else
          match scan_indexed_entry (entry_path entry) (entry_data entry) (blocks index) st with
          | (Ok _, st) => scan_entries entries st
          | (Err e, st) => Some (Err e, st)
          end
      | None =>
          match scan_entry (entry_path entry) (entry_data entry) st with
          | Some (Ok _, st) => scan_entries entries st
          | other => other
          end
      end
  end.

Definition totals : SM (Z * Z) :=
  let! n := gets scanned in let! m := gets matched in ret (n, m).

Definition scan_matches_concat (entries : list DatasetEntry) : option (result ViewError (Z * Z) * ScanState) :=
  match scan_entries entries ScanState_new with
  | None => None
  | Some (Ok _, st) => Some ((send_rest ;;! totals) st)
  | Some (Err e, st) => Some (Err e, st)
  end.

(** ** Merged *)

Record StreamState : Type := mkStreamState {
  ss_idx : nat;
  ss_path : text;
  ss_reader : LogjetReader;
  ss_pending : option OwnedRecord;
}.
Definition stream_open (idx : nat) (entry : DatasetEntry) : StreamState :=
  mkStreamState idx (entry_path entry) (reader_new (entry_data entry)) None.

Definition MergeKey : Type := Z * Z * nat * Z.
Record MergeItem : Type := mkMergeItem { mi_key : MergeKey; mi_stream_idx : nat }.

Definition merge_key (order : ViewOrder) (record : OwnedRecord) (stream_idx : nat) (serial : Z) : MergeKey :=
  match order with
  | Concat => (serial, 0, stream_idx, serial)
  | MergeSeq => (seq record, ts_unix_ns record, stream_idx, serial)
  | MergeTs => (ts_unix_ns record, seq record, stream_idx, serial)
  end.

(** The derived order of the keys and of the items. *)
Definition key_leb (k1 k2 : MergeKey) : bool :=
  let '(a1, b1, c1, d1) := k1 in
  let '(a2, b2, c2, d2) := k2 in
  (a1 <? a2) || ((a1 =? a2) && ((b1 <? b2) || ((b1 =? b2) && ((c1 <? c2)%nat || ((c1 =? c2)%nat && (d1 <=? d2)))))).
Definition item_leb (i1 i2 : MergeItem) : bool :=
  if bool_decide (mi_key i1 = mi_key i2) then (mi_stream_idx i1 <=? mi_stream_idx i2)%nat else key_leb (mi_key i1) (mi_key i2).

(** A heap of reversed items: the least comes out first. *)
Fixpoint heap_pop (heap : list MergeItem) : option (MergeItem * list MergeItem) :=
  match heap with
  | [] => None
  | i :: heap =>
      match heap_pop heap with
      | None => Some (i, heap)
      | Some (least, rest) => if item_leb i least then Some (i, heap) else Some (least, i :: rest)
      end
  end.

(** The loop of [advance]: it stops at the first record that matches.  [advance] is only
    called while nothing is pending, so a scan that is cancelled leaves nothing pending. *)
Definition advance_body : loop_body (result ViewError (option OwnedRecord) * ScanState) := λ acc record,
  match count_scanned acc.2 with
  | (Err e, st) => ((Err e, st), false)
  | (Ok _, st) =>
      if matches predicate record then ((Ok (Some record), st), false) else
      match poll st with
      | (Ok cancelled, st) => ((Ok None, st), negb cancelled)
      | (Err e, st) => ((Err e, st), false)
      end
  end.

Definition advance (order : ViewOrder) (serial : Z) (s : StreamState) (st : ScanState)
    : option (result ViewError (option MergeItem) * Z * StreamState * ScanState) :=
  match poll st with
  | (Err e, st) => Some (Err e, serial, s, st)
  | (Ok true, st) => Some (Ok None, serial, s, st)
  | (Ok false, st) =>
      match while_records advance_body (Ok None, st) (ss_reader s) with
      | None => None
      | Some (Err e, r) => Some (Err (ViewFault (Failed e)), serial, mkStreamState (ss_idx s) (ss_path s) r (ss_pending s), st)
      | Some (Ok (Err e, st), r) => Some (Err e, serial, mkStreamState (ss_idx s) (ss_path s) r (ss_pending s), st)
      | Some (Ok (Ok None, st), r) => Some (Ok None, serial, mkStreamState (ss_idx s) (ss_path s) r None, st)
      | Some (Ok (Ok (Some record), st), r) =>
          let item := mkMergeItem (merge_key order record (ss_idx s) serial) (ss_idx s) in
          match checked_add MAX_U64 serial 1 with
          | None => Some (Err (ViewFault (Failed (NumericOverflow "view merge serial"))), serial,
                      mkStreamState (ss_idx s) (ss_path s) r (ss_pending s), st)
          | Some serial => Some (Ok (Some item), serial, mkStreamState (ss_idx s) (ss_path s) r (Some record), st)
          end
      end
  end.

Fixpoint open_streams (order : ViewOrder) (serial : Z) (todo streams : list StreamState) (heap : list MergeItem) (st : ScanState)
    : option (result ViewError (Z * list StreamState * list MergeItem) * ScanState) :=
  match todo with
  | [] => Some (Ok (serial, streams, heap), st)
  | s :: todo =>
      match advance order serial s st with
      | None => None
      | Some (Err e, _, _, st) => Some (Err e, st)
      | Some (Ok item, serial, s, st) =>
          open_streams order serial todo (streams ++ [s]) (heap ++ match item with Some i => [i] | None => [] end) st
      end
  end.

(** A turn takes an item off the heap; [fuel] bounds the number of turns. *)
Fixpoint merge_loop (fuel : nat) (order : ViewOrder) (serial : Z) (streams : list StreamState) (heap : list MergeItem) (st : ScanState)
    : option (result ViewError unit * ScanState) :=
  match fuel with
  | O => None
  | S fuel =>
      match poll st with
      | (Err e, st) => Some (Err e, st)
      | (Ok true, st) => Some (Ok tt, st)
      | (Ok false, st) =>
          match heap_pop heap with
          | None => Some (Ok tt, st)
          | Some (item, heap) =>
              match streams !! mi_stream_idx item with
              | None => Some (Err (ViewFault Panicked), st)
              | Some stream =>
                  match ss_pending stream with
                  | None => merge_loop fuel order serial streams heap st
                  | Some record =>
                      let stream := mkStreamState (ss_idx stream) (ss_path stream) (ss_reader stream) None in
                      match forward (ss_path stream) record st with
                      | (Err e, st) => Some (Err e, st)
                      | (Ok _, st) =>
                          match advance order serial stream st with
                          | None => None
                          | Some (Err e, _, _, st) => Some (Err e, st)
                          | Some (Ok next, serial, stream, st) =>
                              merge_loop fuel order serial (<[mi_stream_idx item := stream]> streams)
                                (heap ++ match next with Some i => [i] | None => [] end) st
                          end
                      end
                  end
              end
          end
      end
  end.

(** Files whose index excludes the query are not opened; the others are numbered. *)
Definition merged_streams (entries : list DatasetEntry) : list StreamState :=
  imap stream_open (filter (λ entry : DatasetEntry,
    match entry_index entry with Some index => may_match (summary_digest (summary index)) predicate | None => true end = true)
    entries).

Definition scan_matches_merged (fuel : nat) (order : ViewOrder) (entries : list DatasetEntry)
    : option (result ViewError (Z * Z) * ScanState) :=
  match open_streams order 0 (merged_streams entries) [] [] ScanState_new with
  | None => None
  | Some (Err e, st) => Some (Err e, st)
  | Some (Ok (serial, streams, heap), st) =>
      match merge_loop fuel order serial streams heap st with
      | None => None
      | Some (Err e, st) => Some (Err e, st)
      | Some (Ok _, st) => Some ((send_rest ;;! totals) st)
      end
  end.

Definition scan_matches (fuel : nat) (order : ViewOrder) (entries : list DatasetEntry)
    : option (result ViewError (Z * Z) * ScanState) :=
  match order with
  | Concat => scan_matches_concat entries
  | MergeSeq | MergeTs => scan_matches_merged fuel order entries
  end.
End Scan.

(** ** Exporting a selection *)

Section Exporting.
Context {EX : Externals} {W : Type} {WW : Write W}.

Definition push_preserving_view_order (block_last : option (Z * Z)) (rt : RecordType) (sq ts : Z) (pl : list Z)
    : M (LogjetWriter W) Error (option (Z * Z)) :=
  let! pending := gets pending_bytes in
  (if (0 <? pending) && match block_last with Some (last_seq, last_ts) => (sq <? last_seq) || (ts <? last_ts) | None => false end
   then flush_block else ret tt) ;;!
  push rt sq ts pl ;;!
  let! pending := gets pending_bytes in
  ret (if pending =? 0 then None else Some (sq, ts)).

Fixpoint push_selection (block_last : option (Z * Z)) (spool : list Z) (entries : list EntryMeta)
    : M (LogjetWriter W) Fault unit :=
  match entries with
  | [] => ret tt
  | meta :: entries =>
      let! detail := lift (read_spool_record spool meta) in
      let! block_last := λ w, match push_preserving_view_order block_last (em_record_type meta) (em_seq meta)
                                      (em_ts_unix_ns meta) (detail_payload detail) w with
                              | (Ok b, w) => (Ok b, w)
                              | (Err e, w) => (Err (Failed e), w)
                              end in
      push_selection block_last spool entries
  end.

Definition write_export_selection (spool : list Z) (entries : list EntryMeta) (sink : W) : result Fault W :=
  match push_selection None spool entries (with_config sink WriterConfig_default) with
  | (Ok _, w) => failed (into_inner w)
  | (Err e, _) => Err e
  end.
End Exporting.
