(* ===== verification/ViewTheorems.v ===== *)
(** * What the viewer lists

    The scan lists exactly the records the query selects, whether it reads whole files
    or uses the index, and each listed entry can be read back from the spool. *)

From stdpp Require Import sorting.
From S2P Require Import Prelude Text Tokens Format Writer Reader Instances Scan Container RecordLoop Otlp FlatRecord SampleCodec Cel Predicate Dedup DatasetIndex IndexTheorems ViewScan.

(** ** The spool *)

(** [meta] describes the record [r] of the file [path], and the spool holds its payload. *)
Definition describes (file : list Z) (meta : EntryMeta) (x : text * OwnedRecord) : Prop :=
  em_source_path meta = x.1 ∧ em_record_type meta = record_type x.2 ∧ em_seq meta = seq x.2 ∧
  em_ts_unix_ns meta = ts_unix_ns x.2 ∧ read_spool_record file meta = Ok (mkDetailRecord meta (payload x.2)).

Lemma read_at_app n file x pos bs : read_at n file pos = Ok bs → read_at n (file ++ x) pos = Ok bs.
Proof.
  unfold read_at. case_decide as H; [|done]. intros [= <-]. rewrite decide_True by (rewrite length_app; lia).
  f_equal. unfold slice. rewrite drop_app_le by lia. rewrite take_app_le; [done|]. rewrite length_drop. lia.
Qed.

Lemma describes_app file y meta x : describes file meta x → describes (file ++ y) meta x.
Proof.
  intros (? & ? & ? & ? & H). split_and!; try done. unfold read_spool_record in *.
  destruct (read_at _ file _) as [bs|] eqn:E; [|done]. by rewrite (read_at_app _ _ _ _ _ E).
Qed.

Lemma write_spool_describes file r path :
  describes (write_spool_record file r path).1 (write_spool_record file r path).2 (path, r).
Proof.
  unfold write_spool_record, describes. cbn [fst snd em_source_path em_record_type em_seq em_ts_unix_ns]. split_and!; try done.
  unfold read_spool_record. cbn [em_payload_len em_offset].
  rewrite (read_at_mid _ (file ++ [RecordType_as_u8 (record_type r)] ++ to_le 8 (seq r) ++ to_le 8 (ts_unix_ns r) ++
    to_le 8 (len (payload r))) (payload r) []); [done|by rewrite <- !app_assoc, app_nil_r|unfold len; lia|].
  rewrite !length_app, !length_to_le. unfold len. simpl. lia.
Qed.

(** ** Progress of a scan *)

Definition listed (st : ScanState) : list EntryMeta := concat (sent st) ++ tx_batch st.

Record progress (st : ScanState) (xs : list (text * OwnedRecord)) (bound : Z) : Prop := {
  pr_listed : Forall2 (describes (spool st)) (listed st) xs;
  pr_matched : matched st = len xs;
  pr_scanned : 0 ≤ scanned st ≤ bound;
}.

Lemma progress_new : progress ScanState_new [] 0.
Proof. split; [constructor|done|done]. Qed.

Lemma progress_mono st xs b b' : progress st xs b → b ≤ b' → progress st xs b'.
Proof. intros [H1 H2 H3] Hb. split; [done|done|lia]. Qed.

Lemma progress_polls st xs b n : progress st xs b → progress (set_polls n st) xs b.
Proof. intros [H1 H2 H3]. by split. Qed.

Section Progress.
Context {OP : OtlpParts} {FL : Floats} {VT : ValueTrees} {LC : LogsCodec} {SC : SignalCodec} {CE : CelEngine} {MA : Matchers}.
Context {EX : Externals} {EL : ExternalLaws}.
Context (cancel connected : nat → bool) (p : RecordPredicate).
Context (Hcancel : ∀ n, cancel n = false) (Hconn : ∀ n, connected n = true).

Lemma poll_ok st : poll cancel st = (Ok false, set_polls (S (polls st)) st).
Proof. unfold poll. by rewrite Hcancel. Qed.

Lemma count_scanned_ok st xs b :
  progress st xs b → b < MAX_U64 → ∃ st', count_scanned st = (Ok tt, st') ∧ progress st' xs (b + 1) ∧ polls st' = polls st.
Proof.
  intros [H1 H2 H3] Hb. unfold count_scanned, bind, gets, lift, modify, checked_add.
  rewrite (proj2 (Z.leb_le _ _)) by lia. cbn [ok_or]. eexists. split; [done|]. split; [|done]. split; [done|done|]. simpl. lia.
Qed.

Lemma send_batch_ok st xs b :
  progress st xs b → ∃ st', send_batch connected st = (Ok tt, st') ∧ progress st' xs b ∧ tx_batch st' = [].
Proof.
  intros [H1 H2 H3]. unfold send_batch, bind, gets, modify. rewrite Hconn. eexists. split; [done|]. split; [|done].
  split; [|done|done]. unfold listed in *. simpl. rewrite app_nil_r, concat_app. simpl. by rewrite app_nil_r.
Qed.

(** What a record and a batch do to the listing, whatever the counters are. *)
Lemma enqueue_listed st xs path r :
  Forall2 (describes (spool st)) (listed st) xs →
  ∃ st', enqueue path r st = (Ok tt, st') ∧ Forall2 (describes (spool st')) (listed st') (xs ++ [(path, r)]) ∧
    matched st' = matched st ∧ scanned st' = scanned st ∧ polls st' = polls st.
Proof.
  intros H1. pose proof (write_spool_describes (spool st) r path) as Hd. unfold enqueue, bind, gets, modify.
  destruct (write_spool_record (spool st) r path) as [file meta] eqn:Ew. cbn [fst snd] in Hd.
  assert (∃ y, file = spool st ++ y) as [y ->] by (unfold write_spool_record in Ew; injection Ew as <- _; by eexists).
  eexists. split; [done|]. split_and!; try done. unfold listed. simpl. rewrite app_assoc.
  apply Forall2_app; [|by constructor]. eapply Forall2_impl; [|exact H1]. intros m x. apply describes_app.
Qed.

Lemma send_full_cases st :
  send_full connected st = (Ok tt, st) ∨ send_full connected st = send_batch connected st.
Proof. unfold send_full, bind, gets. destruct (_ <=? _); [by right|by left]. Qed.

Lemma forward_ok st xs b path r :
  progress st xs b → len xs < MAX_U64 →
  ∃ st', forward connected path r st = (Ok tt, st') ∧ progress st' (xs ++ [(path, r)]) b.
Proof.
  intros [H1 H2 H3] Hb. unfold forward, bind at 1.
  destruct (enqueue_listed st xs path r H1) as (st1 & -> & Hl & Hm & Hs & _).
  unfold count_matched, bind, gets, lift, modify, checked_add.
  rewrite Hm, H2, (proj2 (Z.leb_le _ _)) by lia. cbn [ok_or].
  assert (progress (set_matched (len xs + 1) st1) (xs ++ [(path, r)]) b) as Hp
    by (split; [done|by rewrite len_app|simpl; by rewrite Hs]).
  destruct (send_full_cases (set_matched (len xs + 1) st1)) as [->| ->]; [by eexists|].
  destruct (send_batch_ok _ _ _ Hp) as (st' & Hs' & Hp' & _). by exists st'.
Qed.

Definition at_path (path : text) (rs : list OwnedRecord) : list (text * OwnedRecord) := (path,.) <$> rs.

Lemma scan_record_ok st xs b path r :
  progress st xs b → b < MAX_U64 → len xs < MAX_U64 →
  ∃ st', (count_scanned ;;! (if matches p r then forward connected path r else ret tt)) st = (Ok tt, st') ∧
    progress st' (xs ++ at_path path (selected p [r])) (b + 1).
Proof.
  intros Hp Hb Hx. unfold bind. destruct (count_scanned_ok st xs b Hp Hb) as (st1 & -> & Hp1 & _).
  unfold selected. rewrite filter_cons. destruct (matches p r).
  - rewrite decide_True by done. destruct (forward_ok st1 xs (b + 1) path r Hp1 Hx) as (st2 & -> & Hp2). by exists st2.
  - rewrite decide_False by done. exists st1. split; [done|]. unfold at_path. simpl. by rewrite app_nil_r.
Qed.

Lemma at_path_app path xs ys : at_path path (xs ++ ys) = at_path path xs ++ at_path path ys.
Proof. apply fmap_app. Qed.
Lemma selected_app xs ys : selected p (xs ++ ys) = selected p xs ++ selected p ys.
Proof. apply list.filter_app. Qed.
Lemma len_at_path path xs : len (at_path path xs) = len xs.
Proof. unfold len, at_path. by rewrite length_fmap. Qed.
Lemma len_selected xs : len (selected p xs) ≤ len xs.
Proof. unfold len, selected. pose proof (length_filter (λ r, matches p r = true) xs). lia. Qed.

Lemma scan_block_records_ok st xs b path rs :
  progress st xs b → b + len rs ≤ MAX_U64 → len xs + len rs ≤ MAX_U64 →
  ∃ st', scan_block_records connected p path rs st = (Ok tt, st') ∧
    progress st' (xs ++ at_path path (selected p rs)) (b + len rs).
Proof.
  revert st xs b. induction rs as [|r rs IH]; intros st xs b Hp Hb Hx.
  { exists st. split; [done|]. unfold at_path. simpl. by rewrite app_nil_r, len_nil, Z.add_0_r. }
  rewrite len_cons in Hb, Hx |- *. pose proof (len_nonneg rs).
  destruct (scan_record_ok st xs b path r Hp ltac:(lia) ltac:(lia)) as (st1 & Hs & Hp1).
  cbn [scan_block_records]. unfold bind in Hs |- *.
  destruct (count_scanned st) as [[u|e] st0] eqn:E0; [|done].
  destruct ((if matches p r then forward connected path r else ret tt) st0) as [[u'|e] st0'] eqn:E1; [|done].
  injection Hs as _ ->. pose proof (len_selected [r]) as Hl1. change (len [r]) with 1 in Hl1.
  destruct (IH st1 _ _ Hp1) as (st2 & Hs2 & Hp2); [lia|rewrite len_app, len_at_path; lia|].
  exists st2. split; [done|]. change (r :: rs) with ([r] ++ rs). rewrite selected_app, at_path_app, app_assoc.
  by replace (b + (1 + len rs)) with (b + 1 + len rs) by lia.
Qed.

(** *** With an index *)

Lemma selected_nil rs : (∀ r, r ∈ rs → matches p r = false) → selected p rs = [].
Proof.
  intros H. unfold selected. induction rs as [|r rs IH]; [done|]. rewrite filter_cons, decide_False.
  - apply IH. intros r' Hr. apply H. by right.
  - rewrite (H r) by left. done.
Qed.

Lemma excluded_selects_nothing d rs :
  covers d rs → StronglySorted no_earlier rs → Forall (λ r, matches p r = true → classified p r) rs →
  may_match d p = false → selected p rs = [].
Proof.
  intros Hc Hs Hcl Hm. apply selected_nil. intros r Hr. destruct (matches p r) eqn:E; [exfalso|done].
  rewrite list.Forall_forall in Hcl. rewrite (covers_may_match d rs p r) in Hm; auto. discriminate.
Qed.

Lemma scan_indexed_ok cfg data pos bl path st xs b :
  rc_sync_marker cfg = DEFAULT_SYNC_MARKER → clean cfg data pos bl →
  Forall (StronglySorted no_earlier) (snd <$> bl) →
  Forall (λ r, matches p r = true → classified p r) (block_records_of bl) →
  progress st xs b → b + len (block_records_of bl) ≤ MAX_U64 → len xs + len (block_records_of bl) ≤ MAX_U64 →
  ∃ st', scan_indexed_entry cancel connected p path data (entries bl) st = (Ok tt, st') ∧
    progress st' (xs ++ at_path path (selected p (block_records_of bl))) (b + len (block_records_of bl)).
Proof.
  intros Hm Hc. revert st xs b. induction Hc as [pos Hno|pos s q rs bl Hps Hno Hb Hc IH]; intros st xs b Hs Hcl Hp Hb1 Hx.
  { exists st. split; [done|]. unfold at_path, block_records_of. simpl. by rewrite app_nil_r, len_nil, Z.add_0_r. }
  unfold block_records_of in *. rewrite fmap_cons in *. cbn [snd concat] in *.
  apply Forall_cons_iff in Hs as [Hs1 Hs]. apply Forall_app in Hcl as [Hcl1 Hcl].
  rewrite len_app in *. pose proof (len_nonneg rs). pose proof (len_nonneg (concat (snd <$> bl))).
  unfold entries. rewrite fmap_cons. cbn [fst snd scan_indexed_entry]. unfold bind. rewrite poll_ok.
  pose proof (progress_polls _ _ _ (S (polls st)) Hp) as Hp0.
  rewrite selected_app, at_path_app, app_assoc. destruct (may_match _ p) eqn:Em; cbn [negb].
  - destruct (read_block_summary_agrees cfg data s q rs Hm Hb) as [_ Hr]. unfold lift. rewrite Hr. cbn [map_err].
    destruct (scan_block_records_ok _ _ _ path rs Hp0 ltac:(lia) ltac:(lia)) as (st1 & -> & Hp1).
    pose proof (len_selected rs).
    destruct (IH st1 _ _ Hs Hcl Hp1) as (st2 & Hs2 & Hp2); [lia|rewrite len_app, len_at_path; lia|].
    exists st2. split; [done|]. by rewrite Z.add_assoc.
  - rewrite (excluded_selects_nothing _ rs (covers_entry s q rs) Hs1 Hcl1 Em). unfold at_path at 1. simpl. rewrite app_nil_r.
    destruct (IH _ _ _ Hs Hcl Hp0) as (st2 & Hs2 & Hp2); [lia|lia|]. exists st2. split; [done|].
    eapply progress_mono; [done|lia].
Qed.

(** *** Reading whole files *)

Lemma scan_fold_ok st xs b path rs :
  progress st xs b → b + len rs ≤ MAX_U64 → len xs + len rs ≤ MAX_U64 →
  ∃ st', fold_until (scan_body cancel connected p path) (Ok tt, st) rs = ((Ok tt, st'), true) ∧
    progress st' (xs ++ at_path path (selected p rs)) (b + len rs).
Proof.
  revert st xs b. induction rs as [|r rs IH]; intros st xs b Hp Hb Hx.
  { exists st. split; [done|]. unfold at_path. simpl. by rewrite app_nil_r, len_nil, Z.add_0_r. }
  rewrite len_cons in Hb, Hx |- *. pose proof (len_nonneg rs).
  destruct (scan_record_ok st xs b path r Hp ltac:(lia) ltac:(lia)) as (st1 & Hs & Hp1).
  cbn [fold_until]. unfold scan_body at 1. cbn [snd]. unfold bind in Hs |- *.
  destruct (count_scanned st) as [[u|e] st0] eqn:E0; [|done].
  destruct ((if matches p r then forward connected path r else ret tt) st0) as [[u'|e] st0'] eqn:E1; [|done].
  injection Hs as _ ->. rewrite poll_ok. cbn [negb]. pose proof (len_selected [r]) as Hl1. change (len [r]) with 1 in Hl1.
  destruct (IH _ _ _ (progress_polls _ _ _ (S (polls st1)) Hp1)) as (st2 & Hs2 & Hp2); [lia|rewrite len_app, len_at_path; lia|].
  exists st2. split; [done|]. change (r :: rs) with ([r] ++ rs). rewrite selected_app, at_path_app, app_assoc.
  by replace (b + (1 + len rs)) with (b + 1 + len rs) by lia.
Qed.

Lemma scan_entry_reads st xs b path data rs :
  delivers (reader_new data) rs → progress st xs b → b + len rs ≤ MAX_U64 → len xs + len rs ≤ MAX_U64 →
  ∃ st', scan_entry cancel connected p path data st = Some (Ok tt, st') ∧
    progress st' (xs ++ at_path path (selected p rs)) (b + len rs).
Proof.
  intros Hd Hp Hb Hx. unfold scan_entry. rewrite poll_ok.
  destruct (scan_fold_ok _ _ _ path rs (progress_polls _ _ _ (S (polls st)) Hp) Hb Hx) as (st' & Hf & Hp').
  destruct (while_records_delivers (scan_body cancel connected p path) (Ok tt, set_polls (S (polls st)) st) (reader_new data) rs Hd)
    as (r' & ->). rewrite Hf. by exists st'.
Qed.

(** The records of an input.  Where there is an index, it is the one built from a log
    that the writer produced from records in order, and it can classify what matches. *)
Definition holds (e : DatasetEntry) (rs : list OwnedRecord) : Prop :=
  match entry_index e with
  | None => delivers (reader_new (entry_data e)) rs
  | Some index => ∃ wc lim m, compatible wc ReaderConfig_default lim ∧ write_log [] wc rs = Ok (entry_data e) ∧
      build (entry_data e) (len (entry_data e)) m = Some (Ok index) ∧
      StronglySorted no_earlier rs ∧ Forall valid_record rs ∧ Forall (fits_reader lim) rs ∧
      Forall (λ r, matches p r = true → classified p r) rs
  end.

Lemma StronglySorted_concat {A} (R : A → A → Prop) (ls : list (list A)) :
  StronglySorted R (concat ls) → Forall (StronglySorted R) ls.
Proof.
  induction ls as [|l ls IH]; intros Hs; [constructor|]. cbn [concat] in Hs.
  apply StronglySorted_app in Hs as (_ & Hl & Hs). constructor; [done|by apply IH].
Qed.

Lemma holds_indexed e rs index :
  entry_index e = Some index → holds e rs →
  ∃ bl, block_records_of bl = rs ∧ clean ReaderConfig_default (entry_data e) 0 bl ∧ blocks index = entries bl ∧
    covers (summary_digest (summary index)) rs ∧ StronglySorted no_earlier rs ∧
    Forall (λ r, matches p r = true → classified p r) rs.
Proof.
  intros He. unfold holds. rewrite He. intros (wc & lim & m & Hco & Hw & Hb & Hs & Hv & Hf & Hcl).
  destruct (clean_log wc ReaderConfig_default lim rs (entry_data e) Hco Hv Hf Hw) as (bl & <- & Hc). exists bl.
  destruct (decide (bl = [])) as [->|Hne].
  - unfold build, len in Hb. rewrite Nat2Z.id, (build_loop_clean ReaderConfig_default _ 0 [] _ _ _ eq_refl Hc) in Hb by lia. done.
  - rewrite (build_clean ReaderConfig_default (entry_data e) bl m eq_refl Hc Hne) in Hb. injection Hb as <-.
    split_and!; try done. apply covers_finish, (covers_entries _ []), covers_default.
Qed.

Definition listing (es : list DatasetEntry) (rss : list (list OwnedRecord)) : list (text * OwnedRecord) :=
  concat (zip_with (λ e rs, at_path (entry_path e) (selected p rs)) es rss).

Lemma len_listing es rss : len (listing es rss) ≤ len (concat rss).
Proof.
  unfold listing. revert rss. induction es as [|e es IH]; intros [|rs rss]; simpl; try done; [apply len_nonneg|].
  rewrite !len_app, len_at_path. pose proof (len_selected rs). specialize (IH rss). lia.
Qed.

Lemma scan_entries_ok es rss st xs b :
  Forall2 holds es rss → progress st xs b → b + len (concat rss) ≤ MAX_U64 → len xs + len (concat rss) ≤ MAX_U64 →
  ∃ st', scan_entries cancel connected p es st = Some (Ok tt, st') ∧
    progress st' (xs ++ listing es rss) (b + len (concat rss)).
Proof.
  intros Hh. revert st xs b. induction Hh as [|e rs es rss He Hh IH]; intros st xs b Hp Hb Hx.
  { exists st. split; [done|]. simpl. by rewrite app_nil_r, len_nil, Z.add_0_r. }
  cbn [concat] in *. rewrite len_app in *. pose proof (len_nonneg rs). pose proof (len_nonneg (concat rss)).
  pose proof (len_selected rs). change (listing (e :: es) (rs :: rss)) with (at_path (entry_path e) (selected p rs) ++ listing es rss).
  rewrite app_assoc. cbn [scan_entries]. destruct (entry_index e) as [index|] eqn:Ei.
  - destruct (holds_indexed e rs index Ei He) as (bl & <- & Hc & Hbl & Hcov & Hs & Hcl).
    destruct (may_match _ p) eqn:Em; cbn [negb].
    + rewrite Hbl. destruct (scan_indexed_ok ReaderConfig_default (entry_data e) 0 bl (entry_path e) st xs b)
        as (st1 & -> & Hp1); try done; [by apply StronglySorted_concat|lia|lia|].
      destruct (IH st1 _ _ Hp1) as (st2 & Hs2 & Hp2); [lia|rewrite len_app, len_at_path; lia|].
      exists st2. split; [done|]. by rewrite Z.add_assoc.
    + rewrite (excluded_selects_nothing _ _ Hcov Hs Hcl Em). unfold at_path. simpl. rewrite app_nil_r.
      destruct (IH st _ _ Hp) as (st2 & Hs2 & Hp2); [lia|lia|]. exists st2. split; [done|]. eapply progress_mono; [done|lia].
  - assert (delivers (reader_new (entry_data e)) rs) as Hd by (unfold holds in He; by rewrite Ei in He).
    destruct (scan_entry_reads st xs b (entry_path e) (entry_data e) rs Hd Hp) as (st1 & -> & Hp1); [lia|lia|].
    destruct (IH st1 _ _ Hp1) as (st2 & Hs2 & Hp2); [lia|rewrite len_app, len_at_path; lia|].
    exists st2. split; [done|]. by rewrite Z.add_assoc.
Qed.

Lemma send_rest_ok st xs b :
  progress st xs b → ∃ n st', (send_rest connected ;;! totals) st = (Ok (n, len xs), st') ∧
    progress st' xs b ∧ tx_batch st' = [] ∧ 0 ≤ n ≤ b.
Proof.
  intros Hp. unfold send_rest, bind, gets. case_bool_decide as He; cbn [negb].
  - eexists _, st. unfold totals, bind, gets, ret. pose proof Hp as [H1 H2 H3]. rewrite H2. split_and!; done || lia.
  - destruct (send_batch_ok _ _ _ Hp) as (st' & -> & Hp' & He').
    eexists _, st'. unfold totals, bind, gets, ret. pose proof Hp' as [H1 H2 H3]. rewrite H2. split_and!; done || lia.
Qed.

End Progress.

(** ** They apply *)

Section Witness.
#[local] Existing Instances sample_parts logs_codec sample_floats sample_trees sample_engine sample_signals stored_externals stored_laws.
#[local] Existing Instance sample_matchers.

Definition query_index : DatasetIndex := Eval vm_compute in
  match build query_file (len query_file) None with
  | Some (Ok index) => index
  | _ => mkDatasetIndex (mkIndexSummary 0 None SummaryBuilder_default) []
  end.
Definition indexed_entry : DatasetEntry := entry_of (str "a.logjet") query_file (len query_file) None (Some query_index).
Definition plain_entry : DatasetEntry := entry_of (str "b.logjet") query_file (len query_file) None None.

Lemma indexed_entry_holds : holds sample_predicate indexed_entry query_input.
Proof.
  destruct query_input_ok as (Hs & Hv & Hf & Hl). exists sample_wc, DEFAULT_MAX_BLOCK_SIZE, None.
  split_and!; [apply sample_compatible|by vm_compute|by vm_compute|exact Hs|exact Hv|exact Hf|].
  apply list.Forall_forall. intros r _ _. split; by intros [? ?].
Qed.

Lemma plain_entry_holds : holds sample_predicate plain_entry query_input.
Proof. exact query_file_delivers. Qed.

Definition never (n : nat) : bool := false.
Definition always (n : nat) : bool := true.


(** ** Where the index and the files disagree *)

(** How many records a scan of one file matches, with its index and without. *)
Definition matched_with (data : list Z) (indexed : bool) (p : RecordPredicate) : option Z :=
  match build data (len data) None with
  | Some (Ok index) =>
      match scan_matches_concat never always p [entry_of (str "a.logjet") data (len data) None (if indexed then Some index else None)] with
      | Some (Ok (_, m), _) => Some m
      | _ => None
      end
  | _ => None
  end.

(** [--service web] on a record whose payload is not a log request, and [--seq-min 7] on
    records 1, 9 and 5, which the writer puts into one block. *)
Definition service_query : RecordPredicate :=
  mkPredicate None None None None None [] [] (mkFieldFilter None (Some [str "web"])).
Definition seq_query : RecordPredicate := mkPredicate None (Some 7) None None None [] [] FieldFilter_default.
Definition unclassified_file : list Z := Eval vm_compute in sample_out [mkRecord Logs 1 4 (str "not a request")].
Definition unordered_file : list Z := Eval vm_compute in
  match write_log [] WriterConfig_default [mkRecord Logs 1 4 []; mkRecord Logs 9 4 []; mkRecord Logs 5 4 []] with
  | Ok out => out | Err _ => [] end.

(** The index leaves out records that match: those it cannot classify, and those of a
    block whose last record is not its greatest. *)
Theorem index_misses_matching_records :
  matched_with unclassified_file false service_query = Some 1 ∧ matched_with unclassified_file true service_query = Some 0 ∧
  matched_with unordered_file false seq_query = Some 1 ∧ matched_with unordered_file true seq_query = Some 0.
Proof. split_and!; by vm_compute. Qed.

(** A file with a record, and the same file with the last byte of its block checksum changed. *)
Definition sealed_file : list Z := Eval vm_compute in
  match write_log [] (mkWriterConfig 4096 Lz4 DEFAULT_SYNC_MARKER 0) [mkRecord Logs 1 4 [7]] with Ok out => out | Err _ => [] end.
Definition damaged_file : list Z := Eval vm_compute in
  take (length sealed_file - 1) sealed_file ++ [Z.lxor (byte_at sealed_file (length sealed_file - 1)) 255].

(** The index does not check the block checksums: a record that the reader rejects is
    listed when the file has an index. *)
Theorem index_lists_damaged_block :
  matched_with damaged_file false (mkPredicate None None None None None [] [] FieldFilter_default) = Some 0 ∧
  matched_with damaged_file true (mkPredicate None None None None None [] [] FieldFilter_default) = Some 1.
Proof. split_and!; by vm_compute. Qed.
End Witness.
