(* ===== verification/MergeTheorems.v ===== *)
(** * The merged listing

    Reading several files at once through a heap of their next matching records gives
    an interleaving of what each file alone would give, in order where the files are. *)

From stdpp Require Import sorting.
From S2P Require Import Prelude Text Tokens Format Writer Reader Instances Scan Container RecordLoop Otlp FlatRecord SampleCodec Cel Predicate Dedup DatasetIndex IndexTheorems ViewScan ViewTheorems.

(** ** Reference: merging queues *)

(** The pair by which records are ordered, compared lexicographically. *)
Definition order_key (order : ViewOrder) (r : OwnedRecord) : Z * Z :=
  match order with MergeTs => (ts_unix_ns r, seq r) | _ => (seq r, ts_unix_ns r) end.
Definition key_le (k1 k2 : Z * Z) : Prop := k1.1 < k2.1 ∨ k1.1 = k2.1 ∧ k1.2 ≤ k2.2.
Definition in_order (order : ViewOrder) (r r' : OwnedRecord) : Prop := key_le (order_key order r) (order_key order r').

(** The record [r] of queue [i] goes before [r'] of queue [j]. *)
Definition goes_before (order : ViewOrder) (r : OwnedRecord) (i : nat) (r' : OwnedRecord) (j : nat) : Prop :=
  in_order order r r' ∧ (order_key order r = order_key order r' → (i ≤ j)%nat).

(** [out] takes the records out of the queues, always a first one that goes before the
    first ones of the other queues. *)
Inductive merged (order : ViewOrder) : list (list OwnedRecord) → list (nat * OwnedRecord) → Prop :=
| merged_done qs : Forall (λ q, q = []) qs → merged order qs []
| merged_step qs i r q out :
    qs !! i = Some (r :: q) →
    (∀ j r' q', qs !! j = Some (r' :: q') → goes_before order r i r' j) →
    merged order (<[i := q]> qs) out → merged order qs ((i, r) :: out).

Lemma key_le_refl k : key_le k k.
Proof. right. lia. Qed.
Lemma key_le_trans k1 k2 k3 : key_le k1 k2 → key_le k2 k3 → key_le k1 k3.
Proof. unfold key_le. lia. Qed.

(** Each queue is taken out in its own order. *)
Lemma merged_keeps_queues order qs out i q :
  merged order qs out → qs !! i = Some q → snd <$> filter (λ x, x.1 = i) out = q.
Proof.
  intros Hm. revert i q. induction Hm as [qs Hd|qs i r q out Hi Hb Hm IH]; intros j q' Hj.
  - by rewrite (proj1 (list.Forall_lookup _ _) Hd _ _ Hj).
  - rewrite filter_cons. cbn [fst]. destruct (decide (i = j)) as [<-|Hne].
    + rewrite fmap_cons. cbn [snd]. simplify_eq. f_equal. apply (IH i). rewrite list_lookup_insert_eq; [done|]. by eapply lookup_lt_Some.
    + apply (IH j). by rewrite list_lookup_insert_ne.
Qed.

Lemma concat_insert_cons {A} (qs : list (list A)) i r q :
  qs !! i = Some (r :: q) → concat qs ≡ₚ r :: concat (<[i := q]> qs).
Proof.
  intros Hi. rewrite <- (take_drop_middle _ _ _ Hi) at 1.
  rewrite insert_take_drop by (apply lookup_lt_Some in Hi; lia). rewrite !concat_app. cbn [concat].
  rewrite <- !app_comm_cons. symmetry. apply Permutation_middle.
Qed.

Lemma merged_permutation order qs out : merged order qs out → snd <$> out ≡ₚ concat qs.
Proof.
  induction 1 as [qs Hd|qs i r q out Hi Hb Hm IH].
  - induction Hd as [|q qs -> Hd IHd]; [done|]. by rewrite IHd.
  - rewrite fmap_cons. cbn [snd]. by rewrite IH, <- (concat_insert_cons qs i r q Hi).
Qed.

(** Queues in order give a listing in order. *)
Lemma merged_sorted order qs out :
  merged order qs out → Forall (StronglySorted (in_order order)) qs → StronglySorted (in_order order) (snd <$> out).
Proof.
  induction 1 as [qs Hd|qs i r q out Hi Hb Hm IH]; intros Hs; [constructor|].
  rewrite fmap_cons. cbn [snd].
  pose proof (proj1 (list.Forall_lookup _ _) Hs _ _ Hi) as [Hq1 Hq2]%StronglySorted_inv.
  constructor; [apply IH; by apply Forall_insert|]. apply list.Forall_forall. intros x Hx.
  rewrite (merged_permutation _ _ _ Hm) in Hx. apply list_elem_of_In, in_concat in Hx as (q' & Hq' & Hx).
  apply list_elem_of_In in Hx, Hq'. apply list_elem_of_lookup in Hq' as [j Hj].
  destruct (decide (i = j)) as [<-|Hne].
  - rewrite list_lookup_insert_eq in Hj by by eapply lookup_lt_Some. injection Hj as <-.
    rewrite list.Forall_forall in Hq2. by apply Hq2.
  - rewrite list_lookup_insert_ne in Hj by done. destruct q' as [|r' q']; [by apply elem_of_nil in Hx|].
    destruct (Hb j r' q' Hj) as [Hle _]. apply elem_of_cons in Hx as [->|Hx]; [done|].
    pose proof (proj1 (list.Forall_lookup _ _) Hs _ _ Hj) as [_ Hr]%StronglySorted_inv.
    rewrite list.Forall_forall in Hr. eapply key_le_trans; [done|by apply Hr].
Qed.

(** ** The heap *)

Lemma key_leb_total k1 k2 : key_leb k1 k2 = false → key_leb k2 k1 = true.
Proof.
  destruct k1 as [[[a1 b1] c1] d1], k2 as [[[a2 b2] c2] d2]. unfold key_leb.
  rewrite !orb_false_iff, !orb_true_iff, !andb_false_iff, !andb_true_iff, !orb_false_iff, !orb_true_iff, !andb_false_iff, !andb_true_iff,
    !orb_false_iff, !orb_true_iff, !andb_false_iff, !andb_true_iff, !Z.ltb_ge, !Z.ltb_lt, !Z.eqb_neq, !Z.eqb_eq, !Nat.ltb_ge, !Nat.ltb_lt,
    !Nat.eqb_neq, !Nat.eqb_eq, !Z.leb_gt, !Z.leb_le. lia.
Qed.

Lemma key_leb_trans k1 k2 k3 : key_leb k1 k2 = true → key_leb k2 k3 = true → key_leb k1 k3 = true.
Proof.
  destruct k1 as [[[a1 b1] c1] d1], k2 as [[[a2 b2] c2] d2], k3 as [[[a3 b3] c3] d3]. unfold key_leb.
  rewrite !orb_true_iff, !andb_true_iff, !orb_true_iff, !andb_true_iff, !orb_true_iff, !andb_true_iff, !Z.ltb_lt, !Z.eqb_eq,
    !Nat.ltb_lt, !Nat.eqb_eq, !Z.leb_le. lia.
Qed.

Lemma key_leb_refl k : key_leb k k = true.
Proof. destruct (key_leb k k) eqn:E; [done|]. pose proof (key_leb_total _ _ E). congruence. Qed.

Lemma item_leb_key i j : item_leb i j = true → key_leb (mi_key i) (mi_key j) = true.
Proof. unfold item_leb. case_bool_decide as E; [|done]. intros _. rewrite E. apply key_leb_refl. Qed.

Lemma item_leb_false i j : item_leb i j = false → key_leb (mi_key j) (mi_key i) = true.
Proof. unfold item_leb. case_bool_decide as E; [rewrite E; intros; apply key_leb_refl|apply key_leb_total]. Qed.

Lemma heap_pop_spec heap :
  match heap_pop heap with
  | None => heap = []
  | Some (least, rest) => heap ≡ₚ least :: rest ∧ Forall (λ i, key_leb (mi_key least) (mi_key i) = true) rest
  end.
Proof.
  induction heap as [|i heap IH]; [done|]. cbn [heap_pop]. destruct (heap_pop heap) as [[least rest]|]; [|subst heap; by split].
  destruct IH as [Hp Hl]. destruct (item_leb i least) eqn:E.
  - split; [done|]. rewrite Hp. constructor; [by apply item_leb_key|]. eapply Forall_impl; [|exact Hl].
    intros j Hj. eapply key_leb_trans; [by apply item_leb_key|done].
  - split; [rewrite Hp; constructor|]. constructor; [by apply item_leb_false|done].
Qed.

Lemma merge_key_leb order r i n r' j n' :
  order ≠ Concat → key_leb (merge_key order r i n) (merge_key order r' j n') = true → goes_before order r i r' j.
Proof.
  intros Ho. unfold goes_before, in_order, key_le, order_key, merge_key, key_leb.
  destruct order; [done|..]; cbn [fst snd];
    rewrite !orb_true_iff, !andb_true_iff, !orb_true_iff, !andb_true_iff, !orb_true_iff, !andb_true_iff, !Z.ltb_lt, !Z.eqb_eq,
      !Nat.ltb_lt, !Nat.eqb_eq, !Z.leb_le; intros H; (split; [lia|]); intros [= ? ?]; lia.
Qed.

(** ** The loop merges *)

Lemma len_concat_insert {A} (ls : list (list A)) i l l' :
  ls !! i = Some l → len (concat (<[i := l']> ls)) = len (concat ls) - len l + len l'.
Proof.
  intros Hi. rewrite <- (take_drop_middle _ _ _ Hi) at 2.
  rewrite insert_take_drop by (apply lookup_lt_Some in Hi; lia). rewrite !concat_app. cbn [concat]. rewrite !len_app. lia.
Qed.

Lemma len_concat_part {A} (ls : list (list A)) i l : ls !! i = Some l → len l ≤ len (concat ls).
Proof.
  intros Hi. rewrite <- (take_drop_middle _ _ _ Hi), concat_app. cbn [concat]. rewrite !len_app.
  pose proof (len_nonneg (concat (take i ls))). pose proof (len_nonneg (concat (drop (S i) ls))). lia.
Qed.

Section Merge.
Context {OP : OtlpParts} {FL : Floats} {VT : ValueTrees} {LC : LogsCodec} {SC : SignalCodec} {CE : CelEngine} {MA : Matchers}.
Context {EX : Externals} {EL : ExternalLaws}.
Context (cancel connected : nat → bool) (p : RecordPredicate) (order : ViewOrder).
Context (Hcancel : ∀ n, cancel n = false) (Hconn : ∀ n, connected n = true) (Horder : order ≠ Concat).

Lemma advance_fold st xs b rs :
  progress st xs b → b + len rs ≤ MAX_U64 →
  match selected p rs with
  | [] => ∃ st', fold_until (advance_body cancel p) (Ok None, st) rs = ((Ok None, st'), true) ∧ progress st' xs (b + len rs)
  | r :: q => ∃ st' rs', fold_until (advance_body cancel p) (Ok None, st) rs = ((Ok (Some r), st'), false) ∧
      rest_after (advance_body cancel p) (Ok None, st) rs = rs' ∧ selected p rs' = q ∧ len rs' < len rs ∧
      progress st' xs (b + len rs - len rs')
  end.
Proof.
  revert st b. induction rs as [|r rs IH]; intros st b Hp Hb.
  { exists st. split; [done|]. by rewrite len_nil, Z.add_0_r. }
  rewrite len_cons in *. pose proof (len_nonneg rs).
  destruct (count_scanned_ok st xs b Hp ltac:(lia)) as (st1 & Hs & Hp1 & _).
  assert (advance_body cancel p (Ok None, st) r =
    if matches p r then ((Ok (Some r), st1), false) else ((Ok None, set_polls (S (polls st1)) st1), true)) as Hbody.
  { unfold advance_body. cbn [snd]. rewrite Hs. destruct (matches p r); [done|]. by rewrite poll_ok. }
  unfold selected at 1. rewrite filter_cons. cbn [fold_until rest_after]. rewrite Hbody.
  destruct (matches p r).
  - rewrite decide_True by done. exists st1, rs. split_and!; try done; [lia|]. eapply progress_mono; [done|lia].
  - rewrite decide_False by done.
    specialize (IH _ (b + 1) (progress_polls _ _ _ (S (polls st1)) Hp1) ltac:(lia)). fold (selected p rs).
    destruct (selected p rs) as [|r' q].
    + destruct IH as (st' & Hf & Hp'). exists st'. split; [done|]. by replace (b + (1 + len rs)) with (b + 1 + len rs) by lia.
    + destruct IH as (st' & rs' & Hf & Hr & Hq & Hlt & Hp'). exists st', rs'.
      split_and!; try done; [lia|]. by replace (b + (1 + len rs) - len rs') with (b + 1 + len rs - len rs') by lia.
Qed.

Lemma advance_ok st xs b rs serial s :
  delivers (ss_reader s) rs → progress st xs b → b + len rs ≤ MAX_U64 → serial + len rs ≤ MAX_U64 →
  match selected p rs with
  | [] => ∃ st' s', advance cancel p order serial s st = Some (Ok None, serial, s', st') ∧
      ss_idx s' = ss_idx s ∧ ss_path s' = ss_path s ∧ ss_pending s' = None ∧ progress st' xs (b + len rs)
  | r :: q => ∃ st' s' rs', advance cancel p order serial s st =
        Some (Ok (Some (mkMergeItem (merge_key order r (ss_idx s) serial) (ss_idx s))), serial + 1, s', st') ∧
      ss_idx s' = ss_idx s ∧ ss_path s' = ss_path s ∧ ss_pending s' = Some r ∧ delivers (ss_reader s') rs' ∧
      selected p rs' = q ∧ len rs' < len rs ∧ progress st' xs (b + len rs - len rs')
  end.
Proof.
  intros Hd Hp Hb Hser. unfold advance. rewrite poll_ok by done.
  pose proof (advance_fold _ xs b rs (progress_polls _ _ _ (S (polls st)) Hp) Hb) as Hf.
  destruct (selected p rs) as [|r q].
  - destruct Hf as (st' & Hf & Hp').
    destruct (while_records_delivers (advance_body cancel p) (Ok None, set_polls (S (polls st)) st) (ss_reader s) rs Hd) as (r' & ->).
    rewrite Hf. cbn [fst]. eexists _, _. by split_and!.
  - destruct Hf as (st' & rs' & Hf & Hr & Hq & Hlt & Hp').
    destruct (while_records_rest (advance_body cancel p) (Ok None, set_polls (S (polls st)) st) (ss_reader s) rs Hd) as (r' & -> & Hd').
    { by rewrite Hf. }
    rewrite Hf. cbn [fst]. unfold checked_add. pose proof (len_nonneg rs'). rewrite (proj2 (Z.leb_le _ _)) by lia.
    eexists _, _, rs'. split_and!; try done. by rewrite <- Hr.
Qed.

(** [g] gives for every stream what it still has to list, the pending record included,
    and what its reader still has to deliver. *)
Definition streams_ok (paths : list text) (streams : list StreamState) (g : list (list OwnedRecord * list OwnedRecord)) : Prop :=
  length streams = length g ∧ ss_path <$> streams = paths ∧
  ∀ i s x, streams !! i = Some s → g !! i = Some x → ss_idx s = i ∧
    match ss_pending s with
    | None => x = ([], [])
    | Some r => x.1 = r :: selected p x.2 ∧ delivers (ss_reader s) x.2
    end.

Record heap_ok (streams : list StreamState) (heap : list MergeItem) : Prop := {
  ho_items : ∀ item, item ∈ heap → ∃ s r n, streams !! mi_stream_idx item = Some s ∧ ss_pending s = Some r ∧
    mi_key item = merge_key order r (mi_stream_idx item) n;
  ho_pending : ∀ i s r, streams !! i = Some s → ss_pending s = Some r → i ∈ mi_stream_idx <$> heap;
  ho_nodup : NoDup (mi_stream_idx <$> heap);
}.

Lemma heap_ok_perm streams heap heap' : heap ≡ₚ heap' → heap_ok streams heap → heap_ok streams heap'.
Proof.
  intros Hp [H1 H2 H3]. split.
  - intros item. rewrite <- Hp. apply H1.
  - intros i s r. rewrite <- Hp. apply H2.
  - by rewrite <- Hp.
Qed.

(** A stream without a pending record has no item. *)
Lemma heap_ok_drop streams item rest s :
  heap_ok streams (item :: rest) → ss_pending s = None → heap_ok (<[mi_stream_idx item := s]> streams) rest.
Proof.
  intros [H1 H2 H3] Hs. rewrite fmap_cons in H3. apply list.NoDup_cons in H3 as [Hni Hnd].
  destruct (H1 item) as (s0 & r0 & n0 & Hs0 & _); [left|]. apply lookup_lt_Some in Hs0. split.
  - intros it Hit. destruct (H1 it) as (s1 & r & n & Hs1 & Hr & Hk); [by right|]. exists s1, r, n.
    rewrite list_lookup_insert_ne; [done|]. intros E. apply Hni. rewrite E. by apply list_elem_of_fmap_2.
  - intros i s1 r Hi Hr. destruct (decide (mi_stream_idx item = i)) as [<-|Hne].
    + rewrite list_lookup_insert_eq in Hi by done. congruence.
    + rewrite list_lookup_insert_ne in Hi by done. pose proof (H2 i s1 r Hi Hr) as Hin. rewrite fmap_cons in Hin.
      apply elem_of_cons in Hin as [?|?]; [congruence|done].
  - done.
Qed.

Lemma heap_ok_push streams rest s r n i :
  heap_ok streams rest → (i < length streams)%nat → i ∉ mi_stream_idx <$> rest → ss_pending s = Some r →
  heap_ok (<[i := s]> streams) (rest ++ [mkMergeItem (merge_key order r i n) i]).
Proof.
  intros [H1 H2 H3] Hi Hni Hs. split.
  - intros it [Hit| ->%list_elem_of_singleton]%elem_of_app.
    + destruct (H1 it Hit) as (s1 & r1 & n1 & Hs1 & Hr & Hk). exists s1, r1, n1.
      rewrite list_lookup_insert_ne; [done|]. intros ->. apply Hni. by apply list_elem_of_fmap_2.
    + exists s, r, n. cbn [mi_stream_idx mi_key]. by rewrite list_lookup_insert_eq.
  - intros j s1 r1 Hj Hr. rewrite fmap_app, elem_of_app. destruct (decide (i = j)) as [<-|Hne]; [right; by left|].
    rewrite list_lookup_insert_ne in Hj by done. left. by eapply H2.
  - rewrite fmap_app. apply list.NoDup_app. split_and!; [done| |apply NoDup_singleton].
    intros x Hx ->%list_elem_of_singleton. done.
Qed.

Definition path_at (paths : list text) (x : nat * OwnedRecord) : text * OwnedRecord := (default [] (paths !! x.1), x.2).

Lemma streams_ok_insert paths streams g i s s0 x :
  streams_ok paths streams g → streams !! i = Some s0 → ss_idx s = i → ss_path s = ss_path s0 →
  match ss_pending s with None => x = ([], []) | Some r => x.1 = r :: selected p x.2 ∧ delivers (ss_reader s) x.2 end →
  streams_ok paths (<[i := s]> streams) (<[i := x]> g).
Proof.
  intros (Hl & Hpa & Hs) Hi Hidx Hpath Hx. pose proof (lookup_lt_Some _ _ _ Hi) as Hlt. split_and!.
  - by rewrite !length_insert.
  - rewrite list_fmap_insert, Hpath, <- Hpa. apply list_insert_id. by rewrite list_lookup_fmap, Hi.
  - intros j s1 x1 Hj Hg. destruct (decide (i = j)) as [<-|Hne].
    + rewrite list_lookup_insert_eq in Hj by done. rewrite list_lookup_insert_eq in Hg by lia. by simplify_eq.
    + rewrite list_lookup_insert_ne in Hj by done. rewrite list_lookup_insert_ne in Hg by done. by apply Hs.
Qed.

Lemma heap_empty_done paths streams g :
  streams_ok paths streams g → heap_ok streams [] → Forall (λ q, q = []) (fst <$> g).
Proof.
  intros (Hl & _ & Hs) [_ H2 _]. apply list.Forall_lookup. intros i q Hq. rewrite list_lookup_fmap in Hq.
  destruct (g !! i) as [x|] eqn:Eg; [|done]. injection Hq as <-.
  destruct (lookup_lt_is_Some_2 streams i) as [s Hi]; [rewrite Hl; by eapply lookup_lt_Some|].
  destruct (Hs i s x Hi Eg) as [_ Hx]. destruct (ss_pending s) as [r|] eqn:Er; [|by rewrite Hx].
  by apply (H2 i s r Hi), elem_of_nil in Er.
Qed.

(** The item on top of the heap belongs to a queue whose first record goes first. *)
Lemma heap_top_first paths streams g item rest s r :
  streams_ok paths streams g → heap_ok streams (item :: rest) →
  Forall (λ i, key_leb (mi_key item) (mi_key i) = true) rest →
  streams !! mi_stream_idx item = Some s → ss_pending s = Some r →
  ∀ j r' q', (fst <$> g) !! j = Some (r' :: q') → goes_before order r (mi_stream_idx item) r' j.
Proof.
  intros (Hl & _ & Hs) [H1 H2 _] Hmin Hi Hr j r' q' Hj. rewrite list_lookup_fmap in Hj.
  destruct (g !! j) as [x|] eqn:Eg; [|done]. injection Hj as Hx1.
  destruct (lookup_lt_is_Some_2 streams j) as [s' Hj]; [rewrite Hl; by eapply lookup_lt_Some|].
  destruct (Hs j s' x Hj Eg) as [_ Hx]. destruct (ss_pending s') as [r1|] eqn:Er; [|by rewrite Hx in Hx1].
  destruct Hx as [Hx _]. assert (r1 = r') as -> by congruence.
  destruct (H1 item) as (s0 & r0 & n0 & Hs0 & Hr0 & Hk0); [left|]. assert (r0 = r) as -> by congruence.
  destruct (decide (mi_stream_idx item = j)) as [<-|Hne].
  { assert (r' = r) as -> by congruence. split; [apply key_le_refl|done]. }
  pose proof (H2 j s' r' Hj Er) as Hin. rewrite fmap_cons in Hin. apply elem_of_cons in Hin as [?|Hin]; [congruence|].
  apply list_elem_of_fmap in Hin as (it & -> & Hit). rewrite list.Forall_forall in Hmin. specialize (Hmin it Hit).
  destruct (H1 it) as (s2 & r2 & n2 & Hs2 & Hr2 & Hk2); [by right|]. assert (r2 = r') as -> by congruence.
  rewrite Hk0, Hk2 in Hmin. by eapply merge_key_leb.
Qed.

(** A turn: the stream of the item on top moves on to its next matching record. *)
Lemma merge_turn serial paths streams g item rest s r rs st xs b :
  streams_ok paths streams g → heap_ok streams (item :: rest) →
  streams !! mi_stream_idx item = Some s → ss_idx s = mi_stream_idx item → delivers (ss_reader s) rs →
  progress st xs b → b + len rs ≤ MAX_U64 → serial + len rs ≤ MAX_U64 → ss_pending s = Some r →
  ∃ s' rs' next serial' st',
    advance cancel p order serial (mkStreamState (ss_idx s) (ss_path s) (ss_reader s) None) st = Some (Ok next, serial', s', st') ∧
    streams_ok paths (<[mi_stream_idx item := s']> streams) (<[mi_stream_idx item := (selected p rs, rs')]> g) ∧
    heap_ok (<[mi_stream_idx item := s']> streams) (rest ++ match next with Some i => [i] | None => [] end) ∧
    progress st' xs (b + len rs - len rs') ∧ serial' + len rs' ≤ serial + len rs.
Proof.
  intros Hs Hh Hi Hidx Hd Hp Hb Hser Hr.
  pose proof (advance_ok st xs b rs serial (mkStreamState (ss_idx s) (ss_path s) (ss_reader s) None) Hd Hp Hb Hser) as Ha.
  cbn [ss_idx ss_path] in Ha. destruct (selected p rs) as [|r' q'] eqn:Eq.
  - destruct Ha as (st2 & s' & Ha & Hidx' & Hpath' & Hpend & Hp2). exists s', [], None, serial, st2.
    rewrite len_nil, app_nil_r, Z.sub_0_r. pose proof (len_nonneg rs). split_and!; try done; [| |lia].
    + eapply streams_ok_insert; try done; [congruence|by rewrite Hpend].
    + by apply heap_ok_drop.
  - destruct Ha as (st2 & s' & rs' & Ha & Hidx' & Hpath' & Hpend & Hd' & Hsel & Hlt' & Hp2). rewrite Hidx in *.
    eexists s', rs', _, _, st2. split; [exact Ha|]. split_and!; try done; [| |lia].
    + eapply streams_ok_insert; try done. rewrite Hpend. cbn [fst snd]. by rewrite Hsel.
    + pose proof (heap_ok_drop streams item rest (mkStreamState 0 [] (ss_reader s) None) Hh eq_refl) as Hh'.
      rewrite <- (list_insert_insert_eq streams (mi_stream_idx item) s' (mkStreamState 0 [] (ss_reader s) None)).
      apply heap_ok_push; [done|rewrite length_insert; by eapply lookup_lt_Some| |done].
      pose proof (ho_nodup _ _ Hh) as Hnd. rewrite fmap_cons in Hnd. by apply list.NoDup_cons in Hnd as [? _].
Qed.

Lemma merge_loop_ok fuel serial paths streams heap st xs b g :
  streams_ok paths streams g → heap_ok streams heap → progress st xs b →
  b + len (concat (snd <$> g)) ≤ MAX_U64 → serial + len (concat (snd <$> g)) ≤ MAX_U64 →
  len xs + len (concat (fst <$> g)) ≤ MAX_U64 → len (concat (fst <$> g)) < Z.of_nat fuel →
  ∃ out st', merge_loop cancel connected p fuel order serial streams heap st = Some (Ok tt, st') ∧
    merged order (fst <$> g) out ∧ progress st' (xs ++ (path_at paths <$> out)) (b + len (concat (snd <$> g))).
Proof.
  revert serial streams heap st xs b g. induction fuel as [|fuel IH];
    intros serial streams heap st xs b g Hs Hh Hp Hb Hser Hx Hf; [pose proof (len_nonneg (concat (fst <$> g))); lia|].
  cbn [merge_loop]. rewrite poll_ok by done. pose proof (heap_pop_spec heap) as Hpop.
  pose proof (progress_polls _ _ _ (S (polls st)) Hp) as Hp0. destruct (heap_pop heap) as [[item rest]|].
  2:{ subst heap. exists [], (set_polls (S (polls st)) st). split; [done|].
      split; [constructor; by eapply heap_empty_done|]. rewrite fmap_nil, app_nil_r. eapply progress_mono; [done|].
      pose proof (len_nonneg (concat (snd <$> g))). lia. }
  destruct Hpop as [Hperm Hmin]. apply (heap_ok_perm _ _ _ Hperm) in Hh.
  destruct (ho_items _ _ Hh item) as (s & r & n & Hi & Hr & Hk); [left|]. rewrite Hi, Hr. pose proof Hs as (Hl & Hpa & Hss).
  destruct (lookup_lt_is_Some_2 g (mi_stream_idx item)) as [[q rs] Hg]; [rewrite <- Hl; by eapply lookup_lt_Some|].
  destruct (Hss _ _ _ Hi Hg) as [Hidx Hx1]. rewrite Hr in Hx1. cbn [fst snd] in Hx1. destruct Hx1 as [-> Hd].
  assert ((fst <$> g) !! mi_stream_idx item = Some (r :: selected p rs)) as Hq by by rewrite list_lookup_fmap, Hg.
  assert ((snd <$> g) !! mi_stream_idx item = Some rs) as Hq2 by by rewrite list_lookup_fmap, Hg.
  pose proof (len_concat_part _ _ _ Hq) as Hl1. pose proof (len_concat_part _ _ _ Hq2) as Hl2. rewrite len_cons in Hl1.
  pose proof (len_nonneg (selected p rs)). cbn [ss_path].
  destruct (forward_ok connected Hconn _ xs b (ss_path s) r Hp0 ltac:(lia)) as (st1 & -> & Hp1).
  destruct (merge_turn serial paths streams g item rest s r rs st1 _ b Hs Hh Hi Hidx Hd Hp1 ltac:(lia) ltac:(lia) Hr)
    as (s' & rs' & next & serial' & st2 & -> & Hs' & Hh' & Hp2 & Hser').
  pose proof (len_concat_insert (fst <$> g) _ _ (selected p rs) Hq) as E1. pose proof (len_concat_insert (snd <$> g) _ _ rs' Hq2) as E2.
  pose proof (list_fmap_insert fst g (mi_stream_idx item) (selected p rs, rs')) as F1. cbn [fst] in F1. rewrite <- F1 in E1.
  pose proof (list_fmap_insert snd g (mi_stream_idx item) (selected p rs, rs')) as F2. cbn [snd] in F2. rewrite <- F2 in E2.
  rewrite len_cons in E1.
  destruct (IH serial' _ _ st2 _ _ _ Hs' Hh' Hp2) as (out & st' & Hm & Hmg & Hpr); try lia.
  { rewrite len_app. change (len [(ss_path s, r)]) with 1. lia. }
  exists ((mi_stream_idx item, r) :: out), st'. split; [done|]. split.
  - econstructor; [done|by eapply heap_top_first|]. by rewrite F1 in Hmg.
  - rewrite fmap_cons. unfold path_at at 1. cbn [fst snd]. rewrite <- Hpa at 1. rewrite list_lookup_fmap, Hi.
    rewrite <- app_assoc in Hpr. eapply progress_mono; [done|lia].
Qed.

(** ** Opening the streams *)

Lemma streams_ok_snoc paths streams g s x :
  streams_ok paths streams g → ss_idx s = length streams →
  match ss_pending s with None => x = ([], []) | Some r => x.1 = r :: selected p x.2 ∧ delivers (ss_reader s) x.2 end →
  streams_ok (paths ++ [ss_path s]) (streams ++ [s]) (g ++ [x]).
Proof.
  intros (Hl & <- & Hs) Hidx Hx. split_and!; [by rewrite !length_app, Hl|by rewrite fmap_app|].
  intros i s1 x1 Hi Hg. apply lookup_app_Some in Hi as [Hi|[Hge Hi]].
  - rewrite lookup_app_l in Hg by (rewrite <- Hl; by eapply lookup_lt_Some). by apply Hs.
  - rewrite lookup_app_r in Hg by lia. rewrite <- Hl in Hg. destruct (i - length streams)%nat as [|k] eqn:Ek; [|done].
    injection Hi as <-. injection Hg as <-. split; [lia|done].
Qed.

Lemma heap_ok_snoc streams heap s next :
  heap_ok streams heap →
  match ss_pending s with
  | None => next = None
  | Some r => ∃ n, next = Some (mkMergeItem (merge_key order r (length streams) n) (length streams))
  end →
  heap_ok (streams ++ [s]) (heap ++ match next with Some i => [i] | None => [] end).
Proof.
  intros [H1 H2 H3] Hn.
  assert (∀ item, item ∈ heap → (mi_stream_idx item < length streams)%nat) as Hlt.
  { intros item Hin. destruct (H1 item Hin) as (s1 & r & n & Hi & _). by eapply lookup_lt_Some. }
  split.
  - intros item [Hin|Hin]%elem_of_app.
    + destruct (H1 item Hin) as (s1 & r & n & Hi & Hr & Hk). exists s1, r, n. rewrite lookup_app_l by by apply Hlt. done.
    + destruct (ss_pending s) as [r|] eqn:Er; [destruct Hn as [n ->]|subst next; by apply elem_of_nil in Hin].
      apply list_elem_of_singleton in Hin as ->. exists s, r, n. cbn [mi_stream_idx mi_key]. by rewrite lookup_app_r, Nat.sub_diag by lia.
  - intros i s1 r Hi Hr. rewrite fmap_app, elem_of_app. apply lookup_app_Some in Hi as [Hi|[Hge Hi]]; [left; by eapply H2|].
    destruct (i - length streams)%nat as [|k] eqn:Ek; [|done]. injection Hi as <-. rewrite Hr in Hn. destruct Hn as [n ->].
    right. cbn [fmap list_fmap mi_stream_idx]. replace i with (length streams) by lia. left.
  - rewrite fmap_app. apply list.NoDup_app. split_and!; [done| |destruct next; [apply NoDup_singleton|constructor]].
    intros x (item & -> & Hin)%list_elem_of_fmap Hx. specialize (Hlt item Hin).
    destruct (ss_pending s) as [r|]; [destruct Hn as [n ->]|subst next; by apply elem_of_nil in Hx].
    apply list_elem_of_singleton in Hx. cbn [mi_stream_idx] in Hx. lia.
Qed.

Lemma open_streams_ok todo rss serial paths streams heap st xs b g :
  streams_ok paths streams g → heap_ok streams heap → progress st xs b →
  Forall2 (λ s rs, delivers (ss_reader s) rs) todo rss →
  (∀ k s, todo !! k = Some s → ss_idx s = (length streams + k)%nat) →
  b + len (concat (snd <$> g)) + len (concat rss) ≤ MAX_U64 → serial + len (concat (snd <$> g)) + len (concat rss) ≤ MAX_U64 →
  ∃ serial' streams' heap' st' g' b', open_streams cancel p order serial todo streams heap st = Some (Ok (serial', streams', heap'), st') ∧
    streams_ok (paths ++ (ss_path <$> todo)) streams' g' ∧ fst <$> g' = (fst <$> g) ++ (selected p <$> rss) ∧
    heap_ok streams' heap' ∧ progress st' xs b' ∧
    b' + len (concat (snd <$> g')) ≤ b + len (concat (snd <$> g)) + len (concat rss) ∧
    serial' + len (concat (snd <$> g')) ≤ serial + len (concat (snd <$> g)) + len (concat rss).
Proof.
  intros Hs Hh Hp Hd. revert serial paths streams heap st b g Hs Hh Hp.
  induction Hd as [|s rs todo rss Hd Hds IH]; intros serial paths streams heap st b g Hs Hh Hp Hidx Hb Hser.
  { exists serial, streams, heap, st, g, b. simpl. rewrite len_nil, !app_nil_r. split_and!; try done; lia. }
  cbn [concat] in *. rewrite len_app in *. pose proof (len_nonneg (concat rss)). pose proof (len_nonneg (concat (snd <$> g))).
  pose proof (Hidx 0%nat s eq_refl) as Hi0. rewrite Nat.add_0_r in Hi0. cbn [open_streams].
  assert (∃ next serial' s' st' x, advance cancel p order serial s st = Some (Ok next, serial', s', st') ∧
    ss_path s' = ss_path s ∧ x.1 = selected p rs ∧ streams_ok (paths ++ [ss_path s]) (streams ++ [s']) (g ++ [x]) ∧
    heap_ok (streams ++ [s']) (heap ++ match next with Some i => [i] | None => [] end) ∧
    progress st' xs (b + len rs - len x.2) ∧ serial' + len x.2 ≤ serial + len rs)
    as (next & serial' & s' & st' & x & -> & Hpath & Hx1 & Hs' & Hh' & Hp' & Hser').
  { pose proof (advance_ok st xs b rs serial s Hd Hp ltac:(lia) ltac:(lia)) as Ha.
    destruct (selected p rs) as [|r q] eqn:Eq.
    - destruct Ha as (st2 & s' & Ha & Hidx' & Hpath' & Hpend & Hp2). exists None, serial, s', st2, ([], []).
      pose proof (len_nonneg rs). cbn [fst snd]. rewrite len_nil, Z.sub_0_r. split_and!; try done; [| |lia].
      + rewrite <- Hpath'. apply streams_ok_snoc; [done|congruence|by rewrite Hpend].
      + apply (heap_ok_snoc _ _ _ None); [done|by rewrite Hpend].
    - destruct Ha as (st2 & s' & rs' & Ha & Hidx' & Hpath' & Hpend & Hd' & Hsel & Hlt' & Hp2).
      eexists _, _, s', st2, (r :: q, rs'). split; [exact Ha|]. cbn [fst snd]. split_and!; try done; [| |lia].
      + rewrite <- Hpath'. apply streams_ok_snoc; [done|congruence|rewrite Hpend; cbn [fst snd]; by rewrite Hsel].
      + apply (heap_ok_snoc _ _ _ (Some _)); [done|rewrite Hpend]. exists serial. by rewrite Hi0. }
  assert (len (concat (snd <$> g ++ [x])) = len (concat (snd <$> g)) + len x.2) as El.
  { rewrite fmap_app, concat_app, len_app. simpl. by rewrite app_nil_r. }
  destruct (IH serial' _ _ _ st' _ _ Hs' Hh' Hp') as (serial2 & streams2 & heap2 & st2 & g2 & b2 & Ho & Hs2 & Hg2 & Hh2 & Hp2 & Hb2 & Hser2);
    [|lia|lia|].
  { intros k s1 Hk. rewrite (Hidx (S k) s1 Hk), length_app. simpl. lia. }
  exists serial2, streams2, heap2, st2, g2, b2. split_and!; try done; try lia.
  - by rewrite <- app_assoc in Hs2.
  - rewrite Hg2, fmap_app, <- app_assoc. cbn [fmap list_fmap]. by rewrite Hx1.
Qed.

(** ** The listing *)

Lemma merged_listing_permutation {B} (f : nat → OwnedRecord → B) qs out :
  merged order qs out → (λ x, f x.1 x.2) <$> out ≡ₚ concat (imap (λ i q, f i <$> q) qs).
Proof.
  induction 1 as [qs Hd|qs i r q out Hi Hb Hm IH].
  - rewrite fmap_nil. clear -Hd. revert f. induction Hd as [|q qs -> Hd IHd]; intros f; [done|]. simpl. apply (IHd (λ i, f (S i))).
  - rewrite fmap_cons. cbn [fst snd]. rewrite IH.
    rewrite (concat_insert_cons (imap (λ i q, f i <$> q) qs) i (f i r) (f i <$> q)); [|by rewrite list_lookup_imap, Hi].
    assert (imap (λ i q, f i <$> q) (<[i := q]> qs) = <[i := f i <$> q]> (imap (λ i q, f i <$> q) qs)) as ->; [|done].
    apply list_eq. intros j. rewrite list_lookup_imap, !list_lookup_insert, list_lookup_imap, length_imap.
    case_decide as Hij; [|done]. by destruct Hij as [<- _].
Qed.

(** The inputs that are opened, with their records. *)
Definition opens (e : DatasetEntry) : Prop :=
  match entry_index e with Some index => may_match (summary_digest (summary index)) p | None => true end = true.
#[local] Instance opens_dec e : Decision (opens e).
Proof. unfold opens. apply _. Defined.
Definition opened (es : list DatasetEntry) (rss : list (list OwnedRecord)) : list (DatasetEntry * list OwnedRecord) :=
  filter (λ x, opens x.1) (zip es rss).

(** What a merge is told of its inputs: what they deliver, and where there is an index,
    that it is the index of that file. *)
Definition merges_from (e : DatasetEntry) (rs : list OwnedRecord) : Prop :=
  delivers (reader_new (entry_data e)) rs ∧ (is_Some (entry_index e) → holds p e rs).

Lemma merged_streams_opened es rss :
  length es = length rss → merged_streams p es = imap stream_open (fst <$> opened es rss).
Proof.
  intros Hl. unfold merged_streams, opened. f_equal. revert rss Hl.
  induction es as [|e es IH]; intros [|rs rss] Hl; try done. cbn [zip zip_with]. rewrite !filter_cons. cbn [fst].
  change (match entry_index e with Some index => may_match (summary_digest (summary index)) p | None => true end = true) with (opens e).
  injection Hl as Hl. rewrite (IH rss Hl). by destruct (decide (opens e)).
Qed.

Lemma listing_opened es rss :
  Forall2 merges_from es rss →
  listing p es rss = concat ((λ x, at_path (entry_path x.1) (selected p x.2)) <$> opened es rss).
Proof.
  unfold listing, opened. induction 1 as [|e rs es rss [Hd Hh] Hes IH]; [done|].
  cbn [zip zip_with concat]. rewrite filter_cons. cbn [fst snd]. rewrite IH. destruct (decide (opens e)) as [|Hno]; [done|].
  unfold opens in Hno. destruct (entry_index e) as [index|] eqn:Ei; [|done].
  destruct (holds_indexed p e rs index Ei (Hh ltac:(done))) as (bl & _ & _ & _ & Hcov & Hs & Hcl).
  by rewrite (excluded_selects_nothing p _ _ Hcov Hs Hcl (not_true_is_false _ Hno)).
Qed.

Lemma merged_sublist paths qs out i path q :
  merged order qs out → qs !! i = Some q → paths !! i = Some path → at_path path q `sublist_of` (path_at paths <$> out).
Proof.
  intros Hm Hq Hp. rewrite <- (merged_keeps_queues order qs out i q Hm Hq). unfold at_path. rewrite <- list_fmap_compose.
  assert (((path,.) ∘ snd) <$> filter (λ x : nat * OwnedRecord, x.1 = i) out =
    path_at paths <$> filter (λ x : nat * OwnedRecord, x.1 = i) out) as ->.
  { apply list_fmap_ext. intros j x Hx%list_elem_of_lookup_2. apply list_elem_of_filter in Hx as [<- _].
    unfold path_at. simpl. by rewrite Hp. }
  apply fmap_sublist, sublist_filter.
Qed.

Lemma opened_deliver es rss :
  Forall2 merges_from es rss →
  Forall2 (λ s rs, delivers (ss_reader s) rs) (imap stream_open (fst <$> opened es rss)) (snd <$> opened es rss).
Proof.
  intros Hes. set (op := opened es rss).
  apply Forall2_same_length_lookup. split; [by rewrite length_imap, !length_fmap|]. intros i s rs Hi Hrs.
    rewrite list_lookup_imap in Hi. rewrite list_lookup_fmap in Hi. rewrite list_lookup_fmap in Hrs. destruct (op !! i) as [[e rs']|] eqn:Eop; [|done].
    injection Hi as <-. injection Hrs as <-. cbn [ss_reader stream_open fst snd].
    assert ((e, rs') ∈ zip es rss) as Hin by (apply list_elem_of_lookup_2 in Eop; by apply list_elem_of_filter in Eop as [_ ?]).
    apply list_elem_of_lookup in Hin as [k Hk]. apply lookup_zip_with_Some in Hk as (e0 & r0 & [= -> ->] & H1 & H2).
    by destruct (Forall2_lookup_lr _ _ _ _ _ _ Hes H1 H2).
Qed.

Lemma opened_len es rss : Forall2 merges_from es rss → len (concat (snd <$> opened es rss)) ≤ len (concat rss).
Proof.
  unfold opened. induction 1 as [|e rs es rss _ Hes IH]; [done|]. cbn [zip zip_with concat].
  rewrite filter_cons, len_app. cbn [fst]. pose proof (len_nonneg rs).
  destruct (decide (opens e)); [rewrite fmap_cons; cbn [snd concat]; rewrite len_app; lia|lia].
Qed.

Lemma len_concat_selected rss : len (concat (selected p <$> rss)) ≤ len (concat rss).
Proof.
  induction rss as [|rs rss IH]; [done|]. rewrite fmap_cons. cbn [concat]. rewrite !len_app. pose proof (len_selected p rs). lia.
Qed.

Lemma merge_run es rss fuel :
  Forall2 merges_from es rss → len (concat rss) ≤ MAX_U64 → len (concat rss) < Z.of_nat fuel →
  ∃ out n st, scan_matches_merged cancel connected p fuel order es = Some (Ok (n, len out), st) ∧
    merged order (selected p ∘ snd <$> opened es rss) out ∧
    Forall2 (describes (spool st)) (concat (sent st)) (path_at (entry_path ∘ fst <$> opened es rss) <$> out).
Proof.
  intros Hes Hmax Hfuel. set (op := opened es rss).
  assert (merged_streams p es = imap stream_open (fst <$> op)) as Hms by (apply merged_streams_opened; by eapply Forall2_length).
  assert (len (concat (snd <$> op)) ≤ len (concat rss)) as Hlen by by apply opened_len.
  unfold scan_matches_merged. rewrite Hms.
  destruct (open_streams_ok (imap stream_open (fst <$> op)) (snd <$> op) 0 [] [] [] ScanState_new [] 0 [])
    as (serial & streams & heap & st & g & b & -> & Hs & Hg & Hh & Hp & Hb & Hser); cbn [fmap list_fmap concat length]; rewrite ?len_nil; try done; try lia.
  - split; [by intros ? ?%elem_of_nil|by intros ? ? ?|constructor].
  - by apply opened_deliver.
  - intros k s Hk. rewrite list_lookup_imap in Hk. destruct ((fst <$> op) !! k); [|done]. by injection Hk as <-.
  - unfold len in *. cbn [length]. lia.
  - unfold len in *. cbn [length]. lia.
  - rewrite fmap_nil, app_nil_l in Hg. cbn [fmap list_fmap concat app] in *. change (len []) with 0 in *.
    assert (len (concat (fst <$> g)) ≤ len (concat rss)) as Hq by (rewrite Hg; etrans; [apply len_concat_selected|done]).
    destruct (merge_loop_ok fuel serial _ streams heap st [] b g Hs Hh Hp) as (out & st' & -> & Hm & Hp'); try (rewrite ?len_nil; lia).
    destruct (send_rest_ok connected Hconn _ _ _ Hp') as (n & st2 & Hs2 & [H1 _ _] & He & _).
    exists out, n, st2. rewrite Hs2. unfold listed in H1. rewrite He, app_nil_r in H1.
    assert (ss_path <$> imap stream_open (fst <$> op) = entry_path ∘ fst <$> op) as Epath.
    { apply list_eq. intros k. rewrite !list_lookup_fmap, list_lookup_imap, list_lookup_fmap. by destruct (op !! k). }
    rewrite Epath in H1. split_and!; [|by rewrite Hg, <- list_fmap_compose in Hm|done].
    do 4 f_equal. unfold len. by rewrite app_nil_l, length_fmap.
Qed.

End Merge.

(** ** It applies *)

Section Witness.
#[local] Existing Instances sample_parts logs_codec sample_floats sample_trees sample_engine sample_signals stored_externals stored_laws.
#[local] Existing Instance sample_matchers.

End Witness.
