(* ===== verification/ViewExport.v ===== *)
(** * Exporting what is shown

    A selection is written in the order in which it is shown, whatever the sequence
    numbers and times are: [push_preserving_view_order] closes the open block before a
    record that would go back, so the writer never refuses one. *)

From stdpp Require Import sorting.
From S2P Require Import Prelude Text Tokens Format Writer Reader Instances Scan Container Otlp FlatRecord SampleCodec Cel Predicate DatasetIndex IndexTheorems ViewScan ViewTheorems.

Section ViewExport.
Context {EX : Externals} {EL : ExternalLaws}.

(** [block_last] is the last record of the open block, and the block is in order. *)
Definition open_block (pending : list OwnedRecord) (block_last : option (Z * Z)) : Prop :=
  block_last = (λ r, (seq r, ts_unix_ns r)) <$> list.last pending ∧ StronglySorted no_earlier pending.

Lemma StronglySorted_suffix {A} (R : A → A → Prop) (l k : list A) : l `suffix_of` k → StronglySorted R k → StronglySorted R l.
Proof. intros [x ->] Hs. by apply StronglySorted_app in Hs as (_ & _ & ?). Qed.

Lemma pending_bytes_pos cfg sink0 blocks pending (w : LogjetWriter (list Z)) :
  writer_core cfg sink0 blocks pending w → pending_bytes w = 0 ↔ pending = [].
Proof.
  intros Hc. unfold pending_bytes. rewrite (inv_payload _ _ _ _ _ Hc).
  destruct pending as [|r rs]; [done|]. pose proof (encode_payload_nonempty (r :: rs) ltac:(done)). split; done.
Qed.

(** A push of one record in view order: it is accepted and joins the log. *)
Lemma view_push_ok cfg sink0 blocks pending block_last r (w : LogjetWriter (list Z)) :
  writer_inv cfg sink0 blocks pending w → open_block pending block_last →
  valid_record r → len (payload r) + 34 ≤ MAX_U32 → block_target_size cfg ≤ MAX_U32 → codec_accepts (wc_codec cfg) MAX_U32 →
  ∃ w' blocks' pending' block_last',
    push_preserving_view_order block_last (record_type r) (seq r) (ts_unix_ns r) (payload r) w = (Ok block_last', w') ∧
    writer_inv cfg sink0 blocks' pending' w' ∧ concat blocks' ++ pending' = concat blocks ++ pending ++ [r] ∧
    open_block pending' block_last'.
Proof.
  intros Hinv [-> Hs] Hv Hl Ht Hacc. unfold push_preserving_view_order, bind at 1, gets at 1.
  set (back := (0 <? pending_bytes w) && _).
  assert (∃ w1 blocks1 pending1, (if back then flush_block else ret tt) w = (Ok tt, w1) ∧
    writer_inv cfg sink0 blocks1 pending1 w1 ∧ concat blocks1 ++ pending1 = concat blocks ++ pending ∧
    StronglySorted no_earlier (pending1 ++ [r])) as (w1 & blocks1 & pending1 & Hf & Hinv1 & E1 & Hs1).
  { destruct back eqn:Eb.
    - apply andb_true_iff in Eb as [Hpos%Z.ltb_lt Eb]. destruct Hinv as [Hc Hb [->|[Hrec Hlt]]].
      { pose proof (proj2 (pending_bytes_pos _ _ _ _ _ Hc) eq_refl). lia. }
      destruct (flush_block_total cfg sink0 blocks pending w) as [w1 Hf]; try done; [by apply bytes_encode_payload|lia|].
      exists w1, (blocks ++ [pending]), []. split_and!; [done| | |by repeat constructor].
      + eapply flush_block_Ok; try done. right. lia.
      + rewrite concat_app. simpl. by rewrite !app_nil_r.
    - exists w, blocks, pending. split_and!; try done. apply StronglySorted_app. split_and!; [|done|by repeat constructor].
      intros x y Hx ->%list_elem_of_singleton. destruct (list.last pending) as [z|] eqn:Ez.
      2:{ apply list.last_None in Ez as ->. by apply elem_of_nil in Hx. }
      pose proof (sorted_last pending x z Hs Hx Ez) as [? ?].
      assert (0 < pending_bytes w) as Hpos.
      { pose proof (len_nonneg (payload_buf w)). fold (pending_bytes w) in *.
        destruct (decide (pending_bytes w = 0)) as [E%(pending_bytes_pos _ _ _ _ _ (inv_core _ _ _ _ _ Hinv))|]; [by subst|lia]. }
      unfold back in Eb. rewrite (proj2 (Z.ltb_lt _ _) Hpos) in Eb. cbn [andb fmap option_fmap option_map] in Eb.
      apply orb_false_iff in Eb as [?%Z.ltb_ge ?%Z.ltb_ge]. split; lia. }
  unfold bind at 1. rewrite Hf. unfold bind at 1.
  destruct (push_total cfg sink0 blocks1 pending1 r w1 Hinv1) as [w2 Hp]; [|done|done|].
  { split_and!; [done|done|]. destruct pending1 as [|r0 rs]; [done|]. apply StronglySorted_inv in Hs1 as [_ Hs1].
    apply Forall_app in Hs1 as [_ Hs1]. by apply Forall_inv in Hs1. }
  rewrite Hp. destruct (push_Ok_suffix cfg sink0 blocks1 pending1 r w1 w2 Hinv1 Hv Hp) as (bl & pe & Hinv2 & E2 & Hsuf).
  unfold bind, gets, ret. eexists w2, bl, pe, _. split_and!; [done|done|by rewrite E2, app_assoc, E1, <- app_assoc|].
  pose proof (pending_bytes_pos _ _ _ _ _ (inv_core _ _ _ _ _ Hinv2)) as Hz. split; [|by eapply StronglySorted_suffix].
  destruct (Z.eqb_spec (pending_bytes w2) 0) as [E|E]; [by apply Hz in E as ->|].
  destruct pe as [|x pe _] using rev_ind; [by rewrite Hz in E|]. rewrite last_snoc. simpl.
  apply suffix_snoc_inv_1 in Hsuf. by subst.
Qed.

Lemma push_selection_ok cfg sink0 file metas xs blocks pending block_last (w : LogjetWriter (list Z)) :
  Forall2 (describes file) metas xs → writer_inv cfg sink0 blocks pending w → open_block pending block_last →
  Forall valid_record (snd <$> xs) → Forall (λ r, len (payload r) + 34 ≤ MAX_U32) (snd <$> xs) →
  block_target_size cfg ≤ MAX_U32 → codec_accepts (wc_codec cfg) MAX_U32 →
  ∃ w' blocks' pending', push_selection block_last file metas w = (Ok tt, w') ∧ writer_inv cfg sink0 blocks' pending' w' ∧
    concat blocks' ++ pending' = concat blocks ++ pending ++ (snd <$> xs).
Proof.
  intros Hd. revert blocks pending block_last w.
  induction Hd as [|m x metas xs (_ & E1 & E2 & E3 & Hr) Hd IH]; intros blocks pending block_last w Hinv Ho Hv Hl Ht Hacc.
  { exists w, blocks, pending. by rewrite fmap_nil, app_nil_r. }
  rewrite fmap_cons in *. apply Forall_cons_iff in Hv as [Hv1 Hv], Hl as [Hl1 Hl].
  destruct (view_push_ok cfg sink0 blocks pending block_last x.2 w Hinv Ho Hv1 Hl1 Ht Hacc)
    as (w1 & bl1 & pe1 & last1 & Hp & Hinv1 & Ec & Ho1).
  cbn [push_selection]. unfold bind, lift. rewrite Hr. cbn [detail_payload]. rewrite E1, E2, E3, Hp.
  destruct (IH bl1 pe1 last1 w1 Hinv1 Ho1 Hv Hl Ht Hacc) as (w' & bl' & pe' & Hw & Hinv' & E').
  exists w', bl', pe'. split_and!; [done|done|]. by rewrite E', app_assoc, Ec, <- !app_assoc.
Qed.

Lemma into_inner_total cfg sink0 blocks pending (w : LogjetWriter (list Z)) :
  writer_inv cfg sink0 blocks pending w → block_target_size cfg ≤ MAX_U32 → codec_accepts (wc_codec cfg) MAX_U32 →
  ∃ out, into_inner w = Ok out.
Proof.
  intros [Hc Hb Hp] Ht Hacc. unfold into_inner. destruct Hp as [->|[Hrec Hlt]].
  - unfold flush_block, bind, gets. rewrite (inv_payload _ _ _ _ _ Hc). by eexists.
  - destruct (flush_block_total cfg sink0 blocks pending w) as [w' ->]; try done; [by apply bytes_encode_payload|lia|by eexists].
Qed.

(** Any sequence of blocks that a writer emitted is delivered. *)
Lemma emitted_delivers wc rc lim blocks (out : list Z) :
  compatible wc rc lim → emitted wc [] blocks out → Forall (λ rs, block_records rs ∧ block_fits wc rs) blocks →
  Forall (Forall (fits_reader lim)) blocks → len out < MAX_U32 → delivers (reader_with_config out rc) (concat blocks).
Proof.
  intros Hco (chunks & Hout & Hch)%emitted_written Hbl Hf Hl. simpl in Hout. subst out.
  assert (bytes (concat chunks)) as Hbytes.
  { apply Forall_concat. clear Hl. induction Hch as [|rs c bl cs Hb Hch IH]; [constructor|].
    apply Forall_cons_iff in Hbl as [[Hr _] Hbl]. apply Forall_cons_iff in Hf as [_ Hf].
    constructor; [by eapply bytes_is_block|by apply IH]. }
  eapply compatible_delivers; [done|done|done|]. rewrite <- (app_nil_r (concat chunks)), <- (app_nil_r blocks).
  eapply (readable_chunks wc rc lim blocks chunks [] [] []); try done.
  rewrite app_nil_r, app_nil_l. by eapply readable_at_end, compatible_marker_nonempty.
Qed.

End ViewExport.

(** ** It applies *)

Section Witness.
#[local] Existing Instances stored_externals stored_laws.

(** Three records shown in the order of their times, with the numbers going back. *)
Definition shown : list OwnedRecord := [mkRecord Logs 9 4 [1]; mkRecord Logs 3 5 [2; 3]; mkRecord Metrics 5 2 []].
Definition shown_pairs : list (text * OwnedRecord) := Eval vm_compute in (str "a",.) <$> shown.
Definition shown_spool : list Z * list EntryMeta := Eval vm_compute in
  foldl (λ acc r, let '(f, m) := write_spool_record acc.1 r (str "a") in (f, acc.2 ++ [m])) ([], []) shown.

End Witness.
