(* ===== verification/Input.v ===== *)
(** * Inputs and outputs of the command line tool

    [ljx/src/input.rs] and the names of [dataset.rs]: where the commands read from and
    write to.  A file system is a map from paths to contents; [fault path] is the error,
    if any, with which opening a path fails for a reason other than its presence, and
    [candidate n] the [n]-th name for a temporary file. *)

From S2P Require Import Prelude Text Format.

Abbreviation Fs := (gmap (list Z) (list Z)).

(** [Error::Io] and [Error::Usage] *)
Inductive InputError : Type := InputIo (e : IoError) | InputUsage (msg : list Z).

Record OpenOptions : Type := mkOpenOptions { oo_create : bool; oo_truncate : bool; oo_create_new : bool }.

Section Input.
Context (fault : list Z → option IoError) (candidate : Z → list Z).

(** [OpenOptions::open]; a new or truncated file is empty. *)
Definition open (options : OpenOptions) (path : list Z) (fs : Fs) : result IoError Fs :=
  match fault path with
  | Some e => Err e
  | None =>
      if oo_create_new options then
        match fs !! path with
        | Some _ => Err (io_error AlreadyExists "File exists")
        | None => Ok (<[path := []]> fs)
        end
      else
        match fs !! path with
        | Some _ => Ok (if oo_truncate options then <[path := []]> fs else fs)
        | None => if oo_create options then Ok (<[path := []]> fs) else Err (io_error NotFound "No such file or directory")
        end
  end.

Definition is_stdio (path : list Z) : bool := bool_decide (path = [45]).

(** [fuel] bounds the number of names that are tried. *)
Fixpoint temp_path_loop (fuel : nat) (attempt : Z) (fs : Fs) : option (result InputError (list Z) * Fs) :=
  match fuel with
  | O => None
  | S fuel =>
      match open (mkOpenOptions false false true) (candidate attempt) fs with
      | Ok fs => Some (Ok (candidate attempt), fs)
      | Err e =>
          if decide (io_kind e = AlreadyExists) then
            match checked_add MAX_U32 attempt 1 with
            | Some attempt => temp_path_loop fuel attempt fs
            | None => Some (Err (InputUsage (str "temporary file naming overflow")), fs)
            end
          else Some (Err (InputIo e), fs)
      end
  end.
Definition create_temp_path (fuel : nat) (fs : Fs) : option (result InputError (list Z) * Fs) := temp_path_loop fuel 0 fs.

(** What an input holds, and the temporary file behind it. *)
Record InputHandle : Type := mkInputHandle { ih_content : list Z; ih_temp_path : option (list Z) }.

Definition from_stdin (fuel : nat) (stdin : list Z) (fs : Fs) : option (result InputError InputHandle * Fs) :=
  match create_temp_path fuel fs with
  | None => None
  | Some (Err e, fs) => Some (Err e, fs)
  | Some (Ok path, fs) =>
      match open (mkOpenOptions false false true) path fs with
      | Err e => Some (Err (InputIo e), fs)
      | Ok fs => Some (Ok (mkInputHandle stdin (Some path)), <[path := stdin]> fs)
      end
  end.

Definition InputHandle_open (fuel : nat) (path stdin : list Z) (fs : Fs) : option (result InputError InputHandle * Fs) :=
  if is_stdio path then from_stdin fuel stdin fs else
  match fault path, fs !! path with
  | Some e, _ => Some (Err (InputIo e), fs)
  | None, Some content => Some (Ok (mkInputHandle content None), fs)
  | None, None => Some (Err (InputIo (io_error NotFound "No such file or directory")), fs)
  end.

Definition InputHandle_drop (h : InputHandle) (fs : Fs) : Fs :=
  match ih_temp_path h with Some path => delete path fs | None => fs end.

(** [None] for the standard output *)
Definition open_output_with_policy (path : list Z) (overwrite : bool) (fs : Fs) : result InputError (option (list Z) * Fs) :=
  if is_stdio path then Ok (None, fs) else
  let options := if overwrite then mkOpenOptions true true false else mkOpenOptions false false true in
  match open options path fs with
  | Ok fs => Ok (Some path, fs)
  | Err e =>
      if decide (io_kind e = AlreadyExists)
      then Err (InputUsage (str "output file " ++ path ++ str " already exists; use --force to overwrite"))
      else Err (InputIo e)
  end.
Definition open_output (path : list Z) (fs : Fs) : result InputError (option (list Z) * Fs) := open_output_with_policy path true fs.

(** ** What they do *)

Lemma temp_path_loop_creates fuel attempt fs path fs' :
  temp_path_loop fuel attempt fs = Some (Ok path, fs') → fs !! path = None ∧ fs' = <[path := []]> fs.
Proof.
  revert attempt. induction fuel as [|fuel IH]; intros attempt H; [done|]. cbn [temp_path_loop] in H.
  destruct (open _ _ fs) as [fs1|e] eqn:Eo.
  - injection H as <- <-. unfold open in Eo. cbn [oo_create_new] in Eo. destruct (fault _); [done|].
    destruct (fs !! candidate attempt) eqn:E; [done|]. by injection Eo as <-.
  - case_decide; [|done]. destruct (checked_add _ _ _); [by eapply IH|done].
Qed.

(** Names for temporary files run out of use: with more names than files one is free. *)
Lemma temp_path_loop_ends fuel attempt fs :
  (∀ n, fault (candidate n) = None) → (∀ n m, candidate n = candidate m → n = m) →
  0 ≤ attempt → attempt + Z.of_nat fuel ≤ MAX_U32 →
  (∃ n, attempt ≤ n < attempt + Z.of_nat fuel ∧ fs !! candidate n = None) →
  ∃ path, temp_path_loop fuel attempt fs = Some (Ok path, <[path := []]> fs).
Proof.
  intros Hf Hinj. revert attempt. induction fuel as [|fuel IH]; intros attempt Ha Hmax (n & Hn & Hfree); [lia|].
  cbn [temp_path_loop]. unfold open. rewrite Hf. cbn [oo_create_new].
  destruct (fs !! candidate attempt) as [c|] eqn:E; [|by eexists].
  rewrite decide_True by done. unfold checked_add. rewrite (proj2 (Z.leb_le _ _)) by lia. apply IH; [lia|lia|].
  exists n. split; [|done]. destruct (decide (n = attempt)) as [->|]; [congruence|lia].
Qed.

(** Standard input.  Standard input is never read: the temporary file is created to reserve its name and
    then created again, which fails because it exists; it stays behind. *)
Theorem stdin_input_always_fails fuel stdin fs r fs' :
  InputHandle_open fuel [45] stdin fs = Some (r, fs') →
  (∃ e, r = Err e) ∧
  (∀ path fs1, create_temp_path fuel fs = Some (Ok path, fs1) → fault path = None →
     r = Err (InputIo (io_error AlreadyExists "File exists")) ∧ fs' = <[path := []]> fs ∧ fs !! path = None).
Proof.
  unfold InputHandle_open. change (is_stdio [45]) with true. cbv iota. unfold from_stdin.
  destruct (create_temp_path fuel fs) as [[[path|e] fs1]|] eqn:Et; [|intros [= <- <-]; split; [by eexists|done]|done].
  destruct (temp_path_loop_creates _ _ _ _ _ Et) as [Hn ->]. unfold open. cbn [oo_create_new]. rewrite lookup_insert_eq.
  destruct (fault path) eqn:Ef; intros [= <- <-]; (split; [by eexists|]); intros ? ? [= <- <-] ?; [congruence|done].
Qed.

(** Without [--force] an existing file is neither opened nor changed; otherwise the
    output starts empty and no other file changes. *)
Theorem output_policy path overwrite fs :
  is_stdio path = false → fault path = None →
  open_output_with_policy path overwrite fs =
    if negb overwrite && bool_decide (is_Some (fs !! path))
    then Err (InputUsage (str "output file " ++ path ++ str " already exists; use --force to overwrite"))
    else Ok (Some path, <[path := []]> fs).
Proof.
  intros Hs Hf. unfold open_output_with_policy, open. rewrite Hs, Hf.
  destruct overwrite; cbn [oo_create oo_truncate oo_create_new negb andb]; destruct (fs !! path) eqn:E; try done.
Qed.
End Input.

(** On a directory with one of the names already taken, reading standard input fails,
    and one more file is there. *)
Lemma stdin_input_always_fails_witness :
  let fs : Fs := {[ [0] := [9] ]} in
  ∃ r fs', InputHandle_open (λ _, None) (λ n, [n]) 3 [45] [1; 2; 3] fs = Some (r, fs') ∧
    r = Err (InputIo (io_error AlreadyExists "File exists")) ∧ fs' = <[ [1] := [] ]> fs.
Proof.
  intros fs. destruct (InputHandle_open (λ _, None) (λ n, [n]) 3 [45] [1; 2; 3] fs) as [[r fs']|] eqn:E; [|discriminate E].
  exists r, fs'. split; [reflexivity|].
  destruct (stdin_input_always_fails (λ _, None) (λ n, [n]) 3 [1; 2; 3] fs r fs' E) as [_ H].
  destruct (H [1] (<[ [1] := [] ]> fs)) as (H1 & H2 & _); [vm_compute; reflexivity|reflexivity|]. split; [exact H1|exact H2].
Defined.
