(* ===== verification/ViewFollow.v ===== *)
(** * Following a growing file

    Models [follow_appended_matches] of [ljx/src/commands/view/scan.rs]: the live view
    starts at the end of the file and asks the reader again and again, while another
    process appends to the file.  What is appended before each question is an argument;
    between two questions the file may stay as it is. *)

From stdpp Require Import sorting.
From S2P Require Import Prelude Text Tokens Format Writer Reader Instances Scan Container RecordLoop Otlp FlatRecord SampleCodec Cel Predicate Dedup DatasetIndex IndexTheorems ViewScan ViewTheorems.

Definition grow (new : list Z) (r : LogjetReader) : LogjetReader :=
  mkReader (r_data r ++ new) (r_pos r) (r_config r) (r_stats r) (r_pending r).

Section Follow.
Context {OP : OtlpParts} {FL : Floats} {VT : ValueTrees} {LC : LogsCodec} {SC : SignalCodec} {CE : CelEngine} {MA : Matchers}.
Context {EX : Externals}.
Context (cancel connected : nat → bool) (predicate : RecordPredicate).

(** A record the reader delivered, or the end of what the file holds. *)
Definition follow_turn (path : text) (record : option OwnedRecord) : M ScanState ViewError unit :=
  match record with
  | Some record => if matches predicate record then enqueue path record ;;! send_full connected else ret tt
  | None => send_rest connected
  end.

(** The loop, one turn for each element of [appends]; [true] says that the view was
    cancelled, [false] that it goes on.  [None] is a reader out of fuel, which
    [next_record_awaits] rules out. *)
Fixpoint follow_loop (path : text) (appends : list (list Z)) (reader : LogjetReader) (st : ScanState)
    : option (result ViewError bool * ScanState) :=
  match appends with
  | [] => Some (Ok false, st)
  | new :: appends =>
      match poll cancel st with
      | (Ok true, st) => Some ((send_rest connected ;;! ret true) st)
      | (Ok false, st) =>
          match next_record (grow new reader) with
          | None => None
          | Some (Err e, _) => Some (Err (ViewFault (Failed e)), st)
          | Some (Ok record, reader) =>
              match follow_turn path record st with
              | (Ok _, st) => follow_loop path appends reader st
              | (Err e, st) => Some (Err e, st)
              end
          end
      | (Err e, st) => Some (Err e, st)
      end
  end.

(** The reader starts at the end of the file as it is. *)
Definition follow_appended_matches (path : text) (data spool : list Z) (appends : list (list Z))
    : option (result ViewError bool * ScanState) :=
  follow_loop path appends (set_pos (length data) (reader_new data)) (set_spool spool ScanState_new).
End Follow.

(** ** The reader on a growing file *)

Section Growing.
Context {EX : Externals} {EL : ExternalLaws}.
Context (wc : WriterConfig) (lim : Z) (Hco : compatible wc ReaderConfig_default lim).

(** What the reader has not seen are complete blocks, possibly after some padding. *)
Definition awaits (r : LogjetReader) (later : list OwnedRecord) : Prop :=
  reading_ok r ∧ r_config r = ReaderConfig_default ∧
  ∃ pre pad blocks chunks,
    r_data r = pre ++ replicate pad 0 ++ concat chunks ∧ r_pos r = length pre ∧
    Forall2 (is_block wc) blocks chunks ∧ Forall (λ rs, block_records rs ∧ block_fits wc rs) blocks ∧
    Forall (Forall (fits_reader lim)) blocks ∧ later = r_pending r ++ concat blocks.

Lemma awaits_start data : bytes data → len data < MAX_U32 → awaits (set_pos (length data) (reader_new data)) [].
Proof.
  intros Hb Hl. pose proof (stats_ok_new data ReaderConfig_default Hl Hb default_marker_self_avoiding eq_refl) as Hok.
  split_and!; [|done|].
  - split; [apply stats_ok_set_pos; [done|simpl; lia]|simpl; lia].
  - exists data, 0%nat, [], []. cbn. by rewrite app_nil_r.
Qed.

Lemma awaits_grow r later new rs :
  awaits r later → write_log [] wc rs = Ok new → Forall valid_record rs → Forall (fits_reader lim) rs →
  len (r_data r ++ new) < MAX_U32 → awaits (grow new r) (later ++ rs).
Proof.
  intros ([Hok Hsk] & Hc & pre & pad & blocks & chunks & Hd & Hp & Hch & Hbl & Hfr & ->) Hw Hv Hf Hl.
  pose proof (bytes_write_log _ _ _ _ _ Hco Hv Hw) as Hb.
  destruct (write_log_Ok [] new wc rs Hv Hw) as (bl & ch & Ebl & Hbl' & Hch' & Enew). simpl in Enew.
  split_and!; [|done|].
  - split; [|done]. destruct Hok as [H1 H2 H3 H4 H5 H6 H7 H8 H9].
    split; simpl; try done; [rewrite length_app; lia|by apply bytes_app].
  - exists pre, pad, (blocks ++ bl), (chunks ++ ch). simpl. split_and!; try done.
    + rewrite Hd, Enew, concat_app, <- !app_assoc. done.
    + by apply Forall2_app.
    + by apply Forall_app.
    + apply Forall_app. split; [done|]. rewrite <- Ebl in Hf. clear -Hf. induction bl as [|b bl IH]; [constructor|].
      cbn [concat] in Hf. apply Forall_app in Hf as [Hf1 Hf2]. constructor; auto.
    + by rewrite concat_app, Ebl, app_assoc.
Qed.

Lemma padding_rejected r pre pad rest :
  r_config r = ReaderConfig_default → r_data r = pre ++ replicate pad 0 ++ rest →
  ∀ t, (length pre ≤ t < length pre + pad)%nat → ¬ occurs (r_config r) (r_data r) t.
Proof. intros Hc Hd t Ht. rewrite Hc, Hd. apply padding_no_marker; [done|vm_compute; discriminate|lia]. Qed.

(** Nothing but padding is left: the reader moves to the end of the file. *)
Lemma scan_at_end r pre pad :
  reading_ok r → r_config r = ReaderConfig_default → r_data r = pre ++ replicate pad 0 → r_pos r = length pre →
  ∃ r', scan_next_block r = Some (Ok false, r') ∧ reading_ok r' ∧ r_data r' = r_data r ∧ r_config r' = r_config r ∧
    r_pending r' = r_pending r ∧ r_pos r' = length (r_data r).
Proof.
  intros [Hok Hsk] Hc Hd Hp.
  assert (first_occurrence (rc_sync_marker (r_config r)) (drop (r_pos r) (r_data r)) = None) as Hfo.
  { destruct (first_occurrence _ _) as [k|] eqn:E; [exfalso|done].
    pose proof (first_occurrence_bound _ _ _ (proj2 (so_marker _ Hok)) E) as Hk.
    apply first_occurrence_Some in E as [E _]; [|by apply marker_nonempty]. rewrite drop_drop in E.
    apply (padding_rejected r pre pad [] Hc ltac:(by rewrite app_nil_r) (r_pos r + k)%nat); [|done].
    rewrite length_drop, Hd, length_app, length_replicate in Hk. lia. }
  unfold scan_next_block. change (2 + length (r_data r))%nat with (S (1 + length (r_data r)))%nat.
  cbn [scan_loop]. rewrite find_next_sync_eq, Hfo by done. unfold bind.
  destruct Hok as [Hn Ha Hcm Hu Hr Hpos Hs Hb Hm]. rewrite bump_eq.
  2:{ simpl. unfold saturating_sub, len in *. int_solve. }
  eexists. split; [reflexivity|]. split_and!; try done. split; simpl.
  - split; simpl; try done; unfold saturating_sub; lia.
  - unfold saturating_sub. lia.
Qed.

Lemma next_record_awaits r later :
  awaits r later →
  ∃ r', next_record r = Some (Ok (list.head later), r') ∧ awaits r' (tail later) ∧ r_data r' = r_data r.
Proof.
  intros ([Hok Hsk] & Hc & pre & pad & blocks & chunks & Hd & Hp & Hch & Hbl & Hfr & ->). unfold next_record.
  destruct (r_pending r) as [|x rest] eqn:Epend.
  2:{ destruct (next_record_pending (1 + length (r_data r)) r x rest (conj Hok Hsk) Epend)
        as (r' & Hn & Hok' & Hd' & Hc' & Hq' & Hp').
      exists r'. split; [exact Hn|]. split; [|done]. split_and!; [done|congruence|].
      exists pre, pad, blocks, chunks. rewrite Hd', Hq', Hp'. by split_and!. }
  change (2 + length (r_data r))%nat with (S (S (length (r_data r)))). cbn [next_record_loop]. rewrite Epend.
  destruct Hch as [|rs chunk blocks chunks Hblk Hch].
  - rewrite app_nil_r in Hd. destruct (scan_at_end r pre pad (conj Hok Hsk) Hc Hd Hp) as (r' & -> & Hok' & Hd' & Hc' & Hp' & Hq').
    exists r'. split; [done|]. split; [|done]. split_and!; [done|congruence|].
    exists (r_data r), 0%nat, [], []. rewrite Hd', Hp', Epend. cbn. by rewrite app_nil_r.
  - apply Forall_cons_iff in Hbl as [[Hb Hf] Hbl]. apply Forall_cons_iff in Hfr as [Hfr1 Hfr].
    assert (len (encode_payload rs) ≤ lim) as Hlim by by eapply block_fits_reader.
    destruct (is_block_at wc ReaderConfig_default lim rs chunk (pre ++ replicate pad 0) (concat chunks) Hco Hblk Hb Hlim)
      as (frame & pad' & Echunk & Hat).
    cbn [concat] in Hd. rewrite <- app_assoc, <- Hd, <- Hc in Hat.
    destruct (scan_to (2 + length (r_data r)) (r_pos r) r (length (pre ++ replicate pad 0)) (length (pre ++ replicate pad 0) + length frame) rs Hok ltac:(rewrite Hp, length_app; lia) Hsk)
      as (r1 & Hs & Hok1 & Hd1 & Hc1 & Hp1 & Hq1); [|exact Hat|..].
    { intros t Ht Ho. exfalso. revert Ho. apply (padding_rejected r pre pad _ Hc Hd).
      rewrite length_app, length_replicate in Ht. lia. }
    { rewrite length_app, length_replicate, Hp, Hd, !length_app, length_replicate. lia. }
    unfold scan_next_block. rewrite Hs. rewrite Epend, app_nil_l in Hp1. destruct rs as [|x rest]; [done|].
    destruct (next_record_pending (length (r_data r)) r1 x rest Hok1 Hp1) as (r' & Hn & Hok' & Hd' & Hc' & Hq' & Hp').
    exists r'. split; [exact Hn|]. split; [|congruence]. split_and!; [done|congruence|].
    exists ((pre ++ replicate pad 0) ++ frame), pad', blocks, chunks. rewrite Hp'. split_and!; try done.
    + rewrite Hd', Hd1, Hd, Echunk, <- !app_assoc. done.
    + by rewrite Hq', Hq1, !length_app.
Qed.
End Growing.

(** ** What a live view lists *)

Section Listing.
Context {OP : OtlpParts} {FL : Floats} {VT : ValueTrees} {LC : LogsCodec} {SC : SignalCodec} {CE : CelEngine} {MA : Matchers}.
Context {EX : Externals} {EL : ExternalLaws}.
Context (cancel connected : nat → bool) (p : RecordPredicate) (wc : WriterConfig) (lim : Z).
Context (Hcancel : ∀ n, cancel n = false) (Hconn : ∀ n, connected n = true).
Context (Hco : compatible wc ReaderConfig_default lim).

Lemma send_batch_listed st :
  ∃ st', send_batch connected st = (Ok tt, st') ∧ listed st' = listed st ∧ spool st' = spool st ∧ tx_batch st' = [].
Proof.
  unfold send_batch, bind, gets, modify. rewrite Hconn. eexists. split; [done|]. split_and!; try done.
  unfold listed. simpl. rewrite app_nil_r, concat_app. simpl. by rewrite app_nil_r.
Qed.

Lemma follow_turn_ok path record st xs :
  Forall2 (describes (spool st)) (listed st) xs →
  ∃ st', follow_turn connected p path record st = (Ok tt, st') ∧
    Forall2 (describes (spool st')) (listed st') (xs ++ at_path path (selected p (option_list record))) ∧
    (record = None → tx_batch st' = []).
Proof.
  intros Hl. destruct record as [r|]; cbn [follow_turn option_list].
  - change (option_list (Some r)) with [r]. unfold selected. rewrite filter_cons, filter_nil. destruct (matches p r).
    2:{ exists st. rewrite decide_False by done. cbn. by rewrite app_nil_r. }
    rewrite decide_True by done. unfold bind. destruct (enqueue_listed st xs path r Hl) as (st1 & -> & Hl1 & _).
    destruct (send_full_cases connected st1) as [->| ->]; [by exists st1|].
    destruct (send_batch_listed st1) as (st2 & -> & E1 & E2 & _). exists st2. rewrite E1, E2. by split_and!.
  - cbn. rewrite app_nil_r. unfold send_rest, bind, gets. case_bool_decide as E; cbn [negb]; [by exists st|].
    destruct (send_batch_listed st) as (st2 & -> & E1 & E2 & E3). exists st2. rewrite E1, E2. by split_and!.
Qed.

(** A turn on a file to which complete blocks were added. *)
Lemma follow_step path new rs r later st xs appends :
  awaits wc lim r later → write_log [] wc rs = Ok new → Forall valid_record rs → Forall (fits_reader lim) rs →
  len (r_data r ++ new) < MAX_U32 → Forall2 (describes (spool st)) (listed st) xs →
  ∃ r' st', follow_loop cancel connected p path (new :: appends) r st = follow_loop cancel connected p path appends r' st' ∧
    awaits wc lim r' (tail (later ++ rs)) ∧ r_data r' = r_data r ++ new ∧
    Forall2 (describes (spool st')) (listed st') (xs ++ at_path path (selected p (take 1 (later ++ rs)))) ∧
    (later ++ rs = [] → tx_batch st' = []).
Proof.
  intros Hr Hw Hv Hf Hl Hd. cbn [follow_loop]. rewrite (poll_ok cancel Hcancel).
  destruct (next_record_awaits wc lim Hco _ _ (awaits_grow wc lim Hco _ _ _ _ Hr Hw Hv Hf Hl)) as (r' & -> & Hr' & Hd').
  destruct (follow_turn_ok path (list.head (later ++ rs)) (set_polls (S (polls st)) st) xs Hd) as (st' & -> & Hl' & Hb).
  exists r', st'. split_and!; try done.
  - by destruct (later ++ rs).
  - intros E. apply Hb. by rewrite E.
Qed.

(** A turn in which the reader finds nothing. *)
Lemma follow_nothing path new appends r r' st xs :
  next_record (grow new r) = Some (Ok None, r') → Forall2 (describes (spool st)) (listed st) xs →
  ∃ st', follow_loop cancel connected p path (new :: appends) r st = follow_loop cancel connected p path appends r' st' ∧
    Forall2 (describes (spool st')) (listed st') xs.
Proof.
  intros Hn Hd. cbn [follow_loop]. rewrite (poll_ok cancel Hcancel), Hn.
  destruct (follow_turn_ok path None (set_polls (S (polls st)) st) xs Hd) as (st' & -> & Hl' & _). exists st'.
  split; [done|]. by rewrite app_nil_r in Hl'.
Qed.

Lemma take_tail {A} (l : list A) : take 1 l ++ tail l = l.
Proof. by destruct l as [|x l]. Qed.

Lemma at_path_selected_app path xs ys :
  at_path path (selected p (xs ++ ys)) = at_path path (selected p xs) ++ at_path path (selected p ys).
Proof. by rewrite selected_app, at_path_app. Qed.

(** After turns that add blocks to the file, what is listed and what the reader still
    holds are together what was there and what was added. *)
Lemma follow_appends path appends rss more r later st xs :
  awaits wc lim r later → Forall2 (λ new rs, write_log [] wc rs = Ok new) appends rss →
  Forall valid_record (concat rss) → Forall (fits_reader lim) (concat rss) →
  len (r_data r ++ concat appends) < MAX_U32 → Forall2 (describes (spool st)) (listed st) xs →
  ∃ r' st' seen rest,
    follow_loop cancel connected p path (appends ++ more) r st = follow_loop cancel connected p path more r' st' ∧
    awaits wc lim r' rest ∧ r_data r' = r_data r ++ concat appends ∧ later ++ concat rss = seen ++ rest ∧
    Forall2 (describes (spool st')) (listed st') (xs ++ at_path path (selected p seen)).
Proof.
  intros Hr Hw. revert r later st xs Hr. induction Hw as [|new rs appends rss Hn Hw IH]; intros r later st xs Hr Hv Hf Hl Hd.
  { exists r, st, [], later. cbn. rewrite !app_nil_r. by split_and!. }
  cbn [concat app] in *. apply Forall_app in Hv as [Hv1 Hv2]. apply Forall_app in Hf as [Hf1 Hf2].
  rewrite !len_app in Hl. pose proof (len_nonneg (concat appends)).
  destruct (follow_step path new rs r later st xs (appends ++ more) Hr Hn Hv1 Hf1) as (r1 & st1 & -> & Hr1 & Ed & Hl1 & _);
    [rewrite len_app; lia|done|].
  assert (len (r_data r1 ++ concat appends) < MAX_U32) as Hl2 by (rewrite Ed, !len_app; lia).
  destruct (IH r1 _ st1 _ Hr1 Hv2 Hf2 Hl2 Hl1) as (r' & st' & seen & rest & -> & Hr' & Ed' & Eq & Hl').
  exists r', st', (take 1 (later ++ rs) ++ seen), rest. split_and!; try done.
  - by rewrite Ed', Ed, <- app_assoc.
  - rewrite <- app_assoc, <- Eq, (app_assoc (take 1 _)), take_tail. by rewrite app_assoc.
  - by rewrite at_path_selected_app, app_assoc.
Qed.

Lemma follow_idle path n r later st xs :
  awaits wc lim r later → (length later < n)%nat → Forall2 (describes (spool st)) (listed st) xs →
  ∃ st', follow_loop cancel connected p path (replicate n []) r st = Some (Ok false, st') ∧ tx_batch st' = [] ∧
    Forall2 (describes (spool st')) (listed st') (xs ++ at_path path (selected p later)).
Proof.
  revert r later st xs. induction n as [|n IH]; intros r later st xs Hr Hn Hd; [lia|]. cbn [replicate].
  assert (len (r_data r ++ []) < MAX_U32) as Hl by (rewrite app_nil_r; apply Hr).
  destruct (follow_step path [] [] r later st xs (replicate n []) Hr eq_refl (Forall_nil _) (Forall_nil _) Hl Hd)
    as (r1 & st1 & -> & Hr1 & _ & Hl1 & Hb). rewrite app_nil_r in *.
  destruct later as [|x later].
  - destruct n as [|n]; [exists st1; split_and!; [done|by apply Hb|exact Hl1]|]. cbn in Hr1.
    destruct (IH r1 [] st1 _ Hr1 ltac:(simpl; lia) Hl1) as (st' & -> & Hb' & Hl'). exists st'. split_and!; try done.
    change (at_path path (selected p (take 1 []))) with (@nil (text * OwnedRecord)) in Hl'.
    by rewrite app_nil_r in Hl'.
  - simpl in Hn. destruct (IH r1 later st1 _ Hr1 ltac:(lia) Hl1) as (st' & -> & Hb' & Hl'). exists st'. split_and!; try done.
    rewrite <- app_assoc, <- at_path_selected_app in Hl'. exact Hl'.
Qed.

(** Live viewing.  While complete blocks are appended to the file, one write or none
    between two looks at it, a live view that is not cancelled lists exactly the records
    of the appended blocks that the query selects, in order, once it has looked again
    often enough: all of them have been sent and can be read back from the spool. *)
Theorem live_view_lists_appended path data file appends rss idle :
  bytes data → len (data ++ concat appends) < MAX_U32 →
  Forall2 (λ new rs, write_log [] wc rs = Ok new) appends rss →
  Forall valid_record (concat rss) → Forall (fits_reader lim) (concat rss) →
  (length (concat rss) < idle)%nat →
  ∃ st, follow_appended_matches cancel connected p path data file (appends ++ replicate idle []) = Some (Ok false, st) ∧
    Forall2 (describes (spool st)) (concat (sent st)) (at_path path (selected p (concat rss))) ∧ tx_batch st = [].
Proof.
  intros Hb Hl Hw Hv Hf Hidle. unfold follow_appended_matches.
  assert (len data < MAX_U32) as Hl0 by (rewrite len_app in Hl; pose proof (len_nonneg (concat appends)); lia).
  destruct (follow_appends path appends rss (replicate idle []) _ [] (set_spool file ScanState_new) []
    (awaits_start wc lim data Hb Hl0) Hw Hv Hf Hl (Forall2_nil _)) as (r & st1 & seen & rest & -> & Hr & _ & Eq & Hl1).
  simpl in Eq. destruct (follow_idle path idle r rest st1 _ Hr ltac:(rewrite Eq, length_app in Hidle; lia) Hl1) as (st & -> & Hb' & Hl').
  exists st. split_and!; try done. rewrite <- app_assoc, <- at_path_selected_app, <- Eq in Hl'.
  unfold listed in Hl'. by rewrite Hb', app_nil_r in Hl'.
Qed.
End Listing.

Section Witness.
#[local] Existing Instances sample_parts logs_codec sample_floats sample_trees sample_engine sample_signals stored_externals stored_laws.
#[local] Existing Instance sample_matchers.

Lemma live_view_lists_appended_witness :
  ∃ st, follow_appended_matches never always sample_predicate (str "a.logjet") [1; 2; 3] [] ([query_file; []] ++ replicate 9 []) =
      Some (Ok false, st) ∧
    Forall2 (describes (spool st)) (concat (sent st))
      [(str "a.logjet", mkRecord Logs 1 4 (str "cab")); (str "a.logjet", mkRecord Logs 3 6 (str "abc"))] ∧ tx_batch st = [].
Proof.
  destruct query_input_ok as (Hs & Hv & Hf & Hl).
  apply (live_view_lists_appended never always sample_predicate sample_wc DEFAULT_MAX_BLOCK_SIZE ltac:(done) ltac:(done)
    sample_compatible (str "a.logjet") [1; 2; 3] [] [query_file; []] [query_input; []] 9).
  - by apply (bool_decide_unpack _); vm_compute.
  - by vm_compute.
  - repeat constructor.
  - cbn [concat]. rewrite !app_nil_r. exact Hv.
  - cbn [concat]. rewrite !app_nil_r. exact Hf.
  - vm_compute. lia.
Defined.

(** The records a live view lists when [appends] are added to an empty file. *)
Definition live_listed (appends : list (list Z)) : option Z :=
  match follow_appended_matches never always (mkPredicate None None None None None [] [] FieldFilter_default)
          (str "a.logjet") [] [] appends with
  | Some (Ok _, st) => Some (len (concat (sent st)))
  | _ => None
  end.

(** The reader after a look at the first bytes of a block and one at the whole block. *)
Definition reader_after (r : LogjetReader) : LogjetReader :=
  match next_record r with Some (_, r) => r | None => r end.
Definition torn_reader : LogjetReader := Eval vm_compute in
  reader_after (grow (drop 20 sealed_file) (reader_after (grow (take 20 sealed_file) (reader_new [])))).

Lemma torn_reader_awaits : awaits sample_wc DEFAULT_MAX_BLOCK_SIZE torn_reader [].
Proof.
  split_and!; [split; [split|]|done|].
  1-5,7: by apply (bool_decide_unpack _); vm_compute.
  - apply Nat.leb_le. by vm_compute.
  - by apply (bool_decide_unpack _); vm_compute.
  - by split; [apply default_marker_self_avoiding|].
  - by apply (bool_decide_unpack _); vm_compute.
  - exists (r_data torn_reader), 0%nat, [], []. split_and!; by repeat constructor.
Qed.

(** A live view that looks at the file while a block is being written never lists the
    records of the block, however often it looks later: the reader has skipped its
    beginning. *)
Theorem live_view_loses_torn_block k :
  live_listed [sealed_file; []; []] = Some 1 ∧
  live_listed (take 20 sealed_file :: drop 20 sealed_file :: replicate (S k) []) = Some 0.
Proof.
  split; [by vm_compute|]. unfold live_listed, follow_appended_matches. set (query := mkPredicate _ _ _ _ _ _ _ _).
  edestruct (follow_nothing never always query) as (st1 & -> & Hl1); [done..|by vm_compute|constructor|].
  edestruct (follow_nothing never always query) as (st2 & -> & Hl2); [done..|by vm_compute|exact Hl1|].
  edestruct (follow_idle never always query) as (st3 & -> & Hb & Hl3);
    [done..|apply sample_compatible|exact torn_reader_awaits|simpl; lia|exact Hl2|].
  apply Forall2_nil_inv_r in Hl3. unfold listed in Hl3. by apply app_eq_nil in Hl3 as [-> _].
Qed.
End Witness.
