(* ===== verification/Workers.v ===== *)
(** * Worker threads over a list

    The pattern of [scan_field_catalog] in [ljx/src/commands/view/scan.rs] and of
    [scan_entries_parallel] in [ljx/src/commands/discover.rs]: threads take items from a
    shared cursor, work on them and send the result through a channel, and the main
    thread collects the results until every sender is gone.  The state machine is the
    same for both; what a worker does with an item, how the main thread collects a result
    and what it returns at the end are arguments. *)

From stdpp Require Import relations.
From S2P Require Import Prelude.

Inductive Worker : Type := Claiming | Scanning (idx : nat) | Stopped.

Section Pool.
Context {A R Acc Fin : Type}.
(** The work on an item; [None] is exhausted fuel. *)
Context (items : list A) (job : A → option R).
(** The loop body over the received results, which may return, and the rest of the function. *)
Context (collect : Acc → nat → R → Acc + Fin) (finish : Acc → Fin) (init : Acc).

Record Pool : Type := mkPool {
  pl_cursor : nat;
  pl_workers : list Worker;
  pl_channel : list (nat * R);
  pl_main : Acc + Fin;
}.

Definition pool_start (workers : nat) : Pool := mkPool 0 (replicate workers Claiming) [] (inl init).

(** A step of the [i]-th worker: it takes the next index from the cursor, or works on the
    item it took and sends the result.  Once the receiver is gone, sending has no effect. *)
Definition pool_worker (i : nat) (s : Pool) : option Pool :=
  match pl_workers s !! i with
  | Some Claiming =>
      let idx := pl_cursor s in
      let next := if decide (length items ≤ idx)%nat then Stopped else Scanning idx in
      Some (mkPool (S idx) (<[i := next]> (pl_workers s)) (pl_channel s) (pl_main s))
  | Some (Scanning idx) =>
      match items !! idx with
      | Some item =>
          match job item with
          | Some result =>
              let channel := match pl_main s with inl _ => pl_channel s ++ [(idx, result)] | inr _ => pl_channel s end in
              Some (mkPool (pl_cursor s) (<[i := Claiming]> (pl_workers s)) channel (pl_main s))
          | None => None
          end
      | None => None
      end
  | _ => None
  end.

Definition all_stopped (ws : list Worker) : bool := forallb (λ w, match w with Stopped => true | _ => false end) ws.

(** A step of the main thread: [for result in rx] ends when every sender is gone. *)
Definition pool_main (s : Pool) : option Pool :=
  match pl_main s, pl_channel s with
  | inl acc, (idx, result) :: channel => Some (mkPool (pl_cursor s) (pl_workers s) channel (collect acc idx result))
  | inl acc, [] => if all_stopped (pl_workers s) then Some (mkPool (pl_cursor s) (pl_workers s) [] (inr (finish acc))) else None
  | inr _, _ => None
  end.

(** The turns of the threads in the order of a schedule, [None] for the main thread; a
    thread that cannot move waits. *)
Fixpoint run_pool (schedule : list (option nat)) (s : Pool) : Pool :=
  match schedule with
  | [] => s
  | turn :: schedule => run_pool schedule (default s (match turn with Some i => pool_worker i s | None => pool_main s end))
  end.

Inductive pool_step : Pool → Pool → Prop :=
| step_worker i s s' : pool_worker i s = Some s' → pool_step s s'
| step_main s s' : pool_main s = Some s' → pool_step s s'.

(** ** What the main thread makes of results in an order *)

Fixpoint collect_all (acc : Acc) (xs : list (nat * R)) : Acc + Fin :=
  match xs with
  | [] => inl acc
  | (idx, r) :: xs => match collect acc idx r with inl acc => collect_all acc xs | inr fin => inr fin end
  end.
Definition collected (xs : list (nat * R)) : Fin := match collect_all init xs with inl acc => finish acc | inr fin => fin end.

Lemma collect_all_app acc xs ys :
  collect_all acc (xs ++ ys) = match collect_all acc xs with inl acc => collect_all acc ys | inr fin => inr fin end.
Proof. revert acc. induction xs as [|[i r] xs IH]; intros acc; cbn; [done|]. destruct (collect acc i r); [apply IH|done]. Qed.

(** ** Every run *)

Context (results : list R) (Hresults : Forall2 (λ a r, job a = Some r) items results).

Definition answers : list (nat * R) := imap pair results.
Definition answers_of (ids : list nat) : list (nat * R) := omap (λ i, pair i <$> results !! i) ids.

Definition scanning (ws : list Worker) : list nat := omap (λ w, match w with Scanning idx => Some idx | _ => None end) ws.

(** The items that were claimed are received, in the channel or being worked on; once the
    main thread has returned, it has what the results give in some order. *)
Record pool_inv (s : Pool) : Prop := {
  pi_claimed : ∃ received queued,
    received ++ queued ++ scanning (pl_workers s) ≡ₚ List.seq 0 (Nat.min (pl_cursor s) (length items)) ∧
    match pl_main s with
    | inl acc => collect_all init (answers_of received) = inl acc ∧ pl_channel s = answers_of queued
    | inr fin => ∃ xs, xs ≡ₚ answers ∧ fin = collected xs
    end;
  pi_stopped : Stopped ∈ pl_workers s → (length items ≤ pl_cursor s)%nat;
  pi_workers : pl_workers s ≠ [];
}.

Lemma pool_inv_start n : pool_inv (pool_start (S n)).
Proof.
  split; cbn [pool_start pl_workers pl_cursor pl_main pl_channel]; [|intros [H _]%elem_of_replicate; done|done].
  exists [], []. split_and!; [|done..]. cbn [app Nat.min]. induction n as [|n IH]; [done|exact IH].
Qed.

Lemma scanning_insert ws i w w' :
  ws !! i = Some w → ∃ k, scanning ws ≡ₚ scanning [w] ++ k ∧ scanning (<[i:=w']> ws) ≡ₚ scanning [w'] ++ k.
Proof.
  intros Hi. apply list_elem_of_split_length in Hi as (l & k & -> & ->).
  exists (scanning l ++ scanning k). unfold scanning.
  rewrite insert_app_r_alt, Nat.sub_diag by lia. change (<[0%nat:=w']> (w :: k)) with (w' :: k).
  rewrite !omap_app. change (w :: k) with ([w] ++ k). change (w' :: k) with ([w'] ++ k). rewrite !omap_app.
  split; rewrite !app_assoc; f_equiv; apply Permutation_app_comm.
Qed.

Lemma answers_of_app xs ys : answers_of (xs ++ ys) = answers_of xs ++ answers_of ys.
Proof. apply omap_app. Qed.

Lemma answers_of_one i r : results !! i = Some r → answers_of [i] = [(i, r)].
Proof. intros E. unfold answers_of. cbn. by rewrite E. Qed.

Lemma answers_of_seq ids : ids ≡ₚ List.seq 0 (length items) → answers_of ids ≡ₚ answers.
Proof.
  intros Hp. unfold answers_of. rewrite Hp, (Forall2_length Hresults). apply reflexive_eq. unfold answers. clear.
  enough (∀ pre, omap (λ i, pair i <$> (pre ++ results) !! i) (List.seq (length pre) (length results)) =
    imap (λ i, pair (length pre + i)%nat) results) as H by (specialize (H []); cbn [app length] in H; by rewrite H).
  induction results as [|r rs IH]; intros pre; cbn [List.seq length omap list_omap imap]; [done|].
  rewrite list_lookup_middle by done. cbn. rewrite Nat.add_0_r. f_equal. specialize (IH (pre ++ [r])).
  rewrite length_app, Nat.add_1_r, <- app_assoc in IH. cbn [app] in IH. rewrite IH. apply imap_ext. intros i x _. cbn. f_equal. lia.
Qed.

Lemma result_lookup idx item : items !! idx = Some item → ∃ r, results !! idx = Some r ∧ job item = Some r.
Proof. intros H. destruct (Forall2_lookup_l _ _ _ _ _ Hresults H) as (r & Hr & E). by exists r. Qed.

Lemma insert_nonempty {B} (y : B) (l : list B) (i : nat) : l ≠ [] → <[i := y]> l ≠ [].
Proof. destruct l as [|x l]; [done|]. by destruct i. Qed.

Lemma pool_worker_inv i s s' : pool_worker i s = Some s' → pool_inv s → pool_inv s'.
Proof.
  unfold pool_worker. destruct (pl_workers s !! i) as [[|idx|]|] eqn:Ew; try done.
  - intros [= <-] [(received & queued & Hp & Hm) Hst Hne]. split; cbn [pl_workers pl_cursor pl_main pl_channel].
    + exists received, queued. split; [|exact Hm].
      destruct (scanning_insert _ _ _ (if decide (length items ≤ pl_cursor s)%nat then Stopped else Scanning (pl_cursor s)) Ew)
        as (k & Hk & ->). rewrite Hk in Hp. change (scanning [Claiming]) with (@nil nat) in Hp. case_decide as Hc.
      * change (scanning [Stopped]) with (@nil nat). rewrite Hp. by rewrite !Nat.min_r by lia.
      * rewrite Nat.min_l in Hp by lia. rewrite Nat.min_l by lia.
        change (scanning [Scanning (pl_cursor s)]) with [pl_cursor s]. rewrite seq_S, <- Hp. cbn [Nat.add app].
        rewrite (Permutation_app_comm _ [_]), !app_assoc. symmetry. apply Permutation_middle.
    + intros [E|Hs]%elem_of_insert_cases; [case_decide; [lia|done]|]. specialize (Hst Hs). lia.
    + by apply insert_nonempty.
  - destruct (items !! idx) as [item|] eqn:Ef; [|done]. destruct (result_lookup _ _ Ef) as (r & Hr & ->).
    intros [= <-] [(received & queued & Hp & Hm) Hst Hne]. split; cbn [pl_workers pl_cursor pl_main pl_channel].
    + exists received, (queued ++ [idx]). split.
      * destruct (scanning_insert _ _ _ Claiming Ew) as (k & Hk & ->). rewrite Hk in Hp. rewrite <- Hp. cbn.
        rewrite <- !app_assoc. done.
      * destruct (pl_main s) as [acc|fin]; [|done]. destruct Hm as [Hg Hc]. split; [done|].
        by rewrite Hc, answers_of_app, (answers_of_one _ _ Hr).
    + intros [E|Hs]%elem_of_insert_cases; [done|auto].
    + by apply insert_nonempty.
Qed.

Lemma all_stopped_spec ws : all_stopped ws = true → scanning ws = [] ∧ (ws ≠ [] → Stopped ∈ ws).
Proof. induction ws as [|w ws IH]; [done|]. destruct w; try done. intros [H1 H2]%IH. split; [exact H1|]. intros _. left. Qed.

(** The front of the channel, by the index it came from. *)
Lemma answers_of_cons queued idx r channel :
  answers_of queued = (idx, r) :: channel →
  ∃ before queued', queued = before ++ idx :: queued' ∧ answers_of before = [] ∧ results !! idx = Some r ∧ channel = answers_of queued'.
Proof.
  induction queued as [|i queued IH]; [done|]. unfold answers_of. cbn. destruct (results !! i) as [r'|] eqn:E; cbn.
  - intros [= <- <- <-]. by exists [], queued.
  - intros (before & queued' & -> & Hb & Hr & ->)%IH. exists (i :: before), queued'. split_and!; try done.
    unfold answers_of in *. cbn. by rewrite E.
Qed.

Lemma pool_main_inv s s' : pool_main s = Some s' → pool_inv s → pool_inv s'.
Proof.
  unfold pool_main. intros E [(received & queued & Hp & Hm) Hst Hne].
  destruct (pl_main s) as [acc|fin]; [|done]. destruct Hm as [Hg Hc]. destruct (pl_channel s) as [|[idx r] channel].
  - destruct (all_stopped (pl_workers s)) eqn:Ea; [|done]. injection E as <-.
    apply all_stopped_spec in Ea as [Esc Hin]. specialize (Hst (Hin Hne)).
    split; cbn [pl_workers pl_cursor pl_main pl_channel]; [|done|done]. exists received, queued. split; [done|].
    rewrite Esc, app_nil_r, Nat.min_r in Hp by done. exists (answers_of received). split.
    + rewrite <- (answers_of_seq _ Hp), answers_of_app, <- Hc. by rewrite app_nil_r.
    + unfold collected. by rewrite Hg.
  - symmetry in Hc. apply answers_of_cons in Hc as (before & queued' & -> & Hb & Hr & ->). injection E as <-.
    split; cbn [pl_workers pl_cursor pl_main pl_channel]; [|done|done].
    assert (answers_of (received ++ before ++ [idx]) = answers_of received ++ [(idx, r)]) as Ea
      by by rewrite !answers_of_app, Hb, (answers_of_one _ _ Hr).
    assert (collect_all init (answers_of (received ++ before ++ [idx])) = collect acc idx r) as Ec
      by (rewrite Ea, collect_all_app, Hg; cbn; by destruct (collect acc idx r)).
    exists (received ++ before ++ [idx]), queued'. split; [rewrite <- Hp, <- !app_assoc; done|].
    destruct (collect acc idx r) as [acc'|fin] eqn:Ecol; [done|].
    set (ids := received ++ before ++ [idx]) in *.
    set (rest := queued' ++ scanning (pl_workers s) ++
      List.seq (Nat.min (pl_cursor s) (length items)) (length items - Nat.min (pl_cursor s) (length items))).
    exists (answers_of (ids ++ rest)). split.
    + apply answers_of_seq. subst ids rest.
      transitivity (List.seq 0 (Nat.min (pl_cursor s) (length items)) ++
        List.seq (Nat.min (pl_cursor s) (length items)) (length items - Nat.min (pl_cursor s) (length items))).
      * rewrite <- Hp, <- !app_assoc. done.
      * rewrite <- seq_app. by replace (Nat.min (pl_cursor s) (length items) + _)%nat with (length items) by lia.
    + unfold collected. by rewrite answers_of_app, collect_all_app, Ec.
Qed.

Lemma pool_step_inv s s' : pool_step s s' → pool_inv s → pool_inv s'.
Proof. intros [i ? ? H|? ? H]; [by eapply pool_worker_inv|by eapply pool_main_inv]. Qed.

(** Every step takes something from this measure. *)
Definition weight (w : Worker) : nat := match w with Claiming => 1 | Scanning _ => 3 | Stopped => 0 end.
Definition pool_measure (s : Pool) : nat :=
  3 * (length items - pl_cursor s) + sum_list_with weight (pl_workers s) + length (pl_channel s) +
  match pl_main s with inl _ => 1 | inr _ => 0 end.

Lemma pool_step_decreases s s' : pool_step s s' → (pool_measure s' < pool_measure s)%nat.
Proof.
  intros [i ? ? H|[c ws ch m] ? H].
  - unfold pool_worker in H. destruct (pl_workers _ !! i) as [[|idx|]|] eqn:Ew; try done.
    + injection H as <-. unfold pool_measure. cbn [pl_workers pl_cursor pl_main pl_channel].
      pose proof (sum_list_with_insert weight _ _ _ (if decide (length items ≤ pl_cursor s0)%nat then Stopped else Scanning (pl_cursor s0)) Ew) as Hs.
      case_decide; cbn [weight] in Hs; lia.
    + destruct (items !! idx) as [item|]; [|done]. destruct (job item); [|done]. injection H as <-.
      unfold pool_measure. cbn [pl_workers pl_cursor pl_main pl_channel].
      pose proof (sum_list_with_insert weight _ _ _ Claiming Ew) as Hs. cbn [weight] in Hs.
      destruct (pl_main s0); rewrite ?length_app; cbn [length]; lia.
  - unfold pool_main in H. cbn [pl_main pl_channel pl_cursor pl_workers] in H. destruct m as [acc|fin]; [|done].
    destruct ch as [|[idx r] ch]; [destruct (all_stopped ws); [|done]|]; injection H as <-; unfold pool_measure; cbn; [lia|].
    destruct (collect acc idx r); lia.
Qed.

Lemma pool_nsteps k s s' :
  nsteps pool_step k s s' → pool_inv s → pool_inv s' ∧ (k + pool_measure s' ≤ pool_measure s)%nat.
Proof.
  induction 1 as [s|k s1 s2 s3 Hs Hn IH]; intros Hi; [split; [done|lia]|].
  destruct IH as [Hi' Hk]; [by eapply pool_step_inv|]. split; [done|]. apply pool_step_decreases in Hs. lia.
Qed.

Lemma run_pool_reaches schedule s : ∃ k, nsteps pool_step k s (run_pool schedule s).
Proof.
  revert s. induction schedule as [|turn schedule IH]; intros s; cbn [run_pool]; [exists 0%nat; constructor|].
  destruct turn as [i|]; [destruct (pool_worker i s) as [s'|] eqn:E|destruct (pool_main s) as [s'|] eqn:E]; cbn [default];
    try apply IH; destruct (IH s') as [k Hk]; exists (S k); econstructor; eauto using pool_step.
Qed.

(** A run that has not returned can go on. *)
Lemma pool_progress s : pool_inv s → (∃ s', pool_step s s') ∨ ∃ fin, pl_main s = inr fin.
Proof.
  intros [(received & queued & Hp & Hm) Hst Hne]. destruct (pl_main s) as [acc|fin] eqn:Em; [left|by right; exists fin].
  destruct (pl_channel s) as [|[idx r] ch] eqn:Ec.
  2: { eexists. apply step_main. unfold pool_main. rewrite Em, Ec. reflexivity. }
  destruct (all_stopped (pl_workers s)) eqn:Ea.
  { eexists. apply step_main. unfold pool_main. rewrite Em, Ec. by rewrite Ea. }
  assert (∃ i w, pl_workers s !! i = Some w ∧ w ≠ Stopped) as (i & w & Hi & Hw).
  { revert Ea. generalize (pl_workers s). clear. intros ws. induction ws as [|w ws IH]; [done|].
    destruct w as [|idx|]; [by exists 0%nat, Claiming|by exists 0%nat, (Scanning idx)|].
    intros (i & w & Hi & Hw)%IH. by exists (S i), w. }
  destruct w as [|idx|]; [| |done].
  - eexists. apply (step_worker i). unfold pool_worker. rewrite Hi. reflexivity.
  - destruct (scanning_insert _ _ _ Claiming Hi) as (k & Hk & _).
    assert (idx < length items)%nat as Hidx.
    { assert (idx ∈ List.seq 0 (Nat.min (pl_cursor s) (length items))) as Hin by (rewrite <- Hp, Hk; set_solver).
      apply elem_of_seq in Hin. lia. }
    destruct (lookup_lt_is_Some_2 items idx Hidx) as [item Ef]. destruct (result_lookup _ _ Ef) as (r & _ & E).
    eexists. apply (step_worker i). unfold pool_worker. rewrite Hi, Ef, E. reflexivity.
Qed.

(** Runs end, are never stuck, and return what the results give in some order. *)
Lemma pool_runs n k s :
  nsteps pool_step k (pool_start (S n)) s →
  (k ≤ pool_measure (pool_start (S n)))%nat ∧
  ((∃ s', pool_step s s') ∨ ∃ fin, pl_main s = inr fin) ∧
  ∀ fin, pl_main s = inr fin → ∃ xs, xs ≡ₚ answers ∧ fin = collected xs.
Proof.
  intros Hk. destruct (pool_nsteps _ _ _ Hk (pool_inv_start n)) as [Hi Hle]. split_and!; [lia|by apply pool_progress|].
  intros fin Ef. destruct Hi as [(? & ? & _ & Hm) _ _]. by rewrite Ef in Hm.
Qed.

Lemma pool_schedule n schedule fin :
  pl_main (run_pool schedule (pool_start (S n))) = inr fin → ∃ xs, xs ≡ₚ answers ∧ fin = collected xs.
Proof. destruct (run_pool_reaches schedule (pool_start (S n))) as [k Hk]. by apply (pool_runs n k). Qed.
End Pool.
