(* ===== verification/Catalog.v ===== *)
(** * The field catalogue of the viewer

    Models [scan_field_catalog] of [ljx/src/commands/view/scan.rs]: the service names and
    severities that occur in the log records of a dataset, collected file by file, or by
    several threads that take the files from a shared cursor and send what they find
    through a channel. *)

From stdpp Require Import sorting relations.
From S2P Require Import Prelude Text Tokens Canon Format Writer Reader Instances Scan Container RecordLoop Otlp FlatRecord SampleCodec DatasetIndex Workers.

Record FieldCatalog : Type := mkFieldCatalog { fc_severities : list text; fc_services : list text }.

(** [HashSet::extend] *)
Definition set_extend (set values : list text) : list text := foldl (λ s v, set_insert v s) set values.

(** Services and severities, as a file contributes them. *)
Definition Fields : Type := list text * list text.
Definition extend_fields (acc more : Fields) : Fields := (set_extend acc.1 more.1, set_extend acc.2 more.2).

(** The two sets as sorted vectors. *)
Definition catalog_of (acc : Fields) : FieldCatalog := mkFieldCatalog (sort_keys acc.2) (sort_keys acc.1).

Section Catalog.
Context {OP : OtlpParts} {LC : LogsCodec} {EX : Externals}.

Definition record_fields (record : OwnedRecord) : Fields :=
  if decide (record_type record = Logs) then
    match decode_logs (payload record) with
    | Ok batch => (payload_services batch, payload_severities batch)
    | Err _ => ([], [])
    end
  else ([], []).

Definition catalog_body : loop_body Fields := λ acc record, (extend_fields acc (record_fields record), true).

(** A file that cannot be opened is an error; [None] is an exhausted fuel, which
    [catalog_file_total] rules out. *)
Definition scan_field_catalog_file (file : result Error (list Z)) : option (result Error Fields) :=
  match file with
  | Err e => Some (Err e)
  | Ok data => match while_records catalog_body ([], []) (reader_new data) with
               | Some (r, _) => Some r
               | None => None
               end
  end.

Fixpoint catalog_files (files : list (result Error (list Z))) (acc : Fields) : option (result Error Fields) :=
  match files with
  | [] => Some (Ok acc)
  | file :: files =>
      match scan_field_catalog_file file with
      | None => None
      | Some (Err e) => Some (Err e)
      | Some (Ok fields) => catalog_files files (extend_fields acc fields)
      end
  end.

Definition scan_field_catalog_sequential (files : list (result Error (list Z))) : option (result Error FieldCatalog) :=
  match catalog_files files ([], []) with
  | Some (Ok acc) => Some (Ok (catalog_of acc))
  | Some (Err e) => Some (Err e)
  | None => None
  end.

(** ** The threads

    A pool of workers; the results carry their index, which the main thread ignores. *)

(** [let (file_services, file_severities) = result?; ..] *)
Definition catalog_collect (acc : Fields) (_ : nat) (result : result Error Fields) : Fields + Prelude.result Error FieldCatalog :=
  match result with Ok fields => inl (extend_fields acc fields) | Err e => inr (Err e) end.
Definition catalog_finish (acc : Fields) : result Error FieldCatalog := Ok (catalog_of acc).

Context (files : list (result Error (list Z))).

Definition worker_count (workers : nat) : nat := Nat.min (Nat.max workers 1) (Nat.max (length files) 1).

Definition scan_start (workers : nat) : Pool (R := result Error Fields) (Acc := Fields) (Fin := result Error FieldCatalog) :=
  pool_start ([], []) (worker_count workers).
Definition catalog_step := pool_step files scan_field_catalog_file catalog_collect catalog_finish.

(** [None]: the schedule ends before the function returns. *)
Definition scan_field_catalog (workers : nat) (schedule : list (option nat)) : option (result Error FieldCatalog) :=
  if decide (worker_count workers = 1%nat) then scan_field_catalog_sequential files else
  match pl_main (run_pool files scan_field_catalog_file catalog_collect catalog_finish schedule (scan_start workers)) with
  | inr res => Some res
  | inl _ => None
  end.
End Catalog.

(** ** Sets of strings *)

Lemma elem_of_set_extend x s vs : x ∈ set_extend s vs ↔ x ∈ s ∨ x ∈ vs.
Proof.
  unfold set_extend. revert s. induction vs as [|v vs IH]; intros s; cbn [foldl].
  - pose proof (not_elem_of_nil x). tauto.
  - rewrite IH, elem_of_set_insert, elem_of_cons. tauto.
Qed.

Lemma NoDup_set_extend s vs : NoDup s → NoDup (set_extend s vs).
Proof.
  unfold set_extend. revert s. induction vs as [|v vs IH]; intros s Hs; cbn [foldl]; [done|]. apply IH.
  unfold set_insert. case_decide; [done|]. apply list.NoDup_app. split_and!; [done|set_solver|apply NoDup_singleton].
Qed.

(** The catalogue depends on the names that occur only. *)
Lemma catalog_of_ext acc acc' :
  NoDup acc.1 → NoDup acc.2 → NoDup acc'.1 → NoDup acc'.2 →
  (∀ x, x ∈ acc.1 ↔ x ∈ acc'.1) → (∀ x, x ∈ acc.2 ↔ x ∈ acc'.2) → catalog_of acc = catalog_of acc'.
Proof. intros. unfold catalog_of. f_equal; apply sort_keys_permutation; by apply NoDup_Permutation. Qed.

(** [acc] holds the names of [fs], each once. *)
Definition gathers (acc : Fields) (fs : list Fields) : Prop :=
  NoDup acc.1 ∧ NoDup acc.2 ∧ (∀ x, x ∈ acc.1 ↔ ∃ f, f ∈ fs ∧ x ∈ f.1) ∧ (∀ x, x ∈ acc.2 ↔ ∃ f, f ∈ fs ∧ x ∈ f.2).

Lemma gathers_nil : gathers ([], []) [].
Proof. split_and!; try apply NoDup_nil_2; intros x; cbn; set_solver. Qed.

Lemma gathers_snoc acc fs f : gathers acc fs → gathers (extend_fields acc f) (fs ++ [f]).
Proof.
  intros (H1 & H2 & H3 & H4). split_and!; try by apply NoDup_set_extend.
  - intros x. cbn [extend_fields fst]. rewrite elem_of_set_extend, H3. set_solver.
  - intros x. cbn [extend_fields snd]. rewrite elem_of_set_extend, H4. set_solver.
Qed.

Lemma gathers_catalog acc acc' fs fs' :
  gathers acc fs → gathers acc' fs' → fs ≡ₚ fs' → catalog_of acc = catalog_of acc'.
Proof.
  intros (H1 & H2 & H3 & H4) (H1' & H2' & H3' & H4') Hp.
  apply catalog_of_ext; try done; intros x; [rewrite H3, H3'|rewrite H4, H4']; by setoid_rewrite Hp.
Qed.

(** ** One file *)

Section Files.
Context {OP : OtlpParts} {LC : LogsCodec} {EX : Externals} {EL : ExternalLaws}.

Lemma catalog_fold acc fs rs :
  gathers acc fs → ∃ acc', fold_until catalog_body acc rs = (acc', true) ∧ gathers acc' (fs ++ (record_fields <$> rs)).
Proof.
  revert acc fs. induction rs as [|r rs IH]; intros acc fs Hg; cbn [fold_until].
  { exists acc. by rewrite app_nil_r. }
  destruct (IH _ _ (gathers_snoc acc fs (record_fields r) Hg)) as (acc' & E & Hg'). exists acc'. split; [exact E|].
  by rewrite <- app_assoc in Hg'.
Qed.

Lemma catalog_file_total data rs :
  delivers (reader_new data) rs →
  ∃ f, scan_field_catalog_file (Ok data) = Some (Ok f) ∧ gathers f (record_fields <$> rs).
Proof.
  intros Hd. destruct (catalog_fold ([], []) [] rs gathers_nil) as (f & Ef & Hf).
  destruct (while_records_delivers catalog_body ([], []) _ rs Hd) as (r' & E). exists f. split; [|done].
  cbn [scan_field_catalog_file]. rewrite E, Ef. done.
Qed.
End Files.

(** ** The files together *)

Section Runs.
Context {OP : OtlpParts} {LC : LogsCodec} {EX : Externals}.

Lemma catalog_files_ok files fields acc fs :
  Forall2 (λ file f, scan_field_catalog_file file = Some (Ok f)) files fields → gathers acc fs →
  ∃ acc', catalog_files files acc = Some (Ok acc') ∧ gathers acc' (fs ++ fields).
Proof.
  intros Hf. revert acc fs. induction Hf as [|file f files fields H _ IH]; intros acc fs Hg; cbn [catalog_files].
  { exists acc. by rewrite app_nil_r. }
  rewrite H. destruct (IH _ _ (gathers_snoc acc fs f Hg)) as (acc' & E & Hg'). exists acc'. by rewrite <- app_assoc in Hg'.
Qed.

(** Collecting results without errors gathers their fields. *)
Lemma collect_gathers xs acc fs :
  gathers acc fs → Forall (λ x : nat * result Error Fields, ∃ f, x.2 = Ok f) xs →
  ∃ acc', collect_all catalog_collect acc xs = inl acc' ∧ gathers acc' (fs ++ omap (λ x : nat * result Error Fields, match x.2 with Ok f => Some f | Err _ => None end) xs).
Proof.
  intros Hg Hx. revert acc fs Hg. induction Hx as [|[i r] xs [f E] _ IH]; intros acc fs Hg; cbn [collect_all].
  { exists acc. by rewrite app_nil_r. }
  cbn [snd] in E. subst r. cbn [catalog_collect]. destruct (IH _ _ (gathers_snoc acc fs f Hg)) as (acc' & E & Hg'). exists acc'.
  split; [done|]. by rewrite <- app_assoc in Hg'.
Qed.

Lemma answers_fields (fields : list Fields) :
  Forall (λ x : nat * result Error Fields, ∃ f, x.2 = Ok f) (answers (Ok <$> fields)) ∧
  omap (λ x : nat * result Error Fields, match x.2 with Ok f => Some f | Err _ => None end) (answers (Ok <$> fields)) = fields.
Proof.
  unfold answers. rewrite imap_fmap.
  enough (∀ h : nat → Fields → nat * result Error Fields, (∀ i f, (h i f).2 = Ok f) →
    Forall (λ x : nat * result Error Fields, ∃ f, x.2 = Ok f) (imap h fields) ∧
    omap (λ x : nat * result Error Fields, match x.2 with Ok f => Some f | Err _ => None end) (imap h fields) = fields) as H by by apply H.
  clear. induction fields as [|f fields IH]; intros h Hh; [done|]. cbn [imap].
  destruct (IH (h ∘ S) (λ i, Hh (S i))) as [H1 H2]. split; [constructor; [exists f; apply Hh|done]|].
  cbn [omap list_omap]. rewrite Hh. by f_equal.
Qed.

(** In whatever order the results come, the catalogue is that of all fields. *)
Lemma collected_catalog fields xs acc :
  xs ≡ₚ answers (Ok <$> fields) → gathers acc fields →
  collected catalog_collect catalog_finish ([], []) xs = Ok (catalog_of acc).
Proof.
  intros Hp Ha. destruct (answers_fields fields) as [H1 H2]. rewrite <- Hp in H1.
  destruct (collect_gathers xs ([], []) [] gathers_nil H1) as (acc' & E & Hg). unfold collected. rewrite E. unfold catalog_finish.
  f_equal. eapply gathers_catalog; [exact Hg|exact Ha|]. cbn [app]. by rewrite Hp, H2.
Qed.
End Runs.

(** ** The catalogue of a dataset *)

Section Dataset.
Context {OP : OtlpParts} {LC : LogsCodec} {EX : Externals} {EL : ExternalLaws}.

Definition holds_records (file : result Error (list Z)) (rs : list OwnedRecord) : Prop :=
  ∃ data, file = Ok data ∧ delivers (reader_new data) rs.

(** The names that occur in the log records, sorted and each once. *)
Definition catalogues (c : FieldCatalog) (rs : list OwnedRecord) : Prop :=
  StronglySorted text_le (fc_services c) ∧ NoDup (fc_services c) ∧
  (∀ x, x ∈ fc_services c ↔ ∃ r, r ∈ rs ∧ x ∈ (record_fields r).1) ∧
  StronglySorted text_le (fc_severities c) ∧ NoDup (fc_severities c) ∧
  (∀ x, x ∈ fc_severities c ↔ ∃ r, r ∈ rs ∧ x ∈ (record_fields r).2).

Lemma dataset_fields files rss :
  Forall2 holds_records files rss →
  ∃ fields, Forall2 (λ file f, scan_field_catalog_file file = Some (Ok f)) files fields ∧
    Forall2 (λ f rs, gathers f (record_fields <$> rs)) fields rss.
Proof.
  induction 1 as [|file rs files rss (data & -> & Hd) H (fields & H1 & H2)]; [by exists []; split|].
  destruct (catalog_file_total data rs Hd) as (f & E & Hf). exists (f :: fields). by split; constructor.
Qed.

Lemma gathers_concat acc fields rss :
  gathers acc fields → Forall2 (λ f rs, gathers f (record_fields <$> rs)) fields rss →
  gathers acc (record_fields <$> concat rss).
Proof.
  intros (H1 & H2 & H3 & H4) Hf. split_and!; try done.
  - intros x. rewrite H3. clear -Hf. induction Hf as [|f rs fs rss (_ & _ & Hg & _) Hf IH]; [set_solver|].
    cbn [concat]. rewrite fmap_app. set_solver.
  - intros x. rewrite H4. clear -Hf. induction Hf as [|f rs fs rss (_ & _ & _ & Hg) Hf IH]; [set_solver|].
    cbn [concat]. rewrite fmap_app. set_solver.
Qed.

Lemma catalog_of_catalogues acc rs : gathers acc (record_fields <$> rs) → catalogues (catalog_of acc) rs.
Proof.
  intros (H1 & H2 & H3 & H4). unfold catalogues, catalog_of, sort_keys. cbn [fc_services fc_severities].
  split_and!; try apply StronglySorted_merge_sort; try apply _; try (by rewrite merge_sort_Permutation);
    intros x; rewrite merge_sort_Permutation; [rewrite H3|rewrite H4]; set_solver.
Qed.

(** The field catalogue.  However the threads are scheduled, collecting the fields of
    a dataset ends after a bounded number of steps without ever being stuck, and returns
    what collecting them file by file returns: the service names and the severities that
    occur in the log records, sorted and each once. *)
Theorem field_catalog_any_schedule files rss workers :
  Forall2 holds_records files rss →
  ∃ c, scan_field_catalog_sequential files = Some (Ok c) ∧ catalogues c (concat rss) ∧
    (∀ schedule res, scan_field_catalog files workers schedule = Some res → res = Ok c) ∧
    (∀ k s, nsteps (catalog_step files) k (scan_start files workers) s →
      (k ≤ pool_measure files (scan_start files workers))%nat ∧
      ((∃ s', catalog_step files s s') ∨ pl_main s = inr (Ok c))).
Proof.
  intros Hh. destruct (dataset_fields files rss Hh) as (fields & Hf & Hg).
  destruct (catalog_files_ok files fields _ [] Hf gathers_nil) as (acc & E & Hacc). exists (catalog_of acc).
  assert (Forall2 (λ a r, scan_field_catalog_file a = Some r) files (Ok <$> fields)) as Hr
    by (apply Forall2_fmap_r; exact Hf).
  assert (∃ n, worker_count files workers = S n) as [n En] by (exists (pred (worker_count files workers)); unfold worker_count; lia).
  split_and!.
  - unfold scan_field_catalog_sequential. by rewrite E.
  - apply catalog_of_catalogues. by eapply gathers_concat.
  - intros schedule res. unfold scan_field_catalog, scan_start. case_decide.
    { unfold scan_field_catalog_sequential. rewrite E. congruence. }
    rewrite En. destruct (pl_main _) as [|res'] eqn:Em; [done|]. intros [= <-].
    destruct (pool_schedule files _ _ _ _ _ Hr n schedule res' Em) as (xs & Hp & ->). by apply (collected_catalog fields).
  - intros k s. unfold scan_start. rewrite En. intros Hk.
    destruct (pool_runs files _ _ _ _ _ Hr n k s Hk) as (Hle & Hgo & Hfin). split; [done|].
    destruct Hgo as [?|[fin Ef]]; [by left|right]. rewrite Ef. f_equal.
    destruct (Hfin fin Ef) as (xs & Hp & ->). by apply (collected_catalog fields).
Qed.
End Dataset.

Section Witness.
#[local] Existing Instances sample_parts logs_codec stored_externals stored_laws.

(** A file with one log record of a service. *)
Definition service_record (service severity : text) : OwnedRecord :=
  mkRecord Logs 1 4 (encode_logs (mkLogsRequest [mkResourceLogs
    (Some (mkResource [mkKeyValue (str "service.name") (Some (mkAnyValue (Some (StringValue service)))) tt] 0 []))
    [mkScopeLogs None [mkLogRecord 1 0 9 severity None [] 0 0 [] [] []] []] []])).

Lemma sample_out_delivers r :
  valid_record r → fits_reader DEFAULT_MAX_BLOCK_SIZE r → len (payload r) + 34 ≤ MAX_U32 →
  len (sample_out [r]) < MAX_U32 → delivers (reader_new (sample_out [r])) [r].
Proof.
  intros Hv Hf Hl Ho. destruct (write_log_delivers sample_wc ReaderConfig_default DEFAULT_MAX_BLOCK_SIZE [r]
    sample_compatible sample_accepts ltac:(done)) as (out & Hw & Hd); [repeat constructor|by constructor..|].
  unfold sample_out in *. rewrite Hw in *. by apply Hd.
Qed.

Definition web_record : OwnedRecord := Eval vm_compute in service_record (str "web") (str "INFO").
Definition db_record : OwnedRecord := Eval vm_compute in service_record (str "db") (str "WARN").
Definition catalog_sample : list (result Error (list Z)) := [Ok (sample_out [web_record]); Ok (sample_out [db_record])].

(** Two threads, the second of which takes the first file. *)
Lemma field_catalog_any_schedule_witness :
  scan_field_catalog catalog_sample 2
      [Some 1; Some 0; Some 0; Some 1; None; Some 1; Some 0; None; None]%nat =
    Some (Ok (mkFieldCatalog [str "INFO"; str "WARN"] [str "db"; str "web"])) ∧
  scan_field_catalog_sequential catalog_sample = Some (Ok (mkFieldCatalog [str "INFO"; str "WARN"] [str "db"; str "web"])).
Proof.
  assert (scan_field_catalog catalog_sample 2
      [Some 1; Some 0; Some 0; Some 1; None; Some 1; Some 0; None; None]%nat =
    Some (Ok (mkFieldCatalog [str "INFO"; str "WARN"] [str "db"; str "web"]))) as E by by vm_compute.
  destruct (field_catalog_any_schedule catalog_sample [[web_record]; [db_record]] 2) as (c & Hs & _ & Ha & _).
  - apply Forall2_cons; [|apply Forall2_cons; [|constructor]]; (eexists; split; [reflexivity|]); apply sample_out_delivers.
    1,5: split_and!; apply (bool_decide_unpack _); by vm_compute.
    all: by vm_compute.
  - split; [exact E|]. rewrite Hs. f_equal. by rewrite (Ha _ _ E).
Defined.
End Witness.
