(* ===== verification/Dataset.v ===== *)
(** * The files of a dataset

    [ljx/src/dataset.rs]: the command line names files and directories, and the dataset
    is the sorted list of the files, with those of the directories and everything below
    them whose extension is [logjet].  The calls to the operating system are arguments:
    [metadata] and [read_dir], and [contents] for what a file holds. *)

From stdpp Require Import sorting.
From S2P Require Import Prelude Text Tokens Canon Format Reader Instances Otlp FlatRecord SampleCodec Dedup DatasetIndex ViewScan.

Inductive FileKind : Type := KindFile | KindDir | KindOther.
Record Metadata : Type := mkMetadata { md_kind : FileKind; md_len : Z; md_modified_ns : option Z }.
#[export] Instance FileKind_eq_dec : EqDecision FileKind.
Proof. solve_decision. Defined.

Record DatasetOptions : Type := mkDatasetOptions { load_index : bool }.
Definition DatasetOptions_default : DatasetOptions := mkDatasetOptions true.
Definition DatasetOptions_nfs : DatasetOptions := mkDatasetOptions false.

(** The usage errors of the module, and the errors of the system. *)
Inductive DatasetError : Type :=
| EmptySelection
| MixedStdin
| InputMissing (path : text) (glob : bool)
| NotRegular (path : text)
| NoFiles
| EmptyDirectory (path : text)
| DatasetIo (e : IoError).

(** [looks_like_glob] *)
Definition looks_like_glob (path : text) : bool := existsb (λ b, bool_decide (b ∈ [42; 63; 91])) path.

(** [Path::join] of a directory and a name in it *)
Definition path_join (dir name : text) : text :=
  if bool_decide (dir = []) || ends_with dir [47] then dir ++ name else dir ++ [47] ++ name.

(** [Path::extension] of a path that ends with a file name: what follows the last dot of
    the name, unless that is its first character. *)
Definition file_name (path : text) : text := default [] (list.last (split_on 47 path)).
Definition extension (path : text) : option text :=
  let name := file_name path in
  match rev (split_on 46 name) with
  | ext :: before :: rest => if bool_decide (before = []) && bool_decide (rest = []) then None else Some ext
  | _ => None
  end.
(** [Path::file_stem] of a path that ends with a file name, and [to_str] *)
Definition file_stem (path : text) : option text :=
  let name := file_name path in
  let stem := match extension path with Some ext => take (length name - length ext - 1) name | None => name end in
  if utf8_valid stem then Some stem else None.

(** [Path::parent]: everything before the last component; [None] for the root and for no
    path at all. *)
Definition path_parent (path : text) : option text :=
  let trimmed := trim_end_matches (λ b, b =? 47) path in
  match rev (split_on 47 trimmed) with
  | [] | [[]] => None
  | [_] => Some []
  | _ :: before =>
      let dir := trim_end_matches (λ b, b =? 47) (join [47] (rev before)) in
      Some (if bool_decide (dir = []) then [47] else dir)
  end.
Definition is_logjet (path : text) : bool := bool_decide (extension path = Some (str "logjet")).

Section Dataset.
Context (metadata : text → result IoError Metadata) (read_dir : text → result IoError (list (text * FileKind))).

(** The entries of a directory: directories go to the stack, files with the extension to
    the result. *)
Fixpoint visit_entries (current : text) (entries : list (text * FileKind)) (dirs out : list text) (found : Z)
    : list text * list text * Z :=
  match entries with
  | [] => (dirs, out, found)
  | (name, ty) :: entries =>
      let path := path_join current name in
      match ty with
      | KindDir => visit_entries current entries (path :: dirs) out found
      | KindOther => visit_entries current entries dirs out found
      | KindFile => if is_logjet path then visit_entries current entries dirs (out ++ [path]) (found + 1)
                    else visit_entries current entries dirs out found
      end
  end.

(** [while let Some(current) = dirs.pop()]; the fuel bounds the number of directories. *)
Fixpoint collect_loop (fuel : nat) (dirs out : list text) (found : Z) : option (result DatasetError (list text * Z)) :=
  match fuel with
  | O => None
  | S fuel =>
      match dirs with
      | [] => Some (Ok (out, found))
      | current :: dirs =>
          match read_dir current with
          | Err e => Some (Err (DatasetIo e))
          | Ok entries => let '(dirs, out, found) := visit_entries current entries dirs out found in
                          collect_loop fuel dirs out found
          end
      end
  end.

Definition collect_dir_entries (fuel : nat) (dir : text) (out : list text) : option (result DatasetError (list text)) :=
  match collect_loop fuel [dir] out 0 with
  | None => None
  | Some (Err e) => Some (Err e)
  | Some (Ok (out, found)) => Some (if found =? 0 then Err (EmptyDirectory dir) else Ok out)
  end.

(** The loop over the inputs *)
Fixpoint input_paths (fuel : nat) (inputs paths : list text) : option (result DatasetError (list text)) :=
  match inputs with
  | [] => Some (Ok paths)
  | input :: inputs =>
      match metadata input with
      | Err _ => Some (Err (InputMissing input (looks_like_glob input)))
      | Ok meta =>
          match md_kind meta with
          | KindDir =>
              match collect_dir_entries fuel input paths with
              | None => None
              | Some (Err e) => Some (Err e)
              | Some (Ok paths) => input_paths fuel inputs paths
              end
          | KindFile => input_paths fuel inputs (paths ++ [input])
          | KindOther => Some (Err (NotRegular input))
          end
      end
  end.

(** [Vec::dedup] *)
Fixpoint dedup_paths (paths : list text) : list text :=
  match paths with
  | p :: (q :: _) as rest => if decide (p = q) then dedup_paths rest else p :: dedup_paths rest
  | paths => paths
  end.

Section Entries.
Context {OP : OtlpParts} {LC : LogsCodec} {EX : Externals} {IJ : IndexJson} {XX : Xxh3}.
Context (contents : text → list Z).

(** [DatasetEntry::from_path], with the index cache; [None] is a panic of the index. *)
Definition from_path (options : DatasetOptions) (path : text) (cache : gmap Z (list Z))
    : option (result DatasetError DatasetEntry * gmap Z (list Z)) :=
  match metadata path with
  | Err e => Some (Err (DatasetIo e), cache)
  | Ok meta =>
      let entry := entry_of path (contents path) (md_len meta) (md_modified_ns meta) in
      if load_index options then
        match load_or_build path (contents path) (md_len meta) (md_modified_ns meta) cache with
        | None => None
        | Some (index, cache) => Some (Ok (entry index), cache)
        end
      else Some (Ok (entry None), cache)
  end.

Fixpoint from_paths (options : DatasetOptions) (paths : list text) (cache : gmap Z (list Z))
    : option (result DatasetError (list DatasetEntry) * gmap Z (list Z)) :=
  match paths with
  | [] => Some (Ok [], cache)
  | path :: paths =>
      match from_path options path cache with
      | None => None
      | Some (Err e, cache) => Some (Err e, cache)
      | Some (Ok entry, cache) =>
          match from_paths options paths cache with
          | Some (Ok entries, cache) => Some (Ok (entry :: entries), cache)
          | other => other
          end
      end
  end.

Definition from_inputs_with_options (fuel : nat) (inputs : list text) (options : DatasetOptions) (cache : gmap Z (list Z))
    : option (result DatasetError (list DatasetEntry) * gmap Z (list Z)) :=
  if bool_decide (inputs = []) then Some (Err EmptySelection, cache) else
  if existsb (λ path, bool_decide (path = [45])) inputs then
    Some (if decide (length inputs = 1%nat) then Ok [entry_of [45] (contents [45]) 0 None None] else Err MixedStdin, cache)
  else
  match input_paths fuel inputs [] with
  | None => None
  | Some (Err e) => Some (Err e, cache)
  | Some (Ok paths) =>
      if bool_decide (paths = []) then Some (Err NoFiles, cache) else
      from_paths options (dedup_paths (merge_sort text_le paths)) cache
  end.

Definition from_inputs (fuel : nat) (inputs : list text) := from_inputs_with_options fuel inputs DatasetOptions_default.
End Entries.
End Dataset.

(** [Dataset::is_stdin] *)
Definition is_stdin (entries : list DatasetEntry) : bool :=
  match entries with [e] => bool_decide (entry_path e = [45]) | _ => false end.

(** ** What is below a directory *)

Section Walk.
Context (metadata : text → result IoError Metadata) (read_dir : text → result IoError (list (text * FileKind))).

Definition subdirectory (child dir : text) : Prop :=
  ∃ entries name, read_dir dir = Ok entries ∧ (name, KindDir) ∈ entries ∧ child = path_join dir name.

Inductive beneath : text → text → Prop :=
| beneath_file dir entries name :
    read_dir dir = Ok entries → (name, KindFile) ∈ entries → is_logjet (path_join dir name) = true →
    beneath dir (path_join dir name)
| beneath_dir dir child p : subdirectory child dir → beneath child p → beneath dir p.

(** Every directory from [dir] down can be read. *)
Definition readable_below (dir : text) : Prop := ∀ d, rtc (flip subdirectory) dir d → ∃ entries, read_dir d = Ok entries.

Definition files_in (current : text) (entries : list (text * FileKind)) : list text :=
  omap (λ e : text * FileKind, match e.2 with
    | KindFile => if is_logjet (path_join current e.1) then Some (path_join current e.1) else None
    | _ => None end) entries.
Definition dirs_in (current : text) (entries : list (text * FileKind)) : list text :=
  omap (λ e : text * FileKind, match e.2 with KindDir => Some (path_join current e.1) | _ => None end) entries.

Lemma visit_entries_eq current entries dirs out found :
  visit_entries current entries dirs out found =
    (rev (dirs_in current entries) ++ dirs, out ++ files_in current entries, found + len (files_in current entries)).
Proof.
  revert dirs out found. induction entries as [|[name []] entries IH]; intros dirs out found; cbn.
  - by rewrite app_nil_r, Z.add_0_r.
  - destruct (is_logjet _); rewrite IH; [|done]. rewrite <- app_assoc, len_cons. f_equal. fold (files_in current entries). lia.
  - rewrite IH. unfold dirs_in. cbn. by rewrite <- app_assoc.
  - by rewrite IH.
Qed.

Lemma elem_of_files_in p dir entries :
  p ∈ files_in dir entries ↔ ∃ name, (name, KindFile) ∈ entries ∧ is_logjet (path_join dir name) = true ∧ p = path_join dir name.
Proof.
  unfold files_in. rewrite list_elem_of_omap. split.
  - intros ([name []] & Hin & H); try done. cbn in H. destruct (is_logjet _) eqn:E; [|done]. injection H as <-. by exists name.
  - intros (name & Hin & E & ->). exists (name, KindFile). cbn. by rewrite E.
Qed.

Lemma elem_of_dirs_in p dir entries :
  read_dir dir = Ok entries → p ∈ dirs_in dir entries ↔ subdirectory p dir.
Proof.
  intros Hr. unfold dirs_in. rewrite list_elem_of_omap. split.
  - intros ([name []] & Hin & H); try done. injection H as <-. by exists entries, name.
  - intros (entries' & name & Hr' & Hin & ->). rewrite Hr in Hr'. injection Hr' as <-. by exists (name, KindDir).
Qed.

(** One directory is worked off before what lies under it on the stack. *)
Definition walks (dir : text) (n : nat) (new : list text) : Prop :=
  (∀ p, p ∈ new ↔ beneath dir p) ∧
  ∀ fuel dirs out found, collect_loop read_dir (n + fuel) (dir :: dirs) out found =
    collect_loop read_dir fuel dirs (out ++ new) (found + len new).

Lemma walk_dirs ds :
  (∀ d, d ∈ ds → ∃ n new, walks d n new) →
  ∃ n new, (∀ p, p ∈ new ↔ ∃ d, d ∈ ds ∧ beneath d p) ∧
    ∀ fuel dirs out found, collect_loop read_dir (n + fuel) (ds ++ dirs) out found =
      collect_loop read_dir fuel dirs (out ++ new) (found + len new).
Proof.
  induction ds as [|d ds IH]; intros Hd.
  { exists 0%nat, []. split; [set_solver|]. intros. by rewrite app_nil_r, len_nil, Z.add_0_r. }
  destruct (Hd d) as (n1 & new1 & Hp1 & Hw1); [left|].
  destruct IH as (n2 & new2 & Hp2 & Hw2); [intros d' Hd'; apply Hd; by right|].
  exists (n1 + n2)%nat, (new1 ++ new2). split; [set_solver|]. intros fuel dirs out found.
  rewrite <- Nat.add_assoc. cbn [app]. rewrite Hw1, Hw2, <- app_assoc, len_app. f_equal; lia.
Qed.

Lemma walk_dir dir : Acc subdirectory dir → readable_below dir → ∃ n new, walks dir n new.
Proof.
  induction 1 as [dir _ IH]. intros Hr. destruct (Hr dir) as [entries He]; [constructor|].
  destruct (walk_dirs (rev (dirs_in dir entries))) as (n & new & Hp & Hw).
  { intros d Hd. rewrite list_elem_of_In, <- in_rev, <- list_elem_of_In, (elem_of_dirs_in _ _ _ He) in Hd.
    apply (IH d Hd). intros d' Hd'. apply Hr. by eapply rtc_l. }
  exists (S n), (files_in dir entries ++ new). split.
  - intros p. rewrite elem_of_app, elem_of_files_in, Hp. split.
    + intros [(name & Hin & E & ->)|(d & Hd & Hb)]; [by eapply beneath_file|].
      rewrite list_elem_of_In, <- in_rev, <- list_elem_of_In, (elem_of_dirs_in _ _ _ He) in Hd. by eapply beneath_dir.
    + intros Hb. inversion Hb as [? entries' name He' Hin E|? child ? Hs Hb']; subst.
      * rewrite He in He'. injection He' as <-. left. by exists name.
      * right. exists child. split; [|done].
        by rewrite list_elem_of_In, <- in_rev, <- list_elem_of_In, (elem_of_dirs_in _ _ _ He).
  - intros fuel dirs out found. cbn [Nat.add collect_loop]. rewrite He, visit_entries_eq, Hw, <- app_assoc, len_app.
    f_equal. lia.
Qed.

(** ** The inputs together *)

Definition good_input (input : text) : Prop :=
  ∃ meta, metadata input = Ok meta ∧
    match md_kind meta with
    | KindFile => True
    | KindDir => readable_below input ∧ ∃ p, beneath input p
    | KindOther => False
    end.

(** The files that an input stands for. *)
Definition stands_for (input p : text) : Prop :=
  ∃ meta, metadata input = Ok meta ∧
    match md_kind meta with KindFile => p = input | KindDir => beneath input p | KindOther => False end.

Lemma collect_dir_ok dir :
  Acc subdirectory dir → readable_below dir → (∃ p, beneath dir p) →
  ∃ n new, (∀ p, p ∈ new ↔ beneath dir p) ∧
    ∀ fuel out, (n ≤ fuel)%nat → collect_dir_entries read_dir fuel dir out = Some (Ok (out ++ new)).
Proof.
  intros Ha Hr [p Hb]. destruct (walk_dir dir Ha Hr) as (n & new & Hp & Hw). exists (n + 1)%nat, new. split; [done|].
  intros fuel out Hf. unfold collect_dir_entries. replace fuel with (n + S (fuel - n - 1))%nat by lia. rewrite Hw. cbn [collect_loop].
  destruct new as [|q new]; [apply Hp in Hb; set_solver|]. rewrite (proj2 (Z.eqb_neq _ _)); [done|].
  rewrite len_cons. pose proof (len_nonneg new). lia.
Qed.

Lemma input_paths_ok inputs :
  well_founded subdirectory → Forall good_input inputs →
  ∃ n new, (∀ p, p ∈ new ↔ ∃ input, input ∈ inputs ∧ stands_for input p) ∧
    ∀ fuel paths, (n ≤ fuel)%nat → input_paths metadata read_dir fuel inputs paths = Some (Ok (paths ++ new)).
Proof.
  intros Hwf. induction 1 as [|input inputs (meta & Hm & Hk) Hin (n & new & Hp & Hi)]; cbn [input_paths].
  { exists 0%nat, []. split; [set_solver|]. intros. by rewrite app_nil_r. }
  assert (∀ p, stands_for input p ↔ match md_kind meta with KindFile => p = input | KindDir => beneath input p | KindOther => False end)
    as Hst. { intros p. unfold stands_for. rewrite Hm. split; [by intros (? & [= <-] & ?)|by exists meta]. }
  destruct (md_kind meta) eqn:Ek; [| |done].
  - exists n, (input :: new). split; [set_solver|]. intros fuel paths Hf. rewrite Hm, Ek, Hi by done. by rewrite <- app_assoc.
  - destruct Hk as [Hr Hb]. destruct (collect_dir_ok input (Hwf input) Hr Hb) as (n' & new' & Hp' & Hc).
    exists (n + n')%nat, (new' ++ new). split; [set_solver|]. intros fuel paths Hf.
    rewrite Hm, Ek, Hc, Hi, app_assoc by lia. done.
Qed.

End Walk.

Definition text_lt (p q : text) : Prop := text_le p q ∧ p ≠ q.

Lemma dedup_paths_sorted paths :
  StronglySorted text_le paths →
  StronglySorted text_lt (dedup_paths paths) ∧ (∀ p, p ∈ dedup_paths paths ↔ p ∈ paths).
Proof.
  induction 1 as [|p rest Hs IH Hp]; [split; [constructor|done]|]. destruct rest as [|q rest]; [split; [repeat constructor|done]|].
  destruct IH as [IH1 IH2]. change (dedup_paths (p :: q :: rest)) with (if decide (p = q) then dedup_paths (q :: rest) else p :: dedup_paths (q :: rest)).
  case_decide as E.
  - subst q. split; [done|]. set_solver.
  - split; [|set_solver]. constructor; [done|]. apply list.Forall_forall. intros r Hr. apply IH2 in Hr.
    rewrite list.Forall_forall in Hp. split; [by apply Hp|]. intros ->. apply E.
    apply (anti_symm text_le); [apply Hp; left|]. apply StronglySorted_inv in Hs as [_ Hq]. rewrite list.Forall_forall in Hq.
    apply elem_of_cons in Hr as [->|Hr]; [|by apply Hq]. by destruct (total text_le q q).
Qed.


Section Listing.
Context (metadata : text → result IoError Metadata) (read_dir : text → result IoError (list (text * FileKind))).
Context {OP : OtlpParts} {LC : LogsCodec} {EX : Externals} {IJ : IndexJson} {XX : Xxh3}.
Context (contents : text → list Z).

Lemma from_paths_nfs paths cache :
  (∀ p, p ∈ paths → ∃ meta, metadata p = Ok meta) →
  ∃ entries, from_paths metadata contents DatasetOptions_nfs paths cache = Some (Ok entries, cache) ∧ entry_path <$> entries = paths.
Proof.
  induction paths as [|p paths IH]; intros Hm; cbn [from_paths]; [by exists []|].
  destruct (Hm p) as [meta E]; [left|]. unfold from_path. rewrite E. cbn [load_index DatasetOptions_nfs].
  destruct IH as (entries & -> & Hp); [intros q Hq; apply Hm; by right|].
  eexists. split; [done|]. cbn. by rewrite Hp.
Qed.

Lemma from_paths_paths options paths cache entries cache' :
  from_paths metadata contents options paths cache = Some (Ok entries, cache') → entry_path <$> entries = paths.
Proof.
  revert cache entries. induction paths as [|p paths IH]; intros cache entries; cbn [from_paths]; [by intros [= <- <-]|].
  destruct (from_path _ _ options p cache) as [[[e|] c]|] eqn:E; try done.
  destruct (from_paths _ _ options paths c) as [[[es|] c']|] eqn:E'; try done. intros [= <- <-]. cbn.
  rewrite (IH _ _ E'). f_equal. unfold from_path in E. destruct (metadata p); [|done].
  destruct (load_index options); [destruct (load_or_build _ _ _ _ _) as [[]|]; [|done]|]; by injection E as <- <-.
Qed.

(** The dataset.  Files and directories named on the command line give the dataset of
    the named files and of all files with the extension in and below the named
    directories, in strictly increasing order of their paths, each once; loading the
    indexes does not change which files these are. *)
Theorem dataset_lists_named_files inputs cache :
  inputs ≠ [] → [45] ∉ inputs → well_founded (subdirectory read_dir) → Forall (good_input metadata read_dir) inputs →
  (∀ input p, input ∈ inputs → stands_for metadata read_dir input p → ∃ meta, metadata p = Ok meta) →
  ∃ n entries, (∀ fuel, (n ≤ fuel)%nat →
      from_inputs_with_options metadata read_dir contents fuel inputs DatasetOptions_nfs cache = Some (Ok entries, cache)) ∧
    StronglySorted text_lt (entry_path <$> entries) ∧
    (∀ p, p ∈ entry_path <$> entries ↔ ∃ input, input ∈ inputs ∧ stands_for metadata read_dir input p) ∧
    ∀ fuel indexed cache', (n ≤ fuel)%nat →
      from_inputs metadata read_dir contents fuel inputs cache = Some (Ok indexed, cache') →
      entry_path <$> indexed = entry_path <$> entries.
Proof.
  intros Hne Hstd Hwf Hg Hmeta. destruct (input_paths_ok metadata read_dir inputs Hwf Hg) as (n & new & Hp & Hi).
  assert (StronglySorted text_le (merge_sort text_le new)) as Hs by apply (StronglySorted_merge_sort text_le).
  destruct (dedup_paths_sorted _ Hs) as [Hd1 Hd0].
  assert (∀ p, p ∈ dedup_paths (merge_sort text_le new) ↔ p ∈ new) as Hd2 by (intros p; by rewrite Hd0, merge_sort_Permutation).
  destruct (from_paths_nfs (dedup_paths (merge_sort text_le new)) cache) as (entries & Hf & He).
  { intros p Hin. apply Hd2, Hp in Hin as (input & Hin & Hst). eauto. }
  assert (∀ fuel options, (n ≤ fuel)%nat → from_inputs_with_options metadata read_dir contents fuel inputs options cache =
    from_paths metadata contents options (dedup_paths (merge_sort text_le new)) cache) as E.
  { intros fuel options Hfuel. unfold from_inputs_with_options. rewrite bool_decide_eq_false_2 by done.
    replace (existsb (λ path, bool_decide (path = [45])) inputs) with false.
    2:{ symmetry. apply not_true_is_false. intros (p & Hin & Hb)%existsb_exists. apply bool_decide_eq_true in Hb as ->.
        by apply Hstd, list_elem_of_In. }
    rewrite Hi by done. cbn [app]. rewrite bool_decide_eq_false_2; [done|]. intros ->.
    destruct inputs as [|input inputs]; [done|]. apply Forall_cons_iff in Hg as [(meta & Hm & Hk) _].
    assert (∃ p, stands_for metadata read_dir input p) as [p Hst].
    { unfold stands_for. destruct (md_kind meta) eqn:Ek; [exists input|destruct Hk as [_ [p ?]]; exists p|done]; exists meta; by rewrite Ek. }
    apply (not_elem_of_nil p), Hp. exists input. by split; [left|]. }
  exists n, entries. split_and!.
  - intros fuel Hfuel. by rewrite E.
  - by rewrite He.
  - intros p. by rewrite He, Hd2, Hp.
  - intros fuel indexed cache' Hfuel. unfold from_inputs. rewrite E by done. intros H%from_paths_paths. by rewrite H, He.
Qed.
End Listing.

(** ** A directory with a file, a note and a directory with another file *)

Section Witness.
#[local] Existing Instances sample_parts logs_codec stored_externals.

Definition sample_tree (dir : text) : result IoError (list (text * FileKind)) :=
  if decide (dir = str "d") then Ok [(str "b.logjet", KindFile); (str "notes.txt", KindFile); (str "sub", KindDir)] else
  if decide (dir = str "d/sub") then Ok [(str ".logjet", KindFile); (str "a.logjet", KindFile)] else
  Err (io_error NotFound "No such file or directory").
Definition sample_metadata (path : text) : result IoError Metadata :=
  if decide (path = str "d") then Ok (mkMetadata KindDir 0 None) else Ok (mkMetadata KindFile 7 None).

Lemma sample_subdirectory child dir : subdirectory sample_tree child dir → dir = str "d" ∧ child = str "d/sub".
Proof.
  intros (entries & name & Hr & Hin & ->). unfold sample_tree in Hr. repeat case_decide; try done; injection Hr as <-;
    subst; repeat (apply elem_of_cons in Hin as [E|Hin]; [try done; injection E as ->; by split; [|vm_compute]|]); set_solver.
Qed.

#[local] Instance sample_hash : Xxh3 := {| xxh3_64 := λ t, len t |}.
#[local] Instance sample_json : IndexJson := {| index_to_json _ := None; index_from_json _ := None |}.

Lemma dataset_lists_named_files_witness :
  ∃ n, ∀ fuel, (n ≤ fuel)%nat → ∃ entries,
    from_inputs_with_options sample_metadata sample_tree (λ _, []) fuel [str "d"; str "c.bin"; str "d/b.logjet"] DatasetOptions_nfs ∅ =
      Some (Ok entries, ∅) ∧ StronglySorted text_lt (entry_path <$> entries) ∧ str "d/sub/a.logjet" ∈ entry_path <$> entries.
Proof.
  destruct (dataset_lists_named_files sample_metadata sample_tree (λ _, []) [str "d"; str "c.bin"; str "d/b.logjet"] ∅)
    as (n & entries & Hf & Hs & Hp & _).
  - done.
  - set_solver.
  - assert (∀ dir, dir ≠ str "d" → Acc (subdirectory sample_tree) dir) as Hacc.
    { intros dir Hd. constructor. intros child [-> _]%sample_subdirectory. done. }
    intros dir. destruct (decide (dir = str "d")) as [->|Hd]; [|by apply Hacc]. constructor.
    intros child [_ ->]%sample_subdirectory. by apply Hacc.
  - repeat apply Forall_cons_2; [|eexists; split; [reflexivity|done]..|constructor]. eexists. split; [reflexivity|]. split.
    + intros d Hd. inversion Hd as [|? child ? Hc Hd']; subst; [by eexists|].
      apply sample_subdirectory in Hc as [_ ->]. inversion Hd' as [|? child ? Hc Hd'']; subst; [by eexists|].
      by apply sample_subdirectory in Hc as [? _].
    + exists (str "d/b.logjet"). by apply (beneath_file _ (str "d") _ (str "b.logjet") eq_refl); [left|vm_compute].
  - intros input p _ _. unfold sample_metadata. case_decide; by eexists.
  - exists n. intros fuel Hfuel. exists entries. split_and!; [by apply Hf|done|]. apply Hp. exists (str "d"). split; [left|].
    eexists. split; [reflexivity|]. cbn. apply (beneath_dir _ _ (str "d/sub")).
    + eexists _, (str "sub"). split_and!; [reflexivity|do 2 right; left|by vm_compute].
    + by apply (beneath_file _ (str "d/sub") _ (str "a.logjet") eq_refl); [right; left|vm_compute].
Defined.
End Witness.
