(* ===== verification/LibRequest.v ===== *)
(** * Requests of the C library

    [liblogjet/src/lib.rs], from the records a C program hands over to the OTLP request.
    A C string is [None] for a null pointer and otherwise the bytes before the
    terminating zero; an array is [None] for a null pointer and otherwise the elements
    that its length says can be read.  [protobuf] arrays are a parameter. *)

From S2P Require Import Prelude Text Tokens Format Otlp FlatRecord.

Definition CStr : Type := option (list Z).

Definition LJ_ATTR_STRING : Z := 0.
Definition LJ_ATTR_INT : Z := 1.
Definition LJ_ATTR_ARRAY : Z := 2.
Definition DEFAULT_SCOPE_NAME : text := Eval vm_compute in str "liblogjet".

Record LjAttribute : Type := mkLjAttribute { la_key : CStr; la_value : CStr; la_value_type : Z }.

Record LjLogRecord : Type := mkLjLogRecord {
  lj_timestamp_unix_ns : Z;
  lj_severity_number : Z;
  lj_severity_text : CStr;
  lj_body : CStr;
  lj_attributes : option (list LjAttribute);
  lj_event_name : CStr;
  lj_service_name : CStr;
  lj_scope_name : CStr;
  lj_resource_attrs : option (list LjAttribute);
  lj_scope_attrs : option (list LjAttribute);
}.

(** The messages of the library, by their cause. *)
Inductive LjError : Type :=
| IsNull (name : text)
| IsEmptyString (name : text)
| NotUtf8 (name : text)
| ServiceNameEmpty
| UnsupportedValueType (value_type : Z)
| EndpointTls (rest : text)
| EndpointEmpty
| InvalidModel
| CapacityZero
| SendIo (e : IoError)
| SendGrpc (msg : text)
| RuntimeFailed (msg : text).

Definition read_c_string (s : list Z) (name : text) : result LjError text :=
  if utf8_valid s then Ok s else Err (NotUtf8 name).
Definition read_optional (ptr : CStr) : result LjError (option text) :=
  match ptr with
  | None => Ok None
  | Some s => let? v := read_c_string s (str "string") in Ok (Some v)
  end.
Definition read_required_nonnull (ptr : CStr) (name : text) : result LjError text :=
  match ptr with None => Err (IsNull name) | Some s => read_c_string s name end.
Definition read_required (ptr : CStr) (name : text) : result LjError text :=
  let? value := read_required_nonnull ptr name in
  if bool_decide (value = []) then Err (IsEmptyString name) else Ok value.

Definition severity_text (number : Z) : text :=
  if number <=? 4 then str "TRACE" else
  if number <=? 8 then str "DEBUG" else
  if number <=? 12 then str "INFO" else
  if number <=? 16 then str "WARN" else
  if number <=? 20 then str "ERROR" else str "FATAL".

(** [str::parse::<i64>] *)
Definition parse_i64 (s : text) : option Z :=
  let '(negative, digits) :=
    match s with 45 :: ds => (true, ds) | 43 :: ds => (false, ds) | ds => (false, ds) end in
  if bool_decide (digits = []) || negb (forallb is_ascii_digit digits) then None else
  let v := dec_value 0 digits in
  let v := if negative then - v else v in
  if (- 2 ^ 63 <=? v) && (v <? 2 ^ 63) then Some v else None.

(** [collect::<Result<Vec<_>, _>>] *)
Fixpoint collect_results {A B E} (f : A → result E B) (l : list A) : result E (list B) :=
  match l with
  | [] => Ok []
  | a :: l => let? b := f a in let? bs := collect_results f l in Ok (b :: bs)
  end.

Definition AttrTriple : Type := text * Z * text.

Definition read_attr (attr : LjAttribute) : result LjError AttrTriple :=
  let? key := read_required_nonnull (la_key attr) (str "attribute.key") in
  let? value := read_required_nonnull (la_value attr) (str "attribute.value") in
  Ok (key, la_value_type attr, value).
Definition read_attrs (attrs : option (list LjAttribute)) : result LjError (list AttrTriple) :=
  match attrs with None => Ok [] | Some attrs => collect_results read_attr attrs end.

Class ArrayValues `{OtlpParts} : Type := array_value : list AnyValue → OtherValue.

(** *** Grouping

    [groups.push] with a [HashMap] from keys to positions: a value is added to the group
    of its key, or opens a new one at the end.  Every group carries its key here. *)
Section Upsert.
Context {K X V : Type} `{EqDecision K} (open_group : X → V) (add : V → X → V).
Fixpoint upsert (k : K) (x : X) (groups : list (K * V)) : list (K * V) :=
  match groups with
  | [] => [(k, add (open_group x) x)]
  | (k', v) :: groups => if decide (k = k') then (k', add v x) :: groups else (k', v) :: upsert k x groups
  end.
End Upsert.

Section Request.
Context {OP : OtlpParts} {AV : ArrayValues}.

Definition string_value (s : text) : AnyValue := mkAnyValue (Some (StringValue s)).
Definition key_value (key : text) (value : AnyValue) : KeyValue := mkKeyValue key (Some value) key_value_rest_default.

Definition triple_to_kv (t : AttrTriple) : result LjError KeyValue :=
  let '(key, value_type, raw) := t in
  if value_type =? LJ_ATTR_STRING then Ok (key_value key (string_value raw)) else
  if value_type =? LJ_ATTR_INT then Ok (key_value key (mkAnyValue (Some (IntValue (default 0 (parse_i64 raw)))))) else
  if value_type =? LJ_ATTR_ARRAY then
    Ok (key_value key (mkAnyValue (Some (OtherVariant (array_value
      (string_value <$> filter (λ part, part ≠ []) (trim_text <$> split_on 44 raw)))))))
  else Err (UnsupportedValueType value_type).
Definition triples_to_kvs (triples : list AttrTriple) : result LjError (list KeyValue) := collect_results triple_to_kv triples.

Definition ResourceKey : Type := text * list AttrTriple.
Definition ScopeKey : Type := text * list AttrTriple.

(** [service] is the name the logger was created with. *)
Context (service : text).

Definition resolve_resource (record : LjLogRecord) : result LjError (ResourceKey * list KeyValue) :=
  let? name := read_optional (lj_service_name record) in
  let service_name := default service name in
  if bool_decide (service_name = []) then Err ServiceNameEmpty else
  let? triples := read_attrs (lj_resource_attrs record) in
  let? resource_attrs := triples_to_kvs triples in
  let resource_attrs :=
    if existsb (λ t : AttrTriple, bool_decide (t.1.1 = str "service.name")) triples then resource_attrs
    else key_value (str "service.name") (string_value service_name) :: resource_attrs in
  Ok ((service_name, triples), resource_attrs).

Definition resolve_scope (record : LjLogRecord) : result LjError (ScopeKey * InstrumentationScope) :=
  let? name := read_optional (lj_scope_name record) in
  let scope_name := default DEFAULT_SCOPE_NAME name in
  let? triples := read_attrs (lj_scope_attrs record) in
  let? scope_attrs := triples_to_kvs triples in
  Ok ((scope_name, triples), mkInstrumentationScope scope_name [] scope_attrs 0).

(** [now] is the clock when the record is converted. *)
Definition record_to_log (now : Z) (record : LjLogRecord) : result LjError LogRecordMessage :=
  let? severity := read_optional (lj_severity_text record) in
  let? body := read_required_nonnull (lj_body record) (str "record.body") in
  let? event_name := read_optional (lj_event_name record) in
  let? triples := read_attrs (lj_attributes record) in
  let? log_attrs := triples_to_kvs triples in
  Ok (mkLogRecord (if lj_timestamp_unix_ns record =? 0 then now else lj_timestamp_unix_ns record) 0
        (lj_severity_number record) (default (severity_text (lj_severity_number record)) severity)
        (Some (string_value body)) log_attrs 0 0 [] [] (default [] event_name)).

Definition resource_of (attrs : list KeyValue) (scopes : list ScopeLogs) : ResourceLogs :=
  mkResourceLogs (Some (mkResource attrs 0 [])) scopes [].
Definition scope_of (scope : InstrumentationScope) (logs : list LogRecordMessage) : ScopeLogs :=
  mkScopeLogs (Some scope) logs [].

Definition build_request (now : Z) (record : LjLogRecord) : result LjError ExportLogsServiceRequest :=
  let? (_, resource_attrs) := resolve_resource record in
  let? (_, scope) := resolve_scope record in
  let? log := record_to_log now record in
  Ok (mkLogsRequest [resource_of resource_attrs [scope_of scope [log]]]).

(** A record with its two keys. *)
Record Resolved : Type := mkResolved {
  rs_resource_key : ResourceKey;
  rs_resource_attrs : list KeyValue;
  rs_scope_key : ScopeKey;
  rs_scope : InstrumentationScope;
  rs_log : LogRecordMessage;
}.

Definition resolve (now : Z) (record : LjLogRecord) : result LjError Resolved :=
  let? (resource_key, resource_attrs) := resolve_resource record in
  let? (scope_key, scope) := resolve_scope record in
  let? log := record_to_log now record in
  Ok (mkResolved resource_key resource_attrs scope_key scope log).

Definition ScopeGroup : Type := InstrumentationScope * list LogRecordMessage.
Definition ResourceGroup : Type := list KeyValue * list (ScopeKey * ScopeGroup).

Definition push_log (g : ScopeGroup) (r : Resolved) : ScopeGroup := (g.1, g.2 ++ [rs_log r]).
Definition push_scope (g : ResourceGroup) (r : Resolved) : ResourceGroup :=
  (g.1, upsert (λ r, (rs_scope r, [])) push_log (rs_scope_key r) r g.2).
Definition push_resolved (groups : list (ResourceKey * ResourceGroup)) (r : Resolved) : list (ResourceKey * ResourceGroup) :=
  upsert (λ r, (rs_resource_attrs r, [])) push_scope (rs_resource_key r) r groups.

Fixpoint batch_loop (records : list (Z * LjLogRecord)) (groups : list (ResourceKey * ResourceGroup))
    : result LjError (list (ResourceKey * ResourceGroup)) :=
  match records with
  | [] => Ok groups
  | (now, record) :: records => let? r := resolve now record in batch_loop records (push_resolved groups r)
  end.

Definition request_of (groups : list (ResourceKey * ResourceGroup)) : ExportLogsServiceRequest :=
  mkLogsRequest ((λ g : ResourceKey * ResourceGroup,
    resource_of g.2.1 ((λ s : ScopeKey * ScopeGroup, scope_of s.2.1 s.2.2) <$> g.2.2)) <$> groups).

Definition build_batch_request (records : list (Z * LjLogRecord)) : result LjError ExportLogsServiceRequest :=
  let? groups := batch_loop records [] in Ok (request_of groups).
End Request.

(** ** Grouping, as a definition

    The keys in the order of their first appearance, and for each the elements that have
    it. *)

Lemma omap_ext_in {A B} (f g : A → option B) (l : list A) : (∀ a, a ∈ l → f a = g a) → omap f l = omap g l.
Proof.
  induction l as [|a l IH]; intros H; [done|]. cbn. rewrite (H a) by left. rewrite (IH (λ b Hb, H b ltac:(by right))). done.
Qed.

Section Grouping.
Context {K X V : Type} `{EqDecision K} (key : X → K) (open_group : X → V) (add : V → X → V).

Fixpoint firsts (ks : list K) : list K :=
  match ks with
  | [] => []
  | k :: ks => k :: filter (λ k', k' ≠ k) (firsts ks)
  end.

Definition with_key (k : K) (xs : list X) : list X := filter (λ x, key x = k) xs.

Definition group_value (xs : list X) : option V :=
  match xs with [] => None | x :: _ => Some (foldl add (open_group x) xs) end.

Definition grouped (xs : list X) : list (K * V) :=
  omap (λ k, pair k <$> group_value (with_key k xs)) (firsts (key <$> xs)).

Lemma elem_of_firsts k ks : k ∈ firsts ks ↔ k ∈ ks.
Proof.
  induction ks as [|k' ks IH]; cbn [firsts]; [done|]. rewrite !elem_of_cons, list_elem_of_filter, IH.
  destruct (decide (k = k')); naive_solver.
Qed.

Lemma NoDup_firsts ks : NoDup (firsts ks).
Proof.
  induction ks as [|k ks IH]; cbn [firsts]; [constructor|]. apply list.NoDup_cons. split.
  - rewrite list_elem_of_filter. naive_solver.
  - by apply list.NoDup_filter.
Qed.

Lemma firsts_snoc ks k : firsts (ks ++ [k]) = if decide (k ∈ ks) then firsts ks else firsts ks ++ [k].
Proof.
  induction ks as [|k' ks IH]; cbn [firsts app].
  { rewrite decide_False by set_solver. done. }
  rewrite IH. destruct (decide (k ∈ ks)) as [Hk|Hk].
  - by rewrite decide_True by (by right).
  - rewrite list.filter_app, filter_cons, filter_nil. destruct (decide (k = k')) as [->|Hne].
    + rewrite decide_False by naive_solver. rewrite decide_True by left. by rewrite app_nil_r.
    + rewrite decide_True by done. rewrite decide_False; [done|]. rewrite elem_of_cons. naive_solver.
Qed.

(** [upsert] on a list of groups that [f] describes. *)
Definition groups_of (f : K → option V) (ks : list K) : list (K * V) := omap (λ k, pair k <$> f k) ks.

Lemma groups_of_ext f g ks : (∀ k, k ∈ ks → f k = g k) → groups_of f ks = groups_of g ks.
Proof. intros H. apply omap_ext_in. intros k Hk. by rewrite H. Qed.

Lemma upsert_new (k : K) x f ks :
  k ∉ ks → upsert open_group add k x (groups_of f ks) = groups_of f ks ++ [(k, add (open_group x) x)].
Proof.
  unfold groups_of. induction ks as [|k' ks IH]; intros Hn; [done|]. apply not_elem_of_cons in Hn as [Hne Hn]. cbn.
  destruct (f k') as [v|]; cbn; [|by apply IH]. rewrite decide_False by done. f_equal. by apply IH.
Qed.

Lemma upsert_old (k : K) x f ks v :
  NoDup ks → k ∈ ks → f k = Some v →
  upsert open_group add k x (groups_of f ks) = groups_of (λ k', if decide (k' = k) then Some (add v x) else f k') ks.
Proof.
  unfold groups_of. induction ks as [|k' ks IH]; intros Hn Hin Hv; [set_solver|]. apply list.NoDup_cons in Hn as [Hk Hn]. cbn.
  destruct (decide (k' = k)) as [->|Hne].
  - rewrite Hv. cbn. rewrite decide_True by done. f_equal. apply groups_of_ext. intros k' Hk'.
    rewrite decide_False; [done|]. by intros ->.
  - apply elem_of_cons in Hin as [->|Hin]; [done|]. destruct (f k') as [v'|]; cbn; [|by apply IH].
    rewrite decide_False by congruence. f_equal. by apply IH.
Qed.

Lemma with_key_snoc k xs x : with_key k (xs ++ [x]) = with_key k xs ++ (if decide (key x = k) then [x] else []).
Proof. unfold with_key. rewrite list.filter_app, filter_cons, filter_nil. done. Qed.

Lemma grouped_snoc xs x : grouped (xs ++ [x]) = upsert open_group add (key x) x (grouped xs).
Proof.
  unfold grouped. rewrite fmap_app. cbn [fmap list_fmap]. rewrite firsts_snoc.
  fold (groups_of (λ k, group_value (with_key k xs)) (firsts (key <$> xs))).
  destruct (decide (key x ∈ key <$> xs)) as [Hin|Hn].
  - fold (groups_of (λ k, group_value (with_key k (xs ++ [x]))) (firsts (key <$> xs))).
    assert (∃ v, group_value (with_key (key x) xs) = Some v ∧ group_value (with_key (key x) (xs ++ [x])) = Some (add v x)) as (v & Hv & Hv').
    { rewrite with_key_snoc, decide_True by done. apply list_elem_of_fmap in Hin as (y & Ey & Hy).
      destruct (with_key (key x) xs) as [|z zs] eqn:E.
      - exfalso. apply (not_elem_of_nil y). rewrite <- E. unfold with_key. by apply list_elem_of_filter.
      - eexists. split; [done|]. cbn [group_value app]. by rewrite <- foldl_snoc. }
    rewrite (upsert_old _ _ _ _ v (NoDup_firsts _)) by (try done; by apply elem_of_firsts).
    apply groups_of_ext. intros k Hk. destruct (decide (k = key x)) as [->|Hne]; [done|].
    rewrite with_key_snoc, decide_False by congruence. by rewrite app_nil_r.
  - rewrite upsert_new by by rewrite elem_of_firsts. rewrite omap_app. f_equal.
    + apply groups_of_ext. intros k Hk. rewrite elem_of_firsts in Hk.
      rewrite with_key_snoc, decide_False by (intros <-; done). by rewrite app_nil_r.
    + cbn. rewrite with_key_snoc, decide_True by done.
      destruct (with_key (key x) xs) as [|y ys] eqn:E; [done|]. exfalso. apply Hn.
      assert (y ∈ with_key (key x) xs) as [Ey Hy]%list_elem_of_filter by (rewrite E; left).
      rewrite <- Ey. by apply list_elem_of_fmap_2.
Qed.

Lemma grouped_foldl xs : foldl (λ gs x, upsert open_group add (key x) x gs) [] xs = grouped xs.
Proof. induction xs as [|x xs IH] using rev_ind; [done|]. by rewrite foldl_snoc, IH, grouped_snoc. Qed.
End Grouping.

(** ** What a batch carries *)

Section Batch.
Context {OP : OtlpParts} {AV : ArrayValues} (service : text).

(** The request that a list of resolved records should give. *)
Definition scope_reference (rs : list Resolved) (k : ScopeKey) : option ScopeLogs :=
  let rs := with_key rs_scope_key k rs in
  r ← list.head rs; Some (scope_of (rs_scope r) (rs_log <$> rs)).
Definition resource_reference (rs : list Resolved) (k : ResourceKey) : option ResourceLogs :=
  let rs := with_key rs_resource_key k rs in
  r ← list.head rs; Some (resource_of (rs_resource_attrs r) (omap (scope_reference rs) (firsts (rs_scope_key <$> rs)))).
Definition batch_reference (rs : list Resolved) : ExportLogsServiceRequest :=
  mkLogsRequest (omap (resource_reference rs) (firsts (rs_resource_key <$> rs))).

Lemma batch_loop_collect records groups :
  batch_loop service records groups =
    let? rs := collect_results (λ x, resolve service x.1 x.2) records in Ok (foldl push_resolved groups rs).
Proof.
  revert groups. induction records as [|[now record] records IH]; intros groups; [done|]. cbn.
  destruct (resolve service now record) as [r|e]; [|done]. rewrite IH. by destruct (collect_results _ records).
Qed.

Lemma push_log_foldl s logs rs : foldl push_log (s, logs) rs = (s, logs ++ (rs_log <$> rs)).
Proof.
  revert logs. induction rs as [|r rs IH]; intros logs; [by rewrite app_nil_r|].
  change (foldl push_log (s, logs ++ [rs_log r]) rs = (s, logs ++ (rs_log <$> r :: rs))). rewrite IH, <- app_assoc. done.
Qed.

Lemma push_scope_foldl attrs gs rs :
  foldl push_scope (attrs, gs) rs =
    (attrs, foldl (λ gs r, upsert (λ r, (rs_scope r, [])) push_log (rs_scope_key r) r gs) gs rs).
Proof. revert gs. induction rs as [|r rs IH]; intros gs; cbn; [done|]. apply IH. Qed.

Lemma scopes_reference rs :
  (λ s : ScopeKey * ScopeGroup, scope_of s.2.1 s.2.2) <$> grouped rs_scope_key (λ r, (rs_scope r, [])) push_log rs =
    omap (scope_reference rs) (firsts (rs_scope_key <$> rs)).
Proof.
  unfold grouped. rewrite list_fmap_omap. apply omap_ext_in. intros k _. unfold scope_reference, group_value.
  destruct (with_key rs_scope_key k rs) as [|r rs'] eqn:E; [done|]. cbn [list.head mbind option_bind fmap option_fmap option_map].
  rewrite push_log_foldl. done.
Qed.

Lemma batch_groups rs : request_of (foldl push_resolved [] rs) = batch_reference rs.
Proof.
  unfold push_resolved. rewrite (grouped_foldl rs_resource_key). unfold request_of, batch_reference, grouped. f_equal.
  rewrite list_fmap_omap. apply omap_ext_in. intros k _. unfold resource_reference, group_value.
  destruct (with_key rs_resource_key k rs) as [|r rs'] eqn:E; [done|]. cbn [list.head mbind option_bind fmap option_fmap option_map].
  rewrite push_scope_foldl, (grouped_foldl rs_scope_key). cbn [fst snd]. by rewrite scopes_reference.
Qed.

Lemma with_key_single {K X} `{EqDecision K} (key : X → K) x : with_key key (key x) [x] = [x].
Proof. unfold with_key. by rewrite filter_cons, filter_nil, decide_True. Qed.

Lemma batch_reference_single r :
  batch_reference [r] = mkLogsRequest [resource_of (rs_resource_attrs r) [scope_of (rs_scope r) [rs_log r]]].
Proof.
  unfold batch_reference. cbn [fmap list_fmap firsts omap list_omap filter list_filter]. unfold resource_reference.
  rewrite with_key_single. cbn [list.head mbind option_bind fmap list_fmap firsts omap list_omap filter list_filter].
  unfold scope_reference. by rewrite with_key_single.
Qed.

Lemma resolve_build now record :
  build_request service now record =
    let? r := resolve service now record in Ok (batch_reference [r]).
Proof.
  unfold build_request, resolve. destruct (resolve_resource service record) as [[rk attrs]|]; [|done].
  destruct (resolve_scope record) as [[sk scope]|]; [|done]. destruct (record_to_log now record) as [log|]; [|done].
  cbn -[batch_reference]. by rewrite batch_reference_single.
Qed.

(** Cutting a list into the elements of its keys, in any order of the keys, only
    reorders it. *)
Lemma with_key_permutation {K X} `{EqDecision K} (key : X → K) xs ks :
  NoDup ks → (∀ x, x ∈ xs → key x ∈ ks) → concat ((λ k, with_key key k xs) <$> ks) ≡ₚ xs.
Proof.
  revert ks. induction xs as [|x xs IH]; intros ks Hn Hk.
  { clear Hk Hn. by induction ks as [|k ks IHk]. }
  assert (key x ∈ ks) as Hin by (apply Hk; left).
  apply list_elem_of_split in Hin as (l1 & l2 & ->). transitivity (x :: concat ((λ k, with_key key k xs) <$> l1 ++ key x :: l2)).
  2:{ constructor. apply IH; [done|]. intros; apply Hk; by right. }
  apply list.NoDup_app in Hn as (Hn1 & Hd & Hn2). apply list.NoDup_cons in Hn2 as [Hnx Hn2].
  rewrite !fmap_app, !fmap_cons, !concat_app. cbn [concat]. unfold with_key at 2. rewrite filter_cons, decide_True by done.
  assert (∀ l : list K, key x ∉ l → (λ k, with_key key k (x :: xs)) <$> l = (λ k, with_key key k xs) <$> l) as Hsame.
  { intros l Hl. apply list_fmap_ext. intros i k Hi. unfold with_key. rewrite filter_cons, decide_False; [done|].
    intros <-. by apply Hl, (list_elem_of_lookup_2 _ i). }
  rewrite !Hsame by (try done; intros Hx; apply (Hd _ Hx); left). cbn [app]. by rewrite <- Permutation_middle.
Qed.

(** Records with the same key resolve to the same resource and scope. *)
Lemma resolve_key now record now' record' r r' :
  resolve service now record = Ok r → resolve service now' record' = Ok r' →
  (rs_resource_key r = rs_resource_key r' → rs_resource_attrs r = rs_resource_attrs r') ∧
  (rs_scope_key r = rs_scope_key r' → rs_scope r = rs_scope r').
Proof.
  assert (∀ now record r, resolve service now record = Ok r →
    ∃ kvs, triples_to_kvs (rs_resource_key r).2 = Ok kvs ∧
      rs_resource_attrs r = (if existsb (λ t : AttrTriple, bool_decide (t.1.1 = str "service.name")) (rs_resource_key r).2 then kvs
        else key_value (str "service.name") (string_value (rs_resource_key r).1) :: kvs) ∧
    ∃ skvs, triples_to_kvs (rs_scope_key r).2 = Ok skvs ∧
      rs_scope r = mkInstrumentationScope (rs_scope_key r).1 [] skvs 0) as H.
  { clear. intros now record r. unfold resolve, resolve_resource, resolve_scope.
    destruct (read_optional (lj_service_name record)); [|done]. cbn. case_bool_decide; [done|].
    destruct (read_attrs (lj_resource_attrs record)) as [ts|]; [|done]. cbn. destruct (triples_to_kvs ts) as [kvs|] eqn:E1; [|done].
    cbn. destruct (read_optional (lj_scope_name record)); [|done]. cbn.
    destruct (read_attrs (lj_scope_attrs record)) as [ss|]; [|done]. cbn. destruct (triples_to_kvs ss) as [skvs|] eqn:E2; [|done].
    cbn. destruct (record_to_log now record); [|done]. cbn. intros [= <-]. cbn. exists kvs. split_and!; try done. by exists skvs. }
  intros (kvs & E1 & E2 & skvs & E3 & E4)%H (kvs' & E1' & E2' & skvs' & E3' & E4')%H. split; intros E.
  - rewrite E in E1, E2. rewrite E1 in E1'. injection E1' as <-. by rewrite E2, E2'.
  - rewrite E in E3, E4. rewrite E3 in E3'. injection E3' as <-. by rewrite E4, E4'.
Qed.

Definition coherent (rs : list Resolved) : Prop :=
  ∀ r r', r ∈ rs → r' ∈ rs →
    (rs_resource_key r = rs_resource_key r' → rs_resource_attrs r = rs_resource_attrs r') ∧
    (rs_scope_key r = rs_scope_key r' → rs_scope r = rs_scope r').

(** A log record with the resource and the scope it is sent under. *)
Definition sent_under (r : Resolved) : option ResourceMessage * option InstrumentationScope * LogRecordMessage :=
  (Some (mkResource (rs_resource_attrs r) 0 []), Some (rs_scope r), rs_log r).

Lemma concat_omap {A B C} (f : B → list C) (g : A → option B) (l : list A) :
  concat (f <$> omap g l) = concat ((λ a, from_option f [] (g a)) <$> l).
Proof. induction l as [|a l IH]; [done|]. cbn. destruct (g a); cbn; by rewrite <- IH. Qed.

Lemma concat_fmap_fmap {A B C} (f : B → C) (g : A → list B) (l : list A) :
  concat ((λ a, f <$> g a) <$> l) = f <$> concat (g <$> l).
Proof. induction l as [|a l IH]; [done|]. cbn. by rewrite IH, fmap_app. Qed.

Lemma elem_of_with_key {K X} `{EqDecision K} (key : X → K) k x xs : x ∈ with_key key k xs ↔ key x = k ∧ x ∈ xs.
Proof. unfold with_key. by rewrite list_elem_of_filter. Qed.

Lemma flatten_scopes rs res :
  coherent rs →
  concat (flatten_scope res <$> omap (scope_reference rs) (firsts (rs_scope_key <$> rs))) ≡ₚ
    (λ r, (res, Some (rs_scope r), rs_log r)) <$> rs.
Proof.
  intros Hc. rewrite concat_omap.
  transitivity (concat ((λ k, (λ r, (res, Some (rs_scope r), rs_log r)) <$> with_key rs_scope_key k rs) <$> firsts (rs_scope_key <$> rs))).
  - apply reflexive_eq. f_equal. apply list_fmap_ext. intros i k _. unfold scope_reference.
    destruct (with_key rs_scope_key k rs) as [|r rs'] eqn:E; [done|]. cbn [list.head mbind option_bind from_option]. unfold flatten_scope, scope_of.
    cbn [sl_scope log_records]. rewrite <- list_fmap_compose, <- E. apply list_fmap_ext. intros j r' Hj. cbn.
    apply list_elem_of_lookup_2, elem_of_with_key in Hj as [Ek Hj].
    assert (r ∈ with_key rs_scope_key k rs) as [Ek' Hr]%elem_of_with_key by (rewrite E; left).
    rewrite (proj2 (Hc r r' Hr Hj)); congruence.
  - rewrite concat_fmap_fmap. f_equiv. apply with_key_permutation; [apply NoDup_firsts|].
    intros r Hr. apply elem_of_firsts. by apply list_elem_of_fmap_2.
Qed.

Lemma flatten_reference rs : coherent rs → flatten (resource_logs (batch_reference rs)) ≡ₚ sent_under <$> rs.
Proof.
  intros Hc. unfold flatten, batch_reference. cbn [resource_logs]. rewrite concat_omap.
  transitivity (concat ((λ k, sent_under <$> with_key rs_resource_key k rs) <$> firsts (rs_resource_key <$> rs))).
  - induction (firsts (rs_resource_key <$> rs)) as [|k ks IH]; [done|]. cbn [fmap list_fmap concat]. f_equiv; [|exact IH].
    unfold resource_reference. destruct (with_key rs_resource_key k rs) as [|r rs'] eqn:E; [done|].
    cbn [list.head mbind option_bind from_option]. unfold flatten_resource, resource_of. cbn [rl_resource scope_logs]. rewrite <- E.
    assert (∀ r', r' ∈ with_key rs_resource_key k rs → rs_resource_attrs r' = rs_resource_attrs r) as Ha.
    { intros r' [Ek Hr']%elem_of_with_key. assert (r ∈ with_key rs_resource_key k rs) as [Ek' Hr]%elem_of_with_key by (rewrite E; left).
      apply (Hc r' r Hr' Hr). congruence. }
    rewrite flatten_scopes.
    + apply reflexive_eq, list_fmap_ext. intros j r' Hj%list_elem_of_lookup_2. unfold sent_under. by rewrite (Ha r' Hj).
    + intros r1 r2 [_ H1]%elem_of_with_key [_ H2]%elem_of_with_key. by apply Hc.
  - rewrite concat_fmap_fmap. f_equiv. apply with_key_permutation; [apply NoDup_firsts|].
    intros r Hr. apply elem_of_firsts. by apply list_elem_of_fmap_2.
Qed.

Lemma collect_build records :
  collect_results (λ x, build_request service x.1 x.2) records =
    let? rs := collect_results (λ x, resolve service x.1 x.2) records in Ok ((λ r, batch_reference [r]) <$> rs).
Proof.
  induction records as [|x records IH]; [done|]. cbn. rewrite resolve_build, IH.
  destruct (resolve service x.1 x.2); [|done]. destruct (collect_results (λ x, resolve service x.1 x.2) records); reflexivity.
Qed.

Lemma collect_coherent records rs : collect_results (λ x, resolve service x.1 x.2) records = Ok rs → coherent rs.
Proof.
  intros Hc. assert (∀ r, r ∈ rs → ∃ now record, resolve service now record = Ok r) as H.
  { revert rs Hc. induction records as [|x records IH]; intros rs; cbn; [intros [= <-] r Hr; set_solver|].
    destruct (resolve service x.1 x.2) as [r|] eqn:E; [|done]. cbn. destruct (collect_results _ records) as [rs'|]; [|done].
    intros [= <-] r' [->|Hr]%elem_of_cons; eauto. }
  intros r r' (n & x & Hr)%H (n' & x' & Hr')%H. by eapply resolve_key.
Qed.

(** The request of a batch, by its groups. *)
Lemma build_batch_collect records :
  build_batch_request service records =
    let? rs := collect_results (λ x, resolve service x.1 x.2) records in Ok (batch_reference rs).
Proof.
  unfold build_batch_request. rewrite batch_loop_collect.
  destruct (collect_results _ records) as [rs|e]; [|done]. cbn -[batch_reference]. by rewrite batch_groups.
Qed.

Lemma flatten_singles rs :
  coherent rs → flatten (resource_logs (batch_reference rs)) ≡ₚ
    concat ((λ req, flatten (resource_logs req)) <$> ((λ r, batch_reference [r]) <$> rs)).
Proof.
  intros Hc. rewrite (flatten_reference rs Hc). clear Hc. induction rs as [|r rs IH]; [done|].
  cbn [fmap list_fmap concat]. by rewrite IH, batch_reference_single.
Qed.

(** What a request carries that was built from a batch. *)
Lemma build_batch_flat records req :
  build_batch_request service records = Ok req →
  ∃ reqs, collect_results (λ x, build_request service x.1 x.2) records = Ok reqs ∧
    flatten (resource_logs req) ≡ₚ concat ((λ req, flatten (resource_logs req)) <$> reqs).
Proof.
  rewrite build_batch_collect, collect_build. destruct (collect_results _ records) as [rs|] eqn:E; [|done].
  intros [= <-]. eexists. split; [done|]. by apply flatten_singles, (collect_coherent records).
Qed.

Lemma build_batch_ok records reqs :
  collect_results (λ x, build_request service x.1 x.2) records = Ok reqs → ∃ req, build_batch_request service records = Ok req.
Proof.
  rewrite build_batch_collect, collect_build. destruct (collect_results _ records) as [rs|]; [|done]. intros _. by eexists.
Qed.

(** C28: batches.  A batch fails with the first error its records have, and otherwise is one
    request with the log records, resources and scopes of the requests that the records
    would give one by one; there is one group for each service name and resource
    attributes, in the order of their first record, in it one for each scope, and in each
    the log records are in the order of the call. *)
Theorem batch_request_carries_records records :
  match collect_results (λ x, build_request service x.1 x.2) records with
  | Err e => build_batch_request service records = Err e
  | Ok reqs => ∃ rs, collect_results (λ x, resolve service x.1 x.2) records = Ok rs ∧
      build_batch_request service records = Ok (batch_reference rs) ∧
      flatten (resource_logs (batch_reference rs)) ≡ₚ concat ((λ req, flatten (resource_logs req)) <$> reqs)
  end.
Proof.
  rewrite collect_build, build_batch_collect. destruct (collect_results _ records) as [rs|e] eqn:E; [|done].
  exists rs. split_and!; [done..|]. by apply flatten_singles, (collect_coherent records).
Qed.
End Batch.
