(* ===== verification/LibEngine.v ===== *)
(** * The asynchronous engine of the C library

    [AsyncEngine] of [liblogjet/src/lib.rs] with [enqueue_async], [spawn_task],
    [flush_engine] and [lj_logger_set_backpressure]: any number of threads call the
    library while tasks of the runtime send.  Every atomic operation is a step; what the
    network answers and when a deadline passes is open.  The counters are 64-bit, and a
    run that overflows them is too long to exist. *)

From stdpp Require Import relations.
From S2P Require Import Prelude LibRequest.

Inductive BackpressureModel : Type := Unbounded | DropModel | BlockModel.
Definition model_of_i32 (model : Z) : option BackpressureModel :=
  if model =? 0 then Some Unbounded else if model =? 1 then Some DropModel else if model =? 2 then Some BlockModel else None.
Definition DEFAULT_BACKPRESSURE_CAPACITY : Z := 1024.

(** A permit names the semaphore it belongs to; an unbounded send has none. *)
Definition Permit : Type := option nat.

(** A task of [spawn_task]: sending, then with its result counted, then with [inflight]
    given back, then with the permit dropped at the end of the block. *)
Inductive Task : Type :=
| TaskSending (p : Permit)
| TaskAnswered (p : Permit) (ok : bool)
| TaskLeaving (p : Permit) (ok : bool)
| TaskGone (ok : bool).

(** A thread in [enqueue_async]: before the lock, with the policy it read, with a permit,
    with [inflight] taken, and with the task spawned, or the send dropped. *)
Inductive Caller : Type :=
| CallerStart
| CallerPolicy (model : BackpressureModel) (semaphore : nat)
| CallerPermit (p : Permit)
| CallerCounted (p : Permit)
| CallerSpawned
| CallerDropped.

(** A thread in [flush_engine]: before the first load, after it, with the [notified]
    future, waiting for it, and back with the result.  The flag says whether it was
    notified. *)
Inductive Flusher : Type :=
| FlushStart
| FlushLoaded
| FlushRegistered (notified : bool)
| FlushWaiting (notified : bool)
| FlushReturned (drained : bool).

Record Engine : Type := mkEngine {
  eg_model : BackpressureModel;
  eg_semaphore : nat;
  eg_available : list Z;
  eg_inflight : Z;
  eg_errors : Z;
  eg_dropped : Z;
  eg_tasks : list Task;
  eg_callers : list Caller;
  eg_flushers : list Flusher;
}.

(** [AsyncEngine::new], with the threads that will use it. *)
Definition AsyncEngine_new (callers flushers : nat) : Engine :=
  mkEngine DropModel 0 [DEFAULT_BACKPRESSURE_CAPACITY] 0 0 0 [] (replicate callers CallerStart) (replicate flushers FlushStart).

Definition set_caller (i : nat) (c : Caller) (e : Engine) : Engine :=
  mkEngine (eg_model e) (eg_semaphore e) (eg_available e) (eg_inflight e) (eg_errors e) (eg_dropped e)
    (eg_tasks e) (<[i := c]> (eg_callers e)) (eg_flushers e).
Definition set_flusher (i : nat) (f : Flusher) (e : Engine) : Engine :=
  mkEngine (eg_model e) (eg_semaphore e) (eg_available e) (eg_inflight e) (eg_errors e) (eg_dropped e)
    (eg_tasks e) (eg_callers e) (<[i := f]> (eg_flushers e)).
Definition set_task (i : nat) (t : Task) (e : Engine) : Engine :=
  mkEngine (eg_model e) (eg_semaphore e) (eg_available e) (eg_inflight e) (eg_errors e) (eg_dropped e)
    (<[i := t]> (eg_tasks e)) (eg_callers e) (eg_flushers e).
Definition set_available (available : list Z) (e : Engine) : Engine :=
  mkEngine (eg_model e) (eg_semaphore e) available (eg_inflight e) (eg_errors e) (eg_dropped e)
    (eg_tasks e) (eg_callers e) (eg_flushers e).
Definition set_inflight (n : Z) (e : Engine) : Engine :=
  mkEngine (eg_model e) (eg_semaphore e) (eg_available e) n (eg_errors e) (eg_dropped e)
    (eg_tasks e) (eg_callers e) (eg_flushers e).
Definition add_error (e : Engine) : Engine :=
  mkEngine (eg_model e) (eg_semaphore e) (eg_available e) (eg_inflight e) (eg_errors e + 1) (eg_dropped e)
    (eg_tasks e) (eg_callers e) (eg_flushers e).
Definition add_dropped (e : Engine) : Engine :=
  mkEngine (eg_model e) (eg_semaphore e) (eg_available e) (eg_inflight e) (eg_errors e) (eg_dropped e + 1)
    (eg_tasks e) (eg_callers e) (eg_flushers e).
Definition add_task (t : Task) (e : Engine) : Engine :=
  mkEngine (eg_model e) (eg_semaphore e) (eg_available e) (eg_inflight e) (eg_errors e) (eg_dropped e)
    (eg_tasks e ++ [t]) (eg_callers e) (eg_flushers e).
Definition set_flushers (fs : list Flusher) (e : Engine) : Engine :=
  mkEngine (eg_model e) (eg_semaphore e) (eg_available e) (eg_inflight e) (eg_errors e) (eg_dropped e)
    (eg_tasks e) (eg_callers e) fs.

(** [lj_logger_set_backpressure]: a new semaphore; permits of the old one stay with it. *)
Definition set_backpressure (model capacity : Z) (e : Engine) : result LjError Engine :=
  match model_of_i32 model with
  | None => Err InvalidModel
  | Some m =>
      let put c := Ok (mkEngine m (length (eg_available e)) (eg_available e ++ [c]) (eg_inflight e) (eg_errors e) (eg_dropped e)
                         (eg_tasks e) (eg_callers e) (eg_flushers e)) in
      match m with
      | Unbounded => put 1
      | _ => if capacity =? 0 then Err CapacityZero else put capacity
      end
  end.

(** [try_acquire_owned] *)
Definition try_acquire (s : nat) (e : Engine) : option Engine :=
  match eg_available e !! s with
  | Some n => if 0 <? n then Some (set_available (<[s := n - 1]> (eg_available e)) e) else None
  | None => None
  end.

(** A step of [enqueue_async]; [None] is a caller that waits for a permit, or is done. *)
Definition caller_step (i : nat) (e : Engine) : option Engine :=
  match eg_callers e !! i with
  | Some CallerStart => Some (set_caller i (CallerPolicy (eg_model e) (eg_semaphore e)) e)
  | Some (CallerPolicy Unbounded _) => Some (set_caller i (CallerPermit None) e)
  | Some (CallerPolicy DropModel s) =>
      match try_acquire s e with
      | Some e => Some (set_caller i (CallerPermit (Some s)) e)
      | None => Some (set_caller i CallerDropped (add_dropped e))
      end
  | Some (CallerPolicy BlockModel s) => e ← try_acquire s e; Some (set_caller i (CallerPermit (Some s)) e)
  | Some (CallerPermit p) => Some (set_caller i (CallerCounted p) (set_inflight (eg_inflight e + 1) e))
  | Some (CallerCounted p) => Some (set_caller i CallerSpawned (add_task (TaskSending p) e))
  | _ => None
  end.

(** [notify_waiters]: every future that exists is woken. *)
Definition notify (f : Flusher) : Flusher :=
  match f with
  | FlushRegistered _ => FlushRegistered true
  | FlushWaiting _ => FlushWaiting true
  | f => f
  end.

(** Dropping a permit *)
Definition release (p : Permit) (e : Engine) : Engine :=
  match p with
  | None => e
  | Some s => set_available (alter (λ n, n + 1) s (eg_available e)) e
  end.

(** A step of a task; [ok] is the answer of the network. *)
Definition task_step (i : nat) (ok : bool) (e : Engine) : option Engine :=
  match eg_tasks e !! i with
  | Some (TaskSending p) => Some (set_task i (TaskAnswered p ok) (if ok then e else add_error e))
  | Some (TaskAnswered p r) =>
      let before := eg_inflight e in
      let e := set_task i (TaskLeaving p r) (set_inflight (before - 1) e) in
      Some (if before =? 1 then set_flushers (notify <$> eg_flushers e) e else e)
  | Some (TaskLeaving p r) => Some (set_task i (TaskGone r) (release p e))
  | _ => None
  end.

(** A step of [flush_engine]; [late] says that the deadline has passed. *)
Definition flush_step (i : nat) (late : bool) (e : Engine) : option Engine :=
  let idle := eg_inflight e =? 0 in
  match eg_flushers e !! i with
  | Some FlushStart => Some (set_flusher i (if idle then FlushReturned true else FlushLoaded) e)
  | Some FlushLoaded => Some (set_flusher i (FlushRegistered false) e)
  | Some (FlushRegistered n) =>
      Some (set_flusher i (if idle then FlushReturned true else if late then FlushReturned false else FlushWaiting n) e)
  | Some (FlushWaiting true) => Some (set_flusher i FlushStart e)
  | Some (FlushWaiting false) => if late then Some (set_flusher i (FlushReturned idle) e) else None
  | _ => None
  end.

Inductive thread_step : Engine → Engine → Prop :=
| step_caller i e e' : caller_step i e = Some e' → thread_step e e'
| step_task i ok e e' : task_step i ok e = Some e' → thread_step e e'
| step_flush i late e e' : flush_step i late e = Some e' → thread_step e e'.

(** Runs, with the capacities that the semaphores were created with. *)
Inductive reaches (callers flushers : nat) : list Z → Engine → Prop :=
| reaches_new : reaches callers flushers [DEFAULT_BACKPRESSURE_CAPACITY] (AsyncEngine_new callers flushers)
| reaches_step caps e e' : reaches callers flushers caps e → thread_step e e' → reaches callers flushers caps e'
| reaches_backpressure caps model capacity e e' :
    reaches callers flushers caps e → 0 ≤ capacity → set_backpressure model capacity e = Ok e' →
    reaches callers flushers (caps ++ [if model =? 0 then 1 else capacity]) e'.

(** ** What the counters count *)

Definition unit_if (b : bool) : nat := if b then 1 else 0.

Definition task_inflight (t : Task) : nat := match t with TaskSending _ | TaskAnswered _ _ => 1 | _ => 0 end.
Definition caller_inflight (c : Caller) : nat := match c with CallerCounted _ => 1 | _ => 0 end.
Definition task_failed (t : Task) : nat :=
  match t with TaskSending _ => 0 | TaskAnswered _ ok | TaskLeaving _ ok | TaskGone ok => unit_if (negb ok) end.
Definition caller_spawned (c : Caller) : nat := match c with CallerSpawned => 1 | _ => 0 end.
Definition caller_dropped (c : Caller) : nat := match c with CallerDropped => 1 | _ => 0 end.

Definition permit_of (s : nat) (p : Permit) : nat := unit_if (bool_decide (p = Some s)).
Definition task_holds (s : nat) (t : Task) : nat :=
  match t with TaskSending p | TaskAnswered p _ | TaskLeaving p _ => permit_of s p | TaskGone _ => 0 end.
Definition caller_holds (s : nat) (c : Caller) : nat :=
  match c with CallerPermit p | CallerCounted p => permit_of s p | _ => 0 end.
Definition in_use (s : nat) (e : Engine) : nat :=
  sum_list_with (task_holds s) (eg_tasks e) + sum_list_with (caller_holds s) (eg_callers e).

(** The permits of every semaphore that was created are free or in use, and there are
    none of others. *)
Definition permits_inv (caps : list Z) (e : Engine) : Prop :=
  Forall2 (λ a c, 0 ≤ a ∧ 0 ≤ c) (eg_available e) caps ∧
  (∀ s a c, eg_available e !! s = Some a → caps !! s = Some c → a + Z.of_nat (in_use s e) = c) ∧
  ∀ s, (length (eg_available e) ≤ s)%nat → in_use s e = 0%nat.

Record engine_inv (caps : list Z) (e : Engine) : Prop := {
  ei_inflight : eg_inflight e =
    Z.of_nat (sum_list_with task_inflight (eg_tasks e) + sum_list_with caller_inflight (eg_callers e));
  ei_errors : eg_errors e = Z.of_nat (sum_list_with task_failed (eg_tasks e));
  ei_dropped : eg_dropped e = Z.of_nat (sum_list_with caller_dropped (eg_callers e));
  ei_tasks : length (eg_tasks e) = sum_list_with caller_spawned (eg_callers e);
  ei_permits : permits_inv caps e;
  ei_waiting : FlushWaiting false ∈ eg_flushers e → 0 < eg_inflight e;
}.

Lemma sum_replicate {A} (f : A → nat) n x : f x = 0%nat → sum_list_with f (replicate n x) = 0%nat.
Proof. intros H. induction n as [|n IH]; [done|]. cbn. by rewrite H, IH. Qed.

Lemma engine_inv_new callers flushers : engine_inv [DEFAULT_BACKPRESSURE_CAPACITY] (AsyncEngine_new callers flushers).
Proof.
  assert (∀ s, in_use s (AsyncEngine_new callers flushers) = 0%nat) as Hu.
  { intros s. unfold in_use. cbn. by rewrite sum_replicate. }
  split; cbn; rewrite ?sum_replicate by done; try done.
  - split_and!; [by repeat constructor| |done]. intros [|s] a c Ha Hc; [|done]. injection Ha as <-. injection Hc as <-. by rewrite Hu.
  - intros H. by apply elem_of_replicate in H as [H _].
Qed.

(** The permits of a semaphore, when a thread or task moves on. *)
Lemma in_use_caller s i c c' e :
  eg_callers e !! i = Some c → (in_use s (set_caller i c' e) + caller_holds s c = in_use s e + caller_holds s c')%nat.
Proof. intros H. unfold in_use. cbn. pose proof (sum_list_with_insert (caller_holds s) _ _ _ c' H). lia. Qed.
Lemma in_use_task s i t t' e :
  eg_tasks e !! i = Some t → (in_use s (set_task i t' e) + task_holds s t = in_use s e + task_holds s t')%nat.
Proof. intros H. unfold in_use. cbn. pose proof (sum_list_with_insert (task_holds s) _ _ _ t' H). lia. Qed.

Lemma try_acquire_Some s e e' :
  try_acquire s e = Some e' → ∃ n, eg_available e !! s = Some n ∧ 0 < n ∧ e' = set_available (<[s := n - 1]> (eg_available e)) e.
Proof.
  unfold try_acquire. destruct (eg_available e !! s) as [n|]; [|done]. destruct (Z.ltb_spec 0 n); [|done]. intros [= <-]. by exists n.
Qed.

(** A thread that moves on without taking or giving a permit keeps the books. *)
Lemma permits_same caps e e' :
  permits_inv caps e → eg_available e' = eg_available e → (∀ s, in_use s e' = in_use s e) → permits_inv caps e'.
Proof.
  intros (H1 & H2 & H3) Ea Hu. unfold permits_inv. rewrite Ea. split_and!; [done|..].
  - intros s a c Ha Hc. rewrite Hu. eauto.
  - intros s Hs. rewrite Hu. eauto.
Qed.

(** A permit is taken from the semaphore, or given back to it. *)
Lemma permits_change caps e e' s n d :
  permits_inv caps e → eg_available e !! s = Some n → 0 ≤ n + d →
  eg_available e' = <[s := n + d]> (eg_available e) →
  (∀ s', Z.of_nat (in_use s' e') = Z.of_nat (in_use s' e) - (if decide (s' = s) then d else 0)) → permits_inv caps e'.
Proof.
  intros (H1 & H2 & H3) Hn Hd Ea Hu. pose proof (lookup_lt_Some _ _ _ Hn) as Hlt.
  destruct (Forall2_lookup_l _ _ _ _ _ H1 Hn) as (c0 & Hc0 & Hb0). unfold permits_inv. rewrite Ea, length_insert. split_and!.
  - rewrite <- (list_insert_id caps s c0 Hc0). apply Forall2_insert; [done|]. cbn in Hb0. lia.
  - intros s' a c Ha Hc. specialize (Hu s'). destruct (decide (s' = s)) as [->|Hne].
    + rewrite list_lookup_insert_eq in Ha by done. injection Ha as <-. specialize (H2 _ _ _ Hn Hc). lia.
    + rewrite list_lookup_insert_ne in Ha by done. specialize (H2 _ _ _ Ha Hc). lia.
  - intros s' Hs'. specialize (Hu s'). rewrite decide_False in Hu by lia. specialize (H3 s' Hs'). lia.
Qed.

(** *** Steps of the callers *)

(** The sums over the callers when the [i]-th goes on to [c']. *)
Ltac count_callers H c' :=
  pose proof (sum_list_with_insert caller_inflight _ _ _ c' H);
  pose proof (sum_list_with_insert caller_dropped _ _ _ c' H);
  pose proof (sum_list_with_insert caller_spawned _ _ _ c' H).
Ltac count_tasks H t' :=
  pose proof (sum_list_with_insert task_inflight _ _ _ t' H);
  pose proof (sum_list_with_insert task_failed _ _ _ t' H).

Lemma permit_of_eq s s' : permit_of s' (Some s) = if decide (s' = s) then 1%nat else 0%nat.
Proof. unfold permit_of. case_decide as E; [subst; by rewrite bool_decide_true|by rewrite bool_decide_false by congruence]. Qed.

Lemma acquired_inv caps i s m e e' :
  eg_callers e !! i = Some (CallerPolicy m s) → try_acquire s e = Some e' → engine_inv caps e →
  engine_inv caps (set_caller i (CallerPermit (Some s)) e').
Proof.
  intros Ec (n & Hn & Hpos & ->)%try_acquire_Some [H1 H2 H3 H4 H5 H6]. count_callers Ec (CallerPermit (Some s)).
  split; cbn in *; try lia; try done. eapply (permits_change caps e _ s n (-1)); [done..|lia|done|]. intros s'.
  pose proof (in_use_caller s' _ _ (CallerPermit (Some s)) _ Ec) as Hu. cbn [caller_holds] in Hu.
  rewrite permit_of_eq in Hu. unfold in_use in *. cbn in *. case_decide; lia.
Qed.

Lemma caller_step_inv caps i e e' : caller_step i e = Some e' → engine_inv caps e → engine_inv caps e'.
Proof.
  intros Hs Hi. pose proof Hi as [H1 H2 H3 H4 H5 H6]. unfold caller_step in Hs.
  destruct (eg_callers e !! i) as [c|] eqn:Ec; [|done].
  assert (∀ s c', in_use s (set_caller i c' e) + caller_holds s c = in_use s e + caller_holds s c')%nat as Hu
    by (intros s c'; by apply in_use_caller).
  destruct c as [|[] s|p|p| |]; try done.
  - injection Hs as <-. count_callers Ec (CallerPolicy (eg_model e) (eg_semaphore e)).
    split; cbn in *; try lia; try done. eapply permits_same; [exact H5|done|]. intros s.
    specialize (Hu s (CallerPolicy (eg_model e) (eg_semaphore e))). unfold in_use in *. cbn in *. lia.
  - injection Hs as <-. count_callers Ec (CallerPermit None).
    split; cbn in *; try lia; try done. eapply permits_same; [exact H5|done|]. intros s'.
    specialize (Hu s' (CallerPermit None)). change (caller_holds s' (CallerPermit None)) with 0%nat in Hu. unfold in_use in *. cbn in *. lia.
  - destruct (try_acquire s e) as [e1|] eqn:Ea; injection Hs as <-; [by eapply acquired_inv|].
    count_callers Ec CallerDropped. split; cbn in *; try lia; try done. eapply permits_same; [exact H5|done|].
    intros s'. specialize (Hu s' CallerDropped). cbn in *. unfold in_use in *. cbn in *. lia.
  - destruct (try_acquire s e) as [e1|] eqn:Ea; [|done]. injection Hs as <-. by eapply acquired_inv.
  - injection Hs as <-. count_callers Ec (CallerCounted p). split; cbn in *; try lia; try done.
    eapply permits_same; [exact H5|done|]. intros s'. specialize (Hu s' (CallerCounted p)). unfold in_use in *. cbn in *. lia.
  - injection Hs as <-. count_callers Ec CallerSpawned. split; cbn in *; rewrite ?sum_list_with_app, ?length_app; cbn; try lia; try done.
    eapply permits_same; [exact H5|done|]. intros s'. specialize (Hu s' CallerSpawned). unfold in_use in *. cbn in *.
    rewrite sum_list_with_app. cbn. lia.
Qed.

(** *** Steps of the tasks *)

Lemma elem_of_notify (fs : list Flusher) : FlushWaiting false ∉ notify <$> fs.
Proof. intros ([| | | |] & E & _)%list_elem_of_fmap; done. Qed.

Lemma task_step_inv caps i ok e e' : task_step i ok e = Some e' → engine_inv caps e → engine_inv caps e'.
Proof.
  intros Hs Hi. pose proof Hi as [H1 H2 H3 H4 H5 H6]. unfold task_step in Hs.
  destruct (eg_tasks e !! i) as [t|] eqn:Et; [|done].
  assert (∀ s t', in_use s (set_task i t' e) + task_holds s t = in_use s e + task_holds s t')%nat as Hu
    by (intros s t'; by apply in_use_task).
  destruct t as [p|p r|p r|r]; try done.
  - count_tasks Et (TaskAnswered p ok). injection Hs as <-.
    split; destruct ok; cbn in *; rewrite ?length_insert; try lia; try done; (eapply permits_same; [exact H5|done|]); intros s.
    + specialize (Hu s (TaskAnswered p true)). cbn in *. unfold in_use in *. cbn in *. lia.
    + specialize (Hu s (TaskAnswered p false)). cbn in *. unfold in_use in *. cbn in *. lia.
  - count_tasks Et (TaskLeaving p r). injection Hs as <-. 
    assert (∀ e1, eg_available e1 = eg_available e → eg_tasks e1 = <[i:=TaskLeaving p r]> (eg_tasks e) → eg_callers e1 = eg_callers e →
      permits_inv caps e1) as Hp.
    { intros e1 E1 E2 E3. eapply permits_same; [exact H5|done|]. intros s. specialize (Hu s (TaskLeaving p r)).
      unfold in_use in *. cbn in *. rewrite E2, E3. lia. }
    destruct (Z.eqb_spec (eg_inflight e) 1) as [E1|E1]; split; cbn in *; rewrite ?length_insert; try lia; try done; try by apply Hp.
    all: intros Hw; first [by apply elem_of_notify in Hw|specialize (H6 Hw); lia].
  - count_tasks Et (TaskGone r). injection Hs as <-.
    assert (permits_inv caps (set_task i (TaskGone r) (release p e))) as Hp.
    { destruct p as [s|]; [|eapply permits_same; [exact H5|done|]; intros s; specialize (Hu s (TaskGone r)); change (task_holds s (TaskLeaving None r)) with 0%nat in Hu; unfold in_use in *; cbn in *; lia].
      assert (∀ s', in_use s' (set_task i (TaskGone r) e) + (if decide (s' = s) then 1 else 0) = in_use s' e)%nat as Hu'.
      { intros s'. specialize (Hu s' (TaskGone r)). cbn [task_holds] in Hu. rewrite permit_of_eq in Hu. lia. }
      destruct (lookup_lt_is_Some_2 (eg_available e) s) as [n Hn].
      { destruct (decide (s < length (eg_available e))%nat) as [?|Hge]; [done|]. exfalso.
        destruct H5 as (_ & _ & H5). specialize (H5 s ltac:(lia)). specialize (Hu' s). rewrite decide_True in Hu' by done. lia. }
      assert (0 ≤ n) as Hn0 by (destruct H5 as (H5 & _); by destruct (Forall2_lookup_l _ _ _ _ _ H5 Hn) as (? & _ & ? & _)).
      eapply (permits_change caps e _ s n 1); [done|done|lia|..].
      - cbn. apply list_eq. intros j. destruct (decide (j = s)) as [->|Hj].
        + rewrite list_lookup_alter_eq, Hn, list_lookup_insert_eq by by eapply lookup_lt_Some. done.
        + by rewrite list_lookup_alter_ne, list_lookup_insert_ne.
      - intros s'. specialize (Hu' s'). unfold in_use in *. cbn in *. case_decide; lia. }
    destruct p; split; cbn in *; rewrite ?length_insert; try lia; done.
Qed.

(** *** Flushes and the policy *)

Lemma flush_step_inv caps i late e e' : flush_step i late e = Some e' → engine_inv caps e → engine_inv caps e'.
Proof.
  intros Hs [H1 H2 H3 H4 H5 H6]. unfold flush_step in Hs.
  assert (∀ f, (f = FlushWaiting false → 0 < eg_inflight e) → engine_inv caps (set_flusher i f e)) as Hset.
  { intros f Hf. split; try done. cbn. intros [E|H]%elem_of_insert_cases; [by apply Hf|by apply H6]. }
  assert (0 ≤ eg_inflight e) as Hge by lia.
  destruct (Z.eqb_spec (eg_inflight e) 0) as [E|E];
  destruct (eg_flushers e !! i) as [[| |n|[]|]|]; try done; try (destruct late; try done); injection Hs as <-;
    apply Hset; try done; intros; lia.
Qed.

Lemma backpressure_inv caps model capacity e e' :
  0 ≤ capacity → set_backpressure model capacity e = Ok e' → engine_inv caps e →
  engine_inv (caps ++ [if model =? 0 then 1 else capacity]) e'.
Proof.
  intros Hc Hs [H1 H2 H3 H4 H5 H6].
  assert (∀ m, engine_inv (caps ++ [if model =? 0 then 1 else capacity])
    (mkEngine m (length (eg_available e)) (eg_available e ++ [if model =? 0 then 1 else capacity]) (eg_inflight e)
      (eg_errors e) (eg_dropped e) (eg_tasks e) (eg_callers e) (eg_flushers e))) as Hput.
  { intros m. split; try done. destruct H5 as (P1 & P2 & P3). pose proof (Forall2_length P1) as Hl. split_and!; cbn.
    - apply Forall2_app; [done|]. constructor; [|constructor]. destruct (model =? 0); lia.
    - intros s a c [Ha|[Hs1 Ha]]%lookup_app_Some [Hb|[Hs2 Hb]]%lookup_app_Some.
      + by apply P2.
      + apply lookup_lt_Some in Ha. lia.
      + apply lookup_lt_Some in Hb. lia.
      + apply list_lookup_singleton_Some in Ha as [? <-]. apply list_lookup_singleton_Some in Hb as [? <-].
        specialize (P3 s Hs1). unfold in_use in *. cbn in *. lia.
    - intros s Hs'. rewrite length_app in Hs'. cbn in Hs'. apply P3. lia. }
  unfold set_backpressure, model_of_i32 in Hs. destruct (model =? 0) eqn:E0; [injection Hs as <-; apply Hput|].
  destruct (model =? 1); [|destruct (model =? 2); [|done]]; destruct (capacity =? 0); try done; injection Hs as <-; apply Hput.
Qed.

Lemma reaches_inv callers flushers caps e : reaches callers flushers caps e → engine_inv caps e.
Proof.
  induction 1 as [|caps e e' _ IH Hs|caps model capacity e e' _ IH Hc H].
  - apply engine_inv_new.
  - destruct Hs; [by eapply caller_step_inv|by eapply task_step_inv|by eapply flush_step_inv].
  - by eapply backpressure_inv.
Qed.

(** ** The promises of the engine *)

(** C30: asynchronous sends.  In every run, [inflight] is the number of sends that were
    accepted and have not been answered, [errors] the number of those that failed, and
    [dropped] the number of calls that were refused; every call that returned without
    being refused has its task; and no more permits of a semaphore are in use, by sends
    that have not ended, than the capacity it was set to. *)
Theorem engine_accounts callers flushers caps e :
  reaches callers flushers caps e →
  eg_inflight e = Z.of_nat (sum_list_with task_inflight (eg_tasks e) + sum_list_with caller_inflight (eg_callers e)) ∧
  eg_errors e = Z.of_nat (sum_list_with task_failed (eg_tasks e)) ∧
  eg_dropped e = Z.of_nat (sum_list_with caller_dropped (eg_callers e)) ∧
  length (eg_tasks e) = sum_list_with caller_spawned (eg_callers e) ∧
  ∀ s cap, caps !! s = Some cap → Z.of_nat (in_use s e) ≤ cap.
Proof.
  intros [H1 H2 H3 H4 (H5 & H6 & H7) H8]%reaches_inv. split_and!; try done. intros s cap Hs.
  destruct (Forall2_lookup_r _ _ _ _ _ H5 Hs) as (a & Ha & Hb). specialize (H6 s a cap Ha Hs). lia.
Qed.

Lemma sum_list_with_pos {A} (f : A → nat) l : (0 < sum_list_with f l)%nat → ∃ i x, l !! i = Some x ∧ (0 < f x)%nat.
Proof.
  induction l as [|x l IH]; cbn; [lia|]. intros H. destruct (decide (0 < f x)%nat) as [Hx|Hx]; [by exists 0%nat, x|].
  destruct IH as (i & y & Hi & Hy); [lia|]. by exists (S i), y.
Qed.

(** Draining.  A flush returns true only when nothing is in flight, and it never sleeps
    through the end of the last send: while it waits without having been notified, some
    send is in flight that has yet to give its place back, and that send or the thread
    that is about to spawn it can go on. *)
Theorem flush_waits_for_sends callers flushers caps e :
  reaches callers flushers caps e →
  (∀ i late e', flush_step i late e = Some e' → eg_flushers e' !! i = Some (FlushReturned true) → eg_inflight e = 0) ∧
  (FlushWaiting false ∈ eg_flushers e → 0 < eg_inflight e ∧
    ((∃ i p, eg_callers e !! i = Some (CallerCounted p)) ∨
     ∃ i t, eg_tasks e !! i = Some t ∧ task_inflight t = 1%nat ∧ ∀ ok, is_Some (task_step i ok e))).
Proof.
  intros Hi%reaches_inv. split.
  - intros i late e' Hs. unfold flush_step in Hs. destruct (eg_flushers e !! i) as [f|] eqn:Ef; [|done].
    pose proof (lookup_lt_Some _ _ _ Ef) as Hlt.
    destruct (Z.eqb_spec (eg_inflight e) 0) as [E|E]; [done|].
    destruct f as [| |n|[]|]; try done; try destruct late; try done; injection Hs as <-; cbn;
      rewrite list_lookup_insert_eq by done; done.
  - intros Hw. pose proof (ei_waiting _ _ Hi Hw) as Hpos. split; [done|]. rewrite (ei_inflight _ _ Hi) in Hpos.
    destruct (decide (0 < sum_list_with caller_inflight (eg_callers e))%nat) as [Hc|Hc].
    + left. destruct (sum_list_with_pos _ _ Hc) as (i & [] & H & ?); cbn in *; try lia. by eexists _, _.
    + right. destruct (sum_list_with_pos task_inflight (eg_tasks e)) as (i & t & H & Ht); [lia|].
      exists i, t. split_and!; [done|destruct t; cbn in *; lia|]. intros ok. unfold task_step. rewrite H.
      destruct t; cbn in *; try lia; by eexists.
Qed.

(** *** A run of two calls and a flush, with room for one send *)

Definition set_one (e : Engine) : Engine := match set_backpressure 1 1 e with Ok e => e | Err _ => e end.

Inductive Turn : Type := TurnCaller (i : nat) | TurnTask (i : nat) | TurnFlush (i : nat).
Definition turn_step (t : Turn) (e : Engine) : option Engine :=
  match t with
  | TurnCaller i => caller_step i e
  | TurnTask i => task_step i true e
  | TurnFlush i => flush_step i false e
  end.
Fixpoint run_turns (ts : list Turn) (e : Engine) : option Engine :=
  match ts with [] => Some e | t :: ts => turn_step t e ≫= run_turns ts end.

Lemma run_turns_reaches callers flushers caps ts e e' :
  reaches callers flushers caps e → run_turns ts e = Some e' → reaches callers flushers caps e'.
Proof.
  revert e. induction ts as [|t ts IH]; intros e Hr; cbn; [by intros [= <-]|].
  destruct (turn_step t e) as [e1|] eqn:E; [|done]. apply IH. eapply reaches_step; [exact Hr|].
  destruct t; [by eapply step_caller|by eapply step_task|by eapply step_flush].
Qed.

(** The first call sends, its task gives its place back, and the flush returns; then the
    second call. *)
Definition drained_turns : list Turn :=
  [TurnCaller 0; TurnCaller 0; TurnCaller 0; TurnCaller 0; TurnTask 0; TurnTask 0; TurnFlush 0; TurnCaller 1; TurnCaller 1]%nat.

Definition waiting_turns : list Turn := (take 4 drained_turns ++ [TurnFlush 0; TurnFlush 0; TurnFlush 0])%nat.

Lemma set_one_reaches : reaches 2 1 [DEFAULT_BACKPRESSURE_CAPACITY; 1] (set_one (AsyncEngine_new 2 1)).
Proof. apply (reaches_backpressure 2 1 [DEFAULT_BACKPRESSURE_CAPACITY] 1 1 (AsyncEngine_new 2 1)); [constructor|lia|reflexivity]. Qed.

Definition engine_after (ts : list Turn) : Engine :=
  default (AsyncEngine_new 2 1) (run_turns ts (set_one (AsyncEngine_new 2 1))).
Definition drained_engine : Engine := Eval vm_compute in engine_after drained_turns.
Definition waiting_engine : Engine := Eval vm_compute in engine_after waiting_turns.

Lemma drained_reached : reaches 2 1 [DEFAULT_BACKPRESSURE_CAPACITY; 1] drained_engine.
Proof. eapply (run_turns_reaches _ _ _ drained_turns); [apply set_one_reaches|]. by vm_compute. Qed.
Lemma waiting_reached : reaches 2 1 [DEFAULT_BACKPRESSURE_CAPACITY; 1] waiting_engine.
Proof. eapply (run_turns_reaches _ _ _ waiting_turns); [apply set_one_reaches|]. by vm_compute. Qed.

Lemma engine_accounts_witness : eg_dropped drained_engine = 1 ∧ Z.of_nat (in_use 1 drained_engine) ≤ 1.
Proof.
  destruct (engine_accounts 2 1 _ _ drained_reached) as (_ & _ & Hd & _ & Hu). split; [exact Hd|]. by apply (Hu 1%nat 1).
Defined.

Lemma flush_waits_for_sends_witness : FlushWaiting false ∈ eg_flushers waiting_engine ∧ 0 < eg_inflight waiting_engine.
Proof.
  split; [left|]. destruct (flush_waits_for_sends 2 1 _ _ waiting_reached) as [_ Hw]. apply Hw. left.
Defined.

(** A send is dropped although the flush before it returned true and nothing is in flight:
    the task gives its permit back only after it has left [inflight]. *)
Theorem drained_engine_drops :
  reaches 2 1 [DEFAULT_BACKPRESSURE_CAPACITY; 1] drained_engine ∧ eg_flushers drained_engine = [FlushReturned true] ∧
  eg_inflight drained_engine = 0 ∧ eg_callers drained_engine = [CallerSpawned; CallerDropped].
Proof. split; [apply drained_reached|done]. Qed.
