(* ===== verification/LibHttp.v ===== *)
(** * HTTP export of the C library

    [liblogjet/src/lib.rs]: endpoints, the exchange of a request and its response, the
    pool of connections that are kept alive, and the calls of the C interface with the
    thread's last error.  How connections behave is an argument: the [n]-th attempt to
    connect, what happens to bytes that are written, and what arrives in reply, up to the
    end of the stream or an error.  Memory for a response is taken to be available. *)

From S2P Require Import Prelude Text Tokens Format Otlp FlatRecord LibRequest.

(** ** Endpoints *)

Record HttpEndpoint : Type := mkHttpEndpoint { he_authority : text; he_host_header : text; he_path : text }.

Fixpoint trim_start_char (c : Z) (s : text) : text :=
  match s with b :: s' => if b =? c then trim_start_char c s' else s | [] => [] end.

Definition parse_http_endpoint (raw : text) : result LjError HttpEndpoint :=
  let raw := trim_text raw in
  match strip_prefix raw (str "https://") with
  | Some rest => Err (EndpointTls rest)
  | None =>
      let rest := default raw (strip_prefix raw (str "http://")) in
      let '(authority, path) :=
        match split_once 47 rest with
        | Some (host, tail) => (host, 47 :: trim_start_char 47 tail)
        | None => (rest, str "/v1/logs")
        end in
      if bool_decide (authority = []) then Err EndpointEmpty else Ok (mkHttpEndpoint authority authority path)
  end.

Definition normalise_grpc_endpoint (raw : text) : text :=
  let raw := trim_text raw in
  if contains_text raw (str "://") then raw else str "http://" ++ raw.

(** ** Requests and responses *)

Definition CRLF : text := [13; 10].
Definition http_header (endpoint : HttpEndpoint) (length : Z) (close : bool) : text :=
  str "POST " ++ he_path endpoint ++ str " HTTP/1.1" ++ CRLF ++
  str "Host: " ++ he_host_header endpoint ++ CRLF ++
  str "Content-Type: application/x-protobuf" ++ CRLF ++
  str "Content-Length: " ++ u64_to_string length ++ CRLF ++
  (if close then str "Connection: close" ++ CRLF else []) ++ CRLF.
Definition framed (endpoint : HttpEndpoint) (payload : list Z) (close : bool) : list Z :=
  http_header endpoint (len payload) close ++ payload.

(** What arrives on a connection: bytes, and how they end. *)
Definition Incoming : Type := list Z * option IoError.

(** A line with its newline, and what follows it. *)
Fixpoint take_line (s : list Z) : option (list Z * list Z) :=
  match s with
  | [] => None
  | b :: s => if b =? 10 then Some ([10], s) else
              match take_line s with Some (line, rest) => Some (b :: line, rest) | None => None end
  end.

Definition utf8_error : IoError := io_error InvalidData "stream did not contain valid UTF-8".
Definition eof_error : IoError := io_error UnexpectedEof "failed to fill whole buffer".

(** The loop of [read_http_response] over [read_line]. *)
Fixpoint read_head (fuel : nat) (input : list Z) (ending : option IoError) (head : text) : result IoError (text * list Z) :=
  match fuel with
  | O => Ok (head, input)
  | S fuel =>
      match take_line input with
      | Some (line, rest) =>
          if negb (utf8_valid line) then Err utf8_error else
          if bool_decide (line = CRLF) || bool_decide (line = [10]) then Ok (head, rest) else
          read_head fuel rest ending (head ++ line)
      | None =>
          match ending with
          | Some e => Err e
          | None => if negb (utf8_valid input) then Err utf8_error else Ok (head ++ input, [])
          end
      end
  end.

Definition status_accepted (codes : list string) (status_line : text) : bool :=
  existsb (λ code, contains_text status_line (str code)) codes.

(** The headers that matter: the last content length, and whether to close. *)
Fixpoint scan_headers (lines : list text) (content_length : option Z) (conn_close : bool) : option Z * bool :=
  match lines with
  | [] => (content_length, conn_close)
  | line :: lines =>
      match split_once 58 line with
      | None => scan_headers lines content_length conn_close
      | Some (key, value) =>
          let key := to_ascii_lowercase (trim_text key) in
          let value := trim_text value in
          if bool_decide (key = str "content-length") then
            scan_headers lines (match parse_u64 value with Ok n => Some n | Err _ => None end) conn_close
          else if bool_decide (key = str "connection") && bool_decide (to_ascii_lowercase value = str "close") then
            scan_headers lines content_length true
          else scan_headers lines content_length conn_close
      end
  end.

Definition read_http_response (incoming : Incoming) : result IoError (bool * bool) :=
  let '(input, ending) := incoming in
  let? (head, rest) := read_head (S (length input)) input ending [] in
  let status_ok := status_accepted [" 200 "; " 202 "; " 204 "] (default [] (list.head (lines head))) in
  let '(content_length, conn_close) := scan_headers (tail (lines head)) None false in
  match content_length with
  | Some n => if len rest <? n then Err (default eof_error ending) else Ok (status_ok, negb conn_close)
  | None => Ok (status_ok, false)
  end.

(** [windows(4).position(..)] *)
Fixpoint head_end (s : list Z) : option nat :=
  match s with
  | [] => None
  | b :: s' => if starts_with s (CRLF ++ CRLF) then Some 4%nat else match head_end s' with Some n => Some (S n) | None => None end
  end.

(** The answer to a request that asks for the connection to be closed. *)
Definition once_response (incoming : Incoming) : result IoError unit :=
  match incoming with
  | (_, Some e) => Err e
  | (response, None) =>
      let head := from_utf8_lossy (take (default (length response) (head_end response)) response) in
      let status := default [] (list.head (lines head)) in
      if status_accepted [" 200 "; " 202 "] status then Ok tt
      else Err (io_error OtherKind "HTTP export failed")
  end.

(** ** Connections *)

Definition MAX_HTTP_POOL : nat := 256.

(** Attempts to connect so far, the bytes written to each connection, and the idle
    connections, the one used last at the head. *)
Record HttpState : Type := mkHttpState {
  hs_attempts : nat;
  hs_written : list (list Z);
  hs_idle : list nat;
}.

Section Http.
Context (connect : nat → option IoError) (write : nat → list Z → list Z → nat * option IoError) (reply : nat → list Z → Incoming).

Local Abbreviation HM := (M HttpState IoError).

Definition http_connect : HM nat := λ s,
  match connect (hs_attempts s) with
  | Some e => (Err e, mkHttpState (S (hs_attempts s)) (hs_written s) (hs_idle s))
  | None => (Ok (length (hs_written s)), mkHttpState (S (hs_attempts s)) (hs_written s ++ [[]]) (hs_idle s))
  end.

(** [write_all]: when it fails, some of the bytes have been sent. *)
Definition write_all (conn : nat) (data : list Z) : HM unit := λ s,
  let before := default [] (hs_written s !! conn) in
  let put bs := mkHttpState (hs_attempts s) (<[conn := before ++ bs]> (hs_written s)) (hs_idle s) in
  match write conn before data with
  | (_, None) => (Ok tt, put data)
  | (n, Some e) => (Err e, put (take n data))
  end.

Definition incoming (conn : nat) : HM Incoming := λ s, (Ok (reply conn (default [] (hs_written s !! conn))), s).

Definition pool_checkout : HM (option nat) := λ s,
  match hs_idle s with
  | [] => (Ok None, s)
  | conn :: idle => (Ok (Some conn), mkHttpState (hs_attempts s) (hs_written s) idle)
  end.
Definition pool_checkin (conn : nat) : HM unit := modify (λ s,
  if decide (length (hs_idle s) < MAX_HTTP_POOL)%nat then mkHttpState (hs_attempts s) (hs_written s) (conn :: hs_idle s) else s).

Definition http_exchange (endpoint : HttpEndpoint) (conn : nat) (payload : list Z) : HM unit :=
  write_all conn (framed endpoint payload false) ;;!
  let! answer := incoming conn in
  let! (status_ok, keep_alive) := lift (read_http_response answer) in
  if negb status_ok then throw (io_error OtherKind "HTTP export failed") else
  if keep_alive then pool_checkin conn else ret tt.

Definition try_exchange (endpoint : HttpEndpoint) (conn : nat) (payload : list Z) : HM bool := λ s,
  match http_exchange endpoint conn payload s with (Ok _, s) => (Ok true, s) | (Err _, s) => (Ok false, s) end.

(** One attempt on a pooled connection, and one on a fresh one. *)
Definition http_send_blocking (endpoint : HttpEndpoint) (payload : list Z) : HM unit :=
  let! pooled := pool_checkout in
  let! done := match pooled with Some conn => try_exchange endpoint conn payload | None => ret false end in
  if (done : bool) then ret tt else
  let! conn := http_connect in
  http_exchange endpoint conn payload.

Definition post_otlp_http_once (endpoint : HttpEndpoint) (payload : list Z) : HM unit :=
  let! conn := http_connect in
  write_all conn (framed endpoint payload true) ;;!
  let! answer := incoming conn in
  lift (once_response answer).
End Http.

(** ** What a send does to the connections *)

Section Sending.
Context (connect : nat → option IoError) (write : nat → list Z → list Z → nat * option IoError) (reply : nat → list Z → Incoming).
Context (endpoint : HttpEndpoint).

Definition pool_ok (s : HttpState) : Prop :=
  NoDup (hs_idle s) ∧ Forall (λ conn, conn < length (hs_written s))%nat (hs_idle s) ∧ (length (hs_idle s) ≤ MAX_HTTP_POOL)%nat.

(** The request went to the connection, and its answer is a success. *)
Definition answered (conn : nat) (payload : list Z) (s : HttpState) : Prop :=
  ∃ before keep, hs_written s !! conn = Some (before ++ framed endpoint payload false) ∧
    read_http_response (reply conn (before ++ framed endpoint payload false)) = Ok (true, keep).

Lemma exchange_spec conn payload before s r s' :
  hs_written s !! conn = Some before → http_exchange write reply endpoint conn payload s = (r, s') →
  ∃ k, hs_written s' = <[conn := before ++ take k (framed endpoint payload false)]> (hs_written s) ∧
    hs_attempts s' = hs_attempts s ∧
    (hs_idle s' = hs_idle s ∨ hs_idle s' = conn :: hs_idle s ∧ (length (hs_idle s) < MAX_HTTP_POOL)%nat) ∧
    (r = Ok tt → answered conn payload s').
Proof.
  intros Hb. pose proof (lookup_lt_Some _ _ _ Hb) as Hlt. unfold http_exchange, bind, write_all. rewrite Hb. cbn [default from_option id].
  set (F := framed endpoint payload false). cbv zeta. destruct (write conn before F) as [n [e|]].
  { intros [= <- <-]. exists n. split_and!; try done. by left. }
  unfold incoming, lift. cbn [hs_written]. rewrite list_lookup_insert_eq by done. cbn [default from_option id].
  assert (∀ i, (∃ k, hs_written (mkHttpState (hs_attempts s) (<[conn:=before ++ F]> (hs_written s)) i) =
    <[conn:=before ++ take k F]> (hs_written s))) as Hk by (intros i; exists (length F); by rewrite firstn_all).
  destruct (read_http_response _) as [[ok keep]|e] eqn:Er.
  2:{ intros [= <- <-]. destruct (Hk (hs_idle s)) as [k E]. exists k. split_and!; try done. by left. }
  destruct ok; cbn [negb].
  2:{ intros [= <- <-]. destruct (Hk (hs_idle s)) as [k E]. exists k. split_and!; try done. by left. }
  assert (∀ i, answered conn payload (mkHttpState (hs_attempts s) (<[conn:=before ++ F]> (hs_written s)) i)) as Ha.
  { intros i. exists before, keep. cbn [hs_written]. by rewrite list_lookup_insert_eq. }
  destruct keep; unfold pool_checkin, modify, ret; cbn [hs_idle].
  - intros [= <- <-]. case_decide as Hl; cbn [hs_idle hs_written hs_attempts].
    + destruct (Hk (conn :: hs_idle s)) as [k E]. exists k. split_and!; [exact E|done|by right|by intros _].
    + destruct (Hk (hs_idle s)) as [k E]. exists k. split_and!; [exact E|done|by left|by intros _].
  - intros [= <- <-]. destruct (Hk (hs_idle s)) as [k E]. exists k. split_and!; [exact E|done|by left|by intros _].
Qed.

(** After an exchange on a connection that is not in the pool, the pool is in order. *)
Lemma pool_ok_exchange conn s s' :
  pool_ok s → conn ∉ hs_idle s → (conn < length (hs_written s'))%nat → (length (hs_written s) ≤ length (hs_written s'))%nat →
  (hs_idle s' = hs_idle s ∨ hs_idle s' = conn :: hs_idle s ∧ (length (hs_idle s) < MAX_HTTP_POOL)%nat) → pool_ok s'.
Proof.
  intros (H1 & H2 & H3) Hn Hc Hl [E|[E Hlt]]; unfold pool_ok; rewrite E.
  - split_and!; try done. eapply Forall_impl; [|exact H2]. cbn. lia.
  - split_and!; [by apply list.NoDup_cons|constructor; [done|]; eapply Forall_impl; [|exact H2]; cbn; lia|cbn; lia].
Qed.

(** A fresh connection. *)
Lemma fresh_send payload s r s' :
  pool_ok s → (let! conn := http_connect connect in http_exchange write reply endpoint conn payload) s = (r, s') →
  pool_ok s' ∧ (r = Ok tt → answered (length (hs_written s)) payload s') ∧
  ∃ news, hs_written s' = hs_written s ++ news ∧
    (news = [] ∨ ∃ k, news = [take k (framed endpoint payload false)]).
Proof.
  intros Hp. unfold bind, http_connect. destruct (connect (hs_attempts s)) as [e|].
  { intros [= <- <-]. split_and!; [done|done|]. exists []. rewrite app_nil_r. by split; [|left]. }
  intros Hx. pose proof Hp as (_ & H2 & _).
  set (s1 := mkHttpState (S (hs_attempts s)) (hs_written s ++ [[]]) (hs_idle s)) in *.
  assert (hs_written s1 !! length (hs_written s) = Some []) as Hb by (subst s1; cbn; by apply list_lookup_middle).
  destruct (exchange_spec _ _ _ _ _ _ Hb Hx) as (k & Ew & _ & Hidle & Ha).
  assert (hs_written s' = hs_written s ++ [take k (framed endpoint payload false)]) as Ew'.
  { rewrite Ew. subst s1. cbn. rewrite insert_app_r_alt, Nat.sub_diag by lia. done. }
  split_and!; [|done|by eexists; split; [done|right; eexists]].
  apply (pool_ok_exchange (length (hs_written s)) s s' Hp); [|rewrite Ew', length_app; cbn; lia..|exact Hidle].
  intros Hin. rewrite list.Forall_forall in H2. specialize (H2 _ Hin). cbn in H2. lia.
Qed.

(** What a connection was sent. *)
Definition sent_on (conn : nat) (s s' : HttpState) : list Z :=
  drop (length (default [] (hs_written s !! conn))) (default [] (hs_written s' !! conn)).

Lemma sent_on_eq conn c x news s s' :
  hs_written s' = alter (λ b, b ++ x) c (hs_written s) ++ news →
  sent_on conn s s' =
    if decide (conn < length (hs_written s))%nat then (if decide (conn = c) then x else [])
    else default [] (news !! (conn - length (hs_written s))%nat).
Proof.
  intros E. unfold sent_on. rewrite E. case_decide as Hlt.
  - destruct (lookup_lt_is_Some_2 _ _ Hlt) as [b Hb]. rewrite lookup_app_l by by rewrite length_alter. case_decide as Hc.
    + subst c. rewrite list_lookup_alter_eq, Hb. cbn. by rewrite drop_app_length.
    + rewrite list_lookup_alter_ne, Hb by congruence. cbn. apply drop_ge. lia.
  - rewrite lookup_app_r, length_alter by (rewrite length_alter; lia).
    rewrite (lookup_ge_None_2 (hs_written s)) by lia. apply drop_0.
Qed.

(** A send, by what it writes to the pooled connection [c] and to a new one. *)
Lemma send_cases payload s r s' :
  pool_ok s → http_send_blocking connect write reply endpoint payload s = (r, s') →
  pool_ok s' ∧
  (r = Ok tt → ∃ conn, answered conn payload s' ∧ (list.head (hs_idle s) = Some conn ∨ conn = length (hs_written s))) ∧
  ∃ c x news, hs_written s' = alter (λ b, b ++ x) c (hs_written s) ++ news ∧
    (x = [] ∨ (∃ k, x = take k (framed endpoint payload false)) ∧ list.head (hs_idle s) = Some c) ∧
    (news = [] ∨ ∃ k, news = [take k (framed endpoint payload false)]).
Proof.
  intros Hp Hs. pose proof Hp as (Hn & Hlt & Hmax). set (F := framed endpoint payload false).
  unfold http_send_blocking, bind at 1, pool_checkout in Hs. destruct (hs_idle s) as [|c idle] eqn:Ei.
  - cbn [bind ret] in Hs. destruct (fresh_send payload s r s' Hp Hs) as (Hp' & Ha & news & E & Hnews). split_and!; [done|..].
    + intros Hr. exists (length (hs_written s)). split; [by apply Ha|by right].
    + exists (length (hs_written s)), [], news. split_and!; [|by left|done]. rewrite E. f_equal. apply list_eq. intros j.
      destruct (decide (j = length (hs_written s))) as [->|Hj].
      * by rewrite list_lookup_alter_eq, lookup_ge_None_2 by lia.
      * by rewrite list_lookup_alter_ne by done.
  - apply list.NoDup_cons in Hn as [Hc Hn]. apply Forall_cons_iff in Hlt as [Hcl Hlt].
    set (s0 := mkHttpState (hs_attempts s) (hs_written s) idle) in *.
    assert (pool_ok s0) as Hp0 by (split_and!; cbn in *; [done|done|lia]).
    destruct (lookup_lt_is_Some_2 _ _ Hcl) as [b Hb]. unfold bind at 1, try_exchange in Hs.
    destruct (http_exchange write reply endpoint c payload s0) as [r1 s1] eqn:Ex.
    destruct (exchange_spec c payload b s0 r1 s1 Hb Ex) as (k & Ew & _ & Hidle & Ha).
    assert (hs_written s1 = alter (λ b, b ++ take k F) c (hs_written s)) as Ew1.
    { rewrite Ew. apply list_eq. intros j. destruct (decide (j = c)) as [->|Hj].
      - rewrite list_lookup_alter_eq, list_lookup_insert_eq by done. subst s0. cbn. by rewrite Hb.
      - by rewrite list_lookup_alter_ne, list_lookup_insert_ne by done. }
    assert (pool_ok s1) as Hp1.
    { apply (pool_ok_exchange c s0 s1 Hp0); [done|rewrite Ew1, length_alter; done|rewrite Ew1, length_alter; done|exact Hidle]. }
    assert (list.head (c :: idle) = Some c) as Hh by done.
    destruct r1 as [[]|e].
    + injection Hs as <- <-. split_and!; [done| |].
      * intros _. exists c. split; [by apply Ha|by left].
      * exists c, (take k F), []. split_and!; [by rewrite app_nil_r|right; split; [by exists k|done]|by left].
    + destruct (fresh_send payload s1 r s' Hp1 Hs) as (Hp' & Ha' & news & E & Hnews). split_and!; [done|..].
      * intros Hr. exists (length (hs_written s1)). split; [by apply Ha'|right]. by rewrite Ew1, length_alter.
      * exists c, (take k F), news. split_and!; [by rewrite E, Ew1|right; split; [by exists k|done]|done].
Qed.
(** Pooled export.  A send ends with success only if a connection was sent the whole
    request and answered it with status 200, 202 or 204.  Whatever happens, it writes at
    most one request, or the beginning of one, to the connection it takes from the pool
    and one to a connection it opens, and nothing to any other; and the pool holds every
    idle connection once, and at most 256. *)
Theorem pooled_send payload s r s' :
  pool_ok s → http_send_blocking connect write reply endpoint payload s = (r, s') →
  pool_ok s' ∧
  (r = Ok tt → ∃ conn, answered conn payload s' ∧ (list.head (hs_idle s) = Some conn ∨ conn = length (hs_written s))) ∧
  ∀ conn, sent_on conn s s' = [] ∨
    (∃ k, sent_on conn s s' = take k (framed endpoint payload false)) ∧
    (list.head (hs_idle s) = Some conn ∨ conn = length (hs_written s)).
Proof.
  intros Hp Hs. destruct (send_cases payload s r s' Hp Hs) as (Hp' & Ha & c & x & news & E & Hx & Hnews). split_and!; [done..|].
  intros conn. rewrite (sent_on_eq conn c x news s s' E). case_decide as Hl; [case_decide as Hc|].
  - subst c. destruct Hx as [->|[Hk Hh]]; [by left|right]. by split; [|left].
  - by left.
  - destruct Hnews as [->|[k ->]]; [left; by rewrite lookup_nil|].
    destruct (conn - length (hs_written s))%nat eqn:Ed; cbn; [|by left]. right. split; [by exists k|right; lia].
Qed.
End Sending.

(** A server that accepts every request and keeps the connection, one that answers 204
    and closes, and one that has closed connection 0. *)
Definition accept_connect (_ : nat) : option IoError := None.
Definition accept_write (_ : nat) (_ data : list Z) : nat * option IoError := (length data, None).
Definition accept_reply (_ : nat) (_ : list Z) : Incoming := (str "HTTP/1.1 200 OK" ++ CRLF ++ str "Content-Length: 0" ++ CRLF ++ CRLF, None).
Definition no_content_reply (_ : nat) (_ : list Z) : Incoming := (str "HTTP/1.1 204 No Content" ++ CRLF ++ CRLF, None).
Definition stale_reply (conn : nat) (sent : list Z) : Incoming := if decide (conn = 0%nat) then ([], None) else accept_reply conn sent.

Definition sample_http_endpoint : HttpEndpoint := mkHttpEndpoint (str "c:4318") (str "c:4318") (str "/v1/logs").

(** A pooled connection that the server has closed: the send succeeds on a second one. *)
Lemma pooled_send_witness :
  let s := mkHttpState 1 [[9]] [0%nat] in
  let '(r, s') := http_send_blocking accept_connect accept_write stale_reply sample_http_endpoint [1; 2] s in
  r = Ok tt ∧ hs_idle s' = [1%nat] ∧ pool_ok s' ∧
  ∃ conn, answered stale_reply sample_http_endpoint conn [1; 2] s' ∧ (list.head [0%nat] = Some conn ∨ conn = 1%nat).
Proof.
  cbv zeta. destruct (http_send_blocking _ _ _ _ _ _) as [r s'] eqn:E.
  assert (r = Ok tt ∧ hs_idle s' = [1%nat]) as [-> Hi] by (vm_compute in E; injection E as <- <-; by split).
  edestruct (pooled_send accept_connect accept_write stale_reply sample_http_endpoint [1; 2] (mkHttpState 1 [[9]] [0%nat])) as (Hp & Ha & _);
    [|exact E|].
  { split_and!; cbn; [apply list.NoDup_singleton|repeat constructor|vm_compute; lia]. }
  split_and!; [done|done|done|by apply Ha].
Defined.
