(* ===== verification/LibApi.v ===== *)
(** * The calls of the C library

    The exported functions of [liblogjet/src/lib.rs] that create a logger and send
    records, with the last error of the calling thread.  A pointer is [None] when it is
    null.  The gRPC client of [tonic] is a parameter: connecting and exporting, where the
    number says how many calls there were before. *)

From S2P Require Import Prelude Text Tokens Format Otlp FlatRecord SampleCodec LibRequest LibHttp.

Inductive BackendKind : Type := KindHttp | KindGrpc.
Inductive Backend : Type := BackendHttp (endpoint : HttpEndpoint) | BackendGrpc (endpoint : text).
Record Logger : Type := mkLogger { lg_backend : Backend; lg_service_name : text; lg_timeout_ms : Z }.

Section Api.
Context {OP : OtlpParts} {AV : ArrayValues} {LC : LogsCodec}.
Context (connect : nat → option IoError) (write : nat → list Z → list Z → nat * option IoError) (reply : nat → list Z → Incoming).
Context {Channel : Type} (grpc_connect : text → nat → result text Channel)
  (grpc_export : Channel → ExportLogsServiceRequest → nat → result text unit) (make_runtime : result text unit).

Record LibState : Type := mkLibState {
  ls_last_error : option LjError;
  ls_http : HttpState;
  ls_channel : option Channel;
  ls_grpc_calls : nat;
}.

Definition set_last_error (e : option LjError) (s : LibState) : LibState :=
  mkLibState e (ls_http s) (ls_channel s) (ls_grpc_calls s).
Definition set_grpc (c : option Channel) (s : LibState) : LibState :=
  mkLibState (ls_last_error s) (ls_http s) c (S (ls_grpc_calls s)).

Local Abbreviation LM := (M LibState LjError).

Definition on_http {A} (c : M HttpState IoError A) : LM A := λ s,
  let '(r, h) := c (ls_http s) in
  (map_err SendIo r, mkLibState (ls_last_error s) h (ls_channel s) (ls_grpc_calls s)).

(** *** Creating a logger *)

Definition new_logger_impl (endpoint service_name : CStr) (timeout_ms : Z) (kind : BackendKind) : result LjError Logger :=
  let? endpoint := read_required endpoint (str "endpoint") in
  let? service_name := read_required service_name (str "service_name") in
  let timeout := Z.max timeout_ms 1 in
  let? backend :=
    match kind with
    | KindHttp => let? e := parse_http_endpoint endpoint in Ok (BackendHttp e)
    | KindGrpc => let? _ := map_err RuntimeFailed make_runtime in Ok (BackendGrpc (normalise_grpc_endpoint endpoint))
    end in
  Ok (mkLogger backend service_name timeout).

Definition new_logger (endpoint service_name : CStr) (timeout_ms : Z) (kind : BackendKind) (s : LibState)
    : option Logger * LibState :=
  let s := set_last_error None s in
  match new_logger_impl endpoint service_name timeout_ms kind with
  | Ok logger => (Some logger, s)
  | Err e => (None, set_last_error (Some e) s)
  end.

(** *** Sending *)

(** [send_otlp_grpc]: a connection of its own. *)
Definition send_otlp_grpc (endpoint : text) (request : ExportLogsServiceRequest) : LM unit := λ s,
  let calls := mkLibState (ls_last_error s) (ls_http s) (ls_channel s) (S (ls_grpc_calls s)) in
  match grpc_connect endpoint (ls_grpc_calls s) with
  | Err e => (Err (SendGrpc e), calls)
  | Ok channel => (map_err SendGrpc (grpc_export channel request (ls_grpc_calls s)), calls)
  end.

(** [send_pooled_async]: the cached channel, which an error removes. *)
Definition send_pooled_async (endpoint : text) (request : ExportLogsServiceRequest) : LM unit := λ s,
  let active :=
    match ls_channel s with
    | Some channel => Ok channel
    | None => map_err SendGrpc (grpc_connect endpoint (ls_grpc_calls s))
    end in
  match active with
  | Err e => (Err e, set_grpc None s)
  | Ok channel =>
      match grpc_export channel request (ls_grpc_calls s) with
      | Ok _ => (Ok tt, set_grpc (Some channel) s)
      | Err e => (Err (SendGrpc e), set_grpc None s)
      end
  end.

Definition send_request (logger : Logger) (request : ExportLogsServiceRequest) : LM unit :=
  match lg_backend logger with
  | BackendHttp endpoint => on_http (post_otlp_http_once connect write reply endpoint (encode_logs request))
  | BackendGrpc endpoint => send_otlp_grpc endpoint request
  end.
Definition send_request_reuse (logger : Logger) (request : ExportLogsServiceRequest) : LM unit :=
  match lg_backend logger with
  | BackendHttp endpoint => on_http (http_send_blocking connect write reply endpoint (encode_logs request))
  | BackendGrpc endpoint => send_pooled_async endpoint request
  end.

(** [Ok(()) => true, Err(err) => { set_last_error(err); false }] *)
Definition report (c : LM unit) (s : LibState) : bool * LibState :=
  match c s with
  | (Ok _, s) => (true, s)
  | (Err e, s) => (false, set_last_error (Some e) s)
  end.

Definition with_logger (logger : option Logger) (f : Logger → LibState → bool * LibState) (s : LibState) : bool * LibState :=
  let s := set_last_error None s in
  match logger with
  | None => (false, set_last_error (Some (IsNull (str "logger"))) s)
  | Some logger => f logger s
  end.
Definition with_record (record : option LjLogRecord) (f : LjLogRecord → LibState → bool * LibState) (s : LibState)
    : bool * LibState :=
  match record with
  | None => (false, set_last_error (Some (IsNull (str "record"))) s)
  | Some record => f record s
  end.

Definition lj_logger_log (logger : option Logger) (now : Z) (record : option LjLogRecord) : LibState → bool * LibState :=
  with_logger logger (λ logger, with_record record (λ record, report (
    let! request := lift (build_request (lg_service_name logger) now record) in send_request logger request))).

Definition lj_logger_log_reuse (logger : option Logger) (now : Z) (record : option LjLogRecord) : LibState → bool * LibState :=
  with_logger logger (λ logger, with_record record (λ record, report (
    let! request := lift (build_request (lg_service_name logger) now record) in send_request_reuse logger request))).

(** The records with the times at which they are converted. *)
Definition lj_logger_log_batch (logger : option Logger) (records : option (list (Z * LjLogRecord))) : LibState → bool * LibState :=
  with_logger logger (λ logger s,
    match records with
    | None | Some [] => (true, s)
    | Some records => report (
        let! request := lift (build_batch_request (lg_service_name logger) records) in send_request_reuse logger request) s
    end).

(** The asynchronous calls hand the request to the engine, [enqueue]. *)
Definition lj_logger_log_async (enqueue : ExportLogsServiceRequest → LM unit)
    (logger : option Logger) (now : Z) (record : option LjLogRecord) : LibState → bool * LibState :=
  with_logger logger (λ logger, with_record record (λ record, report (
    let! request := lift (build_request (lg_service_name logger) now record) in enqueue request))).
Definition lj_logger_log_batch_async (enqueue : ExportLogsServiceRequest → LM unit)
    (logger : option Logger) (records : option (list (Z * LjLogRecord))) : LibState → bool * LibState :=
  with_logger logger (λ logger s,
    match records with
    | None | Some [] => (true, s)
    | Some records => report (
        let! request := lift (build_batch_request (lg_service_name logger) records) in enqueue request) s
    end).

(** ** The last error *)

(** A computation that does not touch the error of the thread. *)
Definition keeps_error {A} (c : LM A) : Prop := preserves (λ s s', ls_last_error s' = ls_last_error s) c.

Lemma on_http_keeps {A} (c : M HttpState IoError A) : keeps_error (on_http c).
Proof. intros s. unfold on_http. by destruct (c (ls_http s)). Qed.

Lemma send_request_keeps logger request : keeps_error (send_request logger request).
Proof.
  unfold send_request. destruct (lg_backend logger) as [|endpoint]; [apply on_http_keeps|]. intros s. unfold send_otlp_grpc.
  by destruct (grpc_connect endpoint _).
Qed.
Lemma send_request_reuse_keeps logger request : keeps_error (send_request_reuse logger request).
Proof.
  unfold send_request_reuse. destruct (lg_backend logger) as [|endpoint]; [apply on_http_keeps|]. intros s. unfold send_pooled_async.
  destruct (ls_channel s) as [ch|]; [by destruct (grpc_export ch request _)|].
  destruct (grpc_connect endpoint _) as [ch|]; [|done]. cbn [map_err]. by destruct (grpc_export ch request _).
Qed.

(** The result of a call and the error it leaves. *)
Definition reports (f : LibState → bool * LibState) : Prop := ∀ s, (f s).1 = true ↔ ls_last_error (f s).2 = None.

Lemma report_reports (c : LM unit) s : keeps_error c → ls_last_error s = None →
  (report c s).1 = true ↔ ls_last_error (report c s).2 = None.
Proof. intros Hc Hs. specialize (Hc s). unfold report. destruct (c s) as [[]]; cbn in *; by rewrite ?Hc. Qed.

Lemma with_logger_reports logger f :
  (∀ l s, ls_last_error s = None → (f l s).1 = true ↔ ls_last_error (f l s).2 = None) → reports (with_logger logger f).
Proof. intros Hf s. unfold with_logger. destruct logger; [by apply Hf|done]. Qed.

Lemma request_keeps {A} (r : result LjError A) (k : A → LM unit) : (∀ a, keeps_error (k a)) → keeps_error (let! a := lift r in k a).
Proof. intros Hk s. unfold bind, lift. destruct r; [apply Hk|done]. Qed.

Lemma single_reports logger record (k : Logger → LjLogRecord → LM unit) :
  (∀ l r, keeps_error (k l r)) →
  reports (with_logger logger (λ l, with_record record (λ r, report (k l r)))).
Proof.
  intros Hk. apply with_logger_reports. intros l s Hs. unfold with_record. destruct record; [by apply report_reports|done].
Qed.
Lemma batch_reports logger (records : option (list (Z * LjLogRecord))) (k : Logger → list (Z * LjLogRecord) → LM unit) :
  (∀ l r, keeps_error (k l r)) →
  reports (with_logger logger (λ l s, match records with None | Some [] => (true, s) | Some records => report (k l records) s end)).
Proof. intros Hk. apply with_logger_reports. intros l s Hs. destruct records as [[|]|]; [done|by apply report_reports|done]. Qed.

(** ** Delivery of a batch *)

(** The collector takes every connection and every byte, and accepts every request. *)
Definition accepting (endpoint : HttpEndpoint) : Prop :=
  (∀ n, connect n = None) ∧ (∀ conn before data, (write conn before data).2 = None) ∧
  ∀ conn before payload, ∃ keep, read_http_response (reply conn (before ++ framed endpoint payload false)) = Ok (true, keep).

Lemma accepting_exchange endpoint conn payload s :
  accepting endpoint → (conn < length (hs_written s))%nat → (http_exchange write reply endpoint conn payload s).1 = Ok tt.
Proof.
  intros (_ & Hw & Hr) Hc. unfold http_exchange, bind, write_all.
  set (before := default [] _). specialize (Hw conn before (framed endpoint payload false)).
  destruct (write conn before _) as [n [|]]; [done|]. cbn [incoming lift hs_written].
  rewrite list_lookup_insert_eq by done. cbn [default from_option id].
  destruct (Hr conn before payload) as [keep ->]. by destruct keep.
Qed.

Lemma accepting_send endpoint payload s :
  accepting endpoint → pool_ok s → (http_send_blocking connect write reply endpoint payload s).1 = Ok tt.
Proof.
  intros Ha (_ & Hl & _). pose proof Ha as (Hc & _). unfold http_send_blocking, bind, pool_checkout.
  destruct (hs_idle s) as [|conn idle].
  - unfold ret, http_connect. rewrite Hc. apply accepting_exchange; [done|]. cbn. rewrite length_app. cbn. lia.
  - apply Forall_cons_iff in Hl as [Hl _]. unfold try_exchange.
    pose proof (accepting_exchange endpoint conn payload (mkHttpState (hs_attempts s) (hs_written s) idle) Ha Hl) as Hx.
    by destruct (http_exchange _ _ _ _ _ _) as [[]].
Qed.

(** Some connection was sent a whole request whose body decodes to the records, with
    their resources and scopes, and answered it with a success. *)
Definition delivered (endpoint : HttpEndpoint) (service : text) (records : list (Z * LjLogRecord)) (h : HttpState) : Prop :=
  ∃ conn before body keep req reqs,
    hs_written h !! conn = Some (before ++ http_header endpoint (len body) false ++ body) ∧
    read_http_response (reply conn (before ++ http_header endpoint (len body) false ++ body)) = Ok (true, keep) ∧
    decode_logs body = Ok req ∧
    collect_results (λ x, build_request service x.1 x.2) records = Ok reqs ∧
    flatten (resource_logs req) ≡ₚ concat ((λ req, flatten (resource_logs req)) <$> reqs).

(** C29: delivery of a batch.  When a call with records on an HTTP logger returns true, some
    connection was sent a request whose body decodes to exactly the log records of the
    call, under their resources and scopes, and answered it with a success; with a
    collector that accepts, the call returns true exactly when every record can be
    converted.  The pool stays in order either way. *)
Theorem batch_call_delivers `{!LogsCodecLaws} logger endpoint records s ok s' :
  lg_backend logger = BackendHttp endpoint → records ≠ [] → pool_ok (ls_http s) →
  lj_logger_log_batch (Some logger) (Some records) s = (ok, s') →
  pool_ok (ls_http s') ∧
  (ok = true → delivered endpoint (lg_service_name logger) records (ls_http s')) ∧
  (accepting endpoint →
    (ok = true ↔ ∃ reqs, collect_results (λ x, build_request (lg_service_name logger) x.1 x.2) records = Ok reqs)).
Proof.
  intros Hb Hne Hp. unfold lj_logger_log_batch, with_logger. destruct records as [|x records]; [done|].
  set (rs := x :: records). unfold report, bind, lift, send_request_reuse. rewrite Hb.
  destruct (build_batch_request (lg_service_name logger) rs) as [req|e] eqn:Er.
  2:{ intros [= <- <-]. split_and!; [done|done|]. intros _. split; [done|]. intros [reqs Hr].
      apply build_batch_ok in Hr as [req Hr]. congruence. }
  destruct (build_batch_flat _ _ _ Er) as (reqs & Hc & Hperm). unfold on_http. cbn [ls_http set_last_error].
  destruct (http_send_blocking connect write reply endpoint (encode_logs req) (ls_http s)) as [r h] eqn:Es.
  destruct (send_cases connect write reply endpoint _ _ _ _ Hp Es) as (Hp' & Ha & _).
  assert (accepting endpoint → r = Ok tt) as Hok.
  { intros Hacc. pose proof (accepting_send endpoint (encode_logs req) _ Hacc Hp) as E. by rewrite Es in E. }
  destruct r as [[]|e]; cbn [map_err]; intros [= <- <-]; cbn [ls_http set_last_error]; split_and!; try done.
  - intros _. destruct (Ha eq_refl) as (conn & (before & keep & E1 & E2) & _).
    exists conn, before, (encode_logs req), keep, req, reqs. by split_and!.
  - intros _. split; [by exists reqs|done].
  - intros Hacc. by specialize (Hok Hacc).
Qed.

(** C31: errors of the calls.  Every call that sends returns true exactly when it leaves no
    error message for the thread, whatever the pointers are; and creating a logger
    returns a null pointer exactly when it leaves one. *)
Theorem calls_report_errors logger now record records enqueue :
  (∀ request, keeps_error (enqueue request)) →
  reports (lj_logger_log logger now record) ∧ reports (lj_logger_log_reuse logger now record) ∧
  reports (lj_logger_log_batch logger records) ∧ reports (lj_logger_log_async enqueue logger now record) ∧
  reports (lj_logger_log_batch_async enqueue logger records) ∧
  ∀ endpoint service timeout kind s, let '(l, s') := new_logger endpoint service timeout kind s in
    l = None ↔ ls_last_error s' ≠ None.
Proof.
  intros He. split_and!.
  - apply single_reports. intros l r. apply request_keeps, send_request_keeps.
  - apply single_reports. intros l r. apply request_keeps, send_request_reuse_keeps.
  - apply (batch_reports logger records). intros l r. apply request_keeps, send_request_reuse_keeps.
  - apply single_reports. intros l r. by apply request_keeps.
  - apply (batch_reports logger records). intros l r. by apply request_keeps.
  - intros endpoint service timeout kind s. unfold new_logger. by destruct (new_logger_impl _ _ _ _).
Qed.
End Api.

(** ** A logger over HTTP *)

Section Sample.
#[local] Existing Instance sample_parts.
#[local] Existing Instance logs_codec.
#[local] Existing Instance logs_codec_laws.
#[local] Instance sample_array_values : ArrayValues := λ _, tt.

Definition sample_logger : Logger := mkLogger (BackendHttp sample_http_endpoint) (str "svc") 1000.
Definition sample_c_record (body : text) (service : CStr) : LjLogRecord :=
  mkLjLogRecord 5 9 None (Some body) None None service None None None.
Definition sample_c_records : list (Z * LjLogRecord) :=
  [(1, sample_c_record (str "a") None); (2, sample_c_record (str "b") (Some (str "other"))); (3, sample_c_record (str "c") None)].
Definition no_channel (_ : text) (_ : nat) : result text unit := Err [].
Definition no_export (_ : unit) (_ : ExportLogsServiceRequest) (_ : nat) : result text unit := Err [].
Definition idle_library : LibState (Channel := unit) := mkLibState None (mkHttpState 0 [] []) None 0.

Lemma accept_server : accepting accept_connect accept_write accept_reply sample_http_endpoint.
Proof. split_and!; [done..|]. intros conn before payload. by exists true. Qed.

Lemma batch_call_delivers_witness :
  let '(ok, s') := lj_logger_log_batch accept_connect accept_write accept_reply no_channel no_export
    (Some sample_logger) (Some sample_c_records) idle_library in
  ok = true ∧ delivered accept_reply sample_http_endpoint (str "svc") sample_c_records (ls_http s').
Proof.
  destruct (lj_logger_log_batch _ _ _ _ _ _ _ _) as [ok s'] eqn:E.
  assert (ok = true) as -> by (vm_compute in E; by injection E as <- _).
  edestruct (batch_call_delivers accept_connect accept_write accept_reply no_channel no_export sample_logger sample_http_endpoint sample_c_records)
    as (_ & Hd & _); [done|done| |exact E|].
  - split_and!; [constructor..|vm_compute; lia].
  - split; [done|by apply Hd].
Defined.

Lemma calls_report_errors_witness :
  reports (lj_logger_log accept_connect accept_write accept_reply no_channel no_export (Some sample_logger) 1 None) ∧
  (lj_logger_log accept_connect accept_write accept_reply no_channel no_export (Some sample_logger) 1 None idle_library).1 = false.
Proof.
  split; [|done]. apply (calls_report_errors accept_connect accept_write accept_reply no_channel no_export (Ok tt)
    (Some sample_logger) 1 None None (λ _, ret tt)). by intros request s.
Defined.

(** A collector that answers 204 has the record, and the calls that keep the connection
    say so; [lj_logger_log] reports a failure. *)
Theorem no_content_refused_once :
  let record := Some (sample_c_record (str "a") None) in
  (lj_logger_log_reuse accept_connect accept_write no_content_reply no_channel no_export (Some sample_logger) 1 record idle_library).1 = true ∧
  (lj_logger_log accept_connect accept_write no_content_reply no_channel no_export (Some sample_logger) 1 record idle_library).1 = false.
Proof. split; vm_compute; reflexivity. Qed.
End Sample.
