(* ===== verification/PluginHost.v ===== *)
(** * Hosting ingest plugins

    [logjetd/src/plugin.rs]: the callbacks that turn what a plugin delivers into spool
    records, the loops that drive a passive and an active plugin, and the environment
    variables set for it.  A plugin is a record of its exported functions; the callbacks
    it makes during a call are the list that the call returns, in their order.  Printing
    is left out, and a C string is [None] when the pointer is null. *)

From S2P Require Import Prelude Format Text Tokens Writer Reader Protocol Source BufferSpool FileSpool Spool ReplayServer Otlp Policy Ingest FlatRecord SampleCodec LibRequest Instances.

(** ** The interface to plugins *)

Record LjIngestRecordV1 : Type := mkIngestRecord {
  ir_record_type : Z;
  ir_timestamp_unix_ns : Z;
  ir_payload : option (list Z);
}.

Inductive Delivery : Type := OnRecord (record : LjLogRecord) | OnGenericRecord (record : LjIngestRecordV1).

(** A call of the plugin: its return code, the callbacks it made, and its context. *)
Definition Called (P : Type) : Type := Z * list Delivery * P.

Record PluginHandle (P : Type) : Type := mkPluginHandle {
  ph_create : option P;
  ph_set_callback : P → P;
  ph_feed : P → list Z → Called P;
  ph_fetch : option (P → Called P);
  ph_set_generic_callback : option (P → P);
}.
Arguments ph_create {P}. Arguments ph_set_callback {P}. Arguments ph_feed {P}. Arguments ph_fetch {P}. Arguments ph_set_generic_callback {P}.

Definition is_active {P} (handle : PluginHandle P) : bool := match ph_fetch handle with Some _ => true | None => false end.

(** ** The payload of a log record *)

Section Payload.
Context {OP : OtlpParts} {AV : ArrayValues} {LC : LogsCodec}.

Definition read_optional_str (ptr : CStr) : option text := from_utf8_lossy <$> ptr.

(** Keys, values and types; an attribute with a null pointer is left out. *)
Definition PluginAttr : Type := text * text * Z.
Definition plugin_attr (attr : LjAttribute) : option PluginAttr :=
  match la_key attr, la_value attr with
  | Some key, Some value => Some (from_utf8_lossy key, from_utf8_lossy value, la_value_type attr)
  | _, _ => None
  end.
Definition plugin_attrs (attrs : option (list LjAttribute)) : list PluginAttr :=
  match attrs with None => [] | Some attrs => omap plugin_attr attrs end.

Record OtlpRecord : Type := mkOtlpRecord {
  or_ts : Z;
  or_severity : Z;
  or_severity_text : option text;
  or_body : text;
  or_attrs : list PluginAttr;
  or_event_name : option text;
  or_service_name : option text;
  or_scope_name : option text;
  or_resource_attrs : list PluginAttr;
  or_scope_attrs : list PluginAttr;
}.

Definition to_kv (a : PluginAttr) : KeyValue :=
  let '(k, v, t) := a in
  key_value k (
    if t =? LJ_ATTR_INT then mkAnyValue (Some (IntValue (default 0 (parse_i64 v)))) else
    if t =? LJ_ATTR_ARRAY then mkAnyValue (Some (OtherVariant (array_value (string_value <$> split_on 44 v)))) else
    string_value v).

Definition otlp_log_record (rec : OtlpRecord) : LogRecordMessage :=
  mkLogRecord (or_ts rec) (or_ts rec) (or_severity rec) (default [] (or_severity_text rec)) (Some (string_value (or_body rec)))
    (to_kv <$> or_attrs rec) 0 0 [] [] (default [] (or_event_name rec)).

Definition otlp_request (rec : OtlpRecord) : ExportLogsServiceRequest :=
  let has_extended := match or_service_name rec, or_scope_name rec with None, None => false | _, _ => true end in
  let resource_kv := to_kv <$> or_resource_attrs rec in
  let resource_kv :=
    match or_service_name rec with
    | Some svc => key_value (str "service.name") (string_value svc) :: resource_kv
    | None => resource_kv
    end in
  let scope_name := if has_extended then default [] (or_scope_name rec) else str "lj-ingest-plugin" in
  mkLogsRequest [resource_of resource_kv
    [scope_of (mkInstrumentationScope scope_name [] (to_kv <$> or_scope_attrs rec) 0) [otlp_log_record rec]]].
Definition build_otlp_payload (rec : OtlpRecord) : list Z := encode_logs (otlp_request rec).

Definition otlp_record_of (ts : Z) (rec : LjLogRecord) : OtlpRecord :=
  mkOtlpRecord ts (lj_severity_number rec) (read_optional_str (lj_severity_text rec))
    (default [] (read_optional_str (lj_body rec))) (plugin_attrs (lj_attributes rec))
    (read_optional_str (lj_event_name rec)) (read_optional_str (lj_service_name rec)) (read_optional_str (lj_scope_name rec))
    (plugin_attrs (lj_resource_attrs rec)) (plugin_attrs (lj_scope_attrs rec)).
End Payload.

(** [match rec.record_type] *)
Definition generic_record_type (t : Z) : RecordType :=
  if t =? 1 then Logs else if t =? 2 then Metrics else if t =? 3 then Traces else if t =? 4 then Events else Logs.

(** ** The callbacks and the loops *)

Section Host.
Context {EX : Externals} {OP : OtlpParts} {AV : ArrayValues} {LC : LogsCodec} {CK : Clock}.

Local Abbreviation DM := (M Daemon IoError).

(** [if ts != 0 { ts } else { SystemTime::now() }] *)
Definition record_time (ts : Z) : DM Z := if ts =? 0 then read_unix else ret ts.

(** [if let Err(err) = append_to_spool(..) { eprintln!(..) }] *)
Definition append_or_report (record : WireRecord) : DM unit := λ d, (Ok tt, (append_batch_record record d).2).

Definition on_record (rec : LjLogRecord) : DM unit :=
  let! ts := record_time (lj_timestamp_unix_ns rec) in
  let payload := build_otlp_payload (otlp_record_of ts rec) in
  let! sq := fetch_add in
  append_or_report (mkWire Logs sq ts payload).

Definition on_generic_record (rec : LjIngestRecordV1) : DM unit :=
  let payload := default [] (ir_payload rec) in
  let! ts := record_time (ir_timestamp_unix_ns rec) in
  let! sq := fetch_add in
  append_or_report (mkWire (generic_record_type (ir_record_type rec)) sq ts payload).

Definition deliver (x : Delivery) : DM unit :=
  match x with OnRecord rec => on_record rec | OnGenericRecord rec => on_generic_record rec end.
Fixpoint deliver_all (xs : list Delivery) : DM unit :=
  match xs with [] => ret tt | x :: xs => deliver x ;;! deliver_all xs end.

Context {P : Type} (handle : PluginHandle P).

(** [create], [set_callback] and [set_generic_callback]. *)
Definition plugin_context : option P :=
  ctx ← ph_create handle;
  let ctx := ph_set_callback handle ctx in
  Some match ph_set_generic_callback handle with Some set_generic => set_generic ctx | None => ctx end.

(** What the connection yields, read by read; after the last one it is closed. *)
Fixpoint client_loop (reads : list (result IoError (list Z))) (ctx : P) : DM unit :=
  match reads with
  | [] | Ok [] :: _ => ret tt
  | Err e :: _ => throw e
  | Ok bytes :: reads =>
      let '(rc, deliveries, ctx) := ph_feed handle ctx bytes in
      deliver_all deliveries ;;!
      if rc =? 0 then client_loop reads ctx else throw (io_error OtherKind "lj_ingest_feed returned error code")
  end.

Definition handle_plugin_client (reads : list (result IoError (list Z))) : DM unit :=
  match plugin_context with
  | None => throw (io_error OtherKind "lj_ingest_create returned NULL")
  | Some ctx => client_loop reads ctx
  end.

Definition run_active_plugin : DM unit :=
  match ph_fetch handle with
  | None => throw (io_error OtherKind "plugin has no lj_ingest_fetch")
  | Some fetch =>
      match plugin_context with
      | None => throw (io_error OtherKind "lj_ingest_create returned NULL")
      | Some ctx =>
          let '(rc, deliveries, _) := fetch ctx in
          deliver_all deliveries ;;!
          if rc =? 0 then ret tt else throw (io_error OtherKind "lj_ingest_fetch returned error code")
      end
  end.
End Host.

(** ** The environment of the plugin

    Variables are bytes.  [set_var] panics on an empty name; a name before the first
    equals sign holds none, and neither part holds a NUL byte. *)

Abbreviation Env := (gmap (list Z) (list Z)).

(** [std::env::var(k).ok()] *)
Definition env_var (k : list Z) (env : Env) : option (list Z) := v ← env !! k; if utf8_valid v then Some v else None.

(** The variables set and what they held before; [None] is a panic. *)
Fixpoint set_plugin_env (plugin_env : list text) (env : Env) : option (list (text * option text) * Env) :=
  match plugin_env with
  | [] => Some ([], env)
  | entry :: plugin_env =>
      match split_once 61 entry with
      | None => set_plugin_env plugin_env env
      | Some (k, v) =>
          if bool_decide (k = []) then None else
          '(prev_vars, env') ← set_plugin_env plugin_env (<[k := v]> env);
          Some ((k, env_var k env) :: prev_vars, env')
      end
  end.

Fixpoint restore_env (prev_vars : list (text * option text)) (env : Env) : Env :=
  match prev_vars with
  | [] => env
  | (k, Some val) :: prev_vars => restore_env prev_vars (<[k := val]> env)
  | (k, None) :: prev_vars => restore_env prev_vars (delete k env)
  end.

(** [plugin_ingest_loop] for an active plugin: the variables are put back only when the
    library could be loaded. *)
Definition plugin_ingest_active `{EX : Externals, OP : OtlpParts, AV : !ArrayValues, LC : !LogsCodec, CK : Clock} {P}
    (plugin_env : list text) (load : Env → result IoError (PluginHandle P)) (env : Env) (d : Daemon)
    : option (result IoError unit * Env * Daemon) :=
  '(prev_vars, env') ← set_plugin_env plugin_env env;
  match load env' with
  | Err e => Some (Err e, env', d)
  | Ok handle => let '(r, d') := run_active_plugin handle d in Some (r, restore_env prev_vars env', d')
  end.

(** ** What is stored *)

Section Facts.
Context {EX : Externals} {OP : OtlpParts} {AV : ArrayValues} {LC : LogsCodec} {CK : Clock}.

Definition delivery_time (x : Delivery) : Z :=
  match x with OnRecord rec => lj_timestamp_unix_ns rec | OnGenericRecord rec => ir_timestamp_unix_ns rec end.

(** The record of a delivery with its sequence number and time. *)
Definition delivered_record (x : Delivery) (sq ts : Z) : WireRecord :=
  match x with
  | OnRecord rec => mkWire Logs sq ts (build_otlp_payload (otlp_record_of ts rec))
  | OnGenericRecord rec => mkWire (generic_record_type (ir_record_type rec)) sq ts (default [] (ir_payload rec))
  end.

(** The records of deliveries from a sequence number on; a delivery without a time of its
    own gets some time. *)
Inductive delivered_from : Z → list Delivery → list WireRecord → Prop :=
| delivered_nil sq : delivered_from sq [] []
| delivered_cons sq x xs ts rs :
    (delivery_time x ≠ 0 → ts = delivery_time x) → delivered_from (sq + 1) xs rs →
    delivered_from sq (x :: xs) (delivered_record x sq ts :: rs).

Lemma record_time_eq ts d : ∃ t d', record_time ts d = (Ok t, d') ∧ untouched d d' ∧ (ts ≠ 0 → t = ts).
Proof.
  unfold record_time. destruct (Z.eqb_spec ts 0) as [E|E].
  - by do 2 eexists.
  - exists ts, d. split_and!; [done|apply untouched_refl|done].
Qed.

(** Both callbacks take a time and a number and append. *)
Lemma deliver_eq x d :
  ∃ ts d', deliver x d = (Ok tt, d') ∧ (delivery_time x ≠ 0 → ts = delivery_time x) ∧
    d_next_seq d' = (d_next_seq d + 1) mod 2 ^ 64 ∧
    d_shared d' = (stored_by (delivered_record x (d_next_seq d) ts) (d_shared d)).2.
Proof.
  assert (∀ t0 (f : Z → Z → WireRecord), ∃ ts d',
    (let! ts := record_time t0 in let! sq := fetch_add in append_or_report (f sq ts)) d = (Ok tt, d') ∧ (t0 ≠ 0 → ts = t0) ∧
    d_next_seq d' = (d_next_seq d + 1) mod 2 ^ 64 ∧ d_shared d' = (stored_by (f (d_next_seq d) ts) (d_shared d)).2) as H.
  { intros t0 f. destruct (record_time_eq t0 d) as (ts & d1 & E & [Hs Hn] & Ht). exists ts. unfold bind. rewrite E.
    unfold fetch_add, append_or_report. rewrite append_batch_eq. cbn. rewrite Hs, Hn. by eexists. }
  destruct x as [rec|rec].
  - apply (H _ (λ sq ts, mkWire Logs sq ts (build_otlp_payload (otlp_record_of ts rec)))).
  - apply (H _ (λ sq ts, mkWire (generic_record_type (ir_record_type rec)) sq ts (default [] (ir_payload rec)))).
Qed.

Lemma deliver_all_app xs ys d : deliver_all (xs ++ ys) d = (deliver_all xs ;;! deliver_all ys) d.
Proof.
  revert d. induction xs as [|x xs IH]; intros d; [done|]. cbn [app deliver_all]. rewrite bind_assoc.
  apply bind_ext. intros [] d1 _. apply IH.
Qed.

Lemma deliver_all_buffer xs d b g :
  d_shared d = mkShared (SpoolBuffer b) g → 0 ≤ d_next_seq d → d_next_seq d + len xs < 2 ^ 64 →
  ∃ d' rs, deliver_all xs d = (Ok tt, d') ∧ delivered_from (d_next_seq d) xs rs ∧
    shared_spool (d_shared d') = SpoolBuffer (foldl (λ b r, BufferSpool_append r b) b rs).
Proof.
  revert d b g. induction xs as [|x xs IH]; intros d b g Hd H0 Hn.
  { exists d, []. rewrite Hd. split_and!; [done|constructor|done]. }
  rewrite len_cons in Hn. pose proof (len_nonneg xs). cbn [deliver_all]. unfold bind.
  destruct (deliver_eq x d) as (ts & d1 & -> & Ht & En & Es). rewrite Z.mod_small in En by lia.
  rewrite Hd, buffer_stored_by in Es. cbn [snd] in Es.
  destruct (IH d1 _ _ Es) as (d' & rs & E & Hr & Hs); [lia..|]. exists d', (delivered_record x (d_next_seq d) ts :: rs).
  split_and!; [done| |done]. constructor; [done|]. by rewrite <- En.
Qed.

(** Deliveries of log records become records of these, under consecutive numbers. *)
Lemma delivered_records {X} (f : nat → X → LjLogRecord) xs sq rs :
  delivered_from sq (imap (λ i x, OnRecord (f i x)) xs) rs →
  Forall2 (λ x r, ∃ i ts, r = delivered_record (OnRecord (f i x)) (wire_seq r) ts) xs rs ∧
  wire_seq <$> rs = (λ i, sq + Z.of_nat i) <$> List.seq 0 (length rs).
Proof.
  revert f sq rs. induction xs as [|x xs IH]; intros f sq rs; cbn [imap]; inversion 1 as [|? ? ? ts rs' Ht Hd]; subst.
  { by split; [constructor|]. }
  destruct (IH (λ i, f (S i)) (sq + 1) rs' Hd) as [H1 H2]. split.
  - constructor; [by exists 0%nat, ts|]. eapply Forall2_impl; [|exact H1]. intros y r (i & ts' & E). by exists (S i), ts'.
  - rewrite !fmap_cons, H2. cbn [length List.seq fmap list_fmap delivered_record wire_seq]. rewrite Z.add_0_r. f_equal.
    rewrite <- seq_shift, <- list_fmap_compose. apply list_fmap_ext. intros i y _. cbn. lia.
Qed.

(** *** Plugins that take every read *)

Context {P : Type} (handle : PluginHandle P).

(** Feeding the chunks makes the callbacks [ds] and never fails. *)
Inductive feeds : P → list (list Z) → list Delivery → P → Prop :=
| feeds_nil ctx : feeds ctx [] [] ctx
| feeds_cons ctx bytes chunks ds ds' ctx1 ctx2 :
    ph_feed handle ctx bytes = (0, ds, ctx1) → feeds ctx1 chunks ds' ctx2 → feeds ctx (bytes :: chunks) (ds ++ ds') ctx2.

Lemma client_loop_feeds chunks ctx ds ctx' d :
  Forall (λ c, c ≠ []) chunks → feeds ctx chunks ds ctx' → client_loop handle (Ok <$> chunks) ctx d = deliver_all ds d.
Proof.
  intros Hne Hf. revert d. induction Hf as [|ctx bytes chunks ds ds' ctx1 ctx2 Hb Hf IH]; intros d; [done|].
  apply Forall_cons_iff in Hne as [Hb0 Hne]. cbn [fmap list_fmap client_loop]. rewrite deliver_all_app.
  destruct bytes as [|b bytes]; [done|]. rewrite Hb. cbn [Z.eqb]. apply bind_ext. intros [] d1 _. by apply IH.
Qed.
End Facts.

(** ** The environment is put back *)

Lemma restore_other k prev env : k ∉ prev.*1 → restore_env prev env !! k = env !! k.
Proof.
  revert env. induction prev as [|[k' o] prev IH]; intros env Hk; [done|]. rewrite fmap_cons, not_elem_of_cons in Hk.
  destruct Hk as [Hne Hk]. destruct o; cbn [restore_env]; rewrite IH by done; [by rewrite lookup_insert_ne|by rewrite lookup_delete_ne].
Qed.

Lemma restore_lookup prev env k :
  NoDup prev.*1 → restore_env prev env !! k = default (env !! k) ((list_to_map prev : gmap text (option text)) !! k).
Proof.
  revert env. induction prev as [|[k' o] prev IH]; intros env Hn; [done|]. apply list.NoDup_cons in Hn as [Hk' Hn].
  cbn [list_to_map foldr]. destruct (decide (k = k')) as [->|Hne].
  - rewrite lookup_insert_eq. destruct o; cbn [restore_env default from_option id]; rewrite restore_other by done;
      [by rewrite lookup_insert_eq|by rewrite lookup_delete_eq].
  - rewrite lookup_insert_ne by done. destruct o; cbn [restore_env]; rewrite IH by done;
      [by rewrite lookup_insert_ne|by rewrite lookup_delete_ne].
Qed.

Lemma set_env_lookup plugin_env env prev env' k :
  set_plugin_env plugin_env env = Some (prev, env') → NoDup prev.*1 →
  (k ∈ prev.*1 → (list_to_map prev : gmap text (option text)) !! k = Some (env_var k env)) ∧ (k ∉ prev.*1 → env' !! k = env !! k).
Proof.
  revert env prev. induction plugin_env as [|entry plugin_env IH]; intros env prev; cbn [set_plugin_env].
  { intros [= <- <-] _. by split; [intros ?%elem_of_nil|]. }
  destruct (split_once 61 entry) as [[k0 v]|]; [|apply IH]. case_bool_decide; [done|].
  destruct (set_plugin_env plugin_env _) as [[prev' env1]|] eqn:E; [|done]. intros [= <- <-] [Hk0 Hn]%list.NoDup_cons.
  destruct (IH _ _ E Hn) as [H1 H2]. rewrite fmap_cons. cbn [fst list_to_map foldr]. split.
  - intros [->|Hk]%elem_of_cons; [by rewrite lookup_insert_eq|].
    destruct (decide (k = k0)) as [->|Hne]; [done|]. rewrite lookup_insert_ne by done. rewrite (H1 Hk). unfold env_var.
    by rewrite lookup_insert_ne.
  - intros [Hne Hk]%not_elem_of_cons. rewrite H2 by done. by rewrite lookup_insert_ne.
Qed.

Lemma restore_set plugin_env env prev env' :
  map_Forall (λ _ v, utf8_valid v = true) env → set_plugin_env plugin_env env = Some (prev, env') → NoDup prev.*1 →
  restore_env prev env' = env.
Proof.
  intros Hu Hs Hn. apply map_eq. intros k. rewrite restore_lookup by done.
  destruct (set_env_lookup _ _ _ _ k Hs Hn) as [H1 H2]. destruct (decide (k ∈ prev.*1)) as [Hk|Hk].
  - rewrite (H1 Hk). cbn. unfold env_var. destruct (env !! k) as [v|] eqn:E; [|done]. cbn. by rewrite (Hu k v E).
  - rewrite (not_elem_of_list_to_map_1 (M := gmap text) prev k Hk). by apply H2.
Qed.

(** An active plugin with distinct variables finds the environment as it was. *)
Theorem plugin_environment_restored `{EX : Externals, OP : OtlpParts, AV : !ArrayValues, LC : !LogsCodec, CK : Clock} {P}
    (plugin_env : list text) (load : Env → result IoError (PluginHandle P)) (env : Env) d r env' d' handle prev env1 :
  map_Forall (λ _ v, utf8_valid v = true) env → set_plugin_env plugin_env env = Some (prev, env1) → NoDup prev.*1 →
  load env1 = Ok handle → plugin_ingest_active plugin_env load env d = Some (r, env', d') → env' = env.
Proof.
  intros Hu Hs Hn Hl. unfold plugin_ingest_active. rewrite Hs. cbn [mbind option_bind]. rewrite Hl.
  destruct (run_active_plugin handle d) as [r1 d1]. intros [= _ <- _]. by eapply restore_set.
Qed.

(** With a name given twice, the first of the two values stays behind. *)
Theorem repeated_variable_stays :
  set_plugin_env [str "K=1"; str "K=2"] ∅ = Some ([(str "K", None); (str "K", Some (str "1"))], {[str "K" := str "2"]}) ∧
  restore_env [(str "K", None); (str "K", Some (str "1"))] {[str "K" := str "2"]} = ({[str "K" := str "1"]} : Env).
Proof. split; vm_compute; reflexivity. Qed.
