(* ===== verification/Syslog.v ===== *)
(** * The syslog plugin

    [plugins/syslog-ingest/src/lib.rs]: cutting a byte stream into lines, reading the
    priority and header of a line, and the record delivered for it; and the plugin under
    the host of [PluginHost].  The clock of the plugin is an argument, by the number of
    its readings. *)

From S2P Require Import Prelude Format Text Tokens Writer Reader Protocol Source BufferSpool FileSpool Spool ReplayServer Otlp Policy Ingest FlatRecord SampleCodec LibRequest Instances PluginHost.

(** ** Parsing *)

Record SyslogParsed : Type := mkSyslogParsed {
  sl_severity : Z;
  sl_severity_text : text;
  sl_facility_text : text;
  sl_hostname : text;
  sl_app_name : text;
  sl_body : text;
}.

(** [s.parse::<u32>()] *)
Definition parse_u32 (s : text) : option Z :=
  match parse_u64 s with Ok n => if n <=? MAX_U32 then Some n else None | Err _ => None end.

(** [s.splitn(n, c)] *)
Fixpoint splitn (n : nat) (c : Z) (s : text) : list text :=
  match n with
  | O => []
  | S n => match n with
           | O => [s]
           | _ => match split_once c s with Some (a, r) => a :: splitn n c r | None => [s] end
           end
  end.

(** [s.get(n..)]: the index must be at the start of a character or at the end. *)
Definition str_from (n : nat) (s : text) : option text :=
  match s !! n with
  | Some b => if continuation b then None else Some (drop n s)
  | None => if (length s =? n)%nat then Some [] else None
  end.

Definition map_syslog_severity (sev : Z) : Z * text :=
  if sev <=? 2 then (21, str "FATAL") else
  if sev =? 3 then (17, str "ERROR") else
  if sev =? 4 then (13, str "WARN") else
  if sev <=? 6 then (9, str "INFO") else
  if sev =? 7 then (5, str "DEBUG") else (1, str "TRACE").

Definition FACILITIES : list text := Eval vm_compute in
  str <$> ["kern"; "user"; "mail"; "daemon"; "auth"; "syslog"; "lpr"; "news"; "uucp"; "cron"; "authpriv"; "ftp"; "ntp"; "audit";
    "console"; "clock"; "local0"; "local1"; "local2"; "local3"; "local4"; "local5"; "local6"; "local7"].
Definition facility_name (facility : Z) : text := default (str "unknown") (FACILITIES !! Z.to_nat facility).

Definition MONTHS : list text := Eval vm_compute in
  str <$> ["Jan"; "Feb"; "Mar"; "Apr"; "May"; "Jun"; "Jul"; "Aug"; "Sep"; "Oct"; "Nov"; "Dec"].
Definition looks_like_month (s : text) : bool := bool_decide (s ∈ MONTHS).

(** [app: body] or [app[pid]: body] *)
Definition split_app_body (s : text) : text * text :=
  match split_once 58 s with
  | Some (app_raw, rest) =>
      (trim_text (default app_raw (list.head (split_on 91 app_raw))), trim_start rest)
  | None => ([], s)
  end.

Definition extract_header_fields (msg : text) : text * text * text :=
  match splitn 4 32 msg with
  | month :: _ :: _ :: rest :: _ =>
      if looks_like_month month then
        let '(hostname, after_host) := default (rest, []) (split_once 32 rest) in
        let '(app_name, body) := split_app_body after_host in
        (hostname, app_name, body)
      else
        let '(app, bod) := split_app_body (default [] (splitn 3 32 msg !! 2%nat)) in (month, app, bod)
  | host :: _ :: _ :: _ =>
      let '(app, bod) := split_app_body (default [] (splitn 3 32 msg !! 2%nat)) in (host, app, bod)
  | _ => ([], [], msg)
  end.

Definition parse_syslog (line : text) : SyslogParsed :=
  let fallback := mkSyslogParsed 9 (str "INFO") (str "user") [] [] line in
  match strip_prefix line [60] with
  | None => fallback
  | Some rest =>
      match split_once 62 rest with
      | None => fallback
      | Some (digits, after_pri) =>
          match parse_u32 digits with
          | None => fallback
          | Some pri =>
              let facility := Z.shiftr pri 3 in
              let syslog_severity := Z.land pri 7 in
              let '(otel_severity, severity_text) := map_syslog_severity syslog_severity in
              let msg :=
                match after_pri with
                | b :: _ => if is_ascii_digit b then default after_pri (str_from 2 after_pri) else after_pri
                | [] => after_pri
                end in
              let '(hostname, app_name, body) := extract_header_fields msg in
              mkSyslogParsed otel_severity severity_text (facility_name facility) hostname app_name body
          end
      end
  end.

(** ** Records *)

Definition is_ascii_whitespace (b : Z) : bool := bool_decide (b ∈ [32; 9; 10; 12; 13]).
Definition strip_trailing_whitespace (data : list Z) : list Z := trim_end_matches is_ascii_whitespace data.

(** NUL bytes become spaces. *)
Definition cstring_lossy (s : text) : list Z := (λ b, if b =? 0 then 32 else b) <$> s.

Definition string_attr (key : string) (value : text) : LjAttribute := mkLjAttribute (Some (str key)) (Some (cstring_lossy value)) LJ_ATTR_STRING.

Definition syslog_record (ts : Z) (line : list Z) : LjLogRecord :=
  let parsed := parse_syslog (from_utf8_lossy line) in
  mkLjLogRecord ts (sl_severity parsed) (Some (cstring_lossy (sl_severity_text parsed))) (Some (cstring_lossy (sl_body parsed)))
    (Some [string_attr "syslog.facility" (sl_facility_text parsed); string_attr "syslog.hostname" (sl_hostname parsed);
           string_attr "syslog.appname" (sl_app_name parsed)])
    None None None None None.

(** ** The plugin *)

Record SyslogPlugin : Type := mkSyslogPlugin { sp_buf : list Z; sp_callback : bool; sp_readings : nat }.

Definition LINE_LIMIT : Z := 256 * 1024.

Section Plugin.
Context (now : nat → Z).

Definition syslog_create : SyslogPlugin := mkSyslogPlugin [] false 0.
Definition syslog_set_callback (ctx : SyslogPlugin) : SyslogPlugin := mkSyslogPlugin (sp_buf ctx) true (sp_readings ctx).

Definition syslog_emit (ctx : SyslogPlugin) (line : list Z) : list Delivery * SyslogPlugin :=
  if negb (sp_callback ctx) then ([], ctx) else
  ([OnRecord (syslog_record (now (sp_readings ctx)) line)], mkSyslogPlugin (sp_buf ctx) true (S (sp_readings ctx))).

(** The loop takes a line with its newline from the front of the buffer. *)
Fixpoint feed_lines (fuel : nat) (ctx : SyslogPlugin) : list Delivery * SyslogPlugin :=
  match fuel with
  | O => ([], ctx)
  | S fuel =>
      match split_once 10 (sp_buf ctx) with
      | None => ([], ctx)
      | Some (line, rest) =>
          let ctx := mkSyslogPlugin rest (sp_callback ctx) (sp_readings ctx) in
          let trimmed := strip_trailing_whitespace (line ++ [10]) in
          let '(ds, ctx) := if bool_decide (trimmed = []) then ([], ctx) else syslog_emit ctx trimmed in
          let '(ds', ctx) := feed_lines fuel ctx in
          (ds ++ ds', ctx)
      end
  end.

Definition syslog_feed (ctx : SyslogPlugin) (bytes : list Z) : Called SyslogPlugin :=
  let ctx := mkSyslogPlugin (sp_buf ctx ++ bytes) (sp_callback ctx) (sp_readings ctx) in
  let '(ds, ctx) := feed_lines (S (length (sp_buf ctx))) ctx in
  let ctx := if LINE_LIMIT <? len (sp_buf ctx) then mkSyslogPlugin [] (sp_callback ctx) (sp_readings ctx) else ctx in
  (0, ds, ctx).

(** What the library exports. *)
Definition syslog_plugin : PluginHandle SyslogPlugin :=
  mkPluginHandle _ (Some syslog_create) syslog_set_callback syslog_feed None None.
End Plugin.

(** ** Lines, however the bytes are cut *)

(** The complete lines of a stream after a beginning [cur], and what is left. *)
Fixpoint cut_lines (cur s : list Z) : list (list Z) * list Z :=
  match s with
  | [] => ([], cur)
  | b :: s => if b =? 10 then let '(ls, r) := cut_lines [] s in (cur :: ls, r) else cut_lines (cur ++ [b]) s
  end.

Lemma cut_lines_app cur s t :
  cut_lines cur (s ++ t) = let '(l1, r1) := cut_lines cur s in let '(l2, r2) := cut_lines r1 t in (l1 ++ l2, r2).
Proof.
  revert cur. induction s as [|b s IH]; intros cur; cbn [app cut_lines]; [by destruct (cut_lines cur t)|].
  destruct (b =? 10); [|apply IH]. rewrite IH. destruct (cut_lines [] s) as [l1 r1]. by destruct (cut_lines r1 t).
Qed.

Lemma cut_lines_split cur s :
  cut_lines cur s = match split_once 10 s with
                    | None => ([], cur ++ s)
                    | Some (line, rest) => let '(ls, r) := cut_lines [] rest in ((cur ++ line) :: ls, r)
                    end.
Proof.
  revert cur. induction s as [|b s IH]; intros cur; cbn [cut_lines split_once]; [by rewrite app_nil_r|].
  destruct (b =? 10); [by rewrite app_nil_r|]. rewrite IH. destruct (split_once 10 s) as [[line rest]|].
  - by rewrite <- app_assoc.
  - by rewrite <- app_assoc.
Qed.

Lemma split_once_length c s a r : split_once c s = Some (a, r) → (length r < length s)%nat.
Proof.
  revert a r. induction s as [|b s IH]; intros a r; cbn; [done|]. destruct (b =? c); [intros [= <- <-]; lia|].
  destruct (split_once c s) as [[a' r']|]; [|done]. intros [= <- <-]. specialize (IH _ _ eq_refl). lia.
Qed.

(** A line that is not finished is no longer than the one it becomes. *)
Lemma cut_lines_first cur s : ∃ x, list.head ((cut_lines cur s).1 ++ [(cut_lines cur s).2]) = Some x ∧ (length cur ≤ length x)%nat.
Proof.
  rewrite cut_lines_split. destruct (split_once 10 s) as [[line rest]|].
  - destruct (cut_lines [] rest). cbn. eexists. split; [done|]. rewrite length_app. lia.
  - cbn. eexists. split; [done|]. rewrite length_app. lia.
Qed.

Section Lines.
Context (now : nat → Z).

(** The deliveries for lines, from a number of clock readings on. *)
Definition solid_lines (ls : list (list Z)) : list (list Z) :=
  filter (λ l, l ≠ []) ((λ l, strip_trailing_whitespace (l ++ [10])) <$> ls).
Definition line_deliveries (n : nat) (ls : list (list Z)) : list Delivery :=
  imap (λ i l, OnRecord (syslog_record (now (n + i)%nat) l)) (solid_lines ls).

Lemma solid_lines_app ls ls' : solid_lines (ls ++ ls') = solid_lines ls ++ solid_lines ls'.
Proof. unfold solid_lines. by rewrite fmap_app, list.filter_app. Qed.

Lemma line_deliveries_app n ls ls' :
  line_deliveries n (ls ++ ls') = line_deliveries n ls ++ line_deliveries (n + length (solid_lines ls)) ls'.
Proof.
  unfold line_deliveries. rewrite solid_lines_app, imap_app. f_equal. apply imap_ext. intros i l _. cbn. by rewrite Nat.add_assoc.
Qed.

Lemma feed_lines_eq fuel buf n :
  (length buf < fuel)%nat →
  feed_lines now fuel (mkSyslogPlugin buf true n) =
    let '(ls, r) := cut_lines [] buf in (line_deliveries n ls, mkSyslogPlugin r true (n + length (solid_lines ls))).
Proof.
  revert buf n. induction fuel as [|fuel IH]; intros buf n Hf; [lia|]. cbn [feed_lines sp_buf sp_callback sp_readings].
  rewrite cut_lines_split. destruct (split_once 10 buf) as [[line rest]|] eqn:E; [|by rewrite Nat.add_0_r].
  apply split_once_length in E. cbn [app]. specialize (IH rest). unfold syslog_emit. cbn [negb sp_callback sp_buf sp_readings].
  destruct (cut_lines [] rest) as [ls r]. unfold line_deliveries, solid_lines. rewrite fmap_cons, filter_cons.
  case_bool_decide as Ht; [rewrite decide_False by tauto|rewrite decide_True by done]; rewrite IH by lia; [done|].
  cbn [app imap length]. rewrite Nat.add_0_r, Nat.add_succ_r. do 2 f_equal. unfold line_deliveries, solid_lines.
  apply imap_ext. intros i l _. cbn. by rewrite Nat.add_succ_r.
Qed.

Lemma cut_lines_begun cur s : 10 ∉ cur → cut_lines [] (cur ++ s) = cut_lines cur s.
Proof.
  intros Hc. rewrite cut_lines_app. replace (cut_lines [] cur) with (@nil (list Z), cur); [by destruct (cut_lines cur s)|].
  rewrite cut_lines_split. destruct (split_once 10 cur) as [[a r]|] eqn:E; [|done].
  exfalso. revert a r E. induction cur as [|b cur IH]; [done|]. cbn. apply not_elem_of_cons in Hc as [Hb Hc].
  destruct (Z.eqb_spec b 10); [congruence|]. intros a r. destruct (split_once 10 cur) as [[]|]; [|done]. intros _. by eapply IH.
Qed.

Lemma cut_lines_rest cur s : 10 ∉ cur → 10 ∉ (cut_lines cur s).2.
Proof.
  revert cur. induction s as [|b s IH]; intros cur Hc; cbn [cut_lines]; [done|].
  destruct (Z.eqb_spec b 10) as [|Hb].
  - specialize (IH [] (not_elem_of_nil _)). by destruct (cut_lines [] s).
  - apply IH. rewrite elem_of_app, list_elem_of_singleton. intros [?|?]; congruence.
Qed.

(** However the bytes of a connection are cut into reads, the plugin delivers the records
    of the finished lines. *)
Lemma syslog_feeds chunks buf n ls r :
  cut_lines buf (concat chunks) = (ls, r) → 10 ∉ buf → Forall (λ l, len l ≤ LINE_LIMIT) (ls ++ [r]) →
  feeds (syslog_plugin now) (mkSyslogPlugin buf true n) chunks (line_deliveries n ls)
    (mkSyslogPlugin r true (n + length (solid_lines ls))).
Proof.
  revert buf n ls r. induction chunks as [|c chunks IH]; intros buf n ls r; cbn [concat].
  { intros [= <- <-] _ _. rewrite Nat.add_0_r. constructor. }
  rewrite cut_lines_app. pose proof (cut_lines_rest buf c) as Hr1. destruct (cut_lines buf c) as [l1 r1] eqn:E1.
  pose proof (cut_lines_first r1 (concat chunks)) as (x & Hx & Hlx). destruct (cut_lines r1 (concat chunks)) as [l2 r2] eqn:E2.
  intros [= <- <-] Hb Hall. rewrite <- app_assoc in Hall. apply Forall_app in Hall as [_ Hall].
  rewrite line_deliveries_app, solid_lines_app, length_app, Nat.add_assoc.
  eapply feeds_cons; [|apply (IH r1 _ l2 r2 E2); [by apply Hr1|done]].
  cbn [ph_feed syslog_plugin]. unfold syslog_feed. cbn [sp_buf sp_callback sp_readings].
  rewrite feed_lines_eq by lia. rewrite cut_lines_begun, E1 by done. cbn [sp_buf sp_callback sp_readings].
  replace (LINE_LIMIT <? len r1) with false; [done|]. symmetry. apply Z.ltb_ge.
  cbn [fst snd] in Hx. assert (len x ≤ LINE_LIMIT) by (destruct (l2 ++ [r2]); [done|]; injection Hx as ->; by apply Forall_cons_iff in Hall as [? _]).
  unfold len in *. lia.
Qed.
End Lines.

(** ** The plugin under its host *)

Section Hosted.
Context {EX : Externals} {OP : OtlpParts} {AV : ArrayValues} {LC : LogsCodec} {LW : LogsCodecLaws} {CK : Clock} (now : nat → Z).

(** What a stored log record says of a syslog line. *)
Definition describes_line (line : list Z) (r : WireRecord) : Prop :=
  let parsed := parse_syslog (from_utf8_lossy line) in
  wire_type r = Logs ∧
  ∃ log, decode_logs (wire_payload r) =
      Ok (mkLogsRequest [resource_of [] [scope_of (mkInstrumentationScope (str "lj-ingest-plugin") [] [] 0) [log]]]) ∧
    lr_time_unix_nano log = wire_ts r ∧ lr_severity_number log = sl_severity parsed ∧
    lr_body log = Some (string_value (from_utf8_lossy (cstring_lossy (sl_body parsed)))) ∧
    lr_attributes log = [
      key_value (str "syslog.facility") (string_value (from_utf8_lossy (cstring_lossy (sl_facility_text parsed))));
      key_value (str "syslog.hostname") (string_value (from_utf8_lossy (cstring_lossy (sl_hostname parsed))));
      key_value (str "syslog.appname") (string_value (from_utf8_lossy (cstring_lossy (sl_app_name parsed))))].

Lemma delivered_lines sq n ls rs :
  delivered_from sq (line_deliveries now n ls) rs →
  Forall2 describes_line (solid_lines ls) rs ∧ wire_seq <$> rs = (λ i, sq + Z.of_nat i) <$> List.seq 0 (length rs).
Proof.
  intros [H1 H2]%(delivered_records (λ i l, syslog_record (now (n + i)%nat) l)). split; [|done].
  eapply Forall2_impl; [|exact H1]. intros l r (i & ts & ->). split; [done|]. cbn [delivered_record wire_payload].
  unfold build_otlp_payload. rewrite decode_encode_logs. eexists. by split_and!.
Qed.

End Hosted.

(** ** What a line says *)

(** [<pri>Mon DD HH:MM:SS host app[pid]: body] *)
Definition rfc3164 (facility severity : Z) (month day time host name : text) (pid : option text) (body : text) : text :=
  [60] ++ u64_to_string (8 * facility + severity) ++ [62] ++ month ++ [32] ++ day ++ [32] ++ time ++ [32] ++ host ++ [32] ++
  name ++ match pid with Some pid => [91] ++ pid ++ [93] | None => [] end ++ [58; 32] ++ body.

Lemma splitn_at n c a r : c ∉ a → splitn (S (S n)) c (a ++ c :: r) = a :: splitn (S n) c r.
Proof. intros Ha. cbn [splitn]. by rewrite split_once_at. Qed.

Lemma split_char_at c cur a r : c ∉ a → split_char c cur (a ++ c :: r) = (cur ++ a) :: split_char c [] r.
Proof.
  revert cur. induction a as [|b a IH]; intros cur Ha; cbn [app split_char]; [by rewrite Z.eqb_refl, app_nil_r|].
  apply not_elem_of_cons in Ha as [Hb Ha]. destruct (Z.eqb_spec b c); [congruence|]. rewrite IH by done. by rewrite <- app_assoc.
Qed.
Lemma split_char_none c cur a : c ∉ a → split_char c cur a = [cur ++ a].
Proof.
  revert cur. induction a as [|b a IH]; intros cur Ha; cbn [split_char]; [by rewrite app_nil_r|].
  apply not_elem_of_cons in Ha as [Hb Ha]. destruct (Z.eqb_spec b c); [congruence|]. rewrite IH by done. by rewrite <- app_assoc.
Qed.

Lemma split_app_body_at name pid body :
  58 ∉ name → 91 ∉ name → trim_text name = name → (∀ p, pid = Some p → 58 ∉ p) → trim_start body = body →
  split_app_body (name ++ match pid with Some pid => [91] ++ pid ++ [93] | None => [] end ++ [58; 32] ++ body) = (name, body).
Proof.
  intros H1 H2 Ht Hp Hb. unfold split_app_body. rewrite app_assoc. cbn [app].
  assert (58 ∉ name ++ match pid with Some pid => 91 :: pid ++ [93] | None => [] end) as Hc.
  { destruct pid as [p|]; [|by rewrite app_nil_r]. specialize (Hp p eq_refl). set_solver. }
  rewrite split_once_at, trim_start_space, Hb by done. f_equal. unfold split_on.
  destruct pid as [p|]; [rewrite split_char_at by done|rewrite app_nil_r, split_char_none by done]; done.
Qed.

(** A syslog line.  A line in the form of RFC 3164 whose parts hold none of the
    separators is read back as these parts: severity and facility from the priority, the
    host, the application without its process number, and the text. *)
Theorem rfc3164_line_parsed facility severity month day time host name pid body :
  0 ≤ facility < 24 → 0 ≤ severity < 8 → month ∈ MONTHS → 32 ∉ day → 32 ∉ time → 32 ∉ host →
  58 ∉ name → 91 ∉ name → trim_text name = name → (∀ p, pid = Some p → 58 ∉ p) → trim_start body = body →
  parse_syslog (rfc3164 facility severity month day time host name pid body) =
    mkSyslogParsed (map_syslog_severity severity).1 (map_syslog_severity severity).2 (facility_name facility) host name body.
Proof.
  intros Hf Hs Hm Hd Ht Hh H1 H2 Ha Hp Hb. unfold parse_syslog, rfc3164. rewrite strip_prefix_app.
  assert (is_u64 (8 * facility + severity)) as Hu by int_solve. destruct (u64_to_string_spec _ Hu) as (_ & Hdig & _).
  set (rest := month ++ _). cbn [app]. rewrite split_once_at.
  2:{ intros Hin. rewrite list.Forall_forall in Hdig. apply Hdig in Hin. unfold digit_byte in Hin. lia. }
  unfold parse_u32. rewrite parse_u64_to_string by done.
  replace (8 * facility + severity <=? MAX_U32) with true by (symmetry; apply Z.leb_le; unfold MAX_U32; lia).
  replace (Z.shiftr (8 * facility + severity) 3) with facility by (rewrite Z.shiftr_div_pow2 by lia; change (2 ^ 3) with 8; Z.to_euclidean_division_equations; lia).
  replace (Z.land (8 * facility + severity) 7) with severity by (change 7 with (Z.ones 3); rewrite Z.land_ones by lia; change (2 ^ 3) with 8; Z.to_euclidean_division_equations; lia).
  destruct (map_syslog_severity severity) as [n txt]. cbn [fst snd].
  assert (looks_like_month month = true ∧ 32 ∉ month ∧
    match rest with b :: _ => if is_ascii_digit b then default rest (str_from 2 rest) else rest | [] => rest end = rest) as (Hl & Hms & ->).
  { split; [by apply bool_decide_eq_true|]. subst rest.
    repeat (apply elem_of_cons in Hm as [->|Hm]; [split; [set_solver by lia|done]|]). by apply elem_of_nil in Hm. }
  subst rest. unfold extract_header_fields. cbn [app]. rewrite !splitn_at by done. cbn [splitn]. rewrite Hl.
  rewrite split_once_at by done. cbn [default from_option id].
  pose proof (split_app_body_at name pid body H1 H2 Ha Hp Hb) as E. cbn [app] in E. by rewrite E.
Qed.

(** ** The theorems apply *)

Lemma rfc3164_line_parsed_witness :
  parse_syslog (str "<34>Oct 11 22:14:15 box sshd[1234]: accepted key") =
    mkSyslogParsed 21 (str "FATAL") (str "auth") (str "box") (str "sshd") (str "accepted key").
Proof.
  apply (rfc3164_line_parsed 4 2 (str "Oct") (str "11") (str "22:14:15") (str "box") (str "sshd") (Some (str "1234")) (str "accepted key"));
    try lia; try reflexivity; try (by apply (bool_decide_unpack _); vm_compute); try (apply (bool_decide_unpack _); vm_compute; exact I).
  intros p [= <-]. apply (bool_decide_unpack _). vm_compute. exact I.
Defined.

(** RFC 3164 pads a day below ten with a second space: the time is taken for the host, and
    the host becomes part of the application. *)
Theorem padded_day_shifts_fields :
  parse_syslog (str "<13>Oct  1 22:14:15 box sshd: accepted key") =
    mkSyslogParsed 9 (str "INFO") (str "user") (str "22:14:15") (str "box sshd") (str "accepted key").
Proof. vm_compute. reflexivity. Qed.

(** In any other form the second word is lost: for RFC 5424 the time is taken for the host
    and the host appears nowhere. *)
Theorem other_forms_lose_second_word :
  parse_syslog (str "<165>1 2023-10-11T22:14:15Z myhost myapp - - - boom") =
    mkSyslogParsed 9 (str "INFO") (str "local4") (str "2023-10-11T22:14:15Z") [] (str "myapp - - - boom") ∧
  parse_syslog (str "<13>box sshd: accepted key") = mkSyslogParsed 9 (str "INFO") (str "user") (str "box") [] (str "accepted key").
Proof. split; vm_compute; reflexivity. Qed.

Section Sample.
#[local] Existing Instance stored_externals.
#[local] Existing Instance sample_parts.
#[local] Existing Instance logs_codec.
#[local] Existing Instance logs_codec_laws.
#[local] Existing Instance sample_clock.
#[local] Instance syslog_array_values : ArrayValues := λ _, tt.

Definition sample_chunks : list (list Z) := Eval vm_compute in
  [str "<34>Oct 11 22:14:15 box su: fai"; str "led" ++ [13; 10; 32; 10] ++ str "plain text" ++ [10]; str "not finished"].

End Sample.
