(* ===== verification/Logcat.v ===== *)
(** * The logcat plugin

    [plugins/logcat-ingest/src/lib.rs]: reading the lines of standard input, the two
    formats of a line, and the records delivered; and the plugin under the host of
    [PluginHost].  The clock of the plugin is an argument, by the number of its
    readings. *)

From S2P Require Import Prelude Format Text Tokens Writer Reader Protocol Source BufferSpool FileSpool Spool ReplayServer Otlp Policy Ingest FlatRecord SampleCodec LibRequest Instances PluginHost Syslog.

(** ** Parsing *)

Record LogcatParsed : Type := mkLogcatParsed {
  lc_severity : Z;
  lc_severity_text : text;
  lc_pid : text;
  lc_tid : text;
  lc_tag : text;
  lc_body : text;
}.

(** [s.find(pat)], as the text before the first match and the text after it. *)
Fixpoint split_at_text (pat s : text) : option (text * text) :=
  match s with
  | [] => if decide (pat = []) then Some ([], []) else None
  | b :: s' =>
      if starts_with s pat then Some ([], drop (length pat) s) else
      match split_at_text pat s' with Some (l, r) => Some (b :: l, r) | None => None end
  end.

(** [s.find(char::is_whitespace)]: the text before and from there on. *)
Fixpoint split_at_whitespace (s : text) : option (text * text) :=
  match s with
  | [] => None
  | b :: s' =>
      match leading_whitespace s with
      | Some _ => Some ([], s)
      | None => match split_at_whitespace s' with Some (l, r) => Some (b :: l, r) | None => None end
      end
  end.
Definition split_first_token (s : text) : option (text * text) := split_at_whitespace (trim_start s).

Definition map_logcat_level (ch : Z) : Z * text :=
  if ch =? 86 then (1, str "TRACE") else
  if ch =? 68 then (5, str "DEBUG") else
  if ch =? 73 then (9, str "INFO") else
  if ch =? 87 then (13, str "WARN") else
  if ch =? 69 then (17, str "ERROR") else
  if (ch =? 70) || (ch =? 65) || (ch =? 83) then (21, str "FATAL") else (9, str "INFO").

Definition try_threadtime (line : text) : option LogcatParsed :=
  if len line <? 25 then None else
  if negb (bool_decide (line !! 2%nat = Some 45) && bool_decide (line !! 5%nat = Some 32) && bool_decide (line !! 8%nat = Some 58)) then None else
  rest ← str_from 18 line;
  '(pid, rest) ← split_first_token (trim_start rest);
  '(tid, rest) ← split_first_token (trim_start rest);
  let rest := trim_start rest in
  level ← list.head rest;
  rest ← str_from 1 rest;
  let rest := trim_start rest in
  let '(tag, body) :=
    match split_at_text [58; 32] rest with Some (tag, body) => (trim_text tag, body) | None => (trim_text rest, []) end in
  let '(severity, severity_text) := map_logcat_level level in
  Some (mkLogcatParsed severity severity_text pid tid tag body).

Definition try_brief (line : text) : option LogcatParsed :=
  if (len line <? 4) || negb (bool_decide (line !! 1%nat = Some 47)) then None else
  level ← list.head line;
  let rest := drop 2 line in
  let '(tag_pid, body) :=
    match split_at_text [41; 58; 32] rest with Some (l, r) => (l ++ [41], trim_start r) | None => (rest, []) end in
  let '(tag, pid) :=
    match split_once 40 tag_pid with
    | Some (tag, r) => (tag, trim_text (trim_end_matches (λ b, b =? 41) r))
    | None => (tag_pid, [])
    end in
  let '(severity, severity_text) := map_logcat_level level in
  Some (mkLogcatParsed severity severity_text pid [] tag body).

Definition parse_logcat (line : text) : LogcatParsed :=
  match try_threadtime line with
  | Some parsed => parsed
  | None => match try_brief line with
            | Some parsed => parsed
            | None => mkLogcatParsed 9 (str "INFO") [] [] [] line
            end
  end.

Definition logcat_record (ts : Z) (line : text) : LjLogRecord :=
  let parsed := parse_logcat line in
  mkLjLogRecord ts (lc_severity parsed) (Some (cstring_lossy (lc_severity_text parsed))) (Some (cstring_lossy (lc_body parsed)))
    (Some [string_attr "logcat.tag" (lc_tag parsed); string_attr "logcat.pid" (lc_pid parsed); string_attr "logcat.tid" (lc_tid parsed)])
    None None None None None.

(** ** The plugin *)

(** [BufRead::lines] on input that ends or fails: a last line without a newline counts,
    unless the input fails. *)
Definition input_lines (input : list Z) (failure : option IoError) : list (list Z) :=
  let '(ls, r) := cut_lines [] input in
  (strip_cr <$> ls) ++ match failure, r with None, _ :: _ => [r] | _, _ => [] end.

Record LogcatPlugin : Type := mkLogcatPlugin { lp_callback : bool; lp_readings : nat }.

Section Plugin.
Context (now : nat → Z) (stdin : list Z) (failure : option IoError).

Definition logcat_create : LogcatPlugin := mkLogcatPlugin false 0.
Definition logcat_set_callback (ctx : LogcatPlugin) : LogcatPlugin := mkLogcatPlugin true (lp_readings ctx).

Definition logcat_emit (ctx : LogcatPlugin) (line : text) : list Delivery * LogcatPlugin :=
  if negb (lp_callback ctx) then ([], ctx) else
  ([OnRecord (logcat_record (now (lp_readings ctx)) line)], mkLogcatPlugin true (S (lp_readings ctx))).

(** The loop of [lj_ingest_fetch]: a line that is not UTF-8 is an error, and ends it. *)
Fixpoint fetch_lines (ls : list (list Z)) (ctx : LogcatPlugin) : list Delivery * LogcatPlugin :=
  match ls with
  | [] => ([], ctx)
  | line :: ls =>
      if negb (utf8_valid line) then ([], ctx) else
      if bool_decide (line = []) then fetch_lines ls ctx else
      let '(ds, ctx) := logcat_emit ctx line in
      let '(ds', ctx) := fetch_lines ls ctx in
      (ds ++ ds', ctx)
  end.
Definition logcat_fetch (ctx : LogcatPlugin) : Called LogcatPlugin :=
  let '(ds, ctx) := fetch_lines (input_lines stdin failure) ctx in (0, ds, ctx).

Definition logcat_plugin : PluginHandle LogcatPlugin :=
  mkPluginHandle _ (Some logcat_create) logcat_set_callback (λ ctx _, (0, [], ctx)) (Some logcat_fetch) None.
End Plugin.

(** ** What a line says *)

Lemma trim_start_spaces n s : trim_start (replicate n 32 ++ s) = trim_start s.
Proof. induction n as [|n IH]; [done|]. cbn [replicate app]. by rewrite trim_start_space. Qed.

Lemma trim_spaces_solid n b s : solid b → trim_start (replicate n 32 ++ b :: s) = b :: s.
Proof. intros Hb. rewrite trim_start_spaces. by apply trim_start_solid. Qed.

Lemma leading_solid b s : solid b → leading_whitespace (b :: s) = None.
Proof.
  intros Hb. unfold leading_whitespace. destruct (list_find _ _) as [[i w]|] eqn:E; [|done].
  apply list_find_Some in E as (Hl & Hs & _). apply list_elem_of_lookup_2 in Hl. apply starts_with_head in Hs.
  pose proof (solid_no_whitespace b Hb) as Hw. rewrite list.Forall_forall in Hw. destruct (Hw w Hl) as (H1 & H2 & _). by destruct Hs.
Qed.

Lemma split_at_space tok r : Forall solid tok → split_at_whitespace (tok ++ 32 :: r) = Some (tok, 32 :: r).
Proof.
  induction 1 as [|b tok Hb _ IH]; [done|]. cbn [app split_at_whitespace]. by rewrite leading_solid, IH.
Qed.

Definition spaces (n : nat) : text := replicate (S n) 32.

(** The first token after spaces. *)
Lemma first_token n m tok r :
  tok ≠ [] → Forall solid tok → split_first_token (trim_start (spaces n ++ tok ++ spaces m ++ r)) = Some (tok, spaces m ++ r).
Proof.
  intros Hne Hs. destruct tok as [|b tok]; [done|]. pose proof Hs as [Hb _]%Forall_cons_iff.
  unfold spaces at 1. rewrite <- app_comm_cons, trim_spaces_solid by done.
  unfold split_first_token. rewrite trim_start_solid by done. by apply (split_at_space (b :: tok)).
Qed.

Lemma split_at_colon a r : 58 ∉ a → split_at_text [58; 32] (a ++ 58 :: 32 :: r) = Some (a, r).
Proof.
  induction a as [|b a IH]; intros Ha; cbn [app split_at_text].
  { by rewrite (proj2 (starts_with_true _ _)) by by exists r. }
  apply not_elem_of_cons in Ha as [Hb Ha]. rewrite IH by done.
  destruct (starts_with _ _) eqn:E; [|done]. apply starts_with_true in E as [? [= ? _]]. congruence.
Qed.

Lemma trim_tag b tag n : solid b → Forall solid tag → trim_text ((b :: tag) ++ replicate n 32) = b :: tag.
Proof.
  intros Hb Ht. unfold trim_text. rewrite <- app_comm_cons, trim_start_solid, app_comm_cons, trim_end_spaces by done.
  destruct (list.last (b :: tag)) as [c|] eqn:E; [|by apply last_None in E]. apply last_Some in E as [l E]. rewrite E.
  apply trim_end_solid. assert (c ∈ b :: tag) as Hc by (rewrite E; set_solver).
  assert (Forall solid (b :: tag)) as Hall by by constructor. rewrite list.Forall_forall in Hall. by apply Hall.
Qed.

(** [MM-DD HH:MM:SS.mmm PID TID L TAG : message], with the spaces of a column layout. *)
Definition threadtime (stamp pid tid : text) (level : Z) (tag message : text) (n1 n2 n3 n4 n5 : nat) : text :=
  stamp ++ spaces n1 ++ pid ++ spaces n2 ++ tid ++ spaces n3 ++ [level] ++ spaces n4 ++ tag ++ replicate n5 32 ++ [58; 32] ++ message.

(** A logcat line.  A line of the threadtime format, whatever its column layout and its
    message, is read back as its process and thread numbers, level, tag and message. *)
Theorem threadtime_line_parsed stamp pid tid level tag message n1 n2 n3 n4 n5 :
  length stamp = 18%nat → stamp !! 2%nat = Some 45 → stamp !! 5%nat = Some 32 → stamp !! 8%nat = Some 58 →
  pid ≠ [] → Forall solid pid → tid ≠ [] → Forall solid tid → solid level → tag ≠ [] → Forall solid tag → 58 ∉ tag →
  parse_logcat (threadtime stamp pid tid level tag message n1 n2 n3 n4 n5) =
    mkLogcatParsed (map_logcat_level level).1 (map_logcat_level level).2 pid tid tag message.
Proof.
  intros Hl H2 H5 H8 Hp0 Hp Ht0 Ht Hv Hg0 Hg Hc. unfold parse_logcat, threadtime, try_threadtime.
  set (rest := spaces n1 ++ _). rewrite !lookup_app_l, H2, H5, H8 by lia.
  replace (len (stamp ++ rest) <? 25) with false.
  2:{ symmetry. apply Z.ltb_ge. subst rest. unfold spaces, len. rewrite !length_app, !length_replicate, Hl.
      destruct pid, tid, tag; try done. cbn [length]. lia. }
  rewrite !bool_decide_true by done. cbn [andb negb].
  assert (str_from 18 (stamp ++ rest) = Some rest) as ->.
  { unfold str_from. rewrite lookup_app_r, Hl by lia. cbn. by rewrite drop_app_length'. }
  cbn [mbind option_bind]. subst rest. rewrite first_token by done. cbn [mbind option_bind].
  rewrite first_token by done. cbn [mbind option_bind]. unfold spaces at 1. rewrite <- (app_comm_cons [] _ level). cbn [app].
  rewrite trim_spaces_solid by done. cbn [list.head mbind option_bind].
  assert (str_from 1 (level :: spaces n4 ++ tag ++ replicate n5 32 ++ 58 :: 32 :: message) =
    Some (spaces n4 ++ tag ++ replicate n5 32 ++ 58 :: 32 :: message)) as -> by done.
  cbn [mbind option_bind]. destruct tag as [|g tag]; [done|]. apply Forall_cons_iff in Hg as [Hg Htag].
  unfold spaces. rewrite <- app_comm_cons, trim_spaces_solid, app_comm_cons, app_assoc by done.
  rewrite split_at_colon by (rewrite elem_of_app, elem_of_replicate; intros [?|[? _]]; done).
  rewrite trim_tag, trim_spaces_solid by done. cbn [list.head mbind option_bind]. by destruct (map_logcat_level level).
Qed.

(** ** The plugin under its host *)

(** The lines that are read: up to the first that is not UTF-8, without the empty ones. *)
Fixpoint readable_lines (ls : list (list Z)) : list (list Z) :=
  match ls with
  | [] => []
  | line :: ls => if utf8_valid line then (if decide (line = []) then readable_lines ls else line :: readable_lines ls) else []
  end.

Lemma fetch_lines_eq now ls n :
  (fetch_lines now ls (mkLogcatPlugin true n)).1 = imap (λ i l, OnRecord (logcat_record (now (n + i)%nat) l)) (readable_lines ls).
Proof.
  revert n. induction ls as [|line ls IH]; intros n; cbn [fetch_lines readable_lines]; [done|].
  destruct (utf8_valid line); cbn [negb]; [|done]. case_bool_decide; [by rewrite decide_True|rewrite decide_False by done].
  unfold logcat_emit. cbn [lp_callback lp_readings negb]. specialize (IH (S n)).
  destruct (fetch_lines now ls (mkLogcatPlugin true (S n))) as [ds ctx]. cbn [fst app imap] in *. rewrite Nat.add_0_r. f_equal.
  rewrite IH. apply imap_ext. intros i l _. cbn. by rewrite Nat.add_succ_r.
Qed.

Lemma readable_lines_len ls : (length (readable_lines ls) ≤ length ls)%nat.
Proof. induction ls as [|l ls IH]; cbn; [lia|]. destruct (utf8_valid l); [|cbn; lia]. case_decide; cbn; lia. Qed.

Section Hosted.
Context {EX : Externals} {OP : OtlpParts} {AV : ArrayValues} {LC : LogsCodec} {LW : LogsCodecLaws} {CK : Clock} (now : nat → Z).

(** What a stored log record says of a logcat line. *)
Definition describes_logcat (line : text) (r : WireRecord) : Prop :=
  let parsed := parse_logcat line in
  wire_type r = Logs ∧
  ∃ log, decode_logs (wire_payload r) =
      Ok (mkLogsRequest [resource_of [] [scope_of (mkInstrumentationScope (str "lj-ingest-plugin") [] [] 0) [log]]]) ∧
    lr_time_unix_nano log = wire_ts r ∧ lr_severity_number log = lc_severity parsed ∧
    lr_body log = Some (string_value (from_utf8_lossy (cstring_lossy (lc_body parsed)))) ∧
    lr_attributes log = [
      key_value (str "logcat.tag") (string_value (from_utf8_lossy (cstring_lossy (lc_tag parsed))));
      key_value (str "logcat.pid") (string_value (from_utf8_lossy (cstring_lossy (lc_pid parsed))));
      key_value (str "logcat.tid") (string_value (from_utf8_lossy (cstring_lossy (lc_tid parsed))))].

(** Logcat from standard input.  The active plugin ends without an error, and every line
    of the input up to the first that is not UTF-8, the empty ones left out, becomes one
    log record of the memory spool, in order and under consecutive sequence numbers,
    with the severity, tag, process, thread and text that the line parses to. *)
Theorem logcat_lines_stored stdin failure d b g :
  d_shared d = mkShared (SpoolBuffer b) g → 0 ≤ d_next_seq d → d_next_seq d + len (input_lines stdin failure) < 2 ^ 64 →
  ∃ d' rs, run_active_plugin (logcat_plugin now stdin failure) d = (Ok tt, d') ∧
    shared_spool (d_shared d') = SpoolBuffer (foldl (λ b r, BufferSpool_append r b) b rs) ∧
    Forall2 describes_logcat (readable_lines (input_lines stdin failure)) rs ∧
    wire_seq <$> rs = (λ i, d_next_seq d + Z.of_nat i) <$> List.seq 0 (length rs).
Proof.
  intros Hd H0 Hn. unfold run_active_plugin, plugin_context.
  cbn [ph_fetch ph_create ph_set_callback ph_set_generic_callback logcat_plugin mbind option_bind]. unfold logcat_fetch.
  pose proof (fetch_lines_eq now (input_lines stdin failure) 0) as E.
  change (logcat_set_callback logcat_create) with (mkLogcatPlugin true 0).
  destruct (fetch_lines now (input_lines stdin failure) (mkLogcatPlugin true 0)) as [ds ctx]. cbn [fst] in E. subst ds.
  destruct (deliver_all_buffer (imap (λ i l, OnRecord (logcat_record (now (0 + i)%nat) l)) (readable_lines (input_lines stdin failure))) d b g Hd H0)
    as (d' & rs & E & Hr & Hs).
  { unfold len in *. rewrite length_imap. pose proof (readable_lines_len (input_lines stdin failure)). lia. }
  apply (delivered_records (λ i l, logcat_record (now (0 + i)%nat) l)) in Hr as [H1 H2].
  exists d', rs. unfold bind. rewrite E. split_and!; [done|done| |done].
  eapply Forall2_impl; [|exact H1]. intros l r (i & ts & ->). split; [done|]. cbn [delivered_record wire_payload].
  unfold build_otlp_payload. rewrite decode_encode_logs. eexists. by split_and!.
Qed.
End Hosted.

(** ** The theorems apply *)

Lemma threadtime_line_parsed_witness :
  parse_logcat (str "06-11 22:14:15.123  1234  5678 I MyApp   : some message") =
    mkLogcatParsed 9 (str "INFO") (str "1234") (str "5678") (str "MyApp") (str "some message").
Proof.
  apply (threadtime_line_parsed (str "06-11 22:14:15.123") (str "1234") (str "5678") 73 (str "MyApp") (str "some message") 1 1 0 0 3);
    try reflexivity; try discriminate; try (unfold solid; lia);
    try match goal with |- Forall _ ?l =>
      let l' := eval vm_compute in l in change (Forall solid l'); repeat (apply Forall_cons_2; [unfold solid; lia|]); apply Forall_nil_2 end.
  apply (bool_decide_unpack _). vm_compute. exact I.
Defined.

Example brief_line :
  parse_logcat (str "E/MyApp( 1234): failed") = mkLogcatParsed 17 (str "ERROR") (str "1234") [] (str "MyApp") (str "failed").
Proof. vm_compute. reflexivity. Qed.

Section Sample.
#[local] Existing Instance stored_externals.
#[local] Existing Instance sample_parts.
#[local] Existing Instance logs_codec.
#[local] Existing Instance logs_codec_laws.
#[local] Existing Instance sample_clock.
#[local] Instance logcat_array_values : ArrayValues := λ _, tt.

Definition sample_stdin : list Z := Eval vm_compute in str "I/a(1): x" ++ [10; 10] ++ str "W/b(2): y" ++ [13; 10].

Lemma logcat_lines_stored_witness :
  ∃ d' rs, run_active_plugin (logcat_plugin (λ n, 500 + Z.of_nat n) sample_stdin None) sample_daemon = (Ok tt, d') ∧
    shared_spool (d_shared d') = SpoolBuffer (foldl (λ b r, BufferSpool_append r b) (BufferSpool_new 7 (mkBufferConfig (LimitMessages 10) 0)) rs) ∧
    Forall2 describes_logcat [str "I/a(1): x"; str "W/b(2): y"] rs ∧
    wire_seq <$> rs = (λ i, 1 + Z.of_nat i) <$> List.seq 0 (length rs).
Proof.
  apply (logcat_lines_stored (λ n, 500 + Z.of_nat n) sample_stdin None sample_daemon (BufferSpool_new 7 (mkBufferConfig (LimitMessages 10) 0)) 0).
  - reflexivity.
  - vm_compute. discriminate.
  - vm_compute. reflexivity.
Defined.

(** A byte that is not UTF-8 ends the reading: what follows is never stored, and the plugin
    reports success. *)
Theorem invalid_line_ends_input :
  let '(r, d') := run_active_plugin (logcat_plugin (λ n, 500 + Z.of_nat n) (str "I/a(1): x" ++ [10; 255; 10] ++ str "I/a(1): y" ++ [10]) None) sample_daemon in
  r = Ok tt ∧ length (src_records (shared_spool (d_shared d'))) = 1%nat.
Proof. vm_compute. by split. Qed.
End Sample.
