(* ===== verification/Discover.v ===== *)
(** * The discover command

    [ljx/src/commands/discover.rs]: a summary of what a dataset holds, file by file and in
    total, computed by worker threads, in pages of files.  A file is opened by an
    argument, the response is modelled up to its printing as JSON, and sums of counters
    wrap at 64 bits as in a release build. *)

From stdpp Require Import sorting relations.
From S2P Require Import Prelude Text Tokens Canon Format Writer Reader Instances Scan Container RecordLoop Otlp FlatRecord SampleCodec Cel Predicate DatasetIndex IndexTheorems ViewScan ViewTheorems Workers Dataset.

(** ** Counts of strings

    A [BTreeMap<String, u64>] is a finite map, listed in the order of its keys. *)

Abbreviation Counts := (gmap text Z).

Definition wrap_u64 (z : Z) : Z := z mod 2 ^ 64.
Definition increment_count (value : text) (counts : Counts) : Counts := <[value := wrap_u64 (default 0 (counts !! value) + 1)]> counts.
Definition merge_counts (target source : Counts) : Counts := union_with (λ a b, Some (wrap_u64 (a + b))) target source.

Definition CountRow : Type := text * Z.
Definition all_counts (counts : Counts) : list CountRow :=
  (λ k, (k, default 0 (counts !! k))) <$> sort_keys (map_to_list counts).*1.

(** [b.count.cmp(&a.count).then_with(|| a.value.cmp(&b.value))] *)
Definition row_le (a b : CountRow) : Prop := b.2 < a.2 ∨ a.2 = b.2 ∧ text_le a.1 b.1.
#[export] Instance row_le_dec : RelDecision row_le.
Proof. intros a b. unfold row_le. apply _. Defined.
Definition top_counts (counts : Counts) (limit : nat) : list CountRow := take limit (merge_sort row_le (all_counts counts)).

(** ** Spans of time *)

Record TimeSpan : Type := mkTimeSpan { ts_first : option Z; ts_last : option Z }.
Definition no_span : TimeSpan := mkTimeSpan None None.
Definition opt_min (o : option Z) (v : Z) : option Z := Some (match o with Some c => Z.min c v | None => v end).
Definition opt_max (o : option Z) (v : Z) : option Z := Some (match o with Some c => Z.max c v | None => v end).
Definition update_span (span : TimeSpan) (ts : Z) : TimeSpan := mkTimeSpan (opt_min (ts_first span) ts) (opt_max (ts_last span) ts).
Definition merge_span (target span : TimeSpan) : TimeSpan :=
  mkTimeSpan (match ts_first span with Some v => opt_min (ts_first target) v | None => ts_first target end)
    (match ts_last span with Some v => opt_max (ts_last target) v | None => ts_last target end).

(** ** Rows *)

Record FileSummary : Type := mkFileSummary {
  fr_path : text;
  fr_size : Z;
  fr_modified_unix_ns : option Z;
  fr_source_sequence_span : TimeSpan;
  fr_source_time_span : TimeSpan;
  fr_records_scanned : Z;
  fr_records_matched : Z;
  fr_log_events : Z;
  fr_time_span : TimeSpan;
  fr_skipped_by_index : bool;
}.
Record FileScan : Type := mkFileScan { fs_row : FileSummary; fs_services : Counts; fs_severities : Counts }.
Record LogEventSummary : Type := mkEventSummary { le_count : Z; le_services : Counts; le_severities : Counts }.

Definition count_overflow (field : string) : Error := NumericOverflow field.

Section Discover.
Context {OP : OtlpParts} {FL : Floats} {VT : ValueTrees} {LC : LogsCodec} {SC : SignalCodec} {CE : CelEngine} {MA : Matchers}.
Context {EX : Externals}.
Context (predicate : RecordPredicate) (service_filter severity_filter : option (list text)).

(** [find_map]: the first attribute of that name with a string. *)
Definition service_name (rl : ResourceLogs) : option text :=
  resource ← rl_resource rl;
  list.head (omap (λ a, if decide (kv_key a = str "service.name") then string_of (kv_value a) else None) (resource_attributes resource)).

Definition service_refused (service : option text) : bool :=
  match service_filter with
  | Some allowed => negb (match service with Some v => bool_decide (v ∈ allowed) | None => false end)
  | None => false
  end.
Definition severity_refused (severity : text) : bool :=
  match severity_filter with Some allowed => negb (bool_decide (severity ∈ allowed)) | None => false end.
Definition severity_label (severity : text) : text := if bool_decide (severity = []) then str "<unset>" else severity.

Definition summarise_log (service : option text) (acc : result Error LogEventSummary) (lr : LogRecordMessage)
    : result Error LogEventSummary :=
  let? s := acc in
  if severity_refused (lr_severity_text lr) then Ok s else
  let? count := ok_or (checked_add MAX_U64 (le_count s) 1) (count_overflow "discover log_events") in
  let services := match service with Some service => increment_count service (le_services s) | None => le_services s end in
  Ok (mkEventSummary count services (increment_count (severity_label (lr_severity_text lr)) (le_severities s))).
Definition summarise_resource (acc : result Error LogEventSummary) (rl : ResourceLogs) : result Error LogEventSummary :=
  let service := service_name rl in
  if service_refused service then acc else
  foldl (λ acc (sl : ScopeLogs), foldl (summarise_log service) acc (log_records sl)) acc (scope_logs rl).

Definition no_events : LogEventSummary := mkEventSummary 0 ∅ ∅.
Definition summarise_matching_log_events (record : OwnedRecord) : result Error LogEventSummary :=
  if negb (bool_decide (record_type record = Logs)) then Ok no_events else
  match decode_logs (payload record) with
  | Err _ => Ok no_events
  | Ok batch => foldl summarise_resource (Ok no_events) (resource_logs batch)
  end.

(** The body of the loop over the records of a file. *)
Definition scan_record (scan : FileScan) (record : OwnedRecord) : result Error FileScan :=
  let 'mkFileSummary path size modified seqs times scanned matched events span skipped := fs_row scan in
  let? scanned := ok_or (checked_add MAX_U64 scanned 1) (count_overflow "discover records_scanned") in
  if negb (matches predicate record)
  then Ok (mkFileScan (mkFileSummary path size modified seqs times scanned matched events span skipped) (fs_services scan) (fs_severities scan))
  else
  let? matched := ok_or (checked_add MAX_U64 matched 1) (count_overflow "discover records_matched") in
  let span := update_span span (ts_unix_ns record) in
  let? summary := summarise_matching_log_events record in
  let? events := ok_or (checked_add MAX_U64 events (le_count summary)) (count_overflow "discover log_events") in
  Ok (mkFileScan (mkFileSummary path size modified seqs times scanned matched events span skipped)
        (merge_counts (fs_services scan) (le_services summary)) (merge_counts (fs_severities scan) (le_severities summary))).
Definition discover_body : loop_body (result Error FileScan) := λ acc record,
  match acc with
  | Err e => (Err e, false)
  | Ok scan => match scan_record scan record with Ok scan => (Ok scan, true) | Err e => (Err e, false) end
  end.

Definition start_row (entry : DatasetEntry) (skipped : bool) : FileSummary :=
  mkFileSummary (entry_path entry) (entry_size entry) (entry_modified_ns entry)
    (mkTimeSpan (entry_first_seq entry) (entry_last_seq entry)) (mkTimeSpan (entry_first_ts_unix_ns entry) (entry_last_ts_unix_ns entry))
    0 0 0 no_span skipped.

(** [InputHandle::open], with what the file holds. *)
Context (open : DatasetEntry → result Error (list Z)).

(** [None] is an exhausted fuel, which [discover_entry_total] rules out. *)
Definition discover_entry (entry : DatasetEntry) : option (result Error FileScan) :=
  if match entry_index entry with Some index => negb (may_match (summary_digest (summary index)) predicate) | None => false end
  then Some (Ok (mkFileScan (start_row entry true) ∅ ∅)) else
  match open entry with
  | Err e => Some (Err e)
  | Ok data =>
      '(r, _) ← while_records discover_body (Ok (mkFileScan (start_row entry false) ∅ ∅)) (reader_new data);
      Some (flatten_result r)
  end.

(** ** Several files *)

Inductive DiscoverError : Type :=
| DiscoverFault (e : Error)
| MissingResult
| LimitZero
| OffsetPastEnd.

(** [entries.iter().map(scan_entry).collect()] *)
Fixpoint scan_in_order (entries : list DatasetEntry) : option (result DiscoverError (list FileScan)) :=
  match entries with
  | [] => Some (Ok [])
  | entry :: entries =>
      match discover_entry entry with
      | None => None
      | Some (Err e) => Some (Err (DiscoverFault e))
      | Some (Ok scan) =>
          match scan_in_order entries with
          | Some (Ok scans) => Some (Ok (scan :: scans))
          | other => other
          end
      end
  end.

(** [results[idx] = Some(result)], and the loop over the results at the end. *)
Definition Slots : Type := list (option (result Error FileScan)).
Definition place_result (slots : Slots) (idx : nat) (r : result Error FileScan) : Slots + result DiscoverError (list FileScan) :=
  inl (<[idx := Some r]> slots).
Fixpoint take_results (slots : Slots) : result DiscoverError (list FileScan) :=
  match slots with
  | [] => Ok []
  | None :: _ => Err MissingResult
  | Some (Err e) :: _ => Err (DiscoverFault e)
  | Some (Ok scan) :: slots => let? scans := take_results slots in Ok (scan :: scans)
  end.

(** [None]: the schedule ends before the function returns. *)
Definition scan_entries_parallel (entries : list DatasetEntry) (workers : nat) (schedule : list (option nat))
    : option (result DiscoverError (list FileScan)) :=
  if bool_decide (entries = []) then Some (Ok []) else
  let worker_count := Nat.min (Nat.max workers 1) (length entries) in
  if decide (worker_count = 1%nat) then scan_in_order entries else
  match pl_main (run_pool entries discover_entry place_result take_results schedule
                   (pool_start (replicate (length entries) None) worker_count)) with
  | inr res => Some res
  | inl _ => None
  end.

(** ** The response *)

Record DiscoverySummary : Type := mkDiscoverySummary {
  ds_records_scanned : Z;
  ds_records_matched : Z;
  ds_log_events : Z;
  ds_span : TimeSpan;
  ds_services : Counts;
  ds_severities : Counts;
}.
Definition DiscoverySummary_default : DiscoverySummary := mkDiscoverySummary 0 0 0 no_span ∅ ∅.
Definition discovery_merge (s : DiscoverySummary) (file : FileScan) : DiscoverySummary :=
  let row := fs_row file in
  mkDiscoverySummary (wrap_u64 (ds_records_scanned s + fr_records_scanned row)) (wrap_u64 (ds_records_matched s + fr_records_matched row))
    (wrap_u64 (ds_log_events s + fr_log_events row)) (merge_span (ds_span s) (fr_time_span row))
    (merge_counts (ds_services s) (fs_services file)) (merge_counts (ds_severities s) (fs_severities file)).

Definition paged_entries (entries : list DatasetEntry) (offset : nat) (limit : option nat) : result DiscoverError (list DatasetEntry) :=
  if decide (length entries < offset)%nat then Err OffsetPastEnd else
  let rest := drop offset entries in
  Ok (match limit with Some n => take n rest | None => rest end).
Definition next_offset (offset scanned total : nat) : option nat :=
  let next := (offset + scanned)%nat in if decide (next < total)%nat then Some next else None.

Record DiscoverResponse : Type := mkDiscoverResponse {
  dr_files_total : nat;
  dr_offset : nat;
  dr_limit : option nat;
  dr_files_scanned : nat;
  dr_next_offset : option nat;
  dr_summary : DiscoverySummary;
  dr_top_services : list CountRow;
  dr_severity_breakdown : list CountRow;
  dr_files : list FileSummary;
}.

(** [run_inner] from the dataset on. *)
Definition discover (dataset : list DatasetEntry) (offset : nat) (limit : option nat) (top_services workers : nat)
    (schedule : list (option nat)) : option (result DiscoverError DiscoverResponse) :=
  if bool_decide (limit = Some 0%nat) then Some (Err LimitZero) else
  match paged_entries dataset offset limit with
  | Err e => Some (Err e)
  | Ok entries =>
      match scan_entries_parallel entries workers schedule with
      | None => None
      | Some (Err e) => Some (Err e)
      | Some (Ok files) =>
          let summary := foldl discovery_merge DiscoverySummary_default files in
          Some (Ok (mkDiscoverResponse (length dataset) offset limit (length entries)
            (next_offset offset (length entries) (length dataset)) summary
            (top_counts (ds_services summary) top_services) (all_counts (ds_severities summary)) (fs_row <$> files)))
      end
  end.
End Discover.

(** ** Threads *)

Section Threads.
Context {OP : OtlpParts} {FL : Floats} {VT : ValueTrees} {LC : LogsCodec} {SC : SignalCodec} {CE : CelEngine} {MA : Matchers}.
Context {EX : Externals} {EL : ExternalLaws}.
Context (predicate : RecordPredicate) (service_filter severity_filter : option (list text)).
Context (open : DatasetEntry → result Error (list Z)).

Local Abbreviation job := (discover_entry predicate service_filter severity_filter open).

(** Results for different indices end up in their slots. *)
Lemma place_lookup xs slots :
  NoDup xs.*1 → Forall (λ x, x.1 < length slots)%nat xs →
  ∃ slots', collect_all place_result slots xs = inl slots' ∧ length slots' = length slots ∧
    (∀ i r, (i, r) ∈ xs → slots' !! i = Some (Some r)) ∧ ∀ i, i ∉ xs.*1 → slots' !! i = slots !! i.
Proof.
  revert slots. induction xs as [|[i r] xs IH]; intros slots Hn Hl; cbn [collect_all].
  { exists slots. split_and!; try done. intros i r Hi. by apply elem_of_nil in Hi. }
  apply list.NoDup_cons in Hn as [Hi Hn]. apply Forall_cons_iff in Hl as [Hil Hl]. cbn [place_result].
  destruct (IH (<[i := Some r]> slots) Hn) as (slots' & E & Hlen & H1 & H2); [by rewrite length_insert|].
  rewrite length_insert in Hlen. exists slots'. split_and!; [done|done|..].
  - intros j r' [[= -> ->]|Hj]%elem_of_cons; [|by apply H1]. rewrite H2 by done. by apply list_lookup_insert_eq.
  - intros j [Hne Hj]%not_elem_of_cons. rewrite H2 by done. by apply list_lookup_insert_ne.
Qed.

Lemma answers_fst {R} (results : list R) : (answers results).*1 = List.seq 0 (length results).
Proof.
  unfold answers.
  enough (∀ (g : nat → nat) n, (∀ i, g i = n + i)%nat → (imap (λ i, pair (g i)) results).*1 = List.seq n (length results)) as H
    by by apply (H id 0%nat).
  induction results as [|r results IH]; intros g n Hg; [done|]. cbn. f_equal; [rewrite Hg; lia|].
  apply (IH (g ∘ S) (S n)). intros i. cbn. rewrite Hg. lia.
Qed.

Lemma answers_elem {R} (results : list R) i r : results !! i = Some r → (i, r) ∈ answers results.
Proof. intros E. apply elem_of_lookup_imap. by exists i, r. Qed.

(** In whatever order results come, the slots hold them in the order of the files. *)
Lemma placed_all results xs :
  xs ≡ₚ answers results → collected place_result take_results (replicate (length results) None) xs = take_results (Some <$> results).
Proof.
  intros Hp. assert (xs.*1 ≡ₚ List.seq 0 (length results)) as Hf by by rewrite Hp, answers_fst.
  destruct (place_lookup xs (replicate (length results) None)) as (slots' & E & Hl & H1 & _).
  - rewrite Hf. apply NoDup_seq.
  - rewrite length_replicate. apply list.Forall_forall. intros [i r] Hi. apply (list_elem_of_fmap_2 fst) in Hi.
    rewrite Hf, elem_of_seq in Hi. cbn in *. lia.
  - unfold collected. rewrite E. f_equal. rewrite length_replicate in Hl. apply list_eq. intros i.
    rewrite list_lookup_fmap. destruct (results !! i) as [r|] eqn:Er; cbn.
    + apply H1. rewrite Hp. by apply answers_elem.
    + apply lookup_ge_None in Er. apply lookup_ge_None_2. lia.
Qed.

Lemma in_order_results entries results :
  Forall2 (λ a r, job a = Some r) entries results →
  scan_in_order predicate service_filter severity_filter open entries = Some (take_results (Some <$> results)).
Proof.
  induction 1 as [|entry r entries results E _ IH]; [done|]. cbn [scan_in_order fmap list_fmap take_results]. rewrite E.
  destruct r as [scan|e]; [|done]. rewrite IH. by destruct (take_results _).
Qed.

Lemma parallel_results entries results workers schedule res :
  Forall2 (λ a r, job a = Some r) entries results →
  scan_entries_parallel predicate service_filter severity_filter open entries workers schedule = Some res →
  res = take_results (Some <$> results).
Proof.
  intros Hr. unfold scan_entries_parallel. case_bool_decide as He.
  { subst. apply Forall2_nil_inv_l in Hr as ->. by intros [= <-]. }
  case_decide as Hw; [rewrite (in_order_results _ _ Hr); congruence|].
  assert (∃ n, Nat.min (Nat.max workers 1) (length entries) = S n) as [n ->].
  { destruct entries; [done|]. exists (pred (Nat.min (Nat.max workers 1) (S (length entries)))). cbn [length]. lia. }
  destruct (pl_main _) as [|fin] eqn:Em; [done|]. intros [= <-].
  destruct (pool_schedule _ _ _ _ _ _ Hr n schedule fin Em) as (xs & Hp & ->). rewrite (Forall2_length Hr). by apply placed_all.
Qed.

(** Discovery in parallel.  However many threads there are and however they are
    scheduled, scanning the files ends after a bounded number of steps, is never stuck,
    and returns what scanning them one after the other returns, the first error in the
    order of the files included. *)
Theorem parallel_scan_is_sequential entries results workers :
  Forall2 (λ a r, job a = Some r) entries results →
  ∃ res, scan_in_order predicate service_filter severity_filter open entries = Some res ∧
    (∀ schedule res', scan_entries_parallel predicate service_filter severity_filter open entries workers schedule = Some res' → res' = res) ∧
    (∀ n k s, nsteps (pool_step entries job place_result take_results) k (pool_start (replicate (length entries) None) (S n)) s →
      (k ≤ pool_measure entries (pool_start (R := result Error FileScan) (Fin := result DiscoverError (list FileScan))
             (replicate (length entries) (None : option (result Error FileScan))) (S n)))%nat ∧
      ((∃ s', pool_step entries job place_result take_results s s') ∨ pl_main s = inr res)).
Proof.
  intros Hr. exists (take_results (Some <$> results)). split_and!.
  - by apply in_order_results.
  - intros schedule res'. by apply parallel_results.
  - intros n k s Hk. destruct (pool_runs _ _ _ _ _ _ Hr n k s Hk) as (Hle & Hgo & Hfin). split; [done|].
    destruct Hgo as [?|[fin Ef]]; [by left|right]. rewrite Ef. f_equal. destruct (Hfin fin Ef) as (xs & Hp & ->).
    rewrite (Forall2_length Hr). by apply placed_all.
Qed.
End Threads.

(** ** Counting *)

Definition occurrences (x : text) (l : list text) : Z := len (filter (λ y, y = x) l).

(** The map holds how often each string occurs. *)
Definition counts (m : Counts) (l : list text) : Prop :=
  ∀ x, m !! x = if occurrences x l =? 0 then None else Some (occurrences x l).

Lemma occurrences_app x l k : occurrences x (l ++ k) = occurrences x l + occurrences x k.
Proof. unfold occurrences. by rewrite list.filter_app, len_app. Qed.
Lemma occurrences_bounds x l : 0 ≤ occurrences x l ≤ len l.
Proof. unfold occurrences, len. pose proof (length_filter (λ y, y = x) l). lia. Qed.
Lemma occurrences_single x y : occurrences x [y] = if decide (y = x) then 1 else 0.
Proof. unfold occurrences. rewrite filter_cons. by case_decide. Qed.

Lemma wrap_u64_small z : 0 ≤ z ≤ MAX_U64 → wrap_u64 z = z.
Proof. intros Hz. unfold wrap_u64. apply Z.mod_small. unfold MAX_U64 in Hz. lia. Qed.

Lemma counts_default m l x : counts m l → default 0 (m !! x) = occurrences x l.
Proof. intros H. rewrite H. destruct (Z.eqb_spec (occurrences x l) 0) as [->|]; done. Qed.

Lemma counts_nil : counts ∅ [].
Proof. intros x. by rewrite lookup_empty. Qed.

Lemma counts_increment m l x : counts m l → len l < MAX_U64 → counts (increment_count x m) (l ++ [x]).
Proof.
  intros H Hl y. pose proof (occurrences_bounds x l). unfold increment_count. rewrite (counts_default m l) by done.
  rewrite wrap_u64_small by lia. rewrite occurrences_app, occurrences_single. destruct (decide (x = y)) as [->|Hne].
  - rewrite lookup_insert_eq. destruct (Z.eqb_spec (occurrences y l + 1) 0); [lia|done].
  - rewrite lookup_insert_ne, Z.add_0_r by done. apply H.
Qed.

Lemma counts_merge m k l l' : counts m l → counts k l' → len l + len l' ≤ MAX_U64 → counts (merge_counts m k) (l ++ l').
Proof.
  intros Hm Hk Hl x. unfold merge_counts. rewrite lookup_union_with, (Hm x), (Hk x), occurrences_app.
  pose proof (occurrences_bounds x l). pose proof (occurrences_bounds x l').
  destruct (Z.eqb_spec (occurrences x l) 0) as [E|E], (Z.eqb_spec (occurrences x l') 0) as [E'|E'];
    destruct (Z.eqb_spec (occurrences x l + occurrences x l') 0); try lia; cbn; try done.
  - by rewrite E.
  - by rewrite E', Z.add_0_r.
  - rewrite wrap_u64_small by lia. done.
Qed.

(** A span is that of some times: their least and greatest. *)
Definition extreme (R : Z → Z → Prop) (o : option Z) (l : list Z) : Prop :=
  match o with Some t => t ∈ l ∧ Forall (R t) l | None => l = [] end.
Definition spans (span : TimeSpan) (l : list Z) : Prop :=
  extreme Z.le (ts_first span) l ∧ extreme (λ a b, b ≤ a) (ts_last span) l.

Lemma extreme_min o l v k : extreme Z.le o l → v ∈ k → Forall (Z.le v) k → extreme Z.le (opt_min o v) (l ++ k).
Proof.
  intros Ho Hv Hk. unfold opt_min, extreme in *. destruct o as [t|]; [|by subst]. destruct Ho as [Ht Hl]. rewrite Forall_app.
  destruct (Z.min_spec t v) as [[? ->]|[? ->]].
  - split_and!; [apply elem_of_app; by left|done|]. eapply Forall_impl; [|exact Hk]. cbn. lia.
  - split_and!; [apply elem_of_app; by right| |done]. eapply Forall_impl; [|exact Hl]. cbn. lia.
Qed.
Lemma extreme_max o l v k :
  extreme (λ a b, b ≤ a) o l → v ∈ k → Forall (λ b, b ≤ v) k → extreme (λ a b, b ≤ a) (opt_max o v) (l ++ k).
Proof.
  intros Ho Hv Hk. unfold opt_max, extreme in *. destruct o as [t|]; [|by subst]. destruct Ho as [Ht Hl]. rewrite Forall_app.
  destruct (Z.max_spec t v) as [[? ->]|[? ->]].
  - split_and!; [apply elem_of_app; by right| |done]. eapply Forall_impl; [|exact Hl]. cbn. lia.
  - split_and!; [apply elem_of_app; by left|done|]. eapply Forall_impl; [|exact Hk]. cbn. lia.
Qed.

Lemma spans_update span l t : spans span l → spans (update_span span t) (l ++ [t]).
Proof.
  intros [H1 H2]. split; cbn [update_span ts_first ts_last]; [apply extreme_min|apply extreme_max]; try done;
    try apply list_elem_of_singleton; try done; by apply Forall_singleton.
Qed.
Lemma spans_merge span span' l l' : spans span l → spans span' l' → spans (merge_span span span') (l ++ l').
Proof.
  intros [H1 H2] [H1' H2']. split; cbn [merge_span ts_first ts_last].
  - destruct (ts_first span') as [v|]; [destruct H1'; by apply extreme_min|]. cbn in H1'. subst. by rewrite app_nil_r.
  - destruct (ts_last span') as [v|]; [destruct H2'; by apply extreme_max|]. cbn in H2'. subst. by rewrite app_nil_r.
Qed.

(** *** Rows in order *)

#[export] Instance row_le_trans : Transitive row_le.
Proof. intros [a n] [b m] [c k]. unfold row_le. cbn. intros [?|[? ?]] [?|[? ?]]; [left; lia..|right]. split; [lia|by etransitivity]. Qed.
#[export] Instance row_le_total : Total row_le.
Proof.
  intros [a n] [b m]. unfold row_le. cbn. destruct (Z.lt_trichotomy n m) as [?|[->|?]]; [by right; left|..|by left; left].
  destruct (total text_le a b); [left|right]; by right.
Qed.

Lemma all_counts_permutation m : all_counts m ≡ₚ map_to_list m.
Proof.
  unfold all_counts, sort_keys. rewrite merge_sort_Permutation, <- list_fmap_compose.
  apply reflexive_eq. etransitivity; [|apply list_fmap_id]. apply list_fmap_ext. intros i [k v] Hi.
  apply list_elem_of_lookup_2, elem_of_map_to_list in Hi. cbn. by rewrite Hi.
Qed.

Lemma top_counts_first m limit : ∃ rows, rows ≡ₚ map_to_list m ∧ StronglySorted row_le rows ∧ top_counts m limit = take limit rows.
Proof.
  exists (merge_sort row_le (all_counts m)). split_and!; [|apply (StronglySorted_merge_sort row_le)|done].
  by rewrite merge_sort_Permutation, all_counts_permutation.
Qed.

(** ** What a response says *)

Section Totals.
Context {OP : OtlpParts} {FL : Floats} {VT : ValueTrees} {LC : LogsCodec} {SC : SignalCodec} {CE : CelEngine} {MA : Matchers}.
Context {EX : Externals} {EL : ExternalLaws}.
Context (predicate : RecordPredicate) (service_filter severity_filter : option (list text)).

(** The log events of a record that the filters let through: service and severity. *)
Abbreviation LogEvent := (option text * text)%type.
Definition events_of_logs (service : option text) (lrs : list LogRecordMessage) : list LogEvent :=
  omap (λ lr, if severity_refused severity_filter (lr_severity_text lr) then None else Some (service, severity_label (lr_severity_text lr))) lrs.
Definition events_of_scope (service : option text) (sl : ScopeLogs) : list LogEvent := events_of_logs service (log_records sl).
Definition events_of_resource (rl : ResourceLogs) : list LogEvent :=
  let service := service_name rl in
  if service_refused service_filter service then [] else concat (events_of_scope service <$> scope_logs rl).
Definition events_of (record : OwnedRecord) : list LogEvent :=
  if decide (record_type record = Logs) then
    match decode_logs (payload record) with
    | Ok batch => concat (events_of_resource <$> resource_logs batch)
    | Err _ => []
    end
  else [].

Definition summarises (s : LogEventSummary) (es : list LogEvent) : Prop :=
  le_count s = len es ∧ counts (le_services s) (omap fst es) ∧ counts (le_severities s) es.*2.

Lemma omap_len {A B} (f : A → option B) l : len (omap f l) ≤ len l.
Proof. induction l as [|a l IH]; [done|]. cbn. destruct (f a); rewrite ?len_cons; lia. Qed.

Lemma summarise_logs_ok service lrs s es :
  summarises s es → len es + len (events_of_logs service lrs) ≤ MAX_U64 →
  ∃ s', foldl (summarise_log severity_filter service) (Ok s) lrs = Ok s' ∧ summarises s' (es ++ events_of_logs service lrs).
Proof.
  revert s es. induction lrs as [|lr lrs IH]; intros s es Hs Hb; cbn [foldl].
  { exists s. by rewrite app_nil_r. }
  unfold events_of_logs in *. cbn [omap list_omap] in *. unfold summarise_log at 2.
  destruct (severity_refused severity_filter (lr_severity_text lr)); [by apply IH|].
  destruct Hs as (H1 & H2 & H3). rewrite len_cons in Hb. pose proof (len_nonneg (events_of_logs service lrs)) as Hnn. unfold events_of_logs in Hnn.
  rewrite H1. unfold checked_add. destruct (Z.leb_spec (len es + 1) MAX_U64); [|lia]. cbn [ok_or].
  set (label := severity_label (lr_severity_text lr)).
  match goal with |- context [foldl _ (Ok ?s1) lrs] => destruct (IH s1 (es ++ [(service, label)])) as (s' & E & Hs') end.
  - split_and!; cbn [le_count le_services le_severities].
    + rewrite len_app. done.
    + rewrite omap_app.
      destruct service as [v|]; [|change (omap fst [(None, label)]) with (@nil text); by rewrite app_nil_r].
      change (omap fst [(Some v, label)]) with [v]. apply counts_increment; [done|]. eapply Z.le_lt_trans; [apply omap_len|]. lia.
    + rewrite fmap_app. apply counts_increment; [done|]. unfold len in *. rewrite length_fmap. lia.
  - rewrite len_app. change (len [(service, label)]) with 1. lia.
  - exists s'. rewrite <- app_assoc in Hs'. done.
Qed.

(** Nested loops, each of which adds its events. *)
Lemma summarise_nested {X} (body : result Error LogEventSummary → X → result Error LogEventSummary) (evs : X → list LogEvent) xs s es :
  (∀ x s es, summarises s es → len es + len (evs x) ≤ MAX_U64 → ∃ s', body (Ok s) x = Ok s' ∧ summarises s' (es ++ evs x)) →
  summarises s es → len es + len (concat (evs <$> xs)) ≤ MAX_U64 →
  ∃ s', foldl body (Ok s) xs = Ok s' ∧ summarises s' (es ++ concat (evs <$> xs)).
Proof.
  intros Hb. revert s es. induction xs as [|x xs IH]; intros s es Hs Hl; cbn [foldl fmap list_fmap concat].
  { exists s. by rewrite app_nil_r. }
  cbn [fmap list_fmap concat] in Hl. rewrite len_app in Hl. pose proof (len_nonneg (concat (evs <$> xs))).
  destruct (Hb x s es Hs) as (s1 & -> & Hs1); [lia|]. destruct (IH s1 _ Hs1) as (s' & E & Hs'); [rewrite len_app; lia|].
  exists s'. by rewrite <- app_assoc in Hs'.
Qed.

Lemma summarise_record_ok record :
  len (events_of record) ≤ MAX_U64 →
  ∃ s, summarise_matching_log_events service_filter severity_filter record = Ok s ∧ summarises s (events_of record).
Proof.
  assert (summarises no_events []) as H0 by (split_and!; [done|apply counts_nil..]).
  unfold events_of, summarise_matching_log_events. intros Hl. case_decide as Ht.
  2: { rewrite bool_decide_false by done. by exists no_events. }
  rewrite bool_decide_true by done. cbn [negb]. destruct (decode_logs (payload record)) as [batch|]; [|by exists no_events].
  apply (summarise_nested _ events_of_resource (resource_logs batch) no_events []); [|done|exact Hl].
  intros rl s es Hs Hb. unfold summarise_resource, events_of_resource in *. destruct (service_refused _ _); [by exists s; rewrite app_nil_r|].
  apply (summarise_nested _ (events_of_scope (service_name rl))); try done.
  intros sl s1 es1. apply summarise_logs_ok.
Qed.

(** *** A file *)

Definition all_events (rs : list OwnedRecord) : list LogEvent := concat (events_of <$> selected predicate rs).

Lemma all_events_app rs rs' : all_events (rs ++ rs') = all_events rs ++ all_events rs'.
Proof. unfold all_events. by rewrite selected_app, fmap_app, concat_app. Qed.

(** The row of a file, its records and the entry it belongs to. *)
Record file_summary (entry : DatasetEntry) (scan : FileScan) (rs : list OwnedRecord) : Prop := {
  fo_path : fr_path (fs_row scan) = entry_path entry;
  fo_scanned : fr_records_scanned (fs_row scan) = if fr_skipped_by_index (fs_row scan) then 0 else len rs;
  fo_matched : fr_records_matched (fs_row scan) = len (selected predicate rs);
  fo_events : fr_log_events (fs_row scan) = len (all_events rs);
  fo_span : spans (fr_time_span (fs_row scan)) (ts_unix_ns <$> selected predicate rs);
  fo_services : counts (fs_services scan) (omap fst (all_events rs));
  fo_severities : counts (fs_severities scan) (all_events rs).*2;
}.

Lemma len_omap_events (es es' : list LogEvent) : len es + len es' ≤ MAX_U64 → len (omap fst es) + len (omap fst es') ≤ MAX_U64.
Proof. pose proof (omap_len (fst : LogEvent → option text) es). pose proof (omap_len (fst : LogEvent → option text) es'). lia. Qed.
Lemma len_fmap_snd (es : list LogEvent) : len es.*2 = len es.
Proof. unfold len. by rewrite length_fmap. Qed.

Lemma discover_record_ok entry scan rs record :
  file_summary entry scan rs → fr_skipped_by_index (fs_row scan) = false → len rs < MAX_U64 → len (all_events (rs ++ [record])) ≤ MAX_U64 →
  ∃ scan', scan_record predicate service_filter severity_filter scan record = Ok scan' ∧ file_summary entry scan' (rs ++ [record]) ∧
    fr_skipped_by_index (fs_row scan') = false.
Proof.
  intros [H1 H2 H3 H4 H5 H6 H7] Hk Hl He. unfold scan_record. destruct scan as [[path size modified sp tm scanned matched events span skipped] svc sev].
  cbn in *. subst skipped scanned matched events. unfold checked_add. destruct (Z.leb_spec (len rs + 1) MAX_U64); [|lia]. cbn [ok_or].
  assert (len (selected predicate rs) ≤ len rs) as Hsel by (unfold selected, len; pose proof (length_filter (λ r, matches predicate r = true) rs); lia).
  assert (selected predicate (rs ++ [record]) = selected predicate rs ++ if matches predicate record then [record] else []) as Es.
  { rewrite selected_app. f_equal. unfold selected. rewrite filter_cons. by destruct (matches predicate record). }
  assert (len (rs ++ [record]) = len rs + 1) as El by by rewrite len_app.
  destruct (matches predicate record); cbn [negb].
  2: { eexists. split; [done|]. split; [|done]. split; cbn; rewrite ?Es, ?El, ?app_nil_r; try done.
       all: unfold all_events in *; rewrite Es, app_nil_r; done. }
  assert (all_events (rs ++ [record]) = all_events rs ++ events_of record) as Ee.
  { unfold all_events. rewrite Es, fmap_app, concat_app. cbn. by rewrite app_nil_r. }
  rewrite Ee, len_app in He. pose proof (len_nonneg (all_events rs)). pose proof (len_nonneg (events_of record)).
  destruct (Z.leb_spec (len (selected predicate rs) + 1) MAX_U64); [|lia]. cbn [ok_or].
  destruct (summarise_record_ok record) as (s & -> & E1 & E2 & E3); [lia|]. rewrite E1.
  destruct (Z.leb_spec (len (all_events rs) + len (events_of record)) MAX_U64); [|lia]. cbn [ok_or].
  eexists. split; [done|]. split; [|done]. split; cbn; rewrite ?Es, ?El, ?Ee, ?len_app; try done.
  - rewrite fmap_app. by apply spans_update.
  - rewrite omap_app. apply counts_merge; [done|done|]. by apply len_omap_events.
  - rewrite fmap_app. apply counts_merge; [done|done|]. by rewrite !len_fmap_snd.
Qed.

Lemma scan_records_ok entry rs' scan rs :
  file_summary entry scan rs → fr_skipped_by_index (fs_row scan) = false → len (rs ++ rs') ≤ MAX_U64 → len (all_events (rs ++ rs')) ≤ MAX_U64 →
  ∃ scan', (fold_until (discover_body predicate service_filter severity_filter) (Ok scan) rs').1 = Ok scan' ∧ file_summary entry scan' (rs ++ rs').
Proof.
  revert scan rs. induction rs' as [|record rs' IH]; intros scan rs Hf Hk Hl He; cbn [fold_until].
  { exists scan. by rewrite app_nil_r. }
  assert (rs ++ record :: rs' = (rs ++ [record]) ++ rs') as E by by rewrite <- app_assoc. rewrite E in *.
  destruct (discover_record_ok entry scan rs record Hf Hk) as (scan1 & E1 & Hf1 & Hk1).
  - rewrite !len_app in Hl. change (len [record]) with 1 in Hl. pose proof (len_nonneg rs'). lia.
  - rewrite all_events_app, len_app in He. pose proof (len_nonneg (all_events rs')). lia.
  - unfold discover_body at 1. rewrite E1. by apply (IH scan1 (rs ++ [record])).
Qed.

Lemma file_summary_start entry skipped : file_summary entry (mkFileScan (start_row entry skipped) ∅ ∅) [].
Proof. split; cbn; try done; try apply counts_nil. by destruct skipped. Qed.

Context (open : DatasetEntry → result Error (list Z)).

(** The file can be opened and read, and an index it has classifies what matches. *)
Definition summarisable (e : DatasetEntry) (rs : list OwnedRecord) : Prop :=
  holds predicate e rs ∧ open e = Ok (entry_data e) ∧ delivers (reader_new (entry_data e)) rs ∧
  len rs ≤ MAX_U64 ∧ len (all_events rs) ≤ MAX_U64.

Lemma discover_entry_total e rs :
  summarisable e rs →
  ∃ scan, discover_entry predicate service_filter severity_filter open e = Some (Ok scan) ∧ file_summary e scan rs.
Proof.
  intros (Hh & Ho & Hd & Hl & He). unfold discover_entry.
  assert (entry_index e = None ∨ ∃ index, entry_index e = Some index) as [Ei|[index Ei]] by (destruct (entry_index e); eauto);
    rewrite Ei; [|destruct (may_match _ predicate) eqn:Em]; cbn [negb].
  3: { eexists. split; [done|]. destruct (holds_indexed _ _ _ _ Ei Hh) as (bl & _ & _ & _ & Hcov & Hs & Hcl).
       pose proof (excluded_selects_nothing _ _ _ Hcov Hs Hcl Em) as E0. pose proof (file_summary_start e true) as [H1 H2 H3 H4 H5 H6 H7].
       split; unfold all_events; rewrite ?E0; done. }
  all: rewrite Ho; destruct (while_records_delivers (discover_body predicate service_filter severity_filter)
         (Ok (mkFileScan (start_row e false) ∅ ∅)) _ rs Hd) as [r' ->]; cbn [mbind option_bind];
       destruct (scan_records_ok e rs _ [] (file_summary_start e false)) as (scan & E & Hf); try done;
       exists scan; rewrite E; done.
Qed.

(** *** The total *)

Record totals (s : DiscoverySummary) (rs : list OwnedRecord) : Prop := {
  to_matched : ds_records_matched s = len (selected predicate rs);
  to_events : ds_log_events s = len (all_events rs);
  to_span : spans (ds_span s) (ts_unix_ns <$> selected predicate rs);
  to_services : counts (ds_services s) (omap fst (all_events rs));
  to_severities : counts (ds_severities s) (all_events rs).*2;
}.

Lemma totals_default : totals DiscoverySummary_default [].
Proof. split; cbn; try done; apply counts_nil. Qed.

Lemma totals_merge s rs e scan rs' :
  totals s rs → file_summary e scan rs' → len (rs ++ rs') ≤ MAX_U64 → len (all_events (rs ++ rs')) ≤ MAX_U64 →
  totals (discovery_merge s scan) (rs ++ rs').
Proof.
  intros [H1 H2 H3 H4 H5] [F1 F2 F3 F4 F5 F6 F7] Hl He.
  assert (len (selected predicate (rs ++ rs')) ≤ len (rs ++ rs')) as Hsel
    by (unfold selected, len; pose proof (length_filter (λ r, matches predicate r = true) (rs ++ rs')); lia).
  rewrite all_events_app in *. rewrite selected_app in *. rewrite !len_app in *.
  pose proof (len_nonneg (selected predicate rs)). pose proof (len_nonneg (selected predicate rs')).
  pose proof (len_nonneg (all_events rs)). pose proof (len_nonneg (all_events rs')).
  split; cbn [discovery_merge ds_records_matched ds_log_events ds_span ds_services ds_severities]; rewrite ?all_events_app, ?selected_app, ?len_app.
  - rewrite H1, F3. apply wrap_u64_small. lia.
  - rewrite H2, F4. apply wrap_u64_small. lia.
  - rewrite fmap_app. by apply spans_merge.
  - rewrite omap_app. apply counts_merge; [done|done|]. by apply len_omap_events.
  - rewrite fmap_app. apply counts_merge; [done|done|]. by rewrite !len_fmap_snd.
Qed.

Lemma totals_fold es scans rss s rs :
  totals s rs → Forall2 (λ e '(scan, rs), file_summary e scan rs) es (zip scans rss) → length scans = length rss →
  len (rs ++ concat rss) ≤ MAX_U64 → len (all_events (rs ++ concat rss)) ≤ MAX_U64 →
  totals (foldl discovery_merge s scans) (rs ++ concat rss).
Proof.
  revert es rss s rs. induction scans as [|scan scans IH]; intros es [|rs' rss] s rs Ht Hf Hlen Hl He; try done.
  { cbn in *. by rewrite app_nil_r. }
  cbn [zip zip_with] in Hf. apply Forall2_cons_inv_r in Hf as (e & es' & Hs & Hf & ->).
  cbn [foldl concat] in *. rewrite app_assoc in *. injection Hlen as Hlen. eapply IH; [|exact Hf|done..].
  eapply totals_merge; [done|done|..].
  - rewrite len_app in Hl. pose proof (len_nonneg (concat rss)). lia.
  - rewrite all_events_app, len_app in He. pose proof (len_nonneg (all_events (concat rss))). lia.
Qed.
End Totals.

(** *** The response *)

Section Response.
Context {OP : OtlpParts} {FL : Floats} {VT : ValueTrees} {LC : LogsCodec} {SC : SignalCodec} {CE : CelEngine} {MA : Matchers}.
Context {EX : Externals} {EL : ExternalLaws}.
Context (predicate : RecordPredicate) (service_filter severity_filter : option (list text)).
Context (open : DatasetEntry → result Error (list Z)).

Lemma scans_of es rss :
  Forall2 (summarisable predicate service_filter severity_filter open) es rss →
  ∃ scans, Forall2 (λ e r, discover_entry predicate service_filter severity_filter open e = Some r) es (Ok <$> scans) ∧
    Forall2 (λ e '(scan, rs), file_summary predicate service_filter severity_filter e scan rs) es (zip scans rss) ∧ length scans = length rss ∧
    fr_path <$> (fs_row <$> scans) = entry_path <$> es.
Proof.
  induction 1 as [|e rs es rss Hs _ (scans & H1 & H2 & H3 & H4)]; [by exists []|].
  destruct (discover_entry_total _ _ _ _ e rs Hs) as (scan & E & Hf). exists (scan :: scans).
  split_and!; [by constructor..|cbn; lia|]. rewrite !fmap_cons, H4. f_equal. apply Hf.
Qed.

Lemma take_results_ok scans : take_results (Some <$> (Ok <$> scans)) = Ok scans.
Proof. induction scans as [|scan scans IH]; [done|]. cbn [fmap list_fmap take_results]. by rewrite IH. Qed.

End Response.

(** ** Paging *)

(** What a caller does who follows [next_offset]. *)
Fixpoint follow_pages (fuel : nat) (dataset : list DatasetEntry) (offset limit : nat) : option (result DiscoverError (list (list DatasetEntry))) :=
  match fuel with
  | O => None
  | S fuel =>
      match paged_entries dataset offset (Some limit) with
      | Err e => Some (Err e)
      | Ok page =>
          match next_offset offset (length page) (length dataset) with
          | None => Some (Ok [page])
          | Some next =>
              match follow_pages fuel dataset next limit with
              | Some (Ok pages) => Some (Ok (page :: pages))
              | other => other
              end
          end
      end
  end.

Lemma follow_pages_from fuel dataset offset limit :
  (0 < limit)%nat → (offset ≤ length dataset)%nat → (length dataset - offset < fuel)%nat →
  ∃ pages, follow_pages fuel dataset offset limit = Some (Ok pages) ∧ concat pages = drop offset dataset ∧
    Forall (λ page, length page ≤ limit)%nat pages.
Proof.
  intros Hlim. revert offset. induction fuel as [|fuel IH]; intros offset Ho Hf; [lia|]. cbn [follow_pages].
  unfold paged_entries. rewrite decide_False by lia. set (page := take limit (drop offset dataset)).
  assert (length page = Nat.min limit (length dataset - offset)) as Hp by (subst page; by rewrite length_take, length_drop).
  unfold next_offset. case_decide as Hn.
  - destruct (IH (offset + length page)%nat) as (pages & -> & Hc & Hl); [lia..|]. exists (page :: pages). split_and!; [done| |].
    + cbn [concat]. rewrite Hc, <- drop_drop. subst page. rewrite length_take.
      destruct (Nat.le_gt_cases limit (length (drop offset dataset))).
      * rewrite Nat.min_l by done. apply take_drop.
      * rewrite Nat.min_r by lia. rewrite take_ge by lia. by rewrite (drop_ge (drop offset dataset)), app_nil_r.
    + constructor; [lia|done].
  - exists [page]. split_and!; [done| |constructor; [lia|constructor]]. cbn [concat]. rewrite app_nil_r. subst page. apply take_ge.
    rewrite length_drop. lia.
Qed.

(** Paging.  With a limit above zero, a caller who starts at the first file and follows
    the offset of each response until there is none has asked for every file exactly
    once and in order, in pages within the limit. *)
Theorem pages_cover_dataset dataset limit :
  (0 < limit)%nat →
  ∃ pages, follow_pages (S (length dataset)) dataset 0 limit = Some (Ok pages) ∧ concat pages = dataset ∧
    Forall (λ page, length page ≤ limit)%nat pages.
Proof. intros Hl. destruct (follow_pages_from (S (length dataset)) dataset 0 limit Hl) as (pages & H1 & H2 & H3); [lia..|]. by exists pages. Qed.

(** ** They apply *)

Section Witness.
#[local] Existing Instances sample_parts logs_codec sample_floats sample_trees sample_engine sample_signals stored_externals stored_laws.
#[local] Existing Instance sample_matchers.

Definition open_file (e : DatasetEntry) : result Error (list Z) := Ok (entry_data e).
Definition sample_dataset : list DatasetEntry := [indexed_entry; plain_entry].

Lemma sample_summarisable :
  Forall2 (summarisable sample_predicate None None open_file) sample_dataset [query_input; query_input].
Proof.
  apply Forall2_cons; [|apply Forall2_cons; [|constructor]]; split_and!;
    try apply indexed_entry_holds; try apply plain_entry_holds; try reflexivity; try apply query_file_delivers; vm_compute; discriminate.
Qed.


Lemma sample_results : ∃ results,
  Forall2 (λ a r, discover_entry sample_predicate None None open_file a = Some r) sample_dataset results.
Proof. destruct (scans_of _ _ _ _ _ _ sample_summarisable) as (scans & H & _). by exists (Ok <$> scans). Qed.

(** Two threads, the second of which takes the first file. *)
Lemma parallel_scan_is_sequential_witness :
  let schedule := [Some 1; Some 0; Some 0; Some 1; None; Some 1; Some 0; None; None]%nat in
  is_Some (scan_entries_parallel sample_predicate None None open_file sample_dataset 2 schedule) ∧
  scan_entries_parallel sample_predicate None None open_file sample_dataset 2 schedule =
    scan_in_order sample_predicate None None open_file sample_dataset.
Proof.
  cbv zeta. destruct sample_results as [results Hr].
  destruct (parallel_scan_is_sequential sample_predicate None None open_file sample_dataset results 2 Hr) as (res & E & Ha & _).
  assert (is_Some (scan_entries_parallel sample_predicate None None open_file sample_dataset 2
    [Some 1; Some 0; Some 0; Some 1; None; Some 1; Some 0; None; None]%nat)) as Hs.
  { apply (bool_decide_unpack _). vm_compute. exact I. }
  split; [exact Hs|]. destruct Hs as [r Er]. rewrite Er, E. f_equal. by apply (Ha _ _ Er).
Defined.

Lemma pages_cover_dataset_witness :
  ∃ pages, follow_pages 3 sample_dataset 0 1 = Some (Ok pages) ∧ concat pages = sample_dataset ∧ length pages = 2%nat.
Proof.
  destruct (pages_cover_dataset sample_dataset 1 ltac:(lia)) as (pages & E & Hc & _). exists pages. split_and!; [exact E|exact Hc|].
  vm_compute in E. by injection E as <-.
Defined.
End Witness.
