(* ===== verification/Exporter.v ===== *)
(** * Exporter plugins

    [ljx/src/exporter.rs]: how the command line tool finds the shared libraries that
    export a log to another format, which of them it accepts, and how it runs one of them
    over a log.  A plugin is foreign code: each of its entry points is a tree of the calls
    it makes to the host with what it does on every answer.  The operating system and the
    loader are parameters. *)

From stdpp Require Import sorting.
From S2P Require Import Prelude Text Tokens Format Writer Reader Instances Scan Container Otlp FlatRecord SampleCodec Canon Cel Predicate Input Dataset.

Definition LJX_EXPORTER_ABI_MAJOR : Z := 1.
Definition LJX_EXPORTER_ABI_MINOR : Z := 0.
Definition LJX_EXPORT_STATUS_OK : Z := 0.
Definition LJX_EXPORT_STATUS_IO : Z := 2.
Definition LJX_EXPORT_STATUS_BAD_ARG : Z := 3.
Definition LJX_EXPORT_CAP_STREAMING : Z := 1.
Definition LJX_EXPORT_CAP_RECORD_LOGS : Z := 2.
Definition LJX_EXPORT_CAP_RECORD_METRICS : Z := 4.
Definition LJX_EXPORT_CAP_RECORD_TRACES : Z := 8.
Definition LJX_EXPORT_CAP_PAYLOAD_OTLP_EXPORT_LOGS_REQUEST : Z := 16.
Definition LJX_EXPORT_CAP_PAYLOAD_OTLP_EXPORT_METRICS_REQUEST : Z := 32.
Definition LJX_EXPORT_CAP_PAYLOAD_OTLP_EXPORT_TRACE_REQUEST : Z := 64.
Definition LJX_PAYLOAD_KIND_OPAQUE : Z := 0.
Definition LJX_PAYLOAD_KIND_OTLP_EXPORT_LOGS_REQUEST : Z := 1.
Definition LJX_PAYLOAD_KIND_OTLP_EXPORT_METRICS_REQUEST : Z := 2.
Definition LJX_PAYLOAD_KIND_OTLP_EXPORT_TRACE_REQUEST : Z := 3.

(** Bits of a capability word. *)
Definition has_flag (capabilities flag : Z) : bool := negb (Z.land capabilities flag =? 0).

(** ** The interface of a plugin *)

(** A pointer, null or to a buffer, and a length. *)
Record LjxAbiString : Type := mkAbiString { as_ptr : option (list Z); as_len : Z }.
Definition abi_string_to_string (value : LjxAbiString) : text :=
  match as_ptr value with
  | None => []
  | Some buf => if as_len value =? 0 then [] else from_utf8_lossy (take (Z.to_nat (as_len value)) buf)
  end.

Record LjxExportRecordV1 : Type := mkExportRecord {
  xr_struct_size : Z; xr_record_type : Z; xr_payload_kind : Z; xr_flags : Z;
  xr_seq : Z; xr_timestamp_unix_ns : Z; xr_payload : list Z }.

(** What a plugin does: it calls [write] or [flush] of the host, with a user pointer that
    may be null, goes on with the status it gets, and returns in the end. *)
Inductive Calls (A : Type) : Type :=
| Return (a : A)
| HostWrite (user_null : bool) (data : option (list Z)) (n : Z) (k : Z → Calls A)
| HostFlush (user_null : bool) (k : Z → Calls A).
Arguments Return {A}. Arguments HostWrite {A}. Arguments HostFlush {A}.

(** The descriptor of a plugin with contexts [C]; [create] is null or a context. *)
Record LjxExporterDescriptorV1 (C : Type) : Type := mkDescriptor {
  ds_struct_size : Z; ds_abi_major : Z; ds_abi_minor : Z; ds_capabilities : Z;
  ds_format_name : LjxAbiString; ds_display_name : LjxAbiString; ds_default_extension : LjxAbiString;
  ds_create : list (text * text) → Calls (option C);
  ds_write_record : C → LjxExportRecordV1 → Calls (Z * C);
  ds_finish : C → Calls (Z * C);
  ds_last_error : C → LjxAbiString;
  ds_free : C → Calls unit;
}.
Arguments mkDescriptor {C}. Arguments ds_struct_size {C}. Arguments ds_abi_major {C}. Arguments ds_abi_minor {C}.
Arguments ds_capabilities {C}. Arguments ds_format_name {C}. Arguments ds_display_name {C}. Arguments ds_default_extension {C}.
Arguments ds_create {C}. Arguments ds_write_record {C}. Arguments ds_finish {C}. Arguments ds_last_error {C}. Arguments ds_free {C}.

Record LoadedExporter (C : Type) : Type := mkLoadedExporter {
  le_path : text; le_format_name : text; le_display_name : text; le_capabilities : Z;
  le_create : list (text * text) → Calls (option C);
  le_write_record : C → LjxExportRecordV1 → Calls (Z * C);
  le_finish : C → Calls (Z * C);
  le_last_error : C → LjxAbiString;
  le_free : C → Calls unit;
}.
Arguments mkLoadedExporter {C}. Arguments le_path {C}. Arguments le_format_name {C}. Arguments le_display_name {C}.
Arguments le_capabilities {C}. Arguments le_create {C}. Arguments le_write_record {C}. Arguments le_finish {C}.
Arguments le_last_error {C}. Arguments le_free {C}.

(** ** Accepting a plugin *)

(** [size_of::<LjxExporterDescriptorV1>()] on a 64-bit machine *)
Definition DESCRIPTOR_SIZE : Z := 160.

Inductive LoadError : Type :=
| LoadFailed (path message : text)
| NullDescriptor (path : text)
| DescriptorTooSmall (path : text) (size : Z)
| AbiMismatch (path : text) (major minor : Z)
| AbiTooNew (path : text) (major minor : Z)
| InvalidFormatName (path name : text).

Definition is_valid_format_name (value : text) : bool :=
  negb (bool_decide (value = [])) &&
  forallb (λ b, is_ascii_lowercase b || is_ascii_digit b || (b =? 45) || (b =? 95)) value.
Definition non_empty_or (value fallback : text) : text := if bool_decide (trim_text value = []) then fallback else value.

(** The fields of [ValidatedDescriptor] that the exporter keeps. *)
Definition validate_descriptor {C} (path : text) (d : LjxExporterDescriptorV1 C) : result LoadError (LoadedExporter C) :=
  if ds_struct_size d <? DESCRIPTOR_SIZE then Err (DescriptorTooSmall path (ds_struct_size d)) else
  if negb (ds_abi_major d =? LJX_EXPORTER_ABI_MAJOR) then Err (AbiMismatch path (ds_abi_major d) (ds_abi_minor d)) else
  if LJX_EXPORTER_ABI_MINOR <? ds_abi_minor d then Err (AbiTooNew path (ds_abi_major d) (ds_abi_minor d)) else
  let format_name := to_ascii_lowercase (trim_text (abi_string_to_string (ds_format_name d))) in
  if negb (is_valid_format_name format_name) then Err (InvalidFormatName path format_name) else
  Ok (mkLoadedExporter path format_name (non_empty_or (abi_string_to_string (ds_display_name d)) format_name) (ds_capabilities d)
        (ds_create d) (ds_write_record d) (ds_finish d) (ds_last_error d) (ds_free d)).

(** ** The output *)

(** Flushing a [Write]; [on_disk] is what has left the program. *)
Class FlushWrite (W : Type) `{Write W} : Type := {
  writer_flush : M W IoError unit;
  on_disk : W → list Z;
}.
Class FlushWriteLaws (W : Type) `{FlushWrite W} : Prop := {
  flush_keeps : ∀ w w', writer_flush w = (Ok tt, w') → written w' = written w ∧ on_disk w' = written w';
}.

Inductive ExportError : Type :=
| NotStreaming
| OpenInputFailed (e : InputError)
| OpenOutputFailed (e : InputError)
| CreateFailed
| ReadFailed (e : Error)
| KindRefused (kind : RecordType) (sq : Z)
| PayloadRefused (payload_kind : Z) (sq : Z)
| StatusError (status : Z) (record : option (Z * RecordType)) (detail : text)
| FinishAlsoFailed (e e' : ExportError)
| OutputFailed (e : IoError)
| FlushFailed (e : IoError).

Section Exporter.
Context {OP : OtlpParts} {FL : Floats} {LC : LogsCodec} {SC : SignalCodec} {EX : Externals}.
Context {W : Type} `{FW : FlushWrite W} {C : Type}.

Record HostOutputSink : Type := mkSink { sink_writer : W; sink_last_error : option IoError }.

(** The bytes of a request to write, unless its arguments are refused. *)
Definition write_request (user_null : bool) (data : option (list Z)) (n : Z) : option (list Z) :=
  if user_null || (bool_decide (data = None) && negb (n =? 0)) then None
  else Some (if n =? 0 then [] else take (Z.to_nat n) (default [] data)).

Definition noted (r : result IoError unit * W) : Z * HostOutputSink :=
  match r with
  | (Ok _, w) => (LJX_EXPORT_STATUS_OK, mkSink w None)
  | (Err e, w) => (LJX_EXPORT_STATUS_IO, mkSink w (Some e))
  end.
Definition host_write (user_null : bool) (data : option (list Z)) (n : Z) (sink : HostOutputSink) : Z * HostOutputSink :=
  match write_request user_null data n with
  | None => (LJX_EXPORT_STATUS_BAD_ARG, sink)
  | Some bytes => noted (write_all bytes (sink_writer sink))
  end.
Definition host_flush (user_null : bool) (sink : HostOutputSink) : Z * HostOutputSink :=
  if user_null then (LJX_EXPORT_STATUS_BAD_ARG, sink) else noted (writer_flush (sink_writer sink)).

(** A call into the plugin, with the host behind it. *)
Fixpoint run_calls {A} (c : Calls A) (sink : HostOutputSink) : A * HostOutputSink :=
  match c with
  | Return a => (a, sink)
  | HostWrite u data n k => let '(status, sink) := host_write u data n sink in run_calls (k status) sink
  | HostFlush u k => let '(status, sink) := host_flush u sink in run_calls (k status) sink
  end.

(** ** Running an export *)

Definition abi_record_type (t : RecordType) : Z := match t with Logs => 1 | Metrics => 2 | Traces => 3 | Events => 4 end.
Definition payload_kind (record : OwnedRecord) : Z :=
  match record_type record with
  | Logs => if is_ok (decode_logs (payload record)) then LJX_PAYLOAD_KIND_OTLP_EXPORT_LOGS_REQUEST else LJX_PAYLOAD_KIND_OPAQUE
  | Metrics => if is_ok (decode_metrics (payload record)) then LJX_PAYLOAD_KIND_OTLP_EXPORT_METRICS_REQUEST else LJX_PAYLOAD_KIND_OPAQUE
  | Traces => if is_ok (decode_traces (payload record)) then LJX_PAYLOAD_KIND_OTLP_EXPORT_TRACE_REQUEST else LJX_PAYLOAD_KIND_OPAQUE
  | Events => LJX_PAYLOAD_KIND_OPAQUE
  end.

Definition record_flag (t : RecordType) : Z :=
  match t with
  | Logs | Events => LJX_EXPORT_CAP_RECORD_LOGS
  | Metrics => LJX_EXPORT_CAP_RECORD_METRICS
  | Traces => LJX_EXPORT_CAP_RECORD_TRACES
  end.
Definition validate_capabilities (x : LoadedExporter C) (record : OwnedRecord) (kind : Z) : result ExportError unit :=
  let has := has_flag (le_capabilities x) in
  if negb (has (record_flag (record_type record))) then Err (KindRefused (record_type record) (seq record)) else
  if (kind =? LJX_PAYLOAD_KIND_OTLP_EXPORT_LOGS_REQUEST) && negb (has LJX_EXPORT_CAP_PAYLOAD_OTLP_EXPORT_LOGS_REQUEST)
  then Err (PayloadRefused kind (seq record)) else
  if (kind =? LJX_PAYLOAD_KIND_OTLP_EXPORT_METRICS_REQUEST) && negb (has LJX_EXPORT_CAP_PAYLOAD_OTLP_EXPORT_METRICS_REQUEST)
  then Err (PayloadRefused kind (seq record)) else
  if (kind =? LJX_PAYLOAD_KIND_OTLP_EXPORT_TRACE_REQUEST) && negb (has LJX_EXPORT_CAP_PAYLOAD_OTLP_EXPORT_TRACE_REQUEST)
  then Err (PayloadRefused kind (seq record)) else Ok tt.

Definition RECORD_SIZE : Z := 48.
Definition raw_record (record : OwnedRecord) : LjxExportRecordV1 :=
  mkExportRecord RECORD_SIZE (abi_record_type (record_type record)) (payload_kind record) 0 (seq record) (ts_unix_ns record) (payload record).

Definition status_error (x : LoadedExporter C) (ctx : C) (status : Z) (record : option OwnedRecord) : ExportError :=
  StatusError status ((λ r, (seq r, record_type r)) <$> record) (abi_string_to_string (le_last_error x ctx)).

Record Running : Type := mkRunning { ex_ctx : C; ex_sink : HostOutputSink; ex_processed : Z; ex_progress : list Z }.

(** One record: [None] goes on, [Some] breaks with an error. *)
Definition export_record (x : LoadedExporter C) (record : OwnedRecord) (st : Running) : option ExportError * Running :=
  match validate_capabilities x record (payload_kind record) with
  | Err e => (Some e, st)
  | Ok _ =>
      let '(status, ctx, sink) := run_calls (le_write_record x (ex_ctx st) (raw_record record)) (ex_sink st) in
      if negb (status =? LJX_EXPORT_STATUS_OK)
      then (Some (status_error x ctx status (Some record)), mkRunning ctx sink (ex_processed st) (ex_progress st))
      else
        let processed := (ex_processed st + 1) mod 2 ^ 64 in
        (None, mkRunning ctx sink processed
                 (ex_progress st ++ (if (processed =? 1) || (processed mod 128 =? 0) then [processed] else [])))
  end.
Fixpoint export_loop (fuel : nat) (x : LoadedExporter C) (reader : LogjetReader) (st : Running) : option (option ExportError * Running) :=
  match fuel with
  | O => None
  | S fuel =>
      match next_record reader with
      | None => None
      | Some (Err e, _) => Some (Some (ReadFailed e), st)
      | Some (Ok None, _) => Some (None, st)
      | Some (Ok (Some record), reader) =>
          match export_record x record st with
          | (Some e, st) => Some (Some e, st)
          | (None, st) => export_loop fuel x reader st
          end
      end
  end.

(** What is returned after [finish]. *)
Definition conclude (x : LoadedExporter C) (loop_error : option ExportError) (status : Z) (ctx : C) (sink : HostOutputSink)
    : result ExportError unit * HostOutputSink :=
  match loop_error with
  | Some e => (Err (if status =? LJX_EXPORT_STATUS_OK then e else FinishAlsoFailed e (status_error x ctx status None)), sink)
  | None =>
      if negb (status =? LJX_EXPORT_STATUS_OK) then (Err (status_error x ctx status None), sink) else
      match sink_last_error sink with
      | Some e => (Err (OutputFailed e), mkSink (sink_writer sink) None)
      | None => let '(r, w) := writer_flush (sink_writer sink) in (map_err FlushFailed r, mkSink w None)
      end
  end.

(** The result, the output if it was opened, and the numbers given to [progress]. *)
Definition export_with_progress (fuel : nat) (x : LoadedExporter C) (input : result InputError (list Z)) (output : result InputError W)
    (options : list (text * text)) : option (result ExportError unit * option HostOutputSink * list Z) :=
  if negb (has_flag (le_capabilities x) LJX_EXPORT_CAP_STREAMING) then Some (Err NotStreaming, None, []) else
  match input, output with
  | Err e, _ => Some (Err (OpenInputFailed e), None, [])
  | Ok _, Err e => Some (Err (OpenOutputFailed e), None, [])
  | Ok data, Ok writer =>
      match run_calls (le_create x options) (mkSink writer None) with
      | (None, sink) => Some (Err CreateFailed, Some sink, [])
      | (Some ctx, sink) =>
          '(loop_error, st) ← export_loop fuel x (reader_new data) (mkRunning ctx sink 0 []);
          let '(status, ctx, sink) := run_calls (le_finish x (ex_ctx st)) (ex_sink st) in
          let '(res, sink) := conclude x loop_error status ctx sink in
          Some (res, Some (run_calls (le_free x ctx) sink).2, ex_progress st ++ [ex_processed st])
      end
  end.
Definition export (fuel : nat) (x : LoadedExporter C) (input : result InputError (list Z)) (output : result InputError W)
    (options : list (text * text)) : option (result ExportError unit * option HostOutputSink) :=
  '(res, sink, _) ← export_with_progress fuel x input output options; Some (res, sink).
End Exporter.

(** ** Finding plugins *)

(** [Path] compares paths by their components: repeated and trailing separators do not
    count, nor does a dot that is not in front. *)
Definition path_components (p : text) : bool * list text :=
  (starts_with p [47],
   match split_on 47 p with
   | [] => []
   | first :: rest => (if bool_decide (first = []) then [] else [first]) ++ filter (λ c, c ≠ [] ∧ c ≠ [46]) rest
   end).
Definition path_eqb (p q : text) : bool := bool_decide (path_components p = path_components q).
Definition push_unique_path (paths : list text) (candidate : text) : list text :=
  if existsb (path_eqb candidate) paths then paths else paths ++ [candidate].

Inductive Diagnostic : Type :=
| PathMissing (path : text)
| DirectoryUnreadable (path : text) (e : IoError)
| NotLoaded (e : LoadError)
| ConflictsWithBuiltin (path format : text)
| AlreadyProvided (path format existing : text).

Definition BUILTIN_EXPORTERS : list text := [str "ndjson"].

Section Registry.
(** The environment: [LJX_EXPORTER_PATH], the working directory, the directory of the
    executable, and the file system. *)
Context (exporter_path cwd exe_dir : option text) (exists_ is_file : text → bool).
Context (read_dir : text → result IoError (list (result IoError text))).

Definition configured_root (acc : list text * list Diagnostic) (entry : text) : list text * list Diagnostic :=
  if bool_decide (entry = []) then acc else
  (push_unique_path acc.1 entry, if exists_ entry then acc.2 else acc.2 ++ [PathMissing entry]).
Definition collect_search_roots : list text * list Diagnostic :=
  let '(roots, diagnostics) := foldl configured_root ([], []) (match exporter_path with Some raw => split_on 58 raw | None => [] end) in
  let roots := match cwd with Some cwd => push_unique_path roots (path_join cwd (str "exporters")) | None => roots end in
  let roots := match exe_dir with
               | Some dir => push_unique_path (push_unique_path roots (path_join dir (str "exporters"))) (path_join dir (str "../lib/logjet/exporters"))
               | None => roots
               end in
  (push_unique_path (push_unique_path roots (str "/usr/lib/logjet/exporters")) (str "/usr/lib/logjet"), diagnostics).

Definition is_shared_library (path : text) : bool :=
  is_file path && match extension path with Some ext => bool_decide (to_ascii_lowercase ext = str "so") | None => false end.

Definition root_candidates (acc : list text * list Diagnostic) (root : text) : list text * list Diagnostic :=
  if is_file root then (acc.1 ++ [root], acc.2) else
  if negb (exists_ root) then acc else
  match read_dir root with
  | Err e => (acc.1, acc.2 ++ [DirectoryUnreadable root e])
  | Ok entries =>
      let paths := omap (λ r, match r with Ok name => Some (path_join root name) | Err _ => None end) entries in
      (acc.1 ++ merge_sort text_le (filter (λ p, is_shared_library p = true) paths), acc.2)
  end.
Definition collect_plugin_candidates (roots : list text) (diagnostics : list Diagnostic) : list text * list Diagnostic :=
  foldl root_candidates ([], diagnostics) roots.

(** Loading a library: the descriptor it returns, null for [None]. *)
Context {C : Type} (library : text → result text (option (LjxExporterDescriptorV1 C))).

Definition LoadedExporter_load (path : text) : result LoadError (LoadedExporter C) :=
  let? descriptor := map_err (LoadFailed path) (library path) in
  let? descriptor := ok_or descriptor (NullDescriptor path) in
  validate_descriptor path descriptor.

Record ExporterRegistry : Type := mkRegistry {
  rg_plugins : gmap text (LoadedExporter C);
  rg_diagnostics : list Diagnostic;
  rg_search_roots : list text;
}.

Record Discovering : Type := mkDiscovering {
  dv_plugins : gmap text (LoadedExporter C); dv_winners : gmap text text; dv_diagnostics : list Diagnostic }.
Definition try_candidate (s : Discovering) (candidate : text) : Discovering :=
  match LoadedExporter_load candidate with
  | Ok plugin =>
      let format := le_format_name plugin in
      if bool_decide (format ∈ BUILTIN_EXPORTERS)
      then mkDiscovering (dv_plugins s) (dv_winners s) (dv_diagnostics s ++ [ConflictsWithBuiltin candidate format]) else
      match dv_winners s !! format with
      | Some existing => mkDiscovering (dv_plugins s) (dv_winners s) (dv_diagnostics s ++ [AlreadyProvided candidate format existing])
      | None => mkDiscovering (<[format := plugin]> (dv_plugins s)) (<[format := candidate]> (dv_winners s)) (dv_diagnostics s)
      end
  | Err e => mkDiscovering (dv_plugins s) (dv_winners s) (dv_diagnostics s ++ [NotLoaded e])
  end.
Definition discover_from_roots (search_roots : list text) (diagnostics : list Diagnostic) : ExporterRegistry :=
  let '(candidates, diagnostics) := collect_plugin_candidates search_roots diagnostics in
  let s := foldl try_candidate (mkDiscovering ∅ ∅ diagnostics) candidates in
  mkRegistry (dv_plugins s) (dv_diagnostics s) search_roots.
Definition registry_discover : ExporterRegistry := let '(roots, diagnostics) := collect_search_roots in discover_from_roots roots diagnostics.

Definition registry_plugin (r : ExporterRegistry) (format : text) : option (LoadedExporter C) := rg_plugins r !! format.
Definition available_formats (r : ExporterRegistry) : list text :=
  dedup_paths (merge_sort text_le (BUILTIN_EXPORTERS ++ (map_to_list (rg_plugins r)).*1)).

End Registry.

(** *** The first one of a format is taken *)

Section First.
Context {C : Type} (library : text → result text (option (LjxExporterDescriptorV1 C))).
Abbreviation try_candidate := (try_candidate library).
Abbreviation LoadedExporter_load := (LoadedExporter_load library).

(** What a candidate offers. *)
Definition offers (format candidate : text) : option (LoadedExporter C) :=
  match LoadedExporter_load candidate with
  | Ok x => if bool_decide (le_format_name x = format) then Some x else None
  | Err _ => None
  end.
Definition first_offer (format : text) (candidates : list text) : option (LoadedExporter C) :=
  if bool_decide (format ∈ BUILTIN_EXPORTERS) then None else list.head (omap (offers format) candidates).

Lemma first_offer_snoc format cs c :
  first_offer format (cs ++ [c]) =
    match first_offer format cs with Some x => Some x | None => if bool_decide (format ∈ BUILTIN_EXPORTERS) then None else offers format c end.
Proof.
  unfold first_offer. case_bool_decide; [done|]. rewrite omap_app, head_app. cbn [omap list_omap].
  destruct (list.head (omap (offers format) cs)); [done|]. by destruct (offers format c).
Qed.

Lemma try_candidates_spec cs diagnostics :
  let s := foldl try_candidate (mkDiscovering ∅ ∅ diagnostics) cs in
  (∀ f, dv_plugins s !! f = first_offer f cs) ∧ (∀ f, is_Some (dv_winners s !! f) ↔ is_Some (dv_plugins s !! f)) ∧
  (length (dv_diagnostics s) + size (dv_plugins s) = length diagnostics + length cs)%nat.
Proof.
  cbv zeta. induction cs as [|c cs IH] using rev_ind.
  { cbn [foldl dv_plugins dv_winners dv_diagnostics]. split_and!.
    - intros f. rewrite lookup_empty. unfold first_offer. by case_bool_decide.
    - intros f. rewrite !lookup_empty. split; by intros [].
    - rewrite map_size_empty. simpl. lia. }
  rewrite foldl_snoc. destruct IH as (Hp & Hw & Hd). set (s := foldl _ _ cs) in *.
  assert (∀ f, first_offer f (cs ++ [c]) = match dv_plugins s !! f with Some x => Some x | None => if bool_decide (f ∈ BUILTIN_EXPORTERS) then None else offers f c end) as Hs.
  { intros f. rewrite first_offer_snoc. by rewrite Hp. }
  unfold try_candidate. destruct (LoadedExporter_load c) as [x|e] eqn:El.
  - case_bool_decide as Hb; [|destruct (dv_winners s !! le_format_name x) as [ex|] eqn:Ew]; cbn [dv_plugins dv_winners dv_diagnostics];
      rewrite ?length_app; cbn [length].
    + split_and!; [|done|lia]. intros f. rewrite Hs. unfold offers. rewrite El. destruct (dv_plugins s !! f); [done|].
      case_bool_decide; [done|]. rewrite bool_decide_eq_false_2 by congruence. done.
    + split_and!; [|done|lia]. intros f. rewrite Hs. unfold offers. rewrite El. destruct (dv_plugins s !! f) eqn:Ef; [done|].
      case_bool_decide; [done|]. case_bool_decide as Hf; [|done]. subst f. destruct (proj1 (Hw (le_format_name x)) ltac:(by rewrite Ew)) as [? ?]. congruence.
    + assert (dv_plugins s !! le_format_name x = None) as En.
      { destruct (dv_plugins s !! le_format_name x) eqn:E; [|done]. destruct (proj2 (Hw (le_format_name x)) ltac:(by rewrite E)). congruence. }
      split_and!.
      * intros f. rewrite Hs. unfold offers. rewrite El. destruct (decide (f = le_format_name x)) as [->|Hne].
        { rewrite lookup_insert_eq, En. rewrite bool_decide_eq_false_2 by done. by rewrite bool_decide_eq_true_2. }
        rewrite lookup_insert_ne by done. destruct (dv_plugins s !! f); [done|]. case_bool_decide; [done|]. by rewrite bool_decide_eq_false_2 by congruence.
      * intros f. rewrite !lookup_insert_is_Some. by rewrite Hw.
      * rewrite map_size_insert_None by done. lia.
  - cbn [dv_plugins dv_winners dv_diagnostics]. rewrite !length_app. cbn [length]. split_and!; [|done|lia].
    intros f. rewrite Hs. unfold offers. rewrite El. destruct (dv_plugins s !! f); [done|]. by case_bool_decide.
Qed.
End First.

Section Registry_facts.
Context (exists_ is_file : text → bool) (read_dir : text → result IoError (list (result IoError text))).
Context {C : Type} (library : text → result text (option (LjxExporterDescriptorV1 C))).

Lemma validate_descriptor_spec path (d : LjxExporterDescriptorV1 C) x :
  validate_descriptor path d = Ok x →
  DESCRIPTOR_SIZE ≤ ds_struct_size d ∧ ds_abi_major d = LJX_EXPORTER_ABI_MAJOR ∧ ds_abi_minor d ≤ LJX_EXPORTER_ABI_MINOR ∧
  is_valid_format_name (le_format_name x) = true ∧ le_capabilities x = ds_capabilities d ∧ le_path x = path.
Proof.
  unfold validate_descriptor. destruct (Z.ltb_spec (ds_struct_size d) DESCRIPTOR_SIZE); [done|].
  destruct (Z.eqb_spec (ds_abi_major d) LJX_EXPORTER_ABI_MAJOR); [|done]. cbn [negb].
  destruct (Z.ltb_spec LJX_EXPORTER_ABI_MINOR (ds_abi_minor d)); [done|].
  destruct (is_valid_format_name _) eqn:E; [|done]. cbn [negb]. intros [= <-]. done.
Qed.

Lemma load_spec path x :
  LoadedExporter_load library path = Ok x →
  ∃ d, library path = Ok (Some d) ∧ DESCRIPTOR_SIZE ≤ ds_struct_size d ∧ ds_abi_major d = LJX_EXPORTER_ABI_MAJOR ∧
    ds_abi_minor d ≤ LJX_EXPORTER_ABI_MINOR ∧ is_valid_format_name (le_format_name x) = true.
Proof.
  unfold LoadedExporter_load. destruct (library path) as [[d|]|e]; [|done|done]. cbn [map_err ok_or].
  intros H%validate_descriptor_spec. exists d. tauto.
Qed.

(** Exporter plugins.  For every format the registry holds the first of the candidates,
    in the order of the search roots, that loads and offers the format; none for a built-in
    format.  A plugin it holds has the right version of the interface and a valid name;
    every other candidate is noted, and the formats offered are the built-in ones and
    those of the plugins, sorted and each once. *)
Theorem registry_takes_first roots diagnostics :
  let '(candidates, notes) := collect_plugin_candidates exists_ is_file read_dir roots diagnostics in
  let r := discover_from_roots exists_ is_file read_dir library roots diagnostics in
  (∀ f, registry_plugin r f = first_offer library f candidates) ∧
  (∀ f x, registry_plugin r f = Some x → le_format_name x = f ∧ f ∉ BUILTIN_EXPORTERS ∧
     ∃ path d, path ∈ candidates ∧ library path = Ok (Some d) ∧ DESCRIPTOR_SIZE ≤ ds_struct_size d ∧
       ds_abi_major d = LJX_EXPORTER_ABI_MAJOR ∧ ds_abi_minor d ≤ LJX_EXPORTER_ABI_MINOR ∧ is_valid_format_name f = true) ∧
  (length (rg_diagnostics r) + size (rg_plugins r) = length notes + length candidates)%nat ∧
  StronglySorted text_lt (available_formats r) ∧
  (∀ f, f ∈ available_formats r ↔ f ∈ BUILTIN_EXPORTERS ∨ is_Some (registry_plugin r f)).
Proof.
  unfold discover_from_roots. destruct (collect_plugin_candidates _ _ _ _ _) as [cs notes]. cbv zeta.
  destruct (try_candidates_spec library cs notes) as (Hp & _ & Hd). set (s := foldl _ _ cs) in *. unfold registry_plugin. cbn [rg_plugins rg_diagnostics].
  split_and!; [exact Hp| |exact Hd|..].
  - intros f x. rewrite Hp. unfold first_offer. case_bool_decide as Hb; [done|]. intros Hh.
    assert (x ∈ omap (offers library f) cs) as Hx by (by apply head_Some_elem_of).
    apply list_elem_of_omap in Hx as (path & Hpath & Ho). unfold offers in Ho. destruct (LoadedExporter_load library path) as [y|] eqn:El; [|done].
    case_bool_decide as Hf; [|done]. injection Ho as ->. split_and!; [done|done|]. apply load_spec in El as (d & ?). exists path, d. by rewrite Hf in *.
  - apply dedup_paths_sorted. apply StronglySorted_merge_sort; apply _.
  - intros f. unfold available_formats. cbn [rg_plugins].
    rewrite (proj2 (dedup_paths_sorted _ (StronglySorted_merge_sort text_le _))), merge_sort_Permutation, elem_of_app.
    apply or_iff_compat_l. rewrite list_elem_of_fmap. split.
    + intros ([k x] & -> & Hx%elem_of_map_to_list). simpl. by rewrite Hx.
    + intros [x Hx]. exists (f, x). split; [done|]. by apply elem_of_map_to_list.
Qed.
End Registry_facts.

(** ** What an export does *)

(** A plugin on a host whose output never fails: what it returns and what it writes. *)
Fixpoint answered {A} (c : Calls A) : A * list Z :=
  match c with
  | Return a => (a, [])
  | HostWrite u data n k =>
      match write_request u data n with
      | None => answered (k LJX_EXPORT_STATUS_BAD_ARG)
      | Some bs => let '(a, out) := answered (k LJX_EXPORT_STATUS_OK) in (a, bs ++ out)
      end
  | HostFlush u k => answered (k (if u then LJX_EXPORT_STATUS_BAD_ARG else LJX_EXPORT_STATUS_OK))
  end.

(** Whatever the host answers, the call ends with [P]. *)
Fixpoint always_ends {A} (P : A → Prop) (c : Calls A) : Prop :=
  match c with
  | Return a => P a
  | HostWrite _ _ _ k => ∀ status, always_ends P (k status)
  | HostFlush _ k => ∀ status, always_ends P (k status)
  end.
(** Once the host has reported an error of the output, the call ends with [failed]. *)
Fixpoint reports {A} (failed : A → Prop) (c : Calls A) : Prop :=
  match c with
  | Return _ => True
  | HostWrite u data n k =>
      match write_request u data n with
      | None => reports failed (k LJX_EXPORT_STATUS_BAD_ARG)
      | Some _ => reports failed (k LJX_EXPORT_STATUS_OK) ∧ always_ends failed (k LJX_EXPORT_STATUS_IO)
      end
  | HostFlush u k =>
      if u then reports failed (k LJX_EXPORT_STATUS_BAD_ARG)
      else reports failed (k LJX_EXPORT_STATUS_OK) ∧ always_ends failed (k LJX_EXPORT_STATUS_IO)
  end.

(** A plugin that passes on the errors of its output, and does not write while it is freed. *)
Record reliable {C} (x : LoadedExporter C) : Prop := {
  reliable_create : ∀ options, reports (λ o, o = None) (le_create x options);
  reliable_write : ∀ ctx r, reports (λ res, res.1 ≠ LJX_EXPORT_STATUS_OK) (le_write_record x ctx r);
  reliable_finish : ∀ ctx, reports (λ res, res.1 ≠ LJX_EXPORT_STATUS_OK) (le_finish x ctx);
  reliable_free : ∀ ctx, le_free x ctx = Return tt;
}.

Section Run.
Context {OP : OtlpParts} {FL : Floats} {LC : LogsCodec} {SC : SignalCodec} {EX : Externals} {EL : ExternalLaws}.
Context {W : Type} `{FW : !Write W, FL' : !FlushWrite W, WL : !WriteLaws W, FWL : !FlushWriteLaws W} {C : Type}.
Implicit Types (x : LoadedExporter C) (sink : HostOutputSink (W := W)).

(** The plugin on the records, one after the other: [None] when one of them is not
    accepted. *)
Fixpoint exported_records x (ctx : C) (rs : list OwnedRecord) : option (C * list Z) :=
  match rs with
  | [] => Some (ctx, [])
  | r :: rs =>
      if is_ok (validate_capabilities x r (payload_kind r)) then
        let '(status, ctx, out) := answered (le_write_record x ctx (raw_record r)) in
        if status =? LJX_EXPORT_STATUS_OK then '(ctx, more) ← exported_records x ctx rs; Some (ctx, out ++ more) else None
      else None
  end.
Definition exported x (options : list (text * text)) (rs : list OwnedRecord) : option (list Z) :=
  if negb (has_flag (le_capabilities x) LJX_EXPORT_CAP_STREAMING) then None else
  let '(ctx, out) := answered (le_create x options) in
  ctx ← ctx;
  '(ctx, records) ← exported_records x ctx rs;
  let '(status, _, last) := answered (le_finish x ctx) in
  if status =? LJX_EXPORT_STATUS_OK then Some (out ++ records ++ last) else None.

Lemma always_ends_run {A} (P : A → Prop) (c : Calls A) sink : always_ends P c → P (run_calls c sink).1.
Proof.
  revert sink. induction c as [a|u data n k IH|u k IH]; intros sink H; cbn [run_calls always_ends] in *; [done|..].
  - destruct (host_write u data n sink) as [st s]. apply IH, H.
  - destruct (host_flush u sink) as [st s]. apply IH, H.
Qed.

(** A call that did not fail has seen no error: it did what it does when there is none. *)
Lemma run_calls_reported {A} (failed : A → Prop) (c : Calls A) sink a sink' :
  reports failed c → run_calls c sink = (a, sink') → ¬ failed a →
  a = (answered c).1 ∧ written (sink_writer sink') = written (sink_writer sink) ++ (answered c).2 ∧
  (sink_last_error sink = None → sink_last_error sink' = None).
Proof.
  revert sink. induction c as [b|u data n k IH|u k IH]; intros sink Hr Hrun Hok; cbn [run_calls answered reports] in *.
  - injection Hrun as <- <-. by rewrite app_nil_r.
  - unfold host_write in Hrun. destruct (write_request u data n) as [bs|]; [|by eapply IH].
    destruct Hr as [Hr Hf]. destruct (write_all bs (sink_writer sink)) as [[[]|e] w] eqn:Ew; cbn [noted] in Hrun.
    + destruct (IH _ _ Hr Hrun Hok) as (-> & Hw & He). destruct (answered (k _)) as [a' out]. cbn [fst snd sink_writer sink_last_error] in *.
      split_and!; [done| |auto]. rewrite Hw, (write_all_appends _ _ _ Ew). by rewrite app_assoc.
    + destruct Hok. pose proof (always_ends_run _ _ (mkSink w (Some e)) Hf) as Hd. by rewrite Hrun in Hd.
  - unfold host_flush in Hrun. destruct u; [by eapply IH|]. destruct Hr as [Hr Hf].
    destruct (writer_flush (sink_writer sink)) as [[[]|e] w] eqn:Ew; cbn [noted] in Hrun.
    + destruct (IH _ _ Hr Hrun Hok) as (-> & Hw & He). cbn [sink_writer sink_last_error] in *. split_and!; [done| |auto].
      rewrite Hw. by destruct (flush_keeps _ _ Ew) as [-> _].
    + destruct Hok. pose proof (always_ends_run _ _ (mkSink w (Some e)) Hf) as Hd. by rewrite Hrun in Hd.
Qed.

(** An output that never fails. *)
Definition sound_output : Prop := (∀ bs (w : W), ∃ w', write_all bs w = (Ok tt, w')) ∧ (∀ w : W, ∃ w', writer_flush w = (Ok tt, w')).

Lemma run_calls_sound {A} (c : Calls A) sink :
  sound_output → (run_calls c sink).1 = (answered c).1 ∧ (sink_last_error sink = None → sink_last_error (run_calls c sink).2 = None).
Proof.
  intros [Hw Hf]. revert sink. induction c as [b|u data n k IH|u k IH]; intros sink; cbn [run_calls answered]; [done|..].
  - unfold host_write. destruct (write_request u data n) as [bs|]; [|apply IH].
    destruct (Hw bs (sink_writer sink)) as [w ->]. cbn [noted]. destruct (IH LJX_EXPORT_STATUS_OK (mkSink w None)) as [IH1 IH2].
    destruct (answered (k _)) as [a out]. cbn [fst snd sink_last_error] in *. split; [done|]. intros _. by apply IH2.
  - unfold host_flush. destruct u; [apply IH|]. destruct (Hf (sink_writer sink)) as [w ->]. cbn [noted].
    destruct (IH LJX_EXPORT_STATUS_OK (mkSink w None)) as [IH1 IH2]. cbn [sink_last_error] in *. auto.
Qed.
Lemma export_record_spec x r st e st' :
  reliable x → export_record x r st = (e, st') →
  (e = None → is_ok (validate_capabilities x r (payload_kind r)) = true ∧
     ∃ out, answered (le_write_record x (ex_ctx st) (raw_record r)) = (LJX_EXPORT_STATUS_OK, ex_ctx st', out) ∧
       written (sink_writer (ex_sink st')) = written (sink_writer (ex_sink st)) ++ out ∧
       (sink_last_error (ex_sink st) = None → sink_last_error (ex_sink st') = None) ∧
       ex_processed st' = (ex_processed st + 1) mod 2 ^ 64) ∧
  (sound_output → is_ok (validate_capabilities x r (payload_kind r)) = true →
   (answered (le_write_record x (ex_ctx st) (raw_record r))).1.1 = LJX_EXPORT_STATUS_OK → e = None).
Proof.
  intros Hx. unfold export_record. destruct (validate_capabilities x r (payload_kind r)) as [u|err]; [|by intros [= <- <-]].
  destruct (run_calls (le_write_record x (ex_ctx st) (raw_record r)) (ex_sink st)) as [[status ctx] sink] eqn:Er.
  destruct (Z.eqb_spec status LJX_EXPORT_STATUS_OK) as [->|Hs]; cbn [negb]; intros [= <- <-]; split; try done.
  - intros _. split; [done|].
    destruct (run_calls_reported _ _ _ _ _ (reliable_write x Hx (ex_ctx st) (raw_record r)) Er) as (Ha & Hw & He); [by intros []|].
    destruct (answered _) as [a out]. cbn [fst snd] in *. exists out. subst a. cbn [ex_ctx ex_sink ex_processed]. by split_and!.
  - intros Hso _ Ha. pose proof (proj1 (run_calls_sound (le_write_record x (ex_ctx st) (raw_record r)) (ex_sink st) Hso)) as H.
    rewrite Er in H. cbn [fst] in H. rewrite <- H in Ha. cbn [fst] in Ha. congruence.
Qed.

Lemma export_loop_spec x fuel reader rs st :
  reliable x → delivers reader rs → (length rs < fuel)%nat → 0 ≤ ex_processed st → ex_processed st + len rs < 2 ^ 64 →
  ∃ e st', export_loop fuel x reader st = Some (e, st') ∧
    (e = None → ∃ out, exported_records x (ex_ctx st) rs = Some (ex_ctx st', out) ∧
       written (sink_writer (ex_sink st')) = written (sink_writer (ex_sink st)) ++ out ∧
       (sink_last_error (ex_sink st) = None → sink_last_error (ex_sink st') = None) ∧ ex_processed st' = ex_processed st + len rs) ∧
    (sound_output → is_Some (exported_records x (ex_ctx st) rs) → e = None).
Proof.
  intros Hx. revert reader rs st. induction fuel as [|fuel IH]; intros reader rs st Hd Hf H0 Hlt; [lia|]. cbn [export_loop].
  destruct (next_record_delivers reader rs Hd) as (r' & -> & Hr'). destruct rs as [|r rs]; cbn [list.head hd_error].
  { exists None, st. split_and!; [done| |done]. intros _. exists []. rewrite app_nil_r. split_and!; [done|done|done|]. unfold len. simpl. lia. }
  destruct Hr' as [Hd' _]; [done|]. cbn [tail length] in Hd', Hf. rewrite len_cons in Hlt. pose proof (len_nonneg rs).
  destruct (export_record x r st) as [e st1] eqn:Er. destruct (export_record_spec _ _ _ _ _ Hx Er) as [Hok Hso].
  destruct e as [e|].
  - exists (Some e), st1. split_and!; [done|done|]. intros Hs [y Hy]. cbn [exported_records] in Hy.
    destruct (is_ok _) eqn:Ev; [|done]. specialize (Hso Hs eq_refl). destruct (answered _) as [[status ctx] out]. cbn [fst] in Hso.
    destruct (Z.eqb_spec status LJX_EXPORT_STATUS_OK); [|done]. by specialize (Hso ltac:(done)).
  - destruct (Hok eq_refl) as (Hv & out & Ha & Hw & He & Hp). rewrite Z.mod_small in Hp by lia.
    destruct (IH r' rs st1) as (e & st' & -> & IH1 & IH2); [done|lia|lia|lia|]. exists e, st'. split; [done|].
    cbn [exported_records]. rewrite Hv, Ha. rewrite Z.eqb_refl. split.
    + intros ->. destruct (IH1 eq_refl) as (more & -> & Hw' & He' & Hp'). exists (out ++ more). rewrite Hw', Hw, app_assoc, len_cons.
      split_and!; [done|done|auto|lia].
    + intros Hs [y Hy]. apply IH2; [done|]. by destruct (exported_records x (ex_ctx st1) rs).
Qed.
Lemma conclude_spec x e status ctx sink :
  match conclude x e status ctx sink with
  | (Ok _, sink') => e = None ∧ status = LJX_EXPORT_STATUS_OK ∧ sink_last_error sink = None ∧
      on_disk (sink_writer sink') = written (sink_writer sink)
  | (Err _, _) => sound_output → e = None → status = LJX_EXPORT_STATUS_OK → sink_last_error sink = None → False
  end.
Proof.
  unfold conclude. destruct e as [err|]; [done|]. destruct (Z.eqb_spec status LJX_EXPORT_STATUS_OK); cbn [negb]; [|done].
  destruct (sink_last_error sink); [done|]. destruct (writer_flush (sink_writer sink)) as [[[]|err] w] eqn:Ew; cbn [map_err].
  - split_and!; [done..|]. destruct (flush_keeps _ _ Ew) as [? ?]. cbn [sink_writer]. congruence.
  - intros [_ Hf] _ _ _. destruct (Hf (sink_writer sink)) as [w' ?]. congruence.
Qed.

(** C34: exporting through a plugin.  With a plugin that passes on the errors of its output,
    an export of a readable log returns.  If it reports success, then every record was within
    the capabilities of the plugin and was accepted by it, in order and followed by
    [finish], the output has received exactly what the plugin writes for these records,
    and the last progress is their number.  With an output that never fails it reports success
    exactly when the plugin accepts all of them. *)
Theorem export_runs_plugin x data rs (writer : W) options fuel :
  reliable x → delivers (reader_new data) rs → (length rs < fuel)%nat → len rs ≤ MAX_U64 →
  ∃ res output progress, export_with_progress fuel x (Ok data) (Ok writer) options = Some (res, output, progress) ∧
    (res = Ok tt → ∃ out s, exported x options rs = Some out ∧ output = Some s ∧
       on_disk (sink_writer s) = written writer ++ out ∧ list.last progress = Some (len rs)) ∧
    (sound_output → (res = Ok tt ↔ is_Some (exported x options rs))).
Proof.
  intros Hx Hd Hf Hlen. unfold export_with_progress, exported. destruct (has_flag _ _); cbn [negb].
  2:{ do 3 eexists. split_and!; [done|done|]. intros _. split; [done|by intros []]. }
  destruct (run_calls (le_create x options) (mkSink writer None)) as [[ctx|] sink] eqn:Ec.
  2:{ do 3 eexists. split_and!; [done|done|]. intros Hs. split; [done|]. intros [y Hy].
      pose proof (proj1 (run_calls_sound (le_create x options) (mkSink writer None) Hs)) as H. rewrite Ec in H. cbn [fst] in H.
      destruct (answered (le_create x options)) as [o out]. cbn [fst] in H. by subst o. }
  destruct (run_calls_reported _ _ _ _ _ (reliable_create x Hx options) Ec) as (Ha & Hw & He); [done|].
  destruct (answered (le_create x options)) as [o out]. cbn [fst snd sink_writer sink_last_error] in *. subst o. cbn [mbind option_bind].
  destruct (export_loop_spec x fuel (reader_new data) rs (mkRunning ctx sink 0 []) Hx Hd Hf) as (e & st & -> & Hl & Hs);
    [done|cbn [ex_processed]; int_solve|]. cbn [mbind option_bind ex_ctx ex_sink ex_processed] in *.
  destruct (run_calls (le_finish x (ex_ctx st)) (ex_sink st)) as [[status ctx'] sink'] eqn:Ef.
  pose proof (conclude_spec x e status ctx' sink') as Hc. destruct (conclude x e status ctx' sink') as [res sink''].
  rewrite (reliable_free x Hx). cbn [run_calls snd]. do 3 eexists. split; [done|].
  assert (res = Ok tt → ∃ more last, exported_records x ctx rs = Some (ex_ctx st, more) ∧
      (answered (le_finish x (ex_ctx st))) = (status, ctx', last) ∧ status = LJX_EXPORT_STATUS_OK ∧
      on_disk (sink_writer sink'') = written writer ++ out ++ more ++ last ∧ ex_processed st = len rs) as Hgood.
  { intros ->. destruct Hc as (-> & -> & _ & Ho). destruct (Hl eq_refl) as (more & Hm & Hw2 & _ & Hp).
    destruct (run_calls_reported _ _ _ _ _ (reliable_finish x Hx (ex_ctx st)) Ef) as (Ha3 & Hw3 & _); [by intros []|].
    destruct (answered (le_finish x (ex_ctx st))) as [a last]. cbn [fst snd] in *. subst a. exists more, last.
    split_and!; [done|done|done|by rewrite Ho, Hw3, Hw2, Hw, !app_assoc|lia]. }
  split.
  - intros Hr. destruct (Hgood Hr) as (more & last & -> & Hfin & -> & Ho & Hp). cbn [mbind option_bind]. rewrite Hfin. rewrite Z.eqb_refl.
    exists (out ++ more ++ last), sink''. split_and!; [done|done|done|]. by rewrite last_snoc, Hp.
  - intros Hso. split.
    + intros Hr. destruct (Hgood Hr) as (more & last & -> & Hfin & -> & _). cbn [mbind option_bind]. rewrite Hfin. rewrite Z.eqb_refl. done.
    + intros [y Hy]. destruct res as [[]|err]; [done|]. exfalso. destruct (exported_records x ctx rs) as [[c more]|] eqn:Em; [|done].
      specialize (Hs Hso ltac:(done)) as ->. destruct (Hl eq_refl) as (more' & [= -> ->] & _ & Hle & _).
      cbn [mbind option_bind] in Hy. destruct (run_calls_sound (le_finish x (ex_ctx st)) (ex_sink st) Hso) as [H1 H2]. rewrite Ef in H1, H2. cbn [fst snd] in H1, H2.
      destruct (answered (le_finish x (ex_ctx st))) as [[s c2] last]. cbn [fst] in H1. injection H1 as -> ->.
      destruct (Z.eqb_spec s LJX_EXPORT_STATUS_OK); [|done]. apply Hc; auto.
Qed.
End Run.

(** ** It applies *)

Section Witness.
#[local] Existing Instances sample_parts logs_codec sample_floats sample_signals stored_externals stored_laws.

#[local] Instance Vec_FlushWrite : FlushWrite (list Z) := {| writer_flush := ret tt; on_disk v := v |}.
#[local] Instance Vec_FlushWriteLaws : FlushWriteLaws (list Z).
Proof. constructor. by intros w w' [= <-]. Qed.

(** A plugin that writes a heading, the payloads and a final line, and stops at an error. *)
Definition pass_on {A} (failed : Z → A) (ok : A) (status : Z) : Calls A :=
  Return (if status =? LJX_EXPORT_STATUS_OK then ok else failed status).
Definition write_bytes {A} (bs : list Z) (k : Z → Calls A) : Calls A := HostWrite false (Some bs) (len bs) k.
Definition plain_exporter : LoadedExporter unit :=
  mkLoadedExporter (str "/usr/lib/logjet/plain.so") (str "plain") (str "plain") 127
    (λ _, write_bytes (str "begin") (pass_on (λ _, None) (Some tt)))
    (λ c r, write_bytes (124 :: xr_payload r) (pass_on (λ st, (st, c)) (LJX_EXPORT_STATUS_OK, c)))
    (λ c, write_bytes (str "|end") (λ st, if st =? LJX_EXPORT_STATUS_OK
       then HostFlush false (pass_on (λ st, (st, c)) (LJX_EXPORT_STATUS_OK, c)) else Return (st, c)))
    (λ _, mkAbiString None 0) (λ _, Return tt).

Lemma plain_exporter_reliable : reliable plain_exporter.
Proof. constructor; [..|done]; intros; cbn; by split_and!. Qed.

Lemma vec_sound : sound_output (W := list Z).
Proof. split; intros; by eexists. Qed.

Lemma export_runs_plugin_witness :
  reliable plain_exporter ∧ delivers (reader_new query_file) query_input ∧
  exported plain_exporter [] query_input = Some (str "begin|cab|ab|ba|abc|ab|end") ∧
  ∃ output progress, export_with_progress 6 plain_exporter (Ok query_file) (Ok []) [] = Some (Ok tt, output, progress) ∧
    ∃ s, output = Some s ∧ on_disk (sink_writer s) = str "begin|cab|ab|ba|abc|ab|end" ∧ list.last progress = Some 5.
Proof.
  assert (exported plain_exporter [] query_input = Some (str "begin|cab|ab|ba|abc|ab|end")) as He by (by vm_compute).
  split; [exact plain_exporter_reliable|]. split; [exact query_file_delivers|]. split; [exact He|].
  destruct (export_runs_plugin plain_exporter query_file query_input [] [] 6) as (res & output & progress & Hr & H1 & H2);
    [exact plain_exporter_reliable|exact query_file_delivers|simpl; lia|vm_compute; discriminate|].
  rewrite He in H1, H2. destruct (H2 vec_sound) as [_ H3]. specialize (H3 ltac:(done)) as ->.
  destruct (H1 eq_refl) as (out & s & [= <-] & -> & Hd & Hl). exists (Some s), progress. split; [exact Hr|]. exists s. by split_and!.
Defined.

(** An output whose first write fails, and a plugin that does not look at the answers. *)
Record Flaky : Type := mkFlaky { fk_failed : bool; fk_out : list Z }.
#[local] Instance Flaky_Write : Write Flaky := {|
  write_all bs w := if fk_failed w then (Ok tt, mkFlaky true (fk_out w ++ bs)) else (Err (io_error OtherKind "No space left on device"), mkFlaky true (fk_out w));
  written := fk_out |}.
#[local] Instance Flaky_FlushWrite : FlushWrite Flaky := {| writer_flush := ret tt; on_disk := fk_out |}.
Definition careless_exporter : LoadedExporter unit :=
  mkLoadedExporter (str "/usr/lib/logjet/careless.so") (str "careless") (str "careless") 127
    (λ _, Return (Some tt)) (λ c r, write_bytes (xr_payload r) (λ _, Return (LJX_EXPORT_STATUS_OK, c)))
    (λ c, Return (LJX_EXPORT_STATUS_OK, c)) (λ _, mkAbiString None 0) (λ _, Return tt).

(** A failed write is forgotten: the host keeps the last error for plugins that do not
    report it, but the next successful write clears it, and the export that lost a
    record reports success. *)
Theorem failed_write_forgotten :
  ∃ s progress, export_with_progress 6 careless_exporter (Ok query_file) (Ok (mkFlaky false [])) [] = Some (Ok tt, Some s, progress) ∧
    exported careless_exporter [] query_input = Some (str "cababbaabcab") ∧ on_disk (sink_writer s) = str "abbaabcab".
Proof. do 2 eexists. split_and!; vm_compute; reflexivity. Qed.

(** Two libraries offer the same format; the one in the first root is taken, and the one
    that takes the name of the built-in format is refused. *)
Definition named_descriptor (name : string) (minor : Z) : LjxExporterDescriptorV1 unit :=
  mkDescriptor DESCRIPTOR_SIZE 1 minor 127 (mkAbiString (Some (str name)) (len (str name))) (mkAbiString None 0) (mkAbiString None 0)
    (le_create plain_exporter) (le_write_record plain_exporter) (le_finish plain_exporter) (le_last_error plain_exporter) (le_free plain_exporter).
Definition sample_dir (p : text) : result IoError (list (result IoError text)) :=
  Ok (if bool_decide (p = str "/a") then [Ok (str "x.so"); Ok (str "new.so"); Ok (str "readme")] else [Ok (str "y.SO"); Ok (str "z.so")]).
Definition sample_library (p : text) : result text (option (LjxExporterDescriptorV1 unit)) :=
  if bool_decide (p = str "/a/x.so") then Ok (Some (named_descriptor " Csv " 0)) else
  if bool_decide (p = str "/a/new.so") then Ok (Some (named_descriptor "new" 1)) else
  if bool_decide (p = str "/b/y.SO") then Ok (Some (named_descriptor "csv" 0)) else Ok (Some (named_descriptor "NDJSON" 0)).
Example sample_registry :
  let r := registry_discover (Some (str "/a:/b/:/b")) None None (λ p, bool_decide (p ∈ [str "/a"; str "/b/"]))
             (λ p, negb (bool_decide (p ∈ [str "/a"; str "/b/"]))) sample_dir sample_library in
  available_formats r = [str "csv"; str "ndjson"] ∧ le_path <$> registry_plugin r (str "csv") = Some (str "/a/x.so").
Proof. vm_compute. done. Qed.
End Witness.
