(* ===== verification/Ndjson.v ===== *)
(** * Export as lines of JSON

    [ljx/src/commands/export.rs]: the built-in export and the query output, which write a
    JSON object on a line of its own for every log record, data point and span.  The
    serialiser of [serde_json], the printing of [f64] and the calendar of [chrono] are
    parameters. *)

From stdpp Require Import sorting.
From S2P Require Import Prelude Text Tokens Format Writer Reader Instances Scan Container RecordLoop Otlp FlatRecord SampleCodec Canon Cel Predicate Input Dataset Exporter.

Section Values.
Context {FL : Floats}.

(** [serde_json::Value]; integers of any type are [JsonInt], the members of an object are
    in the order of their names. *)
Inductive JsonValue : Type :=
| JsonNull
| JsonBool (b : bool)
| JsonInt (n : Z)
| JsonFloat (d : F64)
| JsonString (s : text)
| JsonArray (l : list JsonValue)
| JsonObject (m : list (text * JsonValue)).
End Values.

(** [serde_json::Map] *)
Abbreviation JsonMap := (gmap text JsonValue).

Class JsonText `{Floats} : Type := {
  f64_is_finite : F64 → bool;
  f64_to_string : F64 → text;
  json_text : JsonValue → text;
  utc_text : Z → Z → option text;
}.

(** Compact JSON has no line feed: control characters are escaped. *)
Class JsonTextLaws `{JsonText} : Prop := json_text_one_line : ∀ v, 10 ∉ json_text v.

Section Rows.
Context {OP : OtlpParts} {FL : Floats} {VT : ValueTrees} {LC : LogsCodec} {SC : SignalCodec} {JT : JsonText}.

Definition member_le (a b : text * JsonValue) : Prop := text_le a.1 b.1.
#[export] Instance member_le_dec : RelDecision member_le.
Proof. intros a b. unfold member_le. apply _. Defined.
Definition object (m : JsonMap) : JsonValue := JsonObject (merge_sort member_le (map_to_list m)).

(** [Number::from_f64] *)
Definition json_f64 (d : F64) : option JsonValue := if f64_is_finite d then Some (JsonFloat d) else None.

Fixpoint preview_loop (fuel : nat) (limit : Z) (out value : text) : text :=
  match fuel, value with
  | S fuel, b :: _ =>
      let ch := take (char_len b) value in
      if limit <? len out + len ch then out else preview_loop fuel limit (out ++ ch) (drop (char_len b) value)
  | _, _ => out
  end.
Definition truncate_preview (value : text) (preview_bytes : option Z) : text :=
  match preview_bytes with
  | None => value
  | Some limit =>
      if limit =? 0 then [] else
      let out := preview_loop (length value) limit [] value in
      if len out <? len value then out ++ str "..." else out
  end.

Definition hex_encode (bytes : list Z) : text :=
  concat ((λ byte, [hex_of_nibble (Z.shiftr byte 4); hex_of_nibble (Z.land byte 15)]) <$> bytes).

Definition format_timestamp (ts_unix_ns : Z) : text :=
  let secs := as_i64 (ts_unix_ns / 1000000000) in
  let nanos := ts_unix_ns mod 1000000000 in
  match utc_text secs nanos with Some s => s | None => u64_to_string ts_unix_ns end.

Section Preview.
Context (preview_bytes : option Z).

(** [any_value_to_json] on the nesting of a value. *)
Fixpoint tree_to_json (v : ValueTree) : option JsonValue :=
  match v with
  | TreeString s => Some (JsonString (truncate_preview s preview_bytes))
  | TreeStrindex => Some JsonNull
  | TreeBool b => Some (JsonBool b)
  | TreeInt n => Some (JsonInt n)
  | TreeDouble d => json_f64 d
  | TreeBytes b => Some (JsonString (truncate_preview (str "<" ++ u64_to_string (len b) ++ str " bytes>") preview_bytes))
  | TreeArray l => Some (JsonArray (omap tree_to_json l))
  | TreeKvlist l =>
      Some (object ((fix collect (l : list (text * option ValueTree)) (m : JsonMap) : JsonMap :=
        match l with
        | [] => m
        | (k, Some v) :: l =>
            match tree_to_json v with
            | Some j => collect l (<[replace_text [46] [95] k := j]> m)
            | None => collect l m
            end
        | (_, None) :: l => collect l m
        end) l ∅))
  | TreeNone => None
  end.
Definition any_value_to_json (v : AnyValue) : option JsonValue := tree_to_json (tree_of v).

Definition flatten_attr (target : JsonMap) (attr : KeyValue) : JsonMap :=
  let key := replace_text [46] [95] (kv_key attr) in
  if decide (is_Some (target !! key)) then target else
  match kv_value attr with
  | None => target
  | Some value => match any_value_to_json value with Some json => <[key := json]> target | None => target end
  end.
Definition flatten_otlp_attrs_into_json (target : JsonMap) (attrs : list KeyValue) : JsonMap := foldl flatten_attr target attrs.

(** [obj.insert(name, value)], and under a condition. *)
Definition put (name : string) (v : JsonValue) (obj : JsonMap) : JsonMap := <[str name := v]> obj.
Definition put_if (b : bool) (name : string) (v : JsonValue) (obj : JsonMap) : JsonMap := if b then put name v obj else obj.
Definition put_text (name : string) (s : text) (obj : JsonMap) : JsonMap := put_if (filled s) name (JsonString s) obj.
Definition put_time (name : string) (ts : Z) (obj : JsonMap) : JsonMap := put_if (0 <? ts) name (JsonString (format_timestamp ts)) obj.

Definition format_tree (v : ValueTree) : text :=
  match v with
  | TreeString s => s
  | TreeStrindex => str "<strindex>"
  | TreeBool b => if b then str "true" else str "false"
  | TreeInt n => i64_to_string n
  | TreeDouble d => f64_to_string d
  | TreeBytes b => str "<" ++ u64_to_string (len b) ++ str " bytes>"
  | TreeArray l => str "<array:" ++ u64_to_string (len l) ++ str ">"
  | TreeKvlist l => str "<map:" ++ u64_to_string (len l) ++ str ">"
  | TreeNone => str "null"
  end.
Definition format_any_value (v : AnyValue) : text := format_tree (tree_of v).

Definition insert_otlp_log_fields_with_preview (target : JsonMap) (lr : LogRecordMessage) (fallback_ts_unix_ns : Z) : JsonMap :=
  let obj := put "body" (JsonString (truncate_preview (default [] (format_any_value <$> lr_body lr)) preview_bytes)) target in
  let obj := put "timestamp" (JsonString (format_timestamp (Z.max (lr_time_unix_nano lr) fallback_ts_unix_ns))) obj in
  let obj := put_time "observed_timestamp" (lr_observed_time_unix_nano lr) obj in
  let obj := put_if (negb (lr_severity_number lr =? 0)) "severity_number" (JsonInt (lr_severity_number lr)) obj in
  let obj := put_text "severity_text" (lr_severity_text lr) obj in
  let obj := put_if (negb (lr_flags lr =? 0)) "flags" (JsonInt (lr_flags lr)) obj in
  let obj := put_text "event_name" (lr_event_name lr) obj in
  let obj := put_text "trace_id" (hex_encode (lr_trace_id lr)) obj in
  put_text "span_id" (hex_encode (lr_span_id lr)) obj.

Definition scope_version_of (s : option InstrumentationScope) : text := match s with Some s => is_version s | None => [] end.
Definition put_scope (s : option InstrumentationScope) (obj : JsonMap) : JsonMap :=
  put_text "scope_version" (scope_version_of s) (put_text "scope_name" (scope_name_of s) obj).
Definition put_attrs (r : option ResourceMessage) (s : option InstrumentationScope) (attrs : list KeyValue) (obj : JsonMap) : JsonMap :=
  flatten_otlp_attrs_into_json (flatten_otlp_attrs_into_json (flatten_otlp_attrs_into_json obj (resource_attrs_of r)) (scope_attrs_of s)) attrs.

Definition log_row (ts_unix_ns : Z) (r : option ResourceMessage) (s : option InstrumentationScope) (lr : LogRecordMessage) : JsonMap :=
  put_attrs r s (lr_attributes lr) (insert_otlp_log_fields_with_preview (put_scope s ∅) lr ts_unix_ns).

Definition data_point_value_to_json (v : NumberValue) : JsonValue :=
  match v with AsDouble d => default JsonNull (json_f64 d) | AsInt i => JsonInt i end.

Definition metric_head (m : MetricMessage) (kind : string) (time start : Z) : JsonMap :=
  put_time "start_time" start (put_time "timestamp" time (put "metric_type" (JsonString (str kind))
    (put "metric_unit" (JsonString (metric_unit m)) (put "metric_description" (JsonString (metric_description m))
      (put "metric_name" (JsonString (metric_name m)) ∅))))).
(** The attributes come before the scope, whose name and version replace theirs. *)
Definition metric_tail (r : option ResourceMessage) (s : option InstrumentationScope) (attrs : list KeyValue) (obj : JsonMap) : JsonMap :=
  put_scope s (put_attrs r s attrs obj).
Definition put_value (v : option NumberValue) (obj : JsonMap) : JsonMap :=
  match v with Some v => put "value" (data_point_value_to_json v) obj | None => obj end.
Definition put_sum (sum : option F64) (obj : JsonMap) : JsonMap :=
  match sum ≫= json_f64 with Some j => put "sum" j obj | None => obj end.

Definition metric_rows (r : option ResourceMessage) (s : option InstrumentationScope) (m : MetricMessage) : list JsonMap :=
  let number kind (more : JsonMap → JsonMap) (dp : NumberDataPoint) :=
    metric_tail r s (np_attributes dp)
      (more (put_value (np_value dp) (metric_head m kind (np_time_unix_nano dp) (np_start_time_unix_nano dp)))) in
  let histogram kind (temporality : Z) (dp : HistogramDataPoint) :=
    metric_tail r s (hp_attributes dp)
      (put "aggregation_temporality" (JsonInt temporality) (put_sum (hp_sum dp) (put "count" (JsonInt (hp_count dp))
        (metric_head m kind (hp_time_unix_nano dp) (hp_start_time_unix_nano dp))))) in
  let summary (dp : SummaryDataPoint) :=
    metric_tail r s (sp_attributes dp)
      (put_sum (Some (sp_sum dp)) (put "count" (JsonInt (sp_count dp))
        (metric_head m "Summary"%string (sp_time_unix_nano dp) (sp_start_time_unix_nano dp)))) in
  match metric_points m with
  | Some (GaugePoints dps) => number "Gauge"%string id <$> dps
  | Some (SumPoints dps monotonic temporality) =>
      number "Sum"%string (λ obj, put "aggregation_temporality" (JsonInt temporality) (put "is_monotonic" (JsonBool monotonic) obj)) <$> dps
  | Some (HistogramPoints dps temporality) => histogram "Histogram"%string temporality <$> dps
  | Some (ExponentialHistogramPoints dps temporality) => histogram "ExponentialHistogram"%string temporality <$> dps
  | Some (SummaryPoints dps) => summary <$> dps
  | None => []
  end.

Definition format_span_kind (kind : Z) : text :=
  if kind =? 1 then str "Internal" else if kind =? 2 then str "Server" else if kind =? 3 then str "Client" else
  if kind =? 4 then str "Producer" else if kind =? 5 then str "Consumer" else str "Unknown(" ++ i64_to_string kind ++ str ")".

Definition span_fields (s : option InstrumentationScope) (span : SpanFields) : JsonMap :=
  let obj := put "span_id" (JsonString (hex_encode (sf_span_id span))) (put "trace_id" (JsonString (hex_encode (sf_trace_id span))) ∅) in
  let obj := put_text "parent_span_id" (hex_encode (sf_parent_span_id span)) obj in
  let obj := put "kind" (JsonString (format_span_kind (sf_kind span))) (put "name" (JsonString (sf_name span)) obj) in
  let obj := put_time "end_time" (sf_end_time_unix_nano span) (put_time "start_time" (sf_start_time_unix_nano span) obj) in
  let obj := put_if (sf_start_time_unix_nano span <? sf_end_time_unix_nano span) "duration_ns"
               (JsonInt (sf_end_time_unix_nano span - sf_start_time_unix_nano span)) obj in
  let obj := match sf_status span with
             | Some (code, message) => put_text "status_message" message (put "status_code" (JsonInt code) obj)
             | None => obj
             end in
  put_scope s obj.
Definition span_row (r : option ResourceMessage) (s : option InstrumentationScope) (span : SpanFields) : JsonMap :=
  put_attrs r s (sf_attributes span) (span_fields s span).

(** The row for a payload that is not a request. *)
Definition opaque_row (record : OwnedRecord) : JsonMap :=
  put "payload" (JsonString (truncate_preview (from_utf8_lossy (payload record)) preview_bytes))
    (put "timestamp" (JsonString (format_timestamp (ts_unix_ns record))) ∅).
Definition record_kind_label (t : RecordType) : text :=
  match t with Logs => str "logs" | Metrics => str "metrics" | Traces => str "traces" | Events => str "events" end.

Definition export_logs_ndjson (record : OwnedRecord) : list JsonMap :=
  match decode_logs (payload record) with
  | Err _ => [opaque_row record]
  | Ok batch =>
      concat ((λ rl : ResourceLogs, concat ((λ sl : ScopeLogs,
        log_row (ts_unix_ns record) (rl_resource rl) (sl_scope sl) <$> log_records sl) <$> scope_logs rl)) <$> resource_logs batch)
  end.
Definition export_metrics_ndjson (record : OwnedRecord) : list JsonMap :=
  match decode_metrics (payload record) with
  | Err _ => [opaque_row record]
  | Ok batch => concat ((λ rm, concat ((λ sm, concat (metric_rows (ro_resource rm) (so_scope sm) <$> so_entries sm)) <$> ro_scopes rm)) <$> batch)
  end.
Definition export_traces_ndjson (record : OwnedRecord) : list JsonMap :=
  match decode_traces (payload record) with
  | Err _ => [opaque_row record]
  | Ok batch => concat ((λ rs, concat ((λ ss, span_row (ro_resource rs) (so_scope ss) <$> so_entries ss) <$> ro_scopes rs)) <$> batch)
  end.
Definition record_rows (record : OwnedRecord) : list JsonMap :=
  match record_type record with
  | Logs => export_logs_ndjson record
  | Metrics => export_metrics_ndjson record
  | Traces => export_traces_ndjson record
  | Events => [put "record_type" (JsonString (record_kind_label Events)) (opaque_row record)]
  end.

(** The loop removes what it takes, so a name given twice is taken once. *)
Fixpoint select_loop (fields : list text) (obj selected : JsonMap) : JsonMap :=
  match fields with
  | [] => selected
  | field :: fields =>
      match obj !! field with
      | Some v => select_loop fields (delete field obj) (<[field := v]> selected)
      | None => select_loop fields obj selected
      end
  end.
Definition select_json_fields (obj : JsonMap) (fields : list text) : JsonMap :=
  if bool_decide (fields = []) then obj else select_loop fields obj ∅.
Definition export_ndjson_objects_with_preview (record : OwnedRecord) (fields : list text) : list JsonValue :=
  (λ obj, object (select_json_fields obj fields)) <$> record_rows record.
End Preview.
End Rows.

(** ** The commands *)

Inductive NdjsonError : Type :=
| NdjsonRead (e : Error)
| NdjsonSerialise (e : IoError)
| NdjsonIo (e : IoError)
| NdjsonInput (e : InputError)
| NdjsonFields (format : text)
| NdjsonUnknownFormat (format : text)
| NdjsonExporter (e : ExportError).

Section Commands.
Context {OP : OtlpParts} {FL : Floats} {VT : ValueTrees} {LC : LogsCodec} {SC : SignalCodec} {JT : JsonText} {CE : CelEngine} {MA : Matchers}.
Context {EX : Externals} {W : Type} `{WR : !Write W, FW : !FlushWrite W}.

Definition write_row (row : JsonValue) : M W NdjsonError unit := λ w,
  match write_all (json_text row) w with
  | (Err e, w) => (Err (NdjsonSerialise e), w)
  | (Ok _, w) => let '(r, w) := write_all [10] w in (map_err NdjsonIo r, w)
  end.
Fixpoint write_rows (rows : list JsonValue) : M W NdjsonError unit :=
  match rows with
  | [] => ret tt
  | row :: rows => write_row row ;;! write_rows rows
  end.

(** The body of the loop over the records of a file; [keep] is the query. *)
Definition rows_body (keep : OwnedRecord → bool) (fields : list text) (preview_bytes : option Z) : loop_body (result NdjsonError unit * W) :=
  λ '(r, w) record,
    if keep record then
      match write_rows (export_ndjson_objects_with_preview preview_bytes record fields) w with
      | (Ok _, w) => ((Ok tt, w), true)
      | (Err e, w) => ((Err e, w), false)
      end
    else ((r, w), true).
Definition rows_of_file (keep : OwnedRecord → bool) (fields : list text) (preview_bytes : option Z) (data : list Z) (w : W)
    : option (result NdjsonError W) :=
  '(r, _) ← while_records (rows_body keep fields preview_bytes) (Ok tt, w) (reader_new data);
  Some (match r with
        | Err e => Err (NdjsonRead e)
        | Ok (Err e, _) => Err e
        | Ok (Ok _, w) => Ok w
        end).
Definition flushed (w : W) : result NdjsonError W := let '(r, w) := writer_flush w in let? _ := map_err NdjsonIo r in Ok w.

Definition run_ndjson (input : result InputError (list Z)) (output : result InputError W) (fields : list text)
    : option (result NdjsonError W) :=
  match input, output with
  | Err e, _ => Some (Err (NdjsonInput e))
  | Ok _, Err e => Some (Err (NdjsonInput e))
  | Ok data, Ok w =>
      r ← rows_of_file (λ _, true) fields None data w;
      Some (let? w := r in flushed w)
  end.

Fixpoint rows_of_files (predicate : RecordPredicate) (fields : list text) (preview_bytes : option Z)
    (files : list (result InputError (list Z))) (w : W) : option (result NdjsonError W) :=
  match files with
  | [] => Some (Ok w)
  | Err e :: _ => Some (Err (NdjsonInput e))
  | Ok data :: files =>
      match rows_of_file (matches predicate) fields preview_bytes data w with
      | Some (Ok w) => rows_of_files predicate fields preview_bytes files w
      | other => other
      end
  end.
(** The files of the dataset are opened one after the other. *)
Definition run_query_ndjson_multi (files : list (result InputError (list Z))) (predicate : RecordPredicate) (fields : list text)
    (preview_bytes : option Z) (w : W) : option (result NdjsonError W) :=
  r ← rows_of_files predicate fields preview_bytes files w;
  Some (let? w := r in flushed w).

(** The output after the export, unless it was not opened. *)
Definition export_run {C} (fuel : nat) (registry : ExporterRegistry (C := C)) (format : text) (input : result InputError (list Z))
    (output : result InputError W) (fields : list text) : option (result NdjsonError W) :=
  if bool_decide (format = str "ndjson") then run_ndjson input output fields else
  if negb (bool_decide (fields = [])) then Some (Err (NdjsonFields format)) else
  match registry_plugin registry format with
  | None => Some (Err (NdjsonUnknownFormat format))
  | Some plugin =>
      '(r, sink) ← export fuel plugin input output [];
      Some (match r, sink with
            | Ok _, Some sink => Ok (sink_writer sink)
            | Ok _, None => Err (NdjsonExporter CreateFailed)
            | Err e, _ => Err (NdjsonExporter e)
            end)
  end.
End Commands.

(** ** What is written *)

Section Facts.
Context {OP : OtlpParts} {FL : Floats} {VT : ValueTrees} {LC : LogsCodec} {SC : SignalCodec} {JT : JsonText} {CE : CelEngine} {MA : Matchers}.
Context {EX : Externals} {EL : ExternalLaws} {W : Type} `{WR : !Write W, FW : !FlushWrite W, WL : !WriteLaws W, FWL : !FlushWriteLaws W}.

Definition line_of (row : JsonValue) : text := json_text row ++ [10].
Definition lines_of (rows : list JsonValue) : text := concat (line_of <$> rows).

Lemma write_rows_spec rows (w : W) :
  match write_rows rows w with
  | (Ok _, w') => written w' = written w ++ lines_of rows
  | (Err _, _) => ¬ sound_output (W := W)
  end.
Proof.
  revert w. induction rows as [|row rows IH]; intros w; cbn [write_rows]; [by rewrite app_nil_r|].
  unfold bind, write_row. destruct (write_all (json_text row) w) as [[[]|e] w1] eqn:E1.
  2:{ intros [Hs _]. destruct (Hs (json_text row) w). congruence. }
  destruct (write_all [10] w1) as [[[]|e] w2] eqn:E2; cbn [map_err].
  2:{ intros [Hs _]. destruct (Hs [10] w1). congruence. }
  specialize (IH w2). destruct (write_rows rows w2) as [[[]|e] w3]; [|done].
  rewrite IH, (write_all_appends _ _ _ E2), (write_all_appends _ _ _ E1).
  unfold lines_of. cbn [fmap list_fmap concat]. unfold line_of at 2. by rewrite !app_assoc.
Qed.

Lemma rows_fold keep fields preview rs (w : W) :
  match (fold_until (rows_body keep fields preview) (Ok tt, w) rs).1 with
  | (Ok _, w') => written w' = written w ++
      lines_of (concat ((λ r, export_ndjson_objects_with_preview preview r fields) <$> filter (λ r, keep r = true) rs))
  | (Err _, _) => ¬ sound_output (W := W)
  end.
Proof.
  revert w. induction rs as [|r rs IH]; intros w; cbn [fold_until]; [by rewrite app_nil_r|]. cbn [rows_body].
  rewrite filter_cons. destruct (keep r) eqn:Ek; [rewrite decide_True by done|rewrite decide_False by done; apply IH].
  pose proof (write_rows_spec (export_ndjson_objects_with_preview preview r fields) w) as Hw.
  destruct (write_rows _ w) as [[[]|e] w1]; [|done]. specialize (IH w1). destruct (fold_until _ _ rs) as [[[[]|e] w2] b]; [|done].
  cbn [fst] in *. rewrite IH, Hw. unfold lines_of. cbn [fmap list_fmap concat]. by rewrite fmap_app, concat_app, app_assoc.
Qed.

Lemma rows_of_file_spec keep fields preview data rs (w : W) :
  delivers (reader_new data) rs →
  ∃ r, rows_of_file keep fields preview data w = Some r ∧
    match r with
    | Ok w' => written w' = written w ++
        lines_of (concat ((λ r, export_ndjson_objects_with_preview preview r fields) <$> filter (λ r, keep r = true) rs))
    | Err _ => ¬ sound_output (W := W)
    end.
Proof.
  intros Hd. unfold rows_of_file.
  destruct (while_records_delivers (rows_body keep fields preview) (Ok tt, w) (reader_new data) rs Hd) as (r' & ->).
  cbn [mbind option_bind]. pose proof (rows_fold keep fields preview rs w) as H.
  destruct ((fold_until _ _ rs).1) as [[[]|e] w1]; eexists; split; done.
Qed.

Lemma rows_of_files_spec predicate fields preview files rss (w : W) :
  Forall2 (λ f rs, ∃ data, f = Ok data ∧ delivers (reader_new data) rs) files rss →
  ∃ r, rows_of_files predicate fields preview files w = Some r ∧
    match r with
    | Ok w' => written w' = written w ++
        lines_of (concat ((λ r, export_ndjson_objects_with_preview preview r fields) <$> selected predicate (concat rss)))
    | Err _ => ¬ sound_output (W := W)
    end.
Proof.
  intros Hf. revert w. induction Hf as [|f rs files rss (data & -> & Hd) Hf IH]; intros w; cbn [rows_of_files].
  { eexists. split; [done|]. by rewrite app_nil_r. }
  destruct (rows_of_file_spec (matches predicate) fields preview data rs w Hd) as (r & -> & Hr).
  destruct r as [w1|e]; [|by exists (Err e)]. destruct (IH w1) as (r & -> & Hr2). exists r. split; [done|].
  destruct r as [w2|e]; [|done]. rewrite Hr2, Hr. cbn [concat]. unfold selected, lines_of. rewrite list.filter_app, fmap_app, concat_app, fmap_app, concat_app.
  by rewrite app_assoc.
Qed.

Lemma flushed_spec (w : W) :
  match flushed w with
  | Ok w' => on_disk w' = written w
  | Err _ => ¬ sound_output (W := W)
  end.
Proof.
  unfold flushed. destruct (writer_flush w) as [[[]|e] w'] eqn:E; cbn [map_err].
  - destruct (flush_keeps _ _ E). congruence.
  - intros [_ Hs]. destruct (Hs w). congruence.
Qed.

(** *** Lines *)

Lemma split_char_word c w cur s : c ∉ w → split_char c cur (w ++ c :: s) = (cur ++ w) :: split_char c [] s.
Proof.
  revert cur. induction w as [|b w IH]; intros cur Hc; cbn [app split_char].
  - by rewrite Z.eqb_refl, app_nil_r.
  - apply not_elem_of_cons in Hc as [Hb Hc]. destruct (Z.eqb_spec b c); [congruence|]. rewrite IH by done. by rewrite <- app_assoc.
Qed.
Lemma lines_split `{!JsonTextLaws} rows : split_on 10 (lines_of rows) = (json_text <$> rows) ++ [[]].
Proof.
  unfold split_on. induction rows as [|row rows IH]; [done|]. unfold lines_of in *. cbn [fmap list_fmap concat]. unfold line_of at 1.
  rewrite <- app_assoc. cbn [app]. rewrite split_char_word by apply json_text_one_line. by rewrite IH.
Qed.

(** *** One row for every entry *)

Definition points_of (m : MetricMessage) : nat :=
  match metric_points m with
  | Some (GaugePoints dps) => length dps
  | Some (SumPoints dps _ _) => length dps
  | Some (HistogramPoints dps _) => length dps
  | Some (ExponentialHistogramPoints dps _) => length dps
  | Some (SummaryPoints dps) => length dps
  | None => 0
  end.
(** The log records, data points or spans of a record; a payload that is not a request
    counts as one. *)
Definition entry_count (record : OwnedRecord) : nat :=
  match record_type record with
  | Logs => match decode_logs (payload record) with Ok batch => length (flatten (resource_logs batch)) | Err _ => 1 end
  | Metrics => match decode_metrics (payload record) with Ok batch => sum_list (points_of ∘ snd <$> entries_of batch) | Err _ => 1 end
  | Traces => match decode_traces (payload record) with Ok batch => length (entries_of batch) | Err _ => 1 end
  | Events => 1
  end.

Lemma length_concat_fmap {A B C} (f : A → list B) (g : A → list C) (l : list A) :
  (∀ a, a ∈ l → length (f a) = length (g a)) → length (concat (f <$> l)) = length (concat (g <$> l)).
Proof.
  induction l as [|a l IH]; intros H; [done|]. cbn [fmap list_fmap concat]. rewrite !length_app, IH; [|intros; apply H; by right].
  by rewrite H by left.
Qed.

Lemma metric_rows_length preview r s m : length (metric_rows preview r s m) = points_of m.
Proof. unfold metric_rows, points_of. by destruct (metric_points m) as [[]|]; rewrite ?length_fmap. Qed.

Lemma sum_list_app (l1 l2 : list nat) : sum_list (l1 ++ l2) = (sum_list l1 + sum_list l2)%nat.
Proof. induction l1 as [|n l1 IH]; [done|]. simpl. rewrite IH. lia. Qed.

Lemma metrics_rows_length preview batch :
  length (concat ((λ rm, concat ((λ sm, concat (metric_rows preview (ro_resource rm) (so_scope sm) <$> so_entries sm)) <$> ro_scopes rm)) <$> batch)) =
  sum_list (points_of ∘ snd <$> entries_of batch).
Proof.
  unfold entries_of. induction batch as [|[r scopes] batch IH]; [done|]. cbn [fmap list_fmap concat ro_resource ro_scopes].
  rewrite length_app, fmap_app, sum_list_app, IH. f_equal. clear IH. induction scopes as [|[s ms] scopes IH]; [done|].
  cbn [fmap list_fmap concat so_scope so_entries]. rewrite length_app, fmap_app, sum_list_app, IH. f_equal.
  clear IH. induction ms as [|m ms IH]; [done|]. cbn [fmap list_fmap concat]. rewrite length_app, metric_rows_length, IH. done.
Qed.

Lemma record_rows_length preview record : length (record_rows preview record) = entry_count record.
Proof.
  unfold record_rows, entry_count. destruct (record_type record); [..|done].
  - unfold export_logs_ndjson. destruct (decode_logs _) as [batch|]; [|done]. unfold flatten, flatten_resource, flatten_scope.
    apply length_concat_fmap. intros rl _. apply length_concat_fmap. intros sl _. by rewrite !length_fmap.
  - unfold export_metrics_ndjson. destruct (decode_metrics _) as [batch|]; [|done]. apply metrics_rows_length.
  - unfold export_traces_ndjson. destruct (decode_traces _) as [batch|]; [|done]. unfold entries_of.
    apply length_concat_fmap. intros rl _. apply length_concat_fmap. intros sl _. by rewrite !length_fmap.
Qed.

Lemma rows_count preview fields rs :
  length (concat ((λ r, export_ndjson_objects_with_preview preview r fields) <$> rs)) = sum_list (entry_count <$> rs).
Proof.
  induction rs as [|r rs IH]; [done|]. cbn [fmap list_fmap concat]. rewrite length_app, IH.
  unfold export_ndjson_objects_with_preview at 1. by rewrite length_fmap, record_rows_length.
Qed.

(** C35: lines of JSON.  Exporting a readable log, or querying several, returns.  If it
    succeeds, the output has received one line for every log record, data point and span of
    the records (those that match, in the query) and for every payload that is not a
    request, in order: cutting the output at line feeds gives the rows of the records.
    With an output that never fails it succeeds. *)
Theorem ndjson_writes_rows `{!JsonTextLaws} predicate fields preview files rss (w : W) :
  Forall2 (λ f rs, ∃ data, f = Ok data ∧ delivers (reader_new data) rs) files rss →
  let rows rs := concat ((λ r, export_ndjson_objects_with_preview preview r fields) <$> rs) in
  (∃ r, run_query_ndjson_multi files predicate fields preview w = Some r ∧
     (∀ w', r = Ok w' → ∃ out, on_disk w' = written w ++ out ∧
        split_on 10 out = (json_text <$> rows (selected predicate (concat rss))) ++ [[]] ∧
        length (rows (selected predicate (concat rss))) = sum_list (entry_count <$> selected predicate (concat rss))) ∧
     (sound_output (W := W) → is_ok r = true)) ∧
  (preview = None → ∀ f rs, files = [f] → rss = [rs] →
   ∃ r, run_ndjson f (Ok w) fields = Some r ∧
     (∀ w', r = Ok w' → ∃ out, on_disk w' = written w ++ out ∧ split_on 10 out = (json_text <$> rows rs) ++ [[]] ∧
        length (rows rs) = sum_list (entry_count <$> rs)) ∧
     (sound_output (W := W) → is_ok r = true)).
Proof.
  intros Hf. cbv zeta. split.
  - unfold run_query_ndjson_multi. destruct (rows_of_files_spec predicate fields preview files rss w Hf) as (r & -> & Hr).
    cbn [mbind option_bind]. eexists. split; [done|]. destruct r as [w1|e]; [|by split].
    pose proof (flushed_spec w1) as Hfl. destruct (flushed w1) as [w2|e]; [|by split]. split; [|done]. intros w' [= <-].
    eexists. rewrite Hfl, Hr. split_and!; [done|apply lines_split|apply rows_count].
  - intros -> f rs -> ->. inversion Hf as [|? ? ? ? (data & -> & Hd)]; subst. unfold run_ndjson.
    destruct (rows_of_file_spec (λ _, true) fields None data rs w Hd) as (r & -> & Hr).
    cbn [mbind option_bind]. eexists. split; [done|]. destruct r as [w1|e]; [|by split].
    assert (filter (λ _ : OwnedRecord, true = true) rs = rs) as Ef.
    { clear. induction rs as [|r rs IH]; [done|]. rewrite filter_cons, decide_True by done. by rewrite IH. }
    rewrite Ef in Hr.
    pose proof (flushed_spec w1) as Hfl. destruct (flushed w1) as [w2|e]; [|by split]. split; [|done]. intros w' [= <-].
    eexists. rewrite Hfl, Hr. split_and!; [done|apply lines_split|apply rows_count].
Qed.

(** *** What a row holds *)

(** The value the first attribute of that name gives. *)
Definition attr_value (preview : option Z) (k : text) (a : KeyValue) : option JsonValue :=
  if bool_decide (replace_text [46] [95] (kv_key a) = k) then kv_value a ≫= any_value_to_json preview else None.
Definition first_value (preview : option Z) (k : text) (attrs : list KeyValue) : option JsonValue :=
  list.head (omap (attr_value preview k) attrs).

Lemma flatten_attr_lookup preview obj a k :
  flatten_attr preview obj a !! k = match obj !! k with Some v => Some v | None => attr_value preview k a end.
Proof.
  unfold flatten_attr, attr_value. set (key := replace_text _ _ _). destruct (decide (key = k)) as [->|Hne].
  - rewrite bool_decide_eq_true_2 by done. destruct (obj !! k) as [v|] eqn:E; [by rewrite decide_True|].
    rewrite decide_False by (by intros []). destruct (kv_value a) as [v|]; [|done]. cbn [mbind option_bind].
    destruct (any_value_to_json preview v) as [j|]; [by rewrite lookup_insert_eq|done].
  - rewrite bool_decide_eq_false_2 by done. trans (obj !! k); [|by destruct (obj !! k)].
    case_decide; [done|]. destruct (kv_value a) as [v|]; [|done]. destruct (any_value_to_json preview v); [|done]. by rewrite lookup_insert_ne.
Qed.

Lemma flatten_lookup preview obj attrs k :
  flatten_otlp_attrs_into_json preview obj attrs !! k = match obj !! k with Some v => Some v | None => first_value preview k attrs end.
Proof.
  unfold flatten_otlp_attrs_into_json, first_value. revert obj. induction attrs as [|a attrs IH]; intros obj; cbn [foldl omap list_omap].
  { by destruct (obj !! k). }
  rewrite IH, flatten_attr_lookup. destruct (obj !! k); [done|]. by destruct (attr_value preview k a).
Qed.

Lemma first_value_app preview k l1 l2 :
  first_value preview k (l1 ++ l2) = match first_value preview k l1 with Some v => Some v | None => first_value preview k l2 end.
Proof. unfold first_value. rewrite omap_app, head_app. by destruct (list.head (omap _ l1)). Qed.

Lemma put_attrs_lookup preview r s attrs obj k :
  put_attrs preview r s attrs obj !! k =
    match obj !! k with Some v => Some v | None => first_value preview k (resource_attrs_of r ++ scope_attrs_of s ++ attrs) end.
Proof. unfold put_attrs. rewrite !flatten_lookup, !first_value_app. by destruct (obj !! k), (first_value preview k (resource_attrs_of r)). Qed.

Lemma select_loop_lookup fields obj selected k :
  select_loop fields obj selected !! k = if bool_decide (k ∈ fields) then match obj !! k with Some v => Some v | None => selected !! k end else selected !! k.
Proof.
  revert obj selected. induction fields as [|f fields IH]; intros obj sel; cbn [select_loop].
  { by rewrite bool_decide_eq_false_2 by apply not_elem_of_nil. }
  destruct (obj !! f) as [v|] eqn:E; rewrite IH.
  - destruct (decide (k = f)) as [->|Hne].
    + rewrite lookup_delete_eq, lookup_insert_eq. rewrite (bool_decide_eq_true_2 (f ∈ f :: fields)) by left. rewrite E. by case_bool_decide.
    + rewrite lookup_delete_ne, lookup_insert_ne by done. rewrite (bool_decide_ext (k ∈ f :: fields) (k ∈ fields)) by (rewrite elem_of_cons; naive_solver). done.
  - destruct (decide (k = f)) as [->|Hne].
    + rewrite (bool_decide_eq_true_2 (f ∈ f :: fields)) by left. rewrite E. by case_bool_decide.
    + rewrite (bool_decide_ext (k ∈ f :: fields) (k ∈ fields)) by (rewrite elem_of_cons; naive_solver). done.
Qed.

Lemma put_text_lookup name v obj k :
  put_text name v obj !! k = if decide (k = str name ∧ v ≠ []) then Some (JsonString v) else obj !! k.
Proof.
  unfold put_text, put_if, put, filled. case_bool_decide as Hv; cbn [negb].
  - rewrite decide_False by tauto. done.
  - destruct (decide (k = str name)) as [->|Hk]; [by rewrite decide_True, lookup_insert_eq|].
    rewrite decide_False by tauto. by rewrite lookup_insert_ne.
Qed.

(** The fields of a row.  In the row of a log record or a span a field of its own comes
    first; any other name has the value of the first attribute, of the resource, the
    scope and the entry in this order, whose name with underscores for dots is this
    one and whose value has a JSON form.  In the row of a data point the name and version of
    the scope come before both.  Selecting fields keeps exactly these. *)
Theorem row_fields preview ts r s :
  (∀ lr k, log_row preview ts r s lr !! k =
     match insert_otlp_log_fields_with_preview preview (put_scope s ∅) lr ts !! k with
     | Some v => Some v
     | None => first_value preview k (resource_attrs_of r ++ scope_attrs_of s ++ lr_attributes lr)
     end) ∧
  (∀ span k, span_row preview r s span !! k =
     match span_fields s span !! k with
     | Some v => Some v
     | None => first_value preview k (resource_attrs_of r ++ scope_attrs_of s ++ sf_attributes span)
     end) ∧
  (∀ own attrs k, metric_tail preview r s attrs own !! k =
     if decide (k = str "scope_version" ∧ scope_version_of s ≠ []) then Some (JsonString (scope_version_of s)) else
     if decide (k = str "scope_name" ∧ scope_name_of s ≠ []) then Some (JsonString (scope_name_of s)) else
     match own !! k with
     | Some v => Some v
     | None => first_value preview k (resource_attrs_of r ++ scope_attrs_of s ++ attrs)
     end) ∧
  (∀ obj fields k, select_json_fields obj fields !! k = if decide (fields = [] ∨ k ∈ fields) then obj !! k else None).
Proof.
  split_and!.
  - intros lr k. apply put_attrs_lookup.
  - intros span k. apply put_attrs_lookup.
  - intros own attrs k. unfold metric_tail, put_scope. rewrite !put_text_lookup, put_attrs_lookup. done.
  - intros obj fields k. unfold select_json_fields. case_bool_decide as Hf; [by rewrite decide_True by (by left)|].
    rewrite select_loop_lookup, lookup_empty. case_bool_decide as Hk.
    + rewrite decide_True by (by right). by destruct (obj !! k).
    + rewrite decide_False by tauto. done.
Qed.

(** *** Previews *)

Lemma preview_loop_spec fuel limit out value :
  (length value ≤ fuel)%nat → len out ≤ limit →
  ∃ p rest, value = p ++ rest ∧ preview_loop fuel limit out value = out ++ p ∧ len (out ++ p) ≤ limit ∧
    (∀ b, list.head rest = Some b → limit < len (out ++ p) + len (take (char_len b) rest)).
Proof.
  revert out value. induction fuel as [|fuel IH]; intros out [|b value] Hf Hl; cbn [preview_loop]; [|simpl in Hf; lia|..].
  1,2: exists [], []; rewrite !app_nil_r; split_and!; [done|done|done|by intros ? [=]].
  destruct (Z.ltb_spec limit (len out + len (take (char_len b) (b :: value)))) as [Hlt|Hge].
  { exists [], (b :: value). rewrite !app_nil_r. split_and!; [done|done|done|]. by intros ? [= <-]. }
  destruct (IH (out ++ take (char_len b) (b :: value)) (drop (char_len b) (b :: value))) as (p & rest & Hp & -> & Hlen & Hr).
  { rewrite length_drop. simpl in *. assert (char_len b ≠ 0%nat) by (unfold char_len; repeat case_match; done). lia. }
  { rewrite len_app. lia. }
  exists (take (char_len b) (b :: value) ++ p), rest. rewrite <- !app_assoc in *. split_and!; [|done|done|done].
  rewrite <- Hp. by rewrite take_drop.
Qed.

(** A preview with a limit above zero is the text if it fits, and otherwise the longest
    part of whole characters within the limit, with dots after it. *)
Theorem preview_longest_fitting value limit :
  0 < limit →
  ∃ p rest, value = p ++ rest ∧ len p ≤ limit ∧
    truncate_preview value (Some limit) = (if decide (rest = []) then value else p ++ str "...") ∧
    (∀ b, list.head rest = Some b → limit < len p + len (take (char_len b) rest)).
Proof.
  intros Hl. unfold truncate_preview. destruct (Z.eqb_spec limit 0); [lia|].
  destruct (preview_loop_spec (length value) limit [] value) as (p & rest & -> & -> & Hlen & Hr); [done|unfold len; simpl; lia|].
  cbn [app] in *. exists p, rest. split_and!; [done|done| |done]. rewrite len_app. pose proof (len_zero rest) as Hz. pose proof (len_nonneg rest).
  case_decide as Hd; destruct (Z.ltb_spec (len p) (len p + len rest)) as [H'|H']; [|by rewrite Hd, app_nil_r|done|].
  - exfalso. rewrite Hd in H'. change (len (@nil Z)) with 0 in H'. lia.
  - exfalso. apply Hd, Hz. lia.
Qed.

Lemma put_if_other b name v obj k : k ≠ str name → put_if b name v obj !! k = obj !! k.
Proof. intros Hk. unfold put_if, put. destruct b; [by rewrite lookup_insert_ne|done]. Qed.

(** The time of a row is the later of the time of the log record and the time stored with
    the record in the log. *)
Theorem row_time_is_later preview ts r s lr :
  log_row preview ts r s lr !! str "timestamp" = Some (JsonString (format_timestamp (Z.max (lr_time_unix_nano lr) ts))).
Proof.
  unfold log_row. rewrite put_attrs_lookup. unfold insert_otlp_log_fields_with_preview, put_text, put_time.
  rewrite !put_if_other by (by vm_compute). unfold put at 1. by rewrite lookup_insert_eq.
Qed.
End Facts.

(** ** It applies *)

Section Witness.
#[local] Existing Instances sample_parts logs_codec sample_floats sample_trees sample_engine sample_signals sample_matchers stored_externals stored_laws.
#[local] Existing Instances Vec_FlushWrite Vec_FlushWriteLaws.

(** A printer without escapes that leaves line feeds out. *)
Fixpoint plain_text (v : JsonValue) : text :=
  match v with
  | JsonNull => str "null"
  | JsonBool b => if b then str "true" else str "false"
  | JsonInt n => i64_to_string n
  | JsonFloat d => i64_to_string d
  | JsonString s => [39] ++ s ++ [39]
  | JsonArray l => [91] ++ join [44] (plain_text <$> l) ++ [93]
  | JsonObject m => [123] ++ join [44] ((λ kv, [39] ++ kv.1 ++ [39; 58] ++ plain_text kv.2) <$> m) ++ [125]
  end.
#[local] Instance sample_json : JsonText := {|
  f64_is_finite _ := true; f64_to_string := i64_to_string; json_text v := filter (λ b, b ≠ 10) (plain_text v); utc_text _ _ := None |}.
#[local] Instance sample_json_laws : JsonTextLaws.
Proof. intros v. cbn. rewrite list_elem_of_filter. tauto. Qed.

Lemma ndjson_writes_rows_witness :
  ∃ w, run_query_ndjson_multi [Ok query_file] sample_predicate [str "payload"] (Some 2) [] = Some (Ok w) ∧
    split_on 10 w = [str "{'payload':'ca...'}"; str "{'payload':'ab...'}"; []].
Proof.
  destruct (ndjson_writes_rows (W := list Z) sample_predicate [str "payload"] (Some 2) [Ok query_file] [query_input] []) as [(r & Hr & Hok & Hs) _].
  { constructor; [|constructor]. exists query_file. split; [done|]. exact query_file_delivers. }
  specialize (Hs vec_sound). destruct r as [w|e]; [|done]. exists w. split; [exact Hr|].
  destruct (Hok w eq_refl) as (out & Ho & Hl & _). change (w = out) in Ho. subst w. etrans; [exact Hl|]. by vm_compute.
Defined.
End Witness.
