(* ===== verification/PluginSearch.v ===== *)
(** * Finding an ingest plugin

    The first half of [logjetd/src/plugin.rs]: which shared library the daemon takes for the
    plugin that its configuration names.  The environment, the file system and the loader
    are parameters. *)

From stdpp Require Import sorting.
From S2P Require Import Prelude Text Tokens Format Canon Dataset Exporter Config.

Definition LJ_INGEST_ABI_MAJOR : Z := 1.
Definition LJ_INGEST_ABI_MINOR : Z := 1.
Definition LJ_INGEST_SIGNAL_LOGS : Z := 1.
(** [size_of::<LjIngestDescriptorV1>()] on a 64-bit machine *)
Definition INGEST_DESCRIPTOR_SIZE : Z := 104.

(** A C string is [None] for a null pointer. *)
Record LjIngestDescriptorV1 : Type := mkIngestDescriptor {
  id_struct_size : Z; id_abi_major : Z; id_abi_minor : Z; id_name : option (list Z); id_display_name : option (list Z);
  id_reserved0 : Z }.
Record IngestDescriptor : Type := mkIngestInfo { ii_name : text; ii_display_name : text; ii_supported_signals : Z }.

Inductive SearchNote : Type :=
| DirectoryNote (path : text) (e : IoError)
| LibraryNote (path message : text)
| NullDescriptorNote (path : text)
| SizeNote (path : text) (size : Z)
| AbiNote (path : text) (major minor : Z)
| NullNameNote (path : text)
| NameNote (path name : text).

Inductive SearchError : Type :=
| NameRequired
| PluginNotFound (name : text) (searched : list text) (notes : list SearchNote).

(** ** Names *)

Definition strip_prefix (s prefix : text) : option text := if starts_with s prefix then Some (drop (length prefix) s) else None.
(** [or_else] *)
Definition or_else {A} (o : option A) (f : option A) : option A := match o with Some a => Some a | None => f end.

Definition normalise_legacy_plugin_stem (stem : text) : text :=
  let name := default stem (strip_prefix stem (str "lib")) in
  let name := default name (or_else (strip_prefix name (str "lj_")) (or_else (strip_prefix name (str "lj-")) (strip_prefix name (str "logjet_")))) in
  let name := default name (or_else (strip_suffix name (str "_ingest")) (strip_suffix name (str "-ingest"))) in
  replace_text [95] [45] (to_ascii_lowercase name).

Definition legacy_ingest_plugin_name (path : text) : option text :=
  stem ← file_stem path;
  if negb (ends_with stem (str "_ingest")) && negb (ends_with stem (str "-ingest")) then None
  else Some (normalise_legacy_plugin_stem stem).
Definition legacy_ingest_plugin_name_matches (path requested : text) : bool :=
  bool_decide (legacy_ingest_plugin_name path = Some requested).

(** [path.parent().is_some_and(|parent| !parent.as_os_str().is_empty())] *)
Definition has_parent (path : text) : bool :=
  let '(absolute, components) := path_components path in
  negb (bool_decide (components = [])) && (absolute || (2 <=? len components)).

Section Search.
Context (exists_ is_file : text → bool) (read_dir : text → result IoError (list (result IoError text))).
Context (library : text → result text (option LjIngestDescriptorV1)).

Definition read_ingest_descriptor (path : text) : result SearchNote IngestDescriptor :=
  let? d := map_err (LibraryNote path) (library path) in
  let? d := ok_or d (NullDescriptorNote path) in
  if id_struct_size d <? INGEST_DESCRIPTOR_SIZE then Err (SizeNote path (id_struct_size d)) else
  if negb (id_abi_major d =? LJ_INGEST_ABI_MAJOR) then Err (AbiNote path (id_abi_major d) (id_abi_minor d)) else
  if LJ_INGEST_ABI_MINOR <? id_abi_minor d then Err (AbiNote path (id_abi_major d) (id_abi_minor d)) else
  let? raw := ok_or (id_name d) (NullNameNote path) in
  let name := to_ascii_lowercase (trim_text (from_utf8_lossy raw)) in
  if negb (is_valid_format_name name) then Err (NameNote path name) else
  let raw_signals := Z.land (id_reserved0 d) 4294967295 in
  Ok (mkIngestInfo name (default name (from_utf8_lossy <$> id_display_name d)) (if raw_signals =? 0 then LJ_INGEST_SIGNAL_LOGS else raw_signals)).

Definition ingest_plugin_label (path : text) : text :=
  match read_ingest_descriptor path with
  | Ok d => if bool_decide (ii_display_name d = ii_name d) then ii_name d
            else ii_name d ++ str " (" ++ ii_display_name d ++ str ")"
  | Err _ => default (str "unknown") (normalise_legacy_plugin_stem <$> file_stem path)
  end.

(** ** Where plugins are looked for *)

Definition is_shared_object (path : text) : bool := let name := file_name path in utf8_valid name && ends_with name (str ".so").
Definition ingest_root_candidates (acc : list text * list SearchNote) (root : text) : list text * list SearchNote :=
  if is_file root then (acc.1 ++ [root], acc.2) else
  if negb (exists_ root) then acc else
  match read_dir root with
  | Err e => (acc.1, acc.2 ++ [DirectoryNote root e])
  | Ok entries =>
      let paths := omap (λ r, match r with Ok name => Some (path_join root name) | Err _ => None end) entries in
      (acc.1 ++ merge_sort text_le (filter (λ p, is_shared_object p = true) paths), acc.2)
  end.
Definition collect_ingest_plugin_candidates (roots : list text) : list text * list SearchNote := foldl ingest_root_candidates ([], []) roots.

(** [LJD_INGEST_PLUGIN_PATH], the working directory and the directory of the executable *)
Context (plugin_path_var cwd exe_dir : option text).
Definition collect_ingest_plugin_search_roots : list text :=
  let roots := foldl (λ roots entry, if bool_decide (entry = []) then roots else push_unique_path roots entry) []
                 (match plugin_path_var with Some raw => split_on 58 raw | None => [] end) in
  let roots := match cwd with Some cwd => push_unique_path roots (path_join cwd (str "ingestors")) | None => roots end in
  let roots := match exe_dir with
               | Some dir => push_unique_path (push_unique_path roots (path_join dir (str "ingestors"))) (path_join dir (str "../lib/logjet/ingestors"))
               | None => roots
               end in
  push_unique_path (push_unique_path roots (str "/usr/lib/logjet/ingestors")) (str "/usr/lib/logjet").

Fixpoint first_existing (path : text) (roots : list text) : text :=
  match roots with
  | [] => path
  | root :: roots => let candidate := path_join root path in if exists_ candidate then candidate else first_existing path roots
  end.
Definition resolve_ingest_plugin_path_from_roots (path : text) (roots : list text) : text :=
  if exists_ path || has_parent path then path else first_existing path roots.
Definition resolve_ingest_plugin_path (path : text) : text :=
  if exists_ path || has_parent path then path else resolve_ingest_plugin_path_from_roots path collect_ingest_plugin_search_roots.

Fixpoint find_loop (name : text) (candidates : list text) (notes : list SearchNote) : text + list SearchNote :=
  match candidates with
  | [] => inr notes
  | candidate :: candidates =>
      match read_ingest_descriptor candidate with
      | Ok descriptor => if bool_decide (ii_name descriptor = name) then inl candidate else find_loop name candidates notes
      | Err note => if legacy_ingest_plugin_name_matches candidate name then inl candidate else find_loop name candidates (notes ++ [note])
      end
  end.
Definition find_ingest_plugin_by_name (name : text) (roots : list text) : result SearchError text :=
  let '(candidates, notes) := collect_ingest_plugin_candidates roots in
  match find_loop name candidates notes with
  | inl path => Ok path
  | inr notes => Err (PluginNotFound name roots notes)
  end.

Definition resolve_ingest_plugin (plugin_path plugin_dir plugin_name : option text) : result SearchError text :=
  match plugin_path, plugin_name with
  | Some path, None => Ok (resolve_ingest_plugin_path path)
  | _, _ =>
      let roots := match plugin_dir with Some dir => push_unique_path [] dir | None => [] end in
      let roots := match plugin_path with
                   | Some path => push_unique_path roots (if has_parent path then path else resolve_ingest_plugin_path path)
                   | None => roots
                   end in
      let roots := foldl push_unique_path roots collect_ingest_plugin_search_roots in
      let? name := ok_or plugin_name NameRequired in
      find_ingest_plugin_by_name name roots
  end.

(** ** What is listed *)

Record VisiblePlugin : Type := mkVisiblePlugin { vp_name : text; vp_display_name : text; vp_path : text }.
Definition visible_le (a b : VisiblePlugin) : Prop :=
  (if bool_decide (vp_name a = vp_name b) then text_leb (vp_path a) (vp_path b) else text_leb (vp_name a) (vp_name b)) = true.
#[export] Instance visible_le_dec : RelDecision visible_le.
Proof. intros a b. unfold visible_le. apply _. Defined.
Definition shell_field (value : text) : text := map (λ ch, if (ch =? 9) || (ch =? 13) || (ch =? 10) then 32 else ch) value.

Definition visible_ingest (path : text) : option VisiblePlugin :=
  match read_ingest_descriptor path with
  | Ok descriptor => Some (mkVisiblePlugin (ii_name descriptor) (ii_display_name descriptor) path)
  | Err _ => (λ name, mkVisiblePlugin name name path) <$> legacy_ingest_plugin_name path
  end.
Definition list_visible_ingest_plugins (ingest_plugin_dir ingest_plugin_path : option text) : list VisiblePlugin :=
  let roots := match ingest_plugin_dir with Some dir => push_unique_path [] dir | None => [] end in
  let roots := match ingest_plugin_path with Some path => push_unique_path roots path | None => roots end in
  let roots := foldl push_unique_path roots collect_ingest_plugin_search_roots in
  merge_sort visible_le (omap visible_ingest (collect_ingest_plugin_candidates roots).1).

(** ** What is found *)

(** A library answers to the name of its descriptor; one without a descriptor that the
    daemon accepts answers to its file name. *)
Definition answers_to (name path : text) : Prop :=
  match read_ingest_descriptor path with
  | Ok descriptor => ii_name descriptor = name
  | Err _ => legacy_ingest_plugin_name path = Some name
  end.
#[export] Instance answers_to_dec name path : Decision (answers_to name path).
Proof. unfold answers_to. destruct (read_ingest_descriptor path); apply _. Defined.

Lemma find_loop_first name candidates notes :
  match find_loop name candidates notes with
  | inl path => list.head (filter (answers_to name) candidates) = Some path
  | inr _ => filter (answers_to name) candidates = []
  end.
Proof.
  revert notes. induction candidates as [|c cs IH]; intros notes; cbn [find_loop]; [done|]. rewrite filter_cons.
  unfold legacy_ingest_plugin_name_matches.
  destruct (read_ingest_descriptor c) as [d|note] eqn:E; case_bool_decide as Hn.
  - rewrite decide_True; [done|]. by unfold answers_to; rewrite E.
  - rewrite decide_False; [apply IH|]. by unfold answers_to; rewrite E.
  - rewrite decide_True; [done|]. by unfold answers_to; rewrite E.
  - rewrite decide_False; [apply IH|]. by unfold answers_to; rewrite E.
Qed.

(** A name is resolved to the first of the candidates, in the order of the search roots,
    that answers to it, and not found exactly when none does. *)
Theorem plugin_found_by_name plugin_path plugin_dir name :
  let roots := foldl push_unique_path
    (match plugin_path with
     | Some path => push_unique_path (match plugin_dir with Some dir => push_unique_path [] dir | None => [] end)
                      (if has_parent path then path else resolve_ingest_plugin_path path)
     | None => match plugin_dir with Some dir => push_unique_path [] dir | None => [] end
     end) collect_ingest_plugin_search_roots in
  let candidates := (collect_ingest_plugin_candidates roots).1 in
  match resolve_ingest_plugin plugin_path plugin_dir (Some name) with
  | Ok path => list.head (filter (answers_to name) candidates) = Some path
  | Err (PluginNotFound n searched _) => n = name ∧ searched = roots ∧ filter (answers_to name) candidates = []
  | Err NameRequired => False
  end.
Proof.
  cbv zeta. unfold resolve_ingest_plugin.
  destruct plugin_path as [path|]; cbn [ok_or]; unfold find_ingest_plugin_by_name;
    destruct (collect_ingest_plugin_candidates _) as [cs notes]; pose proof (find_loop_first name cs notes) as H;
    destruct (find_loop name cs notes); cbn [fst]; auto.
Qed.

Lemma visible_answers path v : visible_ingest path = Some v → vp_path v = path ∧ answers_to (vp_name v) path.
Proof.
  unfold visible_ingest, answers_to. destruct (read_ingest_descriptor path); [by intros [= <-]|].
  intros (name & Hn & ->)%fmap_Some. done.
Qed.
(** A plugin that is listed can be asked for: its name is found, with the same directory. *)
Theorem listed_plugin_found plugin_dir v :
  v ∈ list_visible_ingest_plugins plugin_dir None → ∃ path, resolve_ingest_plugin None plugin_dir (Some (vp_name v)) = Ok path.
Proof.
  unfold list_visible_ingest_plugins. rewrite merge_sort_Permutation, list_elem_of_omap. intros (path & Hp & [_ Hv]%visible_answers).
  pose proof (plugin_found_by_name None plugin_dir (vp_name v)) as H. cbv zeta in H.
  destruct (resolve_ingest_plugin _ _ _) as [p|[|n ss ns]]; [by exists p|done|]. destruct H as (_ & _ & H).
  exfalso. assert (path ∈ filter (answers_to (vp_name v)) (collect_ingest_plugin_candidates (foldl push_unique_path
    match plugin_dir with Some dir => push_unique_path [] dir | None => [] end collect_ingest_plugin_search_roots)).1) as Hf
    by by apply list_elem_of_filter. rewrite H in Hf. by apply elem_of_nil in Hf.
Qed.

(** A configuration that was loaded for a plugin names a path or a plugin, so resolving it
    never fails for want of a name. *)
Theorem valid_config_names_plugin c :
  valid_config c → ingest_protocol c = ProtocolPlugin →
  resolve_ingest_plugin (ingest_plugin_path c) (ingest_plugin_dir c) (ingest_plugin_name c) ≠ Err NameRequired.
Proof.
  intros Hc Hp E. apply (vc_plugin c Hc) in Hp. unfold resolve_ingest_plugin, find_ingest_plugin_by_name in E.
  destruct (ingest_plugin_path c) as [path|], (ingest_plugin_name c) as [name|]; cbn [ok_or] in E; try done; [..|by destruct Hp as [[]|[]]];
    by destruct (collect_ingest_plugin_candidates _) as [cs notes], (find_loop name cs notes).
Qed.
End Search.

(** ** The exporters the daemon lists *)

Section Exporters.
Context (exporter_path_var cwd exe_dir : option text).
Definition collect_exporter_plugin_search_roots : list text :=
  let roots := foldl (λ roots entry, if bool_decide (entry = []) then roots else push_unique_path roots entry) []
                 (match exporter_path_var with Some raw => split_on 58 raw | None => [] end) in
  let roots := match cwd with Some cwd => push_unique_path roots (path_join cwd (str "exporters")) | None => roots end in
  let roots := match exe_dir with
               | Some dir => push_unique_path (push_unique_path roots (path_join dir (str "exporters"))) (path_join dir (str "../lib/logjet/exporters"))
               | None => roots
               end in
  push_unique_path (push_unique_path roots (str "/usr/lib/logjet/exporters")) (str "/usr/lib/logjet").

Context (exists_ is_file : text → bool) (read_dir : text → result IoError (list (result IoError text))).
Context {C : Type} (library : text → result text (option (LjxExporterDescriptorV1 C))).

(** The format and the name to show *)
Definition read_exporter_descriptor (path : text) : result SearchNote (text * text) :=
  let? d := map_err (LibraryNote path) (library path) in
  let? d := ok_or d (NullDescriptorNote path) in
  if ds_struct_size d <? DESCRIPTOR_SIZE then Err (SizeNote path (ds_struct_size d)) else
  if negb (ds_abi_major d =? LJX_EXPORTER_ABI_MAJOR) then Err (AbiNote path (ds_abi_major d) (ds_abi_minor d)) else
  if LJX_EXPORTER_ABI_MINOR <? ds_abi_minor d then Err (AbiNote path (ds_abi_major d) (ds_abi_minor d)) else
  let format_name := to_ascii_lowercase (trim_text (abi_string_to_string (ds_format_name d))) in
  if negb (is_valid_format_name format_name) then Err (NameNote path format_name) else
  Ok (format_name, non_empty_or (abi_string_to_string (ds_display_name d)) format_name).
Definition visible_exporter (path : text) : option VisiblePlugin :=
  match read_exporter_descriptor path with Ok (name, display) => Some (mkVisiblePlugin name display path) | Err _ => None end.
Definition list_visible_exporter_plugins : list VisiblePlugin :=
  merge_sort visible_le (omap visible_exporter (collect_ingest_plugin_candidates exists_ is_file read_dir collect_exporter_plugin_search_roots).1).

(** The daemon and [ljx] accept the same libraries as exporters, under the same names. *)
Lemma same_exporters path :
  match read_exporter_descriptor path, LoadedExporter_load library path with
  | Ok (name, display), Ok x => name = le_format_name x ∧ display = le_display_name x
  | Err _, Err _ => True
  | _, _ => False
  end.
Proof.
  unfold read_exporter_descriptor, LoadedExporter_load. destruct (library path) as [[d|]|e]; cbn; [|done..].
  unfold validate_descriptor. do 4 (match goal with |- context [if ?b then _ else _] => destruct b; [done|] end). done.
Qed.
End Exporters.

(** A library that the daemon refuses for its version of the interface is taken all the same
    when its file name is the name asked for. *)
Definition newer_syslog : LjIngestDescriptorV1 := mkIngestDescriptor INGEST_DESCRIPTOR_SIZE 2 0 (Some (str "other")) None 0.
Theorem refused_plugin_taken_by_file_name :
  let library (_ : text) : result text (option LjIngestDescriptorV1) := Ok (Some newer_syslog) in
  let path := str "/plugins/libsyslog_ingest.so" in
  read_ingest_descriptor library path = Err (AbiNote path 2 0) ∧
  resolve_ingest_plugin (λ p, bool_decide (p = str "/plugins")) (λ _, false) (λ _, Ok [Ok (str "libsyslog_ingest.so")]) library None None None
    None (Some (str "/plugins")) (Some (str "syslog")) = Ok path.
Proof. vm_compute. done. Qed.
