(* ===== verification/ViewText.v ===== *)
(** * Text in the cells of the viewer

    [ljx/src/commands/view/text.rs] below the text fields, with [fit_modal_body] of
    [detail.rs]: previews, hexadecimal dumps, padding and wrapping.  Strings are lists of characters,
    which is how the code counts them. *)

From S2P Require Import Prelude Text.

(** [char::is_control] *)
Definition is_control (c : Z) : bool := (c <? 32) || ((127 <=? c) && (c <? 160)).
Definition trim_single_line (input : list Z) (limit : nat) : list Z :=
  let flattened := (λ ch, if is_control ch then 32 else ch) <$> input in
  take limit flattened ++ if decide (limit < length flattened)%nat then str "..." else [].
(** [String::from_utf8_lossy] gives the characters. *)
Definition text_preview (bytes : list Z) (limit : nat) : list Z := trim_single_line (chars_of (from_utf8_lossy bytes)) limit.

Definition fit_to_width (input : list Z) (width : nat) : list Z :=
  match width with
  | O => []
  | _ =>
      if decide (length input ≤ width)%nat then input ++ replicate (width - length input) 32 else
      if decide (width ≤ 3)%nat then replicate width 46
      else take (width - 3) input ++ str "..."
  end.

Definition hex_digit (n : Z) : Z := if n <? 10 then 48 + n else 87 + n.
(** [{byte:02x}] *)
Definition hex_byte (b : Z) : list Z := [hex_digit (b / 16); hex_digit (b mod 16)].
Definition hex_preview (bytes : list Z) (limit : nat) : list Z :=
  join [32] (hex_byte <$> take limit bytes) ++ if decide (limit < length bytes)%nat then str " ..." else [].

(** [{:08x}] *)
Fixpoint hex_digits (n : nat) (z : Z) : list Z :=
  match n with O => [] | S n => hex_digits n (z / 16) ++ [hex_digit (z mod 16)] end.
Definition hex_08 (z : Z) : list Z := hex_digits (Z.to_nat (Z.max 8 (Z.log2 z / 4 + 1))) z.
Fixpoint hex_lines (fuel : nat) (offset : Z) (bytes : list Z) : list Z :=
  match fuel, bytes with
  | S fuel, _ :: _ =>
      hex_08 offset ++ str ": " ++ concat ((λ b, hex_byte b ++ [32]) <$> take 16 bytes) ++ [10] ++
      hex_lines fuel (offset + 16) (drop 16 bytes)
  | _, _ => []
  end.
Definition hex_dump (bytes : list Z) : list Z := hex_lines (length bytes) 0 bytes.

(** ** Wrapping *)

Definition ELLIPSIS : Z := 8230.
(** The text so far and the column in its last line *)
Definition wrap_word (width : nat) (acc : list Z * nat) (word : list Z) : list Z * nat :=
  let '(out, col) := acc in
  let wlen := length word in
  if decide (wlen = 0)%nat then
    if decide (0 < col ∧ col < width)%nat then (out ++ [32], S col) else (out, col)
  else if decide (width < wlen)%nat then
    (out ++ (if decide (0 < col)%nat then [10] else []) ++ take (width - 1) word ++ [ELLIPSIS], width)
  else if decide (width < col + (if decide (0 < col)%nat then 1 else 0) + wlen)%nat then
    (out ++ 10 :: word, wlen)
  else if decide (0 < col)%nat then (out ++ 32 :: word, (S col + wlen)%nat)
  else (out ++ word, (col + wlen)%nat).
Definition wrap_line (width : nat) (line : list Z) : list Z := (foldl (wrap_word width) ([], O) (split_on 32 line)).1.
Definition expand_tabs (text : list Z) : list Z := concat ((λ c, if c =? 9 then str "    " else [c]) <$> text).
Definition smart_wrap (text : list Z) (width : nat) : list Z :=
  match width with
  | O => text
  | _ => join [10] (wrap_line width <$> split_on 10 (expand_tabs text))
  end.
(** [str::lines] gives no last line that is empty. *)
Definition line_count (s : list Z) : nat :=
  let lines := split_on 10 s in
  if decide (list.last lines = Some []) then length lines - 1 else length lines.
Definition fit_modal_body (message : list Z) (width : nat) : list Z * Z :=
  let wrapped := smart_wrap message width in (wrapped, Z.of_nat (line_count wrapped) mod 65536).

(** ** Lines fit the width *)

Lemma fit_to_width_length input width : length (fit_to_width input width) = width.
Proof.
  unfold fit_to_width. destruct width as [|w]; [done|]. repeat case_decide.
  - rewrite length_app, length_replicate. lia.
  - apply length_replicate.
  - rewrite length_app, length_take. change (length (str "...")) with 3%nat. lia.
Qed.
Lemma trim_single_line_shown input limit :
  (length (trim_single_line input limit) ≤ limit + 3)%nat ∧ Forall (λ c, is_control c = false) (trim_single_line input limit).
Proof.
  unfold trim_single_line. split.
  - rewrite length_app, length_take. case_decide; cbn; lia.
  - apply Forall_app. split; [|case_decide; repeat constructor].
    apply Forall_take, Forall_fmap, Forall_true. intros x. cbn. by destruct (is_control x) eqn:E.
Qed.

Lemma split_char_cur c cur s : split_char c cur s = match split_char c [] s with l :: ls => (cur ++ l) :: ls | [] => [] end.
Proof.
  revert cur. induction s as [|b s IH]; intros cur; cbn; [by rewrite app_nil_r|].
  destruct (b =? c); cbn; [by rewrite app_nil_r|]. rewrite IH, (IH [b]). destruct (split_char c [] s); [done|]. by rewrite <-app_assoc.
Qed.
Lemma split_char_cons c cur s : ∃ l ls, split_char c cur s = l :: ls.
Proof. revert cur. induction s; intros cur; cbn; [eauto|]. case_match; eauto. Qed.
Lemma split_on_plain c s : c ∉ s → split_on c s = [s].
Proof.
  unfold split_on. induction s as [|b s IH]; [done|]. intros [Hb Hs]%not_elem_of_cons. cbn.
  destruct (Z.eqb_spec b c); [done|]. by rewrite split_char_cur, IH.
Qed.
Lemma split_on_sep c a b : split_on c (a ++ c :: b) = split_on c a ++ split_on c b.
Proof.
  unfold split_on. induction a as [|x a IH]; cbn; [by rewrite Z.eqb_refl|]. case_match; [by rewrite IH|].
  rewrite (split_char_cur _ [x]), (split_char_cur _ [x] a), IH. by destruct (split_char_cons c [] a) as (l & ls & ->).
Qed.
Lemma split_on_end c s ls cur w : c ∉ w → split_on c s = ls ++ [cur] → split_on c (s ++ w) = ls ++ [cur ++ w].
Proof.
  intros Hw. unfold split_on. revert ls cur. induction s as [|b s IH]; intros ls cur; cbn.
  - intros Hs. destruct ls as [|l [|? ?]]; simplify_list_eq. by apply (split_on_plain c).
  - case_match.
    + destruct ls as [|l ls]; cbn; [destruct (split_char_cons c [] s) as (? & ? & ->); discriminate|]. intros [= <- H2]. by rewrite (IH _ _ H2).
    + rewrite !(split_char_cur c [b]). destruct (split_char c [] s) as [|l' ls'] eqn:E; [by destruct ls|].
      intros H1. destruct ls as [|l ls]; simplify_list_eq.
      * by rewrite (IH [] l').
      * by rewrite (IH (l' :: ls) cur).
Qed.

(** What is written keeps to the width, and the column is that of its last line. *)
Definition fits (width : nat) (acc : list Z * nat) : Prop :=
  ∃ ls cur, split_on 10 acc.1 = ls ++ [cur] ∧ Forall (λ l, length l ≤ width)%nat ls ∧ length cur = acc.2 ∧ (acc.2 ≤ width)%nat.
Lemma fits_append width out col w :
  10 ∉ w → fits width (out, col) → (col + length w ≤ width)%nat → fits width (out ++ w, (col + length w)%nat).
Proof.
  intros Hw (ls & cur & Hs & Hl & Hc & Hle) Hn. cbn [fst snd] in *. exists ls, (cur ++ w). cbn [fst snd].
  rewrite (split_on_end _ _ _ _ _ Hw Hs), length_app. auto with lia.
Qed.
Lemma fits_newline width out col w : 10 ∉ w → fits width (out, col) → (length w ≤ width)%nat → fits width (out ++ 10 :: w, length w).
Proof.
  intros Hw (ls & cur & Hs & Hl & Hc & Hle) Hn. cbn [fst snd] in *. exists (ls ++ [cur]), w. cbn [fst snd].
  rewrite split_on_sep, Hs, split_on_plain by done. split_and!; try done. apply Forall_app. split; [done|]. constructor; [lia|done].
Qed.
Lemma wrap_word_fits width acc word : (0 < width)%nat → 10 ∉ word → fits width acc → fits width (wrap_word width acc word).
Proof.
  destruct acc as [out col]. intros Hw Hword Hf. unfold wrap_word.
  assert (10 ∉ take (width - 1) word ++ [ELLIPSIS]) as Hcut.
  { rewrite not_elem_of_app. split; [|by rewrite list_elem_of_singleton]. intros H. apply Hword.
    eapply list_elem_of_lookup in H as [i Hi]. apply list_elem_of_lookup. exists i. by apply lookup_take_Some in Hi as [? _]. }
  case_decide; [|case_decide as Hlong; [|repeat case_decide]].
  - case_decide; [|done]. replace (S col) with (col + length [32%Z])%nat by (cbn; lia). apply fits_append; [by rewrite list_elem_of_singleton|done|cbn; lia].
  - assert (length (take (width - 1) word ++ [ELLIPSIS]) = width) as Hlen by (rewrite length_app, length_take; cbn; lia).
    rewrite <- Hlen at 3. case_decide.
    + apply (fits_newline width out col); [done..|lia].
    + replace col with O in Hf by lia. cbn [app]. apply (fits_append width out 0); [done..|lia].
  - apply (fits_newline width out col); [done..|lia].
  - apply (fits_newline width out col); [done..|lia].
  - change (S col + length word)%nat with (S (col + length word)). replace (S (col + length word)) with (col + length (32%Z :: word))%nat by (cbn; lia).
    apply fits_append; [|done|cbn; lia]. by apply not_elem_of_cons.
  - by apply fits_append; [..|lia].
Qed.
Lemma split_on_pieces c s l : l ∈ split_on c s → c ∉ l ∧ l ⊆ s.
Proof.
  unfold split_on. revert l. induction s as [|b s IH]; intros l; cbn.
  - intros ->%list_elem_of_singleton. split; [apply not_elem_of_nil|done].
  - destruct (Z.eqb_spec b c) as [->|Hb].
    + intros [->|H]%elem_of_cons; [split; [apply not_elem_of_nil|set_solver]|]. destruct (IH _ H). set_solver.
    + rewrite split_char_cur. destruct (split_char c [] s) as [|p ps]; [set_solver|].
      intros [->|H]%elem_of_cons; [destruct (IH p)|destruct (IH l)]; set_solver.
Qed.
Lemma join_two c l l' ls : join [c] (l :: l' :: ls) = l ++ c :: join [c] (l' :: ls).
Proof. done. Qed.
Lemma split_on_join c ls : ls ≠ [] → split_on c (join [c] ls) = concat (split_on c <$> ls).
Proof.
  induction ls as [|l ls IH]; [done|]. intros _. destruct ls as [|l' ls]; [by cbn; rewrite app_nil_r|].
  rewrite join_two, split_on_sep, IH by done. done.
Qed.
Lemma wrap_words_fit width words acc :
  (0 < width)%nat → (∀ w, w ∈ words → 10 ∉ w) → fits width acc → fits width (foldl (wrap_word width) acc words).
Proof.
  intros Hw. revert acc. induction words as [|w words IH]; intros acc Hn Hf; [done|]. cbn. apply IH; [set_solver|].
  apply wrap_word_fits; [done|set_solver|done].
Qed.
(** Every line of a wrapped text fits the width. *)
Theorem smart_wrap_fits text width : (0 < width)%nat → Forall (λ l, length l ≤ width)%nat (split_on 10 (smart_wrap text width)).
Proof.
  intros Hw. unfold smart_wrap. destruct width as [|w]; [lia|]. rewrite split_on_join.
  - apply Forall_concat, Forall_fmap, Forall_fmap, list.Forall_forall. intros line [Hl _]%split_on_pieces.
    unfold compose. cbv beta.
    destruct (wrap_words_fit (S w) (split_on 32 line) ([], O)) as (ls & cur & Hs & Hls & Hc & Hle); [done| | |].
    + intros u [_ Hu]%split_on_pieces. set_solver.
    + exists [], []. cbn. repeat constructor. lia.
    + unfold wrap_line. rewrite Hs. apply Forall_app. split; [done|]. constructor; [lia|done].
  - destruct (split_char_cons 10 [] (expand_tabs text)) as (l & ls & E). unfold split_on. by rewrite E.
Qed.

(** ** Words are kept *)

Definition is_blank (c : Z) : bool := (c =? 32) || (c =? 9) || (c =? 10).
Fixpoint words_from (cur s : list Z) : list (list Z) :=
  match s with
  | [] => if decide (cur = []) then [] else [cur]
  | c :: s => if is_blank c then (if decide (cur = []) then [] else [cur]) ++ words_from [] s else words_from (cur ++ [c]) s
  end.
(** The words of a text, between blanks, tabs and line ends *)
Definition words_of (s : list Z) : list (list Z) := words_from [] s.

Lemma words_from_sep c cur a b : is_blank c = true → words_from cur (a ++ c :: b) = words_from cur a ++ words_of b.
Proof.
  intros Hc. revert cur. induction a as [|x a IH]; intros cur; cbn; [by rewrite Hc|].
  destruct (is_blank x); rewrite IH; [by rewrite app_assoc|done].
Qed.
Lemma words_from_plain cur w : forallb (negb ∘ is_blank) w = true → cur ++ w ≠ [] → words_from cur w = [cur ++ w].
Proof.
  revert cur. induction w as [|c w IH]; intros cur Hw Hn; cbn in *.
  - rewrite app_nil_r in *. by rewrite decide_False.
  - apply andb_true_iff in Hw as [Hc Hw]. destruct (is_blank c); [done|]. rewrite IH, <-app_assoc; [done|done|]. by destruct cur.
Qed.
Lemma words_expand cur s : words_from cur (expand_tabs s) = words_from cur s.
Proof.
  revert cur. induction s as [|c s IH]; intros cur; [done|]. unfold expand_tabs. cbn. fold (expand_tabs s).
  destruct (Z.eqb_spec c 9) as [->|Hc]; cbn; [by rewrite IH|]. destruct (is_blank c); by rewrite IH.
Qed.
Lemma words_join c ls : is_blank c = true → words_of (join [c] ls) = concat (words_of <$> ls).
Proof.
  intros Hc. induction ls as [|l ls IH]; [done|]. destruct ls as [|l' ls]; [by cbn; rewrite app_nil_r|].
  rewrite join_two. unfold words_of at 1. by rewrite words_from_sep, IH.
Qed.
Lemma words_split cur s : 9 ∉ s → 10 ∉ s → filter (λ w, w ≠ []) (split_char 32 cur s) = words_from cur s.
Proof.
  revert cur. induction s as [|c s IH]; intros cur H9 H10; cbn [split_char words_from].
  - rewrite filter_cons, filter_nil. by repeat case_decide.
  - apply not_elem_of_cons in H9 as [? ?], H10 as [? ?]. unfold is_blank.
    destruct (Z.eqb_spec c 32); cbn [orb].
    + rewrite filter_cons, IH by done. by repeat case_decide.
    + destruct (Z.eqb_spec c 9), (Z.eqb_spec c 10); try done. by apply IH.
Qed.
Lemma join_split c s : join [c] (split_on c s) = s.
Proof.
  unfold split_on. induction s as [|b s IH]; [done|]. cbn [split_char]. destruct (split_char_cons c [] s) as (l & ls & E).
  destruct (Z.eqb_spec b c) as [->|]; [rewrite E in *; by rewrite join_two, IH|].
  cbn [app]. rewrite split_char_cur, E. rewrite E in IH. destruct ls as [|l' ls]; [cbn in *; congruence|].
  rewrite join_two in *. cbn [app]. congruence.
Qed.
Lemma expand_tabs_no_tab s : 9 ∉ expand_tabs s.
Proof.
  unfold expand_tabs. induction s as [|c s IH]; [apply not_elem_of_nil|]. cbn. rewrite not_elem_of_app. split; [|done].
  destruct (Z.eqb_spec c 9); [by vm_compute; set_solver|set_solver].
Qed.
Lemma wrap_words_kept width words out col :
  Forall (λ w, length w ≤ width ∧ forallb (negb ∘ is_blank) w = true)%nat words → (col = O → out = []) →
  words_of (foldl (wrap_word width) (out, col) words).1 = words_of out ++ filter (λ w, w ≠ []) words.
Proof.
  revert out col. induction words as [|w words IH]; intros out col Hw Hc; [by rewrite app_nil_r|].
  apply Forall_cons_iff in Hw as [[Hl Hp] Hw]. cbn [foldl]. rewrite filter_cons.
  destruct (decide (w = [])) as [->|Hn].
  - rewrite (decide_False (P:=[] ≠ [])) by auto. unfold wrap_word. rewrite decide_True by done. case_decide.
    + rewrite IH by done. unfold words_of at 1. by rewrite (words_from_sep 32 [] out []), app_nil_r.
    + by apply IH.
  - rewrite (decide_True (P:=w ≠ [])) by done. assert (length w ≠ 0)%nat by by destruct w.
    assert (∀ c, is_blank c = true → words_of (out ++ c :: w) = words_of out ++ [w]) as Hs.
    { intros c ?. unfold words_of at 1. rewrite words_from_sep by done. unfold words_of. by rewrite (words_from_plain [] w). }
    unfold wrap_word. rewrite decide_False, decide_False by lia.
    rewrite (cons_middle w), (app_assoc (words_of out)). case_decide; [|case_decide].
    + rewrite IH, Hs; [done..|lia].
    + rewrite IH, Hs; [done..|lia].
    + rewrite (Hc ltac:(lia)) in *. rewrite IH; [|done|lia]. cbn [app]. unfold words_of. by rewrite (words_from_plain [] w).
Qed.
(** Wrapping changes only blanks and line ends, when no word is longer than a line. *)
Theorem smart_wrap_keeps_words text width :
  Forall (λ w, length w ≤ width)%nat (words_of text) → words_of (smart_wrap text width) = words_of text.
Proof.
  intros Hw. unfold smart_wrap. destruct width as [|n]; [done|]. remember (S n) as width.
  rewrite words_join by done. rewrite <- list_fmap_compose. revert Hw. unfold words_of at 1 3. rewrite <- (words_expand [] text).
  fold (words_of (expand_tabs text)). rewrite <- (join_split 10 (expand_tabs text)) at 1 3. rewrite words_join by done.
  intros Hw%Forall_concat. f_equal. apply list_fmap_ext. intros i line Hi. unfold compose, wrap_line.
  assert (line ∈ split_on 10 (expand_tabs text)) as Hline by (apply list_elem_of_lookup; eauto).
  pose proof (split_on_pieces _ _ _ Hline) as [H10 Hsub]. assert (9 ∉ line) as H9 by (intros ?; apply (expand_tabs_no_tab text); set_solver).
  assert (filter (λ w, w ≠ []) (split_on 32 line) = words_of line) as E by by apply words_split.
  rewrite wrap_words_kept, E; [done| |done].
  apply list.Forall_forall. intros w Hwl. split.
  - destruct (decide (w = [])) as [->|]; [cbn; lia|]. rewrite Forall_fmap, list.Forall_forall in Hw. specialize (Hw line Hline).
    unfold compose in Hw. rewrite list.Forall_forall in Hw. apply Hw. rewrite <- E. by apply list_elem_of_filter.
  - destruct (split_on_pieces _ _ _ Hwl) as [H32 Hs]. apply forallb_forall. intros c Hc%list_elem_of_In. unfold compose, is_blank.
    destruct (Z.eqb_spec c 32), (Z.eqb_spec c 9), (Z.eqb_spec c 10); subst; try done; set_solver.
Qed.
