(* ===== verification/ViewDetail.v ===== *)
(** * The record shown

    [ljx/src/commands/view/detail.rs]: the text of a record in the list, in the window and in
    the table beside it, and its rows of JSON.  A styled line of the code is its text; labels and
    values of tables are pairs. *)

From stdpp Require Import sorting.
From S2P Require Import Prelude Text Tokens Format Writer Reader Scan Otlp FlatRecord Canon Cel DatasetIndex ViewScan Ndjson ViewText.

Definition DETAIL_PREVIEW_BYTES : nat := 1024.
Definition MODAL_ATTR_ENTRY_LIMIT_PER_KIND : nat := 32.

(** A function on characters, on a string *)
Definition in_chars (f : list Z → list Z) (s : text) : text := string_of_chars (f (chars_of s)).
Definition trim_text_line (s : text) (limit : nat) : text := in_chars (λ cs, trim_single_line cs limit) s.
Definition preview (bytes : list Z) (limit : nat) : text := string_of_chars (text_preview bytes limit).
Definition count_text (n : nat) : text := u64_to_string (Z.of_nat n).
(** [if !v.iter().any(|e| e == x) { v.push(x) }] *)
Definition push_new (l : list text) (x : text) : list text := if decide (x ∈ l) then l else l ++ [x].
Definition distinct_texts (l : list text) : list text := foldl push_new [] l.
Definition list_text (l : list text) : text := join (str ", ") l.

Definition severity_number_label (value : Z) : option text :=
  if (1 <=? value) && (value <=? 4) then Some (str "TRACE") else
  if (5 <=? value) && (value <=? 8) then Some (str "DEBUG") else
  if (9 <=? value) && (value <=? 12) then Some (str "INFO") else
  if (13 <=? value) && (value <=? 16) then Some (str "WARN") else
  if (17 <=? value) && (value <=? 20) then Some (str "ERROR") else
  if (21 <=? value) && (value <=? 24) then Some (str "FATAL") else None.
Definition severity_initial (value : text) : text :=
  match list.head (filter (λ c, is_ascii_alphabetic c = true) value) with
  | Some c => [if is_ascii_lowercase c then c - 32 else c]
  | None => [32]
  end.

Definition is_otlp_attribute_entry (key : text) : bool :=
  existsb (λ kind, starts_with key (str kind ++ str ".") && negb (bool_decide (key = str kind ++ str ".attrs")))
    ["resource"; "scope"; "record"; "span"]%string.
Definition STANDARD_PREFIXES : list string :=
  ["service."; "telemetry."; "host."; "os."; "process."; "container."; "k8s."; "cloud."; "deployment."; "device."; "faas."; "enduser.";
   "server."; "client."; "http."; "url."; "network."; "net."; "rpc."; "db."; "messaging."; "exception."; "code."; "thread."; "gen_ai.";
   "browser."; "user_agent."; "aws."; "gcp."; "azure."; "vcs."]%string.
Definition is_standard_otlp_attribute_entry (key : text) : bool :=
  match split_once 46 key with
  | None => false
  | Some (_, attr_key) => existsb (λ prefix, starts_with attr_key (str prefix)) STANDARD_PREFIXES
  end.

Section Detail.
Context {OP : OtlpParts} {FL : Floats} {VT : ValueTrees} {LC : LogsCodec} {SC : SignalCodec} {JT : JsonText}.
(** [{:?}] of an [f64] *)
Context (f64_debug : F64 → text).

(** ** What the requests hold *)

Definition all_logs (batch : ExportLogsServiceRequest) : list LogRecordMessage :=
  concat ((λ rl : ResourceLogs, concat ((λ sl : ScopeLogs, (log_records sl : list LogRecordMessage)) <$> scope_logs rl)) <$> resource_logs batch).
Definition all_entries {A} (batch : list (ResourceOf A)) : list A :=
  concat ((λ r, concat (so_entries <$> ro_scopes r)) <$> batch).
(** The strings under [service.name] of a resource *)
Definition service_names (r : option ResourceMessage) : list text :=
  omap (λ attr, if bool_decide (kv_key attr = str "service.name") then string_of (kv_value attr) else None) (resource_attrs_of r).
Definition scope_names (scopes : list (option InstrumentationScope)) : list text := filter (λ n, n ≠ []) (scope_name_of <$> scopes).

Definition data_points (m : MetricMessage) : nat :=
  match metric_points m with
  | Some (GaugePoints dps) | Some (SumPoints dps _ _) => length dps
  | Some (HistogramPoints dps _) | Some (ExponentialHistogramPoints dps _) => length dps
  | Some (SummaryPoints dps) => length dps
  | None => O
  end.

Definition string_body (lr : LogRecordMessage) : option text := string_of (lr_body lr).
Definition extract_otlp_log_message (payload : list Z) : option text :=
  match decode_logs payload with Ok batch => list.head (omap string_body (all_logs batch)) | Err _ => None end.
Definition log_severity (lr : LogRecordMessage) : option text :=
  if filled (lr_severity_text lr) then Some (lr_severity_text lr) else severity_number_label (lr_severity_number lr).
Definition extract_otlp_log_severity (payload : list Z) : option text :=
  match decode_logs payload with Ok batch => list.head (omap log_severity (all_logs batch)) | Err _ => None end.

Definition format_data_point_value (v : NumberValue) : text :=
  match v with AsDouble d => f64_to_string d | AsInt i => i64_to_string i end.
Definition count_value (n : Z) : text := str "count=" ++ u64_to_string n.
Definition first_point_value (m : MetricMessage) : option text :=
  match metric_points m with
  | Some (GaugePoints dps) | Some (SumPoints dps _ _) => dp ← list.head dps; format_data_point_value <$> np_value dp
  | Some (HistogramPoints dps _) | Some (ExponentialHistogramPoints dps _) => (λ dp, count_value (hp_count dp)) <$> list.head dps
  | Some (SummaryPoints dps) => (λ dp, count_value (sp_count dp)) <$> list.head dps
  | None => None
  end.
Definition unless_empty (parts : list text) (sep : text) : option text := if bool_decide (parts = []) then None else Some (join sep parts).
Definition extract_otlp_metrics_summary (payload : list Z) : option text :=
  match decode_metrics payload with
  | Err _ => None
  | Ok batch =>
      unless_empty ((λ m, match first_point_value m with Some v => metric_name m ++ str "=" ++ v ++ metric_unit m | None => metric_name m end)
        <$> all_entries batch) (str ", ")
  end.
Definition extract_otlp_traces_summary (payload : list Z) : option text :=
  match decode_traces payload with
  | Err _ => None
  | Ok batch =>
      unless_empty ((λ span, sf_name span ++ str " (" ++ format_span_kind (sf_kind span) ++
          match sf_status span with Some (code, _) => str ", status=" ++ i64_to_string code | None => [] end ++ str ")")
        <$> all_entries batch) (str ", ")
  end.
Definition format_summary (detail : DetailRecord) (hex_payload : bool) : text :=
  let pl := detail_payload detail in
  if hex_payload then hex_preview pl 32 else
  match em_record_type (detail_meta detail) with
  | Metrics => default (preview pl 160) (extract_otlp_metrics_summary pl)
  | Traces => default (preview pl 160) (extract_otlp_traces_summary pl)
  | _ => match extract_otlp_log_message pl with Some message => trim_text_line message 160 | None => preview pl 160 end
  end.

(** ** The window *)

Definition line (label : string) (value : text) : text := str label ++ value.
Definition span_lines (span : SpanFields) : list text :=
  [line "Span: " (sf_name span)] ++
  (if filled (sf_trace_id span) then [line "  Trace ID: " (hex_encode (sf_trace_id span))] else []) ++
  (if filled (sf_span_id span) then [line "  Span ID: " (hex_encode (sf_span_id span))] else []) ++
  (if filled (sf_parent_span_id span) then [line "  Parent Span ID: " (hex_encode (sf_parent_span_id span))] else []) ++
  [line "  Kind: " (format_span_kind (sf_kind span)); line "  Start: " (format_timestamp (sf_start_time_unix_nano span));
   line "  End:   " (format_timestamp (sf_end_time_unix_nano span))] ++
  match sf_status span with
  | Some (code, message) => [str "  Status: code=" ++ i64_to_string code ++ str " message=" ++ message]
  | None => []
  end ++
  ((λ attr, str "  Attr: " ++ kv_key attr ++ str "=" ++ default [] (format_any_value <$> kv_value attr)) <$> sf_attributes span) ++
  [[]].
Definition extract_otlp_traces_message (payload : list Z) : option text :=
  match decode_traces payload with
  | Err _ => None
  | Ok batch => unless_empty (concat (span_lines <$> all_entries batch)) [10]
  end.
Definition bool_text (b : bool) : text := if b then str "true" else str "false".
Definition point_lines (m : MetricMessage) : list text :=
  let time t := str "  - time=" ++ format_timestamp t in
  let value (v : option NumberValue) := str ", value=" ++ default [] (format_data_point_value <$> v) in
  let count n := str ", count=" ++ u64_to_string n in
  match metric_points m with
  | Some (GaugePoints dps) => str "  Type: Gauge" :: ((λ dp, time (np_time_unix_nano dp) ++ value (np_value dp)) <$> dps)
  | Some (SumPoints dps monotonic temporality) =>
      (str "  Type: Sum (monotonic=" ++ bool_text monotonic ++ str ", temporality=" ++ i64_to_string temporality ++ str ")") ::
      ((λ dp, time (np_time_unix_nano dp) ++ str ", start_time=" ++ format_timestamp (np_start_time_unix_nano dp) ++ value (np_value dp)) <$> dps)
  | Some (HistogramPoints dps _) =>
      str "  Type: Histogram" ::
      ((λ dp, time (hp_time_unix_nano dp) ++ count (hp_count dp) ++ str ", sum=" ++
          match hp_sum dp with Some sum => str "Some(" ++ f64_debug sum ++ str ")" | None => str "None" end) <$> dps)
  | Some (ExponentialHistogramPoints dps _) =>
      str "  Type: ExponentialHistogram" ::
      ((λ dp, time (hp_time_unix_nano dp) ++ count (hp_count dp) ++ str ", scale=" ++ i64_to_string (hp_scale dp)) <$> dps)
  | Some (SummaryPoints dps) =>
      str "  Type: Summary" :: ((λ dp, time (sp_time_unix_nano dp) ++ count (sp_count dp) ++ str ", sum=" ++ f64_to_string (sp_sum dp)) <$> dps)
  | None => []
  end.
Definition metric_lines (m : MetricMessage) : list text :=
  [line "Metric: " (metric_name m)] ++
  (if filled (metric_description m) then [line "  Description: " (metric_description m)] else []) ++
  (if filled (metric_unit m) then [line "  Unit: " (metric_unit m)] else []) ++ point_lines m ++ [[]].
Definition extract_otlp_metrics_message (payload : list Z) : option text :=
  match decode_metrics payload with
  | Err _ => None
  | Ok batch => unless_empty (concat (metric_lines <$> all_entries batch)) [10]
  end.
(** Every payload is tried as a request of logs first. *)
Definition render_modal_message (detail : DetailRecord) (hex_payload : bool) : text :=
  let pl := detail_payload detail in
  let raw := if hex_payload then hex_dump pl else from_utf8_lossy pl in
  match extract_otlp_log_message pl, em_record_type (detail_meta detail) with
  | Some message, _ => message
  | None, Metrics => default raw (extract_otlp_metrics_message pl)
  | None, Traces => default raw (extract_otlp_traces_message pl)
  | None, _ => raw
  end.

(** ** The table beside it *)

Definition add_attribute (acc : list (text * text * text) * nat) (entry : text * text * text) : list (text * text * text) * nat :=
  let '(entries, omitted) := acc in
  if decide (length entries < MODAL_ATTR_ENTRY_LIMIT_PER_KIND)%nat then (entries ++ [entry], omitted) else (entries, S omitted).
(** The entries an attribute makes: an array has one for every element. *)
Definition attribute_entries (kind : string) (attr : KeyValue) : list (text * text * text) :=
  let entry value := [(str kind, kv_key attr, value)] in
  match kv_value attr with
  | None => entry (str "null")
  | Some any =>
      match tree_of any with
      | TreeArray l =>
          match filter (λ s, s ≠ []) (format_tree <$> l) with
          | [] => entry (0 :: str "N/A")
          | first :: rest => entry first ++ ((λ s, ([], [], s)) <$> rest)
          end
      | _ => entry (format_any_value any)
      end
  end.
Definition push_modal_attribute_entry (kind : string) (acc : list (text * text * text) * nat) (attr : KeyValue) : list (text * text * text) * nat :=
  foldl add_attribute acc (attribute_entries kind attr).
Definition flatten_modal_entries (entries : list (text * text * text)) : list (text * text) :=
  (λ '(kind, key, value), if bool_decide (kind = []) && bool_decide (key = []) then ([], value) else (kind ++ str "." ++ key, value)) <$> entries.

Definition field (name : string) (value : text) : list (text * text) := [(str name, value)].
Definition names_field (name : string) (names : list text) : list (text * text) :=
  match distinct_texts names with [] => [] | ds => field name (list_text ds) end.
Definition counted (counts : gmap text nat) (k : text) : gmap text nat := <[k := S (default O (counts !! k))]> counts.
Definition count_le (a b : text * nat) : Prop := text_le a.1 b.1.
#[export] Instance count_le_dec : RelDecision count_le.
Proof. intros a b. unfold count_le. apply _. Defined.
(** The counts of a [BTreeMap], by name *)
Definition counts_of (prefix : string) (keys : list text) : list (text * text) :=
  (λ '(k, n), (str prefix ++ k, count_text n)) <$> merge_sort count_le (map_to_list (foldl counted ∅ keys)).

Definition attributes_fields (kind : string) (attrs : list KeyValue) : list (text * text) :=
  let '(entries, omitted) := foldl (push_modal_attribute_entry kind) ([], O) attrs in
  flatten_modal_entries entries ++
  if decide (0 < omitted)%nat then [(str kind ++ str ".attrs.more", count_text omitted ++ str " not shown")] else [].
Definition present (name : string) (n : nat) : list (text * text) :=
  if decide (0 < n)%nat then field name (count_text n ++ str " present") else [].

Definition decode_failed : list (text * text) := field "otlp" (str "decode failed").
Definition render_modal_log_info_entries (detail : DetailRecord) : list (text * text) :=
  match decode_logs (detail_payload detail) with
  | Err _ => decode_failed
  | Ok batch =>
      let resources := (λ rl : ResourceLogs, rl_resource rl) <$> resource_logs batch in
      let scopes := concat ((λ rl : ResourceLogs, (λ sl : ScopeLogs, sl_scope sl) <$> scope_logs rl) <$> resource_logs batch) in
      let records := all_logs batch in
      let resource_attrs := concat (resource_attrs_of <$> resources) in
      let scope_attrs := concat (scope_attrs_of <$> scopes) in
      let record_attrs := concat (lr_attributes <$> records) in
      field "otlp.kind" (str "logs") ++ field "resources" (count_text (length (resource_logs batch))) ++
      names_field "service.name" (concat (service_names <$> resources)) ++ names_field "scope" (scope_names scopes) ++
      names_field "severity" (filter (λ s, s ≠ []) (lr_severity_text <$> records)) ++
      names_field "event" (filter (λ s, s ≠ []) (lr_event_name <$> records)) ++
      field "resource.attrs" (count_text (length resource_attrs)) ++ field "scope.attrs" (count_text (length scope_attrs)) ++
      field "record.attrs" (count_text (length record_attrs)) ++
      attributes_fields "resource" resource_attrs ++ attributes_fields "scope" scope_attrs ++ attributes_fields "record" record_attrs ++
      present "trace_id" (length (filter (λ t, t ≠ []) (lr_trace_id <$> records))) ++
      present "span_id" (length (filter (λ t, t ≠ []) (lr_span_id <$> records)))
  end.

Definition batch_fields {A} (kind : string) (batch : list (ResourceOf A)) : list (text * text) :=
  field "otlp.kind" (str kind) ++ field "resources" (count_text (length batch)) ++
  names_field "service.name" (concat (service_names <$> (ro_resource <$> batch))) ++
  names_field "scope" (scope_names (concat ((λ r, so_scope <$> ro_scopes r) <$> batch))).
Definition render_modal_traces_info_entries (detail : DetailRecord) : list (text * text) :=
  match decode_traces (detail_payload detail) with
  | Err _ => decode_failed
  | Ok batch =>
      let spans := all_entries batch in
      batch_fields "traces" batch ++ field "spans" (count_text (length spans)) ++
      names_field "span.names" (filter (λ n, n ≠ []) (sf_name <$> spans)) ++
      counts_of "span.kind." ((λ s, format_span_kind (sf_kind s)) <$> spans) ++
      counts_of "span.status." (omap (λ s, (λ st, i64_to_string st.1) <$> sf_status s) spans)
  end.
Definition point_fields (prefix : text) (m : MetricMessage) : list (text * text) :=
  let key (s : string) := prefix ++ str s in
  let points {P} (f : P → list (string * text)) (dps : list P) : list (text * text) :=
    concat (imap (λ i dp, (λ '(s, v), (prefix ++ str ".dp" ++ count_text i ++ str s, v)) <$> f dp) dps) in
  let number (dp : NumberDataPoint) := (".value"%string, default [] (format_data_point_value <$> np_value dp)) in
  match metric_points m with
  | Some (GaugePoints dps) =>
      (key ".kind"%string, str "Gauge") :: points (λ dp, [number dp; (".time"%string, format_timestamp (np_time_unix_nano dp))]) dps
  | Some (SumPoints dps monotonic temporality) =>
      [(key ".kind"%string, str "Sum"); (key ".monotonic"%string, bool_text monotonic); (key ".temporality"%string, i64_to_string temporality)] ++
      points (λ dp, [number dp; (".time"%string, format_timestamp (np_time_unix_nano dp));
                     (".start_time"%string, format_timestamp (np_start_time_unix_nano dp))]) dps
  | Some (HistogramPoints dps _) =>
      (key ".kind"%string, str "Histogram") ::
      points (λ dp, [(".count"%string, u64_to_string (hp_count dp)); (".time"%string, format_timestamp (hp_time_unix_nano dp))]) dps
  | Some (ExponentialHistogramPoints dps _) =>
      (key ".kind"%string, str "ExpHistogram") ::
      points (λ dp, [(".count"%string, u64_to_string (hp_count dp)); (".time"%string, format_timestamp (hp_time_unix_nano dp))]) dps
  | Some (SummaryPoints dps) =>
      (key ".kind"%string, str "Summary") ::
      points (λ dp, [(".count"%string, u64_to_string (sp_count dp)); (".sum"%string, f64_to_string (sp_sum dp));
                     (".time"%string, format_timestamp (sp_time_unix_nano dp))]) dps
  | None => []
  end.
Definition metric_fields (m : MetricMessage) : list (text * text) :=
  let prefix := str "metric." ++ metric_name m in
  [(prefix ++ str ".unit", metric_unit m)] ++
  (if filled (metric_description m) then [(prefix ++ str ".description", metric_description m)] else []) ++ point_fields prefix m.
Definition render_modal_metrics_info_entries (detail : DetailRecord) : list (text * text) :=
  match decode_metrics (detail_payload detail) with
  | Err _ => decode_failed
  | Ok batch =>
      let metrics := all_entries batch in
      batch_fields "metrics" batch ++ field "metrics" (count_text (length metrics)) ++
      field "datapoints" (count_text (sum_list (data_points <$> metrics))) ++
      names_field "metric.names" (filter (λ n, n ≠ []) (metric_name <$> metrics)) ++ concat (metric_fields <$> metrics)
  end.
Definition render_modal_info_entries (detail : DetailRecord) : list (text * text) :=
  let meta := detail_meta detail in
  field "type" (record_kind_label (em_record_type meta)) ++ field "seq" (u64_to_string (em_seq meta)) ++
  field "ts_unix_ns" (u64_to_string (em_ts_unix_ns meta)) ++ field "time" (format_timestamp (em_ts_unix_ns meta)) ++
  field "payload_bytes" (u64_to_string (em_payload_len meta)) ++
  match em_record_type meta with
  | Logs => render_modal_log_info_entries detail
  | Metrics => render_modal_metrics_info_entries detail
  | Traces => render_modal_traces_info_entries detail
  | Events => []
  end.

(** ** The lines below the list *)

Definition key_value_line (label : string) (value : text) : text * text := (str label, value).
Definition services_line (services : list text) : list (text * text) :=
  match distinct_texts services with [] => [] | ds => [key_value_line "Services:" (list_text ds)] end.
Definition failed_line (kind : string) : list (text * text) := [key_value_line kind (str "payload decode failed; showing raw preview")].
Definition render_otlp_log_lines (detail : DetailRecord) : list (text * text) :=
  match decode_logs (detail_payload detail) with
  | Err _ => failed_line "OTLP logs: "
  | Ok batch =>
      let scopes := concat ((λ rl : ResourceLogs, scope_logs rl) <$> resource_logs batch) in
      let records := all_logs batch in
      [key_value_line "OTLP kind:" (str "logs"); key_value_line "Resources:" (count_text (length (resource_logs batch)));
       key_value_line "Scopes:" (count_text (length scopes)); key_value_line "Log records:" (count_text (length records))] ++
      services_line (concat ((λ rl : ResourceLogs, service_names (rl_resource rl)) <$> resource_logs batch)) ++
      match distinct_texts (filter (λ s, s ≠ []) (lr_severity_text <$> records)) with
      | [] => []
      | ds => [key_value_line "Severity:" (list_text ds)]
      end
  end.
Definition render_otlp_metrics_lines (detail : DetailRecord) : list (text * text) :=
  match decode_metrics (detail_payload detail) with
  | Err _ => failed_line "OTLP metrics: "
  | Ok batch =>
      let metrics := all_entries batch in
      [key_value_line "OTLP kind:" (str "metrics"); key_value_line "Resources:" (count_text (length batch));
       key_value_line "Metrics:" (count_text (length metrics)); key_value_line "Datapoints:" (count_text (sum_list (data_points <$> metrics)))] ++
      services_line (concat (service_names <$> (ro_resource <$> batch)))
  end.
Definition render_otlp_traces_lines (detail : DetailRecord) : list (text * text) :=
  match decode_traces (detail_payload detail) with
  | Err _ => failed_line "OTLP traces: "
  | Ok batch =>
      [key_value_line "OTLP kind:" (str "traces"); key_value_line "Resources:" (count_text (length batch));
       key_value_line "Spans:" (count_text (length (all_entries batch)))] ++
      services_line (concat (service_names <$> (ro_resource <$> batch)))
  end.
Definition render_otlp_lines (detail : DetailRecord) : list (text * text) :=
  match em_record_type (detail_meta detail) with
  | Logs => render_otlp_log_lines detail
  | Metrics => render_otlp_metrics_lines detail
  | Traces => render_otlp_traces_lines detail
  | Events => []
  end.
Definition render_detail_lines (detail : DetailRecord) (hex_payload : bool) : list (text * text) :=
  let meta := detail_meta detail in
  let lines :=
    [key_value_line "Record type:" (record_kind_label (em_record_type meta)); key_value_line "Sequence:" (u64_to_string (em_seq meta));
     key_value_line "Timestamp:" (format_timestamp (em_ts_unix_ns meta));
     key_value_line "Payload:" (u64_to_string (em_payload_len meta) ++ str " bytes"); key_value_line "" []] ++ render_otlp_lines detail in
  if decide (length lines = 5)%nat then
    lines ++ [key_value_line "Preview:" (if hex_payload then hex_preview (detail_payload detail) 64
                                         else preview (detail_payload detail) DETAIL_PREVIEW_BYTES)]
  else lines.

(** ** Rows of JSON

    The viewer has rows of its own; for metrics and spans they are not those of the export command. *)

Fixpoint view_tree_to_json (v : ValueTree) : option JsonValue :=
  match v with
  | TreeString s => Some (JsonString s)
  | TreeStrindex => None
  | TreeBool b => Some (JsonBool b)
  | TreeInt n => Some (JsonInt n)
  | TreeDouble d => json_f64 d
  | TreeBytes b => Some (JsonString (str "<" ++ u64_to_string (len b) ++ str " bytes>"))
  | TreeArray l => Some (JsonArray (omap view_tree_to_json l))
  | TreeKvlist l =>
      Some (object ((fix collect (l : list (text * option ValueTree)) (m : JsonMap) : JsonMap :=
        match l with
        | [] => m
        | (k, Some v) :: l =>
            match view_tree_to_json v with
            | Some j => collect l (<[replace_text [46] [95] k := j]> m)
            | None => collect l m
            end
        | (_, None) :: l => collect l m
        end) l ∅))
  | TreeNone => None
  end.
Definition view_flatten_attr (target : JsonMap) (attr : KeyValue) : JsonMap :=
  let key := replace_text [46] [95] (kv_key attr) in
  if decide (is_Some (target !! key)) then target else
  match kv_value attr with
  | None => target
  | Some value => match view_tree_to_json (tree_of value) with Some json => <[key := json]> target | None => target end
  end.
Definition view_put_attrs (r : option ResourceMessage) (s : option InstrumentationScope) (attrs : list KeyValue) (obj : JsonMap) : JsonMap :=
  foldl view_flatten_attr (foldl view_flatten_attr (foldl view_flatten_attr obj (resource_attrs_of r)) (scope_attrs_of s)) attrs.

Definition insert_otlp_log_fields (target : JsonMap) (lr : LogRecordMessage) (fallback_ts_unix_ns : Z) : JsonMap :=
  let obj := put "body" (JsonString (default [] (format_any_value <$> lr_body lr))) target in
  let obj := put "timestamp" (JsonString (format_timestamp (Z.max (lr_time_unix_nano lr) fallback_ts_unix_ns))) obj in
  let obj := put_time "observed_timestamp" (lr_observed_time_unix_nano lr) obj in
  let obj := put_if (negb (lr_severity_number lr =? 0)) "severity_number" (JsonInt (lr_severity_number lr)) obj in
  let obj := put_text "severity_text" (lr_severity_text lr) obj in
  let obj := put_if (negb (lr_flags lr =? 0)) "flags" (JsonInt (lr_flags lr)) obj in
  let obj := put_text "event_name" (lr_event_name lr) obj in
  let obj := put_text "trace_id" (hex_encode (lr_trace_id lr)) obj in
  put_text "span_id" (hex_encode (lr_span_id lr)) obj.
Definition view_log_row (ts_unix_ns : Z) (r : option ResourceMessage) (s : option InstrumentationScope) (lr : LogRecordMessage) : JsonMap :=
  view_put_attrs r s (lr_attributes lr) (insert_otlp_log_fields (put_scope s ∅) lr ts_unix_ns).

Definition view_metric_head (m : MetricMessage) (kind : string) : JsonMap :=
  put "metric_type" (JsonString (str kind)) (put_text "metric_unit" (metric_unit m)
    (put_text "metric_description" (metric_description m) (put "metric_name" (JsonString (metric_name m)) ∅))).
Definition put_timestamp (name : string) (ts : Z) (obj : JsonMap) : JsonMap := put name (JsonString (format_timestamp ts)) obj.
(** A sum that is not finite is written as [0]. *)
Definition view_put_sum (sum : F64) (obj : JsonMap) : JsonMap := put "sum" (default (JsonInt 0) (json_f64 sum)) obj.
Definition view_metric_rows (r : option ResourceMessage) (s : option InstrumentationScope) (m : MetricMessage) : list JsonMap :=
  match metric_points m with
  | Some (GaugePoints dps) =>
      (λ dp, view_put_attrs r s (np_attributes dp)
        (put_value (np_value dp) (put_timestamp "timestamp" (np_time_unix_nano dp) (view_metric_head m "Gauge")))) <$> dps
  | Some (SumPoints dps monotonic temporality) =>
      (λ dp, view_put_attrs r s (np_attributes dp)
        (put_value (np_value dp) (put_time "start_time" (np_start_time_unix_nano dp) (put_timestamp "timestamp" (np_time_unix_nano dp)
          (put "aggregation_temporality" (JsonString (i64_to_string temporality)) (put "is_monotonic" (JsonBool monotonic)
            (view_metric_head m "Sum"))))))) <$> dps
  | Some (HistogramPoints dps _) =>
      (λ dp, view_put_attrs r s (hp_attributes dp)
        (match hp_sum dp with Some sum => view_put_sum sum | None => id end (put "count" (JsonInt (hp_count dp))
          (put_timestamp "timestamp" (hp_time_unix_nano dp) (view_metric_head m "Histogram"))))) <$> dps
  | Some (ExponentialHistogramPoints dps _) =>
      (λ dp, view_put_attrs r s (hp_attributes dp)
        (put "scale" (JsonInt (hp_scale dp)) (put "count" (JsonInt (hp_count dp))
          (put_timestamp "timestamp" (hp_time_unix_nano dp) (view_metric_head m "ExponentialHistogram"))))) <$> dps
  | Some (SummaryPoints dps) =>
      (λ dp, view_put_attrs r s (sp_attributes dp)
        (view_put_sum (sp_sum dp) (put "count" (JsonInt (sp_count dp))
          (put_timestamp "timestamp" (sp_time_unix_nano dp) (view_metric_head m "Summary"))))) <$> dps
  | None => []
  end.

Definition view_span_fields (s : option InstrumentationScope) (span : SpanFields) : JsonMap :=
  let obj := put_text "span_id" (hex_encode (sf_span_id span)) (put_text "trace_id" (hex_encode (sf_trace_id span)) ∅) in
  let obj := put_text "parent_span_id" (hex_encode (sf_parent_span_id span)) obj in
  let obj := put "kind" (JsonString (format_span_kind (sf_kind span))) (put "name" (JsonString (sf_name span)) obj) in
  let obj := put_timestamp "end_time" (sf_end_time_unix_nano span) (put_timestamp "start_time" (sf_start_time_unix_nano span) obj) in
  let obj := put_if (sf_start_time_unix_nano span <? sf_end_time_unix_nano span) "duration_ns"
               (JsonInt (sf_end_time_unix_nano span - sf_start_time_unix_nano span)) obj in
  let obj := match sf_status span with
             | Some (code, message) => put_text "status_message" message (put "status_code" (JsonInt code) obj)
             | None => obj
             end in
  put_scope s (put_text "trace_state" (sf_trace_state span) obj).
Definition view_span_row (r : option ResourceMessage) (s : option InstrumentationScope) (span : SpanFields) : JsonMap :=
  view_put_attrs r s (sf_attributes span) (view_span_fields s span).

Definition view_opaque_row (detail : DetailRecord) : JsonMap :=
  put "payload" (JsonString (from_utf8_lossy (detail_payload detail)))
    (put "timestamp" (JsonString (format_timestamp (em_ts_unix_ns (detail_meta detail)))) ∅).
Definition view_logs_rows (detail : DetailRecord) : list JsonMap :=
  match decode_logs (detail_payload detail) with
  | Err _ => [view_opaque_row detail]
  | Ok batch =>
      concat ((λ rl : ResourceLogs, concat ((λ sl : ScopeLogs,
        view_log_row (em_ts_unix_ns (detail_meta detail)) (rl_resource rl) (sl_scope sl) <$> log_records sl) <$> scope_logs rl)) <$> resource_logs batch)
  end.
Definition view_metrics_rows (detail : DetailRecord) : list JsonMap :=
  match decode_metrics (detail_payload detail) with
  | Err _ => [view_opaque_row detail]
  | Ok batch => concat ((λ rm, concat ((λ sm, concat (view_metric_rows (ro_resource rm) (so_scope sm) <$> so_entries sm)) <$> ro_scopes rm)) <$> batch)
  end.
Definition view_traces_rows (detail : DetailRecord) : list JsonMap :=
  match decode_traces (detail_payload detail) with
  | Err _ => [view_opaque_row detail]
  | Ok batch => concat ((λ rs, concat ((λ ss, view_span_row (ro_resource rs) (so_scope ss) <$> so_entries ss) <$> ro_scopes rs)) <$> batch)
  end.
Definition export_ndjson_objects (detail : DetailRecord) : list JsonMap :=
  match em_record_type (detail_meta detail) with
  | Logs => view_logs_rows detail
  | Metrics => view_metrics_rows detail
  | Traces => view_traces_rows detail
  | Events => [put "record_type" (JsonString (record_kind_label Events)) (view_opaque_row detail)]
  end.
End Detail.

(** ** The table accounts for every attribute *)

Section Facts.
Context {OP : OtlpParts} {FL : Floats} {VT : ValueTrees} {LC : LogsCodec} {SC : SignalCodec} {JT : JsonText}.

Lemma add_attributes_spec es done omitted :
  (omitted = length done - MODAL_ATTR_ENTRY_LIMIT_PER_KIND)%nat →
  foldl add_attribute (take MODAL_ATTR_ENTRY_LIMIT_PER_KIND done, omitted) es =
  (take MODAL_ATTR_ENTRY_LIMIT_PER_KIND (done ++ es), (length (done ++ es) - MODAL_ATTR_ENTRY_LIMIT_PER_KIND)%nat).
Proof.
  revert done omitted. induction es as [|e es IH]; intros done omitted Ho; [by rewrite app_nil_r, Ho|].
  rewrite cons_middle, app_assoc. rewrite <- (IH (done ++ [e]) (length (done ++ [e]) - MODAL_ATTR_ENTRY_LIMIT_PER_KIND)%nat) by done.
  cbn [foldl]. f_equal. unfold add_attribute. rewrite length_take, length_app. cbn [length]. case_decide.
  - rewrite !take_ge by (rewrite ?length_app; cbn [length]; lia). f_equal. lia.
  - rewrite (take_app_le done) by lia. f_equal. lia.
Qed.
Lemma push_attributes_spec kind attrs :
  let all := concat (attribute_entries kind <$> attrs) in
  foldl (push_modal_attribute_entry kind) ([], O) attrs =
  (take MODAL_ATTR_ENTRY_LIMIT_PER_KIND all, (length all - MODAL_ATTR_ENTRY_LIMIT_PER_KIND)%nat).
Proof.
  cbv zeta. rewrite <- (app_nil_l (concat _)). rewrite <- (add_attributes_spec _ [] 0) by done. rewrite take_nil.
  generalize (@nil (text * text * text), O). induction attrs as [|a attrs IH]; intros acc; [done|].
  cbn. rewrite foldl_app. apply IH.
Qed.
(** The table shows the first entries of the attributes of a kind, at most 32, in order, and when there are
    more it says how many. *)
Theorem attributes_accounted kind attrs :
  let all := flatten_modal_entries (concat (attribute_entries kind <$> attrs)) in
  attributes_fields kind attrs =
  take 32 all ++
  if decide (length all ≤ 32)%nat then []
  else [(str kind ++ str ".attrs.more", count_text (length all - 32) ++ str " not shown")].
Proof.
  cbv zeta. unfold attributes_fields. rewrite push_attributes_spec. unfold flatten_modal_entries. rewrite fmap_take, length_fmap.
  unfold MODAL_ATTR_ENTRY_LIMIT_PER_KIND. f_equal. repeat case_decide; lia || done.
Qed.

(** ** The rows of a log are those of the export *)

(** No string by index, which the viewer leaves out and the command writes as [null] *)
Fixpoint strindex_free (v : ValueTree) : bool :=
  match v with
  | TreeStrindex => false
  | TreeArray l => forallb strindex_free l
  | TreeKvlist l => forallb (λ kv, match kv.2 with Some v => strindex_free v | None => true end) l
  | _ => true
  end.
Definition attrs_free (attrs : list KeyValue) : Prop :=
  Forall (λ a, match kv_value a with Some v => strindex_free (tree_of v) = true | None => True end) attrs.
Definition request_free (batch : ExportLogsServiceRequest) : Prop :=
  Forall (λ rl : ResourceLogs, attrs_free (resource_attrs_of (rl_resource rl)) ∧
    Forall (λ sl : ScopeLogs, attrs_free (scope_attrs_of (sl_scope sl)) ∧
      Forall (λ lr : LogRecordMessage, attrs_free (lr_attributes lr)) (log_records sl)) (scope_logs rl)) (resource_logs batch).

Lemma view_tree_same : ∀ v, strindex_free v = true → view_tree_to_json v = tree_to_json None v.
Proof.
  fix IH 1. intros [s| |b|n|d|b|l|l|]; cbn; try done.
  - intros H. do 2 f_equal. revert H. induction l as [|v l IHl]; [done|]. cbn. intros [Hv Hl]%andb_true_iff.
    rewrite (IH v Hv). by rewrite IHl.
  - intros H. do 2 f_equal. generalize (∅ : JsonMap). revert H. induction l as [|[k [v|]] l IHl]; [done| |]; cbn; intros H m.
    + apply andb_true_iff in H as [Hv Hl]. rewrite (IH v Hv). destruct (tree_to_json None v); by apply IHl.
    + by apply IHl.
Qed.
Lemma view_flatten_same target attrs : attrs_free attrs → foldl view_flatten_attr target attrs = flatten_otlp_attrs_into_json None target attrs.
Proof.
  unfold flatten_otlp_attrs_into_json. intros H. revert target. induction H as [|a attrs Ha H IH]; intros target; [done|]. cbn.
  rewrite IH. f_equal. unfold view_flatten_attr, flatten_attr. case_decide; [done|]. destruct (kv_value a) as [v|]; [|done].
  unfold any_value_to_json. by rewrite view_tree_same.
Qed.
Lemma view_log_row_same ts r s lr :
  attrs_free (resource_attrs_of r) → attrs_free (scope_attrs_of s) → attrs_free (lr_attributes lr) →
  view_log_row ts r s lr = log_row None ts r s lr.
Proof. intros Hr Hs Ha. unfold view_log_row, log_row, view_put_attrs, put_attrs. by rewrite !view_flatten_same. Qed.
Lemma fmap_concat_ext {A B} (f g : A → list B) l : Forall (λ a, f a = g a) l → concat (f <$> l) = concat (g <$> l).
Proof. intros H. f_equal. induction H as [|a l Ha H IH]; [done|]. cbn. by rewrite Ha, IH. Qed.

(** What the viewer writes for a record of logs or events is what the export command writes
    for it without previews or a choice of fields. *)
Theorem view_rows_as_exported detail :
  match em_record_type (detail_meta detail) with
  | Logs => match decode_logs (detail_payload detail) with Ok batch => request_free batch | Err _ => True end
  | Events => True
  | _ => False
  end →
  object <$> export_ndjson_objects detail =
  export_ndjson_objects_with_preview None
    (mkRecord (em_record_type (detail_meta detail)) (em_seq (detail_meta detail)) (em_ts_unix_ns (detail_meta detail)) (detail_payload detail)) [].
Proof.
  unfold export_ndjson_objects, export_ndjson_objects_with_preview, record_rows. cbn [record_type].
  destruct (em_record_type (detail_meta detail)); try done. intros H. f_equal.
  unfold view_logs_rows, export_logs_ndjson. cbn [payload ts_unix_ns].
  destruct (decode_logs (detail_payload detail)) as [batch|]; [|done].
  apply fmap_concat_ext. eapply list.Forall_impl; [exact H|]. intros rl [Hr Hrl]. cbv beta.
  apply fmap_concat_ext. eapply list.Forall_impl; [exact Hrl|]. intros sl [Hs Hsl]. cbv beta.
  apply list_fmap_ext. intros i lr Hi. apply view_log_row_same; [done..|]. by eapply (Forall_lookup_1 _ _ i) in Hsl.
Qed.

(** A payload that is no request: the lines say that a raw preview follows, and there is none. *)
Theorem raw_preview_missing detail hex_payload e :
  em_record_type (detail_meta detail) = Logs → decode_logs (detail_payload detail) = Err e →
  let lines := render_detail_lines detail hex_payload in
  list.last lines = Some (str "OTLP logs: ", str "payload decode failed; showing raw preview") ∧ str "Preview:" ∉ lines.*1.
Proof.
  intros Ht He. cbv zeta. unfold render_detail_lines, render_otlp_lines, render_otlp_log_lines. rewrite Ht, He.
  split; [done|]. cbn [app length]. rewrite decide_False by done. cbn [fmap list_fmap fst key_value_line].
  apply (bool_decide_unpack _). by vm_compute.
Qed.
End Facts.
