(* ===== verification/ViewApp.v ===== *)
(** * The viewer

    [ljx/src/commands/view/app.rs] with the text fields of [text.rs] and the ranges of
    [detail.rs]: what the interactive viewer does on a key and on what its workers send.
    The fields of [ViewApp] are grouped into records, text that is only shown (the status
    line, messages and progress) is left out, and of the text of the detail window the
    record it renders is kept.  What the operating system answers during an event is an
    argument of its handler; the files written and the threads started are kept in a log. *)

From stdpp Require Import sorting.
From S2P Require Import Prelude Text Tokens Format Writer Reader Scan Otlp FlatRecord Canon Cel Predicate Dedup DatasetIndex ViewScan Dataset Exporter.

(** ** Text fields: characters with a cursor between them *)

Record Field : Type := mkField { fd_text : list Z; fd_cursor : nat }.
Definition insert_char_at (ch : Z) (f : Field) : Field :=
  mkField (take (fd_cursor f) (fd_text f) ++ ch :: drop (fd_cursor f) (fd_text f)) (S (fd_cursor f)).
Definition delete_char_before (f : Field) : Field :=
  match fd_cursor f with
  | O => f
  | S c => mkField (take c (fd_text f) ++ drop (S c) (fd_text f)) c
  end.
Definition delete_char_at (f : Field) : Field :=
  if decide (length (fd_text f) ≤ fd_cursor f)%nat then f
  else mkField (take (fd_cursor f) (fd_text f) ++ drop (S (fd_cursor f)) (fd_text f)) (fd_cursor f).
Definition at_end (s : list Z) : Field := mkField s (length s).
Definition set_cursor (c : nat) (f : Field) : Field := mkField (fd_text f) c.

(** ** Ranges *)

Definition eq_ignore_ascii_case (a b : text) : bool := bool_decide (to_ascii_lowercase a = to_ascii_lowercase b).
Definition is_word (words : list string) (s : text) : bool := existsb (λ w, eq_ignore_ascii_case s (str w)) words.
(** [None] stands for the messages about a range that cannot be read. *)
Definition parse_export_selection (input : text) (total selected : Z) : option (Z * Z) :=
  let trimmed := trim_text input in
  if bool_decide (trimmed = []) then None else
  if is_word ["all"; "a"]%string trimmed then Some (0, total) else
  if is_word ["current"; "c"]%string trimmed || bool_decide (trimmed = str "0") then
    if total =? 0 then Some (0, 0) else let current := Z.min selected (total - 1) in Some (current, current + 1)
  else
  match split_once 45 trimmed with
  | Some (a, b) =>
      match parse_u64 (trim_text a), parse_u64 (trim_text b) with
      | Ok start, Ok end_ =>
          if (start =? 0) || (end_ =? 0) then None else
          if end_ <? start then None else
          if total <? start then Some (total, total) else Some (start - 1, Z.min end_ total)
      | _, _ => None
      end
  | None =>
      match parse_u64 trimmed with
      | Ok amount => if amount =? 0 then None else Some (0, Z.min amount total)
      | Err _ => None
      end
  end.

(** ** State *)

Inductive Focus : Type :=
| FocusSearch | FocusList | FocusModal | FocusFieldFilter | FocusSavePrompt | FocusSaveError | FocusExportPrompt
| FocusExportError | FocusExportProgress | FocusDedupPrompt | FocusDedupProgress.
#[export] Instance Focus_eq_dec : EqDecision Focus.
Proof. solve_decision. Defined.
Inductive ExportField : Type := FieldFormat | FieldFilename | FieldRange.
#[export] Instance ExportField_eq_dec : EqDecision ExportField.
Proof. solve_decision. Defined.
#[export] Instance ViewOrder_eq_dec : EqDecision ViewOrder.
Proof. solve_decision. Defined.

(** The list and the record shown beside it *)
Record Listing : Type := mkListing {
  entries : list EntryMeta; selected : nat; list_offset : nat; selected_detail : option DetailRecord; detail_scroll : Z }.
(** The window with one record: the record whose text it shows *)
Record Modal : Type := mkModal { modal_text : option DetailRecord; modal_scroll : Z; modal_info_visible : bool; details_visible : bool }.
Record ActiveScan : Type := mkActiveScan { as_scanned : Z; as_matched : Z; as_finished : bool }.
Record Tail : Type := mkTail { tail_on_launch : bool; tail_mode : bool; tail_marker_index : option nat; tail_attached : bool }.
Record ExportPrompt : Type := mkExportPrompt {
  export_formats : list text; export_format_index : nat; export_filename : Field; export_range : Field;
  export_field : ExportField; export_running : bool }.
Record DedupPrompt : Type := mkDedupPrompt {
  dedup_filename : list Z; dedup_behavior : DedupMode; dedup_match_mode : DedupMatchMode;
  dedup_output_path : option text; dedup_running : bool; dedup_completed : bool }.
Record FieldFilterState : Type := mkFieldFilterState {
  panel : nat; severity_cursor : nat; service_cursor : nat; severity_scroll : Z; service_scroll : Z;
  filter_text : list Z; selected_severities : list text; selected_services : list text }.

Section App.
Context {OP : OtlpParts} {FL : Floats} {VT : ValueTrees} {LC : LogsCodec} {SC : SignalCodec} {CE : CelEngine} {MA : Matchers} {AP : ArgParser}.
Context {EX : Externals}.
(** [str::to_lowercase] *)
Context (to_lowercase : text → text).

(** What an event leaves behind outside of the state. *)
Inductive Effect : Type :=
| ScanStarted (paths : list text) (order : ViewOrder) (p : RecordPredicate)
| ScanCancelled
| TailStarted (p : RecordPredicate)
| TailStopped
| LogWritten (path : text) (data : list Z)
| RowsWritten (path : text) (details : list DetailRecord)
| ExportStarted (format path : text) (input : list Z) (rows : Z)
| DedupStarted (input : option (list Z)) (path : text) (mode : DedupMode) (match_mode : DedupMatchMode).

Record ViewApp : Type := mkViewApp {
  va_paths : list text;
  view_order : ViewOrder;
  focus : Focus;
  filter_mode : FilterMode;
  query_input : list Z;
  applied_query : text;
  listing : Listing;
  modal : Modal;
  save_filename : Field;
  export_prompt : ExportPrompt;
  dedup_prompt : DedupPrompt;
  current_scan : option ActiveScan;
  tail : Tail;
  field_filter_state : option FieldFilterState;
  active_field_filter : FieldFilter;
  effects : list Effect;
}.

(** What the system answers while an event is handled: opening files, the bytes of the
    spool, the catalogue of fields, which paths exist, the formats the exporters offer, the height of the
    screen, and the dataset of a file. *)
Record Env : Type := mkEnv {
  en_open : result IoError unit;
  en_spool : list Z;
  en_catalog : option (list text * list text);
  en_exists : text → bool;
  en_formats : list text;
  en_screen_height : Z;
  en_dataset : text → result DatasetError (list text);
}.

Inductive AppFault : Type :=
| AppPanic
| AppQuery (e : QueryError)
| AppIo (e : IoError)
| AppRead (e : Error)
| AppDataset (e : DatasetError)
| AppNoScan.

Abbreviation AM := (M ViewApp AppFault).

Definition set_focus (f : Focus) (s : ViewApp) : ViewApp :=
  mkViewApp (va_paths s) (view_order s) f (filter_mode s) (query_input s) (applied_query s) (listing s) (modal s) (save_filename s)
    (export_prompt s) (dedup_prompt s) (current_scan s) (tail s) (field_filter_state s) (active_field_filter s) (effects s).
Definition set_query (mode : FilterMode) (query : list Z) (s : ViewApp) : ViewApp :=
  mkViewApp (va_paths s) (view_order s) (focus s) mode query (applied_query s) (listing s) (modal s) (save_filename s)
    (export_prompt s) (dedup_prompt s) (current_scan s) (tail s) (field_filter_state s) (active_field_filter s) (effects s).
Definition set_applied (query : text) (s : ViewApp) : ViewApp :=
  mkViewApp (va_paths s) (view_order s) (focus s) (filter_mode s) (query_input s) query (listing s) (modal s) (save_filename s)
    (export_prompt s) (dedup_prompt s) (current_scan s) (tail s) (field_filter_state s) (active_field_filter s) (effects s).
Definition set_listing (x : Listing) (s : ViewApp) : ViewApp :=
  mkViewApp (va_paths s) (view_order s) (focus s) (filter_mode s) (query_input s) (applied_query s) x (modal s) (save_filename s)
    (export_prompt s) (dedup_prompt s) (current_scan s) (tail s) (field_filter_state s) (active_field_filter s) (effects s).
Definition set_modal (x : Modal) (s : ViewApp) : ViewApp :=
  mkViewApp (va_paths s) (view_order s) (focus s) (filter_mode s) (query_input s) (applied_query s) (listing s) x (save_filename s)
    (export_prompt s) (dedup_prompt s) (current_scan s) (tail s) (field_filter_state s) (active_field_filter s) (effects s).
Definition set_save (x : Field) (s : ViewApp) : ViewApp :=
  mkViewApp (va_paths s) (view_order s) (focus s) (filter_mode s) (query_input s) (applied_query s) (listing s) (modal s) x
    (export_prompt s) (dedup_prompt s) (current_scan s) (tail s) (field_filter_state s) (active_field_filter s) (effects s).
Definition set_export (x : ExportPrompt) (s : ViewApp) : ViewApp :=
  mkViewApp (va_paths s) (view_order s) (focus s) (filter_mode s) (query_input s) (applied_query s) (listing s) (modal s) (save_filename s)
    x (dedup_prompt s) (current_scan s) (tail s) (field_filter_state s) (active_field_filter s) (effects s).
Definition set_dedup (x : DedupPrompt) (s : ViewApp) : ViewApp :=
  mkViewApp (va_paths s) (view_order s) (focus s) (filter_mode s) (query_input s) (applied_query s) (listing s) (modal s) (save_filename s)
    (export_prompt s) x (current_scan s) (tail s) (field_filter_state s) (active_field_filter s) (effects s).
Definition set_scan (x : option ActiveScan) (s : ViewApp) : ViewApp :=
  mkViewApp (va_paths s) (view_order s) (focus s) (filter_mode s) (query_input s) (applied_query s) (listing s) (modal s) (save_filename s)
    (export_prompt s) (dedup_prompt s) x (tail s) (field_filter_state s) (active_field_filter s) (effects s).
Definition set_tail (x : Tail) (s : ViewApp) : ViewApp :=
  mkViewApp (va_paths s) (view_order s) (focus s) (filter_mode s) (query_input s) (applied_query s) (listing s) (modal s) (save_filename s)
    (export_prompt s) (dedup_prompt s) (current_scan s) x (field_filter_state s) (active_field_filter s) (effects s).
Definition set_filter (x : option FieldFilterState) (f : FieldFilter) (s : ViewApp) : ViewApp :=
  mkViewApp (va_paths s) (view_order s) (focus s) (filter_mode s) (query_input s) (applied_query s) (listing s) (modal s) (save_filename s)
    (export_prompt s) (dedup_prompt s) (current_scan s) (tail s) x f (effects s).
Definition set_paths (x : list text) (s : ViewApp) : ViewApp :=
  mkViewApp x (view_order s) (focus s) (filter_mode s) (query_input s) (applied_query s) (listing s) (modal s) (save_filename s)
    (export_prompt s) (dedup_prompt s) (current_scan s) (tail s) (field_filter_state s) (active_field_filter s) (effects s).
Definition emit (x : Effect) (s : ViewApp) : ViewApp :=
  mkViewApp (va_paths s) (view_order s) (focus s) (filter_mode s) (query_input s) (applied_query s) (listing s) (modal s) (save_filename s)
    (export_prompt s) (dedup_prompt s) (current_scan s) (tail s) (field_filter_state s) (active_field_filter s) (effects s ++ [x]).

(** [u16] arithmetic, wrapping as in a release build; only a panel with more than 65534
    values gets there. *)
Definition u16 (z : Z) : Z := z mod 65536.
Definition scroll_by (delta : Z) (z : Z) : Z := Z.max 0 (Z.min MAX_U16 (z + delta)).

Definition ViewApp_new (paths : list text) (order : ViewOrder) (on_launch : bool) (formats : list text) : ViewApp :=
  mkViewApp paths order FocusSearch ModeCel [] [] (mkListing [] 0 0 None 0) (mkModal None 0 false false) (mkField [] 0)
    (mkExportPrompt formats 0 (mkField [] 0) (mkField (str "all") 3) FieldFormat false) (mkDedupPrompt [] Distinct Hash2 None false false)
    None (mkTail on_launch false None false) None FieldFilter_default [].

(** ** The dataset *)

Definition dataset_is_stdin (paths : list text) : bool := match paths with [p] => bool_decide (p = [45]) | _ => false end.
Definition output_dir (paths : list text) : text :=
  match omap path_parent (filter (λ p, p ≠ [45]) paths) with
  | [] => [46]
  | first :: parents => if forallb (path_eqb first) parents then first else [46]
  end.
Definition default_stem (paths : list text) (fallback : text) : text :=
  match paths with [p] => default fallback (file_stem p) | _ => str "dataset" end.
(** The path an output gets; [None] when there is something there already. *)
Definition output_path (env : Env) (s : ViewApp) (filename : text) : option text :=
  let path := path_join (output_dir (va_paths s)) filename in
  if existsb (path_eqb path) (va_paths s) || en_exists env path then None else Some path.

(** [discover_export_format_choices] *)
Definition format_choices (env : Env) : list text := str "ndjson" :: dedup_paths (merge_sort text_le (filter (λ f, f ≠ str "ndjson") (en_formats env))).

Definition of_fault {A} (r : result Fault A) : result AppFault A :=
  map_err (λ f, match f with Failed e => AppRead e | Panicked => AppPanic end) r.

(** ** Scanning *)

Definition cancel_scan : AM unit := λ s, (Ok tt, match current_scan s with Some _ => emit ScanCancelled s | None => s end).
Definition stop_tail_mode : AM unit := modify (λ s,
  let s := if tail_attached (tail s) then emit TailStopped s else s in
  set_tail (mkTail (tail_on_launch (tail s)) false None false) s).

Definition query_predicate (s : ViewApp) : result AppFault RecordPredicate :=
  let? p := map_err AppQuery (parse_filter_query (applied_query s) (filter_mode s)) in
  let 'mkPredicate a b c d e f g _ := p in Ok (mkPredicate a b c d e f g (active_field_filter s)).
Definition opened (env : Env) : AM unit := lift (map_err AppIo (en_open env)).

(** Everything about the previous results is forgotten before the query is looked at. *)
Definition forget_results : AM unit := modify (λ s,
  let s := match current_scan s with Some _ => set_scan None (emit ScanCancelled s) | None => s end in
  let s := set_listing (mkListing [] 0 0 None 0) s in
  let s := set_modal (mkModal None 0 (modal_info_visible (modal s)) (details_visible (modal s))) s in
  set_focus FocusList (set_applied (string_of_chars (query_input s)) s)).
Definition apply_filter (env : Env) : AM unit :=
  stop_tail_mode ;;!
  forget_results ;;!
  let! s := gets id in
  let! p := lift (query_predicate s) in
  opened env ;;!
  modify (λ s, set_scan (Some (mkActiveScan 0 0 false)) (emit (ScanStarted (va_paths s) (view_order s) p) s)).

(** ** The list *)

Definition refresh_selected_detail (env : Env) : AM unit := λ s,
  let l := listing s in
  match entries l with
  | [] => (Ok tt, set_listing (mkListing [] (selected l) (list_offset l) None (detail_scroll l)) s)
  | _ :: _ =>
      match current_scan s with
      | None => (Err AppNoScan, s)
      | Some _ =>
          match entries l !! selected l with
          | None => (Err AppPanic, s)
          | Some meta =>
              match of_fault (read_spool_record (en_spool env) meta) with
              | Err e => (Err e, s)
              | Ok d =>
                  let s := set_listing (mkListing (entries l) (selected l) (list_offset l) (Some d) 0) s in
                  (Ok tt, if decide (focus s = FocusModal)
                          then set_modal (mkModal (Some d) 0 (modal_info_visible (modal s)) (details_visible (modal s))) s else s)
              end
          end
      end
  end.
Definition select (i offset : nat) (s : ViewApp) : ViewApp :=
  set_listing (mkListing (entries (listing s)) i offset (selected_detail (listing s)) (detail_scroll (listing s))) s.
Definition move_selection (env : Env) (delta : Z) : AM unit :=
  let! l := gets listing in
  if bool_decide (entries l = []) then ret tt else
  let next := Z.to_nat (Z.max 0 (Z.min (Z.of_nat (selected l) + delta) (len (entries l) - 1))) in
  if decide (next = selected l) then ret tt
  else modify (select next (list_offset l)) ;;! refresh_selected_detail env.
Definition select_last (env : Env) : AM unit :=
  let! l := gets listing in
  if bool_decide (entries l = []) then ret tt
  else modify (select (length (entries l) - 1) (list_offset l)) ;;! refresh_selected_detail env.

Definition open_modal : AM unit := modify (λ s,
  match selected_detail (listing s) with
  | None => s
  | Some d => set_focus FocusModal (set_modal (mkModal (Some d) 0 (modal_info_visible (modal s)) (details_visible (modal s))) s)
  end).

Definition start_tail_mode (env : Env) : AM unit := λ s,
  if negb (length (va_paths s) =? 1)%nat then (Ok tt, s) else
  if negb (bool_decide (view_order s = Concat)) then (Ok tt, s) else
  if dataset_is_stdin (va_paths s) then (Ok tt, s) else
  match current_scan s with
  | None => (Ok tt, s)
  | Some scan =>
      if negb (as_finished scan) then (Ok tt, s) else
      if tail_mode (tail s) then (Ok tt, s) else
      (let! p := lift (query_predicate s) in
       opened env ;;!
       modify (λ s, set_tail (mkTail (tail_on_launch (tail s)) true
                      (match entries (listing s) with [] => None | l => Some (length l - 1)%nat end) true) (emit (TailStarted p) s)) ;;!
       select_last env) s
  end.

(** ** Saving and exporting *)

Definition collect_details (env : Env) (metas : list EntryMeta) : result AppFault (list DetailRecord) :=
  foldr (λ meta acc, let? d := of_fault (read_spool_record (en_spool env) meta) in let? ds := acc in Ok (d :: ds)) (Ok []) metas.
Definition open_save_prompt : AM unit := modify (λ s,
  match current_scan s with
  | Some scan => if as_finished scan
                 then set_focus FocusSavePrompt (set_save (at_end (if bool_decide (fd_text (save_filename s) = []) then str "filtered.logjet" else fd_text (save_filename s))) s)
                 else s
  | None => s
  end).
Definition save_current_results (env : Env) : AM unit := λ s,
  let filename := trim_text (string_of_chars (fd_text (save_filename s))) in
  if bool_decide (filename = []) then (Ok tt, s) else
  if bool_decide (47 ∈ filename) then (Ok tt, s) else
  match current_scan s, output_path env s filename with
  | None, _ => (Ok tt, s)
  | Some _, None => (Ok tt, set_focus FocusSaveError s)
  | Some _, Some path =>
      (opened env ;;!
       let! out := lift (of_fault (write_export_selection (en_spool env) (entries (listing s)) [])) in
       modify (λ s, set_focus FocusList (emit (LogWritten path out) s))) s
  end.

Definition current_export_format (x : ExportPrompt) : option text :=
  export_formats x !! (export_format_index x `min` (length (export_formats x) - 1))%nat.
Definition rsplit_once (c : Z) (s : list Z) : option (list Z * list Z) :=
  match split_once c (reverse s) with Some (a, b) => Some (reverse b, reverse a) | None => None end.
Definition with_format (x : ExportPrompt) (i : nat) (name : Field) : ExportPrompt :=
  mkExportPrompt (export_formats x) i name (export_range x) (export_field x) (export_running x).
Definition sync_export_filename_extension : AM unit := λ s,
  let x := export_prompt s in
  let name := fd_text (export_filename x) in
  if bool_decide (trim_text (string_of_chars name) = []) then (Ok tt, s) else
  match current_export_format x with
  | None => (Err AppPanic, s)
  | Some ext =>
      let stem := match rsplit_once 46 name with Some (stem, _) => stem | None => name end in
      (Ok tt, set_export (with_format x (export_format_index x) (at_end (stem ++ 46 :: chars_of ext))) s)
  end.
Definition cycle_export_format (delta : Z) : AM unit := λ s,
  let x := export_prompt s in
  if bool_decide (export_formats x = []) then (Ok tt, s) else
  let i := Z.to_nat ((Z.of_nat (export_format_index x) + delta) mod len (export_formats x)) in
  sync_export_filename_extension (set_export (with_format x i (export_filename x)) s).
Definition open_export_prompt (env : Env) : AM unit := λ s,
  match current_scan s with
  | None => (Ok tt, s)
  | Some scan =>
      if negb (as_finished scan) then (Ok tt, s) else
      let x := export_prompt s in
      let x := mkExportPrompt (format_choices env) (export_format_index x) (export_filename x) (export_range x) (export_field x) (export_running x) in
      match current_export_format x with
      | None => (Err AppPanic, s)
      | Some ext =>
          (modify (set_export x) ;;!
           (if bool_decide (fd_text (export_filename x) = [])
            then modify (set_export (with_format x (export_format_index x) (at_end (chars_of (default_stem (va_paths s) (str "export") ++ str "." ++ ext)))))
            else sync_export_filename_extension) ;;!
           modify (λ s, let x := export_prompt s in
             let range := if bool_decide (fd_text (export_range x) = []) then str "all" else fd_text (export_range x) in
             set_focus FocusExportPrompt (set_export (mkExportPrompt (export_formats x) (export_format_index x) (at_end (fd_text (export_filename x)))
               (at_end range) FieldFormat (export_running x)) s))) s
      end
  end.
Definition export_current_results (env : Env) : AM unit := λ s,
  let x := export_prompt s in
  let filename := trim_text (string_of_chars (fd_text (export_filename x))) in
  if bool_decide (filename = []) then (Ok tt, s) else
  if bool_decide (47 ∈ filename) then (Ok tt, s) else
  let metas := entries (listing s) in
  match parse_export_selection (string_of_chars (fd_text (export_range x))) (len metas) (Z.of_nat (selected (listing s))) with
  | None => (Ok tt, set_focus FocusExportError s)
  | Some (first, last) =>
      match output_path env s filename with
      | None => (Ok tt, set_focus FocusExportError s)
      | Some path =>
          match current_export_format x with
          | None => (Err AppPanic, s)
          | Some format =>
              if negb ((first <=? last) && (last <=? len metas)) then (Err AppPanic, s) else
              let chosen := slice (Z.to_nat first) (Z.to_nat last) metas in
              match current_scan s with
              | None => (Ok tt, s)
              | Some _ =>
                  if bool_decide (format = str "ndjson") then
                    (opened env ;;!
                     let! details := lift (collect_details env chosen) in
                     modify (λ s, set_focus FocusList (emit (RowsWritten path details) s))) s
                  else
                    (opened env ;;!
                     let! input := lift (of_fault (write_export_selection (en_spool env) chosen [])) in
                     modify (λ s, set_focus FocusExportProgress
                       (set_export (mkExportPrompt (export_formats x) (export_format_index x) (export_filename x) (export_range x) (export_field x) true)
                         (emit (ExportStarted format path input (last - first)) s)))) s
              end
          end
      end
  end.

(** ** Deduplication *)

Definition can_dedup (s : ViewApp) : bool :=
  match current_scan s with Some scan => as_finished scan | None => false end && negb (bool_decide (entries (listing s) = [])).
Definition one_real_file (s : ViewApp) : bool := (length (va_paths s) =? 1)%nat && negb (dataset_is_stdin (va_paths s)).
Definition open_dedup_prompt : AM unit := modify (λ s,
  if bool_decide (current_scan s = None) && negb (one_real_file s) then s else
  let d := dedup_prompt s in
  set_focus FocusDedupPrompt (set_dedup (mkDedupPrompt (chars_of (default_stem (va_paths s) (str "output")) ++ str "-dedup.logjet")
    Distinct Hash2 (dedup_output_path d) (dedup_running d) (dedup_completed d)) s)).
(** The file is created without a look at what is there. *)
Definition start_dedup (env : Env) : AM unit := λ s,
  let d := dedup_prompt s in
  let start input := λ s : ViewApp,
    let path := path_join (output_dir (va_paths s)) (string_of_chars (dedup_filename d)) in
    (Ok tt, set_focus FocusDedupProgress (set_dedup (mkDedupPrompt (dedup_filename d) (dedup_behavior d) (dedup_match_mode d) (Some path) true false)
              (emit (DedupStarted input path (dedup_behavior d) (dedup_match_mode d)) s))) in
  if can_dedup s then
    match en_open env, write_export_selection (en_spool env) (entries (listing s)) [] with
    | Ok _, Ok input => start (Some input) s
    | _, Err Panicked => (Err AppPanic, s)
    | _, _ => (Ok tt, set_focus FocusList s)
    end
  else if one_real_file s then start None s
  else (Ok tt, set_focus FocusList s).

Definition DedupMode_next (m : DedupMode) : DedupMode := match m with Distinct => Collapse | Collapse => Distinct end.
Definition DedupMatchMode_next (m : DedupMatchMode) : DedupMatchMode := match m with Exact => Hash2 | Hash2 => Full | Full => Exact end.
Definition DedupMatchMode_prev (m : DedupMatchMode) : DedupMatchMode := match m with Exact => Full | Hash2 => Exact | Full => Hash2 end.

Definition switch_to_file (env : Env) (path : text) : AM unit :=
  cancel_scan ;;!
  modify (set_scan None) ;;!
  let! paths := lift (map_err AppDataset (en_dataset env path)) in
  modify (λ s, set_query (filter_mode s) [] (set_paths paths s)) ;;!
  apply_filter env.

(** ** The filter on services and severities *)

Definition open_field_filter (env : Env) : AM unit := modify (λ s,
  match en_catalog env with
  | None => s
  | Some _ =>
      let f := active_field_filter s in
      set_focus FocusFieldFilter (set_filter (Some (mkFieldFilterState 0 0 0 0 0 [] (default [] (severities f)) (default [] (services f)))) f s)
  end).

Definition toggle (v : text) (l : list text) : list text := if decide (v ∈ l) then filter (λ x, x ≠ v) l else v :: l.
Definition shown (needle : text) (l : list text) : list text :=
  filter (λ x, bool_decide (needle = []) || contains_text (to_lowercase x) needle = true) l.
(** The cursor and the first line of the panel in front *)
Definition in_front (st : FieldFilterState) : nat * Z :=
  if (panel st =? 0)%nat then (severity_cursor st, severity_scroll st) else (service_cursor st, service_scroll st).
Definition move_front (x : nat * Z) (st : FieldFilterState) : FieldFilterState :=
  let 'mkFieldFilterState p a b c d t sv sr := st in
  if (p =? 0)%nat then mkFieldFilterState p x.1 b x.2 d t sv sr else mkFieldFilterState p a x.1 c x.2 t sv sr.
Definition set_text (x : list Z) (st : FieldFilterState) : FieldFilterState :=
  let 'mkFieldFilterState p a b c d _ sv sr := st in mkFieldFilterState p a b c d x sv sr.
Definition toggle_front (v : text) (st : FieldFilterState) : FieldFilterState :=
  let 'mkFieldFilterState p a b c d t sv sr := st in
  if (p =? 0)%nat then mkFieldFilterState p a b c d t (toggle v sv) sr else mkFieldFilterState p a b c d t sv (toggle v sr).

Definition visible_rows (screen_h : Z) : Z := Z.max 0 (Z.max 6 (u16 (screen_h * 70 / 100)) - 4).
(** The cursor stays on a line that is shown, and the line within the window. *)
Definition follow_cursor (count : nat) (rows : Z) (x : nat * Z) : nat * Z :=
  let cursor := match count with O => O | S max => (x.1 `min` max)%nat end in
  let row := u16 (u16 (Z.of_nat cursor) + 1) in
  (cursor, if row <? x.2 then row else if u16 (x.2 + rows) <=? row then u16 (row - rows + 1) else x.2).

Definition apply_field_filter (env : Env) : AM unit := λ s,
  match field_filter_state s with
  | None => (Ok tt, s)
  | Some st =>
      let pick l := if bool_decide (l = []) then None else Some l in
      let s := set_focus FocusList (set_filter None (mkFieldFilter (pick (selected_severities st)) (pick (selected_services st))) s) in
      (Ok tt, (apply_filter env s).2)
  end.

(** ** Keys *)

Inductive KeyCode : Type :=
| KeyEsc | KeyEnter | KeyTab | KeyUp | KeyDown | KeyLeft | KeyRight | KeyPageUp | KeyPageDown | KeyHome | KeyEnd
| KeyBackspace | KeyDelete | KeyChar (ch : Z) | KeyOther.
#[export] Instance KeyCode_eq_dec : EqDecision KeyCode.
Proof. solve_decision. Defined.
Record KeyEvent : Type := mkKeyEvent { key_code : KeyCode; key_control : bool; key_alt : bool }.
Definition plain (key : KeyEvent) : bool := negb (key_control key || key_alt key).

Definition handle_field_filter_key (env : Env) (key : KeyEvent) : AM bool := λ s,
  match en_catalog env, field_filter_state s with
  | None, _ | Some _, None => (Ok false, set_focus FocusList s)
  | Some (sev_list, svc_list), Some st =>
      let all := if (panel st =? 0)%nat then sev_list else svc_list in
      let lower := to_lowercase (string_of_chars (filter_text st)) in
      let visible := shown lower all in
      let keep st := set_filter (Some st) (active_field_filter s) s in
      let '(res, s) :=
        match key_code key with
        | KeyEsc => (Ok tt, set_focus FocusList (set_filter None (active_field_filter s) s))
        | KeyTab =>
            if (1 <? panel st)%nat then (Err AppPanic, s) else
            let 'mkFieldFilterState p a b c d _ sv sr := st in (Ok tt, keep (mkFieldFilterState (1 - p) a b c d [] sv sr))
        | KeyUp => (Ok tt, keep (move_front ((in_front st).1 - 1, (in_front st).2)%nat st))
        | KeyDown =>
            (Ok tt, match visible with
                    | [] => s
                    | _ => keep (move_front ((S (in_front st).1 `min` (length visible - 1)), (in_front st).2)%nat st)
                    end)
        | KeyChar 32 => (Ok tt, match visible !! (in_front st).1 with Some v => keep (toggle_front v st) | None => s end)
        | KeyChar c => (Ok tt, keep (move_front (0, 0%Z)%nat (set_text (filter_text st ++ [c]) st)))
        | KeyBackspace => (Ok tt, keep (move_front (0, 0%Z)%nat (set_text (removelast (filter_text st)) st)))
        | _ => (Ok tt, s)
        end in
      if decide (key_code key = KeyEnter) then (let! _ := apply_field_filter env in ret false) s else
      match res with
      | Err e => (Err e, s)
      | Ok _ =>
          (Ok false, match field_filter_state s with
                     | None => s
                     | Some st =>
                         let all := if (panel st =? 0)%nat then sev_list else svc_list in
                         let count := length (filter (λ x, bool_decide (filter_text st = []) ||
                           contains_text (to_lowercase x) (to_lowercase (string_of_chars (filter_text st))) = true) all) in
                         set_filter (Some (move_front (follow_cursor count (visible_rows (en_screen_height env)) (in_front st)) st)) (active_field_filter s) s
                     end)
      end
  end.

(** An edit of a text field; [None] is a key that does not edit. *)
Definition edit (key : KeyEvent) (f : Field) : option Field :=
  match key_code key with
  | KeyBackspace => Some (delete_char_before f)
  | KeyDelete => Some (delete_char_at f)
  | KeyLeft => Some (set_cursor (fd_cursor f - 1) f)
  | KeyRight => Some (set_cursor (S (fd_cursor f) `min` length (fd_text f)) f)
  | KeyHome => Some (set_cursor 0 f)
  | KeyEnd => Some (set_cursor (length (fd_text f)) f)
  | KeyChar ch =>
      if (ch =? 117) && key_control key then Some (mkField [] 0) else
      if plain key then Some (insert_char_at ch f) else None
  | _ => None
  end.

Definition is_char (c : string) (key : KeyEvent) : bool :=
  match key_code key with KeyChar ch => eq_ignore_ascii_case [ch] (str c) | _ => false end.
Definition toggle_info (s : ViewApp) : ViewApp :=
  let m := modal s in set_modal (mkModal (modal_text m) (modal_scroll m) (negb (modal_info_visible m)) (details_visible m)) s.
Definition toggle_details (s : ViewApp) : ViewApp :=
  let m := modal s in set_modal (mkModal (modal_text m) (modal_scroll m) (modal_info_visible m) (negb (details_visible m))) s.
Definition scroll_modal (delta : Z) : AM unit := modify (λ s,
  let m := modal s in set_modal (mkModal (modal_text m) (scroll_by delta (modal_scroll m)) (modal_info_visible m) (details_visible m)) s).

Definition handle_modal_key (env : Env) (key : KeyEvent) : AM unit :=
  match key_code key with
  | KeyEsc => modify (λ s, let m := modal s in
      set_focus FocusList (set_modal (mkModal None 0 (modal_info_visible m) (details_visible m)) s))
  | KeyUp => scroll_modal (-1)
  | KeyDown => scroll_modal 1
  | KeyPageUp => scroll_modal (-10)
  | KeyPageDown => scroll_modal 10
  | KeyLeft => move_selection env (-1) ;;! open_modal
  | KeyRight => move_selection env 1 ;;! open_modal
  | _ => if is_char "i" key then modify toggle_info else if is_char "t" key then start_tail_mode env else ret tt
  end.

Definition FilterMode_fwd (m : FilterMode) : FilterMode := match m with ModeCel => ModeStrings | ModeStrings => ModeRegex | ModeRegex => ModeCel end.
Definition FilterMode_rev (m : FilterMode) : FilterMode := match m with ModeCel => ModeRegex | ModeRegex => ModeStrings | ModeStrings => ModeCel end.
Definition handle_search_key (env : Env) (key : KeyEvent) : AM unit :=
  match key_code key with
  | KeyTab => modify (set_focus FocusList)
  | KeyUp => modify (λ s, set_query (FilterMode_fwd (filter_mode s)) (query_input s) s)
  | KeyDown => modify (λ s, set_query (FilterMode_rev (filter_mode s)) (query_input s) s)
  | KeyEsc => modify (λ s, set_query (filter_mode s) [] s) ;;! apply_filter env
  | KeyEnter => apply_filter env
  | KeyBackspace => modify (λ s, set_query (filter_mode s) (removelast (query_input s)) s)
  | KeyChar ch =>
      if (ch =? 117) && key_control key then modify (λ s, set_query (filter_mode s) [] s) else
      if plain key then modify (λ s, set_query (filter_mode s) (query_input s ++ [ch]) s) else ret tt
  | _ => ret tt
  end.

Definition handle_save_prompt_key (env : Env) (key : KeyEvent) : AM unit :=
  match key_code key with
  | KeyEsc => modify (set_focus FocusList)
  | KeyEnter => save_current_results env
  | _ => modify (λ s, match edit key (save_filename s) with Some f => set_save f s | None => s end)
  end.

Definition next_field (f : ExportField) : ExportField :=
  match f with FieldFormat => FieldFilename | FieldFilename => FieldRange | FieldRange => FieldFormat end.
Definition edit_export (key : KeyEvent) : AM unit := modify (λ s,
  let x := export_prompt s in
  match export_field x with
  | FieldFormat => s
  | FieldFilename => match edit key (export_filename x) with
                     | Some f => set_export (with_format x (export_format_index x) f) s
                     | None => s
                     end
  | FieldRange => match edit key (export_range x) with
                  | Some f => set_export (mkExportPrompt (export_formats x) (export_format_index x) (export_filename x) f (export_field x) (export_running x)) s
                  | None => s
                  end
  end).
Definition handle_export_prompt_key (env : Env) (key : KeyEvent) : AM unit :=
  let! field := gets (export_field ∘ export_prompt) in
  match key_code key with
  | KeyEsc => modify (set_focus FocusList)
  | KeyEnter => export_current_results env
  | KeyTab | KeyUp | KeyDown => modify (λ s, let x := export_prompt s in
      set_export (mkExportPrompt (export_formats x) (export_format_index x) (export_filename x) (export_range x) (next_field (export_field x)) (export_running x)) s)
  | KeyLeft => if decide (field = FieldFormat) then cycle_export_format (-1) else edit_export key
  | KeyRight => if decide (field = FieldFormat) then cycle_export_format 1 else edit_export key
  | KeyChar 32 => if decide (field = FieldFormat) then cycle_export_format 1 else edit_export key
  | _ => edit_export key
  end.

Definition handle_dedup_prompt_key (env : Env) (key : KeyEvent) : AM unit :=
  let set f mode mm := modify (λ s, let d := dedup_prompt s in
    set_dedup (mkDedupPrompt (f (dedup_filename d)) (mode (dedup_behavior d)) (mm (dedup_match_mode d)) (dedup_output_path d) (dedup_running d) (dedup_completed d)) s) in
  match key_code key with
  | KeyEnter => let! d := gets dedup_prompt in if bool_decide (dedup_filename d = []) then ret tt else start_dedup env
  | KeyEsc => modify (set_focus FocusList)
  | KeyLeft | KeyRight => set id DedupMode_next id
  | KeyUp => set id id DedupMatchMode_prev
  | KeyDown | KeyTab => set id id DedupMatchMode_next
  | KeyBackspace => set (@removelast Z) id id
  | KeyChar c => if plain key then set (λ name, name ++ [c]) id id else ret tt
  | _ => ret tt
  end.
Definition handle_dedup_progress_key (env : Env) (key : KeyEvent) : AM unit :=
  let! d := gets dedup_prompt in
  if dedup_running d then ret tt else
  match key_code key with
  | KeyEnter =>
      modify (set_dedup (mkDedupPrompt (dedup_filename d) (dedup_behavior d) (dedup_match_mode d) None false false)) ;;!
      match dedup_output_path d with
      | Some path => switch_to_file env path
      | None => modify (set_focus FocusList)
      end
  | KeyEsc => modify (λ s, set_focus FocusList (set_dedup (mkDedupPrompt (dedup_filename d) (dedup_behavior d) (dedup_match_mode d) None false false) s))
  | _ => ret tt
  end.

Definition handle_list_key (env : Env) (key : KeyEvent) : AM unit :=
  match key_code key with
  | KeyTab => modify (set_focus FocusSearch)
  | KeyUp => move_selection env (-1)
  | KeyDown => move_selection env 1
  | KeyPageUp => move_selection env (-10)
  | KeyPageDown => move_selection env 10
  | KeyHome => modify (select 0 0) ;;! refresh_selected_detail env
  | KeyEnd => select_last env
  | KeyEnter => open_modal
  | _ =>
      if is_char "s" key then open_save_prompt else
      if is_char "e" key then open_export_prompt env else
      if is_char "d" key then open_dedup_prompt else
      if is_char "i" key then modify toggle_details else
      if is_char "t" key then start_tail_mode env else
      if is_char "f" key then open_field_filter env else
      if is_char "/" key then modify (set_focus FocusSearch) else ret tt
  end.

Definition is_motion (key : KeyEvent) : bool :=
  match key_code key with KeyUp | KeyDown | KeyPageUp | KeyPageDown | KeyHome | KeyEnd => true | _ => false end.
(** By what has the focus; no handler but that of the list ends the viewer. *)
Definition handle_focused_key (env : Env) (key : KeyEvent) : AM bool :=
  let! f := gets focus in
  match f with
  | FocusModal => let! _ := handle_modal_key env key in ret false
  | FocusFieldFilter => handle_field_filter_key env key
  | FocusSavePrompt => let! _ := handle_save_prompt_key env key in ret false
  | FocusSaveError => let! _ := modify (set_focus FocusSavePrompt) in ret false
  | FocusExportPrompt => let! _ := handle_export_prompt_key env key in ret false
  | FocusExportError => let! _ := modify (set_focus FocusExportPrompt) in ret false
  | FocusExportProgress => ret false
  | FocusDedupPrompt => let! _ := handle_dedup_prompt_key env key in ret false
  | FocusDedupProgress => let! _ := handle_dedup_progress_key env key in ret false
  | FocusSearch => let! _ := handle_search_key env key in ret false
  | FocusList => if is_char "q" key then let! _ := cancel_scan in ret true else let! _ := handle_list_key env key in ret false
  end.
Definition handle_key (env : Env) (key : KeyEvent) : AM bool :=
  let! s := gets id in
  if tail_mode (tail s) then
    let! _ := stop_tail_mode in
    if is_motion key && bool_decide (focus s = FocusList) then handle_focused_key env key else ret false
  else handle_focused_key env key.

(** ** What the workers send *)

Inductive ScanUpdate : Type := Batch (batch : list EntryMeta) | Finished (scanned matched : Z) | ScanFailed.
Inductive JobUpdate : Type := JobProgress | JobDone | JobFailed.

(** One update: the new state, and whether the selection is to be shown again and the
    live view to be stopped. *)
Definition apply_update (acc : ViewApp * bool * bool) (u : ScanUpdate) : ViewApp * bool * bool :=
  let '(s, refresh, stop) := acc in
  match current_scan s, u with
  | None, _ => acc
  | Some scan, Batch batch =>
      let l := listing s in
      let all := entries l ++ batch in
      let follow := tail_mode (tail s) && negb (bool_decide (all = [])) in
      let s := set_listing (mkListing all (if follow then length all - 1 else selected l)%nat (list_offset l) (selected_detail l) (detail_scroll l)) s in
      let s := set_scan (Some (mkActiveScan (as_scanned scan) (len all) (as_finished scan))) s in
      (s, refresh || follow || (bool_decide (selected_detail l = None) && negb (bool_decide (all = []))), stop)
  | Some scan, Finished scanned matched => (set_scan (Some (mkActiveScan scanned matched true)) s, refresh, stop)
  | Some scan, ScanFailed => (set_scan (Some (mkActiveScan (as_scanned scan) (as_matched scan) true)) s, refresh, true)
  end.
Definition drain_scan_updates (env : Env) (scan_updates tail_updates : list ScanUpdate) : AM unit := λ s,
  match current_scan s with
  | None => (Ok tt, s)
  | Some _ =>
      let updates := scan_updates ++ (if tail_attached (tail s) then tail_updates else []) in
      let '(s, refresh, stop) := foldl apply_update (s, false, false) updates in
      ((if stop then stop_tail_mode else ret tt) ;;!
       (if refresh then refresh_selected_detail env else ret tt) ;;!
       let! s := gets id in
       if tail_on_launch (tail s) && match current_scan s with Some scan => as_finished scan | None => false end && negb (tail_mode (tail s))
       then modify (λ s, let t := tail s in set_tail (mkTail false (tail_mode t) (tail_marker_index t) (tail_attached t)) s) ;;! start_tail_mode env
       else ret tt) s
  end.

(** The first update that ends the job is the last one looked at. *)
Fixpoint job_result (us : list JobUpdate) : option bool :=
  match us with
  | [] => None
  | JobProgress :: us => job_result us
  | JobDone :: _ => Some true
  | JobFailed :: _ => Some false
  end.
Definition drain_export_updates (us : list JobUpdate) : AM unit := modify (λ s,
  let x := export_prompt s in
  let stopped := mkExportPrompt (export_formats x) (export_format_index x) (export_filename x) (export_range x) (export_field x) false in
  if export_running x then
    match job_result us with
    | Some true => set_focus FocusList (set_export stopped s)
    | Some false => set_focus FocusExportError (set_export stopped s)
    | None => s
    end
  else s).
Definition drain_dedup_updates (us : list JobUpdate) : AM unit := modify (λ s,
  let d := dedup_prompt s in
  if dedup_running d then
    match job_result us with
    | Some true => set_dedup (mkDedupPrompt (dedup_filename d) (dedup_behavior d) (dedup_match_mode d) (dedup_output_path d) false true) s
    | Some false => set_focus FocusList (set_dedup (mkDedupPrompt (dedup_filename d) (dedup_behavior d) (dedup_match_mode d) None false (dedup_completed d)) s)
    | None => s
    end
  else s).

(** ** The loop *)

Record Event : Type := mkEvent {
  ev_env : Env; ev_scan : list ScanUpdate; ev_tail : list ScanUpdate; ev_export : list JobUpdate; ev_dedup : list JobUpdate;
  ev_key : option KeyEvent }.
(** A turn of [run]: the updates, then a key if there is one. *)
Definition turn (ev : Event) : AM bool :=
  drain_scan_updates (ev_env ev) (ev_scan ev) (ev_tail ev) ;;!
  drain_export_updates (ev_export ev) ;;!
  drain_dedup_updates (ev_dedup ev) ;;!
  match ev_key ev with
  | Some key => handle_key (ev_env ev) key
  | None => ret false
  end.
Fixpoint run (evs : list Event) : AM bool :=
  match evs with
  | [] => ret false
  | ev :: evs => let! quit := turn ev in if quit then ret true else run evs
  end.
End App.
