(* ===== verification/ViewAppInv.v ===== *)
(** * The viewer: what every event keeps

    The invariant of [ViewApp] and the proof, handler by handler, that an event never
    makes the viewer panic and that the record shown is the one selected. *)

From S2P Require Import Prelude Text Tokens Format Writer Reader Scan Otlp FlatRecord Canon Cel Predicate Dedup DatasetIndex ViewScan Dataset Exporter ViewApp.

Create HintDb viewer.

(** ** Text fields *)

Definition field_ok (f : Field) : Prop := (fd_cursor f ≤ length (fd_text f))%nat.

Lemma at_end_ok s : field_ok (at_end s).
Proof. unfold field_ok, at_end. cbn. lia. Qed.
Lemma edit_ok key f f' : field_ok f → edit key f = Some f' → field_ok f'.
Proof.
  unfold edit, field_ok. intros Hf.
  destruct (key_code key); try done.
  - intros [= <-]. cbn [set_cursor fd_cursor fd_text]. lia.
  - intros [= <-]. cbn. destruct (length (fd_text f)); lia.
  - intros [= <-]. cbn [set_cursor fd_cursor fd_text]. lia.
  - intros [= <-]. cbn [set_cursor fd_cursor fd_text]. lia.
  - intros [= <-]. unfold delete_char_before. destruct (fd_cursor f) eqn:E; cbn; [lia|].
    rewrite length_app, length_take, length_drop. lia.
  - intros [= <-]. unfold delete_char_at. case_decide; cbn; [lia|].
    rewrite length_app, length_take, length_drop. lia.
  - case_match; [by intros [= <-]|]. case_match; [|done]. intros [= <-]. cbn.
    rewrite length_app, length_take. cbn. rewrite length_drop. lia.
Qed.

(** Typing a character and rubbing it out gives the field back. *)
Lemma insert_then_delete ch f : field_ok f → delete_char_before (insert_char_at ch f) = f.
Proof.
  destruct f as [s c]. unfold field_ok, delete_char_before, insert_char_at. cbn. intros H.
  rewrite take_app_le, take_take, Nat.min_id by (rewrite length_take; lia).
  replace (S c) with (length (take c s) + 1)%nat at 1 by (rewrite length_take; lia).
  rewrite drop_app_add. cbn. by rewrite drop_0, take_drop.
Qed.

(** ** Ranges *)

Lemma parse_export_selection_bounds input total sel first last :
  0 ≤ total → 0 ≤ sel → parse_export_selection input total sel = Some (first, last) → 0 ≤ first ≤ last ∧ last ≤ total.
Proof.
  intros Ht Hs. unfold parse_export_selection.
  case_bool_decide; [done|]. case_match; [intros [= <- <-]; lia|].
  case_match.
  { destruct (Z.eqb_spec total 0); intros [= <- <-]; lia. }
  destruct (split_once _ _) as [[a b]|].
  - destruct (parse_u64 (trim_text a)) as [x|] eqn:Ea; [|done]. destruct (parse_u64 (trim_text b)) as [y|] eqn:Eb; [|done].
    apply parse_u64_u64 in Ea, Eb. unfold is_u64 in *. repeat case_match; intros [= <- <-]; lia.
  - destruct (parse_u64 _) as [x|] eqn:Ea; [|done]. apply parse_u64_u64 in Ea. unfold is_u64 in *. case_match; [done|]. intros [= <- <-]. lia.
Qed.

(** ** Reading and writing the selected records never panics *)

Lemma read_spool_record_sound file meta :
  match read_spool_record file meta with Ok d => detail_meta d = meta | Err e => e ≠ Panicked end.
Proof. unfold read_spool_record, read_at. by case_decide. Qed.
Lemma selection_never_panics {EX : Externals} {W} {WW : Write W} file metas (sink : W) :
  write_export_selection file metas sink ≠ Err Panicked.
Proof.
  unfold write_export_selection.
  assert (∀ b w, (push_selection (W:=W) b file metas w).1 ≠ Err Panicked) as H.
  { induction metas as [|meta metas IH]; intros b w; [done|]. cbn [push_selection]. unfold bind at 1, lift.
    pose proof (read_spool_record_sound file meta). destruct (read_spool_record file meta) as [d|]; [|cbn; congruence].
    unfold bind at 1. match goal with |- context [push_preserving_view_order ?b ?rt ?q ?ts ?pl w] => destruct (push_preserving_view_order b rt q ts pl w) as [[b'|e] w'] end; [apply IH|done]. }
  specialize (H None (with_config sink WriterConfig_default)).
  destruct (push_selection _ _ _ _) as [[[]|e] w]; cbn in *; [|congruence]. unfold failed. by destruct (into_inner w).
Qed.

Section Invariant.
Context {OP : OtlpParts} {FL : Floats} {VT : ValueTrees} {LC : LogsCodec} {SC : SignalCodec} {CE : CelEngine} {MA : Matchers} {AP : ArgParser}.
Context {EX : Externals} (to_lowercase : text → text).
Local Abbreviation AM := (M ViewApp AppFault).

(** ** The invariant

    [steady] holds between the change of the list or of the selection and the reading of
    the record selected; [current] says that it has been read. *)
Record steady (s : ViewApp) : Prop := mkSteady {
  sd_range : (selected (listing s) < length (entries (listing s)))%nat ∨ entries (listing s) = [] ∧ selected (listing s) = 0%nat;
  sd_scan : current_scan s = None → entries (listing s) = [];
  sd_modal : focus s = FocusModal → entries (listing s) ≠ [];
  sd_formats : export_formats (export_prompt s) ≠ [];
  sd_fields : field_ok (save_filename s) ∧ field_ok (export_filename (export_prompt s)) ∧ field_ok (export_range (export_prompt s));
  sd_panel : match field_filter_state s with Some st => (panel st ≤ 1)%nat | None => True end;
  sd_tail : tail_mode (tail s) = tail_attached (tail s) }.
Definition current (s : ViewApp) : Prop :=
  match selected_detail (listing s) with
  | Some d => entries (listing s) !! selected (listing s) = Some (detail_meta d)
  | None => entries (listing s) = []
  end ∧ (focus s = FocusModal → modal_text (modal s) = selected_detail (listing s)).
Definition inv (s : ViewApp) : Prop := steady s ∧ current s.

(** The errors the viewer can end with: neither a panic nor its own "no active scan". *)
Definition outer_fault (e : AppFault) : Prop := e ≠ AppPanic ∧ e ≠ AppNoScan.
Definition triple {A} (P : ViewApp → Prop) (c : AM A) (Q : A → ViewApp → Prop) : Prop :=
  ∀ s, P s → match c s with (Ok a, s') => Q a s' | (Err e, _) => outer_fault e end.
Definition keeps {A} (c : AM A) : Prop := triple inv c (λ _, inv).

Lemma triple_bind {A B} P Q R (c : AM A) (k : A → AM B) :
  triple P c Q → (∀ a, triple (Q a) (k a) R) → triple P (bind c k) R.
Proof. intros Hc Hk s Hs. specialize (Hc s Hs). unfold bind. destruct (c s) as [[a|e] s']; [by apply Hk|done]. Qed.
Lemma triple_ret {A} P (a : A) : triple P (ret a) (λ _, P).
Proof. by intros s. Qed.
Lemma triple_modify (P : ViewApp → Prop) (Q : unit → ViewApp → Prop) f : (∀ s, P s → Q tt (f s)) → triple P (modify f) Q.
Proof. intros H s Hs. by apply H. Qed.
Lemma triple_gets {A} P (f : ViewApp → A) : triple P (gets f) (λ a s, P s ∧ a = f s).
Proof. by intros s. Qed.
Lemma triple_weaken {A} P (Q Q' : A → ViewApp → Prop) (c : AM A) : triple P c Q → (∀ a s, Q a s → Q' a s) → triple P c Q'.
Proof. intros H HQ s Hs. specialize (H s Hs). destruct (c s) as [[a|e] s']; [by apply HQ|done]. Qed.
Lemma triple_pre {A} (P P' : ViewApp → Prop) Q (c : AM A) : triple P c Q → (∀ s, P' s → P s) → triple P' c Q.
Proof. intros H HP s Hs. apply H. by apply HP. Qed.
Lemma triple_lift {A} P (r : result AppFault A) : (∀ e, r = Err e → outer_fault e) → triple P (lift r) (λ a s, P s ∧ r = Ok a).
Proof. intros H s Hs. unfold lift. destruct r; [done|by apply H]. Qed.
Lemma keeps_ret {A} (a : A) : keeps (ret a).
Proof. apply triple_ret. Qed.
Lemma keeps_bind {A B} (c : AM A) (k : A → AM B) : keeps c → (∀ a, keeps (k a)) → keeps (bind c k).
Proof. apply triple_bind. Qed.
Lemma keeps_modify f : (∀ s, inv s → inv (f s)) → keeps (modify f).
Proof. intros H. by apply (triple_modify inv (λ _, inv)). Qed.
Lemma keeps_opened env : keeps (opened env).
Proof.
  intros s Hs. unfold opened, lift. destruct (en_open env); cbn; [done|]. split; discriminate.
Qed.

(** A change that touches neither what is listed nor what is shown. *)
Lemma inv_frame s s' :
  inv s → listing s' = listing s → current_scan s' = current_scan s → modal_text (modal s') = modal_text (modal s) →
  (focus s' = FocusModal → focus s = FocusModal) →
  export_formats (export_prompt s') ≠ [] →
  field_ok (save_filename s') ∧ field_ok (export_filename (export_prompt s')) ∧ field_ok (export_range (export_prompt s')) →
  match field_filter_state s' with Some st => (panel st ≤ 1)%nat | None => True end →
  tail_mode (tail s') = tail_attached (tail s') → inv s'.
Proof.
  intros [[] [? ?]] Hl Hc Hm Hf. intros. split; [split|split]; rewrite ?Hl, ?Hc, ?Hm; try done; auto.
Qed.

(** An early return that changes nothing. *)
Ltac skip_if := match goal with |- context [if ?b then (Ok _, _) else _] => destruct b; [done|] end.

(** ** The list *)

Lemma query_error_outer s e : query_predicate s = Err e → outer_fault e.
Proof. unfold query_predicate. destruct (parse_filter_query _ _) as [p|]; cbn; [by destruct p|]. intros [= <-]. by split. Qed.
Lemma of_fault_outer {A} (r : result Fault A) e : r ≠ Err Panicked → of_fault r = Err e → outer_fault e.
Proof. destruct r as [|[]]; cbn; intros ? [= <-]; try done. Qed.

Lemma triple_refresh env : triple steady (refresh_selected_detail env) (λ _, inv).
Proof.
  intros s [Hr Hs Hm Hf Hk Hp Ht]. unfold refresh_selected_detail.
  destruct (entries (listing s)) as [|x l] eqn:El.
  - cbn. split; [split|split]; cbn; try done; try (by intros ?%Hm).
  - destruct (current_scan s) as [sc|] eqn:Es; [|by specialize (Hs eq_refl)].
    destruct Hr as [Hr|[? _]]; [|done]. destruct (lookup_lt_is_Some_2 (x :: l) (selected (listing s)) Hr) as [meta Hl]. rewrite Hl.
    pose proof (read_spool_record_sound (en_spool env) meta) as Hd.
    destruct (read_spool_record (en_spool env) meta) as [d|e]; cbn; [|by destruct e].
    case_decide; (split; [split|split]); cbn; try done; try (by left); rewrite ?Es, ?Hl; try done. by rewrite Hd. by rewrite Hd.
Qed.
Lemma inv_steady s : inv s → steady s.
Proof. by intros []. Qed.
Lemma steady_select i offset s : (i < length (entries (listing s)))%nat → steady s → steady (select i offset s).
Proof. intros Hi []. split; cbn; try done. by left. Qed.

Lemma keeps_move_selection env delta : keeps (move_selection env delta).
Proof.
  intros s Hs. unfold move_selection, bind, gets. case_bool_decide as Hn; [done|]. case_decide; [done|].
  apply triple_refresh, steady_select; [|apply Hs]. destruct (entries (listing s)); [done|]. unfold len; cbn [length]. lia.
Qed.
Lemma keeps_select_last env : keeps (select_last env).
Proof.
  intros s Hs. unfold select_last, bind, gets. case_bool_decide as Hn; [done|].
  apply triple_refresh, steady_select; [|apply Hs]. destruct (entries (listing s)); [done|]. unfold len; cbn [length]. lia.
Qed.
Lemma keeps_open_modal : keeps open_modal.
Proof.
  apply keeps_modify. intros s H. pose proof H as [[Hr Hs Hm Hf Hk Hp Ht] [Hc Hd]]. destruct (selected_detail (listing s)) as [d|] eqn:Ed; [|done].
  split; [split|split]; cbn; try done; rewrite ?Ed; try done. intros _ E. by rewrite E in Hc.
Qed.

(** ** Scanning *)

Lemma stop_tail_inv s : inv s → inv (stop_tail_mode s).2.
Proof.
  intros H. pose proof H as [[] _]. apply (inv_frame s); try done; unfold stop_tail_mode; cbn; by destruct (tail_attached (tail s)).
Qed.
Lemma keeps_stop_tail_mode : keeps stop_tail_mode.
Proof. apply keeps_modify, stop_tail_inv. Qed.
(** What is left of the invariant when the list is about to be forgotten *)
Definition prompts_ok (s : ViewApp) : Prop :=
  export_formats (export_prompt s) ≠ [] ∧
  (field_ok (save_filename s) ∧ field_ok (export_filename (export_prompt s)) ∧ field_ok (export_range (export_prompt s))) ∧
  match field_filter_state s with Some st => (panel st ≤ 1)%nat | None => True end.
Lemma inv_prompts s : inv s → prompts_ok s.
Proof. by intros [[] _]. Qed.
Lemma forget_inv s : prompts_ok s → inv (forget_results (stop_tail_mode s).2).2.
Proof.
  intros (Hf & Hk & Hp). unfold forget_results, stop_tail_mode. cbn.
  destruct (tail_attached (tail s)), (current_scan s) eqn:E; cbn; rewrite ?E;
    (split; [split|split]); cbn; try done; try (by right); by rewrite ?E.
Qed.
(** The error is returned, but the state it leaves is one to go on from. *)
Lemma apply_filter_inv env s : prompts_ok s →
  inv (apply_filter env s).2 ∧ match (apply_filter env s).1 with Err e => outer_fault e | Ok _ => True end.
Proof.
  intros Hs%forget_inv. unfold apply_filter, bind, gets, lift, modify, opened.
  unfold stop_tail_mode, forget_results, modify in *. cbn [fst snd] in Hs.
  match goal with H : inv ?x |- _ => remember x as s' eqn:Es end.
  change (gets id) with (λ s : ViewApp, (Ok (E:=AppFault) s, s)). cbn [id].
  destruct (query_predicate s') as [p|e] eqn:Ep; [|split; [done|by eapply query_error_outer]].
  destruct (en_open env); cbn; [|split; [done|by split]].
  split; [|done]. destruct Hs as [[] [Hc Hd]]. split; [split|split]; cbn; done.
Qed.
Lemma keeps_apply_filter env : keeps (apply_filter env).
Proof. intros s Hs. destruct (apply_filter_inv env s (inv_prompts s Hs)). by destruct (apply_filter env s) as [[[]|e] s']. Qed.
Lemma keeps_start_tail_mode env : keeps (start_tail_mode env).
Proof.
  intros s Hs. unfold start_tail_mode. do 3 skip_if. destruct (current_scan s) as [sc|] eqn:Es; [|done].
  do 2 skip_if. unfold bind at 1, lift. destruct (query_predicate s) as [p|e] eqn:Ep; [|by eapply query_error_outer].
  unfold bind at 1, opened, lift. destruct (en_open env); cbn [map_err]; [|by split].
  unfold bind, modify. apply keeps_select_last, (inv_frame s); try done; by destruct Hs as [[] _].
Qed.

(** ** Saving, exporting and deduplicating *)

Lemma collected_sound env metas e : collect_details env metas = Err e → outer_fault e.
Proof.
  induction metas as [|meta metas IH]; cbn; [done|]. pose proof (read_spool_record_sound (en_spool env) meta).
  destruct (read_spool_record _ _) as [d|f]; cbn; [|destruct f; intros [= <-]; by split].
  destruct (foldr _ _ metas) eqn:E; cbn; [done|]. intros [= <-]. by apply IH.
Qed.
(** A change of the focus to anything but the window of a record *)
Lemma focus_inv f s : f ≠ FocusModal → inv s → inv (set_focus f s).
Proof. intros Hf Hs. apply (inv_frame s); try done; by destruct Hs as [[] _]. Qed.
Lemma emit_inv x s : inv s → inv (emit x s).
Proof. intros Hs. apply (inv_frame s); try done; by destruct Hs as [[] _]. Qed.
Lemma dedup_inv x s : inv s → inv (set_dedup x s).
Proof. intros Hs. apply (inv_frame s); try done; by destruct Hs as [[] _]. Qed.
Lemma query_inv m q s : inv s → inv (set_query m q s).
Proof. intros Hs. apply (inv_frame s); try done; by destruct Hs as [[] _]. Qed.
Lemma filter_inv x f s : match x with Some st => (panel st ≤ 1)%nat | None => True end → inv s → inv (set_filter x f s).
Proof. intros Hx Hs. apply (inv_frame s); try done; by destruct Hs as [[] _]. Qed.
Lemma save_inv x s : field_ok x → inv s → inv (set_save x s).
Proof. intros Hx Hs. apply (inv_frame s); try done; destruct Hs as [[? ? ? ? (?&?&?) ? ?] _]; done. Qed.
Lemma export_inv x s :
  export_formats x ≠ [] → field_ok (export_filename x) → field_ok (export_range x) → inv s → inv (set_export x s).
Proof. intros H1 H2 H3 Hs. apply (inv_frame s); try done; destruct Hs as [[? ? ? ? (?&?&?) ? ?] _]; done. Qed.
Lemma window_inv x s : modal_text x = modal_text (modal s) → inv s → inv (set_modal x s).
Proof. intros Hx Hs. apply (inv_frame s); try done; by destruct Hs as [[] _]. Qed.

Hint Resolve focus_inv emit_inv dedup_inv query_inv filter_inv save_inv export_inv window_inv at_end_ok keeps_ret keeps_bind keeps_modify
  keeps_opened keeps_move_selection keeps_select_last keeps_open_modal keeps_stop_tail_mode keeps_apply_filter keeps_start_tail_mode : viewer.
Hint Extern 2 (_ ≠ _) => discriminate : viewer.

Lemma inv_formats s : inv s → export_formats (export_prompt s) ≠ [].
Proof. by intros [[] _]. Qed.
Lemma inv_name s : inv s → field_ok (export_filename (export_prompt s)).
Proof. by intros [[? ? ? ? (?&?&?) ? ?] _]. Qed.
Lemma inv_range s : inv s → field_ok (export_range (export_prompt s)).
Proof. by intros [[? ? ? ? (?&?&?) ? ?] _]. Qed.
Hint Resolve inv_formats inv_name inv_range : viewer.
Hint Extern 5 (export_formats _ ≠ _) => progress cbn [export_formats with_format export_prompt set_export] : viewer.
Hint Extern 5 (field_ok _) => progress cbn [export_filename export_range with_format export_prompt set_export] : viewer.

Lemma keeps_open_save_prompt : keeps open_save_prompt.
Proof. apply keeps_modify. intros s Hs. repeat case_match; auto with viewer. Qed.
Lemma keeps_save env : keeps (save_current_results env).
Proof.
  intros s Hs. unfold save_current_results. do 2 skip_if. destruct (current_scan s); [|done].
  destruct (output_path _ _ _) as [path|]; [|auto with viewer].
  unfold bind, opened, lift. destruct (en_open env); cbn [map_err]; [|by split].
  destruct (of_fault _) as [out|e] eqn:E; [unfold modify; auto with viewer|]. eapply of_fault_outer, E. apply selection_never_panics.
Qed.
Lemma current_format x : export_formats x ≠ [] → ∃ f, current_export_format x = Some f.
Proof. intros H. apply lookup_lt_is_Some_2. destruct (export_formats x); [done|]. cbn. lia. Qed.
Lemma keeps_sync : keeps sync_export_filename_extension.
Proof.
  intros s Hs. unfold sync_export_filename_extension. skip_if.
  destruct (current_format (export_prompt s)) as [f ->]; auto 7 with viewer.
Qed.
Lemma keeps_cycle delta : keeps (cycle_export_format delta).
Proof.
  intros s Hs. unfold cycle_export_format. skip_if. apply keeps_sync. auto 7 with viewer.
Qed.
Lemma keeps_open_export_prompt env : keeps (open_export_prompt env).
Proof.
  intros s Hs. unfold open_export_prompt. destruct (current_scan s); [|done]. skip_if. cbv zeta.
  match goal with |- context [current_export_format ?x] => set (x0 := x) end.
  assert (inv (set_export x0 s)) as H0 by (unfold x0; auto with viewer).
  destruct (current_format x0) as [f ->]; [done|]. unfold bind at 1, modify at 1.
  refine (triple_bind inv (λ _, inv) (λ _, inv) _ _ _ _ _ H0).
  - case_bool_decide; [|apply keeps_sync]. apply keeps_modify. intros s1 H1. unfold x0. auto 8 with viewer.
  - intros _. apply keeps_modify. intros s1 H1. auto 8 with viewer.
Qed.
Lemma keeps_export env : keeps (export_current_results env).
Proof.
  intros s Hs. unfold export_current_results. do 2 skip_if.
  destruct (parse_export_selection _ _ _) as [[first last]|] eqn:Ep; [|auto with viewer].
  apply parse_export_selection_bounds in Ep as [? ?]; [|unfold len; lia|lia].
  destruct (output_path _ _ _) as [path|]; [|auto with viewer].
  destruct (current_format (export_prompt s)) as [f ->]; [auto with viewer|].
  replace ((first <=? last) && (last <=? len (entries (listing s)))) with true by lia. cbn [negb].
  destruct (current_scan s); [|done].
  case_bool_decide; unfold bind, opened, lift; (destruct (en_open env); cbn [map_err]; [|by split]).
  - destruct (collect_details _ _) eqn:E; [unfold modify; auto with viewer|]. by eapply collected_sound.
  - destruct (of_fault _) as [out|e] eqn:E; [unfold modify; auto 8 with viewer|]. eapply of_fault_outer, E. apply selection_never_panics.
Qed.
Lemma keeps_open_dedup_prompt : keeps open_dedup_prompt.
Proof. apply keeps_modify. intros s Hs. repeat case_match; auto with viewer. Qed.
Lemma keeps_start_dedup env : keeps (start_dedup env).
Proof.
  intros s Hs. unfold start_dedup. cbv zeta.
  pose proof (selection_never_panics (en_spool env) (entries (listing s)) ([] : list Z)) as Hp.
  repeat case_match; simplify_eq; auto 7 with viewer.
Qed.
Lemma keeps_switch_to_file env path : keeps (switch_to_file env path).
Proof.
  intros s Hs%inv_prompts. unfold switch_to_file, bind, cancel_scan, modify, lift.
  destruct (en_dataset env path) as [paths|e]; cbn [map_err]; [|by split].
  match goal with |- context [apply_filter env ?s'] => destruct (apply_filter_inv env s') as [? ?] end.
  - by destruct (current_scan s).
  - by destruct (apply_filter env _) as [[[]|e] s'].
Qed.

(** ** Keys *)

Lemma scroll_inv delta : keeps (scroll_modal delta).
Proof. apply keeps_modify. auto with viewer. Qed.
Lemma closed_inv x s : inv s → inv (set_focus FocusList (set_modal x s)).
Proof. intros [[Hr Hs Hm Hf Hk Hp Ht] [Hc Hd]]. by split; [split|split]. Qed.
Lemma keeps_home env : keeps (modify (select 0 0) ;;! refresh_selected_detail env).
Proof.
  intros s [[Hr Hs Hm Hf Hk Hp Ht] _]. apply triple_refresh. split; try done. cbn.
  destruct (entries (listing s)); [by right|left; cbn; lia].
Qed.
Lemma keeps_modal_key env key : keeps (handle_modal_key env key).
Proof.
  unfold handle_modal_key, toggle_info. destruct (key_code key); repeat case_match; auto using scroll_inv, closed_inv with viewer.
Qed.
Lemma keeps_search_key env key : keeps (handle_search_key env key).
Proof. unfold handle_search_key. destruct (key_code key); repeat case_match; auto with viewer. Qed.
Lemma keeps_save_prompt_key env key : keeps (handle_save_prompt_key env key).
Proof.
  unfold handle_save_prompt_key.
  assert (keeps (modify (λ s, match edit key (save_filename s) with Some f => set_save f s | None => s end))) as H.
  { apply keeps_modify. intros s Hs. case_match eqn:E; [|done]. apply save_inv; [|done].
    eapply edit_ok, E. by destruct Hs as [[? ? ? ? (?&?&?) ? ?] _]. }
  destruct (key_code key); auto using keeps_save with viewer.
Qed.
Lemma keeps_edit_export key : keeps (edit_export key).
Proof.
  apply keeps_modify. intros s Hs. cbv zeta. destruct (export_field (export_prompt s)); [done| |]; (case_match eqn:E; [|done]);
    apply edit_ok in E; auto with viewer.
Qed.
Lemma keeps_gets {A B} (f : ViewApp → A) (k : A → AM B) : (∀ a, keeps (k a)) → keeps (bind (gets f) k).
Proof. intros H s Hs. by apply H. Qed.
Lemma keeps_export_prompt_key env key : keeps (handle_export_prompt_key env key).
Proof.
  unfold handle_export_prompt_key. apply keeps_gets. intros field.
  destruct (key_code key); repeat case_match; auto 7 using keeps_export, keeps_cycle, keeps_edit_export with viewer.
Qed.
Lemma keeps_dedup_prompt_key env key : keeps (handle_dedup_prompt_key env key).
Proof.
  unfold handle_dedup_prompt_key. destruct (key_code key); try case_match; auto with viewer.
  apply keeps_gets. intros d. case_bool_decide; auto using keeps_start_dedup with viewer.
Qed.
Lemma keeps_dedup_progress_key env key : keeps (handle_dedup_progress_key env key).
Proof.
  unfold handle_dedup_progress_key. apply keeps_gets. intros d. case_match; auto with viewer.
  destruct (key_code key); auto with viewer. apply keeps_bind; auto with viewer. intros _. case_match; auto using keeps_switch_to_file with viewer.
Qed.
Lemma keeps_open_field_filter env : keeps (open_field_filter env).
Proof. apply keeps_modify. intros s Hs. case_match; [|done]. apply focus_inv; [done|]. apply filter_inv; [cbn; lia|done]. Qed.
Lemma keeps_list_key env key : keeps (handle_list_key env key).
Proof.
  unfold handle_list_key, toggle_details.
  destruct (key_code key); repeat case_match;
    auto using keeps_home, keeps_open_save_prompt, keeps_open_export_prompt, keeps_open_dedup_prompt, keeps_open_field_filter with viewer.
Qed.

Lemma move_front_panel x st : panel (move_front x st) = panel st.
Proof. destruct st. cbn. by case_match. Qed.
Lemma toggle_front_panel v st : panel (toggle_front v st) = panel st.
Proof. destruct st. cbn. by case_match. Qed.
Lemma set_text_panel x st : panel (set_text x st) = panel st.
Proof. by destruct st. Qed.
Lemma keeps_apply_field_filter env : keeps (apply_field_filter env).
Proof.
  intros s Hs. unfold apply_field_filter. destruct (field_filter_state s); [|done]. apply apply_filter_inv, inv_prompts. auto with viewer.
Qed.
Lemma keeps_field_filter_key env key : keeps (handle_field_filter_key to_lowercase env key).
Proof.
  intros s Hs. unfold handle_field_filter_key. destruct (en_catalog env) as [[sev svc]|]; [|auto with viewer].
  destruct (field_filter_state s) as [st|] eqn:Est; [|auto with viewer].
  assert (panel st ≤ 1)%nat as Hp by (pose proof (inv_prompts s Hs) as (_ & _ & H); by rewrite Est in H).
  cbv zeta.
  match goal with |- match (let '(_, _) := ?c in _) with _ => _ end => set (c0 := c) end.
  assert (inv c0.2 ∧ c0.1 = Ok tt ∧ (key_code key = KeyEnter → c0.2 = s)) as (H2 & H1 & H3).
  { unfold c0. rewrite (proj2 (Nat.ltb_ge 1 (panel st))) by lia. destruct (key_code key); (split; [|split; [|done]]); try done.
    all: repeat case_match; cbn [fst snd]; auto with viewer.
    all: apply filter_inv; rewrite ?move_front_panel, ?toggle_front_panel, ?set_text_panel; auto; cbn in *; lia. }
  destruct c0 as [r s']. cbn in *. subst r. case_decide as He.
  - rewrite (H3 He). unfold bind. pose proof (keeps_apply_field_filter env s Hs). by destruct (apply_field_filter env s) as [[[]|e] s''].
  - destruct (field_filter_state s') as [st'|] eqn:E'; [|done]. apply filter_inv; [|done].
    rewrite move_front_panel. pose proof (inv_prompts s' H2) as (_ & _ & H). by rewrite E' in H.
Qed.
Lemma keeps_focused_key env key : keeps (handle_focused_key to_lowercase env key).
Proof.
  unfold handle_focused_key. apply keeps_gets. intros f.
  destruct f; try (apply keeps_bind; [|intros; apply keeps_ret]);
    auto using keeps_search_key, keeps_modal_key, keeps_field_filter_key, keeps_save_prompt_key, keeps_export_prompt_key, keeps_dedup_prompt_key,
      keeps_dedup_progress_key with viewer.
  case_match; (apply keeps_bind; [|intros; apply keeps_ret]); [|apply keeps_list_key].
  intros s Hs. unfold cancel_scan. case_match; auto with viewer.
Qed.
Lemma keeps_key env key : keeps (handle_key to_lowercase env key).
Proof.
  unfold handle_key. apply keeps_gets. intros s0. case_match; [|apply keeps_focused_key].
  apply keeps_bind; [auto with viewer|]. intros _. case_match; [apply keeps_focused_key|apply keeps_ret].
Qed.

(** ** What the workers send *)

(** While updates are applied the record of a new selection is still to be read. *)
Definition drained (x : ViewApp * bool * bool) : Prop :=
  let '(s, refresh, _) := x in steady s ∧ (if refresh then True else current s) ∧ is_Some (current_scan s) ∧
  (selected_detail (listing s) = None → entries (listing s) ≠ [] → refresh = true).
Lemma steady_scan x s : steady s → steady (set_scan (Some x) s).
Proof. by intros []. Qed.
Lemma batch_steady batch sel offset detail scroll s :
  steady s → ((sel < length (entries (listing s) ++ batch))%nat ∨ sel = selected (listing s)) →
  current_scan s ≠ None →
  steady (set_listing (mkListing (entries (listing s) ++ batch) sel offset detail scroll) s).
Proof.
  intros [Hr Hs Hm Hf Hk Hp Ht] Hsel Hc. split; cbn; try done.
  - destruct Hsel as [?| ->]; [by left|]. rewrite length_app. destruct Hr as [|[-> ->]]; [left; lia|]. destruct batch; [by right|left; cbn; lia].
  - intros ?%Hm. by destruct (entries (listing s)).
Qed.
Lemma apply_update_drained x u : drained x → drained (apply_update x u).
Proof.
  destruct x as [[s refresh] stop]. intros (H & Hc & Hscan & Hd). unfold apply_update.
  destruct (current_scan s) as [scan|] eqn:Es; [|by destruct Hscan].
  destruct u as [batch|a b|]; [|split; [by apply steady_scan|done]..].
  set (all := entries (listing s) ++ batch). set (follow := tail_mode (tail s) && negb (bool_decide (all = []))).
  cbv zeta. split; [|split; [|split; [done|]]].
  - apply steady_scan, batch_steady; [done| |by rewrite Es]. unfold follow. fold all.
    destruct (tail_mode (tail s)); cbn; [|by right]. case_bool_decide; cbn; [by right|left]. destruct all; [done|cbn; lia].
  - destruct refresh; cbn [orb]; [done|]. destruct follow; [done|]. cbn [orb]. destruct Hc as [Hc Hm].
    case_bool_decide as Ed; cbn [andb].
    + case_bool_decide as Ea; [|done]. split; cbn; [by rewrite Ed|done].
    + split; cbn; [|done]. destruct (selected_detail (listing s)); [|done]. by apply lookup_app_l_Some.
  - cbn. intros E1 E2. rewrite E1. rewrite (bool_decide_false (all = [])) by done. by destruct refresh, follow.
Qed.
Lemma updates_drained us x : drained x → drained (foldl apply_update x us).
Proof. revert x. induction us as [|u us IH]; intros x Hx; [done|]. by apply IH, apply_update_drained. Qed.

Lemma stop_tail_steady s : steady s → steady (stop_tail_mode s).2.
Proof. intros []. by unfold stop_tail_mode; cbn; destruct (tail_attached (tail s)); split. Qed.
Lemma keeps_drain_scan env us ts : keeps (drain_scan_updates env us ts).
Proof.
  intros s Hs. unfold drain_scan_updates. destruct (current_scan s) eqn:Es; [|done]. cbv zeta.
  match goal with |- context [foldl apply_update ?x ?l] => pose proof (updates_drained l x) as Hd; destruct (foldl apply_update x l) as [[s1 refresh] stop] end.
  destruct Hd as (H1 & Hc & _ & _).
  { destruct Hs as [Hst Hcu]. repeat split; try done; try apply Hst; try apply Hcu; rewrite ?Es; try done.
    intros E. destruct Hcu as [Hcu _]. by rewrite E in Hcu. }
  set (c0 := if stop then _ else _).
  refine (triple_bind (λ s, steady s ∧ (if refresh then True else current s)) (λ _ s, steady s ∧ (if refresh then True else current s)) (λ _, inv) _ _ _ _ s1 (conj H1 Hc)).
  - unfold c0. destruct stop; [|apply triple_ret]. apply triple_modify. intros s2 [H2 H3]. split; [by apply stop_tail_steady|].
    destruct refresh; [done|]. by apply (stop_tail_inv s2).
  - intros _. refine (triple_bind _ (λ _, inv) (λ _, inv) _ _ _ _).
    + destruct refresh; [|intros s2 H2; exact H2]. intros s2 [H2 _]. by apply triple_refresh.
    + intros _. apply keeps_gets. intros s2.
      match goal with |- context [if ?b then _ else _] => destruct b end; [|apply keeps_ret].
      apply keeps_bind; [|intros _; apply keeps_start_tail_mode].
      apply keeps_modify. intros s3 H3. apply (inv_frame s3); try done; by destruct H3 as [[] _].
Qed.
Lemma keeps_turn ev : keeps (turn to_lowercase ev).
Proof.
  unfold turn. apply keeps_bind; [apply keeps_drain_scan|]. intros _.
  apply keeps_bind; [apply keeps_modify; intros s Hs; cbv zeta; repeat case_match; auto 8 with viewer|]. intros _.
  apply keeps_bind; [apply keeps_modify; intros s Hs; cbv zeta; repeat case_match; auto with viewer|]. intros _.
  case_match; [apply keeps_key|apply keeps_ret].
Qed.
Lemma keeps_run evs : keeps (run to_lowercase evs).
Proof.
  induction evs as [|ev evs IH]; [apply keeps_ret|]. cbn. apply keeps_bind; [apply keeps_turn|]. intros [|]; [apply keeps_ret|done].
Qed.
Lemma new_inv paths order on_launch env : inv (ViewApp_new paths order on_launch (format_choices env)).
Proof. repeat split; try done; cbn; unfold field_ok; cbn; auto. Qed.

(** ** Correctness *)


(** A file is saved or exported only to a path that is none of the files viewed and where
    nothing is yet. *)
Definition fresh (env : Env) (s : ViewApp) (path : text) : Prop :=
  en_exists env path = false ∧ ∀ p, p ∈ va_paths s → path_eqb path p = false.
Definition writes_to (x : Effect) : option text :=
  match x with LogWritten p _ | RowsWritten p _ | ExportStarted _ p _ _ => Some p | _ => None end.
Lemma output_path_fresh env s filename path : output_path env s filename = Some path → fresh env s path.
Proof.
  unfold output_path. destruct (existsb _ _) eqn:Ex; [done|]. destruct (en_exists _ _) eqn:Ee; [done|]. intros [= <-].
  split; [done|]. intros p Hp. destruct (path_eqb _ p) eqn:E; [|done].
  assert (existsb (path_eqb (path_join (output_dir (va_paths s)) filename)) (va_paths s) = true) by
    (apply existsb_exists; exists p; by rewrite <-list_elem_of_In). congruence.
Qed.
Definition writes_fresh (env : Env) (s s' : ViewApp) : Prop :=
  effects s' = effects s ∨ ∃ x path, effects s' = effects s ++ [x] ∧ writes_to x = Some path ∧ fresh env s path.
Lemma save_fresh env s : writes_fresh env s (save_current_results env s).2.
Proof.
  unfold save_current_results. do 2 (case_bool_decide; [by left|]). destruct (current_scan s); [|by left].
  destruct (output_path _ _ _) as [path|] eqn:Ep; [|by left]. apply output_path_fresh in Ep.
  unfold bind, opened, lift. destruct (en_open env); cbn [map_err]; [|by left]. destruct (of_fault _) as [out|]; [|by left].
  right. by eexists _, path.
Qed.
Lemma export_fresh env s : writes_fresh env s (export_current_results env s).2.
Proof.
  unfold export_current_results. cbv zeta. do 2 (case_bool_decide; [by left|]).
  destruct (parse_export_selection _ _ _) as [[first last]|]; [|by left].
  destruct (output_path _ _ _) as [path|] eqn:Ep; [|by left]. apply output_path_fresh in Ep.
  destruct (current_export_format _); [|by left]. destruct (negb _); [by left|]. destruct (current_scan s); [|by left].
  case_bool_decide; unfold bind, opened, lift; (destruct (en_open env); cbn [map_err]; [|by left]).
  - destruct (collect_details _ _); [|by left]. right. by eexists _, path.
  - destruct (of_fault _); [|by left]. right. by eexists _, path.
Qed.
(** Saving and exporting never write over a file. *)
Theorem outputs_never_overwrite env s :
  writes_fresh env s (save_current_results env s).2 ∧ writes_fresh env s (export_current_results env s).2.
Proof. split; [apply save_fresh|apply export_fresh]. Qed.

(** A name of the prompt that is that of the file viewed: saving refuses it, and the
    deduplication is started on it. *)
Definition dedup_prompt_of (path name : text) : ViewApp :=
  set_focus FocusDedupPrompt (set_dedup (mkDedupPrompt name Distinct Hash2 None false false) (ViewApp_new [path] Concat false [])).
Definition occupied : Env := mkEnv (Ok tt) [] None (λ _, true) [] 24 (λ p, Ok [p]).
Theorem dedup_overwrites_input :
  let s := dedup_prompt_of (str "logs/a.logjet") (str "a.logjet") in
  let s' := (handle_key to_lowercase occupied (mkKeyEvent KeyEnter false false) s).2 in
  effects s' = [DedupStarted None (str "logs/a.logjet") Distinct Hash2] ∧
  output_path occupied s (str "a.logjet") = None.
Proof. by vm_compute. Qed.

(** A query that cannot be read ends the viewer. *)
Theorem invalid_query_ends_viewer env s e :
  focus s = FocusSearch → tail_mode (tail s) = false →
  parse_filter_query (string_of_chars (query_input s)) (filter_mode s) = Err e →
  (handle_key to_lowercase env (mkKeyEvent KeyEnter false false) s).1 = Err (AppQuery e).
Proof.
  intros Hf Ht He. unfold handle_key, bind, gets. cbn [id]. rewrite Ht. unfold handle_focused_key, bind, gets. rewrite Hf. cbn -[parse_filter_query string_of_chars].
  unfold query_predicate. destruct (tail_attached (tail s)), (current_scan s) eqn:Es; cbn -[parse_filter_query string_of_chars]; rewrite ?Es;
    cbn -[parse_filter_query string_of_chars]; by rewrite He.
Qed.
End Invariant.
