(* ===== verification/PerfettoRpc.v ===== *)
(** * Talking to the trace processor

    [plugins/perfetto-ingest/src/rpc_client.rs] and the query loop of [rpc_reader.rs]: the frames
    of the protocol, the messages in them, and the tables that a query gives.  A reading
    position is the list of the bytes that are left. *)

From S2P Require Import Prelude Text Tokens Format Varint Cel Collector ViewText.

(** [RpcPanic]: an addition that overflows (as overflow checks have it) or an allocation that cannot be made ends the process. *)
Inductive RpcFault : Type := RpcPanic | RpcIo (e : IoError).

(** ** Varints and fields *)

Fixpoint read_varint_loop (rest : list Z) (value shift : Z) : option Z * list Z :=
  match rest with
  | [] => (None, [])
  | byte :: rest =>
      let value := Z.lor value (Z.shiftl (Z.land byte 127) shift mod 2 ^ 64) in
      if Z.land byte 128 =? 0 then (Some value, rest) else
      if 64 <=? shift + 7 then (None, rest) else read_varint_loop rest value (shift + 7)
  end.
Definition read_varint (rest : list Z) : option Z * list Z := read_varint_loop rest 0 0.

(** A [u64] leaves the loop after at most nine turns. *)
Fixpoint write_varint_loop (fuel : nat) (value : Z) : list Z :=
  match fuel with
  | O => [value]
  | S fuel => if 128 <=? value then Z.lor (Z.land value 127) 128 :: write_varint_loop fuel (Z.shiftr value 7) else [value]
  end.
Definition write_varint (value : Z) : list Z := write_varint_loop 10 value.
Definition write_tagged_varint (field value : Z) : list Z := write_varint (Z.shiftl field 3) ++ write_varint value.
Definition write_tagged_bytes (field : Z) (data : list Z) : list Z :=
  write_varint (Z.lor (Z.shiftl field 3) 2) ++ write_varint (len data) ++ data.
Definition write_tagged_str (field : Z) (value : text) : list Z := write_tagged_bytes field value.

Inductive FieldValue : Type := FVarint (v : Z) | FBytes (data : list Z).

(** [total] is the length of the buffer: the end of a field is computed with [usize]. *)
Definition read_next_tag (total : Z) (rest : list Z) : result RpcFault (option (Z * FieldValue * list Z)) :=
  match read_varint rest with
  | (None, _) => Ok None
  | (Some tag_raw, rest) =>
      let field := Z.shiftr tag_raw 3 in
      let wire := Z.land tag_raw 7 in
      if wire =? 0 then
        match read_varint rest with (Some v, rest) => Ok (Some (field, FVarint v, rest)) | (None, _) => Ok None end
      else if wire =? 2 then
        match read_varint rest with
        | (None, _) => Ok None
        | (Some n, rest) =>
            if MAX_U64 <? total - len rest + n then Err RpcPanic else
            if n <=? len rest then Ok (Some (field, FBytes (take (Z.to_nat n) rest), drop (Z.to_nat n) rest)) else Ok None
        end
      else
        match read_varint rest with
        | (None, rest) => Ok (Some (field, FVarint 0, rest))
        | (Some n, rest) =>
            if MAX_U64 <? total - len rest + n then Err RpcPanic
            else Ok (Some (field, FVarint 0, drop (Z.to_nat (Z.min n (len rest))) rest))
        end
  end.

(** The fields of a message, unless one cannot be read *)
Fixpoint read_fields_loop (fuel : nat) (total : Z) (rest : list Z) : result RpcFault (option (list (Z * FieldValue))) :=
  match fuel, rest with
  | S fuel, _ :: _ =>
      let? tag := read_next_tag total rest in
      match tag with
      | None => Ok None
      | Some (field, value, rest) =>
          let? fields := read_fields_loop fuel total rest in
          Ok ((λ fs, (field, value) :: fs) <$> fields)
      end
  | _, _ => Ok (Some [])
  end.
Definition read_fields (buf : list Z) : result RpcFault (option (list (Z * FieldValue))) := read_fields_loop (length buf) (len buf) buf.

(** ** Messages *)

Definition TPM_QUERY_STREAMING : Z := 3.
Definition CELL_VARINT : Z := 2.
Definition CELL_FLOAT64 : Z := 3.
Definition CELL_STRING : Z := 4.

Definition build_query_request (seq : Z) (sql : text) : list Z :=
  let query_args := write_tagged_str 1 sql in
  let rpc := write_tagged_varint 1 seq ++ write_tagged_varint 2 TPM_QUERY_STREAMING ++ write_tagged_bytes 103 query_args in
  10 :: write_varint (len rpc) ++ rpc.

Definition decode_zigzag (v : Z) : Z := Z.lxor (Z.shiftr v 1) (- Z.land v 1).
Fixpoint read_packed_loop (fuel : nat) (rest : list Z) : list Z :=
  match fuel, rest with
  | S fuel, _ :: _ => match read_varint rest with (Some v, rest) => v :: read_packed_loop fuel rest | (None, _) => [] end
  | _, _ => []
  end.
Definition read_packed_varints (data : list Z) : list Z := read_packed_loop (length data) data.

Section Results.
Context {FL : Floats}.
(** [f64::from_le_bytes] on the bits of the number *)
Context (f64_from_bits : Z → F64).

Inductive CellValue : Type := CellNull | CellVarint (v : Z) | CellFloat64 (f : F64) | CellString (s : text).
Record QueryResult : Type := mkQueryResult { column_names : list text; qr_error : option text; rows : list (list CellValue); is_last : bool }.

Fixpoint le_chunks (fuel : nat) (d : list Z) : list Z :=
  match fuel with
  | O => []
  | S fuel => if decide (8 ≤ length d)%nat then from_le (take 8 d) :: le_chunks fuel (drop 8 d) else []
  end.
Definition f64_cells (d : list Z) : list F64 := f64_from_bits <$> le_chunks (length d) d.

Record CellsBatch : Type := mkCellsBatch {
  cb_types : list Z; cb_varints : list Z; cb_floats : list F64; cb_strings : list text; cb_last : bool }.
Definition cells_field (b : CellsBatch) (f : Z * FieldValue) : CellsBatch :=
  let 'mkCellsBatch ts vs fs ss l := b in
  match f with
  | (1, FBytes d) => mkCellsBatch ((λ v, as_i32 (v mod 2 ^ 32)) <$> read_packed_varints d) vs fs ss l
  | (2, FBytes d) => mkCellsBatch ts (decode_zigzag <$> read_packed_varints d) fs ss l
  | (3, FBytes d) => mkCellsBatch ts vs (f64_cells d) ss l
  | (5, FBytes d) => mkCellsBatch ts vs fs (split_on 0 (from_utf8_lossy d)) l
  | (6, FVarint v) => mkCellsBatch ts vs fs ss (negb (v =? 0))
  | _ => b
  end.
(** The cells in the order of their types, each from the next one of its kind; a kind that has run out gives null. *)
Fixpoint cells (types vs : list Z) (fs : list F64) (ss : list text) : list CellValue :=
  match types with
  | [] => []
  | t :: types =>
      if t =? CELL_VARINT then from_option CellVarint CellNull (list.head vs) :: cells types (tail vs) fs ss else
      if t =? CELL_FLOAT64 then from_option CellFloat64 CellNull (list.head fs) :: cells types vs (tail fs) ss else
      if t =? CELL_STRING then from_option CellString CellNull (list.head ss) :: cells types vs fs (tail ss)
      else CellNull :: cells types vs fs ss
  end.
Fixpoint into_rows (nrows ncols : nat) (cs : list CellValue) : list (list CellValue) :=
  match nrows with O => [] | S nrows => take ncols cs :: into_rows nrows ncols (drop ncols cs) end.
Definition decode_cells_batch (data : list Z) (ncols : nat) : result RpcFault (option (list (list CellValue) * bool)) :=
  let? fields := read_fields data in
  Ok (fields ← fields;
      let b := foldl cells_field (mkCellsBatch [] [] [] [] false) fields in
      match ncols with
      | O => Some ([], cb_last b)
      | _ =>
          if decide (length (cb_types b) `mod` ncols = 0)%nat then
            Some (into_rows (length (cb_types b) `div` ncols) ncols (cells (cb_types b) (cb_varints b) (cb_floats b) (cb_strings b)), cb_last b)
          else None
      end).

Fixpoint decode_batches (batches : list (list Z)) (ncols : nat) : result RpcFault (option (list (list CellValue) * bool)) :=
  match batches with
  | [] => Ok (Some ([], false))
  | batch :: batches =>
      let? first := decode_cells_batch batch ncols in
      match first with
      | None => Ok None
      | Some (rs, last) =>
          let? others := decode_batches batches ncols in
          Ok ((λ x, (rs ++ x.1, last || x.2)) <$> others)
      end
  end.
Definition decode_query_result (bs : list Z) (fallback_ncols : option nat) : result RpcFault (option QueryResult) :=
  let? fields := read_fields bs in
  match fields with
  | None => Ok None
  | Some fields =>
      let names := omap (λ f, match f with (1, FBytes d) => Some (from_utf8_lossy d) | _ => None end) fields in
      let errors := omap (λ f, match f with (2, FBytes d) => Some (from_utf8_lossy d) | _ => None end) fields in
      let batches := omap (λ f, match f with (3, FBytes d) => Some d | _ => None end) fields in
      let ncols := match names with [] => default O fallback_ncols | _ => length names end in
      let? decoded := decode_batches batches ncols in
      Ok ((λ x, mkQueryResult names (list.last errors) x.1 x.2) <$> decoded)
  end.
Definition parse_response (rpc_bytes : list Z) (fallback_ncols : option nat) : result RpcFault (option QueryResult) :=
  let? fields := read_fields rpc_bytes in
  match fields with
  | None => Ok None
  | Some fields =>
      let kinds := omap (λ f, match f with (3, v) => Some v | _ => None end) fields in
      let results := omap (λ f, match f with (203, FBytes d) => Some d | _ => None end) fields in
      match list.last kinds, list.last results with
      | Some (FVarint k), Some d => if k =? TPM_QUERY_STREAMING then decode_query_result d fallback_ncols else Ok None
      | _, _ => Ok None
      end
  end.

(** ** Frames and queries *)

Definition eof : RpcFault := RpcIo (io_error UnexpectedEof "failed to fill whole buffer").
(** The length in front of a frame *)
Fixpoint frame_length_loop (stream : list Z) (value shift : Z) : result RpcFault (Z * list Z) :=
  match stream with
  | [] => Err eof
  | byte :: stream =>
      let value := Z.lor value (Z.shiftl (Z.land byte 127) shift mod 2 ^ 64) in
      if Z.land byte 128 =? 0 then Ok (value, stream) else
      if 64 <=? shift + 7 then Err (RpcIo (io_error OtherKind "varint overflow")) else frame_length_loop stream value (shift + 7)
  end.
(** A vector of more than [isize::MAX] bytes cannot be made. *)
Definition read_frame_raw (stream : list Z) : result RpcFault (list Z * list Z) :=
  match stream with
  | [] => Err eof
  | tag :: stream =>
      if negb (tag =? 10) then Err (RpcIo (io_error OtherKind ("bad frame tag: 0x" +:+ text_string (hex_byte tag)))) else
      let? (n, stream) := frame_length_loop stream 0 0 in
      if 2 ^ 63 <=? n then Err RpcPanic else
      if n <=? len stream then Ok (take (Z.to_nat n) stream, drop (Z.to_nat n) stream) else Err eof
  end.

(** What both query loops do with the answer in a frame: [inl] ends the loop. *)
Definition merge_result (acc qr : QueryResult) : QueryResult :=
  mkQueryResult (match column_names qr with [] => column_names acc | ns => ns end) (qr_error acc) (rows acc ++ rows qr) (is_last acc || is_last qr).
Definition take_frame (acc : QueryResult) (frame : list Z) : result RpcFault (QueryResult + QueryResult) :=
  let? parsed := parse_response frame (match column_names acc with [] => None | ns => Some (length ns) end) in
  Ok match parsed with
     | None => inr acc
     | Some qr =>
         match qr_error qr with
         | Some ((_ :: _) as err) =>
             inl (mkQueryResult (match column_names acc with [] => column_names qr | ns => ns end) (Some err) (rows acc) (is_last acc))
         | _ => if is_last qr then inl (merge_result acc qr) else inr (merge_result acc qr)
         end
     end.

Definition empty_result : QueryResult := mkQueryResult [] None [] false.
(** The output of a process that ends: the end of the stream ends the answer, wherever it comes. *)
Fixpoint query_loop (fuel : nat) (stream : list Z) (acc : QueryResult) : result RpcFault QueryResult :=
  match fuel with
  | O => Ok acc
  | S fuel =>
      match read_frame_raw stream with
      | Err (RpcIo e) => if decide (io_kind e = UnexpectedEof) then Ok acc else Err (RpcIo e)
      | Err RpcPanic => Err RpcPanic
      | Ok (frame, stream) =>
          let? next := take_frame acc frame in
          match next with inl done => Ok done | inr acc => query_loop fuel stream acc end
      end
  end.
(** [RpcReader::query]: a process is started for every query; what it writes is the stream. *)
Definition rpc_query (output : result RpcFault (list Z)) : result RpcFault QueryResult :=
  let? stream := output in query_loop (S (length stream)) stream empty_result.

(** [RpcClient]: one process for many queries, with what it has written and is not read *)
Record RpcClient : Type := mkRpcClient { stdin : list Z; stdout : list Z; next_seq : Z }.
Definition connect (stdout : list Z) : RpcClient := mkRpcClient [] stdout 0.
Fixpoint client_frames (fuel : nat) (stream : list Z) (acc : QueryResult) : result RpcFault (QueryResult * list Z) :=
  match fuel with
  | O => Err eof
  | S fuel =>
      let? (frame, stream) := read_frame_raw stream in
      let? next := take_frame acc frame in
      match next with inl done => Ok (done, stream) | inr acc => client_frames fuel stream acc end
  end.
Definition client_query (sql : text) (c : RpcClient) : result RpcFault (QueryResult * RpcClient) :=
  if MAX_U64 <? next_seq c + 1 then Err RpcPanic else
  let? (result, stream) := client_frames (S (length (stdout c))) (stdout c) empty_result in
  Ok (result, mkRpcClient (stdin c ++ build_query_request (next_seq c) sql) stream (next_seq c + 1)).
End Results.

(** ** Varints and fields are read as they were written *)

Lemma write_varint_loop_groups n z : 0 ≤ z → write_varint_loop n z = uvarint_groups n z.
Proof.
  revert z. induction n as [|n IH]; intros z Hz; [done|]. cbn [write_varint_loop uvarint_groups].
  destruct (Z.leb_spec 128 z), (Z.ltb_spec z 128); try lia; [|done].
  rewrite land_7f, lor_80 by (apply Z.mod_pos_bound; lia).
  rewrite Z.shiftr_div_pow2 by lia. change (2 ^ 7) with 128. rewrite IH by (apply Z.div_pos; lia). done.
Qed.
Lemma write_varint_uvarint z : 0 ≤ z → write_varint z = uvarint z.
Proof. apply write_varint_loop_groups. Qed.

Lemma read_varint_loop_cursor rest cursor acc shift v c :
  decode_varint_loop rest cursor acc shift = Ok (v, c) → (cursor ≤ c)%nat.
Proof.
  revert cursor acc shift. induction rest as [|b rest IH]; intros cursor acc shift; cbn [decode_varint_loop]; [done|].
  case_match; [intros [= <- <-]; lia|]. case_match; [done|]. intros H1%IH. lia.
Qed.
Lemma read_varint_decode rest cursor acc shift v c :
  decode_varint_loop rest cursor acc shift = Ok (v, c) → read_varint_loop rest acc shift = (Some v, drop (c - cursor) rest).
Proof.
  revert cursor acc shift. induction rest as [|b rest IH]; intros cursor acc shift; cbn [decode_varint_loop read_varint_loop]; [done|].
  case_match; [intros [= <- <-]; replace (S cursor - cursor)%nat with 1%nat by lia; done|].
  case_match; [done|]. intros H1. rewrite (IH _ _ _ H1). apply read_varint_loop_cursor in H1.
  replace (c - cursor)%nat with (S (c - S cursor)) by lia. done.
Qed.
Lemma frame_length_varint stream acc shift v rest :
  read_varint_loop stream acc shift = (Some v, rest) → frame_length_loop stream acc shift = Ok (v, rest).
Proof.
  revert acc shift. induction stream as [|b stream IH]; intros acc shift; cbn [read_varint_loop frame_length_loop]; [done|].
  case_match; [by intros [= <- <-]|]. case_match; [done|]. apply IH.
Qed.

Lemma read_write_varint z rest : is_u64 z → read_varint (write_varint z ++ rest) = (Some z, rest).
Proof.
  intros Hz. rewrite write_varint_uvarint by int_solve.
  pose proof (decode_uvarint z [] rest Hz) as H. unfold decode_varint in H. cbn [app length] in H. rewrite drop_0 in H.
  apply read_varint_decode in H. unfold read_varint. rewrite H. f_equal.
  rewrite Nat.add_0_l, Nat.sub_0_r. apply drop_app_length.
Qed.
Lemma frame_length_write z rest : is_u64 z → frame_length_loop (write_varint z ++ rest) 0 0 = Ok (z, rest).
Proof. intros Hz. apply frame_length_varint, (read_write_varint z rest Hz). Qed.
Lemma write_varint_loop_length n z : (1 ≤ length (write_varint_loop n z) ≤ S n)%nat.
Proof.
  revert z. induction n as [|n IH]; intros z; cbn [write_varint_loop]; [done|].
  case_match; [specialize (IH (Z.shiftr z 7))|]; cbn [length]; lia.
Qed.
Lemma write_varint_length z : (1 ≤ length (write_varint z) ≤ 11)%nat.
Proof. apply write_varint_loop_length. Qed.

(** The encoding of a field, by the functions that the requests are made with *)
Definition encode_field (f : Z * FieldValue) : list Z :=
  match f with (field, FVarint v) => write_tagged_varint field v | (field, FBytes d) => write_tagged_bytes field d end.
Definition encode_fields (fs : list (Z * FieldValue)) : list Z := concat (encode_field <$> fs).
Definition field_ok (f : Z * FieldValue) : Prop :=
  0 ≤ f.1 < 2 ^ 60 ∧ match f.2 with FVarint v => is_u64 v | FBytes d => len d ≤ MAX_U64 end.

Lemma tag_parts field wire : 0 ≤ wire < 8 → 
  Z.shiftr (Z.lor (Z.shiftl field 3) wire) 3 = field ∧ Z.land (Z.lor (Z.shiftl field 3) wire) 7 = wire.
Proof.
  intros Hw. change 7 with (Z.ones 3). rewrite Z.lor_comm, Z.shiftl_mul_pow2, lor_disjoint by lia.
  rewrite Z.shiftr_div_pow2, Z.land_ones by lia. change (2 ^ 3) with 8. split.
  - rewrite Z.div_add, Z.div_small by lia. lia.
  - rewrite Z.mod_add, Z.mod_small by lia. done.
Qed.
Lemma tag_u64 field wire : 0 ≤ field < 2 ^ 60 → 0 ≤ wire < 8 → is_u64 (Z.lor (Z.shiftl field 3) wire).
Proof. intros ??. rewrite Z.lor_comm, Z.shiftl_mul_pow2, lor_disjoint by lia. int_solve. Qed.

Lemma read_next_tag_encode total f rest :
  field_ok f → total ≤ MAX_U64 → read_next_tag total (encode_field f ++ rest) = Ok (Some (f.1, f.2, rest)).
Proof.
  destruct f as [field [v|d]]; intros [Hf Hv] Ht; cbn [encode_field fst snd] in *;
    unfold read_next_tag, write_tagged_varint, write_tagged_bytes.
  - pose proof (tag_parts field 0 ltac:(lia)) as [E1 E2]. pose proof (tag_u64 field 0 Hf ltac:(lia)) as Hu.
    rewrite Z.lor_0_r in E1, E2, Hu. rewrite <-app_assoc, read_write_varint by done.
    rewrite E1, E2. cbn [Z.eqb]. by rewrite read_write_varint.
  - pose proof (tag_parts field 2 ltac:(lia)) as [E1 E2]. pose proof (tag_u64 field 2 Hf ltac:(lia)) as Hu.
    rewrite <-!app_assoc, read_write_varint by done. rewrite E1, E2. cbn [Z.eqb Pos.eqb].
    rewrite read_write_varint by (split; [apply len_nonneg|done]). rewrite len_app.
    destruct (Z.ltb_spec MAX_U64 (total - (len d + len rest) + len d)) as [Hbad|_]; [pose proof (len_nonneg rest); lia|].
    destruct (Z.leb_spec (len d) (len d + len rest)) as [_|Hbad]; [|pose proof (len_nonneg rest); lia].
    unfold len. by rewrite Nat2Z.id, take_app_length, drop_app_length.
Qed.

Lemma encode_field_length f : (2 ≤ length (encode_field f))%nat.
Proof.
  destruct f as [field [v|d]]; cbn [encode_field]; unfold write_tagged_varint, write_tagged_bytes; rewrite !length_app.
  - pose proof (write_varint_length (Z.shiftl field 3)). pose proof (write_varint_length v). lia.
  - pose proof (write_varint_length (Z.lor (Z.shiftl field 3) 2)). pose proof (write_varint_length (len d)). lia.
Qed.
Lemma read_fields_loop_encode fuel total fs :
  Forall field_ok fs → total ≤ MAX_U64 → (length fs ≤ fuel)%nat → read_fields_loop fuel total (encode_fields fs) = Ok (Some fs).
Proof.
  intros Hfs Ht. revert fuel. induction Hfs as [|f fs Hf Hfs IH]; intros fuel Hl; [by destruct fuel|].
  destruct fuel as [|fuel]; cbn [length] in Hl; [lia|].
  unfold encode_fields. cbn [fmap list_fmap concat]. fold (encode_fields fs).
  pose proof (encode_field_length f) as Hn.
  destruct (encode_field f ++ encode_fields fs) as [|b r] eqn:E.
  { apply (f_equal length) in E. rewrite length_app in E. cbn in E. lia. }
  cbn [read_fields_loop]. rewrite <-E, read_next_tag_encode by done. cbv iota beta.
  rewrite IH by lia. by destruct f.
Qed.
Lemma encode_fields_length fs : (length fs ≤ length (encode_fields fs))%nat.
Proof.
  induction fs as [|f fs IH]; [done|]. unfold encode_fields. cbn [fmap list_fmap concat]. fold (encode_fields fs).
  rewrite length_app. pose proof (encode_field_length f). cbn [length]. lia.
Qed.
Lemma read_fields_encode fs :
  Forall field_ok fs → len (encode_fields fs) ≤ MAX_U64 → read_fields (encode_fields fs) = Ok (Some fs).
Proof. intros Hfs Hl. apply read_fields_loop_encode; [done..|apply encode_fields_length]. Qed.

(** What the trace processor is sent is what it is asked: a query with its number and its SQL. *)
Lemma read_frame_of body rest : len body < 2 ^ 63 → read_frame_raw (10 :: write_varint (len body) ++ body ++ rest) = Ok (body, rest).
Proof.
  intros Hl. pose proof (len_nonneg body) as H0. unfold read_frame_raw. cbn [Z.eqb Pos.eqb negb].
  rewrite frame_length_write by int_solve. cbv iota beta.
  destruct (Z.leb_spec (2 ^ 63) (len body)) as [?|_]; [lia|].
  rewrite len_app. destruct (Z.leb_spec (len body) (len body + len rest)) as [_|?]; [|pose proof (len_nonneg rest); lia].
  unfold len. by rewrite Nat2Z.id, take_app_length, drop_app_length.
Qed.
Lemma len_write_varint z : len (write_varint z) ≤ 11.
Proof. pose proof (write_varint_length z). unfold len. lia. Qed.
Theorem query_request_read seq sql :
  is_u64 seq → len sql < 2 ^ 60 →
  ∃ body args,
    read_frame_raw (build_query_request seq sql) = Ok (body, []) ∧
    read_fields body = Ok (Some [(1, FVarint seq); (2, FVarint TPM_QUERY_STREAMING); (103, FBytes args)]) ∧
    read_fields args = Ok (Some [(1, FBytes sql)]).
Proof.
  intros Hs Hl. unfold build_query_request. cbv zeta. pose proof (len_nonneg sql).
  set (args := write_tagged_str 1 sql). set (body := write_tagged_varint 1 seq ++ _).
  assert (Ea : args = encode_fields [(1, FBytes sql)]) by (unfold encode_fields; cbn [fmap list_fmap concat encode_field]; by rewrite app_nil_r).
  assert (Eb : body = encode_fields [(1, FVarint seq); (2, FVarint TPM_QUERY_STREAMING); (103, FBytes args)]).
  { unfold encode_fields. cbn [fmap list_fmap concat encode_field]. by rewrite app_nil_r. }
  assert (La : len args ≤ len sql + 22).
  { unfold args, write_tagged_str, write_tagged_bytes. rewrite !len_app.
    pose proof (len_write_varint (Z.lor (Z.shiftl 1 3) 2)). pose proof (len_write_varint (len sql)). lia. }
  assert (Lb : len body ≤ len sql + 100).
  { unfold body, write_tagged_varint, write_tagged_bytes. rewrite !len_app.
    repeat match goal with |- context [len (write_varint ?z)] => pose proof (len_write_varint z); generalize dependent (len (write_varint z)); intros end.
    lia. }
  exists body, args. split_and!.
  - rewrite <-(app_nil_r body) at 2. apply read_frame_of. lia.
  - rewrite Eb. apply read_fields_encode; [|rewrite <-Eb; int_solve].
    repeat constructor; cbn [fst snd]; unfold TPM_QUERY_STREAMING; try done; int_solve.
  - rewrite Ea. apply read_fields_encode; [|rewrite <-Ea; int_solve]. repeat constructor; cbn [fst snd]; int_solve.
Qed.

(** ** Answers *)

Lemma read_packed_loop_write fuel vs :
  Forall is_u64 vs → (length vs ≤ fuel)%nat → read_packed_loop fuel (concat (write_varint <$> vs)) = vs.
Proof.
  intros Hvs. revert fuel. induction Hvs as [|v vs Hv Hvs IH]; intros fuel Hl; [by destruct fuel|].
  destruct fuel as [|fuel]; cbn [length] in Hl; [lia|]. cbn [fmap list_fmap concat]. pose proof (write_varint_length v) as Hn.
  destruct (write_varint v ++ concat (write_varint <$> vs)) as [|b r] eqn:E.
  { apply (f_equal length) in E. rewrite length_app in E. cbn [length] in E. lia. }
  cbn [read_packed_loop]. rewrite <-E, read_write_varint by done. by rewrite IH by lia.
Qed.
Lemma read_packed_write vs : Forall is_u64 vs → read_packed_varints (concat (write_varint <$> vs)) = vs.
Proof.
  intros Hvs. apply read_packed_loop_write; [done|]. clear Hvs. induction vs as [|v vs IH]; [done|].
  cbn [fmap list_fmap concat]. rewrite length_app. pose proof (write_varint_length v). cbn [length]. lia.
Qed.

Definition encode_zigzag (z : Z) : Z := if z <? 0 then - 2 * z - 1 else 2 * z.
Lemma decode_zigzag_eq v : decode_zigzag v = Z.lxor (v / 2) (- (v mod 2)).
Proof. unfold decode_zigzag. pose proof (Z.land_ones v 1 ltac:(lia)) as H. change (Z.ones 1) with 1 in H. by rewrite Z.shiftr_div_pow2, H by lia. Qed.
Lemma decode_encode_zigzag z : decode_zigzag (encode_zigzag z) = z.
Proof.
  rewrite decode_zigzag_eq. unfold encode_zigzag. destruct (Z.ltb_spec z 0).
  - replace (-2 * z - 1) with (1 + (- z - 1) * 2) by lia. rewrite Z.div_add, Z.mod_add by lia.
    change (1 / 2) with 0. change (- (1 mod 2)) with (-1). rewrite Z.lxor_m1_r. unfold Z.lnot. lia.
  - rewrite (Z.mul_comm 2), Z.div_mul, Z.mod_mul by lia. apply Z.lxor_0_r.
Qed.

(** A cell as the trace processor has it, and its types and values on the wire *)
Inductive WireCell : Type := WNull | WInt (v : Z) | WFloat (bits : Z) | WText (s : text).
Definition cell_type (c : WireCell) : Z := match c with WNull => 1 | WInt _ => CELL_VARINT | WFloat _ => CELL_FLOAT64 | WText _ => CELL_STRING end.
Definition wire_ok (c : WireCell) : Prop :=
  match c with
  | WNull => True
  | WInt v => - 2 ^ 63 ≤ v < 2 ^ 63
  | WFloat bits => is_u64 bits
  | WText s => Forall (λ b, 0 < b ≤ 127) s
  end.
Definition wire_ints (cs : list WireCell) : list Z := omap (λ c, match c with WInt v => Some v | _ => None end) cs.
Definition wire_floats (cs : list WireCell) : list Z := omap (λ c, match c with WFloat b => Some b | _ => None end) cs.
Definition wire_texts (cs : list WireCell) : list text := omap (λ c, match c with WText s => Some s | _ => None end) cs.
Definition batch_fields (cs : list WireCell) (last : bool) : list (Z * FieldValue) := [
  (1, FBytes (concat (write_varint <$> (cell_type <$> cs))));
  (2, FBytes (concat (write_varint <$> (encode_zigzag <$> wire_ints cs))));
  (3, FBytes (concat (to_le 8 <$> wire_floats cs)));
  (5, FBytes (concat ((λ s, s ++ [0]) <$> wire_texts cs)));
  (6, FVarint (if last then 1 else 0))].

Section Answers.
Context {FL : Floats} (f64_from_bits : Z → F64).

Definition cell_of (c : WireCell) : CellValue :=
  match c with WNull => CellNull | WInt v => CellVarint v | WFloat b => CellFloat64 (f64_from_bits b) | WText s => CellString s end.

Lemma cells_wire cs more :
  cells (cell_type <$> cs) (wire_ints cs) (f64_from_bits <$> wire_floats cs) (wire_texts cs ++ more) = cell_of <$> cs.
Proof. induction cs as [|[|v|b|s] cs IH]; [done|..]; (etrans; [|apply (f_equal2 cons eq_refl IH)]); reflexivity. Qed.

Lemma le_chunks_write fuel bs :
  Forall is_u64 bs → (length bs ≤ fuel)%nat → le_chunks fuel (concat (to_le 8 <$> bs)) = bs.
Proof.
  intros Hbs. revert fuel. induction Hbs as [|b bs Hb Hbs IH]; intros fuel Hl; [by destruct fuel|].
  destruct fuel as [|fuel]; cbn [length] in Hl; [lia|]. cbn [fmap list_fmap concat].
  cbn [le_chunks]. rewrite decide_True by (rewrite length_app, length_to_le; lia).
  rewrite take_app_length', drop_app_length' by (by rewrite length_to_le).
  rewrite from_le_to_le, IH by (try int_solve; lia). done.
Qed.
Lemma f64_cells_write bs : Forall is_u64 bs → f64_cells f64_from_bits (concat (to_le 8 <$> bs)) = f64_from_bits <$> bs.
Proof.
  intros Hbs. unfold f64_cells. rewrite le_chunks_write; [done..|]. clear Hbs.
  induction bs as [|b bs IH]; [done|]. cbn [fmap list_fmap concat]. rewrite length_app, length_to_le. cbn [length]. lia.
Qed.
Lemma split_texts ss : Forall (Forall (λ b, 0 < b ≤ 127)) ss → split_on 0 (concat ((λ s, s ++ [0]) <$> ss)) = ss ++ [[]].
Proof.
  induction 1 as [|s ss Hs Hss IH]; [done|]. cbn [fmap list_fmap concat]. rewrite <-app_assoc. cbn [app].
  rewrite split_on_sep, IH, split_on_plain; [done|]. intros H0. rewrite list.Forall_forall in Hs. specialize (Hs _ H0). lia.
Qed.

Lemma into_rows_concat ncols (rs : list (list CellValue)) :
  Forall (λ r, length r = ncols) rs → into_rows (length rs) ncols (concat rs) = rs.
Proof.
  induction 1 as [|r rs Hr Hrs IH]; [done|]. cbn [length into_rows concat].
  rewrite take_app_length', drop_app_length' by done. by rewrite IH.
Qed.
Lemma length_concat_rows {A} ncols (rs : list (list A)) : Forall (λ r, length r = ncols) rs → length (concat rs) = (length rs * ncols)%nat.
Proof. induction 1 as [|r rs Hr Hrs IH]; [done|]. cbn [length concat]. rewrite length_app, IH, Hr. lia. Qed.

Definition batch_ok (ncols : nat) (rs : list (list WireCell)) (last : bool) : Prop :=
  Forall (λ r, length r = ncols) rs ∧ Forall wire_ok (concat rs) ∧ len (encode_fields (batch_fields (concat rs) last)) ≤ MAX_U64.

Lemma wire_parts_ok cs :
  Forall wire_ok cs →
  Forall is_u64 (encode_zigzag <$> wire_ints cs) ∧ Forall is_u64 (wire_floats cs) ∧ Forall (Forall (λ b, 0 < b ≤ 127)) (wire_texts cs).
Proof.
  induction 1 as [|[|v|b|s] cs Hc Hcs (IH1 & IH2 & IH3)]; [done|..]; cbn [wire_ok] in Hc; cbn; split_and!; try done; try (by constructor).
  constructor; [|done]. unfold encode_zigzag. case_match; int_solve.
Qed.
Lemma concat_texts_ascii (ss : list text) : Forall (Forall (λ b, 0 < b ≤ 127)) ss → Forall (λ b, 0 ≤ b ≤ 127) (concat ((λ s, s ++ [0]) <$> ss)).
Proof.
  induction 1 as [|s ss Hs Hss IH]; [done|]. cbn [fmap list_fmap concat]. apply Forall_app; split; [|done].
  apply Forall_app; split; [|by repeat constructor]. eapply list.Forall_impl; [exact Hs|]. cbn. lia.
Qed.
Lemma len_encode_field_le f fs : f ∈ fs → len (encode_field f) ≤ len (encode_fields fs).
Proof.
  induction 1 as [f fs|f g fs _ IH]; unfold encode_fields; cbn [fmap list_fmap concat]; fold (encode_fields fs); rewrite len_app.
  - pose proof (len_nonneg (encode_fields fs)). lia.
  - pose proof (len_nonneg (encode_field g)). lia.
Qed.
Lemma encode_field_bytes_le f d : len d ≤ len (encode_field (f, FBytes d)).
Proof.
  cbn [encode_field]. unfold write_tagged_bytes. rewrite !len_app.
  pose proof (len_nonneg (write_varint (Z.lor (Z.shiftl f 3) 2))). pose proof (len_nonneg (write_varint (len d))). lia.
Qed.
(** A field of a message that is short enough is in range when its number is. *)
Lemma fields_ok fs :
  Forall (λ f, 0 ≤ f.1 < 2 ^ 60 ∧ match f.2 with FVarint v => is_u64 v | _ => True end) fs → len (encode_fields fs) ≤ MAX_U64 → Forall field_ok fs.
Proof.
  intros Hfs Hl. apply list.Forall_forall. intros [f [v|d]] Hin; rewrite list.Forall_forall in Hfs; destruct (Hfs _ Hin) as [H1 H2]; (split; [done|]); cbn [snd]; [done|].
  pose proof (len_encode_field_le _ _ Hin). pose proof (encode_field_bytes_le f d). lia.
Qed.

Lemma cell_types_u64 (cs : list WireCell) : Forall is_u64 (cell_type <$> cs).
Proof. induction cs as [|[] cs IH]; constructor; try done; int_solve. Qed.
Lemma cell_types_i32 (cs : list WireCell) : (λ v, as_i32 (v mod 2 ^ 32)) <$> (cell_type <$> cs) = cell_type <$> cs.
Proof. induction cs as [|[] cs IH]; [done|..]; cbn [fmap list_fmap]; f_equal; apply IH. Qed.
Lemma decode_batch_encode ncols rs last :
  (0 < ncols)%nat → batch_ok ncols rs last →
  decode_cells_batch f64_from_bits (encode_fields (batch_fields (concat rs) last)) ncols = Ok (Some (map cell_of <$> rs, last)).
Proof.
  intros Hn (Hr & Hw & Hl). destruct (wire_parts_ok _ Hw) as (H1 & H2 & H3). unfold decode_cells_batch.
  rewrite read_fields_encode; [|apply fields_ok; [repeat constructor; cbn; try (destruct last); int_solve|done]|done].
  cbv iota beta. f_equal. unfold mbind, option_bind. set (b := foldl _ _ _).
  assert (Eb : b = mkCellsBatch (cell_type <$> concat rs) (wire_ints (concat rs)) (f64_from_bits <$> wire_floats (concat rs)) (wire_texts (concat rs) ++ [[]]) last).
  { unfold b, batch_fields. cbn [foldl cells_field].
    rewrite !read_packed_write, f64_cells_write, from_utf8_lossy_ascii, split_texts by (try done; by apply concat_texts_ascii || by apply cell_types_u64).
    f_equal; [apply cell_types_i32|..|by destruct last].
    rewrite <-list_fmap_compose. rewrite (list_fmap_ext _ id); [apply list_fmap_id|]. intros i z _. apply decode_encode_zigzag. }
  rewrite Eb. cbn [cb_types cb_varints cb_floats cb_strings cb_last]. rewrite cells_wire, length_fmap, (length_concat_rows ncols) by done.
  destruct ncols as [|n]; [lia|]. rewrite Nat.Div0.mod_mul, decide_True, Nat.div_mul by done.
  do 2 f_equal. etrans; [apply (f_equal _ (List.concat_map cell_of rs))|]. rewrite <-(length_fmap (map cell_of) rs). apply into_rows_concat.
  apply Forall_fmap. eapply list.Forall_impl; [exact Hr|]. intros r. cbn. by rewrite length_fmap.
Qed.

(** A frame of an answer: the names of the columns in front of the cells *)
Definition result_fields (names : list text) (rs : list (list WireCell)) (last : bool) : list (Z * FieldValue) :=
  ((λ n, (1, FBytes n)) <$> names) ++ [(3, FBytes (encode_fields (batch_fields (concat rs) last)))].
Definition answer_fields (names : list text) (rs : list (list WireCell)) (last : bool) : list (Z * FieldValue) :=
  [(1, FVarint 0); (3, FVarint TPM_QUERY_STREAMING); (203, FBytes (encode_fields (result_fields names rs last)))].
Definition answer_frame (names : list text) (rs : list (list WireCell)) (last : bool) : list Z :=
  let body := encode_fields (answer_fields names rs last) in 10 :: write_varint (len body) ++ body.
Definition answer_ok (ncols : nat) (names : list text) (rs : list (list WireCell)) (last : bool) : Prop :=
  Forall (Forall (λ b, 0 ≤ b ≤ 127)) names ∧ Forall (λ r, length r = ncols) rs ∧ Forall wire_ok (concat rs) ∧
  len (encode_fields (answer_fields names rs last)) < 2 ^ 63.

Lemma nested_len_le f d fs n : (f, FBytes d) ∈ fs → len (encode_fields fs) < n → len d < n.
Proof. intros Hin Hl. pose proof (len_encode_field_le _ _ Hin). pose proof (encode_field_bytes_le f d). lia. Qed.
Lemma answer_names (names : list text) d : Forall (Forall (λ b, 0 ≤ b ≤ 127)) names →
  omap (λ f, match f with (1, FBytes d) => Some (from_utf8_lossy d) | _ => None end) (((λ n, (1, FBytes n)) <$> names) ++ [(3, FBytes d)]) = names.
Proof. induction 1 as [|n ns Hn Hns IH]; [done|]. cbn. rewrite from_utf8_lossy_ascii by done. f_equal. exact IH. Qed.
Lemma answer_errors (names : list text) d :
  omap (λ f, match f with (2, FBytes d) => Some (from_utf8_lossy d) | _ => None end) (((λ n, (1, FBytes n)) <$> names) ++ [(3, FBytes d)]) = [].
Proof. induction names as [|n ns IH]; [done|]. exact IH. Qed.
Lemma answer_batches (names : list text) d :
  omap (λ f, match f with (3, FBytes d) => Some d | _ => None end) (((λ n, (1, FBytes n)) <$> names) ++ [(3, FBytes d)]) = [d].
Proof. induction names as [|n ns IH]; [done|]. exact IH. Qed.

Lemma parse_answer ncols names rs last fallback :
  (0 < ncols)%nat → answer_ok ncols names rs last → ncols = match names with [] => default O fallback | _ => length names end →
  parse_response f64_from_bits (encode_fields (answer_fields names rs last)) fallback
    = Ok (Some (mkQueryResult names None (map cell_of <$> rs) last)).
Proof.
  intros Hn (Hna & Hr & Hw & Hl) Hc.
  assert (Hl1 : len (encode_fields (result_fields names rs last)) < 2 ^ 63).
  { eapply (nested_len_le 203); [|exact Hl]. unfold answer_fields. set_solver. }
  assert (Hl2 : len (encode_fields (batch_fields (concat rs) last)) < 2 ^ 63).
  { eapply (nested_len_le 3); [|exact Hl1]. unfold result_fields. set_solver. }
  unfold parse_response. rewrite read_fields_encode; [|apply fields_ok; [repeat constructor; cbn; unfold TPM_QUERY_STREAMING; int_solve|int_solve]|int_solve].
  cbv iota beta. cbn [answer_fields omap list_omap list.last Z.eqb Pos.eqb TPM_QUERY_STREAMING].
  unfold decode_query_result. rewrite read_fields_encode; [|apply fields_ok; [|int_solve]|int_solve].
  2:{ unfold result_fields. apply Forall_app; split; [apply Forall_fmap, list.Forall_true; cbn; lia|repeat constructor; cbn; lia]. }
  cbv iota beta. unfold result_fields. rewrite answer_names, answer_errors, answer_batches by done. cbn [decode_batches].
  rewrite <-Hc, decode_batch_encode; [|done|split_and!; [done..|int_solve]].
  cbn. by rewrite app_nil_r, orb_false_r.
Qed.

(** An answer in several frames: the first has the names, the last one says so. *)
Fixpoint answer_stream (names : list text) (batches : list (list (list WireCell))) : list Z :=
  match batches with
  | [] => []
  | [rs] => answer_frame names rs true
  | rs :: batches => answer_frame names rs false ++ answer_stream [] batches
  end.
Fixpoint stream_ok (ncols : nat) (names : list text) (batches : list (list (list WireCell))) : Prop :=
  match batches with
  | [] => False
  | [rs] => answer_ok ncols names rs true
  | rs :: batches => answer_ok ncols names rs false ∧ stream_ok ncols [] batches
  end.

Lemma read_answer_frame ncols names rs last rest :
  answer_ok ncols names rs last → read_frame_raw (answer_frame names rs last ++ rest) = Ok (encode_fields (answer_fields names rs last), rest).
Proof. intros (_ & _ & _ & Hl). unfold answer_frame. cbv zeta. cbn [app]. rewrite <-app_assoc. by apply read_frame_of. Qed.
Lemma take_answer ncols names rs last acc :
  (0 < ncols)%nat → answer_ok ncols names rs last → qr_error acc = None → is_last acc = false →
  (column_names acc = [] ∧ length names = ncols ∨ names = [] ∧ length (column_names acc) = ncols) →
  take_frame f64_from_bits acc (encode_fields (answer_fields names rs last))
    = Ok ((if last then inl else inr) (mkQueryResult (column_names acc ++ names) None (rows acc ++ (map cell_of <$> rs)) last)).
Proof.
  intros Hn Hok He Hl Hc. unfold take_frame.
  rewrite (parse_answer ncols) by (first [done | destruct Hc as [[-> <-]|[-> <-]]; [by destruct names|by destruct (column_names acc)]]).
  cbv iota beta. cbn [qr_error is_last]. unfold merge_result. cbn [qr_error is_last column_names rows]. rewrite He, Hl.
  destruct Hc as [[-> Hc]|[-> Hc]]; [destruct names; [cbn in Hc; lia|]|rewrite app_nil_r]; by destruct last.
Qed.

Lemma query_loop_answer ncols fuel names batches junk acc :
  (0 < ncols)%nat → stream_ok ncols names batches → (length batches ≤ fuel)%nat → qr_error acc = None → is_last acc = false →
  (column_names acc = [] ∧ length names = ncols ∨ names = [] ∧ length (column_names acc) = ncols) →
  query_loop f64_from_bits fuel (answer_stream names batches ++ junk) acc
    = Ok (mkQueryResult (column_names acc ++ names) None (rows acc ++ (map cell_of <$> concat batches)) true) ∧
  client_frames f64_from_bits fuel (answer_stream names batches ++ junk) acc
    = Ok (mkQueryResult (column_names acc ++ names) None (rows acc ++ (map cell_of <$> concat batches)) true, junk).
Proof.
  intros Hn. revert fuel names acc. induction batches as [|rs batches IH]; intros fuel names acc Hok Hf He Hl Hc; [done|].
  destruct fuel as [|fuel]; [cbn in Hf; lia|]. cbn [length] in Hf. destruct batches as [|rs' batches].
  - cbn [answer_stream stream_ok concat query_loop client_frames] in *. rewrite (read_answer_frame ncols) by done. cbv iota beta.
    rewrite (take_answer ncols) by done. by rewrite app_nil_r.
  - destruct Hok as [Hok Hoks]. change (answer_stream names (rs :: rs' :: batches)) with (answer_frame names rs false ++ answer_stream [] (rs' :: batches)).
    rewrite <-app_assoc. cbn [query_loop client_frames]. rewrite (read_answer_frame ncols) by done. cbv iota beta.
    rewrite (take_answer ncols) by done. cbv iota beta.
    change (concat (rs :: rs' :: batches)) with (rs ++ concat (rs' :: batches)). rewrite fmap_app.
    destruct (IH fuel [] (mkQueryResult (column_names acc ++ names) None (rows acc ++ (map cell_of <$> rs)) false)) as [-> ->];
      [done|lia|done|done| |cbn [column_names rows]; by rewrite app_nil_r, <-!app_assoc].
    right. cbn [column_names]. rewrite length_app. destruct Hc as [[-> <-]|[-> <-]]; cbn; auto with lia.
Qed.

Lemma query_table names batches junk :
  stream_ok (length names) names batches → names ≠ [] →
  rpc_query f64_from_bits (Ok (answer_stream names batches ++ junk)) = Ok (mkQueryResult names None (map cell_of <$> concat batches) true) ∧
  ∀ sql, client_query f64_from_bits sql (connect (answer_stream names batches ++ junk))
    = Ok (mkQueryResult names None (map cell_of <$> concat batches) true, mkRpcClient (build_query_request 0 sql) junk 1).
Proof.
  intros Hok Hn. assert (0 < length names)%nat by (destruct names; [done|cbn; lia]).
  assert (Hf : (length batches ≤ S (length (answer_stream names batches ++ junk)))%nat).
  { rewrite length_app. clear. cut (length batches ≤ length (answer_stream names batches))%nat; [lia|].
    revert names. induction batches as [|rs [|rs' bs] IH]; intros names; [cbn; lia|cbn; lia|].
    specialize (IH []). change (answer_stream names (rs :: rs' :: bs)) with (answer_frame names rs false ++ answer_stream [] (rs' :: bs)).
    rewrite length_app. unfold answer_frame at 1. cbn [length] in *. lia. }
  destruct (query_loop_answer (length names) _ names batches junk empty_result H Hok Hf eq_refl eq_refl) as [H1 H2]; [by left|].
  split; [exact H1|]. intros sql. unfold client_query, connect. cbn [next_seq stdout stdin]. cbn [Z.ltb Z.compare MAX_U64].
  by rewrite H2.
Qed.
(** A query of the Perfetto plugin gives the whole table: whatever the number of frames, all the rows of the
    answer in their order, each cell in its column with its type and value; the client that keeps its process leaves what follows. *)
Theorem query_collects_table names batches junk :
  stream_ok (length names) names batches → names ≠ [] →
  rpc_query f64_from_bits (Ok (answer_stream names batches ++ junk)) = Ok (mkQueryResult names None (map cell_of <$> concat batches) true) ∧
  ∀ sql, client_query f64_from_bits sql (connect (answer_stream names batches ++ junk))
    = Ok (mkQueryResult names None (map cell_of <$> concat batches) true, mkRpcClient (build_query_request 0 sql) junk 1).
Proof. apply query_table. Qed.
End Answers.

#[export] Instance wire_ok_dec c : Decision (wire_ok c).
Proof. destruct c; cbn [wire_ok]; apply _. Defined.
#[export] Instance answer_ok_dec ncols names rs last : Decision (answer_ok ncols names rs last).
Proof. unfold answer_ok. apply _. Defined.
Definition sample_batches : list (list (list WireCell)) :=
  [[[WInt (-5); WText (str "idle")]; [WInt 7; WNull]]; [[WNull; WText (str "busy")]; [WFloat 4607182418800017408; WText []]]].
Lemma query_collects_table_witness :
  rpc_query (FL := sample_floats) id (Ok (answer_stream [str "id"; str "name"] sample_batches ++ [1; 2]))
    = Ok (mkQueryResult (FL := sample_floats) [str "id"; str "name"] None (map (cell_of (FL := sample_floats) id) <$> concat sample_batches) true).
Proof.
  apply (query_collects_table (FL := sample_floats) id [str "id"; str "name"] sample_batches [1; 2]); [|done].
  split; apply (bool_decide_unpack _); vm_compute; exact I.
Defined.

(** ** Findings *)

(** A process that dies in the middle of its second frame: the query of the plugin gives the rows of the first
    as its answer, while the client that keeps its process reports the end of the stream. *)
Lemma rpc_truncated_answer_accepted :
  let cut := take 60 (answer_stream [str "id"; str "name"] sample_batches) in
  rpc_query (FL := sample_floats) id (Ok cut)
    = Ok (mkQueryResult (FL := sample_floats) [str "id"; str "name"] None [[CellVarint (FL := sample_floats) (-5); CellString (FL := sample_floats) (str "idle")]; [CellVarint (FL := sample_floats) 7; CellNull (FL := sample_floats)]] false) ∧
  client_query (FL := sample_floats) id (str "SELECT") (connect cut) = Err eof.
Proof. split; vm_compute; reflexivity. Qed.
(** A length near the end of [u64] overflows the position. *)
Lemma rpc_length_overflow_panics : read_fields (10 :: write_varint MAX_U64) = Err RpcPanic.
Proof. vm_compute. reflexivity. Qed.
