(* ===== verification/PerfettoReader.v ===== *)
(** * Reading a trace

    The tables of a Perfetto trace as [plugins/perfetto-ingest/src/sqlite_reader.rs] reads them from an
    exported database and as [rpc_reader.rs] reads them from the answers of the trace processor,
    behind the trait [Reader] of [lib.rs]. *)

From S2P Require Import Prelude Text Tokens Format Varint Cel Collector ViewText PerfettoRpc.

(** ** Rows *)

Record PerfettoSlice : Type := mkSlice {
  ps_id : Z; ps_ts : Z; ps_dur : Z; ps_name : option text; ps_parent_id : option Z; ps_track_id : Z; ps_arg_set_id : option Z; ps_depth : Z }.
Record PerfettoFlow : Type := mkFlow { pf_id : Z; pf_slice_out : Z; pf_slice_in : Z }.
Record PerfettoProcess : Type := mkProcess { pp_upid : Z; pp_name : option text; pp_pid : option Z }.
Record PerfettoThread : Type := mkThread { pt_utid : Z; pt_name : option text; pt_tid : option Z; pt_upid : option Z; pt_is_main_thread : bool }.
Record PerfettoTrack : Type := mkTrack { pk_id : Z; pk_name : option text; pk_track_type : option text; pk_utid : option Z; pk_upid : option Z }.
Record PerfettoClockSnapshot : Type := mkSnapshot { cs_ts : Z; cs_clock_value : Z }.
Record PerfettoSchedSlice : Type := mkSched { sd_id : Z; sd_ts : Z; sd_dur : Z; sd_utid : Z; sd_cpu : Z; sd_end_state : option text }.
Record PerfettoThreadState : Type := mkThreadState {
  st_id : Z; st_ts : Z; st_dur : Z; st_utid : Z; st_state : option text; st_io_wait : option bool; st_blocked_function : option text;
  st_waker_utid : option Z; st_cpu : option Z }.
Record PerfettoFtraceEvent : Type := mkFtrace { fe_id : Z; fe_ts : Z; fe_name : option text; fe_cpu : option Z; fe_utid : option Z }.
Record PerfettoSpuriousWakeup : Type := mkWakeup { sw_id : Z; sw_ts : Z; sw_utid : option Z; sw_waker_utid : option Z }.
Record PerfettoInstant : Type := mkInstant { in_ts : Z; in_track_id : Z; in_name : option text }.
Record PerfettoCpu : Type := mkCpu { pc_id : Z; pc_cpu : option Z; pc_cluster_id : Z; pc_processor : option text }.
Record PerfettoMachine : Type := mkMachine {
  pm_id : Z; pm_arch : option text; pm_num_cpus : option Z; pm_sysname : option text; pm_release : option text }.
Record PerfettoMetadata : Type := mkMetadata { md_name : option text; md_int_value : option Z; md_str_value : option text }.
Record PerfettoMemorySnapshot : Type := mkMemory { ms_id : Z; ms_timestamp : Z; ms_track_id : Z; ms_detail_level : option text }.
Record PerfettoCpuProfileSample : Type := mkSample { sa_id : Z; sa_ts : Z; sa_callsite_id : Z; sa_utid : Z }.
Record PerfettoStackFrame : Type := mkStackFrame { sf_id : Z; sf_name : option text; sf_mapping_id : Z }.
Record PerfettoHeapAllocation : Type := mkHeap { ha_id : Z; ha_ts : Z; ha_upid : Z; ha_size : Z; ha_count : Z }.
Record PerfettoProtolog : Type := mkProtolog { pl_id : Z; pl_ts : Z; pl_level : option text; pl_tag : option text; pl_message : option text }.
Record PerfettoAndroidLog : Type := mkAndroidLog { al_id : Z; al_ts : Z; al_utid : Z; al_prio : Z; al_tag : option text; al_msg : option text }.
Record PerfettoFileDescriptor : Type := mkFd { fd_id : Z; fd_ufd : Z; fd_fd : Z; fd_ts : Z; fd_upid : Z; fd_path : option text }.

Section FloatRows.
Context {FL : Floats}.
Record PerfettoArg : Type := mkArg {
  ar_arg_set_id : Z; ar_key : text; ar_string_value : option text; ar_int_value : option Z; ar_real_value : option F64 }.
Record PerfettoCounter : Type := mkCounter { co_id : Z; co_ts : Z; co_track_id : Z; co_value : F64 }.
End FloatRows.

(** ** The trait *)

(** A read fails with a message, or the process ends. *)
Inductive ReadFault : Type := ReadPanic | ReadErr (msg : text).
(** The slices are read twice, the second time to count them. *)
Record Reader : Type := mkReader {
  read_clock_snapshots : result ReadFault (list PerfettoClockSnapshot);
  read_slices : result ReadFault (list PerfettoSlice);
  read_sched_slices : result ReadFault (list PerfettoSchedSlice);
  read_thread_states : result ReadFault (list PerfettoThreadState);
  read_ftrace_events : result ReadFault (list PerfettoFtraceEvent);
  read_spurious_wakeups : result ReadFault (list PerfettoSpuriousWakeup);
  read_instants : result ReadFault (list PerfettoInstant);
  read_threads : result ReadFault (list PerfettoThread);
  read_processes : result ReadFault (list PerfettoProcess);
  read_slices_again : result ReadFault (list PerfettoSlice) }.

(** ** The tables of the trait and the queries for them *)

Inductive Table : Type := Slices | SchedSlices | ThreadStates | FtraceEvents | SpuriousWakeups | Instants | Threads | Processes | ClockSnapshots.
(** A newline and the indent of the source between the clauses *)
Definition indent_by (n : nat) : text := 10 :: replicate n 32.
Definition indent : text := indent_by 17.
Definition db_sql (t : Table) : text :=
  match t with
  | Slices => str "SELECT id, ts, dur, name, parent_id, track_id, arg_set_id, depth" ++ indent ++ str "FROM slice" ++ indent ++ str "ORDER BY ts"
  | SchedSlices => str "SELECT id, ts, dur, utid, ucpu, end_state" ++ indent ++ str "FROM sched_slice" ++ indent ++ str "ORDER BY ts"
  | ThreadStates => str "SELECT id, ts, dur, utid, state, io_wait, blocked_function, waker_utid, cpu" ++ indent ++ str "FROM thread_state" ++ indent ++ str "ORDER BY ts"
  | FtraceEvents => str "SELECT id, ts, name, cpu, utid" ++ indent ++ str "FROM ftrace_event" ++ indent ++ str "ORDER BY ts"
  | SpuriousWakeups => str "SELECT id, ts, utid, waker_utid" ++ indent ++ str "FROM spurious_sched_wakeup" ++ indent ++ str "ORDER BY ts"
  | Instants => str "SELECT ts, track_id, name FROM instant ORDER BY ts"
  | Threads => str "SELECT utid, name, tid, upid, is_main_thread FROM thread ORDER BY utid"
  | Processes => str "SELECT upid, name, pid FROM process ORDER BY upid"
  | ClockSnapshots => str "SELECT ts, clock_value" ++ indent ++ str "FROM clock_snapshot" ++ indent ++ str "WHERE clock_name = 'REALTIME'" ++ indent ++ str "ORDER BY ts"
  end.
Definition rpc_sql (t : Table) : string :=
  match t with
  | Slices => "SELECT id, ts, dur, name, parent_id, track_id, arg_set_id, depth FROM slice ORDER BY ts"
  | SchedSlices => "SELECT id, ts, dur, utid, ucpu, end_state FROM sched_slice ORDER BY ts"
  | ThreadStates => "SELECT id, ts, dur, utid, state, io_wait, blocked_function, waker_utid, cpu FROM thread_state ORDER BY ts"
  | FtraceEvents => "SELECT id, ts, name, cpu, utid FROM ftrace_event ORDER BY ts"
  | SpuriousWakeups => "SELECT id, ts, utid, waker_utid FROM spurious_sched_wakeup ORDER BY ts"
  | Instants => "SELECT ts, track_id, name FROM instant ORDER BY ts"
  | Threads => "SELECT utid, name, tid, upid, is_main_thread FROM thread ORDER BY utid"
  | Processes => "SELECT upid, name, pid FROM process ORDER BY upid"
  | ClockSnapshots => "SELECT ts, clock_value FROM clock_snapshot WHERE clock_name = 'REALTIME' ORDER BY ts"
  end.
(** The columns, in the order of the queries *)
Definition columns (t : Table) : list string :=
  match t with
  | Slices => ["id"; "ts"; "dur"; "name"; "parent_id"; "track_id"; "arg_set_id"; "depth"]
  | SchedSlices => ["id"; "ts"; "dur"; "utid"; "ucpu"; "end_state"]
  | ThreadStates => ["id"; "ts"; "dur"; "utid"; "state"; "io_wait"; "blocked_function"; "waker_utid"; "cpu"]
  | FtraceEvents => ["id"; "ts"; "name"; "cpu"; "utid"]
  | SpuriousWakeups => ["id"; "ts"; "utid"; "waker_utid"]
  | Instants => ["ts"; "track_id"; "name"]
  | Threads => ["utid"; "name"; "tid"; "upid"; "is_main_thread"]
  | Processes => ["upid"; "name"; "pid"]
  | ClockSnapshots => ["ts"; "clock_value"]
  end%string.

(** ** The exported database *)

(** [rusqlite]: a prepared statement gives its rows, each of which may fail; a column is read at a type.  Errors are
    the texts they print. *)
Class Sqlite {FL : Floats} : Type := {
  Stmt : Type;
  Row : Type;
  prepare : text → result text Stmt;
  query_map : Stmt → list Z → result text (list (result text Row));
  get_i64 : Row → nat → result text Z;
  get_i32 : Row → nat → result text Z;
  get_text : Row → nat → result text text;
  get_opt_i64 : Row → nat → result text (option Z);
  get_opt_i32 : Row → nat → result text (option Z);
  get_opt_text : Row → nat → result text (option text);
  get_f64 : Row → nat → result text F64;
  get_opt_f64 : Row → nat → result text (option F64);
}.

Section Database.
Context {FL : Floats} {SQ : Sqlite}.

(** The loop over the rows ends at the first that fails. *)
Fixpoint collect_rows {A} (read : Row → result text A) (rows : list (result text Row)) : result text (list A) :=
  match rows with
  | [] => Ok []
  | row :: rows =>
      let? row := row in
      let? a := read row in
      let? others := collect_rows read rows in
      Ok (a :: others)
  end.
Definition query_with {A} (prepared queried rowed : string) (sql : text) (params : list Z) (read : Row → result text A)
    : result ReadFault (list A) :=
  let? stmt := map_err (λ e, ReadErr (str "failed to prepare " ++ str prepared ++ str ": " ++ e)) (prepare sql) in
  let? rows := map_err (λ e, ReadErr (str "failed to query " ++ str queried ++ str ": " ++ e)) (query_map stmt params) in
  map_err (λ e, ReadErr (str "failed to read " ++ str rowed ++ str ": " ++ e)) (collect_rows read rows).

Definition slice_row (row : Row) : result text PerfettoSlice :=
  let? id := get_i64 row 0 in let? ts := get_i64 row 1 in let? dur := get_i64 row 2 in let? name := get_opt_text row 3 in
  let? parent_id := get_opt_i64 row 4 in let? track_id := get_i64 row 5 in let? arg_set_id := get_opt_i64 row 6 in let? depth := get_i32 row 7 in
  Ok (mkSlice id ts dur name parent_id track_id arg_set_id depth).
Definition db_read_slices : result ReadFault (list PerfettoSlice) :=
  query_with "slice query" "slices" "slice row" (db_sql Slices) [] slice_row.
Definition flow_row (row : Row) : result text PerfettoFlow :=
  let? id := get_i64 row 0 in let? out := get_i64 row 1 in let? into := get_i64 row 2 in Ok (mkFlow id out into).
Definition db_read_flows : result ReadFault (list PerfettoFlow) :=
  query_with "flow query" "flows" "flow row" (str "SELECT id, slice_out, slice_in FROM flow ORDER BY id") [] flow_row.
Definition process_row (row : Row) : result text PerfettoProcess :=
  let? upid := get_i64 row 0 in let? name := get_opt_text row 1 in let? pid := get_opt_i64 row 2 in Ok (mkProcess upid name pid).
Definition db_read_processes : result ReadFault (list PerfettoProcess) :=
  query_with "process query" "processes" "process row" (db_sql Processes) [] process_row.
Definition thread_row (row : Row) : result text PerfettoThread :=
  let? utid := get_i64 row 0 in let? name := get_opt_text row 1 in let? tid := get_opt_i64 row 2 in let? upid := get_opt_i64 row 3 in
  let? main := get_opt_i32 row 4 in
  Ok (mkThread utid name tid upid (negb (default 0 main =? 0))).
Definition db_read_threads : result ReadFault (list PerfettoThread) :=
  query_with "thread query" "threads" "thread row" (db_sql Threads) [] thread_row.
Definition track_row (row : Row) : result text PerfettoTrack :=
  let? id := get_i64 row 0 in let? name := get_opt_text row 1 in let? type := get_opt_text row 2 in let? utid := get_opt_i64 row 3 in
  let? upid := get_opt_i64 row 4 in Ok (mkTrack id name type utid upid).
Definition db_read_tracks : result ReadFault (list PerfettoTrack) :=
  query_with "track query" "tracks" "track row" (str "SELECT id, name, type, utid, upid FROM __intrinsic_track ORDER BY id") [] track_row.
Definition snapshot_row (row : Row) : result text PerfettoClockSnapshot :=
  let? ts := get_i64 row 0 in let? value := get_i64 row 1 in Ok (mkSnapshot ts value).
Definition db_read_clock_snapshots : result ReadFault (list PerfettoClockSnapshot) :=
  query_with "clock_snapshot query" "clock_snapshots" "clock_snapshot row" (db_sql ClockSnapshots) [] snapshot_row.
Definition sched_row (row : Row) : result text PerfettoSchedSlice :=
  let? id := get_i64 row 0 in let? ts := get_i64 row 1 in let? dur := get_i64 row 2 in let? utid := get_i64 row 3 in
  let? cpu := get_i64 row 4 in let? end_state := get_opt_text row 5 in Ok (mkSched id ts dur utid cpu end_state).
Definition db_read_sched_slices : result ReadFault (list PerfettoSchedSlice) :=
  query_with "sched_slice query" "sched_slice" "sched_slice row" (db_sql SchedSlices) [] sched_row.
Definition thread_state_row (row : Row) : result text PerfettoThreadState :=
  let? id := get_i64 row 0 in let? ts := get_i64 row 1 in let? dur := get_i64 row 2 in let? utid := get_i64 row 3 in
  let? state := get_opt_text row 4 in let? io_wait := get_opt_i32 row 5 in let? blocked := get_opt_text row 6 in
  let? waker := get_opt_i64 row 7 in let? cpu := get_opt_i64 row 8 in
  Ok (mkThreadState id ts dur utid state ((λ v, negb (v =? 0)) <$> io_wait) blocked waker cpu).
Definition db_read_thread_states : result ReadFault (list PerfettoThreadState) :=
  query_with "thread_state query" "thread_state" "thread_state row" (db_sql ThreadStates) [] thread_state_row.
Definition ftrace_row (row : Row) : result text PerfettoFtraceEvent :=
  let? id := get_i64 row 0 in let? ts := get_i64 row 1 in let? name := get_opt_text row 2 in let? cpu := get_opt_i64 row 3 in
  let? utid := get_opt_i64 row 4 in Ok (mkFtrace id ts name cpu utid).
Definition db_read_ftrace_events : result ReadFault (list PerfettoFtraceEvent) :=
  query_with "ftrace_event query" "ftrace_event" "ftrace_event row" (db_sql FtraceEvents) [] ftrace_row.
Definition wakeup_row (row : Row) : result text PerfettoSpuriousWakeup :=
  let? id := get_i64 row 0 in let? ts := get_i64 row 1 in let? utid := get_opt_i64 row 2 in let? waker := get_opt_i64 row 3 in
  Ok (mkWakeup id ts utid waker).
Definition db_read_spurious_wakeups : result ReadFault (list PerfettoSpuriousWakeup) :=
  query_with "spurious_sched_wakeup query" "spurious_sched_wakeup" "spurious_sched_wakeup row" (db_sql SpuriousWakeups) [] wakeup_row.
Definition instant_row (row : Row) : result text PerfettoInstant :=
  let? ts := get_i64 row 0 in let? track_id := get_i64 row 1 in let? name := get_opt_text row 2 in Ok (mkInstant ts track_id name).
Definition db_read_instants : result ReadFault (list PerfettoInstant) :=
  query_with "instant query" "instant" "instant row" (db_sql Instants) [] instant_row.

Definition arg_row (row : Row) : result text PerfettoArg :=
  let? set := get_i64 row 0 in let? key := get_text row 1 in let? s := get_opt_text row 2 in let? i := get_opt_i64 row 3 in let? r := get_opt_f64 row 4 in
  Ok (mkArg set key s i r).
(** No identifiers ask for all; otherwise one parameter for each. *)
Definition db_read_args (arg_set_ids : list Z) : result ReadFault (list PerfettoArg) :=
  match arg_set_ids with
  | [] =>
      query_with "args query" "args" "arg row"
        (str "SELECT arg_set_id, flat_key, string_value, int_value, real_value" ++ indent_by 21 ++ str "FROM args" ++ indent_by 21 ++
         str "ORDER BY arg_set_id, flat_key") [] arg_row
  | _ =>
      query_with "args IN query" "args by id" "arg row"
        (str "SELECT arg_set_id, flat_key, string_value, int_value, real_value" ++ indent_by 13 ++ str "FROM args" ++ indent_by 13 ++
         str "WHERE arg_set_id IN (" ++ join (str ",") ((λ _, str "?") <$> arg_set_ids) ++ str ")" ++ indent_by 13 ++ str "ORDER BY arg_set_id, flat_key")
        arg_set_ids arg_row
  end.
Definition counter_row (row : Row) : result text PerfettoCounter :=
  let? id := get_i64 row 0 in let? ts := get_i64 row 1 in let? track_id := get_i64 row 2 in let? value := get_f64 row 3 in
  Ok (mkCounter id ts track_id value).
Definition db_read_counters : result ReadFault (list PerfettoCounter) :=
  query_with "counter query" "counter" "counter row" (str "SELECT id, ts, track_id, value FROM counter ORDER BY ts") [] counter_row.

(** Tables that only the tests and later mappers read *)
Definition cpu_row (row : Row) : result text PerfettoCpu :=
  let? id := get_i64 row 0 in let? cpu := get_opt_i64 row 1 in let? cluster := get_i64 row 2 in let? processor := get_opt_text row 3 in
  Ok (mkCpu id cpu cluster processor).
Definition db_read_cpus : result ReadFault (list PerfettoCpu) :=
  query_with "cpu query" "cpu" "cpu row" (str "SELECT id, cpu, cluster_id, processor FROM cpu ORDER BY id") [] cpu_row.
Definition machine_row (row : Row) : result text PerfettoMachine :=
  let? id := get_i64 row 0 in let? arch := get_opt_text row 1 in let? num_cpus := get_opt_i64 row 2 in let? sysname := get_opt_text row 3 in
  let? release := get_opt_text row 4 in Ok (mkMachine id arch num_cpus sysname release).
Definition db_read_machines : result ReadFault (list PerfettoMachine) :=
  query_with "machine query" "machine" "machine row" (str "SELECT id, arch, num_cpus, sysname, release FROM machine ORDER BY id") [] machine_row.
Definition metadata_row (row : Row) : result text PerfettoMetadata :=
  let? name := get_opt_text row 0 in let? int_value := get_opt_i64 row 1 in let? str_value := get_opt_text row 2 in
  Ok (mkMetadata name int_value str_value).
Definition db_read_metadata : result ReadFault (list PerfettoMetadata) :=
  query_with "metadata query" "metadata" "metadata row" (str "SELECT name, int_value, str_value FROM metadata ORDER BY name") [] metadata_row.
Definition memory_row (row : Row) : result text PerfettoMemorySnapshot :=
  let? id := get_i64 row 0 in let? timestamp := get_i64 row 1 in let? track_id := get_i64 row 2 in let? level := get_opt_text row 3 in
  Ok (mkMemory id timestamp track_id level).
Definition db_read_memory_snapshots : result ReadFault (list PerfettoMemorySnapshot) :=
  query_with "memory_snapshot query" "memory_snapshot" "memory_snapshot"
    (str "SELECT id, timestamp, track_id, detail_level FROM memory_snapshot ORDER BY id") [] memory_row.
Definition sample_row (row : Row) : result text PerfettoCpuProfileSample :=
  let? id := get_i64 row 0 in let? ts := get_i64 row 1 in let? callsite := get_i64 row 2 in let? utid := get_i64 row 3 in
  Ok (mkSample id ts callsite utid).
Definition db_read_cpu_profile_samples : result ReadFault (list PerfettoCpuProfileSample) :=
  query_with "cpu_profile_stack_sample query" "cpu_profile_stack_sample" "cpu_profile_stack_sample"
    (str "SELECT id, ts, callsite_id, utid FROM cpu_profile_stack_sample ORDER BY ts") [] sample_row.
Definition stack_frame_row (row : Row) : result text PerfettoStackFrame :=
  let? id := get_i64 row 0 in let? name := get_opt_text row 1 in let? mapping := get_i64 row 2 in Ok (mkStackFrame id name mapping).
Definition db_read_stack_frames : result ReadFault (list PerfettoStackFrame) :=
  query_with "stack_profile_frame query" "stack_profile_frame" "stack_profile_frame"
    (str "SELECT id, name, mapping_id FROM stack_profile_frame ORDER BY id") [] stack_frame_row.
Definition heap_row (row : Row) : result text PerfettoHeapAllocation :=
  let? id := get_i64 row 0 in let? ts := get_i64 row 1 in let? upid := get_i64 row 2 in let? size := get_i64 row 3 in let? count := get_i64 row 4 in
  Ok (mkHeap id ts upid size count).
Definition db_read_heap_allocations : result ReadFault (list PerfettoHeapAllocation) :=
  query_with "heap_profile_allocation query" "heap_profile_allocation" "heap_profile_allocation"
    (str "SELECT id, ts, upid, size, count FROM heap_profile_allocation ORDER BY ts") [] heap_row.
Definition protolog_row (row : Row) : result text PerfettoProtolog :=
  let? id := get_i64 row 0 in let? ts := get_i64 row 1 in let? level := get_opt_text row 2 in let? tag := get_opt_text row 3 in
  let? message := get_opt_text row 4 in Ok (mkProtolog id ts level tag message).
Definition db_read_protologs : result ReadFault (list PerfettoProtolog) :=
  query_with "protolog query" "protolog" "protolog" (str "SELECT id, ts, level, tag, message FROM protolog ORDER BY ts") [] protolog_row.
Definition android_log_row (row : Row) : result text PerfettoAndroidLog :=
  let? id := get_i64 row 0 in let? ts := get_i64 row 1 in let? utid := get_i64 row 2 in let? prio := get_i64 row 3 in
  let? tag := get_opt_text row 4 in let? msg := get_opt_text row 5 in Ok (mkAndroidLog id ts utid prio tag msg).
Definition db_read_android_logs : result ReadFault (list PerfettoAndroidLog) :=
  query_with "android_logs query" "android_logs" "android_logs" (str "SELECT id, ts, utid, prio, tag, msg FROM android_logs ORDER BY ts") [] android_log_row.
Definition fd_row (row : Row) : result text PerfettoFileDescriptor :=
  let? id := get_i64 row 0 in let? ufd := get_i64 row 1 in let? fd := get_i64 row 2 in let? ts := get_i64 row 3 in
  let? upid := get_i64 row 4 in let? path := get_opt_text row 5 in Ok (mkFd id ufd fd ts upid path).
Definition db_read_filedescriptors : result ReadFault (list PerfettoFileDescriptor) :=
  query_with "filedescriptor query" "filedescriptor" "filedescriptor" (str "SELECT id, ufd, fd, ts, upid, path FROM filedescriptor ORDER BY ts") [] fd_row.

(** [impl Reader for PerfettoDb]: nothing writes to the exported file, so the second reading of the slices is the first. *)
Definition sqlite_reader : Reader :=
  mkReader db_read_clock_snapshots db_read_slices db_read_sched_slices db_read_thread_states db_read_ftrace_events db_read_spurious_wakeups
    db_read_instants db_read_threads db_read_processes db_read_slices.
End Database.

(** ** The answers of the trace processor *)

Section Rpc.
Context {FL : Floats}.
(** [f64::from_le_bytes] and the cast of a number to [i64], which saturates *)
Context (f64_from_bits : Z → F64) (f64_as_i64 : F64 → Z).

Fixpoint col_idx (columns : list text) (name : text) : option nat :=
  match columns with [] => None | c :: columns => if decide (c = name) then Some O else S <$> col_idx columns name end.
Definition cell_i64 (cv : CellValue) : option Z :=
  match cv with CellVarint v => Some v | CellFloat64 f => Some (f64_as_i64 f) | _ => None end.
Definition cell_str (cv : CellValue) : option text := match cv with CellString s => Some s | _ => None end.
Definition opt_i64_val (row : list CellValue) (idx : option nat) : option Z := i ← idx; cv ← row !! i; cell_i64 cv.
Definition i64_val (row : list CellValue) (idx : option nat) : Z := default 0 (opt_i64_val row idx).
(** [as i32] keeps the low bits. *)
Definition i32_val (row : list CellValue) (idx : option nat) : Z := as_i32 (i64_val row idx mod 2 ^ 32).
Definition str_val (row : list CellValue) (idx : option nat) : option text := i ← idx; cv ← row !! i; cell_str cv.

(** What [RpcReader::query] gives for the text of a query: the output of the process that is started for it *)
Context (output : text → result RpcFault (list Z)).
Definition to_read_fault (e : RpcFault) : ReadFault := match e with RpcPanic => ReadPanic | RpcIo e => ReadErr (str (io_msg e)) end.
(** The columns are found by their names, the error of the answer is not looked at. *)
Definition rpc_read {A} (sql : string) (columns : list string) (read : list (option nat) → list CellValue → A) : result ReadFault (list A) :=
  let? r := map_err to_read_fault (rpc_query f64_from_bits (output (str sql))) in
  let idx := (λ c, col_idx (column_names r) (str c)) <$> columns in
  Ok (read idx <$> rows r).
Definition at_ (idx : list (option nat)) (i : nat) : option nat := idx !! i ≫= id.

Definition rpc_slice (x : list (option nat)) (row : list CellValue) : PerfettoSlice :=
  mkSlice (i64_val row (at_ x 0)) (i64_val row (at_ x 1)) (i64_val row (at_ x 2)) (str_val row (at_ x 3)) (opt_i64_val row (at_ x 4))
    (i64_val row (at_ x 5)) (opt_i64_val row (at_ x 6)) (i32_val row (at_ x 7)).
Definition rpc_read_slices : result ReadFault (list PerfettoSlice) :=
  rpc_read (rpc_sql Slices) (columns Slices) rpc_slice.
Definition rpc_sched (x : list (option nat)) (row : list CellValue) : PerfettoSchedSlice :=
  mkSched (i64_val row (at_ x 0)) (i64_val row (at_ x 1)) (i64_val row (at_ x 2)) (i64_val row (at_ x 3)) (i64_val row (at_ x 4)) (str_val row (at_ x 5)).
Definition rpc_read_sched_slices : result ReadFault (list PerfettoSchedSlice) :=
  rpc_read (rpc_sql SchedSlices) (columns SchedSlices) rpc_sched.
Definition rpc_thread_state (x : list (option nat)) (row : list CellValue) : PerfettoThreadState :=
  mkThreadState (i64_val row (at_ x 0)) (i64_val row (at_ x 1)) (i64_val row (at_ x 2)) (i64_val row (at_ x 3)) (str_val row (at_ x 4))
    ((λ v, negb (v =? 0)) <$> opt_i64_val row (at_ x 5)) (str_val row (at_ x 6)) (opt_i64_val row (at_ x 7)) (opt_i64_val row (at_ x 8)).
Definition rpc_read_thread_states : result ReadFault (list PerfettoThreadState) :=
  rpc_read (rpc_sql ThreadStates) (columns ThreadStates) rpc_thread_state.
Definition rpc_ftrace (x : list (option nat)) (row : list CellValue) : PerfettoFtraceEvent :=
  mkFtrace (i64_val row (at_ x 0)) (i64_val row (at_ x 1)) (str_val row (at_ x 2)) (opt_i64_val row (at_ x 3)) (opt_i64_val row (at_ x 4)).
Definition rpc_read_ftrace_events : result ReadFault (list PerfettoFtraceEvent) :=
  rpc_read (rpc_sql FtraceEvents) (columns FtraceEvents) rpc_ftrace.
Definition rpc_wakeup (x : list (option nat)) (row : list CellValue) : PerfettoSpuriousWakeup :=
  mkWakeup (i64_val row (at_ x 0)) (i64_val row (at_ x 1)) (opt_i64_val row (at_ x 2)) (opt_i64_val row (at_ x 3)).
Definition rpc_read_spurious_wakeups : result ReadFault (list PerfettoSpuriousWakeup) :=
  rpc_read (rpc_sql SpuriousWakeups) (columns SpuriousWakeups) rpc_wakeup.
Definition rpc_instant (x : list (option nat)) (row : list CellValue) : PerfettoInstant :=
  mkInstant (i64_val row (at_ x 0)) (i64_val row (at_ x 1)) (str_val row (at_ x 2)).
Definition rpc_read_instants : result ReadFault (list PerfettoInstant) :=
  rpc_read (rpc_sql Instants) (columns Instants) rpc_instant.
Definition rpc_thread (x : list (option nat)) (row : list CellValue) : PerfettoThread :=
  mkThread (i64_val row (at_ x 0)) (str_val row (at_ x 1)) (opt_i64_val row (at_ x 2)) (opt_i64_val row (at_ x 3))
    (negb (default 0 (opt_i64_val row (at_ x 4)) =? 0)).
Definition rpc_read_threads : result ReadFault (list PerfettoThread) :=
  rpc_read (rpc_sql Threads) (columns Threads) rpc_thread.
Definition rpc_process (x : list (option nat)) (row : list CellValue) : PerfettoProcess :=
  mkProcess (i64_val row (at_ x 0)) (str_val row (at_ x 1)) (opt_i64_val row (at_ x 2)).
Definition rpc_read_processes : result ReadFault (list PerfettoProcess) :=
  rpc_read (rpc_sql Processes) (columns Processes) rpc_process.
Definition rpc_snapshot (x : list (option nat)) (row : list CellValue) : PerfettoClockSnapshot :=
  mkSnapshot (i64_val row (at_ x 0)) (i64_val row (at_ x 1)).
Definition rpc_read_clock_snapshots : result ReadFault (list PerfettoClockSnapshot) :=
  rpc_read (rpc_sql ClockSnapshots) (columns ClockSnapshots) rpc_snapshot.
End Rpc.

(** [impl Reader for RpcReader]: every reading starts a process, also the second one of the slices. *)
Definition rpc_reader {FL : Floats} (f64_from_bits : Z → F64) (f64_as_i64 : F64 → Z) (output again : text → result RpcFault (list Z)) : Reader :=
  mkReader (rpc_read_clock_snapshots f64_from_bits f64_as_i64 output) (rpc_read_slices f64_from_bits f64_as_i64 output)
    (rpc_read_sched_slices f64_from_bits f64_as_i64 output) (rpc_read_thread_states f64_from_bits f64_as_i64 output)
    (rpc_read_ftrace_events f64_from_bits f64_as_i64 output) (rpc_read_spurious_wakeups f64_from_bits f64_as_i64 output)
    (rpc_read_instants f64_from_bits f64_as_i64 output) (rpc_read_threads f64_from_bits f64_as_i64 output)
    (rpc_read_processes f64_from_bits f64_as_i64 output) (rpc_read_slices f64_from_bits f64_as_i64 again).

(** ** Both ways of reading give the same trace *)

(** Whatever one reader gives, the other gives too. *)
Definition read_refines {A} (a b : result ReadFault A) : Prop := ∀ x, a = Ok x → b = Ok x.
Record reader_refines (a b : Reader) : Prop := mkRefines {
  refines_clock_snapshots : read_refines (read_clock_snapshots a) (read_clock_snapshots b);
  refines_slices : read_refines (read_slices a) (read_slices b);
  refines_sched_slices : read_refines (read_sched_slices a) (read_sched_slices b);
  refines_thread_states : read_refines (read_thread_states a) (read_thread_states b);
  refines_ftrace_events : read_refines (read_ftrace_events a) (read_ftrace_events b);
  refines_spurious_wakeups : read_refines (read_spurious_wakeups a) (read_spurious_wakeups b);
  refines_instants : read_refines (read_instants a) (read_instants b);
  refines_threads : read_refines (read_threads a) (read_threads b);
  refines_processes : read_refines (read_processes a) (read_processes b);
  refines_slices_again : read_refines (read_slices_again a) (read_slices_again b) }.

Section Agreement.
Context {FL : Floats} {SQ : Sqlite} (f64_from_bits : Z → F64) (f64_as_i64 : F64 → Z).

(** A column of a row of the database is the cell [c] of the answer: a typed reading succeeds only on a cell of its type,
    and an optional one on a null too. *)
Record same_column (row : Row) (i : nat) (c : WireCell) : Prop := mkSameColumn {
  same_i64 v : get_i64 row i = Ok v → c = WInt v;
  same_i32 v : get_i32 row i = Ok v → c = WInt v ∧ - 2 ^ 31 ≤ v < 2 ^ 31;
  same_opt_i64 v : get_opt_i64 row i = Ok v → c = from_option WInt WNull v;
  same_opt_i32 v : get_opt_i32 row i = Ok v → c = from_option WInt WNull v;
  same_opt_text v : get_opt_text row i = Ok v → c = from_option WText WNull v }.
Definition same_row (ncols : nat) (row : Row) (cs : list WireCell) : Prop :=
  length cs = ncols ∧ ∀ i, (i < ncols)%nat → ∃ c, cs !! i = Some c ∧ same_column row i c.

(** The database and the trace processor have the same table. *)
Definition same_table (output : text → result RpcFault (list Z)) (t : Table) : Prop :=
  ∃ stmt rows batches junk,
    prepare (db_sql t) = Ok stmt ∧ query_map stmt [] = Ok rows ∧
    output (str (rpc_sql t)) = Ok (answer_stream (str <$> columns t) batches ++ junk) ∧
    stream_ok (length (columns t)) (str <$> columns t) batches ∧
    Forall2 (λ row cs, ∀ r, row = Ok r → same_row (length (columns t)) r cs) rows (concat batches).

Definition indices (t : Table) : list (option nat) := imap (λ i _, Some i) (columns t).
Lemma columns_found t : (λ c, col_idx (str <$> columns t) (str c)) <$> columns t = indices t.
Proof. destruct t; vm_compute; reflexivity. Qed.

Lemma collect_rows_agree {A} n (read : Row → result text A) (pick : list CellValue → A) rows cells l :
  (∀ row cs a, same_row n row cs → read row = Ok a → pick (cell_of f64_from_bits <$> cs) = a) →
  Forall2 (λ row cs, ∀ r, row = Ok r → same_row n r cs) rows cells → collect_rows read rows = Ok l →
  pick <$> (map (cell_of f64_from_bits) <$> cells) = l.
Proof.
  intros Hp Hf. revert l. induction Hf as [|row cs rows cells Hr Hf IH]; intros l; cbn [collect_rows]; [by intros [= <-]|].
  destruct row as [row|]; [|done]. destruct (read row) as [a|] eqn:Ea; [|done].
  destruct (collect_rows read rows) as [others|]; [|done]. intros [= <-]. cbn [fmap list_fmap].
  f_equal; [by eapply Hp; [apply Hr|]|by apply IH].
Qed.

Lemma read_agrees {A} prepared queried rowed t output (read : Row → result text A) (pick : list (option nat) → list CellValue → A) :
  (∀ row cs a, same_row (length (columns t)) row cs → read row = Ok a → pick (indices t) (cell_of f64_from_bits <$> cs) = a) →
  same_table output t →
  read_refines (query_with prepared queried rowed (db_sql t) [] read) (rpc_read f64_from_bits output (rpc_sql t) (columns t) pick).
Proof.
  intros Hp (stmt & rws & batches & junk & E1 & E2 & E3 & Hok & Hf) l. unfold query_with, rpc_read. rewrite E1. cbn [map_err]. rewrite E2, E3. cbn [map_err].
  destruct (collect_rows read rws) as [x|] eqn:Ec; [|done]. intros [= <-].
  destruct (query_table f64_from_bits (str <$> columns t) batches junk) as [-> _]; [by rewrite length_fmap|by destruct t|].
  cbn [map_err column_names rows]. rewrite columns_found. f_equal. eapply collect_rows_agree; [|exact Hf|exact Ec]. exact (Hp).
Qed.

Lemma as_i32_mod v : - 2 ^ 31 ≤ v < 2 ^ 31 → as_i32 (v mod 2 ^ 32) = v.
Proof.
  intros Hv. unfold as_i32. assert (v mod 2 ^ 32 = if decide (0 ≤ v) then v else v + 2 ^ 32) as ->; [|repeat case_decide; case_match; lia].
  case_decide; [apply Z.mod_small; lia|]. rewrite <-(Z.mod_add v 1), Z.mul_1_l by lia. apply Z.mod_small. lia.
Qed.
Section Values.
Context (n : nat) (row : Row) (cs : list WireCell) (Hrow : same_row n row cs).
Local Abbreviation cells := (cell_of f64_from_bits <$> cs).

Lemma cell_at i : (i < n)%nat → ∃ c, cells !! i = Some (cell_of f64_from_bits c) ∧ same_column row i c.
Proof. intros Hi. destruct Hrow as [_ H]. destruct (H i Hi) as (c & Hc & Hs). exists c. by rewrite list_lookup_fmap, Hc. Qed.
Lemma opt_i64_at i v : (i < n)%nat → get_opt_i64 row i = Ok v → opt_i64_val f64_as_i64 cells (Some i) = v.
Proof. intros (c & Hc & Hs)%cell_at Hv. cbn. rewrite Hc. cbn. rewrite (same_opt_i64 _ _ _ Hs _ Hv). by destruct v. Qed.
Lemma opt_i32_at i v : (i < n)%nat → get_opt_i32 row i = Ok v → opt_i64_val f64_as_i64 cells (Some i) = v.
Proof. intros (c & Hc & Hs)%cell_at Hv. cbn. rewrite Hc. cbn. rewrite (same_opt_i32 _ _ _ Hs _ Hv). by destruct v. Qed.
Lemma opt_text_at i v : (i < n)%nat → get_opt_text row i = Ok v → str_val cells (Some i) = v.
Proof. intros (c & Hc & Hs)%cell_at Hv. cbn. rewrite Hc. cbn. rewrite (same_opt_text _ _ _ Hs _ Hv). by destruct v. Qed.
Lemma i64_at i v : (i < n)%nat → get_i64 row i = Ok v → i64_val f64_as_i64 cells (Some i) = v.
Proof. intros (c & Hc & Hs)%cell_at Hv. unfold i64_val. cbn. rewrite Hc. cbn. by rewrite (same_i64 _ _ _ Hs _ Hv). Qed.
Lemma i32_at i v : (i < n)%nat → get_i32 row i = Ok v → i32_val f64_as_i64 cells (Some i) = v.
Proof.
  intros (c & Hc & Hs)%cell_at Hv. destruct (same_i32 _ _ _ Hs _ Hv) as [-> Hr]. unfold i32_val, i64_val. cbn. rewrite Hc.
  by apply as_i32_mod.
Qed.
End Values.

(** A row of the database and the cells of the answer make the same value. *)
Ltac row_agrees :=
  let Hrow := fresh "Hrow" in let Hread := fresh "Hread" in
  intros row cs a Hrow; intros Hread;
  repeat match type of Hread with context [match ?g with _ => _ end] => let E := fresh "E" in destruct g eqn:E; [|discriminate Hread] end;
  injection Hread as <-; f_equal; cbn [at_ mbind option_bind id lookup list_lookup indices columns imap];
  first [eapply i64_at | eapply i32_at | eapply opt_i64_at | eapply opt_text_at | f_equal; eapply opt_i32_at | do 3 f_equal; eapply opt_i32_at]; eauto; cbn; lia.

Lemma slices_agree output : same_table output Slices → read_refines db_read_slices (rpc_read_slices f64_from_bits f64_as_i64 output).
Proof. apply read_agrees. unfold slice_row, rpc_slice. row_agrees. Qed.
Lemma sched_slices_agree output : same_table output SchedSlices → read_refines db_read_sched_slices (rpc_read_sched_slices f64_from_bits f64_as_i64 output).
Proof. apply read_agrees. unfold sched_row, rpc_sched. row_agrees. Qed.
Lemma thread_states_agree output : same_table output ThreadStates → read_refines db_read_thread_states (rpc_read_thread_states f64_from_bits f64_as_i64 output).
Proof. apply read_agrees. unfold thread_state_row, rpc_thread_state. row_agrees. Qed.
Lemma ftrace_events_agree output : same_table output FtraceEvents → read_refines db_read_ftrace_events (rpc_read_ftrace_events f64_from_bits f64_as_i64 output).
Proof. apply read_agrees. unfold ftrace_row, rpc_ftrace. row_agrees. Qed.
Lemma spurious_wakeups_agree output : same_table output SpuriousWakeups → read_refines db_read_spurious_wakeups (rpc_read_spurious_wakeups f64_from_bits f64_as_i64 output).
Proof. apply read_agrees. unfold wakeup_row, rpc_wakeup. row_agrees. Qed.
Lemma instants_agree output : same_table output Instants → read_refines db_read_instants (rpc_read_instants f64_from_bits f64_as_i64 output).
Proof. apply read_agrees. unfold instant_row, rpc_instant. row_agrees. Qed.
Lemma threads_agree output : same_table output Threads → read_refines db_read_threads (rpc_read_threads f64_from_bits f64_as_i64 output).
Proof. apply read_agrees. unfold thread_row, rpc_thread. row_agrees. Qed.
Lemma processes_agree output : same_table output Processes → read_refines db_read_processes (rpc_read_processes f64_from_bits f64_as_i64 output).
Proof. apply read_agrees. unfold process_row, rpc_process. row_agrees. Qed.
Lemma clock_snapshots_agree output : same_table output ClockSnapshots → read_refines db_read_clock_snapshots (rpc_read_clock_snapshots f64_from_bits f64_as_i64 output).
Proof. apply read_agrees. unfold snapshot_row, rpc_snapshot. row_agrees. Qed.

Lemma readers_agree output again :
  (∀ t, same_table output t) → same_table again Slices → reader_refines sqlite_reader (rpc_reader f64_from_bits f64_as_i64 output again).
Proof.
  intros Ht Ha. split; [apply clock_snapshots_agree|apply slices_agree|apply sched_slices_agree|apply thread_states_agree|apply ftrace_events_agree|
    apply spurious_wakeups_agree|apply instants_agree|apply threads_agree|apply processes_agree|apply slices_agree]; done.
Qed.
End Agreement.

(** ** Findings *)

(** The error of an answer is dropped: the reading gives an empty table, where the database would report it. *)
Definition error_answer : list Z :=
  let body := encode_fields [(1, FVarint 0); (3, FVarint TPM_QUERY_STREAMING); (203, FBytes (encode_fields [(2, FBytes (str "no such table: slice"))]))] in
  10 :: write_varint (len body) ++ body.
Lemma rpc_query_error_ignored :
  (rpc_query (FL := sample_floats) id (Ok error_answer)
    = Ok (mkQueryResult (FL := sample_floats) [] (Some (str "no such table: slice")) [] false)) ∧
  rpc_read_slices (FL := sample_floats) id id (λ _, Ok error_answer) = Ok [].
Proof. split; vm_compute; reflexivity. Qed.
