(* ===== verification/PerfettoTime.v ===== *)
(** * From the clock of a trace to the time of day

    [plugins/perfetto-ingest/src/timestamp.rs]: timestamps of a trace are placed between the
    snapshots that pair its clock with the real time. *)

From stdpp Require Import sorting.
From S2P Require Import Prelude Text Tokens PerfettoReader.

Inductive TimestampPolicy : Type := RequireRealtime | BestEffort.
#[export] Instance TimestampPolicy_eq_dec : EqDecision TimestampPolicy.
Proof. solve_decision. Defined.
Record TimestampConverter : Type := mkConverter { snapshots : list PerfettoClockSnapshot; policy : TimestampPolicy }.

(** [TimePanic]: an [i64] operation that overflows, as overflow checks have it *)
Inductive TimeFault : Type := TimePanic | TimeErr (msg : text).
Definition i64_checked (z : Z) : result TimeFault Z := if (- 2 ^ 63 <=? z) && (z <? 2 ^ 63) then Ok z else Err TimePanic.
(** [as u64] *)
Definition as_u64 (z : Z) : Z := z mod 2 ^ 64.

(** [partition_point] on snapshots that are sorted by their time *)
Fixpoint partition_point (snaps : list PerfettoClockSnapshot) (trace_ts : Z) : nat :=
  match snaps with [] => O | s :: snaps => if cs_ts s <=? trace_ts then S (partition_point snaps trace_ts) else O end.

(** With at least one snapshot, [first] the first of them *)
Definition realtime_among (first : PerfettoClockSnapshot) (snaps : list PerfettoClockSnapshot) (pol : TimestampPolicy) (trace_ts : Z)
    : result TimeFault (option Z) :=
  let idx := partition_point snaps trace_ts in
  if decide (idx = 0)%nat then
    match pol with
    | RequireRealtime =>
        Err (TimeErr (str "trace timestamp " ++ i64_to_string trace_ts ++ str " is before first REALTIME snapshot at " ++ i64_to_string (cs_ts first)))
    | BestEffort =>
        let? delta := i64_checked (cs_ts first - trace_ts) in
        let? realtime := i64_checked (cs_clock_value first - delta) in
        Ok (Some (as_u64 (Z.max realtime 0)))
    end
  else if decide (length snaps ≤ idx)%nat then
    let last := default first (snaps !! (length snaps - 1)%nat) in
    let? delta := i64_checked (trace_ts - cs_ts last) in
    let? realtime := i64_checked (cs_clock_value last + delta) in
    Ok (Some (as_u64 (Z.max realtime 0)))
  else
    let prev := default first (snaps !! (idx - 1)%nat) in
    let next := default first (snaps !! idx) in
    let? range_ts := i64_checked (cs_ts next - cs_ts prev) in
    let? range_realtime := i64_checked (cs_clock_value next - cs_clock_value prev) in
    if range_ts =? 0 then Ok (Some (as_u64 (cs_clock_value prev))) else
    let? offset := i64_checked (trace_ts - cs_ts prev) in
    let realtime := cs_clock_value prev + Z.quot (range_realtime * offset) range_ts in
    Ok (Some (as_u64 (Z.max realtime 0))).
Definition to_realtime (c : TimestampConverter) (trace_ts : Z) : result TimeFault (option Z) :=
  match snapshots c with
  | [] =>
      match policy c with
      | RequireRealtime => Err (TimeErr (str "no REALTIME clock snapshots available for timestamp conversion"))
      | BestEffort => Ok None
      end
  | first :: _ => realtime_among first (snapshots c) (policy c) trace_ts
  end.
Definition has_realtime (c : TimestampConverter) : bool := match snapshots c with [] => false | _ => true end.

(** ** The conversion keeps the order *)

(** Snapshots of a clock that runs forward, with all times below a bound that keeps the sums in range *)
Definition in_range (z : Z) : Prop := - 2 ^ 61 ≤ z < 2 ^ 61.
Definition snapshot_lt (a b : PerfettoClockSnapshot) : Prop := cs_ts a < cs_ts b ∧ cs_clock_value a ≤ cs_clock_value b.
Definition snapshots_ok (snaps : list PerfettoClockSnapshot) : Prop :=
  StronglySorted snapshot_lt snaps ∧ Forall (λ s, in_range (cs_ts s) ∧ in_range (cs_clock_value s)) snaps.

Lemma i64_checked_ok z : - 2 ^ 63 ≤ z < 2 ^ 63 → i64_checked z = Ok z.
Proof. intros Hz. unfold i64_checked. destruct (Z.leb_spec (- 2 ^ 63) z), (Z.ltb_spec z (2 ^ 63)); try lia. done. Qed.
Lemma partition_point_le snaps t : (partition_point snaps t ≤ length snaps)%nat.
Proof. induction snaps as [|s snaps IH]; cbn; [lia|]. case_match; lia. Qed.
Lemma partition_point_mono snaps t1 t2 : t1 ≤ t2 → (partition_point snaps t1 ≤ partition_point snaps t2)%nat.
Proof. intros Ht. induction snaps as [|s snaps IH]; cbn; [lia|]. repeat case_match; try lia. Qed.
Lemma partition_point_before snaps t i s : (i < partition_point snaps t)%nat → snaps !! i = Some s → cs_ts s ≤ t.
Proof.
  revert i. induction snaps as [|s' snaps IH]; intros i; cbn [partition_point]; [cbn; lia|].
  destruct (Z.leb_spec (cs_ts s') t); [|lia]. intros Hi. destruct i as [|i]; cbn; [by intros [= <-]|]. apply IH. lia.
Qed.
Lemma partition_point_at snaps t s : snaps !! partition_point snaps t = Some s → t < cs_ts s.
Proof.
  induction snaps as [|s' snaps IH]; cbn [partition_point]; [done|].
  destruct (Z.leb_spec (cs_ts s') t); cbn; [apply IH|by intros [= <-]].
Qed.
Lemma snapshots_lookup_lt snaps i j a b : StronglySorted snapshot_lt snaps → (i < j)%nat → snaps !! i = Some a → snaps !! j = Some b → snapshot_lt a b.
Proof.
  intros Hs. revert i j. induction Hs as [|s snaps Hs IH Hf]; intros i j Hij Ha Hb; [done|].
  destruct j as [|j]; [lia|]. destruct i as [|i]; cbn in Ha, Hb.
  - injection Ha as <-. rewrite list.Forall_forall in Hf. apply Hf. by eapply list_elem_of_lookup_2.
  - eapply (IH i j); [lia|done..].
Qed.
Lemma snapshots_clock_le snaps i j a b :
  StronglySorted snapshot_lt snaps → (i ≤ j)%nat → snaps !! i = Some a → snaps !! j = Some b → cs_clock_value a ≤ cs_clock_value b.
Proof.
  intros Hs Hij Ha Hb. destruct (decide (i = j)) as [->|]; [by simplify_eq|].
  by destruct (snapshots_lookup_lt snaps i j a b Hs ltac:(lia) Ha Hb).
Qed.

(** Where a timestamp lies among the snapshots, and the time it gets there *)
Inductive placed (snaps : list PerfettoClockSnapshot) (t : Z) : Z → Prop :=
| placed_before first :
    partition_point snaps t = 0%nat → snaps !! 0%nat = Some first → placed snaps t (cs_clock_value first - (cs_ts first - t))
| placed_between k prev next :
    partition_point snaps t = S k → snaps !! k = Some prev → snaps !! S k = Some next →
    placed snaps t (cs_clock_value prev + (cs_clock_value next - cs_clock_value prev) * (t - cs_ts prev) / (cs_ts next - cs_ts prev))
| placed_after k last :
    partition_point snaps t = S k → length snaps = S k → snaps !! k = Some last → placed snaps t (cs_clock_value last + (t - cs_ts last)).

Lemma placed_exists snaps t : snaps ≠ [] → ∃ r, placed snaps t r.
Proof.
  intros Hn. pose proof (partition_point_le snaps t) as Hle. destruct (partition_point snaps t) as [|k] eqn:E.
  - destruct snaps as [|s snaps]; [done|]. eexists. by eapply placed_before.
  - destruct (lookup_lt_is_Some_2 snaps k) as [p Hp]; [lia|]. destruct (decide (length snaps = S k)) as [El|].
    + eexists. by eapply placed_after.
    + destruct (lookup_lt_is_Some_2 snaps (S k)) as [nx Hn']; [lia|]. eexists. by eapply placed_between.
Qed.

(** Between two snapshots the time stays between theirs. *)
Lemma interpolate_bounds a d x n : 0 ≤ d → 0 ≤ x ≤ n → 0 < n → a ≤ a + d * x / n ≤ a + d.
Proof.
  intros Hd Hx Hn. assert (0 ≤ d * x / n) by (apply Z.div_pos; nia).
  assert (d * x / n ≤ d) by (apply Z.div_le_upper_bound; nia). lia.
Qed.

Lemma to_realtime_among snaps pol t r : placed snaps t r →
  ∃ first, snaps !! 0%nat = Some first ∧ to_realtime (mkConverter snaps pol) t = realtime_among first snaps pol t.
Proof. intros Hp. destruct snaps as [|f tl]; [by destruct Hp|]. by exists f. Qed.

Section Order.
Context (snaps : list PerfettoClockSnapshot) (Hok : snapshots_ok snaps).

Lemma snapshot_in_range i s : snaps !! i = Some s → in_range (cs_ts s) ∧ in_range (cs_clock_value s).
Proof. intros Hs. destruct Hok as [_ Hf]. rewrite list.Forall_forall in Hf. apply Hf. by eapply list_elem_of_lookup_2. Qed.
Lemma placed_lower t r k s : placed snaps t r → partition_point snaps t = S k → snaps !! k = Some s → cs_clock_value s ≤ r.
Proof.
  destruct Hok as [Hs _]. intros Hp Ek Hk. destruct Hp as [f E _|k' p n E Hp Hn|k' l E _ Hl]; [congruence|..]; replace k' with k in * by congruence.
  - assert (p = s) as -> by congruence. destruct (snapshots_lookup_lt snaps k (S k) s n Hs ltac:(lia) Hk Hn).
    pose proof (partition_point_before snaps t k s ltac:(lia) Hk). rewrite <-E in Hn. pose proof (partition_point_at _ _ _ Hn).
    apply interpolate_bounds; lia.
  - assert (l = s) as -> by congruence. pose proof (partition_point_before snaps t k s ltac:(lia) Hk). lia.
Qed.
Lemma placed_upper t r s : placed snaps t r → snaps !! partition_point snaps t = Some s → r ≤ cs_clock_value s.
Proof.
  destruct Hok as [Hs _]. intros Hp Hk. pose proof (partition_point_at _ _ _ Hk) as Hlt. destruct Hp as [f E Hf|k p n E Hp Hn|k l E El Hl]; rewrite E in Hk.
  - assert (f = s) as -> by congruence. lia.
  - assert (n = s) as -> by congruence. destruct (snapshots_lookup_lt snaps k (S k) p s Hs ltac:(lia) Hp Hk). pose proof (partition_point_before snaps t k p ltac:(lia) Hp).
    pose proof (interpolate_bounds (cs_clock_value p) (cs_clock_value s - cs_clock_value p) (t - cs_ts p) (cs_ts s - cs_ts p)). lia.
  - apply lookup_lt_Some in Hk. lia.
Qed.
Lemma placed_mono t1 t2 r1 r2 : placed snaps t1 r1 → placed snaps t2 r2 → t1 ≤ t2 → r1 ≤ r2.
Proof.
  intros H1 H2 Ht. pose proof (partition_point_mono snaps _ _ Ht) as Hle.
  destruct (decide (partition_point snaps t1 = partition_point snaps t2)) as [E|Hne].
  - destruct Hok as [Hs _]. destruct H1 as [f E1 Hf|k p n E1 Hp Hn|k l E1 El Hl], H2 as [f' E2 Hf'|k' p' n' E2 Hp' Hn'|k' l' E2 El' Hl'];
      try congruence; try (replace k' with k in * by congruence).
    + assert (f' = f) as -> by congruence. lia.
    + assert (p' = p) as -> by congruence. assert (n' = n) as -> by congruence.
      destruct (snapshots_lookup_lt snaps k (S k) p n Hs ltac:(lia) Hp Hn). apply Z.add_le_mono_l, Z.div_le_mono; nia.
    + apply lookup_lt_Some in Hn. lia.
    + apply lookup_lt_Some in Hn'. lia.
    + assert (l' = l) as -> by congruence. lia.
  - destruct (partition_point snaps t2) as [|k] eqn:E2; [lia|]. pose proof (partition_point_le snaps t2).
    destruct (lookup_lt_is_Some_2 snaps (partition_point snaps t1)) as [a Ha]; [lia|].
    destruct (lookup_lt_is_Some_2 snaps k) as [b Hb]; [lia|].
    pose proof (placed_upper _ _ _ H1 Ha). pose proof (placed_lower _ _ _ _ H2 E2 Hb).
    destruct Hok as [Hs _]. pose proof (snapshots_clock_le snaps (partition_point snaps t1) k a b Hs ltac:(lia) Ha Hb). lia.
Qed.

Lemma to_realtime_placed t pol r : in_range t → placed snaps t r → (partition_point snaps t ≠ 0%nat ∨ pol = BestEffort) →
  to_realtime (mkConverter snaps pol) t = Ok (Some (Z.max r 0)) ∧ r < 2 ^ 63.
Proof.
  intros Ht Hp Hpol. assert (Hu : ∀ z, z < 2 ^ 63 → as_u64 (Z.max z 0) = Z.max z 0) by (intros z Hz; apply Z.mod_small; lia).
  destruct (to_realtime_among snaps pol t r Hp) as (f0 & Hf0 & ->). unfold realtime_among. cbv zeta. pose proof Hok as [Hs _].
  destruct Hp as [f E Hf|k p nx E Hp Hn|k l E El Hl]; rewrite E in *.
  - assert (f0 = f) as -> by congruence. destruct Hpol as [? | ->]; [done|]. rewrite decide_True by done.
    destruct (snapshot_in_range 0 f Hf) as [H1 H2]. unfold in_range in *.
    rewrite i64_checked_ok by lia. cbv iota beta. rewrite i64_checked_ok by lia. cbv iota beta. rewrite Hu by lia. split; [done|lia].
  - rewrite decide_False by done. rewrite decide_False by (apply lookup_lt_Some in Hn; lia).
    rewrite Nat.sub_succ, Nat.sub_0_r, Hp, Hn. cbn [default from_option].
    destruct (snapshot_in_range k p Hp) as [H1 H2]. destruct (snapshot_in_range (S k) nx Hn) as [H3 H4]. unfold id, in_range in *.
    destruct (snapshots_lookup_lt snaps k (S k) p nx Hs ltac:(lia) Hp Hn) as [H5 H6].
    pose proof (partition_point_before snaps t k p ltac:(lia) Hp). rewrite <-E in Hn. pose proof (partition_point_at _ _ _ Hn).
    rewrite i64_checked_ok by lia. cbv iota beta. rewrite i64_checked_ok by lia. cbv iota beta.
    destruct (Z.eqb_spec (cs_ts nx - cs_ts p) 0); [lia|]. rewrite i64_checked_ok by lia. cbv iota beta zeta.
    rewrite Z.quot_div_nonneg by nia.
    pose proof (interpolate_bounds (cs_clock_value p) (cs_clock_value nx - cs_clock_value p) (t - cs_ts p) (cs_ts nx - cs_ts p)).
    rewrite Hu by lia. split; [done|lia].
  - rewrite decide_False by done. rewrite decide_True by lia. rewrite El, Nat.sub_succ, Nat.sub_0_r, Hl. cbn [default from_option].
    destruct (snapshot_in_range k l Hl) as [H1 H2]. unfold id, in_range in *.
    rewrite i64_checked_ok by lia. cbv iota beta. rewrite i64_checked_ok by lia. cbv iota beta. rewrite Hu by lia. split; [done|lia].
Qed.

Lemma realtime_ordered pol t1 t2 : snaps ≠ [] → in_range t1 → in_range t2 → t1 ≤ t2 →
  (partition_point snaps t1 ≠ 0%nat ∨ pol = BestEffort) →
  ∃ r1 r2, to_realtime (mkConverter snaps pol) t1 = Ok (Some r1) ∧ to_realtime (mkConverter snaps pol) t2 = Ok (Some r2) ∧ 0 ≤ r1 ≤ r2 ∧ r2 < 2 ^ 63.
Proof.
  intros Hn H1 H2 Ht Hp. pose proof (partition_point_mono snaps _ _ Ht).
  destruct (placed_exists snaps t1 Hn) as [r1 P1], (placed_exists snaps t2 Hn) as [r2 P2].
  destruct (to_realtime_placed t1 pol r1 H1 P1 Hp) as [-> _].
  destruct (to_realtime_placed t2 pol r2 H2 P2) as [-> ?]; [destruct Hp as [|Hp]; [left; lia|by right]|].
  pose proof (placed_mono _ _ _ _ P1 P2 Ht). do 2 eexists. split_and!; [done..|lia|lia|lia].
Qed.
Lemma realtime_exact pol i s : snaps !! i = Some s → to_realtime (mkConverter snaps pol) (cs_ts s) = Ok (Some (Z.max (cs_clock_value s) 0)).
Proof.
  intros Hs. destruct (snapshot_in_range i s Hs) as [H1 H2].
  destruct (placed_exists snaps (cs_ts s)) as [r P]; [by intros ->|].
  assert (Ep : partition_point snaps (cs_ts s) = S i).
  { pose proof (partition_point_le snaps (cs_ts s)) as Hle. pose proof (lookup_lt_Some _ _ _ Hs).
    destruct (decide (partition_point snaps (cs_ts s) ≤ i)%nat) as [Hb|Hb].
    - destruct (lookup_lt_is_Some_2 snaps (partition_point snaps (cs_ts s))) as [a Ha]; [lia|]. pose proof (partition_point_at _ _ _ Ha).
      destruct Hok as [Hss _]. destruct (decide (partition_point snaps (cs_ts s) = i)) as [E|]; [rewrite E in Ha; simplify_eq; lia|].
      destruct (snapshots_lookup_lt snaps (partition_point snaps (cs_ts s)) i a s Hss ltac:(lia) Ha Hs). lia.
    - destruct (decide (partition_point snaps (cs_ts s) = S i)) as [|Hne]; [done|].
      destruct (lookup_lt_is_Some_2 snaps (S i)) as [b Hb']; [lia|]. pose proof (partition_point_before snaps (cs_ts s) (S i) b ltac:(lia) Hb').
      destruct Hok as [Hss _]. destruct (snapshots_lookup_lt snaps i (S i) s b Hss ltac:(lia) Hs Hb'). lia. }
  destruct (to_realtime_placed (cs_ts s) pol r H1 P) as [-> _]; [by left; rewrite Ep|]. do 3 f_equal.
  destruct P as [f E _|k p nx E Hp Hn|k l E _ Hl]; [congruence|..]; assert (k = i) as -> by congruence.
  - assert (p = s) as -> by congruence. rewrite Z.sub_diag, Z.mul_0_r, Z.div_0_l; [lia|].
    destruct Hok as [Hss _]. destruct (snapshots_lookup_lt snaps i (S i) s nx Hss ltac:(lia) Hs Hn). lia.
  - assert (l = s) as -> by congruence. lia.
Qed.
End Order.

(** The time of day of the events of a trace: a snapshot's own timestamp gets the snapshot's time,
    and the order of the events is kept, before, between and after the snapshots. *)
Theorem realtime_faithful snaps pol :
  snapshots_ok snaps →
  (∀ s, s ∈ snaps → to_realtime (mkConverter snaps pol) (cs_ts s) = Ok (Some (Z.max (cs_clock_value s) 0))) ∧
  (∀ t1 t2, snaps ≠ [] → in_range t1 → in_range t2 → t1 ≤ t2 → (partition_point snaps t1 ≠ 0%nat ∨ pol = BestEffort) →
    ∃ r1 r2, to_realtime (mkConverter snaps pol) t1 = Ok (Some r1) ∧ to_realtime (mkConverter snaps pol) t2 = Ok (Some r2) ∧ 0 ≤ r1 ≤ r2 ∧ r2 < 2 ^ 63).
Proof.
  intros Hok. split.
  - intros s [i Hi]%list_elem_of_lookup. by eapply realtime_exact.
  - intros t1 t2 Hn H1 H2 Ht Hp. by apply realtime_ordered.
Qed.
Definition sample_snapshots : list PerfettoClockSnapshot := [mkSnapshot 1000 5000; mkSnapshot 3000 9001].
Lemma realtime_faithful_witness :
  to_realtime (mkConverter sample_snapshots RequireRealtime) 3000 = Ok (Some (Z.max 9001 0)) ∧
  to_realtime (mkConverter sample_snapshots BestEffort) 2000 = Ok (Some 7000).
Proof.
  split; [|reflexivity].
  assert (H : snapshots_ok sample_snapshots) by (split; repeat constructor; vm_compute; intros; discriminate).
  apply (proj1 (realtime_faithful sample_snapshots RequireRealtime H) (mkSnapshot 3000 9001)). unfold sample_snapshots. right. left.
Defined.
