(* ===== verification/Perfetto.v ===== *)
(** * The Perfetto plugin

    [plugins/perfetto-ingest/src/log_mapper.rs], [perfetto_invoke.rs] and [lib.rs]: the rows of a trace become
    log records, sorted by their time, and go to the callback of the host. *)

From stdpp Require Import sorting.
From S2P Require Import Prelude Format Text Tokens Writer Reader Protocol Source BufferSpool FileSpool Spool ReplayServer Otlp Policy Ingest FlatRecord SampleCodec LibRequest Instances Varint Cel Collector ViewText PluginHost Drain DatasetIndex ViewScan Dataset PerfettoRpc PerfettoReader PerfettoTime.

(** ** Sorting *)

(** [sort_by_key], which keeps the order of records with the same key *)
Section Sort.
Context {A : Type} (key : A → Z).
Fixpoint insert_by_key (x : A) (l : list A) : list A :=
  match l with [] => [x] | y :: l => if key x <=? key y then x :: y :: l else y :: insert_by_key x l end.
Definition sort_by_key (l : list A) : list A := foldr insert_by_key [] l.
Definition key_le (x y : A) : Prop := key x ≤ key y.

Lemma insert_by_key_perm x l : insert_by_key x l ≡ₚ x :: l.
Proof. induction l as [|y l IH]; cbn; [done|]. case_match; [done|]. rewrite IH. apply Permutation_swap. Qed.
Lemma sort_by_key_perm l : sort_by_key l ≡ₚ l.
Proof. induction l as [|x l IH]; cbn; [done|]. by rewrite insert_by_key_perm, IH. Qed.
Lemma insert_by_key_sorted x l : StronglySorted key_le l → StronglySorted key_le (insert_by_key x l).
Proof.
  induction 1 as [|y l Hl IH Hf]; cbn; [by repeat constructor|]. destruct (Z.leb_spec (key x) (key y)).
  - constructor; [by constructor|]. constructor; [done|]. eapply list.Forall_impl; [exact Hf|]. unfold key_le. lia.
  - constructor; [done|]. rewrite insert_by_key_perm. constructor; [unfold key_le; lia|done].
Qed.
Lemma records_sort_sorted l : StronglySorted key_le (sort_by_key l).
Proof. induction l as [|x l IH]; cbn; [constructor|by apply insert_by_key_sorted]. Qed.
Lemma sort_by_key_id l : StronglySorted key_le l → sort_by_key l = l.
Proof.
  induction 1 as [|x l Hl IH Hf]; [done|]. unfold sort_by_key in *. cbn [foldr]. rewrite IH. destruct l as [|y l]; cbn [insert_by_key]; [done|].
  apply Forall_cons_iff in Hf as [Hf _]. unfold key_le in Hf. by destruct (Z.leb_spec (key x) (key y)); [|lia].
Qed.
End Sort.

(** ** From rows to log records *)

Section Mapper.
Context {OP : OtlpParts} {LC : LogsCodec}.
(** [format!("{:.1}us", ns as f64 / 1000.0)] *)
Context (us_text : Z → text).

Definition SEVERITY_INFO : Z := 9.
Definition dur_str (ns : Z) : text := if ns <? 0 then str "running" else us_text ns.
Definition int_value (n : Z) : AnyValue := mkAnyValue (Some (IntValue n)).
Definition int_attr (key : string) (n : Z) : KeyValue := key_value (str key) (int_value n).
Definition str_attr (key : string) (s : text) : KeyValue := key_value (str key) (string_value s).
Definition info_record (ts : Z) (body : text) (attrs : list KeyValue) : LogRecordMessage :=
  mkLogRecord ts ts SEVERITY_INFO (str "INFO") (Some (string_value body)) attrs 0 0 [] [] [].

(** [converter.to_realtime(ts).ok().flatten().unwrap_or(0)] *)
Definition realtime_or_zero (c : TimestampConverter) (ts : Z) : result ReadFault Z :=
  match to_realtime c ts with
  | Ok t => Ok (default 0 t)
  | Err (TimeErr _) => Ok 0
  | Err TimePanic => Err ReadPanic
  end.

Definition maybe_slice_to_log (c : TimestampConverter) (slice : PerfettoSlice) : result ReadFault LogRecordMessage :=
  let? ts := realtime_or_zero c (ps_ts slice) in
  let name := default (str "(unnamed)") (ps_name slice) in
  Ok (info_record ts (name ++ str "  dur=" ++ dur_str (ps_dur slice) ++ str "  depth=" ++ i64_to_string (ps_depth slice))
        [int_attr "perfetto.slice.id" (ps_id slice); str_attr "perfetto.slice.name" name;
         int_attr "perfetto.slice.dur_ns" (ps_dur slice); int_attr "perfetto.slice.depth" (ps_depth slice)]).
Definition maybe_sched_slice_to_log (c : TimestampConverter) (s : PerfettoSchedSlice) : result ReadFault LogRecordMessage :=
  let? ts := realtime_or_zero c (sd_ts s) in
  let end_state := default (str "?") (sd_end_state s) in
  Ok (info_record ts (str "cpu=" ++ i64_to_string (sd_cpu s) ++ str " state=" ++ end_state ++ str " utid=" ++ i64_to_string (sd_utid s) ++
                      str "  dur=" ++ dur_str (sd_dur s))
        [int_attr "perfetto.sched.id" (sd_id s); int_attr "perfetto.sched.cpu" (sd_cpu s);
         int_attr "perfetto.sched.dur_ns" (sd_dur s); str_attr "perfetto.sched.end_state" end_state]).
Definition maybe_thread_state_to_log (c : TimestampConverter) (ts : PerfettoThreadState) : result ReadFault LogRecordMessage :=
  let? t := realtime_or_zero c (st_ts ts) in
  let state := default (str "?") (st_state ts) in
  Ok (info_record t
        (str "state=" ++ state ++ str " dur=" ++ dur_str (st_dur ts) ++ str " utid=" ++ i64_to_string (st_utid ts) ++
         from_option (λ cpu, str " cpu=" ++ i64_to_string cpu) [] (st_cpu ts) ++
         (if decide (st_io_wait ts = Some true) then str " io_wait" else []) ++
         from_option (λ blocked, str " blocked=" ++ blocked) [] (st_blocked_function ts) ++
         from_option (λ waker, str " waker=" ++ i64_to_string waker) [] (st_waker_utid ts))
        ([int_attr "perfetto.ts.id" (st_id ts); str_attr "perfetto.ts.state" state;
          int_attr "perfetto.ts.dur_ns" (st_dur ts); int_attr "perfetto.ts.utid" (st_utid ts)] ++
         from_option (λ cpu, [int_attr "perfetto.ts.cpu" cpu]) [] (st_cpu ts) ++
         from_option (λ io : bool, [int_attr "perfetto.ts.io_wait" (if io then 1 else 0)]) [] (st_io_wait ts) ++
         from_option (λ blocked, [str_attr "perfetto.ts.blocked_function" blocked]) [] (st_blocked_function ts))).
Definition maybe_ftrace_event_to_log (c : TimestampConverter) (ev : PerfettoFtraceEvent) : result ReadFault LogRecordMessage :=
  let? t := realtime_or_zero c (fe_ts ev) in
  let name := default (str "?") (fe_name ev) in
  let cpu := default (-1) (fe_cpu ev) in
  Ok (info_record t (name ++ str " cpu=" ++ i64_to_string cpu)
        ([int_attr "perfetto.ftrace.id" (fe_id ev); str_attr "perfetto.ftrace.name" name; int_attr "perfetto.ftrace.cpu" cpu] ++
         from_option (λ utid, [int_attr "perfetto.ftrace.utid" utid]) [] (fe_utid ev))).
Definition maybe_spurious_wakeup_to_log (c : TimestampConverter) (w : PerfettoSpuriousWakeup) : result ReadFault LogRecordMessage :=
  let? t := realtime_or_zero c (sw_ts w) in
  Ok (info_record t (str "spurious_wakeup utid=" ++ i64_to_string (default (-1) (sw_utid w)))
        ([int_attr "perfetto.sw.id" (sw_id w)] ++ from_option (λ utid, [int_attr "perfetto.sw.utid" utid]) [] (sw_utid w) ++
         from_option (λ waker, [int_attr "perfetto.sw.waker_utid" waker]) [] (sw_waker_utid w))).
Definition maybe_instant_to_log (c : TimestampConverter) (inst : PerfettoInstant) : result ReadFault LogRecordMessage :=
  let? t := realtime_or_zero c (in_ts inst) in
  let name := default (str "?") (in_name inst) in
  Ok (info_record t name [str_attr "perfetto.instant.name" name; int_attr "perfetto.instant.track_id" (in_track_id inst)]).

(** ** The records that are emitted *)

Record Emission : Type := mkEmission { em_type : Z; em_ts : Z; em_payload : list Z }.
Definition LJ_INGEST_RECORD_TYPE_LOGS : Z := 1.
Definition log_request (rec : LogRecordMessage) : ExportLogsServiceRequest :=
  mkLogsRequest [resource_of [str_attr "service.name" (str "perfetto")] [scope_of (mkInstrumentationScope (str "perfetto-ingest") [] [] 0) [rec]]].
Definition emit_log (rec : LogRecordMessage) : Emission := mkEmission LJ_INGEST_RECORD_TYPE_LOGS (lr_time_unix_nano rec) (encode_logs (log_request rec)).

Definition summary_record (slices threads processes ts : Z) : LogRecordMessage :=
  info_record ts
    (str "Perfetto trace analysis complete: " ++ u64_to_string slices ++ str " slices, " ++ u64_to_string threads ++ str " threads, " ++
     u64_to_string processes ++ str " processes")
    [int_attr "perfetto.slices" slices; int_attr "perfetto.threads" threads; int_attr "perfetto.processes" processes].
Definition emit_summary (slices threads processes ts : Z) : Emission := emit_log (summary_record slices threads processes ts).

Fixpoint map_rows {A} (f : A → result ReadFault LogRecordMessage) (rows : list A) : result ReadFault (list LogRecordMessage) :=
  match rows with
  | [] => Ok []
  | row :: rows => let? rec := f row in let? recs := map_rows f rows in Ok (rec :: recs)
  end.
Definition saturating_succ (z : Z) : Z := Z.min MAX_U64 (z + 1).

(** The rows of the six tables, each read when the one before is mapped *)
Definition mapped_records (db : Reader) (c : TimestampConverter) : result ReadFault (list LogRecordMessage) :=
  let? slices := read_slices db in let? l1 := map_rows (maybe_slice_to_log c) slices in
  let? scheds := read_sched_slices db in let? l2 := map_rows (maybe_sched_slice_to_log c) scheds in
  let? states := read_thread_states db in let? l3 := map_rows (maybe_thread_state_to_log c) states in
  let? events := read_ftrace_events db in let? l4 := map_rows (maybe_ftrace_event_to_log c) events in
  let? wakeups := read_spurious_wakeups db in let? l5 := map_rows (maybe_spurious_wakeup_to_log c) wakeups in
  let? instants := read_instants db in let? l6 := map_rows (maybe_instant_to_log c) instants in
  Ok (l1 ++ l2 ++ l3 ++ l4 ++ l5 ++ l6).
Definition map_logs (db : Reader) (c : TimestampConverter) : result ReadFault (list Emission) :=
  let? all := mapped_records db c in
  let all := sort_by_key lr_time_unix_nano all in
  let? threads := read_threads db in
  let? processes := read_processes db in
  let max_ts := from_option (λ r, saturating_succ (lr_time_unix_nano r)) 0 (list.last all) in
  let? again := read_slices_again db in
  Ok ((emit_log <$> all) ++ [emit_summary (len again) (len threads) (len processes) max_ts]).

(** [run_pipeline_impl]: the emissions are buffered and sorted; the snapshots are read first. *)
Definition timestamp_policy (var : option text) : TimestampPolicy :=
  if decide (var = Some (str "require-realtime")) then RequireRealtime else BestEffort.
Definition run_pipeline_impl (policy_var : option text) (reader : Reader) : result ReadFault (list Emission) :=
  let? snaps := read_clock_snapshots reader in
  let? emitted := map_logs reader (mkConverter snaps (timestamp_policy policy_var)) in
  Ok (sort_by_key em_ts emitted).
End Mapper.

(** ** What the pipeline emits *)

Section Emitted.
Context {OP : OtlpParts} {LC : LogsCodec} (us_text : Z → text).

Lemma as_u64_range z : is_u64 (as_u64 z).
Proof. unfold as_u64. pose proof (Z.mod_pos_bound z (2 ^ 64) ltac:(lia)). int_solve. Qed.
Lemma to_realtime_u64 c t r : to_realtime c t = Ok (Some r) → is_u64 r.
Proof.
  unfold to_realtime, realtime_among. cbv zeta.
  repeat case_match; try discriminate; intros [= <-]; apply as_u64_range.
Qed.
Lemma realtime_or_zero_u64 c t r : realtime_or_zero c t = Ok r → is_u64 r.
Proof.
  unfold realtime_or_zero. destruct (to_realtime c t) as [[z|]|[]] eqn:E; intros [= <-]; cbn; [by eapply to_realtime_u64|int_solve..].
Qed.

Lemma map_rows_forall {A} (f : A → result ReadFault LogRecordMessage) (Q : LogRecordMessage → Prop) rows recs :
  (∀ a r, f a = Ok r → Q r) → map_rows f rows = Ok recs → Forall Q recs.
Proof.
  intros Hf. revert recs. induction rows as [|a rows IH]; intros recs; cbn [map_rows]; [by intros [= <-]|].
  destruct (f a) eqn:E; [|done]. destruct (map_rows f rows); [|done]. intros [= <-]. constructor; [by eapply Hf|by apply IH].
Qed.
Definition info_at (r : LogRecordMessage) : Prop := is_u64 (lr_time_unix_nano r) ∧ lr_observed_time_unix_nano r = lr_time_unix_nano r ∧ lr_severity_number r = SEVERITY_INFO.
Lemma mapped_records_info db c recs : mapped_records us_text db c = Ok recs → Forall info_at recs.
Proof.
  unfold mapped_records.
  repeat match goal with |- (match ?g with _ => _ end) = _ → _ => let E := fresh "E" in destruct g eqn:E; [|done] end.
  intros [= <-]. rewrite !Forall_app. split_and!; (eapply map_rows_forall; [|eassumption]); intros x r;
    unfold maybe_slice_to_log, maybe_sched_slice_to_log, maybe_thread_state_to_log, maybe_ftrace_event_to_log, maybe_spurious_wakeup_to_log, maybe_instant_to_log;
    (destruct (realtime_or_zero c _) eqn:Er; [|done]); intros [= <-]; split_and!; try done; by eapply realtime_or_zero_u64.
Qed.

Lemma strongly_sorted_snoc {A} (R : A → A → Prop) l x : StronglySorted R l → Forall (λ y, R y x) l → StronglySorted R (l ++ [x]).
Proof.
  induction 1 as [|y l Hl IH Hf]; intros Hx; cbn [app]; [by repeat constructor|]. apply Forall_cons_iff in Hx as [Hy Hx].
  constructor; [by apply IH|]. apply Forall_app; split; [done|by constructor].
Qed.
Lemma key_sorted_last_max {A} (key : A → Z) l x : StronglySorted (key_le key) l → list.last l = Some x → Forall (λ y, key y ≤ key x) l.
Proof.
  intros Hs Hl. apply last_Some in Hl as [l' ->]. apply Forall_app. split; [|by repeat constructor].
  induction l' as [|y l' IH]; [constructor|]. apply StronglySorted_inv in Hs as [Hs Hf]. constructor; [|by apply IH].
  apply Forall_app in Hf as [_ Hf]. by apply Forall_cons_iff in Hf as [Hf _].
Qed.
Lemma sorted_fmap {A B} (R : A → A → Prop) (Q : B → B → Prop) (f : A → B) l :
  (∀ x y, R x y → Q (f x) (f y)) → StronglySorted R l → StronglySorted Q (f <$> l).
Proof.
  intros Hf. induction 1 as [|x l Hl IH Hx]; cbn [fmap list_fmap]; constructor; [done|].
  apply Forall_fmap. eapply list.Forall_impl; [exact Hx|]. cbn. auto.
Qed.

(** What the run of a reader has to give *)
Definition trace_emissions (snaps : list PerfettoClockSnapshot) (pol : TimestampPolicy) (db : Reader) (ems : list Emission) : Prop :=
  ∃ recs threads processes slices,
    (∃ l, mapped_records us_text db (mkConverter snaps pol) = Ok l ∧ recs ≡ₚ l) ∧
    read_threads db = Ok threads ∧ read_processes db = Ok processes ∧ read_slices_again db = Ok slices ∧
    StronglySorted (key_le lr_time_unix_nano) recs ∧ Forall info_at recs ∧
    ems = (emit_log <$> recs) ++ [emit_summary (len slices) (len threads) (len processes) (from_option (λ r, saturating_succ (lr_time_unix_nano r)) 0 (list.last recs))].

Lemma emissions_sorted recs s th pr :
  StronglySorted (key_le lr_time_unix_nano) recs → Forall info_at recs →
  StronglySorted (key_le em_ts) ((emit_log <$> recs) ++ [emit_summary s th pr (from_option (λ r, saturating_succ (lr_time_unix_nano r)) 0 (list.last recs))]).
Proof.
  intros Hs Hi. apply strongly_sorted_snoc; [by eapply sorted_fmap; [|exact Hs]|]. apply Forall_fmap.
  destruct (list.last recs) as [r|] eqn:El; [|apply last_None in El as ->; constructor].
  pose proof (key_sorted_last_max _ _ _ Hs El) as Hm. rewrite list.Forall_forall in Hm, Hi |- *. intros x Hx. unfold compose, key_le. cbn.
  specialize (Hm x Hx). destruct (Hi x Hx) as [[_ ?] _]. unfold saturating_succ. lia.
Qed.

Lemma run_pipeline_emits pv db snaps ems :
  read_clock_snapshots db = Ok snaps → run_pipeline_impl us_text pv db = Ok ems → trace_emissions snaps (timestamp_policy pv) db ems.
Proof.
  intros Es. unfold run_pipeline_impl, map_logs. rewrite Es. cbv iota beta zeta.
  destruct (mapped_records us_text db _) as [l|] eqn:El; [|done].
  destruct (read_threads db) as [th|] eqn:Et; [|done]. destruct (read_processes db) as [pr|] eqn:Ep; [|done].
  destruct (read_slices_again db) as [sl|] eqn:Ea; [|done]. intros [= <-].
  assert (Hi : Forall info_at (sort_by_key lr_time_unix_nano l)).
  { rewrite sort_by_key_perm. by eapply mapped_records_info. }
  rewrite sort_by_key_id by (apply emissions_sorted; [apply records_sort_sorted|done]).
  eexists _, _, _, _. split_and!; [|done..|apply records_sort_sorted|done|done]. exists l. split; [done|apply sort_by_key_perm].
Qed.

(** The pipeline gives the same for a reader that gives the same. *)
Lemma mapped_records_refines a b c l : reader_refines a b → mapped_records us_text a c = Ok l → mapped_records us_text b c = Ok l.
Proof.
  intros [H1 H2 H3 H4 H5 H6 H7 H8 H9 H10]. unfold mapped_records.
  repeat match goal with
  | H : read_refines (?f a) (?f b) |- (let? _ := ?f a in _) = _ → _ => destruct (f a) eqn:?; [|done]; rewrite (H _ eq_refl)
  | |- (let? _ := map_rows ?f ?l in _) = _ → _ => destruct (map_rows f l); [|done]
  end. done.
Qed.
Lemma pipeline_refines a b pv ems : reader_refines a b → run_pipeline_impl us_text pv a = Ok ems → run_pipeline_impl us_text pv b = Ok ems.
Proof.
  intros Hr. pose proof Hr as [H1 H2 H3 H4 H5 H6 H7 H8 H9 H10]. unfold run_pipeline_impl, map_logs.
  destruct (read_clock_snapshots a) as [s|] eqn:E1; [|done]. rewrite (H1 _ eq_refl).
  destruct (mapped_records us_text a _) as [l|] eqn:E2; [|done]. rewrite (mapped_records_refines a b _ l Hr E2).
  destruct (read_threads a); [|done]. rewrite (H8 _ eq_refl). destruct (read_processes a); [|done]. rewrite (H9 _ eq_refl).
  destruct (read_slices_again a); [|done]. by rewrite (H10 _ eq_refl).
Qed.

(** A trace whose times are in range *)
Record Trace : Type := mkTrace {
  tr_snapshots : list PerfettoClockSnapshot; tr_slices : list PerfettoSlice; tr_scheds : list PerfettoSchedSlice; tr_states : list PerfettoThreadState;
  tr_events : list PerfettoFtraceEvent; tr_wakeups : list PerfettoSpuriousWakeup; tr_instants : list PerfettoInstant;
  tr_threads : list PerfettoThread; tr_processes : list PerfettoProcess }.
Definition reader_of (t : Trace) : Reader :=
  mkReader (Ok (tr_snapshots t)) (Ok (tr_slices t)) (Ok (tr_scheds t)) (Ok (tr_states t)) (Ok (tr_events t)) (Ok (tr_wakeups t)) (Ok (tr_instants t))
    (Ok (tr_threads t)) (Ok (tr_processes t)) (Ok (tr_slices t)).
Definition trace_ok (t : Trace) : Prop :=
  snapshots_ok (tr_snapshots t) ∧
  Forall in_range ((ps_ts <$> tr_slices t) ++ (sd_ts <$> tr_scheds t) ++ (st_ts <$> tr_states t) ++ (fe_ts <$> tr_events t) ++
                   (sw_ts <$> tr_wakeups t) ++ (in_ts <$> tr_instants t)).
Definition trace_rows (t : Trace) : nat :=
  length (tr_slices t) + length (tr_scheds t) + length (tr_states t) + length (tr_events t) + length (tr_wakeups t) + length (tr_instants t).

Lemma realtime_or_zero_ok snaps pol t : snapshots_ok snaps → in_range t → ∃ r, realtime_or_zero (mkConverter snaps pol) t = Ok r.
Proof.
  intros Hs Ht. unfold realtime_or_zero. destruct (decide (snaps = [])) as [->|Hn]; [destruct pol; cbn; by eexists|].
  destruct (placed_exists snaps t Hn) as [r Hp].
  destruct (decide (partition_point snaps t ≠ 0%nat ∨ pol = BestEffort)) as [Hc|Hc].
  - destruct (to_realtime_placed snaps Hs t pol r Ht Hp Hc) as [-> _]. by eexists.
  - destruct pol; [|exfalso; tauto]. destruct (to_realtime_among snaps RequireRealtime t r Hp) as (f & _ & ->). unfold realtime_among. cbv zeta.
    rewrite decide_True by lia. by eexists.
Qed.
Lemma map_rows_total {A} (f : A → result ReadFault LogRecordMessage) (ts : A → Z) rows :
  (∀ a, in_range (ts a) → ∃ r, f a = Ok r) → Forall in_range (ts <$> rows) → ∃ recs, map_rows f rows = Ok recs ∧ length recs = length rows.
Proof.
  intros Hf. induction rows as [|a rows IH]; intros Hr; [by exists []|]. cbn [fmap list_fmap] in Hr. apply Forall_cons_iff in Hr as [Ha Hr].
  destruct (Hf a Ha) as [r Er], (IH Hr) as (recs & E & El). exists (r :: recs). cbn [map_rows]. rewrite Er, E. cbn. by rewrite El.
Qed.
Lemma mapped_records_total t pol : trace_ok t →
  ∃ l, mapped_records us_text (reader_of t) (mkConverter (tr_snapshots t) pol) = Ok l ∧ length l = trace_rows t.
Proof.
  intros [Hs Hr]. rewrite !Forall_app in Hr. destruct Hr as (R1 & R2 & R3 & R4 & R5 & R6). set (c := mkConverter _ _).
  assert (Hz : ∀ z, in_range z → ∃ r, realtime_or_zero c z = Ok r) by (intros z; by apply realtime_or_zero_ok).
  destruct (map_rows_total (maybe_slice_to_log us_text c) ps_ts (tr_slices t)) as (l1 & E1 & L1); [|done|].
  { intros a Ha. destruct (Hz _ Ha) as [r Er]. unfold maybe_slice_to_log. rewrite Er. by eexists. }
  destruct (map_rows_total (maybe_sched_slice_to_log us_text c) sd_ts (tr_scheds t)) as (l2 & E2 & L2); [|done|].
  { intros a Ha. destruct (Hz _ Ha) as [r Er]. unfold maybe_sched_slice_to_log. rewrite Er. by eexists. }
  destruct (map_rows_total (maybe_thread_state_to_log us_text c) st_ts (tr_states t)) as (l3 & E3 & L3); [|done|].
  { intros a Ha. destruct (Hz _ Ha) as [r Er]. unfold maybe_thread_state_to_log. rewrite Er. by eexists. }
  destruct (map_rows_total (maybe_ftrace_event_to_log c) fe_ts (tr_events t)) as (l4 & E4 & L4); [|done|].
  { intros a Ha. destruct (Hz _ Ha) as [r Er]. unfold maybe_ftrace_event_to_log. rewrite Er. by eexists. }
  destruct (map_rows_total (maybe_spurious_wakeup_to_log c) sw_ts (tr_wakeups t)) as (l5 & E5 & L5); [|done|].
  { intros a Ha. destruct (Hz _ Ha) as [r Er]. unfold maybe_spurious_wakeup_to_log. rewrite Er. by eexists. }
  destruct (map_rows_total (maybe_instant_to_log c) in_ts (tr_instants t)) as (l6 & E6 & L6); [|done|].
  { intros a Ha. destruct (Hz _ Ha) as [r Er]. unfold maybe_instant_to_log. rewrite Er. by eexists. }
  exists (l1 ++ l2 ++ l3 ++ l4 ++ l5 ++ l6). unfold mapped_records, reader_of.
  cbn [read_slices read_sched_slices read_thread_states read_ftrace_events read_spurious_wakeups read_instants].
  rewrite E1, E2, E3, E4, E5, E6. split; [done|]. rewrite !length_app. unfold trace_rows. lia.
Qed.
Lemma trace_emitted t pv db : trace_ok t → reader_refines (reader_of t) db →
  ∃ ems, run_pipeline_impl us_text pv db = Ok ems ∧ trace_emissions (tr_snapshots t) (timestamp_policy pv) (reader_of t) ems ∧ length ems = S (trace_rows t).
Proof.
  intros Ht Hr. destruct (mapped_records_total t (timestamp_policy pv) Ht) as (l & El & Hl).
  assert (∃ ems, run_pipeline_impl us_text pv (reader_of t) = Ok ems) as [ems E].
  { unfold run_pipeline_impl, map_logs. cbn [reader_of read_clock_snapshots read_threads read_processes read_slices_again]. fold (reader_of t). rewrite El. by eexists. }
  pose proof (run_pipeline_emits pv (reader_of t) _ ems eq_refl E) as Hem. exists ems. split_and!; [by eapply pipeline_refines|done|].
  destruct Hem as (recs & th & pr & sl & (l' & El' & Hp) & _ & _ & _ & _ & _ & ->). assert (l' = l) as -> by congruence.
  apply Permutation_length in Hp. rewrite length_app, length_fmap. cbn [length]. lia.
Qed.
End Emitted.

(** ** The exported functions *)

Record PerfettoPlugin : Type := mkPlugin { legacy_callback : bool; generic_callback : bool; last_error : option text }.
Definition lj_ingest_create : PerfettoPlugin := mkPlugin false false None.
Definition lj_ingest_set_callback (ctx : option PerfettoPlugin) : option PerfettoPlugin :=
  (λ p, mkPlugin true (generic_callback p) (last_error p)) <$> ctx.
Definition lj_ingest_set_generic_callback (ctx : option PerfettoPlugin) : option PerfettoPlugin :=
  (λ p, mkPlugin (legacy_callback p) true (last_error p)) <$> ctx.
Definition lj_ingest_feed (ctx : PerfettoPlugin) (data : list Z) : Called PerfettoPlugin := (0, [], ctx).
Definition lj_ingest_last_error (ctx : option PerfettoPlugin) : option text := p ← ctx; last_error p.

(** Without a callback for generic records nothing is sent. *)
Definition emit_generic (ctx : PerfettoPlugin) (e : Emission) : list Delivery :=
  if generic_callback ctx then [OnGenericRecord (mkIngestRecord (em_type e) (em_ts e) (Some (em_payload e)))] else [].

Section Fetch.
Context {OP : OtlpParts} {LC : LogsCodec} (us_text : Z → text).
(** The variables of the process and its files *)
Context (env : Env) (is_file : text → bool).

Definition find_on_path (name : text) : option text :=
  path_var ← env !! str "PATH";
  list.head (filter (λ candidate, is_file candidate = true) ((λ dir, path_join dir name) <$> split_on 58 path_var)).
Definition find_trace_processor : result text text :=
  match env_var (str "LJD_PERFETTO_TRACE_PROCESSOR") env with
  | Some path =>
      if is_file path then Ok path else Err (str "LJD_PERFETTO_TRACE_PROCESSOR is set but not a file: " ++ path)
  | None =>
      match find_on_path (str "trace_processor"), find_on_path (str "trace_processor_shell") with
      | Some path, _ | None, Some path => Ok path
      | None, None => Err (str "trace_processor not found. Set LJD_PERFETTO_TRACE_PROCESSOR or install Perfetto tools on PATH.")
      end
  end.

(** How the export of the trace processor ended: its exit code, if it was not killed, and whether its file is there *)
Inductive ExportRun : Type := SpawnFailed (err : text) | Exited (code : option Z) (produced : bool).
Definition export_sqlite (run : ExportRun) : result text unit :=
  match run with
  | SpawnFailed err => Err (str "failed to spawn trace_processor for sqlite export: " ++ err)
  | Exited code produced =>
      if negb (bool_decide (code = Some 0)) then Err (str "trace_processor export sqlite exited with code " ++ i64_to_string (default (-1) code)) else
      if produced then Ok tt else Err (str "trace_processor export sqlite did not produce output file")
  end.

(** The reader of the processes, the run of the export for a path of the trace processor and a trace, and the database it makes *)
Context (rpc : text → text → Reader) (run_export : text → text → ExportRun) (open_db : text → text → result text Reader).
Definition acquire (trace_file : text) : result ReadFault Reader :=
  let? tp_path := map_err (λ e, ReadErr (str "trace_processor not found: " ++ e)) find_trace_processor in
  if decide (env_var (str "LJD_PERFETTO_ACQUISITION") env = Some (str "rpc")) then Ok (rpc tp_path trace_file) else
  let? _ := map_err (λ e, ReadErr (str "SQLite export failed: " ++ e)) (export_sqlite (run_export tp_path trace_file)) in
  map_err (λ e, ReadErr (str "failed to open exported DB: " ++ e)) (open_db tp_path trace_file).
Definition run_pipeline (trace_file : text) : result ReadFault (list Emission) :=
  let? reader := acquire trace_file in
  run_pipeline_impl us_text (env_var (str "LJD_PERFETTO_TIMESTAMP_POLICY") env) reader.

Definition set_last_error (msg : text) (ctx : PerfettoPlugin) : PerfettoPlugin := mkPlugin (legacy_callback ctx) (generic_callback ctx) (Some msg).
(** [None]: the process ends. *)
Definition lj_ingest_fetch (ctx : option PerfettoPlugin) : option (Z * list Delivery * option PerfettoPlugin) :=
  match ctx with
  | None => Some (-1, [], None)
  | Some ctx =>
      match env_var (str "LJD_PERFETTO_TRACE_FILE") env with
      | None => Some (-2, [], Some (set_last_error (str "LJD_PERFETTO_TRACE_FILE is not set") ctx))
      | Some trace_file =>
          if negb (is_file trace_file) then Some (-3, [], Some (set_last_error (str "trace file not found: " ++ trace_file) ctx)) else
          match run_pipeline trace_file with
          | Ok ems => Some (0, concat (emit_generic ctx <$> ems), Some ctx)
          | Err (ReadErr err) => Some (-4, [], Some (set_last_error err ctx))
          | Err ReadPanic => None
          end
      end
  end.
End Fetch.

(** ** The plugin in the daemon *)

Section Hosted.
Context {EX : Externals} {OP : OtlpParts} {AV : ArrayValues} {LC : LogsCodec} {CK : Clock}.
Context (us_text : Z → text) (env : Env) (is_file : text → bool).
Context (rpc : text → text → Reader) (run_export : text → text → ExportRun) (open_db : text → text → result text Reader).

(** The functions that the host finds in the library, for a fetch that returns *)
Definition perfetto_handle (fetched : Z * list Delivery * option PerfettoPlugin) : PluginHandle (option PerfettoPlugin) :=
  mkPluginHandle _ (Some (Some lj_ingest_create)) lj_ingest_set_callback (λ ctx _, (0, [], ctx)) (Some (λ _, fetched)) (Some lj_ingest_set_generic_callback).
(** The context that the host calls it with: both callbacks are set. *)
Definition hosted_context : option PerfettoPlugin := Some (mkPlugin true true None).
Lemma hosted_context_eq fetched : plugin_context (perfetto_handle fetched) = Some hosted_context.
Proof. reflexivity. Qed.

Definition emission_delivery (e : Emission) : Delivery := OnGenericRecord (mkIngestRecord (em_type e) (em_ts e) (Some (em_payload e))).
Lemma emit_generic_all ems : concat (emit_generic (mkPlugin true true None) <$> ems) = emission_delivery <$> ems.
Proof. induction ems as [|e ems IH]; [done|]. cbn. f_equal. exact IH. Qed.

(** The record of an emission: one without a time gets that of its arrival. *)
Definition stored_emission (e : Emission) (r : WireRecord) : Prop :=
  wire_type r = generic_record_type (em_type e) ∧ wire_payload r = em_payload e ∧ (em_ts e ≠ 0 → wire_ts r = em_ts e).
Lemma delivered_emissions sq ems rs :
  delivered_from sq (emission_delivery <$> ems) rs →
  Forall2 stored_emission ems rs ∧ wire_seq <$> rs = (λ i, sq + Z.of_nat i) <$> List.seq 0 (length rs).
Proof.
  revert sq rs. induction ems as [|e ems IH]; intros sq rs; cbn [fmap list_fmap]; inversion 1 as [|? ? ? ts rs' Ht Hd]; subst; [by split; [constructor|]|].
  destruct (IH _ _ Hd) as [H1 H2]. split; [constructor; [by split_and!|done]|].
  rewrite fmap_cons, H2. cbn [length List.seq fmap list_fmap delivered_record wire_seq emission_delivery]. rewrite Z.add_0_r. f_equal.
  rewrite <-seq_shift, <-list_fmap_compose. apply list_fmap_ext. intros i y _. cbn. lia.
Qed.

End Hosted.

(** ** Both acquisition modes *)


(** A database whose rows are the cells of the wire *)
Section WireDatabase.
Context {FL : Floats} (f64_from_bits : Z → F64) (table : Table → list (list WireCell)).
Definition all_tables : list Table := [Slices; SchedSlices; ThreadStates; FtraceEvents; SpuriousWakeups; Instants; Threads; Processes; ClockSnapshots].
Definition bad_type : text := str "Invalid column type".
Definition wire_sqlite : Sqlite := {|
  Stmt := list (list WireCell);
  Row := list WireCell;
  prepare sql := match filter (λ t, db_sql t = sql) all_tables with t :: _ => Ok (table t) | [] => Err (str "no such table") end;
  query_map stmt _ := Ok (Ok <$> stmt);
  get_i64 row i := match row !! i with Some (WInt v) => Ok v | _ => Err bad_type end;
  get_i32 row i := match row !! i with Some (WInt v) => if decide (- 2 ^ 31 ≤ v < 2 ^ 31) then Ok v else Err bad_type | _ => Err bad_type end;
  get_text row i := match row !! i with Some (WText s) => Ok s | _ => Err bad_type end;
  get_opt_i64 row i := match row !! i with Some (WInt v) => Ok (Some v) | Some WNull => Ok None | _ => Err bad_type end;
  get_opt_i32 row i := match row !! i with Some (WInt v) => if decide (- 2 ^ 31 ≤ v < 2 ^ 31) then Ok (Some v) else Err bad_type | Some WNull => Ok None | _ => Err bad_type end;
  get_opt_text row i := match row !! i with Some (WText s) => Ok (Some s) | Some WNull => Ok None | _ => Err bad_type end;
  get_f64 row i := match row !! i with Some (WFloat b) => Ok (f64_from_bits b) | _ => Err bad_type end;
  get_opt_f64 row i := match row !! i with Some (WFloat b) => Ok (Some (f64_from_bits b)) | Some WNull => Ok None | _ => Err bad_type end |}.
Definition wire_output (sql : text) : result RpcFault (list Z) :=
  match filter (λ t, str (rpc_sql t) = sql) all_tables with
  | t :: _ => Ok (answer_stream (str <$> columns t) [table t])
  | [] => Err eof
  end.

Lemma wire_same_row n (row : list WireCell) : length row = n → same_row (SQ := wire_sqlite) n row row.
Proof.
  intros Hl. split; [done|]. intros i Hi. destruct (lookup_lt_is_Some_2 row i) as [c Hc]; [lia|]. exists c. split; [done|].
  split; intros v; cbn; rewrite Hc; destruct c; repeat case_decide; try done; by intros [= <-].
Qed.
Lemma wire_same_table t :
  answer_ok (length (columns t)) (str <$> columns t) (table t) true → same_table (SQ := wire_sqlite) wire_output t.
Proof.
  intros Ha. exists (table t), (Ok <$> table t), [table t], []. split_and!; [by destruct t|done| |done|].
  - rewrite app_nil_r. by destruct t.
  - destruct Ha as (_ & Hr & _ & _). cbn [concat]. rewrite app_nil_r. induction Hr as [|row rws Hrow _ IH]; [constructor|].
    cbn [fmap list_fmap]. constructor; [|done]. intros r [= <-]. by apply wire_same_row.
Qed.
End WireDatabase.

(** ** Witnesses *)

Section Sample.
#[local] Existing Instance stored_externals.
#[local] Existing Instance sample_parts.
#[local] Existing Instance logs_codec.
#[local] Existing Instance sample_clock.
#[local] Existing Instance sample_floats.
#[local] Instance perfetto_array_values : ArrayValues := λ _, tt.

Definition sample_trace_tables (t : Table) : list (list WireCell) :=
  match t with
  | Slices => [[WInt 1; WInt 2000; WInt 5000; WText (str "draw"); WNull; WInt 3; WNull; WInt 0]]
  | Instants => [[WInt 1500; WInt 3; WNull]]
  | Threads => [[WInt 1; WText (str "main"); WNull; WNull; WInt 1]]
  | ClockSnapshots => [[WInt 1000; WInt 5000]; [WInt 3000; WInt 9001]]
  | _ => []
  end.
Definition f64_bits_sample : Z → F64 (Floats := sample_floats) := λ z, z.
Definition f64_as_sample : F64 (Floats := sample_floats) → Z := λ z, z.
Definition us_sample (ns : Z) : text := i64_to_string ns ++ str "ns".

Definition sample_trace : Trace :=
  mkTrace [mkSnapshot 1000 5000; mkSnapshot 3000 9001] [mkSlice 1 2000 5000 (Some (str "draw")) None 3 None 0] [] [] [] [] [mkInstant 1500 3 None]
    [mkThread 1 (Some (str "main")) None None true] [].
Definition sample_env : Env :=
  list_to_map [(str "LJD_PERFETTO_TRACE_FILE", str "/t/a.pftrace"); (str "PATH", str "/bin:/opt/tp"); (str "LJD_PERFETTO_ACQUISITION", str "rpc")].
Definition sample_is_file (path : text) : bool := bool_decide (path ∈ [str "/t/a.pftrace"; str "/opt/tp/trace_processor"]).
Definition sample_rpc (tp_path trace_file : text) : Reader := reader_of sample_trace.
End Sample.

(** ** Findings *)

(** Without snapshots the policy that asks for real time changes nothing: the errors of the conversion are dropped and every
    record has the time zero. *)
Lemma require_realtime_ignored {OP : OtlpParts} {LC : LogsCodec} us_text db :
  read_clock_snapshots db = Ok [] →
  run_pipeline_impl us_text (Some (str "require-realtime")) db = run_pipeline_impl us_text None db.
Proof.
  intros Es. unfold run_pipeline_impl, map_logs. rewrite Es. cbv iota beta.
  change (timestamp_policy (Some (str "require-realtime"))) with RequireRealtime. change (timestamp_policy None) with BestEffort.
  assert (E : mapped_records us_text db (mkConverter [] RequireRealtime) = mapped_records us_text db (mkConverter [] BestEffort)); [|by rewrite E].
  reflexivity.
Qed.
