(* ===== verification/PerfettoMaps.v ===== *)
(** * Spans and metrics of a trace

    [plugins/perfetto-ingest/src/trace_mapper.rs], [metrics_reader.rs] and [metric_mapper.rs]: slices become spans in batches,
    and the metrics of the trace processor become gauges named by their paths. *)

From S2P Require Import Prelude Text Tokens Drain Canon Format Otlp FlatRecord LibRequest PerfettoReader PerfettoTime Perfetto.

(** ** Spans *)

Definition SPANS_PER_BATCH : nat := 200.
Definition LJ_INGEST_RECORD_TYPE_METRICS : Z := 2.
Definition LJ_INGEST_RECORD_TYPE_TRACES : Z := 3.
Definition make_trace_id (now_ns pid : Z) : list Z := to_le 8 (as_u64 now_ns) ++ to_le 8 pid.
Definition make_span_id (slice_id : Z) : list Z := to_le 8 (as_u64 slice_id).
(** [i64::saturating_add] and [u64::saturating_add] *)
Definition saturating_add_i64 (a b : Z) : Z := Z.max (- 2 ^ 63) (Z.min (2 ^ 63 - 1) (a + b)).
Definition saturating_add_u64 (a b : Z) : Z := Z.min MAX_U64 (a + b).

Section Traces.
Context {OP : OtlpParts}.

(** [Span]; the fields that are always empty or zero are left out. *)
Record PerfettoSpan : Type := mkSpan {
  sp_trace_id : list Z; sp_span_id : list Z; sp_parent_span_id : list Z; sp_name : text; sp_kind : Z;
  sp_start : Z; sp_end : Z; sp_attributes : list KeyValue; sp_status : Z }.
Definition SPAN_KIND_INTERNAL : Z := 1.
Definition STATUS_UNSET : Z := 0.

Definition to_read (e : TimeFault) : ReadFault := match e with TimePanic => ReadPanic | TimeErr msg => ReadErr msg end.
Definition realtime (c : TimestampConverter) (ts : Z) : result ReadFault (option Z) := map_err to_read (to_realtime c ts).
Definition any_string (s : text) : AnyValue := string_value s.
Definition any_int (v : Z) : AnyValue := int_value v.
Definition build_span (slice : PerfettoSlice) (trace_id : list Z) (c : TimestampConverter) : result ReadFault PerfettoSpan :=
  let? start := realtime c (ps_ts slice) in
  let start_time := default 0 start in
  let? stop := realtime c (saturating_add_i64 (ps_ts slice) (ps_dur slice)) in
  let end_time := default (saturating_add_u64 start_time (Z.max (ps_dur slice) 0)) stop in
  Ok (mkSpan trace_id (make_span_id (ps_id slice)) (from_option make_span_id (replicate 8 0) (ps_parent_id slice))
        (default (str "slice-" ++ i64_to_string (ps_id slice)) (ps_name slice)) SPAN_KIND_INTERNAL start_time end_time
        [key_value (str "perfetto.slice.id") (any_string (i64_to_string (ps_id slice)));
         key_value (str "perfetto.slice.ts") (any_string (i64_to_string (ps_ts slice)));
         key_value (str "perfetto.slice.dur_ns") (any_string (i64_to_string (ps_dur slice)));
         key_value (str "perfetto.slice.track_id") (any_string (i64_to_string (ps_track_id slice)));
         key_value (str "perfetto.slice.depth") (any_int (ps_depth slice))] STATUS_UNSET).

(** A batch that is emitted, under the smallest time in it *)
Record SpanBatch : Type := mkBatch { sb_ts : Z; sb_spans : list PerfettoSpan }.
Record TraceState : Type := mkTraceState { ts_batch : list PerfettoSpan; ts_min : option Z; ts_emitted : list SpanBatch }.
Definition flush_batch (s : TraceState) : TraceState :=
  match ts_batch s with
  | [] => s
  | spans => mkTraceState [] None (ts_emitted s ++ [mkBatch (default 0 (ts_min s)) spans])
  end.
(** A slice without a time of day is left out. *)
Definition trace_slice (trace_id : list Z) (c : TimestampConverter) (s : TraceState) (slice : PerfettoSlice) : result ReadFault TraceState :=
  let? span := build_span slice trace_id c in
  let? span_ts := realtime c (ps_ts slice) in
  Ok match span_ts with
     | None => s
     | Some span_ts =>
         let s := mkTraceState (ts_batch s ++ [span])
           (Some (match ts_min s with Some m => if span_ts <? m then span_ts else m | None => span_ts end)) (ts_emitted s) in
         if decide (SPANS_PER_BATCH ≤ length (ts_batch s))%nat then flush_batch s else s
     end.
(** What is emitted before an error stays emitted. *)
Fixpoint trace_slices (trace_id : list Z) (c : TimestampConverter) (s : TraceState) (slices : list PerfettoSlice) : result ReadFault unit * list SpanBatch :=
  match slices with
  | [] => (Ok tt, ts_emitted (flush_batch s))
  | slice :: slices =>
      match trace_slice trace_id c s slice with
      | Ok s => trace_slices trace_id c s slices
      | Err e => (Err e, ts_emitted s)
      end
  end.
(** Threads, tracks and processes are read for the context of the spans, which none of them uses. *)
Definition map_traces {FL} {SQ : @Sqlite FL} (now_ns pid : Z) (c : TimestampConverter) : result ReadFault unit * list SpanBatch :=
  match db_read_threads, db_read_tracks, db_read_processes, db_read_slices with
  | Ok _, Ok _, Ok _, Ok [] => (Ok tt, [])
  | Ok _, Ok _, Ok _, Ok slices => trace_slices (make_trace_id now_ns pid) c (mkTraceState [] None []) slices
  | Err e, _, _, _ | Ok _, Err e, _, _ | Ok _, Ok _, Err e, _ | Ok _, Ok _, Ok _, Err e => (Err e, [])
  end.

(** ** Every span is in one batch *)

Definition batch_well_formed (b : SpanBatch) : Prop :=
  (1 ≤ length (sb_spans b) ≤ SPANS_PER_BATCH)%nat ∧ sb_ts b ∈ (sp_start <$> sb_spans b) ∧ Forall (λ sp, sb_ts b ≤ sp_start sp) (sb_spans b).
Definition traced (s : TraceState) : list PerfettoSpan := concat (sb_spans <$> ts_emitted s) ++ ts_batch s.
Definition trace_inv (s : TraceState) : Prop :=
  Forall batch_well_formed (ts_emitted s) ∧ (length (ts_batch s) < SPANS_PER_BATCH)%nat ∧
  match ts_min s with
  | None => ts_batch s = []
  | Some m => m ∈ (sp_start <$> ts_batch s) ∧ Forall (λ sp, m ≤ sp_start sp) (ts_batch s)
  end.

Lemma flush_traced s : traced (flush_batch s) = traced s.
Proof.
  unfold traced, flush_batch. destruct (ts_batch s) as [|sp spans] eqn:E; [by rewrite E|]. cbn [ts_emitted ts_batch].
  rewrite fmap_app, concat_app, app_nil_r. cbn. by rewrite app_nil_r.
Qed.
Lemma flush_batch_empty s : ts_batch (flush_batch s) = [].
Proof. unfold flush_batch. by destruct (ts_batch s) eqn:E. Qed.
Lemma flush_well_formed s m : ts_min s = Some m → Forall batch_well_formed (ts_emitted s) → (length (ts_batch s) ≤ SPANS_PER_BATCH)%nat →
  m ∈ (sp_start <$> ts_batch s) → Forall (λ sp, m ≤ sp_start sp) (ts_batch s) →
  Forall batch_well_formed (ts_emitted (flush_batch s)) ∧ ts_min (flush_batch s) = None.
Proof.
  intros Em He Hl Hin Hf. unfold flush_batch. rewrite Em. destruct (ts_batch s) as [|sp spans]; [by apply not_elem_of_nil in Hin|].
  split; [|done]. cbn [ts_emitted]. apply Forall_app. split; [done|]. constructor; [|constructor].
  split_and!; cbn [sb_spans sb_ts default from_option] in *; [cbn [length]; lia|done|done|done].
Qed.

(** The span of a slice that has a time of day *)
Definition slice_span (trace_id : list Z) (c : TimestampConverter) (slice : PerfettoSlice) : option PerfettoSpan :=
  match realtime c (ps_ts slice), build_span slice trace_id c with Ok (Some _), Ok span => Some span | _, _ => None end.
Lemma build_span_start slice trace_id c span ts : build_span slice trace_id c = Ok span → realtime c (ps_ts slice) = Ok (Some ts) → sp_start span = ts.
Proof. intros Hb Hr. unfold build_span in Hb. rewrite Hr in Hb. destruct (realtime c (saturating_add_i64 _ _)); [|done]. by injection Hb as <-. Qed.

Lemma trace_slice_inv trace_id c s slice s' :
  trace_inv s → trace_slice trace_id c s slice = Ok s' →
  trace_inv s' ∧ traced s' = traced s ++ option_list (slice_span trace_id c slice).
Proof.
  intros (He & Hl & Hm). unfold trace_slice, slice_span. destruct (build_span slice trace_id c) as [span|] eqn:Eb; [|done].
  destruct (realtime c (ps_ts slice)) as [[ts|]|] eqn:Er; [|intros [= <-]; by rewrite app_nil_r|done].
  pose proof (build_span_start _ _ _ _ _ Eb Er) as Hst. cbv zeta. set (m := match ts_min s with Some _ => _ | None => _ end).
  set (s1 := mkTraceState _ _ _).
  assert (Hin : m ∈ (sp_start <$> ts_batch s1) ∧ Forall (λ sp, m ≤ sp_start sp) (ts_batch s1)).
  { unfold s1, m. cbn [ts_batch]. rewrite fmap_app, Forall_app. cbn [fmap list_fmap]. rewrite Hst.
    destruct (ts_min s) as [m0|]; [|rewrite Hm; split; [by left|split; [constructor|constructor; [cbn; lia|constructor]]]].
    destruct Hm as [H1 H2]. destruct (Z.ltb_spec ts m0).
    - split; [apply elem_of_app; right; by left|]. split; [eapply list.Forall_impl; [exact H2|]; cbn; lia|constructor; [cbn; lia|constructor]].
    - split; [apply elem_of_app; by left|]. split; [done|constructor; [cbn; lia|constructor]]. }
  assert (Ht : traced s1 = traced s ++ [span]) by (unfold traced, s1; cbn [ts_emitted ts_batch]; by rewrite app_assoc).
  assert (Hl1 : (length (ts_batch s1) ≤ SPANS_PER_BATCH)%nat) by (unfold s1; cbn [ts_batch]; rewrite length_app; cbn [length]; lia).
  intros [= <-]. case_decide as Hd; [|split; [split_and!; [done|apply Nat.nle_gt; exact Hd|exact Hin]|exact Ht]].
  rewrite flush_traced. split; [|exact Ht]. destruct Hin as [Hi Hf].
  destruct (flush_well_formed s1 m eq_refl He Hl1 Hi Hf) as [H1 H2]. split_and!; [done| |].
  - rewrite flush_batch_empty. unfold SPANS_PER_BATCH. cbn. lia.
  - rewrite H2. apply flush_batch_empty.
Qed.

(** Spans are batched without loss: in the order of the slices, at most two hundred in a batch, none of them empty, each
    under the earliest start in it. *)
Theorem spans_batched trace_id c slices batches :
  trace_slices trace_id c (mkTraceState [] None []) slices = (Ok tt, batches) →
  concat (sb_spans <$> batches) = omap (slice_span trace_id c) slices ∧ Forall batch_well_formed batches.
Proof.
  assert (H : ∀ s, trace_inv s → trace_slices trace_id c s slices = (Ok tt, batches) →
    concat (sb_spans <$> batches) = traced s ++ omap (slice_span trace_id c) slices ∧ Forall batch_well_formed batches).
  { induction slices as [|slice slices IH]; intros s Hs; cbn [trace_slices].
    - intros [= <-]. cbn [omap list_omap]. rewrite app_nil_r. pose proof (flush_traced s) as Ht. unfold traced in Ht at 1.
      rewrite flush_batch_empty, app_nil_r in Ht. split; [done|]. destruct Hs as (He & Hl & Hm). destruct (ts_min s) as [m|] eqn:Em.
      + destruct Hm. apply (flush_well_formed s m); auto with lia.
      + unfold flush_batch. by rewrite Hm.
    - destruct (trace_slice trace_id c s slice) as [s'|] eqn:E; [|done]. destruct (trace_slice_inv _ _ _ _ _ Hs E) as [Hi Ht].
      intros Hb. destruct (IH s' Hi Hb) as [-> Hw]. split; [|done]. rewrite Ht, <-app_assoc. f_equal. cbn.
      by destruct (slice_span trace_id c slice). }
  intros Hb. apply (H _) in Hb as [-> ?]; [done|]. split_and!; [constructor|cbn; unfold SPANS_PER_BATCH; lia|done].
Qed.

(** The parent of a child of slice zero is written as that of a slice without parent. *)
Lemma slice_zero_is_no_parent : make_span_id 0 = from_option make_span_id (replicate 8 0) None.
Proof. reflexivity. Qed.
End Traces.

(** ** Metrics *)

Section Metrics.
Context {JN : JsonNumbers} {JS : Json}.

Inductive PerfettoMetric : Type := mkMetric {
  me_name : text; me_description : option text; me_unit : option text; me_scalar : option f64; me_labels : list (text * text); me_children : list PerfettoMetric }.

Definition get_member (key : text) (o : list (text * Value)) : option Value := snd <$> list.head (filter (λ kv, kv.1 = key) o).
Definition as_f64 (v : Value) : option f64 := match v with Num n => num_as_f64 n | _ => None end.
Definition as_str (v : Value) : option text := match v with String s => Some s | _ => None end.
Definition is_label (key : text) : bool := negb (bool_decide (key ∈ [str "value"; str "description"; str "unit"])).
(** An object gives its own values, its other texts as labels and its objects as children, whatever their names. *)
Fixpoint parse_metric (name : text) (value : Value) : PerfettoMetric :=
  match value with
  | Object o =>
      mkMetric name (get_member (str "description") o ≫= as_str) (get_member (str "unit") o ≫= as_str)
        (get_member (str "value") o ≫= as_f64)
        (omap (λ kv, match kv with (k, String s) => if is_label k then Some (k, s) else None | _ => None end) o)
        ((fix children (o : list (text * Value)) : list PerfettoMetric :=
           match o with
           | [] => []
           | (k, v) :: o => match v with Object _ => parse_metric k v :: children o | _ => children o end
           end) o)
  | _ => mkMetric name None None (as_f64 value) [] []
  end.
(** [contents]: what reading the file gives, [path] its name. *)
Definition parse_metrics_json (path : text) (contents : result text text) : result text (list PerfettoMetric) :=
  let? bytes := map_err (λ e, str "failed to read metrics JSON file " ++ path ++ str ": " ++ e) contents in
  match from_str bytes with
  | None => Err (str "failed to parse metrics JSON")
  | Some (Object o) => Ok ((λ kv, parse_metric kv.1 kv.2) <$> o)
  | Some _ => Err (str "metrics JSON root is not an object: " ++ path)
  end.

(** [Metric] with its one data point *)
Record GaugeMetric : Type := mkGauge { ga_name : text; ga_description : text; ga_unit : text; ga_value : f64; ga_attributes : list (text * text) }.
Fixpoint flatten_metrics (prefix : list text) (m : PerfettoMetric) : list GaugeMetric :=
  let prefix := prefix ++ [me_name m] in
  let full_name := join (str ".") prefix in
  match me_scalar m with
  | Some scalar => [mkGauge full_name (default [] (me_description m)) (default [] (me_unit m)) scalar (me_labels m)]
  | None => []
  end ++ concat (flatten_metrics prefix <$> me_children m).
(** One request with all the metrics, at the time of the mapping, unless there is none *)
Definition map_metrics (encode_gauges : list GaugeMetric → list Z) (now_ns : Z) (ms : list PerfettoMetric) : list Emission :=
  match concat (flatten_metrics [] <$> ms) with
  | [] => []
  | gauges => [mkEmission LJ_INGEST_RECORD_TYPE_METRICS (as_u64 now_ns) (encode_gauges gauges)]
  end.

(** ** Every value of the metrics is a gauge *)

(** A path of objects to one with a number as its value *)
Inductive metric_at : Value → list text → f64 → Prop :=
| metric_here o f : get_member (str "value") o ≫= as_f64 = Some f → metric_at (Object o) [] f
| metric_below o k o' p f : (k, Object o') ∈ o → metric_at (Object o') p f → metric_at (Object o) (k :: p) f.
Definition gauge_of (g : GaugeMetric) : text * f64 := (ga_name g, ga_value g).

Definition metric_children (o : list (text * Value)) : list PerfettoMetric :=
  omap (λ kv, match kv with (k, Object o) => Some (parse_metric k (Object o)) | _ => None end) o.
Lemma parse_metric_object name o :
  parse_metric name (Object o) =
    mkMetric name (get_member (str "description") o ≫= as_str) (get_member (str "unit") o ≫= as_str) (get_member (str "value") o ≫= as_f64)
      (omap (λ kv, match kv with (k, String s) => if is_label k then Some (k, s) else None | _ => None end) o) (metric_children o).
Proof.
  cbn [parse_metric]. f_equal. unfold metric_children. induction o as [|[k v] o IH]; [done|]. rewrite IH. by destruct v.
Qed.

Lemma elem_of_concat_lists {A} (x : A) ls : x ∈ concat ls ↔ ∃ l, x ∈ l ∧ l ∈ ls.
Proof.
  induction ls as [|l0 ls IH]; cbn [concat].
  - split; [by intros ?%not_elem_of_nil|by intros (l & _ & ?%not_elem_of_nil)].
  - rewrite elem_of_app, IH. setoid_rewrite elem_of_cons. split; [|naive_solver].
    intros [?|(l & ? & ?)]; [exists l0|exists l]; auto.
Qed.

Lemma metrics_flattened_at v : ∀ o prefix name n f, v = Object o →
  (n, f) ∈ gauge_of <$> flatten_metrics prefix (parse_metric name v) ↔
  ∃ p, n = join (str ".") (prefix ++ name :: p) ∧ metric_at v p f.
Proof.
  induction v as [|b|z|s|arr IHa|o IH] using Value_ind; intros o0 prefix name nm f Ho; try discriminate. injection Ho as <-.
  rewrite parse_metric_object. cbn [flatten_metrics me_name me_scalar me_description me_unit me_labels me_children].
  rewrite fmap_app, elem_of_app. split.
  - intros [Hh|Hc].
    + destruct (get_member (str "value") o ≫= as_f64) as [z|] eqn:Ev; [|by apply not_elem_of_nil in Hh].
      cbn in Hh. apply list_elem_of_singleton in Hh. injection Hh as -> ->. exists []. split; [done|]. by constructor.
    + apply list_elem_of_fmap in Hc as (g & Eg & Hg). apply elem_of_concat_lists in Hg as (gs & Hg & Hgs).
      apply list_elem_of_fmap in Hgs as (m & -> & Hm). unfold metric_children in Hm. apply list_elem_of_omap in Hm as ([k w] & Hk & Em).
      destruct w as [| | | | |o']; try discriminate. injection Em as <-.
      rewrite list.Forall_forall in IH. destruct (proj1 (IH _ Hk o' (prefix ++ [name]) k nm f eq_refl)) as (p & -> & Hp).
      { rewrite Eg. by apply list_elem_of_fmap_2. }
      exists (k :: p). split; [by rewrite <-app_assoc|]. by eapply metric_below.
  - intros (p & -> & Hm). inversion Hm as [o1 f1 Hv|o1 k o' p' f1 Hk Hp]; subst.
    + left. rewrite Hv. cbn. by left.
    + right. rewrite list.Forall_forall in IH. assert (Hg := proj2 (IH _ Hk o' (prefix ++ [name]) k (join (str ".") ((prefix ++ [name]) ++ k :: p')) f eq_refl) (ex_intro _ p' (conj eq_refl Hp))).
      rewrite <-app_assoc in Hg. cbn [app] in Hg. apply list_elem_of_fmap in Hg as (g & Eg & Hg). rewrite Eg. apply list_elem_of_fmap_2.
      apply elem_of_concat_lists. eexists. split; [exact Hg|]. apply list_elem_of_fmap_2. apply list_elem_of_omap. by exists (k, Object o').
Qed.
(** The gauges of the metrics of a trace are exactly the numbers that the objects of its report have as values, each named by the
    path of names that leads to it. *)
Theorem metrics_flattened o prefix name n f :
  (n, f) ∈ gauge_of <$> flatten_metrics prefix (parse_metric name (Object o)) ↔
  ∃ p, n = join (str ".") (prefix ++ name :: p) ∧ metric_at (Object o) p f.
Proof. by apply metrics_flattened_at with (o := o). Qed.
End Metrics.
