(* ===== verification/Parquet.v ===== *)
(** * The Parquet exporter

    [plugins/parquet-exporter/src/lib.rs]: the exporter plugin that turns the records of a log into rows of one table, buffers them by
    column and hands them in batches to the Arrow writer, whose output goes back to the host.  The writer and the record batches of
    the Arrow libraries are parameters; the interface to the host is that of [Exporter]. *)

From S2P Require Import Prelude Text Tokens Format Writer Reader Instances Scan Container Otlp FlatRecord SampleCodec Canon Cel Predicate Input Dataset Exporter Ndjson FileSpool.

Definition LJX_EXPORT_STATUS_ERROR : Z := 1.
Definition LJX_EXPORT_STATUS_UNSUPPORTED : Z := 4.
Definition DEFAULT_ROW_GROUP_ROWS : Z := 8192.

(** ** Tables *)

Inductive DataType : Type := UInt64 | UInt32 | Int32 | Float64 | Boolean | Utf8.
#[export] Instance DataType_eq_dec : EqDecision DataType.
Proof. solve_decision. Defined.
Record Field : Type := mkField { fd_name : string; fd_type : DataType; fd_nullable : bool }.

Section Tables.
Context {FL : Floats}.

(** The arrays of Arrow, with nulls *)
Inductive ColumnArray : Type :=
| UInt64Array (l : list (option Z)) | UInt32Array (l : list (option Z)) | Int32Array (l : list (option Z))
| Float64Array (l : list (option F64)) | BooleanArray (l : list (option bool)) | StringArray (l : list (option text)).
Definition array_type (a : ColumnArray) : DataType :=
  match a with
  | UInt64Array _ => UInt64 | UInt32Array _ => UInt32 | Int32Array _ => Int32 | Float64Array _ => Float64 | BooleanArray _ => Boolean
  | StringArray _ => Utf8
  end.
Definition array_len (a : ColumnArray) : nat :=
  match a with
  | UInt64Array l | UInt32Array l | Int32Array l => length l
  | Float64Array l => length l | BooleanArray l => length l | StringArray l => length l
  end.
Definition no_nulls {A} (l : list (option A)) : Prop := Forall (λ o, o ≠ None) l.
Definition array_no_nulls (a : ColumnArray) : Prop :=
  match a with
  | UInt64Array l | UInt32Array l | Int32Array l => no_nulls l
  | Float64Array l => no_nulls l | BooleanArray l => no_nulls l | StringArray l => no_nulls l
  end.
(** What [RecordBatch::try_new] asks of the arrays for a schema *)
Definition batch_valid (fields : list Field) (arrays : list ColumnArray) (n : nat) : Prop :=
  Forall2 (λ f a, array_type a = fd_type f ∧ array_len a = n ∧ (fd_nullable f = false → array_no_nulls a)) fields arrays.

Record ParquetRow : Type := mkRow {
  pr_sequence : Z; pr_timestamp_unix_ns : option Z; pr_signal_type : text; pr_observed_timestamp_unix_ns : option Z;
  pr_trace_id : option text; pr_span_id : option text; pr_trace_flags : option Z; pr_severity_number : option Z;
  pr_severity_text : option text; pr_body_kind : option text; pr_body_string : option text; pr_body_json : option text;
  pr_metric_name : option text; pr_metric_description : option text; pr_metric_unit : option text;
  pr_metric_type : option text; pr_metric_value_number : option F64; pr_metric_value_count : option Z;
  pr_metric_value_sum : option F64; pr_is_monotonic : option bool; pr_aggregation_temporality : option Z;
  pr_span_name : option text; pr_span_kind : option text; pr_parent_span_id : option text;
  pr_start_time_unix_ns : option Z; pr_end_time_unix_ns : option Z; pr_duration_ns : option Z;
  pr_status_code : option Z; pr_status_message : option text; pr_service_name : option text;
  pr_scope_name : option text; pr_scope_version : option text; pr_resource_attributes_json : option text;
  pr_scope_attributes_json : option text; pr_log_attributes_json : option text; pr_span_attributes_json : option text;
  pr_event_name : option text }.

(** The buffer has a vector for every column. *)
Record RowBuffer : Type := mkBuffer {
  rb_sequence : list Z; rb_timestamp_unix_ns : list (option Z); rb_signal_type : list text;
  rb_observed_timestamp_unix_ns : list (option Z); rb_trace_id : list (option text); rb_span_id : list (option text);
  rb_trace_flags : list (option Z); rb_severity_number : list (option Z); rb_severity_text : list (option text);
  rb_body_kind : list (option text); rb_body_string : list (option text); rb_body_json : list (option text);
  rb_metric_name : list (option text); rb_metric_description : list (option text); rb_metric_unit : list (option text);
  rb_metric_type : list (option text); rb_metric_value_number : list (option F64);
  rb_metric_value_count : list (option Z); rb_metric_value_sum : list (option F64);
  rb_is_monotonic : list (option bool); rb_aggregation_temporality : list (option Z);
  rb_span_name : list (option text); rb_span_kind : list (option text); rb_parent_span_id : list (option text);
  rb_start_time_unix_ns : list (option Z); rb_end_time_unix_ns : list (option Z); rb_duration_ns : list (option Z);
  rb_status_code : list (option Z); rb_status_message : list (option text); rb_service_name : list (option text);
  rb_scope_name : list (option text); rb_scope_version : list (option text);
  rb_resource_attributes_json : list (option text); rb_scope_attributes_json : list (option text);
  rb_log_attributes_json : list (option text); rb_span_attributes_json : list (option text);
  rb_event_name : list (option text) }.
Definition buffer_empty : RowBuffer :=
  mkBuffer [] [] [] [] [] [] [] [] [] [] [] [] [] [] [] [] [] [] [] [] [] [] [] [] [] [] [] [] [] [] [] [] [] [] [] [] [].
Definition buffer_push (b : RowBuffer) (row : ParquetRow) : RowBuffer :=
  mkBuffer
    (rb_sequence b ++ [pr_sequence row]) (rb_timestamp_unix_ns b ++ [pr_timestamp_unix_ns row])
    (rb_signal_type b ++ [pr_signal_type row]) (rb_observed_timestamp_unix_ns b ++ [pr_observed_timestamp_unix_ns row])
    (rb_trace_id b ++ [pr_trace_id row]) (rb_span_id b ++ [pr_span_id row]) (rb_trace_flags b ++ [pr_trace_flags row])
    (rb_severity_number b ++ [pr_severity_number row]) (rb_severity_text b ++ [pr_severity_text row])
    (rb_body_kind b ++ [pr_body_kind row]) (rb_body_string b ++ [pr_body_string row])
    (rb_body_json b ++ [pr_body_json row]) (rb_metric_name b ++ [pr_metric_name row])
    (rb_metric_description b ++ [pr_metric_description row]) (rb_metric_unit b ++ [pr_metric_unit row])
    (rb_metric_type b ++ [pr_metric_type row]) (rb_metric_value_number b ++ [pr_metric_value_number row])
    (rb_metric_value_count b ++ [pr_metric_value_count row]) (rb_metric_value_sum b ++ [pr_metric_value_sum row])
    (rb_is_monotonic b ++ [pr_is_monotonic row]) (rb_aggregation_temporality b ++ [pr_aggregation_temporality row])
    (rb_span_name b ++ [pr_span_name row]) (rb_span_kind b ++ [pr_span_kind row])
    (rb_parent_span_id b ++ [pr_parent_span_id row]) (rb_start_time_unix_ns b ++ [pr_start_time_unix_ns row])
    (rb_end_time_unix_ns b ++ [pr_end_time_unix_ns row]) (rb_duration_ns b ++ [pr_duration_ns row])
    (rb_status_code b ++ [pr_status_code row]) (rb_status_message b ++ [pr_status_message row])
    (rb_service_name b ++ [pr_service_name row]) (rb_scope_name b ++ [pr_scope_name row])
    (rb_scope_version b ++ [pr_scope_version row]) (rb_resource_attributes_json b ++ [pr_resource_attributes_json row])
    (rb_scope_attributes_json b ++ [pr_scope_attributes_json row])
    (rb_log_attributes_json b ++ [pr_log_attributes_json row])
    (rb_span_attributes_json b ++ [pr_span_attributes_json row]) (rb_event_name b ++ [pr_event_name row]).
Definition buffer_len (b : RowBuffer) : Z := len (rb_sequence b).
Definition buffer_arrays (b : RowBuffer) : list ColumnArray := [
  UInt64Array (Some <$> rb_sequence b); UInt64Array (rb_timestamp_unix_ns b); StringArray (Some <$> rb_signal_type b);
  UInt64Array (rb_observed_timestamp_unix_ns b); StringArray (rb_trace_id b); StringArray (rb_span_id b);
  UInt32Array (rb_trace_flags b); Int32Array (rb_severity_number b); StringArray (rb_severity_text b);
  StringArray (rb_body_kind b); StringArray (rb_body_string b); StringArray (rb_body_json b);
  StringArray (rb_metric_name b); StringArray (rb_metric_description b); StringArray (rb_metric_unit b);
  StringArray (rb_metric_type b); Float64Array (rb_metric_value_number b); UInt64Array (rb_metric_value_count b);
  Float64Array (rb_metric_value_sum b); BooleanArray (rb_is_monotonic b); Int32Array (rb_aggregation_temporality b);
  StringArray (rb_span_name b); StringArray (rb_span_kind b); StringArray (rb_parent_span_id b);
  UInt64Array (rb_start_time_unix_ns b); UInt64Array (rb_end_time_unix_ns b); UInt64Array (rb_duration_ns b);
  Int32Array (rb_status_code b); StringArray (rb_status_message b); StringArray (rb_service_name b);
  StringArray (rb_scope_name b); StringArray (rb_scope_version b); StringArray (rb_resource_attributes_json b);
  StringArray (rb_scope_attributes_json b); StringArray (rb_log_attributes_json b);
  StringArray (rb_span_attributes_json b); StringArray (rb_event_name b)].

Definition schema : list Field := [
  mkField "sequence" UInt64 false; mkField "timestamp_unix_ns" UInt64 true; mkField "signal_type" Utf8 false;
  mkField "observed_timestamp_unix_ns" UInt64 true; mkField "trace_id" Utf8 true; mkField "span_id" Utf8 true;
  mkField "trace_flags" UInt32 true; mkField "severity_number" Int32 true; mkField "severity_text" Utf8 true;
  mkField "body_kind" Utf8 true; mkField "body_string" Utf8 true; mkField "body_json" Utf8 true;
  mkField "metric_name" Utf8 true; mkField "metric_description" Utf8 true; mkField "metric_unit" Utf8 true;
  mkField "metric_type" Utf8 true; mkField "metric_value_number" Float64 true;
  mkField "metric_value_count" UInt64 true; mkField "metric_value_sum" Float64 true;
  mkField "is_monotonic" Boolean true; mkField "aggregation_temporality" Int32 true; mkField "span_name" Utf8 true;
  mkField "span_kind" Utf8 true; mkField "parent_span_id" Utf8 true; mkField "start_time_unix_ns" UInt64 true;
  mkField "end_time_unix_ns" UInt64 true; mkField "duration_ns" UInt64 true; mkField "status_code" Int32 true;
  mkField "status_message" Utf8 true; mkField "service_name" Utf8 true; mkField "scope_name" Utf8 true;
  mkField "scope_version" Utf8 true; mkField "resource_attributes_json" Utf8 true;
  mkField "scope_attributes_json" Utf8 true; mkField "log_attributes_json" Utf8 true;
  mkField "span_attributes_json" Utf8 true; mkField "event_name" Utf8 true].
End Tables.

(** ** The rows of a record *)

Definition zero_is_none (value : Z) : option Z := if value =? 0 then None else Some value.
Definition non_empty (value : text) : option text := match value with [] => None | _ => Some value end.
Definition nibble_to_hex (value : Z) : Z := if value <=? 9 then 48 + value else 97 + (value - 10).
Definition bytes_to_lower_hex (bs : list Z) : option text :=
  match bs with [] => None | _ => Some (concat ((λ byte, [nibble_to_hex (Z.shiftr byte 4); nibble_to_hex (Z.land byte 15)]) <$> bs)) end.

Section RowsOf.
Context {OP : OtlpParts} {FL : Floats} {VT : ValueTrees} {LC : LogsCodec} {SC : SignalCodec} {JT : JsonText}.
(** The flags of a span, which nothing else of the tools reads *)
Context (span_flags : SpanFields → Z).

(** [sort_by] on the keys, and the insertion into a map *)
Fixpoint insert_pair (p : text * JsonValue) (l : list (text * JsonValue)) : list (text * JsonValue) :=
  match l with [] => [p] | q :: l => if text_leb p.1 q.1 then p :: q :: l else q :: insert_pair p l end.
Definition pairs_object (pairs : list (text * JsonValue)) : JsonValue :=
  object (foldl (λ m p, <[p.1 := p.2]> m) ∅ (foldr insert_pair [] pairs)).

Fixpoint value_to_json (v : ValueTree) : option JsonValue :=
  match v with
  | TreeString s => Some (JsonString s)
  | TreeBool b => Some (JsonBool b)
  | TreeInt n => Some (JsonInt n)
  | TreeDouble d => json_f64 d
  | TreeBytes b => Some (JsonString (default [] (bytes_to_lower_hex b)))
  | TreeArray l => Some (JsonArray (omap value_to_json l))
  | TreeKvlist l =>
      Some (pairs_object ((fix entries (l : list (text * option ValueTree)) : list (text * JsonValue) :=
        match l with
        | [] => []
        | (k, Some v) :: l => match value_to_json v with Some j => (k, j) :: entries l | None => entries l end
        | (_, None) :: l => entries l
        end) l))
  | TreeStrindex | TreeNone => None
  end.
Definition attrs_to_json (attrs : list KeyValue) : option text :=
  match attrs with
  | [] => None
  | _ =>
      match omap (λ attr, value ← kv_value attr; j ← value_to_json (tree_of value); Some (kv_key attr, j)) attrs with
      | [] => None
      | pairs => Some (json_text (pairs_object pairs))
      end
  end.
Definition find_attr_string (attrs : list KeyValue) (key : text) : option text :=
  attr ← list.head (filter (λ attr, kv_key attr = key) attrs);
  value ← kv_value attr;
  match tree_of value with TreeString s => non_empty s | _ => None end.

Definition body_kind (value : option AnyValue) : text :=
  match tree_of <$> value with
  | None | Some TreeNone | Some TreeStrindex => str "empty"
  | Some (TreeString _) => str "string"
  | Some (TreeBool _) => str "bool"
  | Some (TreeInt _) => str "int"
  | Some (TreeDouble _) => str "double"
  | Some (TreeBytes _) => str "bytes"
  | Some (TreeArray _) => str "array"
  | Some (TreeKvlist _) => str "kvlist"
  end.
Definition body_string (value : option AnyValue) : option text := match tree_of <$> value with Some (TreeString s) => Some s | _ => None end.
Definition body_json (value : option AnyValue) : option text := v ← value; j ← value_to_json (tree_of v); Some (json_text j).
Definition number_data_point_value_f64 (v : NumberValue) : option F64 :=
  match v with AsDouble d => Some d | AsInt i => Some (f64_from_i64 i) end.

Definition service_of (r : option ResourceMessage) : option text := find_attr_string (resource_attrs_of r) (str "service.name").
Definition scope_text (part : InstrumentationScope → text) (s : option InstrumentationScope) : option text := s ← s; non_empty (part s).
Definition scope_json (s : option InstrumentationScope) : option text := s ← s; attrs_to_json (is_attributes s).

Definition parquet_log_row (record : LjxExportRecordV1) (r : option ResourceMessage) (s : option InstrumentationScope) (lr : LogRecordMessage) : ParquetRow :=
  mkRow
    (xr_seq record) (Some (xr_timestamp_unix_ns record)) (str "logs") (zero_is_none (lr_observed_time_unix_nano lr))
    (bytes_to_lower_hex (lr_trace_id lr)) (bytes_to_lower_hex (lr_span_id lr)) (zero_is_none (lr_flags lr))
    (zero_is_none (lr_severity_number lr)) (non_empty (lr_severity_text lr)) (Some (body_kind (lr_body lr)))
    (body_string (lr_body lr)) (body_json (lr_body lr)) None None None None None None None None None None None None
    None None None None None (service_of r) (scope_text is_name s) (scope_text is_version s)
    (attrs_to_json (resource_attrs_of r)) (scope_json s) (attrs_to_json (lr_attributes lr)) None
    (non_empty (lr_event_name lr)).
Definition parquet_span_row (record : LjxExportRecordV1) (r : option ResourceMessage) (s : option InstrumentationScope) (span : SpanFields) : ParquetRow :=
  let duration := Z.max 0 (sf_end_time_unix_nano span - sf_start_time_unix_nano span) in
  mkRow
    (xr_seq record) (Some (xr_timestamp_unix_ns record)) (str "traces") None (bytes_to_lower_hex (sf_trace_id span))
    (bytes_to_lower_hex (sf_span_id span)) (zero_is_none (span_flags span)) None None None None None None None None
    None None None None None None (non_empty (sf_name span)) (Some (format_span_kind (sf_kind span)))
    (bytes_to_lower_hex (sf_parent_span_id span)) (zero_is_none (sf_start_time_unix_nano span))
    (zero_is_none (sf_end_time_unix_nano span)) (if 0 <? duration then Some duration else None)
    (s ← sf_status span; zero_is_none s.1) (s ← sf_status span; non_empty s.2) (service_of r) (scope_text is_name s)
    (scope_text is_version s) (attrs_to_json (resource_attrs_of r)) (scope_json s) None
    (attrs_to_json (sf_attributes span)) None.
Definition base_metrics_row (record : LjxExportRecordV1) (r : option ResourceMessage) (s : option InstrumentationScope) (m : MetricMessage) (kind : string)
    : ParquetRow :=
  mkRow
    (xr_seq record) (Some (xr_timestamp_unix_ns record)) (str "metrics") None None None None None None None None None
    (non_empty (metric_name m)) (non_empty (metric_description m)) (non_empty (metric_unit m)) (Some (str kind)) None
    None None None None None None None None None None None None (service_of r) (scope_text is_name s)
    (scope_text is_version s) (attrs_to_json (resource_attrs_of r)) (scope_json s) None None None.
(** What a data point puts into the row of its metric *)
Record PointOf : Type := mkPoint {
  po_time : Z; po_start : Z; po_number : option F64; po_count : option Z; po_sum : option F64; po_monotonic : option bool;
  po_temporality : option Z; po_attributes : list KeyValue }.
Definition point_row (record : LjxExportRecordV1) (row : ParquetRow) (p : PointOf) : ParquetRow :=
  mkRow
    (pr_sequence row) (Some (Z.max (po_time p) (xr_timestamp_unix_ns record))) (pr_signal_type row)
    (pr_observed_timestamp_unix_ns row) (pr_trace_id row) (pr_span_id row) (pr_trace_flags row)
    (pr_severity_number row) (pr_severity_text row) (pr_body_kind row) (pr_body_string row) (pr_body_json row)
    (pr_metric_name row) (pr_metric_description row) (pr_metric_unit row) (pr_metric_type row) (po_number p)
    (po_count p) (po_sum p) (po_monotonic p) (po_temporality p) (pr_span_name row) (pr_span_kind row)
    (pr_parent_span_id row) (zero_is_none (po_start p)) (pr_end_time_unix_ns row) (pr_duration_ns row)
    (pr_status_code row) (pr_status_message row) (pr_service_name row) (pr_scope_name row) (pr_scope_version row)
    (pr_resource_attributes_json row) (attrs_to_json (po_attributes p)) (pr_log_attributes_json row)
    (pr_span_attributes_json row) (pr_event_name row).
Definition parquet_metric_rows (record : LjxExportRecordV1) (r : option ResourceMessage) (s : option InstrumentationScope) (m : MetricMessage) : list ParquetRow :=
  let number mono temp (dp : NumberDataPoint) :=
    mkPoint (np_time_unix_nano dp) (np_start_time_unix_nano dp) (np_value dp ≫= number_data_point_value_f64) None None mono temp (np_attributes dp) in
  let histogram temp (dp : HistogramDataPoint) :=
    mkPoint (hp_time_unix_nano dp) (hp_start_time_unix_nano dp) None (Some (hp_count dp)) (hp_sum dp) None (Some temp) (hp_attributes dp) in
  let summary (dp : SummaryDataPoint) :=
    mkPoint (sp_time_unix_nano dp) (sp_start_time_unix_nano dp) None (Some (sp_count dp)) (Some (sp_sum dp)) None None (sp_attributes dp) in
  let rows kind points := point_row record (base_metrics_row record r s m kind) <$> points in
  match metric_points m with
  | Some (GaugePoints dps) => rows "Gauge"%string (number None None <$> dps)
  | Some (SumPoints dps monotonic temporality) => rows "Sum"%string (number (Some monotonic) (Some temporality) <$> dps)
  | Some (HistogramPoints dps temporality) => rows "Histogram"%string (histogram temporality <$> dps)
  | Some (ExponentialHistogramPoints dps temporality) => rows "ExponentialHistogram"%string (histogram temporality <$> dps)
  | Some (SummaryPoints dps) => rows "Summary"%string (summary <$> dps)
  | None => [base_metrics_row record r s m "Unknown"]
  end.

Definition logs_rows (record : LjxExportRecordV1) (request : ExportLogsServiceRequest) : list ParquetRow :=
  concat ((λ rl : ResourceLogs, concat ((λ sl : ScopeLogs,
    parquet_log_row record (rl_resource rl) (sl_scope sl) <$> log_records sl) <$> scope_logs rl)) <$> resource_logs request).
Definition metrics_rows (record : LjxExportRecordV1) (batch : list (ResourceOf MetricMessage)) : list ParquetRow :=
  concat ((λ rm, concat ((λ sm, concat (parquet_metric_rows record (ro_resource rm) (so_scope sm) <$> so_entries sm)) <$> ro_scopes rm)) <$> batch).
Definition traces_rows (record : LjxExportRecordV1) (batch : list (ResourceOf SpanFields)) : list ParquetRow :=
  concat ((λ rs, concat ((λ ss, parquet_span_row record (ro_resource rs) (so_scope ss) <$> so_entries ss) <$> ro_scopes rs)) <$> batch).
End RowsOf.

(** ** The writer and the exporter *)

(** What the Arrow writer does with its sink: it writes and flushes, is told of the error if there is one, and returns. *)
Inductive SinkOps (A : Type) : Type :=
| SinkDone (a : A)
| SinkWrite (buf : list Z) (k : option text → SinkOps A)
| SinkFlush (k : option text → SinkOps A).
Arguments SinkDone {A}. Arguments SinkWrite {A}. Arguments SinkFlush {A}.

Inductive Compression : Type := Zstd | Uncompressed.

Class Arrow {FL : Floats} : Type := {
  ArrowWriter : Type;
  batch_try_new : list Field → list ColumnArray → result text (list ColumnArray);
  aw_try_new : list Field → Compression → Z → SinkOps (result text ArrowWriter);
  aw_write : ArrowWriter → list ColumnArray → SinkOps (option text * ArrowWriter);
  aw_flush : ArrowWriter → SinkOps (option text * ArrowWriter);
  aw_finish : ArrowWriter → SinkOps (option text * ArrowWriter);
  in_progress_rows : ArrowWriter → Z;
}.

(** [impl Write for HostSink] *)
Definition sink_status (what : string) (status : Z) : option text :=
  if status =? LJX_EXPORT_STATUS_OK then None else
  if status =? LJX_EXPORT_STATUS_IO then Some (str "host callback " ++ str what ++ str " failed")
  else Some (str "host callback " ++ str what ++ str " returned status " ++ i64_to_string status).
Fixpoint sink_calls {A} (ops : SinkOps A) : Calls A :=
  match ops with
  | SinkDone a => Return a
  | SinkWrite buf k => HostWrite false (Some buf) (len buf) (λ status, sink_calls (k (sink_status "write" status)))
  | SinkFlush k => HostFlush false (λ status, sink_calls (k (sink_status "flush" status)))
  end.
Fixpoint then_call {A B} (c : Calls A) (f : A → Calls B) : Calls B :=
  match c with
  | Return a => f a
  | HostWrite u data n k => HostWrite u data n (λ status, then_call (k status) f)
  | HostFlush u k => HostFlush u (λ status, then_call (k status) f)
  end.

Definition parse_compression (value : text) : result text Compression :=
  let value := to_ascii_lowercase (trim_text value) in
  if decide (value = str "zstd") then Ok Zstd else
  if decide (value = str "uncompressed" ∨ value = str "none") then Ok Uncompressed
  else Err (str "unsupported output.compression `" ++ value ++ str "`; supported values: zstd, uncompressed").
Record ParquetConfig : Type := mkConfig { row_group_rows : Z; compression : Compression }.
Definition config_option (cfg : ParquetConfig) (option : text * text) : result text ParquetConfig :=
  let '(key, value) := option in
  if decide (key = str "output.row-group-rows") then
    let? n := map_err (λ e, str "invalid output.row-group-rows `" ++ value ++ str "`: " ++ str (IntErrorKind_fmt e)) (parse_u64 value) in
    if n =? 0 then Err (str "output.row-group-rows must be greater than zero") else Ok (mkConfig n (compression cfg))
  else if decide (key = str "output.compression") then
    let? c := parse_compression value in Ok (mkConfig (row_group_rows cfg) c)
  else Err (str "unsupported parquet exporter option `" ++ key ++ str "`").
Fixpoint config_options (cfg : ParquetConfig) (options : list (text * text)) : result text ParquetConfig :=
  match options with [] => Ok cfg | option :: options => let? cfg := config_option cfg option in config_options cfg options end.
Definition from_init (options : list (text * text)) : result text ParquetConfig := config_options (mkConfig DEFAULT_ROW_GROUP_ROWS Zstd) options.

Definition status_for_message (message : text) : Z :=
  if contains_text message (str "host callback") || contains_text message (str "flush host output") then LJX_EXPORT_STATUS_IO else LJX_EXPORT_STATUS_ERROR.

Section Plugin.
Context {OP : OtlpParts} {FL : Floats} {VT : ValueTrees} {LC : LogsCodec} {SC : SignalCodec} {JT : JsonText} {AR : Arrow}.
Context (span_flags : SpanFields → Z).

Record ParquetExporter : Type := mkExporter {
  pe_cfg : ParquetConfig; pe_writer : ArrowWriter; pe_rows : RowBuffer; pe_finished : bool; pe_last_error : text }.
Definition set_rows (rows : RowBuffer) (e : ParquetExporter) : ParquetExporter := mkExporter (pe_cfg e) (pe_writer e) rows (pe_finished e) (pe_last_error e).
Definition set_writer (w : ArrowWriter) (e : ParquetExporter) : ParquetExporter := mkExporter (pe_cfg e) w (pe_rows e) (pe_finished e) (pe_last_error e).
Definition fail_status (status : Z) (message : text) (e : ParquetExporter) : Z * ParquetExporter :=
  (status, mkExporter (pe_cfg e) (pe_writer e) (pe_rows e) (pe_finished e) message).

Definition parquet_create (options : list (text * text)) : Calls (option ParquetExporter) :=
  match from_init options with
  | Err _ => Return None
  | Ok cfg =>
      then_call (sink_calls (aw_try_new schema (compression cfg) (row_group_rows cfg))) (λ r,
        Return match r with Ok w => Some (mkExporter cfg w buffer_empty false []) | Err _ => None end)
  end.

(** The rows leave the buffer before the batch is made and written. *)
Definition flush_rows (e : ParquetExporter) : Calls (option text * ParquetExporter) :=
  if buffer_len (pe_rows e) =? 0 then Return (None, e) else
  match batch_try_new schema (buffer_arrays (pe_rows e)) with
  | Err err => Return (Some (str "failed to build parquet batch: " ++ err), set_rows buffer_empty e)
  | Ok batch =>
      let e := set_rows buffer_empty e in
      then_call (sink_calls (aw_write (pe_writer e) batch)) (λ '(err, w),
        let e := set_writer w e in
        match err with
        | Some err => Return (Some (str "failed to write parquet batch: " ++ err), e)
        | None =>
            if row_group_rows (pe_cfg e) <=? in_progress_rows w then
              then_call (sink_calls (aw_flush w)) (λ '(err, w),
                match err with
                | Some err => Return (Some (str "failed to flush parquet row group: " ++ err), set_writer w e)
                | None => then_call (sink_calls (aw_flush w)) (λ '(err, w),
                    Return ((λ err, str "failed to flush host output: " ++ err) <$> err, set_writer w e))
                end)
            else Return (None, e)
        end)
  end.
Definition maybe_flush (e : ParquetExporter) : Calls (Z * ParquetExporter) :=
  if row_group_rows (pe_cfg e) <=? buffer_len (pe_rows e) then
    then_call (flush_rows e) (λ '(err, e),
      Return match err with Some err => fail_status (status_for_message err) err e | None => (LJX_EXPORT_STATUS_OK, e) end)
  else Return (LJX_EXPORT_STATUS_OK, e).

Definition push_rows (rows : list ParquetRow) (e : ParquetExporter) : ParquetExporter := set_rows (foldl buffer_push (pe_rows e) rows) e.
(** One of the three kinds of requests: the kind of the payload, its rows, and what is said of another kind *)
Definition write_rows_of (kind : Z) (name decoded : string) (rows : result string (list ParquetRow)) (record : LjxExportRecordV1) (e : ParquetExporter)
    : Calls (Z * ParquetExporter) :=
  if negb (xr_payload_kind record =? kind) then
    Return (fail_status LJX_EXPORT_STATUS_UNSUPPORTED
      (str "unsupported payload kind " ++ u64_to_string (xr_payload_kind record) ++ str "; parquet exporter currently supports OTLP " ++ str name ++ str " only for " ++ str decoded) e)
  else
  match rows with
  | Err err => Return (fail_status LJX_EXPORT_STATUS_ERROR
                 (str "failed to decode OTLP " ++ str decoded ++ str " payload at seq " ++ u64_to_string (xr_seq record) ++ str ": " ++ str err) e)
  | Ok rows => maybe_flush (push_rows rows e)
  end.
Definition write_logs_record (record : LjxExportRecordV1) (e : ParquetExporter) : Calls (Z * ParquetExporter) :=
  write_rows_of LJX_PAYLOAD_KIND_OTLP_EXPORT_LOGS_REQUEST "ExportLogsServiceRequest" "logs"
    (let? request := decode_logs (xr_payload record) in Ok (logs_rows record request)) record e.
Definition write_metrics_record (record : LjxExportRecordV1) (e : ParquetExporter) : Calls (Z * ParquetExporter) :=
  write_rows_of LJX_PAYLOAD_KIND_OTLP_EXPORT_METRICS_REQUEST "ExportMetricsServiceRequest" "metrics"
    (let? batch := decode_metrics (xr_payload record) in Ok (metrics_rows record batch)) record e.
Definition write_traces_record (record : LjxExportRecordV1) (e : ParquetExporter) : Calls (Z * ParquetExporter) :=
  write_rows_of LJX_PAYLOAD_KIND_OTLP_EXPORT_TRACE_REQUEST "ExportTraceServiceRequest" "traces"
    (let? batch := decode_traces (xr_payload record) in Ok (traces_rows span_flags record batch)) record e.
Definition parquet_write_record (e : ParquetExporter) (record : LjxExportRecordV1) : Calls (Z * ParquetExporter) :=
  if pe_finished e then Return (fail_status LJX_EXPORT_STATUS_ERROR (str "finish already succeeded; further writes are rejected") e) else
  if xr_struct_size record <? RECORD_SIZE then
    Return (fail_status LJX_EXPORT_STATUS_BAD_ARG
      (str "record struct_size " ++ u64_to_string (xr_struct_size record) ++ str " is smaller than host ABI expects " ++ u64_to_string RECORD_SIZE) e) else
  if xr_record_type record =? 1 then write_logs_record record e else
  if xr_record_type record =? 2 then write_metrics_record record e else
  if xr_record_type record =? 3 then write_traces_record record e else
  Return (fail_status LJX_EXPORT_STATUS_UNSUPPORTED (str "unsupported record type " ++ u64_to_string (xr_record_type record)) e).

Definition parquet_finish (e : ParquetExporter) : Calls (Z * ParquetExporter) :=
  if pe_finished e then Return (fail_status LJX_EXPORT_STATUS_ERROR (str "finish already called") e) else
  then_call (flush_rows e) (λ '(err, e),
    match err with
    | Some err => Return (fail_status (status_for_message err) err e)
    | None =>
        then_call (sink_calls (aw_finish (pe_writer e))) (λ '(err, w),
          let e := set_writer w e in
          match err with
          | Some err => Return (fail_status (status_for_message err) (str "failed to finish parquet writer: " ++ err) e)
          | None =>
              then_call (sink_calls (aw_flush w)) (λ '(err, w),
                let e := set_writer w e in
                Return match err with
                       | Some err => fail_status LJX_EXPORT_STATUS_IO (str "failed to flush host output after parquet finish: " ++ err) e
                       | None => (LJX_EXPORT_STATUS_OK, mkExporter (pe_cfg e) w (pe_rows e) true [])
                       end)
          end)
    end).
Definition parquet_last_error (e : ParquetExporter) : LjxAbiString :=
  match pe_last_error e with [] => mkAbiString None 0 | msg => mkAbiString (Some msg) (len msg) end.

Definition abi_static (s : string) : LjxAbiString := mkAbiString (Some (str s)) (len (str s)).
Definition PARQUET_CAPABILITIES : Z :=
  Z.lor LJX_EXPORT_CAP_STREAMING (Z.lor LJX_EXPORT_CAP_RECORD_LOGS (Z.lor LJX_EXPORT_CAP_RECORD_METRICS (Z.lor LJX_EXPORT_CAP_RECORD_TRACES
    (Z.lor LJX_EXPORT_CAP_PAYLOAD_OTLP_EXPORT_LOGS_REQUEST (Z.lor LJX_EXPORT_CAP_PAYLOAD_OTLP_EXPORT_METRICS_REQUEST LJX_EXPORT_CAP_PAYLOAD_OTLP_EXPORT_TRACE_REQUEST))))).
Definition parquet_descriptor : LjxExporterDescriptorV1 ParquetExporter :=
  mkDescriptor DESCRIPTOR_SIZE LJX_EXPORTER_ABI_MAJOR LJX_EXPORTER_ABI_MINOR PARQUET_CAPABILITIES
    (abi_static "parquet") (abi_static "Parquet") (abi_static "parquet")
    parquet_create parquet_write_record parquet_finish parquet_last_error (λ _, Return tt).
End Plugin.

(** ** The columns are the rows *)

Section Columns.
Context {FL : Floats}.
Definition buffer_of (rows : list ParquetRow) : RowBuffer :=
  mkBuffer
    (pr_sequence <$> rows) (pr_timestamp_unix_ns <$> rows) (pr_signal_type <$> rows)
    (pr_observed_timestamp_unix_ns <$> rows) (pr_trace_id <$> rows) (pr_span_id <$> rows) (pr_trace_flags <$> rows)
    (pr_severity_number <$> rows) (pr_severity_text <$> rows) (pr_body_kind <$> rows) (pr_body_string <$> rows)
    (pr_body_json <$> rows) (pr_metric_name <$> rows) (pr_metric_description <$> rows) (pr_metric_unit <$> rows)
    (pr_metric_type <$> rows) (pr_metric_value_number <$> rows) (pr_metric_value_count <$> rows)
    (pr_metric_value_sum <$> rows) (pr_is_monotonic <$> rows) (pr_aggregation_temporality <$> rows)
    (pr_span_name <$> rows) (pr_span_kind <$> rows) (pr_parent_span_id <$> rows) (pr_start_time_unix_ns <$> rows)
    (pr_end_time_unix_ns <$> rows) (pr_duration_ns <$> rows) (pr_status_code <$> rows) (pr_status_message <$> rows)
    (pr_service_name <$> rows) (pr_scope_name <$> rows) (pr_scope_version <$> rows)
    (pr_resource_attributes_json <$> rows) (pr_scope_attributes_json <$> rows) (pr_log_attributes_json <$> rows)
    (pr_span_attributes_json <$> rows) (pr_event_name <$> rows).
Lemma buffer_push_of rows row : buffer_push (buffer_of rows) row = buffer_of (rows ++ [row]).
Proof. unfold buffer_push, buffer_of. cbn -[fmap]. by rewrite !fmap_app. Qed.
Lemma buffer_pushes rows more : foldl buffer_push (buffer_of rows) more = buffer_of (rows ++ more).
Proof.
  revert rows. induction more as [|row more IH]; intros rows; cbn [foldl]; [by rewrite app_nil_r|].
  by rewrite buffer_push_of, IH, <-app_assoc.
Qed.
Lemma buffer_len_of rows : buffer_len (buffer_of rows) = len rows.
Proof. unfold buffer_len, len. cbn [rb_sequence buffer_of]. by rewrite length_fmap. Qed.
Lemma no_nulls_some {A} (l : list A) : no_nulls (Some <$> l).
Proof. apply Forall_fmap, list.Forall_true. done. Qed.
(** The arrays of a buffer fit the schema: as many columns, of its types, of one length, and no nulls where it allows none. *)
Lemma buffer_batch_valid rows : batch_valid schema (buffer_arrays (buffer_of rows)) (length rows).
Proof.
  unfold batch_valid, schema, buffer_arrays, buffer_of. cbn -[fmap].
  repeat (constructor; [split_and!; [reflexivity|cbn [array_len]; by rewrite ?length_fmap|first [discriminate|intros _; apply no_nulls_some]]|]).
  constructor.
Qed.
End Columns.

(** ** What is asked of the Arrow libraries *)

Fixpoint sink_all {A} (P : A → Prop) (ops : SinkOps A) : Prop :=
  match ops with SinkDone a => P a | SinkWrite _ k | SinkFlush k => ∀ r, sink_all P (k r) end.
(** An operation that is told of an error of the sink ends with [failed]. *)
Fixpoint sink_reports {A} (failed : A → Prop) (ops : SinkOps A) : Prop :=
  match ops with
  | SinkDone _ => True
  | SinkWrite _ k | SinkFlush k => sink_reports failed (k None) ∧ ∀ e, sink_all failed (k (Some e))
  end.
(** [aw_table] are the batches that a writer has taken. *)
Class ArrowLaws {FL : Floats} {AR : Arrow} : Type := {
  aw_table : ArrowWriter → list (list ColumnArray);
  try_new_valid fields arrays n : batch_valid fields arrays n → batch_try_new fields arrays = Ok arrays;
  aw_try_new_empty fields c n : sink_all (λ r, ∀ w, r = Ok w → aw_table w = []) (aw_try_new fields c n);
  aw_write_adds w batch : sink_all (λ r, r.1 = None → aw_table r.2 = aw_table w ++ [batch]) (aw_write w batch);
  aw_flush_keeps w : sink_all (λ r, r.1 = None → aw_table r.2 = aw_table w) (aw_flush w);
  aw_finish_keeps w : sink_all (λ r, r.1 = None → aw_table r.2 = aw_table w) (aw_finish w);
  aw_try_new_reports fields c n : sink_reports (λ r, ∃ e, r = Err e) (aw_try_new fields c n);
  aw_write_reports w batch : sink_reports (λ r, r.1 ≠ None) (aw_write w batch);
  aw_flush_reports w : sink_reports (λ r, r.1 ≠ None) (aw_flush w);
  aw_finish_reports w : sink_reports (λ r, r.1 ≠ None) (aw_finish w);
}.

Lemma always_ends_sink {A} (P : A → Prop) ops : sink_all P ops → always_ends P (sink_calls ops).
Proof. induction ops as [a|buf k IH|k IH]; cbn; intros H; [done|..]; intros st; apply IH, H. Qed.
Lemma write_request_buf buf : write_request false (Some buf) (len buf) = Some buf.
Proof.
  unfold write_request. cbn [orb]. rewrite bool_decide_eq_false_2 by done. cbn [andb]. f_equal.
  destruct (Z.eqb_spec (len buf) 0) as [E|_]; [by destruct buf|]. cbn [default from_option]. unfold len, id. rewrite Nat2Z.id. by rewrite firstn_all.
Qed.
Lemma reports_sink {A} (failed : A → Prop) ops : sink_reports failed ops → reports failed (sink_calls ops).
Proof.
  induction ops as [a|buf k IH|k IH]; cbn [sink_reports sink_calls reports]; [done|..].
  - rewrite write_request_buf. intros [H1 H2]. split; [by apply IH|]. apply always_ends_sink, H2.
  - intros [H1 H2]. split; [by apply IH|]. apply always_ends_sink, H2.
Qed.
Lemma always_ends_then {A B} (P : A → Prop) (Q : B → Prop) c f :
  always_ends P c → (∀ a, P a → always_ends Q (f a)) → always_ends Q (then_call c f).
Proof. intros Hc Hf. induction c as [a|u data n k IH|u k IH]; cbn in *; [auto|..]; intros st; apply IH, Hc. Qed.
Lemma reports_then {A B} (P : A → Prop) (Q : B → Prop) c f :
  reports P c → (∀ a, P a → always_ends Q (f a)) → (∀ a, reports Q (f a)) → reports Q (then_call c f).
Proof.
  intros Hc Hp Hf. induction c as [a|u data n k IH|u k IH]; cbn [reports then_call] in *; [auto|..].
  - destruct (write_request u data n); [|by apply IH]. destruct Hc as [H1 H2]. split; [by apply IH|]. by eapply always_ends_then.
  - destruct u; [by apply IH|]. destruct Hc as [H1 H2]. split; [by apply IH|]. by eapply always_ends_then.
Qed.
Lemma answered_always {A} (P : A → Prop) (c : Calls A) : always_ends P c → P (answered c).1.
Proof.
  induction c as [a|u data n k IH|u k IH]; cbn [answered always_ends]; intros H; [done|..].
  - destruct (write_request u data n) as [bs|]; [|apply IH, H]. specialize (IH LJX_EXPORT_STATUS_OK (H _)).
    by destruct (answered (k LJX_EXPORT_STATUS_OK)).
  - apply IH, H.
Qed.
Lemma always_ends_true {A} (P : A → Prop) (c : Calls A) : (∀ a, P a) → always_ends P c.
Proof. intros H. induction c; cbn; auto. Qed.

(** ** The table has every row *)

Section Complete.
Context {OP : OtlpParts} {FL : Floats} {VT : ValueTrees} {LC : LogsCodec} {SC : SignalCodec} {JT : JsonText} {AR : Arrow} {AL : ArrowLaws}.
Context (span_flags : SpanFields → Z).

(** The plugin as the tool loads it *)
Definition parquet_loaded (path : text) : LoadedExporter ParquetExporter :=
  mkLoadedExporter path (str "parquet") (str "Parquet") PARQUET_CAPABILITIES parquet_create (parquet_write_record span_flags) parquet_finish
    parquet_last_error (λ _, Return tt).
Lemma parquet_descriptor_accepted path : validate_descriptor path (parquet_descriptor span_flags) = Ok (parquet_loaded path).
Proof. reflexivity. Qed.

Lemma flush_rows_ends e pending :
  pe_rows e = buffer_of pending →
  always_ends (λ r, r.1 = None → pe_rows r.2 = buffer_of [] ∧ pe_cfg r.2 = pe_cfg e ∧ pe_finished r.2 = pe_finished e ∧
    aw_table (pe_writer r.2) = aw_table (pe_writer e) ++ match pending with [] => [] | _ => [buffer_arrays (buffer_of pending)] end) (flush_rows e).
Proof.
  intros Hr. unfold flush_rows. rewrite Hr, buffer_len_of. destruct pending as [|p pending].
  { change (len [] =? 0) with true. cbn [always_ends fst snd]. intros _. rewrite app_nil_r. by split_and!. }
  destruct (Z.eqb_spec (len (p :: pending)) 0) as [E|_]; [rewrite len_cons in E; pose proof (len_nonneg pending); lia|].
  rewrite (try_new_valid _ _ _ (buffer_batch_valid (p :: pending))). cbv zeta.
  eapply always_ends_then; [apply always_ends_sink, aw_write_adds|]. intros [[err|] w] Hw; [done|]. specialize (Hw eq_refl). cbn [snd] in Hw.
  case_match; [|cbn; intros _; by split_and!].
  eapply always_ends_then; [apply always_ends_sink, aw_flush_keeps|]. intros [[err|] w1] Hw1; [done|]. specialize (Hw1 eq_refl). cbn [snd] in Hw1.
  eapply always_ends_then; [apply always_ends_sink, aw_flush_keeps|]. intros [[err|] w2] Hw2; [done|]. specialize (Hw2 eq_refl). cbn [snd] in Hw2.
  cbn. intros _. split_and!; [done..|]. by rewrite Hw2, Hw1, Hw.
Qed.
Lemma flush_rows_reports e : reports (λ r, r.1 ≠ None) (flush_rows e).
Proof.
  unfold flush_rows. case_match; [done|]. destruct (batch_try_new _ _); [|done].
  eapply reports_then; [apply reports_sink, aw_write_reports| |]; [by intros [[err|] w]|]. intros [[err|] w]; [done|].
  case_match; [|done]. eapply reports_then; [apply reports_sink, aw_flush_reports| |]; [by intros [[err|] w1]|]. intros [[err|] w1]; [done|].
  eapply reports_then; [apply reports_sink, aw_flush_reports| |]; [by intros [[err|] w2]|]. by intros [[err|] w2].
Qed.

(** The parts that are written and the rows that wait are all the rows, and every part fills a row group. *)
Definition holds (all : list ParquetRow) (e : ParquetExporter) : Prop :=
  pe_finished e = false ∧ 0 < row_group_rows (pe_cfg e) ∧
  ∃ parts pending, aw_table (pe_writer e) = (λ p, buffer_arrays (buffer_of p)) <$> parts ∧ pe_rows e = buffer_of pending ∧
    concat parts ++ pending = all ∧ Forall (λ p, row_group_rows (pe_cfg e) ≤ len p) parts ∧ len pending < row_group_rows (pe_cfg e).

Lemma status_for_message_fails msg : status_for_message msg ≠ LJX_EXPORT_STATUS_OK.
Proof. unfold status_for_message. by case_match. Qed.
Lemma fail_ends (P : Z * ParquetExporter → Prop) status msg e :
  status ≠ LJX_EXPORT_STATUS_OK → always_ends (λ r, r.1 = LJX_EXPORT_STATUS_OK → P r) (Return (fail_status status msg e)).
Proof. by intros Hs ?. Qed.
Lemma push_flush_ends all rows e : holds all e →
  always_ends (λ r, r.1 = LJX_EXPORT_STATUS_OK → holds (all ++ rows) r.2) (maybe_flush (push_rows rows e)).
Proof.
  intros (Hf & Hg & parts & pending & Ht & Hr & Ha & Hp & Hl). unfold maybe_flush, push_rows. cbn [set_rows pe_cfg pe_rows].
  rewrite Hr, buffer_pushes, buffer_len_of. set (e1 := set_rows _ e). destruct (Z.leb_spec (row_group_rows (pe_cfg e)) (len (pending ++ rows))) as [Hge|Hlt].
  - eapply always_ends_then; [apply (flush_rows_ends e1 (pending ++ rows) eq_refl)|].
    intros [[err|] e2] H2; [cbn; intros E; by apply status_for_message_fails in E|]. cbn [fst snd always_ends] in *. intros _.
    destruct (H2 eq_refl) as (R2 & C2 & F2 & T2). split; [by rewrite F2|]. rewrite C2. split; [done|].
    exists (parts ++ [pending ++ rows]), []. rewrite T2, R2. split_and!; [|done| | |].
    + destruct (pending ++ rows) eqn:E; [unfold len in Hge; cbn in Hge; lia|]. rewrite fmap_app. cbn [e1 set_rows pe_writer]. by rewrite Ht.
    + rewrite concat_app. cbn. by rewrite <-Ha, !app_nil_r, <-app_assoc.
    + apply Forall_app; split; [done|]. by repeat constructor.
    + done.
  - cbn. intros _. split; [done|]. split; [done|]. exists parts, (pending ++ rows). split_and!; [done|done| |done|done]. by rewrite <-Ha, <-app_assoc.
Qed.

Definition record_table_rows (r : OwnedRecord) : list ParquetRow :=
  let rows {A} (d : result string A) (f : A → list ParquetRow) := match d with Ok x => f x | Err _ => [] end in
  match record_type r with
  | Logs => rows (decode_logs (payload r)) (logs_rows (raw_record r))
  | Metrics => rows (decode_metrics (payload r)) (metrics_rows (raw_record r))
  | Traces => rows (decode_traces (payload r)) (traces_rows span_flags (raw_record r))
  | Events => []
  end.
Lemma write_rows_ends all kind name decoded rows record e : holds all e →
  always_ends (λ r, r.1 = LJX_EXPORT_STATUS_OK → holds (all ++ match rows with Ok rows => rows | Err _ => [] end) r.2) (write_rows_of kind name decoded rows record e).
Proof.
  intros He. unfold write_rows_of. destruct (negb _); [by apply fail_ends|]. destruct rows as [rows|err]; [|by apply fail_ends]. by apply push_flush_ends.
Qed.
Lemma write_record_ends all r e : holds all e →
  always_ends (λ res, res.1 = LJX_EXPORT_STATUS_OK → holds (all ++ record_table_rows r) res.2) (parquet_write_record span_flags e (raw_record r)).
Proof.
  intros He. unfold parquet_write_record. pose proof He as (-> & _). cbn [raw_record xr_struct_size xr_record_type]. cbn [Z.ltb RECORD_SIZE Z.compare Pos.compare Pos.compare_cont].
  unfold record_table_rows. destruct (record_type r); cbn [abi_record_type Z.eqb Pos.eqb].
  - unfold write_logs_record. cbn [raw_record xr_payload]. pose proof (write_rows_ends all LJX_PAYLOAD_KIND_OTLP_EXPORT_LOGS_REQUEST "ExportLogsServiceRequest" "logs"
      (let? request := decode_logs (payload r) in Ok (logs_rows (raw_record r) request)) (raw_record r) e He) as H.
    by destruct (decode_logs (payload r)).
  - unfold write_metrics_record. cbn [raw_record xr_payload]. pose proof (write_rows_ends all LJX_PAYLOAD_KIND_OTLP_EXPORT_METRICS_REQUEST "ExportMetricsServiceRequest" "metrics"
      (let? batch := decode_metrics (payload r) in Ok (metrics_rows (raw_record r) batch)) (raw_record r) e He) as H.
    by destruct (decode_metrics (payload r)).
  - unfold write_traces_record. cbn [raw_record xr_payload]. pose proof (write_rows_ends all LJX_PAYLOAD_KIND_OTLP_EXPORT_TRACE_REQUEST "ExportTraceServiceRequest" "traces"
      (let? batch := decode_traces (payload r) in Ok (traces_rows span_flags (raw_record r) batch)) (raw_record r) e He) as H.
    by destruct (decode_traces (payload r)).
  - by apply fail_ends.
Qed.
Lemma exported_records_hold path all e rs e' out : holds all e →
  exported_records (parquet_loaded path) e rs = Some (e', out) → holds (all ++ concat (record_table_rows <$> rs)) e'.
Proof.
  revert all e out. induction rs as [|r rs IH]; intros all e out He; cbn [exported_records].
  { intros [= <- _]. by rewrite app_nil_r. }
  destruct (is_ok _); [|done]. pose proof (answered_always _ _ (write_record_ends all r e He)) as Hw.
  cbn [le_write_record parquet_loaded]. destruct (answered (parquet_write_record _ e (raw_record r))) as [[st e1] o1]. cbn [fst snd] in Hw.
  destruct (Z.eqb_spec st LJX_EXPORT_STATUS_OK) as [->|]; [|done]. specialize (Hw eq_refl).
  destruct (exported_records (parquet_loaded path) e1 rs) as [[e2 more]|] eqn:E; [|done]. intros [= <- _].
  cbn [fmap list_fmap concat]. rewrite app_assoc. by eapply IH.
Qed.

Lemma reports_return {A} (P : A → Prop) a : reports P (Return a).
Proof. exact I. Qed.
Lemma maybe_flush_reports e : reports (λ r, r.1 ≠ LJX_EXPORT_STATUS_OK) (maybe_flush e).
Proof.
  unfold maybe_flush. destruct (_ <=? _); [|done].
  eapply reports_then; [apply flush_rows_reports| |]; [|by intros [[err|] e2]]. intros [[err|] e2] H; [apply status_for_message_fails|done].
Qed.
(** The plugin passes on the errors of its output. *)
Lemma parquet_reliable path : reliable (parquet_loaded path).
Proof.
  constructor; [intros options|intros e r|intros e|done]; cbn [le_create le_write_record le_finish parquet_loaded].
  - unfold parquet_create. destruct (from_init options); [|done].
    eapply reports_then; [apply reports_sink, aw_try_new_reports| |]; [by intros ? [err ->]|by intros []].
  - unfold parquet_write_record, write_logs_record, write_metrics_record, write_traces_record, write_rows_of.
    repeat match goal with |- reports _ (if ?b then _ else _) => destruct b; [exact I|] | |- reports _ (if ?b then _ else _) => destruct b end; try exact I;
      (match goal with |- context [match ?d with Ok _ => _ | Err _ => _ end] => destruct d end; [|exact I]); apply maybe_flush_reports.
  - unfold parquet_finish. destruct (pe_finished e); [done|].
    eapply reports_then; [apply flush_rows_reports| |]; [intros [[err|] e1] H; [apply status_for_message_fails|done]|]. intros [[err|] e1]; [done|].
    eapply reports_then; [apply reports_sink, aw_finish_reports| |]; [intros [[err|] w] H; [apply status_for_message_fails|done]|]. intros [[err|] w]; [done|].
    eapply reports_then; [apply reports_sink, aw_flush_reports| |]; [by intros [[err|] w2]|]. by intros [[err|] w2].
Qed.

Lemma finish_ends all e : holds all e →
  always_ends (λ r, r.1 = LJX_EXPORT_STATUS_OK → pe_finished r.2 = true ∧
    ∃ parts, aw_table (pe_writer r.2) = (λ p, buffer_arrays (buffer_of p)) <$> parts ∧ concat parts = all ∧ Forall (λ p, p ≠ []) parts) (parquet_finish e).
Proof.
  intros (Hf & Hg & parts & pending & Ht & Hr & Ha & Hp & Hl). unfold parquet_finish. rewrite Hf.
  eapply always_ends_then; [apply (flush_rows_ends e pending Hr)|]. intros [[err|] e1] H1; [by apply fail_ends, status_for_message_fails|].
  destruct (H1 eq_refl) as (_ & _ & _ & T1). cbn [snd] in T1.
  eapply always_ends_then; [apply always_ends_sink, aw_finish_keeps|]. intros [[err|] w] H2; [by apply fail_ends, status_for_message_fails|].
  specialize (H2 eq_refl). cbn [snd] in H2.
  eapply always_ends_then; [apply always_ends_sink, aw_flush_keeps|]. intros [[err|] w2] H3; [by apply fail_ends|].
  specialize (H3 eq_refl). cbn [snd] in H3. cbn [always_ends fst snd pe_finished pe_writer]. intros _. split; [done|].
  assert (Hne : Forall (λ p : list ParquetRow, p ≠ []) parts).
  { eapply list.Forall_impl; [exact Hp|]. intros p Hlp ->. cbn in Hlp. unfold len in Hlp. cbn in Hlp. lia. }
  destruct pending as [|p pending].
  - exists parts. rewrite H3, H2, T1, app_nil_r, Ht. rewrite app_nil_r in Ha. done.
  - exists (parts ++ [p :: pending]). rewrite H3, H2, T1, Ht, fmap_app, concat_app. cbn [fmap list_fmap concat]. rewrite app_nil_r.
    split_and!; [done|done|]. apply Forall_app; split; [done|]. by repeat constructor.
Qed.
Lemma config_positive options cfg : from_init options = Ok cfg → 0 < row_group_rows cfg.
Proof.
  unfold from_init. assert (H0 : 0 < row_group_rows (mkConfig DEFAULT_ROW_GROUP_ROWS Zstd)) by done. revert H0. generalize (mkConfig DEFAULT_ROW_GROUP_ROWS Zstd).
  induction options as [|[k v] options IH]; intros c Hc; cbn [config_options]; [by intros [= <-]|].
  destruct (config_option c (k, v)) as [c'|] eqn:E; [|done]. apply IH. unfold config_option in E. case_decide.
  - destruct (parse_u64 v) as [n|] eqn:En; [|done]. cbn [map_err] in E. destruct (Z.eqb_spec n 0); [done|]. injection E as <-. cbn.
    apply parse_u64_u64 in En. int_solve.
  - case_decide; [|done]. destruct (parse_compression v); [|done]. by injection E as <-.
Qed.
Lemma create_holds options e out : answered (parquet_create options) = (Some e, out) → holds [] e.
Proof.
  unfold parquet_create. destruct (from_init options) as [cfg|] eqn:Ec; [|done]. intros Ha.
  assert (H : always_ends (λ o, ∀ e, o = Some e → holds [] e)
    (then_call (sink_calls (aw_try_new schema (compression cfg) (row_group_rows cfg))) (λ r, Return match r with Ok w => Some (mkExporter cfg w buffer_empty false []) | Err _ => None end))).
  { eapply always_ends_then; [apply always_ends_sink, aw_try_new_empty|]. intros [w|] Hw; cbn; [|done]. intros ? [= <-].
    split; [done|]. split; [by eapply config_positive|]. exists [], []. specialize (Hw _ eq_refl).
    split_and!; [exact Hw|done|done|constructor|]. by eapply config_positive. }
  apply answered_always in H. rewrite Ha in H. by apply H.
Qed.

(** C39: an export to Parquet is complete: the plugin passes on the errors of the output, and when it is created, takes all records and
    finishes, the batches it has handed to the Arrow writer are the columns of exactly the rows of these records, in their order: a row for
    every log record, every data point and every span. *)
Theorem parquet_table_complete path options rs e0 out0 e1 out1 e2 out2 :
  answered (parquet_create options) = (Some e0, out0) →
  exported_records (parquet_loaded path) e0 rs = Some (e1, out1) →
  answered (parquet_finish e1) = (LJX_EXPORT_STATUS_OK, e2, out2) →
  reliable (parquet_loaded path) ∧ pe_finished e2 = true ∧
  ∃ parts, aw_table (pe_writer e2) = (λ p, buffer_arrays (buffer_of p)) <$> parts ∧
    concat parts = concat (record_table_rows <$> rs) ∧ Forall (λ p, p ≠ []) parts.
Proof.
  intros Hc Hr Hf. split; [apply parquet_reliable|]. pose proof (exported_records_hold path [] e0 rs e1 out1 (create_holds _ _ _ Hc) Hr) as Hh.
  pose proof (answered_always _ _ (finish_ends _ _ Hh)) as H. rewrite Hf in H. by apply H.
Qed.
End Complete.

(** ** Findings *)

Section Findings.
Context {OP : OtlpParts} {FL : Floats} {VT : ValueTrees} {LC : LogsCodec} {SC : SignalCodec} {JT : JsonText} {AR : Arrow}.
(** The time of a log record is in no column: all the log records of a request have the time of the stored record. *)
Lemma log_time_not_exported record r s lr t :
  parquet_log_row record r s
    (mkLogRecord t (lr_observed_time_unix_nano lr) (lr_severity_number lr) (lr_severity_text lr) (lr_body lr) (lr_attributes lr)
       (lr_dropped_attributes_count lr) (lr_flags lr) (lr_trace_id lr) (lr_span_id lr) (lr_event_name lr))
  = parquet_log_row record r s lr.
Proof. reflexivity. Qed.
(** The attributes of a data point take the place of those of its scope, which are in no column then. *)
Lemma scope_attributes_replaced record r name version attrs attrs' dropped m points :
  metric_points m = Some (GaugePoints points) →
  parquet_metric_rows record r (Some (mkInstrumentationScope name version attrs dropped)) m
  = parquet_metric_rows record r (Some (mkInstrumentationScope name version attrs' dropped)) m.
Proof. intros Hm. unfold parquet_metric_rows. rewrite Hm. apply list_fmap_ext. intros i p _. reflexivity. Qed.
(** An event is within the capabilities that the plugin announces, and it refuses every one. *)
Lemma parquet_refuses_events span_flags path e r : record_type r = Events →
  is_ok (validate_capabilities (parquet_loaded span_flags path) r (payload_kind r)) = true ∧
  (answered (parquet_write_record span_flags e (raw_record r))).1.1 ≠ LJX_EXPORT_STATUS_OK.
Proof.
  intros Hr. split.
  - unfold validate_capabilities, payload_kind. rewrite Hr. reflexivity.
  - unfold parquet_write_record. destruct (pe_finished e); [done|]. cbn [raw_record xr_struct_size xr_record_type]. rewrite Hr. done.
Qed.
End Findings.

(** ** It applies *)

Section Witness.
#[local] Existing Instances sample_parts logs_codec sample_floats sample_signals stored_externals.

(** A writer that writes the number of rows of a batch, and keeps the batches *)
#[local] Instance plain_json : JsonText := {| f64_is_finite _ := true; f64_to_string := i64_to_string; json_text _ := str "{}"; utc_text _ _ := None |}.
#[local] Instance plain_trees : ValueTrees := λ _, TreeNone.
Definition batch_len (batch : list ColumnArray) : nat := match batch with [] => O | a :: _ => array_len a end.
#[local] Instance counting_arrow : Arrow := {|
  ArrowWriter := list (list ColumnArray);
  batch_try_new _ arrays := Ok arrays;
  aw_try_new _ _ _ := SinkWrite (str "PAR1") (λ r, SinkDone match r with None => Ok [] | Some e => Err e end);
  aw_write w batch := SinkWrite [Z.of_nat (batch_len batch)] (λ r, SinkDone (r, w ++ [batch]));
  aw_flush w := SinkFlush (λ r, SinkDone (r, w));
  aw_finish w := SinkWrite (str "PAR1") (λ r, SinkDone (r, w));
  in_progress_rows w := Z.of_nat (batch_len (default [] (list.last w))) |}.
#[local] Instance counting_laws : ArrowLaws.
Proof.
  refine (Build_ArrowLaws _ counting_arrow (λ w, w) _ _ _ _ _ _ _ _ _); intros; cbn; try done.
  - intros [e|] w; [done|by intros [= <-]].
  - split; [done|]. intros e. by exists e.
Defined.

Definition sample_log (ts : Z) (body : string) : LogRecordMessage :=
  mkLogRecord ts ts 9 (str "INFO") (Some (mkAnyValue (Some (StringValue (str body))))) [] 0 0 [] [] [].
Definition sample_logs_payload : list Z := Eval vm_compute in
  encode_logs (mkLogsRequest [mkResourceLogs None [mkScopeLogs None [sample_log 3 "a"; sample_log 4 "b"] []] []]).
Definition sample_export : list OwnedRecord := [mkRecord Logs 1 4 sample_logs_payload; mkRecord Logs 2 5 sample_logs_payload].
Lemma parquet_table_complete_witness :
  ∃ e0 out0 e1 out1 e2 out2 parts,
    answered (parquet_create [(str "output.row-group-rows", str "3")]) = (Some e0, out0) ∧
    exported_records (parquet_loaded (λ _, 0) (str "/p.so")) e0 sample_export = Some (e1, out1) ∧
    answered (parquet_finish e1) = (LJX_EXPORT_STATUS_OK, e2, out2) ∧
    pr_body_string <$> concat parts = [Some (str "a"); Some (str "b"); Some (str "a"); Some (str "b")] ∧
    aw_table (pe_writer e2) = (λ p, buffer_arrays (buffer_of p)) <$> parts.
Proof.
  destruct (answered (parquet_create [(str "output.row-group-rows", str "3")])) as [o out0] eqn:E0. destruct o as [e0|]; [|vm_compute in E0; discriminate E0].
  destruct (exported_records (parquet_loaded (λ _, 0) (str "/p.so")) e0 sample_export) as [[e1 out1]|] eqn:E1;
    [|vm_compute in E0; injection E0 as <- <-; vm_compute in E1; discriminate E1].
  destruct (answered (parquet_finish e1)) as [[st e2] out2] eqn:E2.
  assert (st = LJX_EXPORT_STATUS_OK) as ->.
  { vm_compute in E0. injection E0 as <- <-. vm_compute in E1. injection E1 as <- <-. vm_compute in E2. injection E2 as <- <- <-. reflexivity. }
  destruct (parquet_table_complete (λ _, 0) (str "/p.so") _ sample_export e0 out0 e1 out1 e2 out2 E0 E1 E2) as (_ & _ & parts & Ht & Hp & _).
  exists e0, out0, e1, out1, e2, out2, parts. split_and!; [done|done|done| |exact Ht]. rewrite Hp. vm_compute. reflexivity.
Defined.
End Witness.
