(* ===== verification/Stress.v ===== *)
(** * The stress plugin

    [plugins/stress-ingest/src/lib.rs]: an active source that makes 25,000 log records with bodies of several
    sizes, under the host of [PluginHost].  The clock of the plugin is an argument, by the number of its readings. *)

From S2P Require Import Prelude Format Text Tokens Writer Reader Protocol Source BufferSpool FileSpool Spool ReplayServer Otlp Policy Ingest FlatRecord SampleCodec LibRequest Instances PluginHost.

(** ** Bodies *)

(** [{:0>width$}] *)
Definition zero_padded (width : nat) (s : text) : text := replicate (width - length s) 48 ++ s.
Definition short_body (seq : Z) (size : nat) : text :=
  str "[" ++ u64_to_string seq ++ str ":" ++ u64_to_string (seq mod 2000) ++ str ":0] short log message padding=" ++ zero_padded (size - 50) (u64_to_string seq).
Definition long_body (seq : Z) : text :=
  let raw := u64_to_string (1234549346844 + seq) in
  str "[" ++ u64_to_string (4834 + seq mod 100) ++ str ":" ++ u64_to_string (5428 + seq mod 200) ++ str ":" ++ u64_to_string seq ++
  str "] handler_station_CGStationHandler_updateStation: " ++
  str "name=StationName(value=Absolut GERMANY, scrolling=false), airLogoId=null, " ++
  str "ptyCode=10, relatedContent={DabSidExtEnsImpl(rawValue=" ++ raw ++ str ")}, " ++
  str "selector=MediumLevelStationSelector(lowLevelStationSelector=SidExtEns(" ++
  str "primaryIdentifier=DabSidExtEnsImpl(rawValue=" ++ raw ++ str "), " ++
  str "secondaryIdentifiers={DabEnsembleImpl(rawValue=180064), ServiceEccImpl(rawValue=224)})), " ++
  str "DabFrequencyImpl(rawValue=180064), mcc=262, freqBasedHybridVisuals=null, " ++
  str "airLogoFileId=FileId(filename=884372_-1998220465.webp, partition=AIRLOGOS)".
Definition extra_padding : text := str ", extra_padding_data=true".
(** The [while] loop; [size] rounds are enough, since each adds a byte at least. *)
Fixpoint pad_loop (fuel : nat) (s : text) (size : nat) : option text :=
  if (size <=? length s)%nat then Some s else match fuel with O => None | S fuel => pad_loop fuel (s ++ extra_padding) size end.
Definition make_body (seq : Z) (size : nat) : option text :=
  if (size <? 100)%nat then Some (short_body seq size) else s ← pad_loop size (long_body seq) size; Some (take size s).

(** Control characters other than the newline and the tabulator become spaces: U+0000 to U+001F, U+007F and,
    in two bytes, U+0080 to U+009F.  No NUL is left for [CString::new] to refuse. *)
Definition is_control_byte (b : Z) : bool := ((b <? 32) || (b =? 127)) && negb (b =? 10) && negb (b =? 9).
Fixpoint cstring_lossy (s : text) : list Z :=
  match s with
  | [] => []
  | b :: s' =>
      match s' with
      | c :: s'' => if (b =? 194) && (128 <=? c) && (c <=? 159) then 32 :: cstring_lossy s'' else (if is_control_byte b then 32 else b) :: cstring_lossy s'
      | [] => [if is_control_byte b then 32 else b]
      end
  end.

(** ** Records *)

Definition body_size (seq : Z) : nat :=
  let k := seq mod 20 in
  if k =? 0 then 4000 else if k =? 1 then 3000 else if k <=? 5 then 500 else if k <=? 9 then 200 else 80.
Definition severity_of (seq : Z) : Z * string :=
  let k := seq mod 5 in
  if k =? 0 then (5, "DEBUG"%string) else if k =? 1 then (9, "INFO"%string) else if k =? 2 then (9, "INFO"%string) else
  if k =? 3 then (13, "WARN"%string) else (17, "ERROR"%string).
Definition stress_attributes (seq : Z) : list (string * text) := [
  ("service.name"%string, str "vendor-harman-tuner-service" ++ u64_to_string (seq mod 3));
  ("scope.name"%string, str "TooMany_RUDI_GATEWAY_VIWI_RUDISVC_EnergyFlowState" ++ u64_to_string (seq mod 7));
  ("stress.msg_type"%string, str "12");
  ("stress.record_nr"%string, u64_to_string (seq * 1000 + 208502));
  ("stress.origin_ts_ns"%string, u64_to_string (959727165693860 + seq))].
(** The sequence numbers are below 25,000, so that no sum or product overflows. *)
Definition stress_record (now seq : Z) (body : text) : LjLogRecord :=
  mkLjLogRecord now (severity_of seq).1 (Some (cstring_lossy (str (severity_of seq).2))) (Some (cstring_lossy body))
    (Some ((λ '(k, v), mkLjAttribute (Some (cstring_lossy (str k))) (Some (cstring_lossy v)) LJ_ATTR_STRING) <$> stress_attributes seq))
    None None None None None.

Record StressPlugin : Type := mkStressPlugin { st_callback : bool; st_readings : nat }.

Section Plugin.
Context (now : nat → Z).

Definition stress_create : StressPlugin := mkStressPlugin false 0.
Definition stress_set_callback (ctx : StressPlugin) : StressPlugin := mkStressPlugin true (st_readings ctx).
Definition emit_record (ctx : StressPlugin) (seq : Z) : list Delivery * StressPlugin :=
  (match make_body seq (body_size seq) with Some body => [OnRecord (stress_record (now (st_readings ctx)) seq body)] | None => [] end,
   mkStressPlugin (st_callback ctx) (S (st_readings ctx))).
Fixpoint emit_sequence (seqs : list Z) (ctx : StressPlugin) : list Delivery * StressPlugin :=
  match seqs with
  | [] => ([], ctx)
  | seq :: seqs => let '(ds, ctx) := emit_record ctx seq in let '(ds', ctx) := emit_sequence seqs ctx in (ds ++ ds', ctx)
  end.
(** [0..count] *)
Definition stress_sequence (count : Z) : list Z := Z.of_nat <$> List.seq 0 (Z.to_nat count).
Definition STRESS_COUNT : Z := 25000.
Definition stress_fetch (ctx : StressPlugin) : Called StressPlugin :=
  if negb (st_callback ctx) then (-1, [], ctx) else
  let emitted := emit_sequence (stress_sequence STRESS_COUNT) ctx in (0, emitted.1, emitted.2).

Definition stress_plugin : PluginHandle StressPlugin :=
  mkPluginHandle _ (Some stress_create) stress_set_callback (λ ctx _, (0, [], ctx)) (Some stress_fetch) None.
End Plugin.

(** ** What a body is *)

Definition printable (b : Z) : Prop := 32 ≤ b ≤ 126.
#[local] Instance printable_dec b : Decision (printable b).
Proof. unfold printable. apply _. Defined.

Lemma str_printable s : bool_decide (Forall printable (str s)) = true → Forall printable (str s).
Proof. apply bool_decide_eq_true_1. Qed.
Lemma number_printable z : is_u64 z → Forall printable (u64_to_string z).
Proof.
  intros Hz. destruct (u64_to_string_spec z Hz) as (_ & H & _). eapply list.Forall_impl; [exact H|]. intros b. unfold digit_byte, printable. lia.
Qed.
Lemma cstring_printable s : Forall printable s → cstring_lossy s = s.
Proof.
  induction 1 as [|b s Hb Hs IH]; [done|]. unfold printable in Hb.
  assert (Hc : is_control_byte b = false) by (unfold is_control_byte; repeat case_match; lia).
  destruct s as [|c s]; cbn [cstring_lossy]; [by rewrite Hc|]. rewrite (proj2 (Z.eqb_neq b 194)) by lia. cbn [andb]. rewrite Hc. f_equal. exact IH.
Qed.
Lemma printable_text s : Forall printable s → from_utf8_lossy (cstring_lossy s) = s.
Proof.
  intros Hs. rewrite cstring_printable by done. apply from_utf8_lossy_ascii. eapply list.Forall_impl; [exact Hs|]. unfold printable. lia.
Qed.

Lemma pad_loop_total fuel s size : (size ≤ length s + fuel)%nat →
  ∃ n, pad_loop fuel s size = Some (s ++ concat (replicate n extra_padding)) ∧ (size ≤ length (s ++ concat (replicate n extra_padding)))%nat.
Proof.
  revert s. induction fuel as [|fuel IH]; intros s Hs; cbn [pad_loop]; destruct (Nat.leb_spec size (length s)) as [H|H];
    try (exists O; cbn; by rewrite app_nil_r); [lia|].
  destruct (IH (s ++ extra_padding)) as (n & E & Hl).
  { rewrite length_app. change (length extra_padding) with 25%nat. lia. }
  exists (S n). cbn [replicate concat]. rewrite app_assoc. by split.
Qed.

Ltac printable_parts :=
  repeat first
    [ apply Forall_app_2 | (apply str_printable; vm_compute; reflexivity)
    | (apply number_printable; unfold in_width, MAX_U64; first [lia | (split; [|]; Z.to_euclidean_division_equations; lia)]) ].

Lemma short_body_printable seq size : 0 ≤ seq < 25000 → Forall printable (short_body seq size).
Proof.
  intros Hs. unfold short_body, zero_padded. printable_parts. apply list.Forall_replicate. unfold printable. lia.
Qed.
Lemma long_body_printable seq : 0 ≤ seq < 25000 → Forall printable (long_body seq).
Proof. intros Hs. unfold long_body. printable_parts. Qed.
(** The body is always made; from a size of 100 on it has this size exactly. *)
Lemma make_body_total seq size : 0 ≤ seq < 25000 →
  ∃ body, make_body seq size = Some body ∧ Forall printable body ∧ ((100 ≤ size)%nat → length body = size).
Proof.
  intros Hs. unfold make_body. destruct (Nat.ltb_spec size 100) as [H|H].
  { exists (short_body seq size). split_and!; [done|by apply short_body_printable|lia]. }
  destruct (pad_loop_total size (long_body seq) size) as (n & -> & Hl); [lia|]. cbn [mbind option_bind].
  eexists. split_and!; [done| |intros _; by rewrite length_take_le].
  apply Forall_take, Forall_app_2; [by apply long_body_printable|]. apply List.Forall_concat, list.Forall_replicate. apply str_printable. vm_compute. reflexivity.
Qed.

(** The shorter ones do not have the size that is asked for: that of the first of them has 66 bytes, not 80. *)
Lemma short_body_not_of_size : (λ s, length s) <$> make_body 10 80 = Some 66%nat.
Proof. vm_compute. reflexivity. Qed.

(** ** The plugin under its host *)

Definition stress_body (seq : Z) : text := default [] (make_body seq (body_size seq)).

Lemma emit_sequence_eq now seqs n : Forall (λ seq, 0 ≤ seq < 25000) seqs →
  (emit_sequence now seqs (mkStressPlugin true n)).1 = imap (λ i seq, OnRecord (stress_record (now (n + i)%nat) seq (stress_body seq))) seqs.
Proof.
  intros Hs. revert n. induction Hs as [|seq seqs Hq _ IH]; intros n; cbn [emit_sequence imap]; [done|].
  unfold emit_record. cbn [st_callback st_readings]. specialize (IH (S n)).
  destruct (make_body_total seq (body_size seq) Hq) as (body & E & _). unfold stress_body at 1. rewrite E. cbn [default from_option].
  destruct (emit_sequence now seqs (mkStressPlugin true (S n))) as [ds ctx]. cbn [fst app] in *. rewrite Nat.add_0_r. f_equal.
  rewrite IH. apply imap_ext. intros i l _. cbn. by rewrite Nat.add_succ_r.
Qed.
Lemma stress_sequence_below count : Forall (λ seq, 0 ≤ seq < count) (stress_sequence count).
Proof. apply Forall_fmap, list.Forall_forall. intros i Hi%elem_of_seq. cbn. lia. Qed.
Lemma stress_sequence_len count : 0 ≤ count → len (stress_sequence count) = count.
Proof. intros H. unfold len, stress_sequence. rewrite length_fmap, length_seq. lia. Qed.

Lemma stress_attributes_printable seq : 0 ≤ seq < 25000 → Forall (λ p : string * text, Forall printable (str p.1) ∧ Forall printable p.2) (stress_attributes seq).
Proof. intros Hs. unfold stress_attributes. repeat apply Forall_cons_2; try apply Forall_nil_2; cbn [fst snd]; split; printable_parts. Qed.

Section Hosted.
Context {EX : Externals} {OP : OtlpParts} {AV : ArrayValues} {LC : LogsCodec} {LW : LogsCodecLaws} {CK : Clock} (now : nat → Z).

(** What a stored log record says of a number of the generator *)
Definition describes_stress (seq : Z) (r : WireRecord) : Prop :=
  wire_type r = Logs ∧
  ∃ log, decode_logs (wire_payload r) =
      Ok (mkLogsRequest [resource_of [] [scope_of (mkInstrumentationScope (str "lj-ingest-plugin") [] [] 0) [log]]]) ∧
    lr_time_unix_nano log = wire_ts r ∧ lr_severity_number log = (severity_of seq).1 ∧
    lr_body log = Some (string_value (stress_body seq)) ∧
    lr_attributes log = (λ '(k, v), key_value (str k) (string_value v)) <$> stress_attributes seq.

(** Printable attributes pass through the interface of the host unchanged. *)
Lemma printable_attributes attrs : Forall (λ p : string * text, Forall printable (str p.1) ∧ Forall printable p.2) attrs →
  to_kv <$> plugin_attrs (Some ((λ '(k, v), mkLjAttribute (Some (cstring_lossy (str k))) (Some (cstring_lossy v)) LJ_ATTR_STRING) <$> attrs))
  = (λ '(k, v), key_value (str k) (string_value v)) <$> attrs.
Proof.
  induction 1 as [|[k v] attrs [Hk Hv] _ IH]; [done|]. cbn [fst snd] in *. cbn [plugin_attrs] in *. rewrite !fmap_cons, <- IH.
  cbn [omap list_omap plugin_attr la_key la_value la_value_type]. rewrite !printable_text by done. done.
Qed.
Lemma stress_described t sq ts seq : 0 ≤ seq < 25000 →
  describes_stress seq (delivered_record (OnRecord (stress_record t seq (stress_body seq))) sq ts).
Proof.
  intros Hs. split; [done|]. cbn [delivered_record wire_payload]. unfold build_otlp_payload. rewrite decode_encode_logs. eexists. split; [done|].
  split; [done|]. split; [done|]. destruct (make_body_total seq (body_size seq) Hs) as (body & E & Hb & _). unfold stress_body. rewrite E. cbn [default from_option]. split.
  - cbn -[cstring_lossy from_utf8_lossy]. by rewrite printable_text.
  - cbn [otlp_log_record lr_attributes otlp_record_of or_attrs stress_record lj_attributes]. by apply printable_attributes, stress_attributes_printable.
Qed.

(** A run of the generator.  It ends without an error, and its 25,000 records are those of the memory spool, in order
    and under consecutive sequence numbers, with their bodies, severities and attributes unchanged. *)
Theorem stress_records_stored d b g :
  d_shared d = mkShared (SpoolBuffer b) g → 0 ≤ d_next_seq d → d_next_seq d + STRESS_COUNT < 2 ^ 64 →
  ∃ d' rs, run_active_plugin (stress_plugin now) d = (Ok tt, d') ∧
    shared_spool (d_shared d') = SpoolBuffer (foldl (λ b r, BufferSpool_append r b) b rs) ∧
    Forall2 describes_stress (stress_sequence STRESS_COUNT) rs ∧
    wire_seq <$> rs = (λ i, d_next_seq d + Z.of_nat i) <$> List.seq 0 (length rs).
Proof.
  intros Hd H0 Hn. unfold run_active_plugin, plugin_context.
  cbn [ph_fetch ph_create ph_set_callback ph_set_generic_callback stress_plugin mbind option_bind]. unfold stress_fetch.
  pose proof (stress_sequence_below STRESS_COUNT) as Hb. pose proof (stress_sequence_len STRESS_COUNT ltac:(unfold STRESS_COUNT; lia)) as Hl.
  change (stress_set_callback stress_create) with (mkStressPlugin true 0). cbn [st_callback negb].
  revert Hb Hl. generalize (stress_sequence STRESS_COUNT). intros seqs Hb Hl.
  pose proof (emit_sequence_eq now seqs 0 Hb) as E. destruct (emit_sequence now seqs (mkStressPlugin true 0)) as [ds ctx]. cbn [fst snd] in E |- *. subst ds.
  destruct (deliver_all_buffer (imap (λ i seq, OnRecord (stress_record (now (0 + i)%nat) seq (stress_body seq))) seqs) d b g Hd H0) as (d' & rs & E & Hr & Hs).
  { unfold len in *. rewrite length_imap. lia. }
  apply (delivered_records (λ i seq, stress_record (now (0 + i)%nat) seq (stress_body seq))) in Hr as [H1 H2].
  exists d', rs. unfold bind. rewrite E. split_and!; [done|done| |done].
  clear -H1 Hb LW. induction H1 as [|seq r seqs rs (i & ts & ->) _ IH]; [constructor|]. apply Forall_cons_iff in Hb as [Hq Hb].
  constructor; [by apply stress_described|by apply IH].
Qed.
End Hosted.
