(* ===== verification/PathReplay.v ===== *)
(** * Replaying and inspecting files

    [logjetd/src/replay.rs], [replay_path_to_otlp_http]: the records of the segment files of a directory go to the
    collectors, log records through a batcher; and [logjetd/src/spool.rs], [inspect_path] and [print_named_segments]: what
    the daemon prints of its files. *)

From S2P Require Import Prelude Format Text Tokens Writer Reader Scan Container RecordLoop Protocol Source FileSpool Segments FileSpoolInv FileReplay SegmentTools Otlp Batcher Collector Ingest Dataset Instances.

(** ** Replaying *)

Section Replay.
Context {EX : Externals} {OT : Otlp} {LC : LogsCodec} {C : Type} {CC : Collector C}.
(** [Instant::now], by the number of its readings *)
Context (now : nat → Z).

(** What the loops change; [rp_error] is the error of a call that has ended them. *)
Record Replay : Type := mkReplay { rp_batcher : OtlpBatcher; rp_conn : C; rp_sent : Z; rp_error : option IoError }.

Definition replay_record : loop_body (nat * Replay) :=
  λ '(n, s) record,
    let call := if decide (record_type record = Logs) then batcher_add (payload record) (now n) else post (record_type record) (payload record) in
    match call (rp_batcher s, rp_conn s) with
    | (Ok _, (b, c)) => ((S n, mkReplay b c (saturating_add MAX_U64 (rp_sent s) 1) None), true)
    | (Err e, (b, c)) => ((S n, mkReplay b c (rp_sent s) (Some e)), false)
    end.
(** An error of a file that cannot be read comes without the state; the error of a collector with it. *)
Fixpoint replay_segments (d : files) (segments : list SegmentInfo) (s : nat * Replay) : result IoError (nat * Replay) :=
  match segments with
  | [] => Ok s
  | segment :: segments =>
      let? s := for_records d (seg_path segment) replay_record s in
      match rp_error s.2 with Some _ => Ok s | None => replay_segments d segments s end
  end.
(** The part of the function after the connection; the number of records when all went well *)
Definition replay_path (d : files) (name : list Z) (size timeout_ms : Z) (c : C) : result IoError (result IoError Z * C) :=
  let? s := replay_segments d (list_named_segments d name) (0%nat, mkReplay (OtlpBatcher_new size timeout_ms) c 0 None) in
  let s := s.2 in
  match rp_error s with
  | Some e => Ok (Err e, rp_conn s)
  | None =>
      match batcher_flush (rp_batcher s, rp_conn s) with
      | (Ok _, (_, c)) => Ok (Ok (rp_sent s), c)
      | (Err e, (_, c)) => Ok (Err e, c)
      end
  end.
End Replay.

Section Command.
Context {EX : Externals} {OT : Otlp} {LC : LogsCodec} {N S G : Type} {RW : ReadWrite S} {NW : Network N S} {GR : Grpc N G}.

Definition replay_path_to_otlp_http (now : nat → Z) (d : files) (name : list Z) (urls : list (list Z)) (size timeout_ms : Z) (net : N)
    : result IoError (result IoError Z * (list (CollectorConnection S G) * N)) :=
  let? endpoints := parse_collector_endpoints urls in
  match multi_connect endpoints net with
  | (Err e, _) => Err e
  | (Ok conns, net) => replay_path now d name size timeout_ms (conns, net)
  end.
Definition validate_replay_path (d : files) (name : list Z) : list (list Z) := seg_path <$> list_named_segments d name.
End Command.

(** ** Inspecting *)

Record InspectSummary : Type := mkInspect { is_reader_stats : ReaderStats; otlp_verified : Z; otlp_failed : Z }.

Section Inspect.
Context {EX : Externals} {OT : Otlp} {LC : LogsCodec} {SC : SignalCodec}.
(** The quotients of the counters, zero for a divisor of zero, as [{:.1}] prints them *)
Context (percent_text average_text : Z → Z → text).

Definition verify_otlp_payload (record : OwnedRecord) : result string unit :=
  match record_type record with
  | Logs | Events => let? _ := decode_logs (payload record) in Ok tt
  | Metrics => let? _ := decode_metrics (payload record) in Ok tt
  | Traces => let? _ := decode_traces (payload record) in Ok tt
  end.
Definition inspect_record (verify_otlp : bool) : loop_body (Z * Z) :=
  λ '(verified, failed) record,
    (if verify_otlp then
       if is_ok (verify_otlp_payload record) then (saturating_add MAX_U64 verified 1, failed) else (verified, saturating_add MAX_U64 failed 1)
     else (verified, failed), true).
Definition inspect_reader (verify_otlp : bool) (reader : LogjetReader) : result IoError InspectSummary :=
  match while_records (inspect_record verify_otlp) (0, 0) reader with
  | Some (Ok (verified, failed), reader) => Ok (mkInspect (r_stats reader) verified failed)
  | Some (Err e, _) => Err (to_io_error e)
  | None => Err (io_error OtherKind "unreachable: record loop")
  end.

Definition record_type_debug (t : RecordType) : string :=
  match t with Logs => "Logs" | Metrics => "Metrics" | Traces => "Traces" | Events => "Events" end.
Definition print_record (record : OwnedRecord) : text :=
  str "type=" ++ str (record_type_debug (record_type record)) ++ str " seq=" ++ u64_to_string (seq record) ++ str " ts=" ++ u64_to_string (ts_unix_ns record) ++
  str " payload_len=" ++ u64_to_string (len (payload record)).
Definition print_failure (record : OwnedRecord) (err : string) : text :=
  str "otlp_decode_failed seq=" ++ u64_to_string (seq record) ++ str " payload_len=" ++ u64_to_string (len (payload record)) ++ str " error=" ++ str err.
Definition record_lines (verify_otlp : bool) (record : OwnedRecord) : list text :=
  (if verify_otlp then match verify_otlp_payload record with Err err => [print_failure record err] | Ok _ => [] end else []) ++ [print_record record].
Definition print_stats (stats : ReaderStats) : text :=
  str "stats blocks_ok=" ++ u64_to_string (blocks_ok stats) ++ str " blocks_bad=" ++ u64_to_string (blocks_bad stats) ++
  str " bytes_skipped=" ++ u64_to_string (bytes_skipped stats) ++ str " records_ok=" ++ u64_to_string (records_ok stats) ++
  str " compressed=" ++ u64_to_string (total_compressed_bytes stats) ++ str " uncompressed=" ++ u64_to_string (total_uncompressed_bytes stats) ++
  str " ratio=" ++ percent_text (total_compressed_bytes stats) (total_uncompressed_bytes stats) ++
  str "% avg_records_per_block=" ++ average_text (records_ok stats) (blocks_ok stats).
(** The lines printed for a file *)
Definition inspect_file (d : files) (path : list Z) (verify_otlp : bool) : result IoError (list text) :=
  let? content := read_file d path in
  let? summary := inspect_reader verify_otlp (reader_new content) in
  let? records := for_records d path (λ lines record, (lines ++ record_lines verify_otlp record, true)) [] in
  Ok ((str "file=" ++ path) :: records ++ [print_stats (is_reader_stats summary)] ++
      (if verify_otlp then [str "otlp_verify logs_ok=" ++ u64_to_string (otlp_verified summary) ++ str " logs_failed=" ++ u64_to_string (otlp_failed summary)] else [])).
(** The entries of a directory come with whether they are files, in the order of [read_dir]; the first error ends the loop. *)
Fixpoint inspect_entries (d : files) (verify_otlp : bool) (entries : list (list Z * bool)) : result IoError (list text) :=
  match entries with
  | [] => Ok []
  | (path, is_file) :: entries =>
      if is_file && is_logjet path then
        let? lines := inspect_file d path verify_otlp in
        let? more := inspect_entries d verify_otlp entries in
        Ok (lines ++ more)
      else inspect_entries d verify_otlp entries
  end.
Definition inspect_path (d : files) (read_dir : option (list (list Z * bool))) (path : list Z) (verify_otlp : bool) : result IoError (list text) :=
  match read_dir with Some entries => inspect_entries d verify_otlp entries | None => inspect_file d path verify_otlp end.

Definition print_summary (s : SegmentSummary) : text :=
  let opt o := match o with Some v => u64_to_string v | None => str "-" end in
  str "segment=" ++ u64_to_string (sum_id s) ++ str " file=" ++ sum_path s ++ str " size_bytes=" ++ u64_to_string (sum_size_bytes s) ++
  str " records=" ++ u64_to_string (sum_record_count s) ++ str " first_seq=" ++ opt (sum_first_seq s) ++ str " last_seq=" ++ opt (sum_last_seq s).
Definition print_named_segments (d : files) (file_name : list Z) : result IoError (list text) :=
  let? summaries := summarise_named_segments d file_name in Ok (print_summary <$> summaries).
End Inspect.

(** ** Everything is replayed *)

Section Facts.
Context {EX : Externals} {EL : ExternalLaws} {OT : Otlp} {LC : LogsCodec} {LL : LogsCodecLaws} {C : Type} {CC : Collector C}.
Context (now : nat → Z).

Definition of_logs (log : list (RecordType * list Z)) : list (RecordType * list Z) := filter (λ x, x.1 = Logs) log.
Definition of_others (log : list (RecordType * list Z)) : list (RecordType * list Z) := filter (λ x, x.1 ≠ Logs) log.
Definition posted (r : OwnedRecord) : RecordType * list Z := (record_type r, payload r).

(** A batcher posts logs only. *)
Definition logs_posted (c c' : recorded C) : Prop := ∃ posts, c'.2 = c.2 ++ posts ∧ Forall (λ x, x.1 = Logs) posts.
Lemma post_logs payload b (c : recorded C) : logs_posted c (post Logs payload (b, c)).2.2.
Proof.
  destruct c as [c log]. unfold post. change (collector_post Logs payload (c, log)) with
    (let '(r, c') := CC Logs payload c in (r, (c', match r with Ok _ => log ++ [(Logs, payload)] | Err _ => log end))).
  unfold logs_posted. destruct (CC Logs payload c) as [[[]|e] c']; cbn [fst snd].
  - exists [(Logs, payload)]. split; [done|by repeat constructor].
  - exists []. by rewrite app_nil_r.
Qed.
Lemma flush_logs b (c : recorded C) : logs_posted c (batcher_flush (b, c)).2.2.
Proof.
  unfold batcher_flush, bind, gets, modify. cbn [fst]. case_match; [exists []; by rewrite app_nil_r|]. apply post_logs.
Qed.
Lemma add_logs payload t b (c : recorded C) : logs_posted c (batcher_add payload t (b, c)).2.2.
Proof.
  unfold batcher_add. unfold bind at 1, gets. cbn [fst]. destruct (_ <=? 1); [apply post_logs|]. destruct (decode_logs payload); [|apply post_logs].
  unfold bind at 1, modify, bind. cbn [fst]. destruct (_ <=? _); [apply flush_logs|]. exists []. by rewrite app_nil_r.
Qed.
Lemma logs_posted_others (c c' : recorded C) : logs_posted c c' → of_others c'.2 = of_others c.2.
Proof.
  intros (posts & -> & Hp). unfold of_others. rewrite list.filter_app. replace (filter _ posts) with (@nil (RecordType * list Z)); [by rewrite app_nil_r|].
  induction Hp as [|x posts Hx _ IH]; [done|]. by rewrite filter_cons_False by (intros H; by apply H).
Qed.
Lemma logs_posted_logs (c c' : recorded C) : logs_posted c c' → ∃ posts, c'.2 = c.2 ++ posts ∧ of_logs c'.2 = of_logs c.2 ++ posts.
Proof.
  intros (posts & E & Hp). exists posts. split; [done|]. rewrite E. unfold of_logs. rewrite list.filter_app. f_equal. clear E.
  induction Hp as [|x posts Hx _ IH]; [done|]. rewrite filter_cons_True by done. by f_equal.
Qed.
Lemma accepted_app log log' : accepted (log ++ log') = accepted log ++ accepted log'.
Proof. unfold accepted. by rewrite fmap_app, concat_app. Qed.

(** What has been replayed of records *)
Record replayed (rs : list OwnedRecord) (s : Replay (C := recorded C)) : Prop := {
  rd_counted : counted (rp_batcher s);
  rd_error : rp_error s = None;
  rd_sent : rp_sent s = Z.min MAX_U64 (len rs);
  rd_others : of_others (rp_conn s).2 = of_others (posted <$> rs);
  rd_logs : accepted (of_logs (rp_conn s).2) ++ held (rp_batcher s) ≡ₚ accepted (of_logs (posted <$> rs));
}.

(** A batcher that has taken in [more]: what it has sent and what it holds grow by this. *)
Lemma logs_part (c c' : recorded C) b b' more X : logs_posted c c' →
  accepted c'.2 ++ held b' ≡ₚ accepted c.2 ++ held b ++ more → accepted (of_logs c.2) ++ held b ≡ₚ X →
  accepted (of_logs c'.2) ++ held b' ≡ₚ X ++ more.
Proof.
  intros (posts & E & ->)%logs_posted_logs H HX. rewrite E in H. rewrite accepted_app, <- app_assoc in H |- *. apply Permutation_app_inv_l in H.
  by rewrite H, app_assoc, HX.
Qed.

Lemma sent_snoc (rs : list OwnedRecord) (r : OwnedRecord) : saturating_add MAX_U64 (Z.min MAX_U64 (len rs)) 1 = Z.min MAX_U64 (len (rs ++ [r])).
Proof. rewrite len_app. change (len [r]) with 1. unfold saturating_add. pose proof (len_nonneg rs). unfold MAX_U64. lia. Qed.

Lemma replay_record_spec rs s n r : accepting C → replayed rs s →
  ∃ s', replay_record (C := recorded C) now (n, s) r = ((S n, s'), true) ∧ replayed (rs ++ [r]) s'.
Proof.
  intros Ha [Hc He Hs Ho Hl]. unfold replay_record. destruct s as [b c sent err]. cbn [rp_batcher rp_conn rp_sent rp_error] in *. case_decide as Ht.
  - destruct (batcher_add_accepting (payload r) (now n) b c Ha Hc) as (b' & c' & E & Hc' & Hp). pose proof (add_logs (payload r) (now n) b c) as Hg.
    rewrite E in Hg |- *. cbn [snd] in Hg. eexists. split; [done|]. constructor; cbn [rp_batcher rp_conn rp_sent rp_error]; try done.
    + by rewrite Hs, (sent_snoc rs r).
    + rewrite (logs_posted_others _ _ Hg), Ho. unfold of_others. rewrite fmap_app, list.filter_app. cbn [fmap list_fmap]. rewrite filter_cons_False by (intros H; by apply H).
      by rewrite list.filter_nil, app_nil_r.
    + rewrite (logs_part _ _ _ _ _ _ Hg Hp Hl). unfold of_logs. rewrite fmap_app, list.filter_app. cbn [fmap list_fmap]. rewrite filter_cons_True by done.
      rewrite list.filter_nil, accepted_app. unfold accepted at 3. cbn [fmap list_fmap concat posted snd]. by rewrite app_nil_r.
  - destruct (post_accepting (record_type r) (payload r) b c Ha) as (c' & E & El). rewrite E. eexists. split; [done|].
    constructor; cbn [rp_batcher rp_conn rp_sent rp_error]; try done.
    + by rewrite Hs, (sent_snoc rs r).
    + rewrite El. unfold of_others in *. rewrite fmap_app, !list.filter_app, Ho. done.
    + rewrite El. unfold of_logs in *. rewrite fmap_app, !list.filter_app. cbn [fmap list_fmap posted]. rewrite !filter_cons_False by done. by rewrite list.filter_nil, !app_nil_r.
Qed.

Lemma replay_records_spec rs more s n : accepting C → replayed rs s →
  ∃ m s', fold_until (replay_record (C := recorded C) now) (n, s) more = ((m, s'), true) ∧ replayed (rs ++ more) s'.
Proof.
  intros Ha. revert rs s n. induction more as [|r more IH]; intros rs s n Hs; cbn [fold_until].
  { exists n, s. by rewrite app_nil_r. }
  destruct (replay_record_spec rs s n r Ha Hs) as (s1 & -> & H1). destruct (IH _ s1 (S n) H1) as (m & s2 & E & H2).
  exists m, s2. rewrite <- app_assoc in H2. by split.
Qed.
Lemma replay_segments_spec d stem segs rs s n : accepting C → dir_readable d stem → (∀ seg, seg ∈ segs → seg ∈ list_segments d stem) → replayed rs s →
  ∃ m s', replay_segments (C := recorded C) now d segs (n, s) = Ok (m, s') ∧ replayed (rs ++ concat ((λ seg, file_records d (seg_path seg)) <$> segs)) s'.
Proof.
  intros Ha Hd. revert rs s n. induction segs as [|seg segs IH]; intros rs s n Hsub Hs; cbn [replay_segments].
  { exists n, s. cbn. by rewrite app_nil_r. }
  assert (Hin : seg ∈ list_segments d stem) by (apply Hsub; by left). pose proof (proj1 (elem_of_list_segments _ _ _) Hin) as [[content Hl] _].
  destruct (Hd seg content Hin Hl) as [Hb Hsz]. destruct (holds_total content ltac:(done)) as [found Hh].
  rewrite (for_records_holds _ _ _ _ _ _ Hl Hh Hsz). destruct (replay_records_spec rs found s n Ha Hs) as (m & s1 & -> & H1). cbn [fst snd].
  rewrite (rd_error _ _ H1). destruct (IH _ s1 m ltac:(intros; apply Hsub; by right) H1) as (m' & s2 & E & H2). exists m', s2. split; [done|].
  cbn [fmap list_fmap concat]. by rewrite (file_records_holds _ _ _ _ Hl Hh Hsz), app_assoc.
Qed.

(** The records of the segment files, in the order of the segments *)
Definition path_records (d : files) (name : list Z) : list OwnedRecord :=
  concat ((λ seg, file_records d (seg_path seg)) <$> list_named_segments d name).

(** C40: replaying a directory.  With a collector that accepts what it is sent, the command returns the number of the records in the
    segment files; the collector has been sent their metrics, traces and events one by one in order, and exactly the log
    records of their logs, whatever the size of the batches. *)
Theorem path_replay_delivers d name size timeout_ms (c : C) :
  accepting C → dir_readable d (derive_base_stem name) →
  ∃ c', replay_path (C := recorded C) now d name size timeout_ms (c, []) = Ok (Ok (Z.min MAX_U64 (len (path_records d name))), c') ∧
    of_others c'.2 = of_others (posted <$> path_records d name) ∧
    accepted (of_logs c'.2) ≡ₚ accepted (of_logs (posted <$> path_records d name)).
Proof.
  intros Ha Hd. unfold replay_path, path_records, list_named_segments.
  set (segs := list_segments _ _). set (s0 := mkReplay _ _ _ _).
  assert (H0 : replayed [] s0) by by constructor.
  destruct (replay_segments_spec d (derive_base_stem name) segs [] s0 0 Ha Hd ltac:(done) H0) as (m & s & -> & Hs). cbn [fst snd app] in *.
  rewrite (rd_error _ _ Hs). destruct (batcher_flush_accepting (rp_batcher s) (rp_conn s) Ha (rd_counted _ _ Hs)) as (b' & c' & E & _ & Hb & Hl).
  pose proof (flush_logs (rp_batcher s) (rp_conn s)) as Hg. rewrite E in Hg |- *. cbn [snd] in Hg. exists c'. rewrite (rd_sent _ _ Hs). split; [done|]. split.
  - rewrite (logs_posted_others _ _ Hg). apply Hs.
  - assert (Hp : accepted c'.2 ++ held b' ≡ₚ accepted (rp_conn s).2 ++ held (rp_batcher s) ++ []) by by rewrite Hl, Hb, !app_nil_r.
    pose proof (logs_part _ _ _ _ _ _ Hg Hp (rd_logs _ _ Hs)) as H. by rewrite Hb, !app_nil_r in H.
Qed.
End Facts.

(** ** What is printed *)

Section Printed.
Context {EX : Externals} {EL : ExternalLaws} {OT : Otlp} {LC : LogsCodec} {SC : SignalCodec}.

Definition decodes (r : OwnedRecord) : bool := is_ok (verify_otlp_payload r).
Lemma inspect_fold rs v f : 0 ≤ v → 0 ≤ f → v + f + len rs ≤ MAX_U64 →
  fold_until (inspect_record true) (v, f) rs = ((v + len (List.filter decodes rs), f + len (List.filter (λ r, negb (decodes r)) rs)), true).
Proof.
  revert v f. induction rs as [|r rs IH]; intros v f Hv Hf Hm; cbn [fold_until inspect_record List.filter].
  { by rewrite !Z.add_0_r. }
  rewrite len_cons in Hm. pose proof (len_nonneg rs). fold (decodes r). unfold saturating_add.
  destruct (decodes r); cbn [negb]; rewrite len_cons, Z.min_r, IH by lia; rewrite <- Z.add_assoc; done.
Qed.
Lemma lines_fold verify acc rs :
  fold_until (λ lines record, (lines ++ record_lines verify record, true)) acc rs = (acc ++ concat (record_lines verify <$> rs), true).
Proof.
  revert acc. induction rs as [|r rs IH]; intros acc; cbn [fold_until fmap list_fmap concat]; [by rewrite app_nil_r|]. by rewrite IH, <- app_assoc.
Qed.

(** Inspecting a file.  Every file of bytes that is small enough for the reader is printed: a line for every record the reader delivers,
    with another before it when its payload does not decode, and at the end how many did and did not. *)
Theorem inspect_prints_records percent average d path content :
  d !! path = Some content → small_file content →
  len (file_records d path) ≤ MAX_U64 →
  let rs := file_records d path in
  ∃ stats, inspect_file percent average d path true = Ok ((str "file=" ++ path) :: concat (record_lines true <$> rs) ++
    [print_stats percent average stats;
     str "otlp_verify logs_ok=" ++ u64_to_string (len (List.filter decodes rs)) ++ str " logs_failed=" ++ u64_to_string (len (List.filter (λ r, negb (decodes r)) rs))]).
Proof.
  intros Hl [Hb Hs] Hm rs. destruct (holds_total content ltac:(done)) as [found Hh]. pose proof (file_records_holds _ _ _ _ Hl Hh Hs) as E. subst rs. rewrite E in *.
  unfold inspect_file. rewrite (for_records_holds _ _ _ _ _ _ Hl Hh Hs). unfold read_file. rewrite Hl. cbn [ok_or]. unfold inspect_reader.
  destruct (while_records_delivers (inspect_record true) (0, 0) _ _ (holds_delivers _ _ Hh Hs)) as (r' & Hw). unfold reader_new. rewrite Hw.
  rewrite inspect_fold by (rewrite ?Z.add_0_l; done || lia). cbn [fst]. rewrite lines_fold. by exists (r_stats r').
Qed.
End Printed.

(** ** The theorems apply *)

Section Sample.
#[local] Existing Instances stored_externals stored_laws sample_otlp sample_codec sample_codec_laws counting_collector.

(** Two segments: two requests of log records and some metrics between them. *)
Definition replay_file (rs : list OwnedRecord) : list Z :=
  match write_log [] WriterConfig_default rs with Ok bytes => bytes | Err _ => [] end.
Definition replay_dir : files := Eval vm_compute in
  <[str "bar.logjet" := replay_file [mkRecord Logs 1 10 (sample_request [1; 2]); mkRecord Metrics 2 11 [7; 7]]]>
  {[str "bar-1.logjet" := replay_file [mkRecord Logs 3 12 (sample_request [3])]]}.
Lemma replay_dir_readable : dir_readable replay_dir (derive_base_stem (str "bar.logjet")).
Proof.
  intros seg content _ Hl. assert (Hall : map_Forall (λ _ c, small_file c) replay_dir).
  { unfold small_file. apply (bool_decide_unpack _). vm_compute. exact I. }
  exact (Hall _ _ Hl).
Qed.

(** In batches of two the first request goes out at once, the other with the last flush. *)
Lemma path_replay_delivers_witness :
  ∃ c', replay_path (C := recorded Z) (λ _, 0) replay_dir (str "bar.logjet") 2 1000 (0, []) = Ok (Ok 3, c') ∧
    of_others c'.2 = [(Metrics, [7; 7])] ∧ accepted (of_logs c'.2) ≡ₚ accepted [(Logs, sample_request [1; 2]); (Logs, sample_request [3])].
Proof.
  destruct (path_replay_delivers (C := Z) (λ _, 0) replay_dir (str "bar.logjet") 2 1000 0) as (c' & Hr & Ho & Hl).
  - intros t payload c. by eexists.
  - apply replay_dir_readable.
  - exists c'. split_and!; [rewrite Hr; vm_compute; reflexivity|rewrite Ho; vm_compute; reflexivity|rewrite Hl].
    assert (of_logs (posted <$> path_records replay_dir (str "bar.logjet")) = [(Logs, sample_request [1; 2]); (Logs, sample_request [3])]) as -> by (vm_compute; reflexivity).
    reflexivity.
Defined.
End Sample.
